(* ===== verification/_CoqProject ===== *)
-Q . S2P
Prelude.v
Sha256.v
Utf8.v
Mailbox.v
Lexer.v
Rules.v
Resolve.v
Classify.v
Policy.v
Bytes.v
Profile.v
Emit.v
Cache.v
CacheFacts.v
Rfc822.v
AddressList.v
AddressFacts.v
Headers.v
HeadersFacts.v
Import.v
ImportFacts.v
Storage.v
StorageFacts.v
StorageEnds.v
MergeFacts.v
Pool.v
PoolFacts.v
Contact.v
ContactFacts.v
ContactRuns.v
Files.v
FilesFacts.v
Generation.v
GenerationFacts.v
Passive.v
Recovery.v
Publication.v
Atomicity.v
Readers.v
Snapshot.v
Compile.v
SnapshotFacts.v
Recollection.v
Session.v
Selection.v
Batch.v
Main.v
BatchFacts.v
BatchEnds.v
BatchPool.v
BatchRuns.v
BatchReports.v
CompileMain.v
CompileFacts.v
LegacyMain.v
