(* ===== verification/Prelude.v ===== *)
(** * A verification development for the JaroMail mail filter

    The native filter of JaroMail (the C files of src/src/filter and the bounded
    address parser of src/src/rfc822.c) sorts mail: it parses policy files into
    rules, resolves and indexes them, reads the headers of a message, finds the
    first rule that applies, compiles policies into a checked cache and into
    generated text, installs what it compiled as the current generation, reads
    generated Sieve back, moves messages between Maildirs with a pool of workers,
    and adds contacts to an address book.  The program jaro-filter.c drives the
    batch: it pins a generation, loads its policy, and classifies or moves the
    messages it is given; jaro-filter-compile.c and jaro-filter-legacy.c are the
    programs that compile, and that guard the shell workflow.  The older list parser of rfc822.c reads
    address fields for other tools.  This library models that code as pure
    functions of their inputs and oracles, as programs over a directory tree where
    files are replaced, and as a relation on states for the threads, and proves
    what makes it correct.

    ** How the code is modelled

    A byte is an integer in 0..255, a buffer a list of bytes, a C string the list
    of the bytes before its terminator.  Machine integers are integers in Z, with
    the wrap-around of [size_t] written where the code can reach it.  A status
    with an error record is a [res]: [Ok] with the value, or [Fail] with the
    status and the [jf_error] that the code writes; the code's [goto bad] is the
    bind of [res].  What is not in the repository is a parameter: memory is an
    oracle that grants or refuses each request, numbered in order
    ([Rules.Allocator], [Bytes.Heap]); the POSIX regular expressions are the class
    [Rules.PosixRegex]; the kernel, other programs and stop requests are the class
    [Storage.System], which answers each system call from all calls before it.
    Where the code installs files that it reads again after a crash, a system call
    is a program on the tree of [Files]: the class [Files.Kernel] decides which
    calls fail, are short, or are the last of the process, what a loss of power
    leaves of each entry that was not synchronised, and what others do to the tree
    before the lock is held; the class [Snapshot.Paths] gives what the kernel says
    of a path and what the exporter of the address books prints.
    [qsort] is a stable insertion sort; where the result must not depend on
    stability the comparator is shown to be total on what is sorted.  Buffers
    passed by pointer are passed by value and returned, which is faithful because
    no two live pointers reach them; releasing memory has no effect on the models.

    ** The files

    - [Prelude]: bytes, strings, errors, comparators, sorting, runs of equal keys.
    - [Sha256] (sha256.c, the digests of product_util.c): the streaming state, the
      compression, the padding, and FIPS 180-4 as a reference.
    - [Utf8], [Mailbox], [Lexer] (policy.c): the UTF-8 validator, domains,
      mailboxes and their in-place normaliser, the line lexer and the quoting.
    - [Rules], [Resolve], [Policy] (policy.c, policy_internal.h): the records and
      the growing entry vector, the line parser, the two grouping passes that
      number and discard rules, [jf_policy_parse] and [jf_policy_restore].
    - [Classify] (classify.c): the matching index, the binary search with its
      counters, the checks of a message and the choice of the winner.
    - [Bytes] (product_util.c): growing buffers with limits and overflow checks.
    - [Profile] (profile.c, regex_subset.c): the exportable expressions, the
      profile file and the mailbox of a rule.
    - [Emit] (emit.c): the zsh arrays and the Sieve script.
    - [Cache], [CacheFacts] (cache.c): the records of a compiled policy, their
      validator and readers; fingerprints of the dependencies.
    - [Rfc822] (rfc822.c, the bounded parser): comments, quoted strings, phrases,
      address specifications, groups and the callback for each mailbox.
    - [AddressList], [AddressFacts] (rfc822.c, the list parser and the writer): tokens,
      addresses with routes and comments, groups, the buffers of fixed size, the
      errors, and the text of a list.
    - [Headers], [HeadersFacts] (headers.c): chunked input with interruptions,
      physical lines, unfolded fields, the message and the digest of its bytes.
    - [Import], [ImportFacts], [MergeFacts] (import.c): the tokens and commands of
      generated and legacy scripts, the inverse of the mailbox mapping, the
      recovered sources, and the merge into the configuration files.
    - [Storage], [StorageFacts], [StorageEnds] (storage.c): the batch lock, the
      directories, the verified copy and the move, over system calls.
    - [Pool], [PoolFacts] (pool.c): the workers, the collector of signals and the
      coordinator.  Each section under the mutex is one function on the state, a
      choice names the thread that runs its next section, and [Pool.reaches] is
      the relation of all interleavings; the resources of a start.
    - [Contact], [ContactFacts], [ContactRuns] (contact.c): the scan of a book, the
      record of a contact, and the run that appends it, over system calls.
    - [Files], [FilesFacts]: the tree with what may survive of each entry, the
      programs over it with their jumps to [done] and [iteration], and the rules to
      reason about a program that may be cut anywhere.
    - [Generation], [GenerationFacts] (generation.c): the lock, the journals, the
      staged directory, [publish], [recover], and the readers that pin a verified
      generation.
    - [Passive] (generation.c): programs that leave the tree alone, but for what
      others do before the lock is given; the parts of [Generation] that only read.
    - [Recovery], [Publication], [Atomicity], [Readers]: the states a transaction
      may leave, what [recover] makes of them, that every cut of a publication
      leaves one of them, and what follows for a recovery and for a reader.
    - [Snapshot], [SnapshotFacts], [Recollection] (snapshot.c): the collection of
      the sources with their dependencies, the exported address books, and what two
      collections with one fingerprint share.
    - [Compile] (generation.c): [jf_compile] and [jf_compile_import].
    - [Session], [Selection], [Batch], [Main] (jaro-filter.c): a run of the program
      with its calls, its pool and its signals; the messages it selects; their
      preparation, moves and records, one by one and in windows of the pool; the
      arguments, the start of the moves and the exit status.
    - [BatchFacts], [BatchEnds], [BatchPool], [BatchReports], [BatchRuns]: what a
      run may add to its calls, the specifications of the steps of a batch, the
      coordinator's calls between those of the threads, the theorems on the whole
      program, and a run of it.

    They compose as the code does.  [Policy.jf_policy_parse] calls the lexer, the
    rules, the resolution and the index of [Classify]; [Cache.jf_products_build]
    calls the profile's mailboxes and the digests; [Cache.jf_cache_policy] the
    validator and [Policy.jf_policy_restore]; [Headers] calls [Rfc822] with a
    callback and [Sha256] on each byte; [Import.jf_sieve_import] calls the headers
    parser for legacy contacts, the profile, and [Policy.jf_policy_parse] on what
    it recovered; the views [Pool.worker_view] gives the workers are the
    [Storage.jf_storage] their moves run with.  [Compile.jf_compile] collects with
    [Snapshot.read], builds with [Cache.jf_products_build], and under the lock
    recovers, collects again and publishes with [Generation]; the import runs
    [Import.jf_sieve_import] and [Import.jf_import_merge] and publishes the changed
    files in the same transaction.  [Main.main] is the client of them all: it pins
    with [Generation.jf_generation_pin] on the tree of [Files], loads with
    [Cache.jf_cache_policy], starts with [Storage.jf_storage_begin] and
    [Pool.jf_pool_start], and for each message reads with
    [Headers.jf_headers_read], decides with [Classify.jf_policy_classify] and
    moves with [Storage.jf_storage_move]; its pool is the relation of [Pool], where
    its own calls are the coordinator's choices and the surroundings answer with
    those of the other threads.

    ** What the theorems show

    - Policies: every parsed policy is sorted, indexed, free of duplicate keys and
      canonical; resolution keeps exactly the effective rules; refused memory
      never changes a result; statuses are those documented.
    - Classification: the winner is the first rule that applies, found in
      logarithmically many comparisons; a checked message always has one.
    - Products: a cache has one encoding, loads to the same rules, and classifies
      as the policy it was made from; mailboxes stay distinct; generated text is
      complete.
    - Messages: mailboxes are found completely and within bounds; a printed list
      of fields parses to the message it denotes; only the header block is read,
      however it is delivered; what is accepted passes the classifier.
    - Import: every script is read in the tokens it has; the name recovered for a
      mailbox is the only candidate that maps back, with the exceptions stated; a merge appends exactly what
      is missing, keeps order and uses fresh numbers.
    - Generations: wherever a publication is cut, and whatever losses of power and
      attempts at recovery follow, a recovery that succeeds finds the public file,
      the selector and every imported file as they were before, or all as they are
      after, and after it when success was reported; a reader that gets the selected
      generation gets one of the two, complete and verified, at any time; a journal
      has one text.
    - Snapshots: every source is covered by one dependency, so two collections with
      one fingerprint are of the same sources unless SHA-256 collides: what the code
      relies on when it compares fingerprints under the lock; an exported book keeps
      one line for each row and warns of exactly the rows it drops.
    - Moves: every call of every run, with any interference and cut anywhere, was
      allowed by those before it, so the message is removed only after a verified,
      synchronised and confirmed copy; at the end it is accounted for; no
      descriptor is lost by the start of a batch; with finitely many interrupted
      calls everything returns.
    - Workers: a window returns when every job was run exactly once; no wakeup is
      lost, so windows and the end of the pool return; no job passes a check after
      a stop; the workers of a batch share no name.
    - The batch: in the default mode every call of a run reads, and the pin of the
      generation leaves the engine's tree alone
      ([BatchReports.default_mode_reads]); when the status is 0 or 7 the output is
      complete, with one record for each message in order, the decision that the
      policy of the pinned generation gives for the headers that were read, and a
      move that its calls account for ([BatchReports.batch_reports]).
    - The compiler: with the option to check, a run of the program changes nothing
      of the tree ([CompileFacts.compile_check_reads]).
    - Address lists: the parser returns on every input with texts that fit its
      buffers, and reads back the lists that were written in full, when their names
      and mailboxes have the form of [AddressFacts.list_ok]
      ([AddressFacts.adrlist_roundtrip]).
    - Contacts: the one write of a run is the whole record, to a locked and
      unchanged book; the extended book holds the contact, with a fresh number,
      except for the lines that the code writes and does not read back.
    - Byte level: SHA-256, UTF-8, domains, mailbox spelling, the lexer, the
      buffers and the exportable expressions against reference definitions.

    ** Fuel

    A loop that is not structural takes fuel, and a result without enough is a
    value of its own, never a result of the code.  The reader of scripts has two
    more than the bytes left, and each turn consumes a token
    ([ImportFacts.import_terminates]); the binary search has one more than its
    range; the readers of the cache have one per record; the lexer and the address
    parsers one per byte ([AddressFacts.adrlist_good]).
    The loops over interrupted system calls have a fuel that
    is a parameter: one more turn than bytes and interruptions is enough
    ([StorageEnds.move_returns], [ContactRuns.contact_add_returns]), and the safety
    of a run holds with any fuel.  The loops of generation.c and snapshot.c that
    read, write and copy take the same parameter, and what is proved of them holds
    with any; the include files of accounts nest as deep as the code allows, 64, and
    the walk has one more.  The interleavings of the pool have no fuel:
    [PoolFacts.pool_returns] bounds their progress.  The batch has the same
    parameter for the calls it makes; the loop over messages and the loop over
    windows are bounded by the number of messages.  A run of the batch also has no
    result where the surroundings let a thread do what it cannot do; the theorems
    on the batch are about the runs that have one, and [BatchRuns.sample_applies]
    is one that goes through the pool.

    ** Not modelled

    - The test hooks, compiled only with JF_TESTING, and the fallback of [restore]
      for systems without renameat2 other than on its documented errors.
    - In the batch: the buffers of the C library, so a write fails at once and not
      at the next flush; the callback [independent_destination] inside the moves of
      a pool, which is an answer of [Storage.System]; and the moment inside a job
      where another thread stops it, which is an answer of the same class.  The
      engine's tree is read in one piece when the generation is pinned.
    - In the programs around the compiler: the warning of an import of legacy Sieve
      that goes to the error stream.  The command that jaro-filter-legacy.c executes
      is a parameter, and a read of a stream gives a block, the end or an error.
    - A lock on the tree of [Files] has no kind: the shared lock of a reader and the
      exclusive one of a writer are the same call there.
    - What the processes that export address books do between fork and exit; a run
      of one is an answer of [Snapshot.Paths].  Others change the tree of [Files]
      only while a process waits for the lock.  A computation that fails for memory
      in [Compile] counts as one request, which only numbers the later ones.
    - dotlock.c, fetchaddr.c, gpgewrap.c, rfc2047.c, parsedate.c and the allocation of
      helpers.c, which serve other tools of the repository.  The address list has
      no field for the text as parsed, which only EXACT_ADDRESS compiles, and its
      calloc is taken to succeed, as the code takes it.
    - The GNOME keyring and MailToMutt programs, the shell code and the build,
      which hold no logic of the filter. *)
From Stdlib Require Export ZArith Lia Sorted.
From Stdlib Require Ascii String.
From stdpp Require Export base list strings sorting.

Open Scope Z_scope.

(** ** Bytes and byte strings

    A C [unsigned char] is an integer in 0..255, a buffer with an explicit size
    is a list of them, and a NUL-terminated C string is the list of the bytes
    before its terminator. *)

Abbreviation bytes := (list Z).

Definition char_code (s : string) : Z :=
  match s with
  | String.String a _ => Z.of_N (Ascii.N_of_ascii a)
  | String.EmptyString => 0
  end.

(** A string literal of the C source. *)
Definition str (s : string) : bytes :=
  map (fun a => Z.of_N (Ascii.N_of_ascii a)) (String.list_ascii_of_string s).

Notation "'ch' s" :=
  (ltac:(let v := eval vm_compute in (char_code s%string) in exact v))
  (at level 9, s at level 0, only parsing) : Z_scope.
Abbreviation DQ := 34 (only parsing).
Abbreviation BSL := 92 (only parsing).
Abbreviation LF := 10 (only parsing).
Abbreviation CR := 13 (only parsing).
Abbreviation HT := 9 (only parsing).
Abbreviation SP := 32 (only parsing).

Definition zlen {A} (l : list A) : Z := Z.of_nat (length l).

Definition is_byte (c : Z) : Prop := 0 <= c < 256.
Abbreviation bytes_ok := (Forall is_byte).
(** The bytes of a C string: no NUL before the terminator. *)
Abbreviation cstr_ok := (Forall (fun c => 0 < c < 256)).

(** ** Machine integers *)

Definition SIZE_MAX : Z := 2 ^ 64 - 1.
Definition UINT32_MAX : Z := 2 ^ 32 - 1.
Definition size_t (n : Z) : Z := n mod 2 ^ 64.

(** The values of [errno] that the code tells apart or a call here sets. *)
Inductive errno :=
  | ENOENT | EEXIST | EINTR | EACCES | EAGAIN | ENOSYS | EINVAL | EOPNOTSUPP | ENOMEM | EOVERFLOW
  | ELOOP | ENOTDIR | EISDIR | ENOTEMPTY | EOTHER (n : Z).
#[export] Instance errno_eq : EqDecision errno. Proof. solve_decision. Defined.

(** ** Errors and results

    [struct jf_error] of policy.h, and the result of a call that returns 0 with
    a value or a nonzero status with a filled error. *)

Record jf_error := MkError {
  err_code : string; err_source : Z; err_line : Z; err_detail : bytes }.

Inductive res (A : Type) : Type :=
| Ok (a : A)
| Fail (rc : Z) (e : jf_error).
Arguments Ok {A} _.
Arguments Fail {A} _ _.

#[export] Instance res_ret : MRet res := fun A a => Ok a.
#[export] Instance res_bind : MBind res :=
  fun A B f m => match m with Ok a => f a | Fail rc e => Fail rc e end.

Lemma res_bind_Ok {A B} (m : res A) (f : A -> res B) b :
  m ≫= f = Ok b <-> exists a, m = Ok a /\ f a = Ok b.
Proof.
  split.
  - destruct m as [a|rc e]; cbn; [eauto | discriminate].
  - intros (a & -> & H). exact H.
Qed.

Lemma res_bind_Fail {A B} (m : res A) (f : A -> res B) rc e :
  m ≫= f = Fail rc e <->
  m = Fail rc e \/ exists a, m = Ok a /\ f a = Fail rc e.
Proof.
  split.
  - destruct m as [a|rc' e']; cbn; [eauto | intros [= -> ->]; auto].
  - intros [-> | (a & -> & H)]; [reflexivity | exact H].
Qed.

(** [snprintf (detail, 160, "%s", text)]. *)
Definition snprintf160 (s : bytes) : bytes := take 159 s.

(** ** C library functions on strings *)

(** [strcmp]: the sign of the first difference of the unsigned bytes. *)
Fixpoint strcmp (a b : bytes) : comparison :=
  match a, b with
  | [], [] => Eq
  | [], _ :: _ => Lt
  | _ :: _, [] => Gt
  | x :: a', y :: b' =>
      match x ?= y with Eq => strcmp a' b' | c => c end
  end.

(** [!strcmp (a, b)], [!memcmp] on whole views. *)
Definition streq (a b : bytes) : bool :=
  match strcmp a b with Eq => true | _ => false end.

(** [strchr (set, c) != NULL] for a [c] that is not the terminator. *)
Definition mem (c : Z) (set : bytes) : bool := existsb (Z.eqb c) set.

(** [!strncmp (s, prefix, strlen (prefix))]. *)
Fixpoint has_prefix (p s : bytes) : bool :=
  match p, s with
  | [], _ => true
  | x :: p', y :: s' => (x =? y) && has_prefix p' s'
  | _ :: _, [] => false
  end.

(** ASCII case folding, [A]..[Z] to [a]..[z]. *)
Definition fold_byte (c : Z) : Z :=
  if (ch "A" <=? c) && (c <=? ch "Z") then c + ch "a" - ch "A" else c.
Definition fold_bytes (s : bytes) : bytes := map fold_byte s.

(** [printf "%zu"]: the decimal digits, most significant first. *)
Fixpoint decimal_loop (fuel : nat) (n : Z) (acc : bytes) : bytes :=
  match fuel with
  | O => acc
  | S fuel' =>
      let acc' := (48 + n mod 10) :: acc in
      if n / 10 =? 0 then acc' else decimal_loop fuel' (n / 10) acc'
  end.
Definition decimal_of (n : Z) : bytes := decimal_loop 20 n [].

(** Indexed read of a C string or buffer: 0 stands for the terminator. *)
Definition at_ (s : bytes) (i : nat) : Z := nth i s 0.

Fixpoint drop_while {A} (p : A -> bool) (l : list A) : list A :=
  match l with
  | [] => []
  | x :: t => if p x then drop_while p t else l
  end.

Fixpoint take_while {A} (p : A -> bool) (l : list A) : list A :=
  match l with
  | [] => []
  | x :: t => if p x then x :: take_while p t else []
  end.

(** The pieces of [cur ++ s] between the separators [sep] of [s]. *)
Fixpoint split_acc (sep : Z) (cur s : bytes) : list bytes :=
  match s with
  | [] => [cur]
  | c :: t => if c =? sep then cur :: split_acc sep [] t else split_acc sep (cur ++ [c]) t
  end.
Definition split_on (sep : Z) (s : bytes) : list bytes := split_acc sep [] s.

Definition is_blank (c : Z) : bool := (c =? SP) || (c =? HT).

Definition trim_end {A} (p : A -> bool) (l : list A) : list A :=
  rev (drop_while p (rev l)).

(** ** [qsort] with a C comparator

    A comparator is its sign.  Insertion sort stands for the library's sort:
    [qsort_unique] shows that every sorted permutation is the same list when
    the comparator separates distinct elements. *)

Section Qsort.
Context {A : Type} (cmp : A -> A -> comparison).

Fixpoint qsort_insert (x : A) (l : list A) : list A :=
  match l with
  | [] => [x]
  | y :: t => match cmp x y with
              | Gt => y :: qsort_insert x t
              | _ => x :: y :: t
              end
  end.

Definition qsort (l : list A) : list A := foldr qsort_insert [] l.

Definition cmp_le (x y : A) : Prop := cmp x y <> Gt.
End Qsort.

(** A comparator that is a total preorder, as [qsort] requires. *)
Class Comparator {A} (cmp : A -> A -> comparison) : Prop := {
  cmp_sym x y : cmp y x = CompOpp (cmp x y);
  cmp_eq x y z : cmp x y = Eq -> cmp x z = cmp y z;
  cmp_lt_trans x y z : cmp x y = Lt -> cmp y z = Lt -> cmp x z = Lt }.

(** The [c ? c : next] idiom. *)
Definition cmp_then (c d : comparison) : comparison :=
  match c with Eq => d | _ => c end.

Section ComparatorFacts.
Context {A : Type} (cmp : A -> A -> comparison) `{!Comparator cmp}.

Lemma cmp_refl x : cmp x x = Eq.
Proof. pose proof (cmp_sym (cmp:=cmp) x x) as H. destruct (cmp x x); easy. Qed.

Lemma cmp_eq_r x y z : cmp x y = Eq -> cmp z x = cmp z y.
Proof.
  intros H. rewrite (cmp_sym (cmp:=cmp) x z), (cmp_sym (cmp:=cmp) y z).
  now rewrite (cmp_eq (cmp:=cmp) x y z H).
Qed.

Lemma cmp_eq_sym x y : cmp x y = Eq -> cmp y x = Eq.
Proof. intros H. now rewrite (cmp_sym (cmp:=cmp) x y), H. Qed.

Lemma cmp_gt_lt x y : cmp x y = Gt <-> cmp y x = Lt.
Proof. rewrite (cmp_sym (cmp:=cmp) x y). destruct (cmp x y); easy. Qed.

Lemma cmp_le_trans x y z : cmp_le cmp x y -> cmp_le cmp y z -> cmp_le cmp x z.
Proof.
  unfold cmp_le. intros H1 H2.
  destruct (cmp x y) eqn:E1; [| |congruence].
  - now rewrite (cmp_eq (cmp:=cmp) x y z E1).
  - destruct (cmp y z) eqn:E2; [| |congruence].
    + now rewrite <- (cmp_eq_r y z x E2), E1.
    + now rewrite (cmp_lt_trans (cmp:=cmp) x y z E1 E2).
Qed.

Lemma cmp_le_total x y : cmp_le cmp x y \/ cmp_le cmp y x.
Proof. unfold cmp_le. rewrite (cmp_sym (cmp:=cmp) x y). destruct (cmp x y); cbn; auto; right; easy. Qed.

#[export] Instance cmp_then_comparator {B} (g : B -> B -> comparison)
    (f : B -> A) `{!Comparator g} :
  Comparator (fun x y => cmp_then (cmp (f x) (f y)) (g x y)).
Proof.
  split.
  - intros x y. rewrite (cmp_sym (cmp:=cmp) (f x) (f y)), (cmp_sym (cmp:=g) x y).
    destruct (cmp (f x) (f y)); reflexivity.
  - intros x y z. destruct (cmp (f x) (f y)) eqn:E; cbn; try discriminate.
    intros Hg. now rewrite (cmp_eq (cmp:=cmp) _ _ (f z) E), (cmp_eq (cmp:=g) _ _ z Hg).
  - intros x y z. unfold cmp_then.
    destruct (cmp (f x) (f y)) eqn:E1; try discriminate; intros H1.
    + rewrite (cmp_eq (cmp:=cmp) _ _ (f z) E1).
      destruct (cmp (f y) (f z)) eqn:E2; try discriminate; intros H2; [|reflexivity].
      exact (cmp_lt_trans (cmp:=g) _ _ _ H1 H2).
    + destruct (cmp (f y) (f z)) eqn:E2; try discriminate; intros H2.
      * now rewrite <- (cmp_eq_r _ _ (f x) E2), E1.
      * now rewrite (cmp_lt_trans (cmp:=cmp) _ _ _ E1 E2).
Qed.

Lemma on_comparator {B} (f : B -> A) : Comparator (fun x y : B => cmp (f x) (f y)).
Proof.
  split; intros.
  - apply cmp_sym.
  - now apply cmp_eq.
  - eapply cmp_lt_trans; eassumption.
Qed.

(** *** Insertion sort is a sort *)

Lemma qsort_insert_perm x l : qsort_insert cmp x l ≡ₚ x :: l.
Proof.
  induction l as [|y t IH]; cbn; [reflexivity|].
  destruct (cmp x y); try reflexivity.
  rewrite IH. constructor.
Qed.

Lemma qsort_perm l : qsort cmp l ≡ₚ l.
Proof.
  induction l as [|x t IH]; cbn; [reflexivity|].
  rewrite qsort_insert_perm. now constructor.
Qed.

Lemma qsort_insert_sorted x l :
  StronglySorted (cmp_le cmp) l -> StronglySorted (cmp_le cmp) (qsort_insert cmp x l).
Proof.
  induction 1 as [|y t Hs IH Hy]; cbn; [repeat constructor|].
  destruct (cmp x y) eqn:E.
  1,2: constructor; [now constructor|]; constructor; [unfold cmp_le; congruence|];
    eapply Forall_impl; [exact Hy|]; cbn; intros z Hz;
    eapply cmp_le_trans; [|exact Hz]; unfold cmp_le; congruence.
  constructor; [exact IH|].
  rewrite qsort_insert_perm. constructor; [|exact Hy].
  unfold cmp_le. apply cmp_gt_lt in E. congruence.
Qed.

Lemma qsort_sorted l : StronglySorted (cmp_le cmp) (qsort cmp l).
Proof.
  induction l as [|x t IH]; cbn; [constructor|]. now apply qsort_insert_sorted.
Qed.

Lemma sorted_perm_unique l1 l2 :
  (forall x y, x ∈ l1 -> y ∈ l1 -> cmp x y = Eq -> x = y) ->
  StronglySorted (cmp_le cmp) l1 -> StronglySorted (cmp_le cmp) l2 ->
  l1 ≡ₚ l2 -> l1 = l2.
Proof.
  intros Hanti H1. revert l2. induction H1 as [|x t Hs IH Hx]; intros l2 H2 Hp.
  - now apply Permutation_nil_l.
  - destruct H2 as [|y u Hu Hy]; [now apply Permutation_nil_r in Hp; discriminate|].
    assert (x = y) as ->.
    { assert (x ∈ y :: u) as Hin by (rewrite <- Hp; left).
      apply elem_of_cons in Hin as [->|Hin]; [reflexivity|].
      assert (y ∈ x :: t) as Hin' by (rewrite Hp; left).
      apply elem_of_cons in Hin' as [->|Hin']; [reflexivity|].
      rewrite Forall_forall in Hx, Hy.
      apply Hanti; [left | right; exact Hin' |].
      specialize (Hx y Hin'). specialize (Hy x Hin).
      unfold cmp_le in *. rewrite (cmp_sym (cmp:=cmp) x y) in Hy.
      destruct (cmp x y); easy. }
    f_equal. apply IH; [|exact Hu|now apply (inj (cons y)) in Hp].
    intros a b Ha Hb. apply Hanti; now right.
Qed.

(** Whatever sorting algorithm the C library uses, it returns this list. *)
Lemma qsort_unique l l' :
  (forall x y, x ∈ l -> y ∈ l -> cmp x y = Eq -> x = y) ->
  StronglySorted (cmp_le cmp) l' -> l' ≡ₚ l -> l' = qsort cmp l.
Proof.
  intros Hanti Hs Hp. symmetry. apply sorted_perm_unique.
  - intros x y Hx Hy. rewrite qsort_perm in Hx, Hy. now apply Hanti.
  - apply qsort_sorted.
  - exact Hs.
  - now rewrite qsort_perm, Hp.
Qed.
End ComparatorFacts.

Lemma Zcompare_comparator : Comparator Z.compare.
Proof.
  split.
  - intros x y. apply Z.compare_antisym.
  - intros x y z ->%Z.compare_eq. reflexivity.
  - intros x y z. rewrite !Z.compare_lt_iff. lia.
Qed.
#[export] Existing Instance Zcompare_comparator.

Lemma natcompare_comparator : Comparator Nat.compare.
Proof.
  split.
  - intros x y. apply Nat.compare_antisym.
  - intros x y z ->%Nat.compare_eq. reflexivity.
  - intros x y z. rewrite !Nat.compare_lt_iff. lia.
Qed.
#[export] Existing Instance natcompare_comparator.

Lemma strcmp_eq a b : strcmp a b = Eq <-> a = b.
Proof.
  split; [|intros ->; induction b as [|x b IH]; cbn; [easy|now rewrite Z.compare_refl]].
  revert b. induction a as [|x a IH]; intros [|y b]; cbn; try easy.
  destruct (x ?= y) eqn:E; try easy. apply Z.compare_eq in E as ->.
  intros H. f_equal. now apply IH.
Qed.

#[export] Instance strcmp_comparator : Comparator strcmp.
Proof.
  split.
  - intros x y. revert y. induction x as [|a x IH]; intros [|b y]; cbn; try easy.
    rewrite (Z.compare_antisym a b), IH. destruct (a ?= b); reflexivity.
  - intros x y z ->%strcmp_eq. reflexivity.
  - intros x. induction x as [|a x IH]; intros [|b y] [|c z]; cbn; try easy.
    destruct (a ?= b) eqn:E1; destruct (b ?= c) eqn:E2; try easy;
      intros H1 H2; rewrite ?Z.compare_eq_iff, ?Z.compare_lt_iff in *; subst.
    + rewrite Z.compare_refl. eauto.
    + apply Z.compare_lt_iff in E2. now rewrite E2.
    + apply Z.compare_lt_iff in E1. now rewrite E1.
    + assert (a ?= c = Lt) as -> by (apply Z.compare_lt_iff; lia). reflexivity.
Qed.

Lemma streq_spec a b : streq a b = true <-> a = b.
Proof.
  unfold streq. rewrite <- strcmp_eq. destruct (strcmp a b); easy.
Qed.

Lemma streq_refl a : streq a a = true.
Proof. now apply streq_spec. Qed.

Lemma streq_false a b : streq a b = false <-> a <> b.
Proof. rewrite <- streq_spec. destruct (streq a b); easy. Qed.

Lemma has_prefix_spec p s : has_prefix p s = true <-> exists t, s = p ++ t.
Proof.
  revert s. induction p as [|x p IH]; intros s; cbn; [split; [now exists s|easy]|].
  destruct s as [|y s]; [split; [easy|intros [t H]; discriminate]|].
  rewrite andb_true_iff, Z.eqb_eq, IH. split.
  - intros (-> & t & ->). now exists t.
  - intros [t [= -> ->]]. split; [reflexivity|now exists t].
Qed.

Lemma mem_spec c set : mem c set = true <-> c ∈ set.
Proof.
  unfold mem. rewrite existsb_exists, list_elem_of_In. split.
  - intros (x & Hx & ->%Z.eqb_eq). exact Hx.
  - intros H. exists c. now rewrite Z.eqb_refl.
Qed.

(** A defect that every extension of [cur] keeps spoils the piece it is in. *)
Lemma split_acc_bad (ok : bytes -> bool) sep cur s :
  (forall t, ok (cur ++ t) = false) -> forallb ok (split_acc sep cur s) = false.
Proof.
  revert cur. induction s as [|c s IH]; intros cur H; cbn [split_acc].
  - cbn. specialize (H []). rewrite app_nil_r in H. now rewrite H.
  - destruct (c =? sep).
    + cbn. specialize (H []). rewrite app_nil_r in H. now rewrite H.
    + apply IH. intros t. rewrite <- app_assoc. apply H.
Qed.

Lemma last_cons_default {A} (x : A) l d d' : List.last (x :: l) d = List.last (x :: l) d'.
Proof. revert x. induction l as [|y l IH]; intros x; [reflexivity|]. apply IH. Qed.

(** Maximal runs of elements related to the first of their run: the loops
    [for (i=0;i<n;i=j) for (j=i+1;j<n && same(i,j);j++)]. *)
Section Runs.
Context {A : Type} (same : A -> A -> bool).

Fixpoint runs_from (x : A) (cur l : list A) : list (list A) :=
  match l with
  | [] => [x :: cur]
  | y :: t => if same x y then runs_from x (cur ++ [y]) t else (x :: cur) :: runs_from y [] t
  end.

Definition runs (l : list A) : list (list A) :=
  match l with [] => [] | x :: t => runs_from x [] t end.
End Runs.

(** *** Checking a property of a byte by evaluation *)

Definition all_bytes : bytes := map Z.of_nat (seq 0 256).

Lemma byte_in_all b : is_byte b -> b ∈ all_bytes.
Proof.
  intros [H0 H1]. unfold all_bytes. apply list_elem_of_fmap.
  exists (Z.to_nat b). split; [lia|]. apply elem_of_seq. lia.
Qed.

(** A property of a byte, checked by evaluating it on all 256 of them. *)
Lemma byte_cases (P : Z -> bool) :
  forallb P all_bytes = true -> forall b, is_byte b -> P b = true.
Proof.
  intros H b Hb. rewrite forallb_forall in H. apply H.
  now apply list_elem_of_In, byte_in_all.
Qed.

(** ** Automation *)

(** Turn boolean tests on integers into propositions for [lia]. *)
Ltac boolify :=
  repeat match goal with
  | H : (_ && _) = true |- _ => apply andb_true_iff in H as [? ?]
  | H : (_ || _) = false |- _ => apply orb_false_iff in H as [? ?]
  | H : negb _ = true |- _ => apply negb_true_iff in H
  | H : negb _ = false |- _ => apply negb_false_iff in H
  | H : (_ =? _) = true |- _ => apply Z.eqb_eq in H
  | H : (_ =? _) = false |- _ => apply Z.eqb_neq in H
  | H : (_ <? _) = true |- _ => apply Z.ltb_lt in H
  | H : (_ <? _) = false |- _ => apply Z.ltb_ge in H
  | H : (_ <=? _) = true |- _ => apply Z.leb_le in H
  | H : (_ <=? _) = false |- _ => apply Z.leb_gt in H
  | H : (_ >? _) = true |- _ => rewrite Z.gtb_ltb in H
  | H : (_ >? _) = false |- _ => rewrite Z.gtb_ltb in H
  end.

#[export] Hint Extern 5 (Comparator (fun x y => strcmp _ _)) =>
  apply (on_comparator strcmp) : typeclass_instances.
#[export] Hint Extern 5 (Comparator (fun x y => Nat.compare _ _)) =>
  apply (on_comparator Nat.compare) : typeclass_instances.
#[export] Hint Extern 5 (Comparator (fun x y => Z.compare _ _)) =>
  apply (on_comparator Z.compare) : typeclass_instances.

(** Comparators built with [cmp_then] from field comparisons. *)
Ltac solve_comparator :=
  first [ exact _
        | apply cmp_then_comparator; solve_comparator
        | apply (on_comparator strcmp) | apply (on_comparator Nat.compare)
        | apply (on_comparator Z.compare) ].

(** Split a goal or hypothesis on the test of its outermost [if]. *)
Ltac case_test :=
  match goal with
  | |- context [if ?b then _ else _] => destruct b eqn:?
  | H : context [if ?b then _ else _] |- _ => destruct b eqn:?
  end.

(** Equalities of concatenations, and lengths of them. *)
Ltac list_assoc := repeat first [rewrite <- app_assoc | progress cbn [app]].
Ltac solve_app := list_assoc; reflexivity.
Ltac solve_len :=
  repeat first [rewrite length_app | rewrite length_take | rewrite length_drop |
                rewrite length_replicate | rewrite length_map | progress cbn [length]]; lia.

(** ** Sorting and grouping depend on the comparator at the elements only *)

Lemma qsort_ext {A} (c d : A -> A -> comparison) l :
  (forall x y, x ∈ l -> y ∈ l -> c x y = d x y) -> qsort c l = qsort d l.
Proof.
  assert (Hi : forall x l, (forall y, y ∈ l -> c x y = d x y) -> qsort_insert c x l = qsort_insert d x l).
  { clear l. intros x l. induction l as [|y t IH]; intros H; cbn; [reflexivity|].
    rewrite (H y) by left. destruct (d x y); try reflexivity. f_equal. apply IH. intros z Hz. apply H. now right. }
  unfold qsort. induction l as [|x t IH]; intros H; cbn [foldr]; [reflexivity|].
  rewrite IH by (intros; apply H; now right). apply Hi. intros y Hy. apply H; [left|].
  right. assert (Hp : foldr (qsort_insert d) [] t ≡ₚ t).
  { clear. change (qsort d t ≡ₚ t). apply qsort_perm. }
  now rewrite Hp in Hy.
Qed.

Lemma runs_ext {A} (s t : A -> A -> bool) l :
  (forall x y, x ∈ l -> y ∈ l -> s x y = t x y) -> runs s l = runs t l.
Proof.
  destruct l as [|x l]; [reflexivity|]. intros H. cbn [runs].
  assert (Hg : forall l x cur, (forall a b, a ∈ x :: l -> b ∈ l -> s a b = t a b) ->
                 runs_from s x cur l = runs_from t x cur l).
  { clear. induction l as [|y l IH]; intros x cur H; cbn [runs_from]; [reflexivity|].
    rewrite (H x y) by (constructor || (constructor; constructor)).
    destruct (t x y).
    - apply IH. intros a b Ha Hb. apply H; [|now right].
      apply elem_of_cons in Ha as [->|Ha]; [left|right; now right].
    - f_equal. apply IH. intros a b Ha Hb. apply H; [now right|now right]. }
  apply Hg. intros a b Ha Hb. apply H; [exact Ha|now right].
Qed.

(** ** Sorted lists *)

Lemma sorted_weaken {A} (R S : A -> A -> Prop) l :
  (forall x y, R x y -> S x y) -> StronglySorted R l -> StronglySorted S l.
Proof.
  intros H. induction 1 as [|x l _ IH Hx]; constructor; [exact IH|].
  eapply Forall_impl; [exact Hx|]. auto.
Qed.

Lemma sorted_filter {A} (R : A -> A -> Prop) (f : A -> bool) l :
  StronglySorted R l -> StronglySorted R (List.filter f l).
Proof.
  induction 1 as [|x l _ IH Hx]; cbn; [constructor|].
  destruct (f x); [|exact IH]. constructor; [exact IH|].
  rewrite Forall_forall in *. intros y Hy. apply Hx.
  apply list_elem_of_In, filter_In in Hy as [Hy _]. now apply list_elem_of_In.
Qed.

Lemma filter_perm {A} (f : A -> bool) l l' : l ≡ₚ l' -> List.filter f l ≡ₚ List.filter f l'.
Proof.
  induction 1 as [|x l l' _ IH|x y l|l l' l'' _ IH1 _ IH2]; cbn; auto.
  - destruct (f x); [now constructor|exact IH].
  - destruct (f x), (f y); try reflexivity. constructor.
  - etrans; eassumption.
Qed.

Lemma seq_sorted a m : StronglySorted lt (seq a m).
Proof.
  revert a. induction m as [|m IH]; intros a; cbn; constructor; [apply IH|].
  apply Forall_forall. intros x Hx%elem_of_seq. lia.
Qed.

(** ** Runs of a sorted list *)

Definition is_eq (c : comparison) : bool := match c with Eq => true | _ => false end.

Lemma is_eq_true c : is_eq c = true <-> c = Eq.
Proof. destruct c; easy. Qed.

Section RunsSorted.
Context {A : Type} (kc : A -> A -> comparison) `{!Comparator kc}.

Abbreviation same_kc := (fun x y => is_eq (kc x y)).

Lemma runs_from_concat x cur l : concat (runs_from same_kc x cur l) = x :: cur ++ l.
Proof.
  revert x cur. induction l as [|y t IH]; intros x cur; cbn [runs_from concat];
    [reflexivity|].
  destruct (is_eq (kc x y)); cbn [concat]; rewrite IH; list_assoc; reflexivity.
Qed.

Lemma runs_concat l : concat (runs same_kc l) = l.
Proof. destruct l as [|x t]; [reflexivity|]. apply runs_from_concat. Qed.

Lemma filter_none (x : A) l :
  Forall (fun y => is_eq (kc x y) = false) l -> List.filter (same_kc x) l = [].
Proof. induction 1 as [|y l Hy _ IH]; cbn; [reflexivity|]. now rewrite Hy. Qed.

Lemma filter_all (x : A) l :
  Forall (fun y => kc x y = Eq) l -> List.filter (same_kc x) l = l.
Proof. induction 1 as [|y l Hy _ IH]; cbn; [reflexivity|]. now rewrite Hy, IH. Qed.

Lemma eq_class (x : A) cur u :
  Forall (fun y => kc x y = Eq) cur -> u ∈ x :: cur -> kc u x = Eq.
Proof.
  intros Hc [->|Hu]%elem_of_cons; [apply cmp_refl; exact _|].
  rewrite Forall_forall in Hc. apply cmp_eq_sym; [exact _|]. now apply Hc.
Qed.

Lemma eq_class_filter (x z : A) cur :
  Forall (fun y => kc x y = Eq) cur -> z ∈ x :: cur ->
  List.filter (same_kc z) (x :: cur) = x :: cur.
Proof.
  intros Hc Hz. apply filter_all, Forall_forall. intros w Hw.
  rewrite (cmp_eq (cmp:=kc) z x w (eq_class x cur z Hc Hz)).
  apply cmp_eq_sym; [exact _|]. now apply (eq_class x cur).
Qed.

(** Where a run ends, everything in it is strictly below everything after. *)
Lemma run_end (x y : A) cur t :
  StronglySorted (cmp_le kc) (x :: cur ++ y :: t) -> Forall (fun y => kc x y = Eq) cur ->
  is_eq (kc x y) = false ->
  StronglySorted (cmp_le kc) (y :: t) /\
  forall u w, u ∈ x :: cur -> w ∈ y :: t -> kc u w = Lt.
Proof.
  rewrite app_comm_cons, StronglySorted_app. intros (Hall & _ & Hs) Hc E.
  split; [exact Hs|]. intros u w Hu Hw.
  rewrite (cmp_eq (cmp:=kc) u x w (eq_class x cur u Hc Hu)).
  assert (Hlt : kc x y = Lt).
  { assert (H : cmp_le kc x y) by (apply Hall; left).
    unfold cmp_le in H. destruct (kc x y); easy. }
  apply elem_of_cons in Hw as [->|Hw]; [exact Hlt|].
  inversion Hs as [|? ? _ Hy]; subst. rewrite Forall_forall in Hy.
  specialize (Hy w Hw). unfold cmp_le in Hy.
  destruct (kc y w) eqn:Eyw; [|now apply (cmp_lt_trans (cmp:=kc) x y w)|easy].
  now rewrite <- (cmp_eq_r kc y w x Eyw).
Qed.

Lemma runs_from_group x cur l g z :
  StronglySorted (cmp_le kc) (x :: cur ++ l) -> Forall (fun y => kc x y = Eq) cur ->
  g ∈ runs_from same_kc x cur l -> z ∈ g -> g = List.filter (same_kc z) (x :: cur ++ l).
Proof.
  revert x cur. induction l as [|y t IH]; intros x cur Hs Hc; cbn [runs_from].
  - rewrite list_elem_of_singleton, app_nil_r. intros -> Hz.
    symmetry. now apply eq_class_filter.
  - destruct (is_eq (kc x y)) eqn:E.
    { apply is_eq_true in E. replace (cur ++ y :: t) with ((cur ++ [y]) ++ t) in * by solve_app.
      apply IH; [exact Hs|]. apply Forall_app. split; [exact Hc|]. now constructor. }
    destruct (run_end x y cur t Hs Hc E) as [Hs' Hlt].
    rewrite elem_of_cons, app_comm_cons, List.filter_app. intros [->|Hg] Hz.
    + rewrite (eq_class_filter x z cur Hc Hz), (filter_none z (y :: t)), app_nil_r; [reflexivity|].
      apply Forall_forall. intros w Hw. now rewrite Hlt.
    + pose proof (IH y [] Hs' (Forall_nil_2 _) Hg Hz) as Hg'. cbn [app] in Hg'.
      assert (Hzt : z ∈ y :: t).
      { rewrite Hg' in Hz. apply list_elem_of_In, filter_In in Hz as [Hz _].
        now apply list_elem_of_In. }
      rewrite (filter_none z (x :: cur)); [exact Hg'|].
      apply Forall_forall. intros w Hw. now rewrite (cmp_sym (cmp:=kc) w z), Hlt.
Qed.

Lemma runs_group l g z :
  StronglySorted (cmp_le kc) l -> g ∈ runs same_kc l -> z ∈ g -> g = List.filter (same_kc z) l.
Proof.
  destruct l as [|x t]; [intros _ H; now apply elem_of_nil in H|].
  intros Hs. apply (runs_from_group x [] t); [exact Hs|constructor].
Qed.
End RunsSorted.

Create HintDb jaro.
#[export] Hint Resolve streq_refl qsort_perm qsort_sorted : jaro.
#[export] Hint Rewrite @length_app @length_take @length_drop @length_map : jaro.
