(* ===== verification/Sha256.v ===== *)
(** * SHA-256 (src/filter/sha256.c, the digest helpers of product_util.c)

    The streaming state of the C code, its block buffer with the stale bytes it
    keeps between blocks, and the padding of [jf_sha256_hex]; then FIPS 180-4 as
    a function of the whole message, and the theorem that the streaming code
    computes it however the message is cut into updates. *)
From S2P Require Import Prelude.

(** ** 32-bit words *)

Definition u32 (n : Z) : Z := n mod 2 ^ 32.
Definition add32 (a b : Z) : Z := u32 (a + b).
Definition not32 (a : Z) : Z := UINT32_MAX - a.

Definition rotate (x : Z) (n : Z) : Z :=
  Z.lor (Z.shiftr x n) (u32 (Z.shiftl x (32 - n))).

(** The high and low halves of the round constants. *)
Definition k_halves : list (Z * Z) :=
  [(0x428a, 0x2f98); (0x7137, 0x4491); (0xb5c0, 0xfbcf); (0xe9b5, 0xdba5);
   (0x3956, 0xc25b); (0x59f1, 0x11f1); (0x923f, 0x82a4); (0xab1c, 0x5ed5);
   (0xd807, 0xaa98); (0x1283, 0x5b01); (0x2431, 0x85be); (0x550c, 0x7dc3);
   (0x72be, 0x5d74); (0x80de, 0xb1fe); (0x9bdc, 0x06a7); (0xc19b, 0xf174);
   (0xe49b, 0x69c1); (0xefbe, 0x4786); (0x0fc1, 0x9dc6); (0x240c, 0xa1cc);
   (0x2de9, 0x2c6f); (0x4a74, 0x84aa); (0x5cb0, 0xa9dc); (0x76f9, 0x88da);
   (0x983e, 0x5152); (0xa831, 0xc66d); (0xb003, 0x27c8); (0xbf59, 0x7fc7);
   (0xc6e0, 0x0bf3); (0xd5a7, 0x9147); (0x06ca, 0x6351); (0x1429, 0x2967);
   (0x27b7, 0x0a85); (0x2e1b, 0x2138); (0x4d2c, 0x6dfc); (0x5338, 0x0d13);
   (0x650a, 0x7354); (0x766a, 0x0abb); (0x81c2, 0xc92e); (0x9272, 0x2c85);
   (0xa2bf, 0xe8a1); (0xa81a, 0x664b); (0xc24b, 0x8b70); (0xc76c, 0x51a3);
   (0xd192, 0xe819); (0xd699, 0x0624); (0xf40e, 0x3585); (0x106a, 0xa070);
   (0x19a4, 0xc116); (0x1e37, 0x6c08); (0x2748, 0x774c); (0x34b0, 0xbcb5);
   (0x391c, 0x0cb3); (0x4ed8, 0xaa4a); (0x5b9c, 0xca4f); (0x682e, 0x6ff3);
   (0x748f, 0x82ee); (0x78a5, 0x636f); (0x84c8, 0x7814); (0x8cc7, 0x0208);
   (0x90be, 0xfffa); (0xa450, 0x6ceb); (0xbef9, 0xa3f7); (0xc671, 0x78f2)].

Definition k : list Z := map (fun h => fst h * 2 ^ 16 + snd h) k_halves.

Definition initial : list Z :=
  [0x6a09e667;0xbb67ae85;0x3c6ef372;0xa54ff53a;
   0x510e527f;0x9b05688c;0x1f83d9ab;0x5be0cd19].

Record jf_sha256 := MkSha {
  state : list Z; count_ : Z; block : bytes; used : nat }.

(** [w[i]] for i in 0..15: four big-endian bytes of the block. *)
Definition word_be (p : bytes) (i : nat) : Z :=
  Z.lor (Z.lor (Z.lor (Z.shiftl (at_ p (4 * i)) 24) (Z.shiftl (at_ p (4 * i + 1)) 16))
    (Z.shiftl (at_ p (4 * i + 2)) 8)) (at_ p (4 * i + 3)).

(** One step of the second loop: the word at index [i] of the schedule [w]. *)
Definition schedule_word (w : list Z) (i : nat) : Z :=
  let a := at_ w (i - 15) in
  let b := at_ w (i - 2) in
  add32 (add32 (add32 (at_ w (i - 16))
    (Z.lxor (Z.lxor (rotate a 7) (rotate a 18)) (Z.shiftr a 3)))
    (at_ w (i - 7)))
    (Z.lxor (Z.lxor (rotate b 17) (rotate b 19)) (Z.shiftr b 10)).

Fixpoint schedule (n : nat) (w : list Z) : list Z :=
  match n with
  | O => w
  | S n' => schedule n' (w ++ [schedule_word w (length w)])
  end.

(** One round; the working variables in the order a..h. *)
Definition round (v : list Z) (kw : Z * Z) : list Z :=
  match v with
  | [a; b; c; d; e; f; g; h] =>
      let t := add32 (add32 (add32 (add32 h
          (Z.lxor (Z.lxor (rotate e 6) (rotate e 11)) (rotate e 25)))
          (Z.lxor (Z.land e f) (Z.land (not32 e) g))) (fst kw)) (snd kw) in
      let u := add32 (Z.lxor (Z.lxor (rotate a 2) (rotate a 13)) (rotate a 22))
          (Z.lxor (Z.lxor (Z.land a b) (Z.land a c)) (Z.land b c)) in
      [add32 t u; a; b; c; add32 d t; e; f; g]
  | _ => v
  end.

(** The compression of one 64-byte block into the eight state words. *)
Definition compress (st : list Z) (blk : bytes) : list Z :=
  let w := schedule 48 (map (word_be blk) (seq 0 16)) in
  zip_with add32 st (fold_left round (zip k w) st).

Definition transform (s : jf_sha256) : jf_sha256 :=
  MkSha (compress (state s) (block s)) (count_ s) (block s) (used s).

(** [jf_sha256_init] leaves the block of the caller's object as it is. *)
Definition jf_sha256_init (garbage : bytes) : jf_sha256 :=
  MkSha initial 0 garbage 0.

(** [memcpy (dst + off, src, length src)] inside an array. *)
Definition memcpy_at (dst : bytes) (off : nat) (src : bytes) : bytes :=
  take off dst ++ src ++ drop (off + length src) dst.

Fixpoint update_loop (fuel : nat) (s : jf_sha256) (p : bytes) : jf_sha256 :=
  match fuel, p with
  | O, _ | _, [] => s
  | S fuel', _ =>
      let n := length p in
      let take_ := if (n <? 64 - used s)%nat then n else (64 - used s)%nat in
      let s1 := MkSha (state s) (count_ s)
                  (memcpy_at (block s) (used s) (take take_ p)) (used s + take_) in
      let s2 := if (used s1 =? 64)%nat
                then let t := transform s1 in MkSha (state t) (count_ t) (block t) 0
                else s1 in
      update_loop fuel' s2 (drop take_ p)
  end.

Definition jf_sha256_update (s : jf_sha256) (data : bytes) : jf_sha256 :=
  update_loop (length data)
    (MkSha (state s) ((count_ s + zlen data) mod 2 ^ 64) (block s) (used s)) data.

Fixpoint pad_loop (fuel : nat) (s : jf_sha256) : jf_sha256 :=
  match fuel with
  | O => s
  | S fuel' => if (used s =? 56)%nat then s
               else pad_loop fuel' (jf_sha256_update s [0])
  end.

(** [end[7-i] = bits >> (8*i)]. *)
Definition length_be (bits : Z) : bytes :=
  map (fun i => Z.land (Z.shiftr bits (8 * (7 - Z.of_nat i))) 255) (seq 0 8).

Definition hex_digits : bytes := str "0123456789abcdef".

Definition hex_byte (b : Z) : bytes :=
  [at_ hex_digits (Z.to_nat (Z.shiftr b 4)); at_ hex_digits (Z.to_nat (Z.land b 15))].

(** The byte [i] of the big-endian state. *)
Definition state_byte (st : list Z) (i : nat) : Z :=
  Z.land (Z.shiftr (at_ st (i / 4)) (24 - 8 * (Z.of_nat i mod 4))) 255.

(** The state after the padding of [jf_sha256_hex]. *)
Definition finish (s : jf_sha256) : jf_sha256 :=
  let bits := (count_ s * 8) mod 2 ^ 64 in
  jf_sha256_update (pad_loop 64 (jf_sha256_update s [0x80])) (length_be bits).

Definition jf_sha256_hex (s : jf_sha256) : bytes :=
  concat (map hex_byte (map (state_byte (state (finish s))) (seq 0 32))).

(** ** product_util.c: raw digests *)

Definition hex_value (c : Z) : Z :=
  if c <=? ch "9" then c - ch "0" else c - ch "a" + 10.

Fixpoint unhex (h : bytes) : bytes :=
  match h with
  | a :: b :: t => Z.land (Z.lor (Z.shiftl (hex_value a) 4) (hex_value b)) 255 :: unhex t
  | _ => []
  end.

Definition jf_digest (garbage data : bytes) : bytes :=
  unhex (jf_sha256_hex (jf_sha256_update (jf_sha256_init garbage) data)).

Definition jf_digest_hex (digest : bytes) : bytes := concat (map hex_byte digest).

(** ** FIPS 180-4, on the whole message *)

Fixpoint compress_blocks (n : nat) (st : list Z) (m : bytes) : list Z :=
  match n with
  | O => st
  | S n' => compress_blocks n' (compress st (take 64 m)) (drop 64 m)
  end.

(** The number of zero bytes after the 0x80 byte. *)
Definition fips_zeros (len : nat) : nat := ((119 - len mod 64) mod 64)%nat.

Definition fips_pad (m : bytes) : bytes :=
  m ++ 0x80 :: replicate (fips_zeros (length m)) 0 ++ length_be ((zlen m * 8) mod 2 ^ 64).

Definition fips_state (m : bytes) : list Z :=
  compress_blocks (length (fips_pad m) / 64) initial (fips_pad m).

Definition fips_digest (m : bytes) : bytes :=
  map (state_byte (fips_state m)) (seq 0 32).

Definition fips_hex (m : bytes) : bytes := concat (map hex_byte (fips_digest m)).

Example abc_stream :
  jf_sha256_hex (jf_sha256_update (jf_sha256_update (jf_sha256_init (replicate 64 170))
    (str "a")) (str "bc")) =
  str "ba7816bf8f01cfea414140de5dae2223b00361a396177a9cb410ff61f20015ad".
Proof. vm_compute. reflexivity. Qed.

#[local] Opaque compress initial k.

(** ** The streaming state refines the absorbed message *)

Lemma compress_blocks_app n j st a b :
  length a = (64 * n)%nat ->
  compress_blocks (n + j) st (a ++ b) = compress_blocks j (compress_blocks n st a) b.
Proof.
  revert st a. induction n as [|n IH]; intros st a Ha.
  - apply nil_length_inv in Ha as ->. reflexivity.
  - cbn [compress_blocks Nat.add].
    rewrite take_app_le, drop_app_le by lia.
    apply IH. rewrite length_drop. lia.
Qed.

(** [s] has absorbed exactly the bytes [m]: whole blocks are compressed into
    the state and the rest is the used part of the block. *)
Definition absorbed (s : jf_sha256) (m : bytes) : Prop :=
  length (block s) = 64%nat /\ (used s < 64)%nat /\
  exists n done rest,
    m = done ++ rest /\ length done = (64 * n)%nat /\ length rest = used s /\
    state s = compress_blocks n initial done /\ take (used s) (block s) = rest.

Lemma absorbed_init g : length g = 64%nat -> absorbed (jf_sha256_init g) [].
Proof.
  intros Hg. split_and!; cbn; [exact Hg | lia |].
  exists 0%nat, [], []. split_and!; reflexivity.
Qed.

Lemma absorbed_used s m : absorbed s m -> used s = (length m mod 64)%nat.
Proof.
  intros (_ & Hu & n & d & r & -> & Hd & Hr & _).
  rewrite length_app, Hd, Hr, Nat.add_comm, Nat.mul_comm, Nat.Div0.mod_add.
  symmetry. now apply Nat.mod_small.
Qed.

Lemma memcpy_at_length dst off src :
  (off + length src <= length dst)%nat -> length (memcpy_at dst off src) = length dst.
Proof.
  intros H. unfold memcpy_at. rewrite !length_app, length_take, length_drop. lia.
Qed.

Lemma memcpy_at_take dst off src :
  (off + length src <= length dst)%nat ->
  take (off + length src) (memcpy_at dst off src) = take off dst ++ src.
Proof.
  intros H. unfold memcpy_at. rewrite app_assoc, take_app_le.
  - apply take_ge. rewrite length_app, length_take. lia.
  - rewrite length_app, length_take. lia.
Qed.

(** One turn of the loop of [jf_sha256_update]. *)
Lemma absorbed_chunk s m c :
  absorbed s m -> (used s + length c <= 64)%nat ->
  let s1 := MkSha (state s) (count_ s) (memcpy_at (block s) (used s) c)
              (used s + length c) in
  absorbed (if (used s1 =? 64)%nat
            then let t := transform s1 in MkSha (state t) (count_ t) (block t) 0
            else s1) (m ++ c).
Proof.
  intros (Hb & Hu & n & d & r & -> & Hd & Hr & Hst & Htk) Hc s1.
  assert (Hlen : length (block s1) = 64%nat)
    by (cbn; rewrite memcpy_at_length; lia).
  assert (Htake : take (used s1) (block s1) = r ++ c).
  { cbn. rewrite memcpy_at_take by lia. now rewrite Htk. }
  destruct (Nat.eqb_spec (used s1) 64) as [E|E].
  - split_and!; cbn; [exact Hlen | lia |].
    exists (n + 1)%nat, (d ++ r ++ c), []. split_and!.
    + now rewrite !app_nil_r, app_assoc.
    + rewrite !length_app, Hd, Hr. cbn in E. lia.
    + reflexivity.
    + rewrite E, take_ge in Htake by lia. cbn [s1 block] in Htake, Hlen.
      rewrite compress_blocks_app by exact Hd. cbn [compress_blocks].
      rewrite Htake, <- Hst, take_ge; [reflexivity|].
      rewrite <- Htake. lia.
    + reflexivity.
  - cbn in E. split; [exact Hlen|]. split; [cbn; lia|].
    exists n, d, (r ++ c). split_and!.
    + now rewrite app_assoc.
    + exact Hd.
    + rewrite length_app, Hr. reflexivity.
    + exact Hst.
    + exact Htake.
Qed.

Lemma absorbed_loop fuel s m p :
  absorbed s m -> (length p <= fuel)%nat -> absorbed (update_loop fuel s p) (m ++ p).
Proof.
  revert s m p. induction fuel as [|fuel IH]; intros s m p Hs Hf.
  - assert (p = []) as -> by (apply nil_length_inv; lia). now rewrite app_nil_r.
  - destruct p as [|x p]; [now rewrite app_nil_r|].
    pose proof Hs as (_ & Hu & _).
    cbn [update_loop].
    set (t := if (length (x :: p) <? 64 - used s)%nat then _ else _).
    assert (Ht : (1 <= t <= 64 - used s)%nat /\ (t <= length (x :: p))%nat).
    { subst t. destruct (Nat.ltb_spec (length (x :: p)) (64 - used s)); cbn in *; lia. }
    assert (Hl : length (take t (x :: p)) = t) by (rewrite length_take; lia).
    replace (m ++ x :: p) with ((m ++ take t (x :: p)) ++ drop t (x :: p))
      by now rewrite <- app_assoc, take_drop.
    apply IH.
    + pose proof (absorbed_chunk s m (take t (x :: p)) Hs) as H.
      rewrite Hl in H. apply H. lia.
    + rewrite length_drop. cbn [length] in *. lia.
Qed.

Lemma absorbed_update s m d : absorbed s m -> absorbed (jf_sha256_update s d) (m ++ d).
Proof.
  intros Hs. apply absorbed_loop; [|lia].
  destruct Hs as (H1 & H2 & H3). now split_and!.
Qed.

Lemma update_loop_count fuel s p : count_ (update_loop fuel s p) = count_ s.
Proof.
  revert s p. induction fuel as [|fuel IH]; intros s p; [reflexivity|].
  destruct p as [|x p]; [reflexivity|]. cbn [update_loop]. rewrite IH.
  now destruct (_ =? 64)%nat.
Qed.

Lemma update_count s d :
  count_ (jf_sha256_update s d) = (count_ s + zlen d) mod 2 ^ 64.
Proof. apply update_loop_count. Qed.

Lemma absorbed_pad fuel s m :
  absorbed s m -> ((120 - used s) mod 64 <= fuel)%nat ->
  absorbed (pad_loop fuel s) (m ++ replicate ((120 - used s) mod 64)%nat 0).
Proof.
  revert s m. induction fuel as [|fuel IH]; intros s m Hs Hf.
  - apply Nat.le_0_r in Hf. rewrite Hf. now rewrite app_nil_r.
  - cbn [pad_loop]. pose proof Hs as (_ & Hu & _).
    destruct (Nat.eqb_spec (used s) 56) as [E|E].
    { rewrite E. cbn. now rewrite app_nil_r. }
    pose proof (absorbed_update s m [0] Hs) as Hn.
    pose proof (absorbed_used _ _ Hs) as U0. pose proof (absorbed_used _ _ Hn) as U1.
    rewrite length_app in U1. cbn [length] in U1.
    assert (Hz : ((120 - used s) mod 64)%nat =
                 S ((120 - used (jf_sha256_update s [0%Z])) mod 64)).
    { rewrite U1, <- Nat.Div0.add_mod_idemp_l, <- U0. clear - Hu E.
      destruct (Nat.eq_dec (used s) 63%nat) as [->|]; [reflexivity|].
      rewrite (Nat.mod_small (used s + 1)) by lia.
      destruct (Nat.lt_ge_cases (used s) 56).
      - replace (120 - used s)%nat with (56 - used s + 1 * 64)%nat by lia.
        replace (120 - (used s + 1))%nat with (55 - used s + 1 * 64)%nat by lia.
        rewrite !Nat.Div0.mod_add, !Nat.mod_small by lia. lia.
      - rewrite !Nat.mod_small by lia. lia. }
    rewrite Hz in *. cbn [replicate].
    change (0 :: replicate ?n 0) with ([0] ++ replicate n 0).
    rewrite app_assoc. apply IH; [exact Hn | lia].
Qed.

Lemma absorbed_state s m n :
  absorbed s m -> length m = (64 * n)%nat -> state s = compress_blocks n initial m.
Proof.
  intros (_ & Hu & j & d & r & -> & Hd & Hr & Hst & _) Hm.
  rewrite length_app, Hd in Hm. assert (r = []) as ->
    by (apply nil_length_inv; lia).
  rewrite app_nil_r. replace n with j; [exact Hst | cbn in Hm; lia].
Qed.

Lemma fips_pad_blocks m : exists n, length (fips_pad m) = (64 * n)%nat.
Proof.
  unfold fips_pad, fips_zeros, length_be. rewrite !length_app. cbn [length].
  rewrite length_app, length_replicate, length_map, length_seq.
  pose proof (Nat.div_mod_eq (length m) 64) as E.
  pose proof (Nat.mod_upper_bound (length m) 64 ltac:(lia)) as B.
  set (q := (length m / 64)%nat) in *. set (r := (length m mod 64)%nat) in *.
  destruct (Nat.lt_ge_cases r 56).
  - replace (119 - r)%nat with (55 - r + 1 * 64)%nat by lia.
    rewrite Nat.Div0.mod_add, Nat.mod_small by lia. exists (q + 1)%nat. lia.
  - rewrite Nat.mod_small by lia. exists (q + 2)%nat. lia.
Qed.

Lemma finish_absorbs s m :
  absorbed s m -> count_ s = zlen m mod 2 ^ 64 -> absorbed (finish s) (fips_pad m).
Proof.
  intros Hs Hc. unfold finish, fips_pad.
  replace ((count_ s * 8) mod 2 ^ 64) with ((zlen m * 8) mod 2 ^ 64)
    by (rewrite Hc, Z.mul_mod_idemp_l; [reflexivity|lia]).
  change (0x80 :: ?t) with ([0x80] ++ t). rewrite !app_assoc.
  apply absorbed_update.
  pose proof (absorbed_update s m [0x80] Hs) as Hn.
  pose proof (absorbed_used _ _ Hn) as U. pose proof (absorbed_used _ _ Hs) as U0.
  pose proof Hs as (_ & Hu & _). rewrite length_app in U. cbn [length] in U.
  assert (E : fips_zeros (length m) = ((120 - used (jf_sha256_update s [0x80%Z])) mod 64)%nat).
  { unfold fips_zeros. rewrite U, <- Nat.Div0.add_mod_idemp_l, <- U0. clear - Hu.
    destruct (Nat.eq_dec (used s) 63%nat) as [->|]; [reflexivity|].
    rewrite (Nat.mod_small (used s + 1)) by lia. f_equal. lia. }
  rewrite E. apply absorbed_pad; [exact Hn|].
  apply Nat.lt_le_incl, Nat.mod_upper_bound. lia.
Qed.

Lemma finish_state s m :
  absorbed s m -> count_ s = zlen m mod 2 ^ 64 -> state (finish s) = fips_state m.
Proof.
  intros Hs Hc. unfold fips_state.
  destruct (fips_pad_blocks m) as [n Hn].
  rewrite (absorbed_state _ _ n (finish_absorbs s m Hs Hc) Hn), Hn.
  f_equal. rewrite Nat.mul_comm, Nat.div_mul; lia.
Qed.

Lemma hex_absorbed s m :
  absorbed s m -> count_ s = zlen m mod 2 ^ 64 -> jf_sha256_hex s = fips_hex m.
Proof.
  intros Hs Hc. unfold jf_sha256_hex, fips_hex, fips_digest.
  now rewrite (finish_state s m Hs Hc).
Qed.

(** *** Feeding a list of chunks *)

Definition updates (s : jf_sha256) (chunks : list bytes) : jf_sha256 :=
  fold_left jf_sha256_update chunks s.

Lemma updates_absorbed s m chunks :
  absorbed s m -> count_ s = zlen m mod 2 ^ 64 ->
  absorbed (updates s chunks) (m ++ concat chunks) /\
  count_ (updates s chunks) = zlen (m ++ concat chunks) mod 2 ^ 64.
Proof.
  revert s m. induction chunks as [|c cs IH]; intros s m Hs Hc; cbn [updates fold_left concat].
  - now rewrite app_nil_r.
  - rewrite app_assoc. apply IH; [now apply absorbed_update|].
    rewrite update_count, Hc, Z.add_mod_idemp_l by lia.
    unfold zlen. rewrite length_app. f_equal. lia.
Qed.

(** *** Hexadecimal and raw digests *)

Lemma state_byte_range st i : 0 <= state_byte st i < 256.
Proof.
  unfold state_byte. rewrite (Z.land_ones _ 8) by lia. apply Z.mod_pos_bound. lia.
Qed.

Lemma fips_digest_length m : length (fips_digest m) = 32%nat.
Proof. unfold fips_digest. now rewrite length_map, length_seq. Qed.

Lemma fips_digest_bytes m : bytes_ok (fips_digest m).
Proof.
  unfold fips_digest. apply Forall_map, Forall_true. intros i. apply state_byte_range.
Qed.

(** A lower-case hexadecimal digit, the test of the cache validator's [id]. *)
Definition is_hex (c : Z) : bool :=
  ((ch "0" <=? c) && (c <=? ch "9")) || ((ch "a" <=? c) && (c <=? ch "f")).

Lemma hex_byte_unhex b t : is_byte b -> unhex (hex_byte b ++ t) = b :: unhex t.
Proof.
  intros Hb. cbn. f_equal. apply Z.eqb_eq.
  apply (byte_cases (fun b => Z.land (Z.lor (Z.shiftl
    (hex_value (at_ hex_digits (Z.to_nat (Z.shiftr b 4)))) 4)
    (hex_value (at_ hex_digits (Z.to_nat (Z.land b 15))))) 255 =? b)); [|exact Hb].
  vm_compute. reflexivity.
Qed.

Lemma unhex_hex d : bytes_ok d -> unhex (jf_digest_hex d) = d.
Proof.
  unfold jf_digest_hex. induction 1 as [|b d Hb _ IH]; [reflexivity|].
  cbn [map concat]. now rewrite hex_byte_unhex, IH.
Qed.

Lemma hex_byte_is_hex b : is_byte b -> forallb is_hex (hex_byte b) = true.
Proof.
  apply (byte_cases (fun b => forallb is_hex (hex_byte b))). vm_compute. reflexivity.
Qed.

Lemma digest_hex_digits d : bytes_ok d -> forallb is_hex (jf_digest_hex d) = true.
Proof.
  unfold jf_digest_hex. induction 1 as [|b d Hb _ IH]; [reflexivity|].
  cbn [map concat]. now rewrite forallb_app, hex_byte_is_hex, IH.
Qed.

Lemma digest_hex_length d : length (jf_digest_hex d) = (2 * length d)%nat.
Proof.
  unfold jf_digest_hex. induction d as [|b d IH]; [reflexivity|].
  cbn [map concat length]. rewrite length_app, IH. cbn. lia.
Qed.

Lemma digest_hex_inj d e : bytes_ok d -> bytes_ok e -> jf_digest_hex d = jf_digest_hex e -> d = e.
Proof. intros Hd He H. now rewrite <- (unhex_hex d Hd), H, unhex_hex. Qed.

Lemma fips_hex_eq m : fips_hex m = jf_digest_hex (fips_digest m).
Proof. reflexivity. Qed.

Lemma fips_hex_length m : length (fips_hex m) = 64%nat.
Proof. rewrite fips_hex_eq, digest_hex_length, fips_digest_length. reflexivity. Qed.

Lemma fips_hex_digits m : forallb is_hex (fips_hex m) = true.
Proof. rewrite fips_hex_eq. apply digest_hex_digits, fips_digest_bytes. Qed.

Lemma stream_hex g chunks :
  length g = 64%nat ->
  jf_sha256_hex (updates (jf_sha256_init g) chunks) = fips_hex (concat chunks).
Proof.
  intros Hg. destruct (updates_absorbed _ [] chunks (absorbed_init g Hg) eq_refl) as [Ha Hc].
  now apply hex_absorbed.
Qed.

Lemma jf_digest_fips g m : length g = 64%nat -> jf_digest g m = fips_digest m.
Proof.
  intros Hg. unfold jf_digest.
  change (jf_sha256_update ?s m) with (updates s [m]).
  rewrite stream_hex by exact Hg. cbn [concat]. rewrite app_nil_r, fips_hex_eq.
  apply unhex_hex, fips_digest_bytes.
Qed.

(** ** Properties *)

(** C32. However the message is cut into updates and whatever the uninitialised
    block buffer holds, the streaming code produces the FIPS 180-4 digest of the
    whole message, as 64 lower-case hexadecimal digits, and [jf_digest] reads
    exactly the 32 raw bytes back from that text. *)
Theorem sha256_stream_correct (g : bytes) (chunks : list bytes) :
  length g = 64%nat ->
  let h := jf_sha256_hex (updates (jf_sha256_init g) chunks) in
  h = fips_hex (concat chunks) /\ length h = 64%nat /\ forallb is_hex h = true /\
  unhex h = jf_digest g (concat chunks) /\ length (unhex h) = 32%nat /\
  jf_digest_hex (unhex h) = h.
Proof.
  intros Hg h. assert (h = fips_hex (concat chunks)) as -> by now apply stream_hex.
  assert (unhex (fips_hex (concat chunks)) = fips_digest (concat chunks)) as ->
    by (rewrite fips_hex_eq; apply unhex_hex, fips_digest_bytes).
  rewrite (jf_digest_fips g) by exact Hg.
  split_and!; auto using fips_digest_length, fips_hex_length, fips_hex_digits.
Qed.

Lemma sha256_stream_correct_witness :
  jf_sha256_hex (updates (jf_sha256_init (replicate 64 170)) [str "a"; []; str "bc"]) =
  str "ba7816bf8f01cfea414140de5dae2223b00361a396177a9cb410ff61f20015ad".
Proof.
  rewrite (proj1 (sha256_stream_correct (replicate 64 170) [str "a"; []; str "bc"] eq_refl)).
  vm_compute. reflexivity.
Defined.
