(* ===== verification/Utf8.v ===== *)
(** * UTF-8 (src/filter/policy.c: [jf_valid_utf8], [hex4], [encode])

    The validator that every policy line, header field and mailbox goes through,
    and the encoder of the lexer's Unicode escapes; the validator accepts exactly
    the encodings of sequences of nonzero Unicode scalar values. *)
From S2P Require Import Prelude.

(** The inner loop [while (need--)]: the continuation bytes shifted into [c]. *)
Fixpoint continuation (need : nat) (c : Z) (s : bytes) : option (Z * bytes) :=
  match need with
  | O => Some (c, s)
  | S need' =>
      match s with
      | [] => None
      | b :: t => if negb (Z.land b 0xc0 =? 0x80) then None
                  else continuation need' (Z.lor (Z.shiftl c 6) (Z.land b 63)) t
      end
  end.

(** The length class of a lead byte: the number of continuation bytes, the least
    value of the class and the bits of the lead byte. *)
Definition lead (c : Z) : option (nat * Z * Z) :=
  if (0xc2 <=? c) && (c <=? 0xdf) then Some (1%nat, 0x80, Z.land c 31)
  else if (0xe0 <=? c) && (c <=? 0xef) then Some (2%nat, 0x800, Z.land c 15)
  else if (0xf0 <=? c) && (c <=? 0xf4) then Some (3%nat, 0x10000, Z.land c 7)
  else None.

Fixpoint valid_utf8_loop (fuel : nat) (s : bytes) : bool :=
  match fuel, s with
  | _, [] => true
  | O, _ => false
  | S fuel', c :: t =>
      if c =? 0 then false
      else if c <? 128 then valid_utf8_loop fuel' t
      else match lead c with
           | None => false
           | Some (need, min, c0) =>
               if (length t <? need)%nat then false
               else match continuation need c0 t with
                    | None => false
                    | Some (v, t') =>
                        if (v <? min) || (0x10ffff <? v) || ((0xd800 <=? v) && (v <=? 0xdfff))
                        then false
                        else valid_utf8_loop fuel' t'
                    end
           end
  end.

Definition jf_valid_utf8 (s : bytes) : bool := valid_utf8_loop (length s) s.

Definition hex_digit (c : Z) : option Z :=
  if (ch "0" <=? c) && (c <=? ch "9") then Some (c - ch "0")
  else if (ch "a" <=? c) && (c <=? ch "f") then Some (c - ch "a" + 10)
  else if (ch "A" <=? c) && (c <=? ch "F") then Some (c - ch "A" + 10)
  else None.

Fixpoint hex4_loop (i : nat) (v : Z) (s : bytes) : option (Z * bytes) :=
  match i with
  | O => Some (v, s)
  | S i' =>
      match s with
      | [] => None
      | c :: t => match hex_digit c with
                  | None => None
                  | Some d => hex4_loop i' (Z.lor (Z.shiftl v 4) d) t
                  end
      end
  end.

(** [hex4 (s, n, &v)], with the bytes after the four digits. *)
Definition hex4 (s : bytes) : option (Z * bytes) :=
  if (length s <? 4)%nat then None else hex4_loop 4 0 s.

Definition encode (c : Z) : bytes :=
  if c <? 0x80 then [c]
  else if c <? 0x800 then
    [Z.lor 0xc0 (Z.shiftr c 6); Z.lor 0x80 (Z.land c 63)]
  else if c <? 0x10000 then
    [Z.lor 0xe0 (Z.shiftr c 12); Z.lor 0x80 (Z.land (Z.shiftr c 6) 63);
     Z.lor 0x80 (Z.land c 63)]
  else
    [Z.lor 0xf0 (Z.shiftr c 18); Z.lor 0x80 (Z.land (Z.shiftr c 12) 63);
     Z.lor 0x80 (Z.land (Z.shiftr c 6) 63); Z.lor 0x80 (Z.land c 63)].

(** ** Specification: sequences of scalar values *)

Definition scalar (c : Z) : Prop :=
  0 < c <= 0x10ffff /\ ~ (0xd800 <= c <= 0xdfff).

Definition utf8_text (s : bytes) : Prop :=
  exists cs, Forall scalar cs /\ s = concat (map encode cs).

(** ** The bit arithmetic of the encoding, as quotients and remainders *)

Lemma land63 c : Z.land c 63 = c mod 64.
Proof. exact (Z.land_ones c 6 ltac:(lia)). Qed.

Lemma shiftr6 c : Z.shiftr c 6 = c / 64.
Proof. now rewrite Z.shiftr_div_pow2 by lia. Qed.

Lemma lor_disjoint a b n :
  0 <= n -> 0 <= b < 2 ^ n -> Z.lor (Z.shiftl a n) b = a * 2 ^ n + b.
Proof.
  intros Hn Hb. rewrite Z.shiftl_mul_pow2 by lia.
  rewrite <- Z.lxor_lor, <- Z.add_nocarry_lxor; [reflexivity| |];
  (apply Z.bits_inj'; intros i Hi; rewrite Z.land_spec, Z.bits_0;
   destruct (Z.lt_ge_cases i n);
   [rewrite Z.mul_pow2_bits_low by lia; reflexivity
   |rewrite <- (Z.mod_small b (2 ^ n)), Z.mod_pow2_bits_high by lia; apply andb_false_r]).
Qed.

Lemma lor_shift6 c b : 0 <= b < 64 -> Z.lor (Z.shiftl c 6) b = c * 64 + b.
Proof. intros H. now rewrite lor_disjoint. Qed.

Lemma lor_c0 x : 0 <= x < 64 -> Z.lor 0xc0 x = 0xc0 + x.
Proof. intros H. exact (lor_disjoint 3 x 6 ltac:(lia) H). Qed.
Lemma lor_e0 x : 0 <= x < 32 -> Z.lor 0xe0 x = 0xe0 + x.
Proof. intros H. exact (lor_disjoint 7 x 5 ltac:(lia) H). Qed.
Lemma lor_f0 x : 0 <= x < 16 -> Z.lor 0xf0 x = 0xf0 + x.
Proof. intros H. exact (lor_disjoint 15 x 4 ltac:(lia) H). Qed.
Lemma lor_80 x : 0 <= x < 64 -> Z.lor 0x80 x = 0x80 + x.
Proof. intros H. exact (lor_disjoint 2 x 6 ltac:(lia) H). Qed.

Ltac div_bounds :=
  repeat match goal with
  | |- context [?a / ?b] =>
      lazymatch goal with
      | _ : a = b * (a / b) + a mod b |- _ => fail
      | _ => pose proof (Z.div_mod a b ltac:(lia)); pose proof (Z.mod_pos_bound a b ltac:(lia))
      end
  | |- context [?a mod ?b] =>
      lazymatch goal with
      | _ : a = b * (a / b) + a mod b |- _ => fail
      | _ => pose proof (Z.div_mod a b ltac:(lia)); pose proof (Z.mod_pos_bound a b ltac:(lia))
      end
  end.

Lemma encode1 c : 0 <= c < 0x80 -> encode c = [c].
Proof. intros H. unfold encode. now rewrite (proj2 (Z.ltb_lt c 0x80)) by lia. Qed.

Lemma encode2 c : 0x80 <= c < 0x800 -> encode c = [0xc0 + c / 64; 0x80 + c mod 64].
Proof.
  intros H. unfold encode.
  rewrite (proj2 (Z.ltb_ge c 0x80)), (proj2 (Z.ltb_lt c 0x800)) by lia.
  rewrite land63, shiftr6, lor_c0, lor_80 by (div_bounds; lia). reflexivity.
Qed.

Lemma encode3 c : 0x800 <= c < 0x10000 ->
  encode c = [0xe0 + c / 64 / 64; 0x80 + c / 64 mod 64; 0x80 + c mod 64].
Proof.
  intros H. unfold encode.
  rewrite (proj2 (Z.ltb_ge c 0x80)), (proj2 (Z.ltb_ge c 0x800)),
    (proj2 (Z.ltb_lt c 0x10000)) by lia.
  rewrite !land63, shiftr6, (Z.shiftr_div_pow2 c 12) by lia.
  change (2 ^ 12) with (64 * 64). rewrite <- Z.div_div by lia.
  rewrite lor_e0, !lor_80 by (div_bounds; lia). reflexivity.
Qed.

Lemma encode4 c : 0x10000 <= c <= 0x10ffff ->
  encode c = [0xf0 + c / 64 / 64 / 64; 0x80 + c / 64 / 64 mod 64;
              0x80 + c / 64 mod 64; 0x80 + c mod 64].
Proof.
  intros H. unfold encode.
  rewrite (proj2 (Z.ltb_ge c 0x80)), (proj2 (Z.ltb_ge c 0x800)),
    (proj2 (Z.ltb_ge c 0x10000)) by lia.
  rewrite !land63, shiftr6, (Z.shiftr_div_pow2 c 12), (Z.shiftr_div_pow2 c 18) by lia.
  change (2 ^ 18) with (64 * 64 * 64). change (2 ^ 12) with (64 * 64).
  rewrite <- !Z.div_div by lia.
  rewrite lor_f0, !lor_80 by (div_bounds; lia). reflexivity.
Qed.

(** The continuation test and value on a byte. *)
Lemma continuation_byte b : is_byte b -> (Z.land b 0xc0 =? 0x80) = (0x80 <=? b) && (b <? 0xc0).
Proof.
  intros Hb. apply eqb_true_iff.
  apply (byte_cases (fun b => eqb (Z.land b 0xc0 =? 0x80) ((0x80 <=? b) && (b <? 0xc0))));
    [vm_compute; reflexivity | exact Hb].
Qed.

Lemma continuation_cons need c b t :
  0 <= b < 256 ->
  continuation (S need) c (b :: t) =
    if (0x80 <=? b) && (b <? 0xc0) then continuation need (c * 64 + (b - 0x80)) t else None.
Proof.
  intros Hb. cbn [continuation]. rewrite continuation_byte by exact Hb.
  destruct ((0x80 <=? b) && (b <? 0xc0)) eqn:E; cbn [negb]; [|reflexivity].
  boolify. rewrite land63, lor_shift6 by (apply Z.mod_pos_bound; lia).
  do 2 f_equal. rewrite <- (Z.mod_small (b - 128) 64) by lia.
  replace b with (b - 128 + 2 * 64) at 1 by lia. now rewrite Z.mod_add by lia.
Qed.

Lemma lead_value c : is_byte c ->
  lead c = if (0xc2 <=? c) && (c <=? 0xdf) then Some (1%nat, 0x80, c - 0xc0)
           else if (0xe0 <=? c) && (c <=? 0xef) then Some (2%nat, 0x800, c - 0xe0)
           else if (0xf0 <=? c) && (c <=? 0xf4) then Some (3%nat, 0x10000, c - 0xf0)
           else None.
Proof.
  intros Hc. unfold lead.
  assert (H : forall p v w, forallb (fun c => implb (p c) (v c =? w c)) all_bytes = true ->
              p c = true -> v c = w c).
  { intros p v w Hall Hp. pose proof (byte_cases _ Hall c Hc) as E. cbn in E.
    rewrite Hp in E. now apply Z.eqb_eq. }
  repeat match goal with |- context [if ?b then _ else _] => destruct b eqn:? end;
    try reflexivity; do 2 f_equal.
  - apply (H (fun c => (0xc2 <=? c) && (c <=? 0xdf)) (fun c => Z.land c 31) (fun c => c - 0xc0));
      [vm_compute; reflexivity | assumption].
  - apply (H (fun c => (0xe0 <=? c) && (c <=? 0xef)) (fun c => Z.land c 15) (fun c => c - 0xe0));
      [vm_compute; reflexivity | assumption].
  - apply (H (fun c => (0xf0 <=? c) && (c <=? 0xf4)) (fun c => Z.land c 7) (fun c => c - 0xf0));
      [vm_compute; reflexivity | assumption].
Qed.

(** Decide every integer test of the goal that [lia] settles. *)
Ltac solve_tests :=
  repeat match goal with
  | |- context [?a =? ?b] =>
      first [ rewrite (proj2 (Z.eqb_eq a b)) by lia | rewrite (proj2 (Z.eqb_neq a b)) by lia ]
  | |- context [?a <? ?b] =>
      first [ rewrite (proj2 (Z.ltb_lt a b)) by lia | rewrite (proj2 (Z.ltb_ge a b)) by lia ]
  | |- context [?a <=? ?b] =>
      first [ rewrite (proj2 (Z.leb_le a b)) by lia | rewrite (proj2 (Z.leb_gt a b)) by lia ]
  end; cbn [andb orb negb].

Lemma loop_accepts fuel c t :
  scalar c -> valid_utf8_loop (S fuel) (encode c ++ t) = valid_utf8_loop fuel t.
Proof.
  intros [Hc Hs].
  destruct (Z.lt_ge_cases c 0x80); [|destruct (Z.lt_ge_cases c 0x800);
    [|destruct (Z.lt_ge_cases c 0x10000)]].
  - rewrite encode1 by lia. cbn [app valid_utf8_loop]. solve_tests. reflexivity.
  - rewrite encode2 by lia. cbn [app valid_utf8_loop]. div_bounds.
    rewrite lead_value by (unfold is_byte; lia). solve_tests. cbn [length Nat.ltb Nat.leb].
    rewrite continuation_cons by lia. solve_tests. cbn [continuation].
    replace ((192 + c / 64 - 192) * 64 + (128 + c mod 64 - 128)) with c by lia.
    solve_tests. destruct (55296 <=? c) eqn:?; [|reflexivity].
    boolify. solve_tests. reflexivity.
  - rewrite encode3 by lia. cbn [app valid_utf8_loop]. div_bounds.
    rewrite lead_value by (unfold is_byte; lia). solve_tests. cbn [length Nat.ltb Nat.leb].
    rewrite !continuation_cons by lia. solve_tests. cbn [continuation].
    match goal with |- context [?v <? 0x800] => replace v with c by lia end.
    solve_tests. destruct (55296 <=? c) eqn:?; [|reflexivity].
    boolify. solve_tests. reflexivity.
  - rewrite encode4 by lia. cbn [app valid_utf8_loop]. div_bounds.
    rewrite lead_value by (unfold is_byte; lia). solve_tests. cbn [length Nat.ltb Nat.leb].
    rewrite !continuation_cons by lia. solve_tests. cbn [continuation].
    match goal with |- context [?v <? 0x10000] => replace v with c by lia end.
    solve_tests. reflexivity.
Qed.

Lemma continuation_Some need c s v t :
  bytes_ok s -> continuation need c s = Some (v, t) ->
  exists l, s = l ++ t /\ length l = need /\ Forall (fun b => 0x80 <= b < 0xc0) l /\
    v = fold_left (fun c b => c * 64 + (b - 0x80)) l c.
Proof.
  revert c s. induction need as [|need IH]; intros c s Hs H.
  - injection H as <- <-. now exists [].
  - destruct Hs as [|b s Hb Hs]; [discriminate|].
    rewrite continuation_cons in H by exact Hb.
    case_test; [|discriminate]. boolify.
    apply IH in H as (l & -> & Hl & Hr & ->); [|exact Hs].
    exists (b :: l). cbn. split_and!; auto with lia.
Qed.

Lemma loop_rejects fuel c t :
  bytes_ok (c :: t) -> valid_utf8_loop (S fuel) (c :: t) = true ->
  exists v t', scalar v /\ c :: t = encode v ++ t' /\ valid_utf8_loop fuel t' = true.
Proof.
  intros Hok H. inversion Hok as [|? ? Hc Ht]; subst. cbn [valid_utf8_loop] in H.
  destruct (c =? 0) eqn:E0; [discriminate|]. destruct (c <? 128) eqn:E1; boolify.
  { exists c, t. unfold is_byte in Hc. rewrite encode1 by lia.
    split_and!; [split; lia | reflexivity | exact H]. }
  destruct (lead c) as [[[need min] c0]|] eqn:El; [|discriminate].
  destruct (_ <? _)%nat; [discriminate|].
  destruct (continuation need c0 t) as [[v t']|] eqn:Ec; [|discriminate].
  destruct ((v <? min) || (1114111 <? v) || ((55296 <=? v) && (v <=? 57343))) eqn:Ev; [discriminate|].
  apply continuation_Some in Ec as (l & -> & Hl & Hb & Hv); [|exact Ht].
  exists v, t'. boolify. rewrite lead_value in El by exact Hc.
  assert (Hsur : ~ (55296 <= v <= 57343)).
  { intros [G1 G2]. apply Z.leb_le in G1, G2. now rewrite G1, G2 in *. }
  split_and!; [| |exact H].
  - split; [|exact Hsur]. repeat case_test; inversion El; subst; lia.
  - rewrite app_comm_cons. f_equal.
    destruct ((194 <=? c) && (c <=? 223)) eqn:L1; [|destruct ((224 <=? c) && (c <=? 239)) eqn:L2;
      [|destruct ((240 <=? c) && (c <=? 244)) eqn:L3; [|discriminate]]];
      injection El as <- <- <-; boolify.
    + destruct l as [|b1 [|]]; try discriminate. inversion_clear Hb.
      cbn [fold_left] in Hv. rewrite encode2 by lia. subst v. div_bounds. repeat f_equal; lia.
    + destruct l as [|b1 [|b2 [|]]]; try discriminate.
      inversion_clear Hb as [|? ? ? Hb']. inversion_clear Hb'.
      cbn [fold_left] in Hv. rewrite encode3 by lia. subst v. div_bounds. repeat f_equal; lia.
    + destruct l as [|b1 [|b2 [|b3 [|]]]]; try discriminate.
      inversion_clear Hb as [|? ? ? Hb']. inversion_clear Hb' as [|? ? ? Hb]. inversion_clear Hb.
      cbn [fold_left] in Hv. rewrite encode4 by lia. subst v. div_bounds. repeat f_equal; lia.
Qed.

(** ** The validator accepts exactly UTF-8 text *)

Lemma encode_bytes c : scalar c -> Forall (fun b => 0 < b < 256) (encode c) /\ encode c <> [].
Proof.
  intros [Hc _].
  destruct (Z.lt_ge_cases c 0x80); [|destruct (Z.lt_ge_cases c 0x800);
    [|destruct (Z.lt_ge_cases c 0x10000)]];
    rewrite ?encode1, ?encode2, ?encode3, ?encode4 by lia;
    (split; [|discriminate]); repeat constructor; div_bounds; lia.
Qed.

Lemma encode_length c : scalar c -> (1 <= length (encode c) <= 4)%nat.
Proof.
  intros [Hc _].
  destruct (Z.lt_ge_cases c 0x80); [|destruct (Z.lt_ge_cases c 0x800);
    [|destruct (Z.lt_ge_cases c 0x10000)]];
    rewrite ?encode1, ?encode2, ?encode3, ?encode4 by lia; cbn; lia.
Qed.

Lemma loop_text fuel cs :
  Forall scalar cs -> (length (concat (map encode cs)) <= fuel)%nat ->
  valid_utf8_loop fuel (concat (map encode cs)) = true.
Proof.
  intros Hcs. revert fuel. induction Hcs as [|c cs Hc _ IH]; intros fuel Hf; [now destruct fuel|].
  cbn [map concat] in *. rewrite length_app in Hf. pose proof (encode_length c Hc).
  destruct fuel as [|fuel]; [lia|]. rewrite loop_accepts by exact Hc. apply IH. lia.
Qed.

Lemma text_of_loop fuel s : bytes_ok s -> valid_utf8_loop fuel s = true -> utf8_text s.
Proof.
  revert s. induction fuel as [|fuel IH]; intros [|c t] Hs H;
    try (now exists []); try discriminate.
  apply loop_rejects in H as (v & t' & Hv & E & H); [|exact Hs].
  rewrite E in *. apply Forall_app in Hs as [_ Ht].
  apply IH in H as (cs & Hcs & ->); [|exact Ht].
  exists (v :: cs). split; [now constructor|reflexivity].
Qed.

Lemma valid_utf8_spec s : bytes_ok s -> jf_valid_utf8 s = true <-> utf8_text s.
Proof.
  intros Hs. split; [now apply text_of_loop|].
  intros (cs & Hcs & ->). now apply loop_text.
Qed.

Lemma utf8_text_cstr s : utf8_text s -> cstr_ok s.
Proof.
  intros (cs & Hcs & ->). induction Hcs as [|c cs Hc _ IH]; cbn; [constructor|].
  apply Forall_app. split; [apply encode_bytes, Hc | exact IH].
Qed.

Lemma utf8_text_app s t : utf8_text s -> utf8_text t -> utf8_text (s ++ t).
Proof.
  intros (cs & Hcs & ->) (ds & Hds & ->). exists (cs ++ ds).
  split; [now apply Forall_app|]. now rewrite map_app, concat_app.
Qed.

Lemma ascii_text s : Forall (fun c => 0 < c < 128) s -> utf8_text s.
Proof.
  induction 1 as [|c s Hc _ (cs & Hcs & ->)]; [now exists []|].
  exists (c :: cs). split.
  - constructor; [split; lia | exact Hcs].
  - cbn. now rewrite encode1 by lia.
Qed.

(** ** ASCII bytes are character boundaries *)

Abbreviation ascii c := (0 < c < 128).

Lemma encode_ascii c b : scalar c -> b ∈ encode c -> b < 128 -> encode c = [b].
Proof.
  intros [Hc _] Hb Hlt.
  destruct (Z.lt_ge_cases c 0x80).
  { rewrite encode1 in * by lia. now apply list_elem_of_singleton in Hb as ->. }
  exfalso. destruct (Z.lt_ge_cases c 0x800); [|destruct (Z.lt_ge_cases c 0x10000)];
    rewrite ?encode2, ?encode3, ?encode4 in Hb by lia;
    repeat (apply elem_of_cons in Hb as [->|Hb]; [revert Hlt; div_bounds; lia|]); now apply elem_of_nil in Hb.
Qed.

Lemma utf8_split a c b : ascii c -> utf8_text (a ++ c :: b) <-> utf8_text a /\ utf8_text b.
Proof.
  intros Hc. split.
  - intros (cs & Hcs & E). revert a E. induction Hcs as [|x cs Hx Hcs IH]; intros a E; cbn [map concat] in E.
    { now destruct a. }
    apply app_eq_app in E as (m & [[Ea Eb]|[Ea Eb]]).
    + (* the first character reaches into [a] *)
      destruct (IH m) as [(ds & Hds & ->) Hb]; [now symmetry|]. split; [|exact Hb].
      subst a. exists (x :: ds). split; [now constructor|reflexivity].
    + destruct m as [|y m].
      * destruct (IH []) as [_ Hb]; [exact Eb|]. split; [|exact Hb].
        rewrite app_nil_r in Ea. exists [x]. split; [repeat constructor; apply Hx|]. cbn. now rewrite app_nil_r.
      * injection Eb as -> ->.
        assert (Ex : encode x = [y]).
        { apply encode_ascii; [exact Hx| |lia]. rewrite Ea. apply elem_of_app. right. left. }
        rewrite Ex in Ea. destruct a as [|? [|]]; [|discriminate|discriminate].
        injection Ea as <-. split; [now exists []|]. now exists cs.
  - intros [Ha Hb]. apply utf8_text_app; [exact Ha|].
    change (c :: b) with ([c] ++ b). apply utf8_text_app; [|exact Hb].
    apply ascii_text. now repeat constructor.
Qed.

Lemma utf8_drop_ascii a b : Forall (fun c => ascii c) a -> utf8_text (a ++ b) -> utf8_text b.
Proof.
  induction 1 as [|c a Hc _ IH]; [auto|]. cbn. intros H. apply IH.
  now apply (utf8_split [] c (a ++ b)) in H as [_ H].
Qed.

Lemma utf8_text_nil : utf8_text [].
Proof. now exists []. Qed.

Lemma utf8_text_fold s : utf8_text s -> utf8_text (fold_bytes s).
Proof.
  intros (cs & Hcs & ->). unfold fold_bytes.
  induction Hcs as [|c cs Hc _ IH]; [apply utf8_text_nil|]. cbn [map concat]. rewrite map_app.
  apply utf8_text_app; [|exact IH]. destruct (Z.lt_ge_cases c 128).
  - destruct Hc as [Hc _]. rewrite encode1 by lia. apply ascii_text. cbn. constructor; [|constructor].
    unfold fold_byte. case_test; boolify; lia.
  - replace (map fold_byte (encode c)) with (encode c).
    + exists [c]. split; [now constructor|]. cbn. now rewrite app_nil_r.
    + rewrite <- (map_id (encode c)) at 1. apply map_ext_in. intros b Hb%list_elem_of_In.
      destruct (Z.lt_ge_cases b 128) as [Hlt|Hge].
      * pose proof (encode_ascii c b Hc Hb Hlt) as E. exfalso.
        assert (Hx : encode b = [b]) by (apply encode1; pose proof (proj1 (encode_bytes c Hc)) as Hf;
          rewrite E in Hf; inversion Hf; lia).
        destruct Hc as [Hc _].
        destruct (Z.lt_ge_cases c 0x800); [|destruct (Z.lt_ge_cases c 0x10000)];
          rewrite ?encode2, ?encode3, ?encode4 in E by lia; discriminate.
      * unfold fold_byte. case_test; [boolify; lia|reflexivity].
Qed.

(** ** The digits of a Unicode escape *)

Lemma hex_digit_range c d : hex_digit c = Some d -> 0 <= d < 16.
Proof. unfold hex_digit. repeat case_test; intros [= <-]; boolify; lia. Qed.

Lemma hex4_loop_range i v s w t :
  0 <= v -> hex4_loop i v s = Some (w, t) ->
  v * 16 ^ Z.of_nat i <= w < (v + 1) * 16 ^ Z.of_nat i /\
  length s = (i + length t)%nat.
Proof.
  revert v s. induction i as [|i IH]; intros v s Hv H; cbn [hex4_loop] in H.
  - injection H as <- <-. cbn. lia.
  - destruct s as [|c s]; [discriminate|].
    destruct (hex_digit c) as [d|] eqn:Ed; [|discriminate].
    apply hex_digit_range in Ed.
    rewrite (lor_disjoint v d 4) in H by lia.
    change (2 ^ 4) with 16 in H.
    apply IH in H as [H1 H2]; [|lia].
    rewrite Nat2Z.inj_succ, Z.pow_succ_r by lia.
    split; [nia | cbn; lia].
Qed.

Lemma hex4_range s v t : hex4 s = Some (v, t) -> 0 <= v < 0x10000 /\ length s = (4 + length t)%nat.
Proof.
  unfold hex4. case_test; [discriminate|]. intros H.
  apply hex4_loop_range in H as [H1 H2]; [|lia]. split; [cbn in H1; lia | exact H2].
Qed.

Lemma hex4_loop_suffix i v s w t : hex4_loop i v s = Some (w, t) -> t `suffix_of` s.
Proof.
  revert v s. induction i as [|i IH]; intros v s; cbn [hex4_loop]; [now intros [= _ <-]|].
  destruct s as [|c s]; [discriminate|]. destruct (hex_digit c); [|discriminate].
  intros H. apply suffix_cons_r. eapply IH, H.
Qed.

Lemma hex4_suffix s v t : hex4 s = Some (v, t) -> t `suffix_of` s.
Proof. unfold hex4. case_test; [discriminate|]. apply hex4_loop_suffix. Qed.

(** ** Properties *)

(** C33. [jf_valid_utf8] is complete and sound: it returns 1 exactly on the
    concatenations of encoded nonzero Unicode scalar values, which excludes
    NUL, overlong forms, surrogates, isolated continuations and values above
    U+10FFFF; and the fuel of the model never runs out. *)
Theorem valid_utf8_exact (s : bytes) :
  bytes_ok s ->
  (jf_valid_utf8 s = true <-> utf8_text s) /\
  (jf_valid_utf8 s = true -> cstr_ok s) /\
  (forall extra, valid_utf8_loop (length s + extra) s = jf_valid_utf8 s).
Proof.
  intros Hs. split_and!.
  - now apply valid_utf8_spec.
  - intros H. now apply utf8_text_cstr, valid_utf8_spec.
  - intros extra. apply eq_true_iff_eq. split; intros H.
    + apply valid_utf8_spec; [exact Hs|]. eapply text_of_loop; eassumption.
    + apply valid_utf8_spec in H as (cs & Hcs & ->); [|exact Hs].
      apply loop_text; [exact Hcs | lia].
Qed.

Lemma valid_utf8_exact_witness :
  jf_valid_utf8 [0x68; 0xc3; 0xa9; 0xe2; 0x82; 0xac; 0xf0; 0x9f; 0x98; 0x80] = true /\
  ~ utf8_text [0xc0; 0xaf].
Proof.
  split; [reflexivity|].
  intros H. apply (proj1 (valid_utf8_exact [0xc0; 0xaf] ltac:(repeat constructor; lia))) in H.
  discriminate H.
Defined.
