(* ===== verification/Mailbox.v ===== *)
(** * Mailboxes (src/filter/policy.c: [jf_valid_domain], [jf_valid_mailbox],
    [jf_normalize_mailbox], [destination])

    The in-place normaliser is modelled on the buffer it rewrites, index by index;
    the theorems show that it computes minimal quoting without overlap damage. *)
From S2P Require Import Prelude Utf8.

Definition JF_LINE_MAX : Z := 64 * 1024.

Definition alnum_ascii (c : Z) : bool :=
  ((ch "a" <=? c) && (c <=? ch "z")) || ((ch "A" <=? c) && (c <=? ch "Z")) ||
  ((ch "0" <=? c) && (c <=? ch "9")).

(** The set searched by [strchr] in both mailbox functions. *)
Definition atext_specials : bytes := str "!#$%&'*+-/=?^_`{|}~".

(** ** Domains *)

(** The loop of [jf_valid_domain]: [label] counts the bytes of the current
    label, [prev] is [s[i-1]]. *)
Fixpoint valid_domain_loop (label prev : Z) (s : bytes) : bool :=
  match s with
  | [] => negb (label =? 0) && negb (prev =? ch "-")
  | c :: t =>
      if c =? ch "." then
        if (label =? 0) || (prev =? ch "-") then false else valid_domain_loop 0 c t
      else if (negb (alnum_ascii c) && negb (c =? ch "-")) || ((label =? 0) && (c =? ch "-"))
              || (63 <? label + 1)
      then false
      else valid_domain_loop (label + 1) c t
  end.

Definition jf_valid_domain (s : bytes) : bool :=
  if (zlen s =? 0) || (253 <? zlen s) then false else valid_domain_loop 0 0 s.

(** ** Mailboxes *)

(** The quoted local part after its opening quote: the rest after the closing
    quote. *)
Fixpoint quoted_local (p : bytes) : option bytes :=
  match p with
  | [] => None
  | c :: t =>
      if c =? DQ then Some t
      else if c =? BSL then
        match t with
        | [] => None
        | d :: t' => if (d <? 32) || (d =? 127) then None else quoted_local t'
        end
      else if (c <? 32) || (c =? 127) then None else quoted_local t
  end.

(** A byte a dot-atom may hold. *)
Definition atom_byte (c : Z) : bool :=
  negb ((c <? 128) && negb (alnum_ascii c) && negb (mem c atext_specials)).

(** The dot-atom local part: the rest at the [@] or the terminator, with the
    final value of [component]. *)
Fixpoint atom_local (component : bool) (p : bytes) : option (bool * bytes) :=
  match p with
  | [] => Some (component, [])
  | c :: t =>
      if c =? ch "@" then Some (component, p)
      else if c =? ch "." then if component then atom_local false t else None
      else if atom_byte c then atom_local true t else None
  end.

(** [*p++ != '@'] and then the domain. *)
Definition at_domain (p : bytes) : bool :=
  match p with
  | c :: d => if c =? ch "@" then jf_valid_domain d else false
  | [] => false
  end.

Definition jf_valid_mailbox (s : bytes) : bool :=
  match s with
  | c :: p =>
      if c =? DQ then
        match quoted_local p with Some r => at_domain r | None => false end
      else match atom_local false s with
           | Some (true, r) => at_domain r
           | _ => false
           end
  | [] => false
  end.

(** ** The in-place normaliser

    The buffer is the list of its [original + 1] bytes, the terminator
    included. *)

Definition set_ (s : bytes) (i : nat) (c : Z) : bytes := <[i := c]> s.

(** [memmove (s + dst, s + src, n)]. *)
Definition memmove_in (s : bytes) (dst src n : nat) : bytes :=
  take dst s ++ take n (drop src s) ++ drop (dst + n) s.

(** The forward loop that decodes the quoted local part over its own bytes. *)
Fixpoint decode_loop (fuel : nat) (s : bytes) (read n : nat) : bytes * nat * nat :=
  match fuel with
  | O => (s, read, n)
  | S fuel' =>
      if at_ s read =? DQ then (s, read, n)
      else
        let read' := if at_ s read =? BSL then S read else read in
        decode_loop fuel' (set_ s n (at_ s read')) (S read') (S n)
  end.

(** The loop that decides whether the decoded bytes still need quotes:
    [quoted], [component] and [escapes]. *)
Fixpoint scan_loop (l : bytes) (quoted component : bool) (escapes : nat) : bool * bool * nat :=
  match l with
  | [] => (quoted, component, escapes)
  | c :: t =>
      let '(q, comp) :=
        if c =? ch "." then (quoted || negb component, false)
        else (quoted || ((c <? 128) && negb (alnum_ascii c) && negb (mem c atext_specials)), true) in
      let e := if (c =? DQ) || (c =? BSL) then S escapes else escapes in
      scan_loop t q comp e
  end.

(** The backward loop that serialises the decoded bytes over the same buffer. *)
Fixpoint serialize_loop (i : nat) (s : bytes) (out : nat) : bytes * nat :=
  match i with
  | O => (s, out)
  | S i' =>
      let c := at_ s i' in
      let s1 := set_ s (out - 1) c in
      if (c =? DQ) || (c =? BSL)
      then serialize_loop i' (set_ s1 (out - 2) BSL) (out - 2)
      else serialize_loop i' s1 (out - 1)
  end.

(** The C string a buffer holds. *)
Definition c_string (s : bytes) : bytes := take_while (fun c => negb (c =? 0)) s.

(** [jf_normalize_mailbox]: [None] for 0, otherwise the buffer on return. *)
Definition normalize_buffer (text : bytes) : option bytes :=
  let original := length text in
  if (JF_LINE_MAX <? zlen text) || negb (jf_valid_mailbox text) then None
  else
    let s := text ++ [0] in
    if negb (at_ s 0 =? DQ) then Some s
    else
      let '(s, read, n) := decode_loop original s 1 0 in
      if (n =? 0)%nat then None
      else
        let tail := (original - read)%nat in
        let s := memmove_in s n (read + 1) tail in
        let '(quoted, component, escapes) := scan_loop (take n s) false false 0 in
        let quoted := quoted || negb component in
        if negb quoted then Some s
        else
          let out := (n + escapes + 2)%nat in
          if (original + 1 <? out + tail)%nat then None
          else
            let s := memmove_in s out n tail in
            let s := set_ s (out - 1) DQ in
            let '(s, _) := serialize_loop n s (out - 1) in
            Some (set_ s 0 DQ).

Definition jf_normalize_mailbox (text : bytes) : option bytes :=
  c_string <$> normalize_buffer text.

(** ** Destinations *)

Definition control (c : Z) : bool := (c <? 32) || (c =? 127).

(** A path component between two slashes: not empty, not [.] and not [..]. *)
Definition bad_component (l : bytes) : bool :=
  (length l =? 0)%nat || streq l (str ".") || streq l (str "..").

(** The loop of [destination]; [comp] is the component since [start]. *)
Fixpoint destination_loop (comp : bytes) (s : bytes) : bool :=
  match s with
  | [] => negb (bad_component comp)
  | c :: t =>
      if control c then false
      else if c =? ch "/" then if bad_component comp then false else destination_loop [] t
      else destination_loop (comp ++ [c]) t
  end.

Definition destination (s : bytes) : bool :=
  match s with
  | [] => false
  | c :: _ => if c =? ch "/" then false else destination_loop [] s
  end.

Example normalize_redundant :
  jf_normalize_mailbox ([DQ] ++ str "a.b" ++ [DQ] ++ str "@x.org") = Some (str "a.b@x.org").
Proof. vm_compute. reflexivity. Qed.
Example normalize_needed :
  jf_normalize_mailbox ([DQ] ++ str "a" ++ [BSL] ++ str " b" ++ [BSL; DQ; DQ] ++ str "@x.org") =
  Some ([DQ] ++ str "a b" ++ [BSL; DQ; DQ] ++ str "@x.org").
Proof. vm_compute. reflexivity. Qed.

(** ** Specification: decoded local parts and minimal quoting *)

Definition escaped (c : Z) : bool := (c =? DQ) || (c =? BSL).
Definition escape_byte (c : Z) : bytes := if escaped c then [BSL; c] else [c].
Definition escape (l : bytes) : bytes := concat (map escape_byte l).
Definition escapes_of (l : bytes) : nat := length (List.filter escaped l).

(** The decoded local part of a quoted string and the text after its closing
    quote. *)
Fixpoint quoted_parse (p : bytes) : option (bytes * bytes) :=
  match p with
  | [] => None
  | c :: t =>
      if c =? DQ then Some ([], t)
      else if c =? BSL then
        match t with
        | [] => None
        | d :: t' => if control d then None
                     else '(l, r) ← quoted_parse t'; Some (d :: l, r)
        end
      else if control c then None else '(l, r) ← quoted_parse t; Some (c :: l, r)
  end.

(** A dot-atom: nonempty atoms separated by single dots. *)
Fixpoint dot_atom (component : bool) (l : bytes) : bool :=
  match l with
  | [] => component
  | c :: t => if c =? ch "." then component && dot_atom false t
              else atom_byte c && dot_atom true t
  end.

(** The minimal spelling of a local part followed by the text [d]. *)
Definition minimal (l d : bytes) : bytes :=
  if dot_atom false l then l ++ d else DQ :: escape l ++ DQ :: d.

Definition normalize_spec (text : bytes) : option bytes :=
  if (JF_LINE_MAX <? zlen text) || negb (jf_valid_mailbox text) then None
  else match text with
       | c :: p => if c =? DQ then
                     match quoted_parse p with
                     | Some ((_ :: _) as l, d) => Some (minimal l d)
                     | _ => None
                     end
                   else Some text
       | [] => Some text
       end.

(** The decoded local part and the text from the [@] of any valid mailbox. *)
Definition decode_mailbox (text : bytes) : option (bytes * bytes) :=
  match text with
  | c :: p => if c =? DQ then quoted_parse p
              else Some (take_while (fun c => negb (c =? ch "@")) text,
                         drop_while (fun c => negb (c =? ch "@")) text)
  | [] => None
  end.

(** ** Facts about the two scanners *)

Lemma quoted_local_parse p : quoted_local p = snd <$> quoted_parse p.
Proof.
  revert p. fix IH 1. intros [|c t]; [reflexivity|].
  cbn [quoted_local quoted_parse]. fold (control c).
  destruct (c =? DQ); [reflexivity|]. destruct (c =? BSL).
  - destruct t as [|d t']; [reflexivity|]. fold (control d).
    destruct (control d); [reflexivity|]. rewrite IH. now destruct (quoted_parse t') as [[]|].
  - destruct (control c); [reflexivity|]. rewrite IH. now destruct (quoted_parse t) as [[]|].
Qed.

(** Induction along [quoted_parse]. *)
Lemma quoted_parse_ind (P : bytes -> bytes -> bytes -> Prop) :
  (forall t, P (DQ :: t) [] t) ->
  (forall d t l r, control d = false -> quoted_parse t = Some (l, r) -> P t l r ->
     P (BSL :: d :: t) (d :: l) r) ->
  (forall c t l r, escaped c = false -> control c = false ->
     quoted_parse t = Some (l, r) -> P t l r -> P (c :: t) (c :: l) r) ->
  forall p l r, quoted_parse p = Some (l, r) -> P p l r.
Proof.
  intros H1 H2 H3. fix IH 1. intros [|c t] l r; [discriminate|].
  cbn [quoted_parse]. destruct (c =? DQ) eqn:E1.
  { intros [= <- <-]. apply Z.eqb_eq in E1 as ->. apply H1. }
  destruct (c =? BSL) eqn:E2.
  - destruct t as [|d t']; [discriminate|]. apply Z.eqb_eq in E2 as ->.
    destruct (control d) eqn:Ed; [discriminate|].
    destruct (quoted_parse t') as [[l' r']|] eqn:Et; [|discriminate].
    intros [= <- <-]. apply H2; [exact Ed | exact Et | exact (IH t' l' r' Et)].
  - destruct (control c) eqn:Ec; [discriminate|].
    destruct (quoted_parse t) as [[l' r']|] eqn:Et; [|discriminate].
    intros [= <- <-]. apply H3; [|exact Ec|exact Et|exact (IH t l' r' Et)].
    unfold escaped. now rewrite E1, E2.
Qed.

Lemma escaped_cases c : escaped c = true -> c = DQ \/ c = BSL.
Proof. unfold escaped. rewrite orb_true_iff, !Z.eqb_eq. tauto. Qed.

Lemma escape_cons c l : escape (c :: l) = escape_byte c ++ escape l.
Proof. reflexivity. Qed.

Lemma escape_app a b : escape (a ++ b) = escape a ++ escape b.
Proof. unfold escape. now rewrite map_app, concat_app. Qed.

Lemma escape_length l : length (escape l) = (length l + escapes_of l)%nat.
Proof.
  unfold escapes_of. induction l as [|c l IH]; [reflexivity|].
  rewrite escape_cons, length_app, IH. unfold escape_byte. cbn [List.filter].
  destruct (escaped c); cbn; lia.
Qed.

Lemma quoted_parse_escape l t :
  forallb (fun c => negb (control c)) l = true -> quoted_parse (escape l ++ DQ :: t) = Some (l, t).
Proof.
  induction l as [|c l IH]; [reflexivity|].
  cbn [forallb]. rewrite andb_true_iff, negb_true_iff. intros [Hc Hl].
  rewrite escape_cons, <- app_assoc. unfold escape_byte.
  destruct (escaped c) eqn:Ee; cbn [app quoted_parse].
  - cbn. rewrite Hc, (IH Hl). reflexivity.
  - unfold escaped in Ee. apply orb_false_iff in Ee as [-> ->].
    rewrite Hc, (IH Hl). reflexivity.
Qed.

Lemma quoted_parse_clean p l r :
  quoted_parse p = Some (l, r) -> forallb (fun c => negb (control c)) l = true.
Proof.
  apply (quoted_parse_ind (fun _ l _ => forallb _ l = true)); [reflexivity| |];
    intros; cbn; now rewrite andb_true_iff, negb_true_iff.
Qed.

(** The quoted text was at least as long as the canonical escaping. *)
Lemma quoted_parse_length p l r :
  quoted_parse p = Some (l, r) -> (length (escape l) + 1 + length r <= length p)%nat.
Proof.
  apply (quoted_parse_ind (fun p l r => (length (escape l) + 1 + length r <= length p)%nat)).
  - intros t. cbn. lia.
  - intros d t l' r' _ _ IH. rewrite escape_cons, length_app.
    unfold escape_byte. destruct (escaped d); cbn [length]; lia.
  - intros c t l' r' He _ _ IH. rewrite escape_cons, length_app.
    unfold escape_byte. rewrite He. cbn [length]; lia.
Qed.

Lemma quoted_parse_Forall (P : Z -> Prop) p l r :
  quoted_parse p = Some (l, r) -> Forall P p -> Forall P l /\ Forall P r.
Proof.
  apply (quoted_parse_ind (fun p l r => Forall P p -> Forall P l /\ Forall P r)).
  - intros t H. inversion H; subst. auto.
  - intros d t l' r' _ _ IH H. inversion H as [|? ? _ H']; inversion H'; subst.
    destruct IH; auto.
  - intros c t l' r' _ _ _ IH H. inversion H; subst. destruct IH; auto.
Qed.

(** ** The in-place loops *)

Lemma at_app_len (a : bytes) c b : at_ (a ++ c :: b) (length a) = c.
Proof. unfold at_. rewrite app_nth2, Nat.sub_diag by lia. reflexivity. Qed.

Lemma set_app_len (a : bytes) c b x : set_ (a ++ c :: b) (length a) x = a ++ x :: b.
Proof. unfold set_. now rewrite insert_app_r_alt, Nat.sub_diag by lia. Qed.

Lemma at_gap (a g b : bytes) c i :
  i = (length a + length g)%nat -> at_ (a ++ g ++ c :: b) i = c.
Proof. intros ->. rewrite app_assoc, <- length_app. apply at_app_len. Qed.

Lemma set_gap (a g b : bytes) y :
  g <> [] -> set_ (a ++ g ++ b) (length a) y = (a ++ [y]) ++ tail g ++ b.
Proof.
  destruct g as [|x g]; [congruence|]. intros _.
  rewrite <- app_assoc. apply (set_app_len a x (g ++ b) y).
Qed.

(** The decoder at work: [n] bytes written, a nonempty gap of bytes already
    consumed, and the unread text [p] up to the terminator. *)
Definition decoding (buf : bytes) (read n : nat) (pre p : bytes) : Prop :=
  exists gap, gap <> [] /\ buf = pre ++ gap ++ p ++ [0] /\
    read = (length pre + length gap)%nat /\ n = length pre.

(** The write position stays behind the read position, so one turn leaves the
    unread text untouched. *)
Lemma decoding_step buf read n pre skip y t :
  decoding buf read n pre (skip ++ y :: t) ->
  at_ buf (read + length skip) = y /\
  decoding (set_ buf n y) (S (read + length skip)) (S n) (pre ++ [y]) t.
Proof.
  intros (gap & Hg & -> & -> & ->). split.
  - replace (pre ++ gap ++ (skip ++ y :: t) ++ [0])
      with (pre ++ (gap ++ skip) ++ y :: t ++ [0]) by solve_app.
    apply at_gap. rewrite length_app. lia.
  - rewrite set_gap by exact Hg.
    exists (tail gap ++ skip ++ [y]). split_and!.
    + destruct (tail gap), skip; discriminate.
    + now rewrite <- !app_assoc.
    + destruct gap; [congruence|]. rewrite !length_app. cbn. rewrite ?length_app. cbn. lia.
    + rewrite length_app. cbn. lia.
Qed.

Lemma decode_loop_spec p l r :
  quoted_parse p = Some (l, r) ->
  forall fuel buf read n pre,
  (length l <= fuel)%nat -> decoding buf read n pre p ->
  exists read' buf', decode_loop fuel buf read n = (buf', read', (n + length l)%nat) /\
    decoding buf' read' (n + length l) (pre ++ l) (DQ :: r).
Proof.
  apply (quoted_parse_ind (fun p l r => forall fuel buf read n pre,
    (length l <= fuel)%nat -> decoding buf read n pre p ->
    exists read' buf', decode_loop fuel buf read n = (buf', read', (n + length l)%nat) /\
      decoding buf' read' (n + length l) (pre ++ l) (DQ :: r))).
  - intros t fuel buf read n pre _ D. exists read, buf.
    rewrite app_nil_r, Nat.add_0_r. split; [|exact D].
    destruct (decoding_step buf read n pre [] DQ t D) as [R _].
    rewrite Nat.add_0_r in R. destruct fuel; cbn [decode_loop]; [reflexivity|].
    now rewrite R.
  - intros d t l' r' _ _ IH fuel buf read n pre Hf D. destruct fuel as [|fuel]; [cbn in Hf; lia|].
    destruct (decoding_step buf read n pre [] BSL (d :: t) D) as [R _].
    destruct (decoding_step buf read n pre [BSL] d t D) as [R' D'].
    rewrite Nat.add_0_r in R. cbn [length] in R', D'. rewrite Nat.add_1_r in R', D'.
    cbn [decode_loop]. rewrite R. cbn. rewrite R'.
    destruct (IH fuel _ _ _ _ ltac:(cbn in Hf; lia) D') as (read' & buf' & E & D'').
    exists read', buf'. rewrite E, <- Nat.add_succ_comm. split; [reflexivity|].
    now rewrite <- app_assoc in D''.
  - intros c t l' r' He _ _ IH fuel buf read n pre Hf D. destruct fuel as [|fuel]; [cbn in Hf; lia|].
    unfold escaped in He. apply orb_false_iff in He as [He1 He2].
    destruct (decoding_step buf read n pre [] c t D) as [R D'].
    cbn [length] in R, D'. rewrite Nat.add_0_r in R, D'.
    cbn [decode_loop]. rewrite R, He1, He2, R.
    destruct (IH fuel _ _ _ _ ltac:(cbn in Hf; lia) D') as (read' & buf' & E & D'').
    exists read', buf'. rewrite E. cbn [length]. rewrite <- Nat.add_succ_comm.
    split; [reflexivity|]. now rewrite <- app_assoc in D''.
Qed.

Lemma scan_loop_spec l quoted component e :
  let '(q, comp, e') := scan_loop l quoted component e in
  q || negb comp = quoted || negb (dot_atom component l) /\ e' = (e + escapes_of l)%nat.
Proof.
  unfold escapes_of. revert quoted component e.
  induction l as [|c l IH]; intros quoted component e; cbn [scan_loop dot_atom List.filter].
  - split; [reflexivity | cbn; lia].
  - fold (escaped c). destruct (c =? ch "."); cbn zeta beta iota;
      match goal with |- context [scan_loop l ?a ?b ?e] => specialize (IH a b e) end;
      destruct (scan_loop l _ _ _) as [[q comp] e']; destruct IH as [-> ->];
      (split; [|destruct (escaped c); cbn; lia]).
    + destruct quoted, component; reflexivity.
    + unfold atom_byte. destruct quoted, (_ && _); reflexivity.
Qed.

(** The backward serialiser: [out] stays ahead of [i] by the escapes still to
    write plus one, so the unread decoded bytes survive. *)
Lemma serialize_loop_spec l : forall junk e,
  length junk = (1 + escapes_of l)%nat ->
  exists x, serialize_loop (length l) (l ++ junk ++ e) (length l + length junk)
            = (x :: escape l ++ e, 1%nat).
Proof.
  unfold escapes_of. induction l as [|c l IH] using rev_ind; intros junk e Hj.
  - destruct junk as [|x [|]]; try discriminate. exists x. reflexivity.
  - rewrite List.filter_app, length_app in Hj. cbn [List.filter] in Hj.
    rewrite length_app, Nat.add_1_r, escape_app. cbn [serialize_loop].
    rewrite <- app_assoc. cbn [app]. rewrite at_app_len. fold (escaped c).
    unfold escape at 2. cbn [map concat]. unfold escape_byte.
    destruct (escaped c) eqn:Ee.
    + destruct junk as [|j1 junk0] using rev_ind; [cbn in Hj; lia|clear IHjunk0].
      destruct junk0 as [|j2 junk] using rev_ind; [cbn in Hj; lia|clear IHjunk].
      rewrite !length_app in *. cbn [length] in *.
      replace (S (length l) + (length junk + 1 + 1) - 1)%nat
        with (length (l ++ c :: junk ++ [j2])) by solve_len.
      replace (l ++ c :: ((junk ++ [j2]) ++ [j1]) ++ e)
        with ((l ++ c :: junk ++ [j2]) ++ j1 :: e) by solve_app.
      rewrite set_app_len.
      replace (S (length l) + (length junk + 1 + 1) - 2)%nat
        with (length (l ++ c :: junk)) by solve_len.
      replace ((l ++ c :: junk ++ [j2]) ++ c :: e)
        with ((l ++ c :: junk) ++ j2 :: c :: e) by solve_app.
      rewrite set_app_len, length_app.
      destruct (IH (c :: junk) (BSL :: c :: e)) as [x E]; [cbn; lia|].
      exists x. rewrite <- app_assoc. cbn [app] in *. rewrite E.
      solve_app.
    + destruct junk as [|j1 junk] using rev_ind; [cbn in Hj; lia|clear IHjunk].
      rewrite !length_app in *. cbn [length] in *.
      replace (S (length l) + (length junk + 1) - 1)%nat
        with (length (l ++ c :: junk)) by solve_len.
      replace (l ++ c :: (junk ++ [j1]) ++ e)
        with ((l ++ c :: junk) ++ j1 :: e) by solve_app.
      rewrite set_app_len, length_app.
      destruct (IH (c :: junk) (c :: e)) as [x E]; [cbn; lia|].
      exists x. rewrite <- app_assoc. cbn [app] in *. rewrite E.
      solve_app.
Qed.

(** ** The normaliser computes minimal quoting *)

Lemma c_string_app (s rest : bytes) : cstr_ok s -> c_string (s ++ 0 :: rest) = s.
Proof.
  unfold c_string. induction 1 as [|c s Hc _ IH]; cbn; [reflexivity|].
  destruct (c =? 0) eqn:E; [boolify; lia|]. cbn. now rewrite IH.
Qed.

Lemma memmove_gap (a g b c : bytes) :
  memmove_in (a ++ g ++ b ++ c) (length a) (length a + length g) (length b) =
  a ++ b ++ drop (length b) (g ++ b ++ c).
Proof.
  unfold memmove_in. rewrite take_app_length. f_equal.
  rewrite drop_app_add, drop_app_length, take_app_length. f_equal.
  rewrite <- drop_drop, drop_app_length. reflexivity.
Qed.

(** Moving a block forward: what lies before the new position is kept. *)
Lemma memmove_forward (s b : bytes) dst src :
  take (length b) (drop src s) = b -> (dst + length b <= length s)%nat ->
  memmove_in s dst src (length b) = take dst s ++ b ++ drop (dst + length b) s.
Proof. intros H _. unfold memmove_in. now rewrite H. Qed.

Lemma decode_loop_length fuel buf read n :
  length (fst (fst (decode_loop fuel buf read n))) = length buf.
Proof.
  revert buf read n. induction fuel as [|fuel IH]; intros buf read n; cbn [decode_loop];
    [reflexivity|].
  destruct (_ =? DQ); [reflexivity|]. rewrite IH. apply length_insert.
Qed.

Lemma decoding_start p : decoding ((DQ :: p) ++ [0]) 1 0 [] p.
Proof. exists [DQ]. split_and!; [discriminate|reflexivity|reflexivity|reflexivity]. Qed.

(** The first half: the decoded local part, the rest of the mailbox and its
    terminator at the front of the buffer. *)
Lemma quoted_after_decode p l d :
  quoted_parse p = Some (l, d) ->
  exists buf read junk,
    decode_loop (length (DQ :: p)) ((DQ :: p) ++ [0]) 1 0 = (buf, read, length l) /\
    (length (DQ :: p) - read = length d + 1)%nat /\
    memmove_in buf (length l) (read + 1) (length d + 1) = l ++ d ++ 0 :: junk /\
    length (l ++ d ++ 0 :: junk) = (length p + 2)%nat.
Proof.
  intros Hq.
  destruct (decode_loop_spec p l d Hq (length (DQ :: p)) _ 1 0 []
    ltac:(pose proof (quoted_parse_length p l d Hq); rewrite escape_length in *; cbn; lia)
    (decoding_start p)) as (read & buf & E & D).
  destruct D as (gap & Hg & Hbuf & -> & _). cbn [app Nat.add] in Hbuf, E.
  pose proof (decode_loop_length (length (DQ :: p)) ((DQ :: p) ++ [0]) 1 0) as Hlen.
  cbn [app] in Hlen. rewrite E in Hlen. cbn [fst] in Hlen. rewrite Hbuf in Hlen.
  exists buf, (length l + length gap)%nat, (drop (length (d ++ [0])) ((gap ++ [DQ]) ++ (d ++ [0]) ++ [])).
  assert (Hm : memmove_in buf (length l) (length l + length gap + 1) (length d + 1) =
    l ++ d ++ 0 :: drop (length (d ++ [0])) ((gap ++ [DQ]) ++ (d ++ [0]) ++ [])).
  { replace buf with (l ++ (gap ++ [DQ]) ++ (d ++ [0]) ++ [])
      by (rewrite Hbuf, app_nil_r; solve_app).
    replace (length l + length gap + 1)%nat with (length l + length (gap ++ [DQ]))%nat by solve_len.
    replace (length d + 1)%nat with (length (d ++ [0])) by solve_len.
    rewrite memmove_gap. solve_app. }
  split_and!; [exact E| |exact Hm|].
  - revert Hlen. cbn [app]. solve_len.
  - revert Hlen. cbn [app]. solve_len.
Qed.

(** The second half: the mailbox moved forward by the room its quotes and
    escapes need, and the local part serialised backwards in front of it. *)
Lemma requote_spec l d junk :
  let buf := l ++ d ++ 0 :: junk in
  let out := (length l + escapes_of l + 2)%nat in
  (out + (length d + 1) <= length buf)%nat ->
  exists rest,
    set_ (fst (serialize_loop (length l)
      (set_ (memmove_in buf out (length l) (length d + 1)) (out - 1) DQ) (out - 1))) 0 DQ
    = (DQ :: escape l ++ DQ :: d) ++ 0 :: rest.
Proof.
  intros buf out Hfit.
  assert (Hto : exists j x, take out buf = (l ++ j) ++ [x] /\ length j = (1 + escapes_of l)%nat).
  { unfold buf. rewrite take_app_ge by lia. set (m := take _ (d ++ 0 :: junk)).
    assert (Hm : length m = (escapes_of l + 2)%nat).
    { subst m. rewrite length_take. unfold buf in Hfit. rewrite length_app in Hfit. lia. }
    destruct m as [|x j _] using rev_ind; [cbn in Hm; lia|].
    exists j, x. split; [now rewrite app_assoc|]. rewrite length_app in Hm. cbn in Hm. lia. }
  destruct Hto as (j & x & Hto & Hj).
  replace (length d + 1)%nat with (length (d ++ [0])) in * by solve_len.
  rewrite memmove_forward, Hto; [|unfold buf; rewrite drop_app_length|exact Hfit].
  2: { replace (d ++ 0 :: junk) with ((d ++ [0]) ++ junk) by solve_app. apply take_app_length. }
  set (rest := drop _ buf). exists rest.
  replace (out - 1)%nat with (length (l ++ j)) by (subst out; rewrite length_app; lia).
  rewrite <- (app_assoc (l ++ j) [x]). cbn [app]. rewrite set_app_len.
  rewrite length_app, <- app_assoc.
  destruct (serialize_loop_spec l j (DQ :: (d ++ [0]) ++ rest) Hj) as [y ->].
  cbn. f_equal. solve_app.
Qed.

Lemma quoted_mailbox_parse p :
  jf_valid_mailbox (DQ :: p) = true -> exists l d, quoted_parse p = Some (l, d).
Proof.
  cbn. rewrite quoted_local_parse.
  destruct (quoted_parse p) as [[l d]|]; [eauto|discriminate].
Qed.

Lemma normalize_refines text : cstr_ok text -> jf_normalize_mailbox text = normalize_spec text.
Proof.
  intros Hok. unfold jf_normalize_mailbox, normalize_buffer, normalize_spec.
  destruct (_ || _) eqn:Hv; [reflexivity|].
  apply orb_false_iff in Hv as [_ Hv]. apply negb_false_iff in Hv.
  destruct text as [|c p]; [discriminate|].
  change (at_ ((c :: p) ++ [0]) 0) with c.
  destruct (c =? DQ) eqn:Ec; cbn [negb].
  2: { cbn. f_equal. apply (c_string_app (c :: p) []). exact Hok. }
  apply Z.eqb_eq in Ec as ->.
  destruct (quoted_mailbox_parse p Hv) as (l & d & Hq). rewrite Hq.
  destruct (quoted_after_decode p l d Hq) as (buf & read & junk & -> & -> & Hm & Hlen).
  destruct l as [|c0 l0]; [reflexivity|].
  change (length (c0 :: l0) =? 0)%nat with false. cbv iota beta.
  generalize dependent (c0 :: l0). clear c0 l0. intros l Hq Hm Hlen.
  rewrite Hm, take_app_length.
  pose proof (scan_loop_spec l false false 0) as Hscan.
  destruct (scan_loop l false false 0) as [[q comp] esc]. destruct Hscan as [-> ->].
  cbn [orb Nat.add]. rewrite negb_involutive. unfold minimal.
  destruct (quoted_parse_Forall _ _ _ _ Hq (Forall_inv_tail Hok)) as [Hl Hd].
  destruct (dot_atom false l).
  { cbn [negb fmap option_fmap option_map]. f_equal.
    rewrite app_assoc. apply c_string_app. now apply Forall_app. }
  pose proof (quoted_parse_length p l d Hq) as Hfit. rewrite escape_length in Hfit.
  destruct (_ <? _)%nat eqn:Hcap; [apply Nat.ltb_lt in Hcap; cbn [length] in Hcap; lia|].
  destruct (requote_spec l d junk) as [rest Hr]; [rewrite Hlen; lia|].
  destruct (serialize_loop _ _ _) as [s o]. cbn [fst] in Hr. rewrite Hr.
  cbn [fmap option_fmap option_map]. f_equal. apply c_string_app.
  constructor; [lia|]. apply Forall_app. split; [|constructor; [lia|exact Hd]].
  apply Forall_concat, Forall_map. eapply Forall_impl; [exact Hl|].
  intros c Hc. unfold escape_byte. destruct (escaped c);
    rewrite ?Forall_cons, Forall_nil; cbv beta in *; split_and!; trivial; lia.
Qed.

(** ** Minimal quoting is a canonical form *)

Lemma atom_byte_special c : atom_byte c = true -> c <> DQ /\ c <> ch "@".
Proof. intros H. split; intros ->; discriminate. Qed.

Lemma atom_local_dot_atom l comp d :
  dot_atom comp l = true -> atom_local comp (l ++ ch "@" :: d) = Some (true, ch "@" :: d).
Proof.
  revert comp. induction l as [|c l IH]; intros comp; cbn [dot_atom app atom_local].
  - intros ->. reflexivity.
  - destruct (c =? ch ".") eqn:E.
    + apply Z.eqb_eq in E as ->. rewrite andb_true_iff. intros [-> H]. cbn. now apply IH.
    + rewrite andb_true_iff. intros [Ha H].
      destruct (atom_byte_special c Ha) as [_ Hat]. apply Z.eqb_neq in Hat.
      rewrite Hat, Ha. now apply IH.
Qed.

Lemma atom_local_split p comp r :
  atom_local comp p = Some (true, r) ->
  p = take_while (fun c => negb (c =? ch "@")) p ++ r /\
  r = drop_while (fun c => negb (c =? ch "@")) p /\
  dot_atom comp (take_while (fun c => negb (c =? ch "@")) p) = true.
Proof.
  revert comp. induction p as [|c p IH]; intros comp; cbn [atom_local take_while drop_while].
  - intros [= -> <-]. auto.
  - destruct (c =? ch "@") eqn:Ea; cbn [negb].
    { intros [= -> <-]. auto. }
    cbn [dot_atom app]. destruct (c =? ch ".").
    + destruct comp; [|discriminate]. intros H. destruct (IH _ H) as (E & -> & Hd).
      split_and!; [now rewrite <- E|reflexivity|exact Hd].
    + destruct (atom_byte c); [|discriminate]. intros H. destruct (IH _ H) as (E & -> & Hd).
      split_and!; [now rewrite <- E|reflexivity|exact Hd].
Qed.

Lemma at_domain_cons d : at_domain d = true -> exists dom, d = ch "@" :: dom /\ jf_valid_domain dom = true.
Proof.
  destruct d as [|c d]; [discriminate|]. cbn. destruct (c =? ch "@") eqn:E; [|discriminate].
  apply Z.eqb_eq in E as ->. eauto.
Qed.

Lemma dot_atom_head l d : dot_atom false l = true -> head (l ++ d) <> Some DQ.
Proof.
  destruct l as [|c l]; [discriminate|]. cbn. destruct (c =? ch ".") eqn:E; [discriminate|].
  rewrite andb_true_iff. intros [H _] [= ->]. discriminate.
Qed.

Lemma dot_atom_no_at l comp :
  dot_atom comp l = true -> Forall (fun c => negb (c =? ch "@") = true) l.
Proof.
  revert comp. induction l as [|c l IH]; intros comp; cbn; [constructor|].
  destruct (c =? ch ".") eqn:E; rewrite andb_true_iff; intros [Hc Hl]; constructor; eauto.
  - apply Z.eqb_eq in E as ->. reflexivity.
  - apply atom_byte_special in Hc as [_ Hc]. now apply negb_true_iff, Z.eqb_neq.
Qed.

Lemma while_app {A} (p : A -> bool) l x t :
  Forall (fun c => p c = true) l -> p x = false ->
  take_while p (l ++ x :: t) = l /\ drop_while p (l ++ x :: t) = x :: t.
Proof.
  intros Hl Hx. induction Hl as [|c l Hc _ [IH1 IH2]]; cbn; [now rewrite Hx|].
  rewrite Hc. split; congruence.
Qed.

(** The canonical spelling is valid and decodes to the same parts. *)
Lemma minimal_valid l d :
  at_domain d = true -> forallb (fun c => negb (control c)) l = true \/ dot_atom false l = true ->
  jf_valid_mailbox (minimal l d) = true /\ decode_mailbox (minimal l d) = Some (l, d).
Proof.
  intros Hd Hl. destruct (at_domain_cons d Hd) as (dom & -> & Hdom). unfold minimal.
  destruct (dot_atom false l) eqn:Hdot.
  - pose proof (dot_atom_head l (ch "@" :: dom) Hdot) as Hh.
    destruct (l ++ ch "@" :: dom) as [|c p] eqn:E; [now destruct l|].
    cbn [jf_valid_mailbox decode_mailbox].
    destruct (c =? DQ) eqn:Ec; [apply Z.eqb_eq in Ec as ->; now destruct Hh|].
    rewrite <- E, atom_local_dot_atom by exact Hdot. split; [exact Hd|].
    destruct (while_app (fun c => negb (c =? ch "@")) l (ch "@") dom
      (dot_atom_no_at l false Hdot) eq_refl) as [-> ->]. reflexivity.
  - destruct Hl as [Hl|Hl]; [|discriminate].
    cbn [jf_valid_mailbox decode_mailbox]. rewrite Z.eqb_refl, quoted_local_parse.
    rewrite quoted_parse_escape by exact Hl. split; [exact Hd | reflexivity].
Qed.

(** The normaliser in terms of the decoded parts of a mailbox. *)
Lemma normalize_decode text t :
  normalize_spec text = Some t <->
  zlen text <= JF_LINE_MAX /\ jf_valid_mailbox text = true /\
  exists l d, decode_mailbox text = Some (l, d) /\ l <> [] /\ t = minimal l d.
Proof.
  unfold normalize_spec. destruct (JF_LINE_MAX <? zlen text) eqn:Hlen; cbn [orb]; boolify.
  { split; [discriminate|]. intros [H _]. lia. }
  destruct (jf_valid_mailbox text) eqn:Hv; cbn [negb];
    [|split; [discriminate|intros (_ & H & _); discriminate]].
  transitivity (exists l d, decode_mailbox text = Some (l, d) /\ l <> [] /\ t = minimal l d);
    [|split; [intros H; auto|intros (_ & _ & H); exact H]].
  destruct text as [|c p]; [discriminate|]. cbn [decode_mailbox].
  destruct (c =? DQ) eqn:Ec.
  - destruct (quoted_parse p) as [[[|c0 l] d]|].
    + split; [discriminate|]. now intros (l & d' & [= <- <-] & H & _).
    + split; [intros [= <-]; now eexists _, _|]. intros (l' & d' & [= <- <-] & _ & ->). reflexivity.
    + split; [discriminate|]. now intros (l & d & H & _).
  - cbn [jf_valid_mailbox] in Hv. rewrite Ec in Hv.
    destruct (atom_local false (c :: p)) as [[[] r]|] eqn:Ha; try discriminate.
    apply atom_local_split in Ha as (E & -> & Hdot).
    set (l := take_while _ (c :: p)) in *. set (d := drop_while _ (c :: p)) in *.
    assert (Hm : minimal l d = c :: p) by (unfold minimal; now rewrite Hdot).
    split.
    + intros [= <-]. exists l, d. split_and!; [reflexivity| |now symmetry].
      intros Hnil. now rewrite Hnil in Hdot.
    + intros (l' & d' & [= <- <-] & _ & ->). now rewrite Hm.
Qed.

Lemma decode_clean text l d :
  jf_valid_mailbox text = true -> decode_mailbox text = Some (l, d) ->
  at_domain d = true /\
  (forallb (fun c => negb (control c)) l = true \/ dot_atom false l = true) /\
  (length (minimal l d) <= length text)%nat.
Proof.
  destruct text as [|c p]; [discriminate|]. cbn [jf_valid_mailbox decode_mailbox].
  destruct (c =? DQ).
  - intros Hv Hq. rewrite quoted_local_parse, Hq in Hv. cbn in Hv.
    pose proof (quoted_parse_clean _ _ _ Hq). pose proof (quoted_parse_length _ _ _ Hq).
    pose proof (escape_length l). split_and!; auto.
    unfold minimal. destruct (dot_atom false l); revert H0; solve_len.
  - destruct (atom_local false (c :: p)) as [[[] r]|] eqn:Ha; try discriminate.
    apply atom_local_split in Ha as (E & -> & Hdot).
    intros Hv H.
    assert (l = take_while (fun c => negb (c =? 64)) (c :: p) /\
            d = drop_while (fun c => negb (c =? 64)) (c :: p)) as [El Ed] by (split; congruence).
    rewrite <- El in *. rewrite <- Ed in *.
    split_and!; auto. unfold minimal. now rewrite Hdot, <- E.
Qed.

Lemma minimal_inj l d l' d' :
  at_domain d = true -> at_domain d' = true ->
  forallb (fun c => negb (control c)) l = true \/ dot_atom false l = true ->
  forallb (fun c => negb (control c)) l' = true \/ dot_atom false l' = true ->
  minimal l d = minimal l' d' -> l = l' /\ d = d'.
Proof.
  intros Hd Hd' Hl Hl' E.
  destruct (minimal_valid l d Hd Hl) as [_ D]. destruct (minimal_valid l' d' Hd' Hl') as [_ D'].
  rewrite E, D' in D. now injection D as -> ->.
Qed.

Lemma normalize_idem text t : normalize_spec text = Some t -> normalize_spec t = Some t.
Proof.
  rewrite !normalize_decode. intros (Hlen & Hv & l & d & Hdec & Hl & ->).
  destruct (decode_clean _ _ _ Hv Hdec) as (Hd & Hcl & Hle).
  destruct (minimal_valid l d Hd Hcl) as [Hv' Hdec'].
  split_and!; [unfold zlen in *; lia | exact Hv' | eauto].
Qed.

(** ** Domains and destinations, by their components *)

Definition label_byte (c : Z) : bool := alnum_ascii c || (c =? ch "-").

(** RFC 1123 labels: 1 to 63 letters, digits and inner hyphens. *)
Definition domain_label (l : bytes) : bool :=
  forallb label_byte l && (1 <=? zlen l) && (zlen l <=? 63) &&
  negb (hd 0 l =? ch "-") && negb (List.last l 0 =? ch "-").

(** A label that can still be completed. *)
Definition partial_label (l : bytes) : bool :=
  forallb label_byte l && (zlen l <=? 63) && negb (hd 0 l =? ch "-").

Lemma domain_label_partial l t : partial_label l = false -> domain_label (l ++ t) = false.
Proof.
  unfold partial_label, domain_label. intros H. rewrite forallb_app.
  destruct (forallb label_byte l) eqn:E1; [|reflexivity].
  cbn [andb] in *.
  destruct (zlen l <=? 63) eqn:E2; cbn [andb] in H.
  - apply negb_false_iff in H. destruct l as [|c l]; [discriminate|]. cbn in *. rewrite H.
    now rewrite !andb_false_r.
  - assert (zlen (l ++ t) <=? 63 = false) as ->.
    { boolify. apply Z.leb_gt. unfold zlen in *. rewrite length_app. lia. }
    now rewrite !andb_false_r.
Qed.

Lemma zlen_snoc (l : bytes) c : zlen (l ++ [c]) = zlen l + 1.
Proof. unfold zlen. rewrite length_app. cbn. lia. Qed.

Lemma partial_label_snoc l c :
  partial_label l = true ->
  partial_label (l ++ [c]) =
    negb ((negb (alnum_ascii c) && negb (c =? ch "-")) || ((zlen l =? 0) && (c =? ch "-"))
          || (63 <? zlen l + 1)).
Proof.
  unfold partial_label. rewrite !andb_true_iff. intros [[H1 H2] H3].
  rewrite forallb_app, H1, zlen_snoc. cbn [forallb andb]. rewrite andb_true_r.
  unfold label_byte. rewrite !negb_orb, negb_andb, !negb_involutive.
  replace (negb (63 <? zlen l + 1)) with (zlen l + 1 <=? 63)
    by (destruct (Z.leb_spec (zlen l + 1) 63), (Z.ltb_spec 63 (zlen l + 1)); easy || lia).
  rewrite <- !andb_assoc. f_equal. rewrite (andb_comm (_ <=? 63)). f_equal.
  destruct l as [|x l]; [reflexivity|].
  replace (zlen (x :: l) =? 0) with false
    by (symmetry; apply Z.eqb_neq; unfold zlen; cbn; lia).
  cbn in H3 |- *. exact H3.
Qed.

Lemma valid_domain_loop_spec s cur :
  partial_label cur = true ->
  valid_domain_loop (zlen cur) (List.last cur (ch ".")) s =
    forallb domain_label (split_acc (ch ".") cur s).
Proof.
  assert (Hd : forall cur, partial_label cur = true ->
    domain_label cur = negb (zlen cur =? 0) && negb (List.last cur (ch ".") =? ch "-")).
  { intros l. unfold partial_label, domain_label. rewrite !andb_true_iff. intros [[-> ->] ->].
    destruct l as [|x l]; [reflexivity|]. cbn [andb].
    replace (zlen (x :: l) =? 0) with false
      by (symmetry; apply Z.eqb_neq; unfold zlen; cbn; lia).
    replace (1 <=? zlen (x :: l)) with true
      by (symmetry; apply Z.leb_le; unfold zlen; cbn; lia).
    cbn [negb andb]. now rewrite (last_cons_default x l 0 (ch ".")). }
  revert cur. induction s as [|c s IH]; intros cur Hp; cbn [valid_domain_loop split_acc].
  - cbn. now rewrite Hd, andb_true_r.
  - destruct (c =? ch ".") eqn:Ec.
    + apply Z.eqb_eq in Ec as ->. cbn [forallb]. rewrite (Hd _ Hp).
      destruct (zlen cur =? 0); [reflexivity|].
      destruct (List.last cur (ch ".") =? ch "-"); [reflexivity|].
      apply (IH []). reflexivity.
    + rewrite <- (negb_involutive (_ || _ || _)), <- (partial_label_snoc cur c Hp).
      destruct (partial_label (cur ++ [c])) eqn:E; cbn [negb].
      * rewrite <- IH by exact E. now rewrite zlen_snoc, last_last.
      * symmetry. apply split_acc_bad. intros t. now apply domain_label_partial.
Qed.

Lemma valid_domain_spec s :
  jf_valid_domain s =
    (1 <=? zlen s) && (zlen s <=? 253) && forallb domain_label (split_on (ch ".") s).
Proof.
  unfold jf_valid_domain.
  destruct s as [|c s]; [reflexivity|].
  replace (zlen (c :: s) =? 0) with false by (symmetry; apply Z.eqb_neq; unfold zlen; cbn; lia).
  replace (1 <=? zlen (c :: s)) with true by (symmetry; apply Z.leb_le; unfold zlen; cbn; lia).
  cbn [orb andb].
  destruct (Z.ltb_spec 253 (zlen (c :: s))), (Z.leb_spec (zlen (c :: s)) 253);
    try (exfalso; lia); [reflexivity|]. cbn [andb]. unfold split_on.
  rewrite <- (valid_domain_loop_spec (c :: s) []) by reflexivity.
  (* the first byte sees [prev] only through a label that is empty *)
  cbn [valid_domain_loop zlen length]. reflexivity.
Qed.

Lemma destination_loop_spec s comp :
  destination_loop comp s =
    forallb (fun c => negb (control c)) s &&
    forallb (fun l => negb (bad_component l)) (split_acc (ch "/") comp s).
Proof.
  revert comp. induction s as [|c s IH]; intros comp; cbn [destination_loop split_acc forallb].
  - now rewrite andb_true_r.
  - destruct (control c) eqn:E; [reflexivity|]. cbn [negb andb].
    destruct (c =? ch "/"); [|apply IH].
    cbn [forallb]. destruct (bad_component comp); cbn [negb andb];
      [now rewrite andb_false_r | apply IH].
Qed.

Lemma destination_spec s :
  destination s = forallb (fun c => negb (control c)) s &&
    forallb (fun l => negb (bad_component l)) (split_on (ch "/") s).
Proof.
  destruct s as [|c s]; [reflexivity|]. unfold destination, split_on.
  rewrite <- destination_loop_spec. destruct (c =? ch "/") eqn:E; [|reflexivity].
  apply Z.eqb_eq in E as ->. reflexivity.
Qed.

(** ** ASCII case folding keeps the shape of domains and mailboxes *)

Lemma fold_cases c : fold_byte c = c \/ (65 <= c <= 90 /\ fold_byte c = c + 32).
Proof.
  unfold fold_byte. destruct ((65 <=? c) && (c <=? 90)) eqn:E; [right|now left].
  boolify. lia.
Qed.

Lemma fold_eqb c x : x < 65 \/ 90 < x < 97 \/ 122 < x -> (fold_byte c =? x) = (c =? x).
Proof.
  intros Hx. destruct (fold_cases c) as [->|[Hc ->]]; [reflexivity|].
  transitivity false; [|symmetry]; apply Z.eqb_neq; lia.
Qed.

Lemma fold_alnum c : alnum_ascii (fold_byte c) = alnum_ascii c.
Proof.
  destruct (fold_cases c) as [->|[Hc ->]]; [reflexivity|]. unfold alnum_ascii. lia.
Qed.

Lemma fold_control c : control (fold_byte c) = control c.
Proof.
  unfold control. rewrite (fold_eqb c 127) by lia. f_equal.
  destruct (fold_cases c) as [->|[Hc ->]]; [reflexivity|].
  transitivity false; [|symmetry]; apply Z.ltb_ge; lia.
Qed.

Lemma fold_atom c : atom_byte (fold_byte c) = atom_byte c.
Proof.
  unfold atom_byte. rewrite fold_alnum.
  destruct (fold_cases c) as [->|[Hc ->]]; [reflexivity|].
  assert (alnum_ascii c = true) as ->; [|cbn [negb]; now rewrite !andb_false_r].
  unfold alnum_ascii. lia.
Qed.

Lemma fold_escape l : fold_bytes (escape l) = escape (fold_bytes l).
Proof.
  unfold fold_bytes. induction l as [|c l IH]; [reflexivity|]. cbn [map]. rewrite !escape_cons, map_app, IH. f_equal.
  unfold escape_byte, escaped. rewrite !fold_eqb by lia. now destruct (_ || _).
Qed.

Lemma fold_dot_atom l comp : dot_atom comp (fold_bytes l) = dot_atom comp l.
Proof.
  unfold fold_bytes. revert comp. induction l as [|c l IH]; intros comp; cbn; [reflexivity|].
  rewrite fold_eqb, fold_atom, !IH by lia. reflexivity.
Qed.

Lemma fold_minimal l d : fold_bytes (minimal l d) = minimal (fold_bytes l) (fold_bytes d).
Proof.
  unfold minimal. rewrite fold_dot_atom. destruct (dot_atom false l).
  - apply map_app.
  - rewrite <- fold_escape. unfold fold_bytes. cbn [map]. rewrite map_app. reflexivity.
Qed.

Lemma fold_valid_domain_loop label prev s :
  valid_domain_loop label (fold_byte prev) (fold_bytes s) = valid_domain_loop label prev s.
Proof.
  unfold fold_bytes. revert label prev. induction s as [|c s IH]; intros label prev; cbn.
  - now rewrite fold_eqb by lia.
  - rewrite fold_alnum, !fold_eqb, !IH by lia. reflexivity.
Qed.

Lemma fold_valid_domain s : jf_valid_domain (fold_bytes s) = jf_valid_domain s.
Proof.
  unfold jf_valid_domain. unfold zlen, fold_bytes. rewrite length_map. fold (fold_bytes s).
  now rewrite <- (fold_valid_domain_loop 0 _ s).
Qed.

Lemma fold_at_domain d : at_domain (fold_bytes d) = at_domain d.
Proof.
  destruct d as [|c d]; [reflexivity|]. cbn [at_domain fold_bytes map].
  rewrite fold_eqb by lia. now rewrite <- (fold_valid_domain d).
Qed.

(** Folding commutes with normalisation: a folded canonical mailbox is
    canonical. *)
Lemma normalize_fold text t :
  normalize_spec text = Some t -> normalize_spec (fold_bytes t) = Some (fold_bytes t).
Proof.
  intros H. apply normalize_idem in H. rewrite !normalize_decode in *.
  destruct H as (Hlen & Hv & l & d & Hdec & Hl & E).
  destruct (decode_clean _ _ _ Hv Hdec) as (Hd & Hcl & _).
  rewrite E, fold_minimal. rewrite <- fold_at_domain in Hd.
  assert (Hcl' : forallb (fun c => negb (control c)) (fold_bytes l) = true \/ dot_atom false (fold_bytes l) = true).
  { destruct Hcl as [Hcl|Hcl]; [left|right; now rewrite fold_dot_atom].
    clear -Hcl. unfold fold_bytes. induction l as [|c l IH]; [reflexivity|].
    cbn in *. rewrite fold_control. apply andb_true_iff in Hcl as [-> Hcl]. now apply IH. }
  destruct (minimal_valid _ _ Hd Hcl') as [Hv' Hdec'].
  split_and!; [|exact Hv'|eexists _, _; split_and!; [exact Hdec'| |reflexivity]].
  - rewrite <- fold_minimal, <- E. unfold zlen, fold_bytes in *. now rewrite length_map.
  - now destruct l.
Qed.

Lemma valid_domain_bytes d :
  jf_valid_domain d = true -> Forall (fun c => label_byte c || (c =? ch ".") = true) d.
Proof.
  unfold jf_valid_domain. destruct (_ || _); [discriminate|].
  assert (H : forall label prev, valid_domain_loop label prev d = true ->
            Forall (fun c => label_byte c || (c =? ch ".") = true) d); [|apply H].
  induction d as [|c d IH]; intros label prev; cbn; [constructor|].
  destruct (c =? ch ".") eqn:E.
  - intros H. constructor; [rewrite E; apply orb_true_r|]. repeat case_test; try discriminate; eauto.
  - destruct ((negb (alnum_ascii c) && _) || _ || _) eqn:Eb; [discriminate|]. intros H.
    constructor; [|eauto]. boolify. unfold label_byte.
    destruct (alnum_ascii c); [reflexivity|]. cbn in *. now destruct (c =? ch "-").
Qed.

Lemma valid_domain_no_at d : jf_valid_domain d = true -> ch "@" ∉ fold_bytes d.
Proof.
  rewrite <- fold_valid_domain. intros H%valid_domain_bytes Hin.
  rewrite Forall_forall in H. now specialize (H _ Hin).
Qed.

(** ** Normalisation keeps UTF-8 text *)

Lemma quoted_parse_utf8 p l r acc :
  quoted_parse p = Some (l, r) -> utf8_text (acc ++ p) -> utf8_text (acc ++ l) /\ utf8_text r.
Proof.
  intros H. revert acc.
  refine (quoted_parse_ind (fun p l r => forall acc, utf8_text (acc ++ p) -> utf8_text (acc ++ l) /\ utf8_text r)
            _ _ _ p l r H); clear p l r H.
  - intros t acc Hu. rewrite app_nil_r. apply utf8_split in Hu; [exact Hu|lia].
  - intros d t l r _ _ IH acc Hu. apply utf8_split in Hu as [Ha Hd]; [|lia].
    destruct (IH (acc ++ [d])) as [H1 H2]; [|rewrite <- app_assoc in H1; auto].
    rewrite <- app_assoc. now apply utf8_text_app.
  - intros c t l r _ _ _ IH acc Hu. destruct (IH (acc ++ [c])) as [H1 H2]; rewrite <- app_assoc in *; auto.
Qed.

Lemma escape_utf8 l acc : utf8_text (acc ++ l) -> utf8_text (acc ++ escape l).
Proof.
  revert acc. induction l as [|c l IH]; intros acc H; [exact H|]. rewrite escape_cons. unfold escape_byte.
  destruct (escaped c) eqn:E.
  - rewrite app_assoc. apply IH.
    assert (Hc : ascii c) by (apply escaped_cases in E as [->| ->]; lia).
    apply utf8_split in H as [Ha Hl]; [|exact Hc]. rewrite <- app_assoc. cbn [app].
    apply utf8_split; [lia|]. split; [exact Ha|].
    apply (utf8_split [] c l Hc). split; [apply utf8_text_nil|exact Hl].
  - rewrite app_assoc. apply IH. now rewrite <- app_assoc.
Qed.

Lemma normalize_utf8 text t : normalize_spec text = Some t -> utf8_text text -> utf8_text t.
Proof.
  unfold normalize_spec. destruct (_ || _); [discriminate|]. destruct text as [|c p]; [now intros [= <-]|].
  destruct (c =? DQ) eqn:E; [|now intros [= <-]]. apply Z.eqb_eq in E as ->.
  destruct (quoted_parse p) as [[[|x l] d]|] eqn:Hq; try discriminate. intros [= <-] Hu.
  apply (utf8_split [] DQ p) in Hu as [_ Hu]; [|lia].
  destruct (quoted_parse_utf8 _ _ _ [] Hq Hu) as [Hl Hd]. unfold minimal. destruct (dot_atom _ _).
  - now apply utf8_text_app.
  - apply (utf8_split [] DQ); [lia|]. split; [apply utf8_text_nil|].
    apply utf8_split; [lia|]. split; [|exact Hd]. now apply (escape_utf8 (x :: l) []).
Qed.

(** ** Properties *)

(** C28. [jf_normalize_mailbox] rewrites its buffer in place without damaging
    unread bytes: it succeeds exactly on the valid mailboxes within the line
    limit whose decoded local part is nonempty, and leaves the minimal spelling
    of that decoded mailbox, which never grows, is valid, decodes to the same
    local part and domain, and is a fixed point. *)
Theorem normalize_mailbox_minimal (text t : bytes) :
  cstr_ok text ->
  (jf_normalize_mailbox text = Some t <->
     zlen text <= JF_LINE_MAX /\ jf_valid_mailbox text = true /\
     exists l d, decode_mailbox text = Some (l, d) /\ l <> [] /\ t = minimal l d) /\
  (jf_normalize_mailbox text = Some t ->
     (length t <= length text)%nat /\ jf_valid_mailbox t = true /\
     decode_mailbox t = decode_mailbox text /\ normalize_spec t = Some t).
Proof.
  intros Hok. rewrite normalize_refines by exact Hok. split; [apply normalize_decode|].
  intros H. pose proof (normalize_idem _ _ H) as Hi.
  apply normalize_decode in H as (_ & Hv & l & d & Hdec & _ & ->).
  destruct (decode_clean _ _ _ Hv Hdec) as (Hd & Hcl & Hle).
  destruct (minimal_valid l d Hd Hcl) as [Hv' Hdec'].
  split_and!; [exact Hle | exact Hv' | congruence | exact Hi].
Qed.

Definition sample_quoted : bytes := [DQ] ++ str "a" ++ [BSL] ++ str "b.c" ++ [DQ] ++ str "@X.org".

Lemma normalize_mailbox_minimal_witness :
  (length (str "ab.c@X.org") <= length sample_quoted)%nat /\
  normalize_spec (str "ab.c@X.org") = Some (str "ab.c@X.org").
Proof.
  destruct (normalize_mailbox_minimal sample_quoted (str "ab.c@X.org")) as [_ H].
  - vm_compute. repeat constructor.
  - destruct H as (H1 & _ & _ & H2); [vm_compute; reflexivity | split; assumption].
Defined.

(** Two spellings normalise to the same bytes exactly when they denote the
    same decoded mailbox: an exact-address rule cannot be evaded or duplicated
    by redundant quoting. *)
Theorem normalize_mailbox_canonical (a b ta tb : bytes) :
  cstr_ok a -> cstr_ok b ->
  jf_normalize_mailbox a = Some ta -> jf_normalize_mailbox b = Some tb ->
  (ta = tb <-> decode_mailbox a = decode_mailbox b).
Proof.
  intros Ha Hb. rewrite !normalize_refines by assumption. rewrite !normalize_decode.
  intros (_ & Hva & l & d & Hda & _ & ->) (_ & Hvb & l' & d' & Hdb & _ & ->).
  destruct (decode_clean _ _ _ Hva Hda) as (Hd & Hcl & _).
  destruct (decode_clean _ _ _ Hvb Hdb) as (Hd' & Hcl' & _).
  rewrite Hda, Hdb. split; [|now intros [= -> ->]].
  intros E. destruct (minimal_inj _ _ _ _ Hd Hd' Hcl Hcl' E) as [-> ->]. reflexivity.
Qed.

Lemma normalize_mailbox_canonical_witness :
  decode_mailbox sample_quoted = decode_mailbox (str "ab.c@X.org").
Proof.
  apply (normalize_mailbox_canonical sample_quoted (str "ab.c@X.org")
           (str "ab.c@X.org") (str "ab.c@X.org"));
    try (vm_compute; reflexivity); vm_compute; repeat constructor.
Defined.

(** [jf_valid_domain] accepts exactly the RFC 1123 host names of 1 to 253
    bytes, and the destination check exactly the relative paths of nonempty
    components without control bytes, [.] and [..]. *)
Theorem domain_destination_exact (s : bytes) :
  jf_valid_domain s =
    (1 <=? zlen s) && (zlen s <=? 253) && forallb domain_label (split_on (ch ".") s) /\
  destination s =
    forallb (fun c => negb (control c)) s &&
    forallb (fun l => negb (bad_component l)) (split_on (ch "/") s).
Proof. split; [apply valid_domain_spec | apply destination_spec]. Qed.
