(* ===== verification/Lexer.v ===== *)
(** * The policy lexer (src/filter/policy.c: [fail], [lex], [jf_policy_tokens];
    src/filter/import.c: [quote])

    One physical line into at most five C strings, with bare tokens, JSON quoting
    and comments; and the quoting the importer writes, which the lexer reads
    back. *)
From S2P Require Import Prelude Utf8 Mailbox.

(** [struct parser] of policy.c without the policy under construction. *)
Record parser := MkParser { p_source : Z; p_line : Z }.

Definition fail {A} (p : parser) (code : string) (detail : bytes) : res A :=
  Fail (if String.eqb code "E_MEMORY" then 3 else 4)
       (MkError code (p_source p) (p_line p) (snprintf160 detail)).

Section Lex.
Context (p : parser).

(** The escape after a backslash: the bytes it stands for and the rest. *)
Definition lex_escape (c : Z) (s : bytes) : res (bytes * bytes) :=
  if (c =? DQ) || (c =? BSL) || (c =? ch "/") then Ok ([c], s)
  else if c =? ch "b" then Ok ([8], s)
  else if c =? ch "f" then Ok ([12], s)
  else if c =? ch "n" then Ok ([10], s)
  else if c =? ch "r" then Ok ([13], s)
  else if c =? ch "t" then Ok ([9], s)
  else if c =? ch "u" then
    match hex4 s with
    | None => fail p "E_QUOTE" (str "invalid Unicode escape")
    | Some (c, s) =>
        if (0xd800 <=? c) && (c <=? 0xdbff) then
          match s with
          | b :: u :: s' =>
              if (length s <? 6)%nat || negb (b =? BSL) || negb (u =? ch "u") then
                fail p "E_QUOTE" (str "unpaired Unicode surrogate")
              else match hex4 s' with
                   | Some (low, s'') =>
                       if (low <? 0xdc00) || (0xdfff <? low) then
                         fail p "E_QUOTE" (str "unpaired Unicode surrogate")
                       else Ok (encode (0x10000 + Z.shiftl (c - 0xd800) 10 + (low - 0xdc00)), s'')
                   | None => fail p "E_QUOTE" (str "unpaired Unicode surrogate")
                   end
          | _ => fail p "E_QUOTE" (str "unpaired Unicode surrogate")
          end
        else if (0xdc00 <=? c) && (c <=? 0xdfff) then
          fail p "E_QUOTE" (str "unpaired Unicode surrogate")
        else if c =? 0 then fail p "E_NUL" (str "decoded NUL is forbidden")
        else Ok (encode c, s)
    end
  else fail p "E_QUOTE" (str "unknown JSON escape").

(** The loop over a quoted token: what was decoded before [s], then whether
    the token was closed. *)
Fixpoint lex_quoted (fuel : nat) (s acc : bytes) : res (bool * bytes * bytes) :=
  match fuel, s with
  | O, _ | _, [] => Ok (false, acc, s)
  | S fuel', c :: t =>
      if c =? DQ then Ok (true, acc, t)
      else if c <? 32 then fail p "E_QUOTE" (str "control byte in quoted token")
      else if negb (c =? BSL) then lex_quoted fuel' t (acc ++ [c])
      else match t with
           | [] => fail p "E_QUOTE" (str "unfinished escape")
           | e :: t' => '(d, t'') ← lex_escape e t'; lex_quoted fuel' t'' (acc ++ d)
           end
  end.

Fixpoint lex_bare (s acc : bytes) : res (bytes * bytes) :=
  match s with
  | [] => Ok (acc, [])
  | c :: t =>
      if is_blank c then Ok (acc, s)
      else if (c <? 32) || (c =? 127) || (c =? DQ)
      then fail p "E_TOKEN" (str "invalid bare token")
      else lex_bare t (acc ++ [c])
  end.

Definition lex_token (s : bytes) : res (bytes * bytes) :=
  match s with
  | c :: t =>
      if c =? DQ then
        '(closed, tok, t') ← lex_quoted (length t) t [];
        if negb closed || match t' with d :: _ => negb (is_blank d) | [] => false end
        then fail p "E_QUOTE" (str "quoted token requires a closing quote and separator")
        else Ok (tok, t')
      else lex_bare s []
  | [] => Ok ([], [])
  end.

(** The outer loop, [tokens] being the tokens already stored. *)
Fixpoint lex_loop (fuel : nat) (s : bytes) (tokens : list bytes) : res (list bytes) :=
  match fuel with
  | O => Ok tokens
  | S fuel' =>
      match drop_while is_blank s with
      | [] => Ok tokens
      | (c :: _) as s =>
          if c =? ch "#" then Ok tokens
          else if (length tokens =? 5)%nat then fail p "E_FIELDS" (str "too many fields")
          else '(tok, s') ← lex_token s; lex_loop fuel' s' (tokens ++ [tok])
      end
  end.

Definition lex (s : bytes) : res (list bytes) := lex_loop (S (length s)) s [].
End Lex.

Definition jf_policy_tokens (s : bytes) (line : Z) : res (list bytes) :=
  let p := MkParser 0 line in
  if JF_LINE_MAX <? zlen s then fail p "E_LINE_LIMIT" (str "profile line exceeds limit")
  else if negb (jf_valid_utf8 s) then fail p "E_UTF8" (str "invalid profile UTF8")
  else lex p s.

(** import.c: the body of the loop of [quote], [None] for its status 3. *)
Fixpoint quote_loop (s : bytes) : option bytes :=
  match s with
  | [] => Some []
  | c :: t => if c <? 32 then None
              else r ← quote_loop t; Some ((if escaped c then [BSL; c] else [c]) ++ r)
  end.

Definition quote (s : bytes) : option bytes :=
  r ← quote_loop s; Some (DQ :: r ++ [DQ]).

Example lex_example :
  lex (MkParser 0 1) (str "from  " ++ [DQ] ++ str "a" ++ [BSL] ++ str "u00e9" ++ [DQ] ++ str " move x # c")
  = Ok [str "from"; [97; 0xc3; 0xa9]; str "move"; str "x"].
Proof. vm_compute. reflexivity. Qed.

(** ** Inversion of the pieces *)

Lemma fail_not_Ok {A} p code d (x : A) : fail p code d <> Ok x.
Proof. discriminate. Qed.

(** What an escape decodes to: with its backslash and letter it covers that. *)
Lemma lex_escape_Ok p c s d r :
  lex_escape p c s = Ok (d, r) ->
  (length d + length r <= length s + 1)%nat /\ r `suffix_of` s /\ cstr_ok d.
Proof.
  unfold lex_escape.
  repeat match goal with
  | |- (if ?b then Ok ([?c], s) else _) = _ -> _ =>
      let E := fresh "E" in destruct b eqn:E;
      [intros [= <- <-]; cbn; split_and!; try lia; try reflexivity;
       rewrite ?orb_true_iff, ?Z.eqb_eq in E; repeat constructor; lia|clear E]
  end.
  destruct (c =? ch "u"); [|discriminate].
  destruct (hex4 s) as [[v s1]|] eqn:H4; [|discriminate].
  pose proof (hex4_suffix _ _ _ H4) as Hsuf. apply hex4_range in H4 as [Hv Hs1].
  destruct ((0xd800 <=? v) && (v <=? 0xdbff)) eqn:E1.
  - destruct s1 as [|b [|u s2]]; try discriminate.
    destruct (_ || _); [discriminate|].
    destruct (hex4 s2) as [[low s3]|] eqn:H4'; [|discriminate].
    pose proof (hex4_suffix _ _ _ H4') as Hsuf'. apply hex4_range in H4' as [Hlow Hs3].
    destruct ((low <? 0xdc00) || _) eqn:E2; [discriminate|]. intros [= <- <-].
    boolify. rewrite Z.shiftl_mul_pow2 by lia.
    assert (Hsc : scalar (65536 + (v - 55296) * 2 ^ 10 + (low - 56320))) by (split; lia).
    pose proof (encode_length _ Hsc). cbn [length] in Hs1.
    split_and!; [lia| |apply encode_bytes, Hsc].
    etrans; [|exact Hsuf]. now do 2 apply suffix_cons_r.
  - destruct ((0xdc00 <=? v) && _) eqn:E2; [discriminate|].
    destruct (v =? 0) eqn:E0; [discriminate|]. intros [= <- <-]. boolify.
    assert (Hsc : scalar v).
    { split; [lia|]. intros [G1 G2]. apply andb_false_iff in E1, E2.
      destruct E1, E2; boolify; lia. }
    pose proof (encode_length _ Hsc). split_and!; [lia|exact Hsuf|apply encode_bytes, Hsc].
Qed.

Lemma suffix_Forall {A} (P : A -> Prop) (r s : list A) : r `suffix_of` s -> Forall P s -> Forall P r.
Proof. intros [u ->] H. now apply Forall_app in H. Qed.

Lemma lex_quoted_Ok p fuel s acc closed tok r :
  lex_quoted p fuel s acc = Ok (closed, tok, r) ->
  (length tok + length r + (if closed then 1 else 0) <= length acc + length s)%nat /\
  r `suffix_of` s /\ (cstr_ok acc -> bytes_ok s -> cstr_ok tok).
Proof.
  revert s acc. induction fuel as [|fuel IH]; intros s acc; cbn [lex_quoted].
  - intros [= <- <- <-]. split_and!; auto; lia.
  - destruct s as [|c t]; [intros [= <- <- <-]; split_and!; auto; lia|].
    destruct (c =? DQ) eqn:E0.
    { intros [= <- <- <-]. split_and!; [cbn; lia|now apply suffix_cons_r|auto]. }
    destruct (c <? 32) eqn:E1; [discriminate|]. boolify.
    destruct (negb (c =? BSL)).
    + intros H. apply IH in H as (H1 & H2 & H3). rewrite length_app in H1. cbn [length] in *.
      split_and!; [lia|now apply suffix_cons_r|]. intros Ha Hs.
      inversion Hs as [|? ? Hc Ht]; subst. apply H3; [|exact Ht]. apply Forall_app. split; [exact Ha|].
      constructor; [unfold is_byte in Hc; lia | constructor].
    + destruct t as [|e t']; [discriminate|]. rewrite res_bind_Ok.
      intros ([d t''] & Hesc & H). apply lex_escape_Ok in Hesc as (E2 & E3 & E4).
      apply IH in H as (H1 & H2 & H3). rewrite length_app in H1. cbn [length] in *.
      split_and!; [lia|do 2 apply suffix_cons_r; etrans; [exact H2|exact E3]|]. intros Ha Hs. apply H3.
      * now apply Forall_app.
      * eapply suffix_Forall; [exact E3|]. exact (Forall_inv_tail (Forall_inv_tail Hs)).
Qed.

Lemma lex_bare_Ok p s acc tok r :
  lex_bare p s acc = Ok (tok, r) ->
  (length tok + length r = length acc + length s)%nat /\ r `suffix_of` s /\
  (match r with c :: _ => is_blank c = true | [] => True end) /\
  (cstr_ok acc -> bytes_ok s -> cstr_ok tok).
Proof.
  revert acc. induction s as [|c t IH]; intros acc; cbn [lex_bare].
  - intros [= <- <-]. split_and!; auto.
  - destruct (is_blank c) eqn:Eb; [intros [= <- <-]; split_and!; auto|].
    destruct (_ || _) eqn:E1; [discriminate|]. intros H. boolify.
    apply IH in H as (I1 & I2 & I3 & I4). rewrite length_app in I1. cbn [length] in *.
    split_and!; [lia|now apply suffix_cons_r|exact I3|]. intros Ha Hs.
    inversion Hs as [|? ? Hc Ht]; subst. apply I4; [|exact Ht]. apply Forall_app. split; [exact Ha|].
    constructor; [unfold is_byte in Hc; lia | constructor].
Qed.

(** A token leaves room for its terminator unless it ends the line. *)
Lemma lex_token_Ok p c t tok r :
  is_blank c = false -> lex_token p (c :: t) = Ok (tok, r) ->
  (length tok + length r <= length (c :: t))%nat /\ r `suffix_of` c :: t /\
  (length r < length (c :: t))%nat /\
  (match r with d :: _ => is_blank d = true | [] => True end) /\
  (bytes_ok (c :: t) -> cstr_ok tok).
Proof.
  intros Hb. unfold lex_token. destruct (c =? DQ).
  - rewrite res_bind_Ok. intros ([[closed tok'] r'] & Hq & H).
    apply lex_quoted_Ok in Hq as (H1 & H2 & H3).
    destruct closed; cbn [negb orb] in H; [|discriminate].
    destruct r' as [|d r']; [injection H as <- <-|destruct (is_blank d) eqn:Ed; [|discriminate]];
      [|injection H as <- <-]; cbn [length] in *;
      (split_and!; [lia|now apply suffix_cons_r|lia|auto|]);
      intros Hok; apply H3; [constructor | now inversion Hok | constructor | now inversion Hok].
  - intros H. pose proof H as H'. apply lex_bare_Ok in H as (H1 & H2 & H3 & H4).
    split_and!; [cbn in *; lia|exact H2| |exact H3|intros Hok; now apply H4].
    cbn [lex_bare] in H'. rewrite Hb in H'. destruct (_ || _); [discriminate|].
    apply lex_bare_Ok in H' as (_ & [u ->] & _). cbn. rewrite length_app. lia.
Qed.

Lemma drop_while_suffix {A} (f : A -> bool) l : drop_while f l `suffix_of` l.
Proof.
  induction l as [|x l IH]; cbn; [reflexivity|]. destruct (f x); [now apply suffix_cons_r|reflexivity].
Qed.

Lemma drop_while_head {A} (f : A -> bool) l x t : drop_while f l = x :: t -> f x = false.
Proof.
  induction l as [|y l IH]; cbn; [discriminate|]. destruct (f y) eqn:E; [exact IH|].
  now intros [= <- <-].
Qed.

(** ** Bounds: the [size + 1] bytes of the token buffer are enough *)

Definition tokens_size (ts : list bytes) : nat := sum_list_with (fun t => S (length t)) ts.

Lemma lex_loop_Ok p fuel s acc ts :
  lex_loop p fuel s acc = Ok ts -> (length acc <= 5)%nat ->
  exists new, ts = acc ++ new /\ (length ts <= 5)%nat /\
    (drop_while is_blank s = [] -> new = []) /\
    (tokens_size new <= S (length (drop_while is_blank s)))%nat /\
    (bytes_ok s -> Forall (fun t => cstr_ok t) new).
Proof.
  revert s acc. induction fuel as [|fuel IH]; intros s acc H Hacc; cbn [lex_loop] in H.
  { injection H as <-. exists []. rewrite app_nil_r. split_and!; auto; cbn; lia. }
  pose proof (drop_while_suffix is_blank s) as Hsuf.
  destruct (drop_while is_blank s) as [|c t] eqn:Ed.
  { injection H as <-. exists []. rewrite app_nil_r. split_and!; auto; cbn; lia. }
  apply drop_while_head in Ed.
  destruct (c =? ch "#").
  { injection H as <-. exists []. rewrite app_nil_r. split_and!; auto; cbn; lia. }
  destruct (Nat.eqb_spec (length acc) 5) as [|Hne]; [discriminate|].
  apply res_bind_Ok in H as ([tok r] & Ht & H).
  apply lex_token_Ok in Ht as (H1 & H2 & Hlt & H3 & H4); [|exact Ed].
  apply IH in H as (new & -> & Hlen & Hnil & Hsz & Hok); [|rewrite length_app; cbn; lia].
  exists (tok :: new). rewrite <- app_assoc in *. cbn [app] in *.
  split_and!; [reflexivity|exact Hlen|discriminate| |].
  - cbn [tokens_size sum_list_with]. fold (tokens_size new).
    destruct r as [|d r]; [rewrite Hnil by reflexivity; cbn in *; lia|].
    cbn [drop_while] in Hsz. rewrite H3 in Hsz.
    pose proof (suffix_length _ _ (drop_while_suffix is_blank r)). cbn [length] in *. lia.
  - intros Hb. pose proof (suffix_Forall _ _ _ Hsuf Hb) as Hb'.
    constructor; [exact (H4 Hb')|]. apply Hok. eapply suffix_Forall; [exact H2|exact Hb'].
Qed.

Lemma lex_Ok p s ts :
  lex p s = Ok ts ->
  (length ts <= 5)%nat /\ (tokens_size ts <= length s + 1)%nat /\
  (bytes_ok s -> Forall (fun t => cstr_ok t) ts).
Proof.
  intros H. apply lex_loop_Ok in H as (new & -> & H1 & _ & H2 & H3); [|cbn; lia].
  pose proof (suffix_length _ _ (drop_while_suffix is_blank s)). cbn [app] in *.
  split_and!; [exact H1|lia|exact H3].
Qed.

(** ** Tokens of UTF-8 text are UTF-8 text *)

Lemma hex_digit_ascii c d : hex_digit c = Some d -> ascii c.
Proof. unfold hex_digit. repeat case_test; try discriminate; boolify; lia. Qed.

Lemma hex4_loop_ascii i v s w t :
  hex4_loop i v s = Some (w, t) -> exists pre, s = pre ++ t /\ Forall (fun c => ascii c) pre.
Proof.
  revert v s. induction i as [|i IH]; intros v s; cbn [hex4_loop].
  - intros [= <- <-]. now exists [].
  - destruct s as [|c s]; [discriminate|]. destruct (hex_digit c) as [d|] eqn:E; [|discriminate].
    intros H. apply IH in H as (pre & -> & Hp). exists (c :: pre). split; [reflexivity|].
    constructor; [now apply hex_digit_ascii in E|exact Hp].
Qed.

Lemma hex4_ascii s w t : hex4 s = Some (w, t) -> exists pre, s = pre ++ t /\ Forall (fun c => ascii c) pre.
Proof. unfold hex4. case_test; [discriminate|]. apply hex4_loop_ascii. Qed.

(** An escape consumes ASCII bytes and stands for one character. *)
Lemma lex_escape_utf8 p c s d r :
  lex_escape p c s = Ok (d, r) -> ascii c /\ utf8_text d /\
  exists pre, s = pre ++ r /\ Forall (fun c => ascii c) pre.
Proof.
  intros H. pose proof H as (_ & _ & Hd)%lex_escape_Ok. revert H. unfold lex_escape.
  repeat match goal with
  | |- (if ?b then Ok ([?c], s) else _) = _ -> _ =>
      let E := fresh "E" in destruct b eqn:E;
      [intros [= <- <-]; rewrite ?orb_true_iff, ?Z.eqb_eq in E;
       split; [lia|split; [apply ascii_text; repeat constructor; lia|now exists []]]|clear E]
  end.
  destruct (c =? ch "u") eqn:Ec; [|discriminate]. boolify. subst c.
  destruct (hex4 s) as [[v s1]|] eqn:H4; [|discriminate].
  pose proof H4 as [Hv _]%hex4_range. apply hex4_ascii in H4 as (pre & -> & Hpre).
  assert (Henc : forall x, scalar x -> utf8_text (encode x)).
  { intros x Hx. exists [x]. split; [now constructor|]. cbn. now rewrite app_nil_r. }
  destruct ((0xd800 <=? v) && (v <=? 0xdbff)) eqn:E1.
  - destruct s1 as [|b [|u s2]]; try discriminate.
    destruct (_ || _) eqn:Eb; [discriminate|].
    destruct (hex4 s2) as [[low s3]|] eqn:H4'; [|discriminate].
    pose proof H4' as [Hl _]%hex4_range. apply hex4_ascii in H4' as (pre' & -> & Hpre').
    destruct ((low <? 0xdc00) || _) eqn:E2; [discriminate|]. intros [= <- <-]. boolify.
    split; [lia|split; [apply Henc; rewrite Z.shiftl_mul_pow2 by lia; split; lia|]].
    exists (pre ++ b :: u :: pre'). rewrite <- app_assoc. split; [reflexivity|].
    apply Forall_app. split; [exact Hpre|]. subst b u. repeat constructor; try lia. exact Hpre'.
  - destruct ((0xdc00 <=? v) && _) eqn:E2; [discriminate|].
    destruct (v =? 0) eqn:E0; [discriminate|]. intros [= <- <-]. boolify.
    split; [lia|split; [|now exists pre]]. apply Henc.
    split; [lia|]. intros [G1 G2]. apply andb_false_iff in E1, E2. destruct E1, E2; boolify; lia.
Qed.

Lemma lex_quoted_utf8 p fuel s acc tok r :
  lex_quoted p fuel s acc = Ok (true, tok, r) -> utf8_text (acc ++ s) ->
  utf8_text tok /\ utf8_text r.
Proof.
  revert s acc. induction fuel as [|fuel IH]; intros s acc; cbn [lex_quoted]; [discriminate|].
  destruct s as [|c t]; [discriminate|].
  destruct (c =? DQ) eqn:E0.
  { intros [= <- <-] H. boolify. subst c. apply utf8_split in H; [exact H|lia]. }
  destruct (c <? 32) eqn:E1; [discriminate|]. destruct (negb (c =? BSL)) eqn:E2; boolify.
  - intros H Hu. apply IH in H; [exact H|]. now rewrite <- app_assoc.
  - subst c. destruct t as [|e t']; [discriminate|]. rewrite res_bind_Ok.
    intros ([d t''] & (He & Hd & pre & -> & Hpre)%lex_escape_utf8 & H) Hu.
    apply utf8_split in Hu as [Ha Hu]; [|lia]. apply (utf8_split [] e) in Hu as [_ Hu]; [|exact He].
    apply IH in H; [exact H|]. apply utf8_drop_ascii in Hu; [|exact Hpre].
    now repeat apply utf8_text_app.
Qed.

Lemma is_blank_ascii c : is_blank c = true -> ascii c.
Proof. unfold is_blank. rewrite orb_true_iff, !Z.eqb_eq. lia. Qed.

Lemma lex_bare_utf8 p s acc tok r :
  lex_bare p s acc = Ok (tok, r) -> utf8_text (acc ++ s) -> utf8_text tok /\ utf8_text r.
Proof.
  revert acc. induction s as [|c t IH]; intros acc; cbn [lex_bare].
  - intros [= <- <-]. rewrite app_nil_r. intros H. split; [exact H|apply utf8_text_nil].
  - destruct (is_blank c) eqn:E.
    + intros [= <- <-] H. pose proof (is_blank_ascii c E) as Hc.
      apply utf8_split in H as [H1 H2]; [|exact Hc]. split; [exact H1|].
      apply (utf8_split [] c t Hc). split; [apply utf8_text_nil|exact H2].
    + destruct (_ || _); [discriminate|]. intros H Hu. apply IH in H; [exact H|]. now rewrite <- app_assoc.
Qed.

Lemma drop_while_utf8 s : utf8_text s -> utf8_text (drop_while is_blank s).
Proof.
  induction s as [|c s IH]; [auto|]. cbn. destruct (is_blank c) eqn:E; [|auto].
  intros H. apply IH. now apply (utf8_split [] c s (is_blank_ascii c E)) in H.
Qed.

Lemma lex_loop_utf8 p fuel s acc ts :
  lex_loop p fuel s acc = Ok ts -> utf8_text s -> Forall utf8_text acc -> Forall utf8_text ts.
Proof.
  revert s acc. induction fuel as [|fuel IH]; intros s acc; cbn [lex_loop]; [now intros [= <-]|].
  intros H Hs%drop_while_utf8 Ha. destruct (drop_while is_blank s) as [|c t]; [now injection H as <-|].
  destruct (c =? ch "#"); [now injection H as <-|]. destruct (_ =? _)%nat; [discriminate|].
  apply res_bind_Ok in H as ([tok r] & Ht & H).
  assert (Hu : utf8_text tok /\ utf8_text r).
  { unfold lex_token in Ht. destruct (c =? DQ) eqn:E.
    - apply res_bind_Ok in Ht as ([[closed tok'] r'] & Hq & Ht).
      destruct closed; [|discriminate]. destruct (_ || _); [discriminate|]. injection Ht as <- <-.
      apply lex_quoted_utf8 in Hq; [exact Hq|]. boolify. subst c.
      now apply (utf8_split [] DQ t ltac:(lia)) in Hs.
    - now apply lex_bare_utf8 in Ht. }
  apply IH in H; [exact H|apply Hu|]. apply Forall_app. split; [exact Ha|]. now constructor.
Qed.

Lemma lex_utf8 p s ts : lex p s = Ok ts -> utf8_text s -> Forall utf8_text ts.
Proof. intros H Hs. eapply lex_loop_utf8; [exact H|exact Hs|constructor]. Qed.

(** ** What the importer quotes, the lexer reads back *)

Lemma lex_quoted_clean p fuel l acc t q :
  quote_loop l = Some q -> (length q < fuel)%nat ->
  lex_quoted p fuel (q ++ DQ :: t) acc = Ok (true, acc ++ l, t).
Proof.
  revert fuel q acc. induction l as [|c l IH]; intros fuel q acc; cbn [quote_loop].
  - intros [= <-] Hf. destruct fuel; [cbn in Hf; lia|]. cbn. now rewrite app_nil_r.
  - destruct (c <? 32) eqn:Ec; [discriminate|].
    destruct (quote_loop l) as [r|]; [|discriminate]. intros [= <-] Hf.
    destruct (escaped c) eqn:Ee; cbn [app length] in *.
    + destruct fuel as [|fuel]; [lia|]. cbn. unfold lex_escape.
      assert ((c =? DQ) || (c =? BSL) || (c =? ch "/") = true) as -> by
        (unfold escaped in Ee; now rewrite Ee).
      cbn. rewrite IH with (q := r) by (reflexivity || lia). now rewrite <- app_assoc.
    + destruct fuel as [|fuel]; [lia|]. cbn [lex_quoted].
      unfold escaped in Ee. apply orb_false_iff in Ee as [-> ->]. rewrite Ec. cbn [negb].
      rewrite IH with (q := r) by (reflexivity || lia). now rewrite <- app_assoc.
Qed.

Lemma lex_token_quote p l q t :
  quote l = Some q -> (match t with d :: _ => is_blank d = true | [] => True end) ->
  lex_token p (q ++ t) = Ok (l, t).
Proof.
  unfold quote. destruct (quote_loop l) as [r|] eqn:E; [|discriminate]. intros [= <-] Ht.
  cbn [app lex_token]. rewrite Z.eqb_refl, <- app_assoc. cbn [app].
  rewrite (lex_quoted_clean p _ l [] t r E) by (rewrite length_app; cbn; lia).
  cbn. destruct t as [|d t]; [reflexivity|]. now rewrite Ht.
Qed.

(** A bare word: what a selector or [move] is made of. *)
Definition bare_word (w : bytes) : bool :=
  match w with
  | c :: _ => negb (c =? ch "#")
  | [] => false
  end && forallb (fun c => negb ((c <=? 32) || (c =? 127) || (c =? DQ))) w.

Lemma lex_bare_word p w acc t :
  forallb (fun c => negb ((c <=? 32) || (c =? 127) || (c =? DQ))) w = true ->
  (match t with d :: _ => is_blank d = true | [] => True end) ->
  lex_bare p (w ++ t) acc = Ok (acc ++ w, t).
Proof.
  intros Hw Ht. revert acc. induction w as [|c w IH]; intros acc; cbn [app lex_bare].
  - rewrite app_nil_r. destruct t as [|d t]; [reflexivity|]. cbn [lex_bare]. now rewrite Ht.
  - cbn in Hw. apply andb_true_iff in Hw as [Hc Hw]. boolify.
    assert (is_blank c = false) as -> by (unfold is_blank; solve_tests; reflexivity).
    solve_tests. rewrite IH by exact Hw. now rewrite <- app_assoc.
Qed.

(** One field of a rule line, written bare or quoted. *)
Definition field_text (f l : bytes) : Prop :=
  quote l = Some f \/ (bare_word l = true /\ f = l).

Lemma lex_token_field p f l t :
  field_text f l -> (match t with d :: _ => is_blank d = true | [] => True end) ->
  lex_token p (f ++ t) = Ok (l, t).
Proof.
  intros [Hq|[Hw ->]] Ht; [now apply lex_token_quote|].
  unfold bare_word in Hw. apply andb_true_iff in Hw as [H1 H2].
  destruct l as [|c l]; [discriminate|]. cbn [app lex_token].
  assert (c =? DQ = false) as ->.
  { cbn in H2. apply andb_true_iff in H2 as [H2 _]. boolify. now apply Z.eqb_neq. }
  apply (lex_bare_word p (c :: l) [] t H2 Ht).
Qed.

Lemma field_head f l t : field_text f l ->
  exists c r, f ++ t = c :: r /\ is_blank c = false /\ (c =? ch "#") = false.
Proof.
  intros [Hq|[Hw ->]].
  - unfold quote in Hq. destruct (quote_loop l); [|discriminate]. injection Hq as <-.
    now eexists _, _.
  - unfold bare_word in Hw. apply andb_true_iff in Hw as [H1 H2].
    destruct l as [|c l]; [discriminate|]. exists c, (l ++ t). split_and!; [reflexivity| |].
    + cbn in H2. apply andb_true_iff in H2 as [H2 _]. boolify. unfold is_blank. solve_tests. reflexivity.
    + now apply negb_true_iff.
Qed.

(** Fields separated by one space. *)
Fixpoint fields_line (fs : list bytes) : bytes :=
  match fs with
  | [] => []
  | [f] => f
  | f :: fs => f ++ SP :: fields_line fs
  end.

Lemma lex_loop_fields p fs : forall ls acc fuel,
  Forall2 field_text fs ls -> (length acc + length ls <= 5)%nat ->
  (length (fields_line fs) < fuel)%nat ->
  lex_loop p fuel (fields_line fs) acc = Ok (acc ++ ls).
Proof.
  induction fs as [|f fs IH]; intros ls acc fuel HF Hlen Hf.
  - inversion HF; subst. destruct fuel; cbn; now rewrite app_nil_r.
  - inversion HF as [|? l ? ls' Hfl HF']; subst. destruct fuel as [|fuel]; [lia|].
    assert (Hline : exists t, fields_line (f :: fs) = f ++ t /\
      (match t with d :: _ => is_blank d = true | [] => True end) /\
      (t = [] /\ fs = [] \/ t = SP :: fields_line fs)).
    { destruct fs as [|g fs]; [exists []; cbn; rewrite app_nil_r; auto|].
      exists (SP :: fields_line (g :: fs)). cbn. auto. }
    destruct Hline as (t & Eline & Hblank & Ht). rewrite Eline in *.
    destruct (field_head f l t Hfl) as (c & r & Ec & Hc & Hh).
    cbn [lex_loop]. rewrite Ec. cbn [drop_while]. rewrite Hc, Hh, <- Ec. cbn [length] in Hlen.
    destruct (Nat.eqb_spec (length acc) 5); [lia|].
    rewrite (lex_token_field p f l t Hfl Hblank). cbn [mbind res_bind].
    destruct Ht as [[-> ->]| ->].
    + inversion HF'; subst. destruct fuel; reflexivity.
    + assert (Hstep : lex_loop p fuel (SP :: fields_line fs) (acc ++ [l]) =
                      lex_loop p fuel (fields_line fs) (acc ++ [l])) by (now destruct fuel).
      rewrite Hstep, (IH ls') ; [now rewrite <- app_assoc|exact HF'| |].
      * rewrite length_app. cbn. lia.
      * rewrite length_app in Hf. cbn [length] in Hf. pose proof (f_equal length Ec) as El.
        rewrite length_app in El. cbn [length] in El. destruct f; [cbn in El|cbn in Hf]; [|lia].
        destruct Hfl as [Hq|[Hw Hl]].
        -- unfold quote in Hq. now destruct (quote_loop l).
        -- now subst.
Qed.

Lemma lex_fields p fs ls :
  Forall2 field_text fs ls -> (length ls <= 5)%nat -> lex p (fields_line fs) = Ok ls.
Proof. intros HF Hlen. apply (lex_loop_fields p fs ls []); [exact HF|cbn; lia|lia]. Qed.

(** ** Properties *)

(** The lexer's output fits the buffers the code gives it: at most five
    tokens, at most [size + 1] bytes of token text and terminators, and no
    token hides a NUL byte. *)
Theorem policy_tokens_bounds (s : bytes) (line : Z) (ts : list bytes) :
  bytes_ok s -> jf_policy_tokens s line = Ok ts ->
  (length ts <= 5)%nat /\ (tokens_size ts <= length s + 1)%nat /\
  Forall (fun t => cstr_ok t) ts /\ zlen s <= JF_LINE_MAX /\ utf8_text s.
Proof.
  intros Hs. unfold jf_policy_tokens.
  destruct (JF_LINE_MAX <? zlen s) eqn:E1; [discriminate|]. boolify.
  destruct (jf_valid_utf8 s) eqn:E2; [|discriminate]. intros H.
  apply lex_Ok in H as (H1 & H2 & H3). apply valid_utf8_spec in E2; [|exact Hs].
  auto.
Qed.

Lemma policy_tokens_bounds_witness :
  (tokens_size [str "own"; str "a b"] <= length (str "own " ++ [DQ] ++ str "a b" ++ [DQ]) + 1)%nat.
Proof.
  apply (policy_tokens_bounds (str "own " ++ [DQ] ++ str "a b" ++ [DQ]) 1);
    [vm_compute; repeat constructor; discriminate | vm_compute; reflexivity].
Defined.

(** Round trip: a line of up to five fields, each a bare word or the
    importer's quoting of arbitrary text, lexes back to exactly those texts. *)
Theorem policy_tokens_roundtrip (fs ls : list bytes) (line : Z) :
  Forall2 field_text fs ls -> (length ls <= 5)%nat ->
  zlen (fields_line fs) <= JF_LINE_MAX -> bytes_ok (fields_line fs) ->
  utf8_text (fields_line fs) ->
  jf_policy_tokens (fields_line fs) line = Ok ls.
Proof.
  intros HF Hlen Hmax Hok Hutf. unfold jf_policy_tokens.
  rewrite (proj2 (Z.ltb_ge _ _) Hmax).
  apply valid_utf8_spec in Hutf; [|exact Hok]. rewrite Hutf. now apply lex_fields.
Qed.

Lemma policy_tokens_roundtrip_witness :
  jf_policy_tokens (str "own " ++ [DQ; BSL; DQ] ++ str "# b" ++ [DQ]) 7 = Ok [str "own"; DQ :: str "# b"].
Proof.
  apply (policy_tokens_roundtrip [str "own"; [DQ; BSL; DQ] ++ str "# b" ++ [DQ]]
           [str "own"; DQ :: str "# b"]).
  - constructor; [right; split; reflexivity|].
    constructor; [left; vm_compute; reflexivity | constructor].
  - cbn. lia.
  - vm_compute. discriminate.
  - vm_compute. repeat constructor; discriminate.
  - apply ascii_text. vm_compute. repeat constructor.
Defined.
