(* ===== verification/Rules.v ===== *)
(** * Policy rules (src/filter/policy.h, policy_internal.h, policy.c)

    The rule and policy records, the allocator the policy is built with, one
    operation per function of the policy compiler: [append], [parse_line] and
    [resolve] with the comparators it sorts by. *)
From S2P Require Import Prelude Sha256 Utf8 Mailbox Lexer.

Definition JF_INPUT_MAX : Z := 64 * 1024 * 1024.
Definition JF_RULE_MAX : Z := 100000.
Definition JF_BUILTIN_RULES : Z := 3.
Definition JF_RULE_RECORD_MAX : Z := JF_RULE_MAX + JF_BUILTIN_RULES.
Definition JF_HEADERS_MAX : Z := 1024 * 1024.

Inductive jf_source_kind := JF_FILTERS | JF_ACCOUNT | JF_ALIASES | JF_KNOWN | JF_BLACKLIST.
Inductive jf_kind :=
  JF_ADDRESS | JF_DOMAIN_APEX | JF_DOMAIN_SUBDOMAINS | JF_ERE |
  JF_SENDER_CONTAINS | JF_SPAM_IS | JF_ALWAYS.

#[export] Instance jf_source_kind_eq_dec : EqDecision jf_source_kind.
Proof. solve_decision. Defined.
#[export] Instance jf_kind_eq_dec : EqDecision jf_kind.
Proof. solve_decision. Defined.

(** The values of the two C enumerations. *)
Definition source_kind_value (k : jf_source_kind) : Z :=
  match k with JF_FILTERS => 0 | JF_ACCOUNT => 1 | JF_ALIASES => 2 | JF_KNOWN => 3 | JF_BLACKLIST => 4 end.
Definition kind_value (k : jf_kind) : Z :=
  match k with
  | JF_ADDRESS => 0 | JF_DOMAIN_APEX => 1 | JF_DOMAIN_SUBDOMAINS => 2 | JF_ERE => 3
  | JF_SENDER_CONTAINS => 4 | JF_SPAM_IS => 5 | JF_ALWAYS => 6
  end.

(** [enum jf_field]: a bit mask. *)
Definition JF_FROM : Z := 1.
Definition JF_SENDER : Z := 2.
Definition JF_TO : Z := 4.
Definition JF_CC : Z := 8.
Definition JF_SPAM : Z := 16.

Record jf_source := MkSource {
  s_kind : jf_source_kind; identity : bytes; path : bytes; data : bytes }.

Record jf_rule := MkRule {
  kind : jf_kind; stage : Z; fields : Z;
  selector : bytes; predicate : bytes; action : bytes;
  logical : bytes; local : bytes; sieve : bytes;
  source : bytes; source_identity : bytes;
  line : Z; occurrence : Z; id : bytes }.

Record jf_entry := MkEntry {
  rule : jf_rule; compiled : bool; discard : bool; order : nat; input_index : Z }.

(** [struct jf_policy]: pointers into [entries] are positions, and
    [requests] is the context of the caller's allocator, the number of
    allocations asked of it so far. *)
Record jf_policy := MkPolicy {
  entries : list jf_entry; capacity : Z; requests : nat;
  index : list nat; legacy : list nat;
  bounce : option nat; spam : option nat; fallback : option nat }.

Definition set_entries (p : jf_policy) (es : list jf_entry) : jf_policy :=
  MkPolicy es (capacity p) (requests p) (index p) (legacy p) (bounce p) (spam p) (fallback p).

(** ** Code outside the sources: the allocator and POSIX regular expressions *)

(** The caller's allocator: whether the n-th request is granted. *)
Class Allocator := alloc_ok : nat -> bool.

Inductive regcomp_result := RegCompiled | RegSpace (detail : bytes) | RegBad (detail : bytes).
Inductive regexec_result := RegMatch | RegNoMatch | RegError.

(** The C library's locale and regex calls as the policy uses them: compiled
    with REG_EXTENDED, REG_ICASE and REG_NOSUB under a C locale.  A compiled
    object is determined by its pattern. *)
Class PosixRegex := {
  newlocale_ok : bool;
  uselocale_ok : bool;
  regcomp : bytes -> regcomp_result;
  regexec : bytes -> bytes -> regexec_result }.

(** [sizeof (struct jf_entry)] on x86-64 with glibc; only the overflow guard of
    [append] depends on it. *)
Definition sizeof_entry : Z := 264.

(** The uninitialised block of a hash object on the stack. *)
Definition stack_block : bytes := replicate 64 0.

Section Operations.
Context `{AL : Allocator} `{RX : PosixRegex}.

(** [allocate]: [None] is the null pointer. *)
Definition allocate (pol : jf_policy) : option jf_policy :=
  if alloc_ok (requests pol)
  then Some (MkPolicy (entries pol) (capacity pol) (S (requests pol)) (index pol) (legacy pol)
               (bounce pol) (spam pol) (fallback pol))
  else None.

(** [n] consecutive requests, all of which must succeed. *)
Fixpoint allocates (n : nat) (pol : jf_policy) : option jf_policy :=
  match n with
  | O => Some pol
  | S n' => pol' ← allocate pol; allocates n' pol'
  end.

(** The growth of the entry vector. *)
Definition grow (p : parser) (pol : jf_policy) : res jf_policy :=
  if zlen (entries pol) =? capacity pol then
    let cap := if capacity pol =? 0 then 32 else size_t (capacity pol * 2) in
    if (cap <? capacity pol) || (SIZE_MAX / sizeof_entry <? cap)
    then fail p "E_MEMORY" (str "policy allocation overflow")
    else match allocate pol with
         | None => fail p "E_MEMORY" (str "policy allocation failed")
         | Some pol => Ok (MkPolicy (entries pol) cap (requests pol) (index pol) (legacy pol)
                             (bounce pol) (spam pol) (fallback pol))
         end
  else Ok pol.

Definition append (p : parser) (s : option jf_source) (sel pred logical_ : bytes)
    (k : jf_kind) (st fl : Z) (pol : jf_policy) : res jf_policy :=
  pol ← grow p pol;
  let r := MkRule k st fl sel pred (str "move") logical_
    (if streq sel (str "spam") then str "zz.spam" else logical_)
    (if streq logical_ (str "known") then str "INBOX"
     else if streq sel (str "spam") then str "Spam" else logical_)
    (match s with Some s => path s | None => [] end)
    (match s with Some s => identity s | None => [] end)
    (p_line p) 1 [] in
  let e := MkEntry r false false (length (entries pol)) (p_source p) in
  match allocates 7 pol with
  | None => fail p "E_MEMORY" (str "rule allocation failed")
  | Some pol => Ok (set_entries pol (entries pol ++ [e]))
  end.

(** ** [parse_line] *)

(** A line of an address-book export: one raw mailbox. *)
Definition parse_contact (p : parser) (s : jf_source) (ln : bytes) (pol : jf_policy) : res jf_policy :=
  let text := trim_end is_blank (drop_while is_blank ln) in
  if (length text =? 0)%nat then Ok pol
  else match jf_normalize_mailbox text with
       | None => fail p "E_ADDRESS" (str "invalid exported mailbox")
       | Some text =>
           let known := bool_decide (s_kind s = JF_KNOWN) in
           append p (Some s) (if known then str "known" else str "blacklist") (fold_bytes text)
             (if known then str "known" else str "zz.blacklist") JF_ADDRESS
             (if known then 5 else 1) JF_FROM pol
       end.

(** The first word of an account record. *)
Definition account_word (ln : bytes) : bytes :=
  take_while (fun c => negb (is_blank c)) (drop_while is_blank ln).

(** A mailbox of the user: an alias line or the email field of an account. *)
Definition parse_own (p : parser) (s : jf_source) (t : list bytes) (pol : jf_policy) : res jf_policy :=
  let account := bool_decide (s_kind s = JF_ACCOUNT) in
  if negb (length t =? (if account then 2 else 1))%nat
  then fail p "E_FIELDS" (str "expected one mailbox")
  else match jf_normalize_mailbox (nth (if account then 1%nat else 0%nat) t []) with
       | None => fail p "E_ADDRESS" (str "invalid mailbox")
       | Some address => append p (Some s) (str "own") (fold_bytes address) (str "priv")
                           JF_ADDRESS 7 (Z.lor JF_TO JF_CC) pol
       end.

Definition selector_kind (t0 : bytes) : option jf_kind :=
  if streq t0 (str "known-domain") || streq t0 (str "from-domain") || streq t0 (str "to-domain")
  then Some JF_DOMAIN_APEX
  else if streq t0 (str "from-address") || streq t0 (str "to-address") then Some JF_ADDRESS
  else if streq t0 (str "from") || streq t0 (str "to") then Some JF_ERE
  else None.

(** The predicate of a filter line, checked and folded for its kind. *)
Definition filter_predicate (p : parser) (k : jf_kind) (t1 : bytes) : res (jf_kind * bytes) :=
  match k with
  | JF_DOMAIN_APEX =>
      let sub := has_prefix (str "*.") t1 in
      if negb (jf_valid_domain (if sub then drop 2 t1 else t1))
      then fail p "E_DOMAIN" (str "invalid ASCII domain")
      else Ok (if sub then JF_DOMAIN_SUBDOMAINS else JF_DOMAIN_APEX, fold_bytes t1)
  | JF_ADDRESS =>
      match jf_normalize_mailbox t1 with
      | None => fail p "E_ADDRESS" (str "invalid exact mailbox")
      | Some t1 => Ok (JF_ADDRESS, fold_bytes t1)
      end
  | _ => Ok (k, t1)
  end.

(** A line of Filters.txt. *)
Definition parse_filter (p : parser) (s : jf_source) (t : list bytes) (pol : jf_policy) : res jf_policy :=
  let t0 := nth 0 t [] in let t1 := nth 1 t [] in let t2 := nth 2 t [] in let t3 := nth 3 t [] in
  let known := streq t0 (str "known-domain") in
  let is_from := has_prefix (str "from") t0 in
  match selector_kind t0 with
  | None => fail p "E_SELECTOR" t0
  | Some k =>
      if negb (length t =? (if known then 2 else 4))%nat
      then fail p "E_FIELDS" (str "wrong rule field count")
      else if (length t1 =? 0)%nat then fail p "E_PREDICATE" (str "empty predicate")
      else if negb known && negb (streq t2 (str "move")) && negb (streq t2 (str "save"))
      then fail p "E_ACTION" t2
      else if negb known && negb (destination t3)
      then fail p "E_DESTINATION" (str "invalid relative destination")
      else
        '(k, t1) ← filter_predicate p k t1;
        append p (Some s) t0 t1 (if known then str "known" else t3) k
          (if known then 5 else if is_from then 3 else 4)
          (if known then JF_FROM else if is_from then Z.lor JF_FROM JF_SENDER else Z.lor JF_TO JF_CC)
          pol
  end.

Definition parse_line (p : parser) (s : jf_source) (ln : bytes) (pol : jf_policy) : res jf_policy :=
  match s_kind s with
  | JF_KNOWN | JF_BLACKLIST => parse_contact p s ln pol
  | _ =>
      if bool_decide (s_kind s = JF_ACCOUNT) && negb (streq (account_word ln) (str "email"))
      then Ok pol
      else
        t ← lex p ln;
        if (length t =? 0)%nat then Ok pol
        else if bool_decide (s_kind s = JF_FILTERS) then parse_filter p s t pol
        else parse_own p s t pol
  end.

End Operations.

(** ** A concrete allocator and regular expression engine for the examples *)

Definition ample : Allocator := fun _ => true.

Fixpoint contains (needle s : bytes) : bool :=
  has_prefix needle s || match s with [] => false | _ :: t => contains needle t end.

(** Fixed strings, ignoring ASCII case; an opening bracket is rejected. *)
Definition fixed_strings : PosixRegex :=
  {| newlocale_ok := true; uselocale_ok := true;
     regcomp p := if mem (ch "[") p then RegBad (str "Unmatched [") else RegCompiled;
     regexec p s := if contains (fold_bytes p) (fold_bytes s) then RegMatch else RegNoMatch |}.
