(* ===== verification/Resolve.v ===== *)
(** * Rule resolution (src/filter/policy.c)

    The comparators [resolve] sorts by, its two grouping passes over the sorted
    reference array, the identifiers, and the set of definitions in force they
    produce. *)
From S2P Require Import Prelude Sha256 Utf8 Mailbox Lexer Rules.

(** ** Comparators *)

Definition compare_key (a b : jf_rule) : comparison :=
  cmp_then (strcmp (selector a) (selector b)) (strcmp (predicate a) (predicate b)).

Definition compare_records (x y : jf_entry) : comparison :=
  cmp_then (compare_key (rule x) (rule y))
    (cmp_then (strcmp (logical (rule x)) (logical (rule y)))
      (cmp_then (strcmp (source_identity (rule x)) (source_identity (rule y)))
        (Nat.compare (order x) (order y)))).

Definition compare_keys (x y : jf_entry) : comparison :=
  cmp_then (compare_key (rule x) (rule y)) (Nat.compare (order x) (order y)).

Definition compare_order (x y : jf_entry) : comparison :=
  if negb (stage (rule x) =? stage (rule y)) then stage (rule x) ?= stage (rule y)
  else if (stage (rule x) =? 5) && negb (bool_decide (kind (rule x) = kind (rule y))) &&
          bool_decide (kind (rule x) = JF_ADDRESS) then Lt
  else if (stage (rule x) =? 5) && negb (bool_decide (kind (rule x) = kind (rule y))) &&
          bool_decide (kind (rule y) = JF_ADDRESS) then Gt
  else Nat.compare (order x) (order y).

(** ** Resolution *)

(** [refs[i]] dereferenced: the entry at a position. *)
Definition no_rule : jf_rule := MkRule JF_ALWAYS 0 0 [] [] [] [] [] [] [] [] 0 0 [].
Definition entry_at (es : list jf_entry) (i : nat) : jf_entry :=
  nth i es (MkEntry no_rule false false 0 0).

Definition set_occurrence (n : Z) (e : jf_entry) : jf_entry :=
  let r := rule e in
  MkEntry (MkRule (kind r) (stage r) (fields r) (selector r) (predicate r) (action r)
             (logical r) (local r) (sieve r) (source r) (source_identity r) (line r) n (id r))
    (compiled e) (discard e) (order e) (input_index e).
Definition set_id (i : bytes) (e : jf_entry) : jf_entry :=
  let r := rule e in
  MkEntry (MkRule (kind r) (stage r) (fields r) (selector r) (predicate r) (action r)
             (logical r) (local r) (sieve r) (source r) (source_identity r) (line r) (occurrence r) i)
    (compiled e) (discard e) (order e) (input_index e).
Definition set_discard (e : jf_entry) : jf_entry :=
  MkEntry (rule e) (compiled e) true (order e) (input_index e).
Definition set_compiled (e : jf_entry) : jf_entry :=
  MkEntry (rule e) true (discard e) (order e) (input_index e).

(** The sorted index of resolve, as positions. *)
Definition sort_refs (cmp : jf_entry -> jf_entry -> comparison) (es : list jf_entry) : list nat :=
  qsort (fun i j => cmp (entry_at es i) (entry_at es j)) (seq 0 (length es)).

(** The condition of the first grouping loop. *)
Definition same_record (es : list jf_entry) (i j : nat) : bool :=
  is_eq (compare_key (rule (entry_at es i)) (rule (entry_at es j))) &&
  streq (logical (rule (entry_at es i))) (logical (rule (entry_at es j))) &&
  streq (source_identity (rule (entry_at es i))) (source_identity (rule (entry_at es j))).

Definition same_key (es : list jf_entry) (i j : nat) : bool :=
  is_eq (compare_key (rule (entry_at es i)) (rule (entry_at es j))).

(** [refs[j]->rule.occurrence = j-i+1] for the members of a group after its
    first. *)
Fixpoint number_group (n : Z) (g : list nat) (es : list jf_entry) : list jf_entry :=
  match g with
  | [] => es
  | i :: g' => number_group (n + 1) g' (alter (set_occurrence n) i es)
  end.

Definition number_groups (groups : list (list nat)) (es : list jf_entry) : list jf_entry :=
  fold_left (fun es g => number_group 2 (tail g) es) groups es.

Definition contact_selector (s : bytes) : bool :=
  streq s (str "own") || streq s (str "known") || streq s (str "blacklist").

(** The members of a group of equal keys that are discarded: contacts keep the
    first definition, routes the last. *)
Definition losers (es : list jf_entry) (g : list nat) : list nat :=
  if contact_selector (selector (rule (entry_at es (hd 0%nat g)))) then tail g else removelast g.

Definition discard_groups (groups : list (list nat)) (es : list jf_entry) : list jf_entry :=
  fold_left (fun es g => fold_left (fun es i => alter set_discard i es) (losers es g) es) groups es.

Definition builtin_selector (s : bytes) : bool :=
  streq s (str "bounce") || streq s (str "spam") || streq s (str "unsorted").

(** The hash of the identifying text: [jf_sha256_update] once per field, with
    its terminator except for the last. *)
Definition identify_hash (chunks : list bytes) : bytes :=
  jf_sha256_hex (updates (jf_sha256_init stack_block) chunks).

Definition identify_chunks (r : jf_rule) : list bytes :=
  [selector r ++ [0]; predicate r ++ [0]; action r ++ [0]; logical r ++ [0];
   source_identity r ++ [0]; decimal_of (occurrence r)].

Definition identify (r : jf_rule) : bytes :=
  if builtin_selector (selector r) then str "builtin:" ++ selector r
  else if contact_selector (selector r)
  then selector r ++ str ":" ++ identify_hash [predicate r]
  else str "r:" ++ identify_hash (identify_chunks r).

Section Resolve.
Context `{AL : Allocator} `{RX : PosixRegex}.

(** The last loop: identifiers and compiled expressions, in resolved order. *)
Fixpoint finish_entries (p : parser) (es : list jf_entry) : res (list jf_entry) :=
  match es with
  | [] => Ok []
  | e :: t =>
      let e := set_id (identify (rule e)) e in
      e ← (if bool_decide (kind (rule e) = JF_ERE) then
             if negb uselocale_ok then
               fail p "E_MEMORY" (str "cannot select C regex locale")
             else
               let p := MkParser (input_index e) (line (rule e)) in
               match regcomp (predicate (rule e)) with
               | RegCompiled => Ok (set_compiled e)
               | RegSpace d => fail p "E_MEMORY" d
               | RegBad d => fail p "E_REGEX" d
               end
           else Ok e);
      t ← finish_entries p t;
      Ok (e :: t)
  end.

(** The deterministic part between the index allocation and the limit check. *)
Definition discard_overridden (es : list jf_entry) : list jf_entry :=
  let es1 := number_groups (runs (same_record es) (sort_refs compare_records es)) es in
  let es2 := discard_groups (runs (same_key es1) (sort_refs compare_keys es1)) es1 in
  List.filter (fun e => negb (discard e)) es2.

Definition resolve (p : parser) (pol : jf_policy) : res jf_policy :=
  if SIZE_MAX / 8 <? zlen (entries pol)
  then fail p "E_MEMORY" (str "index allocation overflow")
  else match allocate pol with
       | None => fail p "E_MEMORY" (str "index allocation failed")
       | Some pol =>
           let es := discard_overridden (entries pol) in
           if JF_RULE_MAX <? size_t (zlen es - JF_BUILTIN_RULES) then
             let e := entry_at es (Z.to_nat JF_RULE_MAX) in
             fail (MkParser (input_index e) (line (rule e))) "E_RULE_LIMIT"
               (str "too many effective rules/contact predicates")
           else
             es ← finish_entries p (qsort compare_order es);
             Ok (set_entries pol es)
       end.
End Resolve.

(** ** The comparators are total preorders *)

#[export] Instance compare_key_comparator : Comparator compare_key.
Proof. unfold compare_key. solve_comparator. Qed.

(** [compare_records] before its final tie-break. *)
Definition record_key (a b : jf_rule) : comparison :=
  cmp_then (compare_key a b)
    (cmp_then (strcmp (logical a) (logical b)) (strcmp (source_identity a) (source_identity b))).

#[export] Instance record_key_comparator : Comparator record_key.
Proof.
  unfold record_key. apply (cmp_then_comparator compare_key _ (fun r => r)).
Qed.

(** The resolved order: stage, exact known addresses before known domains, then
    source order. *)
Definition known_rank (r : jf_rule) : Z :=
  if stage r =? 5 then if bool_decide (kind r = JF_ADDRESS) then 0 else 1 else 0.

Lemma compare_order_rank x y :
  compare_order x y =
  cmp_then (stage (rule x) ?= stage (rule y))
    (cmp_then (known_rank (rule x) ?= known_rank (rule y)) (Nat.compare (order x) (order y))).
Proof.
  unfold compare_order, known_rank.
  destruct (stage (rule x) =? stage (rule y)) eqn:E; cbn [negb].
  - apply Z.eqb_eq in E as E'. rewrite E', Z.compare_refl. cbn [cmp_then].
    destruct (stage (rule y) =? 5); [|reflexivity]. cbn [andb].
    do 3 case_bool_decide; cbn; try reflexivity; congruence.
  - apply Z.eqb_neq in E. destruct (Z.compare_spec (stage (rule x)) (stage (rule y))); easy.
Qed.

#[export] Instance compare_order_comparator : Comparator compare_order.
Proof.
  assert (H : Comparator (fun x y => cmp_then (stage (rule x) ?= stage (rule y))
    (cmp_then (known_rank (rule x) ?= known_rank (rule y)) (Nat.compare (order x) (order y)))))
    by solve_comparator.
  split; intros *; rewrite !compare_order_rank; apply H.
Qed.

(** ** Groups of the sorted index, as position sets *)

Section Groups.
Context (kc : nat -> nat -> comparison) `{!Comparator kc} (n : nat).

Let refs : list nat := qsort (fun i j => cmp_then (kc i j) (Nat.compare i j)) (seq 0 n).
Let groups : list (list nat) := runs (fun i j => is_eq (kc i j)) refs.

Local Instance refs_comparator : Comparator (fun i j => cmp_then (kc i j) (Nat.compare i j)).
Proof. apply (cmp_then_comparator kc Nat.compare (fun i => i)). Qed.

Lemma refs_perm : refs ≡ₚ seq 0 n.
Proof. apply qsort_perm. Qed.

Lemma refs_sorted : StronglySorted (cmp_le (fun i j => cmp_then (kc i j) (Nat.compare i j))) refs.
Proof. apply qsort_sorted, _. Qed.

Lemma refs_key_sorted : StronglySorted (cmp_le kc) refs.
Proof.
  eapply sorted_weaken; [|exact refs_sorted].
  unfold cmp_le. intros i j. destruct (kc i j); easy.
Qed.

(** A group is the set of positions equal to any of its members, in order. *)
Lemma group_members g z :
  g ∈ groups -> z ∈ g -> g = List.filter (fun j => is_eq (kc z j)) (seq 0 n).
Proof.
  intros Hg Hz.
  pose proof (runs_group kc refs g z refs_key_sorted Hg Hz) as ->.
  apply (sorted_perm_unique Nat.compare).
  - intros x y _ _ H. now apply Nat.compare_eq.
  - assert (H : StronglySorted (cmp_le (fun i j => cmp_then (kc i j) (Nat.compare i j)))
              (List.filter (fun j => is_eq (kc z j)) refs)) by (apply sorted_filter, refs_sorted).
    assert (Hc : Forall (fun j => kc z j = Eq) (List.filter (fun j => is_eq (kc z j)) refs)).
    { apply List.Forall_forall. intros j [_ Hj]%filter_In. now apply is_eq_true. }
    clear Hg Hz. induction H as [|i l _ IH Hi]; constructor.
    + apply IH. now inversion Hc.
    + inversion Hc as [|? ? Hzi Hcl]; subst. rewrite Forall_forall in *.
      intros j Hj. specialize (Hi j Hj). specialize (Hcl j Hj). cbv beta in *.
      unfold cmp_le in *. rewrite <- (cmp_eq (cmp:=kc) z i j Hzi), Hcl in Hi. exact Hi.
  - apply sorted_filter. eapply sorted_weaken; [|apply seq_sorted].
    intros x y H. unfold cmp_le. rewrite Nat.compare_gt_iff. lia.
  - apply filter_perm, refs_perm.
Qed.
End Groups.

(** ** What resolution keeps, by position *)

(** Earlier entries with the selector, predicate, destination and source of the
    entry at [i]. *)
Definition rank (es : list jf_entry) (i : nat) : Z :=
  zlen (List.filter (fun j => same_record es i j) (seq 0 i)).

(** Contacts keep their first definition, every other rule its last. *)
Definition lost (es : list jf_entry) (i : nat) : bool :=
  if contact_selector (selector (rule (entry_at es i)))
  then existsb (same_key es i) (seq 0 i)
  else existsb (same_key es i) (seq (S i) (length es - S i)).

Definition survivor (es : list jf_entry) (i : nat) : option jf_entry :=
  if lost es i then None else Some (set_occurrence (1 + rank es i) (entry_at es i)).

(** The entries of a parsed policy know their position and are not yet
    numbered. *)
Definition fresh (es : list jf_entry) : Prop :=
  forall i e, es !! i = Some e -> order e = i /\ occurrence (rule e) = 1 /\ discard e = false.

Section GroupSplit.
Context (kc : nat -> nat -> comparison) `{!Comparator kc} (n : nat).

Let refs : list nat := qsort (fun i j => cmp_then (kc i j) (Nat.compare i j)) (seq 0 n).
Let groups : list (list nat) := runs (fun i j => is_eq (kc i j)) refs.

Lemma groups_nodup : NoDup (concat groups).
Proof.
  unfold groups, refs. rewrite (runs_concat kc). rewrite (refs_perm kc n). apply NoDup_seq.
Qed.

Lemma groups_cover i : (i < n)%nat -> exists g, g ∈ groups /\ i ∈ g.
Proof.
  intros Hi. assert (H : i ∈ concat groups).
  { unfold groups, refs. rewrite (runs_concat kc), (refs_perm kc n). apply elem_of_seq. lia. }
  apply list_elem_of_In, in_concat in H as (g & Hg & Hig). exists g. now rewrite !list_elem_of_In.
Qed.

Lemma group_split g i :
  g ∈ groups -> i ∈ g ->
  g = List.filter (fun j => is_eq (kc i j)) (seq 0 i) ++
      i :: List.filter (fun j => is_eq (kc i j)) (seq (S i) (n - S i)).
Proof.
  intros Hg Hi. pose proof (group_members kc n g i Hg Hi) as E.
  assert (Hin : (i < n)%nat).
  { rewrite E in Hi. apply list_elem_of_In, filter_In in Hi as [Hi%in_seq _]. lia. }
  rewrite E. replace (seq 0 n) with (seq 0 i ++ i :: seq (S i) (n - S i)).
  - rewrite List.filter_app. cbn [List.filter]. now rewrite (cmp_refl kc i).
  - change (i :: seq (S i) (n - S i)) with (seq i (S (n - S i))).
    symmetry. transitivity (seq 0 (i + S (n - S i))); [f_equal; lia | apply seq_app].
Qed.
End GroupSplit.

(** A pass over disjoint groups, seen at one position. *)
Lemma fold_groups_lookup {E} (upd : list E -> list nat -> list E) (F : E -> E) groups g i es :
  (forall es g j, j ∉ g -> upd es g !! j = es !! j) ->
  (forall es', es' !! i = es !! i -> upd es' g !! i = F <$> es !! i) ->
  NoDup (concat groups) -> g ∈ groups -> i ∈ g ->
  fold_left upd groups es !! i = F <$> es !! i.
Proof.
  intros Hout Hin Hnd Hg Hi.
  assert (Hskip : forall gs es, i ∉ concat gs -> fold_left upd gs es !! i = es !! i).
  { clear -Hout. induction gs as [|h gs IH]; intros es H; [reflexivity|].
    cbn [concat] in H. rewrite elem_of_app in H. cbn [fold_left].
    rewrite IH by tauto. apply Hout. tauto. }
  apply list_elem_of_split in Hg as (g1 & g2 & ->).
  rewrite concat_app in Hnd. cbn [concat] in Hnd.
  apply NoDup_app in Hnd as (_ & Hd1 & Hnd). apply NoDup_app in Hnd as (_ & Hd2 & _).
  rewrite fold_left_app. cbn [fold_left]. rewrite Hskip by (now apply Hd2).
  apply Hin, Hskip. intros Hi1. apply (Hd1 i Hi1), elem_of_app. now left.
Qed.

Lemma number_group_out m g es j : j ∉ g -> number_group m g es !! j = es !! j.
Proof.
  revert m es. induction g as [|i g IH]; intros m es H; cbn [number_group]; [reflexivity|].
  rewrite elem_of_cons in H. rewrite IH by tauto. apply list_lookup_alter_ne. intuition.
Qed.

Lemma number_group_in m pre i post es :
  i ∉ pre -> i ∉ post ->
  number_group m (pre ++ i :: post) es !! i = set_occurrence (m + zlen pre) <$> es !! i.
Proof.
  revert m es. induction pre as [|j pre IH]; intros m es H1 H2; cbn [number_group app].
  - rewrite number_group_out by exact H2. rewrite list_lookup_alter_eq.
    unfold zlen. cbn [length]. f_equal. f_equal. lia.
  - rewrite elem_of_cons in H1. rewrite IH by tauto.
    rewrite list_lookup_alter_ne by intuition.
    unfold zlen. cbn [length]. f_equal. f_equal. lia.
Qed.

Lemma number_group_tail m pre i post es :
  i ∉ pre -> i ∉ post -> length pre <> 0%nat ->
  number_group m (tail (pre ++ i :: post)) es !! i =
  set_occurrence (m + zlen pre - 1) <$> es !! i.
Proof.
  intros H1 H2 H0. destruct pre as [|j pre]; [easy|]. cbn [app tail].
  rewrite elem_of_cons in H1. rewrite number_group_in by tauto.
  unfold zlen. cbn [length]. f_equal. f_equal. lia.
Qed.

Lemma fold_alter_out (f : jf_entry -> jf_entry) (g : list nat) (es : list jf_entry) j :
  j ∉ g -> fold_left (fun es i => alter f i es) g es !! j = es !! j.
Proof.
  revert es. induction g as [|i g IH]; intros es H; cbn [fold_left]; [reflexivity|].
  rewrite elem_of_cons in H. rewrite IH by tauto. apply list_lookup_alter_ne. intuition.
Qed.

Lemma fold_alter_in (f : jf_entry -> jf_entry) (g : list nat) (es : list jf_entry) j :
  NoDup g -> j ∈ g -> fold_left (fun es i => alter f i es) g es !! j = f <$> es !! j.
Proof.
  intros Hnd. revert es. induction Hnd as [|i g Hi _ IH]; intros es H; [now apply elem_of_nil in H|].
  cbn [fold_left]. apply elem_of_cons in H as [->|H].
  - rewrite fold_alter_out by exact Hi. apply list_lookup_alter_eq.
  - rewrite IH by exact H. rewrite list_lookup_alter_ne; [reflexivity|]. congruence.
Qed.

(** The two grouping conditions as comparators on positions. *)
Definition record_at (es : list jf_entry) (i j : nat) : comparison :=
  record_key (rule (entry_at es i)) (rule (entry_at es j)).
Definition key_at (es : list jf_entry) (i j : nat) : comparison :=
  compare_key (rule (entry_at es i)) (rule (entry_at es j)).

#[export] Instance record_at_comparator es : Comparator (record_at es).
Proof. apply (on_comparator record_key). Qed.
#[export] Instance key_at_comparator es : Comparator (key_at es).
Proof. apply (on_comparator compare_key). Qed.

Lemma same_record_at es i j : same_record es i j = is_eq (record_at es i j).
Proof.
  unfold same_record, record_at, record_key, streq.
  destruct (compare_key _ _); cbn; try reflexivity.
  destruct (strcmp (logical _) _); reflexivity.
Qed.

Lemma entry_at_lookup es i : (i < length es)%nat -> es !! i = Some (entry_at es i).
Proof.
  intros H. destruct (es !! i) as [e|] eqn:E.
  - f_equal. unfold entry_at. rewrite nth_lookup, E. reflexivity.
  - apply lookup_ge_None in E. lia.
Qed.

Definition ordered (es : list jf_entry) : Prop :=
  forall i, (i < length es)%nat -> order (entry_at es i) = i.

Lemma fresh_ordered es : fresh es -> ordered es.
Proof. intros H i Hi. now apply (H i), entry_at_lookup. Qed.

Lemma sort_records es : ordered es ->
  sort_refs compare_records es =
  qsort (fun i j => cmp_then (record_at es i j) (Nat.compare i j)) (seq 0 (length es)).
Proof.
  intros H. apply qsort_ext. intros i j Hi%elem_of_seq Hj%elem_of_seq.
  unfold compare_records, record_at, record_key. rewrite !H by lia.
  now destruct (compare_key _ _), (strcmp (logical _) _).
Qed.

Lemma sort_keys es : ordered es ->
  sort_refs compare_keys es =
  qsort (fun i j => cmp_then (key_at es i j) (Nat.compare i j)) (seq 0 (length es)).
Proof.
  intros H. apply qsort_ext. intros i j Hi%elem_of_seq Hj%elem_of_seq.
  unfold compare_keys, key_at. now rewrite !H by lia.
Qed.

Lemma filter_elem (f : nat -> bool) a n i : i ∈ List.filter f (seq a n) -> (a <= i < a + n)%nat.
Proof. intros [H _]%list_elem_of_In%filter_In. now apply in_seq in H. Qed.

Lemma rank_record_at es i :
  rank es i = zlen (List.filter (fun j => is_eq (record_at es i j)) (seq 0 i)).
Proof.
  unfold rank. f_equal. apply List.filter_ext. intros j. apply same_record_at.
Qed.

(** The first pass numbers the members of each group in source order. *)
Lemma number_pass es i : fresh es -> (i < length es)%nat ->
  number_groups (runs (same_record es) (sort_refs compare_records es)) es !! i =
  Some (set_occurrence (1 + rank es i) (entry_at es i)).
Proof.
  intros Hf Hi. rewrite (sort_records es (fresh_ordered es Hf)).
  rewrite (runs_ext _ (fun i j => is_eq (record_at es i j)))
    by (intros; apply same_record_at).
  destruct (groups_cover (record_at es) (length es) i Hi) as (g & Hg & Hig).
  pose proof (groups_nodup (record_at es) (length es)) as Hnd.
  unfold number_groups.
  rewrite (fold_groups_lookup _ (set_occurrence (1 + rank es i)) _ g i es); auto.
  - now rewrite (entry_at_lookup es i Hi).
  - intros es' g' j Hj. apply number_group_out. intros H. apply Hj. now destruct g'; [|right].
  - intros es' He. rewrite (group_split (record_at es) (length es) g i Hg Hig), rank_record_at.
    set (pre := List.filter _ (seq 0 i)). set (post := List.filter _ _).
    assert (Hpre : i ∉ pre) by (intros H%filter_elem; lia).
    assert (Hpost : i ∉ post) by (intros H%filter_elem; lia).
    destruct (decide (length pre = 0%nat)) as [H0|H0].
    + apply nil_length_inv in H0. rewrite H0. cbn [app tail].
      rewrite number_group_out, He, (entry_at_lookup es i Hi) by exact Hpost.
      cbn. f_equal. pose proof (Hf i _ (entry_at_lookup es i Hi)) as (_ & Ho & _).
      unfold set_occurrence. change (1 + zlen []) with 1. rewrite <- Ho.
      destruct (entry_at es i) as [[] ? ? ? ?]. reflexivity.
    + rewrite number_group_tail, He by assumption. do 2 f_equal. lia.
Qed.

(** The second pass reads only the keys, which neither pass changes. *)
Definition key_of (e : jf_entry) : bytes * bytes := (selector (rule e), predicate (rule e)).
Definition same_keys (es es' : list jf_entry) : Prop := map key_of es = map key_of es'.

Lemma same_keys_at es es' i :
  same_keys es es' -> key_of (entry_at es i) = key_of (entry_at es' i).
Proof.
  intros H. unfold entry_at. rewrite <- !(map_nth key_of). now rewrite H.
Qed.

Lemma same_keys_length es es' : same_keys es es' -> length es = length es'.
Proof. intros H. rewrite <- (length_map key_of es), H. apply length_map. Qed.

Lemma same_keys_compare es es' i j : same_keys es es' -> key_at es i j = key_at es' i j.
Proof.
  intros H. pose proof (same_keys_at es es' i H) as [= Hi1 Hi2].
  pose proof (same_keys_at es es' j H) as [= Hj1 Hj2].
  unfold key_at, compare_key. now rewrite Hi1, Hi2, Hj1, Hj2.
Qed.

Lemma same_keys_losers es es' g : same_keys es es' -> losers es g = losers es' g.
Proof.
  intros H. unfold losers. pose proof (same_keys_at es es' (hd 0%nat g) H) as [= E _].
  now rewrite E.
Qed.

Lemma fold_alter_keys g es :
  same_keys (fold_left (fun es i => alter set_discard i es) g es) es.
Proof.
  revert es. induction g as [|i g IH]; intros es; cbn [fold_left]; [reflexivity|].
  unfold same_keys. rewrite IH. clear. revert i. induction es as [|e es IH]; intros [|i]; cbn; auto.
  f_equal. apply IH.
Qed.

Lemma discard_groups_fixed gs es es' :
  same_keys es es' ->
  discard_groups gs es' =
  fold_left (fun es' g => fold_left (fun es' i => alter set_discard i es') (losers es g) es') gs es'.
Proof.
  unfold discard_groups. revert es'. induction gs as [|g gs IH]; intros es' H; [reflexivity|].
  cbn [fold_left]. rewrite <- (same_keys_losers es es' g H). apply IH.
  unfold same_keys in *. now rewrite fold_alter_keys.
Qed.

(** Membership in the discarded part of the group of [i]. *)
Lemma existsb_filter {A} (f : A -> bool) l : existsb f l = negb (length (List.filter f l) =? 0)%nat.
Proof. induction l as [|x l IH]; cbn; [reflexivity|]. destruct (f x); [reflexivity|exact IH]. Qed.

Lemma losers_at es g i :
  g ∈ runs (fun i j => is_eq (key_at es i j))
        (qsort (fun i j => cmp_then (key_at es i j) (Nat.compare i j)) (seq 0 (length es))) ->
  i ∈ g -> (i ∈ losers es g <-> lost es i = true) /\ NoDup (losers es g).
Proof.
  intros Hg Hi. pose proof (group_split (key_at es) (length es) g i Hg Hi) as E.
  assert (Hsel : selector (rule (entry_at es (hd 0%nat g))) = selector (rule (entry_at es i))).
  { assert (Hh : hd 0%nat g ∈ g) by (destruct g; [now apply elem_of_nil in Hi|left]).
    rewrite (group_members (key_at es) (length es) g i Hg Hi) in Hh at 2.
    apply list_elem_of_In, filter_In in Hh as [_ Hh]. apply is_eq_true in Hh.
    unfold key_at, compare_key in Hh.
    destruct (strcmp _ _) eqn:Es in Hh; try discriminate.
    now apply strcmp_eq in Es. }
  assert (Hnd : NoDup g).
  { rewrite (group_members (key_at es) (length es) g i Hg Hi).
    apply NoDup_ListNoDup, List.NoDup_filter, NoDup_ListNoDup, NoDup_seq. }
  unfold losers, lost. rewrite Hsel. rewrite !existsb_filter. unfold same_key.
  change (fun j => is_eq (compare_key (rule (entry_at es i)) (rule (entry_at es j))))
    with (fun j => is_eq (key_at es i j)).
  set (pre := List.filter _ (seq 0 i)) in *. set (post := List.filter _ (seq (S i) _)) in *.
  rewrite E in Hnd |- *.
  pose proof Hnd as (Hn1 & Hd & Hn2)%NoDup_app. inversion Hn2 as [|? ? Hpost Hn3]; subst.
  assert (Hpre : i ∉ pre) by (intros H; apply (Hd i H); left).
  destruct (contact_selector _).
  - destruct pre as [|j pre]; cbn [app tail].
    + split; [split; [easy|discriminate]|exact Hn3].
    + cbn [app] in Hnd. inversion Hnd. split; [|assumption].
      cbn. split; [reflexivity|]. intros _. rewrite elem_of_app. right. left.
  - destruct post as [|j post _] using rev_ind.
    + rewrite removelast_last. split; [split; [easy|discriminate]|exact Hn1].
    + rewrite app_comm_cons, app_assoc, removelast_last. split.
      * rewrite length_app, Nat.add_comm. cbn. split; [reflexivity|]. intros _.
        apply elem_of_app. right. left.
      * rewrite app_comm_cons, app_assoc in Hnd. now apply NoDup_app in Hnd as [Hnd _].
Qed.

Lemma discard_pass es es1 i :
  ordered es1 -> same_keys es es1 -> (i < length es)%nat ->
  discard_groups (runs (same_key es1) (sort_refs compare_keys es1)) es1 !! i =
  (fun e => if lost es i then set_discard e else e) <$> es1 !! i.
Proof.
  intros Ho Hk Hi. rewrite (sort_keys es1 Ho), <- (same_keys_length _ _ Hk).
  rewrite (discard_groups_fixed _ es es1 Hk).
  assert (Hc : forall i j, key_at es1 i j = key_at es i j)
    by (intros; symmetry; now apply same_keys_compare).
  rewrite (runs_ext _ (fun i j => is_eq (key_at es i j))) by (intros x y _ _; unfold same_key; now rewrite <- Hc).
  rewrite (qsort_ext _ (fun i j => cmp_then (key_at es i j) (Nat.compare i j))) by (intros x y _ _; now rewrite Hc).
  destruct (groups_cover (key_at es) (length es) i Hi) as (g & Hg & Hig).
  pose proof (groups_nodup (key_at es) (length es)) as Hnd.
  destruct (losers_at es g i Hg Hig) as [Hl Hn].
  apply (fold_groups_lookup _ _ _ g i es1); auto.
  - intros es' g' j Hj. apply fold_alter_out. intros H. apply Hj. unfold losers in H.
    destruct (contact_selector _) in H.
    + now destruct g'; [|right].
    + destruct g' as [|x g' _] using rev_ind; [easy|]. rewrite removelast_last in H.
      apply elem_of_app. now left.
  - intros es' <-. destruct (lost es i) eqn:E.
    + apply fold_alter_in; [exact Hn|]. now apply Hl.
    + rewrite fold_alter_out by (rewrite Hl; discriminate). now destruct (es' !! i).
Qed.

Lemma length_number_groups gs es : length (number_groups gs es) = length es.
Proof.
  unfold number_groups. revert es. induction gs as [|g gs IH]; intros es; [reflexivity|].
  cbn [fold_left]. rewrite IH. generalize 2, (tail g). clear. intros n l. revert n es.
  induction l as [|i l IH]; intros n es; cbn; [reflexivity|]. rewrite IH. apply length_alter.
Qed.

Lemma length_discard_groups gs es : length (discard_groups gs es) = length es.
Proof.
  unfold discard_groups. revert es. induction gs as [|g gs IH]; intros es; [reflexivity|].
  cbn [fold_left]. rewrite IH. generalize (losers es g). clear. intros l. revert es.
  induction l as [|i l IH]; intros es; cbn; [reflexivity|]. rewrite IH. apply length_alter.
Qed.

Lemma list_as_seq {A} (l : list A) (f : nat -> A) :
  (forall i, (i < length l)%nat -> l !! i = Some (f i)) -> l = map f (seq 0 (length l)).
Proof.
  intros H. apply list_eq. intros i. destruct (decide (i < length l)%nat) as [Hi|Hi].
  - rewrite (H i Hi). symmetry. rewrite list_lookup_fmap.
    rewrite lookup_seq_lt by exact Hi. reflexivity.
  - rewrite !lookup_ge_None_2; [reflexivity| |lia]. rewrite length_map, length_seq. lia.
Qed.

(** Resolution keeps, in source order, exactly the surviving definitions, each
    with its occurrence number. *)
Lemma discard_overridden_spec es :
  fresh es -> discard_overridden es = omap (survivor es) (seq 0 (length es)).
Proof.
  intros Hf. unfold discard_overridden.
  set (es1 := number_groups _ es).
  assert (L1 : length es1 = length es) by apply length_number_groups.
  assert (E1 : forall i, (i < length es)%nat ->
            es1 !! i = Some (set_occurrence (1 + rank es i) (entry_at es i)))
    by (intros; now apply number_pass).
  assert (Ho : ordered es1).
  { intros i Hi. rewrite L1 in Hi. pose proof (E1 i Hi) as E.
    rewrite (entry_at_lookup es1 i) in E by lia. injection E as ->.
    now apply (fresh_ordered es Hf). }
  assert (Hk : same_keys es es1).
  { unfold same_keys. rewrite (list_as_seq es1 (fun i => set_occurrence (1 + rank es i) (entry_at es i)))
      by (rewrite L1; exact E1).
    rewrite (list_as_seq es (entry_at es)) at 1 by (intros; now apply entry_at_lookup).
    rewrite L1, !map_map. apply map_ext. reflexivity. }
  set (es2 := discard_groups _ es1).
  assert (L2 : length es2 = length es) by (unfold es2; now rewrite length_discard_groups).
  rewrite (list_as_seq es2 (fun i => (if lost es i then set_discard else (fun e => e))
             (set_occurrence (1 + rank es i) (entry_at es i)))).
  2:{ intros i Hi. rewrite L2 in Hi. unfold es2. rewrite (discard_pass es es1 i Ho Hk Hi), E1 by exact Hi.
      cbn. now destruct (lost es i). }
  rewrite L2. pose proof Hf as Hf'. clear -Hf.
  assert (Hd : forall i, i ∈ seq 0 (length es) -> discard (entry_at es i) = false).
  { intros i Hi%elem_of_seq. apply (Hf i), entry_at_lookup. lia. }
  revert Hd. generalize (seq 0 (length es)). induction l as [|i l IH]; intros Hd; [reflexivity|].
  cbn [map List.filter omap list_omap]. rewrite IH by (intros; apply Hd; now right).
  replace (survivor es i) with (if lost es i then None else
    Some (set_occurrence (1 + rank es i) (entry_at es i))) by reflexivity.
  destruct (lost es i); cbn; [reflexivity|]. rewrite (Hd i) by left. reflexivity.
Qed.

(** ** The outcome of [resolve] *)

Lemma lost_elem es i : (i < length es)%nat ->
  lost es i = true <->
  exists j, (j < length es)%nat /\ key_of (entry_at es j) = key_of (entry_at es i) /\
    (if contact_selector (selector (rule (entry_at es i))) then (j < i)%nat else (i < j)%nat).
Proof.
  intros Hi.
  assert (Hk : forall j, same_key es i j = true <-> key_of (entry_at es j) = key_of (entry_at es i)).
  { intros j. unfold same_key, key_of, compare_key. rewrite is_eq_true. split.
    - intros H. destruct (strcmp (selector _) _) eqn:E1 in H; try discriminate.
      apply strcmp_eq in E1. cbn in H. apply strcmp_eq in H. congruence.
    - intros [= H1 H2]. rewrite H1, H2. now rewrite !(proj2 (strcmp_eq _ _) eq_refl). }
  unfold lost. destruct (contact_selector _); rewrite existsb_exists;
    (split; [intros (j & Hj%in_seq & H); exists j; rewrite <- Hk; repeat split; [lia|exact H|lia]
            |intros (j & Hl & H & Hj); exists j; rewrite Hk; split; [apply in_seq; lia|exact H]]).
Qed.

(** No two survivors share a selector and predicate. *)
Lemma survivors_unique es i j :
  (i < length es)%nat -> (j < length es)%nat -> lost es i = false -> lost es j = false ->
  key_of (entry_at es i) = key_of (entry_at es j) -> i = j.
Proof.
  assert (Hw : forall i j, (i < length es)%nat -> (j < length es)%nat -> (i < j)%nat ->
            key_of (entry_at es i) = key_of (entry_at es j) -> lost es i = true \/ lost es j = true).
  { clear i j. intros i j Hi Hj Hij Hk.
    assert (Hs : selector (rule (entry_at es i)) = selector (rule (entry_at es j)))
      by now injection Hk.
    destruct (contact_selector (selector (rule (entry_at es i)))) eqn:Ec; [right|left];
      apply lost_elem; [exact Hj| |exact Hi|]; [exists i|exists j]; repeat split;
      try assumption; try (now rewrite Hk); [rewrite <- Hs, Ec; lia|rewrite Ec; lia]. }
  intros Hi Hj Li Lj Hk. destruct (Nat.lt_total i j) as [H|[H|H]]; [exfalso| exact H |exfalso].
  - destruct (Hw i j Hi Hj H Hk); congruence.
  - destruct (Hw j i Hj Hi H (eq_sym Hk)); congruence.
Qed.

(** Every definition is represented by a survivor of its key. *)
Lemma survivor_exists es i : (i < length es)%nat ->
  exists j, (j < length es)%nat /\ lost es j = false /\ key_of (entry_at es j) = key_of (entry_at es i).
Proof.
  destruct (contact_selector (selector (rule (entry_at es i)))) eqn:Ec.
  - induction (lt_wf i) as [i _ IH]. intros Hi.
    destruct (lost es i) eqn:E; [|eauto].
    apply (lost_elem es i Hi) in E as (j & Hj & Hk & Hlt). rewrite Ec in Hlt.
    assert (Hs : selector (rule (entry_at es j)) = selector (rule (entry_at es i))) by now injection Hk.
    destruct (IH j Hlt) as (m & Hm & Lm & Hkm); [now rewrite Hs|exact Hj|]. exists m. repeat split; congruence.
  - remember (length es - i)%nat as d eqn:Hd. revert i Ec Hd.
    induction (lt_wf d) as [d _ IH]. intros i Ec Hd Hi.
    destruct (lost es i) eqn:E; [|eauto].
    apply (lost_elem es i Hi) in E as (j & Hj & Hk & Hlt). rewrite Ec in Hlt.
    assert (Hs : selector (rule (entry_at es j)) = selector (rule (entry_at es i))) by now injection Hk.
    destruct (IH (length es - j)%nat ltac:(lia) j) as (m & Hm & Lm & Hkm); [now rewrite Hs|reflexivity|exact Hj|].
    exists m. repeat split; congruence.
Qed.

Lemma survivors_elem es e :
  e ∈ omap (survivor es) (seq 0 (length es)) <->
  exists i, (i < length es)%nat /\ lost es i = false /\
    e = set_occurrence (1 + rank es i) (entry_at es i).
Proof.
  rewrite list_elem_of_omap. unfold survivor. split.
  - intros (i & Hi%elem_of_seq & H). exists i. destruct (lost es i); [discriminate|].
    injection H as <-. split; [lia|]. now split.
  - intros (i & Hi & L & ->). exists i. rewrite L. split; [apply elem_of_seq; lia|reflexivity].
Qed.

Lemma survivors_keys_nodup es : NoDup (map key_of (omap (survivor es) (seq 0 (length es)))).
Proof.
  assert (H : forall l, NoDup l -> Forall (fun i => (i < length es)%nat) l ->
            NoDup (map key_of (omap (survivor es) l))).
  { intros l. induction 1 as [|i l Hi Hnd IH]; intros Hl; [constructor|].
    inversion Hl as [|? ? Hil Hl']; subst. cbn [omap list_omap]. unfold survivor at 1.
    destruct (lost es i) eqn:Li; [now apply IH|]. cbn [map]. constructor; [|now apply IH].
    intros Hin. apply list_elem_of_fmap in Hin as (e & Hk & He).
    apply list_elem_of_omap in He as (j & Hj & He). unfold survivor in He.
    destruct (lost es j) eqn:Lj; [discriminate|]. injection He as <-.
    rewrite Forall_forall in Hl'. specialize (Hl' j Hj).
    apply Hi. now rewrite (survivors_unique es i j Hil Hl' Li Lj Hk). }
  apply H; [apply NoDup_seq|]. apply Forall_forall. intros i Hi%elem_of_seq. lia.
Qed.

Lemma length_omap_le {A B} (f : A -> option B) l : (length (omap f l) <= length l)%nat.
Proof. induction l as [|x l IH]; cbn; [lia|]. destruct (f x); cbn; lia. Qed.

Section Outcome.
Context `{AL : Allocator} `{RX : PosixRegex}.

(** An entry as the last loop leaves it. *)
Definition finished (e : jf_entry) : jf_entry :=
  let e := set_id (identify (rule e)) e in
  if bool_decide (kind (rule e) = JF_ERE) then set_compiled e else e.

Definition ere_accepted (e : jf_entry) : Prop :=
  kind (rule e) = JF_ERE -> uselocale_ok = true /\ regcomp (predicate (rule e)) = RegCompiled.

Lemma finish_entries_Ok p es es' :
  finish_entries p es = Ok es' <-> Forall ere_accepted es /\ es' = map finished es.
Proof.
  revert es'. induction es as [|e es IH]; intros es'; cbn [finish_entries map].
  - split; [intros [= <-]; auto | intros [_ ->]; reflexivity].
  - rewrite Forall_cons, res_bind_Ok. unfold finished at 1. unfold ere_accepted at 1. cbv zeta.
    assert (Hk : kind (rule (set_id (identify (rule e)) e)) = kind (rule e)) by reflexivity.
    change (predicate (rule (set_id (identify (rule e)) e))) with (predicate (rule e)).
    rewrite Hk. generalize (set_id (identify (rule e)) e). intros e1.
    case_bool_decide as Hc.
    + split.
      * intros (a & H & Ht). rewrite res_bind_Ok in Ht. destruct Ht as (t & Ht & [= <-]).
        rewrite IH in Ht. destruct Ht as [Hf ->].
        destruct uselocale_ok; [|discriminate]. cbn in H.
        destruct (regcomp _); try discriminate. injection H as <-. tauto.
      * intros [[Ha Hf] ->]. destruct (Ha Hc) as [-> ->]. cbn. eexists. split; [reflexivity|].
        rewrite res_bind_Ok. eexists. rewrite IH. split; [split; [exact Hf|reflexivity]|reflexivity].
    + split.
      * intros (a & [= <-] & Ht). rewrite res_bind_Ok in Ht. destruct Ht as (t & Ht & [= <-]).
        rewrite IH in Ht. destruct Ht as [Hf ->]. tauto.
      * intros [[_ Hf] ->]. eexists. split; [reflexivity|].
        rewrite res_bind_Ok. eexists. rewrite IH. split; [split; [exact Hf|reflexivity]|reflexivity].
Qed.

Definition winners (es : list jf_entry) : list jf_entry :=
  omap (survivor es) (seq 0 (length es)).

Definition resolved (pol : jf_policy) : jf_policy :=
  MkPolicy (map finished (qsort compare_order (winners (entries pol)))) (capacity pol)
    (S (requests pol)) (index pol) (legacy pol) (bounce pol) (spam pol) (fallback pol).

Lemma finished_order a b : compare_order (finished a) (finished b) = compare_order a b.
Proof. unfold finished. cbv zeta. now do 2 case_bool_decide. Qed.

Lemma finished_key e : key_of (finished e) = key_of e.
Proof. unfold finished. cbv zeta. now case_bool_decide. Qed.

Lemma resolve_Ok p pol pol' :
  fresh (entries pol) ->
  resolve p pol = Ok pol' <->
  zlen (entries pol) <= SIZE_MAX / 8 /\ alloc_ok (requests pol) = true /\
  size_t (zlen (winners (entries pol)) - JF_BUILTIN_RULES) <= JF_RULE_MAX /\
  Forall ere_accepted (winners (entries pol)) /\ pol' = resolved pol.
Proof.
  intros Hf. unfold resolve, allocate.
  destruct (SIZE_MAX / 8 <? zlen (entries pol)) eqn:E1; boolify.
  { split; [discriminate|]. lia. }
  destruct (alloc_ok (requests pol)); [|split; [discriminate|intuition discriminate]].
  cbn [entries requests capacity index legacy bounce spam fallback].
  rewrite (discard_overridden_spec _ Hf). fold (winners (entries pol)).
  destruct (JF_RULE_MAX <? _) eqn:E2; boolify.
  { split; [discriminate|]. lia. }
  rewrite res_bind_Ok. unfold resolved. split.
  - intros (es & [H ->]%finish_entries_Ok & [= <-]). rewrite qsort_perm in H. auto.
  - intros (_ & _ & _ & H & ->). eexists. rewrite finish_entries_Ok. split; [|reflexivity].
    split; [|reflexivity]. now rewrite qsort_perm.
Qed.

Lemma winners_sorted es : fresh es ->
  StronglySorted (fun a b => compare_order a b = Lt) (qsort compare_order (winners es)).
Proof.
  intros Hf.
  assert (Hs : StronglySorted (cmp_le compare_order) (qsort compare_order (winners es)))
    by (apply qsort_sorted, _).
  assert (Hnd : NoDup (map key_of (qsort compare_order (winners es)))).
  { rewrite (qsort_perm compare_order). apply survivors_keys_nodup. }
  assert (Hin : forall a, a ∈ qsort compare_order (winners es) -> exists i, (i < length es)%nat /\
            a = set_occurrence (1 + rank es i) (entry_at es i)).
  { intros a Ha. rewrite qsort_perm in Ha. apply survivors_elem in Ha as (i & Hi & _ & ->). eauto. }
  revert Hnd Hin. induction Hs as [|a l _ IH Ha]; intros Hnd Hin; [constructor|].
  inversion Hnd as [|? ? Hna Hnd']; subst. constructor.
  - apply IH; [exact Hnd'|]. intros b Hb. apply Hin. now right.
  - apply Forall_forall. intros b Hb. rewrite Forall_forall in Ha. specialize (Ha b Hb).
    unfold cmp_le in Ha. destruct (compare_order a b) eqn:E; [exfalso|reflexivity|easy].
    apply Hna. replace (key_of a) with (key_of b); [now apply list_elem_of_fmap_2|].
    rewrite compare_order_rank in E. f_equal.
    destruct (Hin a) as (i & Hi & ->); [left|]. destruct (Hin b) as (j & Hj & ->); [now right|].
    do 2 (destruct (_ ?= _)%Z in E; try discriminate). cbn in E. apply Nat.compare_eq in E.
    rewrite !(fresh_ordered es Hf) in E by assumption. now rewrite E.
Qed.

(** C17. Resolution returns, for a policy whose entries record their position, the
    deterministic set of definitions in force: no two rules share a selector and
    predicate, every definition is represented by a rule of its key, a rule is
    the first definition of a contact and the last one of any other selector and
    numbers its repetitions, and the rules stand strictly sorted by stage, exact
    known addresses before known domains, then source order. *)
Theorem resolve_effective p pol pol' :
  fresh (entries pol) -> resolve p pol = Ok pol' ->
  NoDup (map key_of (entries pol')) /\
  (forall k, k ∈ map key_of (entries pol') <-> k ∈ map key_of (entries pol)) /\
  (forall e, e ∈ entries pol' <-> exists i, (i < length (entries pol))%nat /\
     lost (entries pol) i = false /\
     e = finished (set_occurrence (1 + rank (entries pol) i) (entry_at (entries pol) i))) /\
  StronglySorted (fun a b => compare_order a b = Lt) (entries pol') /\
  zlen (entries pol') <= JF_RULE_RECORD_MAX.
Proof.
  intros Hf (Hz & _ & Hb & _ & ->)%(resolve_Ok p pol pol' Hf).
  cbn [resolved entries]. set (es := entries pol) in *.
  assert (Hk : map key_of (map finished (qsort compare_order (winners es))) ≡ₚ map key_of (winners es)).
  { rewrite map_map, (map_ext _ key_of) by apply finished_key. now rewrite (qsort_perm compare_order). }
  split_and!.
  - rewrite Hk. apply survivors_keys_nodup.
  - intros k. rewrite Hk, !list_elem_of_fmap. split.
    + intros (e & -> & He). apply survivors_elem in He as (i & Hi & _ & ->).
      exists (entry_at es i). split; [reflexivity|].
      apply list_elem_of_lookup. exists i. now apply entry_at_lookup.
    + intros (e & -> & He). apply list_elem_of_lookup in He as (i & He).
      assert (Hi : (i < length es)%nat) by (now apply lookup_lt_Some in He).
      destruct (survivor_exists es i Hi) as (j & Hj & Lj & Hkj).
      rewrite (entry_at_lookup es i Hi) in He. injection He as <-.
      exists (set_occurrence (1 + rank es j) (entry_at es j)). split; [now symmetry|].
      apply survivors_elem. eauto.
  - intros e. rewrite list_elem_of_fmap. setoid_rewrite (qsort_perm compare_order).
    split; [intros (x & -> & Hx)|intros (i & Hi & L & ->)].
    + apply survivors_elem in Hx as (i & Hi & L & ->). eauto.
    + eexists. split; [reflexivity|]. apply survivors_elem. eauto.
  - pose proof (winners_sorted es Hf) as H. clear -H.
    induction H as [|a l _ IH Ha]; cbn; [constructor|constructor; [exact IH|]].
    rewrite Forall_forall in *. intros b (x & -> & Hx)%list_elem_of_fmap.
    rewrite finished_order. now apply Ha.
  - unfold zlen in *. rewrite length_map, (Permutation_length (qsort_perm compare_order _)).
    pose proof (length_omap_le (survivor es) (seq 0 (length es))) as Hl.
    fold (winners es) in Hl. rewrite length_seq in Hl.
    unfold size_t, JF_RULE_RECORD_MAX, JF_BUILTIN_RULES, JF_RULE_MAX, SIZE_MAX in *.
    destruct (Z_lt_le_dec (Z.of_nat (length (winners es))) 3); [lia|].
    assert (Z.of_nat (length es) < 2 ^ 61) by (eapply Z.le_lt_trans; [exact Hz|reflexivity]).
    rewrite Z.mod_small in Hb; lia.
Qed.
End Outcome.

(** *** An example *)

Definition example_rule (k : jf_kind) (st fl : Z) (sel pred dest : string) (ln : Z) : jf_rule :=
  MkRule k st fl (str sel) (str pred) (str "move") (str dest) (str dest) (str dest)
    (str "Filters.txt") (str "filters") ln 1 [].

Definition example_entries : list jf_entry :=
  [MkEntry (example_rule JF_ERE 3 3 "from" "list" "old" 1) false false 0 0;
   MkEntry (example_rule JF_ADDRESS 5 1 "known" "a@b" "known" 2) false false 1 0;
   MkEntry (example_rule JF_ADDRESS 5 1 "known" "a@b" "known" 3) false false 2 0;
   MkEntry (example_rule JF_ERE 3 3 "from" "list" "new" 4) false false 3 0;
   MkEntry (example_rule JF_ALWAYS 8 0 "unsorted" "" "unsorted" 0) false false 4 0].

Definition example_policy : jf_policy := MkPolicy example_entries 32 1 [] [] None None None.

Lemma example_fresh : fresh example_entries.
Proof. intros [|[|[|[|[|i]]]]] e [= <-]; auto. Qed.

Example example_winners :
  map (fun e => (line (rule e), occurrence (rule e))) (winners example_entries) =
  [(2, 1); (4, 1); (0, 1)].
Proof. vm_compute. reflexivity. Qed.

Lemma resolve_effective_witness :
  resolve (AL:=ample) (RX:=fixed_strings) (MkParser 0 0) example_policy =
    Ok (resolved example_policy) /\
  NoDup (map key_of (entries (resolved example_policy))).
Proof.
  assert (H : resolve (AL:=ample) (RX:=fixed_strings) (MkParser 0 0) example_policy =
                Ok (resolved example_policy)).
  { apply resolve_Ok; [exact example_fresh|]. split_and!; try (vm_compute; congruence).
    repeat constructor. }
  split; [exact H|].
  exact (proj1 (resolve_effective (AL:=ample) (RX:=fixed_strings) (MkParser 0 0) example_policy
                  (resolved example_policy) example_fresh H)).
Defined.
