(* ===== verification/Classify.v ===== *)
(** * Classification (src/filter/classify.c)

    The matching index of a policy, the binary search over it, the validation
    of a parsed message and the choice of the winning rule. *)
From S2P Require Import Prelude Sha256 Utf8 Mailbox Lexer Rules Resolve.

(** ** The caller's buffers

    A pointer with a count: null pointers are kept apart because the code
    accepts them only with a zero count. *)
Inductive view (A : Type) := NullView (n : Z) | View (l : list A).
Arguments NullView {A} _.
Arguments View {A} _.

Definition view_count {A} (v : view A) : Z :=
  match v with NullView n => n | View l => zlen l end.
Definition view_null {A} (v : view A) : bool :=
  match v with NullView _ => true | View _ => false end.
Definition view_list {A} (v : view A) : list A :=
  match v with NullView _ => [] | View l => l end.

Definition jf_text : Type := view Z.

Record jf_mailbox := MkMailbox { field : Z; value : jf_text }.

Record jf_message := MkMessage {
  addresses : view jf_mailbox; senders : view jf_text; spam_flags : view jf_text }.

Record jf_match_stats := MkStats { index_comparisons : Z; regex_checks : Z }.
Definition no_stats : jf_match_stats := MkStats 0 0.

Definition error {A} (code : string) (detail : bytes) (rc : Z) : res A :=
  Fail rc (MkError code SIZE_MAX 0 (snprintf160 detail)).

(** ** The index *)

Definition index_key (e : jf_entry) : bytes :=
  drop (if bool_decide (kind (rule e) = JF_DOMAIN_SUBDOMAINS) then 2 else 0) (predicate (rule e)).

(** Pointers into the entry array compare as positions. *)
Definition compare_index (es : list jf_entry) (x y : nat) : comparison :=
  let kx := kind (rule (entry_at es x)) in let ky := kind (rule (entry_at es y)) in
  if negb (bool_decide (kx = ky)) then kind_value kx ?= kind_value ky
  else cmp_then (strcmp (index_key (entry_at es x)) (index_key (entry_at es y))) (Nat.compare x y).

Definition indexed_kind (k : jf_kind) : bool :=
  match k with JF_ADDRESS | JF_DOMAIN_APEX | JF_DOMAIN_SUBDOMAINS => true | _ => false end.

Definition positions (f : jf_kind -> bool) (es : list jf_entry) : list nat :=
  List.filter (fun i => f (kind (rule (entry_at es i)))) (seq 0 (length es)).

Definition is_kind (k k' : jf_kind) : bool := bool_decide (k' = k).

(** The counting loop: the last entry of each builtin kind. *)
Fixpoint builtins_loop (i : nat) (es : list jf_entry) (b s f : option nat) :
    option nat * option nat * option nat :=
  match es with
  | [] => (b, s, f)
  | e :: t =>
      match kind (rule e) with
      | JF_SENDER_CONTAINS => builtins_loop (S i) t (Some i) s f
      | JF_SPAM_IS => builtins_loop (S i) t b (Some i) f
      | JF_ALWAYS => builtins_loop (S i) t b s (Some i)
      | _ => builtins_loop (S i) t b s f
      end
  end.

(** The null address is below every entry. *)
Definition ptr_lt (a b : option nat) : bool :=
  match a, b with
  | None, Some _ => true
  | Some i, Some j => (i <? j)%nat
  | _, None => false
  end.

Section Operations.
Context `{AL : Allocator} `{RX : PosixRegex}.

Definition jf_policy_build_index (p : jf_policy) : res jf_policy :=
  let es := entries p in
  let '(b, s, f) := builtins_loop 0 es (bounce p) (spam p) (fallback p) in
  let idx := positions indexed_kind es in
  let leg := positions (is_kind JF_ERE) es in
  let wanted := ((if (length idx =? 0)%nat then 0 else 1) + (if (length leg =? 0)%nat then 0 else 1))%nat in
  match allocates wanted p with
  | None => error "E_MEMORY" (str "policy matching index allocation failed") 3
  | Some p => Ok (MkPolicy es (capacity p) (requests p) (qsort (compare_index es) idx) leg b s f)
  end.

(** ** Lookup *)

Definition count_comparison (st : jf_match_stats) : jf_match_stats :=
  MkStats (index_comparisons st + 1) (regex_checks st).
Definition count_regex (st : jf_match_stats) : jf_match_stats :=
  MkStats (index_comparisons st) (regex_checks st + 1).

Definition compare_lookup (k : jf_kind) (key : bytes) (e : jf_entry) : comparison :=
  if negb (bool_decide (k = kind (rule e))) then kind_value k ?= kind_value (kind (rule e))
  else strcmp key (index_key e).

(** [while (low<high)]: the interval shrinks, so [high - low] steps are enough. *)
Fixpoint search (fuel : nat) (p : jf_policy) (k : jf_kind) (key : bytes) (low high : nat)
    (st : jf_match_stats) : nat * jf_match_stats :=
  match fuel with
  | O => (low, st)
  | S fuel' =>
      if (low <? high)%nat then
        let mid := (low + (high - low) / 2)%nat in
        let st := count_comparison st in
        match compare_lookup k key (entry_at (entries p) (nth mid (index p) 0%nat)) with
        | Gt => search fuel' p k key (S mid) high st
        | _ => search fuel' p k key low mid st
        end
      else (low, st)
  end.

(** The loop over the entries of the key, from the first on. *)
Fixpoint scan (p : jf_policy) (k : jf_kind) (key : bytes) (fld : Z) (l : list nat)
    (best : option nat) (st : jf_match_stats) : option nat * jf_match_stats :=
  match l with
  | [] => (best, st)
  | i :: t =>
      let e := entry_at (entries p) i in
      let st := count_comparison st in
      match compare_lookup k key e with
      | Eq =>
          let best := if negb (Z.land (fields (rule e)) fld =? 0) && ptr_lt (Some i) best
                      then Some i else best in
          scan p k key fld t best st
      | _ => (best, st)
      end
  end.

Definition lookup (p : jf_policy) (k : jf_kind) (key : bytes) (fld : Z) (best : option nat)
    (st : jf_match_stats) : option nat * jf_match_stats :=
  let '(low, st) := search (length (index p)) p k key 0 (length (index p)) st in
  scan p k key fld (drop low (index p)) best st.

(** ** Validation *)

Definition control_byte (c : Z) : bool := ((c <? 32) && negb (c =? HT)) || (c =? 127).

(** The unsigned subtraction cannot wrap: [total] never passes the maximum. *)
Definition validate_text (text : jf_text) (total : Z) : res Z :=
  let size := view_count text in
  if (JF_LINE_MAX <? size) || (size_t (JF_HEADERS_MAX - total) <? size)
  then error "E_MESSAGE_LIMIT" (str "parsed message field/total limit exceeded") 7
  else if negb (size =? 0) && view_null text
  then error "E_MESSAGE_ARGUMENT" (str "missing field buffer") 7
  else if existsb control_byte (view_list text)
  then error "E_MESSAGE_TEXT" (str "NUL/control byte in parsed field") 7
  else Ok (total + size).

Fixpoint validate_addresses (l : list jf_mailbox) (total sender : Z) : res (Z * Z) :=
  match l with
  | [] => Ok (total, sender)
  | a :: t =>
      if negb (field a =? JF_FROM) && negb (field a =? JF_SENDER) &&
         negb (field a =? JF_TO) && negb (field a =? JF_CC)
      then error "E_MESSAGE_FIELD" (str "invalid parsed address field") 7
      else
        let is_sender := field a =? JF_SENDER in
        n ← validate_text (value a) (if is_sender then sender else total);
        let total := if is_sender then total else n in
        let sender := if is_sender then n else sender in
        if negb (jf_valid_utf8 (view_list (value a)))
        then error "E_MESSAGE_ADDRESS" (str "invalid UTF8 mailbox") 7
        else match jf_normalize_mailbox (view_list (value a)) with
             | None => error "E_MESSAGE_ADDRESS" (str "invalid parsed mailbox/domain") 7
             | Some _ => validate_addresses t total sender
             end
  end.

Fixpoint validate_texts (l : list jf_text) (total : Z) : res Z :=
  match l with
  | [] => Ok total
  | x :: t => total ← validate_text x total; validate_texts t total
  end.

(** ** Matching *)

(** The inner loop of [raw_match], with at least [length key] bytes left. *)
Fixpoint prefix_fold (key text : bytes) : bool :=
  match key, text with
  | [], _ => true
  | k :: key', c :: text' => (fold_byte c =? fold_byte k) && prefix_fold key' text'
  | _ :: _, [] => false
  end.

Fixpoint match_loop (contains : bool) (key text : bytes) : bool :=
  if (length text <? length key)%nat then false
  else if prefix_fold key text then true
  else if negb contains then false
  else match text with [] => false | _ :: t => match_loop contains key t end.

Definition raw_match (text : bytes) (key : bytes) (contains : bool) : bool :=
  let text := if contains then text else trim_end is_blank (drop_while is_blank text) in
  if (length text <? length key)%nat || (negb contains && negb (length text =? length key)%nat)
  then false
  else match_loop contains key text.

(** The text after each dot, from left to right. *)
Fixpoint suffixes (d : bytes) : list bytes :=
  match d with
  | [] => []
  | c :: t => if c =? ch "." then t :: suffixes t else suffixes t
  end.

(** [strrchr (mailbox, '@') + 1]. *)
Fixpoint after_last (c : Z) (s : bytes) : bytes :=
  match s with
  | [] => []
  | x :: t => if mem c t then after_last c t else if x =? c then t else after_last c t
  end.

Fixpoint lookup_suffixes (p : jf_policy) (l : list bytes) (fld : Z) (best : option nat)
    (st : jf_match_stats) : option nat * jf_match_stats :=
  match l with
  | [] => (best, st)
  | d :: t =>
      let '(best, st) := lookup p JF_DOMAIN_SUBDOMAINS d fld best st in
      lookup_suffixes p t fld best st
  end.

Fixpoint legacy_loop (p : jf_policy) (l : list nat) (mailbox : bytes) (fld : Z) (best : option nat)
    (st : jf_match_stats) : res (option nat * jf_match_stats) :=
  match l with
  | [] => Ok (best, st)
  | i :: t =>
      if negb (ptr_lt (Some i) best) then Ok (best, st)
      else
        let e := entry_at (entries p) i in
        if Z.land (fields (rule e)) fld =? 0 then legacy_loop p t mailbox fld best st
        else
          let st := count_regex st in
          match regexec (predicate (rule e)) mailbox with
          | RegMatch => Ok (Some i, st)
          | RegNoMatch => legacy_loop p t mailbox fld best st
          | RegError => error "E_REGEX_EXEC" (str "legacy regex execution failed") 3
          end
  end.

(** One iteration of the loop over the validated addresses. *)
Definition classify_address (p : jf_policy) (a : jf_mailbox) (best : option nat)
    (st : jf_match_stats) : res (option nat * jf_match_stats) :=
  let exact := default [] (jf_normalize_mailbox (view_list (value a))) in
  let mailbox := fold_bytes exact in
  let '(best, st) := lookup p JF_ADDRESS mailbox (field a) best st in
  let domain := after_last (ch "@") mailbox in
  let '(best, st) := lookup p JF_DOMAIN_APEX domain (field a) best st in
  let '(best, st) := lookup_suffixes p (suffixes domain) (field a) best st in
  if (length (legacy p) =? 0)%nat then Ok (best, st)
  else if negb uselocale_ok then error "E_REGEX_EXEC" (str "cannot select C regex locale") 3
  else legacy_loop p (legacy p) exact (field a) best st.

Fixpoint classify_addresses (p : jf_policy) (l : list jf_mailbox) (best : option nat)
    (st : jf_match_stats) : res (option nat * jf_match_stats) :=
  match l with
  | [] => Ok (best, st)
  | a :: t =>
      '(best, st) ← classify_address p a best st;
      classify_addresses p t best st
  end.

(** The builtin rules are tried first. *)
Definition classify_builtins (p : jf_policy) (m : jf_message) : option nat :=
  let best := fallback p in
  let best := fold_left (fun best s => if raw_match (view_list s) (str "mailman-bounce") true
                                       then bounce p else best) (view_list (senders m)) best in
  fold_left (fun best s => if raw_match (view_list s) (str "YES") false && ptr_lt (spam p) best
                           then spam p else best) (view_list (spam_flags m)) best.

(** The complete input is validated before any rule is considered. *)
Definition validate_message (m : jf_message) : res unit :=
  '(total, sender_addresses) ← validate_addresses (view_list (addresses m)) 0 0;
  sender_values ← validate_texts (view_list (senders m)) 0;
  let sender_values := if sender_values <? sender_addresses then sender_addresses else sender_values in
  if size_t (JF_HEADERS_MAX - total) <? sender_values
  then error "E_MESSAGE_LIMIT" (str "parsed message total limit exceeded") 7
  else
    _ ← validate_texts (view_list (spam_flags m)) (total + sender_values);
    Ok tt.

Definition missing {A} (v : view A) : bool := negb (view_count v =? 0) && view_null v.

(** Every check made of the message before the policy is looked at. *)
Definition check_message (m : jf_message) : res unit :=
  if missing (addresses m) || missing (senders m) || missing (spam_flags m)
  then error "E_MESSAGE_ARGUMENT" (str "invalid policy/parsed message") 7
  else if (JF_HEADERS_MAX <? view_count (addresses m)) ||
          (JF_HEADERS_MAX <? view_count (senders m)) ||
          (JF_HEADERS_MAX <? view_count (spam_flags m))
  then error "E_MESSAGE_LIMIT" (str "too many parsed message fields") 7
  else validate_message m.

(** [None] arguments are null pointers; the result is [*winner]. *)
Definition jf_policy_classify (p : option jf_policy) (message : option jf_message) :
    res (option nat * jf_match_stats) :=
  match p, message with
  | Some p, Some m =>
      _ ← check_message m;
      classify_addresses p (view_list (addresses m)) (classify_builtins p m) no_stats
  | _, _ => error "E_MESSAGE_ARGUMENT" (str "invalid policy/parsed message") 7
  end.

End Operations.

(** ** Specification: which rules apply to a message *)

Definition selects (r : jf_rule) (fld : Z) : bool := negb (Z.land (fields r) fld =? 0).

(** [key] occurs in [text], ignoring ASCII case. *)
Definition occurs (key text : bytes) : Prop :=
  exists a b, fold_bytes text = a ++ fold_bytes key ++ b.

Section Specification.
Context `{RX : PosixRegex}.

(** A rule on an address with decoded local part [l] and domain [d]. *)
Definition parts_match (r : jf_rule) (l d : bytes) : Prop :=
  match kind r with
  | JF_ADDRESS => predicate r = fold_bytes (minimal l (ch "@" :: d))
  | JF_DOMAIN_APEX => predicate r = fold_bytes d
  | JF_DOMAIN_SUBDOMAINS => exists sub, fold_bytes d = sub ++ ch "." :: drop 2 (predicate r)
  | JF_ERE => regexec (predicate r) (minimal l (ch "@" :: d)) = RegMatch
  | _ => False
  end.

Definition address_match (r : jf_rule) (a : jf_mailbox) : Prop :=
  selects r (field a) = true /\
  exists l d, decode_mailbox (view_list (value a)) = Some (l, ch "@" :: d) /\ parts_match r l d.

Definition message_match (r : jf_rule) (m : jf_message) : Prop :=
  match kind r with
  | JF_SENDER_CONTAINS =>
      exists s, s ∈ view_list (senders m) /\ occurs (str "mailman-bounce") (view_list s)
  | JF_SPAM_IS =>
      exists s, s ∈ view_list (spam_flags m) /\
        fold_bytes (trim_end is_blank (drop_while is_blank (view_list s))) = str "yes"
  | JF_ALWAYS => True
  | _ => exists a, a ∈ view_list (addresses m) /\ address_match r a
  end.
End Specification.

(** The index describes the entries, and the builtin rules are there. *)
Record indexed (p : jf_policy) : Prop := MkIndexed {
  ix_index : index p = qsort (compare_index (entries p)) (positions indexed_kind (entries p));
  ix_legacy : legacy p = positions (is_kind JF_ERE) (entries p);
  ix_bounce : exists b, bounce p = Some b /\ positions (is_kind JF_SENDER_CONTAINS) (entries p) = [b];
  ix_spam : exists b, spam p = Some b /\ positions (is_kind JF_SPAM_IS) (entries p) = [b];
  ix_fallback : exists b, fallback p = Some b /\ positions (is_kind JF_ALWAYS) (entries p) = [b];
  ix_order : ptr_lt (bounce p) (fallback p) = true }.

(** The least position that satisfies [P]. *)
Definition least (P : nat -> Prop) (best : option nat) : Prop :=
  exists b, best = Some b /\ P b /\ forall j, P j -> (b <= j)%nat.

Lemma least_ext P Q best : (forall j, P j <-> Q j) -> least P best -> least Q best.
Proof. intros H (b & -> & Hb & Hm). exists b. rewrite <- H. split_and!; auto. intros j Hj. now apply Hm, H. Qed.

(** ** The order of the index *)

Definition index_cmp (x y : Z * bytes) : comparison :=
  cmp_then (x.1 ?= y.1) (strcmp x.2 y.2).
#[export] Instance index_cmp_comparator : Comparator index_cmp.
Proof. unfold index_cmp. solve_comparator. Qed.

Definition entry_key (e : jf_entry) : Z * bytes := (kind_value (kind (rule e)), index_key e).

Lemma kind_value_inj a b : kind_value a = kind_value b -> a = b.
Proof. destruct a, b; easy. Qed.

Lemma compare_lookup_key k key e : compare_lookup k key e = index_cmp (kind_value k, key) (entry_key e).
Proof.
  unfold compare_lookup, index_cmp, entry_key. cbn. case_bool_decide as H; cbn.
  - now rewrite H, Z.compare_refl.
  - destruct (Z.compare_spec (kind_value k) (kind_value (kind (rule e)))) as [E| |]; cbn; try easy.
    now apply kind_value_inj in E.
Qed.

Lemma compare_index_key es x y :
  compare_index es x y =
  cmp_then (index_cmp (entry_key (entry_at es x)) (entry_key (entry_at es y))) (Nat.compare x y).
Proof.
  unfold compare_index, index_cmp, entry_key. cbn. case_bool_decide as H; cbn.
  - now rewrite H, Z.compare_refl.
  - destruct (Z.compare_spec (kind_value (kind (rule (entry_at es x)))) (kind_value (kind (rule (entry_at es y)))))
      as [E| |]; cbn; try easy. now apply kind_value_inj in E.
Qed.

#[export] Instance compare_index_comparator es : Comparator (compare_index es).
Proof.
  assert (H : Comparator (fun x y => cmp_then
    (index_cmp (entry_key (entry_at es x)) (entry_key (entry_at es y))) (Nat.compare x y))).
  { apply (cmp_then_comparator index_cmp Nat.compare (fun x => entry_key (entry_at es x))). }
  split; intros *; rewrite !compare_index_key; apply H.
Qed.

(** Along a sorted index the outcomes of a lookup go from above through equal
    to below. *)
Lemma lookup_monotone k key es x y :
  cmp_le (compare_index es) x y ->
  (compare_lookup k key (entry_at es y) = Gt -> compare_lookup k key (entry_at es x) = Gt) /\
  (compare_lookup k key (entry_at es x) = Lt -> compare_lookup k key (entry_at es y) = Lt).
Proof.
  unfold cmp_le. rewrite compare_index_key, !compare_lookup_key. intros H.
  set (a := entry_key (entry_at es x)) in *. set (b := entry_key (entry_at es y)) in *.
  set (q := (kind_value k, key)).
  assert (Hab : index_cmp a b = Lt \/ index_cmp a b = Eq) by (destruct (index_cmp a b); auto; easy).
  destruct Hab as [Hab|Hab].
  - split; intros Hq.
    + apply (cmp_gt_lt index_cmp) in Hq. apply (cmp_gt_lt index_cmp).
      now apply (cmp_lt_trans (cmp:=index_cmp) a b q).
    + now apply (cmp_lt_trans (cmp:=index_cmp) q a b).
  - rewrite !(cmp_eq_r index_cmp a b q Hab). tauto.
Qed.

Section Lookup.
Context (p : jf_policy) (k : jf_kind) (key : bytes).

Let c (i : nat) : comparison := compare_lookup k key (entry_at (entries p) i).

(** Outcomes of the lookup along a list of positions only decrease. *)
Definition descending (l : list nat) : Prop :=
  StronglySorted (fun x y => (c y = Gt -> c x = Gt) /\ (c x = Lt -> c y = Lt)) l.

Lemma index_descending :
  index p = qsort (compare_index (entries p)) (positions indexed_kind (entries p)) ->
  descending (index p).
Proof.
  intros ->. eapply sorted_weaken; [|apply qsort_sorted, _].
  intros x y. apply lookup_monotone.
Qed.

Definition above (i : nat) : Prop := c i = Gt.
Definition reached (i : nat) : Prop := c i <> Gt.

Lemma descending_at l i : descending l -> (i < length l)%nat ->
  (above (nth i l 0%nat) -> Forall above (take (S i) l)) /\
  (reached (nth i l 0%nat) -> Forall reached (drop i l)).
Proof.
  intros Hs Hi. destruct (nth_lookup_or_length l i 0%nat) as [Hx|]; [|lia].
  set (x := nth i l 0%nat) in *. pose proof (take_drop_middle l i x Hx) as E.
  rewrite <- E in Hs. apply StronglySorted_app in Hs as (Hpre & _ & Hpost).
  inversion Hpost as [|? ? _ Hafter]; subst. split; intros Hc.
  - rewrite (take_S_r l i x Hx). apply Forall_app. split; [|auto].
    apply Forall_forall. intros y Hy. destruct (Hpre y x Hy) as [H _]; [left|]. now apply H.
  - rewrite (drop_S l x i Hx). constructor; [exact Hc|].
    eapply Forall_impl; [exact Hafter|]. cbv beta. intros y [H _] Hy. now apply Hc, H.
Qed.

Definition search_cost (n : nat) : Z := if (0 <? n)%nat then Z.of_nat (Nat.log2 n) + 1 else 0.

Lemma search_cost_half m n : (2 * m <= n)%nat -> (0 < n)%nat -> search_cost m + 1 <= search_cost n.
Proof.
  intros H Hn. unfold search_cost. destruct (Nat.ltb_spec 0 n); [|lia].
  destruct (Nat.ltb_spec 0 m); [|lia].
  pose proof (Nat.log2_le_mono _ _ H). rewrite Nat.log2_double in H2 by lia. lia.
Qed.

(** The binary search stops at the boundary, after a logarithmic number of
    comparisons. *)
Lemma search_spec fuel low high st n st' :
  descending (index p) -> (high - low <= fuel)%nat -> (low <= high <= length (index p))%nat ->
  Forall above (take low (index p)) -> Forall reached (drop high (index p)) ->
  search fuel p k key low high st = (n, st') ->
  Forall above (take n (index p)) /\ Forall reached (drop n (index p)) /\
  regex_checks st' = regex_checks st /\
  index_comparisons st <= index_comparisons st' <= index_comparisons st + search_cost (high - low).
Proof.
  intros Hs. revert low high st.
  induction fuel as [|fuel IH]; intros low high st Hf Hb Ha Hr; cbn [search].
  { intros [= <- <-]. assert (low = high) as -> by lia. rewrite Nat.sub_diag. cbn. split_and!; auto; lia. }
  destruct (Nat.ltb_spec low high) as [Hlt|Hge].
  2:{ intros [= <- <-]. assert (low = high) as -> by lia. rewrite Nat.sub_diag. cbn. split_and!; auto; lia. }
  set (mid := (low + (high - low) / 2)%nat).
  assert (Hmid : (low <= mid < high)%nat /\ (2 * (mid - low) <= high - low)%nat /\
            (2 * (high - S mid) <= high - low)%nat).
  { unfold mid. pose proof (Nat.div_mod_eq (high - low) 2).
    pose proof (Nat.mod_upper_bound (high - low) 2). lia. }
  destruct (descending_at (index p) mid Hs) as [Hup Hdown]; [lia|]. unfold above, reached, c in Hup, Hdown.
  pose proof (search_cost_half (high - S mid) (high - low)).
  pose proof (search_cost_half (mid - low) (high - low)).
  intros E. destruct (compare_lookup k key (entry_at (entries p) (nth mid (index p) 0%nat))).
  1,2: apply IH in E as (E1 & E2 & E3 & E4); [|lia|lia|assumption|apply Hdown; discriminate];
    cbn in *; split_and!; auto; lia.
  apply IH in E as (E1 & E2 & E3 & E4); [|lia|lia|now apply Hup|assumption].
  cbn in *. split_and!; auto; lia.
Qed.

(** Entries of the key that take the field. *)
Definition hit (fld : Z) (i : nat) : Prop :=
  c i = Eq /\ selects (rule (entry_at (entries p) i)) fld = true.

Lemma scan_spec fld l P best st best' st' :
  descending l -> Forall reached l -> least P best ->
  scan p k key fld l best st = (best', st') ->
  least (fun j => P j \/ (j ∈ l /\ hit fld j)) best' /\
  regex_checks st' = regex_checks st /\
  index_comparisons st <= index_comparisons st' <=
    index_comparisons st + zlen (List.filter (fun i => is_eq (c i)) l) + 1.
Proof.
  intros Hs. revert P best st. induction Hs as [|i l Hs IH Hi]; intros P best st Hr Hb; cbn [scan].
  { intros [= <- <-]. split_and!; [|reflexivity|lia|unfold zlen; cbn; lia].
    eapply least_ext; [|exact Hb]. intros j. rewrite elem_of_nil. tauto. }
  inversion Hr as [|? ? Hri Hrl]; subst. cbn [List.filter].
  fold (c i). destruct (c i) eqn:Ec; cbn [is_eq].
  - intros E. apply (IH (fun j => P j \/ (j = i /\ hit fld j))) in E as (E1 & E2 & E3); [|assumption|].
    + split_and!; [|exact E2|cbn in *; lia|unfold zlen in *; cbn in *; lia].
      eapply least_ext; [|exact E1]. intros j. rewrite elem_of_cons. tauto.
    + destruct Hb as (b & -> & Pb & Hmin). fold (selects (rule (entry_at (entries p) i)) fld).
      destruct (selects _ fld) eqn:Esel; cbn [andb ptr_lt].
      * destruct (Nat.ltb_spec i b).
        -- exists i. split_and!; [reflexivity|right; now repeat split|].
           intros j [Hj|[-> _]]; [|lia]. specialize (Hmin j Hj). lia.
        -- exists b. split_and!; [reflexivity|auto|]. intros j [Hj|[-> _]]; auto.
      * exists b. split_and!; [reflexivity|auto|]. intros j [Hj|[-> [_ Hj]]]; [auto|congruence].
  - intros [= <- <-]. split_and!; [|reflexivity|cbn; lia|unfold zlen; cbn; lia].
    eapply least_ext; [|exact Hb]. intros j. split; [auto|]. intros [Hj|[Hj [He _]]]; [exact Hj|].
    exfalso. apply elem_of_cons in Hj as [->|Hj]; [congruence|].
    rewrite Forall_forall in Hi. destruct (Hi j Hj) as [_ H]. specialize (H eq_refl). congruence.
  - exfalso. now apply Hri.
Qed.

Lemma lookup_spec fld P best st best' st' :
  index p = qsort (compare_index (entries p)) (positions indexed_kind (entries p)) ->
  least P best -> lookup p k key fld best st = (best', st') ->
  least (fun j => P j \/ (j ∈ index p /\ hit fld j)) best' /\
  regex_checks st' = regex_checks st /\
  index_comparisons st <= index_comparisons st' <=
    index_comparisons st + search_cost (length (index p)) +
    zlen (List.filter (fun i => is_eq (c i)) (index p)) + 1.
Proof.
  intros Hix Hb. pose proof (index_descending Hix) as Hd. unfold lookup.
  destruct (search _ p k key 0 _ st) as [n st1] eqn:Es. intros E.
  apply search_spec in Es as (Hab & Hre & Hrc & Hcost);
    [|exact Hd|lia|lia|constructor|rewrite drop_all; constructor].
  rewrite <- (take_drop n (index p)) in Hd.
  apply StronglySorted_app in Hd as (_ & _ & Hd).
  apply (scan_spec fld _ P) in E as (E1 & E2 & E3); [|exact Hd|exact Hre|exact Hb].
  rewrite Nat.sub_0_r in Hcost. split_and!; [|congruence|lia|].
  - eapply least_ext; [|exact E1]. intros j. split; [intros [H|[H1 H2]]|intros [H|[H1 H2]]]; auto.
    + right. split; [|exact H2]. rewrite <- (take_drop n (index p)). apply elem_of_app. now right.
    + right. split; [|exact H2]. rewrite <- (take_drop n (index p)) in H1.
      apply elem_of_app in H1 as [H1|H1]; [|exact H1].
      rewrite Forall_forall in Hab. specialize (Hab j H1). destruct H2 as [H2 _]. unfold above in Hab. congruence.
  - assert (zlen (List.filter (fun i => is_eq (c i)) (drop n (index p))) <=
            zlen (List.filter (fun i => is_eq (c i)) (index p))).
    { rewrite <- (take_drop n (index p)) at 2. rewrite List.filter_app. unfold zlen. rewrite length_app. lia. }
    lia.
Qed.
End Lookup.

(** ** Building the index *)

Lemma builtins_loop_spec k0 es b s f :
  builtins_loop k0 es b s f =
  let last_of k o := match last (List.filter (fun i => is_kind k (kind (rule (entry_at es (i - k0)))))
                                   (seq k0 (length es))) with Some i => Some i | None => o end in
  (last_of JF_SENDER_CONTAINS b, last_of JF_SPAM_IS s, last_of JF_ALWAYS f).
Proof.
  revert k0 b s f. induction es as [|e es IH]; intros k0 b s f; [reflexivity|].
  cbn [builtins_loop length seq List.filter]. rewrite Nat.sub_diag.
  change (entry_at (e :: es) 0) with e.
  assert (H : forall k, List.filter (fun i => is_kind k (kind (rule (entry_at (e :: es) (i - k0))))) (seq (S k0) (length es)) =
                        List.filter (fun i => is_kind k (kind (rule (entry_at es (i - S k0))))) (seq (S k0) (length es))).
  { intros k. apply List.filter_ext_in. intros i Hi%in_seq.
    replace (i - k0)%nat with (S (i - S k0)) by lia. reflexivity. }
  rewrite !H. cbv zeta in *.
  assert (Hl : forall (i : nat) l o, match last (i :: l) with Some i => Some i | None => o end =
            match last l with Some i => Some i | None => Some i end).
  { intros i l o. rewrite last_cons. now destruct (last l). }
  destruct (kind (rule e)); rewrite IH;
    repeat match goal with |- context [is_kind ?a ?b] =>
      first [change (is_kind a b) with true | change (is_kind a b) with false] end;
    cbv iota; rewrite ?Hl; reflexivity.
Qed.

(** [jf_policy_build_index] indexes a policy that holds each builtin rule once,
    the bounce rule before the fallback. *)
Lemma build_index_indexed `{AL : Allocator} p p' b s f :
  bounce p = None -> spam p = None -> fallback p = None ->
  positions (is_kind JF_SENDER_CONTAINS) (entries p) = [b] ->
  positions (is_kind JF_SPAM_IS) (entries p) = [s] ->
  positions (is_kind JF_ALWAYS) (entries p) = [f] -> (b < f)%nat ->
  jf_policy_build_index p = Ok p' -> indexed p' /\ entries p' = entries p.
Proof.
  intros E1 E2 E3 Pb Ps Pf Hbf. unfold jf_policy_build_index. rewrite builtins_loop_spec, E1, E2, E3.
  assert (H : forall k x, positions (is_kind k) (entries p) = [x] ->
     List.filter (fun i => is_kind k (kind (rule (entry_at (entries p) (i - 0))))) (seq 0 (length (entries p))) = [x]).
  { intros k x <-. apply List.filter_ext. intros i. now rewrite Nat.sub_0_r. }
  cbv zeta beta. rewrite (H _ _ Pb), (H _ _ Ps), (H _ _ Pf). cbn [last].
  destruct (allocates _ p) as [p1|]; [|discriminate]. intros [= <-]. split; [|reflexivity].
  split; cbn [entries index legacy bounce spam fallback]; eauto. now apply Nat.ltb_lt.
Qed.

(** ** Text matching *)

Lemma suffixes_spec d x : x ∈ suffixes d <-> exists sub, d = sub ++ ch "." :: x.
Proof.
  induction d as [|c t IH]; cbn [suffixes].
  - rewrite elem_of_nil. split; [easy|]. intros [[|] H]; discriminate.
  - destruct (c =? ch ".") eqn:E.
    + apply Z.eqb_eq in E as ->. rewrite elem_of_cons, IH. split.
      * intros [->|[sub ->]]; [now exists []|now exists (ch "." :: sub)].
      * intros [[|b sub] H]; simplify_eq/=; [now left|right; eauto].
    + rewrite IH. apply Z.eqb_neq in E. split.
      * intros [sub ->]. now exists (c :: sub).
      * intros [[|b sub] H]; simplify_eq/=; eauto.
Qed.

Lemma after_last_spec c a d : c ∉ d -> after_last c (a ++ c :: d) = d.
Proof.
  intros Hd. induction a as [|x a IH]; cbn [app after_last].
  - destruct (mem c d) eqn:E; [now apply mem_spec in E|]. now rewrite Z.eqb_refl.
  - destruct (mem c (a ++ c :: d)) eqn:E; [exact IH|].
    assert (H : mem c (a ++ c :: d) = true) by (apply mem_spec, elem_of_app; right; left). congruence.
Qed.

Lemma prefix_fold_spec key text :
  prefix_fold key text = true <-> exists b, fold_bytes text = fold_bytes key ++ b.
Proof.
  revert text. induction key as [|x key IH]; intros text; cbn [prefix_fold fold_bytes map app].
  - split; [eauto|easy].
  - destruct text as [|y text]; cbn [fold_bytes map].
    + split; [easy|]. intros [b H]; discriminate.
    + rewrite andb_true_iff, Z.eqb_eq, IH. unfold fold_bytes. split.
      * intros [-> [b ->]]. now exists b.
      * intros [b [= -> ->]]. eauto.
Qed.

Lemma match_loop_contains key text : match_loop true key text = true <-> occurs key text.
Proof.
  unfold occurs. induction text as [|c t IH]; cbn [match_loop].
  - destruct key as [|x key]; cbn.
    + split; [now exists [], []|easy].
    + split; [easy|]. intros ([|] & b & H); discriminate.
  - destruct (Nat.ltb_spec (length (c :: t)) (length key)) as [Hlt|_].
    { split; [easy|]. intros (a & b & H). apply (f_equal length) in H.
      unfold fold_bytes in H. revert H Hlt. repeat rewrite length_app. rewrite !length_map. cbn. lia. }
    destruct (prefix_fold key (c :: t)) eqn:E; cbn [negb].
    + split; [|easy]. apply prefix_fold_spec in E as [b E]. intros _. now exists [], b.
    + rewrite IH. split.
      * intros (a & b & H). exists (fold_byte c :: a), b. cbn. now rewrite <- H.
      * intros ([|x a] & b & H).
        -- assert (prefix_fold key (c :: t) = true) by (apply prefix_fold_spec; eauto). congruence.
        -- injection H as _ H. eauto.
Qed.

Lemma raw_match_contains key text : raw_match text key true = true <-> occurs key text.
Proof.
  unfold raw_match. cbn [negb andb]. rewrite orb_false_r. rewrite <- match_loop_contains.
  destruct (Nat.ltb_spec (length text) (length key)) as [H|_]; [|easy].
  assert (E : match_loop true key text = false)
    by (apply Nat.ltb_lt in H; destruct text; cbn [match_loop]; now rewrite H).
  now rewrite E.
Qed.

Lemma raw_match_is key text :
  raw_match text key false = true <->
  fold_bytes (trim_end is_blank (drop_while is_blank text)) = fold_bytes key.
Proof.
  unfold raw_match. cbn [negb andb]. set (t := trim_end _ _).
  destruct (Nat.eqb_spec (length t) (length key)) as [Hl|Hl]; cbn [negb orb].
  - rewrite Hl, Nat.ltb_irrefl. cbn [orb].
    assert (E : match_loop false key t = prefix_fold key t).
    { destruct t; cbn [match_loop]; rewrite Hl, Nat.ltb_irrefl; now destruct (prefix_fold _ _). }
    rewrite E, prefix_fold_spec. split; [|intros ->; exists []; now rewrite app_nil_r].
    intros [b H]. pose proof (f_equal length H) as Hb. unfold fold_bytes in Hb.
    rewrite length_app, !length_map in Hb. destruct b; [now rewrite app_nil_r in H|cbn in Hb; lia].
  - rewrite orb_true_r. split; [easy|]. intros H. apply (f_equal length) in H.
    unfold fold_bytes in H. rewrite !length_map in H. easy.
Qed.

(** ** The winner is the first rule that applies *)

Lemma positions_elem f es j :
  j ∈ positions f es <-> (j < length es)%nat /\ f (kind (rule (entry_at es j))) = true.
Proof.
  unfold positions. rewrite list_elem_of_In, filter_In, in_seq. split; intros [H1 H2]; split; auto; lia.
Qed.

Abbreviation rule_at p j := (rule (entry_at (entries p) j)).

(** An exact key of an indexed kind, at a position. *)
Definition keyed (p : jf_policy) (k : jf_kind) (key : bytes) (fld : Z) (j : nat) : Prop :=
  (j < length (entries p))%nat /\ kind (rule_at p j) = k /\
  index_key (entry_at (entries p) j) = key /\ selects (rule_at p j) fld = true.

Lemma keyed_hit p k key fld j :
  indexed p -> indexed_kind k = true ->
  j ∈ index p /\ hit p k key fld j <-> keyed p k key fld j.
Proof.
  intros Hp Hk. rewrite (ix_index p Hp), qsort_perm, positions_elem. unfold hit, keyed, compare_lookup.
  case_bool_decide as Hkk; cbn [negb].
  - rewrite strcmp_eq. rewrite <- Hkk. intuition auto; try congruence.
  - split; [|intuition congruence]. intros [_ [H _]]. apply Z.compare_eq, kind_value_inj in H. congruence.
Qed.

Lemma lookup_keyed p k key fld P best st best' st' :
  indexed p -> indexed_kind k = true -> least P best -> lookup p k key fld best st = (best', st') ->
  least (fun j => P j \/ keyed p k key fld j) best'.
Proof.
  intros Hp Hk Hb H. apply (lookup_spec _ _ _ _ P _ _ _ _ (ix_index p Hp) Hb) in H as [H _].
  eapply least_ext; [|exact H]. intros j. cbv beta. now rewrite (keyed_hit p k key fld j Hp Hk).
Qed.

Lemma lookup_suffixes_spec p l fld P best st best' st' :
  indexed p -> least P best -> lookup_suffixes p l fld best st = (best', st') ->
  least (fun j => P j \/ exists x, x ∈ l /\ keyed p JF_DOMAIN_SUBDOMAINS x fld j) best'.
Proof.
  intros Hp. revert P best st. induction l as [|x l IH]; intros P best st Hb; cbn [lookup_suffixes].
  - intros [= <- <-]. eapply least_ext; [|exact Hb]. intros j. split; [auto|].
    intros [H|(x & Hx & _)]; [exact H|]. now apply elem_of_nil in Hx.
  - destruct (lookup p _ x fld best st) as [best1 st1] eqn:E. intros H.
    apply lookup_keyed with (P := P) in E; auto.
    apply (IH _ _ _ E) in H. eapply least_ext; [|exact H]. intros j. cbv beta. split.
    + intros [[Hj|Hj]|(y & Hy & Hk)]; [auto|right; exists x; split; [left|exact Hj]|].
      right. exists y. split; [now right|exact Hk].
    + intros [Hj|(y & [->|Hy]%elem_of_cons & Hk)]; eauto.
Qed.

Section Correctness.
Context `{RX : PosixRegex}.

Lemma legacy_loop_spec p l mailbox fld P best st best' st' :
  StronglySorted lt l -> least P best ->
  legacy_loop p l mailbox fld best st = Ok (best', st') ->
  least (fun j => P j \/ (j ∈ l /\ selects (rule_at p j) fld = true /\
                          regexec (predicate (rule_at p j)) mailbox = RegMatch)) best' /\
  index_comparisons st' = index_comparisons st /\ regex_checks st' <= regex_checks st + zlen l.
Proof.
  intros Hs. revert st. induction Hs as [|i l Hs IH Hi]; intros st Hb; cbn [legacy_loop].
  { intros [= <- <-]. split_and!; [|reflexivity|unfold zlen; cbn; lia].
    eapply least_ext; [|exact Hb]. intros j. rewrite elem_of_nil. tauto. }
  assert (Hz : zlen (i :: l) = zlen l + 1) by (unfold zlen; cbn [length]; lia). rewrite Hz.
  pose proof Hb as (b & Eb & Pb & Hmin). rewrite Forall_forall in Hi.
  destruct (ptr_lt (Some i) best) eqn:Ei; rewrite Eb in Ei; cbn [ptr_lt] in Ei; cbn [negb].
  2:{ intros [= <- <-]. split_and!; [|reflexivity|unfold zlen; lia].
      apply Nat.ltb_ge in Ei. exists b. split_and!; [exact Eb|auto|].
      intros j [Hj|[Hj _]]; [auto|]. apply elem_of_cons in Hj as [->|Hj]; [exact Ei|].
      specialize (Hi j Hj). lia. }
  apply Nat.ltb_lt in Ei.
  assert (Hskip : forall st1, (selects (rule_at p i) fld = true /\
             regexec (predicate (rule_at p i)) mailbox = RegMatch -> False) ->
           index_comparisons st1 = index_comparisons st -> regex_checks st1 <= regex_checks st + 1 ->
           legacy_loop p l mailbox fld best st1 = Ok (best', st') ->
           least (fun j => P j \/ (j ∈ i :: l /\ selects (rule_at p j) fld = true /\
                          regexec (predicate (rule_at p j)) mailbox = RegMatch)) best' /\
           index_comparisons st' = index_comparisons st /\ regex_checks st' <= regex_checks st + (zlen l + 1)).
  { intros st1 Hno H1 H2 H. apply IH in H as (H3 & H4 & H5); [|exact Hb].
    split_and!; [|congruence|lia]. eapply least_ext; [|exact H3]. intros j. cbv beta.
    rewrite elem_of_cons. split; [tauto|]. intros [Hj|[[->|Hj] Hm]]; auto. now destruct Hno. }
  unfold selects in *. destruct (Z.land (fields (rule_at p i)) fld =? 0) eqn:Ef.
  { apply Hskip; [intros [H _]; discriminate|reflexivity|lia]. }
  destruct (regexec (predicate (rule_at p i)) mailbox) eqn:Er; [| |discriminate].
  - intros [= <- <-]. split_and!; [|reflexivity|cbn; unfold zlen; lia].
    exists i. split_and!; [reflexivity|right; split; [left|split; [now rewrite Ef|exact Er]]|].
    intros j [Hj|[Hj _]]; [specialize (Hmin j Hj); lia|].
    apply elem_of_cons in Hj as [->|Hj]; [lia|]. specialize (Hi j Hj). lia.
  - apply Hskip; [intros [_ H]; discriminate|reflexivity|cbn; lia].
Qed.

(** A validated address, decoded. *)
Record valid_address (a : jf_mailbox) (l d : bytes) : Prop := MkValidAddress {
  va_decode : decode_mailbox (view_list (value a)) = Some (l, ch "@" :: d);
  va_domain : jf_valid_domain d = true;
  va_normal : jf_normalize_mailbox (view_list (value a)) = Some (minimal l (ch "@" :: d)) }.

Lemma normalized_address a t :
  cstr_ok (view_list (value a)) -> jf_normalize_mailbox (view_list (value a)) = Some t ->
  exists l d, valid_address a l d.
Proof.
  intros Hc Hn. pose proof Hn as H. rewrite normalize_refines in H by exact Hc.
  apply normalize_decode in H as (_ & Hv & l & d & Hdec & _ & Ht).
  destruct (decode_clean _ _ _ Hv Hdec) as (Hd & _ & _).
  destruct (at_domain_cons d Hd) as (dom & -> & Hdom).
  exists l, dom. split; [exact Hdec|exact Hdom|congruence].
Qed.

Lemma mailbox_domain l d : jf_valid_domain d = true ->
  after_last (ch "@") (fold_bytes (minimal l (ch "@" :: d))) = fold_bytes d.
Proof.
  intros Hd. rewrite fold_minimal. unfold minimal.
  change (fold_bytes (ch "@" :: d)) with (ch "@" :: fold_bytes d).
  pose proof (valid_domain_no_at d Hd). destruct (dot_atom _ _).
  - now apply after_last_spec.
  - replace (DQ :: escape (fold_bytes l) ++ DQ :: ch "@" :: fold_bytes d)
      with ((DQ :: escape (fold_bytes l) ++ [DQ]) ++ ch "@" :: fold_bytes d) by solve_app.
    now apply after_last_spec.
Qed.

Lemma classify_address_spec p a l d P best st best' st' :
  indexed p -> valid_address a l d -> least P best ->
  classify_address p a best st = Ok (best', st') ->
  least (fun j => P j \/ ((j < length (entries p))%nat /\ address_match (rule_at p j) a)) best'.
Proof.
  intros Hp [Hdec Hdom Hn] Hb. unfold classify_address. rewrite Hn.
  change (default [] (Some (minimal l (ch "@" :: d)))) with (minimal l (ch "@" :: d)).
  set (exact_ := minimal l (ch "@" :: d)). cbv zeta.
  destruct (lookup p JF_ADDRESS _ _ best st) as [b1 s1] eqn:E1.
  apply lookup_keyed with (P := P) in E1; auto.
  assert (Hda : after_last (ch "@") (fold_bytes exact_) = fold_bytes d) by now apply mailbox_domain.
  rewrite Hda.
  destruct (lookup p JF_DOMAIN_APEX _ _ b1 s1) as [b2 s2] eqn:E2.
  apply (lookup_keyed p JF_DOMAIN_APEX) with (1 := Hp) (2 := eq_refl) (3 := E1) in E2.
  destruct (lookup_suffixes p _ _ b2 s2) as [b3 s3] eqn:E3.
  apply (lookup_suffixes_spec p) with (1 := Hp) (2 := E2) in E3.
  intros H.
  assert (H4 : least (fun j => ((((P j \/ keyed p JF_ADDRESS (fold_bytes exact_) (field a) j) \/
     keyed p JF_DOMAIN_APEX (fold_bytes d) (field a) j) \/
     exists x, x ∈ suffixes (fold_bytes d) /\ keyed p JF_DOMAIN_SUBDOMAINS x (field a) j) \/
     (j ∈ legacy p /\ selects (rule_at p j) (field a) = true /\
      regexec (predicate (rule_at p j)) exact_ = RegMatch))) best').
  { destruct (length (legacy p) =? 0)%nat eqn:El.
    - injection H as <- <-. apply Nat.eqb_eq, nil_length_inv in El. rewrite El.
      eapply least_ext; [|exact E3]. intros j. rewrite elem_of_nil. tauto.
    - destruct uselocale_ok; [|discriminate]. cbn [negb] in H.
      eapply (legacy_loop_spec p) in H as [H _]; [exact H| |exact E3].
      rewrite (ix_legacy p Hp). apply sorted_filter, seq_sorted. }
  eapply least_ext; [|exact H4]. clear -Hp Hdec. intros j. cbv beta.
  rewrite (ix_legacy p Hp), positions_elem. unfold is_kind.
  assert (Hm : address_match (rule_at p j) a <->
               selects (rule_at p j) (field a) = true /\ parts_match (rule_at p j) l d).
  { unfold address_match. split.
    - intros (Hs & l' & d' & Hd' & Hm). rewrite Hdec in Hd'. injection Hd' as <- <-. auto.
    - intros [Hs Hm]. eauto. }
  rewrite Hm. unfold keyed, parts_match, index_key. setoid_rewrite suffixes_spec.
  destruct (kind (rule_at p j)); repeat (case_bool_decide; try discriminate);
    cbn [drop] in *; naive_solver.
Qed.
End Correctness.

(** ** Validated messages *)

(** The bytes of a message are bytes. *)
Definition message_bytes (m : jf_message) : Prop :=
  Forall (fun a => bytes_ok (view_list (value a))) (view_list (addresses m)).

Lemma validate_addresses_Ok l total sender r :
  Forall (fun a => bytes_ok (view_list (value a))) l ->
  validate_addresses l total sender = Ok r -> Forall (fun a => exists l d, valid_address a l d) l.
Proof.
  revert total sender. induction l as [|a l IH]; intros total sender Hb; [constructor|].
  cbn [validate_addresses]. inversion Hb as [|? ? Ha Hl]; subst.
  destruct (_ && _ && _ && _); [discriminate|].
  rewrite res_bind_Ok. intros (n & _ & H).
  destruct (jf_valid_utf8 _) eqn:Eu; [|discriminate]. cbn [negb] in H.
  destruct (jf_normalize_mailbox _) as [t|] eqn:En; [|discriminate].
  constructor; [|eapply IH; [exact Hl|exact H]].
  eapply normalized_address; [|exact En]. now apply utf8_text_cstr, valid_utf8_spec.
Qed.

Section Winner.
Context `{RX : PosixRegex}.

Lemma classify_addresses_spec p l P best st best' st' :
  indexed p -> Forall (fun a => exists l d, valid_address a l d) l -> least P best ->
  classify_addresses p l best st = Ok (best', st') ->
  least (fun j => P j \/ ((j < length (entries p))%nat /\
                          exists a, a ∈ l /\ address_match (rule_at p j) a)) best'.
Proof.
  intros Hp Hv. revert P best st. induction Hv as [|a l (x & d & Ha) Hl IH]; intros P best st Hb;
    cbn [classify_addresses].
  - intros [= <- <-]. eapply least_ext; [|exact Hb]. intros j. split; [auto|].
    intros [H|(_ & a & Ha & _)]; [exact H|]. now apply elem_of_nil in Ha.
  - rewrite res_bind_Ok. intros ([b1 s1] & E & H).
    apply (classify_address_spec p a x d P) in E; auto.
    apply (IH _ _ _ E) in H. eapply least_ext; [|exact H]. intros j. cbv beta. split.
    + intros [[Hj|[Hj Hm]]|(Hj & y & Hy & Hm)]; [auto|right; split; [exact Hj|exists a; split; [left|exact Hm]]|].
      right. split; [exact Hj|]. exists y. split; [now right|exact Hm].
    + intros [Hj|(Hj & y & [->|Hy]%elem_of_cons & Hm)]; eauto 10.
Qed.

(** The builtin candidates. *)
Definition builtin_match (p : jf_policy) (m : jf_message) (j : nat) : Prop :=
  (j < length (entries p))%nat /\ message_match (rule_at p j) m /\
  (kind (rule_at p j) = JF_SENDER_CONTAINS \/ kind (rule_at p j) = JF_SPAM_IS \/
   kind (rule_at p j) = JF_ALWAYS).

Lemma single_position f es b : positions f es = [b] ->
  forall j, (j < length es)%nat -> f (kind (rule (entry_at es j))) = true -> j = b.
Proof.
  intros E j Hj Hf. assert (H : j ∈ positions f es) by now apply positions_elem.
  rewrite E in H. now apply list_elem_of_singleton in H.
Qed.

Lemma fold_choose {A} (t : A -> bool) (x best : option nat) l :
  fold_left (fun b s => if t s then x else b) l best = if existsb t l then x else best.
Proof.
  revert best. induction l as [|a l IH]; intros best; cbn; [reflexivity|].
  rewrite IH. now destruct (t a), (existsb t l).
Qed.

Lemma fold_choose_lt {A} (t : A -> bool) (x best : option nat) l :
  fold_left (fun b s => if t s && ptr_lt x b then x else b) l best =
  if existsb t l && ptr_lt x best then x else best.
Proof.
  revert best. induction l as [|a l IH]; intros best; cbn; [reflexivity|].
  rewrite IH. destruct (t a); cbn; [|reflexivity].
  destruct (ptr_lt x best) eqn:E; cbn; [|now rewrite E, andb_false_r].
  now destruct (existsb t l && ptr_lt x x).
Qed.

Lemma builtins_spec p m : indexed p -> least (builtin_match p m) (classify_builtins p m).
Proof.
  intros Hp. destruct (ix_bounce p Hp) as (b & Eb & Pb). destruct (ix_spam p Hp) as (s & Es & Ps).
  destruct (ix_fallback p Hp) as (f & Ef & Pf). pose proof (ix_order p Hp) as Ho.
  unfold classify_builtins. rewrite fold_choose, fold_choose_lt, Eb, Es, Ef.
  rewrite Eb, Ef in Ho. cbn [ptr_lt] in Ho. apply Nat.ltb_lt in Ho.
  assert (Hpos : forall k x, positions (is_kind k) (entries p) = [x] ->
            (x < length (entries p))%nat /\ kind (rule_at p x) = k).
  { intros k x E. assert (H : x ∈ positions (is_kind k) (entries p)) by (rewrite E; left).
    apply positions_elem in H as [H1 H2]. unfold is_kind in H2. case_bool_decide; auto. discriminate. }
  destruct (Hpos _ _ Pb) as [Lb Kb]. destruct (Hpos _ _ Ps) as [Ls Ks].
  destruct (Hpos _ _ Pf) as [Lf Kf]. clear Hpos.
  set (tb := existsb (fun s => raw_match (view_list s) (str "mailman-bounce") true) (view_list (senders m))).
  set (ts := existsb (fun s => raw_match (view_list s) (str "YES") false) (view_list (spam_flags m))).
  assert (Hb : tb = true <-> message_match (rule_at p b) m).
  { unfold tb, message_match. rewrite Kb, existsb_exists. setoid_rewrite raw_match_contains.
    now setoid_rewrite list_elem_of_In. }
  assert (Hs : ts = true <-> message_match (rule_at p s) m).
  { unfold ts, message_match. rewrite Ks, existsb_exists. setoid_rewrite raw_match_is.
    now setoid_rewrite list_elem_of_In. }
  assert (Hf : message_match (rule_at p f) m) by (unfold message_match; now rewrite Kf).
  assert (Hj : forall j, builtin_match p m j <->
            (j = b /\ tb = true) \/ (j = s /\ ts = true) \/ j = f).
  { intros j. unfold builtin_match. rewrite Hb, Hs. split.
    - intros (Hl & Hm & Hk).
      destruct Hk as [Hk|[Hk|Hk]];
        [pose proof (single_position _ _ _ Pb j Hl) as E
        |pose proof (single_position _ _ _ Ps j Hl) as E
        |pose proof (single_position _ _ _ Pf j Hl) as E];
        unfold is_kind in E; rewrite Hk, bool_decide_true in E by reflexivity;
        specialize (E eq_refl); subst j; auto.
    - intros [[-> H]|[[-> H]| ->]]; split_and!; auto. }
  eapply least_ext; [intros j; symmetry; apply Hj|]. clear -Ho.
  destruct tb, ts; cbn [andb ptr_lt]; repeat (case_test; boolify);
    repeat match goal with H : (_ <? _)%nat = _ |- _ => apply Nat.ltb_lt in H || apply Nat.ltb_ge in H end;
    eexists; (split; [reflexivity|]); (split; [auto|]); intros j; intuition (subst; try discriminate; lia).
Qed.

Lemma check_message_valid m r :
  message_bytes m -> check_message m = Ok r ->
  Forall (fun a => exists l d, valid_address a l d) (view_list (addresses m)).
Proof.
  intros Hm. unfold check_message. repeat case_test; try discriminate. unfold validate_message.
  rewrite res_bind_Ok. intros ([t s] & H & _). eapply validate_addresses_Ok; [exact Hm|exact H].
Qed.

Lemma message_match_split p m j :
  (j < length (entries p))%nat /\ message_match (rule_at p j) m <->
  builtin_match p m j \/ ((j < length (entries p))%nat /\
     exists a, a ∈ view_list (addresses m) /\ address_match (rule_at p j) a).
Proof.
  unfold builtin_match, message_match. split.
  - intros [Hj H]. destruct (kind (rule_at p j)); auto 10.
  - intros [[Hj [H _]]|[Hj (a & Ha & H)]]; [auto|]. split; [exact Hj|].
    destruct (kind (rule_at p j)) eqn:E; eauto;
      destruct H as (_ & l & d & _ & H); unfold parts_match in H; now rewrite E in H.
Qed.

Lemma validate_text_rc text total rc e : validate_text text total = Fail rc e -> rc = 7.
Proof. unfold validate_text. repeat case_test; intros H; try discriminate; now injection H. Qed.

Lemma check_message_rc m rc e : check_message m = Fail rc e -> rc = 7.
Proof.
  assert (Hts : forall l total rc e, validate_texts l total = Fail rc e -> rc = 7).
  { clear. induction l as [|x l IH]; intros total rc e; cbn [validate_texts]; [discriminate|].
    rewrite res_bind_Fail. intros [H|(n & _ & H)]; [now apply validate_text_rc in H|eauto]. }
  assert (Has : forall l total sender rc e, validate_addresses l total sender = Fail rc e -> rc = 7).
  { clear. induction l as [|x l IH]; intros total sender rc e; cbn [validate_addresses]; [discriminate|].
    case_test; [intros H; now injection H|]. rewrite res_bind_Fail.
    intros [H|(n & _ & H)]; [now apply validate_text_rc in H|].
    case_test; [now injection H|]. destruct (jf_normalize_mailbox _); [eauto|now injection H]. }
  unfold check_message. do 2 (case_test; [intros H; now injection H|]). unfold validate_message.
  rewrite res_bind_Fail. intros [H|([t s] & _ & H)]; [eauto|]. rewrite res_bind_Fail in H.
  destruct H as [H|(v & _ & H)]; [eauto|]. case_test; [now injection H|].
  all: rewrite res_bind_Fail in H; destruct H as [H|(u & _ & H)]; [eauto|discriminate].
Qed.

Lemma classify_addresses_total p l best st :
  uselocale_ok = true -> (forall pat s, regexec pat s <> RegError) ->
  exists r, classify_addresses p l best st = Ok r.
Proof.
  intros Hu Hr.
  assert (Hl : forall l mb fld best st, exists r, legacy_loop p l mb fld best st = Ok r).
  { clear l best st. induction l as [|i l IH]; intros mb fld best st; cbn [legacy_loop]; [eauto|].
    case_test; [eauto|]. case_test; [eauto|].
    destruct (regexec _ _) eqn:E; [eauto|eauto|]. now apply Hr in E. }
  revert best st. induction l as [|a l IH]; intros best st; cbn [classify_addresses]; [eauto|].
  assert (H : exists r, classify_address p a best st = Ok r).
  { unfold classify_address. do 3 (match goal with |- context [let '(_, _) := ?x in _] => destruct x end).
    case_test; [eauto|]. rewrite Hu. cbn [negb]. apply Hl. }
  destruct H as [[b1 s1] ->]. cbn. apply IH.
Qed.

(** C1. The winner of a classification is the first rule of the resolved order
    that applies to the message: it applies, by the declarative meaning of its
    kind, and no rule before it does.  The binary searches, the suffix lookups,
    the ordered scan of the regular expressions and the three builtin shortcuts
    together miss nothing. *)
Theorem classify_first_match p m w st :
  indexed p -> message_bytes m ->
  jf_policy_classify (Some p) (Some m) = Ok (w, st) ->
  exists i, w = Some i /\ (i < length (entries p))%nat /\ message_match (rule_at p i) m /\
    forall j, (j < length (entries p))%nat -> message_match (rule_at p j) m -> (i <= j)%nat.
Proof.
  intros Hp Hm. cbn [jf_policy_classify]. rewrite res_bind_Ok. intros (u & Hc & H).
  apply (classify_addresses_spec p _ (builtin_match p m)) in H;
    [|exact Hp|eapply check_message_valid; eassumption|now apply builtins_spec].
  apply (least_ext _ (fun j => (j < length (entries p))%nat /\ message_match (rule_at p j) m)) in H;
    [|intros j; symmetry; apply message_match_split].
  destruct H as (b & -> & [Hb Mb] & Hmin). exists b. split_and!; auto.
Qed.

(** C19. Classification decides every message: when the regular expressions
    execute, a message that passes the checks has a winner, and one that fails
    them is refused with status 7 and an error that does not depend on the
    policy, before any rule is considered. *)
Theorem classify_decides p m :
  indexed p -> message_bytes m -> uselocale_ok = true ->
  (forall pat s, regexec pat s <> RegError) ->
  match check_message m with
  | Ok _ => exists i st, jf_policy_classify (Some p) (Some m) = Ok (Some i, st)
  | Fail rc e => rc = 7 /\ jf_policy_classify (Some p) (Some m) = Fail 7 e
  end.
Proof.
  intros Hp Hm Hu Hr. cbn [jf_policy_classify]. destruct (check_message m) as [[]|rc e] eqn:E.
  - destruct (classify_addresses_total p (view_list (addresses m)) (classify_builtins p m) no_stats Hu Hr)
      as [[w st] H].
    pose proof H as H'. apply (classify_addresses_spec p _ (builtin_match p m)) in H' as (b & -> & _);
      [|exact Hp|eapply check_message_valid; eassumption|now apply builtins_spec].
    exists b, st. exact H.
  - apply check_message_rc in E as ->. auto.
Qed.

(** A lookup over an index of n entries makes at most floor(log2 n) + 2
    comparisons more than there are entries of the looked-up key: there is no
    scan of the typed rules. *)
Theorem lookup_comparisons p k key fld b st best' st' :
  indexed p -> lookup p k key fld (Some b) st = (best', st') ->
  (0 < length (index p))%nat ->
  regex_checks st' = regex_checks st /\
  index_comparisons st <= index_comparisons st' <=
    index_comparisons st + Z.of_nat (Nat.log2 (length (index p))) + 2 +
    zlen (List.filter (fun i => is_eq (compare_lookup k key (entry_at (entries p) i))) (index p)).
Proof.
  intros Hp H Hn. apply (lookup_spec p k key fld (fun j => j = b)) in H as (_ & H1 & H2 & H3);
    [|apply (ix_index p Hp)|exists b; split_and!; auto; intros j ->; reflexivity].
  unfold search_cost in H3. apply Nat.ltb_lt in Hn. rewrite Hn in H3. split_and!; auto. lia.
Qed.
End Winner.

(** *** An example *)

Definition entry_of (k : jf_kind) (st fl : Z) (sel pred dest : string) (i : nat) : jf_entry :=
  MkEntry (example_rule k st fl sel pred dest 0) (bool_decide (k = JF_ERE)) false i 0.

Definition sample_entries : list jf_entry :=
  [entry_of JF_ADDRESS 1 1 "blacklist" "bad@spam.example" "zz.blacklist" 0;
   entry_of JF_SENDER_CONTAINS 2 2 "bounce" "mailman-bounce" "zz.bounces" 1;
   entry_of JF_DOMAIN_SUBDOMAINS 3 3 "from-domain" "*.dyne.org" "dyne" 2;
   entry_of JF_ERE 4 12 "to" "list" "lists" 3;
   entry_of JF_SPAM_IS 6 16 "spam" "YES" "spam" 4;
   entry_of JF_ALWAYS 8 0 "unsorted" "" "unsorted" 5].

Definition sample_policy : jf_policy :=
  MkPolicy sample_entries 32 0 (qsort (compare_index sample_entries) (positions indexed_kind sample_entries))
    [3%nat] (Some 1%nat) (Some 4%nat) (Some 5%nat).

Lemma sample_indexed : indexed sample_policy.
Proof. split; try (vm_compute; reflexivity); eexists; (split; [vm_compute; reflexivity|]); vm_compute; reflexivity. Qed.

Definition sample_message : jf_message :=
  MkMessage (View [MkMailbox JF_FROM (View (str "Jaromil@Mail.Dyne.org"));
                   MkMailbox JF_TO (View (str "mailing-list@example.org"))])
    (NullView 0) (View [View (str " yes ")]).

Lemma sample_bytes : message_bytes sample_message.
Proof. vm_compute. repeat constructor; discriminate. Qed.

Lemma classify_first_match_witness :
  exists i, Some 2%nat = Some i /\ (i < length sample_entries)%nat /\
    message_match (RX:=fixed_strings) (rule (entry_at sample_entries i)) sample_message /\
    forall j, (j < length sample_entries)%nat ->
      message_match (RX:=fixed_strings) (rule (entry_at sample_entries j)) sample_message -> (i <= j)%nat.
Proof.
  apply (classify_first_match (RX:=fixed_strings) sample_policy sample_message (Some 2%nat) (MkStats 17 0)
           sample_indexed sample_bytes).
  vm_compute. reflexivity.
Defined.

Lemma classify_decides_witness :
  match check_message sample_message with
  | Ok _ => exists i st, jf_policy_classify (RX:=fixed_strings) (Some sample_policy) (Some sample_message)
                           = Ok (Some i, st)
  | Fail rc e => rc = 7 /\
      jf_policy_classify (RX:=fixed_strings) (Some sample_policy) (Some sample_message) = Fail 7 e
  end.
Proof.
  apply (classify_decides (RX:=fixed_strings) sample_policy sample_message sample_indexed sample_bytes);
    [reflexivity|]. intros pat s. cbn. destruct (contains _ _); discriminate.
Defined.

Lemma lookup_comparisons_witness :
  regex_checks (MkStats 4 0) = regex_checks no_stats /\
  index_comparisons no_stats <= index_comparisons (MkStats 4 0) <=
    index_comparisons no_stats + Z.of_nat (Nat.log2 (length (index sample_policy))) + 2 +
    zlen (List.filter (fun i => is_eq (compare_lookup JF_ADDRESS (str "bad@spam.example")
                                         (entry_at (entries sample_policy) i))) (index sample_policy)).
Proof.
  apply (lookup_comparisons sample_policy JF_ADDRESS (str "bad@spam.example") JF_FROM 5 no_stats
           (Some 0%nat) (MkStats 4 0) sample_indexed); [vm_compute; reflexivity|vm_compute; lia].
Defined.

(** ** Classification depends on the matching part of the rules only *)

(** What a classification reads of a rule. *)
Definition matching (e : jf_entry) : jf_kind * Z * bytes := (kind (rule e), fields (rule e), predicate (rule e)).

Section Congruence.
Context `{RX : PosixRegex} (p q : jf_policy).
Hypothesis same : map matching (entries p) = map matching (entries q).
Hypothesis Hp : indexed p.
Hypothesis Hq : indexed q.

Lemma same_entry i : matching (entry_at (entries p) i) = matching (entry_at (entries q) i).
Proof.
  unfold entry_at. rewrite <- !(map_nth matching). now rewrite same.
Qed.

Lemma same_parts i : kind (rule (entry_at (entries p) i)) = kind (rule (entry_at (entries q) i)) /\
  fields (rule (entry_at (entries p) i)) = fields (rule (entry_at (entries q) i)) /\
  predicate (rule (entry_at (entries p) i)) = predicate (rule (entry_at (entries q) i)).
Proof. pose proof (same_entry i) as [= H1 H2 H3]. auto. Qed.

Lemma same_length : length (entries p) = length (entries q).
Proof. apply (f_equal length) in same. now rewrite !length_map in same. Qed.

Lemma same_positions f : positions f (entries p) = positions f (entries q).
Proof.
  unfold positions. rewrite same_length. apply List.filter_ext. intros i. now destruct (same_parts i) as (-> & _).
Qed.

Lemma same_key i : index_key (entry_at (entries p) i) = index_key (entry_at (entries q) i).
Proof. unfold index_key. now destruct (same_parts i) as (-> & _ & ->). Qed.

Lemma same_index : index p = index q.
Proof.
  rewrite (ix_index p Hp), (ix_index q Hq), same_positions. apply qsort_ext. intros i j _ _. unfold compare_index.
  destruct (same_parts i) as (-> & _), (same_parts j) as (-> & _). now rewrite !same_key.
Qed.

Lemma same_lookup_compare k key i :
  compare_lookup k key (entry_at (entries p) i) = compare_lookup k key (entry_at (entries q) i).
Proof. unfold compare_lookup. destruct (same_parts i) as (-> & _). now rewrite same_key. Qed.

Lemma same_search fuel k key low high st : search fuel p k key low high st = search fuel q k key low high st.
Proof.
  revert low high st. induction fuel as [|fuel IH]; intros low high st; cbn [search]; [reflexivity|].
  rewrite same_index, same_lookup_compare, !IH. reflexivity.
Qed.

Lemma same_scan k key fld l best st : scan p k key fld l best st = scan q k key fld l best st.
Proof.
  revert best st. induction l as [|i l IH]; intros best st; cbn [scan]; [reflexivity|].
  rewrite same_lookup_compare. destruct (same_parts i) as (_ & -> & _). now rewrite IH.
Qed.

Lemma same_lookup k key fld best st : lookup p k key fld best st = lookup q k key fld best st.
Proof. unfold lookup. rewrite same_search, same_index. destruct (search _ _ _ _ _ _ _). apply same_scan. Qed.

Lemma same_suffixes l fld best st : lookup_suffixes p l fld best st = lookup_suffixes q l fld best st.
Proof.
  revert best st. induction l as [|d l IH]; intros best st; cbn [lookup_suffixes]; [reflexivity|].
  rewrite same_lookup. destruct (lookup _ _ _ _ _ _). apply IH.
Qed.

Lemma same_legacy l mailbox fld best st : legacy_loop p l mailbox fld best st = legacy_loop q l mailbox fld best st.
Proof.
  revert best st. induction l as [|i l IH]; intros best st; cbn [legacy_loop]; [reflexivity|].
  destruct (same_parts i) as (_ & -> & ->). now rewrite !IH.
Qed.

Lemma same_addresses l best st : classify_addresses p l best st = classify_addresses q l best st.
Proof.
  revert best st. induction l as [|a l IH]; intros best st; cbn [classify_addresses]; [reflexivity|].
  assert (E : classify_address p a best st = classify_address q a best st).
  { unfold classify_address. rewrite same_lookup. destruct (lookup q JF_ADDRESS _ _ _ _).
    rewrite same_lookup. destruct (lookup q JF_DOMAIN_APEX _ _ _ _). rewrite same_suffixes.
    destruct (lookup_suffixes _ _ _ _ _). rewrite (ix_legacy p Hp), (ix_legacy q Hq), same_positions.
    now rewrite same_legacy. }
  rewrite E. destruct (classify_address q a best st) as [[b s]|]; cbn; [apply IH|reflexivity].
Qed.

Lemma same_builtins : bounce p = bounce q /\ spam p = spam q /\ fallback p = fallback q.
Proof.
  destruct (ix_bounce p Hp) as (b1 & -> & E1), (ix_bounce q Hq) as (b2 & -> & E2).
  destruct (ix_spam p Hp) as (b3 & -> & E3), (ix_spam q Hq) as (b4 & -> & E4).
  destruct (ix_fallback p Hp) as (b5 & -> & E5), (ix_fallback q Hq) as (b6 & -> & E6).
  rewrite same_positions in E1, E3, E5. split_and!; congruence.
Qed.

(** Two indexed policies with the same kinds, fields and predicates decide
    every message the same way, with the same work. *)
Lemma classify_congruence m : jf_policy_classify (Some p) m = jf_policy_classify (Some q) m.
Proof.
  destruct m as [m|]; [|reflexivity]. cbn [jf_policy_classify]. destruct (check_message m); [|reflexivity]. cbn.
  unfold classify_builtins. destruct same_builtins as (-> & -> & ->). apply same_addresses.
Qed.
End Congruence.
