(* ===== verification/Policy.v ===== *)
(** * Policy construction (src/filter/policy.c)

    [jf_policy_parse] from source buffers to an indexed policy, and
    [jf_policy_restore] from the records of a validated cache. *)
From S2P Require Import Prelude Sha256 Utf8 Mailbox Lexer Rules Resolve Classify.

(** ** Sources as the caller passes them *)

(** [struct jf_source] before its checks: any kind, null pointers allowed. *)
Record source_arg := MkSourceArg {
  a_kind : Z; a_identity : option bytes; a_path : option bytes; a_data : view Z }.

Definition source_kind_of (k : Z) : option jf_source_kind :=
  if k =? 0 then Some JF_FILTERS else if k =? 1 then Some JF_ACCOUNT
  else if k =? 2 then Some JF_ALIASES else if k =? 3 then Some JF_KNOWN
  else if k =? 4 then Some JF_BLACKLIST else None.

(** [struct source_ref]. *)
Record source_ref := MkRef { ref_source : jf_source; ref_index : nat }.

Definition compare_sources (x y : source_ref) : comparison :=
  cmp_then (source_kind_value (s_kind (ref_source x)) ?= source_kind_value (s_kind (ref_source y)))
    (cmp_then (strcmp (identity (ref_source x)) (identity (ref_source y)))
       (Nat.compare (ref_index x) (ref_index y))).

Definition check_source (i : nat) (a : source_arg) : res source_ref :=
  let p := MkParser (Z.of_nat i) 0 in
  match source_kind_of (a_kind a), a_identity a, a_path a with
  | Some k, Some ((_ :: _) as idn), Some pth =>
      if missing (a_data a) then fail p "E_ARGUMENT" (str "invalid source")
      else if JF_INPUT_MAX <? view_count (a_data a)
      then fail p "E_INPUT_LIMIT" (str "policy input exceeds 64 MiB")
      else Ok (MkRef (MkSource k idn pth (view_list (a_data a))) i)
  | _, _, _ => fail p "E_ARGUMENT" (str "invalid source")
  end.

Fixpoint check_sources (i : nat) (l : list source_arg) : res (list source_ref) :=
  match l with
  | [] => Ok []
  | a :: t => r ← check_source i a; rs ← check_sources (S i) t; Ok (r :: rs)
  end.

(** ** Physical lines *)

Definition not_lf (c : Z) : bool := negb (c =? LF).

(** The next line without its line feed, and the bytes after it. *)
Definition next_line (d : bytes) : bytes * bytes :=
  (take_while not_lf d, drop 1 (drop_while not_lf d)).

(** [if (n && data[start+n-1]=='\r') n--]. *)
Definition strip_cr (l : bytes) : bytes :=
  match rev l with
  | c :: t => if c =? CR then rev t else l
  | [] => l
  end.

Section Parse.
Context `{AL : Allocator} `{RX : PosixRegex}.

(** The loop over the lines of a source; every line consumes a byte. *)
Fixpoint parse_lines (fuel : nat) (p : parser) (s : jf_source) (d : bytes) (pol : jf_policy) :
    res jf_policy :=
  match fuel, d with
  | S fuel', _ :: _ =>
      let '(l, rest) := next_line d in
      let p := MkParser (p_source p) (p_line p + 1) in
      let l := strip_cr l in
      if JF_LINE_MAX <? zlen l then fail p "E_LINE_LIMIT" (str "policy line exceeds 64 KiB")
      else if negb (jf_valid_utf8 l) then fail p "E_UTF8" (str "invalid UTF8 or NUL input")
      else pol ← parse_line p s l pol; parse_lines fuel' p s rest pol
  | _, _ => Ok pol
  end.

Definition parse_source (r : source_ref) (pol : jf_policy) : res jf_policy :=
  let p := MkParser (Z.of_nat (ref_index r)) 0 in
  match allocate pol with
  | None => fail p "E_MEMORY" (str "line allocation failed")
  | Some pol => parse_lines (length (data (ref_source r))) p (ref_source r) (data (ref_source r)) pol
  end.

Fixpoint parse_sources (l : list source_ref) (pol : jf_policy) : res jf_policy :=
  match l with
  | [] => Ok pol
  | r :: t => pol ← parse_source r pol; parse_sources t pol
  end.

Definition append_builtins (p : parser) (pol : jf_policy) : res jf_policy :=
  pol ← append p None (str "bounce") (str "mailman-bounce") (str "zz.bounces")
          JF_SENDER_CONTAINS 2 JF_SENDER pol;
  pol ← append p None (str "spam") (str "YES") (str "spam") JF_SPAM_IS 6 JF_SPAM pol;
  append p None (str "unsorted") [] (str "unsorted") JF_ALWAYS 8 0 pol.

Definition no_policy : jf_policy := MkPolicy [] 0 0 [] [] None None None.

(** [sizeof (struct source_ref)]. *)
Definition sizeof_source_ref : Z := 16.

Definition jf_policy_parse (sources : view source_arg) : res jf_policy :=
  let p := MkParser SIZE_MAX 0 in
  if missing sources || (SIZE_MAX / sizeof_source_ref <? view_count sources)
  then fail p "E_ARGUMENT" (str "invalid snapshot/allocator")
  else match allocate no_policy with
  | None => fail p "E_MEMORY" (str "policy allocation failed")
  | Some pol =>
      if negb newlocale_ok then fail p "E_MEMORY" (str "cannot create C regex locale")
      else
        pol ← (if view_count sources =? 0 then Ok pol
               else match allocate pol with
                    | None => fail p "E_MEMORY" (str "source index allocation failed")
                    | Some pol => Ok pol
                    end);
        refs ← check_sources 0 (view_list sources);
        pol ← parse_sources (qsort compare_sources refs) pol;
        pol ← append_builtins p pol;
        pol ← resolve p pol;
        jf_policy_build_index pol
  end.

(** [NULL] for no policy, or beyond its rules. *)
Definition jf_policy_rule (p : option jf_policy) (i : Z) : option jf_rule :=
  match p with
  | Some p => if (0 <=? i) && (i <? zlen (entries p)) then rule <$> entries p !! Z.to_nat i else None
  | None => None
  end.

(** ** Restoring a policy from cached records *)

(** The 12 fields of an R record; a missing one reads as empty. *)
Definition jf_cached_rule : Type := list bytes.
Definition cfield (r : jf_cached_rule) (i : nat) : bytes := nth i r [].

Definition cached_number (text : bytes) : Z :=
  fold_left (fun n c => size_t (n * 10 + (c - ch "0"))) text 0.

Definition cached_kind (text : bytes) : jf_kind :=
  if streq text (str "address") then JF_ADDRESS
  else if streq text (str "domain-apex") then JF_DOMAIN_APEX
  else if streq text (str "domain-subdomains") then JF_DOMAIN_SUBDOMAINS
  else if streq text (str "ere") then JF_ERE
  else if streq text (str "sender-contains") then JF_SENDER_CONTAINS
  else if streq text (str "spam-is") then JF_SPAM_IS else JF_ALWAYS.

Definition to_unsigned (n : Z) : Z := n mod 2 ^ 32.

Definition restore_entry (i : nat) (f : jf_cached_rule) : jf_entry :=
  MkEntry (MkRule (cached_kind (cfield f 2)) (to_unsigned (cached_number (cfield f 1)))
             (to_unsigned (cached_number (cfield f 3))) [] (cfield f 5) (str "move")
             (cfield f 6) (cfield f 7) (cfield f 8) (cfield f 9) []
             (cached_number (cfield f 10)) 1 (cfield f 4))
    false false i 0.

Definition restore_memory {A} : res A :=
  fail (MkParser SIZE_MAX 0) "E_MEMORY" (str "cache policy allocation failed").

Fixpoint restore_loop (i : nat) (records : list jf_cached_rule) (pol : jf_policy) : res jf_policy :=
  match records with
  | [] => Ok pol
  | f :: t =>
      let e := restore_entry i f in
      match allocates 7 pol with
      | None => restore_memory
      | Some pol =>
          e ← (if bool_decide (kind (rule e) = JF_ERE) then
                 if negb uselocale_ok then restore_memory
                 else match regcomp (predicate (rule e)) with
                      | RegCompiled => Ok (set_compiled e)
                      | RegSpace _ => fail (MkParser SIZE_MAX 0) "E_MEMORY"
                                        (str "cached regex compilation failed")
                      | RegBad _ => error "E_CACHE" (str "cached regex compilation failed") 5
                      end
               else Ok e);
          restore_loop (S i) t (set_entries pol (entries pol ++ [e]))
      end
  end.

Definition jf_policy_restore (records : list jf_cached_rule) : res jf_policy :=
  let count := zlen records in
  if (count <? JF_BUILTIN_RULES) || (JF_RULE_RECORD_MAX <? count)
  then fail (MkParser SIZE_MAX 0) "E_MEMORY" (str "invalid cache reconstruction allocator/count")
  else match allocate no_policy with
  | None => fail (MkParser SIZE_MAX 0) "E_MEMORY" (str "policy allocation failed")
  | Some pol =>
      if negb newlocale_ok then restore_memory
      else match allocate pol with
      | None => restore_memory
      | Some pol =>
          pol ← restore_loop 0 records
                  (MkPolicy [] count (requests pol) [] [] None None None);
          jf_policy_build_index pol
      end
  end.
End Parse.

(** ** The rules a source can define *)

Definition route (r : jf_rule) : bytes * Z * Z := (selector r, stage r, fields r).

(** A rule read from a source line: canonical predicate of its kind, a selector
    with its stage and fields, and a safe relative destination. *)
Definition user_shape (r : jf_rule) : Prop :=
  action r = str "move" /\
  utf8_text (predicate r) /\ predicate r <> [] /\ zlen (predicate r) <= JF_LINE_MAX /\
  utf8_text (logical r) /\ destination (logical r) = true /\ local r = logical r /\
  sieve r = (if streq (logical r) (str "known") then str "INBOX" else logical r) /\
  match kind r with
  | JF_ADDRESS =>
      normalize_spec (predicate r) = Some (predicate r) /\ fold_bytes (predicate r) = predicate r /\
      route r ∈ [(str "blacklist", 1, 1); (str "from-address", 3, 3); (str "to-address", 4, 12);
                 (str "known", 5, 1); (str "own", 7, 12)]
  | JF_DOMAIN_APEX =>
      jf_valid_domain (predicate r) = true /\ fold_bytes (predicate r) = predicate r /\
      route r ∈ [(str "from-domain", 3, 3); (str "to-domain", 4, 12); (str "known-domain", 5, 1)]
  | JF_DOMAIN_SUBDOMAINS =>
      (exists d, predicate r = str "*." ++ d /\ jf_valid_domain d = true) /\
      fold_bytes (predicate r) = predicate r /\
      route r ∈ [(str "from-domain", 3, 3); (str "to-domain", 4, 12); (str "known-domain", 5, 1)]
  | JF_ERE => route r ∈ [(str "from", 3, 3); (str "to", 4, 12)]
  | _ => False
  end.

(** The same, before resolution. *)
Definition user_rule (r : jf_rule) : Prop := user_shape r /\ id r = [] /\ occurrence r = 1.

(** A policy under construction. *)
Record building (pol : jf_policy) : Prop := MkBuilding {
  b_fresh : fresh (entries pol);
  b_user : Forall (fun e => user_rule (rule e) /\ compiled e = false) (entries pol);
  b_builtins : bounce pol = None /\ spam pol = None /\ fallback pol = None }.

(** [pol'] is [pol] with more entries and more requests made. *)
Definition extends (pol pol' : jf_policy) (new : list jf_entry) : Prop :=
  entries pol' = entries pol ++ new /\
  bounce pol' = bounce pol /\ spam pol' = spam pol /\ fallback pol' = fallback pol.

Lemma fold_byte_idem c : fold_byte (fold_byte c) = fold_byte c.
Proof. unfold fold_byte. repeat case_test; boolify; lia. Qed.

Lemma fold_idem s : fold_bytes (fold_bytes s) = fold_bytes s.
Proof. unfold fold_bytes. rewrite map_map. apply map_ext. apply fold_byte_idem. Qed.

Lemma trim_utf8 s : utf8_text s -> utf8_text (trim_end is_blank s).
Proof.
  unfold trim_end. intros H. rewrite <- (rev_involutive s) in H. revert H. generalize (rev s). clear.
  induction l as [|c l IH]; intros H; cbn; [exact H|]. destruct (is_blank c) eqn:E; [|exact H].
  apply IH. cbn in H. now apply utf8_split in H as [H _]; [|apply is_blank_ascii].
Qed.

Lemma trim_length (s : bytes) : (length (trim_end is_blank s) <= length s)%nat.
Proof.
  unfold trim_end. rewrite length_rev. pose proof (suffix_length _ _ (drop_while_suffix is_blank (rev s))) as H.
  now rewrite length_rev in H.
Qed.

Section ParseFacts.
Context `{AL : Allocator} `{RX : PosixRegex}.

Lemma allocate_extends pol pol' : allocate pol = Some pol' -> extends pol pol' [].
Proof. unfold allocate. case_test; [|discriminate]. intros [= <-]. unfold extends. now rewrite app_nil_r. Qed.

Lemma extends_trans p1 p2 p3 n1 n2 : extends p1 p2 n1 -> extends p2 p3 n2 -> extends p1 p3 (n1 ++ n2).
Proof. unfold extends. intros (-> & -> & -> & ->) (-> & -> & -> & ->). now rewrite app_assoc. Qed.

Lemma extends_refl p : extends p p [].
Proof. unfold extends. now rewrite app_nil_r. Qed.

Lemma allocates_extends n pol pol' : allocates n pol = Some pol' -> extends pol pol' [].
Proof.
  revert pol. induction n as [|n IH]; intros pol; cbn [allocates]; [intros [= <-]; apply extends_refl|].
  destruct (allocate pol) as [p1|] eqn:E; [|discriminate]. cbn. intros H.
  apply (extends_trans pol p1 pol' [] []); [now apply allocate_extends|now apply IH].
Qed.

(** The rule [append] stores. *)
Definition appended (p : parser) (s : option jf_source) (sel pred lg : bytes) (k : jf_kind) (st fl : Z) : jf_rule :=
  MkRule k st fl sel pred (str "move") lg
    (if streq sel (str "spam") then str "zz.spam" else lg)
    (if streq lg (str "known") then str "INBOX" else if streq sel (str "spam") then str "Spam" else lg)
    (match s with Some s => path s | None => [] end)
    (match s with Some s => identity s | None => [] end) (p_line p) 1 [].

Lemma append_Ok p s sel pred lg k st fl pol pol' :
  append p s sel pred lg k st fl pol = Ok pol' ->
  extends pol pol' [MkEntry (appended p s sel pred lg k st fl) false false (length (entries pol)) (p_source p)].
Proof.
  unfold append. rewrite res_bind_Ok. intros (p1 & Hg & H).
  assert (H1 : extends pol p1 []).
  { clear H. unfold grow in Hg.
    destruct (zlen (entries pol) =? capacity pol); [|injection Hg as <-; apply extends_refl].
    destruct (_ || _); [discriminate|]. destruct (allocate pol) as [p2|] eqn:E; [|discriminate].
    apply allocate_extends in E. injection Hg as <-. exact E. }
  destruct (allocates 7 p1) as [p2|] eqn:E; [|discriminate]. injection H as <-.
  apply allocates_extends in E. pose proof (extends_trans _ _ _ _ _ H1 E) as H2.
  unfold extends, set_entries in *. cbn [entries bounce spam fallback app] in *.
  rewrite app_nil_r in *. destruct H1 as (H1 & _), H2 as (-> & -> & -> & ->).
  now rewrite H1.
Qed.

Lemma append_building p s sel pred lg k st fl pol pol' :
  building pol -> append p s sel pred lg k st fl pol = Ok pol' ->
  user_rule (appended p s sel pred lg k st fl) -> building pol'.
Proof.
  intros [Hf Hu Hb] (He & H1 & H2 & H3)%append_Ok Hr. split; rewrite ?He.
  - intros i e Hi. apply lookup_app_Some in Hi as [Hi|[Hl Hi]]; [now apply Hf|].
    destruct (i - length (entries pol))%nat eqn:E; [|discriminate]. cbn in Hi. injection Hi as <-.
    split_and!; [cbn; lia|reflexivity|reflexivity].
  - apply Forall_app. split; [exact Hu|]. constructor; [|constructor]. split; [exact Hr|reflexivity].
  - now rewrite H1, H2, H3.
Qed.

(** Project the fields of an appended rule. *)
Ltac rule_cbn :=
  unfold user_rule, user_shape, route, appended;
  cbn [kind stage fields selector predicate action logical local sieve occurrence id].

Ltac in_list :=
  match goal with |- _ ∈ _ => vm_compute; repeat (apply elem_of_cons; first [left; reflexivity | right]) end.

(** *** One line *)

Lemma mailbox_rule p s sel addr t lg st fl :
  utf8_text addr -> zlen addr <= JF_LINE_MAX -> jf_normalize_mailbox addr = Some t ->
  (sel, st, fl) ∈ [(str "blacklist", 1, 1); (str "from-address", 3, 3); (str "to-address", 4, 12);
                   (str "known", 5, 1); (str "own", 7, 12)] ->
  utf8_text lg -> destination lg = true ->
  user_rule (appended p s sel (fold_bytes t) lg JF_ADDRESS st fl).
Proof.
  intros Hu Hl Hn Hr Hlg Hd. pose proof (utf8_text_cstr addr Hu) as Hc.
  rewrite normalize_refines in Hn by exact Hc.
  pose proof (normalize_fold _ _ Hn) as Hf. pose proof (normalize_utf8 _ _ Hn Hu) as Ht.
  apply normalize_decode in Hn as (_ & Hv & l & d & Hdec & Hl0 & Em).
  destruct (decode_clean _ _ _ Hv Hdec) as (_ & _ & Hle). rewrite <- Em in Hle.
  assert (Hsel : streq sel (str "spam") = false).
  { repeat (apply elem_of_cons in Hr as [Hr|Hr]; [injection Hr as -> _ _; reflexivity|]).
    now apply elem_of_nil in Hr. }
  rule_cbn. rewrite Hsel. split_and!; auto; try (now destruct (streq lg _)).
  - now apply utf8_text_fold.
  - intros E. unfold fold_bytes in E. apply map_eq_nil in E. subst t. unfold minimal in E.
    destruct (dot_atom false l); [|discriminate]. apply app_eq_nil in E as [-> _]. easy.
  - unfold zlen, fold_bytes in *. rewrite length_map. lia.
  - apply fold_idem.
Qed.

Lemma tokens_line p ln t :
  utf8_text ln -> zlen ln <= JF_LINE_MAX -> lex p ln = Ok t ->
  Forall (fun x => utf8_text x /\ zlen x <= JF_LINE_MAX) t.
Proof.
  intros Hu Hl H. pose proof (lex_utf8 _ _ _ H Hu) as Hx. apply lex_Ok in H as (_ & Hs & _).
  rewrite Forall_forall in *. intros x Hin. split; [now apply Hx|].
  assert (H : (S (length x) <= tokens_size t)%nat).
  { clear -Hin. induction Hin as [|y x t _ IH]; cbn in *; unfold tokens_size in *; lia. }
  unfold zlen in *. lia.
Qed.

Lemma nth_token (P : bytes -> Prop) i t : P [] -> Forall P t -> P (nth i t []).
Proof.
  intros H0 H. destruct (nth_in_or_default i t []) as [Hi| ->]; [|exact H0].
  rewrite Forall_forall in H. now apply H, list_elem_of_In.
Qed.

Lemma filter_predicate_rule p p' s k t1 k' t1' sel lg st fl :
  selector_kind sel = Some k -> filter_predicate p k t1 = Ok (k', t1') ->
  utf8_text t1 -> t1 <> [] -> zlen t1 <= JF_LINE_MAX -> utf8_text lg -> destination lg = true ->
  (sel, st, fl) = (sel, if streq sel (str "known-domain") then 5 else if has_prefix (str "from") sel then 3 else 4,
     if streq sel (str "known-domain") then JF_FROM
     else if has_prefix (str "from") sel then Z.lor JF_FROM JF_SENDER else Z.lor JF_TO JF_CC) ->
  user_rule (appended p' s sel t1' lg k' st fl).
Proof.
  intros Hk Hp Hu Hne Hl Hlg Hd [= -> ->].
  unfold selector_kind in Hk.
  destruct (streq sel (str "known-domain") || streq sel (str "from-domain") || streq sel (str "to-domain")) eqn:E1;
    [injection Hk as <-|destruct (streq sel (str "from-address") || streq sel (str "to-address")) eqn:E2;
      [injection Hk as <-|destruct (streq sel (str "from") || streq sel (str "to")) eqn:E3;
        [injection Hk as <-|discriminate]]]; cbn [filter_predicate] in Hp.
  - remember (has_prefix (str "*.") t1) as sub eqn:Es. symmetry in Es.
    destruct (jf_valid_domain (if sub then drop 2 t1 else t1)) eqn:Ed; [|discriminate].
    cbn [negb] in Hp. injection Hp as <- <-. rewrite !orb_true_iff, !streq_spec in E1.
    assert (Hz : zlen (fold_bytes t1) <= JF_LINE_MAX) by (unfold zlen, fold_bytes in *; now rewrite length_map).
    assert (Hn : fold_bytes t1 <> []) by (unfold fold_bytes; now destruct t1).
    destruct E1 as [[-> | ->]| ->]; (destruct sub;
      [assert (Hs : exists d, fold_bytes t1 = str "*." ++ d /\ jf_valid_domain d = true)
         by (apply has_prefix_spec in Es as [d ->]; exists (fold_bytes d); split; [reflexivity|];
             rewrite fold_valid_domain; exact Ed)|]);
      rule_cbn; split_and!; auto using fold_idem, utf8_text_fold;
      try (now destruct (streq lg _)); try (now rewrite fold_valid_domain); in_list.
  - destruct (jf_normalize_mailbox t1) as [t|] eqn:En; [|discriminate]. injection Hp as <- <-.
    rewrite orb_true_iff, !streq_spec in E2.
    apply mailbox_rule with (addr := t1); auto. destruct E2 as [-> | ->]; cbn; in_list.
  - injection Hp as <- <-. rewrite orb_true_iff, !streq_spec in E3.
    destruct E3 as [-> | ->]; rule_cbn; split_and!; auto;
      try (now destruct (streq lg _)); in_list.
Qed.

Lemma parse_line_building p s ln pol pol' :
  building pol -> utf8_text ln -> zlen ln <= JF_LINE_MAX ->
  parse_line p s ln pol = Ok pol' -> building pol'.
Proof.
  intros Hb Hu Hl. unfold parse_line.
  assert (Hcontact : parse_contact p s ln pol = Ok pol' -> building pol').
  { unfold parse_contact. set (text := trim_end _ _).
    assert (Ht : utf8_text text) by now apply trim_utf8, drop_while_utf8.
    assert (Htl : zlen text <= JF_LINE_MAX).
    { pose proof (trim_length (drop_while is_blank ln)). unfold zlen in *. fold text in H.
      pose proof (suffix_length _ _ (drop_while_suffix is_blank ln)). lia. }
    destruct (length text =? 0)%nat; [now intros [= <-]|].
    destruct (jf_normalize_mailbox text) as [t|] eqn:En; [|discriminate]. intros H.
    eapply append_building; [exact Hb|exact H|]. apply mailbox_rule with (addr := text); auto.
    - case_bool_decide; in_list.
    - apply ascii_text. case_bool_decide; vm_compute; repeat constructor.
    - case_bool_decide; reflexivity. }
  assert (Hown : (if bool_decide (s_kind s = JF_ACCOUNT) && negb (streq (account_word ln) (str "email"))
                  then Ok pol
                  else t ← lex p ln; if (length t =? 0)%nat then Ok pol
                       else if bool_decide (s_kind s = JF_FILTERS) then parse_filter p s t pol
                       else parse_own p s t pol) = Ok pol' -> building pol').
  { destruct (_ && _); [now intros [= <-]|]. rewrite res_bind_Ok. intros (t & Ht & H).
    pose proof (tokens_line p ln t Hu Hl Ht) as Htok.
    assert (Hnth : forall i, utf8_text (nth i t []) /\ zlen (nth i t []) <= JF_LINE_MAX).
    { intros i. apply (nth_token (fun x => utf8_text x /\ zlen x <= JF_LINE_MAX)); [|exact Htok].
      split; [apply utf8_text_nil|vm_compute; discriminate]. }
    destruct (length t =? 0)%nat; [now injection H as <-|].
    destruct (bool_decide (s_kind s = JF_FILTERS)).
    - unfold parse_filter in H. destruct (selector_kind (nth 0 t [])) as [k|] eqn:Ek; [|discriminate].
      destruct (negb (length t =? _)%nat); [discriminate|].
      destruct (length (nth 1 t []) =? 0)%nat eqn:E1; [discriminate|].
      destruct (negb (streq (nth 0 t []) (str "known-domain")) && _ && _); [discriminate|].
      destruct (negb (streq (nth 0 t []) (str "known-domain")) && negb (destination (nth 3 t []))) eqn:E3;
        [discriminate|].
      rewrite res_bind_Ok in H. destruct H as ([k' t1'] & Hp & H).
      eapply append_building; [exact Hb|exact H|].
      eapply filter_predicate_rule; [exact Ek|exact Hp|apply Hnth| |apply Hnth| | |reflexivity].
      + intros E. rewrite E in E1. discriminate.
      + destruct (streq _ _); [|apply Hnth]. apply ascii_text. vm_compute. repeat constructor.
      + destruct (streq (nth 0 t []) (str "known-domain")); [reflexivity|].
        cbn [negb andb] in E3. now apply negb_false_iff in E3.
    - unfold parse_own in H. destruct (negb _); [discriminate|].
      destruct (jf_normalize_mailbox _) as [a|] eqn:En; [|discriminate].
      eapply append_building; [exact Hb|exact H|].
      eapply mailbox_rule; [| |exact En| | |reflexivity]; [apply Hnth|apply Hnth|in_list|].
      apply ascii_text. vm_compute. repeat constructor. }
  destruct (s_kind s); auto.
Qed.

Lemma strip_cr_length l : (length (strip_cr l) <= length l)%nat.
Proof.
  unfold strip_cr. destruct (rev l) as [|c t] eqn:E; [lia|]. case_test; [|lia].
  rewrite length_rev. apply (f_equal length) in E. rewrite length_rev in E. cbn in E. lia.
Qed.

Lemma strip_cr_bytes l : bytes_ok l -> bytes_ok (strip_cr l).
Proof.
  unfold strip_cr. destruct (rev l) as [|c t] eqn:E; [auto|]. case_test; [|auto].
  intros H. apply Forall_rev in H. rewrite E in H. apply Forall_rev. now inversion H.
Qed.

Lemma next_line_bytes d : bytes_ok d -> bytes_ok (next_line d).1 /\ bytes_ok (next_line d).2.
Proof.
  unfold next_line. cbn [fst snd]. intros H. split.
  - induction H as [|c d Hc _ IH]; cbn; [constructor|]. destruct (not_lf c); [now constructor|constructor].
  - apply Forall_drop. eapply suffix_Forall; [apply drop_while_suffix|exact H].
Qed.

Lemma parse_lines_building fuel p s d pol pol' :
  building pol -> bytes_ok d -> parse_lines fuel p s d pol = Ok pol' -> building pol'.
Proof.
  revert p d pol. induction fuel as [|fuel IH]; intros p d pol Hb Hd; cbn [parse_lines]; [now intros [= <-]|].
  destruct d as [|c d]; [now intros [= <-]|]. destruct (next_line_bytes (c :: d) Hd) as [H1 H2].
  destruct (next_line (c :: d)) as [l rest]. cbn [fst snd] in *.
  destruct (JF_LINE_MAX <? zlen (strip_cr l)) eqn:El; [discriminate|]. boolify.
  destruct (jf_valid_utf8 (strip_cr l)) eqn:Eu; [|discriminate]. cbn [negb].
  rewrite res_bind_Ok. intros (p1 & Hp & H). eapply IH; [|exact H2|exact H].
  eapply parse_line_building; [exact Hb| |exact El|exact Hp].
  apply valid_utf8_spec; [|exact Eu]. now apply strip_cr_bytes.
Qed.

Lemma extends_building pol pol' : building pol -> extends pol pol' [] -> building pol'.
Proof.
  intros [H1 H2 H3] (He & E1 & E2 & E3). rewrite app_nil_r in He.
  split; rewrite ?He, ?E1, ?E2, ?E3; assumption.
Qed.

Lemma parse_sources_building l pol pol' :
  Forall (fun r => bytes_ok (data (ref_source r))) l -> building pol ->
  parse_sources l pol = Ok pol' -> building pol'.
Proof.
  intros Hl. revert pol. induction Hl as [|r l Hr Hl IH]; intros pol Hb; cbn [parse_sources];
    [now intros [= <-]|].
  rewrite res_bind_Ok. intros (p1 & H & H2). eapply IH; [|exact H2]. unfold parse_source in H.
  destruct (allocate pol) as [p0|] eqn:E; [|discriminate].
  eapply parse_lines_building; [|exact Hr|exact H].
  eapply extends_building; [exact Hb|now apply allocate_extends].
Qed.

(** *** The builtin rules *)

Definition builtin_rule (k : jf_kind) (st fl : Z) (sel pred lg loc sv : string) : jf_rule :=
  MkRule k st fl (str sel) (str pred) (str "move") (str lg) (str loc) (str sv) [] [] 0 1 [].
Definition bounce_rule : jf_rule :=
  builtin_rule JF_SENDER_CONTAINS 2 2 "bounce" "mailman-bounce" "zz.bounces" "zz.bounces" "zz.bounces".
Definition spam_rule : jf_rule :=
  builtin_rule JF_SPAM_IS 6 16 "spam" "YES" "spam" "zz.spam" "Spam".
Definition unsorted_rule : jf_rule :=
  builtin_rule JF_ALWAYS 8 0 "unsorted" "" "unsorted" "unsorted" "unsorted".

(** The entries of a policy whose sources have all been read. *)
Definition complete (es : list jf_entry) : Prop :=
  fresh es /\ exists user, Forall (fun e => user_rule (rule e) /\ compiled e = false) user /\
    exists x, es = user ++ [MkEntry bounce_rule false false (length user) x;
                            MkEntry spam_rule false false (S (length user)) x;
                            MkEntry unsorted_rule false false (S (S (length user))) x].

Lemma fresh_snoc es r x : fresh es -> occurrence r = 1 ->
  fresh (es ++ [MkEntry r false false (length es) x]).
Proof.
  intros Hf Hr i e Hi. apply lookup_app_Some in Hi as [Hi|[Hl Hi]]; [now apply Hf|].
  destruct (i - length es)%nat eqn:E; [|discriminate]. cbn in Hi. injection Hi as <-.
  split_and!; [cbn; lia|exact Hr|reflexivity].
Qed.

Lemma append_builtins_complete x pol pol' :
  building pol -> append_builtins (MkParser x 0) pol = Ok pol' ->
  complete (entries pol') /\ bounce pol' = None /\ spam pol' = None /\ fallback pol' = None.
Proof.
  intros [Hf Hu (B1 & B2 & B3)]. unfold append_builtins. rewrite res_bind_Ok.
  intros (p1 & (E1 & H11 & H12 & H13)%append_Ok & H). rewrite res_bind_Ok in H.
  destruct H as (p2 & (E2 & H21 & H22 & H23)%append_Ok & (E3 & H31 & H32 & H33)%append_Ok).
  split; [|rewrite H31, H32, H33, H21, H22, H23, H11, H12, H13; auto].
  assert (F1 : fresh (entries p1)) by (rewrite E1; now apply fresh_snoc).
  assert (F2 : fresh (entries p2)) by (rewrite E2; now apply fresh_snoc).
  split; [rewrite E3; now apply fresh_snoc|]. exists (entries pol). split; [exact Hu|].
  exists x. rewrite E3, E2, E1. repeat rewrite length_app. cbn [length]. rewrite <- !app_assoc. cbn [app].
  rewrite !Nat.add_1_r. reflexivity.
Qed.

(** *** The resolved rules *)

Definition user_kind (k : jf_kind) : bool :=
  match k with JF_ADDRESS | JF_DOMAIN_APEX | JF_DOMAIN_SUBDOMAINS | JF_ERE => true | _ => false end.

Lemma user_shape_kind r : user_shape r -> user_kind (kind r) = true.
Proof. unfold user_shape. intros (_ & _ & _ & _ & _ & _ & _ & _ & H). now destruct (kind r). Qed.

Lemma user_shape_selector r : user_shape r -> builtin_selector (selector r) = false.
Proof.
  unfold user_shape. intros (_ & _ & _ & _ & _ & _ & _ & _ & H).
  assert (Hr : route r ∈ [(str "blacklist", 1, 1); (str "from-address", 3, 3); (str "to-address", 4, 12);
                 (str "known", 5, 1); (str "own", 7, 12); (str "from-domain", 3, 3);
                 (str "to-domain", 4, 12); (str "known-domain", 5, 1); (str "from", 3, 3); (str "to", 4, 12)]).
  { destruct (kind r); try easy; revert H; try (intros (_ & _ & H); revert H);
      rewrite !elem_of_cons, ?elem_of_nil; tauto. }
  repeat (apply elem_of_cons in Hr as [Hr|Hr]; [injection Hr as -> _ _; reflexivity|]).
  now apply elem_of_nil in Hr.
Qed.

Lemma complete_user es i e : complete es -> es !! i = Some e -> user_kind (kind (rule e)) = true ->
  user_shape (rule e).
Proof.
  intros (_ & user & Hu & x & ->) Hi Hk. apply lookup_app_Some in Hi as [Hi|[_ Hi]].
  - rewrite Forall_forall in Hu. apply Hu. apply list_elem_of_lookup. eauto.
  - destruct (i - length user)%nat as [|[|[|]]]; cbn in Hi; try discriminate; injection Hi as <-; discriminate.
Qed.

Lemma complete_compiled es i e : complete es -> es !! i = Some e -> compiled e = false.
Proof.
  intros (_ & user & Hu & x & ->) Hi. apply lookup_app_Some in Hi as [Hi|[_ Hi]].
  - rewrite Forall_forall in Hu. apply Hu. apply list_elem_of_lookup. eauto.
  - destruct (i - length user)%nat as [|[|[|]]]; cbn in Hi; try discriminate; now injection Hi as <-.
Qed.

(** Where the entries of a complete policy come from. *)
Lemma complete_cases es : complete es -> exists n, length es = (n + 3)%nat /\
  (forall d, (d < 3)%nat -> rule (entry_at es (n + d)) = nth d [bounce_rule; spam_rule; unsorted_rule] no_rule) /\
  forall j, (j < length es)%nat ->
    (user_shape (rule (entry_at es j)) /\ (j < n)%nat) \/ exists d, (d < 3)%nat /\ j = (n + d)%nat.
Proof.
  intros (Hf & user & Hu & x & E). exists (length user).
  assert (Hlen : length es = (length user + 3)%nat) by (rewrite E, length_app; reflexivity).
  split_and!; [exact Hlen| |].
  - intros d Hd. assert (Hl : es !! (length user + d)%nat = Some (entry_at es (length user + d)))
      by (apply entry_at_lookup; lia).
    set (e := entry_at es (length user + d)) in *. clearbody e.
    rewrite E, lookup_app_r in Hl by lia.
    replace (length user + d - length user)%nat with d in Hl by lia.
    destruct d as [|[|[|]]]; [..|lia]; cbn in Hl; injection Hl as <-; reflexivity.
  - intros j Hj. pose proof (entry_at_lookup es j Hj) as Hl.
    destruct (decide (j < length user)%nat) as [Hlt|Hge].
    + left. split; [|exact Hlt]. set (e := entry_at es j) in *. clearbody e.
      rewrite E, lookup_app_l in Hl by exact Hlt. rewrite Forall_forall in Hu.
      apply Hu, list_elem_of_lookup. eauto.
    + right. exists (j - length user)%nat. lia.
Qed.

Lemma complete_builtin_unique es n j d :
  length es = (n + 3)%nat ->
  (forall d, (d < 3)%nat -> rule (entry_at es (n + d)) = nth d [bounce_rule; spam_rule; unsorted_rule] no_rule) ->
  (forall j, (j < length es)%nat ->
    (user_shape (rule (entry_at es j)) /\ (j < n)%nat) \/ exists d, (d < 3)%nat /\ j = (n + d)%nat) ->
  (d < 3)%nat -> (j < length es)%nat ->
  kind (rule (entry_at es j)) = kind (rule (entry_at es (n + d))) \/
  selector (rule (entry_at es j)) = selector (rule (entry_at es (n + d))) -> j = (n + d)%nat.
Proof.
  intros Hlen Hat Hcases Hd Hj H. rewrite (Hat d Hd) in H.
  destruct (Hcases j Hj) as [[Hu _]|(d' & Hd' & ->)].
  - exfalso. pose proof (user_shape_kind _ Hu) as Hk. pose proof (user_shape_selector _ Hu) as Hs.
    destruct H as [H|H]; [rewrite H in Hk|rewrite H in Hs]; destruct d as [|[|[|]]]; try discriminate; lia.
  - rewrite (Hat d' Hd') in H.
    destruct d as [|[|[|]]], d' as [|[|[|]]]; try lia; destruct H; discriminate.
Qed.

(** The one entry of a builtin kind, with no competitor for its key. *)
Lemma complete_builtin es k : complete es -> user_kind k = false ->
  exists i, (i < length es)%nat /\ kind (rule (entry_at es i)) = k /\
    rule (entry_at es i) ∈ [bounce_rule; spam_rule; unsorted_rule] /\
    (forall j, (j < length es)%nat -> kind (rule (entry_at es j)) = k -> j = i) /\ lost es i = false.
Proof.
  intros Hc Hk. destruct (complete_cases es Hc) as (n & Hlen & Hat & Hcases).
  pose proof (fun j d => complete_builtin_unique es n j d Hlen Hat Hcases) as Huniq.
  assert (Hd : exists d, (d < 3)%nat /\ kind (nth d [bounce_rule; spam_rule; unsorted_rule] no_rule) = k).
  { destruct k; try discriminate Hk; [exists 0%nat|exists 1%nat|exists 2%nat]; (split; [lia|reflexivity]). }
  destruct Hd as (d & Hd & Ek). exists (n + d)%nat. rewrite (Hat d Hd). split_and!; [lia|exact Ek| | |].
  - apply list_elem_of_In, nth_In. exact Hd.
  - intros j Hj Hkj. apply Huniq; auto. left. now rewrite (Hat d Hd), Hkj.
  - destruct (lost es (n + d)) eqn:L; [|reflexivity]. exfalso.
    apply lost_elem in L as (j & Hj & [= Hs _] & Hij); [|lia].
    assert (j = (n + d)%nat) as -> by (apply Huniq; auto). destruct (contact_selector _) in Hij; lia.
Qed.

Lemma sorted_lookup {A} (R : A -> A -> Prop) l i j x y :
  StronglySorted R l -> l !! i = Some x -> l !! j = Some y -> (i < j)%nat -> R x y.
Proof.
  intros Hs. revert i j. induction Hs as [|z l _ IH Hz]; intros i j Hi Hj Hij; [discriminate|].
  destruct j as [|j]; [lia|]. cbn in Hj. destruct i as [|i]; cbn in Hi.
  - injection Hi as <-. rewrite Forall_forall in Hz. apply Hz, list_elem_of_lookup. eauto.
  - apply (IH i j); auto. lia.
Qed.

Lemma positions_single f es b :
  (b < length es)%nat -> f (kind (rule (entry_at es b))) = true ->
  (forall j, (j < length es)%nat -> f (kind (rule (entry_at es j))) = true -> j = b) ->
  positions f es = [b].
Proof.
  intros Hb Hf Hu.
  assert (Hnd : NoDup (positions f es)).
  { apply NoDup_ListNoDup, List.NoDup_filter, NoDup_ListNoDup, NoDup_seq. }
  assert (Hin : b ∈ positions f es) by now apply positions_elem.
  assert (Hall : Forall (fun j => j = b) (positions f es)).
  { apply Forall_forall. intros j [H1 H2]%positions_elem. auto. }
  destruct (positions f es) as [|i [|j l]]; [now apply elem_of_nil in Hin| |].
  - inversion Hall; subst. reflexivity.
  - inversion Hall as [|? ? Hi Hl]; inversion Hl as [|? ? Hj _]; subst.
    inversion Hnd as [|? ? Hni _]; subst. exfalso. apply Hni. left.
Qed.

Definition resolved_entries (es : list jf_entry) : list jf_entry :=
  map finished (qsort compare_order (winners es)).

Lemma finished_kind e : kind (rule (finished e)) = kind (rule e).
Proof. unfold finished. cbv zeta. now case_bool_decide. Qed.

Lemma resolved_elem es e :
  e ∈ resolved_entries es <-> exists i, (i < length es)%nat /\ lost es i = false /\
    e = finished (set_occurrence (1 + rank es i) (entry_at es i)).
Proof.
  unfold resolved_entries. rewrite list_elem_of_fmap. setoid_rewrite (qsort_perm compare_order).
  split; [intros (x & -> & Hx)|intros (i & Hi & L & ->)].
  - apply survivors_elem in Hx as (i & Hi & L & ->). eauto.
  - eexists. split; [reflexivity|]. apply survivors_elem. eauto.
Qed.

Lemma resolved_keys es : NoDup (map key_of (resolved_entries es)).
Proof.
  unfold resolved_entries. rewrite map_map, (map_ext _ key_of) by apply finished_key.
  rewrite (qsort_perm compare_order). apply survivors_keys_nodup.
Qed.

Lemma resolved_sorted es : fresh es ->
  StronglySorted (fun a b => compare_order a b = Lt) (resolved_entries es).
Proof.
  intros Hf. pose proof (winners_sorted es Hf) as H. unfold resolved_entries. clear -H.
  induction H as [|a l _ IH Ha]; cbn; [constructor|constructor; [exact IH|]].
  rewrite Forall_forall in *. intros b (x & -> & Hx)%list_elem_of_fmap.
  rewrite finished_order. now apply Ha.
Qed.

(** Exactly one resolved rule of each builtin kind. *)
Lemma resolved_builtin es k : complete es -> user_kind k = false ->
  exists b, (b < length (resolved_entries es))%nat /\ positions (is_kind k) (resolved_entries es) = [b] /\
    exists r, r ∈ [bounce_rule; spam_rule; unsorted_rule] /\ kind r = k /\
      stage (rule (entry_at (resolved_entries es) b)) = stage r.
Proof.
  intros Hc Hk. destruct (complete_builtin es k Hc Hk) as (i & Hi & Hki & Hr & Hu & L).
  set (e := finished (set_occurrence (1 + rank es i) (entry_at es i))).
  assert (He : e ∈ resolved_entries es) by (apply resolved_elem; eauto).
  apply list_elem_of_lookup in He as [b Hb]. pose proof (lookup_lt_Some _ _ _ Hb) as Hlt.
  pose proof (entry_at_lookup _ _ Hlt) as Hb'. rewrite Hb in Hb'. injection Hb' as Eb.
  exists b. split; [exact Hlt|]. split.
  - apply positions_single; [exact Hlt| |].
    + rewrite <- Eb. unfold is_kind, e. rewrite finished_kind. apply bool_decide_true, Hki.
    + intros j Hj Hkj. unfold is_kind in Hkj. apply bool_decide_eq_true in Hkj.
      pose proof (entry_at_lookup _ _ Hj) as Hl.
      assert (Hin : entry_at (resolved_entries es) j ∈ resolved_entries es)
        by (apply list_elem_of_lookup; eauto).
      apply resolved_elem in Hin as (i' & Hi' & _ & E). rewrite E, finished_kind in Hkj.
      assert (i' = i) as -> by (now apply Hu). fold e in E. rewrite E in Hl.
      eapply NoDup_lookup; [apply (NoDup_fmap_1 key_of), resolved_keys|exact Hl|exact Hb].
  - exists (rule (entry_at es i)). split_and!; [exact Hr|exact Hki|]. rewrite <- Eb. unfold e, finished.
    cbv zeta. now case_bool_decide.
Qed.

(** *** Parsed policies *)

(** A rule of a finished policy. *)
Definition final_entry (e : jf_entry) : Prop :=
  (user_shape (rule e) \/
   exists r, r ∈ [bounce_rule; spam_rule; unsorted_rule] /\ rule e =
     MkRule (kind r) (stage r) (fields r) (selector r) (predicate r) (action r) (logical r) (local r)
       (sieve r) (source r) (source_identity r) (line r) (occurrence (rule e)) (id (rule e))) /\
  id (rule e) = identify (rule e) /\ 1 <= occurrence (rule e) /\
  compiled e = bool_decide (kind (rule e) = JF_ERE) /\ discard e = false.

Lemma finished_rule e :
  rule (finished e) = MkRule (kind (rule e)) (stage (rule e)) (fields (rule e)) (selector (rule e))
    (predicate (rule e)) (action (rule e)) (logical (rule e)) (local (rule e)) (sieve (rule e))
    (source (rule e)) (source_identity (rule e)) (line (rule e)) (occurrence (rule e)) (identify (rule e)) /\
  compiled (finished e) = (bool_decide (kind (rule e) = JF_ERE) || compiled e) /\
  discard (finished e) = discard e.
Proof. unfold finished. cbv zeta. cbn [set_id rule kind]. now case_bool_decide. Qed.

Lemma resolved_final es : complete es -> Forall final_entry (resolved_entries es).
Proof.
  intros Hc. apply Forall_forall. intros e (i & Hi & L & ->)%resolved_elem.
  pose proof (entry_at_lookup es i Hi) as Hl.
  pose proof (complete_compiled es i _ Hc Hl) as Hcomp. pose proof (proj1 Hc i _ Hl) as (_ & _ & Hdis).
  destruct (finished_rule (set_occurrence (1 + rank es i) (entry_at es i))) as (Hr & Hcp & Hds).
  unfold final_entry. rewrite Hr, Hcp, Hds. cbn [set_occurrence rule kind stage fields selector predicate action
    logical local sieve source source_identity line occurrence id compiled discard] in *.
  rewrite Hcomp, orb_false_r. split_and!; auto; [|unfold rank, zlen; lia].
  destruct (user_kind (kind (rule (entry_at es i)))) eqn:Ek.
  - left. now apply (complete_user es i).
  - right. destruct (complete_builtin es _ Hc Ek) as (i' & Hi' & Hk & Hin & Hu & _).
    assert (i = i') as -> by (now apply Hu). exists (rule (entry_at es i')). split; [exact Hin|reflexivity].
Qed.

Definition sources_bytes (sources : view source_arg) : Prop :=
  Forall (fun a => bytes_ok (view_list (a_data a))) (view_list sources).

Lemma check_sources_bytes i l refs :
  Forall (fun a => bytes_ok (view_list (a_data a))) l -> check_sources i l = Ok refs ->
  Forall (fun r => bytes_ok (data (ref_source r))) refs.
Proof.
  intros Hl. revert i refs. induction Hl as [|a l Ha Hl IH]; intros i refs; cbn [check_sources];
    [now intros [= <-]|].
  rewrite res_bind_Ok. intros (r & Hr & H). rewrite res_bind_Ok in H. destruct H as (rs & Hrs & [= <-]).
  constructor; [|eauto]. unfold check_source in Hr.
  destruct (source_kind_of _), (a_identity a) as [[|]|], (a_path a); try discriminate.
  do 2 (case_test; [discriminate|]). now injection Hr as <-.
Qed.

Lemma complete_indexed pol pol' p :
  complete (entries pol) -> bounce pol = None -> spam pol = None -> fallback pol = None ->
  (r ← resolve p pol; jf_policy_build_index r) = Ok pol' ->
  indexed pol' /\ entries pol' = resolved_entries (entries pol) /\ Forall ere_accepted (entries pol').
Proof.
  intros Hc E1 E2 E3. rewrite res_bind_Ok. intros (p1 & H & Hb).
  apply (resolve_Ok p pol p1 (proj1 Hc)) in H as (_ & _ & _ & Hacc & ->).
  destruct (resolved_builtin _ JF_SENDER_CONTAINS Hc eq_refl) as (b & Lb & Pb & rb & Ib & Kb & Sb).
  destruct (resolved_builtin _ JF_SPAM_IS Hc eq_refl) as (s & Ls & Ps & _).
  destruct (resolved_builtin _ JF_ALWAYS Hc eq_refl) as (f & Lf & Pf & rf & If & Kf & Sf).
  assert (Hbf : (b < f)%nat).
  { assert (S1 : stage rb = 2) by (repeat (apply elem_of_cons in Ib as [->|Ib]; [easy|]); now apply elem_of_nil in Ib).
    assert (S2 : stage rf = 8) by (repeat (apply elem_of_cons in If as [->|If]; [easy|]); now apply elem_of_nil in If).
    destruct (Nat.lt_total b f) as [H|[->|H]]; [exact H|exfalso|exfalso].
    { rewrite Sb in Sf. lia. }
    pose proof (sorted_lookup _ _ _ _ _ _ (resolved_sorted _ (proj1 Hc)) (entry_at_lookup _ _ Lf)
                  (entry_at_lookup _ _ Lb) H) as Hlt.
    cbv beta in Hlt. rewrite compare_order_rank, Sb, Sf, S1, S2 in Hlt. discriminate. }
  apply (build_index_indexed (resolved pol) pol' b s f) in Hb as [Hi He]; auto.
  assert (He' : entries pol' = resolved_entries (entries pol)) by exact He.
  split_and!; [exact Hi|exact He'|]. rewrite He'. unfold resolved_entries. apply Forall_map. rewrite qsort_perm.
  eapply Forall_impl; [exact Hacc|]. intros e Ha. unfold ere_accepted in *.
  destruct (finished_rule e) as (-> & _). exact Ha.
Qed.

Lemma no_policy_building : building no_policy.
Proof. split; [intros i e H; discriminate|constructor|auto]. Qed.

(** Everything a successful parse establishes. *)
Lemma parse_complete sources pol' :
  sources_bytes sources -> jf_policy_parse sources = Ok pol' ->
  newlocale_ok = true /\ Forall ere_accepted (entries pol') /\
  exists es, complete es /\ indexed pol' /\ entries pol' = resolved_entries es.
Proof.
  intros Hs. unfold jf_policy_parse. destruct (_ || _); [discriminate|].
  destruct (allocate no_policy) as [p0|] eqn:E0; [|discriminate].
  destruct newlocale_ok eqn:Enl; [|discriminate]. cbn [negb]. rewrite res_bind_Ok. intros (p1 & H1 & H).
  assert (B1 : building p1).
  { pose proof (extends_building _ _ no_policy_building (allocate_extends _ _ E0)) as B0.
    destruct (view_count sources =? 0); [now injection H1 as <-|].
    destruct (allocate p0) as [p2|] eqn:E; [|discriminate]. injection H1 as <-.
    now apply (extends_building _ _ B0), allocate_extends. }
  rewrite res_bind_Ok in H. destruct H as (refs & Hr & H).
  apply check_sources_bytes in Hr; [|exact Hs].
  rewrite res_bind_Ok in H. destruct H as (p2 & H2 & H).
  apply parse_sources_building in H2; [|now rewrite (qsort_perm compare_sources)|exact B1].
  rewrite res_bind_Ok in H. destruct H as (p3 & H3 & H).
  apply append_builtins_complete in H3 as (Hc & F1 & F2 & F3); [|exact H2].
  apply (complete_indexed p3) in H as (Hi & He & Ha); auto. split_and!; auto. exists (entries p3). auto.
Qed.

(** C11. Every policy the parser returns is well formed: its matching index and
    builtin pointers describe its rules, no two rules share a selector and
    predicate, the rules stand strictly in resolved order, and each is either one
    of the three builtin rules or a rule of canonical shape for its kind (folded,
    minimally quoted mailbox, valid folded domain, nonempty expression, stage and
    fields of its selector, safe destination), with its own identifier and the
    expression compiled exactly for the regular expressions. *)
Theorem parse_well_formed sources pol :
  sources_bytes sources -> jf_policy_parse sources = Ok pol ->
  indexed pol /\ Forall final_entry (entries pol) /\ NoDup (map key_of (entries pol)) /\
  StronglySorted (fun a b => compare_order a b = Lt) (entries pol).
Proof.
  intros Hs (_ & _ & es & Hc & Hi & ->)%parse_complete; [|exact Hs]. split_and!.
  - exact Hi.
  - now apply resolved_final.
  - apply resolved_keys.
  - apply resolved_sorted, (proj1 Hc).
Qed.
End ParseFacts.

(** ** Status codes *)

(** The two ways a call can fail: resources or an invalid policy. *)
Definition policy_status {A} (r : res A) : Prop :=
  match r with
  | Ok _ => True
  | Fail rc e => rc = (if String.eqb (err_code e) "E_MEMORY" then 3 else 4)
  end.

(** [r1] is [r2], or ran out of memory on the way. *)
Definition same_or_memory {A} (r1 r2 : res A) : Prop :=
  r1 = r2 \/ exists e, r1 = Fail 3 e /\ err_code e = "E_MEMORY"%string.

Lemma status_fail {A} p code d : policy_status (A:=A) (fail p code d).
Proof. unfold fail, policy_status. cbn. now destruct (String.eqb code "E_MEMORY"). Qed.

Lemma status_bind {A B} (m : res A) (f : A -> res B) :
  policy_status m -> (forall a, policy_status (f a)) -> policy_status (m ≫= f).
Proof. destruct m; cbn; auto. Qed.

Lemma memory_bind {A B} (m1 m2 : res A) (f1 f2 : A -> res B) :
  same_or_memory m1 m2 -> (forall a, same_or_memory (f1 a) (f2 a)) ->
  same_or_memory (m1 ≫= f1) (m2 ≫= f2).
Proof.
  intros [->|(e & -> & He)] Hf; [|right; eauto]. destruct m2 as [a|rc e]; [apply Hf|now left].
Qed.

Lemma memory_refl {A} (r : res A) : same_or_memory r r.
Proof. now left. Qed.

Lemma memory_fail {A} p d (r : res A) : same_or_memory (fail p "E_MEMORY" d) r.
Proof. right. eexists. split; reflexivity. Qed.

Ltac status :=
  repeat first [ apply status_fail | exact I | reflexivity
               | progress cbv zeta | apply status_bind; [|intros ?]
               | match goal with
                 | |- policy_status (match ?x with _ => _ end) => destruct x
                 end ].

Section Status.
Context `{AL : Allocator} `{RX : PosixRegex}.

Lemma grow_status p pol : policy_status (grow p pol).
Proof. unfold grow. status. Qed.

Lemma append_status p s sel pred lg k st fl pol : policy_status (append p s sel pred lg k st fl pol).
Proof. unfold append. repeat first [apply grow_status | progress status]. Qed.

Lemma lex_status p s : policy_status (lex p s).
Proof.
  assert (He : forall c s, policy_status (lex_escape p c s)) by (intros; unfold lex_escape; status).
  assert (Hq : forall fuel s acc, policy_status (lex_quoted p fuel s acc)).
  { induction fuel as [|fuel IH]; intros s0 acc; cbn [lex_quoted]; [exact I|].
    repeat first [apply IH | apply He | progress status]. }
  assert (Hb : forall s acc, policy_status (lex_bare p s acc)).
  { induction s0 as [|c t IH]; intros acc; cbn [lex_bare]; [exact I|]. repeat first [apply IH | progress status]. }
  unfold lex. generalize (S (length s)). intros fuel. generalize (@nil bytes).
  revert s. induction fuel as [|fuel IH]; intros s l; cbn [lex_loop]; [exact I|].
  destruct (drop_while is_blank s) as [|c t]; [exact I|]. unfold lex_token.
  repeat first [apply IH | apply Hq | apply Hb | progress status].
Qed.

Lemma parse_line_status p s ln pol : policy_status (parse_line p s ln pol).
Proof.
  unfold parse_line, parse_contact, parse_own, parse_filter, filter_predicate.
  destruct (s_kind s); repeat first [apply append_status | apply grow_status | apply lex_status | progress status].
Qed.

Lemma parse_lines_status fuel p s d pol : policy_status (parse_lines fuel p s d pol).
Proof.
  revert p d pol. induction fuel as [|fuel IH]; intros p d pol; cbn [parse_lines]; [exact I|].
  destruct d as [|c d]; [exact I|]. destruct (next_line (c :: d)).
  repeat first [apply IH | apply parse_line_status | progress status].
Qed.

Lemma parse_sources_status l pol : policy_status (parse_sources l pol).
Proof.
  revert pol. induction l as [|r l IH]; intros pol; cbn [parse_sources]; [exact I|]. unfold parse_source.
  repeat first [apply IH | apply parse_lines_status | progress status].
Qed.

Lemma check_sources_status i l : policy_status (check_sources i l).
Proof.
  revert i. induction l as [|a l IH]; intros i; cbn [check_sources]; [exact I|]. unfold check_source.
  repeat first [apply IH | progress status].
Qed.

Lemma resolve_status p pol : policy_status (resolve p pol).
Proof.
  assert (Hf : forall es, policy_status (finish_entries p es)).
  { induction es as [|e es IH]; cbn [finish_entries]; [exact I|]. repeat first [apply IH | progress status]. }
  unfold resolve. repeat first [apply Hf | progress status].
Qed.

Lemma append_builtins_status p pol : policy_status (append_builtins p pol).
Proof. unfold append_builtins. repeat (apply status_bind; [apply append_status|intros ?]). apply append_status. Qed.

Lemma build_index_status pol : policy_status (jf_policy_build_index pol).
Proof.
  unfold jf_policy_build_index. destruct (builtins_loop _ _ _ _ _) as [[b s] f].
  now destruct (allocates _ pol).
Qed.

Lemma policy_parse_status sources : policy_status (jf_policy_parse sources).
Proof.
  unfold jf_policy_parse. destruct (_ || _); [apply status_fail|].
  destruct (allocate no_policy) as [p0|]; [|apply status_fail].
  destruct (negb newlocale_ok); [apply status_fail|].
  apply status_bind; [destruct (_ =? _); [exact I|destruct (allocate p0); [exact I|apply status_fail]]|intros p1].
  apply status_bind; [apply check_sources_status|intros refs].
  apply status_bind; [apply parse_sources_status|intros p2].
  apply status_bind; [apply append_builtins_status|intros p3].
  apply status_bind; [apply resolve_status|intros p4]. apply build_index_status.
Qed.

(** [jf_policy_parse] returns 0, 3 or 4, as documented: a failure has
    status 3 exactly when its code is E_MEMORY and status 4 otherwise. *)
Theorem parse_status sources : policy_status (jf_policy_parse sources).
Proof. apply policy_parse_status. Qed.
End Status.

(** ** Allocation failures *)

Section Allocation.
Context `{AL : Allocator} `{RX : PosixRegex}.

Lemma allocate_ample pol : allocate (AL:=AL) pol = None \/ allocate (AL:=AL) pol = allocate (AL:=ample) pol.
Proof. unfold allocate, alloc_ok. cbn. destruct (AL (requests pol)); auto. Qed.

Lemma allocates_ample n pol : allocates (AL:=AL) n pol = None \/ allocates (AL:=AL) n pol = allocates (AL:=ample) n pol.
Proof.
  revert pol. induction n as [|n IH]; intros pol; cbn [allocates]; [now right|].
  destruct (allocate_ample pol) as [->|E]; [now left|]. rewrite E.
  destruct (allocate (AL:=ample) pol) as [p1|]; [apply IH|now left].
Qed.

Lemma memory_match {A} (m1 m2 : option jf_policy) (n1 n2 : res A) (f1 f2 : jf_policy -> res A) :
  m1 = None \/ m1 = m2 -> (forall r, same_or_memory n1 r) -> (forall q, same_or_memory (f1 q) (f2 q)) ->
  same_or_memory (match m1 with None => n1 | Some q => f1 q end)
                 (match m2 with None => n2 | Some q => f2 q end).
Proof. intros [->| ->] Hn Hf; [apply Hn|]. destruct m2; [apply Hf|apply Hn]. Qed.

Lemma append_memory p s sel pred lg k st fl pol :
  same_or_memory (append (AL:=AL) p s sel pred lg k st fl pol) (append (AL:=ample) p s sel pred lg k st fl pol).
Proof.
  unfold append. apply memory_bind.
  - unfold grow. destruct (_ =? _); [|apply memory_refl]. destruct (_ || _); [apply memory_refl|].
    apply memory_match; [apply allocate_ample|intros; apply memory_fail|intros; apply memory_refl].
  - intros p1. apply memory_match; [apply allocates_ample|intros; apply memory_fail|intros; apply memory_refl].
Qed.

Lemma parse_line_memory p s ln pol :
  same_or_memory (parse_line (AL:=AL) p s ln pol) (parse_line (AL:=ample) p s ln pol).
Proof.
  assert (Hc : same_or_memory (parse_contact (AL:=AL) p s ln pol) (parse_contact (AL:=ample) p s ln pol)).
  { unfold parse_contact. destruct (_ =? _)%nat; [apply memory_refl|].
    destruct (jf_normalize_mailbox _); [apply append_memory|apply memory_refl]. }
  assert (Hf : forall t, same_or_memory (parse_filter (AL:=AL) p s t pol) (parse_filter (AL:=ample) p s t pol)).
  { intros t. unfold parse_filter. destruct (selector_kind _); [|apply memory_refl].
    do 4 (match goal with |- same_or_memory (if ?b then _ else _) _ => destruct b; [apply memory_refl|] end).
    apply memory_bind; [apply memory_refl|]. intros [k t1]. apply append_memory. }
  assert (Ho : forall t, same_or_memory (parse_own (AL:=AL) p s t pol) (parse_own (AL:=ample) p s t pol)).
  { intros t. unfold parse_own. destruct (negb _); [apply memory_refl|].
    destruct (jf_normalize_mailbox _); [apply append_memory|apply memory_refl]. }
  unfold parse_line. destruct (s_kind s); try exact Hc;
    (destruct (_ && _); [apply memory_refl|]; apply memory_bind; [apply memory_refl|intros t];
     destruct (_ =? _)%nat; [apply memory_refl|]; destruct (bool_decide _); auto).
Qed.

Lemma parse_lines_memory fuel p s d pol :
  same_or_memory (parse_lines (AL:=AL) fuel p s d pol) (parse_lines (AL:=ample) fuel p s d pol).
Proof.
  revert p d pol. induction fuel as [|fuel IH]; intros p d pol; cbn [parse_lines]; [apply memory_refl|].
  destruct d as [|c d]; [apply memory_refl|]. destruct (next_line (c :: d)) as [l rest].
  do 2 (match goal with |- same_or_memory (if ?b then _ else _) _ => destruct b; [apply memory_refl|] end).
  apply memory_bind; [apply parse_line_memory|intros p1; apply IH].
Qed.

Lemma parse_sources_memory l pol :
  same_or_memory (parse_sources (AL:=AL) l pol) (parse_sources (AL:=ample) l pol).
Proof.
  revert pol. induction l as [|r l IH]; intros pol; cbn [parse_sources]; [apply memory_refl|].
  apply memory_bind; [|intros p1; apply IH]. unfold parse_source.
  apply memory_match; [apply allocate_ample|intros; apply memory_fail|intros; apply parse_lines_memory].
Qed.

Lemma resolve_memory p pol : same_or_memory (resolve (AL:=AL) p pol) (resolve (AL:=ample) p pol).
Proof.
  unfold resolve. destruct (_ <? _); [apply memory_refl|].
  apply memory_match; [apply allocate_ample|intros; apply memory_fail|intros; apply memory_refl].
Qed.

Lemma build_index_memory pol :
  same_or_memory (jf_policy_build_index (AL:=AL) pol) (jf_policy_build_index (AL:=ample) pol).
Proof.
  unfold jf_policy_build_index. destruct (builtins_loop _ _ _ _ _) as [[b s] f]. cbv zeta.
  apply memory_match; [apply allocates_ample| |intros; apply memory_refl].
  intros r. right. eexists. split; reflexivity.
Qed.

(** C20. A failing allocator never changes a policy: whatever requests are
    refused, parsing returns exactly what it returns with ample memory, or fails
    with status 3 and code E_MEMORY. *)
Theorem parse_allocation sources :
  same_or_memory (jf_policy_parse (AL:=AL) sources) (jf_policy_parse (AL:=ample) sources).
Proof.
  unfold jf_policy_parse. destruct (_ || _); [apply memory_refl|].
  apply memory_match; [apply allocate_ample|intros; apply memory_fail|intros p0].
  destruct (negb newlocale_ok); [apply memory_refl|].
  apply memory_bind; [destruct (_ =? _); [apply memory_refl|]|intros p1].
  { apply memory_match; [apply allocate_ample|intros; apply memory_fail|intros; apply memory_refl]. }
  apply memory_bind; [apply memory_refl|intros refs].
  apply memory_bind; [apply parse_sources_memory|intros p2].
  apply memory_bind; [unfold append_builtins|intros p3].
  { apply memory_bind; [apply append_memory|intros q1].
    apply memory_bind; [apply append_memory|intros q2; apply append_memory]. }
  apply memory_bind; [apply resolve_memory|intros p4; apply build_index_memory].
Qed.
End Allocation.

(** *** An example: from source text to a policy *)

Definition example_sources : view source_arg :=
  View [MkSourceArg 3 (Some (str "known")) (Some (str "contacts")) (View (str "Alice@Example.org" ++ [LF]));
        MkSourceArg 0 (Some (str "filters")) (Some (str "Filters.txt"))
          (View (str "from-domain *.dyne.org move dyne # home" ++ [CR; LF] ++ str "to list save lists"))].

Example parse_example :
  match jf_policy_parse (AL:=ample) (RX:=fixed_strings) example_sources with
  | Ok pol => map (fun e => (stage (rule e), predicate (rule e), line (rule e), input_index e)) (entries pol) =
      [(2, str "mailman-bounce", 0, SIZE_MAX); (3, str "*.dyne.org", 1, 1); (4, str "list", 2, 1);
       (5, str "alice@example.org", 1, 0); (6, str "YES", 0, SIZE_MAX); (8, [], 0, SIZE_MAX)]
  | Fail _ _ => False
  end.
Proof. vm_compute. reflexivity. Qed.

Definition succeeds {A} (r : res A) : bool := match r with Ok _ => true | Fail _ _ => false end.

Lemma parse_well_formed_witness :
  sources_bytes example_sources /\
  exists pol, jf_policy_parse (AL:=ample) (RX:=fixed_strings) example_sources = Ok pol /\
    indexed pol /\ NoDup (map key_of (entries pol)).
Proof.
  assert (Hs : sources_bytes example_sources) by (vm_compute; repeat constructor; discriminate).
  split; [exact Hs|].
  assert (Hok : succeeds (jf_policy_parse (AL:=ample) (RX:=fixed_strings) example_sources) = true)
    by (vm_compute; reflexivity).
  destruct (jf_policy_parse (AL:=ample) (RX:=fixed_strings) example_sources) as [pol|rc e] eqn:E;
    [|discriminate].
  destruct (parse_well_formed (AL:=ample) (RX:=fixed_strings) example_sources pol Hs E) as (H1 & _ & H3 & _).
  exists pol. auto.
Defined.
