(* ===== verification/Bytes.v ===== *)
(** * Growing byte buffers (src/filter/product_util.c)

    [struct jf_bytes] with its capacity, the bounded append every product is
    written with, and the C library's allocator as a parameter. *)
From S2P Require Import Prelude.

Definition JF_CACHE_MAX : Z := 128 * 1024 * 1024.
Definition JF_CACHE_HEADER_SIZE : Z := 88.
Definition JF_CACHE_FILE_MAX : Z := JF_CACHE_MAX + JF_CACHE_HEADER_SIZE.

(** [data] holds the [size] bytes in use. *)
Record jf_bytes := MkBytes { contents : bytes; b_capacity : Z }.
Definition no_bytes : jf_bytes := MkBytes [] 0.

(** The C library heap: whether the n-th [malloc], [realloc] or [strdup] of the
    run is granted. *)
Class Heap := malloc_ok : nat -> bool.

(** [!strcmp (code, "E_MEMORY") || !strcmp (code, "E_IO")] gives status 3. *)
Definition jf_product_error {A} (code : string) (line : Z) (detail : bytes) : res A :=
  Fail (if String.eqb code "E_MEMORY" || String.eqb code "E_IO" then 3 else 4)
       (MkError code SIZE_MAX line (snprintf160 detail)).

Definition jf_bytes_fits (used added limit : Z) : bool :=
  (used <=? limit) && (added <=? size_t (limit - used)).

(** [None] is status 3. *)
Definition jf_cache_file_size (payload : Z) : option Z :=
  if (JF_CACHE_MAX <? payload) || negb (jf_bytes_fits JF_CACHE_HEADER_SIZE payload JF_CACHE_FILE_MAX)
  then None else Some (JF_CACHE_HEADER_SIZE + payload).

(** [while (cap<b->size+n) cap=cap>limit/2 ? limit : cap*2]. *)
Fixpoint grow_capacity (fuel : nat) (cap need limit : Z) : Z :=
  match fuel with
  | O => cap
  | S fuel' =>
      if cap <? need then grow_capacity fuel' (if limit / 2 <? cap then limit else cap * 2) need limit
      else cap
  end.

(** A buffer and the number of heap requests made so far. *)
Definition buffer : Type := jf_bytes * nat.

Section Operations.
Context `{HP : Heap}.

Definition jf_bytes_add_limit (s : bytes) (limit : Z) (b : buffer) : option buffer :=
  let '(b, h) := b in
  let size := zlen (contents b) in let n := zlen s in
  if negb (jf_bytes_fits size n limit) then None
  else
    if b_capacity b <? size + n then
      let cap := if b_capacity b =? 0 then (if limit <? 256 then limit else 256) else b_capacity b in
      let cap := grow_capacity 64 cap (size + n) limit in
      if malloc_ok h then Some (MkBytes (contents b ++ s) cap, S h) else None
    else Some (MkBytes (contents b ++ s) (b_capacity b), h).

Definition jf_bytes_add (s : bytes) (b : buffer) : option buffer := jf_bytes_add_limit s JF_CACHE_MAX b.

(** [strlen] of a literal or C string is its length. *)
Definition jf_bytes_text (s : bytes) (b : buffer) : option buffer := jf_bytes_add s b.

(** A chain [a || b || ...] of appends. *)
Fixpoint adds (l : list bytes) (b : buffer) : option buffer :=
  match l with
  | [] => Some b
  | s :: t => b ← jf_bytes_add s b; adds t b
  end.
End Operations.

(** ** A buffer is within its limit and capacity *)

Record buffer_wf (limit : Z) (b : jf_bytes) : Prop := MkBufferWf {
  bw_size : zlen (contents b) <= b_capacity b;
  bw_capacity : 0 <= b_capacity b <= limit }.

Lemma grow_capacity_spec fuel cap need limit :
  0 < cap <= limit -> need <= limit -> limit < 2 ^ 63 -> need <= cap * 2 ^ Z.of_nat fuel ->
  need <= grow_capacity fuel cap need limit <= limit /\ cap <= grow_capacity fuel cap need limit.
Proof.
  revert cap. induction fuel as [|fuel IH]; intros cap Hc Hn Hl Hf; cbn [grow_capacity].
  - cbn in Hf. lia.
  - destruct (Z.ltb_spec cap need); [|lia].
    rewrite Nat2Z.inj_succ, Z.pow_succ_r in Hf by lia.
    destruct (Z.ltb_spec (limit / 2) cap) as [H1|H1].
    + destruct (IH limit) as [H2 H3]; [lia|lia|lia| |lia].
      assert (1 <= 2 ^ Z.of_nat fuel) by (pose proof (Z.pow_pos_nonneg 2 (Z.of_nat fuel)); lia). nia.
    + pose proof (Z.mul_div_le limit 2). destruct (IH (cap * 2)) as [H2 H3]; lia.
Qed.

#[local] Opaque grow_capacity.

Section Facts.
Context `{HP : Heap}.

Lemma add_limit_Some s limit b h b' h' :
  0 <= limit < 2 ^ 63 -> buffer_wf limit b ->
  jf_bytes_add_limit s limit (b, h) = Some (b', h') ->
  contents b' = contents b ++ s /\ buffer_wf limit b' /\ b_capacity b <= b_capacity b'.
Proof.
  intros Hlim [Hs Hc]. unfold jf_bytes_add_limit, jf_bytes_fits.
  assert (H0 : 0 <= zlen (contents b)) by (unfold zlen; lia). assert (H1 : 0 <= zlen s) by (unfold zlen; lia).
  destruct (zlen (contents b) <=? limit) eqn:E1; [|discriminate]. cbn [andb]. boolify.
  unfold size_t. rewrite Z.mod_small by lia.
  destruct (zlen s <=? limit - zlen (contents b)) eqn:E2; [|discriminate]. cbn [negb]. boolify.
  assert (Hz : zlen (contents b ++ s) = zlen (contents b) + zlen s) by (unfold zlen; rewrite length_app; lia).
  destruct (b_capacity b <? zlen (contents b) + zlen s) eqn:E3.
  - destruct (malloc_ok h); [|discriminate]. intros [= <- <-]. boolify.
    set (cap := if b_capacity b =? 0 then _ else _).
    assert (Hcap : 0 < cap <= limit /\ b_capacity b <= cap).
    { unfold cap. destruct (Z.eqb_spec (b_capacity b) 0); [|lia]. destruct (Z.ltb_spec limit 256); lia. }
    destruct (grow_capacity_spec 64 cap (zlen (contents b) + zlen s) limit) as [H2 H3]; [lia..| |].
    { assert (2 ^ 64 <= cap * 2 ^ Z.of_nat 64) by (change (Z.of_nat 64) with 64; nia). lia. }
    cbn [contents b_capacity]. split; [reflexivity|]. split; [|lia].
    split; cbn [contents b_capacity]; [rewrite Hz|]; lia.
  - intros [= <- <-]. boolify. cbn [contents b_capacity]. split; [reflexivity|]. split; [|lia].
    split; cbn [contents b_capacity]; lia.
Qed.

Lemma add_limit_ok s limit b h :
  (forall n, malloc_ok n = true) -> 0 <= limit < 2 ^ 63 ->
  zlen (contents b) + zlen s <= limit -> exists b' h', jf_bytes_add_limit s limit (b, h) = Some (b', h').
Proof.
  intros Hm Hlim Hfit. unfold jf_bytes_add_limit, jf_bytes_fits.
  assert (H0 : 0 <= zlen (contents b)) by (unfold zlen; lia). assert (H1 : 0 <= zlen s) by (unfold zlen; lia).
  unfold size_t. rewrite Z.mod_small by lia.
  destruct (Z.leb_spec (zlen (contents b)) limit); [|lia].
  destruct (Z.leb_spec (zlen s) (limit - zlen (contents b))); [|lia]. cbn [andb negb]. rewrite Hm.
  destruct (_ <? _); eauto.
Qed.

Lemma cache_max_range : 0 <= JF_CACHE_MAX < 2 ^ 63.
Proof. unfold JF_CACHE_MAX. lia. Qed.

Lemma adds_Some l b h b' h' :
  buffer_wf JF_CACHE_MAX b -> adds l (b, h) = Some (b', h') ->
  contents b' = contents b ++ concat l /\ buffer_wf JF_CACHE_MAX b'.
Proof.
  revert b h. induction l as [|s l IH]; intros b h Hw; cbn [adds concat].
  - intros [= <- <-]. now rewrite app_nil_r.
  - destruct (jf_bytes_add s (b, h)) as [[b1 h1]|] eqn:E; [|discriminate]. cbn. intros H.
    apply add_limit_Some in E as (E1 & E2 & _); [|exact cache_max_range|exact Hw].
    apply IH in H as [H1 H2]; [|exact E2]. rewrite H1, E1, <- app_assoc. auto.
Qed.

Lemma adds_app l1 l2 b : adds (l1 ++ l2) b = (b ← adds l1 b; adds l2 b).
Proof.
  revert b. induction l1 as [|s l1 IH]; intros b; [reflexivity|]. cbn [app adds].
  destruct (jf_bytes_add s b); [apply IH|reflexivity].
Qed.

(** Appending to a buffer never writes past its allocation or its limit,
    and is complete: from a well-formed buffer a successful append leaves exactly
    the old bytes followed by the new ones, in a capacity that holds them and stays
    within the limit; with a granting heap it fails only when the limit would be
    exceeded.  The doubling loop always reaches the needed size. *)
Theorem bytes_add_sound s limit b h :
  0 <= limit < 2 ^ 63 -> buffer_wf limit b ->
  (forall b' h', jf_bytes_add_limit s limit (b, h) = Some (b', h') ->
     contents b' = contents b ++ s /\ zlen (contents b') <= b_capacity b' <= limit) /\
  ((forall n, malloc_ok n = true) ->
     (jf_bytes_add_limit s limit (b, h) = None <-> limit < zlen (contents b) + zlen s)).
Proof.
  intros Hl Hw. split.
  - intros b' h' H. apply add_limit_Some in H as (H1 & [H2 H3] & _); auto. split; [exact H1|lia].
  - intros Hm. split.
    + intros H. destruct (Z_lt_le_dec limit (zlen (contents b) + zlen s)) as [Hlt|Hle]; [exact Hlt|].
      destruct (add_limit_ok s limit b h Hm Hl Hle) as (b' & h' & E). congruence.
    + intros H. destruct (jf_bytes_add_limit s limit (b, h)) as [[b' h']|] eqn:E; [|reflexivity].
      apply add_limit_Some in E as (E & [H1 H2] & _); auto. rewrite E in H1. unfold zlen in *.
      rewrite length_app in H1. lia.
Qed.
End Facts.

#[local] Transparent grow_capacity.

Definition granting : Heap := fun _ => true.

Lemma bytes_add_sound_witness :
  jf_bytes_add_limit (HP:=granting) (replicate 10 0) 8 (no_bytes, 0%nat) = None /\
  zlen (contents (MkBytes (replicate 300 0) 512)) <= b_capacity (MkBytes (replicate 300 0) 512) <= 1000.
Proof.
  assert (Hw : forall l, 0 <= l -> buffer_wf l no_bytes) by (intros l Hl; split; unfold zlen; cbn; lia).
  split.
  - apply (bytes_add_sound (HP:=granting) (replicate 10 0) 8 no_bytes 0); [lia|apply Hw; lia|reflexivity|].
    vm_compute. reflexivity.
  - destruct (bytes_add_sound (HP:=granting) (replicate 300 0) 1000 no_bytes 0) as [H _]; [lia|apply Hw; lia|].
    apply (H (MkBytes (replicate 300 0) 512) 1%nat). vm_compute. reflexivity.
Defined.
