(* ===== verification/Profile.v ===== *)
(** * Sieve profiles (src/filter/profile.c, regex_subset.c)

    The regular expressions a Sieve script may carry, the profile file with its
    capabilities and mailbox mappings, and the mailbox of a rule. *)
From S2P Require Import Prelude Utf8 Mailbox Lexer Rules Policy Bytes.

(** ** The exportable regular expressions *)

(** regex_qualification.h, a backquote standing for a double quote. *)
Definition jf_regex_qualification : bytes :=
  str "3e76202c44027d97666ed1ed0d05530e13c7ae529175a9de4c137ff819aa2650".
Definition jf_regex_catalogue : bytes :=
  map (fun c => if c =? ch "`" then DQ else c)
  (str "{" ++ [LF] ++
   str "  `argument`: `After minimal mailbox quoting produces identical address bytes, concatena" ++
   str "tion without repetition, alternatives, captures or locale classes accepts the same fixed" ++
   str "-length byte sequences at the same start offsets. Outer anchors restrict offsets identic" ++
   str "ally. Patterns remain unchanged. This is not general ERE equivalence.`," ++ [LF] ++
   str "  `compiler_id`: `jaromail-filter-compiler-v2`," ++ [LF] ++
   str "  `fixture_sha256`: `01a79e103a7cfbb5a022c9cc27643a8aa5dfee1d4f871976b9edbc70e4b8f79f`," ++ [LF] ++
   str "  `grammar`: `ascii-concatenation-v1: nonempty printable ASCII concatenation; optional l" ++
   str "eading ^ and trailing $; dot matches one byte; [.] and escaped . \\ + ? * ( ) { } | ^ $ " ++
   str "[ are literal; all other metacharacters, classes, groups, repetitions, backreferences an" ++
   str "d escapes rejected`," ++ [LF] ++
   str "  `independent_cases`: 141," ++ [LF] ++
   str "  `native`: `REG_EXTENDED|REG_ICASE; LC_ALL=C; match existence only`," ++ [LF] ++
   str "  `normalization`: `mailbox-minimal-quoting-v2`," ++ [LF] ++
   str "  `normalization_fixture_sha256`: `c62cf95ec0c4a97d55f71301e26903f6b0644710403608391e108" ++
   str "49b651204e1`," ++ [LF] ++
   str "  `oracle_required`: `Actual generated output sievec compilation and sieve-test simulati" ++
   str "on plus shared native classifier against every authored winner; unsupported grammar fail" ++
   str "s publication.`," ++ [LF] ++
   str "  `profile`: `pigeonhole-2.4.5-posix-ere-v1`," ++ [LF] ++
   str "  `required_build_configuration`: [" ++ [LF] ++
   str "    `--with-pcre2`," ++ [LF] ++
   str "    `--enable-experimental-mail-utf8`" ++ [LF] ++
   str "  ]," ++ [LF] ++
   str "  `schema`: 2," ++ [LF] ++
   str "  `sieve`: `Pigeonhole 2.4.5 address :all :regex comparator i;ascii-casemap; DREGEX_ICAS" ++
   str "E|DREGEX_ASCII_ONLY; PCRE2_NEVER_UTF; unsigned byte conversion`," ++ [LF] ++
   str "  `upstream`: `Signed Dovecot/Pigeonhole 2.4.5 releases pinned by vendor/sources.json; o" ++
   str "ptional PCRE2-32 development dependency, never application runtime`" ++ [LF] ++
   str "}" ++ [LF]).

Definition escapable : bytes := str ".\+?*(){}|^$[".
Definition metacharacters : bytes := str "^$+?*(){}|[]".

Fixpoint supported_loop (p : bytes) : bool :=
  match p with
  | [] => true
  | c :: t =>
      if (c <? 32) || (126 <? c) then false
      else if (c =? ch "$") && (length t =? 0)%nat then true
      else if c =? BSL then
        match t with
        | d :: t' => if mem d escapable then supported_loop t' else false
        | [] => false
        end
      else match t with
           | d :: e :: t' =>
               if (c =? ch "[") && (d =? ch ".") && (e =? ch "]") then supported_loop t'
               else if mem c metacharacters then false else supported_loop t
           | _ => if mem c metacharacters then false else supported_loop t
           end
  end.

Definition jf_regex_supported (pattern : bytes) : bool :=
  let p := match pattern with c :: t => if c =? ch "^" then t else pattern | [] => pattern end in
  match p with
  | [] => false
  | c :: t => if (c =? ch "$") && (length t =? 0)%nat then false else supported_loop p
  end.

(** ** Profiles *)

Record jf_mapping := MkMapping { m_logical : bytes; m_mailbox : bytes }.

Record jf_profile := MkProfile {
  p_id : bytes; p_prefix : bytes; p_separator : bytes;
  p_create : bool; p_fileinto : bool; p_mailbox : bool; p_regex : bool;
  mappings : list jf_mapping }.

Definition text (s : bytes) (empty : bool) : bool :=
  if negb empty && (length s =? 0)%nat then false else forallb (fun c => negb (control c)) s.

(** The loop of [logical]; [comp] is the component since [start]. *)
Fixpoint logical_loop (comp s : bytes) : bool :=
  match s with
  | [] => negb (bad_component comp)
  | c :: t =>
      if c =? ch "/" then if bad_component comp then false else logical_loop [] t
      else logical_loop (comp ++ [c]) t
  end.

Definition logical_name (s : bytes) : bool :=
  if negb (text s false) || (hd 0 s =? ch "/") then false else logical_loop [] s.

Definition CORE : bytes := str "core-v1".
Definition PIGEONHOLE : bytes := str "pigeonhole-2.4.5-posix-ere-v1".

(** The bit of a record that may appear once, 0 for the others. *)
Definition record_bit (t0 : bytes) : Z :=
  if streq t0 (str "version") then 1
  else if streq t0 (str "profile") then 2
  else if streq t0 (str "create-mailboxes") then 4
  else if streq t0 (str "namespace-prefix") then 8
  else if streq t0 (str "namespace-separator") then 16
  else if streq t0 (str "regex-qualification") then 32 else 0.

(** Updates of one field. *)
Definition set_p_id v p := MkProfile v (p_prefix p) (p_separator p) (p_create p) (p_fileinto p) (p_mailbox p) (p_regex p) (mappings p).
Definition set_p_prefix v p := MkProfile (p_id p) v (p_separator p) (p_create p) (p_fileinto p) (p_mailbox p) (p_regex p) (mappings p).
Definition set_p_separator v p := MkProfile (p_id p) (p_prefix p) v (p_create p) (p_fileinto p) (p_mailbox p) (p_regex p) (mappings p).
Definition set_p_create v p := MkProfile (p_id p) (p_prefix p) (p_separator p) v (p_fileinto p) (p_mailbox p) (p_regex p) (mappings p).
Definition set_p_fileinto v p := MkProfile (p_id p) (p_prefix p) (p_separator p) (p_create p) v (p_mailbox p) (p_regex p) (mappings p).
Definition set_p_mailbox v p := MkProfile (p_id p) (p_prefix p) (p_separator p) (p_create p) (p_fileinto p) v (p_regex p) (mappings p).
Definition set_p_regex v p := MkProfile (p_id p) (p_prefix p) (p_separator p) (p_create p) (p_fileinto p) (p_mailbox p) v (mappings p).
Definition set_mappings v p := MkProfile (p_id p) (p_prefix p) (p_separator p) (p_create p) (p_fileinto p) (p_mailbox p) (p_regex p) v.

(** The locals of the parse loop: the profile, the records seen, the heap. *)
Record profile_state := MkPState { st_profile : jf_profile; st_seen : Z; st_heap : nat }.

Section Parse.
Context `{HP : Heap}.

(** [n] requests to the heap, all of which must be granted. *)
Fixpoint mallocs (n : nat) (h : nat) : option nat :=
  match n with
  | O => Some h
  | S n' => if malloc_ok h then mallocs n' (S h) else None
  end.

Definition invalid {A} (line : Z) : res A :=
  jf_product_error "E_PROFILE" line (str "unknown, duplicate or malformed profile record").
Definition memory {A} (line : Z) : res A :=
  jf_product_error "E_MEMORY" line (str "profile allocation failed").

(** [strdup] of a value that replaces a field. *)
Definition replace_text (line : Z) (f : jf_profile -> jf_profile) (s : profile_state) : res profile_state :=
  match mallocs 1 (st_heap s) with
  | None => memory line
  | Some h => Ok (MkPState (f (st_profile s)) (st_seen s) h)
  end.

Definition set_profile (f : jf_profile -> jf_profile) (s : profile_state) : profile_state :=
  MkPState (f (st_profile s)) (st_seen s) (st_heap s).

(** A record that may appear once. *)
Definition single_record (line bit : Z) (t : list bytes) (s : profile_state) : res profile_state :=
  let t1 := nth 1 t [] in
  if negb (length t =? 2)%nat || negb (Z.land (st_seen s) bit =? 0) then invalid line
  else
    let s := MkPState (st_profile s) (Z.lor (st_seen s) bit) (st_heap s) in
    if (bit =? 1) && negb (streq t1 (str "1")) then invalid line
    else if bit =? 2 then
      if negb (streq t1 CORE) && negb (streq t1 PIGEONHOLE) then invalid line
      else replace_text line (set_p_id t1) s
    else if (bit =? 32) && negb (streq t1 jf_regex_qualification) then
      jf_product_error "E_REGEX_QUALIFICATION" line
        (str "digest does not match this compiler's installed qualification catalogue")
    else if bit =? 4 then
      if streq t1 (str "yes") then Ok (set_profile (set_p_create true) s)
      else if streq t1 (str "no") then Ok (set_profile (set_p_create false) s)
      else invalid line
    else if (bit =? 8) || (bit =? 16) then
      if negb (text t1 true) then invalid line
      else replace_text line (if bit =? 8 then set_p_prefix t1 else set_p_separator t1) s
    else Ok s.

Definition capability_record (line : Z) (t : list bytes) (s : profile_state) : res profile_state :=
  let t1 := nth 1 t [] in let p := st_profile s in
  if negb (length t =? 2)%nat then invalid line
  else if streq t1 (str "fileinto") then
    if p_fileinto p then invalid line else Ok (set_profile (set_p_fileinto true) s)
  else if streq t1 (str "mailbox") then
    if p_mailbox p then invalid line else Ok (set_profile (set_p_mailbox true) s)
  else if streq t1 (str "regex") then
    if p_regex p then invalid line else Ok (set_profile (set_p_regex true) s)
  else jf_product_error "E_CAPABILITY" line t1.

Definition mailbox_record (line : Z) (t : list bytes) (s : profile_state) : res profile_state :=
  let t1 := nth 1 t [] in let t2 := nth 2 t [] in let p := st_profile s in
  if negb (length t =? 3)%nat || negb (logical_name t1) || negb (text t2 false) ||
     (zlen (mappings p) =? JF_RULE_MAX)
  then invalid line
  else if existsb (fun m => streq t1 (m_logical m)) (mappings p) then invalid line
  else match mallocs 3 (st_heap s) with
       | None => memory line
       | Some h => Ok (MkPState (set_mappings (mappings p ++ [MkMapping t1 t2]) p) (st_seen s) h)
       end.

Definition profile_line (line : Z) (l : bytes) (s : profile_state) : res profile_state :=
  t ← jf_policy_tokens l line;
  if (length t =? 0)%nat then Ok s
  else
    let t0 := nth 0 t [] in let bit := record_bit t0 in
    if negb (bit =? 0) then single_record line bit t s
    else if streq t0 (str "capability") then capability_record line t s
    else if streq t0 (str "mailbox") then mailbox_record line t s
    else invalid line.

Fixpoint profile_lines (fuel : nat) (line : Z) (d : bytes) (s : profile_state) : res profile_state :=
  match fuel, d with
  | S fuel', _ :: _ =>
      let '(l, rest) := next_line d in
      s ← profile_line (line + 1) (strip_cr l) s;
      profile_lines fuel' (line + 1) rest s
  | _, _ => Ok s
  end.

(** The checks after the last line. *)
Definition profile_checks (size : Z) (p : jf_profile) (seen : Z) : res unit :=
  if negb (size =? 0) && negb (Z.land seen 3 =? 3) then
    jf_product_error "E_PROFILE" 0 (str "version 1 and explicit supported profile required")
  else if negb (p_fileinto p) || (p_create p && negb (p_mailbox p)) then
    jf_product_error "E_CAPABILITY" 0
      (str "fileinto required; create-mailboxes yes also requires mailbox")
  else if (streq (p_id p) CORE && (p_regex p || negb (Z.land seen 32 =? 0))) ||
          (negb (streq (p_id p) CORE) && (negb (p_regex p) || (negb (size =? 0) && (Z.land seen 32 =? 0)))) then
    jf_product_error "E_REGEX_QUALIFICATION" 0
      (str "optional regex profile requires regex capability and installed qualification digest; core-v1 admits neither")
  else Ok tt.

Definition jf_profile_parse (d : bytes) (h : nat) : res (jf_profile * nat) :=
  let size := zlen d in
  if JF_INPUT_MAX <? size then jf_product_error "E_INPUT_LIMIT" 0 (str "profile exceeds input limit")
  else
    let none := size =? 0 in
    let p := MkProfile (if none then PIGEONHOLE else CORE) [] (str "/") true none none none [] in
    match mallocs 4 h with
    | None => memory 0
    | Some h =>
        s ← profile_lines (length d) 0 d (MkPState p 0 h);
        _ ← profile_checks size (st_profile s) (st_seen s);
        Ok (st_profile s, st_heap s)
    end.

(** ** The mailbox of a rule *)

(** The pieces written for a logical name: one per byte. *)
Definition separated (sep lg : bytes) : list bytes :=
  map (fun c => if c =? ch "/" then sep else [c]) lg.

(** The C string returned, without its terminator; [None] is the null pointer. *)
Definition jf_profile_mailbox (p : jf_profile) (r : jf_rule) (h : nat) : option (bytes * nat) :=
  match List.find (fun m => streq (m_logical m) (logical r)) (mappings p) with
  | Some m => h ← mallocs 1 h; Some (m_mailbox m, h)
  | None =>
      if streq (logical r) (str "known") then h ← mallocs 1 h; Some (str "INBOX", h)
      else if bool_decide (kind r = JF_SPAM_IS) then h ← mallocs 1 h; Some (str "Spam", h)
      else
        '(b, h) ← adds ([p_prefix p] ++ separated (p_separator p) (logical r) ++ [[0]]) (no_bytes, h);
        Some (c_string (contents b), h)
  end.
End Parse.

(** ** The grammar of the exportable expressions *)

(** One atom: a printable literal, a dot, an escaped metacharacter or a
    bracketed dot. *)
Definition printable (c : Z) : bool := (32 <=? c) && (c <=? 126).

Definition ere_atom (a : bytes) : Prop :=
  (exists c, a = [c] /\ printable c = true /\ c <> BSL /\ c ∉ metacharacters) \/
  (exists d, a = [BSL; d] /\ d ∈ escapable) \/ a = str "[.]".

Lemma supported_loop_sound n p :
  (length p <= n)%nat -> supported_loop p = true ->
  exists atoms e, Forall ere_atom atoms /\ (e = [] \/ e = [ch "$"]) /\ p = concat atoms ++ e.
Proof.
  revert p. induction n as [|n IH]; intros p Hn.
  { destruct p; [|cbn in Hn; lia]. intros _. exists [], []. auto. }
  destruct p as [|c t]; [intros _; exists [], []; auto|]. cbn [supported_loop]. cbn [length] in Hn.
  destruct ((c <? 32) || (126 <? c)) eqn:Ep; [discriminate|].
  destruct ((c =? ch "$") && (length t =? 0)%nat) eqn:Ee.
  { intros _. apply andb_true_iff in Ee as [->%Z.eqb_eq Ht%Nat.eqb_eq]. apply nil_length_inv in Ht as ->.
    exists [], [ch "$"]. auto. }
  assert (Hcons : forall a t', ere_atom a -> (length t' <= n)%nat -> supported_loop t' = true -> c :: t = a ++ t' ->
            exists atoms e, Forall ere_atom atoms /\ (e = [] \/ e = [ch "$"]) /\ c :: t = concat atoms ++ e).
  { intros a t' Ha Ht' Hs ->. destruct (IH t' Ht' Hs) as (atoms & e & H1 & H2 & ->).
    exists (a :: atoms), e. split_and!; [now constructor|exact H2|]. cbn. now rewrite app_assoc. }
  destruct (Z.eqb_spec c BSL) as [->|Hb].
  { destruct t as [|d t']; [discriminate|]. destruct (mem d escapable) eqn:Em; [|discriminate].
    intros Hs. apply (Hcons [BSL; d] t'); auto; [|cbn in Hn; lia].
    right. left. exists d. split; [reflexivity|]. now apply mem_spec. }
  assert (Hlit : (if mem c metacharacters then false else supported_loop t) = true ->
            exists atoms e, Forall ere_atom atoms /\ (e = [] \/ e = [ch "$"]) /\ c :: t = concat atoms ++ e).
  { destruct (mem c metacharacters) eqn:Em; [discriminate|]. intros Hs.
    apply (Hcons [c] t); auto; [|lia]. left. exists c. split_and!; auto.
    - unfold printable. boolify. lia.
    - intros Hin. apply mem_spec in Hin. congruence. }
  destruct t as [|d [|e t']]; try exact Hlit.
  destruct ((c =? ch "[") && (d =? ch ".") && (e =? ch "]")) eqn:E3; [|exact Hlit].
  intros Hs. rewrite !andb_true_iff, !Z.eqb_eq in E3. destruct E3 as [[-> ->] ->].
  apply (Hcons (str "[.]") t'); auto; [right; right; reflexivity|cbn in Hn; lia].
Qed.

Lemma supported_loop_complete atoms e :
  Forall ere_atom atoms -> e = [] \/ e = [ch "$"] -> supported_loop (concat atoms ++ e) = true.
Proof.
  induction 1 as [|a atoms Ha _ IH]; intros He; cbn [concat app].
  - destruct He as [-> | ->]; reflexivity.
  - specialize (IH He). rewrite <- app_assoc. set (t := concat atoms ++ e) in *.
    destruct Ha as [(c & -> & Hp & Hb & Hm)|[(d & -> & Hd)| ->]]; cbn [app].
    + cbn [supported_loop]. unfold printable in Hp.
      destruct ((c <? 32) || (126 <? c)) eqn:Ep; [exfalso; rewrite orb_true_iff in Ep; boolify; lia|].
      destruct ((c =? ch "$") && (length t =? 0)%nat); [reflexivity|].
      rewrite (proj2 (Z.eqb_neq c BSL) Hb).
      assert (Em : mem c metacharacters = false).
      { destruct (mem c metacharacters) eqn:E; [|reflexivity]. now apply mem_spec in E. }
      assert (Eb : (c =? ch "[") = false).
      { apply Z.eqb_neq. intros ->. apply Hm. apply mem_spec. reflexivity. }
      rewrite Em, Eb. cbn [andb]. destruct t as [|x [|y t']]; exact IH.
    + assert (Em : mem d escapable = true) by now apply mem_spec.
      cbn [supported_loop]. rewrite Em. cbn. exact IH.
    + cbn. exact IH.
Qed.

(** The expressions accepted for export are exactly the documented
    ascii-concatenation-v1 grammar: a nonempty concatenation of printable literals,
    dots, escaped metacharacters and bracketed dots, with an optional leading
    caret and an optional trailing dollar, and nothing else. *)
Theorem regex_supported_grammar p :
  jf_regex_supported p = true <->
  exists b atoms e, (b = [] \/ b = [ch "^"]) /\ atoms <> [] /\ Forall ere_atom atoms /\
    (e = [] \/ e = [ch "$"]) /\ p = b ++ concat atoms ++ e.
Proof.
  assert (Hbody : forall q, match q with [] => false | c :: t =>
      if (c =? ch "$") && (length t =? 0)%nat then false else supported_loop q end = true <->
    exists atoms e, atoms <> [] /\ Forall ere_atom atoms /\ (e = [] \/ e = [ch "$"]) /\ q = concat atoms ++ e).
  { intros q. split.
    - destruct q as [|c t]; [discriminate|]. destruct (_ && _) eqn:E; [discriminate|]. intros H.
      apply (supported_loop_sound (length (c :: t))) in H as (atoms & e & H1 & H2 & H3); [|lia].
      exists atoms, e. split_and!; auto. intros ->. cbn in H3. destruct H2 as [-> | ->]; [discriminate|].
      injection H3 as -> ->. discriminate.
    - intros (atoms & e & Hne & Ha & He & ->). pose proof (supported_loop_complete atoms e Ha He) as Hs.
      destruct atoms as [|a atoms]; [easy|]. inversion Ha as [|? ? Ha1 _]; subst. cbn [concat] in *.
      assert (Hcase : exists c t, (a ++ concat atoms) ++ e = c :: t /\ (c =? ch "$") && (length t =? 0)%nat = false).
      { destruct Ha1 as [(c & -> & _ & _ & Hm)|[(d & -> & _)| ->]]; cbn [app].
        - eexists _, _. split; [reflexivity|].
          destruct (Z.eqb_spec c (ch "$")) as [->|]; [|reflexivity]. exfalso. apply Hm, mem_spec. reflexivity.
        - eexists _, _. split; reflexivity.
        - eexists _, _. split; reflexivity. }
      destruct Hcase as (c & t & E & Ef). rewrite E in *. now rewrite Ef. }
  unfold jf_regex_supported. rewrite Hbody. split.
  - intros (atoms & e & Hne & Ha & He & E). destruct p as [|c t].
    + exists [], atoms, e. auto.
    + destruct (Z.eqb_spec c (ch "^")) as [->|_].
      * exists [ch "^"], atoms, e. split_and!; auto. cbn. now rewrite E.
      * exists [], atoms, e. auto.
  - intros (b & atoms & e & Hb & Hne & Ha & He & ->). exists atoms, e. split_and!; auto.
    destruct Hb as [-> | ->]; [|reflexivity]. cbn [app].
    destruct atoms as [|a atoms]; [easy|]. inversion Ha as [|? ? Ha1 _]; subst. cbn [concat].
    destruct Ha1 as [(c & -> & _ & _ & Hm)|[(d & -> & _)| ->]]; cbn [app]; try reflexivity.
    destruct (Z.eqb_spec c (ch "^")) as [->|]; [|reflexivity]. exfalso. apply Hm, mem_spec. reflexivity.
Qed.

(** ** Parsed profiles *)

(** profile.c checks logical names the way policy.c checks destinations. *)
Lemma logical_name_destination s : logical_name s = destination s.
Proof.
  assert (Hl : forall s comp, forallb (fun c => negb (control c)) s = true ->
            logical_loop comp s = destination_loop comp s).
  { clear. induction s as [|c s IH]; intros comp H; [reflexivity|]. cbn in *.
    apply andb_true_iff in H as [Hc Hs]. apply negb_true_iff in Hc. rewrite Hc.
    destruct (c =? ch "/"); [destruct (bad_component comp); [reflexivity|]|]; now apply IH. }
  unfold logical_name, text. destruct s as [|c s]; [reflexivity|]. cbn [length Nat.eqb andb negb hd].
  destruct (forallb (fun c => negb (control c)) (c :: s)) eqn:E; cbn [negb orb].
  - unfold destination. destruct (c =? ch "/"); [reflexivity|]. now apply Hl.
  - symmetry. rewrite destination_spec. now rewrite E.
Qed.

Definition clean (s : bytes) : Prop := forallb (fun c => negb (control c)) s = true.

(** What every line keeps. *)
Record profile_lines_wf (p : jf_profile) (seen : Z) : Prop := MkLinesWf {
  lw_id : p_id p = CORE \/ p_id p = PIGEONHOLE;
  lw_text : clean (p_prefix p) /\ clean (p_separator p);
  lw_unique : NoDup (map m_logical (mappings p));
  lw_names : Forall (fun m => destination (m_logical m) = true /\ m_mailbox m <> [] /\ clean (m_mailbox m))
               (mappings p);
  lw_count : zlen (mappings p) <= JF_RULE_MAX }.

Section ParseFacts.
Context `{HP : Heap}.

Lemma text_clean s e : text s e = true -> clean s /\ (e = false -> s <> []).
Proof.
  unfold text, clean. destruct (negb e && (length s =? 0)%nat) eqn:E; [discriminate|]. intros H.
  split; [exact H|]. intros -> ->. discriminate.
Qed.

Lemma replace_text_Ok line f s s' : replace_text line f s = Ok s' -> st_profile s' = f (st_profile s).
Proof. unfold replace_text. destruct (mallocs 1 (st_heap s)); [now intros [= <-]|discriminate]. Qed.

Lemma single_record_wf line bit t s s' :
  profile_lines_wf (st_profile s) (st_seen s) -> single_record line bit t s = Ok s' ->
  profile_lines_wf (st_profile s') (st_seen s').
Proof.
  intros [Hi Ht Hu Hn Hc]. unfold single_record.
  destruct (_ || _); [discriminate|]. cbn [st_profile st_seen st_heap].
  destruct ((bit =? 1) && _); [discriminate|].
  destruct (bit =? 2).
  { destruct (negb _ && negb _) eqn:E; [discriminate|]. intros H%replace_text_Ok. rewrite H. split; auto.
    cbn. destruct (streq (nth 1 t []) CORE) eqn:E1; [apply streq_spec in E1; auto|].
    destruct (streq (nth 1 t []) PIGEONHOLE) eqn:E2; [apply streq_spec in E2; auto|discriminate]. }
  destruct ((bit =? 32) && _); [discriminate|].
  destruct (bit =? 4).
  { repeat case_test; try discriminate; intros [= <-]; split; auto. }
  destruct ((bit =? 8) || (bit =? 16)); [|intros [= <-]; split; auto].
  destruct (text (nth 1 t []) true) eqn:E; [|discriminate]. cbn [negb].
  apply text_clean in E as [E _]. intros H%replace_text_Ok. rewrite H. destruct Ht.
  destruct (bit =? 8); split; cbn; auto.
Qed.

Lemma capability_record_wf line t s s' :
  profile_lines_wf (st_profile s) (st_seen s) -> capability_record line t s = Ok s' ->
  profile_lines_wf (st_profile s') (st_seen s').
Proof.
  intros [Hi Ht Hu Hn Hc]. unfold capability_record, set_profile.
  repeat case_test; try discriminate; intros [= <-]; split; cbn; auto.
Qed.

Lemma mailbox_record_wf line t s s' :
  profile_lines_wf (st_profile s) (st_seen s) -> mailbox_record line t s = Ok s' ->
  profile_lines_wf (st_profile s') (st_seen s').
Proof.
  intros [Hi Ht Hu Hn Hc]. unfold mailbox_record. destruct (_ || _) eqn:E; [discriminate|].
  destruct (existsb _ _) eqn:Ex; [discriminate|].
  destruct (mallocs 3 _); [|discriminate]. intros [= <-]. cbn [st_profile st_seen]. boolify.
  rewrite logical_name_destination in *. apply text_clean in H1 as [Hcl Hne]. 
  split; cbn [set_mappings p_id p_prefix p_separator mappings]; auto.
  - rewrite map_app. cbn. apply NoDup_app. split_and!; [exact Hu| |repeat constructor; easy].
    intros x Hx Hin%list_elem_of_singleton. subst x. apply list_elem_of_fmap in Hx as (m & Hm & Hx).
    enough (existsb (fun m => streq (nth 1 t []) (m_logical m)) (mappings (st_profile s)) = true) by congruence.
    apply existsb_exists. exists m. split; [now apply list_elem_of_In|]. now apply streq_spec.
  - apply Forall_app. split; [exact Hn|]. repeat constructor; cbn; auto.
  - unfold zlen in *. rewrite length_app. cbn. lia.
Qed.

Lemma profile_lines_Ok fuel line d s s' :
  profile_lines_wf (st_profile s) (st_seen s) -> profile_lines fuel line d s = Ok s' ->
  profile_lines_wf (st_profile s') (st_seen s').
Proof.
  revert line d s. induction fuel as [|fuel IH]; intros line d s Hw; cbn [profile_lines]; [now intros [= <-]|].
  destruct d as [|c d]; [now intros [= <-]|]. destruct (next_line (c :: d)) as [l rest].
  rewrite res_bind_Ok. intros (s1 & H & H2). eapply IH; [|exact H2]. unfold profile_line in H.
  rewrite res_bind_Ok in H. destruct H as (t & _ & H).
  destruct (length t =? 0)%nat; [now injection H as <-|].
  destruct (negb (record_bit (nth 0 t []) =? 0)); [now apply single_record_wf in H|].
  destruct (streq _ _); [now apply capability_record_wf in H|].
  destruct (streq _ _); [now apply mailbox_record_wf in H|discriminate].
Qed.

(** A profile the parser accepts is consistent: it is one of the two
    supported profiles, can file messages and create the mailboxes it is asked to,
    carries the regex capability exactly for the qualified profile, and maps
    distinct safe logical names to nonempty mailboxes without control bytes; the
    empty file is the built-in qualified profile. *)
Theorem profile_consistent d h p h' :
  jf_profile_parse d h = Ok (p, h') ->
  p_fileinto p = true /\ (p_create p = true -> p_mailbox p = true) /\
  ((p_id p = CORE /\ p_regex p = false) \/ (p_id p = PIGEONHOLE /\ p_regex p = true)) /\
  clean (p_prefix p) /\ clean (p_separator p) /\
  NoDup (map m_logical (mappings p)) /\ zlen (mappings p) <= JF_RULE_MAX /\
  Forall (fun m => destination (m_logical m) = true /\ m_mailbox m <> [] /\ clean (m_mailbox m)) (mappings p) /\
  (d = [] -> p = MkProfile PIGEONHOLE [] (str "/") true true true true []).
Proof.
  unfold jf_profile_parse. destruct (JF_INPUT_MAX <? zlen d); [discriminate|].
  destruct (mallocs 4 h) as [h1|]; [|discriminate]. rewrite res_bind_Ok. intros (s & Hs & H).
  rewrite res_bind_Ok in H. destruct H as (u & Hck & [= <- <-]).
  assert (Hd : d = [] -> st_profile s = MkProfile PIGEONHOLE [] (str "/") true true true true []).
  { intros ->. cbn [length profile_lines] in Hs. now injection Hs as <-. }
  apply profile_lines_Ok in Hs as [Hi [Ht1 Ht2] Hu Hn Hc].
  2:{ cbn [st_profile st_seen]. split; cbn [p_id p_prefix p_separator mappings map].
      - destruct (zlen d =? 0); auto.
      - split; reflexivity.
      - constructor.
      - constructor.
      - vm_compute. discriminate. }
  unfold profile_checks in Hck. destruct (_ && _); [discriminate|].
  destruct (negb (p_fileinto _) || _) eqn:E1; [discriminate|].
  destruct (_ || _) eqn:E2 in Hck; [discriminate|].
  apply orb_false_iff in E1 as [E1 E1'], E2 as [E2 E2'].
  split_and!; auto.
  - now apply negb_false_iff.
  - intros Hcr. rewrite Hcr in E1'. now apply negb_false_iff.
  - destruct Hi as [Hi|Hi]; rewrite Hi in E2, E2'; [left|right]; (split; [exact Hi|]).
    + rewrite streq_refl in E2. now apply orb_false_iff in E2.
    + change (streq PIGEONHOLE CORE) with false in E2'. cbn [negb andb] in E2'.
      apply orb_false_iff in E2' as [E2' _]. now apply negb_false_iff.
Qed.

(** The mailbox text of a rule. *)
Definition mailbox_text (p : jf_profile) (r : jf_rule) : bytes :=
  match List.find (fun m => streq (m_logical m) (logical r)) (mappings p) with
  | Some m => m_mailbox m
  | None =>
      if streq (logical r) (str "known") then str "INBOX"
      else if bool_decide (kind r = JF_SPAM_IS) then str "Spam"
      else p_prefix p ++ concat (separated (p_separator p) (logical r))
  end.

Lemma no_bytes_wf limit : 0 <= limit -> buffer_wf limit no_bytes.
Proof. intros H. split; unfold zlen; cbn; lia. Qed.

Lemma profile_mailbox_Some p r h t h' :
  cstr_ok (p_prefix p) -> cstr_ok (p_separator p) -> cstr_ok (logical r) ->
  jf_profile_mailbox p r h = Some (t, h') -> t = mailbox_text p r.
Proof.
  intros Hp Hs Hl. unfold jf_profile_mailbox, mailbox_text.
  destruct (List.find _ _) as [m|]; [destruct (mallocs 1 h); [now intros [= <- <-]|discriminate]|].
  destruct (streq _ _); [destruct (mallocs 1 h); [now intros [= <- <-]|discriminate]|].
  destruct (bool_decide _); [destruct (mallocs 1 h); [now intros [= <- <-]|discriminate]|].
  destruct (adds _ _) as [[b h1]|] eqn:E; [|discriminate]. cbn. intros [= <- <-].
  apply adds_Some in E as [-> _]; [|apply no_bytes_wf; discriminate].
  cbn [contents no_bytes app concat]. rewrite concat_app, app_assoc. cbn [concat app].
  apply (c_string_app _ []). apply Forall_app. split; [exact Hp|].
  apply Forall_concat. unfold separated. apply Forall_map. eapply Forall_impl; [exact Hl|].
  intros c Hc. cbv beta. destruct (c =? ch "/"); [exact Hs|]. constructor; [exact Hc|constructor].
Qed.
End ParseFacts.

Definition sample_profile_text : bytes :=
  str "version 1" ++ [LF] ++ str "profile core-v1" ++ [LF] ++ str "capability fileinto" ++ [CR; LF] ++
  str "create-mailboxes no # manual" ++ [LF] ++ str "namespace-separator ." ++ [LF] ++
  str "mailbox lists/dyne Lists.Dyne" ++ [LF].

Definition sample_profile : jf_profile :=
  MkProfile CORE [] (str ".") false true false false [MkMapping (str "lists/dyne") (str "Lists.Dyne")].

Lemma profile_consistent_witness :
  jf_profile_parse (HP:=granting) sample_profile_text 0 = Ok (sample_profile, 9%nat) /\
  NoDup (map m_logical (mappings sample_profile)).
Proof.
  assert (H : jf_profile_parse (HP:=granting) sample_profile_text 0 = Ok (sample_profile, 9%nat))
    by (vm_compute; reflexivity).
  split; [exact H|]. apply (profile_consistent (HP:=granting) sample_profile_text 0 sample_profile 9 H).
Defined.
