(* ===== verification/Emit.v ===== *)
(** * Generated text (src/filter/emit.c)

    The zsh compatibility arrays and the Sieve script written for a policy, with
    the two quoting functions. *)
From S2P Require Import Prelude Utf8 Mailbox Lexer Rules Resolve Classify Policy Bytes Profile.

(** ** Quoting *)

Abbreviation SQ := 39 (only parsing).

(** The appends of [quote_zsh]: a quote is written as the four bytes that close
    the word, escape it and open it again. *)
Definition quote_zsh (s : bytes) : list bytes :=
  [[SQ]] ++ concat (map (fun c => if c =? SQ then [[SQ; BSL; SQ; SQ]] else [[]; [c]]) s) ++ [[SQ]].

Definition quote_sieve (s : bytes) : list bytes :=
  [[DQ]] ++ concat (map (fun c => if (c =? DQ) || (c =? BSL) then [[BSL]; [c]] else [[c]]) s) ++ [[DQ]].

Definition jf_kind_name (k : jf_kind) : bytes :=
  match k with
  | JF_ADDRESS => str "address" | JF_DOMAIN_APEX => str "domain-apex"
  | JF_DOMAIN_SUBDOMAINS => str "domain-subdomains" | JF_ERE => str "ere"
  | JF_SENDER_CONTAINS => str "sender-contains" | JF_SPAM_IS => str "spam-is"
  | JF_ALWAYS => str "always"
  end.

(** ** The zsh arrays *)

Definition zsh_header : bytes :=
  str "# Jaromail native filter compatibility v1" ++ [LF] ++
  str "unset filter_from filter_to filter_own filter_whitelist filter_blacklist " ++
  str "filter_rule_ids filter_rule_kinds filter_rule_patterns filter_rule_destinations " ++
  str "filter_rule_stages filter_rule_masks" ++ [LF] ++
  str "typeset -gA filter_from filter_to" ++ [LF] ++
  str "typeset -ga filter_own filter_whitelist filter_blacklist filter_rule_ids " ++
  str "filter_rule_kinds filter_rule_patterns filter_rule_destinations filter_rule_stages filter_rule_masks" ++ [LF] ++
  str "filter_from=()" ++ [LF] ++ str "filter_to=()" ++ [LF] ++ str "filter_own=()" ++ [LF] ++
  str "filter_whitelist=()" ++ [LF] ++ str "filter_blacklist=()" ++ [LF].

(** The compatibility array of a rule. *)
Definition zsh_array (r : jf_rule) : option bytes :=
  if stage r =? 1 then Some (str "filter_blacklist")
  else if (stage r =? 5) && bool_decide (kind r = JF_ADDRESS) then Some (str "filter_whitelist")
  else if stage r =? 7 then Some (str "filter_own") else None.

Definition zsh_rule (r : jf_rule) : list bytes :=
  if bool_decide (kind r = JF_ERE) then
    [if stage r =? 3 then str "filter_from+=(" else str "filter_to+=("] ++ quote_zsh (predicate r) ++
    [[SP]] ++ quote_zsh (local r) ++ [str ")" ++ [LF]]
  else match zsh_array r with
       | Some a => [a; str "+=("] ++ quote_zsh (predicate r) ++ [str ")" ++ [LF]]
       | None => []
       end.

(** Column [j] of a rule. *)
Definition zsh_value (j : nat) (r : jf_rule) : bytes :=
  match j with
  | 0 => id r | 1 => jf_kind_name (kind r) | 2 => predicate r | 3 => local r
  | 4 => decimal_of (stage r) | _ => decimal_of (fields r)
  end%nat.

Definition columns : list bytes :=
  [str "ids"; str "kinds"; str "patterns"; str "destinations"; str "stages"; str "masks"].

Definition zsh_column (j : nat) (rules : list jf_rule) : list bytes :=
  [str "filter_rule_"; nth j columns []; str "=("] ++
  concat (map (fun r => [[SP]] ++ quote_zsh (zsh_value j r)) rules) ++ [str " )" ++ [LF]].

Definition zsh (rules : list jf_rule) : list bytes :=
  [zsh_header] ++ concat (map zsh_rule rules) ++ concat (map (fun j => zsh_column j rules) (seq 0 6)).

(** ** The Sieve script *)

Definition quoted_name (s : string) : bytes := [DQ] ++ str s ++ [DQ].

Definition action_text (p : jf_profile) (mailbox : bytes) : list bytes :=
  [if p_create p then str "fileinto :create " else str "fileinto "] ++ quote_sieve mailbox ++ [str ";"].

Definition sieve_fields (r : jf_rule) : option bytes :=
  if fields r =? 1 then Some (quoted_name "From")
  else if fields r =? 3 then Some (str "[" ++ quoted_name "From" ++ str "," ++ quoted_name "Sender" ++ str "]")
  else if fields r =? 12 then Some (str "[" ++ quoted_name "To" ++ str "," ++ quoted_name "Cc" ++ str "]")
  else None.

Definition casemap : bytes := str ":comparator " ++ quoted_name "i;ascii-casemap" ++ [SP].

Definition address_test (k : jf_kind) : bytes :=
  match k with
  | JF_ERE => str "address :all :regex " | JF_ADDRESS => str "address :all :is "
  | JF_DOMAIN_APEX => str "address :domain :is " | _ => str "address :domain :matches "
  end.

Section Emit.
Context `{HP : Heap}.

Definition text_memory {A} : res A :=
  jf_product_error "E_MEMORY" 0 (str "text output allocation/size limit").

(** A chain of appends of [jf_emit_text]: its failure is E_MEMORY. *)
Definition emit (l : list bytes) (b : buffer) : res buffer :=
  match adds l b with Some b => Ok b | None => text_memory end.

(** The test of a rule, up to its key. *)
Definition emit_test (r : jf_rule) (b : buffer) : res buffer :=
  match kind r with
  | JF_SENDER_CONTAINS => emit [str "header :contains " ++ casemap ++ quoted_name "Sender" ++ [SP]] b
  | JF_SPAM_IS => emit [str "header :is " ++ casemap ++ quoted_name "X-Spam-Flag" ++ [SP]] b
  | k => match sieve_fields r with
         | None => jf_product_error "E_RULE" (line r) (str "invalid address field mask")
         | Some f => emit [address_test k; casemap; f; [SP]] b
         end
  end.

Definition export_error {A} (p : jf_profile) (i : nat) (r : jf_rule) : res A :=
  Fail 4 (MkError "E_REGEX_EXPORT" (Z.of_nat i) (line r)
    (snprintf160 (if p_regex p then
       str "ERE outside qualified ASCII concatenation subset; migrate to typed address/domain rules"
     else
       str "core-v1 cannot export legacy ERE; migrate to typed address/domain rules or select qualified profile"))).

Definition exportable (p : jf_profile) (r : jf_rule) : bool :=
  negb (bool_decide (kind r = JF_ERE)) || (p_regex p && jf_regex_supported (predicate r)).

Definition emit_rule (p : jf_profile) (i : nat) (r : jf_rule) (mailbox : bytes) (b : buffer) : res buffer :=
  if negb (exportable p r) then export_error p i r
  else
    b ← emit [str "  if "] b;
    b ← emit_test r b;
    emit (quote_sieve (predicate r) ++ [str " { "] ++ action_text p mailbox ++ [str " stop; }" ++ [LF]]) b.

(** The inner loop: the rules of a stage, with the rules left after it. *)
Fixpoint emit_stage (p : jf_profile) (st : Z) (i : nat) (rules : list (jf_rule * bytes)) (b : buffer) :
    res (nat * list (jf_rule * bytes) * buffer) :=
  match rules with
  | (r, m) :: t =>
      if stage r =? st then
        b ← emit_rule p i r m b; emit_stage p st (S i) t b
      else Ok (i, rules, b)
  | [] => Ok (i, [], b)
  end.

(** [for (stage=1;stage<=7;stage++)], [n] stages from [st]. *)
Fixpoint emit_stages (p : jf_profile) (n : nat) (st : Z) (i : nat) (rules : list (jf_rule * bytes)) (b : buffer) :
    res (nat * list (jf_rule * bytes) * buffer) :=
  match n with
  | O => Ok (i, rules, b)
  | S n' =>
      b ← emit [str "if true {" ++ [LF]] b;
      '(i, rules, b) ← emit_stage p st i rules b;
      b ← emit [str "}" ++ [LF]] b;
      emit_stages p n' (st + 1) i rules b
  end.

Definition require_text (p : jf_profile) (regex : bool) : list bytes :=
  [str "require [" ++ quoted_name "fileinto"] ++
  (if p_create p then [str "," ++ quoted_name "mailbox"] else []) ++
  (if regex && p_regex p then [str "," ++ quoted_name "regex"] else []) ++ [str "];" ++ [LF]].

(** The zsh and Sieve buffers for rules paired with their mailboxes. *)
Definition jf_emit_text (p : jf_profile) (rules : list (jf_rule * bytes)) (h : nat) :
    res (jf_bytes * jf_bytes * nat) :=
  '(z, h) ← emit (zsh (map fst rules)) (no_bytes, h);
  let regex := existsb (fun r => bool_decide (kind r.1 = JF_ERE)) rules in
  b ← emit (require_text p regex) (no_bytes, h);
  '(_, rest, b) ← emit_stages p 7 1 0 rules b;
  match rest with
  | [(r, m)] =>
      if bool_decide (kind r = JF_ALWAYS) then
        '(s, h) ← emit (action_text p m ++ [[LF]]) b;
        Ok (z, s, h)
      else jf_product_error "E_RULE" 0 (str "missing unique final fallback")
  | _ => jf_product_error "E_RULE" 0 (str "missing unique final fallback")
  end.
End Emit.

(** ** Quoted words read back *)

(** The zsh reading of a word that starts with a quoted part: quoted bytes are
    literal, an escaped byte between two quoted parts stands for itself. *)
Fixpoint read_zsh (quoted : bool) (s acc : bytes) : bytes * bytes :=
  match s with
  | [] => (acc, [])
  | c :: t =>
      if quoted then if c =? SQ then read_zsh false t acc else read_zsh true t (acc ++ [c])
      else if c =? SQ then read_zsh true t acc
      else if c =? BSL then match t with d :: t' => read_zsh false t' (acc ++ [d]) | [] => (acc, [c]) end
      else (acc, s)
  end.

(** RFC 5228 quoted strings: a backslash makes the next byte literal. *)
Fixpoint read_sieve (s acc : bytes) : option (bytes * bytes) :=
  match s with
  | [] => None
  | c :: t =>
      if c =? DQ then Some (acc, t)
      else if c =? BSL then match t with d :: t' => read_sieve t' (acc ++ [d]) | [] => None end
      else read_sieve t (acc ++ [c])
  end.

Lemma read_zsh_quoted s acc rest :
  read_zsh true (concat (concat (map (fun c => if c =? SQ then [[SQ; BSL; SQ; SQ]] else [[]; [c]]) s)) ++ SQ :: rest) acc =
  read_zsh false rest (acc ++ s).
Proof.
  revert acc. induction s as [|c s IH]; intros acc; cbn [map concat app]; [now rewrite app_nil_r|].
  rewrite concat_app, <- app_assoc. destruct (Z.eqb_spec c SQ) as [->|Hc].
  - cbn. rewrite IH, <- app_assoc. reflexivity.
  - cbn [concat app]. cbn [read_zsh]. rewrite (proj2 (Z.eqb_neq c SQ) Hc), IH, <- app_assoc. reflexivity.
Qed.

Lemma read_sieve_quoted s acc rest :
  read_sieve (concat (concat (map (fun c => if (c =? DQ) || (c =? BSL) then [[BSL]; [c]] else [[c]]) s)) ++ DQ :: rest) acc =
  Some (acc ++ s, rest).
Proof.
  revert acc. induction s as [|c s IH]; intros acc; cbn [map concat app]; [now rewrite app_nil_r|].
  rewrite concat_app, <- app_assoc. destruct ((c =? DQ) || (c =? BSL)) eqn:E.
  - cbn. rewrite IH, <- app_assoc. reflexivity.
  - apply orb_false_iff in E as [E1 E2]. cbn [concat app read_sieve]. rewrite E1, E2, IH, <- app_assoc. reflexivity.
Qed.

(** No value can break out of its quotes: whatever follows that is not a
    quote or a backslash, the text written for a string is read back by zsh as
    exactly that string, and by Sieve with anything after it. *)
Theorem quoting_roundtrip s rest :
  (hd 0 rest <> SQ -> hd 0 rest <> BSL -> read_zsh true (tail (concat (quote_zsh s)) ++ rest) [] = (s, rest)) /\
  read_sieve (tail (concat (quote_sieve s)) ++ rest) [] = Some (s, rest).
Proof.
  split.
  - intros H1 H2. unfold quote_zsh. rewrite concat_app. cbn [concat app tail]. rewrite concat_app, <- app_assoc.
    cbn [concat app]. rewrite read_zsh_quoted. cbn [app]. destruct rest as [|c t]; [reflexivity|].
    cbn [read_zsh hd] in *. now rewrite (proj2 (Z.eqb_neq c SQ) H1), (proj2 (Z.eqb_neq c BSL) H2).
  - unfold quote_sieve. rewrite concat_app. cbn [concat app tail]. rewrite concat_app, <- app_assoc.
    cbn [concat app]. now rewrite read_sieve_quoted.
Qed.

Lemma quoting_roundtrip_witness :
  read_zsh true (tail (concat (quote_zsh (str "it's" ++ [LF] ++ str "\"))) ++ str ")") [] =
    (str "it's" ++ [LF] ++ str "\", str ")").
Proof. apply quoting_roundtrip; discriminate. Defined.

(** ** The text of a script *)

Definition test_text (r : jf_rule) : bytes :=
  match kind r with
  | JF_SENDER_CONTAINS => str "header :contains " ++ casemap ++ quoted_name "Sender" ++ [SP]
  | JF_SPAM_IS => str "header :is " ++ casemap ++ quoted_name "X-Spam-Flag" ++ [SP]
  | k => address_test k ++ casemap ++ default [] (sieve_fields r) ++ [SP]
  end.

Definition rule_text (p : jf_profile) (rm : jf_rule * bytes) : bytes :=
  str "  if " ++ test_text rm.1 ++ concat (quote_sieve (predicate rm.1)) ++ str " { " ++
  concat (action_text p rm.2) ++ str " stop; }" ++ [LF].

Definition block_text (p : jf_profile) (block : list (jf_rule * bytes)) : bytes :=
  str "if true {" ++ [LF] ++ concat (map (rule_text p) block) ++ str "}" ++ [LF].

(** [n] stages from [st]. *)
Fixpoint stages_from (st : Z) (n : nat) : list Z := match n with O => [] | S n' => st :: stages_from (st + 1) n' end.
Definition of_stage (st : Z) (rules : list (jf_rule * bytes)) : list (jf_rule * bytes) := List.filter (fun rm => stage rm.1 =? st) rules.

(** The script of sorted rules: what it requires, a block for each stage with the
    rules of the stage, and the mailbox of the last rule. *)
Definition script_text (p : jf_profile) (rules : list (jf_rule * bytes)) : bytes :=
  concat (require_text p (existsb (fun r => bool_decide (kind r.1 = JF_ERE)) rules)) ++
  concat (map (fun st => block_text p (of_stage st rules)) (stages_from 1 7)) ++
  match last rules with Some (_, m) => concat (action_text p m) ++ [LF] | None => [] end.

Section EmitFacts.
Context `{HP : Heap}.

Lemma emit_Ok l b h b' h' : buffer_wf JF_CACHE_MAX b -> emit l (b, h) = Ok (b', h') ->
  contents b' = contents b ++ concat l /\ buffer_wf JF_CACHE_MAX b'.
Proof.
  unfold emit. destruct (adds l (b, h)) as [[b1 h1]|] eqn:E; [|discriminate].
  intros Hw [= <- <-]. now apply adds_Some in E.
Qed.

Lemma emit_test_Ok r b h b' h' : buffer_wf JF_CACHE_MAX b -> emit_test r (b, h) = Ok (b', h') ->
  contents b' = contents b ++ test_text r /\ buffer_wf JF_CACHE_MAX b'.
Proof.
  intros Hw. unfold emit_test, test_text.
  destruct (kind r); try (intros H%emit_Ok; [|exact Hw]; cbn [concat] in H; now rewrite app_nil_r in H);
    (destruct (sieve_fields r) as [f|]; [|discriminate]; intros H%emit_Ok; [|exact Hw];
     cbn [concat default] in *; rewrite ?app_nil_r in H; exact H).
Qed.

Lemma emit_rule_Ok p i r m b h b' h' : buffer_wf JF_CACHE_MAX b -> emit_rule p i r m (b, h) = Ok (b', h') ->
  contents b' = contents b ++ rule_text p (r, m) /\ buffer_wf JF_CACHE_MAX b' /\ exportable p r = true.
Proof.
  intros Hw. unfold emit_rule. destruct (exportable p r); [|discriminate]. cbn [negb].
  rewrite res_bind_Ok. intros ([b1 h1] & [E1 W1]%emit_Ok & H); [|exact Hw].
  rewrite res_bind_Ok in H. destruct H as ([b2 h2] & [E2 W2]%emit_test_Ok & [E3 W3]%emit_Ok); [|exact W2|exact W1].
  split_and!; [|exact W3|reflexivity]. rewrite E3, E2, E1. unfold rule_text. cbn [fst snd].
  rewrite !concat_app. cbn [concat]. rewrite !app_nil_r, <- !app_assoc. reflexivity.
Qed.

Lemma emit_stage_Ok p st i rules b h i' rest b' h' :
  buffer_wf JF_CACHE_MAX b -> emit_stage p st i rules (b, h) = Ok (i', rest, (b', h')) ->
  exists block, rules = block ++ rest /\ buffer_wf JF_CACHE_MAX b' /\
    Forall (fun rm => stage rm.1 = st /\ exportable p rm.1 = true) block /\
    contents b' = contents b ++ concat (map (rule_text p) block).
Proof.
  revert i b h. induction rules as [|[r m] t IH]; intros i b h Hw; cbn [emit_stage].
  - intros [= <- <- <- <-]. exists []. cbn. rewrite app_nil_r. auto.
  - destruct (Z.eqb_spec (stage r) st) as [Hs|Hs].
    + rewrite res_bind_Ok. intros ([b1 h1] & (E1 & W1 & X1)%emit_rule_Ok & H); [|exact Hw].
      apply IH in H as (block & -> & W2 & F2 & E2); [|exact W1]. exists ((r, m) :: block).
      split_and!; [reflexivity|exact W2|now constructor|]. rewrite E2, E1. cbn [map concat]. now rewrite app_assoc.
    + intros [= <- <- <- <-]. exists []. cbn. rewrite app_nil_r. auto.
Qed.

(** The blocks of stages [st], [st + 1], ... *)
Inductive blocks_from (p : jf_profile) : Z -> list (list (jf_rule * bytes)) -> Prop :=
| blocks_nil st : blocks_from p st []
| blocks_cons st b bs :
    Forall (fun rm => stage rm.1 = st /\ exportable p rm.1 = true) b -> blocks_from p (st + 1) bs ->
    blocks_from p st (b :: bs).

Lemma emit_stages_Ok p n st i rules b h i' rest b' h' :
  buffer_wf JF_CACHE_MAX b -> emit_stages p n st i rules (b, h) = Ok (i', rest, (b', h')) ->
  exists blocks, rules = concat blocks ++ rest /\ length blocks = n /\ blocks_from p st blocks /\
    buffer_wf JF_CACHE_MAX b' /\ contents b' = contents b ++ concat (map (block_text p) blocks).
Proof.
  revert st i rules b h. induction n as [|n IH]; intros st i rules b h Hw; cbn [emit_stages].
  - intros [= <- <- <- <-]. exists []. cbn. rewrite app_nil_r. split_and!; auto. constructor.
  - rewrite res_bind_Ok. intros ([b1 h1] & [E1 W1]%emit_Ok & H); [|exact Hw].
    rewrite res_bind_Ok in H. destruct H as ([[i1 rules1] [b2 h2]] & Hs & H).
    apply emit_stage_Ok in Hs as (block & -> & W2 & F2 & E2); [|exact W1].
    rewrite res_bind_Ok in H. destruct H as ([b3 h3] & [E3 W3]%emit_Ok & H); [|exact W2].
    apply IH in H as (blocks & -> & L & B & W & E); [|exact W3].
    exists (block :: blocks). split_and!; [cbn; now rewrite app_assoc|cbn; lia|now constructor|exact W|].
    rewrite E, E3, E2, E1. cbn [map concat]. unfold block_text. cbn [concat]. rewrite !app_nil_r, <- !app_assoc.
    reflexivity.
Qed.

(** What a script that was written holds. *)
Lemma emit_text_Ok p rules h z s h' :
  jf_emit_text p rules h = Ok (z, s, h') ->
  contents z = concat (zsh (map fst rules)) /\
  exists blocks r m, rules = concat blocks ++ [(r, m)] /\ kind r = JF_ALWAYS /\
    length blocks = 7%nat /\ blocks_from p 1 blocks /\
    contents s = concat (require_text p (existsb (fun r => bool_decide (kind r.1 = JF_ERE)) rules)) ++
      concat (map (block_text p) blocks) ++ concat (action_text p m) ++ [LF].
Proof.
  assert (W0 : buffer_wf JF_CACHE_MAX no_bytes) by (apply no_bytes_wf; discriminate).
  unfold jf_emit_text. rewrite res_bind_Ok. intros ([z1 h1] & [Ez _]%emit_Ok & H); [|exact W0].
  rewrite res_bind_Ok in H. destruct H as ([b1 h2] & [E1 W1]%emit_Ok & H); [|exact W0].
  rewrite res_bind_Ok in H. destruct H as ([[i1 rest] [b2 h3]] & Hs & H).
  apply emit_stages_Ok in Hs as (blocks & E & L & B & W2 & E2); [|exact W1].
  destruct rest as [|[r m] [|]]; try discriminate. case_bool_decide as Hk; [|discriminate].
  rewrite res_bind_Ok in H. destruct H as ([s1 h4] & [E3 W3]%emit_Ok & [= <- <- <-]); [|exact W2].
  cbn [contents no_bytes app] in *. split; [exact Ez|]. exists blocks, r, m. split_and!; auto.
  rewrite E3, E2, E1, concat_app. cbn [concat]. now rewrite app_nil_r, <- !app_assoc.
Qed.

(** C24. The generated script is the whole policy: the rules but the last are cut
    into the seven stages in their order, each written as one guarded test with
    its mailbox and a stop, and the last rule is the unconditional fallback; every
    regular expression in it is exportable; and the zsh file is the declared
    arrays of the same rules. *)
Theorem emit_text_complete p rules h z s h' :
  jf_emit_text p rules h = Ok (z, s, h') ->
  contents z = concat (zsh (map fst rules)) /\
  exists blocks r m, rules = concat blocks ++ [(r, m)] /\ kind r = JF_ALWAYS /\
    length blocks = 7%nat /\ blocks_from p 1 blocks /\
    contents s = concat (require_text p (existsb (fun r => bool_decide (kind r.1 = JF_ERE)) rules)) ++
      concat (map (block_text p) blocks) ++ concat (action_text p m) ++ [LF].
Proof. apply emit_text_Ok. Qed.
End EmitFacts.

(** ** Which policies can be written *)

Definition writable (r : jf_rule) : Prop :=
  kind r = JF_SENDER_CONTAINS \/ kind r = JF_SPAM_IS \/ sieve_fields r <> None.

(** The shape of a resolved policy. *)
Record export_ready (rules : list (jf_rule * bytes)) : Prop := MkReady {
  er_sorted : StronglySorted (fun a b => stage a.1 <= stage b.1) rules;
  er_last : exists init r m, rules = init ++ [(r, m)] /\ kind r = JF_ALWAYS /\ 7 < stage r /\
    Forall (fun rm => 1 <= stage rm.1 <= 7 /\ writable rm.1) init }.

(** The rule an export error names: the first that cannot be exported. *)
Definition names_unexportable (p : jf_profile) (rules : list (jf_rule * bytes)) (e : jf_error) : Prop :=
  exists i r m, rules !! i = Some (r, m) /\ exportable p r = false /\
    Forall (fun rm => exportable p rm.1 = true) (take i rules) /\
    err_code e = "E_REGEX_EXPORT"%string /\ err_source e = Z.of_nat i /\ err_line e = line r.

Definition emit_outcome {A} (p : jf_profile) (rules : list (jf_rule * bytes)) (Q : A -> Prop) (x : res A) : Prop :=
  match x with
  | Ok a => Q a
  | Fail rc e => (rc = 3 /\ err_code e = "E_MEMORY"%string) \/ (rc = 4 /\ names_unexportable p rules e)
  end.

Lemma outcome_bind {A B} p rules (Q : A -> Prop) (R : B -> Prop) (m : res A) (f : A -> res B) :
  emit_outcome p rules Q m -> (forall a, Q a -> emit_outcome p rules R (f a)) ->
  emit_outcome p rules R (m ≫= f).
Proof. destruct m; cbn; auto. Qed.

Section Outcome.
Context `{HP : Heap} (p : jf_profile) (rules : list (jf_rule * bytes)).

Lemma emit_fine l b : emit_outcome p rules (fun _ => True) (emit l b).
Proof. unfold emit. destruct (adds l b); cbn; auto. Qed.

Lemma emit_rule_fine pre r m t b :
  rules = pre ++ (r, m) :: t -> Forall (fun rm => exportable p rm.1 = true) pre -> writable r ->
  emit_outcome p rules (fun _ => exportable p r = true) (emit_rule p (length pre) r m b).
Proof.
  intros E Hpre Hw. unfold emit_rule. destruct (exportable p r) eqn:Ex; cbn [negb].
  - eapply outcome_bind; [apply emit_fine|intros b1 _].
    eapply (outcome_bind _ _ (fun _ => True)); [|intros b2 _].
    + unfold emit_test. destruct Hw as [Hk|[Hk|Hf]]; [rewrite Hk; apply emit_fine..|].
      destruct (kind r); try apply emit_fine; (destruct (sieve_fields r); [apply emit_fine|easy]).
    + pose proof (emit_fine (quote_sieve (predicate r) ++ [str " { "] ++ action_text p m ++ [str " stop; }" ++ [LF]]) b2) as H.
      destruct (emit _ b2); [reflexivity|exact H].
  - right. split; [reflexivity|]. exists (length pre), r, m. rewrite E.
    split_and!; [now rewrite list_lookup_middle|exact Ex|now rewrite take_app_length|reflexivity..].
Qed.

Lemma emit_stage_fine st t pre b :
  rules = pre ++ t -> Forall (fun rm => exportable p rm.1 = true) pre ->
  Forall (fun rm => stage rm.1 <= 7 -> writable rm.1) t -> st <= 7 ->
  emit_outcome p rules (fun '(i, rest, _) => exists block, t = block ++ rest /\ i = length (pre ++ block) /\
      Forall (fun rm => stage rm.1 = st /\ exportable p rm.1 = true) block /\
      match rest with (r, _) :: _ => stage r <> st | [] => True end)
    (emit_stage p st (length pre) t b).
Proof.
  intros E Hpre Hw Hst. revert pre b E Hpre.
  induction t as [|[r m] t IH]; intros pre b E Hpre; cbn [emit_stage].
  - exists []. split_and!; auto. now rewrite app_nil_r.
  - apply Forall_cons in Hw as [Hw1 Hw2]. cbn [fst] in Hw1.
    destruct (Z.eqb_spec (stage r) st) as [Hs|Hs].
    + eapply outcome_bind; [apply (emit_rule_fine pre r m t b E Hpre), Hw1; lia|intros b1 Hx].
      specialize (IH Hw2 (pre ++ [(r, m)]) b1). rewrite length_app in IH. cbn [length] in IH.
      rewrite Nat.add_1_r in IH.
      assert (Hi : emit_outcome p rules (fun '(i, rest, _) => exists block, t = block ++ rest /\
          i = length ((pre ++ [(r, m)]) ++ block) /\
          Forall (fun rm => stage rm.1 = st /\ exportable p rm.1 = true) block /\
          match rest with (r, _) :: _ => stage r <> st | [] => True end) (emit_stage p st (S (length pre)) t b1)).
      { apply IH; [now rewrite <- app_assoc|]. apply Forall_app. split; [exact Hpre|]. now repeat constructor. }
      destruct (emit_stage p st (S (length pre)) t b1) as [[[i rest] b2]|rc e]; [|exact Hi].
      destruct Hi as (block & -> & -> & Hb & Hr). exists ((r, m) :: block).
      split_and!; [reflexivity|now rewrite <- app_assoc|now constructor|exact Hr].
    + exists []. split_and!; auto. now rewrite app_nil_r.
Qed.

Lemma emit_stages_fine n st t pre b :
  rules = pre ++ t -> Forall (fun rm => exportable p rm.1 = true) pre ->
  Forall (fun rm => stage rm.1 <= 7 -> writable rm.1) t -> st + Z.of_nat n <= 8 ->
  StronglySorted (fun a b => stage a.1 <= stage b.1) t -> Forall (fun rm => st <= stage rm.1) t ->
  emit_outcome p rules (fun '(_, rest, _) => exists done, t = done ++ rest /\
      Forall (fun rm => stage rm.1 < st + Z.of_nat n) done /\
      Forall (fun rm => st + Z.of_nat n <= stage rm.1) rest)
    (emit_stages p n st (length pre) t b).
Proof.
  revert st t pre b. induction n as [|n IH]; intros st t pre b E Hpre Hw Hst Hs Hge; cbn [emit_stages].
  - exists []. split_and!; [reflexivity|constructor|]. eapply Forall_impl; [exact Hge|]. cbn. lia.
  - eapply outcome_bind; [apply emit_fine|intros b1 _].
    eapply outcome_bind; [apply (emit_stage_fine st t pre b1 E Hpre Hw); lia|].
    intros [[i rest] b2] (block & Et & -> & Hb & Hr).
    eapply outcome_bind; [apply emit_fine|intros b3 _]. rewrite Et in Hs, Hw, Hge.
    apply StronglySorted_app in Hs as (_ & _ & Hs). apply Forall_app in Hw as [_ Hw], Hge as [_ Hge].
    assert (Hge' : Forall (fun rm => st + 1 <= stage rm.1) rest).
    { destruct Hs as [|[r m] rest Hs Hall]; [constructor|]. apply Forall_cons in Hge as [H1 H2]. cbn [fst] in *.
      constructor; [cbn; lia|]. eapply Forall_impl; [exact Hall|]. cbn. lia. }
    assert (Hx : Forall (fun rm => exportable p rm.1 = true) (pre ++ block)).
    { apply Forall_app. split; [exact Hpre|]. eapply Forall_impl; [exact Hb|]. now intros rm [_ H]. }
    specialize (IH (st + 1) rest (pre ++ block) b3). rewrite Et, app_assoc in E.
    specialize (IH E Hx Hw ltac:(lia) Hs Hge').
    destruct (emit_stages p n (st + 1) (length (pre ++ block)) rest b3) as [[[i' rest'] b4]|rc e]; [|exact IH].
    destruct IH as (done & -> & Hd & Hr'). exists (block ++ done). split_and!.
    + now rewrite <- app_assoc.
    + apply Forall_app. split; [|eapply Forall_impl; [exact Hd|]; cbn; lia].
      eapply Forall_impl; [exact Hb|]. cbn. lia.
    + eapply Forall_impl; [exact Hr'|]. cbn. lia.
Qed.

Lemma emit_text_outcome h :
  export_ready rules -> emit_outcome p rules (fun _ => True) (jf_emit_text p rules h).
Proof.
  intros [Hs (init & r & m & E & Hk & Hst & Hin)]. unfold jf_emit_text.
  eapply outcome_bind; [apply emit_fine|intros [z h1] _].
  eapply outcome_bind; [apply emit_fine|intros b1 _].
  eapply outcome_bind.
  { apply (emit_stages_fine 7 1 rules [] b1 eq_refl); [constructor| |lia|exact Hs|].
    - rewrite E. apply Forall_app. split; [|constructor; [cbn; lia|constructor]].
      eapply Forall_impl; [exact Hin|]. now intros rm [_ H].
    - rewrite E. apply Forall_app. split; [|constructor; [cbn; lia|constructor]].
      eapply Forall_impl; [exact Hin|]. cbn. lia. }
  intros [[i rest] b2] (done & Ed & Hlt & Hge).
  assert (rest = [(r, m)]) as ->.
  { destruct rest as [|x rest _] using rev_ind.
    - exfalso. rewrite app_nil_r in Ed. subst done. rewrite E in Hlt. apply Forall_app in Hlt as [_ Hlt].
      inversion Hlt; cbn in *; lia.
    - rewrite app_assoc in Ed. rewrite E in Ed. apply app_inj_tail in Ed as [Ed <-].
      destruct rest as [|y rest]; [reflexivity|]. exfalso. rewrite Ed in Hin.
      apply Forall_app in Hin as [_ Hin]. inversion Hin; inversion Hge; subst. cbn in *. lia. }
  rewrite bool_decide_true by exact Hk.
  eapply outcome_bind; [apply emit_fine|intros [s h2] _]. exact I.
Qed.
End Outcome.

(** ** Enough room is enough *)

Section Room.
Context `{HP : Heap} (p : jf_profile) (ample : forall n, malloc_ok n = true).
Abbreviation fits b text := (zlen (contents b) + zlen text <= JF_CACHE_MAX).

(** [text] was appended. *)
Definition appended (b : jf_bytes) (text : bytes) (b' : jf_bytes) : Prop :=
  contents b' = contents b ++ text /\ buffer_wf JF_CACHE_MAX b'.

Lemma fits_app b x y : fits b (x ++ y) -> fits b x /\ forall b', appended b x b' -> fits b' y.
Proof.
  unfold zlen. rewrite length_app. intros H. split; [lia|]. intros b' [-> _]. rewrite length_app. lia.
Qed.

Lemma appended_app b x b1 y b2 : appended b x b1 -> appended b1 y b2 -> appended b (x ++ y) b2.
Proof. intros [E1 _] [E2 W]. split; [now rewrite E2, E1, <- app_assoc|exact W]. Qed.

Lemma emit_room l b h : buffer_wf JF_CACHE_MAX b -> fits b (concat l) -> exists b' h', emit l (b, h) = Ok (b', h') /\ appended b (concat l) b'.
Proof.
  intros Hw Hf. assert (exists b' h', adds l (b, h) = Some (b', h')) as (b' & h' & E).
  { revert b h Hw Hf. induction l as [|x l IH]; intros b h Hw Hf; cbn [adds]; [eauto|]. cbn [concat] in Hf.
    apply fits_app in Hf as [H1 H2]. destruct (add_limit_ok x JF_CACHE_MAX b h ample cache_max_range H1) as (b1 & h1 & E).
    unfold jf_bytes_add. rewrite E. cbn [mbind option_bind].
    apply add_limit_Some in E as (E & W & _); [|apply cache_max_range|exact Hw]. apply IH; [exact W|]. now apply H2. }
  exists b', h'. unfold emit. rewrite E. split; [reflexivity|]. exact (adds_Some _ _ _ _ _ Hw E).
Qed.

Lemma emit_one_room x b h : buffer_wf JF_CACHE_MAX b -> fits b x -> exists b' h', emit [x] (b, h) = Ok (b', h') /\ appended b x b'.
Proof. intros Hw Hf. pose proof (emit_room [x] b h Hw) as H. cbn [concat] in H. rewrite app_nil_r in H. now apply H. Qed.

Lemma emit_rule_room i r m b h : buffer_wf JF_CACHE_MAX b -> exportable p r = true -> writable r -> fits b (rule_text p (r, m)) ->
  exists b' h', emit_rule p i r m (b, h) = Ok (b', h') /\ appended b (rule_text p (r, m)) b'.
Proof.
  intros Hw Hx Hr Hf. unfold emit_rule. rewrite Hx. cbn [negb]. unfold rule_text in *. cbn [fst snd] in *.
  apply fits_app in Hf as [H1 Hf]. destruct (emit_one_room (str "  if ") b h Hw H1) as (b1 & h1 & -> & A1). cbn [mbind res_bind].
  specialize (Hf _ A1). apply fits_app in Hf as [H2 Hf].
  assert (exists b2 h2, emit_test r (b1, h1) = Ok (b2, h2) /\ appended b1 (test_text r) b2) as (b2 & h2 & -> & A2).
  { unfold emit_test, test_text in *. destruct Hr as [Hk|[Hk|Hs]]; [rewrite Hk in *; apply emit_one_room; [apply A1|exact H2]..|].
    destruct (sieve_fields r) as [f|]; [|easy]. cbn [default] in *.
    destruct (kind r); (match goal with |- context [emit ?l _] => pose proof (emit_room l b1 h1 (proj2 A1)) as HE end;
      cbn [concat] in HE; rewrite app_nil_r in HE; exact (HE H2)). }
  cbn [mbind res_bind]. specialize (Hf _ A2).
  match type of Hf with _ + zlen ?t <= _ => match goal with |- context [emit ?l _] => assert (concat l = t) as EL end end.
  { rewrite !concat_app. cbn [concat]. now rewrite !app_nil_r. }
  destruct (emit_room _ b2 h2 (proj2 A2) ltac:(rewrite EL; exact Hf)) as (b3 & h3 & -> & A3). rewrite EL in A3.
  exists b3, h3. split; [reflexivity|]. exact (appended_app _ _ _ _ _ A1 (appended_app _ _ _ _ _ A2 A3)).
Qed.

(** The rules of one stage. *)
Definition sound_block (st : Z) (block : list (jf_rule * bytes)) : Prop :=
  Forall (fun rm => stage rm.1 = st /\ exportable p rm.1 = true /\ writable rm.1) block.

Lemma emit_stage_room st block rest i b h : buffer_wf JF_CACHE_MAX b -> sound_block st block ->
  Forall (fun rm => st < stage rm.1) rest -> fits b (concat (map (rule_text p) block)) ->
  exists i' b' h', emit_stage p st i (block ++ rest) (b, h) = Ok (i', rest, (b', h')) /\ appended b (concat (map (rule_text p) block)) b'.
Proof.
  intros Hw Hb Hr. revert i b h Hw. induction Hb as [|[r m] block (Hs & Hx & Hwr) _ IH]; intros i b h Hw Hf; cbn [app emit_stage map concat] in *.
  - exists i, b, h. split; [|split; [now rewrite app_nil_r|exact Hw]]. destruct Hr as [|[r m] rest Hr _]; [reflexivity|]. cbn [fst emit_stage] in *.
    rewrite (proj2 (Z.eqb_neq _ _)) by lia. reflexivity.
  - cbn [fst] in *. rewrite Hs, Z.eqb_refl. apply fits_app in Hf as [H1 H2].
    destruct (emit_rule_room i r m b h Hw Hx Hwr H1) as (b1 & h1 & -> & A1). cbn [mbind res_bind].
    destruct (IH (S i) b1 h1 (proj2 A1) (H2 _ A1)) as (i' & b' & h' & -> & A2).
    exists i', b', h'. split; [reflexivity|]. exact (appended_app _ _ _ _ _ A1 A2).
Qed.

(** The blocks of consecutive stages, and what comes after them. *)
Inductive sound_blocks (rest : list (jf_rule * bytes)) : Z -> list (list (jf_rule * bytes)) -> Prop :=
| sound_nil st : Forall (fun rm => st <= stage rm.1) rest -> sound_blocks rest st []
| sound_cons st b bs : sound_block st b -> sound_blocks rest (st + 1) bs -> sound_blocks rest st (b :: bs).

Lemma sound_blocks_later rest st bs : sound_blocks rest st bs -> Forall (fun rm => st <= stage rm.1) (concat bs ++ rest).
Proof.
  induction 1 as [st H|st b bs Hb _ IH]; [exact H|]. cbn [concat]. rewrite <- app_assoc. apply Forall_app. split.
  - eapply Forall_impl; [exact Hb|]. cbn. intros rm (H & _). lia.
  - eapply Forall_impl; [exact IH|]. cbn. intros. lia.
Qed.

Lemma emit_stages_room rest st bs i b h : buffer_wf JF_CACHE_MAX b -> sound_blocks rest st bs -> fits b (concat (map (block_text p) bs)) ->
  exists i' b' h', emit_stages p (length bs) st i (concat bs ++ rest) (b, h) = Ok (i', rest, (b', h')) /\ appended b (concat (map (block_text p) bs)) b'.
Proof.
  intros Hw Hb. revert i b h Hw. induction Hb as [st H|st bl bs Hbl Hbs IH]; intros i b h Hw Hf; cbn [length emit_stages map concat app] in *.
  { exists i, b, h. split; [reflexivity|]. split; [now rewrite app_nil_r|exact Hw]. }
  unfold block_text in Hf at 1. rewrite <- !app_assoc in Hf. rewrite app_assoc in Hf. apply fits_app in Hf as [H1 Hf].
  destruct (emit_one_room (str "if true {" ++ [LF]) b h Hw H1) as (b1 & h1 & -> & A1). cbn [mbind res_bind].
  specialize (Hf _ A1). apply fits_app in Hf as [H2 Hf]. rewrite <- app_assoc.
  destruct (emit_stage_room st bl (concat bs ++ rest) i b1 h1 (proj2 A1) Hbl) as (i2 & b2 & h2 & -> & A2); [|exact H2|].
  { eapply Forall_impl; [apply sound_blocks_later, Hbs|]. cbn. intros. lia. }
  cbn [mbind res_bind]. specialize (Hf _ A2). rewrite app_assoc in Hf. apply fits_app in Hf as [H3 Hf].
  destruct (emit_one_room (str "}" ++ [LF]) b2 h2 (proj2 A2) H3) as (b3 & h3 & -> & A3). cbn [mbind res_bind].
  destruct (IH i2 b3 h3 (proj2 A3) (Hf _ A3)) as (i' & b' & h' & -> & A4). exists i', b', h'. split; [reflexivity|].
  pose proof (appended_app _ _ _ _ _ A1 (appended_app _ _ _ _ _ A2 (appended_app _ _ _ _ _ A3 A4))) as A.
  unfold block_text at 1. repeat rewrite <- app_assoc in A. repeat rewrite <- app_assoc. exact A.
Qed.
End Room.

(** ** The blocks of sorted rules *)

Abbreviation from_stage st l := (List.filter (fun rm : jf_rule * bytes => st <=? stage rm.1) l).

Lemma of_stage_none st l : Forall (fun rm => stage rm.1 <> st) l -> of_stage st l = [].
Proof. induction 1 as [|x l H _ IH]; [reflexivity|]. cbn [of_stage List.filter]. apply Z.eqb_neq in H. now rewrite H. Qed.
Lemma of_stage_all st l : Forall (fun rm => stage rm.1 = st) l -> of_stage st l = l.
Proof. induction 1 as [|x l H _ IH]; [reflexivity|]. cbn [of_stage List.filter]. rewrite H, Z.eqb_refl. f_equal. exact IH. Qed.
Lemma of_stage_app st a b : of_stage st (a ++ b) = of_stage st a ++ of_stage st b.
Proof. apply List.filter_app. Qed.
Lemma of_stage_Forall (P : jf_rule * bytes -> Prop) st l : Forall P l -> Forall (fun rm => stage rm.1 = st /\ P rm) (of_stage st l).
Proof.
  rewrite !Forall_forall. intros H x Hx. apply list_elem_of_In, filter_In in Hx as [Hx E]. boolify.
  split; [exact E|]. now apply H, list_elem_of_In.
Qed.

Section Sorted.
Context (rules : list (jf_rule * bytes)) (sorted : StronglySorted (fun a b => stage a.1 <= stage b.1) rules).

Lemma from_stage_split st : from_stage st rules = of_stage st rules ++ from_stage (st + 1) rules.
Proof.
  induction sorted as [|x l Hs IH Hx]; [reflexivity|]. specialize (IH Hs). cbn [List.filter of_stage].
  destruct (Z.leb_spec st (stage x.1)) as [H|H], (Z.eqb_spec (stage x.1) st) as [E|E], (Z.leb_spec (st + 1) (stage x.1)) as [H'|H'];
    try lia; [cbn [app]; now rewrite IH| |exact IH].
  assert (of_stage st l = []) as EN by (apply of_stage_none; eapply Forall_impl; [exact Hx|]; cbn; intros; lia).
  fold (of_stage st l). now rewrite IH, EN.
Qed.

Lemma from_stage_blocks n st : from_stage st rules = concat (map (fun k => of_stage k rules) (stages_from st n)) ++ from_stage (st + Z.of_nat n) rules.
Proof.
  revert st. induction n as [|n IH]; intros st; cbn [stages_from map concat app]; [now rewrite Z.add_0_r|].
  replace (st + Z.of_nat (S n)) with (st + 1 + Z.of_nat n) by lia. now rewrite (from_stage_split st), (IH (st + 1)), <- app_assoc.
Qed.
End Sorted.

Lemma from_stage_all st l : Forall (fun rm => st <= stage rm.1) l -> from_stage st l = l.
Proof. induction 1 as [|x l H _ IH]; [reflexivity|]. cbn [List.filter]. apply Z.leb_le in H. rewrite H. now f_equal. Qed.
Lemma from_stage_none st l : Forall (fun rm => stage rm.1 < st) l -> from_stage st l = [].
Proof. induction 1 as [|x l H _ IH]; [reflexivity|]. cbn [List.filter]. apply Z.leb_gt in H. now rewrite H. Qed.

(** Blocks of consecutive stages are those of the whole list. *)
Lemma blocks_of_stages p st bs pre rest : blocks_from p st bs -> Forall (fun rm => stage rm.1 < st) pre ->
  Forall (fun rm => st + zlen bs <= stage rm.1) rest ->
  map (fun k => of_stage k (pre ++ concat bs ++ rest)) (stages_from st (length bs)) = bs.
Proof.
  intros H. revert pre. induction H as [st|st b bs Hb Hbs IH]; intros pre Hpre Hrest; [reflexivity|].
  unfold zlen in *. cbn [length concat stages_from map] in *.
  assert (Hb' : Forall (fun rm => stage rm.1 = st) b) by (eapply Forall_impl; [exact Hb|]; now intros rm [? _]).
  f_equal.
  - rewrite !of_stage_app, (of_stage_none st pre), (of_stage_all st b Hb'); [|eapply Forall_impl; [exact Hpre|]; cbn; lia].
    rewrite (of_stage_none st (concat bs)), (of_stage_none st rest); [now rewrite !app_nil_r| |].
    + eapply Forall_impl; [exact Hrest|]. cbn. lia.
    + clear -Hbs. assert (Forall (fun rm : jf_rule * bytes => st + 1 <= stage rm.1) (concat bs)) as H.
      { induction Hbs as [k|k b bs Hb _ IH]; [constructor|]. cbn [concat]. apply Forall_app. split; (eapply Forall_impl; [eassumption|]); cbn; lia. }
      eapply Forall_impl; [exact H|]. cbn. lia.
  - rewrite <- app_assoc, (app_assoc pre b). apply IH.
    + apply Forall_app. split; [eapply Forall_impl; [exact Hpre|]; cbn; lia|eapply Forall_impl; [exact Hb'|]; cbn; lia].
    + eapply Forall_impl; [exact Hrest|]. cbn. lia.
Qed.

Lemma ready_bounds rules : export_ready rules -> exists init r m, rules = init ++ [(r, m)] /\ kind r = JF_ALWAYS /\ 8 <= stage r /\
  Forall (fun rm => 1 <= stage rm.1 < 8 /\ writable rm.1) init.
Proof.
  intros [_ (init & r & m & E & Hk & Hst & Hin)]. exists init, r, m. split_and!; [exact E|exact Hk|lia|].
  eapply Forall_impl; [exact Hin|]. intros rm [H ?]. split; [lia|assumption].
Qed.

(** What was written is the whole script. *)
Lemma emit_text_script `{HP : Heap} p rules h z s h' : export_ready rules -> jf_emit_text p rules h = Ok (z, s, h') ->
  Forall (fun rm => exportable p rm.1 = true) rules /\ contents z = concat (zsh (map fst rules)) /\ contents s = script_text p rules.
Proof.
  intros Hr H. apply emit_text_Ok in H as (Hz & bs & r & m & E & Hk & L & B & Hs).
  destruct (ready_bounds rules Hr) as (init & r' & m' & E' & _ & H8 & _). rewrite E in E'. apply app_inj_tail in E' as [_ Er]. injection Er as <- <-.
  split_and!; [|exact Hz|].
  - rewrite E. apply Forall_app. split; [|constructor; [unfold exportable; cbn [fst]; now rewrite Hk|constructor]].
    clear -B. induction B as [|st b bs Hb _ IH]; [constructor|]. cbn [concat]. apply Forall_app. split; [|exact IH].
    eapply Forall_impl; [exact Hb|]. now intros rm [_ ?].
  - assert (EB : map (fun k => of_stage k rules) (stages_from 1 7) = bs).
    { rewrite E, <- L. apply (blocks_of_stages p 1 bs [] [(r, m)] B); [constructor|]. unfold zlen. rewrite L. constructor; [cbn [fst]; lia|constructor]. }
    assert (EL : last rules = Some (r, m)) by (rewrite E; apply last_snoc).
    rewrite Hs. unfold script_text. now rewrite <- (map_map (fun k => of_stage k rules) (block_text p)), EB, EL.
Qed.

(** With memory and room the script is written. *)
Lemma emit_text_room `{HP : Heap} p rules h : (forall n, malloc_ok n = true) -> export_ready rules ->
  Forall (fun rm => exportable p rm.1 = true) rules -> zlen (concat (zsh (map fst rules))) <= JF_CACHE_MAX ->
  zlen (script_text p rules) <= JF_CACHE_MAX -> exists z s h', jf_emit_text p rules h = Ok (z, s, h').
Proof.
  intros ample Hr Hx Hz Hs. assert (W0 : buffer_wf JF_CACHE_MAX no_bytes) by (apply no_bytes_wf; discriminate).
  destruct (ready_bounds rules Hr) as (init & r & m & E & Hk & H8 & Hin).
  assert (HL : last rules = Some (r, m)) by (rewrite E; apply last_snoc).
  set (bs := map (fun k => of_stage k rules) (stages_from 1 7)).
  assert (ED : rules = concat bs ++ [(r, m)]).
  { rewrite <- (from_stage_all 1 rules) at 1; [rewrite (from_stage_blocks rules (er_sorted _ Hr) 7 1); fold bs; f_equal|]; rewrite E.
    - change (1 + Z.of_nat 7) with 8. rewrite List.filter_app, from_stage_none; [|eapply Forall_impl; [exact Hin|]; cbn; lia].
      cbn [app List.filter fst]. apply Z.leb_le in H8. now rewrite H8.
    - apply Forall_app. split; [eapply Forall_impl; [exact Hin|]; cbn; lia|constructor; [cbn; lia|constructor]]. }
  assert (HB : forall n st, st + Z.of_nat n = 8 -> sound_blocks p [(r, m)] st (map (fun k => of_stage k rules) (stages_from st n))).
  { assert (HP0 : Forall (fun rm => exportable p rm.1 = true /\ (stage rm.1 < 8 -> writable rm.1)) rules).
    { rewrite Forall_forall in *. intros x Hxi. split; [now apply Hx|]. intros Hlt. rewrite E in Hxi. apply elem_of_app in Hxi as [Hxi|Hxi].
      - now apply Hin.
      - apply list_elem_of_singleton in Hxi as ->. cbn in Hlt. lia. }
    induction n as [|n IH]; intros st Hst; cbn [stages_from map]; [apply sound_nil; constructor; [cbn; lia|constructor]|].
    apply sound_cons; [|apply IH; lia]. eapply Forall_impl; [apply (of_stage_Forall _ st _ HP0)|]. cbn. intros rm (H1 & H2 & H3).
    split_and!; [exact H1|exact H2|apply H3; lia]. }
  unfold jf_emit_text. unfold script_text in Hs. rewrite HL in Hs. fold bs in Hs.
  destruct (emit_room ample (zsh (map fst rules)) no_bytes h W0 Hz) as (z & h1 & -> & _). cbn [mbind res_bind].
  apply (fits_app no_bytes) in Hs as [H1 Hs]. destruct (emit_room ample _ no_bytes h1 W0 H1) as (b1 & h2 & -> & A1). cbn [mbind res_bind].
  specialize (Hs _ A1). rewrite <- (map_map (fun k => of_stage k rules) (block_text p)) in Hs. fold bs in Hs. apply fits_app in Hs as [H2 Hs].
  destruct (emit_stages_room p ample [(r, m)] 1 bs 0 b1 h2 (proj2 A1) (HB 7%nat 1 eq_refl) H2) as (i & b2 & h3 & E2 & A2).
  assert (E3 : emit_stages p 7 1 0 rules (b1, h2) = Ok (i, [(r, m)], (b2, h3))) by (rewrite ED; exact E2).
  rewrite E3. cbn [mbind res_bind]. rewrite bool_decide_true by exact Hk.
  destruct (emit_room ample (action_text p m ++ [[LF]]) b2 h3 (proj2 A2)) as (s & h4 & -> & _).
  { rewrite concat_app. cbn [concat]. rewrite app_nil_r. now apply Hs. }
  cbn [mbind res_bind]. eauto.
Qed.

(** ** Parsed policies can be written *)

(** The stages and address fields a source rule can have. *)
Lemma user_bounds r : user_shape r -> 1 <= stage r <= 7 /\ (fields r = 1 \/ fields r = 3 \/ fields r = 12).
Proof.
  unfold user_shape. intros (_ & _ & _ & _ & _ & _ & _ & _ & H).
  assert (Hr : exists l, route r ∈ l /\ Forall (fun x => 1 <= x.1.2 <= 7 /\ (x.2 = 1 \/ x.2 = 3 \/ x.2 = 12)) l).
  { destruct (kind r); try contradiction; try (destruct H as (_ & _ & H));
      (eexists; split; [exact H|]); repeat (apply Forall_cons; split; [cbn [fst snd]; lia|]); constructor. }
  destruct Hr as (l & Hr & Hl). rewrite Forall_forall in Hl. exact (Hl _ Hr).
Qed.

Lemma user_writable r : user_shape r -> 1 <= stage r <= 7 /\ writable r.
Proof.
  intros [Hs Hf]%user_bounds. split; [exact Hs|]. right. right. unfold sieve_fields.
  destruct Hf as [-> |[-> | ->]]; discriminate.
Qed.

Lemma final_writable e : final_entry e ->
  if bool_decide (kind (rule e) = JF_ALWAYS) then stage (rule e) = 8
  else 1 <= stage (rule e) <= 7 /\ writable (rule e).
Proof.
  intros [[Hu|(r & Hr & E)] _].
  - pose proof (user_shape_kind _ Hu) as Hk. rewrite bool_decide_false by (intros E; now rewrite E in Hk).
    now apply user_writable.
  - rewrite E. cbn [kind stage writable]. unfold writable. cbn [kind].
    apply elem_of_cons in Hr as [->|Hr]; [split; [split; discriminate|now left]|].
    apply elem_of_cons in Hr as [->|Hr]; [split; [split; discriminate|right; now left]|].
    apply elem_of_cons in Hr as [->|Hr]; [reflexivity|]. now apply elem_of_nil in Hr.
Qed.

Lemma fallback_last (es : list jf_entry) f :
  Forall final_entry es -> StronglySorted (fun a b => compare_order a b = Lt) es ->
  positions (is_kind JF_ALWAYS) es = [f] -> length es = S f.
Proof.
  intros Hf Hs Hp.
  assert (Hin : f ∈ positions (is_kind JF_ALWAYS) es) by (rewrite Hp; left).
  apply positions_elem in Hin as [Hlt Hk]. unfold is_kind in Hk. apply bool_decide_eq_true in Hk.
  destruct (Nat.lt_total (S f) (length es)) as [Hl|[<-|Hl]]; [exfalso|reflexivity|lia].
  pose proof (entry_at_lookup es f Hlt) as E1. pose proof (entry_at_lookup es (S f) Hl) as E2.
  pose proof (sorted_lookup _ _ _ _ _ _ Hs E1 E2 ltac:(lia)) as Hc. cbv beta in Hc.
  rewrite Forall_lookup in Hf. pose proof (final_writable _ (Hf _ _ E1)) as H1.
  pose proof (final_writable _ (Hf _ _ E2)) as H2. rewrite bool_decide_true in H1 by exact Hk.
  rewrite bool_decide_false in H2.
  - rewrite compare_order_rank in Hc. destruct (Z.compare_spec (stage (rule (entry_at es f))) (stage (rule (entry_at es (S f)))));
      cbn in Hc; try discriminate; lia.
  - intros Hk2. assert (S f = f); [|lia].
    apply (single_position _ _ _ Hp (S f) Hl). unfold is_kind. now apply bool_decide_eq_true.
Qed.

Lemma sorted_stages (es : list jf_entry) (mbs : list bytes) :
  StronglySorted (fun a b => compare_order a b = Lt) es ->
  StronglySorted (fun a b : jf_rule * bytes => stage a.1 <= stage b.1) (zip (map rule es) mbs).
Proof.
  intros Hs. revert mbs. induction Hs as [|e es _ IH He]; intros [|m mbs]; cbn; try constructor; [apply IH|].
  apply Forall_forall. intros [r m'] Hin. apply elem_of_zip_l in Hin. cbn.
  apply list_elem_of_fmap in Hin as (e' & -> & Hin). rewrite Forall_forall in He. specialize (He e' Hin).
  cbv beta in He. rewrite compare_order_rank in He.
  destruct (Z.compare_spec (stage (rule e)) (stage (rule e'))); cbn in He; try discriminate; lia.
Qed.

Lemma final_export_ready pol mbs :
  indexed pol -> Forall final_entry (entries pol) ->
  StronglySorted (fun a b => compare_order a b = Lt) (entries pol) -> length mbs = length (entries pol) ->
  export_ready (zip (map rule (entries pol)) mbs).
Proof.
  intros Hi Hf Hs Hm. split; [now apply sorted_stages|].
  destruct (ix_fallback pol Hi) as (f & _ & Hp). pose proof (fallback_last _ f Hf Hs Hp) as Hlen.
  destruct (entries pol) as [|e es _] using rev_ind; [discriminate|]. rewrite length_app, Nat.add_1_r in Hlen.
  injection Hlen as Hlen. rewrite length_app in Hm.
  destruct mbs as [|m mbs _] using rev_ind; [cbn in Hm; lia|]. rewrite length_app in Hm.
  rewrite map_app, zip_with_app by (rewrite length_map; cbn in Hm; lia). cbn [map zip_with].
  apply Forall_app in Hf as [Hf He]. apply Forall_inv in He.
  assert (Hk : kind (rule e) = JF_ALWAYS).
  { assert (Hin : f ∈ positions (is_kind JF_ALWAYS) (es ++ [e])) by (rewrite Hp; left).
    apply positions_elem in Hin as [_ Hk]. unfold is_kind in Hk. apply bool_decide_eq_true in Hk.
    unfold entry_at in Hk. rewrite <- Hlen, nth_middle in Hk. exact Hk. }
  exists (zip (map rule es) mbs), (rule e), m. split_and!; [reflexivity|exact Hk| |].
  - pose proof (final_writable e He) as H. rewrite bool_decide_true in H by exact Hk. lia.
  - apply Forall_forall. intros [r m'] Hin. apply elem_of_zip_l, list_elem_of_fmap in Hin as (x & -> & Hx).
    cbn [fst]. apply list_elem_of_lookup in Hx as [j Hj]. pose proof (lookup_lt_Some _ _ _ Hj) as Hjl.
    rewrite Forall_lookup in Hf. pose proof (final_writable x (Hf _ _ Hj)) as H.
    rewrite bool_decide_false in H; [exact H|]. intros Hkx.
    assert (j = f); [|lia]. apply (single_position _ _ _ Hp j); [rewrite length_app; lia|].
    unfold is_kind, entry_at. rewrite app_nth1 by exact Hjl.
    rewrite (nth_lookup_Some _ _ _ _ Hj). now apply bool_decide_eq_true.
Qed.

(** C14. A parsed policy is written in full, or the failure says why not: success
    gives the zsh arrays and the whole script of the rules, all of which can be
    exported; the failures are memory or output space (status 3) and
    E_REGEX_EXPORT (status 4), naming the first rule, by its index and line, whose
    expression the profile cannot carry; the internal-consistency errors never
    happen.  With memory, with rules that can be exported and with texts within
    the limit of a product, it succeeds. *)
Theorem emit_parsed `{AL : Allocator} `{RX : PosixRegex} `{HP : Heap} sources pol p mbs h :
  sources_bytes sources -> jf_policy_parse sources = Ok pol -> length mbs = length (entries pol) ->
  let rules := zip (map rule (entries pol)) mbs in
  match jf_emit_text p rules h with
  | Ok (z, s, _) => Forall (fun rm => exportable p rm.1 = true) rules /\
                    contents z = concat (zsh (map fst rules)) /\ contents s = script_text p rules
  | Fail rc e => (rc = 3 /\ err_code e = "E_MEMORY"%string) \/ (rc = 4 /\ names_unexportable p rules e)
  end /\
  ((forall n, malloc_ok n = true) -> Forall (fun rm => exportable p rm.1 = true) rules ->
   zlen (concat (zsh (map fst rules))) <= JF_CACHE_MAX -> zlen (script_text p rules) <= JF_CACHE_MAX ->
   exists z s h', jf_emit_text p rules h = Ok (z, s, h')).
Proof.
  intros Hs Hp Hm rules. assert (Hr : export_ready rules).
  { apply parse_complete in Hp as (_ & _ & es & Hc & Hi & He); [|exact Hs].
    apply final_export_ready; auto; rewrite He; [now apply resolved_final|apply resolved_sorted, (proj1 Hc)]. }
  split; [|now intros; apply emit_text_room].
  pose proof (emit_text_outcome p rules h Hr) as HO. destruct (jf_emit_text p rules h) as [[[z s] h']|rc e] eqn:E; [|exact HO].
  exact (emit_text_script p rules h z s h' Hr E).
Qed.

(** *** Examples *)

Definition sample_rules : list (jf_rule * bytes) :=
  [(example_rule JF_DOMAIN_APEX 3 3 "from-domain" "dyne.org" "dyne" 1, str "Dyne"); (unsorted_rule, str "INBOX")].

Lemma emit_text_complete_witness :
  exists z s h, jf_emit_text (HP:=granting) sample_profile sample_rules 0 = Ok (z, s, h) /\
    contents z = concat (zsh (map fst sample_rules)).
Proof.
  assert (Hok : succeeds (jf_emit_text (HP:=granting) sample_profile sample_rules 0) = true)
    by (vm_compute; reflexivity).
  destruct (jf_emit_text (HP:=granting) sample_profile sample_rules 0) as [[[z s] h]|rc e] eqn:E; [|discriminate].
  exists z, s, h. split; [reflexivity|].
  exact (proj1 (emit_text_complete (HP:=granting) sample_profile sample_rules 0 z s h E)).
Defined.

Definition inbox_rules (pol : jf_policy) : list (jf_rule * bytes) :=
  zip (map rule (entries pol)) (replicate (length (entries pol)) (str "INBOX")).

Definition regex_profile : jf_profile := MkProfile PIGEONHOLE [] (str "/") true true true true [].

Lemma emit_parsed_witness :
  exists pol z s h, jf_policy_parse (AL:=ample) (RX:=fixed_strings) example_sources = Ok pol /\
    jf_emit_text (HP:=granting) regex_profile (inbox_rules pol) 0 = Ok (z, s, h) /\
    contents s = script_text regex_profile (inbox_rules pol).
Proof.
  assert (Hs : sources_bytes example_sources) by (vm_compute; repeat constructor; discriminate).
  destruct (jf_policy_parse (AL:=ample) (RX:=fixed_strings) example_sources) as [pol|rc e] eqn:E.
  2: { assert (Hok : succeeds (jf_policy_parse (AL:=ample) (RX:=fixed_strings) example_sources) = true) by (vm_compute; reflexivity).
       rewrite E in Hok. discriminate Hok. }
  assert (Hx : match jf_policy_parse (AL:=ample) (RX:=fixed_strings) example_sources with
               | Ok pol => forallb (fun rm => exportable regex_profile rm.1) (inbox_rules pol) &&
                   (zlen (concat (zsh (map fst (inbox_rules pol)))) <=? JF_CACHE_MAX) && (zlen (script_text regex_profile (inbox_rules pol)) <=? JF_CACHE_MAX)
               | Fail _ _ => false end = true) by (vm_compute; reflexivity).
  rewrite E in Hx. apply andb_true_iff in Hx as [Hx H3]. apply andb_true_iff in Hx as [H1 H2]. apply Z.leb_le in H2, H3.
  assert (H1' : Forall (fun rm => exportable regex_profile rm.1 = true) (inbox_rules pol)).
  { apply Forall_forall. intros x Hin. now apply (proj1 (forallb_forall _ _) H1), list_elem_of_In. }
  destruct (emit_parsed (AL:=ample) (RX:=fixed_strings) (HP:=granting) example_sources pol regex_profile (replicate (length (entries pol)) (str "INBOX")) 0 Hs E (length_replicate _ _)) as [HA HB].
  destruct (HB (fun _ => eq_refl) H1' H2 H3) as (z & s & h & ES). exists pol, z, s, h. split_and!; [reflexivity|exact ES|].
  fold (inbox_rules pol) in HA, ES. rewrite ES in HA. exact (proj2 (proj2 HA)).
Defined.
