(* ===== verification/Cache.v ===== *)
(** * The binary cache (src/filter/cache.c)

    The little-endian record framing, the products built from a policy, the
    validator of a cache file and the policy restored from one. *)
From S2P Require Import Prelude Sha256 Utf8 Mailbox Lexer Rules Resolve Classify Policy Bytes Profile Emit.

Definition JF_COMPILER_ID : bytes := str "jaromail-filter-compiler-v2".
Definition JF_DEPENDENCY_MAX : Z := 100000.
Definition JF_CACHE_RECORD_MAX : Z := 1 + JF_DEPENDENCY_MAX + JF_RULE_RECORD_MAX.
Definition JF_ADDRESS_NORMALIZATION : bytes := str "mailbox-minimal-quoting-v2".

(** [digest] has 32 bytes. *)
Record jf_dependency := MkDependency {
  role : bytes; d_path : bytes; present : bool; digest : bytes; auxiliary : bytes }.

Record jf_products := MkProducts {
  pr_zsh : jf_bytes; pr_sieve : jf_bytes; pr_cache : jf_bytes; fingerprint : bytes; pr_id : bytes }.

(** The digest of a buffer, with the hash object on the stack. *)
Definition digest_of (s : bytes) : bytes := jf_digest stack_block s.

(** ** Little-endian numbers *)

(** The loops [v[i]=(unsigned char)(n>>(i*8))]. *)
Definition le_bytes (k : nat) (n : Z) : bytes :=
  map (fun i => Z.land (Z.shiftr n (8 * Z.of_nat i)) 255) (seq 0 k).

Definition read32 (p : bytes) : Z :=
  Z.lor (Z.lor (Z.lor (at_ p 0) (Z.shiftl (at_ p 1) 8)) (Z.shiftl (at_ p 2) 16)) (Z.shiftl (at_ p 3) 24).

(** [payload|=(uint64_t)data[16+i]<<(i*8)]. *)
Definition read64 (p : bytes) : Z :=
  fold_left (fun n i => Z.lor n (Z.shiftl (at_ p i) (8 * Z.of_nat i))) (seq 0 8) 0.

Section Writers.
Context `{HP : Heap}.

Definition w_u32 (n : Z) (b : buffer) : option buffer := jf_bytes_add (le_bytes 4 n) b.
Definition w_u64 (n : Z) (b : buffer) : option buffer := jf_bytes_add (le_bytes 8 n) b.
Definition w_field (s : bytes) (b : buffer) : option buffer :=
  if UINT32_MAX <? zlen s then None else b ← w_u32 (zlen s) b; jf_bytes_add s b.
Definition w_string (s : bytes) (b : buffer) : option buffer := w_field s b.
Definition w_number (n : Z) (b : buffer) : option buffer := w_string (decimal_of n) b.

(** A tag, the number of fields, and the fields. *)
Fixpoint w_fields (l : list bytes) (b : buffer) : option buffer :=
  match l with
  | [] => Some b
  | s :: t => b ← w_field s b; w_fields t b
  end.
Definition w_record (tag : bytes) (l : list bytes) (b : buffer) : option buffer :=
  b ← jf_bytes_text tag b; b ← w_u32 (zlen l) b; w_fields l b.

Definition dependency_fields (d : jf_dependency) : list bytes :=
  [role d; d_path d; if present d then str "1" else str "0";
   if present d then digest d else []; auxiliary d].
Definition w_dependency (d : jf_dependency) (b : buffer) : option buffer :=
  w_record (str "D") (dependency_fields d) b.

Definition dep_compare (x y : jf_dependency) : comparison :=
  cmp_then (strcmp (role x) (role y)) (strcmp (d_path x) (d_path y)).

(** The fingerprint prefix with its terminator. *)
Definition fingerprint_magic : bytes := str "JFFP1" ++ [0].

(** The loop over the sorted dependencies: [inl true] for an empty or duplicate
    key, [inl false] when memory runs out. *)
Fixpoint w_dependencies (prev : option jf_dependency) (l : list jf_dependency) (b : buffer) : bool + buffer :=
  match l with
  | [] => inr b
  | d :: t =>
      if (length (role d) =? 0)%nat || match prev with Some x => is_eq (dep_compare x d) | None => false end
      then inl true
      else match w_dependency d b with
           | None => inl false
           | Some b => w_dependencies (Some d) t b
           end
  end.

(** The status, or the digest with status 0 and the requests made. *)
Definition jf_dependencies_fingerprint (deps : list jf_dependency) (h : nat) : Z + bytes * nat :=
  if JF_DEPENDENCY_MAX <? zlen deps then inl 3
  else match mallocs 1 h with
  | None => inl 3
  | Some h =>
      match jf_bytes_add fingerprint_magic (no_bytes, h) with
      | None => inl 3
      | Some b =>
          match w_dependencies None (qsort dep_compare deps) b with
          | inl true => inl 4
          | inl false => inl 3
          | inr (b, h) => inr (digest_of (contents b), h)
          end
      end
  end.

(** ** Products *)

(** [struct mailbox_ref], mailbox and logical name. *)
Definition mailbox_compare (x y : bytes * bytes) : comparison :=
  cmp_then (strcmp x.1 y.1) (strcmp x.2 y.2).

(** Two adjacent entries with one mailbox and two logical names. *)
Fixpoint mapping_conflict (l : list (bytes * bytes)) : bool :=
  match l with
  | x :: ((y :: _) as t) => (streq x.1 y.1 && negb (streq x.2 y.2)) || mapping_conflict t
  | _ => false
  end.

Fixpoint rule_mailboxes (p : jf_profile) (rules : list jf_rule) (h : nat) : option (list bytes * nat) :=
  match rules with
  | [] => Some ([], h)
  | r :: t => '(m, h) ← jf_profile_mailbox p r h; '(ms, h) ← rule_mailboxes p t h; Some (m :: ms, h)
  end.

Definition metadata_fields (p : jf_profile) (zd sd : bytes) : list bytes :=
  [JF_COMPILER_ID; p_id p; str "posix-ere-c-icase-v1"; str "ascii-mailbox-casemap-v1"; str "i;ascii-casemap"; zd; sd].

Definition rule_fields (i : nat) (r : jf_rule) (mailbox : bytes) : list bytes :=
  [decimal_of (Z.of_nat (i + 1)); decimal_of (stage r); jf_kind_name (kind r); decimal_of (fields r); id r;
   predicate r; logical r; local r; mailbox; source r; decimal_of (line r); action r].

Fixpoint w_all_dependencies (l : list jf_dependency) (b : buffer) : option buffer :=
  match l with
  | [] => Some b
  | d :: t => b ← w_dependency d b; w_all_dependencies t b
  end.

Fixpoint w_rules (i : nat) (rules : list (jf_rule * bytes)) (b : buffer) : option buffer :=
  match rules with
  | [] => Some b
  | (r, m) :: t => b ← w_record (str "R") (rule_fields i r m) b; w_rules (S i) t b
  end.

(** The payload: the record count, one M record, the dependencies, the rules. *)
Definition w_payload (p : jf_profile) (zd sd : bytes) (deps : list jf_dependency)
    (rules : list (jf_rule * bytes)) (b : buffer) : option buffer :=
  b ← w_u32 (u32 (1 + zlen deps + zlen rules)) b;
  b ← w_record (str "M") (metadata_fields p zd sd) b;
  b ← w_all_dependencies deps b;
  w_rules 0 rules b.

Definition w_cache (fp pd payload : bytes) (b : buffer) : option buffer :=
  b ← jf_bytes_text (str "JFNCACHE") b;
  b ← w_u32 1 b; b ← w_u32 1 b; b ← w_u64 (zlen payload) b;
  b ← jf_bytes_add fp b; b ← jf_bytes_add pd b;
  jf_bytes_add_limit payload JF_CACHE_FILE_MAX b.
End Writers.

(** ** Validation *)

Definition prefix_of (v s : bytes) : bool := has_prefix s v.

(** The component loop of [safe_text]. *)
Definition safe_text (v : bytes) (relative : bool) : bool :=
  if (length v =? 0)%nat || negb (jf_valid_utf8 v) || (relative && (at_ v 0 =? ch "/")) then false
  else if existsb control v then false
  else if relative then forallb (fun c => negb (bad_component c)) (split_on (ch "/") v) else true.

(** [memcmp] on the common length, then the sizes. *)
Definition compare_views (a b : bytes) : comparison := strcmp a b.

Fixpoint decimal_digits (v : bytes) (n : Z) : option Z :=
  match v with
  | [] => Some n
  | c :: t =>
      let d := (c - ch "0") mod 2 ^ 32 in
      if (9 <? d) || ((SIZE_MAX - d) / 10 <? n) then None else decimal_digits t (n * 10 + d)
  end.

Definition decimal (v : bytes) : option Z :=
  if (length v =? 0)%nat || ((1 <? length v)%nat && (at_ v 0 =? ch "0")) then None else decimal_digits v 0.

Definition valid_id (v : bytes) : bool :=
  if streq v (str "builtin:bounce") || streq v (str "builtin:spam") || streq v (str "builtin:unsorted") then true
  else
    let prefix := take_while (fun c => negb (c =? ch ":")) v in
    let rest := drop_while (fun c => negb (c =? ch ":")) v in
    if (length rest =? 0)%nat || negb (length rest =? 65)%nat then false
    else if negb (streq prefix (str "r") || streq prefix (str "known") ||
                  streq prefix (str "blacklist") || streq prefix (str "own")) then false
    else forallb is_hex (tail rest).

(** [fields] length-prefixed fields of a record with [tag], from field [j] on. *)
Fixpoint read_fields (tag : Z) (j n : nat) (s : bytes) : option (list bytes * bytes) :=
  match n with
  | O => Some ([], s)
  | S n' =>
      if (length s <? 4)%nat then None
      else
        let len := Z.to_nat (read32 s) in let s := drop 4 s in
        if (length s <? len)%nat then None
        else
          let f := take len s in
          if negb ((tag =? ch "D") && (3 <=? j)%nat) && negb ((tag =? ch "M") && (5 <=? j)%nat) && mem 0 f
          then None
          else '(fs, r) ← read_fields tag (S j) n' (drop len s); Some (f :: fs, r)
  end.

Definition field_count (tag : Z) : Z :=
  if tag =? ch "M" then 7 else if tag =? ch "D" then 5 else if tag =? ch "R" then 12 else 0.

(** A record: its tag and fields, and the bytes after it. *)
Definition read_record (s : bytes) : option (Z * list bytes * bytes) :=
  if (length s <? 5)%nat then None
  else
    let tag := at_ s 0 in let fields := read32 (drop 1 s) in let s := drop 5 s in
    if negb (fields =? field_count tag) || (fields =? 0) then None
    else '(fs, r) ← read_fields tag 0 (Z.to_nat fields) s; Some (tag, fs, r).

(** The locals of the validator. *)
Record vstate := MkV {
  v_role : bytes; v_dpath : bytes; v_ordinal : Z; v_stage : Z; v_deps : Z; v_phase : Z;
  v_fallback : bool; v_bounce : bool; v_spam : bool; v_regex : bool;
  v_qualification : bool; v_catalogue : bool; v_normalization : bool; v_hash : jf_sha256 }.

Definition vstart : vstate :=
  MkV [] [] 0 0 0 0 false false false false false false false
    (jf_sha256_update (jf_sha256_init stack_block) fingerprint_magic).

Definition digest_is (data : option bytes) (f : bytes) : bool :=
  match data with Some d => streq (digest_of d) f | None => true end.

Definition check_metadata (i : nat) (zsh sieve : option bytes) (f : list bytes) (v : vstate) : option vstate :=
  let g n := nth n f [] in
  if negb (i =? 0)%nat || negb (v_phase v =? 0) || negb (streq (g 0%nat) JF_COMPILER_ID) ||
     (negb (streq (g 1%nat) CORE) && negb (streq (g 1%nat) PIGEONHOLE)) ||
     negb (streq (g 2%nat) (str "posix-ere-c-icase-v1")) ||
     negb (streq (g 3%nat) (str "ascii-mailbox-casemap-v1")) ||
     negb (streq (g 4%nat) (str "i;ascii-casemap")) ||
     negb (length (g 5%nat) =? 32)%nat || negb (length (g 6%nat) =? 32)%nat then None
  else if negb (digest_is zsh (g 5%nat)) || negb (digest_is sieve (g 6%nat)) then None
  else Some (MkV (v_role v) (v_dpath v) (v_ordinal v) (v_stage v) (v_deps v) 1
               (v_fallback v) (v_bounce v) (v_spam v) (streq (g 1%nat) PIGEONHOLE)
               (v_qualification v) (v_catalogue v) (v_normalization v) (v_hash v)).

Definition is_configured (f : list bytes) (value : bytes) (check : bool) : bool :=
  (length (nth 1 f []) =? 0)%nat && streq (nth 2 f []) (str "1") && (negb check || streq (nth 4 f []) value).

Definition check_dependency (raw : bytes) (f : list bytes) (v : vstate) : option vstate :=
  let g n := nth n f [] in
  let c := compare_views (v_role v) (g 0%nat) in
  let is1 := streq (g 2%nat) (str "1") in let is0 := streq (g 2%nat) (str "0") in
  let named s := streq (g 0%nat) (str s) in
  if (JF_DEPENDENCY_MAX <? v_deps v + 1) || negb (v_phase v =? 1) || (length (g 0%nat) =? 0)%nat ||
     (negb (length (v_role v) =? 0)%nat &&
      match c with Gt => true | Eq => match compare_views (v_dpath v) (g 1%nat) with Lt => false | _ => true end
                 | Lt => false end) ||
     negb ((is1 && (length (g 3%nat) =? 32)%nat) || (is0 && (length (g 3%nat) =? 0)%nat)) then None
  else if is0 && negb (length (g 4%nat) =? 0)%nat then None
  else if is1 && (prefix_of (g 0%nat) (str "config.") || prefix_of (g 0%nat) (str "export.") ||
                  prefix_of (g 0%nat) (str "link.") || prefix_of (g 0%nat) (str "inventory.")) &&
          negb (streq (digest_of (g 4%nat)) (g 3%nat)) then None
  else if named "config.address-normalization" && negb (is_configured f JF_ADDRESS_NORMALIZATION true) then None
  else if named "config.regex-qualification" && negb (is_configured f jf_regex_qualification (v_regex v)) then None
  else if named "config.regex-catalogue" && negb (is_configured f jf_regex_catalogue (v_regex v)) then None
  else Some (MkV (g 0%nat) (g 1%nat) (v_ordinal v) (v_stage v) (v_deps v + 1) (v_phase v)
               (v_fallback v) (v_bounce v) (v_spam v) (v_regex v)
               (v_qualification v || named "config.regex-qualification")
               (v_catalogue v || named "config.regex-catalogue")
               (v_normalization v || named "config.address-normalization")
               (jf_sha256_update (v_hash v) raw)).

Definition has_upper (s : bytes) : bool := existsb (fun c => (ch "A" <=? c) && (c <=? ch "Z")) s.

Definition stage_mask (stage mask : Z) : bool :=
  ((stage =? 1) && (mask =? 1)) || ((stage =? 3) && (mask =? 3)) || ((stage =? 4) && (mask =? 12)) ||
  ((stage =? 5) && (mask =? 1)) || ((stage =? 7) && (mask =? 12)).

(** The predicate of a typed rule. *)
Definition check_typed (kind : bytes) (stage : Z) (f5 : bytes) : bool :=
  if streq kind (str "address") then
    match jf_normalize_mailbox f5 with
    | None => false
    | Some a => (length a =? length f5)%nat && streq a f5 && negb (has_upper a)
    end
  else
    let skip := if streq kind (str "domain-subdomains") then 2%nat else 0%nat in
    if negb ((stage =? 3) || (stage =? 4) || (stage =? 5)) || (length f5 <=? skip)%nat ||
       (negb (skip =? 0)%nat && negb (has_prefix (str "*.") f5)) then false
    else jf_valid_domain (drop skip f5) && negb (has_upper (drop skip f5)).

Definition check_rule (i count : nat) (f : list bytes) (v : vstate) : option vstate :=
  let g n := nth n f [] in
  match decimal (g 0%nat), decimal (g 1%nat), decimal (g 3%nat), decimal (g 10%nat) with
  | Some order, Some stage, Some mask, Some _ =>
      let ordinal := v_ordinal v + 1 in
      if (v_phase v =? 0) || negb (order =? ordinal) || (JF_RULE_RECORD_MAX <? ordinal) ||
         (stage <? 1) || (8 <? stage) || (stage <? v_stage v) || negb (valid_id (g 4%nat)) ||
         negb (safe_text (g 6%nat) true) || negb (safe_text (g 7%nat) true) ||
         negb (safe_text (g 8%nat) false) || negb (streq (g 11%nat) (str "move")) then None
      else
        let done b s fb := Some (MkV (v_role v) (v_dpath v) ordinal stage (v_deps v) 2
                             fb b s (v_regex v) (v_qualification v) (v_catalogue v) (v_normalization v) (v_hash v)) in
        let f5 := g 5%nat in let kind := g 2%nat in
        if streq kind (str "address") || streq kind (str "domain-apex") || streq kind (str "domain-subdomains") then
          if (length f5 =? 0)%nat || (JF_LINE_MAX <? zlen f5) || negb (jf_valid_utf8 f5) ||
             negb (stage_mask stage mask) || negb (check_typed kind stage f5)
          then None else done (v_bounce v) (v_spam v) (v_fallback v)
        else if streq kind (str "ere") then
          if negb (v_regex v) || negb (v_qualification v) || negb (v_catalogue v) || (length f5 =? 0)%nat ||
             (JF_LINE_MAX <? zlen f5) || negb (((stage =? 3) && (mask =? 3)) || ((stage =? 4) && (mask =? 12))) ||
             negb (jf_regex_supported f5)
          then None else done (v_bounce v) (v_spam v) (v_fallback v)
        else if streq kind (str "sender-contains") then
          if negb (stage =? 2) || negb (mask =? 2) || v_bounce v || negb (streq (g 4%nat) (str "builtin:bounce")) ||
             negb (streq f5 (str "mailman-bounce"))
          then None else done true (v_spam v) (v_fallback v)
        else if streq kind (str "spam-is") then
          if negb (stage =? 6) || negb (mask =? 16) || v_spam v || negb (streq (g 4%nat) (str "builtin:spam")) ||
             negb (streq f5 (str "YES"))
          then None else done (v_bounce v) true (v_fallback v)
        else if streq kind (str "always") then
          if negb (stage =? 8) || negb (mask =? 0) || v_fallback v || negb (S i =? count)%nat ||
             negb (streq (g 4%nat) (str "builtin:unsorted")) || negb (length f5 =? 0)%nat
          then None else done (v_bounce v) (v_spam v) true
        else None
  | _, _, _, _ => None
  end.

(** The loop over the [count] records from record [i] on: [n] are left. *)
Fixpoint validate_records (zsh sieve : option bytes) (count i n : nat) (s : bytes) (v : vstate) :
    option (vstate * bytes) :=
  match n with
  | O => Some (v, s)
  | S n' =>
      match read_record s with
      | None => None
      | Some (tag, f, rest) =>
          let raw := take (length s - length rest) s in
          v ← (if tag =? ch "M" then check_metadata i zsh sieve f v
               else if tag =? ch "D" then check_dependency raw f v
               else check_rule i count f v);
          validate_records zsh sieve count (S i) n' rest v
      end
  end.

Definition cache_bad {A} : res A :=
  Fail 5 (MkError "E_CACHE" SIZE_MAX 0
    (snprintf160 (str "incompatible, noncanonical or corrupt generation product"))).

(** The final conditions of the validator. *)
Definition validate_end (d : bytes) (v : vstate) (rest : bytes) : bool :=
  (length rest =? 0)%nat && v_bounce v && v_spam v && v_fallback v && v_normalization v &&
  (negb (v_regex v) || (v_qualification v && v_catalogue v)) &&
  streq (jf_sha256_hex (v_hash v)) (jf_digest_hex (take 32 (drop 24 d))).

(** The header conditions. *)
Definition validate_header (d : bytes) (fp : option bytes) : bool :=
  (92 <=? zlen d) &&
  match jf_cache_file_size (zlen d - JF_CACHE_HEADER_SIZE) with Some _ => true | None => false end &&
  streq (take 8 d) (str "JFNCACHE") && (read32 (drop 8 d) =? 1) && (read32 (drop 12 d) =? 1) &&
  (read64 (drop 16 d) =? zlen d - 88) &&
  match fp with Some f => streq f (take 32 (drop 24 d)) | None => true end &&
  streq (digest_of (drop 88 d)) (take 32 (drop 56 d)) &&
  (1 + JF_BUILTIN_RULES <=? read32 (drop 88 d)) && (read32 (drop 88 d) <=? JF_CACHE_RECORD_MAX).

Definition jf_cache_validate (d : bytes) (zsh sieve fp : option bytes) : res unit :=
  if negb (validate_header d fp) then cache_bad
  else
    let count := Z.to_nat (read32 (drop 88 d)) in
    match validate_records zsh sieve count 0 count (drop 92 d) vstart with
    | None => cache_bad
    | Some (v, rest) => if validate_end d v rest then Ok tt else cache_bad
    end.

(** ** Building the products *)

Section Build.
Context `{HP : Heap}.

Definition cache_memory {A} : res A :=
  jf_product_error "E_MEMORY" 0 (str "cache allocation/size limit").
Definition or_memory {A} (o : option A) : res A :=
  match o with Some a => Ok a | None => cache_memory end.

Definition jf_products_build (policy : jf_policy) (p : jf_profile) (deps : list jf_dependency) (h : nat) :
    res (jf_products * nat) :=
  let rules := map rule (entries policy) in
  let n := zlen rules in let count := zlen deps in
  if (JF_DEPENDENCY_MAX <? count) || (n <? JF_BUILTIN_RULES) || (JF_RULE_RECORD_MAX <? n) ||
     (UINT32_MAX - n - 1 <? count) then cache_memory
  else
    h ← or_memory (mallocs 3 h);
    '(mailboxes, h) ← or_memory (rule_mailboxes p rules h);
    if mapping_conflict (qsort mailbox_compare (zip mailboxes (map logical rules))) then
      jf_product_error "E_MAILBOX_MAPPING" 0 (str "different logical destinations map to the same Sieve mailbox")
    else
      '(z, s, h) ← jf_emit_text p (zip rules mailboxes) h;
      let sorted := qsort dep_compare deps in
      b ← or_memory (jf_bytes_add fingerprint_magic (no_bytes, h));
      match w_dependencies None sorted b with
      | inl true => jf_product_error "E_DEPENDENCY" 0 (str "empty or duplicate dependency key")
      | inl false => cache_memory
      | inr (inventory, h) =>
          let fp := digest_of (contents inventory) in
          let zd := digest_of (contents z) in let sd := digest_of (contents s) in
          '(payload, h) ← or_memory (w_payload p zd sd sorted (zip rules mailboxes) (no_bytes, h));
          let pd := digest_of (contents payload) in
          _ ← or_memory (jf_cache_file_size (zlen (contents payload)));
          '(cache, h) ← or_memory (w_cache fp pd (contents payload) (no_bytes, h));
          _ ← jf_cache_validate (contents cache) (Some (contents z)) (Some (contents s)) (Some fp);
          Ok (MkProducts z s cache fp (jf_digest_hex fp), h)
      end.

(** ** Reading a cache back *)

(** The fields of a record, whose framing was checked before. *)
Fixpoint raw_fields (n : nat) (s : bytes) : list bytes * bytes :=
  match n with
  | O => ([], s)
  | S n' =>
      let size := Z.to_nat (read32 s) in let s := drop 4 s in
      let '(fs, r) := raw_fields n' (drop size s) in (take size s :: fs, r)
  end.

(** The framing walk of [jf_cache_policy] over a validated cache: the fields of
    every record of tag R, in order. *)
Fixpoint rule_records (n : nat) (s : bytes) : list jf_cached_rule :=
  match n with
  | O => []
  | S n' =>
      let tag := at_ s 0 in let fields := Z.to_nat (read32 (drop 1 s)) in
      let '(fs, rest) := raw_fields fields (drop 5 s) in
      if tag =? ch "R" then fs :: rule_records n' rest else rule_records n' rest
  end.

Definition jf_cache_policy `{AL : Allocator} `{RX : PosixRegex} (cache : option (view Z)) (h : nat) : res jf_policy :=
  match cache with
  | None => Fail 5 (MkError "E_CACHE" SIZE_MAX 0 (snprintf160 (str "missing cache bytes")))
  | Some c =>
      if missing c then Fail 5 (MkError "E_CACHE" SIZE_MAX 0 (snprintf160 (str "missing cache bytes")))
      else
        let d := view_list c in
        _ ← jf_cache_validate d None None None;
        match mallocs 1 h with
        | None => jf_product_error "E_MEMORY" 0 (str "cache rule views allocation failed")
        | Some _ => jf_policy_restore (rule_records (Z.to_nat (read32 (drop 88 d))) (drop 92 d))
        end
  end.
Fixpoint view_fields (n : nat) (s : bytes) : option (list bytes * bytes) :=
  match n with
  | O => Some ([], s)
  | S n' =>
      if (length s <? 4)%nat then None
      else
        let size := Z.to_nat (read32 s) in let s := drop 4 s in
        if (length s <? size)%nat then None
        else '(fs, r) ← view_fields n' (drop size s); Some (take size s :: fs, r)
  end.

(** One D record copied into the growing array; [malloc], [memcpy] and a
    terminator give the C strings of the first two views. *)
Definition copy_dependency (n : Z) (fs : list bytes) (h : nat) : Z + (jf_dependency * nat) :=
  if negb (zlen fs =? 5) || (n =? JF_DEPENDENCY_MAX) || (32 <? zlen (nth 3 fs [])) then inl 5
  else match mallocs 3 h with
  | None => inl 3
  | Some h =>
      match jf_bytes_add (nth 4 fs []) (no_bytes, h) with
      | None => inl 3
      | Some (aux, h) =>
          inr (MkDependency (c_string (nth 0 fs [])) (c_string (nth 1 fs [])) (streq (nth 2 fs []) (str "1"))
                 (nth 3 fs [] ++ replicate (32 - length (nth 3 fs [])) 0) (contents aux), h)
      end
  end.

Fixpoint dependencies_loop (n : nat) (s : bytes) (acc : list jf_dependency) (h : nat) : Z + list jf_dependency * nat :=
  match n with
  | O => if (length s =? 0)%nat then inr (acc, h) else inl 5
  | S n' =>
      if (length s <? 5)%nat then inl 5
      else
        let tag := at_ s 0 in let fields := read32 (drop 1 s) in
        if 12 <? fields then inl 5
        else match view_fields (Z.to_nat fields) (drop 5 s) with
        | None => inl 5
        | Some (fs, rest) =>
            if tag =? ch "D" then
              match copy_dependency (zlen acc) fs h with
              | inl rc => inl rc
              | inr (d, h) => dependencies_loop n' rest (acc ++ [d]) h
              end
            else dependencies_loop n' rest acc h
        end
  end.

Definition jf_cache_dependencies (d : bytes) (h : nat) : Z + list jf_dependency * nat :=
  if zlen d <? 92 then inl 5 else dependencies_loop (Z.to_nat (read32 (drop 88 d))) (drop 92 d) [] h.
End Build.

(** ** Framing *)

Definition enc_field (s : bytes) : bytes := le_bytes 4 (zlen s) ++ s.
Definition enc_record (tag : bytes) (fs : list bytes) : bytes :=
  tag ++ le_bytes 4 (zlen fs) ++ concat (map enc_field fs).

Lemma le_bytes_S k n : le_bytes (S k) n = n mod 256 :: le_bytes k (n / 256).
Proof.
  unfold le_bytes. cbn [seq map]. f_equal.
  - rewrite Z.shiftr_0_r. change 255 with (Z.ones 8). now rewrite Z.land_ones by lia.
  - rewrite <- seq_shift, map_map. apply map_ext. intros i.
    f_equal. change 256 with (2 ^ 8). rewrite <- (Z.shiftr_div_pow2 n 8) by lia.
    rewrite Z.shiftr_shiftr by lia. f_equal. lia.
Qed.

Lemma le_bytes_length k n : length (le_bytes k n) = k.
Proof. unfold le_bytes. now rewrite length_map, length_seq. Qed.

Lemma lor_shift_add a b n : 0 <= n -> 0 <= a < 2 ^ n -> Z.lor a (Z.shiftl b n) = a + b * 2 ^ n.
Proof. intros Hn Ha. rewrite Z.lor_comm, lor_disjoint by lia. lia. Qed.

Lemma read32_value b0 b1 b2 b3 r : is_byte b0 -> is_byte b1 -> is_byte b2 ->
  read32 (b0 :: b1 :: b2 :: b3 :: r) = b0 + b1 * 2 ^ 8 + b2 * 2 ^ 16 + b3 * 2 ^ 24.
Proof.
  unfold is_byte, read32, at_. cbn [nth]. intros H0 H1 H2.
  rewrite (lor_shift_add b0), (lor_shift_add (b0 + _)), (lor_shift_add (b0 + _ + _)) by lia. lia.
Qed.

Lemma mod256_byte n : is_byte (n mod 256).
Proof. unfold is_byte. pose proof (Z.mod_pos_bound n 256). lia. Qed.

Lemma read32_le n r : 0 <= n < 2 ^ 32 -> read32 (le_bytes 4 n ++ r) = n.
Proof.
  intros Hn. rewrite !le_bytes_S. cbn [app].
  rewrite read32_value by apply mod256_byte.
  change (2 ^ 8) with 256. change (2 ^ 16) with 65536. change (2 ^ 24) with 16777216. change (2 ^ 32) with 4294967296 in Hn.
  assert (0 <= n / 256 < 16777216) by (split; [apply Z.div_pos; lia|apply Z.div_lt_upper_bound; lia]).
  pose proof (Z.div_mod n 256 ltac:(lia)). set (q1 := n / 256) in *.
  assert (0 <= q1 / 256 < 65536) by (split; [apply Z.div_pos; lia|apply Z.div_lt_upper_bound; lia]).
  pose proof (Z.div_mod q1 256 ltac:(lia)). set (q2 := q1 / 256) in *.
  assert (0 <= q2 / 256 < 256) by (split; [apply Z.div_pos; lia|apply Z.div_lt_upper_bound; lia]).
  pose proof (Z.div_mod q2 256 ltac:(lia)). set (q3 := q2 / 256) in *.
  rewrite (Z.mod_small q3) by lia. lia.
Qed.

Lemma at_byte d i : bytes_ok d -> is_byte (at_ d i).
Proof.
  intros H. unfold at_. destruct (nth_in_or_default i d 0) as [Hi| ->]; [|unfold is_byte; lia].
  rewrite Forall_forall in H. now apply H, list_elem_of_In.
Qed.

Lemma read32_range d : bytes_ok d -> 0 <= read32 d < 2 ^ 32.
Proof.
  intros H. pose proof (at_byte d 0 H). pose proof (at_byte d 1 H). pose proof (at_byte d 2 H). pose proof (at_byte d 3 H).
  unfold read32, is_byte in *.
  rewrite (lor_shift_add (at_ d 0)), (lor_shift_add (at_ d 0 + _)), (lor_shift_add (at_ d 0 + _ + _)) by lia. lia.
Qed.

(** Four bytes are the little-endian form of the number they denote. *)
Lemma le_read32 b0 b1 b2 b3 r : is_byte b0 -> is_byte b1 -> is_byte b2 -> is_byte b3 ->
  le_bytes 4 (read32 (b0 :: b1 :: b2 :: b3 :: r)) = [b0; b1; b2; b3].
Proof.
  intros H0 H1 H2 H3. rewrite read32_value by assumption. unfold is_byte in *. rewrite !le_bytes_S.
  change (2 ^ 8) with 256. change (2 ^ 16) with 65536. change (2 ^ 24) with 16777216.
  set (n := b0 + b1 * 256 + b2 * 65536 + b3 * 16777216).
  assert (E1 : n / 256 = b1 + b2 * 256 + b3 * 65536) by (symmetry; apply (Z.div_unique n 256 _ b0); lia).
  assert (E2 : n / 256 / 256 = b2 + b3 * 256) by (rewrite E1; symmetry; apply (Z.div_unique _ 256 _ b1); lia).
  assert (E3 : n / 256 / 256 / 256 = b3) by (rewrite E2; symmetry; apply (Z.div_unique _ 256 _ b2); lia).
  assert (M0 : n mod 256 = b0) by (symmetry; apply (Z.mod_unique n 256 (n / 256)); lia).
  assert (M1 : (n / 256) mod 256 = b1) by (symmetry; apply (Z.mod_unique _ 256 (n / 256 / 256)); lia).
  assert (M2 : (n / 256 / 256) mod 256 = b2) by (symmetry; apply (Z.mod_unique _ 256 (n / 256 / 256 / 256)); lia).
  rewrite M0, M1, M2, E3, Z.mod_small by lia. reflexivity.
Qed.

(** The bytes of a field may not contain NUL where the format is textual. *)
Definition nul_exempt (tag : Z) (j : nat) : bool :=
  ((tag =? ch "D") && (3 <=? j)%nat) || ((tag =? ch "M") && (5 <=? j)%nat).

Lemma read_fields_canonical tag j n s fs r :
  bytes_ok s -> read_fields tag j n s = Some (fs, r) ->
  s = concat (map enc_field fs) ++ r /\ length fs = n.
Proof.
  revert j s fs. induction n as [|n IH]; intros j s fs Hs; cbn [read_fields]; [intros [= <- <-]; auto|].
  destruct (length s <? 4)%nat eqn:E1; [discriminate|].
  destruct (length (drop 4 s) <? _)%nat eqn:E2; [discriminate|]. destruct (_ && _); [discriminate|].
  apply Nat.ltb_ge in E1, E2. set (len := Z.to_nat (read32 s)) in *.
  destruct (read_fields tag (S j) n (drop len (drop 4 s))) as [[fs1 r1]|] eqn:E; [|discriminate].
  cbn. intros [= <- <-]. apply IH in E as [E Hl]; [|now do 2 apply Forall_drop]. split; [|cbn; lia].
  cbn [map concat]. unfold enc_field at 1.
  assert (Hz : zlen (take len (drop 4 s)) = read32 s).
  { unfold zlen. rewrite length_take. pose proof (read32_range s Hs). lia. }
  rewrite Hz, <- !app_assoc, <- E, take_drop.
  destruct s as [|b0 [|b1 [|b2 [|b3 s]]]]; cbn in E1; try lia.
  rewrite !Forall_cons in Hs. destruct Hs as (H0 & H1 & H2 & H3 & _). now rewrite le_read32.
Qed.

(** A record is accepted in one form only. *)
Lemma read_record_canonical s tag fs r :
  bytes_ok s -> read_record s = Some (tag, fs, r) ->
  s = enc_record [tag] fs ++ r /\ zlen fs = field_count tag /\ bytes_ok r.
Proof.
  intros Hs. unfold read_record. destruct (length s <? 5)%nat eqn:E1; [discriminate|]. apply Nat.ltb_ge in E1.
  destruct (_ || _) eqn:E2; [discriminate|]. apply orb_false_iff in E2 as [E2 E3].
  apply negb_false_iff, Z.eqb_eq in E2. apply Z.eqb_neq in E3.
  destruct (read_fields _ _ _ _) as [[fs1 r1]|] eqn:E; [|discriminate]. intros [= <- <- <-].
  destruct s as [|t [|b0 [|b1 [|b2 [|b3 s]]]]]; cbn in E1; try lia.
  cbn [drop at_ nth] in *. rewrite drop_0 in *.
  rewrite !Forall_cons in Hs. destruct Hs as (Ht & H0 & H1 & H2 & H3 & Hs).
  apply read_fields_canonical in E as [E Hl]; [|exact Hs].
  assert (Hz : zlen fs1 = read32 (b0 :: b1 :: b2 :: b3 :: s)).
  { unfold zlen. rewrite Hl. assert (0 <= read32 (b0 :: b1 :: b2 :: b3 :: s)) by (rewrite E2; unfold field_count; repeat case_test; lia). lia. }
  unfold enc_record. rewrite Hz, le_read32 by assumption. cbn [app]. rewrite <- E.
  split_and!; [reflexivity|congruence|]. rewrite E in Hs. now apply Forall_app in Hs.
Qed.

Lemma enc_field_parts f rest : zlen f < 2 ^ 32 ->
  read32 (enc_field f ++ rest) = zlen f /\ drop 4 (enc_field f ++ rest) = f ++ rest /\
  (4 <= length (enc_field f ++ rest))%nat.
Proof.
  intros H. unfold enc_field. rewrite <- app_assoc. split_and!.
  - apply read32_le. unfold zlen in *. lia.
  - apply drop_app_length'. now rewrite le_bytes_length.
  - rewrite length_app, le_bytes_length. lia.
Qed.

Lemma zlen_nat {A} (l : list A) : Z.to_nat (zlen l) = length l.
Proof. unfold zlen. lia. Qed.

Lemma read_fields_encoded tag j fs r :
  Forall (fun f => zlen f < 2 ^ 32) fs ->
  (forall i f, fs !! i = Some f -> nul_exempt tag (j + i) = false -> mem 0 f = false) ->
  read_fields tag j (length fs) (concat (map enc_field fs) ++ r) = Some (fs, r).
Proof.
  intros Hf. revert j. induction Hf as [|f fs Hlen _ IH]; intros j Hnul; [reflexivity|].
  cbn [length read_fields map concat]. rewrite <- !app_assoc.
  set (rest := concat (map enc_field fs) ++ r) in *.
  destruct (enc_field_parts f rest Hlen) as (-> & -> & E1).
  apply Nat.ltb_ge in E1. rewrite E1, zlen_nat.
  assert (E2 : (length (f ++ rest) <? length f)%nat = false) by (apply Nat.ltb_ge; rewrite length_app; lia).
  rewrite E2, take_app_length, drop_app_length.
  pose proof (Hnul 0%nat f eq_refl) as H0. rewrite Nat.add_0_r in H0. unfold nul_exempt in H0.
  assert (En0 : negb ((tag =? ch "D") && (3 <=? j)%nat) && negb ((tag =? ch "M") && (5 <=? j)%nat) && mem 0 f = false).
  { destruct ((tag =? ch "D") && (3 <=? j)%nat); [reflexivity|].
    destruct ((tag =? ch "M") && (5 <=? j)%nat); [reflexivity|]. cbn [negb andb]. now apply H0. }
  rewrite En0, IH; [reflexivity|]. intros i x Hx Hn. apply (Hnul (S i) x Hx).
  now rewrite Nat.add_succ_r.
Qed.

Lemma raw_fields_encoded fs r :
  Forall (fun f => zlen f < 2 ^ 32) fs ->
  raw_fields (length fs) (concat (map enc_field fs) ++ r) = (fs, r).
Proof.
  induction 1 as [|f fs Hlen _ IH]; [reflexivity|]. cbn [length raw_fields map concat].
  rewrite <- !app_assoc. set (rest := concat (map enc_field fs) ++ r) in *.
  destruct (enc_field_parts f rest Hlen) as (-> & -> & _).
  rewrite zlen_nat, take_app_length, drop_app_length, IH. reflexivity.
Qed.
