(* ===== verification/CacheFacts.v ===== *)
(** * Theorems about the cache (src/filter/cache.c)

    The one form of a valid cache, the policy restored from it, and the round
    trip of a policy through its products. *)
From S2P Require Import Prelude Sha256 Utf8 Mailbox Lexer Rules Resolve Classify Policy Bytes Profile Emit Cache.

(** ** Decoding before checking *)

(** A record as a value: its tag and its fields. *)
Abbreviation record := (Z * list bytes)%type.
Definition enc (r : record) : bytes := enc_record [r.1] r.2.
Definition enc_all (l : list record) : bytes := concat (map enc l).

Definition framed (r : record) : Prop :=
  zlen r.2 = field_count r.1 /\ field_count r.1 <> 0 /\ Forall (fun f => zlen f < 2 ^ 32) r.2.

Fixpoint decode (n : nat) (s : bytes) : option (list record * bytes) :=
  match n with
  | O => Some ([], s)
  | S n' => '(tag, f, rest) ← read_record s; '(l, r) ← decode n' rest; Some ((tag, f) :: l, r)
  end.

Fixpoint check_records (zsh sieve : option bytes) (count i : nat) (l : list record) (v : vstate) : option vstate :=
  match l with
  | [] => Some v
  | (tag, f) :: t =>
      v ← (if tag =? ch "M" then check_metadata i zsh sieve f v
           else if tag =? ch "D" then check_dependency (enc (tag, f)) f v
           else check_rule i count f v);
      check_records zsh sieve count (S i) t v
  end.

Lemma validate_records_decode zsh sieve count n i s v v' r :
  bytes_ok s -> validate_records zsh sieve count i n s v = Some (v', r) ->
  exists l, decode n s = Some (l, r) /\ check_records zsh sieve count i l v = Some v'.
Proof.
  revert i s v. induction n as [|n IH]; intros i s v Hs; cbn [validate_records decode];
    [intros [= <- <-]; now exists []|].
  destruct (read_record s) as [[[tag f] rest]|] eqn:E; [|discriminate].
  apply read_record_canonical in E as (Es & _ & Hr); [|exact Hs].
  assert (Et : take (length s - length rest) s = enc (tag, f)).
  { rewrite Es at 2. rewrite Es at 1. rewrite length_app, Nat.add_sub. apply take_app_length. }
  rewrite Et, bind_Some. intros (v1 & H1 & H). apply IH in H as (l & Hd & Hc); [|exact Hr].
  exists ((tag, f) :: l). cbn [mbind option_bind]. rewrite Hd. split; [reflexivity|].
  cbn [check_records]. rewrite H1. exact Hc.
Qed.

Lemma read_fields_small tag j n s fs r : bytes_ok s -> read_fields tag j n s = Some (fs, r) ->
  Forall (fun f => zlen f < 2 ^ 32) fs.
Proof.
  revert j s fs. induction n as [|n IH]; intros j s fs Hs; cbn [read_fields]; [intros [= <- <-]; constructor|].
  destruct (_ <? 4)%nat; [discriminate|]. destruct (_ <? _)%nat; [discriminate|].
  destruct (_ && _); [discriminate|]. rewrite bind_Some. intros ([fs1 r1] & E & H). injection H as <- <-.
  constructor; [|eapply IH; [|exact E]; now do 2 apply Forall_drop].
  unfold zlen. rewrite length_take. pose proof (read32_range s Hs). lia.
Qed.

Lemma decode_encoded n s l r : bytes_ok s -> decode n s = Some (l, r) ->
  s = enc_all l ++ r /\ length l = n /\ Forall framed l.
Proof.
  revert s l. induction n as [|n IH]; intros s l Hs; cbn [decode]; [now intros [= <- <-]|].
  rewrite bind_Some. intros ([[tag f] rest] & E & H). rewrite bind_Some in H. destruct H as ([l1 r1] & Hd & H).
  injection H as <- <-. pose proof E as E'. apply read_record_canonical in E as (Es & Hc & Hr); [|exact Hs].
  apply IH in Hd as (Ed & Hl & Hf); [|exact Hr].
  split_and!; [|cbn; lia|].
  - rewrite Es, Ed. unfold enc_all. cbn [map concat]. unfold enc at 2. cbn [fst snd]. now rewrite <- app_assoc.
  - constructor; [|exact Hf]. cbn [fst snd]. split; [exact Hc|].
    unfold read_record in E'. destruct (_ <? _)%nat; [discriminate|]. destruct (_ || _) eqn:E0; [discriminate|].
    apply orb_false_iff in E0 as [E0 E1]. apply negb_false_iff, Z.eqb_eq in E0. apply Z.eqb_neq in E1.
    rewrite bind_Some in E'. destruct E' as ([fs2 r2] & E2 & H2). injection H2 as <- <- _.
    cbn [fst snd]. split; [now rewrite <- E0|]. eapply read_fields_small; [|exact E2]. now apply Forall_drop.
Qed.

(** ** The framing walks agree with the validator *)

Lemma enc_parts r rest : framed r ->
  at_ (enc r ++ rest) 0 = r.1 /\ read32 (drop 1 (enc r ++ rest)) = zlen r.2 /\
  drop 5 (enc r ++ rest) = concat (map enc_field r.2) ++ rest /\ (5 <= length (enc r ++ rest))%nat.
Proof.
  intros [Hc _]. unfold enc, enc_record. list_assoc.
  assert (0 <= zlen r.2 < 2 ^ 32) by (rewrite Hc; unfold field_count; repeat case_test; lia).
  split_and!.
  - reflexivity.
  - cbn [drop]. rewrite drop_0. now apply read32_le.
  - change 5%nat with (length (r.1 :: le_bytes 4 (zlen r.2))).
    rewrite (app_comm_cons (le_bytes 4 (zlen r.2))). apply drop_app_length.
  - cbn [length]. rewrite length_app, le_bytes_length. lia.
Qed.

Definition is_rule (r : record) : bool := r.1 =? ch "R".

Lemma rule_records_encoded l rest : Forall framed l ->
  rule_records (length l) (enc_all l ++ rest) = map snd (List.filter is_rule l).
Proof.
  induction 1 as [|[tag fs] l Hr _ IH]; [reflexivity|].
  unfold enc_all in *. cbn [length rule_records map concat List.filter]. rewrite <- app_assoc.
  set (s := concat (map enc l) ++ rest) in *.
  destruct (enc_parts (tag, fs) s Hr) as (-> & -> & -> & _). cbn [fst snd].
  rewrite zlen_nat, raw_fields_encoded by apply Hr. rewrite IH. unfold is_rule at 3. cbn [fst].
  now destruct (tag =? ch "R").
Qed.

(** ** What the checks establish *)

(** Pass a guard that refuses, keeping what it established. *)
Ltac pass_guard :=
  match goal with |- (if ?b then _ else _) = _ -> _ => destruct b eqn:?; [discriminate|] end.

Definition is_dep (r : record) : bool := r.1 =? ch "D".

Lemma framed_tag r : framed r -> r.1 = ch "M" \/ is_dep r = true \/ is_rule r = true.
Proof.
  intros (_ & H & _). unfold field_count in H. unfold is_dep, is_rule.
  destruct (r.1 =? ch "M") eqn:E; [left; now apply Z.eqb_eq|].
  destruct (r.1 =? ch "D"); [auto|]. destruct (r.1 =? ch "R"); [auto|easy].
Qed.

(** The part of a cached rule that depends on its kind. *)
Definition kind_shape (r : jf_rule) : Prop :=
  let p := predicate r in
  match kind r with
  | JF_ADDRESS =>
      jf_valid_utf8 p = true /\ jf_normalize_mailbox p = Some p /\ fold_bytes p = p /\
      stage_mask (stage r) (fields r) = true
  | JF_DOMAIN_APEX =>
      jf_valid_domain p = true /\ fold_bytes p = p /\ (stage r, fields r) ∈ [(3, 3); (4, 12); (5, 1)]
  | JF_DOMAIN_SUBDOMAINS =>
      exists d, p = str "*." ++ d /\ jf_valid_domain d = true /\ fold_bytes d = d /\
        (stage r, fields r) ∈ [(3, 3); (4, 12); (5, 1)]
  | JF_ERE => jf_regex_supported p = true /\ (stage r, fields r) ∈ [(3, 3); (4, 12)]
  | JF_SENDER_CONTAINS => id r = str "builtin:bounce" /\ p = str "mailman-bounce" /\ stage r = 2 /\ fields r = 2
  | JF_SPAM_IS => id r = str "builtin:spam" /\ p = str "YES" /\ stage r = 6 /\ fields r = 16
  | JF_ALWAYS => id r = str "builtin:unsorted" /\ p = [] /\ stage r = 8 /\ fields r = 0
  end.

(** A rule a validated cache can hold. *)
Definition cached_shape (r : jf_rule) : Prop :=
  1 <= stage r <= 8 /\ action r = str "move" /\ valid_id (id r) = true /\
  safe_text (logical r) true = true /\ safe_text (local r) true = true /\ safe_text (sieve r) false = true /\
  zlen (predicate r) <= JF_LINE_MAX /\ kind_shape r.

Lemma decimal_digits_number v n m : bytes_ok v -> 0 <= n <= SIZE_MAX -> decimal_digits v n = Some m ->
  fold_left (fun n c => size_t (n * 10 + (c - ch "0"))) v n = m /\ 0 <= m <= SIZE_MAX.
Proof.
  intros Hv. revert n. induction Hv as [|c v Hc _ IH]; intros n Hn; cbn [decimal_digits fold_left]; [now intros [= <-]|].
  destruct (_ || _) eqn:E; [discriminate|]. boolify. unfold is_byte in Hc.
  assert (Ed : (c - 48) mod 2 ^ 32 = c - 48).
  { destruct (Z.leb_spec 48 c); [apply Z.mod_small; lia|exfalso].
    assert ((c - 48) mod 2 ^ 32 = c - 48 + 2 ^ 32) by (symmetry; apply (Z.mod_unique _ _ (-1)); lia). lia. }
  rewrite Ed in *. assert (0 <= c - 48) by (rewrite <- Ed; apply Z.mod_pos_bound; lia).
  assert (Hb : n * 10 + (c - 48) <= SIZE_MAX).
  { pose proof (Z.mul_div_le (SIZE_MAX - (c - 48)) 10). unfold SIZE_MAX in *. lia. }
  intros Hm. apply IH in Hm; [|lia]. unfold size_t at 2. rewrite Z.mod_small; [exact Hm|unfold SIZE_MAX in *; lia].
Qed.

Lemma decimal_number v n : bytes_ok v -> decimal v = Some n -> cached_number v = n /\ 0 <= n <= SIZE_MAX.
Proof.
  intros Hv. unfold decimal. destruct (_ || _); [discriminate|]. apply decimal_digits_number; [exact Hv|].
  unfold SIZE_MAX. lia.
Qed.

Lemma has_upper_fold s : has_upper s = false -> fold_bytes s = s.
Proof.
  unfold has_upper, fold_bytes. induction s as [|c s IH]; cbn [existsb map]; [reflexivity|].
  intros [Hc Hs]%orb_false_iff. rewrite IH by exact Hs. unfold fold_byte. now rewrite Hc.
Qed.
Section Checks.
Context (zo so : option bytes) (count : nat).

Abbreviation checks := (check_records zo so count).

Lemma checks_app i l1 l2 v : checks i (l1 ++ l2) v = v1 ← checks i l1 v; checks (i + length l1)%nat l2 v1.
Proof.
  revert i v. induction l1 as [|[t f] l1 IH]; intros i v; cbn [app check_records length mbind option_bind].
  - now rewrite Nat.add_0_r.
  - destruct (if t =? _ then _ else _) as [v1|]; cbn [mbind option_bind]; [|reflexivity].
    rewrite IH. now rewrite Nat.add_succ_r.
Qed.


(** What one accepted R record says, and how it moves the validator. *)
Record rule_step (i : nat) (f : list bytes) (v v' : vstate) : Prop := MkStep {
  rs_phase : v_phase v <> 0 /\ v_phase v' = 2;
  rs_ordinal : decimal (nth 0 f []) = Some (v_ordinal v + 1) /\ v_ordinal v' = v_ordinal v + 1;
  rs_stage : decimal (nth 1 f []) = Some (v_stage v') /\ v_stage v <= v_stage v' /\ 1 <= v_stage v' <= 8;
  rs_same : v_hash v' = v_hash v /\ v_regex v' = v_regex v /\ v_deps v' = v_deps v /\
            v_normalization v' = v_normalization v;
  rs_bounce : match cached_kind (nth 2 f []) with
              | JF_SENDER_CONTAINS => v_bounce v = false /\ v_bounce v' = true
              | _ => v_bounce v' = v_bounce v end;
  rs_spam : match cached_kind (nth 2 f []) with
            | JF_SPAM_IS => v_spam v = false /\ v_spam v' = true
            | _ => v_spam v' = v_spam v end;
  rs_fallback : match cached_kind (nth 2 f []) with
                | JF_ALWAYS => v_fallback v = false /\ v_fallback v' = true /\ S i = count
                | _ => v_fallback v' = v_fallback v end;
  rs_shape : forall k, bytes_ok (nth 1 f []) -> bytes_ok (nth 3 f []) -> cached_shape (rule (restore_entry k f));
  rs_action : nth 11 f [] = str "move" }.

Lemma stage_mask_cases a b : stage_mask a b = true ->
  (a, b) ∈ [(1, 1); (3, 3); (4, 12); (5, 1); (7, 12)].
Proof.
  unfold stage_mask. intros H.
  repeat (apply orb_true_iff in H as [H|H]); apply andb_true_iff in H as [->%Z.eqb_eq ->%Z.eqb_eq];
    apply (bool_decide_eq_true_1 _); reflexivity.
Qed.

Lemma check_typed_domain k st p : check_typed k st p = true -> streq k (str "address") = false ->
  exists d, p = (if streq k (str "domain-subdomains") then str "*." else []) ++ d /\
    jf_valid_domain d = true /\ fold_bytes d = d /\ (st = 3 \/ st = 4 \/ st = 5).
Proof.
  unfold check_typed. intros H E. rewrite E in H.
  destruct (streq k (str "domain-subdomains")) eqn:E2; cbn [Nat.eqb negb andb] in H.
  - destruct (_ || _) eqn:E3 in H; [discriminate|]. boolify.
    apply has_prefix_spec in H2 as [d ->].
    exists d. change (drop 2 (str "*." ++ d)) with (drop 0 d) in *. rewrite drop_0 in *.
    split_and!; auto using has_upper_fold. destruct (Z.eqb_spec st 3), (Z.eqb_spec st 4), (Z.eqb_spec st 5); try discriminate; auto.
  - destruct (_ || _) eqn:E3 in H; [discriminate|]. boolify. rewrite drop_0 in *.
    exists p. split_and!; auto using has_upper_fold. destruct (Z.eqb_spec st 3), (Z.eqb_spec st 4), (Z.eqb_spec st 5); try discriminate; auto.
Qed.

Lemma check_typed_address st p : check_typed (str "address") st p = true ->
  jf_normalize_mailbox p = Some p /\ fold_bytes p = p.
Proof.
  unfold check_typed. rewrite streq_refl. destruct (jf_normalize_mailbox p) as [a|]; [|discriminate].
  intros H. boolify. match goal with H : streq _ _ = true |- _ => apply streq_spec in H as -> end. auto using has_upper_fold.
Qed.

(** The rule of a record whose numbers are [st] and [mask]. *)
Definition decoded (f : list bytes) (st mask : Z) : jf_rule :=
  MkRule (cached_kind (cfield f 2)) st mask [] (cfield f 5) (str "move") (cfield f 6) (cfield f 7) (cfield f 8)
    (cfield f 9) [] (cached_number (cfield f 10)) 1 (cfield f 4).

Lemma kind_shape_fields r : kind_shape r -> 0 <= fields r < 2 ^ 32.
Proof.
  unfold kind_shape. destruct (kind r).
  - intros (_ & _ & _ & H%stage_mask_cases).
    repeat (apply elem_of_cons in H as [[= _ ->]|H]; [lia|]). now apply elem_of_nil in H.
  - intros (_ & _ & H).
    repeat (apply elem_of_cons in H as [[= _ ->]|H]; [lia|]). now apply elem_of_nil in H.
  - intros (d & _ & _ & _ & H).
    repeat (apply elem_of_cons in H as [[= _ ->]|H]; [lia|]). now apply elem_of_nil in H.
  - intros (_ & H).
    repeat (apply elem_of_cons in H as [[= _ ->]|H]; [lia|]). now apply elem_of_nil in H.
  - lia.
  - lia.
  - lia.
Qed.

Lemma restore_decoded k f st mask :
  bytes_ok (nth 1 f []) -> bytes_ok (nth 3 f []) ->
  decimal (nth 1 f []) = Some st -> decimal (nth 3 f []) = Some mask ->
  1 <= st <= 8 -> 0 <= mask < 2 ^ 32 -> rule (restore_entry k f) = decoded f st mask.
Proof.
  intros B1 B3 D1 D3 Hst Hm. apply decimal_number in D1 as [D1 _]; [|exact B1].
  apply decimal_number in D3 as [D3 _]; [|exact B3].
  unfold restore_entry, decoded, cfield, to_unsigned. cbn [rule].
  rewrite D1, D3, !Z.mod_small by lia. reflexivity.
Qed.

Lemma decoded_shape k f st mask :
  decimal (nth 1 f []) = Some st -> decimal (nth 3 f []) = Some mask -> 1 <= st <= 8 ->
  valid_id (nth 4 f []) = true -> safe_text (nth 6 f []) true = true -> safe_text (nth 7 f []) true = true ->
  safe_text (nth 8 f []) false = true -> zlen (nth 5 f []) <= JF_LINE_MAX -> kind_shape (decoded f st mask) ->
  bytes_ok (nth 1 f []) -> bytes_ok (nth 3 f []) -> cached_shape (rule (restore_entry k f)).
Proof.
  intros D1 D3 Hst H1 H2 H3 H4 H5 Hk B1 B3. pose proof (kind_shape_fields _ Hk) as Hm.
  rewrite (restore_decoded k f st mask) by assumption. unfold cached_shape. split_and!; auto; apply Hst.
Qed.

Lemma typed_route st mask : stage_mask st mask = true -> st = 3 \/ st = 4 \/ st = 5 ->
  (st, mask) ∈ [(3, 3); (4, 12); (5, 1)].
Proof.
  intros H%stage_mask_cases Hs.
  repeat (apply elem_of_cons in H as [[= -> ->]|H]; [try lia; apply (bool_decide_eq_true_1 _); reflexivity|]).
  now apply elem_of_nil in H.
Qed.

Lemma typed_shape f st mask : stage_mask st mask = true -> jf_valid_utf8 (nth 5 f []) = true ->
  check_typed (nth 2 f []) st (nth 5 f []) = true ->
  nth 2 f [] ∈ [str "address"; str "domain-apex"; str "domain-subdomains"] ->
  kind_shape (decoded f st mask).
Proof.
  intros Hm Hu Ht Hin. unfold kind_shape, decoded. cbn [kind predicate stage fields]. unfold cfield.
  apply elem_of_cons in Hin as [E|Hin]; [|apply elem_of_cons in Hin as [E|Hin];
    [|apply list_elem_of_singleton in Hin as E]]; rewrite E in *.
  - change (cached_kind (str "address")) with JF_ADDRESS. apply check_typed_address in Ht as [H1 H2]. auto.
  - change (cached_kind (str "domain-apex")) with JF_DOMAIN_APEX.
    apply check_typed_domain in Ht as (d & -> & Hd & Hf & Hs); [|reflexivity]. cbn [app]. auto using typed_route.
  - change (cached_kind (str "domain-subdomains")) with JF_DOMAIN_SUBDOMAINS.
    apply check_typed_domain in Ht as (d & -> & Hd & Hf & Hs); [|reflexivity]. exists d. auto using typed_route.
Qed.

Lemma regex_route st mask : (st =? 3) && (mask =? 3) || (st =? 4) && (mask =? 12) = true ->
  (st, mask) ∈ [(3, 3); (4, 12)].
Proof.
  intros [[->%Z.eqb_eq ->%Z.eqb_eq]%andb_true_iff|[->%Z.eqb_eq ->%Z.eqb_eq]%andb_true_iff]%orb_true_iff;
    apply (bool_decide_eq_true_1 _); reflexivity.
Qed.

(** The state after an accepted R record. *)
Definition after_rule (v : vstate) (st : Z) (b s fb : bool) : vstate :=
  MkV (v_role v) (v_dpath v) (v_ordinal v + 1) st (v_deps v) 2 fb b s (v_regex v) (v_qualification v)
    (v_catalogue v) (v_normalization v) (v_hash v).

Lemma check_rule_step i f v v' : check_rule i count f v = Some v' -> rule_step i f v v'.
Proof.
  unfold check_rule. cbv zeta.
  destruct (decimal (nth 0 f [])) as [ord|] eqn:D0; [|discriminate].
  destruct (decimal (nth 1 f [])) as [st|] eqn:D1; [|discriminate].
  destruct (decimal (nth 3 f [])) as [mask|] eqn:D3; [|discriminate].
  destruct (decimal (nth 10 f [])) as [ln|] eqn:D10; [|discriminate].
  destruct (_ || _) eqn:G; [discriminate|]. boolify. subst ord.
  rename H0 into Ha. apply streq_spec in Ha.
  assert (Hstep : forall K b s fb, cached_kind (nth 2 f []) = K -> kind_shape (decoded f st mask) ->
    zlen (nth 5 f []) <= JF_LINE_MAX ->
    match K with JF_SENDER_CONTAINS => v_bounce v = false /\ b = true | _ => b = v_bounce v end ->
    match K with JF_SPAM_IS => v_spam v = false /\ s = true | _ => s = v_spam v end ->
    match K with JF_ALWAYS => v_fallback v = false /\ fb = true /\ S i = count | _ => fb = v_fallback v end ->
    rule_step i f v (after_rule v st b s fb)).
  { intros K b s fb <- Hk Hp Hb Hs Hf. split; auto. intros k. now apply (decoded_shape k f st mask). }
  destruct (_ || _ || _) eqn:K1.
  { pass_guard. boolify. intros [= <-].
    assert (Hin : nth 2 f [] ∈ [str "address"; str "domain-apex"; str "domain-subdomains"]).
    { rewrite !elem_of_cons. rewrite !orb_true_iff, !streq_spec in K1. tauto. }
    eapply Hstep; try (apply typed_shape; assumption); try reflexivity; [assumption|..].
    all: apply elem_of_cons in Hin as [->|Hin]; [reflexivity|]; apply elem_of_cons in Hin as [->|Hin];
      [reflexivity|]; apply list_elem_of_singleton in Hin as ->; reflexivity. }
  destruct (streq _ (str "ere")) eqn:K2; [apply streq_spec in K2|clear K2].
  { pass_guard. boolify. intros [= <-].
    apply (Hstep JF_ERE); rewrite ?K2; try reflexivity; [|assumption].
    unfold kind_shape, decoded, cfield. cbn [kind predicate stage fields]. rewrite K2.
    split; [assumption|]. now apply regex_route. }
  destruct (streq _ (str "sender-contains")) eqn:K3; [apply streq_spec in K3|clear K3].
  { pass_guard. boolify. intros [= <-]. subst st mask.
    apply (Hstep JF_SENDER_CONTAINS); rewrite ?K3; auto.
    - unfold kind_shape, decoded, cfield. cbn [kind predicate stage fields id]. rewrite K3.
      split_and!; try reflexivity; now apply streq_spec.
    - match goal with H : streq _ (str "mailman-bounce") = true |- _ => apply streq_spec in H as -> end. now vm_compute. }
  destruct (streq _ (str "spam-is")) eqn:K4; [apply streq_spec in K4|clear K4].
  { pass_guard. boolify. intros [= <-]. subst st mask.
    apply (Hstep JF_SPAM_IS); rewrite ?K4; auto.
    - unfold kind_shape, decoded, cfield. cbn [kind predicate stage fields id]. rewrite K4.
      split_and!; try reflexivity; now apply streq_spec.
    - match goal with H : streq _ (str "YES") = true |- _ => apply streq_spec in H as -> end. now vm_compute. }
  destruct (streq _ (str "always")) eqn:K5; [apply streq_spec in K5|discriminate].
  pass_guard. boolify. intros [= <-]. subst st mask.
  match goal with H : (length (nth 5 f []) =? 0)%nat = true |- _ => apply Nat.eqb_eq, length_zero_iff_nil in H as Hnil end.
  match goal with H : (S i =? count)%nat = true |- _ => apply Nat.eqb_eq in H end.
  apply (Hstep JF_ALWAYS); rewrite ?K5; auto.
  - unfold kind_shape, decoded, cfield. cbn [kind predicate stage fields id]. rewrite K5.
    split_and!; try reflexivity; [now apply streq_spec|exact Hnil].
  - rewrite Hnil. now vm_compute.
Qed.

Definition kind_of (r : record) : jf_kind := cached_kind (nth 2 r.2 []).

(** A run of accepted R records. *)
Inductive steps : nat -> list record -> vstate -> vstate -> Prop :=
| steps_nil i v : steps i [] v v
| steps_cons i r l v v1 v' : rule_step i r.2 v v1 -> steps (S i) l v1 v' -> steps i (r :: l) v v'.

Lemma checks_steps i l v v' :
  Forall (fun r => is_rule r = true) l -> checks i l v = Some v' -> steps i l v v'.
Proof.
  intros Hl. revert i v. induction Hl as [|[t f] l Ht _ IH]; intros i v; cbn [check_records]; [intros [= <-]; constructor|].
  unfold is_rule in Ht. cbn [fst] in Ht. apply Z.eqb_eq in Ht as ->. cbn [Z.eqb Pos.eqb].
  rewrite bind_Some. intros (v1 & H1 & H). econstructor; [exact (check_rule_step _ _ _ _ H1)|auto].
Qed.

(** A builtin kind whose flag the record sets occurs once. *)
Definition flags (K : jf_kind) (flag : vstate -> bool) : Prop :=
  forall i f v v', rule_step i f v v' ->
    if bool_decide (cached_kind (nth 2 f []) = K) then flag v = false /\ flag v' = true else flag v' = flag v.

Lemma flags_bounce : flags JF_SENDER_CONTAINS v_bounce.
Proof. intros i f v v' H. pose proof (rs_bounce _ _ _ _ H). case_bool_decide as E; [now rewrite E in *|]. now destruct (cached_kind _). Qed.
Lemma flags_spam : flags JF_SPAM_IS v_spam.
Proof. intros i f v v' H. pose proof (rs_spam _ _ _ _ H). case_bool_decide as E; [now rewrite E in *|]. now destruct (cached_kind _). Qed.
Lemma flags_fallback : flags JF_ALWAYS v_fallback.
Proof. intros i f v v' H. pose proof (rs_fallback _ _ _ _ H) as Hf. case_bool_decide as E; [rewrite E in Hf; tauto|]. now destruct (cached_kind _). Qed.

Lemma steps_none K flag i l v v' : flags K flag -> steps i l v v' -> flag v = true ->
  flag v' = true /\ Forall (fun r => kind_of r <> K) l.
Proof.
  intros HK. induction 1 as [i v|i r l v v1 v' Hs _ IH]; intros Hf; [auto|].
  pose proof (HK _ _ _ _ Hs) as H. fold (kind_of r) in H. case_bool_decide as E; [destruct H; congruence|].
  destruct IH as [IH1 IH2]; [congruence|]. split; [exact IH1|]. now constructor.
Qed.

Lemma steps_unique K flag i l v v' : flags K flag -> steps i l v v' -> flag v = false -> flag v' = true ->
  exists k r, l !! k = Some r /\ kind_of r = K /\
    forall j r', l !! j = Some r' -> kind_of r' = K -> j = k.
Proof.
  intros HK. induction 1 as [i v|i r l v v1 v' Hs Hr IH]; intros Hf Hf'; [congruence|].
  pose proof (HK _ _ _ _ Hs) as H. fold (kind_of r) in H. case_bool_decide as E.
  - exists 0%nat, r. split_and!; [reflexivity|exact E|]. intros [|j] r' Hj Hk; [reflexivity|exfalso].
    destruct (steps_none K flag _ _ _ _ HK Hr (proj2 H)) as [_ Hn]. rewrite Forall_forall in Hn.
    apply (Hn r'); [|exact Hk]. eapply list_elem_of_lookup_2. exact Hj.
  - destruct IH as (k & r0 & H1 & H2 & H3); [congruence|exact Hf'|].
    exists (S k), r0. split_and!; auto. intros [|j] r' Hj Hk; [cbn in Hj; congruence|].
    f_equal. now apply (H3 j r').
Qed.

Lemma steps_always i l v v' k r : steps i l v v' -> l !! k = Some r -> kind_of r = JF_ALWAYS -> S (i + k) = count.
Proof.
  intros H. revert k. induction H as [i v|i r0 l v v1 v' Hs Hr IH]; intros k Hk Hr'; [discriminate|].
  destruct k as [|k]; cbn in Hk.
  - injection Hk as ->. pose proof (rs_fallback _ _ _ _ Hs) as H. fold (kind_of r) in H. rewrite Hr' in H. lia.
  - rewrite Nat.add_succ_r, <- Nat.add_succ_l. now apply IH.
Qed.

Lemma steps_shape i l v v' : steps i l v v' -> Forall (fun r => Forall bytes_ok r.2) l ->
  Forall (fun r => forall k, cached_shape (rule (restore_entry k r.2))) l.
Proof.
  induction 1 as [i v|i r l v v1 v' Hs Hr IH]; intros Hb; [constructor|]. rewrite Forall_cons in Hb. destruct Hb as [Hb Hb'].
  constructor; [|auto]. intros k.
  assert (Hn : forall n, bytes_ok (nth n r.2 [])) by (intros n; apply nth_token; [constructor|exact Hb]).
  now apply (rs_shape _ _ _ _ Hs).
Qed.

Definition stage_of (r : record) : Z := stage (rule (restore_entry 0 r.2)).

Lemma step_stage i r v v' : rule_step i r.2 v v' -> Forall bytes_ok r.2 -> stage_of r = v_stage v' /\ v_stage v <= v_stage v'.
Proof.
  intros Hs Hb. destruct (rs_stage _ _ _ _ Hs) as (Hd & Hle & Hrange). split; [|exact Hle].
  unfold stage_of. cbn [restore_entry rule stage]. unfold cfield, to_unsigned.
  apply decimal_number in Hd as [-> _]; [apply Z.mod_small; lia|]. apply nth_token; [constructor|exact Hb].
Qed.

Lemma steps_stages i l v v' : steps i l v v' -> Forall (fun r => Forall bytes_ok r.2) l ->
  Forall (fun r => v_stage v <= stage_of r) l /\ StronglySorted Z.le (map stage_of l).
Proof.
  induction 1 as [i v|i r l v v1 v' Hs Hr IH]; intros Hb; [repeat constructor|].
  rewrite Forall_cons in Hb. destruct Hb as [Hb Hb']. destruct (IH Hb') as [IH1 IH2].
  destruct (step_stage _ _ _ _ Hs Hb) as [E Hle]. rewrite <- E in IH1. split.
  - constructor; [lia|]. eapply Forall_impl; [exact IH1|]. cbv beta. lia.
  - constructor; [exact IH2|]. now apply Forall_map.
Qed.

Lemma steps_ordinals i l v v' k r : steps i l v v' -> l !! k = Some r ->
  decimal (nth 0 r.2 []) = Some (v_ordinal v + 1 + Z.of_nat k) /\ nth 11 r.2 [] = str "move".
Proof.
  intros H. revert k. induction H as [i v|i r0 l v v1 v' Hs Hr IH]; intros k Hk; [discriminate|].
  destruct (rs_ordinal _ _ _ _ Hs) as [Ho Ho']. destruct k as [|k]; cbn in Hk.
  - injection Hk as ->. rewrite Ho. split; [f_equal; lia|apply (rs_action _ _ _ _ Hs)].
  - destruct (IH k Hk) as [-> Ha]. split; [f_equal; lia|exact Ha].
Qed.

Lemma steps_same i l v v' : steps i l v v' -> v_hash v' = v_hash v /\ v_normalization v' = v_normalization v.
Proof.
  induction 1 as [i v|i r l v v1 v' Hs Hr IH]; [auto|]. destruct (rs_same _ _ _ _ Hs) as (H1 & H2 & H3 & H4).
  destruct IH as [-> ->]. auto.
Qed.
End Checks.

(** ** Dependencies *)

Definition key_compare (f g : list bytes) : comparison :=
  cmp_then (strcmp (nth 0 f []) (nth 0 g [])) (strcmp (nth 1 f []) (nth 1 g [])).

#[export] Instance key_comparator : Comparator key_compare.
Proof. unfold key_compare. solve_comparator. Qed.

(** Roles whose auxiliary bytes are the digested content itself. *)
Definition self_described (role : bytes) : bool :=
  prefix_of role (str "config.") || prefix_of role (str "export.") ||
  prefix_of role (str "link.") || prefix_of role (str "inventory.").

Definition dep_shape (f : list bytes) : Prop :=
  nth 0 f [] <> [] /\
  ((nth 2 f [] = str "1" /\ length (nth 3 f []) = 32%nat) \/
   (nth 2 f [] = str "0" /\ nth 3 f [] = [] /\ nth 4 f [] = [])) /\
  (nth 2 f [] = str "1" -> self_described (nth 0 f []) = true -> nth 3 f [] = digest_of (nth 4 f [])).

(** The record that names the address normalisation the rules were made with. *)
Definition normalization (f : list bytes) : Prop :=
  nth 0 f [] = str "config.address-normalization" /\ nth 1 f [] = [] /\ nth 2 f [] = str "1" /\
  nth 4 f [] = JF_ADDRESS_NORMALIZATION.

Record dep_step (raw : bytes) (f : list bytes) (v v' : vstate) : Prop := MkDepStep {
  ds_phase : v_phase v = 1 /\ v_phase v' = 1;
  ds_key : v_role v' = nth 0 f [] /\ v_dpath v' = nth 1 f [];
  ds_order : v_role v <> [] -> key_compare [v_role v; v_dpath v] f = Lt;
  ds_shape : dep_shape f;
  ds_hash : v_hash v' = jf_sha256_update (v_hash v) raw;
  ds_same : v_ordinal v' = v_ordinal v /\ v_stage v' = v_stage v /\ v_bounce v' = v_bounce v /\
            v_spam v' = v_spam v /\ v_fallback v' = v_fallback v;
  ds_norm : v_normalization v' = true -> v_normalization v = true \/ normalization f }.

Lemma dep_order role path f : role <> [] ->
  negb (length role =? 0)%nat &&
    match strcmp role (nth 0 f []) with
    | Eq => match strcmp path (nth 1 f []) with Lt => false | _ => true end
    | Lt => false | Gt => true end = false ->
  key_compare [role; path] f = Lt.
Proof.
  intros Hr. destruct role as [|c role]; [easy|]. cbn [length Nat.eqb negb andb].
  unfold key_compare. cbn [nth]. destruct (strcmp (c :: role) (nth 0 f [])); cbn [cmp_then]; [|easy|easy].
  now destruct (strcmp path (nth 1 f [])).
Qed.

Lemma check_dependency_step raw f v v' : check_dependency raw f v = Some v' -> dep_step raw f v v'.
Proof.
  unfold check_dependency, compare_views. cbv zeta. pass_guard. do 5 pass_guard. intros [= <-].
  match goal with H : _ || _ || _ || _ || _ = false |- _ => rename H into G end. boolify.
  assert (Hr : nth 0 f [] <> []) by (intros E; rewrite E in *; discriminate).
  split; cbn [v_phase v_role v_dpath v_hash v_ordinal v_stage v_bounce v_spam v_fallback v_normalization]; auto.
  - intros Hv. now apply dep_order.
  - split_and!; [exact Hr| |].
    + match goal with H : _ || _ = true |- _ => apply orb_true_iff in H as [H|H]; apply andb_true_iff in H as [E1 E2] end.
      * left. split; [now apply streq_spec|now apply Nat.eqb_eq].
      * right. rewrite E1 in *. cbn [andb] in *. boolify. split_and!; [now apply streq_spec| |];
          apply length_zero_iff_nil, Nat.eqb_eq; assumption.
    + intros E1 E2. unfold self_described in E2. rewrite E1, streq_refl, E2 in *. cbn [andb] in *. boolify.
      symmetry. now apply streq_spec.
  - intros [H'|H']%orb_true_iff; [auto|right]. rewrite H' in *. cbn [andb] in *. unfold is_configured in *. boolify.
    unfold normalization. cbn [negb orb] in *. split_and!; try now apply streq_spec.
    now apply length_zero_iff_nil, Nat.eqb_eq.
Qed.

Section DependencyRuns.
Context (zo so : option bytes) (count : nat).

Abbreviation checks := (check_records zo so count).

Inductive dep_steps : list record -> vstate -> vstate -> Prop :=
| dep_nil v : dep_steps [] v v
| dep_cons r l v v1 v' : dep_step (enc r) r.2 v v1 -> dep_steps l v1 v' -> dep_steps (r :: l) v v'.

Lemma metadata_refused i f v : v_phase v <> 0 -> check_metadata i zo so f v = None.
Proof.
  intros Hp. unfold check_metadata. apply Z.eqb_neq in Hp. rewrite Hp. cbn [negb].
  now rewrite orb_true_r.
Qed.

(** From phase 2 on, every record is a rule. *)
Lemma checks_phase2 i l v v' : Forall framed l -> v_phase v = 2 -> checks i l v = Some v' ->
  Forall (fun r => is_rule r = true) l.
Proof.
  intros Hl. revert i v. induction Hl as [|[t f] l Hr Hl IH]; intros i v Hp H; [constructor|].
  cbn [check_records] in H. rewrite bind_Some in H. destruct H as (v1 & H1 & H).
  destruct (framed_tag _ Hr) as [E|[E|E]]; unfold is_dep, is_rule in E; cbn [fst] in E; rewrite ?Z.eqb_eq in E;
    subst t; cbn [Z.eqb Pos.eqb] in H1.
  - rewrite metadata_refused in H1 by lia. discriminate.
  - apply check_dependency_step in H1. destruct (ds_phase _ _ _ _ H1). lia.
  - apply check_rule_step in H1. constructor; [reflexivity|]. apply IH in H; [exact H|apply (rs_phase _ _ _ _ _ H1)].
Qed.

(** From phase 1 on, the records are dependencies and then rules. *)
Lemma checks_phase1 i l v v' : Forall framed l -> v_phase v = 1 -> checks i l v = Some v' ->
  exists deps rules v1, l = deps ++ rules /\ Forall (fun r => is_dep r = true) deps /\ dep_steps deps v v1 /\
    v_phase v1 = 1 /\ Forall (fun r => is_rule r = true) rules /\ steps count (i + length deps) rules v1 v'.
Proof.
  intros Hl. revert i v. induction Hl as [|r l Hr Hl IH]; intros i v Hp H.
  { injection H as <-. exists [], [], v. split_and!; auto; constructor. }
  destruct (framed_tag r Hr) as [E|[E|E]].
  - destruct r as [t f]. cbn [fst] in E. subst t. cbn [check_records Z.eqb Pos.eqb] in H.
    rewrite metadata_refused in H by lia. discriminate.
  - pose proof E as E'. destruct r as [t f]. unfold is_dep in E. cbn [fst] in E. apply Z.eqb_eq in E. subst t.
    cbn [check_records Z.eqb Pos.eqb] in H. rewrite bind_Some in H. destruct H as (v1 & H1 & H).
    apply check_dependency_step in H1. apply IH in H as (deps & rules & v2 & -> & Hd & Hs & Hp2 & Hf & Hst);
      [|apply (ds_phase _ _ _ _ H1)].
    exists ((68, f) :: deps), rules, v2. split_and!; auto; [exact (dep_cons _ _ _ _ _ H1 Hs)|].
    cbn [length]. now rewrite Nat.add_succ_r.
  - assert (Hall : Forall (fun r => is_rule r = true) (r :: l)).
    { constructor; [exact E|]. destruct r as [t f]. unfold is_rule in E. cbn [fst] in E. apply Z.eqb_eq in E. subst t.
      cbn [check_records Z.eqb Pos.eqb] in H. rewrite bind_Some in H. destruct H as (v1 & H1 & H).
      apply check_rule_step in H1. eapply checks_phase2; [exact Hl|apply (rs_phase _ _ _ _ _ H1)|exact H]. }
    exists [], (r :: l), v. split_and!; auto; [apply dep_nil|].
    cbn [length]. rewrite Nat.add_0_r. now apply (checks_steps zo so).
Qed.

Lemma dep_steps_sorted l v v' : dep_steps l v v' ->
  StronglySorted (fun x y => key_compare x y = Lt) (map snd l) /\
  (v_role v <> [] -> Forall (fun f => key_compare [v_role v; v_dpath v] f = Lt) (map snd l)).
Proof.
  induction 1 as [v|r l v v1 v' Hs Hr [IH1 IH2]]; [repeat constructor|]. cbn [map].
  destruct (ds_key _ _ _ _ Hs) as [Er Ed].
  assert (Hk : forall f, key_compare [v_role v1; v_dpath v1] f = key_compare r.2 f).
  { intros f. unfold key_compare. cbn [nth]. now rewrite Er, Ed. }
  assert (Hfirst : Forall (fun f => key_compare r.2 f = Lt) (map snd l)).
  { eapply Forall_impl; [apply IH2|]; [rewrite Er; apply (ds_shape _ _ _ _ Hs)|]. intros f Hf. now rewrite <- Hk. }
  split; [now constructor|]. intros Hv. pose proof (ds_order _ _ _ _ Hs Hv) as Hlt. constructor; [exact Hlt|].
  eapply Forall_impl; [exact Hfirst|]. intros f Hf. now apply (cmp_lt_trans _ r.2).
Qed.

Lemma dep_steps_hash l v v' : dep_steps l v v' ->
  v_hash v' = updates (v_hash v) (map enc l) /\ Forall (fun r => dep_shape r.2) l.
Proof.
  induction 1 as [v|r l v v1 v' Hs Hr [IH1 IH2]]; [auto|]. split; [|constructor; [apply (ds_shape _ _ _ _ Hs)|exact IH2]].
  rewrite IH1, (ds_hash _ _ _ _ Hs). reflexivity.
Qed.

Lemma dep_steps_same l v v' : dep_steps l v v' ->
  v_ordinal v' = v_ordinal v /\ v_stage v' = v_stage v /\ v_bounce v' = v_bounce v /\
  v_spam v' = v_spam v /\ v_fallback v' = v_fallback v /\
  (v_normalization v' = true -> v_normalization v = true \/ Exists (fun r => normalization r.2) l).
Proof.
  induction 1 as [v|r l v v1 v' Hs Hr IH]; [split_and!; auto|].
  destruct (ds_same _ _ _ _ Hs) as (-> & -> & -> & -> & ->) in IH.
  destruct IH as (-> & -> & -> & -> & -> & IH). split_and!; auto.
  intros H. destruct (IH H) as [H1|H1]; [|right; now constructor 2].
  destruct (ds_norm _ _ _ _ Hs H1) as [H2|H2]; [auto|right; now constructor 1].
Qed.
End DependencyRuns.

(** ** The one form of a valid cache *)

Lemma updates_app s l1 l2 : updates (updates s l1) l2 = updates s (l1 ++ l2).
Proof. unfold updates. now rewrite fold_left_app. Qed.


Lemma take4_read32 d : bytes_ok d -> (4 <= length d)%nat -> take 4 d = le_bytes 4 (read32 d).
Proof.
  intros Hd Hl. destruct d as [|b0 [|b1 [|b2 [|b3 d]]]]; cbn in Hl; try lia.
  rewrite !Forall_cons in Hd. destruct Hd as (H0 & H1 & H2 & H3 & _). now rewrite le_read32.
Qed.

Fixpoint le_value (l : bytes) : Z := match l with [] => 0 | b :: t => b + 256 * le_value t end.

Lemma le_bytes_value l : bytes_ok l -> le_bytes (length l) (le_value l) = l.
Proof.
  induction 1 as [|b l Hb _ IH]; [reflexivity|]. cbn [length le_value]. rewrite le_bytes_S. unfold is_byte in Hb.
  assert (E : (b + 256 * le_value l) / 256 = le_value l) by (symmetry; apply (Z.div_unique _ 256 _ b); lia).
  rewrite E, IH. f_equal. symmetry. apply (Z.mod_unique _ 256 (le_value l)); lia.
Qed.

Lemma read64_step a b (i : nat) : 0 <= a < 2 ^ (8 * Z.of_nat i) -> is_byte b ->
  Z.lor a (Z.shiftl b (8 * Z.of_nat i)) = a + b * 2 ^ (8 * Z.of_nat i) /\
  0 <= a + b * 2 ^ (8 * Z.of_nat i) < 2 ^ (8 * Z.of_nat (S i)).
Proof.
  intros Ha Hb. unfold is_byte in Hb. split; [apply lor_shift_add; lia|].
  replace (8 * Z.of_nat (S i)) with (8 * Z.of_nat i + 8) by lia. rewrite Z.pow_add_r by lia. change (2 ^ 8) with 256. nia.
Qed.

Lemma take8_read64 d : bytes_ok d -> (8 <= length d)%nat -> take 8 d = le_bytes 8 (read64 d).
Proof.
  intros Hd Hl.
  destruct d as [|b0 [|b1 [|b2 [|b3 [|b4 [|b5 [|b6 [|b7 d]]]]]]]]; cbn in Hl; try lia.
  rewrite !Forall_cons in Hd. destruct Hd as (H0 & H1 & H2 & H3 & H4 & H5 & H6 & H7 & _).
  change (take 8 (b0 :: b1 :: b2 :: b3 :: b4 :: b5 :: b6 :: b7 :: d)) with [b0; b1; b2; b3; b4; b5; b6; b7].
  assert (E : read64 (b0 :: b1 :: b2 :: b3 :: b4 :: b5 :: b6 :: b7 :: d) = le_value [b0; b1; b2; b3; b4; b5; b6; b7]).
  { unfold read64, at_. cbn [seq fold_left nth].
    destruct (read64_step 0 b0 0 ltac:(cbn; lia) H0) as [-> R0].
    destruct (read64_step _ b1 1 R0 H1) as [-> R1].
    destruct (read64_step _ b2 2 R1 H2) as [-> R2].
    destruct (read64_step _ b3 3 R2 H3) as [-> R3].
    destruct (read64_step _ b4 4 R3 H4) as [-> R4].
    destruct (read64_step _ b5 5 R4 H5) as [-> R5].
    destruct (read64_step _ b6 6 R5 H6) as [-> R6].
    destruct (read64_step _ b7 7 R6 H7) as [-> _].
    cbn [le_value]. lia. }
  rewrite E. symmetry. apply (le_bytes_value [b0; b1; b2; b3; b4; b5; b6; b7]). repeat (constructor; [assumption|]). constructor.
Qed.

Lemma cut {A} n k (d : list A) : drop k d = take n (drop k d) ++ drop (k + n) d.
Proof. now rewrite <- drop_drop, take_drop. Qed.

Definition cache_image (fp payload : bytes) : bytes :=
  str "JFNCACHE" ++ le_bytes 4 1 ++ le_bytes 4 1 ++ le_bytes 8 (zlen payload) ++ fp ++ digest_of payload ++ payload.

Lemma header_image d fp : bytes_ok d -> validate_header d fp = true ->
  d = cache_image (take 32 (drop 24 d)) (drop 88 d) /\ 4 <= read32 (drop 88 d) /\ (92 <= length d)%nat.
Proof.
  intros Hd. unfold validate_header. intros H. boolify.
  repeat match goal with H : streq _ _ = true |- _ => apply streq_spec in H end.
  assert (Hl : (92 <= length d)%nat) by (unfold zlen in *; lia).
  split_and!; [|unfold JF_BUILTIN_RULES in *; lia|exact Hl]. unfold cache_image.
  transitivity (take 8 d ++ take 4 (drop 8 d) ++ take 4 (drop 12 d) ++ take 8 (drop 16 d) ++ take 32 (drop 24 d) ++
                take 32 (drop 56 d) ++ drop 88 d).
  { rewrite <- (cut 32 56), <- (cut 32 24), <- (cut 8 16), <- (cut 4 12), <- (cut 4 8). now rewrite take_drop. }
  rewrite !take4_read32, (take8_read64 (drop 16 d)) by (try apply Forall_drop; rewrite ?length_drop; auto; lia).
  assert (Ez : zlen (drop 88 d) = zlen d - 88) by (unfold zlen; rewrite length_drop; lia).
  rewrite Ez.
  congruence.
Qed.

Lemma enc_all_bytes l : bytes_ok (enc_all l) -> Forall (fun r => Forall bytes_ok r.2) l.
Proof.
  unfold enc_all. intros H. rewrite Forall_concat, Forall_map in H. eapply Forall_impl; [exact H|].
  intros r Hr. cbv beta in *. unfold enc, enc_record in Hr. rewrite !Forall_app in Hr. destruct Hr as (_ & _ & Hr).
  rewrite Forall_concat, Forall_map in Hr. eapply Forall_impl; [exact Hr|].
  intros f Hf. cbv beta in *. unfold enc_field in Hf. now apply Forall_app in Hf.
Qed.

Definition payload_image (meta : list bytes) (deps rules : list record) : bytes :=
  le_bytes 4 (1 + zlen deps + zlen rules) ++ enc_all ((ch "M", meta) :: deps ++ rules).

(** Exactly one rule has kind [K]. *)
Definition one_of (K : jf_kind) (rules : list record) : Prop :=
  exists k r, rules !! k = Some r /\ kind_of r = K /\
    forall j r', rules !! j = Some r' -> kind_of r' = K -> j = k.

(** Everything the validator establishes of the bytes [d]. *)
Record validated (d : bytes) (meta : list bytes) (deps rules : list record) : Prop := MkValidated {
  va_image : d = cache_image (digest_of (fingerprint_magic ++ enc_all deps)) (payload_image meta deps rules);
  va_count : 1 + zlen deps + zlen rules < 2 ^ 32;
  va_framed : Forall framed ((ch "M", meta) :: deps ++ rules);
  va_bytes : Forall (fun r => Forall bytes_ok r.2) rules;
  va_tags : Forall (fun r => is_dep r = true) deps /\ Forall (fun r => is_rule r = true) rules;
  va_keys : StronglySorted (fun x y => key_compare x y = Lt) (map snd deps);
  va_deps : Forall (fun r => dep_shape r.2) deps /\ Exists (fun r => normalization r.2) deps;
  va_ordinals : forall k r, rules !! k = Some r ->
    decimal (nth 0 r.2 []) = Some (1 + Z.of_nat k) /\ nth 11 r.2 [] = str "move";
  va_stages : StronglySorted Z.le (map stage_of rules);
  va_shapes : Forall (fun r => forall k, cached_shape (rule (restore_entry k r.2))) rules;
  va_bounce : one_of JF_SENDER_CONTAINS rules;
  va_spam : one_of JF_SPAM_IS rules;
  va_fallback : one_of JF_ALWAYS rules;
  va_last : forall k r, rules !! k = Some r -> kind_of r = JF_ALWAYS -> S k = length rules }.

Lemma check_metadata_start i zo so f v : check_metadata i zo so f vstart = Some v ->
  v_phase v = 1 /\ v_role v = [] /\ v_ordinal v = 0 /\ v_stage v = 0 /\ v_bounce v = false /\ v_spam v = false /\
  v_fallback v = false /\ v_normalization v = false /\
  v_hash v = updates (jf_sha256_init stack_block) [fingerprint_magic].
Proof. unfold check_metadata. cbv zeta. do 2 pass_guard. intros [= <-]. split_and!; reflexivity. Qed.

Lemma checks_start zo so count l v' : Forall framed l -> l <> [] -> check_records zo so count 0 l vstart = Some v' ->
  exists meta deps rules v1 v2, l = (ch "M", meta) :: deps ++ rules /\
    check_metadata 0 zo so meta vstart = Some v1 /\
    Forall (fun r => is_dep r = true) deps /\ dep_steps deps v1 v2 /\
    Forall (fun r => is_rule r = true) rules /\ steps count (1 + length deps) rules v2 v'.
Proof.
  intros Hl Hne H. destruct Hl as [|[t f] l Hr Hl]; [easy|]. cbn [check_records] in H.
  rewrite bind_Some in H. destruct H as (v1 & H1 & H).
  destruct (framed_tag _ Hr) as [E|[E|E]]; unfold is_dep, is_rule in E; cbn [fst] in E; rewrite ?Z.eqb_eq in E;
    subst t; cbn [Z.eqb Pos.eqb] in H1.
  - apply (checks_phase1 zo so count) in H as (deps & rules & v2 & -> & Hd & Hs & _ & Hrs & Hst);
      [|exact Hl|now apply check_metadata_start in H1].
    exists f, deps, rules, v1, v2. auto 10.
  - apply check_dependency_step in H1. now destruct (ds_phase _ _ _ _ H1).
  - apply check_rule_step in H1. now destruct (rs_phase _ _ _ _ _ H1).
Qed.

Lemma validate_validated d zo so fp : bytes_ok d -> jf_cache_validate d zo so fp = Ok tt ->
  exists meta deps rules, validated d meta deps rules.
Proof.
  intros Hd. unfold jf_cache_validate. destruct (validate_header d fp) eqn:Eh; [|discriminate]. cbn [negb].
  destruct (header_image d fp Hd Eh) as (Ed & Hc & Hl).
  set (n := Z.to_nat (read32 (drop 88 d))) in *. cbv zeta.
  destruct (validate_records _ _ _ _ _ _ _) as [[v rest]|] eqn:E; [|discriminate].
  destruct (validate_end d v rest) eqn:Ee; [|discriminate]. intros _. unfold validate_end in Ee. boolify.
  apply validate_records_decode in E as (l & Hdec & Hck); [|now apply Forall_drop].
  apply decode_encoded in Hdec as (Es & Hn & Hf); [|now apply Forall_drop].
  match goal with H : (length rest =? 0)%nat = true |- _ => apply Nat.eqb_eq, length_zero_iff_nil in H as -> end.
  rewrite app_nil_r in Es.
  assert (Hb : bytes_ok (enc_all l)) by (rewrite <- Es; now apply Forall_drop).
  apply enc_all_bytes in Hb.
  apply checks_start in Hck as (meta & deps & rules & v1 & v2 & -> & Hm & Hds & Hdst & Hrs & Hst);
    [|exact Hf|intros ->; cbn in Hn; lia].
  apply check_metadata_start in Hm as (_ & _ & M1 & M2 & M3 & M4 & M5 & M6 & M7).
  destruct (dep_steps_same _ _ _ Hdst) as (S1 & S2 & S3 & S4 & S5 & S6).
  destruct (dep_steps_hash _ _ _ Hdst) as [Hh Hsh]. destruct (steps_same _ _ _ _ _ Hst) as [Hh' Hn'].
  rewrite Forall_cons, Forall_app in Hb. destruct Hb as (_ & _ & Hb).
  cbn [length] in Hn. rewrite length_app in Hn.
  assert (Hfp : take 32 (drop 24 d) = digest_of (fingerprint_magic ++ enc_all deps)).
  { match goal with H : streq _ _ = true |- _ => apply streq_spec in H as Hx end.
    rewrite Hh', Hh, M7, updates_app, stream_hex in Hx by reflexivity.
    unfold digest_of. rewrite jf_digest_fips by reflexivity. rewrite fips_hex_eq in Hx. symmetry.
    apply digest_hex_inj; [apply fips_digest_bytes|now apply Forall_take, Forall_drop|exact Hx]. }
  assert (Hpay : drop 88 d = payload_image meta deps rules).
  { rewrite (cut 4 88). change (88 + 4)%nat with 92%nat. rewrite Es. unfold payload_image. f_equal.
    rewrite take4_read32 by (try apply Forall_drop; rewrite ?length_drop; auto; lia). f_equal. unfold zlen in *. lia. }
  exists meta, deps, rules. split; auto.
  - now rewrite <- Hfp, <- Hpay.
  - pose proof (read32_range (drop 88 d) ltac:(now apply Forall_drop)). unfold zlen in *. lia.
  - apply (dep_steps_sorted _ _ _ Hdst).
  - split; [exact Hsh|]. destruct S6; congruence.
  - intros k r Hk. destruct (steps_ordinals _ _ _ _ _ _ _ Hst Hk) as [-> Ha]. split; [f_equal; lia|exact Ha].
  - apply (steps_stages _ _ _ _ _ Hst Hb).
  - apply (steps_shape _ _ _ _ _ Hst Hb).
  - apply (steps_unique n _ v_bounce _ _ _ _ (flags_bounce n) Hst); congruence.
  - apply (steps_unique n _ v_spam _ _ _ _ (flags_spam n) Hst); congruence.
  - apply (steps_unique n _ v_fallback _ _ _ _ (flags_fallback n) Hst); congruence.
  - intros k r Hk Hkind. pose proof (steps_always _ _ _ _ _ _ _ Hst Hk Hkind). lia.
Qed.

(** ** The restored policy *)

(** The entry of a restored record, with its expression compiled. *)
Definition restored (i : nat) (f : jf_cached_rule) : jf_entry :=
  let e := restore_entry i f in if bool_decide (kind (rule e) = JF_ERE) then set_compiled e else e.

Lemma restored_rule i f : rule (restored i f) = rule (restore_entry i f) /\ discard (restored i f) = false /\
  compiled (restored i f) = bool_decide (kind (rule (restore_entry i f)) = JF_ERE).
Proof. unfold restored. cbv zeta. now case_bool_decide. Qed.

Lemma restore_rule_index i j f : rule (restore_entry i f) = rule (restore_entry j f).
Proof. reflexivity. Qed.

Fixpoint restored_from (i : nat) (l : list jf_cached_rule) : list jf_entry :=
  match l with [] => [] | f :: t => restored i f :: restored_from (S i) t end.

Lemma restored_from_length i l : length (restored_from i l) = length l.
Proof. revert i. induction l as [|f l IH]; intros i; cbn; auto. Qed.

Lemma restored_from_lookup i l k : restored_from i l !! k = (fun f => restored (i + k) f) <$> l !! k.
Proof.
  revert i k. induction l as [|f l IH]; intros i [|k]; cbn; auto; [now rewrite Nat.add_0_r|].
  now rewrite IH, Nat.add_succ_r.
Qed.

Lemma restored_from_rules i l : map rule (restored_from i l) = map (fun f => rule (restore_entry 0 f)) l.
Proof.
  revert i. induction l as [|f l IH]; intros i; cbn [restored_from map]; [reflexivity|]. f_equal; [|apply IH].
  rewrite (proj1 (restored_rule i f)). apply restore_rule_index.
Qed.

Section Restore.
Context `{AL : Allocator} `{RX : PosixRegex} `{HP : Heap}.

Lemma restore_loop_Ok i records pol pol' : restore_loop i records pol = Ok pol' ->
  extends pol pol' (restored_from i records).
Proof.
  revert i pol. induction records as [|f t IH]; intros i pol; cbn [restore_loop restored_from].
  { intros [= <-]. apply extends_refl. }
  destruct (allocates 7 pol) as [p1|] eqn:E1; [|discriminate]. rewrite res_bind_Ok. intros (e & He & H).
  assert (Ee : e = restored i f).
  { unfold restored. cbv zeta. case_bool_decide; [|now injection He as <-].
    destruct uselocale_ok; [|discriminate]. cbn [negb] in He.
    destruct (regcomp _); [now injection He as <-|discriminate|discriminate]. }
  subst e. apply IH in H. apply allocates_extends in E1.
  apply (extends_trans _ _ _ [] _ E1), (extends_trans _ (set_entries p1 (entries p1 ++ [restored i f])) _ [restored i f]);
    [|exact H]. now unfold extends.
Qed.

(** The positions of a builtin kind in the restored entries. *)
Lemma restored_positions K rules : one_of K rules ->
  exists b r, positions (is_kind K) (restored_from 0 (map snd rules)) = [b] /\ rules !! b = Some r /\ kind_of r = K.
Proof.
  intros (b & r & Hb & Hk & Hu). exists b, r. split; [|auto].
  assert (Hl : length (restored_from 0 (map snd rules)) = length rules) by now rewrite restored_from_length, length_map.
  assert (He : forall j, (j < length rules)%nat -> exists r', rules !! j = Some r' /\
    kind (rule (entry_at (restored_from 0 (map snd rules)) j)) = kind_of r').
  { intros j Hj. destruct (lookup_lt_is_Some_2 _ _ Hj) as [r' Hr']. exists r'. split; [exact Hr'|].
    pose proof (entry_at_lookup (restored_from 0 (map snd rules)) j ltac:(lia)) as H.
    rewrite restored_from_lookup, list_lookup_fmap, Hr' in H. cbn in H. injection H as <-.
    rewrite (proj1 (restored_rule j r'.2)). reflexivity. }
  apply positions_single.
  - rewrite Hl. now apply lookup_lt_Some in Hb.
  - destruct (He b (lookup_lt_Some _ _ _ Hb)) as (r' & Hr' & ->). unfold is_kind. rewrite bool_decide_eq_true. congruence.
  - intros j Hj Hf. rewrite Hl in Hj. destruct (He j Hj) as (r' & Hr' & E). rewrite E in Hf. unfold is_kind in Hf.
    rewrite bool_decide_eq_true in Hf. now apply (Hu j r').
Qed.

Lemma restore_Ok records pol : jf_policy_restore records = Ok pol ->
  exists p0 : jf_policy, entries p0 = restored_from 0 records /\ bounce p0 = None /\ spam p0 = None /\ fallback p0 = None /\
    jf_policy_build_index p0 = Ok pol.
Proof.
  unfold jf_policy_restore. cbv zeta. destruct (_ || _); [discriminate|].
  destruct (allocate no_policy) as [p1|]; [|discriminate]. destruct newlocale_ok; [|discriminate]. cbn [negb].
  destruct (allocate p1) as [p2|]; [|discriminate]. rewrite res_bind_Ok. intros (p0 & H & Hb).
  apply restore_loop_Ok in H as (E1 & E2 & E3 & E4). exists p0. auto.
Qed.

(** A validated cache restores to a policy whose index describes its rules. *)
Lemma validated_indexed d meta deps rules pol : validated d meta deps rules ->
  jf_policy_restore (map snd rules) = Ok pol ->
  indexed pol /\ entries pol = restored_from 0 (map snd rules).
Proof.
  intros Hv (p0 & He & E1 & E2 & E3 & Hb)%restore_Ok.
  destruct (restored_positions _ _ (va_bounce _ _ _ _ Hv)) as (b & rb & Pb & Lb & Kb).
  destruct (restored_positions _ _ (va_spam _ _ _ _ Hv)) as (sp & rs & Ps & Ls & Ks).
  destruct (restored_positions _ _ (va_fallback _ _ _ _ Hv)) as (f & rf & Pf & Lf & Kf).
  rewrite <- He in *. apply (build_index_indexed p0 pol b sp f E1 E2 E3 Pb Ps Pf); [|exact Hb].
  pose proof (va_last _ _ _ _ Hv f rf Lf Kf) as Hlast. pose proof (lookup_lt_Some _ _ _ Lb) as Hlt.
  destruct (Nat.eq_dec b f) as [->|Hne]; [congruence|lia].
Qed.
End Restore.

(** ** Writers append exactly the encoding *)

Section Writers.
Context `{HP : Heap}.

(** When [op] succeeds it appends [s]. *)
Definition writes (op : buffer -> option buffer) (s : bytes) : Prop :=
  forall b b', op b = Some b' -> contents b'.1 = contents b.1 ++ s.

#[local] Opaque grow_capacity.

Lemma writes_add_limit s limit : writes (jf_bytes_add_limit s limit) s.
Proof.
  intros [b h] [b' h']. unfold jf_bytes_add_limit. destruct (negb _); [discriminate|].
  destruct (_ <? _); [destruct (malloc_ok h); [|discriminate]|]; now intros [= <- <-].
Qed.

Lemma writes_add s : writes (jf_bytes_add s) s.
Proof. apply writes_add_limit. Qed.

Lemma writes_bind op1 op2 s1 s2 : writes op1 s1 -> writes op2 s2 -> writes (fun b => b ← op1 b; op2 b) (s1 ++ s2).
Proof.
  intros H1 H2 b b' H. rewrite bind_Some in H. destruct H as (b1 & E & H).
  apply H1 in E. apply H2 in H. now rewrite H, E, app_assoc.
Qed.

Lemma writes_done : writes Some [].
Proof. intros b b' [= <-]. now rewrite app_nil_r. Qed.

Lemma writes_field s : writes (w_field s) (enc_field s).
Proof.
  intros b b'. unfold w_field. destruct (_ <? _); [discriminate|].
  apply (writes_bind (w_u32 (zlen s)) (jf_bytes_add s)); apply writes_add.
Qed.

Lemma writes_fields l : writes (w_fields l) (concat (map enc_field l)).
Proof.
  induction l as [|s l IH]; [apply writes_done|]. cbn [map concat]. apply writes_bind; [apply writes_field|exact IH].
Qed.

Lemma writes_record tag l : writes (w_record tag l) (enc_record tag l).
Proof.
  unfold w_record, enc_record. apply writes_bind; [apply writes_add|]. apply writes_bind; [apply writes_add|apply writes_fields].
Qed.

Definition dep_record (d : jf_dependency) : record := (ch "D", dependency_fields d).

Fixpoint rule_recs (i : nat) (rules : list (jf_rule * bytes)) : list record :=
  match rules with
  | [] => []
  | (r, m) :: t => (ch "R", rule_fields i r m) :: rule_recs (S i) t
  end.

Lemma writes_dependencies l : writes (w_all_dependencies l) (enc_all (map dep_record l)).
Proof.
  induction l as [|d l IH]; [apply writes_done|]. unfold enc_all. cbn [map concat].
  apply writes_bind; [apply writes_record|exact IH].
Qed.

Lemma writes_rules i rules : writes (w_rules i rules) (enc_all (rule_recs i rules)).
Proof.
  revert i. induction rules as [|[r m] rules IH]; intros i; [apply writes_done|]. unfold enc_all. cbn [rule_recs map concat].
  apply writes_bind; [apply writes_record|apply IH].
Qed.

Lemma writes_payload p zd sd deps rules :
  writes (w_payload p zd sd deps rules)
    (le_bytes 4 (u32 (1 + zlen deps + zlen rules)) ++
     enc_all ((ch "M", metadata_fields p zd sd) :: map dep_record deps ++ rule_recs 0 rules)).
Proof.
  unfold w_payload. apply writes_bind; [apply writes_add|]. unfold enc_all. cbn [map concat].
  rewrite map_app, concat_app. apply writes_bind; [apply writes_record|].
  apply writes_bind; [apply writes_dependencies|apply writes_rules].
Qed.

Lemma w_dependencies_Ok prev l b b' : w_dependencies prev l b = inr b' ->
  contents b'.1 = contents b.1 ++ enc_all (map dep_record l).
Proof.
  revert prev b. induction l as [|d l IH]; intros prev b; cbn [w_dependencies].
  { intros [= <-]. now rewrite app_nil_r. }
  destruct (_ || _); [discriminate|]. destruct (w_dependency d b) as [b1|] eqn:E; [|discriminate]. intros H.
  apply writes_record in E. apply IH in H. rewrite H, E. unfold enc_all. cbn [map concat]. now rewrite <- app_assoc.
Qed.

Lemma writes_cache fp pd payload : writes (w_cache fp pd payload)
  (str "JFNCACHE" ++ le_bytes 4 1 ++ le_bytes 4 1 ++ le_bytes 8 (zlen payload) ++ fp ++ pd ++ payload).
Proof. unfold w_cache. repeat (apply writes_bind; [apply writes_add|]). apply writes_add_limit. Qed.
End Writers.

(** ** Printed numbers and kinds read back *)

Lemma cached_number_snoc ds c : cached_number (ds ++ [c]) = size_t (cached_number ds * 10 + (c - ch "0")).
Proof. unfold cached_number. now rewrite fold_left_app. Qed.

Lemma decimal_loop_number fuel n acc : 0 <= n < 10 ^ Z.of_nat (S fuel) -> n < 2 ^ 64 ->
  exists ds, decimal_loop (S fuel) n acc = ds ++ acc /\ cached_number ds = n.
Proof.
  revert n acc. induction fuel as [|fuel IH]; intros n acc Hn H64; cbn [decimal_loop]; set (c := 48 + n mod 10).
  - exists [c]. assert (E : n / 10 = 0) by (apply Z.div_small; cbn in Hn; lia). rewrite E. split; [reflexivity|].
    unfold cached_number, size_t. cbn [fold_left]. subst c. rewrite Z.mod_small; pose proof (Z.div_mod n 10); lia.
  - destruct (Z.eqb_spec (n / 10) 0) as [E|E].
    + exists [c]. split; [reflexivity|]. unfold cached_number, size_t. cbn [fold_left]. subst c.
      rewrite Z.mod_small; pose proof (Z.div_mod n 10); lia.
    + assert (H10 : 0 <= n / 10 < 10 ^ Z.of_nat (S fuel)).
      { split; [apply Z.div_pos; lia|]. apply Z.div_lt_upper_bound; [lia|].
        rewrite (Nat2Z.inj_succ (S fuel)), Z.pow_succ_r in Hn by lia. lia. }
      pose proof (Z.div_mod n 10 ltac:(lia)) as Hdm. pose proof (Z.mod_pos_bound n 10 ltac:(lia)).
      destruct (IH (n / 10) (c :: acc) H10 ltac:(lia)) as (ds & Hds & Hv).
      exists (ds ++ [c]). split; [|].
      * change (decimal_loop (S fuel) (n / 10) (c :: acc) = (ds ++ [c]) ++ acc). rewrite Hds. solve_app.
      * rewrite cached_number_snoc, Hv. unfold size_t, c. rewrite Z.mod_small; lia.
Qed.

Lemma cached_number_decimal n : 0 <= n <= SIZE_MAX -> cached_number (decimal_of n) = n.
Proof.
  intros Hn. unfold SIZE_MAX in Hn. destruct (decimal_loop_number 19 n []) as (ds & Hd & Hv); [|lia|].
  - change (Z.of_nat 20) with 20. lia.
  - unfold decimal_of. rewrite Hd, app_nil_r. exact Hv.
Qed.

Lemma cached_kind_name k : cached_kind (jf_kind_name k) = k.
Proof. now destruct k. Qed.

(** ** What a successful build writes *)

(** A rule as it is after a trip through the cache: the selector, the source
    identity and the occurrence are not kept, and the mailbox is the one the
    profile gave it. *)
Definition reloaded (r : jf_rule) (mailbox : bytes) : jf_rule :=
  MkRule (kind r) (stage r) (fields r) [] (predicate r) (str "move") (logical r) (local r) mailbox
    (source r) [] (cached_number (decimal_of (line r))) 1 (id r).

(** The ranges of [unsigned stage, fields]. *)
Definition unsigned_rule (r : jf_rule) : Prop := 0 <= stage r < 2 ^ 32 /\ 0 <= fields r < 2 ^ 32.

Lemma reload_rule i k r m : unsigned_rule r -> rule (restore_entry k (rule_fields i r m)) = reloaded r m.
Proof.
  intros [Hs Hf]. unfold restore_entry, rule_fields, cfield, reloaded, to_unsigned. cbn [rule nth].
  rewrite cached_kind_name, (cached_number_decimal (stage r)), (cached_number_decimal (fields r)), !Z.mod_small
    by (unfold SIZE_MAX; lia). reflexivity.
Qed.

Lemma reload_rules i rules : Forall (fun rm => unsigned_rule rm.1) rules ->
  map rule (restored_from 0 (map snd (rule_recs i rules))) = map (fun rm => reloaded rm.1 rm.2) rules.
Proof.
  rewrite restored_from_rules, map_map. intros H. revert i.
  induction H as [|[r m] rules Hr _ IH]; intros i; cbn [rule_recs map fst snd]; [reflexivity|].
  f_equal; [now apply reload_rule|apply IH].
Qed.

Section Built.
Context `{HP : Heap}.

Lemma w_fields_small l b b' : w_fields l b = Some b' -> Forall (fun f => zlen f < 2 ^ 32) l.
Proof.
  revert b. induction l as [|s l IH]; intros b; cbn [w_fields]; [constructor|].
  rewrite bind_Some. intros (b1 & H1 & H). constructor; [|now apply IH in H].
  unfold w_field in H1. destruct (_ <? _) eqn:E; [discriminate|]. boolify. unfold UINT32_MAX in *. lia.
Qed.

Lemma w_record_framed t l b b' : w_record [t] l b = Some b' -> zlen l = field_count t -> field_count t <> 0 -> framed (t, l).
Proof.
  unfold w_record. rewrite bind_Some. intros (b1 & _ & H). rewrite bind_Some in H. destruct H as (b2 & _ & H).
  apply w_fields_small in H. now unfold framed.
Qed.

Lemma w_all_dependencies_framed l b b' : w_all_dependencies l b = Some b' -> Forall framed (map dep_record l).
Proof.
  revert b. induction l as [|d l IH]; intros b; cbn [w_all_dependencies map]; [constructor|].
  rewrite bind_Some. intros (b1 & H1 & H). constructor; [|now apply IH in H].
  now apply (w_record_framed (ch "D") _ b b1).
Qed.

Lemma w_rules_framed i l b b' : w_rules i l b = Some b' -> Forall framed (rule_recs i l).
Proof.
  revert i b. induction l as [|[r m] l IH]; intros i b; cbn [w_rules rule_recs]; [constructor|].
  rewrite bind_Some. intros (b1 & H1 & H). constructor; [|now apply IH in H].
  now apply (w_record_framed (ch "R") _ b b1).
Qed.

Lemma w_payload_framed p zd sd deps rules b b' : w_payload p zd sd deps rules b = Some b' ->
  Forall framed ((ch "M", metadata_fields p zd sd) :: map dep_record deps ++ rule_recs 0 rules).
Proof.
  unfold w_payload. rewrite bind_Some. intros (b1 & _ & H). rewrite bind_Some in H. destruct H as (b2 & H2 & H).
  rewrite bind_Some in H. destruct H as (b3 & H3 & H). constructor; [now apply (w_record_framed (ch "M") _ b1 b2)|].
  apply Forall_app. split; [now apply (w_all_dependencies_framed _ _ _ H3)|now apply (w_rules_framed _ _ _ _ H)].
Qed.

Lemma rule_recs_rules i l : List.filter is_rule (rule_recs i l) = rule_recs i l /\ length (rule_recs i l) = length l.
Proof.
  revert i. induction l as [|[r m] l IH]; intros i; [auto|]. cbn [rule_recs List.filter is_rule fst Z.eqb Pos.eqb length].
  destruct (IH (S i)) as [-> ->]. auto.
Qed.

Lemma dep_records_filter l : List.filter is_rule (map dep_record l) = [].
Proof. induction l as [|d l IH]; [reflexivity|]. exact IH. Qed.

Lemma digest_length s : length (digest_of s) = 32%nat.
Proof. unfold digest_of. rewrite jf_digest_fips by reflexivity. apply fips_digest_length. Qed.

Lemma image_payload fp payload : length fp = 32%nat -> drop 88 (cache_image fp payload) = payload.
Proof.
  intros Hf. unfold cache_image. rewrite !app_assoc. apply drop_app_length'.
  rewrite !length_app, !le_bytes_length, digest_length, Hf. reflexivity.
Qed.

(** The walk of [jf_cache_policy] over the image of framed records. *)
Lemma image_rules fp meta deps rules : length fp = 32%nat -> Forall framed ((ch "M", meta) :: deps ++ rules) ->
  1 + zlen deps + zlen rules < 2 ^ 32 ->
  let d := cache_image fp (payload_image meta deps rules) in
  rule_records (Z.to_nat (read32 (drop 88 d))) (drop 92 d) =
  map snd (List.filter is_rule deps) ++ map snd (List.filter is_rule rules).
Proof.
  intros Hf Hfr Hz d. assert (E : drop 88 d = payload_image meta deps rules) by now apply image_payload.
  change 92%nat with (88 + 4)%nat. rewrite <- drop_drop, E. unfold payload_image.
  rewrite read32_le by (unfold zlen in *; lia).
  rewrite drop_app_length' by now rewrite le_bytes_length.
  replace (Z.to_nat (1 + zlen deps + zlen rules)) with (length ((ch "M", meta) :: deps ++ rules))
    by (cbn [length]; rewrite length_app; unfold zlen; lia).
  rewrite <- (app_nil_r (enc_all _)), rule_records_encoded by exact Hfr.
  cbn [List.filter is_rule fst Z.eqb Pos.eqb]. now rewrite List.filter_app, map_app.
Qed.

Lemma or_memory_Ok {A} (o : option A) a : or_memory o = Ok a <-> o = Some a.
Proof. unfold or_memory, cache_memory, jf_product_error. destruct o; split; intros H; congruence || discriminate. Qed.

Lemma rule_mailboxes_length p rules h ms h' : rule_mailboxes p rules h = Some (ms, h') -> length ms = length rules.
Proof.
  revert h ms. induction rules as [|r rules IH]; intros h ms; cbn [rule_mailboxes]; [now intros [= <- <-]|].
  rewrite bind_Some. intros ([m h1] & _ & H). rewrite bind_Some in H. destruct H as ([ms1 h2] & H1 & H).
  injection H as <- <-. cbn. f_equal. eauto.
Qed.

(** The products of a policy, with the mailboxes [ms] its rules were given. *)
Record built (policy : jf_policy) (p : jf_profile) (deps : list jf_dependency) (prods : jf_products)
    (ms : list bytes) : Prop := MkBuilt {
  bu_mailboxes : exists h h', rule_mailboxes p (map rule (entries policy)) h = Some (ms, h');
  bu_mapping : mapping_conflict (qsort mailbox_compare (zip ms (map logical (map rule (entries policy))))) = false;
  bu_text : exists h h', jf_emit_text p (zip (map rule (entries policy)) ms) h = Ok (pr_zsh prods, pr_sieve prods, h');
  bu_fingerprint : fingerprint prods =
    digest_of (fingerprint_magic ++ enc_all (map dep_record (qsort dep_compare deps))) /\
    pr_id prods = jf_digest_hex (fingerprint prods);
  bu_framed : Forall framed ((ch "M", metadata_fields p (digest_of (contents (pr_zsh prods))) (digest_of (contents (pr_sieve prods)))) ::
    map dep_record (qsort dep_compare deps) ++ rule_recs 0 (zip (map rule (entries policy)) ms));
  bu_rules : JF_BUILTIN_RULES <= zlen (entries policy) <= JF_RULE_RECORD_MAX;
  bu_count : 1 + zlen deps + zlen (entries policy) < 2 ^ 32;
  bu_cache : contents (pr_cache prods) = cache_image (fingerprint prods)
    (payload_image (metadata_fields p (digest_of (contents (pr_zsh prods))) (digest_of (contents (pr_sieve prods))))
       (map dep_record (qsort dep_compare deps)) (rule_recs 0 (zip (map rule (entries policy)) ms)));
  bu_valid : jf_cache_validate (contents (pr_cache prods)) (Some (contents (pr_zsh prods)))
    (Some (contents (pr_sieve prods))) (Some (fingerprint prods)) = Ok tt }.

Lemma build_built policy p deps h prods h' : jf_products_build policy p deps h = Ok (prods, h') ->
  exists ms, built policy p deps prods ms.
Proof.
  unfold jf_products_build. cbv zeta. destruct (_ || _) eqn:E0; [discriminate|].
  rewrite res_bind_Ok. intros (h1 & _ & H). rewrite res_bind_Ok in H. destruct H as ([ms h2] & Hm%or_memory_Ok & H).
  destruct (mapping_conflict _) eqn:Ec; [discriminate|].
  rewrite res_bind_Ok in H. destruct H as ([[z s] h3] & Ht & H).
  rewrite res_bind_Ok in H. destruct H as (b & Hb%or_memory_Ok & H).
  destruct (w_dependencies _ _ b) as [[|]|[inv h4]] eqn:Ew; [discriminate..|].
  rewrite res_bind_Ok in H. destruct H as ([payload h5] & Hp%or_memory_Ok & H).
  rewrite res_bind_Ok in H. destruct H as (sz & _ & H).
  rewrite res_bind_Ok in H. destruct H as ([cache h6] & Hc%or_memory_Ok & H).
  rewrite res_bind_Ok in H. destruct H as ([] & Hv & H). injection H as <- <-.
  apply writes_add in Hb. apply w_dependencies_Ok in Ew. rewrite Hb in Ew. cbn [fst contents no_bytes app] in Ew.
  pose proof (w_payload_framed _ _ _ _ _ _ _ Hp) as Hfr. apply writes_payload in Hp. cbn [fst contents no_bytes app] in Hp.
  apply writes_cache in Hc. cbn [fst contents no_bytes app] in Hc.
  pose proof (rule_mailboxes_length _ _ _ _ _ Hm) as Hl.
  assert (Hcount : 1 + zlen deps + zlen (entries policy) < 2 ^ 32).
  { boolify. unfold zlen, UINT32_MAX in *. rewrite length_map in *. lia. }
  assert (Hn : JF_BUILTIN_RULES <= zlen (entries policy) <= JF_RULE_RECORD_MAX).
  { boolify. unfold zlen in *. rewrite length_map in *. lia. }
  exists ms. split; cbn [pr_zsh pr_sieve pr_cache fingerprint pr_id]; eauto.
  - now rewrite Ew.
  - rewrite Hc. unfold cache_image.
    assert (Hpi : contents payload = payload_image (metadata_fields p (digest_of (contents z)) (digest_of (contents s)))
      (map dep_record (qsort dep_compare deps)) (rule_recs 0 (zip (map rule (entries policy)) ms))); [|now rewrite <- Hpi].
    rewrite Hp. unfold payload_image. do 2 f_equal.
    assert (Hz : zlen (map dep_record (qsort dep_compare deps)) = zlen deps)
      by (unfold zlen; now rewrite length_map, (qsort_perm dep_compare deps)).
    assert (Hr : zlen (rule_recs 0 (zip (map rule (entries policy)) ms)) = zlen (entries policy)).
    { unfold zlen. rewrite (proj2 (rule_recs_rules 0 _)), length_zip, Hl, length_map. lia. }
    rewrite Hz, Hr. unfold u32. rewrite Z.mod_small.
    + f_equal; [f_equal; unfold zlen; now rewrite (qsort_perm dep_compare deps)|].
      unfold zlen. rewrite length_zip, Hl, length_map. lia.
    + unfold zlen in *. rewrite length_zip, Hl, length_map, (qsort_perm dep_compare deps). lia.
Qed.
End Built.

(** ** Theorems *)

Lemma check_metadata_weaken i zo so f v v' : check_metadata i zo so f v = Some v' -> check_metadata i None None f v = Some v'.
Proof. unfold check_metadata. cbv zeta. pass_guard. pass_guard. cbn [digest_is negb orb]. auto. Qed.

Lemma validate_records_weaken zo so count i n s v r : validate_records zo so count i n s v = Some r ->
  validate_records None None count i n s v = Some r.
Proof.
  revert i s v. induction n as [|n IH]; intros i s v; cbn [validate_records]; [auto|].
  destruct (read_record s) as [[[tag f] rest]|]; [|discriminate]. rewrite !bind_Some. intros (v1 & H1 & H).
  exists v1. split; [|auto]. destruct (tag =? ch "M"); [now apply check_metadata_weaken in H1|exact H1].
Qed.

Lemma validate_weaken d zo so fp : jf_cache_validate d zo so fp = Ok tt -> jf_cache_validate d None None None = Ok tt.
Proof.
  unfold jf_cache_validate. destruct (validate_header d fp) eqn:Eh; [|discriminate]. cbn [negb].
  assert (Eh' : validate_header d None = true).
  { unfold validate_header in *. destruct fp as [fp|]; [|exact Eh]. destruct (streq fp _); [exact Eh|].
    rewrite !andb_false_r in Eh. discriminate. }
  rewrite Eh'. cbn [negb]. cbv zeta. destruct (validate_records zo so _ _ _ _ _) as [[v rest]|] eqn:E; [|discriminate].
  apply validate_records_weaken in E. now rewrite E.
Qed.

Section Theorems.
Context `{AL : Allocator} `{RX : PosixRegex} `{HP : Heap}.

Lemma cache_policy_Ok d h pol : jf_cache_policy (Some (View d)) h = Ok pol ->
  jf_cache_validate d None None None = Ok tt /\
  jf_policy_restore (rule_records (Z.to_nat (read32 (drop 88 d))) (drop 92 d)) = Ok pol.
Proof.
  unfold jf_cache_policy, missing. cbn [view_null]. rewrite andb_false_r. cbv zeta. cbn [view_list].
  rewrite res_bind_Ok. intros ([] & Hv & H). destruct (mallocs 1 h); [|discriminate]. auto.
Qed.

Lemma tags_filter (l : list record) : Forall (fun r => is_dep r = true) l -> List.filter is_rule l = [].
Proof.
  induction 1 as [|[t f] l H _ IH]; [reflexivity|]. unfold is_dep in H. cbn [fst] in H. apply Z.eqb_eq in H as ->. exact IH.
Qed.

Lemma rules_filter (l : list record) : Forall (fun r => is_rule r = true) l -> List.filter is_rule l = l.
Proof. induction 1 as [|r l H _ IH]; [reflexivity|]. cbn [List.filter]. now rewrite H, IH. Qed.

Lemma validated_rules d meta deps rules : validated d meta deps rules ->
  rule_records (Z.to_nat (read32 (drop 88 d))) (drop 92 d) = map snd rules.
Proof.
  intros Hv. rewrite (va_image _ _ _ _ Hv) at 1 2.
  rewrite image_rules; [|apply digest_length|apply (va_framed _ _ _ _ Hv)|apply (va_count _ _ _ _ Hv)].
  destruct (va_tags _ _ _ _ Hv) as [Hd Hr]. now rewrite tags_filter, rules_filter.
Qed.

(** C13. The bytes the validator accepts are exactly one encoding: a header with
    the version, the payload length and two digests, one metadata record, the
    dependencies in strictly increasing key order with the fingerprint over
    them, then the rules numbered from one in nondecreasing stages, each of the
    canonical shape of its kind, with one bounce, one spam and one final
    unconditional rule.  Nothing is left over and no other byte is free. *)
Theorem cache_canonical d zsh sieve fp :
  bytes_ok d -> jf_cache_validate d zsh sieve fp = Ok tt ->
  exists meta deps rules, validated d meta deps rules.
Proof. apply validate_validated. Qed.

(** C22. A policy loaded from a cache is well formed: the cache is a valid one,
    its rules are the R records in their order, the matching index and the three
    builtin positions describe them, every rule has the canonical shape of its
    kind with safe destinations, the stages do not decrease, and exactly the
    regular expressions are compiled. *)
Theorem cache_policy_well_formed d h pol :
  bytes_ok d -> jf_cache_policy (Some (View d)) h = Ok pol ->
  exists meta deps rules, validated d meta deps rules /\ indexed pol /\
    map rule (entries pol) = map (fun r => rule (restore_entry 0 r.2)) rules /\
    Forall (fun e => cached_shape (rule e) /\ compiled e = bool_decide (kind (rule e) = JF_ERE)) (entries pol) /\
    StronglySorted Z.le (map (fun e => stage (rule e)) (entries pol)).
Proof.
  intros Hd [Hv Hr]%cache_policy_Ok. apply validate_validated in Hv as (meta & deps & rules & Hv); [|exact Hd].
  rewrite (validated_rules _ _ _ _ Hv) in Hr. destruct (validated_indexed _ _ _ _ _ Hv Hr) as [Hi He].
  assert (Hm : map rule (entries pol) = map (fun r => rule (restore_entry 0 r.2)) rules)
    by now rewrite He, restored_from_rules, map_map.
  exists meta, deps, rules. split_and!; auto.
  - apply Forall_forall. intros e [k Hk]%list_elem_of_lookup. rewrite He, restored_from_lookup, list_lookup_fmap in Hk.
    destruct (rules !! k) as [r|] eqn:Er; [|discriminate]. cbn in Hk. injection Hk as <-.
    destruct (restored_rule k r.2) as (-> & _ & Hc). split; [|exact Hc].
    pose proof (va_shapes _ _ _ _ Hv) as Hs. rewrite Forall_forall in Hs. apply Hs.
    apply list_elem_of_lookup. eauto.
  - rewrite <- (map_map rule stage), Hm, map_map. exact (va_stages _ _ _ _ Hv).
Qed.

Lemma zip_map_fst {A B} (l : list A) (m : list B) : length m = length l -> map fst (zip l m) = l.
Proof. revert m. induction l as [|x l IH]; intros [|y m]; cbn; intros H; try discriminate; f_equal; auto. Qed.

Lemma built_restore policy p deps prods ms : built policy p deps prods ms ->
  rule_records (Z.to_nat (read32 (drop 88 (contents (pr_cache prods))))) (drop 92 (contents (pr_cache prods))) =
  map snd (rule_recs 0 (zip (map rule (entries policy)) ms)).
Proof.
  intros Hb. rewrite (bu_cache _ _ _ _ _ Hb) at 1 2. destruct (bu_mailboxes _ _ _ _ _ Hb) as (h1 & h2 & Hm).
  apply rule_mailboxes_length in Hm. rewrite length_map in Hm.
  rewrite image_rules.
  - now rewrite dep_records_filter, (proj1 (rule_recs_rules 0 _)).
  - rewrite (proj1 (bu_fingerprint _ _ _ _ _ Hb)). apply digest_length.
  - apply (bu_framed _ _ _ _ _ Hb).
  - pose proof (bu_count _ _ _ _ _ Hb). unfold zlen in *.
    rewrite (proj2 (rule_recs_rules 0 _)), length_zip, !length_map, Hm, (qsort_perm dep_compare deps). lia.
Qed.

End Theorems.

(** ** Loading succeeds and decides alike *)

Section Load.
Context `{RX : PosixRegex}.

Definition loadable (f : jf_cached_rule) : Prop :=
  cached_kind (cfield f 2) = JF_ERE -> uselocale_ok = true /\ regcomp (cfield f 5) = RegCompiled.

Lemma restore_loop_total i records pol : Forall loadable records ->
  exists pol', restore_loop (AL:=ample) i records pol = Ok pol'.
Proof.
  intros H. revert i pol. induction H as [|f t Hf _ IH]; intros i pol; cbn [restore_loop]; [eauto|].
  destruct (allocates (AL:=ample) 7 pol) as [p1|] eqn:E; [|discriminate].
  unfold loadable in Hf. cbn [restore_entry rule kind predicate]. case_bool_decide as Hk; [|cbn; apply IH].
  destruct (Hf Hk) as [-> ->]. cbn. apply IH.
Qed.

Lemma allocates_granted n pol : allocates (AL:=ample) n pol <> None.
Proof. revert pol. induction n as [|n IH]; intros pol; cbn; [discriminate|apply IH]. Qed.

Lemma restore_total records : JF_BUILTIN_RULES <= zlen records <= JF_RULE_RECORD_MAX -> newlocale_ok = true ->
  Forall loadable records -> exists pol, jf_policy_restore (AL:=ample) records = Ok pol.
Proof.
  intros Hn Hnl Hl. unfold jf_policy_restore. cbv zeta.
  destruct (_ || _) eqn:E; [boolify; apply orb_true_iff in E as [E|E]; boolify; lia|].
  cbn [allocate alloc_ok ample]. rewrite Hnl. cbn [negb].
  match goal with |- context [restore_loop 0 records ?p0] => destruct (restore_loop_total 0 records p0 Hl) as [p1 ->] end.
  cbn [mbind res_bind]. unfold jf_policy_build_index. destruct (builtins_loop _ _ _ _ _) as [[b s] f].
  destruct (allocates (AL:=ample) _ p1) as [p2|] eqn:Ea; [eauto|].
  now apply allocates_granted in Ea.
Qed.

Lemma final_unsigned e : final_entry e -> unsigned_rule (rule e).
Proof.
  unfold unsigned_rule. intros [[Hu|(r & Hr & E)] _].
  - destruct (user_bounds _ Hu). lia.
  - rewrite E. cbn [stage fields].
    repeat (apply elem_of_cons in Hr as [->|Hr]; [split; split; easy|]). now apply elem_of_nil in Hr.
Qed.

Lemma rule_recs_fields i rules f : f ∈ map snd (rule_recs i rules) ->
  exists k r m, (r, m) ∈ rules /\ f = rule_fields k r m.
Proof.
  revert i. induction rules as [|[r m] rules IH]; intros i; cbn [rule_recs map]; [intros H; now apply elem_of_nil in H|].
  intros [->|H]%elem_of_cons; [exists i, r, m; split; [left|reflexivity]|].
  destruct (IH _ H) as (k & r' & m' & Hin & ->). exists k, r', m'. split; [now right|reflexivity].
Qed.

Lemma reloaded_matching (rules : list jf_rule) (ms : list bytes) : length ms = length rules ->
  map (fun r => (kind r, fields r, predicate r)) (map (fun rm => reloaded rm.1 rm.2) (zip rules ms)) =
  map (fun r => (kind r, fields r, predicate r)) rules.
Proof.
  revert ms. induction rules as [|r rules IH]; intros [|m ms] H; try discriminate; [reflexivity|].
  cbn [zip zip_with map]. f_equal. now apply IH; injection H.
Qed.

Lemma built_loadable `{HP : Heap} policy p deps prods ms : built policy p deps prods ms ->
  Forall ere_accepted (entries policy) ->
  Forall loadable (map snd (rule_recs 0 (zip (map rule (entries policy)) ms))).
Proof.
  intros Hb Ha. apply Forall_forall. intros f (k & r & m & Hin & ->)%rule_recs_fields.
  unfold loadable, rule_fields, cfield. cbn [nth]. rewrite cached_kind_name. intros Hk.
  apply elem_of_zip_l in Hin. apply list_elem_of_fmap in Hin as (e & -> & He).
  rewrite Forall_forall in Ha. exact (Ha e He Hk).
Qed.
End Load.

(** With enough memory and the regular expressions the policy was parsed with,
    the cache of a build loads. *)
Lemma built_loads `{HP : Heap} `{RX : PosixRegex} policy p deps prods ms : built policy p deps prods ms ->
  newlocale_ok = true -> Forall ere_accepted (entries policy) ->
  exists pol2, jf_cache_policy (HP:=granting) (AL:=ample) (Some (View (contents (pr_cache prods)))) 0 = Ok pol2.
Proof.
  intros Hb Hnl Ha. pose proof (validate_weaken _ _ _ _ (bu_valid _ _ _ _ _ Hb)) as Hv.
  destruct (bu_mailboxes _ _ _ _ _ Hb) as (h1 & h2 & Hm). apply rule_mailboxes_length in Hm as Hlen.
  destruct (restore_total (map snd (rule_recs 0 (zip (map rule (entries policy)) ms)))) as [pol2 H2].
  - pose proof (bu_rules _ _ _ _ _ Hb). unfold zlen in *.
    rewrite length_map, (proj2 (rule_recs_rules 0 _)), length_zip, Hlen, length_map. lia.
  - exact Hnl.
  - now apply (built_loadable _ _ _ _ _ Hb).
  - exists pol2. unfold jf_cache_policy, missing. cbn [view_null]. rewrite andb_false_r. cbn [view_list]. rewrite Hv.
    cbn [mbind res_bind mallocs malloc_ok granting]. now rewrite (built_restore _ _ _ _ _ Hb).
Qed.

(** What a loaded cache holds, in terms of the policy it was built from. *)
Lemma built_loaded `{HP : Heap} `{HP2 : Heap} `{AL : Allocator} `{RX : PosixRegex} policy p deps prods ms h2 pol2 :
  built (HP:=HP) policy p deps prods ms ->
  Forall (fun e => unsigned_rule (rule e)) (entries policy) -> bytes_ok (contents (pr_cache prods)) ->
  jf_cache_policy (HP:=HP2) (Some (View (contents (pr_cache prods)))) h2 = Ok pol2 ->
  indexed pol2 /\ length ms = length (map rule (entries policy)) /\
  map rule (entries pol2) = map (fun rm => reloaded rm.1 rm.2) (zip (map rule (entries policy)) ms).
Proof.
  intros Hb Hu Hd Hc. apply cache_policy_Ok in Hc as [Hv Hr].
  pose proof (validate_validated _ _ _ _ Hd Hv) as (meta & ds & rules & Hval).
  rewrite (validated_rules _ _ _ _ Hval) in Hr.
  destruct (validated_indexed _ _ _ _ _ Hval Hr) as [Hi He]. split; [exact Hi|].
  destruct (bu_mailboxes _ _ _ _ _ Hb) as (h3 & h4 & Hm). apply rule_mailboxes_length in Hm. split; [exact Hm|].
  rewrite He, <- (validated_rules _ _ _ _ Hval), (built_restore _ _ _ _ _ Hb). apply reload_rules.
  apply (Forall_map fst unsigned_rule). rewrite zip_map_fst by exact Hm. now apply Forall_map.
Qed.

(** C21. The cache is a faithful copy of the policy: loading the cache of a
    successful build gives the same rules in the same order, each with the
    mailbox the profile maps it to, and a working index. *)
Theorem cache_roundtrip `{AL : Allocator} `{RX : PosixRegex} `{HP : Heap} policy p deps h prods h' h2 pol2 :
  Forall (fun e => unsigned_rule (rule e)) (entries policy) ->
  jf_products_build policy p deps h = Ok (prods, h') -> bytes_ok (contents (pr_cache prods)) ->
  jf_cache_policy (Some (View (contents (pr_cache prods)))) h2 = Ok pol2 ->
  indexed pol2 /\ exists ms h3 h4, rule_mailboxes p (map rule (entries policy)) h3 = Some (ms, h4) /\
    map rule (entries pol2) = map (fun rm => reloaded rm.1 rm.2) (zip (map rule (entries policy)) ms).
Proof.
  intros Hu Hb Hd Hc. apply build_built in Hb as [ms Hb].
  destruct (built_loaded _ _ _ _ _ _ _ Hb Hu Hd Hc) as (Hi & _ & Hr). split; [exact Hi|].
  destruct (bu_mailboxes _ _ _ _ _ Hb) as (h3 & h4 & Hm). now exists ms, h3, h4.
Qed.

(** C12. A compiled generation decides like the sources: when the sources parse
    and the products build, loading the cache succeeds with enough memory, and
    the loaded policy gives every message the result of the parsed one, the
    same winner, the same errors and the same number of comparisons. *)
Theorem cache_classifies `{AL : Allocator} `{RX : PosixRegex} `{HP : Heap} sources pol p deps h prods h' :
  sources_bytes sources -> jf_policy_parse sources = Ok pol ->
  jf_products_build pol p deps h = Ok (prods, h') -> bytes_ok (contents (pr_cache prods)) ->
  exists pol2, jf_cache_policy (HP:=granting) (AL:=ample) (Some (View (contents (pr_cache prods)))) 0 = Ok pol2 /\
    forall m, jf_policy_classify (Some pol2) m = jf_policy_classify (Some pol) m.
Proof.
  intros Hs Hp Hb Hd. apply parse_complete in Hp as (Hnl & Ha & es & Hc & Hi & He); [|exact Hs].
  apply build_built in Hb as [ms Hb]. destruct (built_loads _ _ _ _ _ Hb Hnl Ha) as [pol2 Hl].
  exists pol2. split; [exact Hl|]. intros m.
  assert (Hu : Forall (fun e => unsigned_rule (rule e)) (entries pol)).
  { rewrite He. eapply Forall_impl; [exact (resolved_final _ Hc)|]. apply final_unsigned. }
  destruct (built_loaded _ _ _ _ _ _ _ Hb Hu Hd Hl) as (Hi2 & Hlen & Hr).
  apply classify_congruence; [|exact Hi2|exact Hi]. unfold matching.
  rewrite <- (map_map rule (fun r => (kind r, fields r, predicate r))), Hr.
  rewrite <- (map_map rule (fun r => (kind r, fields r, predicate r)) (entries pol)).
  now apply reloaded_matching.
Qed.

(** ** Mailboxes and fingerprints *)

#[export] Instance mailbox_comparator : Comparator mailbox_compare.
Proof. unfold mailbox_compare. solve_comparator. Qed.

#[export] Instance dep_comparator : Comparator dep_compare.
Proof. unfold dep_compare. solve_comparator. Qed.

Lemma mailbox_between x y z : cmp_le mailbox_compare x y -> cmp_le mailbox_compare y z -> x.1 = z.1 -> y.1 = x.1.
Proof.
  unfold cmp_le, mailbox_compare. intros H1 H2 E. rewrite E in *.
  destruct (strcmp z.1 y.1) eqn:E1; cbn [cmp_then] in H1.
  - apply strcmp_eq in E1. congruence.
  - rewrite (cmp_sym (cmp:=strcmp) z.1 y.1), E1 in H2. now cbn in H2.
  - easy.
Qed.

Lemma no_conflict l : StronglySorted (cmp_le mailbox_compare) l -> mapping_conflict l = false ->
  forall x y, x ∈ l -> y ∈ l -> x.1 = y.1 -> x.2 = y.2.
Proof.
  intros Hs Hc.
  assert (Hhead : forall x y l', StronglySorted (cmp_le mailbox_compare) (x :: l') -> mapping_conflict (x :: l') = false ->
    y ∈ l' -> x.1 = y.1 -> x.2 = y.2).
  { clear. intros x y l'. revert x. induction l' as [|z l' IH]; intros x Hs Hc Hy E; [now apply elem_of_nil in Hy|].
    inversion Hs as [|? ? Hs' Hx]; subst. cbn [mapping_conflict] in Hc. apply orb_false_iff in Hc as [Hxz Hc].
    rewrite Forall_cons in Hx. destruct Hx as [Hxz' Hx].
    assert (Hz : z.1 = x.1).
    { apply elem_of_cons in Hy as [->|Hy]; [congruence|]. apply (mailbox_between x z y); [exact Hxz'| |exact E].
      inversion Hs' as [|? ? _ Hz]; subst. rewrite Forall_forall in Hz. auto. }
    rewrite Hz, streq_refl in Hxz. cbn [andb] in Hxz. apply negb_false_iff, streq_spec in Hxz. rewrite Hxz.
    apply elem_of_cons in Hy as [->|Hy]; [reflexivity|]. apply IH; auto. congruence. }
  induction Hs as [|x l Hs IH Hx]; intros a b Ha Hb E; [now apply elem_of_nil in Ha|].
  assert (Hsx : StronglySorted (cmp_le mailbox_compare) (x :: l)) by now constructor.
  assert (Hc' : mapping_conflict l = false).
  { destruct l as [|y l]; [reflexivity|]. cbn [mapping_conflict] in Hc. now apply orb_false_iff in Hc. }
  apply elem_of_cons in Ha as [->|Ha], Hb as [->|Hb]; auto.
  - now apply (Hhead x b l).
  - symmetry. now apply (Hhead x a l).
Qed.

(** The mailbox mapping is injective on destinations: after a successful
    build two rules share a Sieve mailbox only if they have the same logical
    destination, and each mailbox is the one the profile gives its rule. *)
Theorem mailboxes_distinct `{HP : Heap} policy p deps h prods h' :
  jf_products_build policy p deps h = Ok (prods, h') ->
  exists ms h1 h2, rule_mailboxes p (map rule (entries policy)) h1 = Some (ms, h2) /\
    forall i j mi mj ri rj, ms !! i = Some mi -> ms !! j = Some mj ->
      map rule (entries policy) !! i = Some ri -> map rule (entries policy) !! j = Some rj ->
      mi = mj -> logical ri = logical rj.
Proof.
  intros [ms Hb]%build_built. destruct (bu_mailboxes _ _ _ _ _ Hb) as (h1 & h2 & Hm). exists ms, h1, h2. split; [exact Hm|].
  intros i j mi mj ri rj Hi Hj Hri Hrj ->.
  assert (Hin : forall k m r, ms !! k = Some m -> map rule (entries policy) !! k = Some r ->
    (m, logical r) ∈ qsort mailbox_compare (zip ms (map logical (map rule (entries policy))))).
  { intros k m r H1 H2. rewrite (qsort_perm mailbox_compare). apply list_elem_of_lookup. exists k.
    rewrite lookup_zip_with, H1. cbn. now rewrite list_lookup_fmap, H2. }
  apply (no_conflict _ (qsort_sorted mailbox_compare _) (bu_mapping _ _ _ _ _ Hb) (mj, logical ri) (mj, logical rj)); auto.
  - now apply (Hin i).
  - now apply (Hin j).
Qed.

Lemma w_dependencies_strict `{HP : Heap} prev l b b' : w_dependencies prev l b = inr b' ->
  StronglySorted (cmp_le dep_compare) l ->
  StronglySorted (fun x y => dep_compare x y = Lt) l /\ Forall (fun d => role d <> []) l /\
  match prev, l with Some x, d :: _ => dep_compare x d <> Eq | _, _ => True end.
Proof.
  intros H Hs. revert prev b H. induction Hs as [|d l Hs IH Hd]; intros prev b; cbn [w_dependencies].
  { intros _. split_and!; [constructor|constructor|now destruct prev]. }
  destruct (_ || _) eqn:E; [discriminate|]. apply orb_false_iff in E as [E1 E2].
  destruct (w_dependency d b) as [b1|]; [|discriminate]. intros H. apply IH in H as (H1 & H2 & H3).
  split_and!.
  - constructor; [exact H1|]. destruct l as [|y l]; [constructor|].
    rewrite Forall_cons in Hd. destruct Hd as [Hy _]. unfold cmp_le in Hy.
    assert (Hlt : dep_compare d y = Lt) by (destruct (dep_compare d y); easy).
    constructor; [exact Hlt|]. inversion H1 as [|? ? _ Hl]; subst. eapply Forall_impl; [exact Hl|].
    intros z Hz. now apply (cmp_lt_trans _ y).
  - constructor; [|exact H2]. intros E. now rewrite E in E1.
  - destruct prev as [x|]; [|exact I]. intros E. now rewrite E in E2.
Qed.

(** The generation identity does not depend on the order in which the
    dependencies were collected: when it is defined, every permutation of them
    has the same fingerprint, the digest of the records in key order, and no
    role is empty and no key repeated. *)
Theorem fingerprint_order `{HP : Heap} deps deps' h d h' :
  jf_dependencies_fingerprint deps h = inr (d, h') -> deps ≡ₚ deps' ->
  jf_dependencies_fingerprint deps' h = inr (d, h') /\
  d = digest_of (fingerprint_magic ++ enc_all (map dep_record (qsort dep_compare deps))) /\
  Forall (fun d => role d <> []) deps /\
  StronglySorted (fun x y => dep_compare x y = Lt) (qsort dep_compare deps).
Proof.
  intros H Hp. pose proof H as H0. unfold jf_dependencies_fingerprint in H0.
  destruct (_ <? _); [discriminate|]. destruct (mallocs 1 h) as [h1|]; [|discriminate].
  destruct (jf_bytes_add _ _) as [b|] eqn:Eb; [|discriminate].
  destruct (w_dependencies _ _ b) as [[|]|[b1 h2]] eqn:Ew; [discriminate..|]. injection H0 as <- <-.
  destruct (w_dependencies_strict _ _ _ _ Ew (qsort_sorted dep_compare deps)) as (Hs & Hr & _).
  apply writes_add in Eb. apply w_dependencies_Ok in Ew. rewrite Eb in Ew. cbn [fst contents no_bytes app] in Ew.
  rewrite (qsort_perm dep_compare) in Hr. split_and!; [|now rewrite Ew|exact Hr|exact Hs].
  assert (Eq : qsort dep_compare deps' = qsort dep_compare deps).
  { symmetry. apply (qsort_unique dep_compare).
    - intros x y Hx Hy E. rewrite <- Hp, <- (qsort_perm dep_compare deps) in Hx, Hy.
      apply list_elem_of_lookup in Hx as [i Hi], Hy as [j Hj].
      destruct (Nat.lt_total i j) as [Hij|[->|Hij]]; [|congruence|].
      + pose proof (sorted_lookup _ _ _ _ _ _ Hs Hi Hj Hij). cbv beta in *. congruence.
      + pose proof (sorted_lookup _ _ _ _ _ _ Hs Hj Hi Hij) as Hlt. cbv beta in Hlt.
        rewrite (cmp_sym (cmp:=dep_compare) x y), E in Hlt. discriminate.
    - apply qsort_sorted. exact _.
    - now rewrite (qsort_perm dep_compare deps). }
  rewrite <- H. unfold jf_dependencies_fingerprint, zlen. now rewrite Eq, (Permutation_length Hp).
Qed.

(** *** An example: a policy with one contact, compiled and loaded *)

Definition normalization_dependency : jf_dependency :=
  MkDependency (str "config.address-normalization") [] true (digest_of JF_ADDRESS_NORMALIZATION) JF_ADDRESS_NORMALIZATION.
Definition contact_dependency : jf_dependency := MkDependency (str "input") (str "contacts") false [] [].

Definition contact_sources : view source_arg :=
  View [MkSourceArg 3 (Some (str "known")) (Some (str "contacts")) (View (str "a@b.org"))].

Definition compile (parsed : res jf_policy) (build : jf_policy -> res (jf_products * nat)) :
    res (jf_policy * jf_products) :=
  pol ← parsed; '(prods, _) ← build pol; Ok (pol, prods).

Definition usable (r : res (jf_policy * jf_products)) : bool :=
  match r with
  | Ok (_, prods) => forallb (fun c => (0 <=? c) && (c <? 256)) (contents (pr_cache prods))
  | Fail _ _ => false
  end.

Lemma usable_parts parsed build : usable (compile parsed build) = true ->
  exists pol prods h', parsed = Ok pol /\ build pol = Ok (prods, h') /\ bytes_ok (contents (pr_cache prods)).
Proof.
  unfold compile, usable. destruct parsed as [pol|rc e]; [|discriminate]. cbn [mbind res_bind].
  destruct (build pol) as [[prods h']|rc e] eqn:E; [|discriminate]. cbn [mbind res_bind]. intros H.
  exists pol, prods, h'. split_and!; auto.
  apply Forall_forall. intros c Hc%list_elem_of_In. rewrite forallb_forall in H. specialize (H c Hc).
  unfold is_byte. boolify. lia.
Qed.

Abbreviation parsed_contacts := (jf_policy_parse (AL:=ample) (RX:=fixed_strings) contact_sources).
Abbreviation build_contacts := (fun pol =>
  jf_products_build (HP:=granting) pol sample_profile [contact_dependency; normalization_dependency] 0).

Lemma contacts_usable : usable (compile parsed_contacts build_contacts) = true.
Proof. vm_cast_no_check (eq_refl true). Qed.

Lemma contacts_bytes : sources_bytes contact_sources.
Proof. vm_compute; repeat constructor; discriminate. Qed.

(** The sample cache loads. *)
Lemma loaded_contacts : exists pol prods h' pol2, parsed_contacts = Ok pol /\
  Forall (fun e => unsigned_rule (rule e)) (entries pol) /\
  build_contacts pol = Ok (prods, h') /\ bytes_ok (contents (pr_cache prods)) /\
  jf_cache_validate (contents (pr_cache prods)) None None None = Ok tt /\
  jf_cache_policy (HP:=granting) (AL:=ample) (RX:=fixed_strings) (Some (View (contents (pr_cache prods)))) 0 = Ok pol2.
Proof.
  destruct (usable_parts _ _ contacts_usable) as (pol & prods & h' & Hp & Hb & Hd).
  pose proof (parse_complete _ _ contacts_bytes Hp) as (Hnl & Ha & es & Hc & _ & He).
  destruct (build_built _ _ _ _ _ _ Hb) as [ms Hb'].
  destruct (built_loads _ _ _ _ _ Hb' Hnl Ha) as [pol2 Hl].
  exists pol, prods, h', pol2. split_and!; auto.
  - rewrite He. eapply Forall_impl; [exact (resolved_final _ Hc)|]. apply final_unsigned.
  - exact (validate_weaken _ _ _ _ (bu_valid _ _ _ _ _ Hb')).
Qed.

Lemma cache_canonical_witness : exists d, jf_cache_validate d None None None = Ok tt /\
  exists meta deps rules, validated d meta deps rules.
Proof.
  destruct loaded_contacts as (pol & prods & h' & pol2 & _ & _ & _ & Hd & Hv & _).
  exists (contents (pr_cache prods)). split; [exact Hv|]. exact (cache_canonical _ None None None Hd Hv).
Defined.

Lemma cache_policy_well_formed_witness : exists d pol,
  jf_cache_policy (HP:=granting) (AL:=ample) (RX:=fixed_strings) (Some (View d)) 0 = Ok pol /\ indexed pol.
Proof.
  destruct loaded_contacts as (pol & prods & h' & pol2 & _ & _ & _ & Hd & _ & Hl).
  destruct (cache_policy_well_formed _ _ _ Hd Hl) as (meta & deps & rules & _ & Hi & _). eauto.
Defined.

Lemma cache_roundtrip_witness : exists pol prods h' pol2 ms, parsed_contacts = Ok pol /\ build_contacts pol = Ok (prods, h') /\
  map rule (entries pol2) = map (fun rm => reloaded rm.1 rm.2) (zip (map rule (entries pol)) ms).
Proof.
  destruct loaded_contacts as (pol & prods & h' & pol2 & Hp & Hu & Hb & Hd & _ & Hl).
  destruct (cache_roundtrip _ _ _ _ _ _ _ _ Hu Hb Hd Hl) as (_ & ms & _ & _ & _ & Hr).
  exists pol, prods, h', pol2, ms. auto.
Defined.

Lemma cache_classifies_witness : exists pol pol2, parsed_contacts = Ok pol /\
  forall m, jf_policy_classify (RX:=fixed_strings) (Some pol2) m = jf_policy_classify (RX:=fixed_strings) (Some pol) m.
Proof.
  destruct loaded_contacts as (pol & prods & h' & _ & Hp & _ & Hb & Hd & _).
  destruct (cache_classifies _ _ _ _ _ _ _ contacts_bytes Hp Hb Hd) as (pol2 & _ & H). eauto.
Defined.

Lemma mailboxes_distinct_witness : exists pol (ms : list bytes), parsed_contacts = Ok pol /\
  forall i j m ri rj, ms !! i = Some m -> ms !! j = Some m ->
    map rule (entries pol) !! i = Some ri -> map rule (entries pol) !! j = Some rj -> logical ri = logical rj.
Proof.
  destruct loaded_contacts as (pol & prods & h' & _ & Hp & _ & Hb & _).
  destruct (mailboxes_distinct _ _ _ _ _ _ Hb) as (ms & _ & _ & _ & H). exists pol, ms. split; [exact Hp|].
  intros i j m ri rj Hi Hj Hri Hrj. exact (H i j m m ri rj Hi Hj Hri Hrj eq_refl).
Defined.

Definition is_digest (r : Z + bytes * nat) : bool := match r with inr _ => true | inl _ => false end.

Lemma fingerprint_order_witness :
  let l := [contact_dependency; normalization_dependency] in
  exists r, jf_dependencies_fingerprint (HP:=granting) l 0 = inr r /\
    jf_dependencies_fingerprint (HP:=granting) (rev l) 0 = inr r.
Proof.
  cbv zeta.
  assert (Hok : is_digest (jf_dependencies_fingerprint (HP:=granting) [contact_dependency; normalization_dependency] 0) = true)
    by (vm_compute; reflexivity).
  destruct (jf_dependencies_fingerprint (HP:=granting) [contact_dependency; normalization_dependency] 0) as [rc|[d h]] eqn:E;
    [discriminate|].
  exists (d, h). split; [reflexivity|].
  apply (fingerprint_order (HP:=granting) _ (rev [contact_dependency; normalization_dependency]) _ _ _ E).
  apply (Permutation_rev [contact_dependency; normalization_dependency]).
Defined.
