(* ===== verification/Rfc822.v ===== *)
(** * Bounded address parsing (src/rfc822.c)

    The comment and quote lexers shared with the legacy list parser, and the
    bounded extraction of the mailboxes of an address field. *)
From S2P Require Import Prelude.

Definition RFC822_BOUNDED_SYNTAX : Z := 1.
Definition RFC822_BOUNDED_LIMIT : Z := 2.
Definition RFC822_BOUNDED_EMIT : Z := 3.

(** A pointer into the input is the rest of the string from it on; a pointer
    comparison [s < end] of two rests compares their lengths. *)
Definition before (s e : bytes) : bool := (length e <? length s)%nat.

(** A byte stored while the length is below the maximum. *)
Definition put (c : Z) (max : nat) (buf : bytes) : bytes :=
  if (length buf <? max)%nat then buf ++ [c] else buf.

(** The loop while the level is positive; the rest of the string when the comment is
    closed, with the collected text. *)
Fixpoint parse_comment (level : nat) (s : bytes) (comment : bytes) (max : nat) : option (bytes * bytes) :=
  match s with
  | [] => None
  | c :: t =>
      if c =? ch "(" then parse_comment (S level) t (put c max comment) max
      else if c =? ch ")" then
        match level with
        | S (S _ as level') => parse_comment level' t (put c max comment) max
        | _ => Some (t, comment)
        end
      else if c =? BSL then
        match t with
        | [] => None
        | d :: t' => parse_comment level t' (put d max comment) max
        end
      else parse_comment level t (put c max comment) max
  end.

Fixpoint quote_body (s : bytes) (token : bytes) (max : nat) : option (bytes * bytes) :=
  match s with
  | [] => None
  | c :: t =>
      let token := put c max token in
      if c =? DQ then Some (t, token)
      else if c =? BSL then
        match t with
        | [] => None
        | d :: t' => quote_body t' (put d max token) max
        end
      else quote_body t token max
  end.

Definition parse_quote (s : bytes) (token : bytes) (max : nat) : option (bytes * bytes) :=
  quote_body s (put DQ max token) max.

(** *** Whitespace and comments *)

Fixpoint cfws_loop (fuel : nat) (s : bytes) : option bytes :=
  match fuel with
  | O => None
  | S fuel' =>
      match drop_while is_blank s with
      | c :: t =>
          if c =? ch "(" then '(r, _) ← parse_comment 1 t [] 0; cfws_loop fuel' r
          else Some (c :: t)
      | [] => Some []
      end
  end.
Definition bounded_cfws (s : bytes) : option bytes := cfws_loop (S (length s)) s.

Definition atext_specials : bytes := str "!#$%&'*+-/=?^_`{|}~".
Definition bounded_atext (c : Z) : bool :=
  (128 <=? c) || ((ch "a" <=? c) && (c <=? ch "z")) || ((ch "A" <=? c) && (c <=? ch "Z")) ||
  ((ch "0" <=? c) && (c <=? ch "9")) || (negb (c =? 0) && mem c atext_specials).

(** *** The end of an item *)

Fixpoint boundary_loop (fuel : nat) (s : bytes) (capacity : nat) : option bytes :=
  match fuel with
  | O => None
  | S fuel' =>
      match s with
      | [] => Some []
      | c :: t =>
          if mem c (str ",;:<>") then Some s
          else if c =? ch "(" then r ← bounded_cfws s; boundary_loop fuel' r capacity
          else if c =? DQ then '(r, _) ← parse_quote t [] (capacity - 1); boundary_loop fuel' r capacity
          else boundary_loop fuel' t capacity
      end
  end.
Definition bounded_boundary (s : bytes) (capacity : nat) : option bytes := boundary_loop (S (length s)) s capacity.

(** The bytes of [s] before [e] that satisfy [p], and the rest. *)
Fixpoint span_before (p : Z -> bool) (s e : bytes) : bytes * bytes :=
  match s with
  | c :: t => if before s e && p c then let '(a, r) := span_before p t e in (c :: a, r) else ([], s)
  | [] => ([], [])
  end.

Definition phrase_byte (c : Z) : bool := bounded_atext c || (c =? ch ".").

Fixpoint phrase_loop (fuel : nat) (s e : bytes) (capacity tokens : nat) : bool :=
  match fuel with
  | O => false
  | S fuel' =>
      if before s e then
        match bounded_cfws s with
        | None => false
        | Some s =>
            if (length s <? length e)%nat then false
            else if (length s =? length e)%nat then negb (tokens =? 0)%nat
            else match s with
                 | [] => false
                 | c :: t =>
                     if c =? DQ then
                       match parse_quote t [] (capacity - 1) with
                       | None => false
                       | Some (s, _) =>
                           if (length s <? length e)%nat then false else phrase_loop fuel' s e capacity (S tokens)
                       end
                     else if negb (phrase_byte c) then false
                     else phrase_loop fuel' (span_before phrase_byte s e).2 e capacity (S tokens)
                 end
        end
      else negb (tokens =? 0)%nat
  end.
Definition bounded_phrase (s e : bytes) (capacity : nat) : bool := phrase_loop (S (length s)) s e capacity 0.

(** *** One address *)

(** The loop over the atoms of an unquoted local part: the rest and the text. *)
Fixpoint local_loop (fuel : nat) (s e : bytes) (out : bytes) : option (bytes * bytes) :=
  match fuel with
  | O => None
  | S fuel' =>
      let '(a, s) := span_before bounded_atext s e in
      if (length a =? 0)%nat then None
      else
        let out := out ++ a in
        s ← bounded_cfws s;
        if (length s <? length e)%nat then None
        else
          let done := Some (s, out) in
          if (length s =? length e)%nat then done
          else match s with
               | c :: t =>
                   if c =? ch "." then
                     s ← bounded_cfws t;
                     if before s e then local_loop fuel' s e (out ++ [c]) else None
                   else done
               | [] => done
               end
  end.

Definition domain_byte (c : Z) : bool :=
  ((ch "a" <=? c) && (c <=? ch "z")) || ((ch "A" <=? c) && (c <=? ch "Z")) ||
  ((ch "0" <=? c) && (c <=? ch "9")) || (c =? ch "-").

Fixpoint domain_loop (fuel : nat) (s e : bytes) (out : bytes) : option (bytes * bytes) :=
  match fuel with
  | O => None
  | S fuel' =>
      s ← bounded_cfws s;
      if negb (before s e) then None
      else
        let '(a, s) := span_before domain_byte s e in
        if (length a =? 0)%nat then None
        else
          let out := out ++ a in
          s ← bounded_cfws s;
          if (length s <? length e)%nat then None
          else
            let done := Some (s, out) in
            if (length s =? length e)%nat then done
            else match s with
                 | c :: t => if c =? ch "." then domain_loop fuel' t e (out ++ [c]) else done
                 | [] => done
                 end
  end.

(** The local part: the rest before the at sign, and the scratch text. *)
Definition local_part (s e : bytes) (capacity : nat) : option (bytes * bytes) :=
  match s with
  | c :: t =>
      if c =? DQ then
        '(s, out) ← parse_quote t [] (capacity - 1);
        if (length s <? length e)%nat then None else s ← bounded_cfws s; Some (s, out)
      else local_loop (S (length s)) s e []
  | [] => None
  end.

(** The text of the address between [s] and [e]. *)
Definition spec_text (s e : bytes) (capacity : nat) : option bytes :=
  s ← bounded_cfws s;
  if negb (before s e) then None
  else
    '(s, out) ← local_part s e capacity;
    if negb (before s e) then None
    else match s with
         | c :: t =>
             if c =? ch "@" then
               '(s, out) ← domain_loop (S (length t)) t e (out ++ [c]);
               if (length s =? length e)%nat then Some out else None
             else None
         | [] => None
         end.

(** ** The list *)

Section Parser.
(** The callback and its context; a nonzero result stops the parse. *)
Context {S : Type} (emit : S -> bytes -> S * bool) (capacity : nat).

Definition bounded_spec (s e : bytes) (st : S) : Z * S :=
  match spec_text s e capacity with
  | None => (RFC822_BOUNDED_SYNTAX, st)
  | Some text => let '(st, stop) := emit st text in (if stop then RFC822_BOUNDED_EMIT else 0, st)
  end.

(** The status, the context, and the cursor when the status is 0. *)
Definition bounded_mailbox (s : bytes) (st : S) : Z * S * bytes :=
  match bounded_boundary s capacity with
  | None => (RFC822_BOUNDED_SYNTAX, st, s)
  | Some e =>
      let at_end c := match e with d :: _ => d =? c | [] => false end in
      if at_end (ch ":") || at_end (ch ">") then (RFC822_BOUNDED_SYNTAX, st, s)
      else if at_end (ch "<") then
        match bounded_cfws s with
        | None => (RFC822_BOUNDED_SYNTAX, st, s)
        | Some start =>
            if negb (length start =? length e)%nat && negb (bounded_phrase start e capacity)
            then (RFC822_BOUNDED_SYNTAX, st, s)
            else
              let s' := tail e in
              match bounded_boundary s' capacity with
              | Some ((c :: after) as e') =>
                  if negb (c =? ch ">") then (RFC822_BOUNDED_SYNTAX, st, s)
                  else
                    let '(rc, st) := bounded_spec s' e' st in
                    if negb (rc =? 0) then (rc, st, s)
                    else match bounded_cfws after with
                         | None => (RFC822_BOUNDED_SYNTAX, st, s)
                         | Some [] => (0, st, [])
                         | Some ((c :: _) as r) =>
                             if negb (c =? ch ",") && negb (c =? ch ";") then (RFC822_BOUNDED_SYNTAX, st, s)
                             else (0, st, r)
                         end
              | _ => (RFC822_BOUNDED_SYNTAX, st, s)
              end
        end
      else
        let '(rc, st) := bounded_spec s e st in
        if negb (rc =? 0) then (rc, st, s) else (0, st, e)
  end.

(** The members of a group, from the first; the cursor is at the semicolon when
    the status is 0. *)
Fixpoint group_loop (fuel : nat) (s : bytes) (st : S) : Z * S * bytes :=
  match fuel with
  | O => (RFC822_BOUNDED_SYNTAX, st, s)
  | Datatypes.S fuel' =>
      let '(rc, st, s) := bounded_mailbox s st in
      if negb (rc =? 0) then (rc, st, s)
      else match s with
           | c :: t =>
               if c =? ch ";" then (0, st, s)
               else if negb (c =? ch ",") then (RFC822_BOUNDED_SYNTAX, st, s)
               else match bounded_cfws t with
                    | Some ((d :: _) as s') =>
                        if d =? ch ";" then (RFC822_BOUNDED_SYNTAX, st, s) else group_loop fuel' s' st
                    | _ => (RFC822_BOUNDED_SYNTAX, st, s)
                    end
           | [] => (RFC822_BOUNDED_SYNTAX, st, s)
           end
  end.

(** One item of the list: a group or a mailbox. *)
Definition list_item (s : bytes) (st : S) : Z * S * bytes :=
  match bounded_boundary s capacity with
  | None => (RFC822_BOUNDED_SYNTAX, st, s)
  | Some e =>
      if match e with d :: _ => d =? ch ":" | [] => false end then
        if negb (bounded_phrase s e capacity) then (RFC822_BOUNDED_SYNTAX, st, s)
        else match bounded_cfws (tail e) with
             | None => (RFC822_BOUNDED_SYNTAX, st, s)
             | Some s' =>
                 let '(rc, st, s') := if match s' with d :: _ => d =? ch ";" | [] => false end then (0, st, s')
                                      else group_loop (length s') s' st in
                 if negb (rc =? 0) then (rc, st, s')
                 else match bounded_cfws (tail s') with
                      | None => (RFC822_BOUNDED_SYNTAX, st, s')
                      | Some r => (0, st, r)
                      end
             end
      else bounded_mailbox s st
  end.

Fixpoint list_loop (fuel : nat) (s : bytes) (st : S) : Z * S :=
  match fuel with
  | O => (RFC822_BOUNDED_SYNTAX, st)
  | Datatypes.S fuel' =>
      let '(rc, st, s) := list_item s st in
      if negb (rc =? 0) then (rc, st)
      else match s with
           | [] => (0, st)
           | c :: t =>
               if negb (c =? ch ",") then (RFC822_BOUNDED_SYNTAX, st)
               else match bounded_cfws t with
                    | Some ((_ :: _) as s') => list_loop fuel' s' st
                    | _ => (RFC822_BOUNDED_SYNTAX, st)
                    end
           end
  end.

(** [input] has [length] bytes before a terminator; [length] reads one past
    them. *)
Definition rfc822_parse_mailboxes (input : bytes) (st : S) : Z * S :=
  if (capacity <=? length input)%nat then (RFC822_BOUNDED_LIMIT, st)
  else if mem 0 input then (RFC822_BOUNDED_SYNTAX, st)
  else match bounded_cfws input with
       | Some ((_ :: _) as s) => list_loop (length s) s st
       | _ => (RFC822_BOUNDED_SYNTAX, st)
       end.
End Parser.

(** ** Lengths and fuel *)

Lemma put_length c max buf : (length (put c max buf) <= S (length buf))%nat /\
  ((length buf <= max)%nat -> (length (put c max buf) <= max)%nat).
Proof.
  unfold put. destruct (Nat.ltb_spec (length buf) max); [rewrite length_app; cbn; lia|lia].
Qed.

Lemma drop_while_length {A} (p : A -> bool) l : (length (drop_while p l) <= length l)%nat.
Proof. induction l as [|x l IH]; cbn [drop_while length]; [lia|]. destruct (p x); cbn [length]; lia. Qed.

(** Induction on the length of a string. *)
Lemma bytes_ind (P : bytes -> Prop) :
  (forall s, (forall t, (length t < length s)%nat -> P t) -> P s) -> forall s, P s.
Proof. intros H s. induction s as [s IH] using (Nat.measure_induction _ (@length Z)). auto. Qed.

Lemma parse_comment_length level s comment max r c :
  parse_comment level s comment max = Some (r, c) -> (length r < length s)%nat.
Proof.
  revert level comment. induction s as [s IH] using bytes_ind. intros level comment.
  destruct s as [|x t]; cbn [parse_comment]; [discriminate|].
  assert (Ht : forall l k, parse_comment l t k max = Some (r, c) -> (length r < length (x :: t))%nat).
  { intros l k H. apply IH in H; cbn in *; lia. }
  destruct (x =? ch "("); [apply Ht|]. destruct (x =? ch ")").
  { destruct level as [|[|level]]; [| |apply Ht]; intros [= -> ->]; cbn; lia. }
  destruct (x =? BSL); [|apply Ht]. destruct t as [|d t]; [discriminate|].
  intros H. apply IH in H; cbn in *; lia.
Qed.

Lemma quote_body_length s token max r t :
  quote_body s token max = Some (r, t) ->
  (length r < length s)%nat /\ (length t + length r <= length token + length s)%nat /\
  ((length token <= max)%nat -> (length t <= max)%nat).
Proof.
  revert token. induction s as [s IH] using bytes_ind. intros token.
  destruct s as [|x u]; cbn [quote_body]; [discriminate|].
  destruct (put_length x max token) as [P1 P2]. destruct (x =? DQ).
  { intros [= <- <-]. cbn [length]. lia. }
  destruct (x =? BSL).
  - destruct u as [|d u]; [discriminate|]. destruct (put_length d max (put x max token)) as [P3 P4].
    intros H. apply IH in H as (H1 & H2 & H3); [|cbn; lia]. cbn [length] in *. lia.
  - intros H. apply IH in H as (H1 & H2 & H3); [|cbn; lia]. cbn [length] in *. lia.
Qed.

Lemma parse_quote_length s max r t :
  parse_quote s [] max = Some (r, t) ->
  (length r < length s)%nat /\ (length t + length r <= S (length s))%nat /\ (length t <= max)%nat.
Proof.
  unfold parse_quote. intros H. destruct (put_length DQ max []) as [P1 P2].
  apply quote_body_length in H as (H1 & H2 & H3). cbn [length] in *. lia.
Qed.

Lemma cfws_fuel fuel s : (length s < fuel)%nat -> cfws_loop fuel s = bounded_cfws s.
Proof.
  unfold bounded_cfws. revert fuel. induction s as [s IH] using bytes_ind. intros fuel Hf.
  destruct fuel as [|fuel]; [lia|]. cbn [cfws_loop].
  pose proof (drop_while_length is_blank s) as Hd. destruct (drop_while is_blank s) as [|c t]; [reflexivity|].
  cbn [length] in Hd. destruct (c =? ch "("); [|reflexivity].
  destruct (parse_comment 1 t [] 0) as [[r k]|] eqn:E; [|reflexivity]. cbn [mbind option_bind].
  apply parse_comment_length in E. rewrite (IH r) by lia. symmetry. rewrite (IH r) by lia. reflexivity.
Qed.

(** One turn of the loop. *)
Lemma cfws_eq s : bounded_cfws s =
  match drop_while is_blank s with
  | c :: t => if c =? ch "(" then '(r, _) ← parse_comment 1 t [] 0; bounded_cfws r else Some (c :: t)
  | [] => Some []
  end.
Proof.
  unfold bounded_cfws at 1. cbn [cfws_loop].
  pose proof (drop_while_length is_blank s) as Hd. destruct (drop_while is_blank s) as [|c t]; [reflexivity|].
  cbn [length] in Hd. destruct (c =? ch "("); [|reflexivity].
  destruct (parse_comment 1 t [] 0) as [[r k]|] eqn:E; [|reflexivity]. cbn [mbind option_bind].
  apply parse_comment_length in E. apply cfws_fuel. lia.
Qed.

Lemma cfws_length s r : bounded_cfws s = Some r -> (length r <= length s)%nat.
Proof.
  revert r. induction s as [s IH] using bytes_ind. intros r. rewrite cfws_eq.
  pose proof (drop_while_length is_blank s) as Hd. destruct (drop_while is_blank s) as [|c t]; [intros [= <-]; cbn; lia|].
  cbn [length] in Hd. destruct (c =? ch "("); [|intros [= <-]; cbn; lia].
  destruct (parse_comment 1 t [] 0) as [[r' k]|] eqn:E; [|discriminate]. cbn [mbind option_bind].
  apply parse_comment_length in E. intros H. apply IH in H; lia.
Qed.

(** A comment at the cursor is consumed. *)
Lemma cfws_comment t r : bounded_cfws (ch "(" :: t) = Some r -> (length r <= length t)%nat.
Proof.
  rewrite cfws_eq. change (drop_while is_blank (ch "(" :: t)) with (ch "(" :: t). cbn [Z.eqb Pos.eqb].
  destruct (parse_comment 1 t [] 0) as [[r' k]|] eqn:E; [|discriminate]. cbn [mbind option_bind].
  intros H. apply cfws_length in H. apply parse_comment_length in E. lia.
Qed.

Section Boundary.
Context (capacity : nat).

Lemma boundary_fuel fuel s : (length s < fuel)%nat -> boundary_loop fuel s capacity = bounded_boundary s capacity.
Proof.
  unfold bounded_boundary. revert fuel. induction s as [s IH] using bytes_ind. intros fuel Hf.
  destruct fuel as [|fuel]; [lia|]. cbn [boundary_loop]. destruct s as [|c t]; [reflexivity|]. cbn [length] in *.
  destruct (mem c _); [reflexivity|]. destruct (Z.eqb_spec c (ch "(")) as [->|_].
  { destruct (bounded_cfws (ch "(" :: t)) as [r|] eqn:E; [|reflexivity]. cbn [mbind option_bind].
    apply cfws_comment in E. rewrite (IH r) by (cbn; lia). symmetry. apply IH; cbn; lia. }
  destruct (c =? DQ).
  { destruct (parse_quote t [] (capacity - 1)) as [[r k]|] eqn:E; [|reflexivity]. cbn [mbind option_bind].
    apply parse_quote_length in E as (E & _). rewrite (IH r) by (cbn; lia). symmetry. apply IH; cbn; lia. }
  rewrite (IH t) by (cbn; lia). symmetry. apply IH; cbn; lia.
Qed.

Lemma boundary_eq c t : bounded_boundary (c :: t) capacity =
  if mem c (str ",;:<>") then Some (c :: t)
  else if c =? ch "(" then r ← bounded_cfws (c :: t); bounded_boundary r capacity
  else if c =? DQ then '(r, _) ← parse_quote t [] (capacity - 1); bounded_boundary r capacity
  else bounded_boundary t capacity.
Proof.
  unfold bounded_boundary at 1. cbn [length]. set (f := S (length t)). cbn [boundary_loop].
  destruct (mem c _); [reflexivity|].
  destruct (Z.eqb_spec c (ch "(")) as [->|_].
  { destruct (bounded_cfws (ch "(" :: t)) as [r|] eqn:E; [|reflexivity]. cbn [mbind option_bind].
    apply cfws_comment in E. apply boundary_fuel. subst f. lia. }
  destruct (c =? DQ); [|apply boundary_fuel; subst f; lia].
  destruct (parse_quote t [] (capacity - 1)) as [[r k]|] eqn:E; [|reflexivity]. cbn [mbind option_bind].
  apply parse_quote_length in E as (E & _). apply boundary_fuel. subst f. lia.
Qed.

Lemma boundary_length s e : bounded_boundary s capacity = Some e -> (length e <= length s)%nat.
Proof.
  revert e. induction s as [s IH] using bytes_ind. intros e. destruct s as [|c t]; [intros [= <-]; cbn; lia|].
  rewrite boundary_eq. destruct (mem c _); [intros [= <-]; lia|]. destruct (Z.eqb_spec c (ch "(")) as [->|_].
  { destruct (bounded_cfws _) as [r|] eqn:E; [|discriminate]. cbn [mbind option_bind].
    apply cfws_comment in E. intros H. apply IH in H; cbn in *; lia. }
  destruct (c =? DQ).
  { destruct (parse_quote _ _ _) as [[r k]|] eqn:E; [|discriminate]. cbn [mbind option_bind].
    apply parse_quote_length in E as (E & _). intros H. apply IH in H; cbn in *; lia. }
  intros H. apply IH in H; cbn in *; lia.
Qed.

Lemma span_before_parts p s e a r : span_before p s e = (a, r) -> s = a ++ r.
Proof.
  revert a r. induction s as [|c t IH]; intros a r; cbn [span_before]; [now intros [= <- <-]|].
  destruct (_ && _); [|now intros [= <- <-]]. destruct (span_before p t e) as [a' r'].
  intros [= <- <-]. cbn [app]. f_equal. now apply IH.
Qed.

(** The local part and the domain are no longer than the text they are read
    from. *)
Lemma local_loop_length fuel s e out s' out' : local_loop fuel s e out = Some (s', out') ->
  (length out' + length s' <= length out + length s)%nat /\ (length s' < length s)%nat.
Proof.
  revert s out. induction fuel as [|fuel IH]; intros s out; cbn [local_loop]; [discriminate|].
  destruct (span_before bounded_atext s e) as [a r] eqn:Ea. apply span_before_parts in Ea as ->.
  destruct (Nat.eqb_spec (length a) 0) as [|Ha]; [discriminate|]. rewrite bind_Some. intros (s1 & H1 & H).
  apply cfws_length in H1. destruct (_ <? _)%nat; [discriminate|].
  assert (Hdone : Some (s1, out ++ a) = Some (s', out') ->
    (length out' + length s' <= length out + length (a ++ r))%nat /\ (length s' < length (a ++ r))%nat).
  { intros [= <- <-]. rewrite !length_app. lia. }
  destruct (_ =? _)%nat; [auto|]. destruct s1 as [|c t]; [auto|]. destruct (c =? ch "."); [|auto].
  rewrite bind_Some in H. destruct H as (s2 & H2 & H). apply cfws_length in H2. destruct (before s2 e); [|discriminate].
  apply IH in H. rewrite !length_app in *. cbn [length] in *. lia.
Qed.

Lemma domain_loop_length fuel s e out s' out' : domain_loop fuel s e out = Some (s', out') ->
  (length out' + length s' <= length out + length s)%nat /\ (length out <= length out')%nat.
Proof.
  revert s out. induction fuel as [|fuel IH]; intros s out; cbn [domain_loop]; [discriminate|].
  rewrite bind_Some. intros (s0 & H0 & H). apply cfws_length in H0. destruct (negb _); [discriminate|].
  destruct (span_before domain_byte s0 e) as [a r] eqn:Ea. apply span_before_parts in Ea as ->.
  destruct (Nat.eqb_spec (length a) 0) as [|Ha]; [discriminate|]. rewrite bind_Some in H. destruct H as (s1 & H1 & H).
  apply cfws_length in H1. destruct (_ <? _)%nat; [discriminate|]. rewrite length_app in *.
  assert (Hdone : Some (s1, out ++ a) = Some (s', out') ->
    (length out' + length s' <= length out + length s)%nat /\ (length out <= length out')%nat).
  { intros [= <- <-]. rewrite !length_app. lia. }
  destruct (_ =? _)%nat; [auto|]. destruct s1 as [|c t]; [auto|]. destruct (c =? ch "."); [|auto].
  apply IH in H. rewrite !length_app in *. cbn [length] in *. lia.
Qed.

Lemma spec_text_length s e out : spec_text s e capacity = Some out ->
  (length out + length e <= length s)%nat /\ (0 < length out)%nat.
Proof.
  unfold spec_text. rewrite bind_Some. intros (s0 & H0 & H). apply cfws_length in H0. destruct (negb _); [discriminate|].
  rewrite bind_Some in H. destruct H as ([s1 o1] & H1 & H).
  assert (Hl : (length o1 + length s1 <= length s0)%nat).
  { unfold local_part in H1. destruct s0 as [|c t]; [discriminate|]. destruct (c =? DQ).
    - rewrite bind_Some in H1. destruct H1 as ([s2 o2] & H2 & H1). apply parse_quote_length in H2 as (_ & H2 & _).
      destruct (_ <? _)%nat; [discriminate|]. rewrite bind_Some in H1. destruct H1 as (s3 & H3 & H1).
      injection H1 as <- <-. apply cfws_length in H3. cbn [length]. lia.
    - apply local_loop_length in H1. cbn [length] in *. lia. }
  destruct (negb _); [discriminate|]. destruct s1 as [|c t]; [discriminate|]. destruct (c =? ch "@"); [|discriminate].
  rewrite bind_Some in H. destruct H as ([s2 o2] & H2 & H). apply domain_loop_length in H2.
  destruct (Nat.eqb_spec (length s2) (length e)) as [E|]; [|discriminate]. injection H as <-.
  rewrite length_app in H2. cbn [length] in *. lia.
Qed.
End Boundary.

(** Every byte read comes from the input. *)
Section Provenance.
Context (P : Z -> Prop) (capacity : nat).

Lemma put_Forall c max buf : P c -> Forall P buf -> Forall P (put c max buf).
Proof. intros Hc Hb. unfold put. destruct (_ <? _)%nat; [|exact Hb]. apply Forall_app. auto. Qed.

Lemma drop_while_Forall (p : Z -> bool) l : Forall P l -> Forall P (drop_while p l).
Proof. induction 1 as [|x l Hx Hl IH]; cbn [drop_while]; [constructor|]. destruct (p x); [exact IH|now constructor]. Qed.

Lemma parse_comment_Forall level s comment max r c :
  parse_comment level s comment max = Some (r, c) -> Forall P s -> Forall P r.
Proof.
  revert level comment. induction s as [s IH] using bytes_ind. intros level comment.
  destruct s as [|x t]; cbn [parse_comment]; [discriminate|]. intros H Hs. inversion Hs as [|? ? Hx Ht]; subst.
  assert (Hgo : forall l k, parse_comment l t k max = Some (r, c) -> Forall P r)
    by (intros l k E; exact (IH t ltac:(cbn; lia) _ _ E Ht)).
  destruct (x =? ch "("); [eauto|]. destruct (x =? ch ")").
  { destruct level as [|[|level]]; [| |eauto]; injection H as -> ->; exact Ht. }
  destruct (x =? BSL); [|eauto]. destruct t as [|d t]; [discriminate|]. inversion Ht as [|? ? Hd Ht']; subst.
  exact (IH t ltac:(cbn; lia) _ _ H Ht').
Qed.

Lemma quote_body_Forall s token max r t : quote_body s token max = Some (r, t) ->
  Forall P s -> Forall P token -> Forall P r /\ Forall P t.
Proof.
  revert token. induction s as [s IH] using bytes_ind. intros token.
  destruct s as [|x u]; cbn [quote_body]; [discriminate|]. intros H Hs Hk. inversion Hs as [|? ? Hx Hu]; subst.
  pose proof (put_Forall x max token Hx Hk) as Hp. destruct (x =? DQ); [now injection H as <- <-|].
  destruct (x =? BSL); [|exact (IH u ltac:(cbn; lia) _ H Hu Hp)].
  destruct u as [|d u]; [discriminate|]. inversion Hu as [|? ? Hd Hu']; subst.
  exact (IH u ltac:(cbn; lia) _ H Hu' (put_Forall _ _ _ Hd Hp)).
Qed.

Lemma parse_quote_Forall s max r t : parse_quote s [] max = Some (r, t) -> Forall P (DQ :: s) -> Forall P r /\ Forall P t.
Proof. intros H Hs. inversion Hs; subst. eapply quote_body_Forall; [exact H|assumption|now apply put_Forall]. Qed.

Lemma cfws_Forall s r : bounded_cfws s = Some r -> Forall P s -> Forall P r.
Proof.
  revert r. induction s as [s IH] using bytes_ind. intros r. rewrite cfws_eq.
  pose proof (drop_while_length is_blank s) as Hd. intros H Hs. apply (drop_while_Forall is_blank) in Hs.
  destruct (drop_while is_blank s) as [|c t]; [now injection H as <-|]. cbn [length] in Hd.
  destruct (c =? ch "("); [|now injection H as <-]. inversion Hs; subst.
  destruct (parse_comment 1 t [] 0) as [[r' k]|] eqn:E; [|discriminate]. cbn [mbind option_bind] in H.
  pose proof (parse_comment_length _ _ _ _ _ _ E). eapply parse_comment_Forall in E; [|eassumption].
  exact (IH r' ltac:(lia) _ H E).
Qed.

Lemma boundary_Forall s e : bounded_boundary s capacity = Some e -> Forall P s -> Forall P e.
Proof.
  revert e. induction s as [s IH] using bytes_ind. intros e. destruct s as [|c t]; [now intros [= <-]|].
  rewrite boundary_eq. intros H Hs. inversion Hs as [|? ? Hc Ht]; subst.
  destruct (mem c _); [now injection H as <-|]. destruct (Z.eqb_spec c (ch "(")) as [->|_].
  { destruct (bounded_cfws _) as [r|] eqn:E; [|discriminate]. cbn [mbind option_bind] in H.
    pose proof (cfws_comment _ _ E). eapply cfws_Forall in E; [|exact Hs].
    exact (IH r ltac:(cbn in *; lia) _ H E). }
  destruct (Z.eqb_spec c DQ) as [->|_]; [|exact (IH t ltac:(cbn; lia) _ H Ht)].
  destruct (parse_quote _ _ _) as [[r k]|] eqn:E; [|discriminate]. cbn [mbind option_bind] in H.
  pose proof (parse_quote_length _ _ _ _ E) as (? & _). apply parse_quote_Forall in E as [E _]; [|exact Hs].
  exact (IH r ltac:(cbn; lia) _ H E).
Qed.

Lemma span_before_Forall p s e a r : span_before p s e = (a, r) -> Forall P s -> Forall P a /\ Forall P r.
Proof. intros ->%span_before_parts. apply Forall_app. Qed.

Lemma local_loop_Forall fuel s e out s' out' : local_loop fuel s e out = Some (s', out') ->
  Forall P s -> Forall P out -> Forall P s' /\ Forall P out'.
Proof.
  revert s out. induction fuel as [|fuel IH]; intros s out; cbn [local_loop]; [discriminate|]. intros H Hs Ho.
  destruct (span_before bounded_atext s e) as [a r] eqn:Ea. apply span_before_Forall in Ea as [Ha Hr]; [|exact Hs].
  destruct (_ =? _)%nat; [discriminate|]. rewrite bind_Some in H. destruct H as (s1 & H1 & H).
  eapply cfws_Forall in H1; [|exact Hr]. destruct (_ <? _)%nat; [discriminate|].
  assert (Ho' : Forall P (out ++ a)) by (apply Forall_app; auto).
  destruct (_ =? _)%nat; [now injection H as <- <-|]. destruct s1 as [|c t]; [now injection H as <- <-|].
  destruct (c =? ch "."); [|now injection H as <- <-]. rewrite bind_Some in H. destruct H as (s2 & H2 & H).
  inversion H1; subst. eapply cfws_Forall in H2; [|eassumption]. destruct (before s2 e); [|discriminate].
  eapply IH; [exact H|exact H2|]. apply Forall_app. auto.
Qed.

Lemma domain_loop_Forall fuel s e out s' out' : domain_loop fuel s e out = Some (s', out') ->
  Forall P s -> Forall P out -> Forall P out'.
Proof.
  revert s out. induction fuel as [|fuel IH]; intros s out; cbn [domain_loop]; [discriminate|].
  rewrite bind_Some. intros (s0 & H0 & H) Hs Ho. eapply cfws_Forall in H0; [|exact Hs]. destruct (negb _); [discriminate|].
  destruct (span_before domain_byte s0 e) as [a r] eqn:Ea. apply span_before_Forall in Ea as [Ha Hr]; [|exact H0].
  destruct (_ =? _)%nat; [discriminate|]. rewrite bind_Some in H. destruct H as (s1 & H1 & H).
  eapply cfws_Forall in H1; [|exact Hr]. destruct (_ <? _)%nat; [discriminate|].
  assert (Ho' : Forall P (out ++ a)) by (apply Forall_app; auto).
  destruct (_ =? _)%nat; [now injection H as <- <-|]. destruct s1 as [|c t]; [now injection H as <- <-|].
  destruct (c =? ch "."); [|now injection H as <- <-]. inversion H1; subst.
  eapply IH; [exact H|assumption|]. apply Forall_app. auto.
Qed.

Lemma spec_text_Forall s e out : spec_text s e capacity = Some out -> Forall P s -> Forall P out.
Proof.
  unfold spec_text. rewrite bind_Some. intros (s0 & H0 & H) Hs. eapply cfws_Forall in H0; [|exact Hs]. destruct (negb _); [discriminate|].
  rewrite bind_Some in H. destruct H as ([s1 o1] & H1 & H).
  assert (Hl : Forall P s1 /\ Forall P o1).
  { unfold local_part in H1. destruct s0 as [|c t]; [discriminate|]. destruct (Z.eqb_spec c DQ) as [->|_].
    - rewrite bind_Some in H1. destruct H1 as ([s2 o2] & H2 & H1). apply parse_quote_Forall in H2 as [H2 H3]; [|exact H0].
      destruct (_ <? _)%nat; [discriminate|]. rewrite bind_Some in H1. destruct H1 as (s3 & H4 & H1).
      injection H1 as <- <-. split; [|exact H3]. eapply cfws_Forall; eauto.
    - eapply local_loop_Forall; eauto. }
  destruct Hl as [Hl1 Hl2]. destruct (negb _); [discriminate|]. destruct s1 as [|c t]; [discriminate|].
  destruct (c =? ch "@"); [|discriminate]. rewrite bind_Some in H. destruct H as ([s2 o2] & H2 & H).
  inversion Hl1; subst. destruct (_ =? _)%nat; [|discriminate]. injection H as <-.
  eapply domain_loop_Forall in H2; eauto. apply Forall_app. auto.
Qed.
End Provenance.

(** ** The texts of an input

    The mailboxes found depend on the input alone: the callback only decides
    where the parse stops. *)

(** What the callback makes of a list of mailboxes, in order, until it stops. *)
Fixpoint emit_all {S : Type} (emit : S -> bytes -> S * bool) (l : list bytes) (st : S) : Z * S :=
  match l with
  | [] => (0, st)
  | t :: r => let '(st, stop) := emit st t in if stop then (RFC822_BOUNDED_EMIT, st) else emit_all emit r st
  end.

(** The mailboxes [l] in turn, and then the status [rc]. *)
Definition outcome {S : Type} (emit : S -> bytes -> S * bool) (l : list bytes) (rc : Z) (st : S) : Z * S :=
  let '(r, st) := emit_all emit l st in if r =? 0 then (rc, st) else (r, st).

Lemma emit_all_app {S} (emit : S -> bytes -> S * bool) l1 l2 st : emit_all emit (l1 ++ l2) st =
  let '(rc, st1) := emit_all emit l1 st in if rc =? 0 then emit_all emit l2 st1 else (rc, st1).
Proof.
  revert st. induction l1 as [|t l1 IH]; intros st; cbn [app emit_all]; [reflexivity|].
  destruct (emit st t) as [st' []]; [reflexivity|apply IH].
Qed.

Lemma emit_all_status {S} (emit : S -> bytes -> S * bool) l st :
  (emit_all emit l st).1 = 0 \/ (emit_all emit l st).1 = RFC822_BOUNDED_EMIT.
Proof.
  revert st. induction l as [|t l IH]; intros st; cbn [emit_all]; [now left|].
  destruct (emit st t) as [st' []]; [now right|apply IH].
Qed.

Lemma outcome_app {S} (emit : S -> bytes -> S * bool) l1 l2 rc st : outcome emit (l1 ++ l2) rc st =
  let '(r, st1) := outcome emit l1 0 st in if r =? 0 then outcome emit l2 rc st1 else (r, st1).
Proof.
  unfold outcome. rewrite emit_all_app. destruct (emit_all emit l1 st) as [r st1]. destruct (r =? 0) eqn:E; [reflexivity|].
  now rewrite !E.
Qed.

Definition total (l : list bytes) : nat := list_sum (map length l).

(** [s] was read up to [r], giving [l] and the status [rc]. *)
Record texts (s : bytes) (l : list bytes) (rc : Z) (r : bytes) : Prop := MkTexts {
  tx_rest : (length r <= length s)%nat;
  tx_total : (total l + (if (rc =? 0)%Z then length r else 0) <= length s)%nat;
  tx_nonempty : Forall (fun t : bytes => 0 < length t)%nat l;
  tx_bytes : forall P, Forall P s -> Forall (Forall P) l /\ Forall P r;
  tx_status : rc = 0 \/ rc = RFC822_BOUNDED_SYNTAX }.

(** A step that reads [l], ends with [rc] and leaves the cursor at [r]. *)
Definition reads {S} (emit : S -> bytes -> S * bool) (l : list bytes) (rc : Z) (r : bytes) (st : S) (x : Z * S * bytes) : Prop :=
  x.1 = outcome emit l rc st /\ (x.1.1 = 0 -> x.2 = r).

Lemma texts_fail s l r : (length r <= length s)%nat -> (total l <= length s)%nat -> Forall (fun t : bytes => 0 < length t)%nat l ->
  (forall P, Forall P s -> Forall (Forall P) l /\ Forall P r) -> texts s l RFC822_BOUNDED_SYNTAX r.
Proof. intros H1 H2 H3 H4. split; auto. cbn. lia. Qed.

Lemma texts_done s l r : (total l + length r <= length s)%nat -> Forall (fun t : bytes => 0 < length t)%nat l ->
  (forall P, Forall P s -> Forall (Forall P) l /\ Forall P r) -> texts s l 0 r.
Proof. intros H1 H2 H3. split; auto; cbn; lia. Qed.

(** [r] is a part of [s]. *)
Definition within (s r : bytes) : Prop := (length r <= length s)%nat /\ forall P, Forall P s -> Forall P r.

Lemma within_refl s : within s s.
Proof. now split. Qed.

Lemma within_nil s : within s [].
Proof. split; [cbn; lia|constructor]. Qed.

Lemma within_trans s t r : within s t -> within t r -> within s r.
Proof. intros [H1 H2] [H3 H4]. split; [lia|auto]. Qed.

Lemma within_cons s c r : within s (c :: r) -> within s r.
Proof. intros [H1 H2]. split; [cbn in *; lia|]. intros P Hs. specialize (H2 P Hs). now inversion H2. Qed.

Lemma within_tail s r : within s r -> within s (tail r).
Proof. destruct r; [trivial|apply within_cons]. Qed.

Lemma cfws_within s r : bounded_cfws s = Some r -> within s r.
Proof. intros H. split; [now apply cfws_length|]. intros P. now apply cfws_Forall. Qed.

Lemma boundary_within capacity s e : bounded_boundary s capacity = Some e -> within s e.
Proof. intros H. split; [now apply boundary_length in H|]. intros P. now apply boundary_Forall with (1 := H). Qed.

#[local] Hint Resolve within_refl within_nil within_tail : core.

Lemma reads_now {S} (emit : S -> bytes -> S * bool) rc r st : reads emit [] rc r st (rc, st, r).
Proof. now split. Qed.

Section Texts.
Context (capacity : nat).

Abbreviation found s f := (exists l rc r, texts s l rc r /\ forall (S : Type) (emit : S -> bytes -> S * bool) st, reads emit l rc r st (f S emit st)).

Lemma found_fail s r (f : forall S : Type, (S -> bytes -> S * bool) -> S -> Z * S * bytes) : within s r ->
  (forall S emit st, f S emit st = (RFC822_BOUNDED_SYNTAX, st, r)) -> found s f.
Proof.
  intros [Hr Hp] Hf. exists [], RFC822_BOUNDED_SYNTAX, r. split; [apply texts_fail; auto; cbn; lia|].
  intros S emit st. rewrite Hf. apply reads_now.
Qed.

(** One address and what is made of its end. *)
Lemma found_spec s a e (f : forall S : Type, (S -> bytes -> S * bool) -> S -> Z * S * bytes) rc r0 r :
  within s a -> within s r0 -> within e r -> rc = 0 \/ rc = RFC822_BOUNDED_SYNTAX -> within a e ->
  (forall S emit st, f S emit st = let '(rc1, st) := bounded_spec emit capacity a e st in
     if negb (rc1 =? 0) then (rc1, st, r0) else (rc, st, if rc =? 0 then r else r0)) -> found s f.
Proof.
  intros [Ha Pa] [Hr0 P0] [Hr Pr] Hrc [He Pe] Hf. destruct (spec_text a e capacity) as [t|] eqn:E.
  - apply spec_text_length in E as Hl. assert (Ht : forall P, Forall P s -> Forall P t) by (intros P Hs; eapply spec_text_Forall; eauto).
    exists [t], rc, (if rc =? 0 then r else r0). split.
    + split; auto; [| |constructor; [lia|constructor]|destruct (rc =? 0); auto 7]; destruct (rc =? 0); cbn; lia.
    + intros S emit st. rewrite Hf. unfold bounded_spec, reads, outcome. rewrite E. cbn [emit_all].
      destruct (emit st t) as [st' []]; cbn [Z.eqb Pos.eqb negb fst snd]; split; auto. discriminate.
  - apply (found_fail s r0); [now split|]. intros S emit st. rewrite Hf. unfold bounded_spec. now rewrite E.
Qed.

Lemma mailbox_found s : found s (fun S emit st => bounded_mailbox emit capacity s st).
Proof.
  unfold bounded_mailbox.
  destruct (bounded_boundary s capacity) as [e|] eqn:E; [|apply (found_fail s s); auto]. apply boundary_within in E.
  destruct (_ || _); [apply (found_fail s s); auto|]. destruct (match e with [] => _ | _ => _ end) eqn:Ee.
  - destruct e as [|c0 e0]; [discriminate|]. apply within_cons in E.
    destruct (bounded_cfws s) as [start|]; [|apply (found_fail s s); auto]. destruct (_ && _); [apply (found_fail s s); auto|]. cbn [tail].
    destruct (bounded_boundary e0 capacity) as [[|c after]|] eqn:E'; [apply (found_fail s s); auto| |apply (found_fail s s); auto].
    apply boundary_within in E'. destruct (negb (c =? ch ">")); [apply (found_fail s s); auto|].
    destruct (bounded_cfws after) as [r|] eqn:E1; cycle 1.
    { eapply (found_spec s e0 (c :: after) _ RFC822_BOUNDED_SYNTAX s []); auto. }
    apply cfws_within in E1. destruct r as [|c1 r].
    + eapply (found_spec s e0 (c :: after) _ 0 s []); auto.
    + destruct (negb (c1 =? ch ",") && negb (c1 =? ch ";")).
      * eapply (found_spec s e0 (c :: after) _ RFC822_BOUNDED_SYNTAX s []); auto.
      * eapply (found_spec s e0 (c :: after) _ 0 s (c1 :: r)); auto. eapply within_trans; [apply (within_tail _ (c :: after)); auto|exact E1].
  - eapply (found_spec s s e _ 0 s e); auto.
Qed.

(** A step after a step that succeeded. *)
Lemma found_then s f g : found s f ->
  (forall r l, texts s l 0 r -> found r (g r)) ->
  found s (fun S emit st => let '(rc, st, r) := f S emit st in if negb (rc =? 0) then (rc, st, r) else g r S emit st).
Proof.
  intros (l & rc & r & Ht & Hf) Hg. destruct (tx_status _ _ _ _ Ht) as [-> | ->].
  - destruct (Hg r l Ht) as (l2 & rc2 & r2 & Ht2 & Hf2). exists (l ++ l2), rc2, r2. split.
    + destruct Ht as [H1 H2 H3 H4 _], Ht2 as [H5 H6 H7 H9 H8]. cbn [Z.eqb] in H2.
      split; [lia| |now apply Forall_app| |exact H8].
      2: { intros P HP. destruct (H4 P HP) as [Hl Hr]. destruct (H9 P Hr) as [Hl2 Hr2]. split; [apply Forall_app; auto|exact Hr2]. }
      unfold total in *. rewrite map_app, list_sum_app. lia.
    + intros S emit st. destruct (Hf S emit st) as [G1 G2]. destruct (f S emit st) as [[rc1 st1] r1]. cbn [fst snd] in *.
      unfold reads. rewrite outcome_app, <- G1. destruct (Z.eqb_spec rc1 0) as [->|Hrc]; cbn [negb].
      * rewrite G2 by reflexivity. apply Hf2.
      * split; [reflexivity|]. intros H. now cbn in H.
  - exists l, RFC822_BOUNDED_SYNTAX, r. split; [exact Ht|]. intros S emit st. destruct (Hf S emit st) as [G1 G2].
    destruct (f S emit st) as [[rc1 st1] r1]. cbn [fst snd] in *. unfold reads. rewrite <- G1.
    assert (Hrc : (rc1 =? 0) = false).
    { apply Z.eqb_neq. intros ->. unfold outcome in G1. destruct (emit_all emit l st) as [r' st']. destruct (Z.eqb_spec r' 0).
      - injection G1. discriminate.
      - injection G1. congruence. }
    rewrite Hrc. cbn [negb fst snd]. split; [reflexivity|]. intros ->. discriminate.
Qed.

Lemma found_done s r : within s r -> found s (fun S (emit : S -> bytes -> S * bool) st => (0, st, r)).
Proof.
  intros [Hr Hp]. exists [], 0, r. split; [apply texts_done; auto; cbn; lia|]. intros S emit st. apply reads_now.
Qed.

Lemma found_later s r f : within s r -> found r f -> found s f.
Proof.
  intros [Hr Hp] (l & rc & r' & [H1 H2 H3 H4 H5] & Hf). exists l, rc, r'. split; [|exact Hf]. split; auto; lia.
Qed.

Lemma group_found fuel s : found s (fun S emit st => group_loop emit capacity fuel s st).
Proof.
  revert s. induction fuel as [|fuel IH]; intros s; cbn [group_loop]; [apply (found_fail s s); auto|].
  apply (found_then s (fun S emit st => bounded_mailbox emit capacity s st)
    (fun s S emit st => match s with
      | c :: t => if c =? ch ";" then (0, st, s) else if negb (c =? ch ",") then (RFC822_BOUNDED_SYNTAX, st, s)
        else match bounded_cfws t with
             | Some ((d :: _) as s') => if d =? ch ";" then (RFC822_BOUNDED_SYNTAX, st, s) else group_loop emit capacity fuel s' st
             | _ => (RFC822_BOUNDED_SYNTAX, st, s) end
      | [] => (RFC822_BOUNDED_SYNTAX, st, s) end)); [apply mailbox_found|].
  intros r l _. destruct r as [|c t]; [apply (found_fail [] []); auto|].
  destruct (c =? ch ";"); [apply found_done; auto|]. destruct (negb _); [(apply (found_fail (c :: t) (c :: t)); auto)|].
  destruct (bounded_cfws t) as [[|d s']|] eqn:E; try solve [apply (found_fail (c :: t) (c :: t)); auto].
  destruct (d =? ch ";"); [(apply (found_fail (c :: t) (c :: t)); auto)|]. apply cfws_within in E.
  apply (found_later _ (d :: s')); [eapply within_trans; [apply (within_tail _ (c :: t)); auto|exact E]|apply IH].
Qed.

Lemma item_found s : found s (fun S emit st => list_item emit capacity s st).
Proof.
  unfold list_item. destruct (bounded_boundary s capacity) as [e|] eqn:E; [|apply (found_fail s s); auto]. apply boundary_within in E.
  destruct (match e with [] => _ | _ => _ end) eqn:Ee; [|apply mailbox_found].
  destruct e as [|c0 e0]; [discriminate|]. cbn [length tail] in *. destruct (negb _); [apply (found_fail s s); auto|].
  destruct (bounded_cfws e0) as [s1|] eqn:E1; [|apply (found_fail s s); auto]. apply cfws_within in E1.
  apply (found_later s s1); [eapply within_trans; [apply within_cons with (1 := E)|exact E1]|].
  apply (found_then s1 (fun S emit st => if match s1 with d :: _ => d =? ch ";" | [] => false end then (0, st, s1)
                                          else group_loop emit capacity (length s1) s1 st)
    (fun s' S emit st => match bounded_cfws (tail s') with None => (RFC822_BOUNDED_SYNTAX, st, s') | Some r => (0, st, r) end)).
  - destruct (match s1 with [] => _ | _ => _ end); [apply found_done; auto|apply group_found].
  - intros r l _. destruct (bounded_cfws (tail r)) as [r1|] eqn:E2; [|apply (found_fail r r); auto].
    apply cfws_within in E2. apply found_done. eapply within_trans; [apply within_tail, within_refl|exact E2].
Qed.

Lemma list_found fuel s : found s (fun S emit st => (list_loop emit capacity fuel s st, @nil Z)).
Proof.
  revert s. induction fuel as [|fuel IH]; intros s; cbn [list_loop]; [apply (found_fail s []); auto|].
  destruct (found_then s (fun S emit st => list_item emit capacity s st)
    (fun s S emit st => match s with
      | [] => (0, st, [])
      | c :: t => if negb (c =? ch ",") then (RFC822_BOUNDED_SYNTAX, st, [])
        else match bounded_cfws t with
             | Some ((_ :: _) as s') => (list_loop emit capacity fuel s' st, [])
             | _ => (RFC822_BOUNDED_SYNTAX, st, []) end end)) as (l & rc & r & Ht & Hf).
  - apply item_found.
  - intros r l _. destruct r as [|c t]; [apply found_done; auto|]. destruct (negb _); [apply (found_fail (c :: t) []); auto|].
    destruct (bounded_cfws t) as [[|d s']|] eqn:E; try solve [apply (found_fail (c :: t) []); auto].
    apply cfws_within in E. apply (found_later _ (d :: s')); [eapply within_trans; [apply (within_tail _ (c :: t)); auto|exact E]|apply IH].
  - exists l, rc, []. split.
    + destruct Ht as [H1 H2 H3 H4 H5]. split; [cbn; lia| |exact H3| |exact H5]; [destruct (rc =? 0); cbn [length]; lia|].
      intros P HP. now destruct (H4 P HP).
    + intros S emit st. destruct (Hf S emit st) as [G1 _]. unfold reads. cbn [fst snd]. split; [|reflexivity]. rewrite <- G1.
      destruct (list_item emit capacity s st) as [[rc1 st1] s1]. destruct (negb (rc1 =? 0)); [reflexivity|].
      destruct s1 as [|c t]; [reflexivity|]. destruct (negb _); [reflexivity|].
      now destruct (bounded_cfws t) as [[|d s']|].
Qed.

(** The mailboxes of an input and the status after them, for every callback. *)
Lemma parse_texts input : exists l rc, (total l <= length input)%nat /\ Forall (fun t : bytes => 0 < length t)%nat l /\
  (l <> [] -> (length input < capacity)%nat) /\ rc <> RFC822_BOUNDED_EMIT /\
  (forall P, Forall P input -> Forall (Forall P) l) /\
  forall (S : Type) (emit : S -> bytes -> S * bool) st, rfc822_parse_mailboxes emit capacity input st = outcome emit l rc st.
Proof.
  unfold rfc822_parse_mailboxes. destruct (Nat.leb_spec capacity (length input)).
  { exists [], RFC822_BOUNDED_LIMIT. split_and!; cbn; auto; lia || easy. }
  assert (Hfail : exists l rc, (total l <= length input)%nat /\ Forall (fun t : bytes => 0 < length t)%nat l /\
    (l <> [] -> (length input < capacity)%nat) /\ rc <> RFC822_BOUNDED_EMIT /\
    (forall P, Forall P input -> Forall (Forall P) l) /\
    forall (S : Type) (emit : S -> bytes -> S * bool) st, (RFC822_BOUNDED_SYNTAX, st) = outcome emit l rc st).
  { exists [], RFC822_BOUNDED_SYNTAX. split_and!; cbn; auto; lia || easy. }
  destruct (mem 0 input); [exact Hfail|]. destruct (bounded_cfws input) as [[|c s]|] eqn:E; [exact Hfail| |exact Hfail].
  apply cfws_within in E as [E Ep]. destruct (list_found (length (c :: s)) (c :: s)) as (l & rc & r & Ht & Hf).
  exists l, rc. split_and!; auto.
  - destruct Ht. lia.
  - apply Ht.
  - destruct (tx_status _ _ _ _ Ht) as [-> | ->]; discriminate.
  - intros P HP. exact (proj1 (tx_bytes _ _ _ _ Ht P (Ep P HP))).
  - intros S emit st. apply (Hf S emit st).
Qed.
End Texts.

(** ** A grammar of address lists

    What a message writer produces: display names made of atoms and quoted
    strings, dot-atom or quoted local parts, groups. *)

Inductive word := Atom (a : bytes) | Quoted (q : list (bool * Z)).
Inductive local := DotAtom (first : bytes) (more : list bytes) | QuotedLocal (q : list (bool * Z)).
Record address := MkAddress { a_local : local; a_first : bytes; a_more : list bytes }.
Record entry := MkEntry { display : list word; address_of : address }.
Inductive item := One (m : entry) | Group (name : list word) (members : list entry).

Definition quoted_text (q : list (bool * Z)) : bytes :=
  [DQ] ++ concat (map (fun x : bool * Z => if x.1 then [BSL; x.2] else [x.2]) q) ++ [DQ].
Definition word_text (w : word) : bytes := match w with Atom a => a | Quoted q => quoted_text q end.
Definition dotted (first : bytes) (more : list bytes) : bytes := first ++ concat (map (fun a => ch "." :: a) more).
Definition local_text (l : local) : bytes :=
  match l with DotAtom f m => dotted f m | QuotedLocal q => quoted_text q end.
Definition address_text (a : address) : bytes := local_text (a_local a) ++ ch "@" :: dotted (a_first a) (a_more a).
(** Words with a space after each. *)
Definition words_text (l : list word) : bytes := concat (map (fun w => word_text w ++ [SP]) l).
Definition entry_text (m : entry) : bytes :=
  match display m with
  | [] => address_text (address_of m)
  | l => words_text l ++ ch "<" :: address_text (address_of m) ++ [ch ">"]
  end.
Definition comma : bytes := [ch ","; SP].
Fixpoint separated {A} (text : A -> bytes) (l : list A) : bytes :=
  match l with
  | [] => []
  | [x] => text x
  | x :: t => text x ++ comma ++ separated text t
  end.
Definition item_text (i : item) : bytes :=
  match i with
  | One m => entry_text m
  | Group name members => words_text name ++ ch ":" :: separated entry_text members ++ [ch ";"]
  end.
Definition item_addresses (i : item) : list bytes :=
  match i with
  | One m => [address_text (address_of m)]
  | Group _ members => map (fun m => address_text (address_of m)) members
  end.

Definition quoted_ok (q : list (bool * Z)) : Prop :=
  Forall (fun x : bool * Z => x.1 = true \/ (x.2 <> DQ /\ x.2 <> BSL)) q.
Definition atom_ok (p : Z -> bool) (a : bytes) : Prop := a <> [] /\ Forall (fun c => p c = true) a.
Definition word_ok (w : word) : Prop :=
  match w with Atom a => atom_ok phrase_byte a | Quoted q => quoted_ok q end.
Definition local_ok (l : local) : Prop :=
  match l with
  | DotAtom f m => atom_ok bounded_atext f /\ Forall (atom_ok bounded_atext) m
  | QuotedLocal q => quoted_ok q
  end.
Definition address_ok (a : address) : Prop :=
  local_ok (a_local a) /\ atom_ok domain_byte (a_first a) /\ Forall (atom_ok domain_byte) (a_more a).
Definition entry_ok (m : entry) : Prop := Forall word_ok (display m) /\ address_ok (address_of m).
Definition item_ok (i : item) : Prop :=
  match i with
  | One m => entry_ok m
  | Group name members => name <> [] /\ Forall word_ok name /\ Forall entry_ok members
  end.

(** *** Lexing the grammar *)

Lemma quote_body_text q r token max : quoted_ok q ->
  exists t, quote_body (concat (map (fun x : bool * Z => if x.1 then [BSL; x.2] else [x.2]) q) ++ DQ :: r) token max = Some (r, t) /\
    ((length token + length (concat (map (fun x : bool * Z => if x.1 then [BSL; x.2] else [x.2]) q)) < max)%nat ->
     t = token ++ concat (map (fun x : bool * Z => if x.1 then [BSL; x.2] else [x.2]) q) ++ [DQ]).
Proof.
  assert (Hput : forall c buf, (length buf < max)%nat -> put c max buf = buf ++ [c]).
  { intros c buf H. unfold put. apply Nat.ltb_lt in H. now rewrite H. }
  intros Hq. revert token. induction Hq as [|[[] c] q Hx _ IH]; intros token; cbn [map concat app fst snd].
  - cbn [quote_body]. exists (put DQ max token). split; [reflexivity|]. intros H. apply Hput. cbn in H. lia.
  - cbn [quote_body Z.eqb Pos.eqb].
    destruct (IH (put c max (put BSL max token))) as (t & -> & Ht). exists t. split; [reflexivity|].
    intros H. cbn [length] in H. rewrite !Hput in Ht by (rewrite ?Hput by lia; rewrite ?length_app; cbn [length]; lia).
    rewrite !length_app in Ht. cbn [length] in Ht. rewrite Ht by lia. now rewrite <- !app_assoc.
  - destruct Hx as [Hx|[H1 H2]]; [discriminate|]. cbn [snd] in *. cbn [quote_body].
    apply Z.eqb_neq in H1, H2. rewrite H1, H2. destruct (IH (put c max token)) as (t & -> & Ht).
    exists t. split; [reflexivity|]. intros H. cbn [length] in H. rewrite !Hput in Ht by lia.
    rewrite !length_app in Ht. cbn [length] in Ht. rewrite Ht by lia. now rewrite <- !app_assoc.
Qed.

Lemma parse_quote_text q r max : quoted_ok q ->
  exists t, parse_quote (tail (quoted_text q) ++ r) [] max = Some (r, t) /\
    ((length (quoted_text q) <= max)%nat -> t = quoted_text q).
Proof.
  intros Hq. unfold parse_quote, quoted_text. cbn [app tail]. rewrite <- app_assoc. cbn [app].
  destruct (quote_body_text q r (put DQ max []) max Hq) as (t & E & Ht). exists t. split; [exact E|].
  intros H. cbn [length] in H. rewrite length_app in H. cbn [length] in H. unfold put in Ht.
  destruct (Nat.ltb_spec (length (@nil Z)) max); [|cbn in *; lia].
  cbn [length app] in Ht. apply Ht. lia.
Qed.

(** A byte that is neither blank nor an opening parenthesis ends the skipping. *)
Definition visible (s : bytes) : Prop :=
  match s with c :: _ => is_blank c = false /\ c <> ch "(" | [] => True end.

Lemma cfws_visible s : visible s -> bounded_cfws s = Some s.
Proof.
  rewrite cfws_eq. destruct s as [|c s]; [reflexivity|]. intros [H1 H2]. cbn [drop_while]. rewrite H1.
  apply Z.eqb_neq in H2. now rewrite H2.
Qed.

Lemma cfws_space s : bounded_cfws (SP :: s) = bounded_cfws s.
Proof. rewrite cfws_eq, (cfws_eq s). reflexivity. Qed.

Lemma byte_check (p q : Z -> bool) c :
  forallb (fun c => implb (p c) (q c)) (map Z.of_nat (seq 0 128)) = true ->
  (128 <= c -> q c = true) -> 0 <= c -> p c = true -> q c = true.
Proof.
  intros H Hhi Hc Hp. destruct (Z.le_gt_cases 128 c); [auto|].
  rewrite forallb_forall in H. specialize (H c). rewrite Hp in H. apply H.
  apply in_map_iff. exists (Z.to_nat c). split; [lia|]. apply in_seq. lia.
Qed.

(** Bytes the boundary search steps over one at a time. *)
Definition plain (c : Z) : bool := negb (mem c (str ",;:<>(")) && negb (c =? DQ) && negb (is_blank c).

Lemma atext_positive c : bounded_atext c = true -> 0 < c.
Proof.
  unfold bounded_atext. intros H. repeat (apply orb_true_iff in H as [H|H]); boolify; try lia.
  assert (Hall : Forall (fun c => 0 < c) atext_specials) by (vm_compute; repeat constructor).
  rewrite Forall_forall in Hall. now apply Hall, mem_spec.
Qed.

Lemma mem_high c set : Forall (fun x => x < 128) set -> 128 <= c -> mem c set = false.
Proof.
  intros Hs Hc. destruct (mem c set) eqn:E; [|reflexivity]. apply mem_spec in E.
  rewrite Forall_forall in Hs. specialize (Hs c E). lia.
Qed.

Lemma phrase_plain c : phrase_byte c = true -> plain c = true.
Proof.
  unfold phrase_byte. intros [H|H]%orb_true_iff; [|apply Z.eqb_eq in H as ->; reflexivity].
  pose proof (atext_positive c H). apply (byte_check bounded_atext plain); [vm_compute; reflexivity| |lia|exact H].
  intros Hc. unfold plain, is_blank. rewrite (mem_high c) by (vm_compute; repeat constructor || exact Hc).
  cbn [negb andb]. lia.
Qed.

Lemma domain_atext c : domain_byte c = true -> bounded_atext c = true.
Proof.
  intros H. apply (byte_check domain_byte bounded_atext); [vm_compute; reflexivity| | |exact H].
  - intros Hc. unfold bounded_atext. apply Z.leb_le in Hc. now rewrite Hc.
  - unfold domain_byte in H. repeat (apply orb_true_iff in H as [H|H]); boolify; lia.
Qed.

Lemma plain_visible c s : plain c = true -> visible (c :: s).
Proof.
  unfold plain. intros H. boolify. split; [assumption|]. intros ->. discriminate.
Qed.

Section Lexing.
Context (capacity : nat).

Lemma boundary_plain a r : Forall (fun c => plain c = true \/ c = SP) a ->
  bounded_boundary (a ++ r) capacity = bounded_boundary r capacity.
Proof.
  induction 1 as [|c a Hc _ IH]; [reflexivity|]. cbn [app]. rewrite boundary_eq, IH.
  destruct Hc as [Hc| ->]; [|reflexivity]. unfold plain in Hc. boolify.
  assert (E1 : mem c (str ",;:<>") = false).
  { destruct (mem c (str ",;:<>")) eqn:E; [|reflexivity]. apply mem_spec in E.
    assert (mem c (str ",;:<>(") = true); [|congruence]. apply mem_spec.
    change (str ",;:<>(") with (str ",;:<>" ++ str "("). rewrite elem_of_app. now left. }
  rewrite E1. destruct (c =? ch "(") eqn:E2; [apply Z.eqb_eq in E2 as ->; discriminate|].
  match goal with H : (c =? DQ) = false |- _ => now rewrite H | H : c <> DQ |- _ => apply Z.eqb_neq in H; now rewrite H end.
Qed.

Lemma boundary_quoted q r : quoted_ok q ->
  bounded_boundary (quoted_text q ++ r) capacity = bounded_boundary r capacity.
Proof.
  intros Hq. destruct (parse_quote_text q r (capacity - 1) Hq) as (t & E & _).
  change (quoted_text q ++ r) with (DQ :: (tail (quoted_text q) ++ r)). rewrite boundary_eq.
  cbn [mem existsb str map String.list_ascii_of_string]. change (mem DQ (str ",;:<>")) with false.
  cbn [Z.eqb Pos.eqb]. now rewrite E.
Qed.

Lemma atom_plain a : atom_ok phrase_byte a -> Forall (fun c => plain c = true \/ c = SP) a.
Proof. intros [_ H]. eapply Forall_impl; [exact H|]. intros c Hc. left. now apply phrase_plain. Qed.

Lemma boundary_words l r : Forall word_ok l ->
  bounded_boundary (words_text l ++ r) capacity = bounded_boundary r capacity.
Proof.
  unfold words_text. induction 1 as [|w l Hw _ IH]; [reflexivity|]. cbn [map concat]. rewrite <- !app_assoc.
  assert (Hs : forall s, bounded_boundary ([SP] ++ s) capacity = bounded_boundary s capacity)
    by (intros s; apply boundary_plain; repeat constructor; now right).
  destruct w as [a|q]; cbn [word_text].
  - rewrite boundary_plain by now apply atom_plain. now rewrite Hs, IH.
  - rewrite boundary_quoted by exact Hw. now rewrite Hs, IH.
Qed.

Lemma dotted_bytes p f m (P : Z -> Prop) : atom_ok p f -> Forall (atom_ok p) m -> (forall c, p c = true -> P c) -> P (ch ".") ->
  Forall P (dotted f m).
Proof.
  intros [_ Hf] Hm Hp Hdot. unfold dotted. apply Forall_app. split; [eapply Forall_impl; [exact Hf|auto]|].
  apply Forall_concat, Forall_map. eapply Forall_impl; [exact Hm|]. intros a [_ Ha]. cbv beta.
  constructor; [exact Hdot|]. eapply Forall_impl; [exact Ha|auto].
Qed.

Lemma boundary_address a r : address_ok a ->
  bounded_boundary (address_text a ++ r) capacity = bounded_boundary r capacity.
Proof.
  intros (Hl & Hf & Hm). unfold address_text. rewrite <- app_assoc.
  assert (Hd : bounded_boundary ((ch "@" :: dotted (a_first a) (a_more a)) ++ r) capacity = bounded_boundary r capacity).
  { apply boundary_plain. constructor; [now left|]. eapply dotted_bytes; [exact Hf|exact Hm| |now left].
    intros c Hc. left. apply phrase_plain. unfold phrase_byte. now rewrite domain_atext. }
  destruct (a_local a) as [f m|q]; cbn [local_text local_ok] in *.
  - rewrite boundary_plain; [exact Hd|]. destruct Hl as [Hf' Hm']. eapply dotted_bytes; [exact Hf'|exact Hm'| |now left].
    intros c Hc. left. apply phrase_plain. unfold phrase_byte. now rewrite Hc.
  - now rewrite boundary_quoted.
Qed.

Lemma boundary_at c r : mem c (str ",;:<>") = true -> bounded_boundary (c :: r) capacity = Some (c :: r).
Proof. intros H. now rewrite boundary_eq, H. Qed.

(** The rest [r] is where [p] ends or where the item ends. *)
Lemma span_before_atom p a r e : Forall (fun c => p c = true) a -> (length e <= length r)%nat ->
  (length r = length e \/ match r with c :: _ => p c = false | [] => True end) ->
  span_before p (a ++ r) e = (a, r).
Proof.
  intros Ha He Hr. induction Ha as [|c a Hc _ IH]; cbn [app].
  - destruct r as [|c r]; [reflexivity|]. cbn [span_before]. destruct Hr as [Hr| ->]; [|now rewrite andb_false_r].
    unfold before. rewrite Hr, Nat.ltb_irrefl. reflexivity.
  - cbn [span_before]. rewrite Hc, IH. unfold before. cbn [length]. rewrite length_app.
    destruct (Nat.ltb_spec (length e) (S (length a + length r))); [reflexivity|lia].
Qed.
End Lexing.

Section Grammar.
Context (capacity : nat).

(** *** Phrases *)

Lemma visible_word w r : word_ok w -> visible (word_text w ++ r) /\ (0 < length (word_text w))%nat.
Proof.
  destruct w as [[|c a]|q]; cbn [word_ok word_text]; [now intros []| |].
  - intros [_ Ha]. rewrite Forall_cons in Ha. destruct Ha as [Hc _]. split; [|cbn; lia].
    now apply plain_visible, phrase_plain.
  - intros _. split; [now split|cbn; lia].
Qed.

Lemma phrase_words fuel (sp : bool) l e tokens : Forall word_ok l -> visible e ->
  (length (words_text l ++ e) + (if sp then 1 else 0) < fuel)%nat -> (l <> [] \/ tokens <> 0%nat) ->
  phrase_loop fuel ((if sp then [SP] else []) ++ words_text l ++ e) e capacity tokens = true.
Proof.
  intros Hl He. revert fuel sp tokens. induction Hl as [|w l Hw Hl IH]; intros fuel sp tokens Hf Ht;
    (destruct fuel as [|fuel]; [lia|]).
  - cbn [words_text map concat app phrase_loop]. destruct Ht as [Ht|Ht]; [easy|]. apply Nat.eqb_neq in Ht.
    unfold before. destruct sp; cbn [app length]; [|rewrite Nat.ltb_irrefl; now rewrite Ht].
    destruct (Nat.ltb_spec (length e) (S (length e))); [|lia]. rewrite cfws_space, (cfws_visible e He).
    rewrite Nat.ltb_irrefl, Nat.eqb_refl, Ht. reflexivity.
  - unfold words_text in *. cbn [map concat] in *. rewrite <- !app_assoc in *. set (r := [SP] ++ concat _ ++ e) in *.
    assert (Hr : (length e < length r)%nat) by (unfold r; rewrite !length_app; cbn [length]; lia).
    destruct (visible_word w r Hw) as [Hv Hw0]. rewrite length_app in Hf.
    assert (Hnext : phrase_loop fuel r e capacity (S tokens) = true).
    { apply (IH fuel true); [fold r in Hf; unfold r in Hf; rewrite length_app in Hf; cbn [length] in Hf; lia|now right]. }
    assert (Hc : bounded_cfws ((if sp then [SP] else []) ++ word_text w ++ r) = Some (word_text w ++ r)).
    { destruct sp; cbn [app]; [rewrite cfws_space|]; now apply cfws_visible. }
    cbn [phrase_loop]. rewrite Hc. unfold before. rewrite !length_app.
    destruct (Nat.ltb_spec (length e) (length (if sp then [SP] else []) + (length (word_text w) + length r))); [|lia].
    destruct (Nat.ltb_spec (length (word_text w) + length r) (length e)); [lia|].
    destruct (Nat.eqb_spec (length (word_text w) + length r) (length e)); [lia|].
    destruct w as [a|q]; cbn [word_text word_ok] in *.
    + pose proof (span_before_atom phrase_byte a r e (proj2 Hw) ltac:(lia) ltac:(now right)) as Hsp.
      destruct a as [|c a]; [now destruct Hw|]. cbn [app] in *. destruct Hw as [_ Ha]. rewrite Forall_cons in Ha.
      destruct Ha as [Hc0 _]. pose proof (phrase_plain c Hc0) as Hp. unfold plain in Hp. boolify.
      match goal with H : context [c =? DQ] |- _ => rewrite H | H : c <> DQ |- _ => apply Z.eqb_neq in H; rewrite H end.
      rewrite Hc0. cbn [negb]. rewrite Hsp. exact Hnext.
    + destruct (parse_quote_text q r (capacity - 1) Hw) as (t & E & _).
      change (quoted_text q ++ r) with (DQ :: (tail (quoted_text q) ++ r)). cbn [Z.eqb Pos.eqb]. rewrite E.
      destruct (Nat.ltb_spec (length r) (length e)); [lia|]. exact Hnext.
Qed.

Lemma phrase_complete l e : Forall word_ok l -> l <> [] -> visible e ->
  bounded_phrase (words_text l ++ e) e capacity = true.
Proof.
  intros Hl Hne He. unfold bounded_phrase. apply (phrase_words _ false); auto. lia.
Qed.

(** *** Addresses *)

(** The text after an item: its end, or a delimiter. *)
Definition item_end (e : bytes) : Prop := match e with c :: _ => mem c (str ",;>") = true | [] => True end.

Lemma item_end_visible e : item_end e -> visible e.
Proof.
  destruct e as [|c e]; [easy|]. intros H. apply mem_spec in H. cbn in H. split.
  - repeat (apply elem_of_cons in H as [->|H]; [reflexivity|]). now apply elem_of_nil in H.
  - intros ->. repeat (apply elem_of_cons in H as [H|H]; [discriminate|]). now apply elem_of_nil in H.
Qed.

Lemma atom_visible p a r : (forall c, p c = true -> plain c = true) -> atom_ok p a -> visible (a ++ r).
Proof.
  intros Hp [Hne Ha]. destruct a as [|c a]; [easy|]. rewrite Forall_cons in Ha. apply plain_visible, Hp, Ha.
Qed.

Lemma dotted_cons f a m : dotted f (a :: m) = f ++ ch "." :: dotted a m.
Proof. reflexivity. Qed.

Lemma local_dotted fuel f m r e out : atom_ok bounded_atext f -> Forall (atom_ok bounded_atext) m ->
  (length e <= length r)%nat -> (length (dotted f m) < fuel)%nat ->
  local_loop fuel (dotted f m ++ ch "@" :: r) e out = Some (ch "@" :: r, out ++ dotted f m).
Proof.
  intros Hf Hm He. revert fuel f Hf out. induction Hm as [|a m Ha Hm IH]; intros fuel f Hf out Hfuel;
    (destruct fuel as [|fuel]; [lia|]); cbn [local_loop].
  - unfold dotted. cbn [map concat]. rewrite app_nil_r.
    rewrite (span_before_atom _ f (ch "@" :: r) e (proj2 Hf)) by (cbn [length]; lia || (right; reflexivity)).
    destruct f as [|c f]; [now destruct Hf|]. cbn [length Nat.eqb].
    rewrite cfws_visible by (split; [reflexivity|discriminate]). cbn [mbind option_bind length].
    destruct (Nat.ltb_spec (S (length r)) (length e)); [lia|]. destruct (Nat.eqb_spec (S (length r)) (length e)); [lia|].
    cbn [Z.eqb Pos.eqb]. reflexivity.
  - rewrite dotted_cons in *. rewrite <- app_assoc. cbn [app]. rewrite length_app in Hfuel. cbn [length] in Hfuel.
    set (r1 := dotted a m ++ ch "@" :: r) in *.
    assert (Hr1 : (length e < length r1)%nat) by (unfold r1; rewrite length_app; cbn [length]; lia).
    rewrite (span_before_atom _ f (ch "." :: r1) e (proj2 Hf)) by (cbn [length]; lia || (right; reflexivity)).
    destruct f as [|c f]; [now destruct Hf|]. cbn [length Nat.eqb].
    rewrite (cfws_visible (ch "." :: r1)) by (split; [reflexivity|discriminate]). cbn [mbind option_bind length].
    destruct (Nat.ltb_spec (S (length r1)) (length e)); [lia|]. destruct (Nat.eqb_spec (S (length r1)) (length e)); [lia|].
    cbn [Z.eqb Pos.eqb]. rewrite (cfws_visible r1).
    + cbn [mbind option_bind]. unfold before. destruct (Nat.ltb_spec (length e) (length r1)); [|lia].
      unfold r1. rewrite IH by (auto; cbn [length] in *; lia). now rewrite <- !app_assoc.
    + unfold r1. destruct m as [|b m]; unfold dotted; rewrite <- app_assoc; (eapply atom_visible; [|exact Ha]);
        intros x Hx; apply phrase_plain; unfold phrase_byte; now rewrite Hx.
Qed.
Lemma domain_plain c : domain_byte c = true -> plain c = true.
Proof. intros H. apply phrase_plain. unfold phrase_byte. now rewrite domain_atext. Qed.

Lemma end_not_dot e : item_end e -> match e with c :: _ => c =? ch "." = false /\ domain_byte c = false | [] => True end.
Proof.
  destruct e as [|c e]; [easy|]. intros H. apply mem_spec in H. cbn in H.
  repeat (apply elem_of_cons in H as [->|H]; [split; reflexivity|]). now apply elem_of_nil in H.
Qed.

Lemma domain_dotted fuel f m e out : atom_ok domain_byte f -> Forall (atom_ok domain_byte) m ->
  item_end e -> (length (dotted f m) < fuel)%nat ->
  domain_loop fuel (dotted f m ++ e) e out = Some (e, out ++ dotted f m).
Proof.
  intros Hf Hm He. revert fuel f Hf out. induction Hm as [|a m Ha Hm IH]; intros fuel f Hf out Hfuel;
    (destruct fuel as [|fuel]; [lia|]); cbn [domain_loop].
  - unfold dotted in *. cbn [map concat] in *. rewrite app_nil_r in *.
    rewrite cfws_visible by (now apply (atom_visible domain_byte); [apply domain_plain|]). cbn [mbind option_bind].
    pose proof (proj1 Hf) as Hne. unfold before. rewrite length_app.
    destruct f as [|c f]; [easy|]. cbn [length]. destruct (Nat.ltb_spec (length e) (S (length f) + length e)); [|lia]. cbn [negb].
    rewrite (span_before_atom _ (c :: f) e e (proj2 Hf)) by (lia || now left). cbn [length Nat.eqb].
    rewrite cfws_visible by now apply item_end_visible. cbn [mbind option_bind].
    now rewrite Nat.ltb_irrefl, Nat.eqb_refl.
  - rewrite dotted_cons in *. rewrite <- app_assoc. cbn [app]. rewrite length_app in Hfuel. cbn [length] in Hfuel.
    set (r1 := dotted a m ++ e) in *. assert (Hr1 : (length e <= length r1)%nat) by (unfold r1; rewrite length_app; lia).
    rewrite cfws_visible by (now apply (atom_visible domain_byte); [apply domain_plain|]). cbn [mbind option_bind].
    unfold before. rewrite length_app. cbn [length].
    destruct (Nat.ltb_spec (length e) (length f + S (length r1))); [|lia]. cbn [negb].
    rewrite (span_before_atom _ f (ch "." :: r1) e (proj2 Hf)) by (cbn [length]; lia || (right; reflexivity)).
    destruct f as [|c f]; [now destruct Hf|]. cbn [length Nat.eqb].
    rewrite (cfws_visible (ch "." :: r1)) by (split; [reflexivity|discriminate]). cbn [mbind option_bind length].
    destruct (Nat.ltb_spec (S (length r1)) (length e)); [lia|]. destruct (Nat.eqb_spec (S (length r1)) (length e)); [lia|].
    cbn [Z.eqb Pos.eqb]. unfold r1. rewrite IH by (auto; cbn [length] in *; lia). now rewrite <- !app_assoc.
Qed.

Lemma visible_address a r : address_ok a -> visible (address_text a ++ r).
Proof.
  intros (Hl & _ & _). unfold address_text. rewrite <- app_assoc. destruct (a_local a) as [f m|q]; cbn [local_text local_ok] in *.
  - unfold dotted. rewrite <- app_assoc. eapply atom_visible; [|apply Hl]. intros c Hc. apply phrase_plain.
    unfold phrase_byte. now rewrite Hc.
  - now split.
Qed.

(** An address is read back as itself when the scratch buffer can hold it. *)
Lemma spec_complete a e : address_ok a -> item_end e -> (length (address_text a) < capacity)%nat ->
  spec_text (address_text a ++ e) e capacity = Some (address_text a).
Proof.
  intros Ha He Hcap. pose proof Ha as (Hl & Hf & Hm). unfold spec_text.
  rewrite cfws_visible by now apply visible_address. cbn [mbind option_bind].
  set (d := dotted (a_first a) (a_more a)).
  assert (Ht : address_text a ++ e = local_text (a_local a) ++ ch "@" :: d ++ e)
    by (unfold address_text; rewrite <- app_assoc; reflexivity).
  assert (Hlen : length (address_text a) = (length (local_text (a_local a)) + S (length d))%nat)
    by (unfold address_text; rewrite length_app; reflexivity).
  rewrite Ht. unfold before. rewrite length_app. cbn [length]. rewrite length_app.
  destruct (Nat.ltb_spec (length e) (length (local_text (a_local a)) + S (length d + length e))); [|lia]. cbn [negb].
  assert (Hlp : local_part (local_text (a_local a) ++ ch "@" :: d ++ e) e capacity = Some (ch "@" :: d ++ e, local_text (a_local a))).
  { unfold local_part. destruct (a_local a) as [f m|q]; cbn [local_text local_ok] in *.
    - destruct Hl as [Hf' Hm'].
      assert (Hne : exists c t, dotted f m = c :: t /\ c <> DQ).
      { destruct f as [|c f]; [now destruct Hf'|]. exists c, (f ++ concat (map (fun a => ch "." :: a) m)). split; [reflexivity|].
        destruct Hf' as [_ Hf']. rewrite Forall_cons in Hf'. intros ->. now destruct Hf'. }
      destruct Hne as (c & t & E & Hc). rewrite E. cbn [app]. apply Z.eqb_neq in Hc. rewrite Hc.
      change (c :: t ++ ch "@" :: d ++ e) with ((c :: t) ++ ch "@" :: d ++ e). rewrite <- E.
      apply (local_dotted _ f m (d ++ e) e []); auto; [rewrite length_app; lia|]. rewrite length_app. cbn [length]. lia.
    - destruct (parse_quote_text q (ch "@" :: d ++ e) (capacity - 1) Hl) as (t & E & Et).
      change (quoted_text q ++ ch "@" :: d ++ e) with (DQ :: (tail (quoted_text q) ++ ch "@" :: d ++ e)).
      cbn [Z.eqb Pos.eqb]. rewrite E. cbn [mbind option_bind length]. rewrite length_app.
      destruct (Nat.ltb_spec (S (length d + length e)) (length e)); [lia|].
      rewrite cfws_visible by (split; [reflexivity|discriminate]). cbn [mbind option_bind]. rewrite Et by lia. reflexivity. }
  rewrite Hlp. cbn [mbind option_bind length]. rewrite length_app.
  destruct (Nat.ltb_spec (length e) (S (length d + length e))); [|lia]. cbn [negb Z.eqb Pos.eqb].
  pose proof (domain_dotted (S (length (d ++ e))) (a_first a) (a_more a) e (local_text (a_local a) ++ [ch "@"]) Hf Hm He) as Hd.
  fold d in Hd. rewrite length_app in Hd. rewrite Hd by lia. cbn [mbind option_bind]. rewrite Nat.eqb_refl.
  unfold address_text. fold d. now rewrite <- app_assoc.
Qed.
(** *** Items *)

Context {S : Type} (emit : S -> bytes -> S * bool).

(** The text after an entry of a list or a group. *)
Definition entry_end (e : bytes) : Prop := match e with c :: _ => mem c (str ",;") = true | [] => True end.

Lemma entry_item_end e : entry_end e -> item_end e.
Proof.
  destruct e as [|c e]; [easy|]. intros H. apply mem_spec in H. apply mem_spec.
  change (str ",;>") with (str ",;" ++ str ">"). rewrite elem_of_app. now left.
Qed.

Lemma entry_boundary e : entry_end e -> bounded_boundary e capacity = Some e.
Proof.
  destruct e as [|c e]; [reflexivity|]. intros H. apply boundary_at. apply mem_spec in H. apply mem_spec.
  change (str ",;:<>") with (str ",;" ++ str ":<>"). rewrite elem_of_app. now left.
Qed.

Lemma entry_end_cases c e : entry_end (c :: e) -> c = ch "," \/ c = ch ";".
Proof. intros H. apply mem_spec in H. cbn in H. rewrite !elem_of_cons in H. destruct H as [H|[H|H]]; auto. now apply elem_of_nil in H. Qed.

(** One emission, as a step of the parser. *)
Definition step (t e s : bytes) (st : S) : Z * S * bytes :=
  let '(st, stop) := emit st t in if stop then (RFC822_BOUNDED_EMIT, st, s) else (0, st, e).

Lemma mailbox_complete m e st : entry_ok m -> entry_end e ->
  (length (address_text (address_of m)) < capacity)%nat ->
  bounded_mailbox emit capacity (entry_text m ++ e) st = step (address_text (address_of m)) e (entry_text m ++ e) st.
Proof.
  intros [Hw Ha] He Hcap. unfold bounded_mailbox, entry_text, step. destruct (display m) as [|w l].
  - rewrite boundary_address, (entry_boundary e He) by exact Ha.
    assert (Hne : forall k, mem k (str ":><") = true -> match e with d :: _ => d =? k | [] => false end = false).
    { intros k Hk. destruct e as [|c e]; [reflexivity|]. apply Z.eqb_neq. intros ->.
      destruct (entry_end_cases _ _ He) as [-> | ->]; discriminate. }
    rewrite !Hne by reflexivity. cbn [orb]. unfold bounded_spec. rewrite spec_complete; auto using entry_item_end.
    destruct (emit st _) as [st' []]; reflexivity.
  - set (a := address_text (address_of m)) in *. set (ws := words_text (w :: l)) in *.
    assert (Et : (ws ++ ch "<" :: a ++ [ch ">"]) ++ e = ws ++ ch "<" :: (a ++ ch ">" :: e)) by (list_assoc; reflexivity).
    rewrite Et. unfold ws at 1. rewrite boundary_words by exact Hw. rewrite boundary_at by reflexivity.
    cbn [Z.eqb Pos.eqb orb tail]. fold ws.
    assert (Hvis : visible (ws ++ ch "<" :: (a ++ ch ">" :: e))).
    { unfold ws, words_text. cbn [map concat]. rewrite <- !app_assoc. apply visible_word. now inversion Hw. }
    rewrite (cfws_visible _ Hvis).
    assert (Hp : bounded_phrase (ws ++ ch "<" :: (a ++ ch ">" :: e)) (ch "<" :: (a ++ ch ">" :: e)) capacity = true)
      by (apply phrase_complete; [exact Hw|discriminate|now split]).
    rewrite Hp. cbn [negb]. rewrite andb_false_r. unfold a at 1. rewrite boundary_address by exact Ha.
    rewrite boundary_at by reflexivity. cbn [Z.eqb Pos.eqb negb]. unfold bounded_spec.
    pose proof (spec_complete (address_of m) (ch ">" :: e) Ha eq_refl Hcap) as Hs. fold a in Hs. rewrite Hs.
    destruct (emit st a) as [st' []]; [reflexivity|]. cbn [Z.eqb negb].
    rewrite (cfws_visible e) by now apply item_end_visible, entry_item_end.
    destruct e as [|c e]; [reflexivity|]. destruct (entry_end_cases _ _ He) as [-> | ->]; reflexivity.
Qed.

Lemma entry_visible m r : entry_ok m -> exists c t, entry_text m ++ r = c :: t /\ visible (c :: t) /\ c <> ch ";".
Proof.
  intros [Hw Ha]. assert (Hv : visible (entry_text m ++ r) /\ (0 < length (entry_text m))%nat /\
    (match entry_text m with c :: _ => c = DQ \/ plain c = true | [] => True end)).
  { unfold entry_text. destruct (display m) as [|w l].
    - split; [now apply visible_address|]. destruct Ha as (Hl & _ & _). unfold address_text.
      destruct (a_local _) as [f mm|q]; cbn [local_text local_ok] in *; [|cbn; split; [lia|auto]].
      destruct Hl as [[Hne Hf] _]. destruct f as [|c f]; [easy|]. rewrite Forall_cons in Hf. destruct Hf as [Hc _].
      unfold dotted. cbn [app]. split; [cbn; lia|]. right. apply phrase_plain. unfold phrase_byte. now rewrite Hc.
    - rewrite Forall_cons in Hw. destruct Hw as [Hw _]. unfold words_text. cbn [map concat]. rewrite <- !app_assoc.
      split; [now apply visible_word|]. pose proof (proj2 (visible_word w [] Hw)) as H0.
      split; [rewrite length_app; lia|]. destruct w as [a|q]; cbn [word_text word_ok] in *; [|cbn; auto].
      destruct a as [|c a]; [now destruct Hw|]. destruct Hw as [_ Hf]. rewrite Forall_cons in Hf. right. now apply phrase_plain. }
  destruct Hv as (Hv & H0 & Hc). destruct (entry_text m) as [|c t]; [cbn in H0; lia|]. exists c, (t ++ r).
  split_and!; [reflexivity|exact Hv|]. destruct Hc as [->|Hc]; [discriminate|]. intros ->. discriminate.
Qed.

Lemma entry_length m : (length (address_text (address_of m)) <= length (entry_text m))%nat.
Proof. unfold entry_text. destruct (display m); [lia|]. rewrite length_app. cbn [length]. rewrite length_app. lia. Qed.

Abbreviation addresses := (map (fun m => address_text (address_of m))).

(** The outcome of a run of emissions that leaves the cursor at [e]. *)
Definition ran (l : list bytes) (e : bytes) (st : S) (x : Z * S * bytes) : Prop :=
  x.1 = emit_all emit l st /\ (x.1.1 = 0 -> x.2 = e).

Lemma step_ran t e s st : ran [t] e st (step t e s st).
Proof. unfold ran, step. cbn [emit_all]. destruct (emit st t) as [st' []]; cbn; split; auto; discriminate. Qed.

Lemma group_complete fuel m l r st : Forall entry_ok (m :: l) ->
  (length (separated entry_text (m :: l)) < capacity)%nat -> (length (m :: l) <= fuel)%nat ->
  ran (addresses (m :: l)) (ch ";" :: r) st
    (group_loop emit capacity fuel (separated entry_text (m :: l) ++ ch ";" :: r) st).
Proof.
  revert m fuel st. induction l as [|m' l IH]; intros m fuel st Hok Hcap Hf; rewrite Forall_cons in Hok; destruct Hok as [Hm Hok];
    (destruct fuel as [|fuel]; [cbn in Hf; lia|]); pose proof (entry_length m) as Hlen; cbn [group_loop].
  - cbn [separated] in *. rewrite mailbox_complete by (auto; lia || reflexivity). unfold step, ran. cbn [map emit_all].
    destruct (emit st _) as [st' []]; cbn; auto. split; [reflexivity|discriminate].
  - change (separated entry_text (m :: m' :: l)) with (entry_text m ++ comma ++ separated entry_text (m' :: l)) in *.
    rewrite !length_app in Hcap. rewrite <- !app_assoc. cbn [comma app].
    rewrite mailbox_complete by (auto; lia || reflexivity). unfold step.
    change (addresses (m :: m' :: l)) with (address_text (address_of m) :: addresses (m' :: l)). unfold ran. cbn [emit_all].
    destruct (emit st _) as [st' []]; cbn [Z.eqb negb Pos.eqb]; [split; [reflexivity|discriminate]|].
    rewrite cfws_space. rewrite Forall_cons in Hok. destruct Hok as [Hm' Hok].
    assert (Hne : exists c t, separated entry_text (m' :: l) ++ ch ";" :: r = c :: t /\ visible (c :: t) /\ c <> ch ";").
    { destruct l; cbn [separated]; [|rewrite <- app_assoc]; now apply entry_visible. }
    destruct Hne as (c & t & E & Hv & Hc). rewrite E, (cfws_visible _ Hv). apply Z.eqb_neq in Hc. rewrite Hc, <- E.
    apply IH; [now constructor|lia|cbn in *; lia].
Qed.
(** A list item ends at a comma or at the end of the text. *)
Definition list_end (e : bytes) : Prop := match e with c :: _ => c = ch "," | [] => True end.

Lemma list_entry_end e : list_end e -> entry_end e.
Proof. destruct e as [|c e]; [easy|]. intros ->. reflexivity. Qed.

Lemma item_complete i e st : item_ok i -> list_end e -> (length (item_text i) < capacity)%nat ->
  ran (item_addresses i) e st (list_item emit capacity (item_text i ++ e) st).
Proof.
  intros Hi He Hcap. unfold list_item. destruct i as [m|name members]; cbn [item_ok item_text item_addresses] in *.
  - pose proof (entry_length m).
    assert (Hb : exists b, bounded_boundary (entry_text m ++ e) capacity = Some b /\
      match b with d :: _ => d =? ch ":" | [] => false end = false).
    { destruct Hi as [Hw Ha]. unfold entry_text. destruct (display m) as [|w l].
      - rewrite boundary_address, (entry_boundary e (list_entry_end e He)) by exact Ha. exists e. split; [reflexivity|].
        destruct e as [|c e]; [reflexivity|]. now rewrite He.
      - rewrite <- app_assoc. cbn [app]. rewrite boundary_words, boundary_at by (exact Hw || reflexivity).
        eexists. split; reflexivity. }
    destruct Hb as (b & -> & ->). rewrite mailbox_complete by (auto using list_entry_end; lia). apply step_ran.
  - destruct Hi as (Hne & Hname & Hm).
    assert (Et : (words_text name ++ ch ":" :: separated entry_text members ++ [ch ";"]) ++ e =
      words_text name ++ ch ":" :: (separated entry_text members ++ ch ";" :: e)) by (list_assoc; reflexivity).
    rewrite Et, boundary_words, boundary_at by (exact Hname || reflexivity). cbn [Z.eqb Pos.eqb tail].
    rewrite phrase_complete by (auto; now split). cbn [negb].
    assert (Hend : forall r, bounded_cfws (tail (ch ";" :: r)) = bounded_cfws r) by reflexivity.
    assert (Hce : bounded_cfws e = Some e) by (apply cfws_visible, item_end_visible, entry_item_end, list_entry_end, He).
    destruct members as [|m l].
    + cbn [separated app]. rewrite (cfws_visible (ch ";" :: e)) by (split; [reflexivity|discriminate]).
      cbn [Z.eqb Pos.eqb negb tail]. rewrite Hce. split; reflexivity.
    + assert (Hne' : exists c t, separated entry_text (m :: l) ++ ch ";" :: e = c :: t /\ visible (c :: t) /\ c <> ch ";").
      { rewrite Forall_cons in Hm. destruct l; cbn [separated]; [|rewrite <- app_assoc]; now apply entry_visible. }
      destruct Hne' as (c & t & E & Hv & Hc). rewrite E, (cfws_visible _ Hv). apply Z.eqb_neq in Hc. rewrite Hc, <- E.
      rewrite !length_app in Hcap. cbn [length] in Hcap. rewrite length_app in Hcap. cbn [length] in Hcap.
      destruct (group_complete (length (separated entry_text (m :: l) ++ ch ";" :: e)) m l e st Hm) as [G1 G2].
      { lia. }
      { rewrite length_app. cbn [length]. clear. revert m. induction l as [|m' l IH]; intros m; [cbn; lia|].
        change (separated entry_text (m :: m' :: l)) with (entry_text m ++ comma ++ separated entry_text (m' :: l)).
        specialize (IH m'). rewrite !length_app. cbn [length comma] in *. lia. }
      destruct (group_loop _ _ _ _ _) as [[rc st1] s2]. cbn [fst snd] in G1, G2.
      destruct (Z.eqb_spec rc 0) as [->|Hrc]; cbn [negb].
      * rewrite G2 by reflexivity. cbn [tail]. rewrite Hce. split; [exact G1|reflexivity].
      * split; [exact G1|]. now cbn.
Qed.

Lemma item_visible i r : item_ok i -> exists c t, item_text i ++ r = c :: t /\ visible (c :: t).
Proof.
  destruct i as [m|name members]; cbn [item_ok item_text].
  - intros Hm. destruct (entry_visible m r Hm) as (c & t & H1 & H2 & _). eauto.
  - intros (Hne & Hname & _). destruct name as [|w l]; [easy|]. rewrite Forall_cons in Hname. destruct Hname as [Hw _].
    unfold words_text. cbn [map concat]. rewrite <- !app_assoc. set (q := [SP] ++ _).
    destruct (visible_word w q Hw) as [Hv H0]. destruct (word_text w) as [|c t]; [cbn in H0; lia|]. exists c, (t ++ q). auto.
Qed.

Lemma list_complete fuel i l st : Forall item_ok (i :: l) ->
  (length (separated item_text (i :: l)) < capacity)%nat -> (length (i :: l) <= fuel)%nat ->
  list_loop emit capacity fuel (separated item_text (i :: l)) st = emit_all emit (concat (map item_addresses (i :: l))) st.
Proof.
  revert i fuel st. induction l as [|i' l IH]; intros i fuel st Hok Hcap Hf; rewrite Forall_cons in Hok; destruct Hok as [Hi Hok];
    (destruct fuel as [|fuel]; [cbn in Hf; lia|]); cbn [list_loop map concat].
  - cbn [separated] in *. rewrite app_nil_r. rewrite <- (app_nil_r (item_text i)).
    destruct (item_complete i [] st Hi I Hcap) as [G1 G2]. destruct (list_item _ _ _ _) as [[rc st1] s1]. cbn [fst snd] in *.
    rewrite <- G1. destruct (Z.eqb_spec rc 0) as [->|Hrc]; cbn [negb]; [|reflexivity]. now rewrite G2.
  - change (separated item_text (i :: i' :: l)) with (item_text i ++ comma ++ separated item_text (i' :: l)) in *.
    rewrite !length_app in Hcap. rewrite emit_all_app.
    destruct (item_complete i (comma ++ separated item_text (i' :: l)) st Hi eq_refl ltac:(lia)) as [G1 G2].
    destruct (list_item _ _ _ _) as [[rc st1] s1]. cbn [fst snd] in *. rewrite <- G1.
    destruct (Z.eqb_spec rc 0) as [->|Hrc]; cbn [negb]; [|reflexivity]. rewrite G2 by reflexivity. cbn [comma app Z.eqb Pos.eqb negb].
    rewrite cfws_space. assert (Hne : exists c t, separated item_text (i' :: l) = c :: t /\ visible (c :: t)).
    { rewrite Forall_cons in Hok. destruct Hok as [Hi' _]. destruct l; cbn [separated].
      - destruct (item_visible i' [] Hi') as (c & t & H1 & H2). rewrite app_nil_r in H1. eauto.
      - destruct (item_visible i' (comma ++ separated item_text (i0 :: l)) Hi') as (c & t & H1 & H2). eauto. }
    destruct Hne as (c & t & E & Hv). rewrite E, (cfws_visible _ Hv), <- E.
    apply IH; [exact Hok|lia|cbn in *; lia].
Qed.
End Grammar.

Lemma items_length i l : (length (i :: l) <= length (separated item_text (i :: l)))%nat.
Proof.
  assert (Hi : forall i, (1 <= length (item_text i))%nat).
  { intros [m|name members]; cbn [item_text]; [|rewrite length_app; cbn; lia]. pose proof (entry_length m).
    unfold address_text in *. rewrite length_app in *. cbn [length] in *. lia. }
  revert i. induction l as [|i' l IH]; intros i; [apply Hi|].
  change (separated item_text (i :: i' :: l)) with (item_text i ++ comma ++ separated item_text (i' :: l)).
  specialize (IH i'). specialize (Hi i). rewrite !length_app. cbn [length comma] in *. lia.
Qed.

(** C27. Every address field a message writer can produce is read in full: for a
    list of mailboxes and groups printed with display names, quoted strings,
    dot-atoms and separators, the parser hands exactly the addresses of the list
    to the callback, in order and as written, until the callback stops it.
    Display names, group names and quotes in them never yield an address. *)
Theorem mailboxes_complete {S : Type} (emit : S -> bytes -> S * bool) capacity i l st :
  Forall item_ok (i :: l) -> (length (separated item_text (i :: l)) < capacity)%nat ->
  mem 0 (separated item_text (i :: l)) = false ->
  rfc822_parse_mailboxes emit capacity (separated item_text (i :: l)) st =
  emit_all emit (concat (map item_addresses (i :: l))) st.
Proof.
  intros Hok Hcap Hnul. unfold rfc822_parse_mailboxes. apply Nat.leb_gt in Hcap as Hc. rewrite Hc, Hnul.
  assert (Hv : exists c t, separated item_text (i :: l) = c :: t /\ visible (c :: t)).
  { rewrite Forall_cons in Hok. destruct Hok as [Hi _]. destruct l as [|i' l]; cbn [separated].
    - destruct (item_visible i [] Hi) as (c & t & H1 & H2). rewrite app_nil_r in H1. eauto.
    - destruct (item_visible i (comma ++ separated item_text (i' :: l)) Hi) as (c & t & H1 & H2). eauto. }
  destruct Hv as (c & t & E & Hv). rewrite E, (cfws_visible _ Hv), <- E. apply list_complete; auto.
  apply items_length.
Qed.

(** The collecting callback. *)
Definition collect (l : list bytes) (t : bytes) : list bytes * bool := (l ++ [t], false).

Lemma collect_all l st : emit_all collect l st = (0, st ++ l).
Proof.
  revert st. induction l as [|t l IH]; intros st; cbn [emit_all collect]; [now rewrite app_nil_r|]. rewrite IH. solve_app.
Qed.

(** C30. Extraction is bounded and does not depend on its caller: whatever the
    bytes of the field, the mailboxes found are together no longer than the
    field, each is nonempty and fits the scratch buffer with its terminator, and
    every callback is handed these mailboxes in this order until it stops. *)
Theorem mailboxes_bounded capacity input :
  exists l rc, (total l <= length input)%nat /\ Forall (fun t => 0 < length t < capacity)%nat l /\
  rfc822_parse_mailboxes collect capacity input [] = (rc, l) /\
  forall (S : Type) (emit : S -> bytes -> S * bool) st,
    rfc822_parse_mailboxes emit capacity input st = outcome emit l rc st.
Proof.
  destruct (parse_texts capacity input) as (l & rc & H1 & H2 & H3 & H4 & _ & H5). exists l, rc. split_and!; auto.
  - apply Forall_forall. intros t Ht. rewrite Forall_forall in H2. specialize (H2 t Ht).
    assert (l <> []) by (intros ->; now apply elem_of_nil in Ht). specialize (H3 ltac:(assumption)).
    apply list_elem_of_split in Ht as (l1 & l2 & ->). unfold total in H1. rewrite map_app, list_sum_app in H1. cbn in H1. lia.
  - rewrite H5. unfold outcome. now rewrite collect_all.
Qed.

Definition sample_items : list item :=
  [One (MkEntry [Atom (str "Alice"); Quoted [(false, ch "L"); (true, DQ); (false, ch ",")]]
          (MkAddress (DotAtom (str "alice") [str "l"]) (str "example") [str "org"]));
   Group [Atom (str "team")] [MkEntry [] (MkAddress (QuotedLocal [(false, ch "b"); (false, SP)]) (str "x") [])]].

Lemma mailboxes_complete_witness :
  rfc822_parse_mailboxes collect 100 (separated item_text sample_items) [] =
  (0, [str "alice.l@example.org"; [DQ; ch "b"; SP; DQ; ch "@"; ch "x"]]).
Proof.
  unfold sample_items. rewrite (mailboxes_complete collect 100); [reflexivity| | |reflexivity].
  - repeat first [constructor | discriminate | split]; cbn; auto; try discriminate;
      repeat first [constructor | discriminate]; auto; right; split; discriminate.
  - vm_compute. repeat constructor.
Defined.
