(* ===== verification/AddressList.v ===== *)
(** * Address lists (src/rfc822.c, the legacy list parser and writer)

    The list parser that [fetchaddr] runs on a header field, with its fixed
    buffers of [STRING] bytes and its global error, and the writer of an address
    list; the writer never leaves its buffer, the parser always returns, and it
    reads back the lists the writer wrote, for names and mailboxes of a common form. *)
From S2P Require Import Prelude Rfc822.

(** ** helpers.h and the C library *)

Definition STRING : nat := 256.

(** [isspace] in the C locale. *)
Definition is_space (c : Z) : bool := (c =? SP) || ((9 <=? c) && (c <=? 13)).
Definition SKIPWS (s : bytes) : bytes := drop_while is_space s.

(** [safe_strdup]: no copy of an empty string. *)
Definition safe_strdup (s : bytes) : option bytes := match s with [] => None | _ => Some s end.

(** [strfcpy (to, from, n)] into a buffer of [n >= 1] bytes: the string it leaves. *)
Definition strfcpy (from : bytes) (n : nat) : bytes := take (n - 1) from.

(** ** Data *)

Definition RFC822Specials : bytes := str "@.,:;<>[]" ++ [BSL; DQ] ++ str "()".
Definition is_special (c : Z) : bool := mem c RFC822Specials.

Inductive rfc822_error :=
  | ERR_MEMORY | ERR_MISMATCH_PAREN | ERR_MISMATCH_QUOTE | ERR_BAD_ROUTE | ERR_BAD_ROUTE_ADDR | ERR_BAD_ADDR_SPEC.

(** The [next] links are the order of a list of addresses. *)
Record ADDRESS := MkAddress { personal : option bytes; mailbox : option bytes; group : bool }.
Definition rfc822_new_address : ADDRESS := MkAddress None None false.

(** A parse: its result, or the error it set before it returned NULL.  [Stuck] is a
    loop out of fuel, which [AddressFacts.adrlist_good]
    excludes. *)
Inductive parsed (A : Type) := Done (a : A) | Error (e : rfc822_error) | Stuck.
Arguments Done {A} _.
Arguments Error {A} _.
Arguments Stuck {A}.
#[export] Instance parsed_ret : MRet parsed := fun A a => Done a.
#[export] Instance parsed_bind : MBind parsed :=
  fun A B f m => match m with Done a => f a | Error e => Error e | Stuck => Stuck end.

(** ** Tokens *)

(** [w] never passes [s], so the copy in place reads only unwritten bytes. *)
Fixpoint rfc822_dequote_comment (s : bytes) : bytes :=
  match s with
  | [] => []
  | c :: t =>
      if c =? BSL then match t with [] => [] | d :: t' => d :: rfc822_dequote_comment t' end
      else if c =? DQ then rfc822_dequote_comment t
      else c :: rfc822_dequote_comment t
  end.

(** The last loop of [next_token]: an atom. *)
Fixpoint atom_token (s token : bytes) (max : nat) : bytes * bytes :=
  match s with
  | [] => ([], token)
  | c :: t => if is_space c || is_special c then (s, token) else atom_token t (put c max token) max
  end.

Definition next_token (s token : bytes) (max : nat) : parsed (bytes * bytes) :=
  match s with
  | [] => Done ([], token)
  | c :: t =>
      if c =? ch "(" then
        match parse_comment 1 t token max with Some r => Done r | None => Error ERR_MISMATCH_PAREN end
      else if c =? DQ then
        match parse_quote t token max with Some r => Done r | None => Error ERR_MISMATCH_QUOTE end
      else if is_special c then Done (t, put c max token)
      else Done (atom_token s token max)
  end.

(** [if (len && len < max) buf[len++] = ' ']. *)
Definition spaced (max : nat) (buf : bytes) : bytes :=
  match buf with [] => [] | _ => put SP max buf end.

(** ** One address

    The text buffers hold [STRING] bytes with the terminator. *)

Definition MAX : nat := STRING - 1.

Fixpoint mailboxdomain_loop (fuel : nat) (nonspecial s mailbox comment : bytes) : parsed (bytes * bytes * bytes) :=
  match fuel with
  | O => Stuck
  | S fuel' =>
      match SKIPWS s with
      | [] => Done ([], mailbox, comment)
      | (c :: _) as s =>
          if negb (mem c nonspecial) && is_special c then Done (s, mailbox, comment)
          else if c =? ch "(" then
            '(s, comment) ← next_token s (spaced MAX comment) MAX;
            mailboxdomain_loop fuel' nonspecial s mailbox comment
          else
            '(s, mailbox) ← next_token s mailbox MAX;
            mailboxdomain_loop fuel' nonspecial s mailbox comment
      end
  end.
Definition parse_mailboxdomain (nonspecial s mailbox comment : bytes) : parsed (bytes * bytes * bytes) :=
  mailboxdomain_loop (S (length s)) nonspecial s mailbox comment.

Definition local_nonspecial : bytes := [ch "."; DQ; ch "("; BSL].
Definition domain_nonspecial : bytes := [ch "."; ch "("; ch "["; ch "]"; BSL].
Definition route_nonspecial : bytes := [ch "."; BSL; ch "["; ch "]"; ch "("].

(** The rest, the comment buffer and the filled address. *)
Definition parse_address (s token comment : bytes) (addr : ADDRESS) : parsed (bytes * bytes * ADDRESS) :=
  '(s, token, comment) ← parse_mailboxdomain local_nonspecial s token comment;
  '(s, token, comment) ←
    match s with
    | c :: t => if c =? ch "@" then parse_mailboxdomain domain_nonspecial t (put (ch "@") MAX token) comment
                else Done (s, token, comment)
    | [] => Done (s, token, comment)
    end;
  Done (s, comment,
    MkAddress
      (match comment, personal addr with
       | _ :: _, None => safe_strdup comment
       | _, old => old
       end)
      (safe_strdup token) (group addr)).

(** [while (s && *s == '@')]: a failure inside is [ERR_BAD_ROUTE]. *)
Fixpoint route_loop (fuel : nat) (s token comment : bytes) : parsed (bytes * bytes * bytes) :=
  match fuel with
  | O => Stuck
  | S fuel' =>
      match s with
      | c :: t =>
          if c =? ch "@" then
            match parse_mailboxdomain route_nonspecial t (put (ch "@") MAX token) comment with
            | Done (s, token, comment) => route_loop fuel' s token comment
            | Error _ => Error ERR_BAD_ROUTE
            | Stuck => Stuck
            end
          else Done (s, token, comment)
      | [] => Done (s, token, comment)
      end
  end.

Definition parse_route_addr (s comment : bytes) (addr : ADDRESS) : parsed (bytes * bytes * ADDRESS) :=
  let s := SKIPWS s in
  '(s, token, comment) ←
    (if at_ s 0 =? ch "@" then
       '(s, token, comment) ← route_loop (S (length s)) s [] comment;
       match s with
       | c :: t => if c =? ch ":" then Done (t, put (ch ":") MAX token, comment) else Error ERR_BAD_ROUTE
       | [] => Error ERR_BAD_ROUTE
       end
     else Done (s, [], comment));
  '(s, comment, addr) ← parse_address s token comment addr;
  match s, mailbox addr with
  | c :: t, Some _ => if c =? ch ">" then Done (t, comment, addr) else Error ERR_BAD_ROUTE_ADDR
  | _, _ => Error ERR_BAD_ROUTE_ADDR
  end.

Definition parse_addr_spec (s comment : bytes) (addr : ADDRESS) : parsed (bytes * bytes * ADDRESS) :=
  '(s, comment, addr) ← parse_address s [] comment addr;
  match s with
  | c :: _ => if (c =? ch ",") || (c =? ch ";") then Done (s, comment, addr) else Error ERR_BAD_ADDR_SPEC
  | [] => Done (s, comment, addr)
  end.

(** ** The list

    [last] is the final element of [top] throughout. *)

(** A bad address spec is dropped and its error kept. *)
Definition add_addrspec (top : list ADDRESS) (phrase comment : bytes) (err : option rfc822_error) : parsed (list ADDRESS * option rfc822_error) :=
  match parse_addr_spec phrase comment rfc822_new_address with
  | Done (_, _, cur) => Done (top ++ [cur], err)
  | Error e => Done (top, Some e)
  | Stuck => Stuck
  end.

(** [if (commentlen && last && !last->personal) last->personal = safe_strdup (comment)]. *)
Definition comment_last (top : list ADDRESS) (comment : bytes) : list ADDRESS :=
  match comment with
  | [] => top
  | _ => alter (fun a => match personal a with
                         | None => MkAddress (safe_strdup comment) (mailbox a) (group a)
                         | Some _ => a
                         end) (length top - 1)%nat top
  end.

(** What a [,], a [;] and the end of the input do with the pending phrase. *)
Definition flush (top : list ADDRESS) (phrase comment : bytes) (err : option rfc822_error) : parsed (list ADDRESS * option rfc822_error) :=
  match phrase with
  | [] => Done (comment_last top comment, err)
  | _ => add_addrspec top phrase comment err
  end.

Fixpoint adrlist_loop (fuel : nat) (s phrase comment : bytes) (top : list ADDRESS) (err : option rfc822_error) : parsed (list ADDRESS * option rfc822_error) :=
  match fuel with
  | O => Stuck
  | S fuel' =>
      match s with
      | [] => flush top phrase comment err
      | c :: t =>
          if c =? ch "," then
            '(top, err) ← flush top phrase comment err;
            adrlist_loop fuel' (SKIPWS t) [] [] top err
          else if c =? ch "(" then
            '(s, comment) ← next_token s (spaced MAX comment) MAX;
            adrlist_loop fuel' (SKIPWS s) phrase comment top err
          else if c =? ch ":" then
            adrlist_loop fuel' (SKIPWS t) [] [] (top ++ [MkAddress None (safe_strdup phrase) true]) err
          else if c =? ch ";" then
            '(top, err) ← flush top phrase comment err;
            match top with
            | [] => Error ERR_BAD_ADDR_SPEC
            | _ => adrlist_loop fuel' (SKIPWS t) [] [] (top ++ [rfc822_new_address]) err
            end
          else if c =? ch "<" then
            let cur := match phrase with
                       | [] => rfc822_new_address
                       | _ => MkAddress (safe_strdup (rfc822_dequote_comment phrase)) None false
                       end in
            '(s, comment, cur) ← parse_route_addr t comment cur;
            adrlist_loop fuel' (SKIPWS s) [] [] (top ++ [cur]) err
          else
            '(s, phrase) ← next_token s (spaced MAX phrase) MAX;
            adrlist_loop fuel' (SKIPWS s) phrase comment top err
      end
  end.

(** The list and [RFC822Error]; a fatal error frees the list. *)
Definition rfc822_parse_adrlist (top : list ADDRESS) (s : bytes) : option (list ADDRESS * option rfc822_error) :=
  let s := SKIPWS s in
  match adrlist_loop (S (length s)) s [] [] top None with
  | Done (top, err) => Some (top, err)
  | Error e => Some ([], Some e)
  | Stuck => None
  end.

(** ** Other list operations *)

Definition rfc822_qualify (addr : list ADDRESS) (host : bytes) : list ADDRESS :=
  map (fun a => match group a, mailbox a with
                | false, Some m => if mem (ch "@") m then a else MkAddress (personal a) (Some (m ++ [ch "@"] ++ host)) (group a)
                | _, _ => a
                end) addr.

Definition rfc822_cpy_adr_real (addr : ADDRESS) : ADDRESS :=
  MkAddress (personal addr ≫= safe_strdup) (mailbox addr ≫= safe_strdup) (group addr).

Definition rfc822_cpy_adr (addr : list ADDRESS) : list ADDRESS := map rfc822_cpy_adr_real addr.

(** The list [*a] after the call and the element it returns. *)
Definition rfc822_append (a b : list ADDRESS) : list ADDRESS * option ADDRESS :=
  match b with
  | [] => (a, last a)
  | _ => let a := a ++ rfc822_cpy_adr b in (a, last a)
  end.

(** ** The writer

    The bytes written from the start of the buffer and the room left before
    the reserved terminator; [inl] is [goto done] with the string of the buffer. *)

Definition writer : Type := bytes + (bytes * nat).

(** [if (!buflen) goto done; *pbuf++ = c; buflen--]. *)
Definition emit (c : Z) (w : writer) : writer :=
  match w with
  | inl out => inl out
  | inr (out, O) => inl out
  | inr (out, S room) => inr (out ++ [c], room)
  end.

(** [if (!buflen) goto done; strfcpy (pbuf, from, buflen)], then past the copy. *)
Definition emit_string (from : bytes) (w : writer) : writer :=
  match w with
  | inl out => inl out
  | inr (out, O) => inl out
  | inr (out, room) => let copied := strfcpy from room in inr (out ++ copied, (room - length copied)%nat)
  end.

(** The loop over a name that needs quotes, while there is room. *)
Fixpoint emit_quoted (pc : bytes) (w : writer) : writer :=
  match pc with
  | [] => w
  | c :: pc' =>
      match w with
      | inr (_, S _) => emit_quoted pc' (emit c (if (c =? DQ) || (c =? BSL) then emit BSL w else w))
      | _ => w
      end
  end.

Definition written (w : writer) : bytes := match w with inl out => out | inr (out, _) => out end.

Definition emit_when (b : bool) (c : Z) (w : writer) : writer := if b then emit c w else w.

Definition in_angles (addr : ADDRESS) : bool :=
  match personal addr, mailbox addr with
  | Some _, _ => true
  | None, Some m => at_ m 0 =? ch "@"
  | None, None => false
  end.

(** [rfc822_write_address_single] with [buflen >= 1]: the string it writes. *)
Definition rfc822_write_address_single (buflen : nat) (addr : ADDRESS) : bytes :=
  let w : writer := inr ([], (buflen - 1)%nat) in
  let w := match personal addr with
           | None => w
           | Some p =>
               emit SP (if existsb is_special p then emit DQ (emit_quoted p (emit DQ w)) else emit_string p w)
           end in
  let w := emit_when (in_angles addr) (ch "<") w in
  written
    match mailbox addr with
    | Some m =>
        let w := emit_when (in_angles addr) (ch ">") (emit_string m w) in
        if group addr then emit SP (emit (ch ":") w) else w
    | None => emit (ch ";") w
    end.

(** The loop over the list, while there is room. *)
Fixpoint write_loop (addr : list ADDRESS) (w : writer) : writer :=
  match addr with
  | [] => w
  | a :: next =>
      match w with
      | inr (out, S _ as room) =>
          let text := rfc822_write_address_single (S room) a in
          let w := inr (out ++ text, (room - length text)%nat) in
          write_loop next
            match next with
            | b :: _ => match mailbox b, group a with
                        | Some _, false => emit SP (emit (ch ",") w)
                        | _, _ => w
                        end
            | [] => w
            end
      | _ => w
      end
  end.

(** The string of the buffer of [buflen >= 1] bytes that held the string [buf]. *)
Definition rfc822_write_address (buf : bytes) (buflen : nat) (addr : list ADDRESS) : bytes :=
  let room := (buflen - 1)%nat in
  match buf with
  | [] => written (write_loop addr (inr ([], room)))
  | _ =>
      if (room <? length buf)%nat then buf
      else written (write_loop addr (emit SP (emit (ch ",") (inr (buf, (room - length buf)%nat)))))
  end.

(** [rfc822_cat] with [buflen >= 1]: the loop that quotes into the fixed buffer
    while [tmplen > 1]. *)
Fixpoint cat_loop (value : bytes) (tmplen : nat) (tmp : bytes) : bytes :=
  match value with
  | [] => tmp
  | c :: t =>
      if (tmplen <=? 1)%nat then tmp
      else if (c =? BSL) || (c =? DQ) then cat_loop t (tmplen - 2) (tmp ++ [BSL; c])
      else cat_loop t (tmplen - 1) (tmp ++ [c])
  end.
Definition rfc822_cat (buflen : nat) (value specials : bytes) : bytes :=
  if existsb (fun c => mem c specials) value then
    strfcpy (cat_loop value (256 - 3) [DQ] ++ [DQ]) buflen
  else strfcpy value buflen.
