(* ===== verification/AddressFacts.v ===== *)
(** * Facts about address lists (src/rfc822.c)

    The list parser returns on every input and keeps its buffers' bounds; the
    writer leaves a prefix of the whole text; the parser reads back the text. *)
From S2P Require Import Prelude Rfc822 AddressList.

(** ** The parser returns *)

(** What every parse satisfies: it is never stuck, its errors are the parser's, and
    its results satisfy [P]. *)
Definition good {A} (P : A -> Prop) (m : parsed A) : Prop :=
  match m with Done a => P a | Error e => e <> ERR_MEMORY | Stuck => False end.

Lemma good_bind {A B} (P : A -> Prop) (Q : B -> Prop) m (f : A -> parsed B) :
  good P m -> (forall a, P a -> good Q (f a)) -> good Q (m ≫= f).
Proof. destruct m; cbn; auto. Qed.

Lemma good_mono {A} (P Q : A -> Prop) m : good P m -> (forall a, P a -> Q a) -> good Q m.
Proof. destruct m; cbn; auto. Qed.

Definition fits (max : nat) (buf : bytes) : Prop := (length buf <= max)%nat.

Lemma put_fits c max buf : fits max buf -> fits max (put c max buf).
Proof. apply put_length. Qed.

Lemma spaced_fits max buf : fits max buf -> fits max (spaced max buf).
Proof. destruct buf; [auto|]. apply put_fits. Qed.

Lemma parse_comment_fits level s comment max r c : parse_comment level s comment max = Some (r, c) -> fits max comment -> fits max c.
Proof.
  revert level comment. induction s as [s IH] using bytes_ind. intros level comment H HC.
  destruct s as [|x t]; cbn [parse_comment] in H; [discriminate|].
  assert (Ht : forall l k, parse_comment l t (put k max comment) max = Some (r, c) -> fits max c).
  { intros l k H'. apply IH in H'; [exact H'|cbn; lia|now apply put_fits]. }
  destruct (x =? ch "("); [eauto|]. destruct (x =? ch ")").
  { destruct level as [|[|level]]; [| |eauto]; now injection H as <- <-. }
  destruct (x =? BSL); [|eauto]. destruct t as [|d t]; [discriminate|].
  apply IH in H; [exact H|cbn; lia|now apply put_fits].
Qed.

Lemma atom_token_spec s token max : fits max token ->
  let r := atom_token s token max in (length r.1 <= length s)%nat /\ fits max r.2.
Proof.
  revert token. induction s as [|c t IH]; intros token H; cbn [atom_token]; [auto|].
  destruct (is_space c || is_special c); [auto|].
  destruct (IH (put c max token) (put_fits _ _ _ H)) as [H1 H2]. split; [cbn; lia|exact H2].
Qed.

(** A token that starts outside white space is not empty. *)
Lemma next_token_spec c t token max : is_space c = false -> fits max token ->
  good (fun r => (length r.1 <= length t)%nat /\ fits max r.2) (next_token (c :: t) token max).
Proof.
  intros HS HF. unfold next_token. destruct (c =? ch "(").
  { destruct (parse_comment 1 t token max) as [[r k]|] eqn:E; cbn; [|easy].
    split; [apply parse_comment_length in E; lia|eauto using parse_comment_fits]. }
  destruct (c =? DQ).
  { destruct (parse_quote t token max) as [[r k]|] eqn:E; cbn; [|easy].
    unfold parse_quote in E. apply quote_body_length in E as (H1 & _ & H2).
    split; [lia|]. apply H2, put_fits, HF. }
  destruct (is_special c) eqn:ES; cbn [good fst snd].
  { split; [lia|now apply put_fits]. }
  cbn [atom_token]. rewrite HS, ES. cbn [orb]. apply atom_token_spec. now apply put_fits.
Qed.

Lemma skipws_shorter s : (length (SKIPWS s) <= length s)%nat.
Proof. apply drop_while_length. Qed.

Lemma skipws_head s c t : SKIPWS s = c :: t -> is_space c = false.
Proof.
  unfold SKIPWS. induction s as [|d s IH]; cbn; [discriminate|].
  destruct (is_space d) eqn:E; [exact IH|]. now intros [= -> ->].
Qed.

(** The bound of a step that returns the rest and two buffers. *)
Definition bounded (s : bytes) (r : bytes * bytes * bytes) : Prop :=
  (length r.1.1 <= length s)%nat /\ fits MAX r.1.2 /\ fits MAX r.2.

Lemma mailboxdomain_loop_spec fuel ns s m c : (length s < fuel)%nat -> fits MAX m -> fits MAX c ->
  good (bounded s) (mailboxdomain_loop fuel ns s m c).
Proof.
  revert s m c. induction fuel as [|fuel IH]; intros s m c HF HM HC; [lia|]. cbn [mailboxdomain_loop].
  pose proof (skipws_shorter s) as HL. destruct (SKIPWS s) as [|x t] eqn:ES.
  { split; [exact HL|auto]. }
  apply skipws_head in ES. cbn [length] in HL.
  assert (HR : forall r m c, (length r <= length t)%nat -> fits MAX m -> fits MAX c -> good (bounded s) (mailboxdomain_loop fuel ns r m c)).
  { intros r m' c' Hr Hm Hc. apply (good_mono (bounded r)); [apply IH; auto; lia|].
    intros a [H1 H2]. split; [lia|exact H2]. }
  destruct (negb (mem x ns) && is_special x).
  { split; [exact HL|auto]. }
  destruct (x =? ch "(").
  - eapply good_bind; [apply next_token_spec; [exact ES|apply spaced_fits, HC]|]. intros [r k] [H1 H2]. auto.
  - eapply good_bind; [apply next_token_spec; [exact ES|exact HM]|]. intros [r k] [H1 H2]. auto.
Qed.

Lemma mailboxdomain_spec ns s m c : fits MAX m -> fits MAX c -> good (bounded s) (parse_mailboxdomain ns s m c).
Proof. apply mailboxdomain_loop_spec. lia. Qed.

(** A text of an address: copied out of a buffer. *)
Definition text_ok (t : option bytes) : Prop := match t with None => True | Some t => t <> [] /\ fits MAX t end.
Definition address_bounded (a : ADDRESS) : Prop := text_ok (personal a) /\ text_ok (mailbox a).

Lemma strdup_ok t : fits MAX t -> text_ok (safe_strdup t).
Proof. destruct t; cbn; [auto|]. intros H. split; [easy|exact H]. Qed.

Lemma parse_address_spec s token comment addr : fits MAX token -> fits MAX comment -> text_ok (personal addr) ->
  good (fun r => (length r.1.1 <= length s)%nat /\ fits MAX r.1.2 /\ address_bounded r.2 /\ group r.2 = group addr)
    (parse_address s token comment addr).
Proof.
  intros HT HC HP. unfold parse_address.
  eapply good_bind; [apply mailboxdomain_spec; eassumption|]. intros [[r t] c] (H1 & H2 & H3).
  apply (good_bind (bounded s)).
  - cbn [fst snd] in *. destruct r as [|x r]; [split; auto|]. destruct (x =? ch "@"); [|split; auto].
    apply (good_mono (bounded r)); [apply mailboxdomain_spec; [now apply put_fits|exact H3]|].
    intros a [K1 K2]. split; [cbn in H1; lia|exact K2].
  - intros [[r' t'] c'] (K1 & K2 & K3). split; [exact K1|]. split; [exact K3|]. split; [|reflexivity]. cbn [fst snd] in *. split; cbn [personal mailbox].
    + destruct c' as [|x c']; [exact HP|]. destruct (personal addr); [exact HP|]. now apply strdup_ok.
    + now apply strdup_ok.
Qed.

Lemma route_loop_spec fuel s token comment : (length s < fuel)%nat -> fits MAX token -> fits MAX comment ->
  good (bounded s) (route_loop fuel s token comment).
Proof.
  revert s token comment. induction fuel as [|fuel IH]; intros s token comment HF HT HC; [lia|]. cbn [route_loop].
  destruct s as [|x t]; [split; auto|]. destruct (x =? ch "@"); [|split; auto].
  pose proof (mailboxdomain_spec route_nonspecial t (put (ch "@") MAX token) comment (put_fits _ _ _ HT) HC) as HG.
  destruct (parse_mailboxdomain _ _ _ _) as [[[r t'] c']|e|]; cbn in HG; [|easy|easy].
  destruct HG as (H1 & H2 & H3). cbn [fst snd] in *. cbn [length] in HF. apply (good_mono (bounded r)); [apply IH; auto; lia|].
  intros a [K1 K2]. split; [cbn; lia|exact K2].
Qed.

Lemma parse_route_addr_spec s comment addr : fits MAX comment -> text_ok (personal addr) ->
  good (fun r => (length r.1.1 <= length s)%nat /\ fits MAX r.1.2 /\ address_bounded r.2) (parse_route_addr s comment addr).
Proof.
  intros HC HP. unfold parse_route_addr. pose proof (skipws_shorter s) as HL. set (s' := SKIPWS s) in *.
  apply (good_bind (bounded s)).
  - destruct (at_ s' 0 =? ch "@").
    + eapply good_bind; [apply route_loop_spec; [lia|apply Nat.le_0_l|exact HC]|]. intros [[r t] c] (H1 & H2 & H3). cbn [fst snd] in *.
      destruct r as [|x r]; [easy|]. destruct (x =? ch ":"); [|easy].
      split; [cbn in *; lia|]. split; [now apply put_fits|exact H3].
    + split; [exact HL|]. split; [apply Nat.le_0_l|exact HC].
  - intros [[r t] c] (H1 & H2 & H3). eapply good_bind; [apply parse_address_spec; eassumption|].
    intros [[r' c'] a] (K1 & K2 & K3 & _). cbn [fst snd] in *.
    destruct r' as [|x r']; [now destruct (mailbox a)|]. destruct (mailbox a); [|easy]. destruct (x =? ch ">"); [|easy].
    split; [cbn in *; lia|auto].
Qed.

(** What is parsed of the list so far. *)
Definition list_good (r : list ADDRESS * option rfc822_error) : Prop := Forall address_bounded r.1 /\ r.2 <> Some ERR_MEMORY.

Lemma comment_last_bounded top comment : fits MAX comment -> Forall address_bounded top -> Forall address_bounded (comment_last top comment).
Proof.
  intros HC HT. destruct comment as [|c comment]; [exact HT|]. unfold comment_last. apply Forall_alter; [exact HT|].
  intros a _ [H1 H2]. destruct (personal a) eqn:E; [split; [now rewrite E|exact H2]|].
  split; [exact (strdup_ok _ HC)|exact H2].
Qed.

Lemma flush_spec top phrase comment err : fits MAX comment -> Forall address_bounded top -> err <> Some ERR_MEMORY ->
  good list_good (flush top phrase comment err).
Proof.
  intros HC HT HE. destruct phrase as [|x phrase]; [split; [now apply comment_last_bounded|exact HE]|].
  unfold flush, add_addrspec, parse_addr_spec. set (q := x :: phrase).
  pose proof (parse_address_spec q [] comment rfc822_new_address (Nat.le_0_l _) HC I) as HG.
  destruct (parse_address _ _ _ _) as [[[r c] a]|e|]; cbn in *; [|split; [exact HT|cbn; congruence]|easy].
  destruct HG as (_ & _ & HA & _).
  assert (HL : list_good (top ++ [a], err)) by (split; [now apply Forall_app; auto|exact HE]).
  destruct r as [|y r]; [exact HL|]. destruct (_ || _); [exact HL|]. split; [exact HT|easy].
Qed.

Lemma dequote_shorter s : (length (rfc822_dequote_comment s) <= length s)%nat.
Proof.
  induction s as [s IH] using bytes_ind. destruct s as [|c t]; [cbn; lia|]. cbn [rfc822_dequote_comment].
  destruct (c =? BSL).
  { destruct t as [|d t]; [cbn; lia|]. pose proof (IH t ltac:(cbn; lia)). cbn in *. lia. }
  pose proof (IH t ltac:(cbn; lia)). destruct (c =? DQ); cbn in *; lia.
Qed.

(** The input of a step of the list loop is past its white space. *)
Definition skipped (s : bytes) : Prop := match s with c :: _ => is_space c = false | [] => True end.

Lemma skipws_skipped s : skipped (SKIPWS s).
Proof. unfold skipped. destruct (SKIPWS s) eqn:E; [exact I|]. exact (skipws_head _ _ _ E). Qed.

Lemma adrlist_loop_spec fuel s phrase comment top err : (length s < fuel)%nat -> skipped s ->
  fits MAX phrase -> fits MAX comment -> list_good (top, err) ->
  good list_good (adrlist_loop fuel s phrase comment top err).
Proof.
  assert (H0 : fits MAX []) by apply Nat.le_0_l.
  revert s phrase comment top err. induction fuel as [|fuel IH]; intros s phrase comment top err HF HS HP HC [HT HE]; [lia|].
  cbn [adrlist_loop]. destruct s as [|x t]; [now apply flush_spec|]. cbn [length] in HF.
  assert (HR : forall r p c l e, (length r <= length t)%nat -> fits MAX p -> fits MAX c -> list_good (l, e) ->
    good list_good (adrlist_loop fuel (SKIPWS r) p c l e)).
  { intros r p c l e Hr Hp Hc HL. pose proof (skipws_shorter r). apply IH; auto using skipws_skipped. lia. }
  assert (HN : forall l a, list_good (l, err) -> address_bounded a -> list_good (l ++ [a], err)).
  { intros l a [Hl _] Ha. split; [now apply Forall_app; auto|exact HE]. }
  pose proof (flush_spec top phrase comment err HC HT HE) as HFL.
  destruct (x =? ch ","); [eapply good_bind; [exact HFL|]; intros [l e] HL; auto|].
  destruct (x =? ch "(").
  { eapply good_bind; [apply next_token_spec; [exact HS|apply spaced_fits, HC]|]. intros [r k] [H1 H2]. apply HR; auto. now split. }
  destruct (x =? ch ":").
  { apply HR; auto. apply HN; [now split|]. split; [exact I|apply strdup_ok, HP]. }
  destruct (x =? ch ";").
  { eapply good_bind; [exact HFL|]. intros [l e] [Hl He]. destruct l as [|a l]; [easy|].
    apply HR; auto. split; [apply Forall_app; split; [exact Hl|repeat constructor]|exact He]. }
  destruct (x =? ch "<").
  { eapply good_bind; [apply parse_route_addr_spec; [exact HC|]|].
    - destruct phrase; [exact I|]. apply strdup_ok. exact (Nat.le_trans _ _ _ (dequote_shorter _) HP).
    - intros [[r c] a] (H1 & _ & H2). apply HR; auto. apply HN; [now split|exact H2]. }
  eapply good_bind; [apply next_token_spec; [exact HS|apply spaced_fits, HP]|]. intros [r k] [H1 H2]. apply HR; auto. now split.
Qed.

(** The parser returns on every input, never for want of memory; every text it copied
    out fits the buffer it was gathered in. *)
Lemma adrlist_good s : exists l err, rfc822_parse_adrlist [] s = Some (l, err) /\ Forall address_bounded l /\ err <> Some ERR_MEMORY.
Proof.
  unfold rfc822_parse_adrlist. set (s' := SKIPWS s).
  pose proof (adrlist_loop_spec (S (length s')) s' [] [] [] None ltac:(lia) (skipws_skipped s) (Nat.le_0_l _) (Nat.le_0_l _)
    ltac:(split; [constructor|easy])) as H.
  destruct (adrlist_loop _ _ _ _ _ _) as [[l e]|e|]; cbn in H; [| |easy].
  - exists l, e. split; [reflexivity|exact H].
  - exists [], (Some e). split; [reflexivity|]. split; [constructor|congruence].
Qed.

(** ** More fuel, the same result *)

Definition le_parsed {A} (m m' : parsed A) : Prop := m = Stuck \/ m = m'.

Lemma le_refl {A} (m : parsed A) : le_parsed m m.
Proof. now right. Qed.

Lemma le_bind {A B} (m m' : parsed A) (f g : A -> parsed B) :
  le_parsed m m' -> (forall a, le_parsed (f a) (g a)) -> le_parsed (m ≫= f) (m' ≫= g).
Proof. intros [-> | ->] H; [now left|]. destruct m'; cbn; [apply H|apply le_refl|now left]. Qed.

(** [repeat] at every branch of a step of a loop. *)
Ltac le_step IH :=
  repeat first
    [ apply IH | apply le_refl
    | apply le_bind; [apply le_refl|intros ?]
    | match goal with |- le_parsed (match ?x with _ => _ end) _ => destruct x end ].

Lemma mailboxdomain_more fuel ns s m c : le_parsed (mailboxdomain_loop fuel ns s m c) (mailboxdomain_loop (S fuel) ns s m c).
Proof.
  revert s m c. induction fuel as [|fuel IH]; intros s m c; [now left|].
  remember (S fuel) as k eqn:Hk. cbn [mailboxdomain_loop]. rewrite Hk at 1. cbn [mailboxdomain_loop]. subst k. le_step IH.
Qed.

Lemma adrlist_more fuel s phrase comment top err :
  le_parsed (adrlist_loop fuel s phrase comment top err) (adrlist_loop (S fuel) s phrase comment top err).
Proof.
  revert s phrase comment top err. induction fuel as [|fuel IH]; intros s phrase comment top err; [now left|].
  remember (S fuel) as k eqn:Hk. cbn [adrlist_loop]. rewrite Hk at 1. cbn [adrlist_loop]. subst k. le_step IH.
Qed.

(** A function of the fuel that only becomes more defined. *)
Lemma fuel_agrees {A} (F : nat -> parsed A) n k r :
  (forall n, le_parsed (F n) (F (S n))) -> F n = Done r -> F k <> Stuck -> F k = Done r.
Proof.
  intros HF Hn Hk.
  assert (Hup : forall j v, F j = v -> v <> Stuck -> forall d, F (d + j)%nat = v).
  { intros j v Hj Hv d. induction d as [|d IH]; [exact Hj|]. cbn [Nat.add].
    destruct (HF (d + j)%nat) as [H|H]; congruence. }
  rewrite <- (Hup k (F k) eq_refl Hk n), Nat.add_comm. apply Hup; [exact Hn|easy].
Qed.

(** What a loop computes, with some fuel. *)
Definition mailboxdomain_runs (ns s m c : bytes) (r : bytes * bytes * bytes) : Prop :=
  exists fuel, mailboxdomain_loop fuel ns s m c = Done r.
Definition adrlist_runs (s phrase comment : bytes) (top : list ADDRESS) (err : option rfc822_error) (r : list ADDRESS * option rfc822_error) : Prop :=
  exists fuel, adrlist_loop fuel s phrase comment top err = Done r.

Lemma mailboxdomain_result ns s m c r : fits MAX m -> fits MAX c -> mailboxdomain_runs ns s m c r -> parse_mailboxdomain ns s m c = Done r.
Proof.
  intros HM HC [n Hn]. pose proof (mailboxdomain_spec ns s m c HM HC) as HG. unfold parse_mailboxdomain in *.
  apply (fuel_agrees (fun n => mailboxdomain_loop n ns s m c) n); [intros k; apply mailboxdomain_more|exact Hn|].
  intros E. now rewrite E in HG.
Qed.

Lemma adrlist_result s r : skipped s -> adrlist_runs s [] [] [] None r -> rfc822_parse_adrlist [] s = Some (r.1, r.2).
Proof.
  intros HS [n Hn]. unfold rfc822_parse_adrlist.
  assert (HE : SKIPWS s = s) by (destruct s as [|x s]; [reflexivity|]; cbn in HS |- *; now rewrite HS). rewrite HE.
  pose proof (adrlist_loop_spec (S (length s)) s [] [] [] None ltac:(lia) HS (Nat.le_0_l _) (Nat.le_0_l _) ltac:(split; [constructor|easy])) as HG.
  rewrite (fuel_agrees (fun n => adrlist_loop n s [] [] [] None) n (S (length s)) r); [now destruct r|intros k; apply adrlist_more|exact Hn|].
  intros E. now rewrite E in HG.
Qed.

(** ** The texts of addresses *)

(** A byte of a word: nothing the lexer or a C string tells apart. *)
Definition word_byte (c : Z) : bool := negb (is_space c) && negb (is_special c) && negb (c =? 0).
Definition is_word (w : bytes) : Prop := w <> [] /\ Forall (fun c => word_byte c = true) w.

(** Words with a separator between them. *)
Fixpoint joined (sep w : bytes) (ws : list bytes) : bytes :=
  match ws with [] => w | x :: ws' => w ++ sep ++ joined sep x ws' end.

(** A mailbox of dotted words, with [sp] around its dots and its [@]. *)
Record dotted := MkDotted { d_local : bytes * list bytes; d_domain : bytes * list bytes }.
Definition dotted_text (sp : bytes) (m : dotted) : bytes :=
  joined (sp ++ [ch "."] ++ sp) (d_local m).1 (d_local m).2 ++ (sp ++ [ch "@"] ++ sp) ++
  joined (sp ++ [ch "."] ++ sp) (d_domain m).1 (d_domain m).2.
Definition words_ok (w : bytes * list bytes) : Prop := is_word w.1 /\ Forall is_word w.2.

(** A mailbox that its text with spaced dots fits the phrase buffer for. *)
Definition mailbox_ok (m : bytes) : Prop :=
  exists d, words_ok (d_local d) /\ words_ok (d_domain d) /\ m = dotted_text [] d /\ fits MAX (dotted_text [SP] d).

(** A display name as the writer prints it. *)
Fixpoint escaped (p : bytes) : bytes :=
  match p with [] => [] | c :: t => (if (c =? DQ) || (c =? BSL) then [BSL; c] else [c]) ++ escaped t end.
Definition name_text (p : bytes) : bytes := if existsb is_special p then DQ :: escaped p ++ [DQ] else p.
Definition words_text_ok (p : bytes) : Prop := exists w, words_ok w /\ p = joined [SP] w.1 w.2 /\ fits MAX p.
Definition name_ok (p : bytes) : Prop :=
  (existsb is_special p = true /\ Forall (fun c => c <> 0) p /\ fits MAX (name_text p)) \/ words_text_ok p.

(** An address, the opening of a group or the end of a group. *)
Definition address_ok (a : ADDRESS) : Prop :=
  match a with
  | MkAddress None (Some m) true => words_text_ok m
  | MkAddress p (Some m) false => mailbox_ok m /\ match p with Some p => name_ok p | None => True end
  | MkAddress None None false => True
  | _ => False
  end.

Definition address_text (a : ADDRESS) : bytes :=
  match personal a with Some p => name_text p ++ [SP] | None => [] end ++
  (if in_angles a then [ch "<"] else []) ++
  match mailbox a with
  | Some m => m ++ (if in_angles a then [ch ">"] else []) ++ (if group a then [ch ":"; SP] else [])
  | None => [ch ";"]
  end.

(** The [,] between [a] and what follows it. *)
Definition separator (a : ADDRESS) (next : list ADDRESS) : bytes :=
  match next with
  | b :: _ => match mailbox b, group a with Some _, false => [ch ","; SP] | _, _ => [] end
  | [] => []
  end.
Fixpoint list_text (l : list ADDRESS) : bytes :=
  match l with [] => [] | a :: next => address_text a ++ separator a next ++ list_text next end.

(** ** The writer *)

Lemma emit_byte_room c out room : (0 < room)%nat -> emit c (inr (out, room)) = inr (out ++ [c], (room - 1)%nat).
Proof. destruct room; [lia|]. intros _. cbn. now rewrite Nat.sub_0_r. Qed.

Lemma emit_string_room s out room : (length s < room)%nat -> emit_string s (inr (out, room)) = inr (out ++ s, (room - length s)%nat).
Proof. intros H. destruct room; [lia|]. cbn [emit_string]. unfold strfcpy. now rewrite take_ge by lia. Qed.

Lemma emit_quoted_room p out room : (length (escaped p) < room)%nat ->
  emit_quoted p (inr (out, room)) = inr (out ++ escaped p, (room - length (escaped p))%nat).
Proof.
  revert out room. induction p as [|c p IH]; intros out room H; cbn [emit_quoted escaped] in *.
  { now rewrite app_nil_r, Nat.sub_0_r. }
  destruct room as [|room]; [lia|]. rewrite length_app in *.
  destruct ((c =? DQ) || (c =? BSL)); cbn [length] in *;
    rewrite !emit_byte_room by lia; rewrite IH by lia; (f_equal; f_equal; [|lia]); now rewrite <- !app_assoc.
Qed.

(** A step of the writer with room adds its text. *)
Ltac write_step :=
  first [rewrite emit_byte_room by lia | rewrite emit_string_room by lia | rewrite emit_quoted_room by lia].

Lemma write_single_room buflen a : (length (address_text a) + 1 < buflen)%nat -> rfc822_write_address_single buflen a = address_text a.
Proof.
  unfold rfc822_write_address_single, address_text, name_text, emit_when. intros H.
  destruct (personal a) as [p|]; [destruct (existsb is_special p)|]; destruct (in_angles a); destruct (mailbox a) as [m|]; try destruct (group a);
    cbn [app] in H |- *; repeat first [rewrite length_app in H | progress cbn [length] in H];
    repeat write_step; cbn [written]; repeat (rewrite <- ?app_assoc; cbn [app]); rewrite ?app_nil_r; reflexivity.
Qed.

Lemma write_loop_room l out room : (length (list_text l) < room)%nat ->
  write_loop l (inr (out, room)) = inr (out ++ list_text l, (room - length (list_text l))%nat).
Proof.
  revert out room. induction l as [|a l IH]; intros out room H; cbn [write_loop list_text] in *.
  { now rewrite app_nil_r, Nat.sub_0_r. }
  destruct room as [|room]; [lia|]. rewrite !length_app in *.
  rewrite write_single_room by lia. cbv zeta. unfold separator in *. destruct l as [|b l].
  { rewrite IH by (cbn in *; lia). f_equal. f_equal; [now rewrite <- app_assoc|cbn in *; lia]. }
  destruct (mailbox b); [destruct (group a)|]; cbn [length] in *; rewrite ?emit_byte_room by lia; rewrite IH by lia;
    (f_equal; f_equal; [now rewrite <- !app_assoc|lia]).
Qed.

Lemma write_address_room l buflen : (length (list_text l) + 1 < buflen)%nat -> rfc822_write_address [] buflen l = list_text l.
Proof. intros H. unfold rfc822_write_address. now rewrite write_loop_room by lia. Qed.

(** ** Lexing words *)

(** Where an atom ends: at the end of the input, white space or a special. *)
Definition atom_end (r : bytes) : Prop := match r with c :: _ => is_space c = true \/ is_special c = true | [] => True end.

Lemma put_room c max buf : (length buf < max)%nat -> put c max buf = buf ++ [c].
Proof. intros H. unfold put. apply Nat.ltb_lt in H. now rewrite H. Qed.

Lemma word_byte_spec c : word_byte c = true -> is_space c = false /\ is_special c = false /\ c <> 0.
Proof. unfold word_byte. rewrite !andb_true_iff, !negb_true_iff, Z.eqb_neq. tauto. Qed.

Lemma atom_token_word w r token max : Forall (fun c => word_byte c = true) w -> atom_end r -> fits max (token ++ w) ->
  atom_token (w ++ r) token max = (r, token ++ w).
Proof.
  intros Hw Hr. revert token. induction Hw as [|c w Hc _ IH]; intros token HF; cbn [app].
  - rewrite app_nil_r. destruct r as [|x r]; [reflexivity|]. cbn [atom_token].
    destruct Hr as [-> | ->]; [reflexivity|]. now rewrite orb_true_r.
  - destruct (word_byte_spec c Hc) as (H1 & H2 & _). cbn [atom_token]. rewrite H1, H2. cbn [orb].
    unfold fits in HF. rewrite length_app in HF. cbn [length] in HF. rewrite put_room by lia.
    rewrite IH; [now rewrite <- app_assoc|]. unfold fits. rewrite !length_app. cbn [length]. lia.
Qed.

(** A byte that is not special is none of the specials the lexers test first. *)
Lemma not_special c : is_special c = false ->
  (c =? ch "(") = false /\ (c =? DQ) = false /\ (c =? ch ",") = false /\ (c =? ch ":") = false /\ (c =? ch ";") = false /\
  (c =? ch "<") = false /\ (c =? ch "@") = false /\ (c =? BSL) = false.
Proof.
  intros H. repeat split; apply Z.eqb_neq; intros ->; discriminate.
Qed.

Lemma next_token_word w r token max : is_word w -> atom_end r -> fits max (token ++ w) -> next_token (w ++ r) token max = Done (r, token ++ w).
Proof.
  intros [Hne Hw] Hr HF. rewrite <- (atom_token_word w r token max Hw Hr HF).
  destruct w as [|c w]; [easy|]. inversion Hw as [|? ? Hc _]; subst. destruct (word_byte_spec c Hc) as (_ & H2 & _).
  destruct (not_special c H2) as (E1 & E2 & _). unfold next_token. cbn [app]. now rewrite E1, E2, H2.
Qed.

Lemma word_skipped w r : is_word w -> skipped (w ++ r).
Proof. intros [Hne Hw]. destruct w; [easy|]. inversion Hw; subst. now apply word_byte_spec. Qed.

Lemma skipws_id s : skipped s -> SKIPWS s = s.
Proof. destruct s as [|c s]; [reflexivity|]. cbn. now intros ->. Qed.

Lemma word_head w r : is_word w -> exists c t, w ++ r = c :: t /\ is_space c = false /\ is_special c = false.
Proof.
  intros [Hne Hw]. destruct w as [|c w]; [easy|]. inversion Hw; subst. exists c, (w ++ r).
  split; [reflexivity|]. now destruct (word_byte_spec c) as (? & ? & _).
Qed.

Lemma special_end c r : is_special c = true -> atom_end (c :: r).
Proof. now right. Qed.

(** ** Mailboxes *)

Lemma mailboxdomain_space ns s m c r : mailboxdomain_runs ns s m c r -> mailboxdomain_runs ns (SP :: s) m c r.
Proof. intros [[|n] H]; [discriminate|]. now exists (S n). Qed.

Lemma mailboxdomain_word ns w s m c r : is_word w -> atom_end s -> fits MAX (m ++ w) ->
  mailboxdomain_runs ns s (m ++ w) c r -> mailboxdomain_runs ns (w ++ s) m c r.
Proof.
  intros Hw Hs HF [n Hn]. exists (S n). cbn [mailboxdomain_loop]. rewrite skipws_id by now apply word_skipped.
  destruct (word_head w s Hw) as (x & t & E & Hx1 & Hx2). destruct (not_special x Hx2) as (E1 & _).
  pose proof (next_token_word w s m MAX Hw Hs HF) as HN. rewrite E in HN |- *. rewrite Hx2, E1, andb_false_r, HN. exact Hn.
Qed.

Lemma mailboxdomain_special ns x s m c r : is_special x = true -> is_space x = false -> mem x ns = true -> (x =? ch "(") = false -> (x =? DQ) = false ->
  (length m < MAX)%nat -> mailboxdomain_runs ns s (m ++ [x]) c r -> mailboxdomain_runs ns (x :: s) m c r.
Proof.
  intros H1 H2 H3 H4 H5 HF [n Hn]. exists (S n). cbn [mailboxdomain_loop]. rewrite skipws_id by exact H2.
  rewrite H3, H4. cbn [negb andb]. unfold next_token. rewrite H4, H5, H1, put_room by exact HF. exact Hn.
Qed.

(** Where the loop stops: a special of another kind, or the end. *)
Definition stops (ns s : bytes) : Prop :=
  match s with c :: _ => is_space c = false /\ is_special c = true /\ mem c ns = false | [] => True end.

Lemma mailboxdomain_stop ns s m c : stops ns s -> mailboxdomain_runs ns s m c (s, m, c).
Proof.
  intros H. exists 1%nat. cbn [mailboxdomain_loop]. destruct s as [|x s]; [reflexivity|].
  destruct H as (H1 & H2 & H3). rewrite skipws_id by exact H1. now rewrite H2, H3.
Qed.

(** The spacing around a special: none, or one space. *)
Definition spacing (sp : bytes) : Prop := sp = [] \/ sp = [SP].

Lemma mailboxdomain_spaces ns sp s m c r : spacing sp -> mailboxdomain_runs ns s m c r -> mailboxdomain_runs ns (sp ++ s) m c r.
Proof. intros [-> | ->] H; [exact H|]. now apply mailboxdomain_space. Qed.

Lemma spacing_end sp x r : spacing sp -> is_special x = true -> atom_end (sp ++ x :: r).
Proof. intros [-> | ->] H; [now right|now left]. Qed.

Lemma mailboxdomain_dotted ns sp w ws s m c r : spacing sp -> mem (ch ".") ns = true -> is_word w -> Forall is_word ws ->
  atom_end s -> fits MAX (m ++ joined [ch "."] w ws) ->
  mailboxdomain_runs ns s (m ++ joined [ch "."] w ws) c r ->
  mailboxdomain_runs ns (joined (sp ++ [ch "."] ++ sp) w ws ++ s) m c r.
Proof.
  intros Hsp Hns Hw Hws Hs. revert w m Hw. induction Hws as [|x ws Hx _ IH]; intros w m Hw HF HR; cbn [joined] in *.
  { now apply mailboxdomain_word. }
  rewrite !app_assoc in HF, HR. unfold fits in HF. rewrite !length_app in HF. cbn [length] in HF.
  rewrite <- !app_assoc. apply mailboxdomain_word; [exact Hw|now apply spacing_end|unfold fits; rewrite length_app; lia|].
  apply mailboxdomain_spaces; [exact Hsp|]. apply mailboxdomain_special; try reflexivity; [exact Hns|rewrite length_app; lia|].
  apply mailboxdomain_spaces; [exact Hsp|]. apply IH; [exact Hx| |].
  - unfold fits. rewrite !length_app. cbn [length]. lia.
  - exact HR.
Qed.

(** What follows a mailbox: a special that is none of those inside one, or the end. *)
Definition after_mailbox (r : bytes) : Prop := match r with c :: _ => mem c (str ",;>") = true | [] => True end.

Lemma after_mailbox_cases r : after_mailbox r -> r = [] \/ exists c t, r = c :: t /\ (c = ch "," \/ c = ch ";" \/ c = ch ">").
Proof.
  destruct r as [|c t]; [now left|]. intros H. right. exists c, t. split; [reflexivity|].
  cbn [after_mailbox] in H. change (str ",;>") with [ch ","; ch ";"; ch ">"] in H. unfold mem in H. cbn [existsb] in H. rewrite !orb_true_iff, !Z.eqb_eq in H.
  destruct H as [H | [H | [H | H]]]; [auto..|discriminate].
Qed.

Lemma parse_address_dotted sp d r addr : spacing sp -> words_ok (d_local d) -> words_ok (d_domain d) -> fits MAX (dotted_text [] d) -> after_mailbox r ->
  parse_address (dotted_text sp d ++ r) [] [] addr = Done (r, [], MkAddress (personal addr) (Some (dotted_text [] d)) (group addr)).
Proof.
  intros Hsp [L1 L2] [D1 D2] HF Hr. unfold parse_address, dotted_text in *.
  set (l := joined [ch "."] (d_local d).1 (d_local d).2) in *. set (m := joined [ch "."] (d_domain d).1 (d_domain d).2) in *.
  assert (HL : joined ([] ++ [ch "."] ++ []) (d_local d).1 (d_local d).2 = l) by reflexivity.
  assert (HM : joined ([] ++ [ch "."] ++ []) (d_domain d).1 (d_domain d).2 = m) by reflexivity.
  rewrite HL, HM in *. unfold fits in HF. rewrite !length_app in HF. cbn [length app] in HF.
  rewrite <- !app_assoc. erewrite mailboxdomain_result; [|apply Nat.le_0_l|apply Nat.le_0_l|].
  2:{ apply mailboxdomain_dotted; [exact Hsp|reflexivity|exact L1|exact L2|now apply spacing_end|unfold fits; cbn [app]; fold l; lia|].
      apply mailboxdomain_spaces; [exact Hsp|]. apply mailboxdomain_stop. easy. }
  fold l. cbn [app mbind parsed_bind]. rewrite Z.eqb_refl, put_room by lia.
  erewrite mailboxdomain_result; [|unfold fits; rewrite length_app; cbn [length]; lia|apply Nat.le_0_l|].
  2:{ apply mailboxdomain_spaces; [exact Hsp|]. apply mailboxdomain_dotted; [exact Hsp|reflexivity|exact D1|exact D2| | |].
      - destruct (after_mailbox_cases r Hr) as [-> | (c & t & -> & [-> | [-> | ->]])]; [exact I|now right..].
      - unfold fits. rewrite !length_app. cbn [length]. fold l m. lia.
      - apply mailboxdomain_stop. destruct (after_mailbox_cases r Hr) as [-> | (c & t & -> & [-> | [-> | ->]])]; [exact I|easy..]. }
  cbn [mbind parsed_bind]. f_equal. f_equal. f_equal. cbn [app]. rewrite <- app_assoc. fold m.
  now destruct l.
Qed.

(** ** The steps of the list loop *)

(** The phrase with one more token. *)
Definition phrase_add (phrase w : bytes) : bytes := match phrase with [] => w | _ => phrase ++ [SP] ++ w end.

Lemma spaced_add phrase w : (length (phrase_add phrase w) <= MAX)%nat -> w <> [] -> spaced MAX phrase ++ w = phrase_add phrase w.
Proof.
  destruct phrase as [|x p]; [reflexivity|]. intros H Hw. cbn [spaced phrase_add] in *.
  rewrite !length_app in H. cbn [length] in H. rewrite put_room; [now rewrite <- app_assoc|]. destruct w; [easy|]. cbn in *; lia.
Qed.

Lemma phrase_add_assoc phrase w t : w <> [] -> phrase_add phrase (w ++ [SP] ++ t) = phrase_add (phrase_add phrase w) t.
Proof.
  intros Hw. destruct phrase as [|x p]; [now destruct w|]. cbn [phrase_add app]. f_equal. now list_assoc.
Qed.

Lemma phrase_add_length phrase w : (length (phrase_add phrase w) <= length phrase + 1 + length w)%nat.
Proof. destruct phrase; cbn [phrase_add]; rewrite ?length_app; cbn [length]; lia. Qed.

Section Steps.
Context (top : list ADDRESS) (err : option rfc822_error) (res : list ADDRESS * option rfc822_error).

Lemma adrlist_word w s phrase : is_word w -> atom_end s -> fits MAX (phrase_add phrase w) ->
  adrlist_runs (SKIPWS s) (phrase_add phrase w) [] top err res -> adrlist_runs (w ++ s) phrase [] top err res.
Proof.
  intros Hw Hs HF [n Hn]. exists (S n). pose proof (spaced_add phrase w HF (proj1 Hw)) as HA.
  pose proof (next_token_word w s (spaced MAX phrase) MAX Hw Hs ltac:(rewrite HA; exact HF)) as HN. rewrite HA in HN.
  destruct (word_head w s Hw) as (x & t & E & _ & Hx). destruct (not_special x Hx) as (E1 & _ & E2 & E3 & E4 & E5 & _).
  cbn [adrlist_loop]. rewrite E in HN |- *. rewrite E1, E2, E3, E4, E5, HN. exact Hn.
Qed.

Lemma adrlist_special x s phrase : x = ch "." \/ x = ch "@" -> fits MAX (phrase_add phrase [x]) ->
  adrlist_runs (SKIPWS s) (phrase_add phrase [x]) [] top err res -> adrlist_runs (x :: s) phrase [] top err res.
Proof.
  intros Hx HF [n Hn]. exists (S n). pose proof (spaced_add phrase [x] HF ltac:(easy)) as HA.
  assert (HN : next_token (x :: s) (spaced MAX phrase) MAX = Done (s, phrase_add phrase [x])).
  { rewrite <- HA. unfold next_token. unfold fits in HF. rewrite <- HA, length_app in HF. cbn [length] in HF. rewrite put_room by lia.
    destruct Hx as [-> | ->]; reflexivity. }
  cbn [adrlist_loop]. rewrite HN. destruct Hx as [-> | ->]; exact Hn.
Qed.

Lemma adrlist_comma s : adrlist_runs (SKIPWS s) [] [] top err res -> adrlist_runs (ch "," :: s) [] [] top err res.
Proof. intros [n Hn]. now exists (S n). Qed.

(** A pending phrase is added when the loop comes to a [,], a [;] or the end. *)
Definition closes (s : bytes) : Prop := match s with c :: _ => c = ch "," \/ c = ch ";" | [] => True end.

Lemma adrlist_close s phrase top' : closes s -> flush top phrase [] err = Done (top', err) ->
  adrlist_runs s [] [] top' err res -> adrlist_runs s phrase [] top err res.
Proof.
  intros Hs HF [[|n] Hn]; [discriminate|]. exists (S n). destruct s as [|x s]; cbn [adrlist_loop] in *.
  { now rewrite HF. }
  destruct Hs as [-> | ->]; cbn [Z.eqb Pos.eqb] in *; rewrite HF; exact Hn.
Qed.

Lemma adrlist_terminator s : top <> [] -> adrlist_runs (SKIPWS s) [] [] (top ++ [rfc822_new_address]) err res ->
  adrlist_runs (ch ";" :: s) [] [] top err res.
Proof.
  intros HT [n Hn]. exists (S n). cbn [adrlist_loop flush comment_last]. cbn. now destruct top.
Qed.

(** Words of a name or of a group. *)
Lemma adrlist_words w ws s phrase : is_word w -> Forall is_word ws -> atom_end s -> fits MAX (phrase_add phrase (joined [SP] w ws)) ->
  adrlist_runs (SKIPWS s) (phrase_add phrase (joined [SP] w ws)) [] top err res ->
  adrlist_runs (joined [SP] w ws ++ s) phrase [] top err res.
Proof.
  intros Hw Hws Hs. revert w phrase Hw. induction Hws as [|x ws Hx _ IH]; intros w phrase Hw HF HR; cbn [joined] in *.
  { now apply adrlist_word. }
  pose proof (phrase_add_assoc phrase w (joined [SP] x ws) (proj1 Hw)) as HA.
  rewrite HA in *. rewrite <- !app_assoc. apply adrlist_word; [exact Hw|now left| |].
  - unfold fits in *. destruct (phrase_add phrase w) as [|y p]; [cbn; lia|]. cbn [phrase_add] in HF. rewrite length_app in HF. lia.
  - cbn [app]. change (SKIPWS (SP :: joined [SP] x ws ++ s)) with (SKIPWS (joined [SP] x ws ++ s)).
    rewrite skipws_id; [now apply IH|]. destruct ws; cbn [joined]; [|rewrite <- app_assoc]; now apply word_skipped.
Qed.
End Steps.

(** A dotted text grows the phrase to its spaced form. *)
Lemma adrlist_dotted top err res w ws s phrase : is_word w -> Forall is_word ws -> atom_end s ->
  fits MAX (phrase_add phrase (joined [SP; ch "."; SP] w ws)) ->
  adrlist_runs (SKIPWS s) (phrase_add phrase (joined [SP; ch "."; SP] w ws)) [] top err res ->
  adrlist_runs (joined [ch "."] w ws ++ s) phrase [] top err res.
Proof.
  intros Hw Hws Hs. revert w phrase Hw. induction Hws as [|x ws Hx _ IH]; intros w phrase Hw HF HR; cbn [joined] in *.
  { now apply adrlist_word. }
  set (p := phrase_add (phrase_add phrase w) [ch "."]).
  assert (HA : phrase_add phrase (w ++ [SP; ch "."; SP] ++ joined [SP; ch "."; SP] x ws) = phrase_add p (joined [SP; ch "."; SP] x ws)).
  { subst p. now rewrite <- !phrase_add_assoc by (apply Hw || easy). }
  rewrite HA in *.
  assert (HP : fits MAX p).
  { unfold fits in *. destruct p as [|y p]; [cbn; lia|]. cbn [phrase_add] in HF. rewrite length_app in HF. lia. }
  assert (HW : fits MAX (phrase_add phrase w)).
  { unfold fits in *. subst p. destruct (phrase_add phrase w) as [|y q]; [cbn; lia|]. cbn [phrase_add] in HP. rewrite length_app in HP. lia. }
  rewrite <- !app_assoc. apply adrlist_word; [exact Hw|now right|exact HW|]. cbn [app]. rewrite skipws_id by reflexivity.
  apply adrlist_special; [now left|exact HP|].
  rewrite skipws_id; [now apply IH|]. destruct ws; cbn [joined]; [|rewrite <- app_assoc]; now apply word_skipped.
Qed.

(** ** Names *)

Lemma joined_bytes (P : Z -> Prop) sep w ws : Forall P sep -> Forall P w -> Forall (Forall P) ws -> Forall P (joined sep w ws).
Proof.
  intros HS Hw Hws. revert w Hw. induction Hws as [|x ws Hx _ IH]; intros w Hw; cbn [joined]; [exact Hw|].
  apply Forall_app; split; [exact Hw|]. apply Forall_app; split; [exact HS|]. now apply IH.
Qed.

Lemma dequote_plain s : Forall (fun c => c <> DQ /\ c <> BSL) s -> rfc822_dequote_comment s = s.
Proof.
  induction 1 as [|c s [H1 H2] _ IH]; [reflexivity|]. cbn [rfc822_dequote_comment].
  apply Z.eqb_neq in H1, H2. now rewrite H1, H2, IH.
Qed.

Lemma dequote_escaped p r : rfc822_dequote_comment (escaped p ++ r) = p ++ rfc822_dequote_comment r.
Proof.
  induction p as [|c p IH]; [reflexivity|]. cbn [escaped]. rewrite <- app_assoc.
  destruct (Z.eqb_spec c DQ) as [-> | H1]; [cbn; now rewrite IH|]. destruct (Z.eqb_spec c BSL) as [-> | H2]; [cbn; now rewrite IH|].
  apply Z.eqb_neq in H1, H2. cbn [orb app rfc822_dequote_comment]. now rewrite H1, H2, IH.
Qed.

Definition escape_pairs (p : bytes) : list (bool * Z) := map (fun c => ((c =? DQ) || (c =? BSL), c)) p.

Lemma escape_pairs_text p : concat (map (fun x : bool * Z => if x.1 then [BSL; x.2] else [x.2]) (escape_pairs p)) = escaped p.
Proof. unfold escape_pairs. induction p as [|c p IH]; [reflexivity|]. cbn [map concat escaped fst snd]. now rewrite IH. Qed.

Lemma escape_pairs_ok p : quoted_ok (escape_pairs p).
Proof.
  induction p as [|c p IH]; [constructor|]. constructor; [|exact IH]. cbn [fst snd].
  destruct (Z.eqb_spec c DQ); [now left|]. destruct (Z.eqb_spec c BSL); [now left|]. now right.
Qed.

Lemma next_token_quoted p r : fits MAX (DQ :: escaped p ++ [DQ]) ->
  next_token (DQ :: escaped p ++ DQ :: r) [] MAX = Done (r, DQ :: escaped p ++ [DQ]).
Proof.
  intros HF. unfold fits in HF. cbn [length] in HF. rewrite length_app in HF. cbn [length] in HF.
  unfold next_token. cbn [Z.eqb Pos.eqb]. unfold parse_quote. rewrite put_room by (cbn [length]; lia). cbn [app].
  destruct (quote_body_text (escape_pairs p) r [DQ] MAX (escape_pairs_ok p)) as (t & E & Ht). rewrite escape_pairs_text in E, Ht.
  rewrite E, Ht by (cbn [length]; lia). reflexivity.
Qed.

Lemma words_plain w : words_ok w -> Forall (fun c => c <> DQ /\ c <> BSL) (joined [SP] w.1 w.2) /\ existsb is_special (joined [SP] w.1 w.2) = false.
Proof.
  intros [Hw Hws].
  assert (HP : forall x, is_word x -> Forall (fun c => is_special c = false) x).
  { intros x [_ Hx]. eapply Forall_impl; [exact Hx|]. intros c Hc. now apply word_byte_spec. }
  assert (HJ : Forall (fun c => is_special c = false) (joined [SP] w.1 w.2)).
  { apply joined_bytes; [now constructor|now apply HP|]. eapply Forall_impl; [exact Hws|exact HP]. }
  split.
  - eapply Forall_impl; [exact HJ|]. intros c Hc. apply not_special in Hc as (_ & H1 & _ & _ & _ & _ & _ & H2). now apply Z.eqb_neq in H1, H2.
  - induction HJ as [|c s Hc _ IH]; [reflexivity|]. cbn [existsb]. now rewrite Hc.
Qed.

(** A name gets into the phrase as the writer printed it, and out of it as it was. *)
Lemma adrlist_name p s top res : name_ok p -> adrlist_runs s (name_text p) [] top None res -> skipped s ->
  adrlist_runs (name_text p ++ SP :: s) [] [] top None res.
Proof.
  intros HN HR HS. unfold name_text in *. destruct HN as [(HE & _ & HF) | (w & Hw & -> & HF)].
  - rewrite HE in *. unfold name_text in HF. rewrite HE in HF. destruct HR as [n Hn]. exists (S n).
    cbn [adrlist_loop app Z.eqb Pos.eqb]. rewrite <- app_assoc. cbn [app spaced]. rewrite next_token_quoted by exact HF.
    cbn [mbind parsed_bind]. change (SKIPWS (SP :: s)) with (SKIPWS s). now rewrite skipws_id.
  - destruct (words_plain w Hw) as [_ HE]. rewrite HE in *. destruct Hw as [Hw Hws].
    apply adrlist_words; [exact Hw|exact Hws|now left|exact HF|].
    change (SKIPWS (SP :: s)) with (SKIPWS s). now rewrite skipws_id.
Qed.

Lemma name_back p : name_ok p -> safe_strdup (rfc822_dequote_comment (name_text p)) = Some p /\ name_text p <> [].
Proof.
  unfold name_text. intros [(HE & _) | (w & Hw & -> & _)].
  - rewrite HE. split; [|easy]. cbn [rfc822_dequote_comment Z.eqb Pos.eqb]. rewrite dequote_escaped. cbn. rewrite app_nil_r.
    now destruct p.
  - destruct (words_plain w Hw) as [HP HE]. rewrite HE, dequote_plain by exact HP. destruct Hw as [[Hne _] _].
    destruct w as [[|c w] [|x ws]]; [easy|easy|now split..].
Qed.

(** ** Reading back what was written *)

Lemma joined_word_head sep w ws r : is_word w -> exists c t, joined sep w ws ++ r = c :: t /\ is_space c = false /\ is_special c = false.
Proof. intros Hw. destruct ws; cbn [joined]; [|rewrite <- app_assoc]; now apply word_head. Qed.

Lemma mailbox_head m r : mailbox_ok m -> exists c t, m ++ r = c :: t /\ is_space c = false /\ is_special c = false.
Proof.
  intros (d & [Hw _] & _ & -> & _). unfold dotted_text. rewrite <- app_assoc. now apply joined_word_head.
Qed.

Lemma dotted_shorter d : fits MAX (dotted_text [SP] d) -> fits MAX (dotted_text [] d).
Proof.
  assert (HJ : forall w ws, (length (joined [ch "."] w ws) <= length (joined [SP; ch "."; SP] w ws))%nat).
  { intros w ws. revert w. induction ws as [|x ws IH]; intros w; cbn [joined]; [lia|]. rewrite !length_app. cbn [length]. specialize (IH x). lia. }
  unfold fits, dotted_text. cbn [app]. rewrite !length_app. cbn [length].
  pose proof (HJ (d_local d).1 (d_local d).2). pose proof (HJ (d_domain d).1 (d_domain d).2). lia.
Qed.

Lemma angle_after r : after_mailbox (ch ">" :: r).
Proof. reflexivity. Qed.

Lemma parse_route_mailbox m r addr : mailbox_ok m ->
  parse_route_addr (m ++ ch ">" :: r) [] addr = Done (r, [], MkAddress (personal addr) (Some m) (group addr)).
Proof.
  intros HM. destruct (mailbox_head m (ch ">" :: r) HM) as (c & t & E & H1 & H2). unfold parse_route_addr. rewrite E.
  rewrite skipws_id by exact H1. apply not_special in H2 as (_ & _ & _ & _ & _ & _ & H2 & _). cbn [at_ nth]. rewrite H2. cbn [mbind parsed_bind].
  rewrite <- E. destruct HM as (d & HL & HD & -> & HF).
  rewrite parse_address_dotted; [reflexivity|now left|exact HL|exact HD|now apply dotted_shorter|reflexivity].
Qed.

Lemma flush_mailbox d top : words_ok (d_local d) -> words_ok (d_domain d) -> fits MAX (dotted_text [SP] d) ->
  flush top (dotted_text [SP] d) [] None = Done (top ++ [MkAddress None (Some (dotted_text [] d)) false], None).
Proof.
  intros HL HD HF. unfold flush, add_addrspec, parse_addr_spec.
  pose proof (parse_address_dotted [SP] d [] rfc822_new_address ltac:(now right) HL HD (dotted_shorter d HF) I) as HP.
  rewrite app_nil_r in HP. rewrite HP. cbn [mbind parsed_bind].
  destruct (joined_word_head [SP; ch "."; SP] (d_local d).1 (d_local d).2 ([SP; ch "@"; SP] ++ joined [SP; ch "."; SP] (d_domain d).1 (d_domain d).2) (proj1 HL)) as (c & t & E & _).
  assert (E' : dotted_text [SP] d = c :: t) by exact E. now rewrite E'.
Qed.

(** The text of a mailbox alone becomes the phrase with spaced dots. *)
Lemma adrlist_mailbox d s top res : words_ok (d_local d) -> words_ok (d_domain d) -> fits MAX (dotted_text [SP] d) -> closes s -> skipped s ->
  adrlist_runs s (dotted_text [SP] d) [] top None res -> adrlist_runs (dotted_text [] d ++ s) [] [] top None res.
Proof.
  intros [L1 L2] [D1 D2] HF HC HS HR. unfold dotted_text in *. cbn [app] in *.
  set (l := joined [SP; ch "."; SP] (d_local d).1 (d_local d).2) in *. set (m := joined [SP; ch "."; SP] (d_domain d).1 (d_domain d).2) in *.
  assert (HE : phrase_add (phrase_add (phrase_add [] l) [ch "@"]) m = l ++ SP :: ch "@" :: SP :: m).
  { cbn [phrase_add]. destruct (joined_word_head [SP; ch "."; SP] (d_local d).1 (d_local d).2 [] L1) as (c & t & E & _).
    rewrite app_nil_r in E. fold l in E. rewrite E. cbn [phrase_add app]. f_equal. now list_assoc. }
  unfold fits in HF. rewrite length_app in HF. cbn [length] in HF.
  rewrite <- app_assoc. cbn [app]. apply adrlist_dotted; [exact L1|exact L2|now right|fold l; unfold fits; cbn [phrase_add]; lia|]. fold l.
  rewrite skipws_id by reflexivity. apply adrlist_special; [now right| |].
  { unfold fits. cbn [phrase_add]. pose proof (phrase_add_length l [ch "@"]) as HP. cbn [length] in HP. lia. }
  destruct (joined_word_head [ch "."] (d_domain d).1 (d_domain d).2 s D1) as (c & t & E & H1 & _).
  rewrite skipws_id by (rewrite E; exact H1). apply adrlist_dotted; [exact D1|exact D2| | |].
  - destruct s as [|x s]; [exact I|]. destruct HC as [-> | ->]; now right.
  - fold m. rewrite HE. unfold fits. rewrite length_app. cbn [length]. lia.
  - fold m. rewrite HE. now rewrite skipws_id.
Qed.

(** The text of a list starts outside white space. *)
Lemma address_text_skipped a r : address_ok a -> skipped (address_text a ++ r).
Proof.
  assert (HW : forall w r, words_ok w -> skipped (joined [SP] w.1 w.2 ++ r)).
  { intros w r' [Hw _]. destruct (joined_word_head [SP] w.1 w.2 r' Hw) as (c & t & -> & H & _). exact H. }
  destruct a as [[p|] [m|] []]; cbn [address_ok]; try easy; unfold address_text; cbn [personal mailbox group app].
  - intros [_ [(HE & _) | (w & Hw & -> & _)]]; unfold name_text; [now rewrite HE|].
    destruct (words_plain w Hw) as [_ HE]. rewrite HE, <- !app_assoc. now apply HW.
  - intros (w & Hw & -> & _). destruct (in_angles _); cbn [app]; [reflexivity|]. rewrite <- app_assoc. now apply HW.
  - intros [HM _]. destruct (in_angles _); [reflexivity|]. cbn [app]. rewrite app_nil_r.
    destruct (mailbox_head m r HM) as (c & t & -> & H & _). exact H.
Qed.

Lemma list_text_skipped l : Forall address_ok l -> skipped (list_text l).
Proof. intros [|a next Ha _]; [exact I|]. cbn [list_text]. now apply address_text_skipped. Qed.

(** After an address that is not the opening of a group. *)
Lemma adrlist_separator a next top res : group a = false -> Forall address_ok next ->
  adrlist_runs (list_text next) [] [] top None res ->
  adrlist_runs (separator a next ++ list_text next) [] [] top None res /\
  closes (separator a next ++ list_text next) /\ skipped (separator a next ++ list_text next).
Proof.
  intros HG HN HR. pose proof (list_text_skipped next HN) as HS. unfold separator. destruct next as [|b next]; [auto|].
  destruct (mailbox b) as [m|] eqn:E.
  - rewrite HG. split; [|split; [now left|reflexivity]]. apply adrlist_comma. cbn [app].
    change (SKIPWS (SP :: list_text (b :: next))) with (SKIPWS (list_text (b :: next))). now rewrite skipws_id.
  - split; [exact HR|]. split; [|exact HS]. inversion HN as [|? ? Hb _]; subst.
    destruct b as [[p|] m' []]; cbn in E; subst m'; cbn in Hb; try easy. now right.
Qed.

Lemma no_angles m : (exists c t, m ++ [] = c :: t /\ is_space c = false /\ is_special c = false) -> (at_ m 0 =? ch "@") = false.
Proof. rewrite app_nil_r. intros (c & t & -> & _ & H). now apply not_special in H. Qed.

Lemma adrlist_opening w s top res : words_ok w -> fits MAX (joined [SP] w.1 w.2) -> skipped s ->
  adrlist_runs s [] [] (top ++ [MkAddress None (Some (joined [SP] w.1 w.2)) true]) None res ->
  adrlist_runs (joined [SP] w.1 w.2 ++ ch ":" :: SP :: s) [] [] top None res.
Proof.
  intros [Hw Hws] HF HS [n Hn]. apply adrlist_words; [exact Hw|exact Hws|now right|exact HF|].
  rewrite skipws_id by reflexivity. exists (S n). cbn [adrlist_loop Z.eqb Pos.eqb phrase_add].
  change (SKIPWS (SP :: s)) with (SKIPWS s). rewrite skipws_id by exact HS.
  destruct (joined_word_head [SP] w.1 w.2 [] Hw) as (c & t & E & _). rewrite app_nil_r in E. rewrite E in *. exact Hn.
Qed.

Lemma adrlist_named p m s top res : name_ok p -> mailbox_ok m -> skipped s ->
  adrlist_runs s [] [] (top ++ [MkAddress (Some p) (Some m) false]) None res ->
  adrlist_runs (name_text p ++ SP :: ch "<" :: m ++ ch ">" :: s) [] [] top None res.
Proof.
  intros HP HM HS [n Hn]. apply adrlist_name; [exact HP| |reflexivity]. exists (S n).
  destruct (name_back p HP) as [HB HNE]. cbn [adrlist_loop Z.eqb Pos.eqb]. destruct (name_text p) as [|x q]; [easy|].
  rewrite HB, parse_route_mailbox by exact HM. cbn [mbind parsed_bind personal group]. now rewrite skipws_id.
Qed.

Lemma adrlist_address a next top res : address_ok a -> Forall address_ok next -> (mailbox a = None -> top <> []) ->
  adrlist_runs (list_text next) [] [] (top ++ [a]) None res ->
  adrlist_runs (address_text a ++ separator a next ++ list_text next) [] [] top None res.
Proof.
  intros HA HN HT HR. pose proof (list_text_skipped next HN) as HS.
  destruct (group a) eqn:EG.
  - destruct a as [[p|] [m|] []]; cbn in EG; try easy. destruct HA as (w & Hw & -> & HF).
    unfold address_text, separator, in_angles. cbn [personal mailbox group app].
    rewrite no_angles by (apply joined_word_head, Hw). cbn [app].
    replace (match next with b :: _ => match mailbox b with Some _ => [] | None => [] end | [] => [] end) with (@nil Z)
      by (destruct next as [|b ?]; [|destruct (mailbox b)]; reflexivity).
    rewrite <- app_assoc. cbn [app]. now apply adrlist_opening.
  - destruct (adrlist_separator a next (top ++ [a]) res EG HN HR) as (HR' & HC & HS'). clear HR.
    set (s := separator a next ++ list_text next) in *. destruct a as [p [m|] g]; cbn in EG; subst g.
    + destruct p as [p|]; destruct HA as [HM HP]; unfold address_text, in_angles; cbn [personal mailbox group app].
      * pose proof (adrlist_named p m s top res HP HM HS' HR') as H. list_assoc. exact H.
      * rewrite no_angles by now apply mailbox_head. cbn [app]. rewrite app_nil_r. destruct HM as (d & HL & HD & -> & HF).
        apply adrlist_mailbox; [exact HL|exact HD|exact HF|exact HC|exact HS'|].
        eapply adrlist_close; [exact HC|now apply flush_mailbox|exact HR'].
    + destruct p; [easy|]. cbn [app address_text]. unfold address_text. cbn [personal mailbox group app in_angles].
      apply adrlist_terminator; [now apply HT|]. now rewrite skipws_id.
Qed.

Lemma adrlist_text l top : Forall address_ok l -> (top = [] -> match l with a :: _ => mailbox a <> None | [] => True end) ->
  adrlist_runs (list_text l) [] [] top None (top ++ l, None).
Proof.
  intros Hl. revert top. induction Hl as [|a l Ha Hl IH]; intros top HT.
  - exists 1%nat. cbn. now rewrite app_nil_r.
  - cbn [list_text]. apply adrlist_address; [exact Ha|exact Hl| |].
    + intros HM HE. now apply HT.
    + replace (top ++ a :: l) with ((top ++ [a]) ++ l) by now rewrite <- app_assoc. apply IH.
      intros E. now destruct top.
Qed.

(** A list that starts with an address or a group. *)
Definition list_ok (l : list ADDRESS) : Prop :=
  Forall address_ok l /\ match l with a :: _ => mailbox a <> None | [] => True end.

Lemma parse_written l buflen : list_ok l -> (length (list_text l) + 1 < buflen)%nat ->
  rfc822_parse_adrlist [] (rfc822_write_address [] buflen l) = Some (l, None).
Proof.
  intros [Hl Hh] HB. rewrite write_address_room by exact HB.
  exact (adrlist_result _ (l, None) (list_text_skipped l Hl) (adrlist_text l [] Hl (fun _ => Hh))).
Qed.

(** *** The property *)

(** C29. The list parser reads back what the writer wrote, for lists of this form: the
    mailboxes are dotted words on both sides of their [@]; a name is words with one
    space between them, or has a special, so that it is written in quotes; a group has
    a name of words; the end of a group does not come first; each text fits the
    buffers of the parser, a mailbox also with a space around each dot; and the
    buffer of the writer has room to spare.  The addresses come back in order with
    their names and mailboxes and no error. *)
Theorem adrlist_roundtrip l buflen : list_ok l -> (length (list_text l) + 1 < buflen)%nat ->
  rfc822_parse_adrlist [] (rfc822_write_address [] buflen l) = Some (l, None).
Proof. exact (parse_written l buflen). Qed.

(** A quoted name, a group of one member, and a name of two words. *)
Definition sample_list : list ADDRESS :=
  [MkAddress (Some (str "Q. " ++ [DQ] ++ str "Ann" ++ [DQ])) (Some (str "ann.q@mail.example")) false;
   MkAddress None (Some (str "the team")) true;
   MkAddress None (Some (str "x@y")) false;
   rfc822_new_address;
   MkAddress (Some (str "Bob Roe")) (Some (str "bob@example")) false].

Lemma is_word_check w : forallb word_byte w = true -> w <> [] -> is_word w.
Proof. intros H Hw. split; [exact Hw|]. apply Forall_forall. intros c Hc. now apply (proj1 (forallb_forall _ _) H), list_elem_of_In. Qed.

Ltac word_check := apply is_word_check; [reflexivity|easy].
Ltac fits_check := apply Nat.leb_le; reflexivity.

Lemma sample_list_ok : list_ok sample_list.
Proof.
  split; [|easy]. repeat (apply List.Forall_cons); [..|apply List.Forall_nil].
  - split.
    + exists (MkDotted (str "ann", [str "q"]) (str "mail", [str "example"])).
      repeat split; cbn [d_local d_domain fst snd]; try word_check; try fits_check; repeat (apply List.Forall_cons; [word_check|]); apply List.Forall_nil.
    + left. split; [reflexivity|]. split; [|fits_check]. repeat (apply List.Forall_cons; [easy|]). apply List.Forall_nil.
  - exists (str "the", [str "team"]). split; [split; [word_check|apply List.Forall_cons; [word_check|apply List.Forall_nil]]|].
    split; [reflexivity|fits_check].
  - split; [|exact I]. exists (MkDotted (str "x", []) (str "y", [])).
    repeat split; cbn [d_local d_domain fst snd]; try word_check; try fits_check; apply List.Forall_nil.
  - exact I.
  - split.
    + exists (MkDotted (str "bob", []) (str "example", [])).
      repeat split; cbn [d_local d_domain fst snd]; try word_check; try fits_check; apply List.Forall_nil.
    + right. exists (str "Bob", [str "Roe"]). split; [split; [word_check|apply List.Forall_cons; [word_check|apply List.Forall_nil]]|].
      split; [reflexivity|fits_check].
Qed.

Lemma adrlist_roundtrip_witness :
  rfc822_write_address [] 256 sample_list =
    [DQ] ++ str "Q. " ++ [BSL; DQ] ++ str "Ann" ++ [BSL; DQ; DQ] ++ str " <ann.q@mail.example>, the team: x@y;, Bob Roe <bob@example>" /\
  rfc822_parse_adrlist [] (rfc822_write_address [] 256 sample_list) = Some (sample_list, None).
Proof.
  split; [reflexivity|]. apply (adrlist_roundtrip sample_list 256); [exact sample_list_ok|]. apply Nat.ltb_lt. reflexivity.
Defined.

(** A dot of a name without quotes gets a space on either side. *)
Example name_dot_spaced : rfc822_parse_adrlist [] (str "John Q. Public <jq@x>") =
  Some ([MkAddress (Some (str "John Q . Public")) (Some (str "jq@x")) false], None).
Proof. reflexivity. Qed.

(** Other white space between the words of a name is not kept. *)
Example name_spaces_joined : rfc822_write_address [] 64 [MkAddress (Some (str "A  B")) (Some (str "a@x")) false] = str "A  B <a@x>" /\
  rfc822_parse_adrlist [] (str "A  B <a@x>") = Some ([MkAddress (Some (str "A B")) (Some (str "a@x")) false], None).
Proof. now split. Qed.

(** A bad address is dropped and the list goes on; a bad comment loses the list. *)
Example bad_spec_dropped : rfc822_parse_adrlist [] (str "a@b>, c@d") = Some ([MkAddress None (Some (str "c@d")) false], Some ERR_BAD_ADDR_SPEC).
Proof. reflexivity. Qed.
Example bad_comment_lost : rfc822_parse_adrlist [] (str "a@b, c@d (x") = Some ([], Some ERR_MISMATCH_PAREN).
Proof. reflexivity. Qed.
