(* ===== verification/Headers.v ===== *)
(** * Message headers (src/filter/headers.c)

    The physical lines of a message up to its separator, the unfolded fields,
    the mailboxes of the address fields and the digest of the bytes read. *)
From S2P Require Import Prelude Sha256 Utf8 Mailbox Lexer Rules Resolve Classify Rfc822.

(** [struct jf_headers]: the message it owns, its vectors' capacities and the
    number of requests made to the caller's allocator. *)
Record jf_headers := MkHeaders {
  h_addresses : list (Z * bytes); h_senders : list bytes; h_spam : list bytes;
  address_capacity : Z; sender_capacity : Z; spam_capacity : Z;
  h_requests : nat; wire_size : Z; wire_digest : bytes }.

Definition new_headers (requests : nat) : jf_headers := MkHeaders [] [] [] 0 0 0 requests 0 [].

(** [struct header_parser]; [callback] is [callback_status] with the error that
    was filled, and [pending] the bytes of [value] in use. *)
Record header_parser := MkHParser {
  headers : jf_headers; pending : bytes; value_size : Z; hp_line : Z; field_line : Z;
  hp_field : Z; active : bool; callback : option (Z * jf_error) }.

Definition set_headers (h : jf_headers) (p : header_parser) : header_parser :=
  MkHParser h (pending p) (value_size p) (hp_line p) (field_line p) (hp_field p) (active p) (callback p).
Definition set_callback (c : option (Z * jf_error)) (p : header_parser) : header_parser :=
  MkHParser (headers p) (pending p) (value_size p) (hp_line p) (field_line p) (hp_field p) (active p) c.

Definition header_error (p : header_parser) (code : string) (detail : bytes) : jf_error :=
  MkError code SIZE_MAX (field_line p) (snprintf160 detail).
Definition hfail {A} (p : header_parser) (code : string) (detail : bytes) (rc : Z) : res A :=
  Fail rc (header_error p code detail).

(** [sizeof] on x86-64; only the overflow guards depend on them. *)
Definition sizeof_mailbox : Z := 24.
Definition sizeof_text : Z := 16.
Definition sizeof_owned : Z := 8.

Section Headers.
Context `{AL : Allocator}.

(** A request: the next state of the allocator when it is granted. *)
Definition request (n : nat) : option nat := if alloc_ok n then Some (S n) else None.

(** [own]: room for the text and a terminator. *)
Definition own (s : bytes) (requests : nat) : option nat :=
  if SIZE_MAX - sizeof_owned - 1 <? zlen s then None else request requests.

(** [grow]: the new capacity. *)
Definition hgrow (count cap item : Z) (requests : nat) : option (Z * nat) :=
  if count <? cap then Some (cap, requests)
  else
    let cap' := if cap =? 0 then 8 else size_t (cap * 2) in
    if (cap' <? cap) || (SIZE_MAX / item <? cap') then None
    else n ← request requests; Some (cap', n).

Definition stop_with (p : header_parser) (code : string) (detail : bytes) (rc : Z) : header_parser * bool :=
  (set_callback (Some (rc, header_error p code detail)) p, true).

Definition emit_address (p : header_parser) (mailbox : bytes) : header_parser * bool :=
  let h := headers p in
  if negb (jf_valid_utf8 mailbox) || negb (jf_valid_mailbox mailbox)
  then stop_with p "E_MESSAGE_ADDRESS" (str "unsupported/invalid mailbox domain or local part") 7
  else match hgrow (zlen (h_addresses h)) (address_capacity h) sizeof_mailbox (h_requests h) with
  | None => stop_with p "E_MEMORY" (str "address vector allocation failed") 3
  | Some (cap, n) =>
      let h := MkHeaders (h_addresses h) (h_senders h) (h_spam h) cap (sender_capacity h) (spam_capacity h)
                 n (wire_size h) (wire_digest h) in
      match own mailbox n with
      | None => stop_with (set_headers h p) "E_MEMORY" (str "mailbox allocation failed") 3
      | Some n =>
          let h := MkHeaders (h_addresses h) (h_senders h) (h_spam h) cap (sender_capacity h) (spam_capacity h)
                     n (wire_size h) (wire_digest h) in
          match jf_normalize_mailbox mailbox with
          | None => stop_with (set_headers h p) "E_MESSAGE_ADDRESS" (str "unsupported/empty local part") 7
          | Some text =>
              (set_headers (MkHeaders (h_addresses h ++ [(hp_field p, text)]) (h_senders h) (h_spam h) cap
                 (sender_capacity h) (spam_capacity h) n (wire_size h) (wire_digest h)) p, false)
          end
      end
  end.

Definition store_value (p : header_parser) (is_spam : bool) : res header_parser :=
  let h := headers p in
  let count := if is_spam then zlen (h_spam h) else zlen (h_senders h) in
  let cap := if is_spam then spam_capacity h else sender_capacity h in
  match hgrow count cap sizeof_text (h_requests h) with
  | None => hfail p "E_MEMORY" (str "header vector allocation failed") 3
  | Some (cap, n) =>
      match own (pending p) n with
      | None => hfail p "E_MEMORY" (str "header value allocation failed") 3
      | Some n =>
          Ok (set_headers
            (if is_spam
             then MkHeaders (h_addresses h) (h_senders h) (h_spam h ++ [pending p]) (address_capacity h)
                    (sender_capacity h) cap n (wire_size h) (wire_digest h)
             else MkHeaders (h_addresses h) (h_senders h ++ [pending p]) (h_spam h) (address_capacity h)
                    cap (spam_capacity h) n (wire_size h) (wire_digest h)) p)
      end
  end.

Definition scratch_size : nat := Z.to_nat (JF_LINE_MAX + 1).

Definition finish_field (p : header_parser) : res header_parser :=
  if negb (active p) || (hp_field p =? 0) then Ok p
  else if hp_field p =? JF_SPAM then store_value p true
  else if negb (jf_valid_utf8 (pending p)) then hfail p "E_MESSAGE_ADDRESS" (str "invalid UTF8 in address field") 7
  else
    let '(rc, p) := rfc822_parse_mailboxes emit_address scratch_size (pending p) (set_callback None p) in
    if rc =? RFC822_BOUNDED_EMIT then
      match callback p with Some (rc, e) => Fail rc e | None => Ok p end
    else if negb (rc =? 0) then hfail p "E_MESSAGE_ADDRESS" (str "malformed/unsupported address list") 7
    else if hp_field p =? JF_SENDER then store_value p false else Ok p.

Definition name_is (name expected : bytes) : bool :=
  (length expected =? length name)%nat && streq (fold_bytes name) expected.

Definition field_of (name : bytes) : Z :=
  if name_is name (str "from") then JF_FROM
  else if name_is name (str "sender") then JF_SENDER
  else if name_is name (str "to") then JF_TO
  else if name_is name (str "cc") then JF_CC
  else if name_is name (str "x-spam-flag") then JF_SPAM else 0.

Definition bad_name_byte (c : Z) : bool := (c <? 33) || (126 <? c).

(** The bytes of a line that belong to the value of the field. *)
Definition extend (p : header_parser) (s : bytes) : res header_parser :=
  if JF_LINE_MAX - value_size p <? zlen s then hfail p "E_MESSAGE_LIMIT" (str "unfolded field exceeds 64 KiB") 7
  else Ok (MkHParser (headers p) (if hp_field p =? 0 then pending p else pending p ++ s) (value_size p + zlen s)
             (hp_line p) (field_line p) (hp_field p) (active p) (callback p)).

(** [line]: a nonempty physical line. *)
Definition header_line (p : header_parser) (s : bytes) : res header_parser :=
  let p := MkHParser (headers p) (pending p) (value_size p) (hp_line p + 1) (field_line p) (hp_field p) (active p) (callback p) in
  if is_blank (at_ s 0) then
    if negb (active p)
    then hfail (MkHParser (headers p) (pending p) (value_size p) (hp_line p) (hp_line p) (hp_field p) (active p) (callback p))
           "E_MESSAGE_HEADER" (str "orphan continuation") 7
    else extend p s
  else
    p ← finish_field p;
    let name := take_while (fun c => negb (c =? ch ":")) s in
    let p field := MkHParser (headers p) [] 0 (hp_line p) (hp_line p) field true (callback p) in
    if existsb bad_name_byte name then hfail (p 0) "E_MESSAGE_HEADER" (str "invalid header field name") 7
    else if (length name =? 0)%nat || (length name =? length s)%nat
    then hfail (p 0) "E_MESSAGE_HEADER" (str "missing header colon/name") 7
    else extend (p (field_of name)) (drop (S (length name)) s).

(** ** The input *)

(** What successive calls of [read] on the descriptor give. *)
Inductive read_result := ReadData (s : bytes) | ReadInterrupted | ReadError.

(** [struct input]: the bytes from [position] on, and the reads still to come;
    a buffer is not [streaming]. *)
Record input := MkInput { available : bytes; streaming : bool; reads : list read_result }.

Inductive got := GotByte (c : Z) (i : input) | GotEnd | GotError.

(** The loop around [read]; the end of the list is the end of the file. *)
Fixpoint refill (l : list read_result) : got :=
  match l with
  | ReadInterrupted :: t => refill t
  | ReadData (c :: s) :: t => GotByte c (MkInput s true t)
  | ReadData [] :: _ => GotEnd
  | ReadError :: _ => GotError
  | [] => GotEnd
  end.

Definition next (i : input) : got :=
  match available i with
  | c :: s => GotByte c (MkInput s (streaming i) (reads i))
  | [] => if streaming i then refill (reads i) else GotEnd
  end.

Definition read_size (r : read_result) : nat := match r with ReadData s => length s | _ => 0 end.
(** Enough turns of the parse loop for the bytes there are. *)
Definition input_fuel (i : input) : nat := S (length (available i) + list_sum (map read_size (reads i))).

(** ** The parse loop *)

Definition count_wire (p : header_parser) : header_parser :=
  let h := headers p in
  set_headers (MkHeaders (h_addresses h) (h_senders h) (h_spam h) (address_capacity h) (sender_capacity h)
    (spam_capacity h) (h_requests h) (wire_size h + 1) (wire_digest h)) p.

(** [p.field_line=p.line+1] before a failure of the loop. *)
Definition here (p : header_parser) : header_parser :=
  MkHParser (headers p) (pending p) (value_size p) (hp_line p) (hp_line p + 1) (hp_field p) (active p) (callback p).

Definition ends_cr (s : bytes) : bool := match last s with Some c => c =? CR | None => false end.
Definition strip_last_cr (s : bytes) : bytes := if ends_cr s then removelast s else s.
Definition bad_byte (c : Z) : bool := ((c <? 32) && negb (c =? HT) && negb (c =? CR)) || (c =? 127).

(** One byte: the parser, the hash, and the physical line so far unless the
    header block is complete. *)
Definition byte_step (byte : Z) (p : header_parser) (physical : bytes) (hash : jf_sha256) :
    res (header_parser * jf_sha256 * option bytes) :=
  let p := count_wire p in
  if JF_HEADERS_MAX <? wire_size (headers p)
  then hfail (here p) "E_MESSAGE_LIMIT" (str "headers exceed 1 MiB") 7
  else
    let hash := jf_sha256_update hash [byte] in
    if byte =? LF then
      let physical := strip_last_cr physical in
      if JF_LINE_MAX <? zlen physical
      then hfail (here p) "E_MESSAGE_LIMIT" (str "physical header line exceeds 64 KiB") 7
      else if (length physical =? 0)%nat then p ← finish_field p; Ok (p, hash, None)
      else p ← header_line p physical; Ok (p, hash, Some [])
    else if bad_byte byte || ends_cr physical
    then hfail (here p) "E_MESSAGE_TEXT" (str "NUL/control byte or bare CR in header") 7
    else if zlen physical =? JF_LINE_MAX + 1
    then hfail (here p) "E_MESSAGE_LIMIT" (str "physical header line exceeds 64 KiB") 7
    else Ok (p, hash, Some (physical ++ [byte])).

Definition truncated {A} (p : header_parser) : res A :=
  hfail (here p) "E_MESSAGE_TRUNCATED" (str "missing header/body separator") 7.
Definition read_failed {A} (p : header_parser) : res A :=
  hfail (here p) "E_MESSAGE_IO" (str "message read failed") 3.

Fixpoint parse_loop (fuel : nat) (i : input) (p : header_parser) (physical : bytes) (hash : jf_sha256) :
    res (header_parser * jf_sha256) :=
  match fuel with
  | O => truncated p
  | S fuel' =>
      match next i with
      | GotEnd => truncated p
      | GotError => read_failed p
      | GotByte byte i =>
          '(p, hash, physical) ← byte_step byte p physical hash;
          match physical with
          | None => Ok (p, hash)
          | Some physical => parse_loop fuel' i p physical hash
          end
      end
  end.

Definition start (requests : nat) : header_parser := MkHParser (new_headers requests) [] 0 0 0 0 false None.

(** [parse] with valid arguments; [requests] were made of the allocator before. *)
Definition parse (i : input) (requests : nat) : res jf_headers :=
  match request requests with
  | None => hfail (start requests) "E_MEMORY" (str "message allocation failed") 3
  | Some n =>
      match (n ← request n; n ← request n; request n) with
      | None => hfail (start n) "E_MEMORY" (str "header scratch allocation failed") 3
      | Some n =>
          '(p, hash) ← parse_loop (input_fuel i) i (start n) [] (jf_sha256_init stack_block);
          let h := headers p in
          Ok (MkHeaders (h_addresses h) (h_senders h) (h_spam h) (address_capacity h) (sender_capacity h)
                (spam_capacity h) (h_requests h) (wire_size h) (jf_sha256_hex hash))
      end
  end.

Definition jf_headers_parse (data : view Z) (requests : nat) : res jf_headers :=
  if missing data then hfail (start requests) "E_MESSAGE_ARGUMENT" (str "missing message bytes") 7
  else parse (MkInput (view_list data) false []) requests.

Definition jf_headers_read (fd : list read_result) (requests : nat) : res jf_headers :=
  parse (MkInput [] true fd) requests.

(** [jf_headers_message]. *)
Definition jf_headers_message (h : jf_headers) : jf_message :=
  MkMessage (View (map (fun a => MkMailbox a.1 (View a.2)) (h_addresses h)))
    (View (map View (h_senders h))) (View (map View (h_spam h))).
End Headers.

(** ** The bytes an input gives

    The parser as a recursion over the bytes themselves: neither the sizes of
    the reads nor their interruptions are visible. *)

(** The bytes of the reads up to the first error or empty read, and whether it
    was an error. *)
Fixpoint stream (l : list read_result) : bytes * bool :=
  match l with
  | ReadInterrupted :: t => stream t
  | ReadData (c :: s) :: t => let '(r, bad) := stream t in (c :: s ++ r, bad)
  | ReadData [] :: _ => ([], false)
  | ReadError :: _ => ([], true)
  | [] => ([], false)
  end.

Definition input_bytes (i : input) : bytes * bool :=
  if streaming i then let '(r, bad) := stream (reads i) in (available i ++ r, bad) else (available i, false).

Lemma refill_stream l : match refill l with
  | GotByte c i => streaming i = true /\ stream l = (c :: (input_bytes i).1, (input_bytes i).2)
  | GotEnd => stream l = ([], false)
  | GotError => stream l = ([], true)
  end.
Proof.
  induction l as [|r l IH]; [reflexivity|]. destruct r as [[|c s]| |]; cbn [refill stream]; auto. split; [reflexivity|].
  unfold input_bytes. cbn [streaming available reads]. now destruct (stream l).
Qed.

Lemma next_bytes i : match next i with
  | GotByte c i' => input_bytes i = (c :: (input_bytes i').1, (input_bytes i').2)
  | GotEnd => input_bytes i = ([], false)
  | GotError => input_bytes i = ([], true)
  end.
Proof.
  unfold next. destruct i as [[|c s] [] l]; cbn [available streaming reads].
  - pose proof (refill_stream l) as H. unfold input_bytes. cbn [streaming available reads].
    destruct (refill l) as [c i'| |]; [destruct H as [_ ->]|rewrite H|rewrite H]; reflexivity.
  - reflexivity.
  - unfold input_bytes. cbn [streaming available reads]. now destruct (stream l).
  - reflexivity.
Qed.

Lemma stream_length l : (length (stream l).1 <= list_sum (map read_size l))%nat.
Proof.
  induction l as [|r l IH]; [cbn; lia|]. destruct r as [[|c s]| |]; cbn [stream map read_size length] in *; try (cbn; lia).
  2: { change (list_sum (0%nat :: map read_size l)) with (list_sum (map read_size l)). exact IH. }
  destruct (stream l) as [r bad]. cbn [fst] in *. cbn [length]. rewrite length_app.
  change (list_sum (S (length s) :: map read_size l)) with (S (length s) + list_sum (map read_size l))%nat. lia.
Qed.

Lemma input_bytes_fuel i : (length (input_bytes i).1 < input_fuel i)%nat.
Proof.
  unfold input_bytes, input_fuel. pose proof (stream_length (reads i)). destruct (streaming i).
  - destruct (stream (reads i)) as [r bad]. cbn [fst] in *. rewrite length_app. lia.
  - cbn [fst]. lia.
Qed.

#[local] Opaque jf_sha256_update jf_sha256_init.

Section Bytes.
Context `{AL : Allocator}.

Fixpoint byte_loop (s : bytes) (bad : bool) (p : header_parser) (physical : bytes) (hash : jf_sha256) :
    res (header_parser * jf_sha256) :=
  match s with
  | [] => if bad then read_failed p else truncated p
  | byte :: s =>
      '(p, hash, physical) ← byte_step byte p physical hash;
      match physical with
      | None => Ok (p, hash)
      | Some physical => byte_loop s bad p physical hash
      end
  end.

Lemma parse_loop_bytes fuel i p physical hash : (length (input_bytes i).1 < fuel)%nat ->
  parse_loop fuel i p physical hash = byte_loop (input_bytes i).1 (input_bytes i).2 p physical hash.
Proof.
  revert i p physical hash. induction fuel as [|fuel IH]; intros i p physical hash Hf; [lia|].
  cbn [parse_loop]. pose proof (next_bytes i) as Hn. destruct (next i) as [c i'| |]; rewrite Hn in *; cbn [fst snd byte_loop]; auto.
  destruct (byte_step c p physical hash) as [[[p1 h1] [ph|]]|rc e]; cbn; auto. apply IH. cbn in Hf. lia.
Qed.

(** *** What a byte changes *)

(** Two parsers between which only the vectors and the callback changed. *)
Record framed (p p' : header_parser) : Prop := MkFramed {
  fr_wire : wire_size (headers p') = wire_size (headers p);
  fr_pending : pending p' = pending p; fr_size : value_size p' = value_size p;
  fr_line : hp_line p' = hp_line p; fr_field_line : field_line p' = field_line p;
  fr_field : hp_field p' = hp_field p; fr_active : active p' = active p }.

Lemma framed_refl p : framed p p.
Proof. now split. Qed.

Lemma framed_trans p q r : framed p q -> framed q r -> framed p r.
Proof. intros [] []. split; congruence. Qed.

Lemma emit_address_framed p t : framed p (emit_address p t).1.
Proof.
  unfold emit_address. destruct (_ || _); [now split|].
  destruct (hgrow _ _ _ _) as [[cap n]|]; [|now split].
  destruct (own _ _) as [n'|]; [|now split]. destruct (jf_normalize_mailbox t); now split.
Qed.

Lemma emit_all_framed l p : framed p (emit_all emit_address l p).2.
Proof.
  revert p. induction l as [|t l IH]; intros p; cbn [emit_all]; [apply framed_refl|].
  pose proof (emit_address_framed p t) as H. destruct (emit_address p t) as [p1 []]; [exact H|].
  eapply framed_trans; [exact H|apply IH].
Qed.

Lemma store_value_framed p b p' : store_value p b = Ok p' -> framed p p'.
Proof.
  unfold store_value. destruct (hgrow _ _ _ _) as [[cap n]|]; [|discriminate].
  destruct (own _ _) as [n'|]; [|discriminate]. intros [= <-]. destruct b; now split.
Qed.

Lemma finish_field_framed p p' : finish_field p = Ok p' -> framed p p'.
Proof.
  unfold finish_field. destruct (_ || _); [intros [= <-]; apply framed_refl|].
  destruct (_ =? _); [apply store_value_framed|]. destruct (negb _); [discriminate|].
  destruct (parse_texts scratch_size (pending p)) as (l & rc & _ & _ & _ & Hrc & _ & ->). unfold outcome.
  pose proof (emit_all_framed l (set_callback None p)) as Hl. destruct (emit_all _ _ _) as [r p1]. cbn [fst snd] in Hl.
  assert (Hp : framed p p1) by (eapply framed_trans; [|exact Hl]; now split).
  set (x := if r =? 0 then _ else _). destruct x as [rc' p2] eqn:Ex.
  assert (p2 = p1) as -> by (subst x; destruct (r =? 0); congruence). clear x Ex.
  destruct (rc' =? _); [destruct (callback p1) as [[rc1 e]|]; [discriminate|now intros [= <-]]|].
  destruct (negb _); [discriminate|]. destruct (_ =? JF_SENDER); [|now intros [= <-]].
  intros H. apply store_value_framed in H. eapply framed_trans; [exact Hp|exact H].
Qed.

Lemma extend_wire p s p' : extend p s = Ok p' -> wire_size (headers p') = wire_size (headers p).
Proof. unfold extend. destruct (_ <? _); [discriminate|]. now intros [= <-]. Qed.

Lemma header_line_wire p s p' : header_line p s = Ok p' -> wire_size (headers p') = wire_size (headers p).
Proof.
  unfold header_line. destruct (is_blank _).
  - destruct (negb _); [discriminate|]. intros H. now apply extend_wire in H.
  - rewrite res_bind_Ok. intros (p1 & H1 & H). apply finish_field_framed, fr_wire in H1. cbn [headers] in H1.
    destruct (existsb _ _); [discriminate|]. destruct (_ || _); [discriminate|]. apply extend_wire in H. now rewrite H, <- H1.
Qed.

Lemma byte_step_wire c p ph hash p' hash' ph' : byte_step c p ph hash = Ok (p', hash', ph') ->
  wire_size (headers p') = wire_size (headers p) + 1 /\ hash' = jf_sha256_update hash [c] /\
  wire_size (headers p') <= JF_HEADERS_MAX.
Proof.
  unfold byte_step. set (u := jf_sha256_update hash [c]). destruct (Z.ltb_spec JF_HEADERS_MAX (wire_size (headers (count_wire p)))) as [|Hmax]; [discriminate|].
  destruct (c =? LF).
  - destruct (_ <? _); [discriminate|]. destruct (_ =? 0)%nat; rewrite res_bind_Ok; intros (p1 & H1 & [= <- <- <-]).
    + apply finish_field_framed, fr_wire in H1. rewrite H1. split; [reflexivity|]. split; [reflexivity|exact Hmax].
    + apply header_line_wire in H1. rewrite H1. split; [reflexivity|]. split; [reflexivity|exact Hmax].
  - destruct (_ || _); [discriminate|]. destruct (_ =? _); [discriminate|]. intros [= <- <- <-].
    split; [reflexivity|]. split; [reflexivity|exact Hmax].
Qed.

(** The bytes read are a prefix, and nothing after them matters. *)
Lemma byte_loop_prefix s bad p ph hash p' hash' : byte_loop s bad p ph hash = Ok (p', hash') ->
  exists pre rest, s = pre ++ rest /\ wire_size (headers p') = wire_size (headers p) + zlen pre /\
    hash' = updates hash (map (fun c => [c]) pre) /\ wire_size (headers p') <= JF_HEADERS_MAX /\
    forall rest' bad', byte_loop (pre ++ rest') bad' p ph hash = Ok (p', hash').
Proof.
  revert p ph hash. induction s as [|c s IH]; intros p ph hash; cbn [byte_loop]; [destruct bad; discriminate|].
  rewrite res_bind_Ok. intros ([[p1 h1] [ph1|]] & H1 & H); apply byte_step_wire in H1 as H2; destruct H2 as (Hw & -> & Hm).
  - apply IH in H as (pre & rest & -> & Hwire & -> & Hmax & Hall). exists (c :: pre), rest.
    split; [reflexivity|]. split; [unfold zlen in *; cbn [length]; lia|]. split; [reflexivity|]. split; [exact Hmax|]. intros rest' bad'.
    cbn [app byte_loop]. rewrite H1. cbn [mbind res_bind]. apply Hall.
  - injection H as <- <-. exists [c], s. split; [reflexivity|]. split; [exact Hw|]. split; [reflexivity|]. split; [exact Hm|].
    intros rest' bad'. cbn [app byte_loop]. now rewrite H1.
Qed.
End Bytes.

(** ** What a parsed message satisfies

    Every byte of the wire pays for at most one byte of the message, so the
    limits of the header block imply the limits of the classifier. *)

Definition size_sum {A} (f : A -> Z) (l : list A) : Z := foldr (fun x n => f x + n) 0 l.

Lemma size_sum_app {A} (f : A -> Z) l1 l2 : size_sum f (l1 ++ l2) = size_sum f l1 + size_sum f l2.
Proof. unfold size_sum. induction l1 as [|x l1 IH]; cbn [app foldr]; lia. Qed.

Lemma size_sum_one {A} (f : A -> Z) l x : size_sum f (l ++ [x]) = size_sum f l + f x.
Proof. rewrite size_sum_app. cbn. lia. Qed.

Lemma size_sum_nonneg {A} (f : A -> Z) l : (forall x, 0 <= f x) -> 0 <= size_sum f l.
Proof. intros Hf. unfold size_sum. induction l as [|x l IH]; cbn [foldr]; [lia|]. specialize (Hf x). lia. Qed.

Abbreviation values_size := (size_sum (@zlen Z)).
(** The bytes of the addresses of Sender fields, or of the others. *)
Definition addresses_size (sender : bool) : list (Z * bytes) -> Z :=
  size_sum (fun a : Z * bytes => if Bool.eqb (a.1 =? JF_SENDER) sender then zlen a.2 else 0).

Definition text_byte (c : Z) : Prop := is_byte c /\ control_byte c = false.
Definition clean_value (s : bytes) : Prop := Forall text_byte s /\ zlen s <= JF_LINE_MAX.
Definition address_field (f : Z) : Prop := f = JF_FROM \/ f = JF_SENDER \/ f = JF_TO \/ f = JF_CC.
Record good_address (a : Z * bytes) : Prop := MkGood {
  ga_field : address_field a.1; ga_clean : clean_value a.2; ga_nonempty : 0 < zlen a.2;
  ga_utf8 : jf_valid_utf8 a.2 = true; ga_normal : is_Some (jf_normalize_mailbox a.2) }.

(** [budget] bytes of the wire are not in the message. *)
Record sound (h : jf_headers) (budget : Z) : Prop := MkSound {
  so_addresses : Forall good_address (h_addresses h);
  so_senders : Forall clean_value (h_senders h);
  so_spam : Forall clean_value (h_spam h);
  so_budget : addresses_size false (h_addresses h) +
    Z.max (addresses_size true (h_addresses h)) (values_size (h_senders h)) + values_size (h_spam h) +
    zlen (h_senders h) + zlen (h_spam h) + budget <= wire_size h }.

Lemma sound_weaken h b b' : sound h b -> b' <= b -> sound h b'.
Proof. intros [H1 H2 H3 H4] Hb. split; auto. lia. Qed.

Lemma text_cstr_utf8 t : Forall text_byte t -> jf_valid_utf8 t = true -> cstr_ok t /\ utf8_text t.
Proof.
  intros Ht Hu. assert (Hb : bytes_ok t) by (eapply Forall_impl; [exact Ht|]; now intros c []).
  apply valid_utf8_spec in Hu; [|exact Hb]. split; [now apply utf8_text_cstr|exact Hu].
Qed.

Lemma control_byte_control c : control_byte c = true -> control c = true.
Proof. unfold control_byte, control. destruct (c <? 32); cbn; [reflexivity|trivial]. Qed.

Lemma take_while_Forall (P : Z -> Prop) (p : Z -> bool) l : Forall P l -> Forall P (take_while p l).
Proof. induction 1 as [|x l Hx _ IH]; cbn [take_while]; [constructor|]. destruct (p x); [now constructor|constructor]. Qed.

(** A valid mailbox is stored in a form the classifier accepts. *)
Lemma stored_address f t t' : address_field f -> clean_value t ->
  jf_valid_utf8 t = true -> jf_normalize_mailbox t = Some t' ->
  good_address (f, t') /\ zlen t' <= zlen t.
Proof.
  intros Hf [Ht Hlen] Hu Hn. destruct (text_cstr_utf8 t Ht Hu) as [Hc Hx].
  rewrite normalize_refines in Hn by exact Hc. pose proof Hn as Hd. apply normalize_decode in Hd as (_ & Hv & l & d & Hdec & Hl & Ed).
  destruct (decode_clean _ _ _ Hv Hdec) as (Hdom & Hcl & Hle). rewrite <- Ed in Hle.
  pose proof (normalize_utf8 _ _ Hn Hx) as Hx'. pose proof (utf8_text_cstr _ Hx') as Hc'.
  assert (Hz : zlen t' <= zlen t) by (unfold zlen; lia). split; [|exact Hz].
  assert (Htext : Forall text_byte t').
  { assert (Hsplit : Forall text_byte l /\ Forall text_byte d).
    { destruct t as [|c p]; [discriminate|]. cbn [decode_mailbox] in Hdec. destruct (c =? DQ).
      - inversion Ht; subst. apply (quoted_parse_Forall text_byte) in Hdec; auto.
      - injection Hdec as <- <-. clear -Ht. set (q := fun c => negb (c =? ch "@")).
        split; [exact (take_while_Forall text_byte q _ Ht)|exact (drop_while_Forall text_byte q _ Ht)]. }
    destruct Hsplit as [H1 H2]. rewrite Ed. unfold minimal. destruct (dot_atom false l); [now apply Forall_app|].
    assert (He : Forall text_byte (escape l)).
    { clear -H1. induction H1 as [|x u Hx _ IH]; [constructor|]. rewrite escape_cons. apply Forall_app. split; [|exact IH].
      unfold escape_byte. destruct (escaped x); [constructor; [split; [split|]; vm_compute; congruence|]|];
        (constructor; [exact Hx|constructor]). }
    constructor; [split; [split|]; vm_compute; congruence|]. apply Forall_app. split; [exact He|].
    constructor; [split; [split|]; vm_compute; congruence|exact H2]. }
  split; cbn [fst snd]; [exact Hf|split; [exact Htext|lia]| | |].
  - destruct t'; [|unfold zlen; cbn; lia]. exfalso. unfold minimal in Ed. destruct (dot_atom false l); [|discriminate].
    now destruct l.
  - apply valid_utf8_spec; [|exact Hx']. eapply Forall_impl; [exact Htext|]. now intros c [].
  - rewrite normalize_refines by exact Hc'. rewrite (normalize_idem _ _ Hn). eauto.
Qed.

Section Sound.
Context `{AL : Allocator}.

(** One emission: the address is refused, or stored. *)
Lemma emit_address_cases p t : match emit_address p t with
  | (p', true) => exists rc e, callback p' = Some (rc, e)
  | (p', false) => jf_valid_utf8 t = true /\ exists t', jf_normalize_mailbox t = Some t' /\
      h_addresses (headers p') = h_addresses (headers p) ++ [(hp_field p, t')] /\
      h_senders (headers p') = h_senders (headers p) /\ h_spam (headers p') = h_spam (headers p) /\ callback p' = callback p
  end.
Proof.
  unfold emit_address, stop_with. destruct (negb (jf_valid_utf8 t) || _) eqn:Ev; [cbn; eauto|].
  apply orb_false_iff in Ev as [Ev _]. apply negb_false_iff in Ev.
  destruct (hgrow _ _ _ _) as [[cap n]|]; [|cbn; eauto]. destruct (own _ _) as [n'|]; [|cbn; eauto].
  destruct (jf_normalize_mailbox t) as [t'|] eqn:En; [|cbn; eauto]. cbn. split; [exact Ev|]. exists t'. auto.
Qed.

Lemma emit_all_stored l p : address_field (hp_field p) -> Forall clean_value l -> Forall good_address (h_addresses (headers p)) ->
  match emit_all emit_address l p with
  | (rc, p') => (rc = 0 \/ (exists r e, callback p' = Some (r, e))) /\ (rc = 0 -> callback p' = callback p) /\
      Forall good_address (h_addresses (headers p')) /\
      h_senders (headers p') = h_senders (headers p) /\ h_spam (headers p') = h_spam (headers p) /\
      (rc = 0 -> forall b, addresses_size b (h_addresses (headers p')) <= addresses_size b (h_addresses (headers p)) +
        (if Bool.eqb (hp_field p =? JF_SENDER) b then size_sum zlen l else 0))
  end.
Proof.
  intros Hf Hl. revert p Hf. induction Hl as [|t l Ht Hl IH]; intros p Hf Hg; cbn [emit_all].
  - split_and!; auto. intros _ b. unfold size_sum. cbn. destruct (Bool.eqb _ b); lia.
  - pose proof (emit_address_cases p t) as He. pose proof (emit_address_framed p t) as Hfr.
    assert (Hstop : forall p', emit_address p t = (p', true) -> h_addresses (headers p') = h_addresses (headers p) /\
      h_senders (headers p') = h_senders (headers p) /\ h_spam (headers p') = h_spam (headers p)).
    { intros p'. unfold emit_address, stop_with. destruct (_ || _); [now intros [= <-]|].
      destruct (hgrow _ _ _ _) as [[cap n]|]; [|now intros [= <-]]. destruct (own _ _) as [n'|]; [|now intros [= <-]].
      destruct (jf_normalize_mailbox t); [discriminate|now intros [= <-]]. }
    destruct (emit_address p t) as [p1 []].
    { destruct (Hstop p1 eq_refl) as (-> & -> & ->). destruct He as (r & e & He). split_and!; eauto; discriminate. }
    destruct He as (Hu & t' & Hn & Ha & Hs & Hsp & Hc). cbn [fst] in Hfr.
    destruct (stored_address (hp_field p) t t' Hf Ht Hu Hn) as [Hg' Hle].
    specialize (IH p1). rewrite (fr_field _ _ Hfr) in IH. specialize (IH Hf). rewrite Ha in IH.
    specialize (IH ltac:(apply Forall_app; auto)). destruct (emit_all emit_address l p1) as [rc p2].
    destruct IH as (I1 & I2 & I3 & I4 & I5 & I6). split_and!; auto; try congruence.
    + intros Hrc. rewrite <- Hc. auto.
    + intros Hrc b. specialize (I6 Hrc b). unfold addresses_size in I6 at 2. rewrite size_sum_one in I6. cbn [fst snd] in I6.
      unfold addresses_size. unfold size_sum at 3. cbn [foldr]. fold (size_sum (@zlen Z) l).
      unfold addresses_size in I6. destruct (Bool.eqb _ b); lia.
Qed.

(** The state between two bytes of the parse loop. *)
Record line_ok (p : header_parser) (used : Z) : Prop := MkLine {
  lo_sound : sound (headers p) ((if active p then value_size p + 1 else 0) + used);
  lo_size : zlen (pending p) <= value_size p <= JF_LINE_MAX;
  lo_text : Forall text_byte (pending p);
  lo_field : hp_field p = 0 \/ hp_field p = JF_SPAM \/ address_field (hp_field p) }.

Lemma store_value_sound p spam p' b : store_value p spam = Ok p' -> clean_value (pending p) ->
  sound (headers p) (b + zlen (pending p) + 1) -> sound (headers p') b.
Proof.
  unfold store_value. destruct (hgrow _ _ _ _) as [[cap n]|]; [|discriminate].
  destruct (own _ _) as [n'|]; [|discriminate]. intros [= <-] Hp [H1 H2 H3 H4].
  assert (Hn : forall l : list bytes, zlen (l ++ [pending p]) = zlen l + 1) by (intros l; unfold zlen; rewrite length_app; cbn; lia).
  assert (H0 : 0 <= zlen (pending p)) by (unfold zlen; lia).
  destruct spam; cbn [set_headers headers]; split; cbn [h_addresses h_senders h_spam wire_size]; auto;
    try (apply Forall_app; auto); rewrite Hn, size_sum_one; lia.
Qed.

Lemma total_size l : size_sum (@zlen Z) l = Z.of_nat (total l).
Proof. unfold size_sum, total. induction l as [|x l IH]; cbn [foldr map]; [reflexivity|]. rewrite IH. unfold zlen.
  change (list_sum (length x :: map length l)) with (length x + list_sum (map length l))%nat. lia.
Qed.

(** A field that was finished is paid for. *)
Lemma finish_field_sound p p' used : line_ok p used -> 0 <= used -> finish_field p = Ok p' -> sound (headers p') used.
Proof.
  intros [Hs Hsize Htext Hfield] Hu. unfold finish_field. destruct (negb (active p) || (hp_field p =? 0)) eqn:E0.
  { intros [= <-]. eapply sound_weaken; [exact Hs|]. destruct (active p); unfold zlen in *; lia. }
  apply orb_false_iff in E0 as [Ha E0]. apply negb_false_iff in Ha. rewrite Ha in Hs. apply Z.eqb_neq in E0.
  assert (Hc : clean_value (pending p)) by (split; [exact Htext|lia]).
  destruct (hp_field p =? JF_SPAM) eqn:Es.
  { intros H. eapply store_value_sound; [exact H|exact Hc|]. eapply sound_weaken; [exact Hs|lia]. }
  assert (Hf : address_field (hp_field p)) by (destruct Hfield as [?|[E|?]]; [easy| |assumption]; now rewrite E in Es).
  destruct (negb _); [discriminate|].
  destruct (parse_texts scratch_size (pending p)) as (l & rc & Htot & _ & Hlim & Hrc & Hprov & ->). unfold outcome.
  assert (Hl : Forall clean_value l).
  { specialize (Hprov _ Htext). apply Forall_forall. intros t Ht. rewrite Forall_forall in Hprov. split; [auto|].
    apply list_elem_of_split in Ht as (l1 & l2 & ->). unfold total in Htot. rewrite map_app, list_sum_app in Htot.
    cbn in Htot. unfold zlen in *. lia. }
  destruct Hs as [S1 S2 S3 S4].
  pose proof (emit_all_stored l (set_callback None p) Hf Hl S1) as He. pose proof (emit_all_framed l (set_callback None p)) as Hfr.
  destruct (emit_all emit_address l _) as [r p1]. destruct He as (G1 & G2 & G3 & G4 & G5 & G6). cbn [snd] in Hfr.
  destruct (Z.eqb_spec r 0) as [->|Hr].
  - destruct (rc =? RFC822_BOUNDED_EMIT) eqn:Ee; [now apply Z.eqb_eq in Ee|]. destruct (negb _); [discriminate|].
    specialize (G6 eq_refl). rewrite total_size in G6. cbn [set_callback hp_field headers] in G6, G4, G5.
    pose proof (G6 true) as At. pose proof (G6 false) as Af. pose proof (fr_wire _ _ Hfr) as Hw. cbn [set_callback headers] in Hw.
    pose proof (fr_pending _ _ Hfr) as Hp. pose proof (fr_field _ _ Hfr) as Hf'. cbn [set_callback pending hp_field] in Hp, Hf'. rewrite Hf'.
    destruct (hp_field p =? JF_SENDER) eqn:Ef; cbn [Bool.eqb] in At, Af.
    + unfold store_value. destruct (hgrow _ _ _ _) as [[cap n]|]; [|discriminate].
      destruct (own _ _) as [n'|]; [|discriminate]. intros [= <-]. cbn [set_headers headers]. rewrite Hp, G4, G5.
      split; cbn [h_addresses h_senders h_spam wire_size]; auto; [apply Forall_app; auto|].
      rewrite size_sum_one, Hw. unfold zlen in *. rewrite length_app. cbn [length]. lia.
    + intros [= <-]. split; rewrite ?G4, ?G5; auto. rewrite Hw. unfold zlen in *. lia.
  - destruct G1 as [G1|(r1 & e & G1)]; [easy|]. rewrite G1.
    destruct (r =? RFC822_BOUNDED_EMIT) eqn:Ee; [discriminate|].
    destruct (negb (r =? 0)) eqn:En; [discriminate|]. apply negb_false_iff, Z.eqb_eq in En. easy.
Qed.

Lemma finish_field_line p p' used : line_ok p used -> finish_field p = Ok p' -> framed p p'.
Proof. intros _. apply finish_field_framed. Qed.

(** What follows a failure to extend, and the extension itself. *)
Lemma extend_ok p s p' : extend p s = Ok p' -> Forall text_byte s -> active p = true ->
  sound (headers p) (value_size p + zlen s + 1) -> 0 <= value_size p -> zlen (pending p) <= value_size p ->
  Forall text_byte (pending p) -> (hp_field p = 0 \/ hp_field p = JF_SPAM \/ address_field (hp_field p)) -> line_ok p' 0.
Proof.
  unfold extend. destruct (Z.ltb_spec (JF_LINE_MAX - value_size p) (zlen s)); [discriminate|]. intros [= <-] Hs Ha Hso H0 Hp Ht Hf.
  split; cbn [headers active value_size pending hp_field]; auto.
  - rewrite Ha. eapply sound_weaken; [exact Hso|lia].
  - assert (0 <= zlen s) by (unfold zlen; lia). destruct (hp_field p =? 0); [lia|]. unfold zlen in *. rewrite length_app. lia.
  - destruct (hp_field p =? 0); [exact Ht|]. apply Forall_app. auto.
Qed.

Lemma field_of_known name : let f := field_of name in f = 0 \/ f = JF_SPAM \/ address_field f.
Proof. unfold field_of, address_field. repeat (destruct (name_is _ _); [tauto|]). tauto. Qed.

Lemma header_line_ok p s p' used : header_line p s = Ok p' -> line_ok p used -> Forall text_byte s -> s <> [] ->
  zlen s <= used -> line_ok p' 0.
Proof.
  unfold header_line. intros H Hl Hs Hne Hu. pose proof Hl as [L1 L2 L3 L4]. assert (0 <= zlen (pending p)) by (unfold zlen; lia).
  destruct (is_blank _).
  - cbn [active] in H. destruct (active p) eqn:Ea; cbn [negb] in H; [|discriminate].
    apply extend_ok in H; cbn [headers active value_size pending hp_field]; auto; try lia.
    eapply sound_weaken; [exact L1|lia].
  - rewrite res_bind_Ok in H. destruct H as (p1 & H1 & H).
    apply (finish_field_sound _ _ used) in H1 as Hf; [| |unfold zlen in *; lia].
    2: { split; cbn [headers active value_size pending hp_field]; auto. }
    destruct (existsb _ _); [discriminate|].
    set (name := take_while _ s) in *. destruct ((length name =? 0)%nat || (length name =? length s)%nat) eqn:En; [discriminate|].
    apply orb_false_iff in En as [En1 En2]. apply Nat.eqb_neq in En1, En2.
    assert (Hlen : zlen (drop (S (length name)) s) + 1 <= zlen s).
    { assert (length s <> 0)%nat by (destruct s; [easy|cbn; lia]). unfold zlen. rewrite length_drop. lia. }
    apply extend_ok in H; cbn [headers active value_size pending hp_field]; auto; try lia.
    + now apply Forall_drop.
    + eapply sound_weaken; [exact Hf|lia].
    + unfold zlen. cbn. lia.
    + apply field_of_known.
Qed.

Lemma strip_text physical : Forall text_byte (strip_last_cr physical) -> ends_cr physical = false -> Forall text_byte physical.
Proof. unfold strip_last_cr. intros H E. now rewrite E in H. Qed.

Lemma strip_length physical : zlen (strip_last_cr physical) <= zlen physical.
Proof.
  unfold strip_last_cr, ends_cr, zlen. destruct (last physical) eqn:E; [|lia].
  destruct (_ =? _); [|lia]. apply last_Some in E as (l & ->). rewrite removelast_last, length_app. lia.
Qed.

Lemma strip_snoc physical c : ends_cr physical = false -> Forall text_byte physical -> is_byte c -> bad_byte c = false ->
  Forall text_byte (strip_last_cr (physical ++ [c])).
Proof.
  intros He Hp Hc Hb. unfold strip_last_cr, ends_cr. rewrite last_snoc. destruct (Z.eqb_spec c CR) as [->|Hcr].
  - now rewrite removelast_last.
  - apply Forall_app. split; [exact Hp|]. constructor; [|constructor]. split; [exact Hc|].
    unfold bad_byte in Hb. unfold control_byte. apply orb_false_iff in Hb as [Hb ->]. rewrite orb_false_r.
    apply Z.eqb_neq in Hcr. rewrite Hcr in Hb. cbn [negb] in Hb. now rewrite andb_true_r in Hb.
Qed.

Lemma count_wire_ok p used : line_ok p used -> line_ok (count_wire p) (used + 1).
Proof.
  intros [[S1 S2 S3 S4] L2 L3 L4]. split; auto. split; auto.
  cbn [count_wire set_headers headers h_addresses h_senders h_spam wire_size active value_size]. lia.
Qed.

Lemma byte_step_ok c p ph hash p' hash' ph' : byte_step c p ph hash = Ok (p', hash', ph') -> is_byte c ->
  line_ok p (zlen ph) -> Forall text_byte (strip_last_cr ph) ->
  match ph' with
  | Some ph' => line_ok p' (zlen ph') /\ Forall text_byte (strip_last_cr ph')
  | None => sound (headers p') 0
  end.
Proof.
  unfold byte_step. set (u := jf_sha256_update hash [c]). intros H Hc Hl Ht. apply count_wire_ok in Hl.
  set (q := count_wire p) in *. destruct (_ <? _); [discriminate|]. pose proof (strip_length ph).
  assert (Hph0 : 0 <= zlen ph) by (unfold zlen; lia). destruct (c =? LF).
  - destruct (_ <? _); [discriminate|]. destruct (length (strip_last_cr ph) =? 0)%nat eqn:En; rewrite res_bind_Ok in H; destruct H as (p1 & H1 & H); injection H as <- <- <-.
    + eapply sound_weaken; [eapply finish_field_sound; [exact Hl| |exact H1]; lia|lia].
    + apply Nat.eqb_neq in En. split; [|constructor].
      eapply header_line_ok; [exact H1|exact Hl|exact Ht| |lia]. intros E. now rewrite E in En.
  - destruct (bad_byte c || ends_cr ph) eqn:Eb; [discriminate|]. apply orb_false_iff in Eb as [Eb Ee].
    destruct (_ =? _); [discriminate|]. injection H as <- <- <-. split.
    + replace (zlen (ph ++ [c])) with (zlen ph + 1) by (unfold zlen; rewrite length_app; cbn; lia). exact Hl.
    + apply strip_snoc; auto. now apply strip_text.
Qed.

Lemma byte_loop_sound s bad p ph hash p' hash' : byte_loop s bad p ph hash = Ok (p', hash') -> bytes_ok s ->
  line_ok p (zlen ph) -> Forall text_byte (strip_last_cr ph) -> sound (headers p') 0.
Proof.
  revert p ph hash. induction s as [|c s IH]; intros p ph hash; cbn [byte_loop]; [destruct bad; discriminate|].
  rewrite res_bind_Ok. intros ([[p1 h1] o] & H1 & H) Hb Hl Ht. inversion Hb as [|? ? Hc Hs]; subst.
  apply byte_step_ok in H1; auto. destruct o as [ph1|]; [|now injection H as <- <-]. destruct H1 as [L1 L2]. eauto.
Qed.

Lemma start_ok n : line_ok (start n) 0.
Proof. split; cbn; auto; [|unfold JF_LINE_MAX, zlen; cbn; lia]. split; cbn; auto; unfold addresses_size, size_sum, zlen; cbn; lia. Qed.

(** The result of a parse in terms of the bytes of its input. *)
Lemma parse_Ok i n h : parse i n = Ok h ->
  exists n1 p hash, byte_loop (input_bytes i).1 (input_bytes i).2 (start n1) [] (jf_sha256_init stack_block) = Ok (p, hash) /\
    wire_size h = wire_size (headers p) /\ wire_digest h = jf_sha256_hex hash /\ h_addresses h = h_addresses (headers p) /\
    h_senders h = h_senders (headers p) /\ h_spam h = h_spam (headers p) /\
    forall i', byte_loop (input_bytes i').1 (input_bytes i').2 (start n1) [] (jf_sha256_init stack_block) = Ok (p, hash) ->
      parse i' n = Ok h.
Proof.
  unfold parse. destruct (request n) as [n0|]; [|discriminate].
  destruct (n ← request n0; n ← request n; request n) as [n1|]; [|discriminate].
  rewrite res_bind_Ok. intros ([p hash] & H & Hh). rewrite parse_loop_bytes in H by apply input_bytes_fuel.
  exists n1, p, hash. injection Hh as <-. cbn [wire_size wire_digest h_addresses h_senders h_spam]. split_and!; auto.
  intros i' Hi. rewrite parse_loop_bytes by apply input_bytes_fuel. rewrite Hi. reflexivity.
Qed.
End Sound.

(** *** The checks of the classifier *)

Lemma validate_text_ok s total : clean_value s -> 0 <= total -> total + zlen s <= JF_HEADERS_MAX ->
  validate_text (View s) total = Ok (total + zlen s).
Proof.
  intros [Hs Hl] H0 Ht. unfold validate_text. cbn [view_count view_null view_list]. assert (Hz : 0 <= zlen s) by (unfold zlen; lia).
  unfold size_t. rewrite Z.mod_small by (unfold JF_HEADERS_MAX in *; lia).
  destruct (Z.ltb_spec JF_LINE_MAX (zlen s)); [lia|]. destruct (Z.ltb_spec (JF_HEADERS_MAX - total) (zlen s)); [lia|].
  cbn [orb]. rewrite andb_false_r.
  assert (Hc : existsb control_byte s = false).
  { apply not_true_is_false. rewrite existsb_exists. intros (c & Hin & Hc). rewrite Forall_forall in Hs.
    apply list_elem_of_In in Hin. destruct (Hs c Hin). congruence. }
  now rewrite Hc.
Qed.

Lemma validate_texts_ok l total : Forall clean_value l -> 0 <= total -> total + values_size l <= JF_HEADERS_MAX ->
  validate_texts (map View l) total = Ok (total + values_size l).
Proof.
  intros Hl. revert total. induction Hl as [|s l Hs Hl IH]; intros total H0 Ht; cbn [map validate_texts].
  - f_equal. cbn. lia.
  - unfold size_sum in *. cbn [foldr] in *. pose proof (size_sum_nonneg (@zlen Z) l ltac:(intros x; unfold zlen; lia)) as Hn.
    unfold size_sum in Hn. assert (0 <= zlen s) by (unfold zlen; lia).
    rewrite validate_text_ok by (auto; lia). cbn [mbind res_bind]. rewrite IH by lia. f_equal. lia.
Qed.

Lemma addresses_size_nonneg b l : 0 <= addresses_size b l.
Proof. apply size_sum_nonneg. intros a. destruct (Bool.eqb _ b); unfold zlen; lia. Qed.

Lemma validate_addresses_ok l total sender : Forall good_address l -> 0 <= total -> 0 <= sender ->
  total + addresses_size false l <= JF_HEADERS_MAX -> sender + addresses_size true l <= JF_HEADERS_MAX ->
  validate_addresses (map (fun a => MkMailbox a.1 (View a.2)) l) total sender =
  Ok (total + addresses_size false l, sender + addresses_size true l).
Proof.
  intros Hl. revert total sender. induction Hl as [|a l Ha Hl IH]; intros total sender H0 H1 Ht Hs; cbn [map validate_addresses].
  - f_equal. f_equal; cbn; lia.
  - destruct Ha as [Gf Gc Gn Gu [t Gt]]. destruct a as [f s]. cbn [fst snd field value] in *.
    assert (Hf : negb (f =? JF_FROM) && negb (f =? JF_SENDER) && negb (f =? JF_TO) && negb (f =? JF_CC) = false)
      by (destruct Gf as [-> | [-> | [-> | ->]]]; reflexivity). rewrite Hf.
    pose proof (addresses_size_nonneg false l). pose proof (addresses_size_nonneg true l).
    unfold addresses_size, size_sum in *. cbn [foldr fst snd] in *. destruct (f =? JF_SENDER); cbn [Bool.eqb] in *;
      (rewrite validate_text_ok by (auto; lia)); cbn [mbind res_bind view_list]; rewrite Gu, Gt; cbn [negb];
      (rewrite IH by lia); f_equal; f_equal; lia.
Qed.

Lemma sound_checked h : sound h 0 -> wire_size h <= JF_HEADERS_MAX -> check_message (jf_headers_message h) = Ok tt.
Proof.
  intros [S1 S2 S3 S4] Hw. unfold check_message, jf_headers_message, missing. cbn [addresses senders spam_flags view_count view_null].
  rewrite !andb_false_r. cbn [orb]. unfold zlen. rewrite !length_map. fold (zlen (h_addresses h)) (zlen (h_senders h)) (zlen (h_spam h)).
  pose proof (addresses_size_nonneg false (h_addresses h)) as A0. pose proof (addresses_size_nonneg true (h_addresses h)) as A1.
  pose proof (size_sum_nonneg (@zlen Z) (h_senders h) ltac:(intros x; unfold zlen; lia)) as V0.
  pose proof (size_sum_nonneg (@zlen Z) (h_spam h) ltac:(intros x; unfold zlen; lia)) as V1.
  assert (Hcount : zlen (h_addresses h) <= addresses_size false (h_addresses h) + addresses_size true (h_addresses h)).
  { clear -S1. unfold addresses_size, size_sum. induction S1 as [|a l Ha _ IH]; [vm_compute; congruence|]. cbn [foldr].
    pose proof (ga_nonempty _ Ha). change (zlen (a :: l)) with (Z.of_nat (S (length l))). unfold zlen in IH at 1. unfold zlen in *.
    destruct (a.1 =? JF_SENDER); cbn [Bool.eqb]; lia. }
  assert (C0 : 0 <= zlen (h_senders h)) by (unfold zlen; lia). assert (C1 : 0 <= zlen (h_spam h)) by (unfold zlen; lia).
  repeat match goal with |- context [JF_HEADERS_MAX <? ?x] => destruct (Z.ltb_spec JF_HEADERS_MAX x); [lia|] end. cbn [orb].
  unfold validate_message. cbn [addresses senders spam_flags view_list].
  rewrite validate_addresses_ok by (auto; lia). cbn [mbind res_bind]. rewrite validate_texts_ok by (auto; lia). cbn [mbind res_bind Z.add].
  unfold size_t. rewrite Z.mod_small by (unfold JF_HEADERS_MAX in *; lia).
  match goal with |- context [if ?a <? ?b then ?b else ?a] =>
    replace (if a <? b then b else a) with (Z.max b a) by (destruct (Z.ltb_spec a b); lia) end.
  match goal with |- context [?a <? ?b] => destruct (Z.ltb_spec a b); [lia|] end.
  now rewrite validate_texts_ok by (auto; lia).
Qed.
