(* ===== verification/HeadersFacts.v ===== *)
(** * The meaning of a header block (src/filter/headers.c)

    The printed form of a list of fields, the message they denote, and the
    theorems about parsing it. *)
From S2P Require Import Prelude Sha256 Utf8 Mailbox Lexer Rules Resolve Classify Rfc822 Headers.

#[local] Opaque jf_sha256_update jf_sha256_init.

(** ** Fields and what they denote *)

(** A physical line and whether it ends with CR LF. *)
Abbreviation wire_line := (bytes * bool)%type.
Record wire_field := MkField { wf_name : bytes; wf_first : wire_line; wf_more : list wire_line }.

Definition line_wire (l : wire_line) : bytes := l.1 ++ (if l.2 then [CR; LF] else [LF]).
Definition field_wire (f : wire_field) : bytes :=
  line_wire (wf_name f ++ ch ":" :: (wf_first f).1, (wf_first f).2) ++ concat (map line_wire (wf_more f)).
Definition field_value (f : wire_field) : bytes := (wf_first f).1 ++ concat (map fst (wf_more f)).

Definition plain_byte (c : Z) : Prop := is_byte c /\ bad_byte c = false /\ c <> CR /\ c <> LF.
Definition line_fits (l : bytes) : Prop := Forall plain_byte l /\ l <> [] /\ zlen l <= JF_LINE_MAX.
Record field_ok (f : wire_field) : Prop := MkFieldOk {
  fo_name : wf_name f <> [];
  fo_bytes : Forall (fun c => bad_name_byte c = false /\ c <> ch ":") (wf_name f);
  fo_first : line_fits (wf_name f ++ ch ":" :: (wf_first f).1);
  fo_more : Forall (fun l : wire_line => line_fits l.1 /\ is_blank (at_ l.1 0) = true) (wf_more f);
  fo_value : zlen (field_value f) <= JF_LINE_MAX }.

(** Addresses, values of Sender, values of X-Spam-Flag. *)
Abbreviation contents := (list (Z * bytes) * list bytes * list bytes)%type.
Definition contents_of (h : jf_headers) : contents := (h_addresses h, h_senders h, h_spam h).
Definition add_contents (a b : contents) : contents := (a.1.1 ++ b.1.1, a.1.2 ++ b.1.2, a.2 ++ b.2).

Definition stored (l : list bytes) : option (list bytes) :=
  mapM (fun t => if jf_valid_utf8 t && jf_valid_mailbox t then jf_normalize_mailbox t else None) l.

(** What one unfolded field adds to the message; [None] when it is refused. *)
Definition value_message (f : Z) (v : bytes) : option contents :=
  if f =? 0 then Some ([], [], [])
  else if f =? JF_SPAM then Some ([], [], [v])
  else if negb (jf_valid_utf8 v) then None
  else
    let '(rc, l) := rfc822_parse_mailboxes collect scratch_size v [] in
    if rc =? 0 then
      l' ← stored l;
      Some (map (pair f) l', if f =? JF_SENDER then [v] else [], [])
    else None.

Fixpoint fields_message (fs : list (Z * bytes)) : option contents :=
  match fs with
  | [] => Some ([], [], [])
  | (f, v) :: t => a ← value_message f v; b ← fields_message t; Some (add_contents a b)
  end.

Lemma add_contents_assoc a b c : add_contents a (add_contents b c) = add_contents (add_contents a b) c.
Proof. unfold add_contents. cbn. now rewrite !app_assoc. Qed.

Lemma add_contents_nil a : add_contents a ([], [], []) = a.
Proof. destruct a as [[a b] c]. unfold add_contents. cbn. now rewrite !app_nil_r. Qed.

(** ** Storing with an allocator that grants every request *)

Section Fields.
Context `{AL : Allocator} (granted : forall n, alloc_ok n = true).

(** A capacity and a count with room for [k] more items. *)
Definition roomy (cap count k : Z) : Prop := 0 <= count <= cap /\ (cap <= 8 \/ cap <= 2 * count) /\ 0 <= k /\ count + k <= 2 ^ 40.
Definition room (h : jf_headers) (k : Z) : Prop :=
  roomy (address_capacity h) (zlen (h_addresses h)) k /\ roomy (sender_capacity h) (zlen (h_senders h)) k /\
  roomy (spam_capacity h) (zlen (h_spam h)) k.

Lemma hgrow_roomy count cap k item n : roomy cap count (k + 1) -> 0 <= k -> 0 < item <= 24 ->
  exists cap' n', hgrow count cap item n = Some (cap', n') /\ roomy cap' (count + 1) k.
Proof.
  intros (H1 & H2 & H3 & H4) Hk Hi. unfold hgrow, request. rewrite granted. destruct (Z.ltb_spec count cap).
  { exists cap, n. split; [reflexivity|]. unfold roomy. lia. }
  assert (count = cap) as -> by lia. unfold size_t. rewrite Z.mod_small by lia.
  assert (Hs : 2 ^ 41 < SIZE_MAX / item).
  { apply Z.lt_le_trans with (SIZE_MAX / 24); [vm_compute; reflexivity|]. apply Z.div_le_compat_l; [vm_compute; congruence|lia]. }
  set (cap' := if cap =? 0 then 8 else cap * 2). assert (Hc : cap < cap' <= 2 ^ 41 + 8 /\ (cap' <= 8 \/ cap' <= 2 * cap))
    by (unfold cap'; destruct (Z.eqb_spec cap 0); lia).
  destruct (Z.ltb_spec cap' cap); [lia|]. destruct (Z.ltb_spec (SIZE_MAX / item) cap').
  { exfalso. assert (cap' <= 2 ^ 41); [|lia]. unfold cap'. destruct (cap =? 0); lia. }
  cbn [orb mbind option_bind]. exists cap', (S n). split; [reflexivity|]. unfold roomy. lia.
Qed.

Lemma own_granted s n : zlen s <= 2 ^ 40 -> own s n = Some (S n).
Proof.
  intros H. unfold own, request. rewrite granted. destruct (Z.ltb_spec (SIZE_MAX - sizeof_owned - 1) (zlen s)); [|reflexivity].
  unfold SIZE_MAX, sizeof_owned in *. lia.
Qed.

Lemma room_weaken h k k' : room h k -> 0 <= k' <= k -> room h k'.
Proof. unfold room, roomy. lia. Qed.

Lemma emit_address_granted p t k : room (headers p) (k + 1) -> 0 <= k -> zlen t <= 2 ^ 40 ->
  match (if jf_valid_utf8 t && jf_valid_mailbox t then jf_normalize_mailbox t else None) with
  | Some t' => exists p', emit_address p t = (p', false) /\ room (headers p') k /\
      contents_of (headers p') = add_contents (contents_of (headers p)) ([(hp_field p, t')], [], [])
  | None => exists p' e, emit_address p t = (p', true) /\ callback p' = Some (7, e)
  end.
Proof.
  intros (R1 & R2 & R3) Hk Ht. unfold emit_address, stop_with.
  destruct (jf_valid_utf8 t && jf_valid_mailbox t) eqn:Ev.
  2: { replace (negb (jf_valid_utf8 t) || negb (jf_valid_mailbox t)) with true
         by (destruct (jf_valid_utf8 t), (jf_valid_mailbox t); easy). cbn. eauto. }
  apply andb_true_iff in Ev as [-> ->]. cbn [negb orb].
  destruct (hgrow_roomy _ _ k sizeof_mailbox (h_requests (headers p)) R1 Hk ltac:(unfold sizeof_mailbox; lia)) as (cap & n & -> & R1').
  rewrite own_granted by exact Ht. destruct (jf_normalize_mailbox t) as [t'|]; [|cbn; eauto].
  eexists. split; [reflexivity|]. cbn [set_headers headers]. split.
  - unfold room. cbn [address_capacity sender_capacity spam_capacity h_addresses h_senders h_spam].
    split; [|unfold roomy in *; lia]. unfold zlen in *. rewrite length_app. cbn [length].
    replace (Z.of_nat (length (h_addresses (headers p)) + 1)) with (Z.of_nat (length (h_addresses (headers p))) + 1) by lia. exact R1'.
  - unfold contents_of, add_contents. cbn. now rewrite !app_nil_r.
Qed.

Lemma emit_all_granted l p k : room (headers p) (k + zlen l) -> 0 <= k -> Forall (fun t => zlen t <= 2 ^ 40) l ->
  match stored l with
  | Some l' => exists p', emit_all emit_address l p = (0, p') /\ room (headers p') k /\
      contents_of (headers p') = add_contents (contents_of (headers p)) (map (pair (hp_field p)) l', [], [])
  | None => exists p' e, emit_all emit_address l p = (RFC822_BOUNDED_EMIT, p') /\ callback p' = Some (7, e)
  end.
Proof.
  intros Hr Hk Hl. revert p Hr. induction Hl as [|t l Ht Hl IH]; intros p Hr; cbn [stored mapM emit_all].
  - exists p. split; [reflexivity|]. split; [eapply room_weaken; [exact Hr|unfold zlen; cbn; lia]|]. cbn [map]. now rewrite add_contents_nil.
  - assert (Hz : k + zlen (t :: l) = (k + zlen l) + 1) by (unfold zlen; cbn [length]; lia). rewrite Hz in Hr.
    pose proof (emit_address_granted p t _ Hr ltac:(unfold zlen; lia) Ht) as He. pose proof (emit_address_framed p t) as Hf.
    unfold stored. cbn [mapM]. destruct (if _ && _ then _ else _) as [t'|]; cbn [mbind option_bind].
    + destruct He as (p1 & E & R1 & C1). rewrite E in *. cbn [fst] in Hf. specialize (IH p1 R1). fold (stored l).
      destruct (stored l) as [l'|]; cbn [mbind option_bind mret option_ret].
      * destruct IH as (p2 & -> & R2 & C2). exists p2. split; [reflexivity|]. split; [exact R2|].
        rewrite C2, C1, (fr_field _ _ Hf), <- add_contents_assoc. reflexivity.
      * destruct IH as (p2 & e & -> & C2). eauto.
    + destruct He as (p1 & e & -> & C1). eauto.
Qed.

Lemma store_value_granted p spam k : room (headers p) (k + 1) -> 0 <= k -> zlen (pending p) <= 2 ^ 40 ->
  exists p', store_value p spam = Ok p' /\ room (headers p') k /\
    contents_of (headers p') = add_contents (contents_of (headers p)) ([], if spam then [] else [pending p], if spam then [pending p] else []).
Proof.
  intros (R1 & R2 & R3) Hk Ht. unfold store_value.
  assert (Hs : forall cap count, roomy cap count (k + 1) -> roomy cap count k) by (unfold roomy; lia).
  assert (Hz : forall l : list bytes, zlen (l ++ [pending p]) = zlen l + 1) by (intros l; unfold zlen; rewrite length_app; cbn; lia).
  destruct spam;
    [destruct (hgrow_roomy _ _ k sizeof_text (h_requests (headers p)) R3 Hk ltac:(unfold sizeof_text; lia)) as (cap & n & -> & R')
    |destruct (hgrow_roomy _ _ k sizeof_text (h_requests (headers p)) R2 Hk ltac:(unfold sizeof_text; lia)) as (cap & n & -> & R')];
    rewrite own_granted by exact Ht; eexists; (split; [reflexivity|]); cbn [set_headers headers];
    (split; [unfold room; cbn [address_capacity sender_capacity spam_capacity h_addresses h_senders h_spam]; rewrite Hz; auto|]);
    unfold contents_of, add_contents; cbn; now rewrite !app_nil_r.
Qed.

(** ** Finishing a field *)

(** The parser holds the contents [ctx] and the unfolded part of a field, with
    [k] bytes of the input still to come. *)
Definition holds (p : header_parser) (ctx : contents) (cur : option (Z * bytes)) (k : Z) : Prop :=
  contents_of (headers p) = ctx /\ room (headers p) (k + match cur with Some (_, v) => zlen v + 1 | None => 0 end) /\ 0 <= k /\
  match cur with
  | None => active p = false
  | Some (f, v) => active p = true /\ hp_field p = f /\ value_size p = zlen v /\ zlen v <= JF_LINE_MAX /\ (f <> 0 -> pending p = v)
  end.

Definition current_message (cur : option (Z * bytes)) : option contents :=
  match cur with Some (f, v) => value_message f v | None => Some ([], [], []) end.

Lemma total_member t l : t ∈ l -> (length t <= total l)%nat.
Proof. intros (l1 & l2 & ->)%list_elem_of_split. unfold total. rewrite map_app, list_sum_app. cbn. lia. Qed.

Lemma total_count l : Forall (fun t : bytes => 0 < length t)%nat l -> (length l <= total l)%nat.
Proof.
  unfold total. induction 1 as [|t l Ht _ IH]; [cbn; lia|].
  change (list_sum (map length (t :: l))) with (length t + list_sum (map length l))%nat. cbn [length]. lia.
Qed.

Lemma finish_field_granted p ctx cur k : holds p ctx cur k ->
  match current_message cur with
  | Some c => exists p', finish_field p = Ok p' /\ contents_of (headers p') = add_contents ctx c /\ room (headers p') k
  | None => exists e, finish_field p = Fail 7 e
  end.
Proof.
  intros (Hc & Hr & Hk & Hcur). unfold finish_field. destruct cur as [[f v]|]; cbn [current_message].
  2: { rewrite Hcur. cbn [negb orb]. exists p. rewrite add_contents_nil. split_and!; auto. eapply room_weaken; [exact Hr|lia]. }
  destruct Hcur as (-> & Hf & Hv & Hmax & Hp). unfold value_message. rewrite Hf. cbn [negb orb].
  assert (Hzv : 0 <= zlen v) by (unfold zlen; lia).
  destruct (Z.eqb_spec f 0) as [->|Hf0].
  { exists p. rewrite add_contents_nil. split_and!; auto. eapply room_weaken; [exact Hr|lia]. }
  specialize (Hp Hf0). rewrite Hp. assert (Hsmall : zlen (pending p) <= 2 ^ 40) by (rewrite Hp; unfold JF_LINE_MAX in *; lia).
  destruct (f =? JF_SPAM).
  { destruct (store_value_granted p true k) as (p' & -> & R & C); auto; [eapply room_weaken; [exact Hr|lia]|].
    exists p'. rewrite C, Hc, Hp. auto. }
  destruct (jf_valid_utf8 v); cbn [negb]; [|unfold hfail; eauto].
  destruct (parse_texts scratch_size v) as (l & rc & Htot & Hne & _ & Hrc & _ & Hrun). rewrite !Hrun. unfold outcome.
  rewrite collect_all. cbn [Z.eqb app].
  assert (Hlz : zlen l <= zlen v) by (pose proof (total_count l Hne); unfold zlen; lia).
  assert (Hl : Forall (fun t => zlen t <= 2 ^ 40) l).
  { apply Forall_forall. intros t Ht%total_member. unfold zlen, JF_LINE_MAX in *. lia. }
  set (q := set_callback None p). assert (Hq : contents_of (headers q) = ctx) by exact Hc.
  pose proof (emit_all_granted l q (k + 1) ltac:(eapply room_weaken; [exact Hr|unfold zlen in *; lia]) ltac:(lia) Hl) as He.
  pose proof (emit_all_framed l q) as Hfr.
  destruct (Z.eqb_spec rc 0) as [->|Hrc0].
  - destruct (stored l) as [l'|]; cbn [mbind option_bind].
    + destruct He as (p1 & E & R1 & C1). rewrite E in *. cbn [snd] in Hfr. cbn [Z.eqb negb]. rewrite (fr_field _ _ Hfr).
      cbn [q set_callback hp_field] in *. rewrite Hf in *. change (0 =? RFC822_BOUNDED_EMIT) with false. cbv iota. destruct (f =? JF_SENDER).
      * pose proof (fr_pending _ _ Hfr) as Hpend. cbn [q set_callback pending] in Hpend.
        destruct (store_value_granted p1 false k R1 Hk ltac:(now rewrite Hpend)) as (p2 & -> & R2 & C2).
        exists p2. rewrite C2, C1, Hpend, Hp. rewrite <- add_contents_assoc, Hq. split_and!; auto.
        unfold add_contents. cbn. now rewrite !app_nil_r.
      * exists p1. rewrite C1, Hq. split_and!; auto. eapply room_weaken; [exact R1|lia].
    + destruct He as (p1 & e & E & C1). rewrite E. cbn [Z.eqb Pos.eqb RFC822_BOUNDED_EMIT]. rewrite C1. eauto.
  - unfold hfail. destruct (stored l) as [l'|].
    + destruct He as (p1 & E & R1 & C1). rewrite E. cbn [Z.eqb]. destruct (Z.eqb_spec rc RFC822_BOUNDED_EMIT); [easy|].
      destruct (Z.eqb_spec rc 0); [easy|]. cbn [negb]. eauto.
    + destruct He as (p1 & e & E & C1). rewrite E. cbn [Z.eqb Pos.eqb RFC822_BOUNDED_EMIT]. rewrite C1. eauto.
Qed.

(** ** Lines *)

Definition add_wire (n : Z) (p : header_parser) : header_parser :=
  let h := headers p in
  set_headers (MkHeaders (h_addresses h) (h_senders h) (h_spam h) (address_capacity h) (sender_capacity h)
    (spam_capacity h) (h_requests h) (wire_size h + n) (wire_digest h)) p.

Lemma add_wire_add m n p : add_wire n (add_wire m p) = add_wire (m + n) p.
Proof. unfold add_wire. cbn. now rewrite Z.add_assoc. Qed.

Lemma holds_wire n p ctx cur k : holds p ctx cur k -> holds (add_wire n p) ctx cur k.
Proof. intros H. exact H. Qed.

Lemma plain_ends ph c : plain_byte c -> ends_cr (ph ++ [c]) = false.
Proof. intros (_ & _ & H & _). unfold ends_cr. rewrite last_snoc. now apply Z.eqb_neq. Qed.

Lemma body_run s rest bad p ph hash : Forall plain_byte s -> ends_cr ph = false -> zlen (ph ++ s) <= JF_LINE_MAX ->
  wire_size (headers p) + zlen s <= JF_HEADERS_MAX ->
  exists hash', byte_loop (s ++ rest) bad p ph hash = byte_loop rest bad (add_wire (zlen s) p) (ph ++ s) hash' /\ ends_cr (ph ++ s) = false.
Proof.
  intros Hs. revert p ph hash. induction Hs as [|c s Hc Hs IH]; intros p ph hash He Hlen Hw.
  - exists hash. cbn [app]. rewrite app_nil_r. split; [|exact He]. f_equal. unfold add_wire, zlen. cbn [length].
    rewrite Z.add_0_r. now destruct p as [[] ? ? ? ? ? ? ?].
  - assert (Hz : zlen (c :: s) = 1 + zlen s) by (unfold zlen; cbn [length]; lia). rewrite Hz in *.
    assert (Ha : ph ++ c :: s = (ph ++ [c]) ++ s) by solve_app. rewrite Ha in *.
    cbn [app byte_loop]. unfold byte_step. destruct (Z.ltb_spec JF_HEADERS_MAX (wire_size (headers (count_wire p)))) as [Hbad|_].
    { cbn [count_wire set_headers headers wire_size] in Hbad. unfold zlen in *. lia. }
    pose proof Hc as Hpc. destruct Hc as (Hb & Hbb & Hcr & Hlf). apply Z.eqb_neq in Hlf as ->. rewrite Hbb, He. cbn [orb].
    assert (Hp : zlen ph < JF_LINE_MAX) by (unfold zlen in *; rewrite !length_app in Hlen; cbn [length] in Hlen; lia).
    destruct (Z.eqb_spec (zlen ph) (JF_LINE_MAX + 1)); [lia|]. cbn [mbind res_bind].
    destruct (IH (count_wire p) (ph ++ [c]) (jf_sha256_update hash [c])) as (hash' & -> & E); auto.
    { now apply plain_ends. }
    { cbn [count_wire set_headers headers wire_size]. lia. }
    exists hash'. split; [|exact E]. change (count_wire p) with (add_wire 1 p). now rewrite add_wire_add.
Qed.

Lemma byte_loop_cons c s bad p ph hash : byte_loop (c :: s) bad p ph hash =
  '(p, hash, physical) ← byte_step c p ph hash;
  match physical with None => Ok (p, hash) | Some physical => byte_loop s bad p physical hash end.
Proof. reflexivity. Qed.

(** The end of a line. *)
Lemma eol_run (crlf : bool) rest bad p ph hash : ends_cr ph = false -> zlen ph <= JF_LINE_MAX ->
  let eol := if crlf then [CR; LF] else [LF] in
  wire_size (headers p) + zlen eol <= JF_HEADERS_MAX ->
  exists hash', byte_loop (eol ++ rest) bad p ph hash =
    let p := add_wire (zlen eol) p in
    if (length ph =? 0)%nat then p ← finish_field p; Ok (p, hash')
    else p ← header_line p ph; byte_loop rest bad p [] hash'.
Proof.
  intros He Hlen eol Hw.
  assert (Hlf : forall p ph0 hash, strip_last_cr ph0 = ph -> wire_size (headers p) + 1 <= JF_HEADERS_MAX ->
    byte_loop (LF :: rest) bad p ph0 hash = let p := add_wire 1 p in
      if (length ph =? 0)%nat then p ← finish_field p; Ok (p, jf_sha256_update hash [LF])
      else p ← header_line p ph; byte_loop rest bad p [] (jf_sha256_update hash [LF])).
  { clear -Hlen. intros p ph0 hash Hst Hw. cbn [byte_loop]. unfold byte_step.
    destruct (Z.ltb_spec JF_HEADERS_MAX (wire_size (headers (count_wire p)))) as [Hbad|_].
    { cbn [count_wire set_headers headers wire_size] in Hbad. lia. }
    cbn [Z.eqb Pos.eqb]. rewrite Hst. destruct (Z.ltb_spec JF_LINE_MAX (zlen ph)); [lia|].
    change (add_wire 1 p) with (count_wire p). cbv zeta. destruct (_ =? _)%nat.
    - now destruct (finish_field (count_wire p)).
    - now destruct (header_line (count_wire p) ph). }
  assert (Hst : strip_last_cr ph = ph) by (unfold strip_last_cr; now rewrite He).
  destruct crlf; subst eol; cbn [app] in *.
  - rewrite byte_loop_cons. unfold byte_step. destruct (Z.ltb_spec JF_HEADERS_MAX (wire_size (headers (count_wire p)))) as [Hbad|_].
    { cbn [count_wire set_headers headers wire_size] in Hbad. unfold zlen in *. cbn in Hw. lia. }
    change (CR =? LF) with false. change (bad_byte CR) with false. rewrite He. cbn [orb].
    destruct (Z.eqb_spec (zlen ph) (JF_LINE_MAX + 1)); [lia|]. cbn [mbind res_bind].
    change (zlen [CR; LF]) with (1 + 1) in *. rewrite <- add_wire_add. change (add_wire 1 p) with (count_wire p).
    eexists. apply (Hlf (count_wire p)).
    + unfold strip_last_cr, ends_cr. rewrite last_snoc. cbn [Z.eqb Pos.eqb]. now rewrite removelast_last.
    + cbn [count_wire set_headers headers wire_size]. lia.
  - change (zlen [LF]) with 1 in *. eexists. now apply Hlf.
Qed.

Lemma line_run l b rest bad p hash : line_fits l -> wire_size (headers p) + zlen (line_wire (l, b)) <= JF_HEADERS_MAX ->
  exists hash', byte_loop (line_wire (l, b) ++ rest) bad p [] hash =
    p' ← header_line (add_wire (zlen (line_wire (l, b))) p) l; byte_loop rest bad p' [] hash'.
Proof.
  intros (Hp & Hne & Hl) Hw. unfold line_wire in *. cbn [fst snd] in *. set (eol := if b then _ else _) in *.
  assert (Hz : zlen (l ++ eol) = zlen l + zlen eol) by (unfold zlen; rewrite length_app; lia). rewrite Hz in *.
  assert (0 <= zlen eol) by (unfold zlen; lia). rewrite <- app_assoc.
  destruct (body_run l (eol ++ rest) bad p [] hash Hp eq_refl Hl ltac:(lia)) as (h1 & -> & E). cbn [app] in *.
  destruct (eol_run b rest bad (add_wire (zlen l) p) l h1 E Hl) as (h2 & E2).
  { fold eol. cbn [add_wire set_headers headers wire_size]. lia. }
  exists h2. fold eol in E2. rewrite E2. rewrite add_wire_add. destruct l; [easy|]. reflexivity.
Qed.

Lemma end_run b rest bad p hash : wire_size (headers p) + zlen (line_wire ([], b)) <= JF_HEADERS_MAX ->
  exists hash', byte_loop (line_wire ([], b) ++ rest) bad p [] hash =
    p' ← finish_field (add_wire (zlen (line_wire ([], b))) p); Ok (p', hash').
Proof.
  unfold line_wire. cbn [fst snd app]. intros Hw.
  destruct (eol_run b rest bad p [] hash eq_refl ltac:(vm_compute; congruence) Hw) as (h & E). exists h. exact E.
Qed.

(** ** Fields *)

Lemma line_starts name rest : name <> [] -> Forall (fun c => bad_name_byte c = false /\ c <> ch ":") name ->
  is_blank (at_ (name ++ ch ":" :: rest) 0) = false /\
  take_while (fun c => negb (c =? ch ":")) (name ++ ch ":" :: rest) = name /\ existsb bad_name_byte name = false.
Proof.
  intros Hne Hn. split_and!.
  - destruct name as [|c name]; [easy|]. inversion Hn as [|? ? [Hc _] _]; subst. cbn. unfold bad_name_byte in Hc. unfold is_blank.
    apply orb_false_iff in Hc as [Hc _]. apply Z.ltb_ge in Hc. destruct (Z.eqb_spec c SP); [lia|]. destruct (Z.eqb_spec c HT); [lia|]. reflexivity.
  - clear Hne. induction Hn as [|c name [_ Hc] _ IH]; [reflexivity|]. cbn [app take_while]. apply Z.eqb_neq in Hc. rewrite Hc. cbn [negb]. now rewrite IH.
  - apply not_true_is_false. rewrite existsb_exists. intros (c & Hin & Hc). rewrite Forall_forall in Hn.
    apply list_elem_of_In in Hin. destruct (Hn c Hin). congruence.
Qed.

Lemma extend_holds p s ctx f v k : holds p ctx (Some (f, v)) (k + zlen s) -> zlen (v ++ s) <= JF_LINE_MAX ->
  0 <= k -> exists p', extend p s = Ok p' /\ holds p' ctx (Some (f, v ++ s)) k /\ wire_size (headers p') = wire_size (headers p).
Proof.
  intros (Hc & Hr & Hk & Ha & Hf & Hv & Hm & Hp) Hmax H0. unfold extend.
  assert (Hz : zlen (v ++ s) = zlen v + zlen s) by (unfold zlen; rewrite length_app; lia).
  destruct (Z.ltb_spec (JF_LINE_MAX - value_size p) (zlen s)); [lia|]. eexists. split; [reflexivity|]. split; [|reflexivity].
  split; [exact Hc|]. split; [|split; [exact H0|]].
  - cbn [headers]. eapply room_weaken; [exact Hr|]. unfold zlen in *. lia.
  - cbn [active hp_field value_size pending]. split_and!; auto; [lia|]. intros Hne. rewrite Hf. apply Z.eqb_neq in Hne as Hne'. rewrite Hne'.
    now rewrite Hp.
Qed.

Lemma more_run more rest bad p hash ctx f v k :
  Forall (fun l : wire_line => line_fits l.1 /\ is_blank (at_ l.1 0) = true) more ->
  holds p ctx (Some (f, v)) (k + zlen (concat (map line_wire more))) -> 0 <= k ->
  zlen (v ++ concat (map fst more)) <= JF_LINE_MAX ->
  wire_size (headers p) + zlen (concat (map line_wire more)) <= JF_HEADERS_MAX ->
  exists p' hash', byte_loop (concat (map line_wire more) ++ rest) bad p [] hash = byte_loop rest bad p' [] hash' /\
    holds p' ctx (Some (f, v ++ concat (map fst more))) k /\
    wire_size (headers p') = wire_size (headers p) + zlen (concat (map line_wire more)).
Proof.
  intros Hm. revert p hash v. induction Hm as [|[l b] more [Hl Hb] Hm IH]; intros p hash v Hh Hk Hv Hw.
  - exists p, hash. cbn [map concat app] in *. rewrite app_nil_r. change (zlen (@nil Z)) with 0 in *. split; [reflexivity|]. split; [now rewrite Z.add_0_r in Hh|lia].
  - cbn [map concat] in *. cbn [fst] in *. set (w := concat (map line_wire more)) in *. set (u := concat (map fst more)) in *.
    assert (Hz : zlen (line_wire (l, b) ++ w) = zlen (line_wire (l, b)) + zlen w) by (unfold zlen; rewrite length_app; lia). rewrite Hz in *.
    assert (Hlw : zlen l + 1 <= zlen (line_wire (l, b))) by (unfold line_wire, zlen; cbn [fst snd]; rewrite length_app; destruct b; cbn; lia).
    rewrite <- app_assoc. destruct (line_run l b (w ++ rest) bad p hash Hl) as (h1 & E1); [unfold zlen in *; lia|]. rewrite E1.
    set (q := add_wire _ p). unfold header_line at 1. rewrite Hb. cbn [active]. pose proof Hh as (_ & _ & _ & Hact & _).
    change (active q) with (active p). rewrite Hact. cbn [negb].
    rewrite app_assoc in Hv. assert (Hvl : zlen (v ++ l) <= JF_LINE_MAX) by (unfold zlen in *; rewrite !length_app in *; lia).
    match goal with |- context [extend ?x l] => set (p0 := x) end.
    destruct (extend_holds p0 l ctx f v (k + zlen w)) as (p1 & -> & H1 & W1); [|exact Hvl|unfold zlen in *; lia|].
    { destruct Hh as (Hc & Hr & H0 & Hx). split; [exact Hc|]. split; [|split; [unfold zlen in *; lia|exact (conj eq_refl (proj2 Hx))]].
      eapply room_weaken; [exact Hr|]. unfold zlen in *. lia. }
    cbn [mbind res_bind]. change (wire_size (headers p0)) with (wire_size (headers p) + zlen (line_wire (l, b))) in W1.
    destruct (IH p1 h1 (v ++ l) H1 Hk Hv ltac:(lia)) as (p2 & h2 & -> & H2 & W2). exists p2, h2.
    rewrite app_assoc. split; [reflexivity|]. split; [exact H2|lia].
Qed.

Lemma field_run f rest bad p hash ctx cur k : field_ok f -> holds p ctx cur (k + zlen (field_wire f)) -> 0 <= k ->
  wire_size (headers p) + zlen (field_wire f) <= JF_HEADERS_MAX ->
  match current_message cur with
  | Some c => exists p' hash', byte_loop (field_wire f ++ rest) bad p [] hash = byte_loop rest bad p' [] hash' /\
      holds p' (add_contents ctx c) (Some (field_of (wf_name f), field_value f)) k /\
      wire_size (headers p') = wire_size (headers p) + zlen (field_wire f)
  | None => exists e, byte_loop (field_wire f ++ rest) bad p [] hash = Fail 7 e
  end.
Proof.
  intros [Hne Hn Hfirst Hmore Hval] Hh Hk Hw. unfold field_wire in *. destruct (wf_first f) as [first b] eqn:Ef. cbn [fst snd] in *.
  set (name := wf_name f) in *. set (l := name ++ ch ":" :: first) in *. set (w := concat (map line_wire (wf_more f))) in *.
  assert (Hz : zlen (line_wire (l, b) ++ w) = zlen (line_wire (l, b)) + zlen w) by (unfold zlen; rewrite length_app; lia). rewrite Hz in *.
  assert (Hll : zlen l = zlen name + 1 + zlen first) by (unfold l, zlen; rewrite length_app; cbn [length]; lia).
  assert (Hlw : zlen l + 1 <= zlen (line_wire (l, b))) by (unfold line_wire, zlen; cbn [fst snd]; rewrite length_app; destruct b; cbn; lia).
  assert (Hw0 : 0 <= zlen w) by (unfold zlen; lia). assert (Hn0 : 0 < zlen name) by (unfold zlen; destruct name; [easy|cbn; lia]).
  rewrite <- app_assoc. destruct (line_run l b (w ++ rest) bad p hash Hfirst ltac:(lia)) as (h1 & E1). rewrite E1. clear E1.
  set (q := add_wire _ p). destruct (line_starts name first Hne Hn) as (S1 & S2 & S3). fold l in S1, S2.
  unfold header_line. rewrite S1, S2, S3. set (q0 := MkHParser (headers q) _ _ _ _ _ _ _).
  assert (Hq : holds q0 ctx cur (k + zlen w + zlen l + 1)).
  { destruct Hh as (Hc & Hr & H0 & Hx). split; [exact Hc|]. split; [eapply room_weaken; [exact Hr|destruct cur as [[? v]|]; unfold zlen in *; lia]|].
    split; [unfold zlen in *; lia|exact Hx]. }
  pose proof (finish_field_granted q0 ctx cur _ Hq) as Hfin. destruct (current_message cur) as [c|].
  2: { destruct Hfin as (e & ->). exists e. reflexivity. }
  destruct Hfin as (p1 & Efin & C1 & R1). rewrite Efin. cbn [mbind res_bind].
  apply finish_field_framed, fr_wire in Efin. change (wire_size (headers q0)) with (wire_size (headers p) + zlen (line_wire (l, b))) in Efin.
  destruct (Nat.eqb_spec (length name) 0); [unfold zlen in *; lia|]. destruct (Nat.eqb_spec (length name) (length l)); [unfold zlen in *; lia|].
  cbn [orb]. assert (Hd : drop (S (length name)) l = first).
  { unfold l. replace (S (length name)) with (length name + 1)%nat by lia. rewrite <- drop_drop, drop_app_length. reflexivity. }
  rewrite Hd. match goal with |- context [extend ?x first] => set (p2 := x) end.
  unfold field_value in *. rewrite Ef in *. cbn [fst] in *. set (u := concat (map fst (wf_more f))) in *.
  assert (Hzf : zlen (first ++ u) = zlen first + zlen u) by (unfold zlen; rewrite length_app; lia). assert (0 <= zlen u) by (unfold zlen; lia).
  destruct (extend_holds p2 first (add_contents ctx c) (field_of name) [] (k + zlen w)) as (p3 & -> & H3 & W3); [|cbn [app]; lia|lia|].
  { split; [exact C1|]. change (zlen (@nil Z)) with 0. assert (0 <= zlen first) by (unfold zlen; lia).
    split; [eapply room_weaken; [exact R1|lia]|]. split; [lia|]. unfold p2. cbn [active hp_field value_size pending].
    split; [reflexivity|]. split; [reflexivity|]. split; [reflexivity|]. split; [vm_compute; congruence|reflexivity]. }
  cbn [mbind res_bind app] in *. change (wire_size (headers p2)) with (wire_size (headers p1)) in W3.
  destruct (more_run (wf_more f) rest bad p3 h1 (add_contents ctx c) (field_of name) first k Hmore H3 Hk ltac:(fold u; lia)
    ltac:(fold w; lia)) as (p4 & h4 & E4 & H4 & W4). fold w u in E4, H4, W4. rewrite E4. exists p4, h4.
  split; [reflexivity|]. split; [exact H4|lia].
Qed.

Definition denoted (fs : list wire_field) : list (Z * bytes) := map (fun f => (field_of (wf_name f), field_value f)) fs.

(** The rest of a header block: the fields [fs] and the empty line. *)
Lemma fields_run fs b rest bad p hash ctx cur : Forall field_ok fs ->
  let wire := concat (map field_wire fs) ++ line_wire ([], b) in
  holds p ctx cur (zlen wire) -> wire_size (headers p) + zlen wire <= JF_HEADERS_MAX ->
  match (c ← current_message cur; d ← fields_message (denoted fs); Some (add_contents c d)) with
  | Some c => exists p' hash', byte_loop (wire ++ rest) bad p [] hash = Ok (p', hash') /\
      contents_of (headers p') = add_contents ctx c /\ wire_size (headers p') = wire_size (headers p) + zlen wire
  | None => exists e, byte_loop (wire ++ rest) bad p [] hash = Fail 7 e
  end.
Proof.
  intros Hfs. revert p hash ctx cur. induction Hfs as [|f fs Hf Hfs IH]; intros p hash ctx cur wire Hh Hw.
  - subst wire. cbn [map concat app denoted fields_message] in *.
    destruct (end_run b rest bad p hash Hw) as (h & ->). set (q := add_wire _ p).
    pose proof (finish_field_granted q ctx cur _ (holds_wire _ _ _ _ _ Hh)) as Hfin.
    destruct (current_message cur) as [c|]; cbn [mbind option_bind].
    + destruct Hfin as (p1 & E & C & _). rewrite E. cbn [mbind res_bind]. exists p1, h. rewrite add_contents_nil.
      split; [reflexivity|]. split; [exact C|]. now rewrite (fr_wire _ _ (finish_field_framed _ _ E)).
    + destruct Hfin as (e & ->). exists e. reflexivity.
  - subst wire. cbn [map concat] in *. rewrite <- app_assoc in *. set (w := concat (map field_wire fs) ++ line_wire ([], b)) in *.
    assert (Hz : zlen (field_wire f ++ w) = zlen (field_wire f) + zlen w) by (unfold zlen; rewrite length_app; lia). rewrite Hz in *.
    assert (0 <= zlen w) by (unfold zlen; lia). rewrite <- app_assoc.
    pose proof (field_run f (w ++ rest) bad p hash ctx cur (zlen w) Hf) as Hr. rewrite Z.add_comm in Hr. specialize (Hr Hh ltac:(lia) ltac:(lia)).
    replace (w ++ rest) with (concat (map field_wire fs) ++ line_wire ([], b) ++ rest) in Hr by (unfold w; now rewrite <- app_assoc).
    destruct (current_message cur) as [c|]; cbn [mbind option_bind]; [|exact Hr].
    destruct Hr as (p1 & h1 & -> & H1 & W1). specialize (IH p1 h1 _ _ H1 ltac:(lia)). cbn [current_message] in IH.
    cbn [denoted map fields_message]. fold (denoted fs).
    destruct (value_message _ _) as [a|]; cbn [mbind option_bind] in *; [|exact IH].
    destruct (fields_message (denoted fs)) as [d|]; cbn [mbind option_bind] in *; [|exact IH].
    destruct IH as (p2 & h2 & -> & C2 & W2). exists p2, h2. split; [reflexivity|].
    split; [rewrite C2, !add_contents_assoc; reflexivity|rewrite <- app_assoc; fold w; lia].
Qed.

Lemma parse_granted i n : exists n1, parse i n =
  '(p, hash) ← byte_loop (input_bytes i).1 (input_bytes i).2 (start n1) [] (jf_sha256_init stack_block);
  let h := headers p in
  Ok (MkHeaders (h_addresses h) (h_senders h) (h_spam h) (address_capacity h) (sender_capacity h)
        (spam_capacity h) (h_requests h) (wire_size h) (jf_sha256_hex hash)).
Proof.
  unfold parse, request. repeat (rewrite granted; cbn [mbind option_bind]).
  eexists. rewrite parse_loop_bytes by apply input_bytes_fuel. reflexivity.
Qed.

(** C15. A header block means its fields.  For every list of well-formed fields,
    printed with folded lines and either line ending and followed by any body,
    the parse succeeds exactly when every field is acceptable; the message then
    holds the normalised mailboxes of the address fields with their field, the
    unfolded values of Sender and of X-Spam-Flag, each in order of appearance,
    and the size is that of the header block.  Otherwise the status is 7. *)
Theorem headers_fields fs b body n : Forall field_ok fs ->
  let wire := concat (map field_wire fs) ++ line_wire ([], b) in
  zlen wire <= JF_HEADERS_MAX ->
  match fields_message (denoted fs) with
  | Some c => exists h, jf_headers_parse (View (wire ++ body)) n = Ok h /\ contents_of h = c /\ wire_size h = zlen wire
  | None => exists e, jf_headers_parse (View (wire ++ body)) n = Fail 7 e
  end.
Proof.
  intros Hfs wire Hw. unfold jf_headers_parse, missing. cbn [view_null view_list]. rewrite andb_false_r.
  destruct (parse_granted (MkInput (wire ++ body) false []) n) as (n1 & ->). cbn [input_bytes streaming available fst snd].
  assert (Hh : holds (start n1) ([], [], []) None (zlen wire)).
  { split; [reflexivity|]. unfold room, roomy, start, new_headers, zlen, JF_HEADERS_MAX in *. cbn. lia. }
  pose proof (fields_run fs b body false (start n1) (jf_sha256_init stack_block) _ None Hfs Hh Hw) as H.
  cbn [current_message mbind option_bind] in H. fold wire in H. destruct (fields_message (denoted fs)) as [c|]; cbn [mbind option_bind] in H.
  - destruct H as (p & h & E & C & W). rewrite E. cbn [mbind res_bind]. eexists. split; [reflexivity|].
    cbn [wire_size]. split; [|exact W]. unfold contents_of in *. cbn [h_addresses h_senders h_spam].
    rewrite C. destruct c as [[c1 c2] c3]. reflexivity.
  - destruct H as (e & E). rewrite E. exists e. reflexivity.
Qed.
End Fields.

Section Prefix.
Context `{AL : Allocator}.

(** C26. Only the header block is read.  A parse that succeeds consumed a prefix
    of at most 1 MiB, reports its size and its SHA-256; whatever follows that
    prefix, in memory or read from a descriptor in pieces of any size with any
    interruptions and even a failure after it, the result is the same. *)
Theorem headers_prefix data n h : jf_headers_parse (View data) n = Ok h ->
  exists pre, pre `prefix_of` data /\ zlen pre = wire_size h /\ wire_size h <= JF_HEADERS_MAX /\ wire_digest h = fips_hex pre /\
    (forall rest, jf_headers_parse (View (pre ++ rest)) n = Ok h) /\
    (forall fd, pre `prefix_of` (stream fd).1 -> jf_headers_read fd n = Ok h).
Proof.
  unfold jf_headers_parse, jf_headers_read, missing. cbn [view_null view_list]. rewrite andb_false_r. intros H.
  apply parse_Ok in H as (n1 & p & hash & H & Hw & Hd & _ & _ & _ & Hall). cbn [input_bytes streaming available fst snd] in H.
  apply byte_loop_prefix in H as (pre & rest & -> & Hwire & -> & Hmax & Hrest). change (wire_size (headers (start n1))) with 0 in Hwire.
  exists pre. split; [now exists rest|]. split; [lia|]. split; [lia|]. split.
  - rewrite Hd, stream_hex by reflexivity. f_equal. clear. induction pre as [|c pre IH]; [reflexivity|]. cbn [map concat]. now rewrite IH.
  - split.
    + intros rest'. rewrite andb_false_r. apply Hall. cbn [input_bytes streaming available fst snd]. apply Hrest.
    + intros fd (rest' & E). apply Hall. unfold input_bytes. cbn [streaming available reads].
      destruct (stream fd) as [s bad]. cbn [fst snd app] in *. subst s. apply Hrest.
Qed.
End Prefix.

(** C16. Every message the header parser accepts is filed.  Its fields pass all
    the checks of the classifier, whose limits on sizes and counts cannot be
    exceeded by a header block of at most 1 MiB, and every indexed policy has a
    winner for it. *)
Theorem headers_decided `{AL : Allocator} `{RX : PosixRegex} data n h p :
  bytes_ok data -> jf_headers_parse (View data) n = Ok h ->
  indexed p -> uselocale_ok = true -> (forall pat s, regexec pat s <> RegError) ->
  let m := jf_headers_message h in
  check_message m = Ok tt /\ exists i st, jf_policy_classify (Some p) (Some m) = Ok (Some i, st) /\
    (i < length (entries p))%nat /\ message_match (rule (entry_at (entries p) i)) m.
Proof.
  intros Hb H Hp Hu Hr m. unfold jf_headers_parse, missing in H. cbn [view_null view_list] in H. rewrite andb_false_r in H.
  apply parse_Ok in H as (n1 & q & hash & H & Hw & _ & Ha & Hs & Hsp & _). cbn [input_bytes streaming available fst snd] in H.
  pose proof (byte_loop_prefix _ _ _ _ _ _ _ H) as (pre & rest & _ & _ & _ & Hmax & _).
  apply byte_loop_sound in H as [S1 S2 S3 S4]; [|exact Hb|apply start_ok|constructor].
  assert (Hh : sound h 0) by (split; rewrite ?Ha, ?Hs, ?Hsp, ?Hw; assumption).
  assert (Hc : check_message m = Ok tt) by (apply sound_checked; [exact Hh|lia]).
  split; [exact Hc|].
  assert (Hm : message_bytes m).
  { unfold message_bytes, m, jf_headers_message. cbn [addresses view_list]. apply Forall_forall. intros a Hin.
    apply list_elem_of_fmap in Hin as (x & -> & Hx). cbn [value view_list]. rewrite <- Ha in S1. rewrite Forall_forall in S1.
    destruct (ga_clean _ (S1 x Hx)) as [Ht _]. eapply Forall_impl; [exact Ht|]. now intros c []. }
  destruct (classify_addresses_total p (view_list (addresses m)) (classify_builtins p m) no_stats Hu Hr) as [[w st] Hcl].
  pose proof Hcl as Hw'. apply (classify_addresses_spec p _ (builtin_match p m)) in Hw' as (i & -> & Mi & _);
    [|exact Hp|eapply check_message_valid; eassumption|now apply builtins_spec].
  exists i, st. cbn [jf_policy_classify]. rewrite Hc. split; [exact Hcl|].
  apply message_match_split. exact Mi.
Qed.

(** ** Witnesses *)

Definition sample_fields : list wire_field :=
  [MkField (str "From") (str " Alice <alice@Example.org>,", true) [([HT] ++ str "bob@x", true)];
   MkField (str "Subject") (str " hi", false) [];
   MkField (str "X-Spam-Flag") (str "YES", false) []].

Lemma sample_fields_ok : Forall field_ok sample_fields.
Proof.
  assert (Hp : forall l, forallb (fun c => (0 <=? c) && (c <? 256) && negb (bad_byte c) && negb (c =? CR) && negb (c =? LF)) l = true ->
    Forall plain_byte l).
  { intros l H. apply Forall_forall. intros c Hc. rewrite forallb_forall in H. apply list_elem_of_In in Hc. specialize (H c Hc).
    boolify. repeat split; auto. }
  repeat first [apply Forall_cons; split | apply Forall_nil]; trivial; split; cbn [wf_name wf_first wf_more fst snd];
    try (vm_compute; congruence);
    try (split; [apply Hp; vm_compute; reflexivity|split; [discriminate|vm_compute; congruence]]);
    try (apply Forall_forall; intros c Hc; vm_compute in Hc;
         repeat (apply elem_of_cons in Hc as [-> | Hc]; [vm_compute; split; congruence|]); now apply elem_of_nil in Hc).
  all: repeat first [apply Forall_cons; split | apply Forall_nil]; trivial.
  split; [|reflexivity]. split; [apply Hp; vm_compute; reflexivity|split; [discriminate|vm_compute; congruence]].
Qed.

Lemma headers_fields_witness : exists h,
  jf_headers_parse (AL:=ample) (View (concat (map field_wire sample_fields) ++ line_wire ([], false) ++ str "body")) 0 = Ok h /\
  contents_of h = ([(JF_FROM, str "alice@Example.org"); (JF_FROM, str "bob@x")], [], [str "YES"]).
Proof.
  pose proof (headers_fields (AL:=ample) (fun _ => eq_refl) sample_fields false (str "body") 0 sample_fields_ok
    ltac:(vm_compute; congruence)) as H.
  rewrite app_assoc. set (r := fields_message _) in H. vm_compute in r. subst r. cbv beta iota in H.
  destruct H as (h & E & C & _). exists h. split; [exact E|exact C].
Defined.

Lemma headers_prefix_witness :
  jf_headers_read (AL:=ample) [ReadData (str "To: a@b"); ReadInterrupted; ReadData [LF; LF]; ReadError] 0 =
  jf_headers_parse (AL:=ample) (View (str "To: a@b" ++ [LF; LF] ++ str "body")) 0.
Proof.
  destruct (jf_headers_parse (AL:=ample) (View (str "To: a@b" ++ [LF; LF] ++ str "body")) 0) as [h|rc e] eqn:E.
  - destruct (headers_prefix (AL:=ample) _ _ _ E) as (pre & Hp & Hl & _ & _ & _ & H). apply H.
    assert (Hw : wire_size h = 9) by (vm_compute in E; injection E as <-; reflexivity). rewrite Hw in Hl.
    destruct Hp as (rest & Hp). exists []. rewrite app_nil_r. cbn [stream fst].
    assert (Hpre : pre = take 9 (str "To: a@b" ++ [LF; LF] ++ str "body"))
      by (rewrite Hp, take_app_length'; [reflexivity|unfold zlen in Hl; lia]). rewrite Hpre. reflexivity.
  - vm_compute in E. discriminate.
Defined.

Lemma headers_decided_witness : exists h i st,
  jf_headers_parse (AL:=ample) (View (str "To: a@b" ++ [LF; LF] ++ str "body")) 0 = Ok h /\
  jf_policy_classify (RX:=fixed_strings) (Some sample_policy) (Some (jf_headers_message h)) = Ok (Some i, st).
Proof.
  destruct (jf_headers_parse (AL:=ample) (View (str "To: a@b" ++ [LF; LF] ++ str "body")) 0) as [h|rc e] eqn:E.
  - destruct (headers_decided (AL:=ample) (RX:=fixed_strings) (str "To: a@b" ++ [LF; LF] ++ str "body") 0 h sample_policy
      ltac:(apply Forall_forall; intros c Hc; vm_compute in Hc;
        repeat (apply elem_of_cons in Hc as [-> | Hc]; [vm_compute; split; congruence|]); now apply elem_of_nil in Hc)
      E sample_indexed eq_refl ltac:(intros pat s; cbn; destruct (contains _ _); discriminate)) as (_ & i & st & H & _).
    exists h, i, st. split; [reflexivity|exact H].
  - vm_compute in E. discriminate.
Defined.
