(* ===== verification/Import.v ===== *)
(** * Importing Sieve scripts (src/filter/import.c)

    The bounded reader of generated and legacy scripts, the rules it recovers as
    policy sources, and the merge of an imported policy into the configuration. *)
From S2P Require Import Prelude Rfc822 Headers Sha256 Utf8 Mailbox Lexer Rules Resolve Classify Policy Bytes Profile.

Definition JF_IMPORT_FILES : nat := 4.
Definition jf_import_names : list bytes :=
  [str "Filters.txt"; str "Aliases.txt"; str "whitelist.abook"; str "blacklist.abook"].

(** A token with its value; [Punct] is one of the six separators. *)
Inductive stoken := End | Punct (c : Z) | Word (w : bytes) | Text (s : bytes).

(** [struct parser], less its constants: [rest] is the data from [pos] on and
    [heap] the requests made to the C library. *)
Record sparser := MkSparser {
  rest : bytes; sline : Z; token_line : Z; rule_line : Z; rules : Z; token : stoken;
  create : bool; capabilities : Z; used : Z; builtin2 : Z; builtin6 : Z; routes : Z;
  recovered : list jf_bytes; source_lines : list (list Z); heap : nat }.

Definition set_lex (r : bytes) (ln tl : Z) (t : stoken) (h : nat) (p : sparser) : sparser :=
  MkSparser r ln tl (rule_line p) (rules p) t (create p) (capabilities p) (used p) (builtin2 p) (builtin6 p)
    (routes p) (recovered p) (source_lines p) h.
Definition set_heap (h : nat) (p : sparser) : sparser :=
  set_lex (rest p) (sline p) (token_line p) (token p) h p.
Definition set_rule_line (n : Z) (p : sparser) : sparser :=
  MkSparser (rest p) (sline p) (token_line p) n (rules p) (token p) (create p) (capabilities p) (used p)
    (builtin2 p) (builtin6 p) (routes p) (recovered p) (source_lines p) (heap p).
Definition set_create (b : bool) (p : sparser) : sparser :=
  MkSparser (rest p) (sline p) (token_line p) (rule_line p) (rules p) (token p) b (capabilities p) (used p)
    (builtin2 p) (builtin6 p) (routes p) (recovered p) (source_lines p) (heap p).
Definition set_capabilities (n : Z) (p : sparser) : sparser :=
  MkSparser (rest p) (sline p) (token_line p) (rule_line p) (rules p) (token p) (create p) n (used p)
    (builtin2 p) (builtin6 p) (routes p) (recovered p) (source_lines p) (heap p).
Definition use (bit : Z) (p : sparser) : sparser :=
  MkSparser (rest p) (sline p) (token_line p) (rule_line p) (rules p) (token p) (create p) (capabilities p)
    (Z.lor (used p) bit) (builtin2 p) (builtin6 p) (routes p) (recovered p) (source_lines p) (heap p).
Definition set_builtins (b2 b6 : Z) (p : sparser) : sparser :=
  MkSparser (rest p) (sline p) (token_line p) (rule_line p) (rules p) (token p) (create p) (capabilities p)
    (used p) b2 b6 (routes p) (recovered p) (source_lines p) (heap p).
Definition set_records (n rt : Z) (rec : list jf_bytes) (ls : list (list Z)) (h : nat) (p : sparser) : sparser :=
  MkSparser (rest p) (sline p) (token_line p) (rule_line p) n (token p) (create p) (capabilities p) (used p)
    (builtin2 p) (builtin6 p) rt rec ls h.

(** The first error is the one reported. *)
Definition invalid {A} (p : sparser) (detail : string) : res A :=
  jf_product_error "E_SIEVE_IMPORT" (token_line p) (str detail).
Definition memory {A} (p : sparser) : res A :=
  jf_product_error "E_MEMORY" (token_line p) (str "import allocation/size limit").

(** Not a status of the code: a loop that used up its fuel. *)
Definition out_of_fuel {A} (p : sparser) : res A := Fail 0 (MkError EmptyString SIZE_MAX (token_line p) []).

(** More than the tokens that are left. *)
Definition fuel_of (p : sparser) : nat := (2 + length (rest p))%nat.

(** ** Tokens *)

Definition is_space (c : Z) : bool := (c =? SP) || (c =? HT) || (c =? CR) || (c =? LF).

Inductive between := Blank | Line | Block.

(** What precedes a token, between tokens, in a line comment or in a block
    comment; an unterminated block comment gives the line of its end. *)
Fixpoint skip (m : between) (s : bytes) (ln : Z) : (bytes * Z) + Z :=
  match s with
  | [] => match m with Block => inr ln | _ => inl ([], ln) end
  | c :: t =>
      let ln' := if c =? LF then ln + 1 else ln in
      match m with
      | Blank =>
          if is_space c then skip Blank t ln'
          else if c =? ch "#" then skip Line t ln
          else match t with
               | d :: u => if (c =? ch "/") && (d =? ch "*") then skip Block u ln else inl (s, ln)
               | [] => inl (s, ln)
               end
      | Line => skip (if c =? LF then Blank else Line) t ln'
      | Block =>
          match t with
          | d :: u => if (c =? ch "*") && (d =? ch "/") then skip Blank u ln else skip Block t ln'
          | [] => inr ln
          end
      end
  end.

Definition word_byte (c : Z) : bool :=
  ((ch "a" <=? c) && (c <=? ch "z")) || ((ch "A" <=? c) && (c <=? ch "Z")) ||
  ((ch "0" <=? c) && (c <=? ch "9")) || (c =? ch "-") || (c =? ch "_").

Section Reader.
Context `{HP : Heap} (legacy_script : bool) (profile : jf_profile).

Definition add_byte (p : sparser) (c : Z) (b : buffer) : res buffer :=
  match jf_bytes_add_limit [c] JF_LINE_MAX b with Some b => Ok b | None => memory p end.

(** A quoted string after its opening quote. *)
Fixpoint lex_text (p : sparser) (s : bytes) (b : buffer) : res (bytes * buffer) :=
  match s with
  | [] => invalid p "unterminated quoted string"
  | c :: t =>
      if c =? DQ then Ok (t, b)
      else if c =? BSL then
        match t with
        | [] => invalid p "truncated quoted pair"
        | d :: u =>
            if negb (d =? DQ) && negb (d =? BSL)
            then invalid p "unsupported quoted pair; use quote/backslash escaping"
            else b ← add_byte p d b; lex_text p u b
        end
      else if (c <? 32) || (c =? 127) then invalid p "control byte or multiline string unsupported"
      else b ← add_byte p c b; lex_text p t b
  end.

Fixpoint lex_word (p : sparser) (s : bytes) (b : buffer) : res (bytes * buffer) :=
  match s with
  | c :: t => if word_byte c then b ← add_byte p c b; lex_word p t b else Ok (s, b)
  | [] => Ok ([], b)
  end.

(** The terminator of a value. *)
Definition terminated (p : sparser) (b : buffer) : res (bytes * nat) :=
  match jf_bytes_add_limit [0] (JF_LINE_MAX + 1) b with
  | Some (b, h) => Ok (c_string (contents b), h)
  | None => memory p
  end.

Definition next (p : sparser) : res sparser :=
  match skip Blank (rest p) (sline p) with
  | inr ln => invalid (set_lex [] ln ln End (heap p) p) "unterminated block comment"
  | inl ([], ln) => Ok (set_lex [] ln ln End (heap p) p)
  | inl (c :: t, ln) =>
      let p := set_lex t ln ln End (heap p) p in
      if mem c (str "{}[],;") then Ok (set_lex t ln ln (Punct c) (heap p) p)
      else if c =? DQ then
        '(r, b) ← lex_text p t (no_bytes, heap p);
        '(v, h) ← terminated p b;
        Ok (set_lex r ln ln (Text v) h p)
      else
        b ← add_byte p c (no_bytes, heap p);
        '(r, b) ← lex_word p t b;
        '(v, h) ← terminated p b;
        Ok (set_lex r ln ln (Word v) h p)
  end.

(** [!strcasecmp]. *)
Definition same_word (a b : bytes) : bool := streq (fold_bytes a) (fold_bytes b).

Definition is_word (p : sparser) (word : string) : bool :=
  match token p with Word w => same_word w (str word) | _ => false end.

Definition punct (p : sparser) (c : Z) : bool := match token p with Punct d => d =? c | _ => false end.

Definition take_token (c : Z) (p : sparser) : res sparser :=
  if punct p c then next p else invalid p "unexpected token or truncated generated script".

(** [malloc], [strdup] or [realloc], [n] times. *)
Definition alloc (n : nat) (p : sparser) : res sparser :=
  match mallocs n (heap p) with Some h => Ok (set_heap h p) | None => memory p end.

(** One string, or a bracketed list; [items] are those before. *)
Fixpoint strings_loop (fuel : nat) (list_ : bool) (items : list bytes) (p : sparser) : res (list bytes * sparser) :=
  match fuel with
  | O => out_of_fuel p
  | S fuel' =>
      match token p with
      | Text v =>
          if zlen items =? JF_RULE_MAX then invalid p "expected nonempty bounded string/list"
          else
            p ← alloc 2 p;
            let items := items ++ [v] in
            p ← next p;
            if negb list_ then Ok (items, p)
            else if punct p (ch "]") then p ← next p; Ok (items, p)
            else p ← take_token (ch ",") p; strings_loop fuel' list_ items p
      | _ => invalid p "expected nonempty bounded string/list"
      end
  end.

Definition strings (p : sparser) : res (list bytes * sparser) :=
  let list_ := punct p (ch "[") in
  p ← (if list_ then next p else Ok p);
  strings_loop (fuel_of p) list_ [] p.

(** [quote]: the appends of a quoted field. *)
Definition quote_parts (s : bytes) : list bytes :=
  [[DQ]] ++ concat (map (fun c => if (c =? DQ) || (c =? BSL) then [[BSL]; [c]] else [[c]]) s) ++ [[DQ]].
Definition quote_into (s : bytes) (b : buffer) : option buffer :=
  if existsb (fun c => c <? 32) s then None else adds (quote_parts s) b.

(** ** Mailboxes and logical names *)

Definition blank_rule (lg : bytes) (k : jf_kind) : jf_rule :=
  MkRule k 0 0 [] [] [] lg [] [] [] [] 0 0 [].

Definition mapped (lg : bytes) (k : jf_kind) (h : nat) : option (bytes * nat) :=
  jf_profile_mailbox profile (blank_rule lg k) h.

Definition mapping_is (mailbox lg : bytes) (k : jf_kind) (p : sparser) : res (bool * sparser) :=
  match mapped lg k (heap p) with
  | None => memory p
  | Some (v, h) => Ok (streq v mailbox, set_heap h p)
  end.

(** The loop over the configured names and [known]. *)
Fixpoint unmap_loop (mailbox : bytes) (keys : list bytes) (result : option bytes) (p : sparser) : res (option bytes * sparser) :=
  match keys with
  | [] => Ok (result, p)
  | key :: t =>
      '(yes, p) ← mapping_is mailbox key JF_ADDRESS p;
      if (yes : bool) then
        match result with
        | Some r => if streq r key then unmap_loop mailbox t result p else invalid p "ambiguous mailbox mappings"
        | None => p ← alloc 1 p; unmap_loop mailbox t (Some key) p
        end
      else unmap_loop mailbox t result p
  end.

(** The pieces appended for the path [s] with its separators turned into slashes. *)
Fixpoint slashes (fuel : nat) (sep s : bytes) : list bytes :=
  match fuel, s with
  | S fuel', c :: t =>
      if has_prefix sep s then [ch "/"] :: slashes fuel' sep (drop (length sep) s)
      else [c] :: slashes fuel' sep t
  | _, _ => []
  end.

Definition unmap (mailbox : bytes) (p : sparser) : res (bytes * sparser) :=
  let sep := p_separator profile in
  let inverse detail (result : option bytes) p :=
    match result with Some r => Ok (r, p) | None => invalid p detail end in
  '(result, p) ← unmap_loop mailbox (map m_logical (mappings profile) ++ [str "known"]) None p;
  if (length sep =? 0)%nat || negb (has_prefix (p_prefix profile) mailbox)
  then inverse "mailbox outside configured namespace" result p
  else
    let s := drop (length (p_prefix profile)) mailbox in
    if negb (streq sep (str "/")) && contains sep s
    then inverse "ambiguous namespace separator; declare an explicit mailbox mapping" result p
    else match adds (slashes (length s) sep s ++ [[0]]) (no_bytes, heap p) with
         | None => memory p
         | Some (b, h) =>
             let p := set_heap h p in let name := c_string (contents b) in
             match result with
             | None => Ok (name, p)
             | Some r =>
                 match mapped name JF_ADDRESS (heap p) with
                 | None => memory p
                 | Some (i, h) =>
                     let p := set_heap h p in
                     if streq i mailbox && negb (streq r name)
                     then invalid p "ambiguous mapped and named mailbox destinations"
                     else Ok (r, p)
                 end
             end
         end.

(** ** Recovered records *)

(** [append f (i-th of l)]: the i-th element updated. *)
Definition nth_bytes (l : list jf_bytes) (i : nat) : jf_bytes := nth i l no_bytes.

Definition record_file (stage : Z) (sel : bytes) : nat :=
  if stage =? 1 then 3 else if stage =? 7 then 1
  else if (stage =? 5) && streq sel (str "address") then 2 else 0%nat.

(** The line written for a record. *)
Definition record_text (file : nat) (stage : Z) (sel key : bytes) (dest : option bytes) (b : buffer) : option buffer :=
  if (file =? 0)%nat then
    b ← adds [sel; [SP]] b;
    b ← quote_into key b;
    b ← match dest with Some d => b ← adds [str " move "] b; quote_into d b | None => Some b end;
    adds [[LF]] b
  else
    b ← (if stage =? 7 then quote_into key b else adds [key] b);
    adds [[LF]] b.

Definition record_rule (stage : Z) (sel key : bytes) (dest : option bytes) (p : sparser) : res sparser :=
  let file := record_file stage sel in
  let n := rules p + 1 in
  if JF_RULE_MAX <? n then invalid p "too many imported rules"
  else
    p ← alloc 1 p;
    let ls := alter (fun l => l ++ [rule_line p]) file (source_lines p) in
    match record_text file stage sel key dest (nth_bytes (recovered p) file, heap p) with
    | None => memory p
    | Some (b, h) =>
        Ok (set_records n (if (file =? 0)%nat then routes p + 1 else routes p)
              (<[file := b]> (recovered p)) ls h p)
    end.

Fixpoint contact_records (stage : Z) (l : list (Z * bytes)) (p : sparser) : res sparser :=
  match l with
  | [] => Ok p
  | (_, key) :: t =>
      p ← alloc 1 p;
      p ← record_rule stage (str "address") key None p;
      contact_records stage t p
  end.

(** A legacy contact: every mailbox of a From field. *)
Definition contact (stage : Z) (raw : bytes) (p : sparser) : res sparser :=
  match adds [str "From: "; raw; [LF; LF]] (no_bytes, heap p) with
  | None => memory p
  | Some (b, h) =>
      match jf_headers_parse (AL := fun n => malloc_ok n) (View (contents b)) h with
      | Fail _ _ => invalid p "legacy contact is not a representable mailbox"
      | Ok hd =>
          if (length (h_addresses hd) =? 0)%nat then invalid p "empty legacy contact"
          else contact_records stage (h_addresses hd) (set_heap (h_requests hd) p)
      end
  end.

(** ** Commands *)

Definition action_command (p : sparser) : res (bytes * sparser) :=
  if negb (is_word p "fileinto") then invalid p "only fileinto move actions are supported"
  else
    p ← next p;
    p ← (if is_word p ":create" then next (use 2 (set_create true p)) else Ok (set_create false p));
    match token p with
    | Text ((_ :: _) as v) =>
        p ← alloc 1 p;
        let p := use 1 p in
        if negb (Bool.eqb (create p) (p_create profile))
        then invalid p "fileinto :create differs from configured profile"
        else p ← next p; p ← take_token (ch ";") p; Ok (v, p)
    | _ => invalid p "fileinto requires one nonempty mailbox"
    end.

Definition bad {A} (p : sparser) : res A :=
  invalid p "unsupported test, stage, comparator, order or action in generated script".

(** The tags of a test: address part, match type, comparator. *)
Record tags := MkTags { part : Z; match_ : Z; comparator : bool }.

Definition is_tag (p : sparser) : bool := match token p with Word (c :: _) => c =? ch ":" | _ => false end.

Fixpoint test_tags (fuel : nat) (t : tags) (p : sparser) : res (tags * sparser) :=
  match fuel with
  | O => out_of_fuel p
  | S fuel' =>
      if negb (is_tag p) then Ok (t, p)
      else if is_word p ":all" || is_word p ":domain" then
        if negb (part t =? 0) then bad p
        else
          let t := MkTags (if is_word p ":all" then 1 else 2) (match_ t) (comparator t) in
          p ← next p; test_tags fuel' t p
      else if is_word p ":is" || is_word p ":matches" || is_word p ":regex" || is_word p ":contains" then
        if negb (match_ t =? 0) then bad p
        else
          let m := if is_word p ":is" then 1 else if is_word p ":matches" then 2 else if is_word p ":regex" then 3 else 4 in
          let p := if m =? 3 then use 4 p else p in
          p ← next p; test_tags fuel' (MkTags (part t) m (comparator t)) p
      else if is_word p ":comparator" then
        if comparator t then bad p
        else
          p ← next p;
          match token p with
          | Text v =>
              if negb (streq v (str "i;ascii-casemap")) then bad p
              else p ← next p; test_tags fuel' (MkTags (part t) (match_ t) true) p
          | _ => bad p
          end
      else bad p
  end.

Definition field_bit (name : bytes) : Z :=
  if same_word name (str "From") then 1 else if same_word name (str "Sender") then 2
  else if same_word name (str "To") then 4 else if same_word name (str "Cc") then 8
  else if same_word name (str "X-Spam-Flag") then 16 else 0.

Fixpoint field_mask (l : list bytes) (mask : Z) (p : sparser) : res Z :=
  match l with
  | [] => Ok mask
  | f :: t =>
      let bit := field_bit f in
      if (bit =? 0) || negb (Z.land mask bit =? 0) then bad p else field_mask t (Z.lor mask bit) p
  end.

(** The stage of a rule of a legacy script. *)
Definition legacy_rule_stage (mask : Z) (mailbox : bytes) (p : sparser) : res (Z * sparser) :=
  let test lg k yes no := '(b, p) ← mapping_is mailbox (str lg) k p; Ok (if (b : bool) then yes else no, p) in
  if mask =? 1 then test "zz.blacklist"%string JF_ADDRESS 1 0
  else if mask =? 2 then test "zz.bounces"%string JF_SENDER_CONTAINS 2 0
  else if mask =? 3 then test "known"%string JF_ADDRESS 5 3
  else if mask =? 16 then test "spam"%string JF_SPAM_IS 6 0
  else if mask =? 12 then test "priv"%string JF_ADDRESS 7 4
  else Ok (0, p).

(** The selector of a key of a generated rule; [None] is an unsupported test. *)
Definition rule_selector (stage : Z) (t : tags) (key : bytes) : option bytes :=
  if (part t =? 1) && (match_ t =? 1) then
    Some (if stage =? 3 then str "from-address" else if stage =? 4 then str "to-address" else str "address")
  else if (part t =? 2) && ((match_ t =? 1) || (match_ t =? 2)) then
    if Bool.eqb (match_ t =? 2) (has_prefix (str "*.") key)
    then Some (if stage =? 3 then str "from-domain" else if stage =? 4 then str "to-domain" else str "known-domain")
    else None
  else if (part t =? 1) && (match_ t =? 3) && ((stage =? 3) || (stage =? 4)) then
    Some (if stage =? 3 then str "from" else str "to")
  else None.

Definition contact_stage (stage : Z) : bool := (stage =? 1) || (stage =? 5) || (stage =? 7).

Fixpoint rule_keys (address : bool) (stage : Z) (t : tags) (dest : option bytes) (keys : list bytes) (p : sparser) : res sparser :=
  match keys with
  | [] => Ok p
  | key :: rest_ =>
      p ← (if legacy_script then
             if negb (match_ t =? 4) then bad p
             else if contact_stage stage then contact stage key p
             else record_rule stage (if stage =? 3 then str "from" else str "to") key dest p
           else if negb address ||
                   (negb (stage =? 3) && negb (stage =? 4) && negb ((part t =? 1) && (match_ t =? 1)) &&
                    negb ((stage =? 5) && (part t =? 2) && ((match_ t =? 1) || (match_ t =? 2))))
           then bad p
           else match rule_selector stage t key with
                | None => bad p
                | Some sel => record_rule stage sel key dest p
                end);
      rule_keys address stage t dest rest_ p
  end.

(** A builtin rule: bounces in stage 2, spam in stage 6. *)
Definition builtin_rule (address : bool) (stage mask : Z) (t : tags) (keys : list bytes) (mailbox : bytes) (p : sparser) : res sparser :=
  let bounce_ := stage =? 2 in
  match keys with
  | [key] =>
      if address || negb (part t =? 0) || negb (mask =? (if bounce_ then 2 else 16)) ||
         negb (match_ t =? (if bounce_ then 4 else 1)) ||
         negb (same_word key (if bounce_ then str "mailman-bounce" else str "YES"))
      then bad p
      else
        '(yes, p) ← mapping_is mailbox (if bounce_ then str "zz.bounces" else str "spam")
                      (if bounce_ then JF_SENDER_CONTAINS else JF_SPAM_IS) p;
        if negb (yes : bool) then bad p
        else
          let p := if bounce_ then set_builtins (builtin2 p + 1) (builtin6 p) p
                   else set_builtins (builtin2 p) (builtin6 p + 1) p in
          if negb ((if bounce_ then builtin2 p else builtin6 p) =? 1) then bad p else Ok p
  | _ => bad p
  end.

(** A rule of the other stages. *)
Definition plain_rule (address : bool) (stage mask : Z) (t : tags) (keys : list bytes) (mailbox : bytes) (p : sparser) : res sparser :=
  if negb (mask =? (if (stage =? 1) || (stage =? 5) then 1 else if stage =? 3 then 3 else 12)) &&
     negb (legacy_script && (stage =? 5) && (mask =? 3))
  then bad p
  else
    '(dest, p) ← (if contact_stage stage then
                    '(yes, p) ← mapping_is mailbox
                       (if stage =? 1 then str "zz.blacklist" else if stage =? 5 then str "known" else str "priv") JF_ADDRESS p;
                    if (yes : bool) then Ok (None, p) else bad p
                  else '(d, p) ← unmap mailbox p; Ok (Some d, p));
    rule_keys address stage t dest keys p.

Definition rule_command (stage legacy_stage : Z) (p : sparser) : res (Z * sparser) :=
  let p := set_rule_line (token_line p) p in
  if negb (is_word p "if") then bad p
  else
    p ← next p;
    let address := is_word p "address" in
    if negb address && negb (is_word p "header") then bad p
    else
      p ← next p;
      '(t, p) ← test_tags (fuel_of p) (MkTags 0 0 false) p;
      if negb legacy_script && negb (comparator t) then bad p
      else
        '(fields_, p) ← strings p;
        '(keys, p) ← strings p;
        mask ← field_mask fields_ 0 p;
        p ← take_token (ch "{") p;
        '(mailbox, p) ← action_command p;
        if negb (is_word p "stop") then bad p
        else
          p ← next p; p ← take_token (ch ";") p; p ← take_token (ch "}") p;
          '(stage, legacy_stage, p) ←
            (if legacy_script then
               if address || negb (part t =? 0) || (negb (match_ t =? 1) && negb (match_ t =? 4)) then bad p
               else
                 '(stage, p) ← legacy_rule_stage mask mailbox p;
                 if (stage =? 0) || ((stage <? legacy_stage) && negb ((stage =? 3) && (legacy_stage =? 4)))
                 then bad p
                 else Ok (stage, if legacy_stage <? stage then stage else legacy_stage, p)
             else Ok (stage, legacy_stage, p));
          p ← (if (stage =? 2) || (stage =? 6) then builtin_rule address stage mask t keys mailbox p
               else plain_rule address stage mask t keys mailbox p);
          Ok (legacy_stage, p).

(** [while (is (&p, if))]. *)
Fixpoint rule_loop (fuel : nat) (stage legacy_stage : Z) (p : sparser) : res (Z * sparser) :=
  match fuel with
  | O => out_of_fuel p
  | S fuel' =>
      if is_word p "if" then
        '(legacy_stage, p) ← rule_command stage legacy_stage p;
        rule_loop fuel' stage legacy_stage p
      else Ok (legacy_stage, p)
  end.
Definition rule_block (stage legacy_stage : Z) (p : sparser) : res (Z * sparser) :=
  rule_loop (fuel_of p) stage legacy_stage p.

(** ** The whole script *)

Definition extension (name : bytes) : Z :=
  if streq name (str "fileinto") then 1 else if streq name (str "mailbox") then 2
  else if streq name (str "regex") && p_regex profile then 4
  else if legacy_script && streq name (str "variables") then 8 else 0.

Fixpoint require_names (l : list bytes) (p : sparser) : res sparser :=
  match l with
  | [] => Ok p
  | name :: t =>
      let cap := extension name in
      if (cap =? 0) || negb (Z.land (capabilities p) cap =? 0)
      then invalid p "unsupported/duplicate require extension"
      else require_names t (set_capabilities (Z.lor (capabilities p) cap) p)
  end.

Definition require_command (p : sparser) : res sparser :=
  if is_word p "require" then
    p ← next p;
    '(names, p) ← strings p;
    p ← take_token (ch ";") p;
    require_names names p
  else Ok p.

Definition stage_header (p : sparser) : res sparser :=
  let bad_stage := invalid p "expected seven fixed policy stage blocks" in
  if negb (is_word p "if") then bad_stage
  else
    p ← next p;
    if negb (is_word p "true") then invalid p "expected seven fixed policy stage blocks"
    else p ← next p; take_token (ch "{") p.

(** [n] stages from [stage]. *)
Fixpoint stage_blocks (n : nat) (stage legacy_stage : Z) (p : sparser) : res sparser :=
  match n with
  | O => Ok p
  | S n' =>
      p ← stage_header p;
      '(legacy_stage, p) ← rule_block stage legacy_stage p;
      p ← take_token (ch "}") p;
      stage_blocks n' (stage + 1) legacy_stage p
  end.

(** The commands of a script, to its end: the parser that holds what they say. *)
Definition script (p : sparser) : res sparser :=
  p ← next p;
  p ← require_command p;
  p ← (if legacy_script then '(_, p) ← rule_block 0 0 p; Ok p else stage_blocks 7 1 0 p);
  '(mailbox, p) ← action_command p;
  let missing_ {A} p : res A := invalid p "missing fallback, extra command or undeclared extension" in
  '(yes, p) ← mapping_is mailbox (str "unsorted") JF_ALWAYS p;
  if negb (yes : bool) || negb (match token p with End => true | _ => false end) ||
     negb (Z.ldiff (used p) (capabilities p) =? 0)
  then missing_ p
  else if negb legacy_script && (negb (builtin2 p =? 1) || negb (builtin6 p =? 1))
  then invalid p "bounce and spam stages require their unique builtin"
  else Ok p.

Definition import_kinds : list Z := [0; 2; 3; 4].

(** The recovered records as policy sources. *)
Definition import_sources (p : sparser) : list source_arg :=
  map (fun i => MkSourceArg (nth i import_kinds 0) (Some (nth i jf_import_names [])) (Some (str "imported Sieve"))
                  (View (contents (nth_bytes (recovered p) i)))) (seq 0 JF_IMPORT_FILES).

(** The line of the script for line [n] of a recovered file. *)
Definition script_line (p : sparser) (file : nat) (n : Z) : option Z :=
  if (n =? 0) || (zlen (nth file (source_lines p) []) <? n) then None
  else Some (nth (Z.to_nat (n - 1)) (nth file (source_lines p) []) 0).

Definition relocate_error (p : sparser) (e : jf_error) : jf_error :=
  if (0 <=? err_source e) && (err_source e <? 4) then
    match script_line p (Z.to_nat (err_source e)) (err_line e) with
    | Some n => MkError (err_code e) (err_source e) n (err_detail e)
    | None => e
    end
  else e.

Definition set_line (n : Z) (e : jf_entry) : jf_entry :=
  let r := rule e in
  MkEntry (MkRule (kind r) (stage r) (fields r) (selector r) (predicate r) (action r) (logical r) (Rules.local r) (sieve r)
             (source r) (source_identity r) n (occurrence r) (id r)) (compiled e) (discard e) (order e) (input_index e).

(** The first file of the rule's name that has its line. *)
Fixpoint relocated_line (p : sparser) (files : list nat) (r : jf_rule) : option Z :=
  match files with
  | [] => None
  | i :: t =>
      if streq (source_identity r) (nth i jf_import_names []) then
        match script_line p i (line r) with Some n => Some n | None => relocated_line p t r end
      else relocated_line p t r
  end.

Definition relocate (p : sparser) (e : jf_entry) : jf_entry :=
  match relocated_line p (seq 0 JF_IMPORT_FILES) (rule e) with Some n => set_line n e | None => e end.

Definition is_route (r : jf_rule) : bool :=
  (stage r =? 3) || (stage r =? 4) || ((stage r =? 5) && negb (bool_decide (kind r = JF_ADDRESS))).

Definition empty_script (input : bytes) (h : nat) : sparser :=
  MkSparser input 1 0 0 0 End false 0 0 0 0 0 (replicate JF_IMPORT_FILES no_bytes) (replicate JF_IMPORT_FILES []) h.

(** [h] heap requests were made before; the policy parser uses the same heap. *)
Definition jf_sieve_import `{RX : PosixRegex} (input : bytes) (h : nat) : res (jf_policy * nat) :=
  if (JF_INPUT_MAX <? zlen input) || mem 0 input
  then jf_product_error "E_SIEVE_IMPORT" 1 (str "oversized script or encoded NUL")
  else
    p ← script (empty_script input h);
    match jf_policy_parse (AL := fun n => malloc_ok (heap p + n)%nat) (View (import_sources p)) with
    | Fail rc e => Fail rc (relocate_error p e)
    | Ok pol =>
        let pol := set_entries pol (map (relocate p) (entries pol)) in
        let count := zlen (List.filter (fun e => is_route (rule e)) (entries pol)) in
        if negb (count =? routes p) || (negb legacy_script && negb (zlen (entries pol) =? rules p + 3))
        then invalid p "duplicate predicates cannot preserve generated source precedence"
        else Ok (pol, heap p + requests pol)%nat
    end.
End Reader.

(** ** Merging an imported policy into the configuration *)

(** The order of rules by stage, selector and predicate. *)
Definition key_compare (a b : jf_rule) : comparison :=
  cmp_then (stage a ?= stage b) (cmp_then (strcmp (selector a) (selector b)) (strcmp (predicate a) (predicate b))).

(** [struct indexed]: a rule with its position. *)
Definition indexed_rule : Type := jf_rule * nat.
Definition indexed_compare (a b : indexed_rule) : comparison := key_compare a.1 b.1.

Definition ULONG_MAX : Z := 2 ^ 64 - 1.

(** A number and the rest; [None] when it is too large. *)
Fixpoint book_digits (s : bytes) (n : Z) (count : nat) : option (Z * bytes * nat) :=
  match s with
  | c :: t =>
      if (ch "0" <=? c) && (c <=? ch "9") then
        if (ULONG_MAX - 9) / 10 <? n then None else book_digits t (n * 10 + (c - ch "0")) (S count)
      else Some (n, s, count)
  | [] => Some (n, [], count)
  end.

(** The identifier after the greatest section number; [None] is status 4. *)
Fixpoint book_scan (start : bool) (s : bytes) (max : Z) : option Z :=
  match s with
  | [] => Some max
  | c :: t =>
      if start && (c =? ch "[") then
        match book_digits t 0 0 with
        | None => None
        | Some (n, r, count) =>
            if negb (count =? 0)%nat && match r with d :: _ => d =? ch "]" | [] => false end && (max <=? n) then
              if n =? ULONG_MAX then None else book_scan (c =? LF) t (n + 1)
            else book_scan (c =? LF) t max
        end
      else book_scan (c =? LF) t max
  end.
Definition book_next (out : bytes) : option Z := book_scan true out 0.

Section Merge.
Context `{HP : Heap}.

(** The parts of a new abook record. *)
Definition book_record (n : Z) (address : bytes) : list bytes :=
  [[LF] ++ str "[" ++ decimal_of n ++ str "]" ++ [LF] ++ str "name=Imported Sieve" ++ [LF] ++ str "email="; address; [LF]].

Definition append_book (address : bytes) (n : Z) (b : buffer) : option (Z * buffer) :=
  if n =? ULONG_MAX then None
  else b ← adds (book_record n address) b; Some (n + 1, b).

(** The locals of the merge: the outputs, the last positions by stage, the next
    identifiers with their readiness, the heap. *)
Record merge_state := MkMerge {
  outputs : list jf_bytes; last_ : list nat; next_id : list (option Z); m_heap : nat }.

(** [while (low<high)] over the sorted index. *)
Fixpoint find_rule (fuel : nat) (idx : list indexed_rule) (r : jf_rule) (low high : nat) : option indexed_rule :=
  match fuel with
  | O => None
  | S fuel' =>
      if (low <? high)%nat then
        let mid := (low + (high - low) / 2)%nat in
        match idx !! mid with
        | None => None
        | Some x =>
            match key_compare r x.1 with
            | Eq => Some x
            | Lt => find_rule fuel' idx r low mid
            | Gt => find_rule fuel' idx r (S mid) high
            end
        end
      else None
  end.

(** Status 3 with no error written. *)
Definition no_memory {A} : res A := Fail 3 (MkError EmptyString SIZE_MAX 0 []).

Definition merge_file (r : jf_rule) : nat :=
  if stage r =? 1 then 3 else if stage r =? 7 then 1
  else if (stage r =? 5) && bool_decide (kind r = JF_ADDRESS) then 2 else 0%nat.

(** The line of a route or alias. *)
Definition merge_line (file : nat) (r : jf_rule) (b : buffer) : option buffer :=
  let data := contents b.1 in
  b ← (match last data with Some c => if negb (c =? LF) then adds [[LF]] b else Some b | None => Some b end);
  b ← (if (file =? 0)%nat then adds [selector r; [SP]] b else Some b);
  b ← quote_into (predicate r) b;
  b ← (if (file =? 0)%nat && negb (stage r =? 5) then b ← adds [str " move "] b; quote_into (logical r) b else Some b);
  adds [[LF]] b.

Definition merge_append (r : jf_rule) (s : merge_state) : res merge_state :=
  let file := merge_file r in
  let b := (nth_bytes (outputs s) file, m_heap s) in
  if (2 <=? file)%nat then
    match (match nth file (next_id s) None with Some n => Some n | None => book_next (contents b.1) end) with
    | None => Fail 4 (MkError EmptyString SIZE_MAX 0 [])
    | Some n =>
        match append_book (predicate r) n b with
        | None => jf_product_error "E_IMPORT_BOOK" (line r) (str "cannot append bounded abook record")
        | Some (n, (b, h)) => Ok (MkMerge (<[file := b]> (outputs s)) (last_ s) (<[file := Some n]> (next_id s)) h)
        end
    end
  else match merge_line file r b with
       | None => no_memory
       | Some (b, h) => Ok (MkMerge (<[file := b]> (outputs s)) (last_ s) (next_id s) h)
       end.

Definition set_last (st : Z) (n : nat) (s : merge_state) : merge_state :=
  MkMerge (outputs s) (<[Z.to_nat st := n]> (last_ s)) (next_id s) (m_heap s).

Definition merge_rule (idx : list indexed_rule) (r : jf_rule) (s : merge_state) : res merge_state :=
  if (stage r =? 2) || (stage r =? 6) || (stage r =? 8) then Ok s
  else match find_rule (S (length idx)) idx r 0 (length idx) with
       | Some (f, position) =>
           if negb (bool_decide (kind r = kind f)) || negb (streq (logical r) (logical f))
           then jf_product_error "E_IMPORT_COLLISION" (line r) (str "existing selector has a different destination")
           else if is_route r && (S position <? nth (Z.to_nat (stage r)) (last_ s) 0)%nat
           then jf_product_error "E_IMPORT_ORDER" (line r) (str "existing rules conflict with imported source order")
           else Ok (set_last (stage r) (S position) s)
       | None => merge_append r (if is_route r then set_last (stage r) (S (length idx)) s else s)
       end.

Fixpoint merge_rules (idx : list indexed_rule) (l : list jf_rule) (s : merge_state) : res merge_state :=
  match l with
  | [] => Ok s
  | r :: t => s ← merge_rule idx r s; merge_rules idx t s
  end.

(** The originals copied into the outputs. *)
Fixpoint copy_originals (l : list bytes) (h : nat) : option (list jf_bytes * nat) :=
  match l with
  | [] => Some ([], h)
  | s :: t =>
      '(b, h) ← jf_bytes_add s (no_bytes, h);
      '(bs, h) ← copy_originals t h;
      Some (b :: bs, h)
  end.

Definition rules_of (p : jf_policy) : list jf_rule := map (fun e => rule e) (entries p).

Definition rule_index (p : jf_policy) : list indexed_rule :=
  qsort indexed_compare (zip (rules_of p) (seq 0 (length (entries p)))).

(** The four outputs for four originals. *)
Definition jf_import_merge (current imported : jf_policy) (original : list bytes) (h : nat) : res (list bytes * nat) :=
  match mallocs 1 h with
  | None => no_memory
  | Some h =>
      match copy_originals original h with
      | None => no_memory
      | Some (out, h) =>
          s ← merge_rules (rule_index current) (rules_of imported)
                (MkMerge out (replicate 9 0%nat) (replicate JF_IMPORT_FILES None) h);
          Ok (map contents (outputs s), m_heap s)
      end
  end.
End Merge.
