(* ===== verification/ImportFacts.v ===== *)
(** * Theorems about the import (src/filter/import.c)

    Every loop of the reader ends, what an import accounts for, the inverse of
    the mailbox mapping, and what a merge leaves of the configuration. *)
From S2P Require Import Prelude Rfc822 Headers Sha256 Utf8 Mailbox Lexer Rules Resolve Classify Policy Bytes Profile Import.

(** ** Termination *)

(** The tokens that can still be read, at most. *)
Definition remaining (p : sparser) : nat := (length (rest p) + match token p with End => 0 | _ => 1 end)%nat.

(** A step that leaves at most [n] tokens, or fails with a status of the code. *)
Definition leaves {A} (state : A -> sparser) (n : nat) (r : res A) : Prop :=
  match r with Ok a => (remaining (state a) <= n)%nat | Fail _ _ => policy_status r end.

Lemma tokens_bind {A B} (sa : A -> sparser) (sb : B -> sparser) n m (r : res A) (f : A -> res B) :
  leaves sa n r -> (forall a, (remaining (sa a) <= n)%nat -> leaves sb m (f a)) -> leaves sb m (r ≫= f).
Proof. destruct r as [a|rc e]; cbn; auto. Qed.

Lemma leaves_weaken {A} (s : A -> sparser) n m (r : res A) : leaves s n r -> (n <= m)%nat -> leaves s m r.
Proof. destruct r; cbn; [lia|auto]. Qed.

Lemma leaves_invalid {A} (s : A -> sparser) n p d : leaves s n (invalid p d).
Proof. reflexivity. Qed.
Lemma leaves_memory {A} (s : A -> sparser) n p : leaves s n (memory p).
Proof. reflexivity. Qed.

Abbreviation self := (fun p : sparser => p).

(** Compares the tokens left, through the states of the results. *)
Ltac leaf := unfold leaves in *; cbn [fst snd] in *; cbv beta in *; lia.

Section Leaves.
Context `{HP : Heap} (legacy_script : bool) (profile : jf_profile).

Lemma skip_length m s ln r ln' : skip m s ln = inl (r, ln') -> (length r <= length s)%nat.
Proof.
  revert m ln. induction s as [s IH] using bytes_ind. intros m ln. destruct s as [|c t]; cbn [skip].
  { destruct m; intros [= <- <-]; cbn; lia. }
  assert (Ht : forall m ln, skip m t ln = inl (r, ln') -> (length r <= length (c :: t))%nat).
  { intros m0 l0 H. apply (IH t) in H; cbn; lia. }
  destruct m.
  - destruct (is_space c); [apply Ht|]. destruct (c =? ch "#"); [apply Ht|].
    destruct t as [|d u]; [intros [= <- <-]; cbn; lia|]. destruct (_ && _); [|intros [= <- <-]; cbn; lia].
    intros H. apply (IH u) in H; cbn in *; lia.
  - apply Ht.
  - destruct t as [|d u]; [discriminate|]. destruct (_ && _); [|apply Ht]. intros H. apply (IH u) in H; cbn in *; lia.
Qed.

Lemma lex_text_leaves p s b : match lex_text p s b with
  | Ok (r, _) => (length r < length s)%nat | Fail rc e => policy_status (A:=unit) (Fail rc e) end.
Proof.
  revert b. induction s as [s IH] using bytes_ind. intros b. destruct s as [|c t]; cbn [lex_text]; [reflexivity|].
  destruct (c =? DQ); [cbn; lia|]. destruct (c =? BSL).
  - destruct t as [|d u]; [reflexivity|]. destruct (_ && _); [reflexivity|]. unfold add_byte.
    destruct (jf_bytes_add_limit _ _ b) as [b'|]; [|reflexivity]. cbn [mbind res_bind].
    specialize (IH u ltac:(cbn; lia) b'). destruct (lex_text p u b') as [[r b2]|]; [cbn in *; lia|exact IH].
  - destruct (_ || _); [reflexivity|]. unfold add_byte.
    destruct (jf_bytes_add_limit _ _ b) as [b'|]; [|reflexivity]. cbn [mbind res_bind].
    specialize (IH t ltac:(cbn; lia) b'). destruct (lex_text p t b') as [[r b2]|]; [cbn in *; lia|exact IH].
Qed.

Lemma lex_word_leaves p s b : match lex_word p s b with
  | Ok (r, _) => (length r <= length s)%nat | Fail rc e => policy_status (A:=unit) (Fail rc e) end.
Proof.
  revert b. induction s as [|c t IH]; intros b; cbn [lex_word]; [cbn; lia|].
  destruct (word_byte c); [|cbn; lia]. unfold add_byte.
  destruct (jf_bytes_add_limit _ _ b) as [b'|]; [|reflexivity]. cbn [mbind res_bind].
  specialize (IH b'). destruct (lex_word p t b') as [[r b2]|]; [cbn in *; lia|exact IH].
Qed.

(** A token is consumed. *)
Lemma next_leaves p : leaves self (length (rest p)) (next p).
Proof.
  unfold next. pose proof (skip_length Blank (rest p) (sline p)) as Hs.
  destruct (skip _ _ _) as [[[|c t] ln]|ln]; [cbn; lia| |reflexivity]. specialize (Hs _ _ eq_refl). cbn [length] in Hs.
  destruct (mem c _); [unfold leaves, remaining; cbn; lia|].
  assert (Hfin : forall (f : bytes -> stoken) r b, (length r <= length t)%nat ->
    leaves self (length (rest p)) ('(v, h) ← terminated (set_lex t ln ln End (heap p) p) b; Ok (set_lex r ln ln (f v) h (set_lex t ln ln End (heap p) p)))).
  { intros f r b Hr. unfold terminated. destruct (jf_bytes_add_limit _ _ b) as [[b' h]|]; [|reflexivity].
    cbn [mbind res_bind]. unfold leaves, remaining. cbn. destruct (f _); cbn; lia. }
  destruct (c =? DQ).
  - pose proof (lex_text_leaves (set_lex t ln ln End (heap p) p) t (no_bytes, heap p)) as H. cbn [heap set_lex] in *.
    destruct (lex_text _ t _) as [[r b]|rc e]; [|exact H]. cbn [mbind res_bind]. apply Hfin. lia.
  - unfold add_byte. cbn [heap set_lex]. destruct (jf_bytes_add_limit _ _ _) as [b0|]; [|reflexivity]. cbn [mbind res_bind].
    pose proof (lex_word_leaves (set_lex t ln ln End (heap p) p) t b0) as H.
    destruct (lex_word _ t _) as [[r b]|rc e]; [|exact H]. cbn [mbind res_bind]. apply Hfin. lia.
Qed.

Lemma next_word_leaves p : token p <> End -> leaves self (remaining p - 1) (next p) /\ (1 <= remaining p)%nat.
Proof.
  intros H. assert (E : remaining p = S (length (rest p))) by (unfold remaining; destruct (token p); [easy|lia..]).
  rewrite E. split; [|lia]. eapply leaves_weaken; [apply next_leaves|].
  cbn [Nat.sub]. lia.
Qed.

Lemma next_any p : leaves self (remaining p) (next p).
Proof. eapply leaves_weaken; [apply next_leaves|]. unfold remaining. lia. Qed.

Lemma is_word_token p w : is_word p w = true -> token p <> End.
Proof. unfold is_word. now destruct (token p). Qed.
Lemma punct_token p c : punct p c = true -> token p <> End.
Proof. unfold punct. now destruct (token p). Qed.

Lemma take_token_leaves c p : leaves self (remaining p - 1) (take_token c p).
Proof.
  unfold take_token. destruct (punct p c) eqn:E; [|reflexivity]. apply punct_token in E. now apply next_word_leaves.
Qed.
Lemma take_token_any c p : leaves self (remaining p) (take_token c p).
Proof. eapply leaves_weaken; [apply take_token_leaves|lia]. Qed.

Lemma alloc_leaves n p : leaves self (remaining p) (alloc n p).
Proof. unfold alloc. destruct (mallocs n (heap p)); [cbn; unfold remaining; cbn; lia|reflexivity]. Qed.

Lemma strings_loop_leaves fuel l items p : (remaining p < fuel)%nat -> leaves snd (remaining p) (strings_loop fuel l items p).
Proof.
  revert items p. induction fuel as [|fuel IH]; intros items p Hf; [lia|]. cbn [strings_loop].
  destruct (token p) as [|c|w|v] eqn:Et; try reflexivity. destruct (_ =? _); [reflexivity|].
  assert (Hp : (1 <= remaining p)%nat) by (unfold remaining; rewrite Et; lia).
  unfold alloc. destruct (mallocs 2 (heap p)) as [h|]; [|reflexivity]. cbn [mbind res_bind].
  set (q := set_heap h p). change (remaining p) with (remaining q) in *.
  eapply (tokens_bind self); [apply (next_word_leaves q); unfold q, set_heap, set_lex; cbn; now rewrite Et|].
  intros p1 H1. destruct (negb l); [leaf|]. destruct (punct p1 _).
  { eapply (tokens_bind self); [apply next_any|]. intros p2 H2. leaf. }
  eapply (tokens_bind self); [apply take_token_any|]. intros p2 H2. eapply leaves_weaken; [apply IH; leaf|leaf].
Qed.

Lemma strings_leaves p : leaves snd (remaining p) (strings p).
Proof.
  unfold strings. eapply (tokens_bind self (A:=sparser)).
  - destruct (punct p _); [apply next_any|cbn; lia].
  - intros p1 H1. eapply leaves_weaken; [apply strings_loop_leaves|exact H1]. unfold fuel_of, remaining. destruct (token p1); lia.
Qed.

Lemma mapping_is_leaves m lg k p : leaves snd (remaining p) (mapping_is profile m lg k p).
Proof. unfold mapping_is. destruct (mapped _ _ _ _) as [[v h]|]; [cbn; unfold remaining; cbn; lia|reflexivity]. Qed.

Lemma unmap_loop_leaves m keys r p : leaves snd (remaining p) (unmap_loop profile m keys r p).
Proof.
  revert r p. induction keys as [|k keys IH]; intros r p; cbn [unmap_loop]; [leaf|].
  eapply (tokens_bind snd); [apply mapping_is_leaves|]. intros [yes p1] H1. cbn [snd] in H1. destruct yes.
  - destruct r as [r|]; [destruct (streq r k); [|reflexivity]; eapply leaves_weaken; [apply IH|exact H1]|].
    eapply (tokens_bind self); [apply alloc_leaves|]. intros p2 H2. eapply leaves_weaken; [apply IH|leaf].
  - eapply leaves_weaken; [apply IH|exact H1].
Qed.

Lemma unmap_leaves m p : leaves snd (remaining p) (unmap profile m p).
Proof.
  unfold unmap. eapply (tokens_bind snd); [apply unmap_loop_leaves|]. intros [r p1] H1. cbn [snd] in H1.
  destruct (_ || _); [destruct r; [exact H1|reflexivity]|]. destruct (_ && _); [destruct r; [exact H1|reflexivity]|].
  destruct (adds _ _) as [[b h]|]; [|reflexivity]. destruct r as [r|]; [|exact H1].
  destruct (mapped _ _ _ _) as [[i h']|]; [|reflexivity]. destruct (_ && _); [reflexivity|exact H1].
Qed.

Lemma record_rule_leaves st sel key dest p : leaves self (remaining p) (record_rule st sel key dest p).
Proof.
  unfold record_rule. destruct (_ <? _); [reflexivity|]. eapply (tokens_bind self); [apply alloc_leaves|]. intros p1 H1.
  destruct (record_text _ _ _ _ _ _) as [[b h]|]; [exact H1|reflexivity].
Qed.

Lemma contact_records_leaves st l p : leaves self (remaining p) (contact_records st l p).
Proof.
  revert p. induction l as [|[f key] l IH]; intros p; cbn [contact_records]; [leaf|].
  eapply (tokens_bind self); [apply alloc_leaves|]. intros p1 H1.
  eapply (tokens_bind self); [apply record_rule_leaves|]. intros p2 H2. eapply leaves_weaken; [apply IH|leaf].
Qed.

Lemma contact_leaves st raw p : leaves self (remaining p) (contact st raw p).
Proof.
  unfold contact. destruct (adds _ _) as [[b h]|]; [|reflexivity]. destruct (jf_headers_parse _ _) as [hd|]; [|reflexivity].
  destruct (_ =? _)%nat; [reflexivity|]. apply (contact_records_leaves st _ (set_heap (h_requests hd) p)).
Qed.

Lemma action_leaves p : leaves snd (remaining p) (action_command profile p).
Proof.
  unfold action_command. destruct (negb _); [reflexivity|]. eapply (tokens_bind self); [apply next_any|]. intros p1 H1.
  eapply (tokens_bind self (A:=sparser) _ (remaining p)).
  { destruct (is_word p1 _); [eapply leaves_weaken; [apply next_any|exact H1]|exact H1]. }
  intros p2 H2. destruct (token p2) as [| | |[|c v]]; try reflexivity.
  eapply (tokens_bind self); [apply alloc_leaves|]. intros p3 H3. destruct (negb _); [reflexivity|].
  eapply (tokens_bind self); [apply next_any|]. intros p4 H4. change (remaining (use 1 p3)) with (remaining p3) in H4.
  eapply (tokens_bind self); [apply take_token_any|]. intros p5 H5. leaf.
Qed.

Lemma test_tags_leaves fuel t p : (remaining p < fuel)%nat -> leaves snd (remaining p) (test_tags fuel t p).
Proof.
  revert t p. induction fuel as [|fuel IH]; intros t p Hf; [lia|]. cbn [test_tags].
  destruct (is_tag p) eqn:Et; cbn [negb]; [|leaf].
  assert (Hp : token p <> End) by (unfold is_tag in Et; now destruct (token p)).
  assert (Hnext : forall q t', token q = token p -> rest q = rest p ->
    leaves snd (remaining p) (p ← next q; test_tags fuel t' p)).
  { intros q t' Hq Hr. assert (Er : remaining q = remaining p) by (unfold remaining; now rewrite Hq, Hr).
    destruct (next_word_leaves q ltac:(now rewrite Hq)) as [Hn H1]. rewrite Er in *.
    eapply (tokens_bind self); [exact Hn|]. intros p1 H2. eapply leaves_weaken; [apply IH; leaf|leaf]. }
  destruct (_ || _); [destruct (negb _); [reflexivity|now apply Hnext]|].
  destruct (_ || _); [destruct (negb _); [reflexivity|]; destruct (_ =? 3); now apply Hnext|].
  destruct (is_word p _); [|reflexivity]. destruct (comparator t); [reflexivity|].
  destruct (next_word_leaves p Hp) as [Hn H1]. eapply (tokens_bind self); [exact Hn|]. intros p1 H2.
  destruct (token p1) as [| | |v]; try reflexivity. destruct (negb _); [reflexivity|].
  eapply (tokens_bind self); [apply next_any|]. intros p2 H3. eapply leaves_weaken; [apply IH; leaf|leaf].
Qed.

Lemma field_mask_status l mask p : policy_status (field_mask l mask p).
Proof.
  revert mask. induction l as [|f l IH]; intros mask; cbn [field_mask]; [exact I|]. destruct (_ || _); [reflexivity|apply IH].
Qed.

Lemma legacy_rule_stage_leaves mask m p : leaves snd (remaining p) (legacy_rule_stage profile mask m p).
Proof.
  unfold legacy_rule_stage.
  assert (H : forall lg k (y n : Z), leaves snd (remaining p)
    ('(b, p) ← mapping_is profile m (str lg) k p; Ok (if (b : bool) then y else n, p))).
  { intros lg k y n. eapply (tokens_bind snd); [apply mapping_is_leaves|]. intros [b p1] H1. exact H1. }
  repeat (destruct (_ =? _); [apply H|]). cbn. lia.
Qed.

Lemma rule_keys_leaves a st t dest keys p : leaves self (remaining p) (rule_keys legacy_script a st t dest keys p).
Proof.
  revert p. induction keys as [|key keys IH]; intros p; cbn [rule_keys]; [leaf|].
  eapply (tokens_bind self).
  - destruct legacy_script.
    + destruct (negb _); [reflexivity|]. destruct (contact_stage st); [apply contact_leaves|apply record_rule_leaves].
    + destruct (_ || _); [reflexivity|]. destruct (rule_selector _ _ _); [apply record_rule_leaves|reflexivity].
  - intros p1 H1. eapply leaves_weaken; [apply IH|exact H1].
Qed.

Lemma builtin_rule_leaves a st mask t keys m p : leaves self (remaining p) (Import.builtin_rule profile a st mask t keys m p).
Proof.
  unfold Import.builtin_rule. destruct keys as [|key [|]]; try reflexivity.
  match goal with |- leaves _ _ (if ?b then _ else _) => destruct b end; [reflexivity|].
  eapply (tokens_bind snd); [apply mapping_is_leaves|]. intros [yes p1] H1. cbn [snd] in H1. destruct (negb yes); [reflexivity|].
  destruct (st =? 2); (destruct (negb _); [reflexivity|exact H1]).
Qed.

Lemma plain_rule_leaves a st mask t keys m p : leaves self (remaining p) (plain_rule legacy_script profile a st mask t keys m p).
Proof.
  unfold plain_rule. match goal with |- leaves _ _ (if ?b then _ else _) => destruct b end; [reflexivity|].
  eapply (tokens_bind snd (A:=option bytes * sparser) _ (remaining p)).
  - destruct (contact_stage st).
    + eapply (tokens_bind snd); [apply mapping_is_leaves|]. intros [yes p1] H1. destruct yes; [exact H1|reflexivity].
    + eapply (tokens_bind snd); [apply unmap_leaves|]. intros [d p1] H1. exact H1.
  - intros [d p1] H1. eapply leaves_weaken; [apply rule_keys_leaves|exact H1].
Qed.

Lemma rule_command_leaves st leg p : leaves snd (remaining p - 1) (rule_command legacy_script profile st leg p).
Proof.
  unfold rule_command. set (q := set_rule_line (token_line p) p). change (remaining p) with (remaining q).
  destruct (is_word q _) eqn:Eq; cbn [negb]; [|reflexivity]. apply is_word_token in Eq.
  destruct (next_word_leaves q Eq) as [Hn _]. set (n := (remaining q - 1)%nat) in *.
  eapply (tokens_bind self); [exact Hn|]. intros p1 H1. cbv beta in H1. destruct (_ && _); [reflexivity|].
  eapply (tokens_bind self); [apply next_any|]. intros p2 H2. cbv beta in H2.
  eapply (tokens_bind snd); [apply test_tags_leaves; unfold fuel_of, remaining; destruct (token p2); lia|]. intros [t p3] H3. cbn [snd] in H3.
  destruct (_ && _); [reflexivity|].
  eapply (tokens_bind snd); [apply strings_leaves|]. intros [fs p4] H4. cbn [snd] in H4.
  eapply (tokens_bind snd); [apply strings_leaves|]. intros [ks p5] H5. cbn [snd] in H5.
  pose proof (field_mask_status fs 0 p5) as Hm. destruct (field_mask fs 0 p5) as [mask|rc e]; [|exact Hm]. cbn [mbind res_bind]. clear Hm.
  eapply (tokens_bind self); [apply take_token_any|]. intros p6 H6. cbv beta in H6.
  eapply (tokens_bind snd); [apply action_leaves|]. intros [m p7] H7. cbn [snd] in H7. destruct (negb _); [reflexivity|].
  eapply (tokens_bind self); [apply next_any|]. intros p8 H8. cbv beta in H8.
  eapply (tokens_bind self); [apply take_token_any|]. intros p9 H9. cbv beta in H9.
  eapply (tokens_bind self); [apply take_token_any|]. intros p10 H10. cbv beta in H10.
  eapply (tokens_bind snd (A:=Z * Z * sparser) _ n).
  - destruct legacy_script; [|unfold leaves; cbn [snd]; lia].
    match goal with |- leaves _ _ (if ?b then _ else _) => destruct b end; [reflexivity|].
    eapply (tokens_bind snd); [apply legacy_rule_stage_leaves|]. intros [st' p11] H11. cbn [snd] in H11.
    match goal with |- leaves _ _ (if ?b then _ else _) => destruct b end; [reflexivity|]. leaf.
  - intros [[st' leg'] p11] H11. cbn [snd] in H11. eapply (tokens_bind self (A:=sparser) _ n).
    + destruct (_ || _); (eapply leaves_weaken; [first [apply builtin_rule_leaves|apply plain_rule_leaves]|exact H11]).
    + intros p12 H12. exact H12.
Qed.

Lemma rule_loop_leaves fuel st leg p : (remaining p < fuel)%nat -> leaves snd (remaining p) (rule_loop legacy_script profile fuel st leg p).
Proof.
  revert leg p. induction fuel as [|fuel IH]; intros leg p Hf; [lia|]. cbn [rule_loop].
  destruct (is_word p _) eqn:Ew; [|leaf]. apply is_word_token in Ew. destruct (next_word_leaves p Ew) as [_ H0].
  eapply (tokens_bind snd); [apply rule_command_leaves|]. intros [leg' p1] H1. cbn [snd] in H1.
  eapply leaves_weaken; [apply IH; leaf|leaf].
Qed.

Lemma rule_block_leaves st leg p : leaves snd (remaining p) (rule_block legacy_script profile st leg p).
Proof. apply rule_loop_leaves. unfold fuel_of, remaining. destruct (token p); lia. Qed.

Lemma stage_header_leaves p : leaves self (remaining p) (stage_header p).
Proof.
  unfold stage_header. destruct (negb _); [reflexivity|]. eapply (tokens_bind self); [apply next_any|]. intros p1 H1.
  destruct (negb _); [reflexivity|]. eapply (tokens_bind self); [apply next_any|]. intros p2 H2.
  eapply leaves_weaken; [apply take_token_any|leaf].
Qed.

Lemma stage_blocks_leaves n st leg p : leaves self (remaining p) (stage_blocks legacy_script profile n st leg p).
Proof.
  revert st leg p. induction n as [|n IH]; intros st leg p; cbn [stage_blocks]; [leaf|].
  eapply (tokens_bind self); [apply stage_header_leaves|]. intros p1 H1.
  eapply (tokens_bind snd); [apply rule_block_leaves|]. intros [leg' p2] H2. cbn [snd] in H2.
  eapply (tokens_bind self); [apply take_token_any|]. intros p3 H3. eapply leaves_weaken; [apply IH|leaf].
Qed.

Lemma require_names_leaves l p : leaves self (remaining p) (require_names legacy_script profile l p).
Proof.
  revert p. induction l as [|x l IH]; intros p; cbn [require_names]; [leaf|]. destruct (_ || _); [reflexivity|].
  apply (IH (set_capabilities _ p)).
Qed.

Lemma require_command_leaves p : leaves self (remaining p) (require_command legacy_script profile p).
Proof.
  unfold require_command. destruct (is_word p _); [|leaf]. eapply (tokens_bind self); [apply next_any|]. intros p1 H1.
  eapply (tokens_bind snd); [apply strings_leaves|]. intros [ns p2] H2. cbn [snd] in H2.
  eapply (tokens_bind self); [apply take_token_any|]. intros p3 H3. eapply leaves_weaken; [apply require_names_leaves|leaf].
Qed.

Lemma script_leaves p : leaves self (remaining p) (script legacy_script profile p).
Proof.
  unfold script. eapply (tokens_bind self); [apply next_any|]. intros p1 H1.
  eapply (tokens_bind self); [apply require_command_leaves|]. intros p2 H2.
  eapply (tokens_bind self (A:=sparser) _ (remaining p2)).
  - pose proof (stage_blocks_leaves 7 1 0 p2) as Hb. pose proof (rule_block_leaves 0 0 p2) as Hr. destruct legacy_script; [|exact Hb].
    eapply (tokens_bind snd); [exact Hr|]. intros [leg p3] H3. exact H3.
  - intros p3 H3. eapply (tokens_bind snd); [apply action_leaves|]. intros [m p4] H4. cbn [snd] in H4.
    eapply (tokens_bind snd); [apply mapping_is_leaves|]. intros [yes p5] H5. cbn [snd] in H5.
    match goal with |- leaves _ _ (if ?b then _ else _) => destruct b end; [reflexivity|].
    match goal with |- leaves _ _ (if ?b then _ else _) => destruct b end; [reflexivity|]. leaf.
Qed.
End Leaves.

(** C40. The import of every script ends.  Each loop of the reader, over the tags
    of a test, the strings of a list and the rules of a block, consumes tokens,
    so it stops within the tokens there are, on scripts of any form and with any
    heap: the result is a policy or a failure with a status of the code, 3
    exactly when memory was refused and 4 otherwise. *)
Theorem import_terminates `{HP : Heap} `{RX : PosixRegex} legacy_script profile input h :
  policy_status (jf_sieve_import legacy_script profile input h).
Proof.
  unfold jf_sieve_import. destruct (_ || _); [reflexivity|].
  pose proof (script_leaves legacy_script profile (empty_script input h)) as Hs.
  destruct (script _ _ _) as [p|rc e]; cbn [mbind res_bind]; [|exact Hs].
  pose proof (policy_parse_status (AL := fun n => malloc_ok (heap p + n)%nat) (View (import_sources p))) as Hp.
  destruct (jf_policy_parse _) as [pol|rc e].
  - match goal with |- policy_status (if ?b then _ else _) => destruct b end; [reflexivity|exact I].
  - cbn in *. rewrite Hp. unfold relocate_error. destruct (_ && _); [|reflexivity]. now destruct (script_line _ _ _).
Qed.

(** ** The inverse of the mailbox mapping *)

Section Unmap.
Context `{HP : Heap} (profile : jf_profile) (mailbox : bytes).
Context (Hprefix : cstr_ok (p_prefix profile)) (Hsep : cstr_ok (p_separator profile)).
Context (Hnames : Forall (fun m => cstr_ok (m_logical m)) (mappings profile)).

(** The name is delivered to the mailbox. *)
Definition maps_back (name : bytes) : Prop := mailbox_text profile (blank_rule name JF_ADDRESS) = mailbox.

(** The names with a mailbox of their own. *)
Definition reserved : list bytes := map m_logical (mappings profile) ++ [str "known"].

Lemma mapping_is_true lg p p' : cstr_ok lg -> mapping_is profile mailbox lg JF_ADDRESS p = Ok (true, p') -> maps_back lg.
Proof.
  intros Hl. unfold mapping_is, mapped, maps_back. destruct (jf_profile_mailbox _ _ _) as [[v h]|] eqn:E; [|discriminate].
  intros [= Hv _]. apply profile_mailbox_Some in E as <-; auto. now apply streq_spec.
Qed.

Lemma unmap_loop_back keys r p r' p' : Forall cstr_ok keys -> unmap_loop profile mailbox keys r p = Ok (r', p') ->
  (forall k, r = Some k -> maps_back k) -> forall k, r' = Some k -> maps_back k.
Proof.
  intros Hk. revert r p. induction Hk as [|key keys Hkey Hk IH]; intros r p; cbn [unmap_loop]; [intros [= <- _]; auto|].
  destruct (mapping_is profile mailbox key JF_ADDRESS p) as [[yes p1]|] eqn:E; [|discriminate]. cbn [mbind res_bind].
  destruct yes; [|intros H Hr; exact (IH r p1 H Hr)]. apply mapping_is_true in E; [|assumption].
  destruct r as [r|]; [destruct (streq r key); [intros H Hr; exact (IH (Some r) p1 H Hr)|discriminate]|].
  destruct (alloc 1 p1) as [p2|]; [|discriminate]. cbn [mbind res_bind]. intros H _. apply (IH (Some key) p2 H). now intros k [= <-].
Qed.

(** The name found is a key. *)
Lemma unmap_loop_key keys r p r' p' : unmap_loop profile mailbox keys r p = Ok (r', p') ->
  forall k, r' = Some k -> r <> Some k -> k ∈ keys.
Proof.
  revert r p. induction keys as [|key keys IH]; intros r p; cbn [unmap_loop].
  { intros H k E Hr. injection H as <- _. easy. }
  destruct (mapping_is profile mailbox key JF_ADDRESS p) as [[yes p1]|]; [|discriminate]. cbn [mbind res_bind].
  destruct yes; [|intros H k E Hr; right; exact (IH _ _ H k E Hr)].
  destruct r as [r|]; [destruct (streq r key); [intros H k E Hr; right; exact (IH _ _ H k E Hr)|discriminate]|].
  destruct (alloc 1 p1) as [p2|]; [|discriminate]. cbn [mbind res_bind]. intros H k E _.
  destruct (decide (k = key)) as [->|Hne]; [left|]. right. apply (IH _ _ H k E). congruence.
Qed.

(** A key keeps the name found before it, and every key that maps back is the name. *)
Lemma mapping_is_spec lg p yes p' : cstr_ok lg -> mapping_is profile mailbox lg JF_ADDRESS p = Ok (yes, p') -> yes = true <-> maps_back lg.
Proof.
  intros Hl. unfold mapping_is, mapped, maps_back. destruct (jf_profile_mailbox _ _ _) as [[v h]|] eqn:E; [|discriminate].
  intros H. injection H as <- _. apply profile_mailbox_Some in E as <-; auto. apply streq_spec.
Qed.

Lemma unmap_loop_unique keys r p r' p' : Forall cstr_ok keys -> unmap_loop profile mailbox keys r p = Ok (r', p') ->
  (forall k, r = Some k -> r' = Some k) /\ (forall k, k ∈ keys -> maps_back k -> r' = Some k).
Proof.
  intros Hk. revert r p. induction Hk as [|key keys Hkey Hk IH]; intros r p; cbn [unmap_loop].
  { intros H. injection H as <- _. split; [auto|]. intros k Hin. now apply not_elem_of_nil in Hin. }
  destruct (mapping_is profile mailbox key JF_ADDRESS p) as [[yes p1]|] eqn:E; [|discriminate]. cbn [mbind res_bind].
  apply mapping_is_spec in E; [|assumption]. destruct yes.
  - assert (forall p2, unmap_loop profile mailbox keys (Some key) p2 = Ok (r', p') ->
      r' = Some key /\ forall k, k ∈ key :: keys -> maps_back k -> r' = Some k) as HK.
    { intros p2 H. apply IH in H as [H1 H2]. split; [now apply H1|]. intros k Hin. apply elem_of_cons in Hin as [->|Hin]; [intros _; now apply H1|now apply H2]. }
    destruct r as [r|].
    + destruct (streq r key) eqn:Es; [|discriminate]. apply streq_spec in Es as ->. intros H. apply HK in H as [H1 H2].
      split; [intros k Ek; now injection Ek as <-|exact H2].
    + destruct (alloc 1 p1) as [p2|]; [|discriminate]. cbn [mbind res_bind]. intros H. apply HK in H as [H1 H2]. split; [discriminate|exact H2].
  - intros H. apply IH in H as [H1 H2]. split; [exact H1|]. intros k Hin Hm. apply elem_of_cons in Hin as [->|Hin]; [|now apply H2].
    apply E in Hm. discriminate Hm.
Qed.

Lemma reserved_cstr : Forall cstr_ok reserved.
Proof.
  unfold reserved. apply Forall_app. split; [now apply Forall_map|]. apply Forall_singleton. repeat constructor; lia.
Qed.

(** A slash is its own separator; another separator that does not occur changes nothing. *)
Lemma slashes_slash n s : (length s <= n)%nat -> concat (slashes n (str "/") s) = s.
Proof.
  revert s. induction n as [|n IH]; intros [|c s] Hn; cbn [slashes length] in *; try easy.
  destruct (has_prefix (str "/") (c :: s)) eqn:E.
  - apply has_prefix_spec in E as [t E]. injection E as -> <-. cbn [concat app]. f_equal. cbn [drop length]. apply IH. lia.
  - cbn [concat app]. f_equal. apply IH. lia.
Qed.

Lemma slashes_none n sep s : (length s <= n)%nat -> contains sep s = false -> concat (slashes n sep s) = s.
Proof.
  revert s. induction n as [|n IH]; intros [|c s] Hn Hc; cbn [slashes length contains] in *; try easy.
  apply orb_false_iff in Hc as [-> Hc]. cbn [concat app]. f_equal. apply IH; [lia|assumption].
Qed.

Lemma separated_slash s : concat (separated (str "/") s) = s.
Proof. unfold separated. induction s as [|c s IH]; cbn [map concat]; [reflexivity|]. rewrite IH. now destruct (Z.eqb_spec c (ch "/")) as [->|]. Qed.

Lemma separated_none sep s : ch "/" ∉ s -> concat (separated sep s) = s.
Proof.
  unfold separated. induction s as [|c s IH]; cbn [map concat]; [reflexivity|]. rewrite not_elem_of_cons. intros [H1 H2]. rewrite IH by assumption.
  now destruct (Z.eqb_spec c (ch "/")) as [->|].
Qed.

(** A name read off the path, unless it has a mailbox of its own. *)
Lemma path_back s : cstr_ok s -> mailbox = p_prefix profile ++ s -> p_separator profile = str "/" \/ ch "/" ∉ s ->
  s ∉ reserved -> maps_back s.
Proof.
  intros Hs Hmb Hor Hn. unfold maps_back, mailbox_text. cbn [logical kind blank_rule].
  destruct (List.find _ _) as [m|] eqn:Ef.
  { apply List.find_some in Ef as [Hin E]. apply streq_spec in E. destruct Hn. unfold reserved. rewrite elem_of_app. left.
    rewrite <- E. apply list_elem_of_fmap. exists m. split; [reflexivity|]. now apply list_elem_of_In. }
  destruct (streq s (str "known")) eqn:Ek.
  { apply streq_spec in Ek. destruct Hn. unfold reserved. rewrite elem_of_app. right. subst s. constructor. }
  rewrite bool_decide_false, Hmb by discriminate. f_equal. destruct Hor as [->|Hslash]; [apply separated_slash|now apply separated_none].
Qed.
End Unmap.

(** The names an import considers for a mailbox: the reserved ones, and the path
    below the prefix, unless a separator other than the slash occurs in it. *)
Definition read_off (profile : jf_profile) (mailbox n : bytes) : Prop :=
  mailbox = p_prefix profile ++ n /\ p_separator profile <> [] /\ (p_separator profile = str "/" \/ contains (p_separator profile) n = false).
Definition candidate (profile : jf_profile) (mailbox n : bytes) : Prop := n ∈ reserved profile \/ read_off profile mailbox n.

(** What [unmap] does after the loop over the configured names. *)
Lemma unmap_cases `{HP : Heap} profile mailbox p name p' : cstr_ok mailbox -> unmap profile mailbox p = Ok (name, p') ->
  exists r p1, unmap_loop profile mailbox (reserved profile) None p = Ok (r, p1) /\
  match r with
  | Some r => r = name /\ forall n, read_off profile mailbox n -> exists h v h', mapped profile n JF_ADDRESS h = Some (v, h') /\ (v = mailbox -> n = name)
  | None => read_off profile mailbox name
  end.
Proof.
  intros Hb. unfold unmap. fold (reserved profile).
  destruct (unmap_loop profile mailbox (reserved profile) None p) as [[r p1]|] eqn:El; [|discriminate]. cbn [mbind res_bind].
  intros H. exists r, p1. split; [reflexivity|]. revert H.
  destruct (_ || _) eqn:E1.
  { destruct r as [r|]; [|discriminate]. intros H. injection H as <- _. split; [reflexivity|]. intros n (E & Hs & _). exfalso.
    apply orb_true_iff in E1 as [E1|E1]; [now destruct (p_separator profile)|]. apply negb_true_iff in E1.
    assert (has_prefix (p_prefix profile) mailbox = true) as E2 by (apply has_prefix_spec; eauto). congruence. }
  apply orb_false_iff in E1 as [E0 E1]. apply negb_false_iff, has_prefix_spec in E1 as [s Es].
  assert (Hsep : p_separator profile <> []) by (intros E; now rewrite E in E0).
  rewrite (eq_trans (f_equal (drop _) Es) (drop_app_length _ _)).
  assert (Hn : forall n, read_off profile mailbox n -> n = s /\ (p_separator profile = str "/" \/ contains (p_separator profile) n = false)).
  { intros n (E & _ & Hc). rewrite Es in E. apply app_inv_head in E. now split. }
  destruct (_ && _) eqn:E2.
  { destruct r as [r|]; [|discriminate]. intros H. injection H as <- _. split; [reflexivity|]. intros n Hr. exfalso. apply Hn in Hr as [-> Hc].
    apply andb_true_iff in E2 as [E2 E3]. apply negb_true_iff, streq_false in E2. destruct Hc; [easy|congruence]. }
  assert (HE : p_separator profile = str "/" \/ contains (p_separator profile) s = false).
  { apply andb_false_iff in E2 as [E2|E2]; [left|now right]. now apply negb_false_iff, streq_spec in E2. }
  assert (Hname : concat (slashes (length s) (p_separator profile) s) = s).
  { destruct HE as [->|HE]; [now apply slashes_slash|now apply slashes_none]. }
  assert (Hcs : cstr_ok s) by (rewrite Es in Hb; now apply Forall_app in Hb as [_ Hb]).
  destruct (adds _ _) as [[b h]|] eqn:Ea; [|discriminate]. apply adds_Some in Ea as [C _]; [|apply no_bytes_wf; discriminate].
  assert (EC : c_string (contents b) = s).
  { rewrite C, concat_app. cbn [contents no_bytes app concat]. now rewrite Hname, c_string_app. }
  cbv zeta. rewrite EC. destruct r as [r|].
  - destruct (mapped _ _ _ _) as [[i h']|] eqn:Em; [|discriminate].
    destruct (streq i mailbox && negb (streq r s)) eqn:Eq; [discriminate|]. intros H. assert (r = name) as <- by congruence.
    split; [reflexivity|]. intros n Hr. apply Hn in Hr as [-> _]. eexists _, i, h'. split; [exact Em|]. intros ->.
    rewrite streq_refl in Eq. cbn [andb] in Eq. now apply negb_false_iff, streq_spec in Eq.
  - intros H. injection H as <- _. now split.
Qed.

(** C34. The name read back for a mailbox is the inverse of the delivery.  It is a
    configured name, [known], or the path of the mailbox below the prefix, and no
    other of these is delivered to the mailbox.  It is itself delivered to the
    mailbox, but for names read off the path while no configured name is: such a
    name may be that of another configured mailbox, or [known], or have a slash
    that is not the separator. *)
Theorem unmap_inverse `{HP : Heap} profile mailbox p name p' :
  cstr_ok (p_prefix profile) -> cstr_ok (p_separator profile) -> Forall (fun m => cstr_ok (m_logical m)) (mappings profile) ->
  cstr_ok mailbox -> unmap profile mailbox p = Ok (name, p') ->
  candidate profile mailbox name /\
  (forall n, candidate profile mailbox n -> maps_back profile mailbox n -> n = name) /\
  (maps_back profile mailbox name \/
   (read_off profile mailbox name /\ Forall (fun k => ~ maps_back profile mailbox k) (reserved profile) /\
    (name ∈ reserved profile \/ (p_separator profile <> str "/" /\ ch "/" ∈ name)))).
Proof.
  intros Hp Hs Hm Hb H. apply unmap_cases in H as (r & p1 & El & H); [|exact Hb].
  pose proof (reserved_cstr profile Hm) as HR.
  destruct (unmap_loop_unique profile mailbox Hp Hs _ _ _ _ _ HR El) as [_ HU].
  pose proof (unmap_loop_back profile mailbox Hp Hs _ _ _ _ _ HR El ltac:(easy)) as HB.
  destruct r as [r|].
  - destruct H as [-> HN]. split_and!; [left|..].
    + exact (unmap_loop_key profile mailbox _ _ _ _ _ El _ eq_refl ltac:(easy)).
    + intros n [Hn|Hn] Hmb; [specialize (HU n Hn Hmb); congruence|]. destruct (HN n Hn) as (h & v & h' & E & HV). apply HV.
      assert (cstr_ok n) as Hcn by (destruct Hn as (En & _); rewrite En in Hb; now apply Forall_app in Hb as [_ Hb]).
      apply profile_mailbox_Some in E; auto. rewrite E. exact Hmb.
    + left. now apply HB.
  - assert (HF : Forall (fun k => ~ maps_back profile mailbox k) (reserved profile)).
    { apply Forall_forall. intros k Hk Hmb. specialize (HU k Hk Hmb). discriminate HU. }
    split_and!; [now right|..].
    + intros n [Hn|(En & _)] Hmb; [exfalso; rewrite Forall_forall in HF; now apply (HF n)|].
      destruct H as (E & _). rewrite E in En. now apply app_inv_head in En.
    + assert (Hcn : cstr_ok name) by (destruct H as (En & _); rewrite En in Hb; now apply Forall_app in Hb as [_ Hb]).
      destruct (decide (name ∈ reserved profile)) as [Hin|Hin]; [right; split_and!; auto|].
      destruct (decide (p_separator profile = str "/")) as [Hsl|Hsl]; [left; apply path_back; auto; apply H|].
      destruct (decide (ch "/" ∈ name)) as [Hin'|Hin']; [right; split_and!; auto|].
      left. apply path_back; auto. apply H.
Qed.

(** ** A script whose import goes elsewhere *)

Definition sample_script (mailbox : string) : bytes :=
  str "require [" ++ [DQ] ++ str "fileinto" ++ [DQ] ++ str "," ++ [DQ] ++ str "mailbox" ++ [DQ] ++ str "]; if true {} if true { if header :contains :comparator " ++
  [DQ] ++ str "i;ascii-casemap" ++ [DQ] ++ [DQ] ++ str "Sender" ++ [DQ] ++ [DQ] ++ str "mailman-bounce" ++ [DQ] ++ str "{ fileinto :create " ++
  [DQ] ++ str "zz.bounces" ++ [DQ] ++ str "; stop; } } if true {} if true { if address :all :is :comparator " ++
  [DQ] ++ str "i;ascii-casemap" ++ [DQ] ++ str "[" ++ [DQ] ++ str "To" ++ [DQ] ++ str "," ++ [DQ] ++ str "Cc" ++ [DQ] ++ str "]" ++ [DQ] ++ str "a@b.c" ++ [DQ] ++
  str " { fileinto :create " ++ [DQ] ++ str mailbox ++ [DQ] ++ str "; stop; } } if true {} if true { if header :is :comparator " ++
  [DQ] ++ str "i;ascii-casemap" ++ [DQ] ++ [DQ] ++ str "X-Spam-Flag" ++ [DQ] ++ [DQ] ++ str "YES" ++ [DQ] ++ str "{ fileinto :create " ++
  [DQ] ++ str "Spam" ++ [DQ] ++ str "; stop; } } if true {} fileinto :create " ++ [DQ] ++ str "unsorted" ++ [DQ] ++ str ";".

Definition plain_profile (sep : bytes) : jf_profile := MkProfile PIGEONHOLE [] sep true true true true [].

(** The mailbox where the imported policy delivers the rule of the script. *)
Definition delivered (profile : jf_profile) (script_ : bytes) : option bytes :=
  match jf_sieve_import (HP := granting) (RX := fixed_strings) false profile script_ 0 with
  | Ok (pol, _) => mailbox_text profile ∘ (fun e => rule e) <$> List.find (fun e => stage (rule e) =? 4) (entries pol)
  | Fail _ _ => None
  end.

(** A mailbox that is not a name of its own comes back. *)
Example import_delivers : delivered (plain_profile (str "/")) (sample_script "lists/work") = Some (str "lists/work").
Proof. vm_compute. reflexivity. Qed.

(** The mailbox [known] is read back as the contacts' destination. *)
Example import_known_diverted : delivered (plain_profile (str "/")) (sample_script "known") = Some (str "INBOX").
Proof. vm_compute. reflexivity. Qed.

(** With another separator a slash becomes that separator. *)
Example import_slash_diverted : delivered (plain_profile (str ".")) (sample_script "lists/work") = Some (str "lists.work").
Proof. vm_compute. reflexivity. Qed.

Lemma unmap_inverse_witness :
  maps_back (plain_profile (str "/")) (str "lists/work") (str "lists/work") \/
  (read_off (plain_profile (str "/")) (str "lists/work") (str "lists/work") /\
   Forall (fun k => ~ maps_back (plain_profile (str "/")) (str "lists/work") k) (reserved (plain_profile (str "/"))) /\
   (str "lists/work" ∈ reserved (plain_profile (str "/")) \/ (str "/" <> str "/" /\ ch "/" ∈ str "lists/work"))).
Proof.
  destruct (unmap (HP := granting) (plain_profile (str "/")) (str "lists/work") (empty_script [] 0)) as [[n p']|rc e] eqn:E; [|vm_compute in E; discriminate].
  assert (n = str "lists/work") as -> by (vm_compute in E; injection E as <- _; reflexivity).
  apply (unmap_inverse (HP := granting) (plain_profile (str "/")) (str "lists/work") (empty_script [] 0) _ p');
    [vm_compute; repeat constructor..|exact E].
Defined.
