(* ===== verification/Storage.v ===== *)
(** * Moving messages between Maildirs (src/filter/storage.c)

    The batch lock, the directories the engine creates, the verified copy of a
    message and the move with its recovery, as programs over system calls.  The
    kernel, the other clients of the file system and the memory are one oracle:
    it answers each call from all calls before it, so a theorem about every
    oracle is about every interleaving with other processes and every failure.
    This is the build for Linux without the test hooks. *)
From S2P Require Import Prelude Sha256.

Record stat := MkStat {
  st_dev : Z; st_ino : Z; st_size : Z; mtim_sec : Z; mtim_nsec : Z; ctim_sec : Z; ctim_nsec : Z;
  st_reg : bool; st_perm : Z; st_nlink : Z; st_uid : Z }.
Definition zero_stat : stat := MkStat 0 0 0 0 0 0 0 false 0 0 0.

(** How [openat] opens: a directory, the lock file, a new file. *)
Inductive how := Directory | LockFile | NewFile.

(** A call with its arguments and its answer; descriptors that are not open and
    failed calls are [None] or an [errno]. *)
Inductive event :=
  | Alloc (ok : bool)
  | Stop (b : bool)
  | Allowed (cur new : Z) (b : bool)
  | Open (path : bytes) (r : option Z)
  | Openat (fd : Z) (name : bytes) (h : how) (r : option Z)
  | Dup (fd : Z) (r : option Z)
  | Close (fd : Z) (ok : bool)
  | Mkdirat (fd : Z) (name : bytes) (r : option errno)
  | Fstat (fd : Z) (r : option stat)
  | Fstatat (fd : Z) (name : bytes) (r : option stat)
  | Fsync (fd : Z) (ok : bool)
  | Setlk (fd : Z) (r : option errno)
  | Read (fd : Z) (n : nat) (r : errno + bytes)
  | Pread (fd : Z) (n : nat) (off : Z) (r : errno + bytes)
  | Write (fd : Z) (data : bytes) (r : errno + nat)
  | Linkat (fd : Z) (name : bytes) (fd' : Z) (name' : bytes) (r : option errno)
  | Renameat (fd : Z) (name : bytes) (fd' : Z) (name' : bytes) (ok : bool)
  | Renameat2 (fd : Z) (name : bytes) (fd' : Z) (name' : bytes) (r : option errno)
  | Unlinkat (fd : Z) (name : bytes) (ok : bool)
  | Rmdirat (fd : Z) (name : bytes) (ok : bool)
  | NameMax (fd : Z) (r : errno + option Z)
  | Geteuid (uid : Z).

(** The calls made, the latest first. *)
Abbreviation trace := (list event).

Class System := {
  on_alloc : trace -> bool;
  on_stop : trace -> bool;
  on_allowed : trace -> Z -> Z -> bool;
  on_open : trace -> bytes -> option Z;
  on_openat : trace -> Z -> bytes -> how -> option Z;
  on_dup : trace -> Z -> option Z;
  on_close : trace -> Z -> bool;
  on_mkdirat : trace -> Z -> bytes -> option errno;
  on_fstat : trace -> Z -> option stat;
  on_fstatat : trace -> Z -> bytes -> option stat;
  on_fsync : trace -> Z -> bool;
  on_setlk : trace -> Z -> option errno;
  on_read : trace -> Z -> nat -> errno + bytes;
  on_pread : trace -> Z -> nat -> Z -> errno + bytes;
  on_write : trace -> Z -> bytes -> errno + nat;
  on_linkat : trace -> Z -> bytes -> Z -> bytes -> option errno;
  on_renameat : trace -> Z -> bytes -> Z -> bytes -> bool;
  on_renameat2 : trace -> Z -> bytes -> Z -> bytes -> option errno;
  on_unlinkat : trace -> Z -> bytes -> bool;
  on_rmdirat : trace -> Z -> bytes -> bool;
  on_name_max : trace -> Z -> errno + option Z;
  on_geteuid : trace -> Z }.

(** A program over calls; [None] only when a loop used up its fuel. *)
Definition io (A : Type) : Type := trace -> option A * trace.
#[export] Instance io_ret : MRet io := fun A a t => (Some a, t).
#[export] Instance io_bind : MBind io := fun A B f m t =>
  match m t with (Some a, t') => f a t' | (None, t') => (None, t') end.
Definition stuck {A} : io A := fun t => (None, t).

Section Calls.
Context `{SY : System}.
Definition alloc : io bool := fun t => let r := on_alloc t in (Some r, Alloc r :: t).
Definition stop_requested : io bool := fun t => let r := on_stop t in (Some r, Stop r :: t).
Definition destination_allowed (cur new : Z) : io bool := fun t => let r := on_allowed t cur new in (Some r, Allowed cur new r :: t).
Definition open (path : bytes) : io (option Z) := fun t => let r := on_open t path in (Some r, Open path r :: t).
Definition openat (fd : Z) (name : bytes) (h : how) : io (option Z) := fun t =>
  let r := on_openat t fd name h in (Some r, Openat fd name h r :: t).
Definition dup (fd : Z) : io (option Z) := fun t => let r := on_dup t fd in (Some r, Dup fd r :: t).
Definition close (fd : Z) : io bool := fun t => let r := on_close t fd in (Some r, Close fd r :: t).
Definition mkdirat (fd : Z) (name : bytes) : io (option errno) := fun t =>
  let r := on_mkdirat t fd name in (Some r, Mkdirat fd name r :: t).
Definition fstat (fd : Z) : io (option stat) := fun t => let r := on_fstat t fd in (Some r, Fstat fd r :: t).
Definition fstatat (fd : Z) (name : bytes) : io (option stat) := fun t =>
  let r := on_fstatat t fd name in (Some r, Fstatat fd name r :: t).
(** [syncfd], whose hook is the test build's. *)
Definition syncfd (fd : Z) : io bool := fun t => let r := on_fsync t fd in (Some r, Fsync fd r :: t).
Definition setlk (fd : Z) : io (option errno) := fun t => let r := on_setlk t fd in (Some r, Setlk fd r :: t).
(** A read gives at most the bytes asked for, a write takes at most those given. *)
Definition read (fd : Z) (n : nat) : io (errno + bytes) := fun t =>
  let r := match on_read t fd n with inr d => inr (take n d) | inl e => inl e end in (Some r, Read fd n r :: t).
Definition pread (fd : Z) (n : nat) (off : Z) : io (errno + bytes) := fun t =>
  let r := match on_pread t fd n off with inr d => inr (take n d) | inl e => inl e end in (Some r, Pread fd n off r :: t).
Definition write (fd : Z) (data : bytes) : io (errno + nat) := fun t =>
  let r := match on_write t fd data with inr n => inr (Nat.min n (length data)) | inl e => inl e end in
  (Some r, Write fd data r :: t).
Definition linkat (fd : Z) (name : bytes) (fd' : Z) (name' : bytes) : io (option errno) := fun t =>
  let r := on_linkat t fd name fd' name' in (Some r, Linkat fd name fd' name' r :: t).
Definition renameat (fd : Z) (name : bytes) (fd' : Z) (name' : bytes) : io bool := fun t =>
  let r := on_renameat t fd name fd' name' in (Some r, Renameat fd name fd' name' r :: t).
Definition renameat2 (fd : Z) (name : bytes) (fd' : Z) (name' : bytes) : io (option errno) := fun t =>
  let r := on_renameat2 t fd name fd' name' in (Some r, Renameat2 fd name fd' name' r :: t).
Definition unlinkat (fd : Z) (name : bytes) : io bool := fun t =>
  let r := on_unlinkat t fd name in (Some r, Unlinkat fd name r :: t).
Definition rmdirat (fd : Z) (name : bytes) : io bool := fun t =>
  let r := on_rmdirat t fd name in (Some r, Rmdirat fd name r :: t).
Definition name_max (fd : Z) : io (errno + option Z) := fun t => let r := on_name_max t fd in (Some r, NameMax fd r :: t).
Definition geteuid : io Z := fun t => let r := on_geteuid t in (Some r, Geteuid r :: t).
End Calls.

(** ** Identities *)

Definition inode (a b : stat) : bool := (st_dev a =? st_dev b) && (st_ino a =? st_ino b).

Definition jf_storage_same (a b : stat) : bool :=
  (st_dev a =? st_dev b) && (st_ino a =? st_ino b) && (st_size a =? st_size b) &&
  (mtim_sec a =? mtim_sec b) && (mtim_nsec a =? mtim_nsec b) &&
  (ctim_sec a =? ctim_sec b) && (ctim_nsec a =? ctim_nsec b).

Definition bytes_identity (a b : stat) : bool :=
  inode a b && (st_size a =? st_size b) && (mtim_sec a =? mtim_sec b) && (mtim_nsec a =? mtim_nsec b).

Definition RETRIES : nat := 64.
Definition COPY_CHUNK : Z := 65536.

(** What [stopped] consults. *)
Inductive stop_source := ShouldStop | Interrupted | NoStop.

Record jf_storage := MkStorage {
  root : option Z; engine : option Z; lock : option Z; random : option Z;
  root_identity : stat; lock_identity : stat; nonce : bytes; sequence : Z;
  stop : stop_source; root_path : bytes; has_allowed : bool; borrowed : bool }.

Record owned_directory := MkOwned {
  o_fd : option Z; o_parent : Z; o_created : bool; o_name : bytes; o_identity : stat }.
Definition no_owned : owned_directory := MkOwned None (-1) false [] zero_stat.

Record jf_storage_recovery := MkRecovery {
  r_source : option bytes; r_destination : option bytes; r_temporary : option bytes; r_published : option bytes }.

(** A call on a descriptor that may not be open ([-1]). *)
Definition fdz (o : option Z) : Z := match o with Some fd => fd | None => -1 end.

Section Storage.
Context `{SY : System} (fuel : nat).

Definition close_opt (o : option Z) : io unit :=
  match o with Some fd => _ ← close fd; mret tt | None => mret tt end.

(** The pieces between slashes, those that are empty left out. *)
Definition path_parts (path : bytes) : list bytes :=
  List.filter (fun c => negb (streq c [])) (split_on (ch "/") path).

Fixpoint walk (fd : Z) (parts : list bytes) : io (option Z) :=
  match parts with
  | [] => mret (Some fd)
  | c :: t =>
      child ← openat fd c Directory;
      _ ← close fd;
      match child with Some fd' => walk fd' t | None => mret None end
  end.

Definition jf_storage_directory (path : bytes) : io (option Z) :=
  ok ← alloc;
  if negb ok then mret None
  else
    fd ← open (if has_prefix (str "/") path then str "/" else str ".");
    match fd with Some fd => walk fd (path_parts path) | None => mret None end.

Definition stopped (s : jf_storage) : io bool :=
  match stop s with NoStop => mret false | _ => stop_requested end.

Definition without_fds (s : jf_storage) : jf_storage :=
  MkStorage None None None None (root_identity s) (lock_identity s) (nonce s) (sequence s) (stop s)
    (root_path s) (has_allowed s) (borrowed s).

Definition jf_storage_close (s : jf_storage) : io jf_storage :=
  if borrowed s then mret (without_fds s)
  else
    _ ← close_opt (random s); _ ← close_opt (lock s); _ ← close_opt (engine s); _ ← close_opt (root s);
    mret (without_fds s).

(** [while (used<sizeof s->nonce)]: the nonce, or [None] on failure. *)
Fixpoint read_nonce (n : nat) (s : jf_storage) (fd : Z) (got : bytes) : io (option bytes) :=
  if (16 <=? length got)%nat then mret (Some got)
  else match n with
  | O => stuck
  | S n' =>
      r ← read fd (16 - length got);
      match r with
      | inl EINTR => b ← stopped s; if (b : bool) then mret None else read_nonce n' s fd got
      | inl _ | inr [] => mret None
      | inr d => read_nonce n' s fd (got ++ d)
      end
  end.

(** *** The batch lock *)

Definition set_fds (r e l rnd : option Z) (s : jf_storage) : jf_storage :=
  MkStorage r e l rnd (root_identity s) (lock_identity s) (nonce s) (sequence s) (stop s) (root_path s) (has_allowed s) (borrowed s).
Definition set_root_identity (st : stat) (s : jf_storage) : jf_storage :=
  MkStorage (root s) (engine s) (lock s) (random s) st (lock_identity s) (nonce s) (sequence s) (stop s) (root_path s) (has_allowed s) (borrowed s).
Definition set_lock_identity (st : stat) (s : jf_storage) : jf_storage :=
  MkStorage (root s) (engine s) (lock s) (random s) (root_identity s) st (nonce s) (sequence s) (stop s) (root_path s) (has_allowed s) (borrowed s).
Definition set_nonce (b : bytes) (s : jf_storage) : jf_storage :=
  MkStorage (root s) (engine s) (lock s) (random s) (root_identity s) (lock_identity s) b (sequence s) (stop s) (root_path s) (has_allowed s) (borrowed s).

(** A call whose answer is needed: [no] is the status and detail without it. *)
Definition need {A B} (no : Z * string) (m : io (option A)) (k : A -> io (Z * string * B)) (s : B) : io (Z * string * B) :=
  r ← m; match r with Some a => k a | None => mret (no.1, no.2, s) end.

(** The lock file and the lock, from line 109. *)
Definition take_lock (engine_ : Z) (s : jf_storage) : io (Z * string * jf_storage) :=
  let no := (3, "E_BATCH_LOCK"%string) in
  need no (openat engine_ (str "batch.lock") LockFile) (fun l =>
    let s := set_fds (root s) (engine s) (Some l) (random s) s in
    need no (fstat l) (fun id =>
      let s := set_lock_identity id s in
      if negb (st_reg id) || negb (st_nlink id =? 1) || negb (st_perm id =? 384) then mret (3, "E_BATCH_LOCK"%string, s)
      else
        uid ← geteuid;
        if negb (st_uid id =? uid) then mret (3, "E_BATCH_LOCK"%string, s)
        else
          r ← setlk l;
          match r with
          | Some e => mret ((if bool_decide (e = EACCES \/ e = EAGAIN) then 6 else 3), "E_BATCH_LOCK"%string, s)
          | None =>
              named ← fstatat engine_ (str "batch.lock");
              if negb (match named with Some a => inode a id | None => false end)
              then mret (6, "E_BATCH_LOCK_CHANGED"%string, s)
              else
                ok ← syncfd l;
                ok ← (if (ok : bool) then syncfd engine_ else mret false);
                mret ((if (ok : bool) then 0 else 3), "E_BATCH_LOCK"%string, s)
          end) s) s.

(** The directory of the generation is the one opened by the reader. *)
Definition same_generation (selected gdir : Z) : io bool :=
  actual ← fstat selected;
  match actual with
  | None => mret false
  | Some a => expected ← fstat gdir; mret (match expected with Some e => inode a e | None => false end)
  end.

Definition begin_random (engine_ : Z) (s : jf_storage) : io (Z * string * jf_storage) :=
  let no := (3, "E_BATCH_LOCK"%string) in
  need no (open (str "/dev/urandom")) (fun rnd =>
    let s := set_fds (root s) (engine s) (lock s) (Some rnd) s in
    need no (read_nonce fuel s rnd []) (fun nonce_ => take_lock engine_ (set_nonce nonce_ s)) s) s.

(** Lines 97 to 119: [selected] and [generations] are closed in that order. *)
Definition begin_engine (gid : bytes) (gdir engine_ : Z) (s : jf_storage) : io (Z * string * jf_storage) :=
  need (3, "E_BATCH_LOCK"%string) (openat engine_ (str "generations") Directory) (fun generations =>
    selected ← openat generations gid Directory;
    same ← (match selected with Some fd => same_generation fd gdir | None => mret false end);
    r ← (if (same : bool) then begin_random engine_ s else mret (5, "E_GENERATION_CHANGED"%string, s));
    _ ← close_opt selected;
    _ ← close generations;
    mret r) s.

Definition begin_root (gid : bytes) (gdir : Z) (s : jf_storage) : io (Z * string * jf_storage) :=
  let no := (3, "E_BATCH_LOCK"%string) in
  need no (jf_storage_directory (root_path s)) (fun root_ =>
    let s := set_fds (Some root_) None None None s in
    need no (fstat root_) (fun id =>
      let s := set_root_identity id s in
      need no (openat root_ (str "cache") Directory) (fun cache =>
        e ← openat cache (str "filter-engine") Directory;
        r ← (match e with
             | Some engine_ => begin_engine gid gdir engine_ (set_fds (Some root_) (Some engine_) None None s)
             | None => mret (3, "E_BATCH_LOCK"%string, s)
             end);
        _ ← close cache;
        mret r) s) s) s.

Definition jf_storage_begin (root_ gid : bytes) (gdir : Z) (interrupted : bool) : io (Z * string * jf_storage) :=
  let s := MkStorage None None None None zero_stat zero_stat (replicate 16 0) 0
             (if interrupted then Interrupted else NoStop) root_ false false in
  r ← begin_root gid gdir s;
  let '(rc, detail, s) := r in
  if rc =? 0 then mret (0, detail, s)
  else s ← jf_storage_close s; mret (rc, detail, s).

(** *** Destination directories *)

Definition directory_at (parent : Z) (name : bytes) : io (option Z) :=
  made ← mkdirat parent name;
  if bool_decide (made <> None /\ made <> Some EEXIST) then mret None
  else
    fd ← openat parent name Directory;
    match fd with
    | None => mret None
    | Some fd =>
        ok ← syncfd parent;
        if (ok : bool) then mret (Some fd) else _ ← close fd; mret None
    end.

(** The components the loop over [relative] visits. *)
Definition components (relative : bytes) : list bytes :=
  let l := split_on (ch "/") relative in
  match List.rev l with [] :: t => List.rev t | _ => l end.

(** The directory reached, with whether all components were. *)
Fixpoint make_path (dir : Z) (parts : list bytes) : io (Z * bool) :=
  match parts with
  | [] => mret (dir, true)
  | c :: t =>
      if streq c [] || streq c (str ".") || streq c (str "..") then mret (dir, false)
      else
        child ← directory_at dir c;
        match child with
        | None => mret (dir, false)
        | Some fd => _ ← close dir; make_path fd t
        end
  end.

(** [*cur], [*new], [*tmp] and whether all were opened. *)
Definition destination (s : jf_storage) (relative : bytes) : io (option Z * option Z * option Z * bool) :=
  copy ← alloc;
  dir ← dup (fdz (root s));
  match dir with
  | None => mret (None, None, None, false)
  | Some dir =>
      if negb copy then _ ← close dir; mret (None, None, None, false)
      else
        '(dir, ok) ← make_path dir (components relative);
        r ← (if (ok : bool) then
               cur ← directory_at dir (str "cur");
               new ← directory_at dir (str "new");
               tmp ← directory_at dir (str "tmp");
               mret (cur, new, tmp, bool_decide (is_Some cur /\ is_Some new /\ is_Some tmp))
             else mret (None, None, None, false));
        _ ← close dir;
        mret r
  end.

Fixpoint open_path (dir : Z) (parts : list bytes) : io (Z * bool) :=
  match parts with
  | [] => mret (dir, true)
  | c :: t =>
      child ← openat dir c Directory;
      match child with
      | None => mret (dir, false)
      | Some fd => _ ← close dir; open_path fd t
      end
  end.

(** [fstat] of both descriptors gives one inode. *)
Definition same_fd (a b : Z) : io bool :=
  current ← fstat a;
  match current with
  | None => mret false
  | Some x => opened ← fstat b; mret (match opened with Some y => inode y x | None => false end)
  end.

Definition destination_current (s : jf_storage) (relative : bytes) (cur tmp : Z) : io bool :=
  copy ← alloc;
  dir ← dup (fdz (root s));
  match dir with
  | None => mret false
  | Some dir =>
      if negb copy then _ ← close dir; mret false
      else
        '(dir, ok) ← open_path dir (components relative);
        r ← (if (ok : bool) then
               a ← openat dir (str "cur") Directory;
               b ← openat dir (str "tmp") Directory;
               ok ← (match a, b with
                     | Some a, Some b => x ← same_fd a cur; if (x : bool) then same_fd b tmp else mret false
                     | _, _ => mret false
                     end);
               _ ← close_opt a; _ ← close_opt b;
               mret ok
             else mret false);
        _ ← close dir;
        mret r
  end.

(** *** Directories of its own *)

Fixpoint hex_loop (n : nat) (z : Z) (acc : bytes) : bytes :=
  match n with
  | O => acc
  | S n' => let acc := nth (Z.to_nat (z mod 16)) hex_digits 0 :: acc in
            if z <? 16 then acc else hex_loop n' (z / 16) acc
  end.
(** [%zx]. *)
Definition hex_of (z : Z) : bytes := hex_loop 16 z [].

Definition owned_name (s : jf_storage) (seq_ : Z) : bytes :=
  str ".jaro-filter." ++ concat (map hex_byte (nonce s)) ++ str "." ++ hex_of seq_.

Fixpoint create_loop (attempts : nat) (s : jf_storage) (parent seq_ : Z) (d : owned_directory) :
    io (bool * owned_directory * Z) :=
  match attempts with
  | O => mret (false, d, seq_)
  | S n' =>
      if seq_ =? SIZE_MAX then mret (false, d, seq_)
      else
        let seq_ := seq_ + 1 in
        let name := owned_name s seq_ in
        let d := MkOwned None parent false name (o_identity d) in
        made ← mkdirat parent name;
        match made with
        | Some EEXIST => create_loop n' s parent seq_ d
        | Some _ => mret (false, d, seq_)
        | None =>
            let d := MkOwned None parent true name (o_identity d) in
            id ← fstatat parent name;
            match id with
            | None => mret (false, d, seq_)
            | Some id =>
                let d := MkOwned None parent true name id in
                fd ← openat parent name Directory;
                match fd with
                | None => mret (false, d, seq_)
                | Some fd =>
                    let d := MkOwned (Some fd) parent true name id in
                    actual ← fstat fd;
                    mret (match actual with Some a => inode a id | None => false end, d, seq_)
                end
            end
        end
  end.

(** The directory with the sequence number reached. *)
Definition create_owned (s : jf_storage) (parent seq_ : Z) : io (bool * owned_directory * Z) :=
  create_loop RETRIES s parent seq_ (MkOwned None parent false [] zero_stat).

Definition gone (d : owned_directory) : owned_directory :=
  MkOwned (o_fd d) (o_parent d) false (o_name d) (o_identity d).

Definition remove_owned (d : owned_directory) : io (bool * owned_directory) :=
  if negb (o_created d) then mret (true, d)
  else
    current ← fstatat (o_parent d) (o_name d);
    if negb (match current with Some c => inode c (o_identity d) | None => false end) then mret (false, d)
    else
      ok ← rmdirat (o_parent d) (o_name d);
      if negb (ok : bool) then mret (false, d)
      else ok ← syncfd (o_parent d); mret (ok, gone d).

Definition source_current (parent : Z) (name : bytes) (fd : Z) (expected : stat) : io bool :=
  a ← fstat fd;
  match a with
  | None => mret false
  | Some a =>
      b ← fstatat parent name;
      mret (match b with
            | Some b => st_reg b && jf_storage_same a expected && jf_storage_same b expected
            | None => false
            end)
  end.

Definition lock_current (s : jf_storage) : io bool :=
  a ← fstat (fdz (lock s));
  match a with
  | None => mret false
  | Some a =>
      if negb (st_nlink a =? 1) then mret false
      else
        b ← fstatat (fdz (engine s)) (str "batch.lock");
        match b with
        | None => mret false
        | Some b =>
            if negb (inode a (lock_identity s)) || negb (inode a b) then mret false
            else r ← setlk (fdz (lock s)); mret (bool_decide (r = None))
        end
  end.

(** *** Verified copies *)

(** The write of one chunk: [None], or the detail of its failure. *)
Fixpoint write_all (n : nat) (s : jf_storage) (stage : Z) (data : bytes) : io (option string) :=
  match data with
  | [] => mret None
  | _ =>
      match n with
      | O => stuck
      | S n' =>
          stop ← stopped s;
          if (stop : bool) then mret (Some "E_INTERRUPTED"%string)
          else
            r ← write stage data;
            match r with
            | inl EINTR => write_all n' s stage data
            | inl _ | inr O => mret (Some "E_COPY_WRITE"%string)
            | inr w => write_all n' s stage (drop w data)
            end
      end
  end.

(** The copy from [position] on, with both digests of what was copied. *)
Fixpoint copy_loop (n : nat) (s : jf_storage) (source stage size header_size position : Z) (hash headers : jf_sha256) :
    io (string + (jf_sha256 * jf_sha256)) :=
  if size <=? position then mret (inr (hash, headers))
  else match n with
  | O => stuck
  | S n' =>
      stop ← stopped s;
      if (stop : bool) then mret (inl "E_INTERRUPTED"%string)
      else
        r ← pread source (Z.to_nat (Z.min COPY_CHUNK (size - position))) position;
        match r with
        | inl EINTR => copy_loop n' s source stage size header_size position hash headers
        | inl _ => mret (inl "E_COPY_READ"%string)
        | inr [] => mret (inl "E_SOURCE_CHANGED"%string)
        | inr data =>
            let hash := jf_sha256_update hash data in
            let headers := if position <? header_size
                           then jf_sha256_update headers (take (Z.to_nat (header_size - position)) data)
                           else headers in
            w ← write_all fuel s stage data;
            match w with
            | Some d => mret (inl d)
            | None => copy_loop n' s source stage size header_size (position + zlen data) hash headers
            end
        end
  end.

(** [for (;;)] over the bytes of [fd]: [inl] is why it stopped early, [inr] the
    position at the end with the digest. *)
Inductive unread := Interruption | ReadError | TooLong.
Fixpoint digest_loop (n : nat) (s : jf_storage) (fd size position : Z) (hash : jf_sha256) : io (unread + (Z * jf_sha256)) :=
  match n with
  | O => stuck
  | S n' =>
      stop ← stopped s;
      if (stop : bool) then mret (inl Interruption)
      else
        r ← pread fd (Z.to_nat COPY_CHUNK) position;
        match r with
        | inl EINTR => digest_loop n' s fd size position hash
        | inl _ => mret (inl ReadError)
        | inr [] => mret (inr (position, hash))
        | inr data =>
            if size - position <? zlen data then mret (inl TooLong)
            else digest_loop n' s fd size (position + zlen data) (jf_sha256_update hash data)
        end
  end.

Definition stack_hash : jf_sha256 := jf_sha256_init (replicate 64 0).

(** The digest of the copy, or the detail of the failure. *)
Definition copy_message (s : jf_storage) (source stage : Z) (expected : stat) (header_size : Z) (header_digest : bytes) :
    io (string + bytes) :=
  r ← copy_loop fuel s source stage (st_size expected) header_size 0 stack_hash stack_hash;
  match r with
  | inl d => mret (inl d)
  | inr (hash, headers) =>
      let first := jf_sha256_hex hash in
      if negb (streq (jf_sha256_hex headers) header_digest) then mret (inl "E_SOURCE_CHANGED"%string)
      else
        ok ← syncfd stage;
        if negb (ok : bool) then mret (inl "E_DESTINATION_FSYNC"%string)
        else
          r ← digest_loop fuel s stage (st_size expected) 0 stack_hash;
          match r with
          | inl Interruption => mret (inl "E_INTERRUPTED"%string)
          | inl _ => mret (inl "E_COPY_VERIFY"%string)
          | inr (position, hash) =>
              if negb (position =? st_size expected) || negb (streq first (jf_sha256_hex hash))
              then mret (inl "E_COPY_VERIFY"%string)
              else mret (inr first)
          end
  end.

Definition source_digest (s : jf_storage) (fd size : Z) (expected : bytes) : io bool :=
  r ← digest_loop fuel s fd size 0 stack_hash;
  match r with
  | inl _ => mret false
  | inr (position, hash) => mret ((position =? size) && streq (jf_sha256_hex hash) expected)
  end.

(** *** Names and paths *)

(** [strstr]: the text from the first occurrence on. *)
Fixpoint find_sub (p s : bytes) : option bytes :=
  if has_prefix p s then Some s else match s with [] => None | _ :: t => find_sub p t end.

Definition alphabet : bytes := str "0123456789ABCDEFGHIJKLMNOPQRSTUVWXYZabcdefghijklmnopqrstuvwxyz".

(** The unique part of a name that must fit in [available] bytes. *)
Definition name_prefix (s : jf_storage) (seq_ attempt available : Z) : bytes :=
  let prefix := str "jaro." ++ concat (map hex_byte (take 4 (nonce s))) ++ str "." ++ hex_of seq_ ++ str "." ++ decimal_of attempt in
  if available <? zlen prefix then
    map (fun i => at_ alphabet (Z.to_nat (size_t (at_ (nonce s) (i mod 16) + seq_ + attempt + Z.of_nat i) mod 62)))
      (seq 0 (Z.to_nat (Z.min available 79)))
  else prefix.

(** A name, or [errno]. *)
Definition published_name (s : jf_storage) (source : bytes) (seq_ attempt cur : Z) : io (errno + bytes) :=
  let flags := match find_sub (str ":2,") source with Some f => f | None => [] end in
  if attempt =? 0 then ok ← alloc; mret (if (ok : bool) then inr source else inl ENOMEM)
  else
    m ← name_max cur;
    match m with
    | inl e => mret (inl e)
    | inr m =>
        let maximum := match m with Some n => n | None => 255 end in
        if maximum <=? zlen flags then mret (inl EEXIST)
        else
          ok ← alloc;
          mret (if (ok : bool) then inr (name_prefix s seq_ attempt (maximum - zlen flags) ++ flags) else inl ENOMEM)
    end.

Definition restore (claim : Z) (name : bytes) (parent : Z) : io bool :=
  r ← renameat2 claim name parent name;
  match r with
  | None => mret true
  | Some e =>
      if negb (bool_decide (e = ENOSYS \/ e = EINVAL \/ e = EOPNOTSUPP)) then mret false
      else
        l ← linkat claim name parent name;
        match l with
        | Some _ => mret false
        | None => ok ← syncfd parent; if negb (ok : bool) then mret false else unlinkat claim name
        end
  end.

(** The text before the last slash, if it has one. *)
Definition before_slash (s : bytes) : option bytes :=
  match drop_while (fun c => negb (c =? ch "/")) (List.rev s) with [] => None | _ :: t => Some (List.rev t) end.

Definition recovery_path (source directory name : bytes) : io (option bytes) :=
  let parent := match before_slash source with Some p => p | None => [] end in
  if SIZE_MAX - zlen directory - zlen name - 3 <? zlen parent then mret None
  else
    ok ← alloc;
    mret (if (ok : bool) then Some (parent ++ str "/" ++ directory ++ str "/" ++ name) else None).

Definition destination_path (s : jf_storage) (relative sub name : bytes) : io (option bytes) :=
  if SIZE_MAX - zlen relative - zlen sub - zlen name - 4 <? zlen (root_path s) then mret None
  else
    ok ← alloc;
    mret (if (ok : bool) then Some (root_path s ++ str "/" ++ relative ++ str "/" ++ sub ++ str "/" ++ name) else None).
End Storage.

(** *** The move *)

(** The locals of [jf_storage_move] that its end reads; [l_staged] and [l_claimed]
    are its [stage_message] and [claimed_message], [l_seq] the number in the
    storage, and a message is [published] when it has a final path. *)
Record locals := MkLocals {
  l_stage : owned_directory; l_claim : owned_directory; l_cur : option Z; l_new : option Z; l_tmp : option Z;
  l_file : option Z; l_copyfd : option Z; l_staged : bool; l_claimed : bool; l_claim_path : option bytes;
  l_final_path : option bytes; l_stage_path : option bytes; l_seq : Z; l_detail : string; l_rc : Z }.

Definition set_stage (stage_ : owned_directory) (seq_ : Z) (l : locals) : locals :=
  MkLocals stage_ (l_claim l) (l_cur l) (l_new l) (l_tmp l) (l_file l) (l_copyfd l) (l_staged l) (l_claimed l)
    (l_claim_path l) (l_final_path l) (l_stage_path l) seq_ (l_detail l) (l_rc l).
Definition set_claim (claim_ : owned_directory) (seq_ : Z) (l : locals) : locals :=
  MkLocals (l_stage l) claim_ (l_cur l) (l_new l) (l_tmp l) (l_file l) (l_copyfd l) (l_staged l) (l_claimed l)
    (l_claim_path l) (l_final_path l) (l_stage_path l) seq_ (l_detail l) (l_rc l).
Definition set_directories (cur_ : option Z) (new_ : option Z) (tmp_ : option Z) (l : locals) : locals :=
  MkLocals (l_stage l) (l_claim l) cur_ new_ tmp_ (l_file l) (l_copyfd l) (l_staged l) (l_claimed l)
    (l_claim_path l) (l_final_path l) (l_stage_path l) (l_seq l) (l_detail l) (l_rc l).
Definition set_file (file_ : option Z) (l : locals) : locals :=
  MkLocals (l_stage l) (l_claim l) (l_cur l) (l_new l) (l_tmp l) file_ (l_copyfd l) (l_staged l) (l_claimed l)
    (l_claim_path l) (l_final_path l) (l_stage_path l) (l_seq l) (l_detail l) (l_rc l).
Definition set_copyfd (copyfd_ : option Z) (l : locals) : locals :=
  MkLocals (l_stage l) (l_claim l) (l_cur l) (l_new l) (l_tmp l) (l_file l) copyfd_ (l_staged l) (l_claimed l)
    (l_claim_path l) (l_final_path l) (l_stage_path l) (l_seq l) (l_detail l) (l_rc l).
Definition set_staged (stage_message_ : bool) (l : locals) : locals :=
  MkLocals (l_stage l) (l_claim l) (l_cur l) (l_new l) (l_tmp l) (l_file l) (l_copyfd l) stage_message_
    (l_claimed l) (l_claim_path l) (l_final_path l) (l_stage_path l) (l_seq l) (l_detail l) (l_rc l).
Definition set_claimed (claimed_message_ : bool) (l : locals) : locals :=
  MkLocals (l_stage l) (l_claim l) (l_cur l) (l_new l) (l_tmp l) (l_file l) (l_copyfd l) (l_staged l)
    claimed_message_ (l_claim_path l) (l_final_path l) (l_stage_path l) (l_seq l) (l_detail l) (l_rc l).
Definition set_final_path (final_path_ : option bytes) (l : locals) : locals :=
  MkLocals (l_stage l) (l_claim l) (l_cur l) (l_new l) (l_tmp l) (l_file l) (l_copyfd l) (l_staged l)
    (l_claimed l) (l_claim_path l) final_path_ (l_stage_path l) (l_seq l) (l_detail l) (l_rc l).
Definition set_claim_path (claim_path_ : option bytes) (l : locals) : locals :=
  MkLocals (l_stage l) (l_claim l) (l_cur l) (l_new l) (l_tmp l) (l_file l) (l_copyfd l) (l_staged l)
    (l_claimed l) claim_path_ (l_final_path l) (l_stage_path l) (l_seq l) (l_detail l) (l_rc l).
Definition set_stage_path (stage_path_ : option bytes) (l : locals) : locals :=
  MkLocals (l_stage l) (l_claim l) (l_cur l) (l_new l) (l_tmp l) (l_file l) (l_copyfd l) (l_staged l)
    (l_claimed l) (l_claim_path l) (l_final_path l) stage_path_ (l_seq l) (l_detail l) (l_rc l).
Definition set_detail (detail_ : string) (l : locals) : locals :=
  MkLocals (l_stage l) (l_claim l) (l_cur l) (l_new l) (l_tmp l) (l_file l) (l_copyfd l) (l_staged l)
    (l_claimed l) (l_claim_path l) (l_final_path l) (l_stage_path l) (l_seq l) detail_ (l_rc l).
Definition set_rc (rc_ : Z) (l : locals) : locals :=
  MkLocals (l_stage l) (l_claim l) (l_cur l) (l_new l) (l_tmp l) (l_file l) (l_copyfd l) (l_staged l)
    (l_claimed l) (l_claim_path l) (l_final_path l) (l_stage_path l) (l_seq l) (l_detail l) rc_.

(** A step of the body: [None] is a jump to [done]. *)
Definition step (A : Type) : Type := locals -> io (locals * option A).
#[export] Instance step_ret : MRet step := fun A a l => mret (l, Some a).
#[export] Instance step_bind : MBind step := fun A B f m l t =>
  match m l t with
  | (Some (l', Some a), t') => f a l' t'
  | (Some (l', None), t') => (Some (l', None), t')
  | (None, t') => (None, t')
  end.
Definition lift {A} (m : io A) : step A := fun l t =>
  match m t with (Some a, t') => (Some (l, Some a), t') | (None, t') => (None, t') end.
Definition update (f : locals -> locals) : step unit := fun l => mret (f l, Some tt).
Definition get {A} (f : locals -> A) : step A := fun l => mret (l, Some (f l)).
(** [goto done], without or with a new detail. *)
Definition leave {A} : step A := fun l => mret (l, None).
Definition leave_with {A} (d : string) : step A := fun l => mret (set_detail d l, None).
(** The test must hold. *)
Definition must (d : string) (m : io bool) : step unit :=
  ok ← lift m; if (ok : bool) then mret tt else leave_with d.
(** The answer must be there. *)
Definition must_some {A} (d : string) (m : io (option A)) : step A :=
  r ← lift m; match r with Some a => mret a | None => leave_with d end.
Definition not_stopped `{SY : System} (s : jf_storage) : step unit :=
  must "E_INTERRUPTED" (b ← stopped s; mret (negb b)).

Section Move.
Context `{SY : System} (fuel : nat) (s : jf_storage).
Context (parent : Z) (name : bytes) (source : Z) (expected : stat) (header_size : Z) (header_digest : bytes).
Context (relative source_path : bytes).

Abbreviation message := (str "message").

(** Lines 369 to 379: nothing has been written yet. *)
Definition move_checks : step (Z * Z) :=
  _ ← must "E_BATCH_LOCK_CHANGED" (lock_current s);
  _ ← must "E_SOURCE_CHANGED" (source_current parent name source expected);
  r ← lift (destination s relative);
  let '(cur, new, tmp, ok) := r in
  _ ← update (set_directories cur new tmp);
  if negb (ok : bool) then leave
  else
    _ ← must "E_DESTINATION_CHANGED" (if has_allowed s then destination_allowed (fdz cur) (fdz new) else mret true);
    a ← lift (fstat parent);
    match a with
    | None => leave
    | Some a =>
        b ← lift (fstat (fdz cur));
        match b with
        | None => leave
        | Some b =>
            if inode a b then _ ← update (set_rc 1); leave
            else
              b ← lift (fstat (fdz new));
              match b with
              | None => leave
              | Some b =>
                  if inode a b then _ ← update (set_rc 1); leave
                  else _ ← not_stopped s; mret (fdz cur, fdz tmp)
              end
        end
    end.

(** Lines 380 to 394: the private copy; its descriptor, its digest and its identity. *)
Definition move_copy (tmp : Z) : step (Z * Z * bytes * stat) :=
  seq_ ← get l_seq;
  r ← lift (create_owned s tmp seq_);
  let '(ok, stage, seq_) := r in
  _ ← update (set_stage stage seq_);
  match (if (ok : bool) then o_fd stage else None) with
  | None => leave
  | Some stage_fd =>
      path ← must_some "E_MEMORY" (destination_path s relative (str "tmp") (o_name stage));
      _ ← update (set_stage_path (Some path));
      _ ← must "E_MEMORY" alloc;
      _ ← update (set_stage_path (Some (path ++ str "/message")));
      f ← lift (openat stage_fd message NewFile);
      match f with
      | None => leave
      | Some f =>
          _ ← update (set_file (Some f));
          _ ← update (set_staged true);
          c ← lift (copy_message fuel s source f expected header_size header_digest);
          match c with
          | inl d => leave_with d
          | inr copied =>
              id ← lift (fstat f);
              match id with
              | None => leave
              | Some id =>
                  c ← lift (dup f);
                  match c with
                  | None => leave
                  | Some c =>
                      _ ← update (set_copyfd (Some c));
                      ok ← lift (close f);
                      _ ← update (set_file None);
                      if (ok : bool) then mret (stage_fd, c, copied, id) else leave_with "E_DESTINATION_IO"
                  end
              end
          end
      end
  end.

(** Lines 395 to 399. *)
Definition copy_unchanged (stage_fd : Z) (id : stat) : io bool :=
  a ← fstatat stage_fd message; mret (match a with Some a => jf_storage_same a id | None => false end).

(** The attempts to link the copy into [cur], from [attempt] on: the final name. *)
Fixpoint publish_loop (n : nat) (stage_fd cur attempt : Z) : step bytes :=
  match n with
  | O => leave_with "E_DESTINATION_COLLISION"
  | S n' =>
      seq_ ← get l_seq;
      c ← lift (published_name s name seq_ attempt cur);
      match c with
      | inl e => leave_with (if bool_decide (e = EEXIST) then "E_DESTINATION_COLLISION" else "E_MEMORY")
      | inr candidate =>
          path ← must_some "E_MEMORY" (destination_path s relative (str "cur") candidate);
          r ← lift (linkat stage_fd message cur candidate);
          match r with
          | None => _ ← update (set_final_path (Some path)); mret candidate
          | Some EEXIST => publish_loop n' stage_fd cur (attempt + 1)
          | Some _ => leave_with "E_DESTINATION_PUBLISH"
          end
      end
  end.

(** Lines 395 to 416: the copy is published under a name no one else has. *)
Definition move_publish (cur tmp stage_fd copyfd : Z) (id : stat) : step bytes :=
  _ ← must "E_SOURCE_CHANGED" (source_current parent name source expected);
  _ ← not_stopped s;
  _ ← must "E_DESTINATION_CHANGED" (destination_current s relative cur tmp);
  _ ← must "E_COPY_VERIFY" (copy_unchanged stage_fd id);
  final ← publish_loop RETRIES stage_fd cur 0;
  _ ← must "E_DESTINATION_FSYNC" (syncfd copyfd);
  _ ← must "E_DESTINATION_FSYNC" (syncfd cur);
  mret final.

(** Lines 419 to 422. *)
Definition move_unstage (stage_fd : Z) : step unit :=
  _ ← must "E_STAGE_CLEANUP" (unlinkat stage_fd message);
  _ ← update (set_staged false);
  _ ← must "E_STAGE_CLEANUP" (syncfd stage_fd);
  stage ← get l_stage;
  seq_ ← get l_seq;
  r ← lift (remove_owned stage);
  _ ← update (set_stage r.2 seq_);
  if negb r.1 then leave_with "E_STAGE_CLEANUP"
  else
    _ ← lift (close stage_fd);
    update (set_stage (MkOwned None (o_parent r.2) (o_created r.2) (o_name r.2) (o_identity r.2)) seq_).

(** The published file is still the copy, in the same directories. *)
Definition destination_kept (cur tmp : Z) (final : bytes) (id : stat) : io bool :=
  ok ← destination_current s relative cur tmp;
  if negb (ok : bool) then mret false
  else a ← fstatat cur final; mret (match a with Some a => bytes_identity a id | None => false end).

(** [fd] still has the bytes copied. *)
Definition still_has (d : string) (fd : Z) (copied : bytes) : step unit :=
  ok ← lift (source_digest fuel s fd (st_size expected) copied);
  if (ok : bool) then mret tt
  else b ← lift (stopped s); leave_with (if (b : bool) then "E_INTERRUPTED" else d).

Definition destination_verified (cur tmp copyfd : Z) (final : bytes) (id : stat) (copied : bytes) : step unit :=
  _ ← must "E_BATCH_LOCK_CHANGED" (lock_current s);
  _ ← must "E_DESTINATION_CHANGED" (destination_kept cur tmp final id);
  still_has "E_DESTINATION_CHANGED" copyfd copied.

(** Lines 423 to 443: the message is moved from its mutable name into a private
    directory; that directory and the identity of the message in it. *)
Definition move_claim (cur tmp copyfd : Z) (final : bytes) (id : stat) (copied : bytes) : step (Z * stat) :=
  _ ← must "E_SOURCE_CHANGED" (source_current parent name source expected);
  _ ← not_stopped s;
  seq_ ← get l_seq;
  r ← lift (create_owned s parent seq_);
  let '(ok, claim, seq_) := r in
  _ ← update (set_claim claim seq_);
  match (if (ok : bool) then o_fd claim else None) with
  | None => leave_with "E_SOURCE_CLAIM"
  | Some claim_fd =>
      path ← must_some "E_MEMORY" (recovery_path source_path (o_name claim) name);
      _ ← update (set_claim_path (Some path));
      _ ← not_stopped s;
      _ ← destination_verified cur tmp copyfd final id copied;
      _ ← must "E_SOURCE_CHANGED" (renameat parent name claim_fd name);
      _ ← update (set_claimed true);
      a ← must_some "E_SOURCE_CHANGED" (fstatat claim_fd name);
      claimed ← must_some "E_SOURCE_CHANGED" (fstat source);
      if negb (st_reg a && inode a expected && bytes_identity claimed expected && jf_storage_same a claimed)
      then leave_with "E_SOURCE_CHANGED"
      else
        _ ← must "E_SOURCE_FSYNC" (syncfd claim_fd);
        _ ← must "E_SOURCE_FSYNC" (syncfd parent);
        mret (claim_fd, claimed)
  end.

(** Both the descriptor and the claimed name are [claimed]. *)
Definition claim_unchanged (claim_fd : Z) (claimed : stat) : io bool :=
  a ← fstat source;
  match a with
  | None => mret false
  | Some a =>
      b ← fstatat claim_fd name;
      mret (match b with Some b => jf_storage_same a claimed && jf_storage_same b claimed | None => false end)
  end.

Definition source_unchanged (claimed : stat) : io bool :=
  a ← fstat source; mret (match a with Some a => jf_storage_same a claimed | None => false end).

(** Lines 444 to 461: the last checks and the removal. *)
Definition move_remove (cur tmp copyfd claim_fd : Z) (final : bytes) (id claimed : stat) (copied : bytes) : step unit :=
  _ ← not_stopped s;
  _ ← destination_verified cur tmp copyfd final id copied;
  _ ← must "E_SOURCE_CHANGED" (claim_unchanged claim_fd claimed);
  _ ← still_has "E_SOURCE_CHANGED" source copied;
  _ ← must "E_SOURCE_CHANGED" (source_unchanged claimed);
  _ ← must "E_SOURCE_UNLINK" (unlinkat claim_fd name);
  _ ← update (set_claimed false);
  _ ← must "E_SOURCE_FSYNC" (syncfd claim_fd);
  claim ← get l_claim;
  seq_ ← get l_seq;
  r ← lift (remove_owned claim);
  _ ← update (set_claim r.2 seq_);
  if negb r.1 then leave_with "E_SOURCE_FSYNC"
  else
    _ ← lift (close claim_fd);
    _ ← update (set_claim (MkOwned None (o_parent r.2) (o_created r.2) (o_name r.2) (o_identity r.2)) seq_);
    update (set_rc 0).

Definition move_body : step unit :=
  '(cur, tmp) ← move_checks;
  '(stage_fd, copyfd, copied, id) ← move_copy tmp;
  final ← move_publish cur tmp stage_fd copyfd id;
  _ ← move_unstage stage_fd;
  '(claim_fd, claimed) ← move_claim cur tmp copyfd final id copied;
  move_remove cur tmp copyfd claim_fd final id claimed copied.
End Move.

(** *** The end of a move *)

Section Done.
Context `{SY : System} (parent : Z) (name : bytes).

(** A descriptor still open at [done]; its failure matters to a move that succeeded. *)
Definition close_late (o : option Z) (l : locals) : io locals :=
  match o with
  | None => mret l
  | Some fd =>
      ok ← close fd;
      mret (if negb ok && (l_rc l =? 0) then set_detail "E_DESTINATION_IO" (set_rc 7 l) else l)
  end.

(** Lines 465 to 477: a claimed message goes back to its name, or its place is
    reported; the path reported, if any. *)
Definition done_claim (l : locals) : io (locals * option bytes) :=
  if negb (l_claimed l) then mret (l, None)
  else
    let claim_fd := fdz (o_fd (l_claim l)) in
    back ← restore claim_fd name parent;
    if (back : bool) then
      let l := set_claimed false l in
      ok ← syncfd claim_fd;
      ok ← (if (ok : bool) then syncfd parent else mret false);
      mret (if (ok : bool) then l else set_detail "E_SOURCE_FSYNC" l, None)
    else
      let path := l_claim_path l in
      let l := set_detail "E_SOURCE_RECOVERY" (set_claim_path None l) in
      _ ← syncfd claim_fd;
      _ ← syncfd parent;
      mret (l, path).

(** Lines 478 to 485. *)
Definition done_stage (l : locals) : io locals :=
  if negb (l_staged l) then mret l
  else
    let stage_fd := fdz (o_fd (l_stage l)) in
    ok ← unlinkat stage_fd (str "message");
    if (ok : bool) then mret (set_staged false l)
    else
      let l := if String.eqb (l_detail l) "" then set_detail "E_STAGE_CLEANUP" l else l in
      _ ← syncfd stage_fd;
      _ ← syncfd (fdz (l_tmp l));
      mret l.

(** Lines 486 and 487, for one of the two directories. *)
Definition done_remove (d : owned_directory) (held : bool) (put : owned_directory -> locals -> locals) (why : string) (l : locals) : io locals :=
  if o_created d && negb held then
    r ← remove_owned d;
    let l := put r.2 l in
    mret (if negb r.1 && (l_rc l =? 0) then set_detail why (set_rc 7 l) else l)
  else mret l.

(** The path of what is left of a directory: of the message in it, or its own. *)
Definition left_path (d : owned_directory) (held : bool) (path : option bytes) : option bytes :=
  if o_created d then
    match path with
    | Some p => Some (if held then p else match before_slash p with Some q => q | None => p end)
    | None => None
    end
  else None.

Definition done (l : locals) : io (Z * string * jf_storage_recovery * Z) :=
  l ← close_late (l_file l) l;
  l ← close_late (l_copyfd l) l;
  '(l, kept) ← done_claim l;
  l ← done_stage l;
  l ← done_remove (l_stage l) (l_staged l) (fun d l => set_stage d (l_seq l) l) "E_STAGE_CLEANUP" l;
  l ← done_remove (l_claim l) (l_claimed l) (fun d l => set_claim d (l_seq l) l) "E_SOURCE_FSYNC" l;
  let left_claim := left_path (l_claim l) (l_claimed l) (l_claim_path l) in
  let recovery := MkRecovery (match left_claim with Some p => Some p | None => kept end)
                    (if l_rc l =? 7 then l_final_path l else None)
                    (left_path (l_stage l) (l_staged l) (l_stage_path l))
                    (if l_rc l =? 0 then l_final_path l else None) in
  _ ← close_opt (o_fd (l_stage l)); _ ← close_opt (o_fd (l_claim l));
  _ ← close_opt (l_cur l); _ ← close_opt (l_new l); _ ← close_opt (l_tmp l);
  mret (if (l_rc l =? 7) && String.eqb (l_detail l) "E_MEMORY" then 3 else l_rc l, l_detail l, recovery, l_seq l).
End Done.

(** The status, the detail, the recovery paths and the sequence number reached. *)
Definition jf_storage_move `{SY : System} (fuel : nat) (s : jf_storage) (parent : Z) (name : bytes) (source : Z) (expected : stat)
    (header_size : Z) (header_digest relative source_path : bytes) : io (Z * string * jf_storage_recovery * Z) :=
  '(l, _) ← move_body fuel s parent name source expected header_size header_digest relative source_path
              (MkLocals no_owned no_owned None None None None None false false None None None (sequence s) "E_DESTINATION_IO" 7);
  done parent name l.
