(* ===== verification/StorageFacts.v ===== *)
(** * Theorems about moving messages (src/filter/storage.c)

    What a move may write, link and remove at each point of any run, what a
    finished move has done, where a failed one leaves the message, and that the
    loops over interrupted calls end. *)
From S2P Require Import Prelude Sha256 Storage.

#[local] Opaque jf_sha256_update jf_sha256_init.

(** ** Programs and the calls they make *)

(** The calls that neither write nor change a name that existed. *)
Definition quiet (e : event) : bool :=
  match e with
  | Write _ _ _ | Linkat _ _ _ _ _ | Renameat _ _ _ _ _ | Renameat2 _ _ _ _ _ | Unlinkat _ _ _ | Rmdirat _ _ _ => false
  | _ => true
  end.

Definition emits (p : event -> bool) {A} (m : io A) : Prop :=
  forall t, exists u, (m t).2 = u ++ t /\ forallb p u = true.

Section Emits.
Context `{SY : System} (p : event -> bool) (Hp : forall e, quiet e = true -> p e = true).

Lemma emits_ret {A} (a : A) : emits p (mret a : io A).
Proof. intros t. now exists []. Qed.

Lemma emits_stuck {A} : emits p (stuck : io A).
Proof. intros t. now exists []. Qed.

Lemma emits_bind {A B} (m : io A) (f : A -> io B) : emits p m -> (forall a, emits p (f a)) -> emits p (m ≫= f).
Proof.
  intros Hm Hf t. unfold mbind, io_bind. destruct (Hm t) as (u & Hu & Pu). destruct (m t) as [[a|] t']; cbn in Hu; subst t'.
  - destruct (Hf a (u ++ t)) as (v & Hv & Pv). exists (v ++ u). rewrite forallb_app, Pv, Pu. now rewrite Hv, app_assoc.
  - now exists u.
Qed.

Lemma emits_call {A} (m : io A) : (forall t, exists e, (m t).2 = e :: t /\ quiet e = true) -> emits p m.
Proof. intros H t. destruct (H t) as (e & E & Q). exists [e]. cbn. now rewrite Hp. Qed.
End Emits.

Create HintDb emits.
(** Calls are found by their first event, everything else by its structure. *)
Ltac emits_step :=
  first
    [ assumption
    | apply emits_ret
    | apply emits_stuck
    | solve [eauto with emits]
    | apply emits_call; [first [assumption | intros ? ?; assumption]|]; intros ?; eexists; split; [reflexivity|reflexivity]
    | apply emits_bind; [|intros ?]
    | match goal with |- emits _ (match ?x with _ => _ end) => destruct x end
    | match goal with |- emits _ (let '_ := ?x in _) => destruct x end ].
Ltac emit := repeat emits_step.

Section Quiet.
Context `{SY : System} (p : event -> bool) (Hp : forall e, quiet e = true -> p e = true) (fuel : nat).

Lemma close_opt_emits o : emits p (close_opt o).
Proof. unfold close_opt. emit. Qed.
Lemma walk_emits fd l : emits p (walk fd l).
Proof. revert fd. induction l as [|c l IH]; intros fd; cbn [walk]; emit; apply IH. Qed.
Lemma stopped_emits s : emits p (stopped s).
Proof. unfold stopped. emit. Qed.
#[local] Hint Resolve close_opt_emits walk_emits stopped_emits : emits.

Lemma directory_at_emits fd n : emits p (directory_at fd n).
Proof. unfold directory_at. emit. Qed.
#[local] Hint Resolve directory_at_emits : emits.
Lemma make_path_emits fd l : emits p (make_path fd l).
Proof. revert fd. induction l as [|c l IH]; intros fd; cbn [make_path]; emit; apply IH. Qed.
#[local] Hint Resolve make_path_emits : emits.
Lemma destination_emits s r : emits p (destination s r).
Proof. unfold destination. emit. Qed.
Lemma open_path_emits fd l : emits p (open_path fd l).
Proof. revert fd. induction l as [|c l IH]; intros fd; cbn [open_path]; emit; apply IH. Qed.
Lemma same_fd_emits a b : emits p (same_fd a b).
Proof. unfold same_fd. emit. Qed.
#[local] Hint Resolve open_path_emits same_fd_emits : emits.
Lemma destination_current_emits s r c tm : emits p (destination_current s r c tm).
Proof. unfold destination_current. emit. Qed.
Lemma create_loop_emits n s fd q d : emits p (create_loop n s fd q d).
Proof. revert q d. induction n as [|n IH]; intros q d; cbn [create_loop]; emit; apply IH. Qed.
Lemma create_owned_emits s fd q : emits p (create_owned s fd q).
Proof. apply create_loop_emits. Qed.
Lemma source_current_emits a n fd x : emits p (source_current a n fd x).
Proof. unfold source_current. emit. Qed.
Lemma lock_current_emits s : emits p (lock_current s).
Proof. unfold lock_current. emit. Qed.
Lemma digest_loop_emits n s fd z q h : emits p (digest_loop n s fd z q h).
Proof. revert q h. induction n as [|n IH]; intros q h; cbn [digest_loop]; emit; apply IH. Qed.
#[local] Hint Resolve digest_loop_emits : emits.
Lemma source_digest_emits s fd z d : emits p (source_digest fuel s fd z d).
Proof. unfold source_digest. emit. Qed.
Lemma published_name_emits s n q a c : emits p (published_name s n q a c).
Proof. unfold published_name. emit. Qed.
Lemma recovery_path_emits a b c : emits p (recovery_path a b c).
Proof. unfold recovery_path. emit. Qed.
Lemma destination_path_emits s a b c : emits p (destination_path s a b c).
Proof. unfold destination_path. emit. Qed.
End Quiet.

(** ** What was read and written *)

(** The bytes read from [fd], from its start, by the calls of a piece of a trace. *)
Inductive reading (fd : Z) : trace -> bytes -> Prop :=
  | reading_nil : reading fd [] []
  | reading_stop b v d : reading fd v d -> reading fd (Stop b :: v) d
  | reading_error n off e v d : reading fd v d -> reading fd (Pread fd n off (inl e) :: v) d
  | reading_data n x v d : reading fd v d -> reading fd (Pread fd n (zlen d) (inr x) :: v) (d ++ x).

(** The bytes read from [source], from its start, with those written to [file]. *)
Inductive copying (source file : Z) : trace -> bytes -> bytes -> Prop :=
  | copying_nil : copying source file [] [] []
  | copying_stop b v d w : copying source file v d w -> copying source file (Stop b :: v) d w
  | copying_read_error n off e v d w : copying source file v d w -> copying source file (Pread source n off (inl e) :: v) d w
  | copying_read n x v d w : copying source file v d w -> copying source file (Pread source n (zlen d) (inr x) :: v) (d ++ x) w
  | copying_write_error x e v d w : copying source file v d w -> copying source file (Write file x (inl e) :: v) d w
  | copying_write x k v d w : copying source file v d w -> copying source file (Write file x (inr k) :: v) d (w ++ take k x).

Definition hashed (h : jf_sha256) (m : bytes) : Prop := absorbed h m /\ count_ h = zlen m mod 2 ^ 64.

Lemma hashed_init : hashed stack_hash [].
Proof. split; [now apply absorbed_init|reflexivity]. Qed.

Lemma hashed_update h m d : hashed h m -> hashed (jf_sha256_update h d) (m ++ d).
Proof.
  intros [Ha Hc]. destruct (updates_absorbed h m [d] Ha Hc) as [A C]. cbn [updates fold_left concat] in *. rewrite app_nil_r in *. now split.
Qed.

Lemma hashed_hex h m : hashed h m -> jf_sha256_hex h = fips_hex m.
Proof. intros [Ha Hc]. now apply hex_absorbed. Qed.

(** Reduces a program that gave a result one call at a time. *)
Ltac run := unfold mbind, io_bind, mret, io_ret, stuck in *.
Section Reading.
Context `{SY : System}.

Lemma stopped_reading s t r t' fd v d : stopped s t = (r, t') -> reading fd v d -> exists u, t' = u ++ t /\ reading fd (u ++ v) d.
Proof.
  unfold stopped, stop_requested. destruct (stop s); intros [= <- <-] H;
    [eexists [_]; split; [reflexivity|now constructor]..|now exists []].
Qed.

Lemma stopped_copying s t r t' a b v d w : stopped s t = (r, t') -> copying a b v d w -> exists u, t' = u ++ t /\ copying a b (u ++ v) d w.
Proof.
  unfold stopped, stop_requested. destruct (stop s); intros [= <- <-] H;
    [eexists [_]; split; [reflexivity|now constructor]..|now exists []].
Qed.

Lemma digest_loop_reading n s fd size h m t0 v t q h' :
  digest_loop n s fd size (zlen m) h (v ++ t0) = (Some (inr (q, h')), t) -> hashed h m -> reading fd v m ->
  exists v' d, t = v' ++ t0 /\ reading fd v' d /\ q = zlen d /\ hashed h' d /\ head v' = Some (Pread fd (Z.to_nat COPY_CHUNK) q (inr [])).
Proof.
  revert h m v. induction n as [|n IH]; intros h m v; [discriminate|]. cbn [digest_loop]. intros H Hh Hr. run.
  destruct (stopped s (v ++ t0)) as [[b|] t1] eqn:Es; [|discriminate]. destruct b; [discriminate|].
  destruct (stopped_reading _ _ _ _ _ _ _ Es Hr) as (u & -> & Hu). rewrite app_assoc in H.
  unfold pread in H. destruct (on_pread _ _ _ _) as [[]|x]; try discriminate.
  - eapply (IH h m (Pread fd (Z.to_nat COPY_CHUNK) (zlen m) (inl EINTR) :: u ++ v)); [exact H|assumption|constructor; exact Hu].
  - destruct (take _ x) as [|c y] eqn:Ex.
    + injection H as <- <- <-. eexists (_ :: u ++ v), m. split; [reflexivity|]. split_and!; [|reflexivity|assumption|reflexivity].
      pose proof (reading_data fd (Z.to_nat COPY_CHUNK) [] _ _ Hu) as R. now rewrite app_nil_r in R.
    + destruct (_ <? _); [discriminate|].
      eapply (IH (jf_sha256_update h (c :: y)) (m ++ c :: y) (Pread fd (Z.to_nat COPY_CHUNK) (zlen m) (inr (c :: y)) :: u ++ v)); [|now apply hashed_update|constructor; exact Hu].
      rewrite <- H. f_equal. unfold zlen. rewrite length_app. lia.
Qed.

Lemma write_all_copying n s a file data t0 v t d w :
  write_all n s file data (v ++ t0) = (Some None, t) -> copying a file v d w ->
  exists v', t = v' ++ t0 /\ copying a file v' d (w ++ data).
Proof.
  revert data v w. induction n as [|n IH]; intros data v w; destruct data as [|c data]; cbn [write_all]; try discriminate.
  1,2: intros [= <-] H; exists v; now rewrite app_nil_r.
  intros H Hc. run. destruct (stopped s (v ++ t0)) as [[b|] t1] eqn:Es; [|discriminate]. destruct b; [discriminate|].
  destruct (stopped_copying _ _ _ _ _ _ _ _ _ Es Hc) as (u & -> & Hu). rewrite app_assoc in H.
  unfold write in H. destruct (on_write _ _ _) as [[]|k]; try discriminate.
  - eapply (IH (c :: data) (Write file (c :: data) (inl EINTR) :: u ++ v)); [exact H|constructor; exact Hu].
  - destruct (Nat.min k _) as [|j] eqn:Ek; [discriminate|].
    destruct (IH (drop (S j) (c :: data)) (Write file (c :: data) (inr (S j)) :: u ++ v) (w ++ take (S j) (c :: data))) as (v' & -> & Hv');
      [exact H|now constructor|]. exists v'. split; [reflexivity|]. now rewrite <- app_assoc, take_drop in Hv'.
Qed.

Lemma copy_loop_copying fuel n s a file size hs h hd m t0 v t h' hd' :
  copy_loop fuel n s a file size hs (zlen m) h hd (v ++ t0) = (Some (inr (h', hd')), t) -> zlen m <= Z.max 0 size ->
  hashed h m -> hashed hd (take (Z.to_nat hs) m) -> copying a file v m m ->
  exists v' d, t = v' ++ t0 /\ copying a file v' d d /\ zlen d = Z.max 0 size /\ hashed h' d /\ hashed hd' (take (Z.to_nat hs) d).
Proof.
  intros H. revert h hd m v H. induction n as [|n IH]; intros h hd m v; cbn [copy_loop]; intros H Hsz Hh Hd Hc.
  all: destruct (Z.leb_spec size (zlen m)); [injection H as <- <- <-; exists v, m; split_and!; auto; unfold zlen in *; lia|].
  1: discriminate.
  run. destruct (stopped s (v ++ t0)) as [[b|] t1] eqn:Es; [|discriminate]. destruct b; [discriminate|].
  destruct (stopped_copying _ _ _ _ _ _ _ _ _ Es Hc) as (u & -> & Hu). rewrite app_assoc in H.
  set (want := Z.to_nat _) in H. unfold pread in H. destruct (on_pread _ _ _ _) as [[]|x]; try discriminate.
  { eapply (IH h hd m (Pread a want (zlen m) (inl EINTR) :: u ++ v)); eauto. constructor; exact Hu. }
  assert (Hx : (length (take want x) <= want)%nat) by (rewrite length_take; lia). set (y := take want x) in *. clearbody y.
  destruct y as [|c y]; [discriminate|].
  destruct (write_all _ _ _ _ _) as [[[]|] t1] eqn:Ew in H; try discriminate.
  destruct (write_all_copying _ _ _ _ _ _ _ _ _ _ (Ew : write_all fuel s file (c :: y) ((Pread a want (zlen m) (inr (c :: y)) :: u ++ v) ++ t0) = _)
    (copying_read a file want (c :: y) _ _ _ Hu)) as (v' & -> & Hv').
  assert (El : zlen m + zlen (c :: y) = zlen (m ++ c :: y)) by (unfold zlen; rewrite length_app; lia). rewrite El in H.
  eapply (IH _ _ (m ++ c :: y) v'); [exact H| |now apply hashed_update| |exact Hv'].
  - rewrite <- El. unfold want, zlen in *. lia.
  - destruct (Z.ltb_spec (zlen m) hs).
    + apply hashed_update with (d := take (Z.to_nat (hs - zlen m)) (c :: y)) in Hd.
      rewrite (take_ge m) in Hd by (unfold zlen in *; lia).
      replace (take (Z.to_nat hs) (m ++ c :: y)) with (m ++ take (Z.to_nat (hs - zlen m)) (c :: y)); [exact Hd|].
      rewrite take_app, (take_ge m) by (unfold zlen in *; lia). do 2 f_equal. unfold zlen. lia.
    + rewrite take_app_le by (unfold zlen in *; lia). exact Hd.
Qed.
End Reading.

(** ** What a trace shows *)

Abbreviation anything := (fun _ : trace => True).

(** [e] was called when [P] held of the calls before it. *)
Definition after (e : event) (P : trace -> Prop) (t : trace) : Prop := exists a b, t = a ++ e :: b /\ P b.

(** All of [fd] was read, and had [size] bytes of this digest, when [P] held. *)
Definition read_whole (fd size : Z) (digest_ : bytes) (P : trace -> Prop) (t : trace) : Prop :=
  exists a v b d, t = a ++ v ++ b /\ reading fd v d /\ head v = Some (Pread fd (Z.to_nat COPY_CHUNK) size (inr [])) /\
    zlen d = size /\ digest_ = fips_hex d /\ P b.

(** Its [size] bytes were copied to [file], with the digests of all and of the headers. *)
Definition copied_whole (source file size hs : Z) (hdigest digest_ : bytes) (P : trace -> Prop) (t : trace) : Prop :=
  exists a v b d, t = a ++ v ++ b /\ copying source file v d d /\ zlen d = size /\ digest_ = fips_hex d /\
    hdigest = fips_hex (take (Z.to_nat hs) d) /\ P b.

Lemma after_app e P u t : after e P t -> after e P (u ++ t).
Proof. intros (a & b & -> & H). exists (u ++ a), b. now rewrite app_assoc. Qed.
Lemma after_here e (P : trace -> Prop) t : P t -> after e P (e :: t).
Proof. now exists [], t. Qed.
Lemma read_whole_app fd z d P u t : read_whole fd z d P t -> read_whole fd z d P (u ++ t).
Proof. intros (a & v & b & x & -> & H). exists (u ++ a), v, b, x. now rewrite app_assoc. Qed.
Lemma copied_whole_app a b z hs hd d P u t : copied_whole a b z hs hd d P t -> copied_whole a b z hs hd d P (u ++ t).
Proof. intros (c & v & w & x & -> & H). exists (u ++ c), v, w, x. now rewrite app_assoc. Qed.
Lemma after_cons e P f t : after e P t -> after e P (f :: t).
Proof. apply (after_app e P [f]). Qed.
Create HintDb shown.
#[export] Hint Resolve after_app after_here read_whole_app copied_whole_app after_cons : shown.

Section Digests.
Context `{SY : System} (fuel : nat).

Lemma source_digest_whole s fd size d t t' (P : trace -> Prop) :
  source_digest fuel s fd size d t = (Some true, t') -> P t -> read_whole fd size d P t'.
Proof.
  unfold source_digest. run. intros H HP. destruct (digest_loop _ _ _ _ _ _ _) as [[[e|[q h]]|] t1] eqn:E; try discriminate.
  injection H as Hb <-. apply andb_true_iff in Hb as [Hq Hd]. apply Z.eqb_eq in Hq as ->. apply streq_spec in Hd.
  destruct (digest_loop_reading _ _ _ _ _ [] _ [] _ _ _ E hashed_init (reading_nil fd)) as (v & x & -> & Hr & -> & Hh & Hl).
  exists [], v, t, x. split_and!; auto. now rewrite <- Hd, <- (hashed_hex _ _ Hh).
Qed.

Lemma copy_message_whole s source file x hs hd t d t' (P : trace -> Prop) :
  copy_message fuel s source file x hs hd t = (Some (inr d), t') -> P t ->
  read_whole file (st_size x) d (after (Fsync file true) (copied_whole source file (st_size x) hs hd d P)) t'.
Proof.
  unfold copy_message. run. intros H HP.
  destruct (copy_loop _ _ _ _ _ _ _ _ _ _ _) as [[[e|[h1 h2]]|] t1] eqn:Ec; try discriminate.
  destruct (copy_loop_copying _ _ _ _ _ _ _ _ _ [] t [] _ _ _ Ec ltac:(unfold zlen; cbn [length]; lia) hashed_init
    ltac:(rewrite take_nil; apply hashed_init) (copying_nil source file))
    as (v & m & -> & Hc & Hm & H1 & H2).
  destruct (streq (jf_sha256_hex h2) hd) eqn:E2; [|discriminate]. apply streq_spec in E2. cbn [negb] in H.
  unfold syncfd in H. destruct (on_fsync _ _) eqn:Ef; [|discriminate]. cbn [negb] in H.
  destruct (digest_loop _ _ _ _ _ _ _) as [[[[]|[q h3]]|] t1] eqn:Ed; try discriminate.
  destruct (q =? st_size x) eqn:Eq; [|discriminate]. destruct (streq _ _) eqn:E3; [|discriminate]. cbn [negb orb] in H.
  apply Z.eqb_eq in Eq. apply streq_spec in E3. injection H as <- <-.
  destruct (digest_loop_reading _ _ _ _ _ [] _ [] _ _ _ Ed hashed_init (reading_nil file)) as (v' & x' & -> & Hr & Hq & Hh & Hl).
  exists [], v', (Fsync file true :: v ++ t), x'. split_and!; auto; [congruence..|now rewrite E3, (hashed_hex _ _ Hh)|].
  apply after_here. exists [], v, t, m. split_and!; auto; [rewrite Hm, <- Eq, Hq; unfold zlen; lia|now rewrite (hashed_hex _ _ H1)|now rewrite <- E2, (hashed_hex _ _ H2)].
Qed.
End Digests.

(** ** What a move may do *)

(** The objects of one publication: the staging directory, the copy and its
    duplicate descriptor, the directory [cur], the name in it, the digest of the
    message and the identity of the copy. *)
Record publication := MkPublication {
  p_stage : Z; p_file : Z; p_copyfd : Z; p_cur : Z; p_final : bytes; p_copied : bytes; p_identity : stat }.

Definition renames (e : event) : bool := match e with Renameat _ _ _ _ true => true | _ => false end.

Section Rules.
Context (s : jf_storage) (parent : Z) (name : bytes) (source size header_size : Z) (header_digest relative : bytes).

(** The copy was made from the source, synchronised, and read back. *)
Definition copy_verified (p : publication) : trace -> Prop :=
  read_whole (p_file p) size (p_copied p) (after (Fsync (p_file p) true)
    (copied_whole source (p_file p) size header_size header_digest (p_copied p)
      (after (Openat (p_stage p) (str "message") NewFile (Some (p_file p))) anything))).

Definition copy_kept (p : publication) : trace -> Prop :=
  after (Dup (p_file p) (Some (p_copyfd p))) (after (Fstat (p_file p) (Some (p_identity p))) (copy_verified p)).

(** It was linked to its final name, then the file and the directory synchronised. *)
Definition linked (p : publication) : trace -> Prop :=
  after (Linkat (p_stage p) (str "message") (p_cur p) (p_final p) None) (copy_kept p).
Definition published (p : publication) : trace -> Prop :=
  after (Fsync (p_cur p) true) (after (Fsync (p_copyfd p) true) (linked p)).

(** With the lock held, the final name was still the copy and had its bytes. *)
Definition confirmed (p : publication) (P : trace -> Prop) : trace -> Prop :=
  read_whole (p_copyfd p) size (p_copied p) (fun t => exists a, bytes_identity a (p_identity p) = true /\
    after (Fstatat (p_cur p) (p_final p) (Some a)) (after (Setlk (fdz (lock s)) None) P) t).

Definition claimed (claim_fd : Z) (p : publication) : trace -> Prop :=
  after (Renameat parent name claim_fd name true) (confirmed p (published p)).
Definition claim_synced (claim_fd : Z) (p : publication) : trace -> Prop :=
  after (Fsync parent true) (after (Fsync claim_fd true) (claimed claim_fd p)).
Definition removable (claim_fd : Z) (p : publication) : trace -> Prop :=
  read_whole source size (p_copied p) (confirmed p (claim_synced claim_fd p)).
Definition removed (claim_fd : Z) (p : publication) : trace -> Prop :=
  after (Unlinkat claim_fd name true) (removable claim_fd p).

(** What allows a call after the calls [t]. *)
Definition allowed (e : event) (t : trace) : Prop :=
  match e with
  | Write fd _ _ => exists a, after (Openat a (str "message") NewFile (Some fd)) anything t
  | Linkat a n c f _ =>
      (exists p, n = str "message" /\ a = p_stage p /\ c = p_cur p /\ f = p_final p /\ copy_kept p t) \/
      (exists p, n = name /\ c = parent /\ f = name /\ claimed a p t)
  | Renameat a n c f _ => a = parent /\ n = name /\ f = name /\ exists p, confirmed p (published p) t
  | Renameat2 a n c f _ => n = name /\ c = parent /\ f = name /\ exists p, claimed a p t
  | Unlinkat fd n _ =>
      (n = str "message" /\ exists f, after (Openat fd (str "message") NewFile (Some f)) anything t) \/
      (n = name /\ exists p, removable fd p t) \/
      (n = name /\ exists p, after (Linkat fd name parent name None) (claimed fd p) t)
  | Rmdirat a n _ => after (Mkdirat a n None) anything t
  | _ => True
  end.

(** Every call was allowed by those before it. *)
Fixpoint Safe (t : trace) : Prop :=
  match t with [] => True | e :: t' => allowed e t' /\ Safe t' end.

(** The path of a name in [cur] of the destination. *)
Definition final_path (p : publication) : bytes :=
  root_path s ++ str "/" ++ relative ++ str "/" ++ str "cur" ++ str "/" ++ p_final p.

Definition unmoved (t : trace) : Prop := existsb renames t = false.

Lemma safe_quiet u t : forallb quiet u = true -> Safe t -> Safe (u ++ t).
Proof.
  induction u as [|e u IH]; cbn; [auto|]. intros [He Hu]%andb_true_iff Ht. split; [|auto]. now destruct e.
Qed.

Lemma unmoved_app u t : existsb renames u = false -> unmoved t -> unmoved (u ++ t).
Proof. unfold unmoved. intros Hu Ht. now rewrite existsb_app, Hu, Ht. Qed.

Lemma quiet_renames u : forallb quiet u = true -> existsb renames u = false.
Proof. induction u as [|e u IH]; cbn; [auto|]. intros [He Hu]%andb_true_iff. rewrite IH by auto. now destruct e. Qed.

Lemma copy_kept_app p u t : copy_kept p t -> copy_kept p (u ++ t). Proof. apply after_app. Qed.
Lemma linked_app p u t : linked p t -> linked p (u ++ t). Proof. apply after_app. Qed.
Lemma published_app p u t : published p t -> published p (u ++ t). Proof. apply after_app. Qed.
Lemma confirmed_app p P u t : confirmed p P t -> confirmed p P (u ++ t). Proof. apply read_whole_app. Qed.
Lemma claimed_app fd p u t : claimed fd p t -> claimed fd p (u ++ t). Proof. apply after_app. Qed.
Lemma claim_synced_app fd p u t : claim_synced fd p t -> claim_synced fd p (u ++ t). Proof. apply after_app. Qed.
Lemma removed_app fd p u t : removed fd p t -> removed fd p (u ++ t). Proof. apply after_app. Qed.
End Rules.
#[export] Hint Resolve copy_kept_app linked_app published_app confirmed_app claimed_app claim_synced_app removed_app : shown.

(** ** The invariant of a move *)

Section Invariant.
Context `{SY : System} (fuel : nat) (s : jf_storage) (parent : Z) (name : bytes) (source : Z) (expected : stat).
Context (header_size : Z) (header_digest relative source_path : bytes).

Abbreviation safe := (Safe s parent name source (st_size expected) header_size header_digest).
Abbreviation final_path := (final_path s relative).
Abbreviation copy_kept := (copy_kept source (st_size expected) header_size header_digest).
Abbreviation linked := (linked source (st_size expected) header_size header_digest).
Abbreviation published := (published source (st_size expected) header_size header_digest).
Abbreviation confirmed := (confirmed s (st_size expected)).
Abbreviation claimed := (claimed s parent name source (st_size expected) header_size header_digest).
Abbreviation claim_synced := (claim_synced s parent name source (st_size expected) header_size header_digest).
Abbreviation removed := (removed s parent name source (st_size expected) header_size header_digest).
Abbreviation may := (allowed s parent name source (st_size expected) header_size header_digest).

(** The path reported for a message left in the claim directory. *)
Definition kept_path (d : owned_directory) : bytes :=
  (match before_slash source_path with Some p => p | None => [] end) ++ str "/" ++ o_name d ++ str "/" ++ name.

(** Where the message is: at its name, in the claim directory, or published only. *)
Definition at_source (l : locals) (t : trace) : Prop := l_claimed l = false /\ unmoved t.
Definition in_claim (l : locals) (t : trace) : Prop :=
  l_claimed l = true /\ exists fd p, o_fd (l_claim l) = Some fd /\ o_created (l_claim l) = true /\
    l_claim_path l = Some (kept_path (l_claim l)) /\ l_final_path l = Some (final_path p) /\ claimed fd p t.
Definition gone_from (l : locals) (t : trace) : Prop :=
  l_claimed l = false /\ exists fd p, l_final_path l = Some (final_path p) /\ removed fd p t.

(** A directory that was made here. *)
Definition mine (d : owned_directory) (t : trace) : Prop :=
  o_created d = true -> after (Mkdirat (o_parent d) (o_name d) None) anything t.

Definition clean (l : locals) : Prop :=
  l_staged l = false /\ o_created (l_stage l) = false /\ o_created (l_claim l) = false /\ l_file l = None.

Definition status_ok (l : locals) (t : trace) : Prop :=
  l_rc l = 7 \/ (l_rc l = 1 /\ at_source l t /\ forallb quiet t = true /\ clean l) \/ (l_rc l = 0 /\ gone_from l t /\ clean l).

Definition Inv (l : locals) (t : trace) : Prop :=
  safe t /\ (at_source l t \/ in_claim l t \/ gone_from l t) /\ status_ok l t /\
  mine (l_stage l) t /\ mine (l_claim l) t /\
  (l_staged l = true -> exists fd f, o_fd (l_stage l) = Some fd /\ after (Openat fd (str "message") NewFile (Some f)) anything t).

Lemma mine_app d u t : mine d t -> mine d (u ++ t).
Proof. intros H Hd. now apply after_app, H. Qed.

Lemma in_claim_app l u t : in_claim l t -> in_claim l (u ++ t).
Proof. intros (H & fd & p & H1 & H2 & H3 & H4 & H5). split; [assumption|]. exists fd, p. split_and!; auto with shown. Qed.

Lemma gone_from_app l u t : gone_from l t -> gone_from l (u ++ t).
Proof. intros (H & fd & p & H1 & H2). split; [assumption|]. exists fd, p. split; auto with shown. Qed.

(** Calls that are allowed and rename nothing keep the invariant, of a move that has not
    found its message in place. *)
Lemma inv_app l u t : existsb renames u = false -> safe (u ++ t) -> (l_rc l = 1 -> forallb quiet u = true) -> Inv l t -> Inv l (u ++ t).
Proof.
  intros Hu Hs Hq (H1 & H2 & H3 & H4 & H5 & H6).
  assert (Ha : at_source l t -> at_source l (u ++ t)) by (intros [A B]; split; [assumption|now apply unmoved_app]).
  split_and!; auto using mine_app.
  - destruct H2 as [H2|[H2|H2]]; auto using in_claim_app, gone_from_app.
  - destruct H3 as [H3|[(E & H3 & H3' & Hc)|(E & H3 & Hc)]]; [now left|right; left|right; right]; split_and!; auto using gone_from_app.
    rewrite forallb_app, H3'. now rewrite Hq.
  - intros E. destruct (H6 E) as (fd & f & A & B). exists fd, f. auto with shown.
Qed.

Lemma inv_quiet l u t : forallb quiet u = true -> Inv l t -> Inv l (u ++ t).
Proof. intros Hu H. apply inv_app; auto using quiet_renames. apply safe_quiet; [assumption|]. now destruct H. Qed.

(** *** Steps *)

(** From [P] the step gives [Q], jumps to [done] with the invariant, or has made
    only allowed calls when its fuel ends. *)
Definition spec {A} (m : step A) (P : locals -> trace -> Prop) (Q : A -> locals -> trace -> Prop) : Prop :=
  forall l t, P l t ->
    match m l t with
    | (Some (l', Some a), t') => Q a l' t'
    | (Some (l', None), t') => Inv l' t'
    | (None, t') => safe t'
    end.

(** [P] survives quiet calls and holds only with the invariant. *)
Definition steady (P : locals -> trace -> Prop) : Prop :=
  (forall l t u, forallb quiet u = true -> P l t -> P l (u ++ t)) /\ (forall l t, P l t -> Inv l t).

Lemma spec_bind {A B} (m : step A) (f : A -> step B) P Q R :
  spec m P Q -> (forall a, spec (f a) (Q a) R) -> spec (m ≫= f) P R.
Proof.
  intros Hm Hf l t HP. unfold mbind, step_bind. specialize (Hm l t HP).
  destruct (m l t) as [[[l' [a|]]|] t']; auto. exact (Hf a l' t' Hm).
Qed.

Lemma spec_ret {A} (a : A) (P : locals -> trace -> Prop) (Q : A -> locals -> trace -> Prop) :
  (forall l t, P l t -> Q a l t) -> spec (mret a) P Q.
Proof. intros H l t HP. now apply H. Qed.

Lemma spec_update f (P : locals -> trace -> Prop) Q : (forall l t, P l t -> Q tt (f l) t) -> spec (update f) P Q.
Proof. intros H l t HP. now apply H. Qed.

Lemma spec_get {A} (f : locals -> A) (P : locals -> trace -> Prop) :
  spec (get f) P (fun a l t => P l t /\ a = f l).
Proof. intros l t HP. now split. Qed.

Lemma spec_leave {A} (P : locals -> trace -> Prop) Q : (forall l t, P l t -> Inv l t) -> spec (leave (A := A)) P Q.
Proof. intros H l t HP. now apply H. Qed.

Lemma spec_leave_with {A} d (P : locals -> trace -> Prop) Q : (forall l t, P l t -> Inv l t) -> spec (leave_with (A := A) d) P Q.
Proof. intros H l t HP. exact (H l t HP). Qed.

Lemma spec_pre {A} (m : step A) (P P' : locals -> trace -> Prop) Q : (forall l t, P l t -> P' l t) -> spec m P' Q -> spec m P Q.
Proof. intros H Hm l t HP. now apply Hm, H. Qed.

Lemma spec_post {A} (m : step A) P (Q Q' : A -> locals -> trace -> Prop) : (forall a l t, Q' a l t -> Q a l t) -> spec m P Q' -> spec m P Q.
Proof. intros H Hm l t HP. specialize (Hm l t HP). destruct (m l t) as [[[l' [a|]]|] t']; auto. Qed.

(** A quiet program, with what its answer shows. *)
Lemma spec_lift {A} (m : io A) (P : locals -> trace -> Prop) (G : A -> trace -> Prop) :
  emits quiet m -> steady P -> (forall l t a t', P l t -> m t = (Some a, t') -> G a t') ->
  spec (lift m) P (fun a l t => P l t /\ G a t).
Proof.
  intros He [Hs Hi] Hg l t HP. unfold lift. destruct (He t) as (u & E & Q). destruct (m t) as [[a|] t'] eqn:Em; cbn in E; subst t'.
  - split; [now apply Hs|]. eapply Hg; eauto.
  - apply safe_quiet; [assumption|]. now destruct (Hi _ _ HP).
Qed.

Lemma spec_must d (m : io bool) (P : locals -> trace -> Prop) (G : trace -> Prop) :
  emits quiet m -> steady P -> (forall l t t', P l t -> m t = (Some true, t') -> G t') ->
  spec (must d m) P (fun _ l t => P l t /\ G t).
Proof.
  intros He Hs Hg. unfold must. eapply spec_bind.
  - apply (spec_lift m P (fun a t => a = true -> G t)); auto. intros l t [] t' HP E; [|discriminate]. intros _. eauto.
  - intros []; [apply spec_ret; intros l t [H1 H2]; auto|]. apply spec_leave_with. intros l t [H _]. now apply Hs.
Qed.

Lemma spec_must_some {A} d (m : io (option A)) (P : locals -> trace -> Prop) (G : A -> trace -> Prop) :
  emits quiet m -> steady P -> (forall l t a t', P l t -> m t = (Some (Some a), t') -> G a t') ->
  spec (must_some d m) P (fun a l t => P l t /\ G a t).
Proof.
  intros He Hs Hg. unfold must_some. eapply spec_bind.
  - apply (spec_lift m P (fun a t => forall x, a = Some x -> G x t)); auto. intros l t a t' HP E x ->. eauto.
  - intros [a|]; [apply spec_ret; intros l t [H1 H2]; auto|]. apply spec_leave_with. intros l t [H _]. now apply Hs.
Qed.

Definition closed (G : trace -> Prop) : Prop := forall u t, forallb quiet u = true -> G t -> G (u ++ t).

Lemma steady_and P G : steady P -> closed G -> steady (fun l t => P l t /\ G t).
Proof. intros [Hs Hi] Hg. split; [intros l t u Hu [H1 H2]; split; auto|intros l t [H _]; auto]. Qed.
Lemma steady_pure P (L : locals -> Prop) : steady P -> steady (fun l t => P l t /\ L l).
Proof. intros [Hs Hi]. split; [intros l t u Hu [H1 H2]; split; auto|intros l t [H _]; auto]. Qed.
Lemma steady_inv : steady Inv.
Proof. split; auto using inv_quiet. Qed.

Lemma closed_true : closed (fun _ => True).
Proof. easy. Qed.
Lemma closed_after e P : closed (after e P).
Proof. intros u t _. apply after_app. Qed.
Lemma closed_read fd z d P : closed (read_whole fd z d P).
Proof. intros u t _. apply read_whole_app. Qed.
Lemma closed_quiet : closed (fun t => forallb quiet t = true).
Proof. intros u t Hu Ht. now rewrite forallb_app, Hu. Qed.
Lemma closed_unmoved : closed unmoved.
Proof. intros u t Hu Ht. apply unmoved_app; auto using quiet_renames. Qed.
Lemma closed_and F G : closed F -> closed G -> closed (fun t => F t /\ G t).
Proof. intros HF HG u t Hu [H1 H2]. auto. Qed.
Lemma closed_ex {A} (G : A -> trace -> Prop) : (forall x, closed (G x)) -> closed (fun t => exists x, G x t).
Proof. intros H u t Hu [x Hx]. exists x. now apply H. Qed.
Lemma closed_pure (X : Prop) : closed (fun _ => X).
Proof. easy. Qed.
#[local] Hint Resolve steady_and steady_pure steady_inv closed_true closed_after closed_read closed_quiet closed_unmoved closed_and closed_ex closed_pure : steady.

Lemma quiet_ok e : quiet e = true -> quiet e = true.
Proof. auto. Qed.
#[local] Hint Resolve quiet_ok close_opt_emits stopped_emits destination_emits destination_current_emits create_owned_emits source_current_emits
  lock_current_emits source_digest_emits published_name_emits recovery_path_emits destination_path_emits : emits.

(** The invariant does not depend on the detail, the directories or the descriptors. *)
Lemma inv_set_directories a b c l t : Inv l t -> Inv (set_directories a b c l) t.
Proof. exact id. Qed.
Lemma inv_set_copyfd a l t : Inv l t -> Inv (set_copyfd a l) t.
Proof. exact id. Qed.

(** Before anything is written. *)
Definition fresh (l : locals) : Prop :=
  l_claimed l = false /\ l_rc l = 7 /\ l_staged l = false /\ l_file l = None /\ o_created (l_stage l) = false /\ o_created (l_claim l) = false.

Definition idle (l : locals) (t : trace) : Prop := (Inv l t /\ fresh l) /\ forallb quiet t = true.
Lemma steady_idle : steady idle.
Proof. unfold idle. auto with steady. Qed.
#[local] Hint Resolve steady_idle : steady.

Lemma spec_lift_quiet {A} (m : io A) P : emits quiet m -> steady P -> spec (lift m) P (fun _ => P).
Proof. intros He Hs. eapply spec_post; [|apply (spec_lift m P (fun _ _ => True)); auto]. now intros a l t [H _]. Qed.

Lemma spec_must_quiet d m P : emits quiet m -> steady P -> spec (must d m) P (fun _ => P).
Proof. intros He Hs. eapply spec_post; [|apply (spec_must d m P (fun _ => True)); auto]. now intros a l t [H _]. Qed.

Lemma not_stopped_spec P : steady P -> spec (not_stopped s) P (fun _ => P).
Proof. intros HP. apply spec_must_quiet; [emit|assumption]. Qed.

(** A step that only asks. *)
Ltac ask :=
  eapply spec_bind;
  [first [apply not_stopped_spec | apply spec_must_quiet; [now emit|] | apply spec_lift_quiet; [now emit|]]; auto with steady|cbv beta].
Ltac out := apply spec_leave; intros l t H; apply H.

Lemma inv_noop l t : idle l t -> Inv (set_rc 1 l) t.
Proof.
  intros [[(H1 & H2 & H3 & H4 & H5 & H6) (F1 & F2 & F3 & F4 & F5 & F6)] Hq].
  assert (at_source l t) by (split; [assumption|unfold unmoved; now apply quiet_renames]).
  split_and!; auto. right. left. split_and!; auto. now split_and!.
Qed.

Lemma move_checks_spec : spec (move_checks s parent name source expected relative) idle (fun _ => idle).
Proof.
  unfold move_checks.
  ask. intros _. ask. intros _. ask. intros [[[c n] tm] ok].
  eapply spec_bind; [apply (spec_update _ _ (fun _ => idle)); intros l t H; exact H|]. intros [].
  destruct ok; cbn [negb]; [|out]. ask. intros _. ask. intros [a|]; [|out]. ask. intros [b|]; [|out].
  assert (Hnoop : forall Q, spec (_ ← update (set_rc 1); leave (A := Z * Z)) idle Q).
  { intros Q. eapply spec_bind; [apply (spec_update _ _ (fun _ => Inv)); apply inv_noop|]. intros []. now apply spec_leave. }
  destruct (inode a b); [apply Hnoop|]. ask. intros [b'|]; [|out]. destruct (inode a b'); [apply Hnoop|].
  ask. intros _. now apply spec_ret.
Qed.

(** *** The copy *)

Lemma create_loop_mine n st fd q d t ok d' q' t' :
  create_loop n st fd q d t = (Some (ok, d', q'), t') -> o_created d = false ->
  mine d' t' /\ (ok = true -> o_created d' = true) /\ (o_created d' = true -> o_parent d' = fd).
Proof.
  revert q d t. induction n as [|n IH]; intros q d t; cbn [create_loop]; run; unfold mkdirat, fstatat, openat, fstat.
  { intros [= <- <- <- <-] H. unfold mine. rewrite H. easy. }
  destruct (_ =? _); [intros [= <- <- <- <-] H; unfold mine; rewrite H; easy|].
  destruct (on_mkdirat _ _ _) as [[]|]; try (intros H Hd; first [now apply IH in H|injection H as <- <- <- <-; now split_and!]).
  set (nm := owned_name st (q + 1)). set (t1 := Mkdirat fd nm None :: t).
  assert (H1 : after (Mkdirat fd nm None) anything t1) by now apply after_here. clearbody nm t1.
  assert (Hout : forall fd' x b u, after (Mkdirat fd nm None) anything u ->
    mine (MkOwned fd' fd true nm x) u /\ (b = true -> true = true) /\ (true = true -> fd = fd)).
  { intros fd' x b u Hu. unfold mine. cbn [o_created o_parent o_name]. auto. }
  destruct (on_fstatat t1 fd nm) as [id|]; [|intros [= <- <- <- <-] _; apply Hout; auto with shown].
  destruct (on_openat _ _ _ _) as [f|]; intros [= <- <- <- <-] _; apply Hout; auto with shown.
Qed.

Lemma create_owned_mine st fd q t ok d q' t' :
  create_owned st fd q t = (Some (ok, d, q'), t') -> mine d t' /\ (ok = true -> o_created d = true) /\ (o_created d = true -> o_parent d = fd).
Proof. intros H. eapply create_loop_mine; [exact H|reflexivity]. Qed.

(** The copy is being made in [stage_fd]. *)
Definition staging (stage_fd : Z) (l : locals) : Prop :=
  l_claimed l = false /\ l_rc l = 7 /\ o_created (l_claim l) = false /\ o_fd (l_stage l) = Some stage_fd.
Definition filled (stage_fd f : Z) (l : locals) (t : trace) : Prop :=
  ((Inv l t /\ staging stage_fd l) /\ unmoved t) /\ after (Openat stage_fd (str "message") NewFile (Some f)) anything t.
Lemma steady_filled a f : steady (filled a f).
Proof. unfold filled. auto with steady. Qed.

Definition writes_to (f : Z) (e : event) : bool := match e with Write fd _ _ => fd =? f | _ => quiet e end.

Lemma write_all_emits n st f d : emits (writes_to f) (write_all n st f d).
Proof.
  assert (Hp : forall e, quiet e = true -> writes_to f e = true) by (intros []; easy).
  assert (Hw : forall x, emits (writes_to f) (write f x)).
  { intros x t. eexists [_]. split; [reflexivity|]. cbn. now rewrite Z.eqb_refl. }
  revert d. induction n as [|n IH]; intros [|c d]; cbn [write_all]; emit; auto; apply IH.
Qed.

Lemma copy_loop_emits n st a f z hs q h hd : emits (writes_to f) (copy_loop fuel n st a f z hs q h hd).
Proof.
  assert (Hp : forall e, quiet e = true -> writes_to f e = true) by (intros []; easy).
  revert q h hd. induction n as [|n IH]; intros q h hd; cbn [copy_loop]; emit; auto using write_all_emits.
Qed.

Lemma copy_message_emits f : emits (writes_to f) (copy_message fuel s source f expected header_size header_digest).
Proof.
  assert (Hp : forall e, quiet e = true -> writes_to f e = true) by (intros []; easy).
  unfold copy_message. pose proof copy_loop_emits. pose proof (digest_loop_emits (writes_to f) Hp). emit; auto.
Qed.

Lemma writes_renames f u : forallb (writes_to f) u = true -> existsb renames u = false.
Proof. induction u as [|e u IH]; cbn; [auto|]. intros [He Hu]%andb_true_iff. rewrite IH by auto. now destruct e. Qed.

Lemma filled_writes a f l u t : forallb (writes_to f) u = true -> filled a f l t -> filled a f l (u ++ t).
Proof.
  intros Hu [[[Hi Hl] Hm] Ha]. pose proof (writes_renames _ _ Hu) as Hr.
  assert (Hs : safe (u ++ t)).
  { destruct Hi as [Hs _]. clear Hr. revert Hu. induction u as [|e u IH]; cbn; [auto|]. intros [He Hu]%andb_true_iff.
    split; [|auto]. destruct e; try easy. apply Z.eqb_eq in He as ->. exists a. auto with shown. }
  split; [split; [split|]|]; auto using unmoved_app with shown. apply inv_app; auto. destruct Hl as (_ & E & _). lia.
Qed.

Ltac inv_fields := split_and!; auto; try solve [left; assumption | left; split; assumption | cbn; congruence].

(** The copy is verified and its first descriptor closed. *)
Definition ready (stage_fd c : Z) (copied : bytes) (id : stat) (l : locals) (t : trace) : Prop :=
  (((Inv l t /\ staging stage_fd l) /\ l_file l = None) /\ unmoved t) /\
  exists f, copy_kept (MkPublication stage_fd f c 0 [] copied id) t.
Lemma steady_ready a c d i : steady (ready a c d i).
Proof. unfold ready, StorageFacts.copy_kept. auto with steady. Qed.

Definition made_stage (d : owned_directory) (l : locals) (t : trace) : Prop :=
  ((Inv l t /\ fresh (set_stage no_owned (l_seq l) l)) /\ l_stage l = d) /\ unmoved t.
Lemma steady_made d : steady (made_stage d).
Proof.
  unfold made_stage. apply steady_and; [|auto with steady].
  apply (steady_pure _ (fun l => l_stage l = d)), (steady_pure _ (fun l => fresh (set_stage no_owned (l_seq l) l))). auto with steady.
Qed.
#[local] Hint Resolve steady_filled steady_ready steady_made : steady.

Lemma create_stage_spec q d l t : idle l t -> mine d t -> made_stage d (set_stage d q l) t.
Proof.
  intros [[(H1 & H2 & H3 & H4 & H5 & H6) (F1 & F2 & F3 & F4 & F5 & F6)] Hq] Hd.
  assert (Hm : unmoved t) by (unfold unmoved; now apply quiet_renames).
  split; [split; [split|reflexivity]|assumption]; [|now split_and!].
  inv_fields.
Qed.

Lemma stage_file_spec d a f l t : made_stage d l t -> o_fd d = Some a ->
  after (Openat a (str "message") NewFile (Some f)) anything t -> filled a f (set_staged true (set_file (Some f) l)) t.
Proof.
  intros [[[(H1 & H2 & H3 & H4 & H5 & H6) (F1 & F2 & F3 & F4 & F5 & F6)] <-] Hm] Ha Ho. cbn in F1, F2, F3, F4, F5, F6.
  split; [split; [split|]|]; auto; [|now split_and!]. inv_fields. intros _. now exists a, f.
Qed.

Lemma close_file_spec a c copied id f l t : filled a f l t -> copy_kept (MkPublication a f c 0 [] copied id) t ->
  ready a c copied id (set_file None l) t.
Proof.
  intros [[[(H1 & H2 & H3 & H4 & H5 & H6) Hs] Hm] _] Hk. destruct Hs as (S1 & S2 & S3 & S4).
  split; [split; [split; [split|reflexivity]|assumption]|now exists f]; [|now split_and!].
  inv_fields.
Qed.

Lemma spec_writes f {A} (m : io A) a (G : A -> trace -> Prop) : emits (writes_to f) m ->
  (forall l t x t', filled a f l t -> m t = (Some x, t') -> G x t') -> spec (lift m) (filled a f) (fun x l t => filled a f l t /\ G x t).
Proof.
  intros He Hg l t HP. unfold lift. destruct (He t) as (u & E & Q). destruct (m t) as [[x|] t'] eqn:Em; cbn in E; subst t'.
  - split; [now apply filled_writes|]. eapply Hg; eauto.
  - now destruct (filled_writes _ _ _ _ _ Q HP) as [[[[Hs _] _] _] _].
Qed.

Lemma move_copy_spec tmp : spec (move_copy fuel s source expected header_size header_digest relative tmp) idle
  (fun '(a, c, copied, id) => ready a c copied id).
Proof.
  unfold move_copy. eapply spec_bind; [apply spec_get|]. intros q. eapply spec_pre; [intros l t [H _]; exact H|].
  eapply spec_bind.
  { apply (spec_lift _ _ (fun r t => mine r.1.2 t /\ (r.1.1 = true -> o_created r.1.2 = true))); [emit|auto with steady|].
    intros l t [[ok d] q'] t' _ E. now destruct (create_owned_mine _ _ _ _ _ _ _ _ E) as (? & ? & _). }
  intros [[ok d] q']. cbv beta. cbn [fst snd].
  eapply spec_bind; [apply (spec_update _ _ (fun _ => made_stage d)); intros l t (H & Hd & _); now apply create_stage_spec|].
  intros []. cbv beta.
  assert (Hout : forall l t, made_stage d l t -> Inv l t) by (intros l t H; apply H).
  destruct (if ok then o_fd d else None) as [a|] eqn:Ea; [|now apply spec_leave]. assert (Ed : o_fd d = Some a) by now destruct ok. clear Ea.
  eapply spec_bind; [apply (spec_must_some _ _ _ (fun _ _ => True)); [emit|auto with steady|easy]|]. intros path. cbv beta.
  eapply spec_bind; [apply (spec_update _ _ (fun _ => made_stage d)); intros l t [H _]; exact H|]. intros []. cbv beta.
  ask. intros [].
  eapply spec_bind; [apply (spec_update _ _ (fun _ => made_stage d)); intros l t H; exact H|]. intros []. cbv beta.
  eapply spec_bind.
  { apply (spec_lift _ _ (fun r t => forall f, r = Some f -> after (Openat a (str "message") NewFile (Some f)) anything t));
      [emit|auto with steady|]. intros l t r t' _ [= <- <-] f E. rewrite E. now apply after_here. }
  intros [f|]; cbv beta; [|apply spec_leave; intros l t [H _]; auto].
  eapply spec_bind; [apply (spec_update _ _ (fun _ l t => filled a f (set_staged true l) t))|].
  { intros l t [H Ho]. apply (stage_file_spec d); auto. }
  intros []. eapply spec_bind; [apply (spec_update _ _ (fun _ => filled a f)); auto|]. intros []. cbv beta.
  eapply spec_bind.
  { apply (spec_writes f _ a (fun r t => forall d', r = inr d' -> copy_verified source (st_size expected) header_size header_digest
      (MkPublication a f 0 0 [] d' zero_stat) t)); [apply copy_message_emits|].
    intros l t r t' H E d' ->. apply (copy_message_whole _ _ _ _ _ _ _ _ _ _ _ E). apply H. }
  intros [e|copied]; cbv beta; [apply spec_leave_with; intros l t [H _]; apply H|].
  assert (St : steady (fun l t => filled a f l t /\ (forall d', inr (A := string) copied = inr d' ->
    copy_verified source (st_size expected) header_size header_digest (MkPublication a f 0 0 [] d' zero_stat) t))).
  { apply steady_and; [auto with steady|]. intros u t _ H d' E. now apply read_whole_app, H. }
  eapply spec_bind.
  { apply (spec_lift _ _ (fun r t => forall id, r = Some id -> after (Fstat f (Some id)) (copy_verified source (st_size expected) header_size header_digest
      (MkPublication a f 0 0 [] copied zero_stat)) t)); [emit|assumption|].
    intros l t r t' [_ H] [= <- <-] id E. rewrite E. now apply after_here, H. }
  intros [id|]; cbv beta; [|apply spec_leave; intros l t [[H _] _]; apply H].
  eapply spec_pre; [intros l t [[H _] H']; exact (conj H (H' id eq_refl))|]. clear St.
  eapply spec_bind.
  { apply (spec_lift _ _ (fun r t => forall c, r = Some c -> copy_kept (MkPublication a f c 0 [] copied id) t)); [emit|auto with steady|].
    intros l t r t' [_ H] [= <- <-] c E. rewrite E. now apply after_here. }
  intros [c|]; cbv beta; [|apply spec_leave; intros l t [[H _] _]; apply H].
  eapply spec_pre; [intros l t [[H _] H']; exact (conj H (H' c eq_refl))|].
  eapply spec_bind; [apply (spec_update _ _ (fun _ l t => filled a f l t /\ copy_kept (MkPublication a f c 0 [] copied id) t)); intros l t H; exact H|].
  intros []. cbv beta. ask. { unfold StorageFacts.copy_kept. auto with steady. } intros ok'.
  eapply spec_bind; [apply (spec_update _ _ (fun _ => ready a c copied id)); intros l t [H H']; now apply (close_file_spec a c copied id f)|].
  intros []. destruct ok'; [now apply spec_ret|]. apply spec_leave_with. intros l t H. apply H.
Qed.

(** *** The publication *)

Lemma destination_path_is st rel sub nm t path t' : destination_path st rel sub nm t = (Some (Some path), t') ->
  path = root_path st ++ str "/" ++ rel ++ str "/" ++ sub ++ str "/" ++ nm.
Proof.
  unfold destination_path, alloc. run. destruct (_ <? _); [discriminate|]. destruct (on_alloc _); [|discriminate]. now intros [= <- <-].
Qed.

(** The copy has a final name; [F] holds of the calls. *)
Definition named (p : publication) (F : trace -> Prop) (l : locals) (t : trace) : Prop :=
  (((Inv l t /\ (staging (p_stage p) l /\ l_final_path l = Some (final_path p))) /\ l_file l = None) /\ unmoved t) /\ F t.
Lemma steady_named p F : closed F -> steady (named p F).
Proof.
  intros HF. unfold named. apply steady_and; [|assumption]. apply steady_and; [|auto with steady]. apply (steady_pure _ (fun l => l_file l = None)).
  apply (steady_pure _ (fun l => staging (p_stage p) l /\ l_final_path l = Some (final_path p))). auto with steady.
Qed.

Lemma set_final_spec p l t : ready (p_stage p) (p_copyfd p) (p_copied p) (p_identity p) l t -> linked p t ->
  named p (linked p) (set_final_path (Some (final_path p)) l) t.
Proof.
  intros [[[[(H1 & H2 & H3 & H4 & H5 & H6) (S1 & S2 & S3 & S4)] Hf] Hm] _] Hl.
  split; [split; [split; [split|assumption]|assumption]|assumption]; [|now split_and!].
  inv_fields.
Qed.

Lemma linkat_ready a c copied id cur f (l : locals) t : ready a c copied id l t ->
  match linkat a (str "message") cur f t with
  | (Some None, t') => ready a c copied id l t' /\ exists file, linked (MkPublication a file c cur f copied id) t'
  | (Some _, t') => ready a c copied id l t'
  | (None, t') => False
  end.
Proof.
  unfold linkat. intros [[[[Hi Hs] Hf] Hm] [file Hk]]. set (r := on_linkat _ _ _ _ _). set (e := Linkat _ _ _ _ r).
  assert (H : ready a c copied id l (e :: t)).
  { assert (Hr : l_rc l = 7) by apply Hs.
    split; [split; [split; [split|]|]|]; auto; [|exists file; now apply after_cons].
    apply (inv_app l [e]); auto; [|lia]. split; [|apply Hi]. left. now exists (MkPublication a file c cur f copied id). }
  subst e. destruct r; [exact H|]. split; [exact H|]. exists file. now apply after_here.
Qed.

Lemma publish_loop_spec n a c copied id cur att :
  spec (publish_loop s name relative n a cur att) (ready a c copied id)
    (fun final l t => exists f, let p := MkPublication a f c cur final copied id in named p (linked p) l t).
Proof.
  revert att. induction n as [|n IH]; intros att; cbn [publish_loop]; [apply spec_leave_with; intros l t H; apply H|].
  eapply spec_bind; [apply spec_get|]. intros q. eapply spec_pre; [intros l t [H _]; exact H|].
  ask. intros [e|cand]; [apply spec_leave_with; intros l t H; apply H|].
  eapply spec_bind.
  { apply (spec_must_some _ _ _ (fun path _ => path = root_path s ++ str "/" ++ relative ++ str "/" ++ str "cur" ++ str "/" ++ cand));
      [emit|auto with steady|]. intros l t path t' _ E. exact (destination_path_is _ _ _ _ _ _ _ E). }
  intros path. cbv beta. intros l t [H ->]. unfold mbind at 1, step_bind at 1, lift.
  pose proof (linkat_ready a c copied id cur cand l t H) as Hl. destruct (linkat _ _ _ _ _) as [[r|] t']; [|contradiction].
  destruct r as [[]|]; try exact (proj2 (steady_ready a c copied id) l t' Hl); [now apply IH|].
  destruct Hl as [Hr [f Hl]]. exists f. now apply (set_final_spec (MkPublication a f c cur cand copied id)).
Qed.

Lemma syncfd_true fd t t' : syncfd fd t = (Some true, t') -> t' = Fsync fd true :: t.
Proof. unfold syncfd. destruct (on_fsync t fd); [now intros [= <-]|discriminate]. Qed.

Lemma move_publish_spec cur tmp a c copied id :
  spec (move_publish s parent name source expected relative cur tmp a c id) (ready a c copied id)
    (fun final l t => exists f, let p := MkPublication a f c cur final copied id in named p (published p) l t).
Proof.
  unfold move_publish. ask. intros []. ask. intros []. ask. intros []. ask. intros [].
  eapply spec_bind; [apply publish_loop_spec|]. intros final. cbv beta.
  intros l t [f H]. set (p := MkPublication a f c cur final copied id) in *. revert l t H.
  change (spec (_ ← must "E_DESTINATION_FSYNC" (syncfd c); _ ← must "E_DESTINATION_FSYNC" (syncfd cur); mret final) (named p (linked p))
    (fun final l t => exists f, let p := MkPublication a f c cur final copied id in named p (published p) l t)).
  assert (Hl : steady (named p (linked p))) by (apply steady_named; unfold StorageFacts.linked; auto with steady).
  eapply spec_bind.
  { apply (spec_must _ _ _ (after (Fsync c true) (linked p))); [emit|assumption|].
    intros l t t' [_ H] ->%syncfd_true. now apply after_here. }
  intros []. cbv beta. eapply spec_bind.
  { apply (spec_must _ _ _ (published p)); [emit|auto with steady|]. intros l t t' [_ H] ->%syncfd_true. now apply after_here. }
  intros []. cbv beta. apply spec_ret. intros l t [[[H _] _] H']. exists f. now split.
Qed.

(** *** The end of the staging directory *)

Lemma after_inner e (P Q : trace -> Prop) t : after e P t -> (forall t, P t -> Q t) -> (forall u t, Q t -> Q (u ++ t)) -> Q t.
Proof. intros (a & b & -> & H) HPQ HQ. change (e :: b) with ([e] ++ b). rewrite app_assoc. auto. Qed.

Lemma linked_opened p t : linked p t -> after (Openat (p_stage p) (str "message") NewFile (Some (p_file p))) anything t.
Proof.
  intros H. repeat (eapply after_inner in H; [exact H| |auto with shown]; clear t H; intros t H).
  destruct H as (a & v & b & d & -> & _ & _ & _ & _ & H). apply after_app, after_app. revert H. generalize b. clear. intros t H.
  eapply after_inner; [exact H| |auto with shown]. clear. intros t (a & v & b & d & -> & _ & _ & _ & _ & H). now apply after_app, after_app.
Qed.

Lemma published_linked p t : published p t -> linked p t.
Proof.
  intros H. eapply after_inner; [exact H| |auto with shown]. clear. intros t H. eapply after_inner; [exact H|auto|auto with shown].
Qed.

Lemma remove_owned_safe d t : mine d t -> safe t ->
  match remove_owned d t with
  | (Some (ok, d'), t') => exists u, t' = u ++ t /\ existsb renames u = false /\ safe t' /\ mine d' t' /\
      (ok = true -> o_created d' = false) /\ (d' = d \/ d' = gone d)
  | (None, _) => False
  end.
Proof.
  intros Hd Hs. unfold remove_owned. destruct (o_created d) eqn:Ec; cbn [negb]; [|exists []; split_and!; auto].
  run. unfold fstatat, rmdirat, syncfd. destruct (negb _); [eexists [_]; split_and!; eauto using after_cons; [now split|now intros _; apply after_cons, Hd]|].
  set (t1 := Fstatat _ _ _ :: t). assert (Hm : after (Mkdirat (o_parent d) (o_name d) None) anything t1) by now apply after_cons, Hd.
  destruct (on_rmdirat _ _ _); cbn [negb]; [|eexists [_; _]; split_and!; eauto; [now split|intros _; now apply after_cons]].
  eexists [_; _; _]. split_and!; eauto; [now split|now intros [=]].
Qed.

(** Published, with nothing of the staging directory left. *)
Definition unstaged (p : publication) (l : locals) (t : trace) : Prop :=
  (((Inv l t /\ (l_claimed l = false /\ l_rc l = 7 /\ clean l)) /\ l_final_path l = Some (final_path p)) /\ unmoved t) /\ published p t.
Lemma steady_unstaged p : steady (unstaged p).
Proof.
  unfold unstaged, StorageFacts.published. repeat (apply steady_and; [|auto with steady]).
  apply (steady_pure _ (fun l => l_final_path l = Some (final_path p))), (steady_pure _ (fun l => l_claimed l = false /\ l_rc l = 7 /\ clean l)).
  auto with steady.
Qed.
#[local] Hint Resolve steady_unstaged : steady.

(** Published, with the message gone from the staging directory. *)
Definition emptied (p : publication) (l : locals) (t : trace) : Prop := named p (published p) l t /\ l_staged l = false.
Lemma steady_emptied p : steady (emptied p).
Proof. apply (steady_pure _ (fun l => l_staged l = false)), steady_named. unfold StorageFacts.published. auto with steady. Qed.
#[local] Hint Resolve steady_emptied : steady.

Lemma unlink_stage_spec p d : spec (must d (unlinkat (p_stage p) (str "message"))) (named p (published p)) (fun _ => named p (published p)).
Proof.
  intros l t H. unfold must, mbind, step_bind, lift, unlinkat. set (r := on_unlinkat _ _ _). set (e := Unlinkat _ _ _).
  assert (H' : named p (published p) l (e :: t)).
  { destruct H as [[[[Hi [Hs Hf]] Hl] Hm] Hp].
    split; [split; [split; [split|]|]|]; auto; [|now apply after_cons].
    apply (inv_app l [e]); auto; [|destruct Hs as (_ & E & _); lia]. split; [|apply Hi]. left. split; [reflexivity|].
    exists (p_file p). now apply linked_opened, published_linked. }
  destruct r; [exact H'|]. apply H'.
Qed.

Lemma remove_stage_spec p q d l t : emptied p l t -> l_stage l = d ->
  match remove_owned d t with
  | (Some (ok, d'), t') => Inv (set_stage d' q l) t' /\ (ok = true -> unstaged p (set_stage (MkOwned None (o_parent d') (o_created d') (o_name d') (o_identity d')) q l) t')
  | (None, _) => False
  end.
Proof.
  intros [[[[[Hi [Hs Hf]] Hl] Hm] Hp] He] <-. destruct Hi as (H1 & H2 & H3 & H4 & H5 & H6) eqn:Ei; clear Ei. pose proof (remove_owned_safe (l_stage l) t H4 H1) as Hr.
  destruct (remove_owned _ t) as [[[ok d']|] t']; [|exact Hr]. destruct Hr as (u & -> & Hu & Hsafe & Hd & Hok & Hor).
  destruct Hs as (S1 & S2 & S3 & S4).
  assert (Hi' : Inv l (u ++ t)) by (apply inv_app; auto; lia).
  destruct Hi' as (I1 & I2 & I3 & I4 & I5 & I6).
  assert (Hm' : unmoved (u ++ t)) by now apply unmoved_app.
  split; [inv_fields|]. intros E. split; [split; [split; [split|]|]|]; auto with shown; [|split_and!; auto; split_and!; auto].
  inv_fields.
Qed.

Lemma move_unstage_spec p : spec (move_unstage (p_stage p)) (named p (published p)) (fun _ => unstaged p).
Proof.
  unfold move_unstage. eapply spec_bind; [apply unlink_stage_spec|]. intros []. cbv beta.
  eapply spec_bind; [apply (spec_update _ _ (fun _ => emptied p))|].
  { intros l t [[[[Hi [Hs Hf]] Hl] Hm] Hp]. destruct Hs as (S1 & S2 & S3 & S4), Hi as (I1 & I2 & I3 & I4 & I5 & I6).
    split; [|reflexivity]. split; [split; [split; [split|]|]|]; auto; [|split; [|assumption]; now split_and!]. inv_fields. }
  intros []. cbv beta. ask. intros [].
  eapply spec_bind; [apply spec_get|]. intros d. eapply spec_bind; [apply spec_get|]. intros q. cbv beta.
  intros l t [[H Hd] _]. unfold mbind at 1, step_bind at 1, lift.
  pose proof (remove_stage_spec p q d l t H (eq_sym Hd)) as Hr. destruct (remove_owned d t) as [[[ok d']|] t1]; [|contradiction].
  destruct Hr as [Hi Hu]. cbn [fst snd]. unfold mbind at 1, step_bind at 1, update, mret at 1, io_ret at 1.
  destruct ok; cbn [negb]; [|exact Hi]. specialize (Hu eq_refl).
  unfold mbind, step_bind, lift, close, mret, io_ret. cbn [set_stage]. match goal with |- context [?e :: t1] => exact (proj1 (steady_unstaged p) _ t1 [e] eq_refl Hu) end.
Qed.

(** *** The claim *)

Lemma lock_current_true F t t' : closed F -> lock_current s t = (Some true, t') -> F t -> after (Setlk (fdz (lock s)) None) F t'.
Proof.
  intros HF. unfold lock_current. run. unfold fstat, fstatat, setlk.
  destruct (on_fstat _ _) as [a|]; [|discriminate]. destruct (st_nlink a =? 1); [|discriminate]. cbn [negb].
  destruct (on_fstatat _ _ _) as [b|]; [|discriminate]. destruct (_ || _); [discriminate|].
  destruct (on_setlk _ _); [discriminate|]. intros [= <-] H. apply after_here.
  match goal with |- F (?x :: ?y :: t) => now apply (HF [x; y]) end.
Qed.

Lemma destination_kept_true cur tmp final id F t t' : closed F -> destination_kept s relative cur tmp final id t = (Some true, t') -> F t ->
  exists a, bytes_identity a id = true /\ after (Fstatat cur final (Some a)) F t'.
Proof.
  intros HF. unfold destination_kept. run. destruct (destination_current_emits quiet quiet_ok s relative cur tmp t) as (u & E & Q).
  destruct (destination_current _ _ _ _ _) as [[[]|] t1]; try discriminate. cbn in E. subst t1. cbn [negb]. unfold fstatat.
  destruct (on_fstatat _ _ _) as [a|]; [|discriminate]. intros [= Ha <-] H. exists a. split; [exact Ha|]. apply after_here. exact (HF u t Q H).
Qed.

Lemma still_has_spec d fd copied P (F : trace -> Prop) : steady P -> (forall l t, P l t -> F t) ->
  spec (still_has fuel s expected d fd copied) P (fun _ l t => P l t /\ read_whole fd (st_size expected) copied F t).
Proof.
  intros HP HF. unfold still_has. eapply spec_bind.
  { apply (spec_lift _ _ (fun ok t => ok = true -> read_whole fd (st_size expected) copied F t)); [emit|assumption|].
    intros l t ok t' H E ->. eapply source_digest_whole; eauto. }
  intros []; cbv beta; [apply spec_ret; intros l t [H1 H2]; auto|].
  eapply spec_pre; [intros l t [H _]; exact H|]. ask. intros b. apply spec_leave_with. intros l t H. now apply HP.
Qed.

Lemma destination_verified_spec tmp p P (F : trace -> Prop) : steady P -> closed F -> (forall l t, P l t -> F t) ->
  spec (destination_verified fuel s expected relative (p_cur p) tmp (p_copyfd p) (p_final p) (p_identity p) (p_copied p)) P
    (fun _ l t => P l t /\ confirmed p F t).
Proof.
  intros HP HF HPF. unfold destination_verified.
  eapply spec_bind.
  { apply (spec_must _ _ _ (after (Setlk (fdz (lock s)) None) F)); [emit|assumption|]. intros l t t' H E. eapply lock_current_true; eauto. }
  intros []. cbv beta. eapply spec_bind.
  { apply (spec_must _ _ _ (fun t => exists a, bytes_identity a (p_identity p) = true /\ after (Fstatat (p_cur p) (p_final p) (Some a))
      (after (Setlk (fdz (lock s)) None) F) t)); [emit|auto with steady|]. intros l t t' [_ H] E. eapply destination_kept_true; eauto with steady. }
  intros []. cbv beta. eapply spec_post; [|apply (still_has_spec _ _ _ _ (fun t => exists a, bytes_identity a (p_identity p) = true /\
      after (Fstatat (p_cur p) (p_final p) (Some a)) (after (Setlk (fdz (lock s)) None) F) t)); [auto 8 with steady|now intros l t [_ H]]].
  now intros [] l t [[[H _] _] H'].
Qed.

Lemma recovery_path_is d t path t' : recovery_path source_path (o_name d) name t = (Some (Some path), t') -> path = kept_path d.
Proof.
  unfold recovery_path, alloc. run. destruct (_ <? _); [discriminate|]. destruct (on_alloc _); [|discriminate]. now intros [= <- <-].
Qed.

(** The locals between the claim directory [d] and the claim. *)
Definition prepared (p : publication) (d : owned_directory) (l : locals) : Prop :=
  l_rc l = 7 /\ l_staged l = false /\ o_created (l_stage l) = false /\ l_file l = None /\ l_claim l = d /\ l_final_path l = Some (final_path p).
Definition claiming (p : publication) (d : owned_directory) (l : locals) (t : trace) : Prop :=
  ((Inv l t /\ (l_claimed l = false /\ prepared p d l)) /\ unmoved t) /\ published p t.
Lemma steady_claiming p d : steady (claiming p d).
Proof.
  unfold claiming, StorageFacts.published. repeat (apply steady_and; [|auto with steady]).
  apply (steady_pure _ (fun l => l_claimed l = false /\ prepared p d l)). auto with steady.
Qed.

(** The message is in the claim directory; [F] holds of the calls. *)
Definition holding (p : publication) (d : owned_directory) (F : trace -> Prop) (l : locals) (t : trace) : Prop :=
  (Inv l t /\ (l_claimed l = true /\ prepared p d l)) /\ F t.
Lemma steady_holding p d F : closed F -> steady (holding p d F).
Proof.
  intros HF. apply steady_and; [|assumption]. apply (steady_pure _ (fun l => l_claimed l = true /\ prepared p d l)). auto with steady.
Qed.
#[local] Hint Resolve steady_claiming steady_holding : steady.

Lemma create_claim_spec p d q l t : unstaged p l t -> mine d t -> claiming p d (set_claim d q l) t.
Proof.
  intros [[[[Hi (S1 & S2 & S3)] Hf] Hm] Hp] Hd. destruct Hi as (I1 & I2 & I3 & I4 & I5 & I6), S3 as (C1 & C2 & C3 & C4).
  split; [split; [split|]|]; auto; [|now split_and!]. inv_fields.
Qed.

Lemma claim_path_spec p d path l t : claiming p d l t -> claiming p d (set_claim_path path l) t.
Proof.
  intros [[[Hi [Hc Hp]] Hm] Hpub]. destruct Hi as (I1 & I2 & I3 & I4 & I5 & I6).
  assert (E7 : l_rc l = 7) by apply Hp. split; [split; [split|]|]; auto. inv_fields.
Qed.

Lemma rename_spec p d fd e : o_fd d = Some fd -> o_created d = true ->
  spec (must e (renameat parent name fd name))
    (fun l t => (claiming p d l t /\ l_claim_path l = Some (kept_path d)) /\ confirmed p (published p) t)
    (fun _ l t => holding p d (claimed fd p) (set_claimed true l) t).
Proof.
  intros Hfd Hcr l t [[[[[Hi [Hc Hp]] Hm] Hpub] Hpath] Hcf]. unfold must, mbind, step_bind, lift, renameat.
  set (r := on_renameat _ _ _ _ _). assert (Hs : safe (Renameat parent name fd name r :: t)).
  { split; [|apply Hi]. split_and!; auto. now exists p. }
  assert (E7 : l_rc l = 7) by apply Hp.
  destruct r; cbn [mret step_ret io_ret leave_with].
  - destruct Hi as (I1 & I2 & I3 & I4 & I5 & I6), Hp as (P1 & P2 & P3 & P4 & P5 & P6).
    split; [split; [|now split_and!]|now apply after_here].
    split_and!; auto; [|now left|now apply (mine_app _ [_])|now apply (mine_app _ [_])|cbn; congruence].
    right. left. split; [reflexivity|]. exists fd, p. cbn. rewrite P5. split_and!; auto. now apply after_here.
  - change (Inv l ([Renameat parent name fd name false] ++ t)). apply inv_app; auto. lia.
Qed.

Lemma move_claim_spec tmp p :
  spec (move_claim fuel s parent name source expected relative source_path (p_cur p) tmp (p_copyfd p) (p_final p) (p_identity p) (p_copied p))
    (unstaged p) (fun '(fd, _) l t => exists d, o_fd d = Some fd /\ holding p d (claim_synced fd p) l t).
Proof.
  unfold move_claim. ask. intros []. ask. intros [].
  eapply spec_bind; [apply spec_get|]. intros q. eapply spec_pre; [intros l t [H _]; exact H|].
  eapply spec_bind.
  { apply (spec_lift _ _ (fun r t => mine r.1.2 t /\ (r.1.1 = true -> o_created r.1.2 = true))); [emit|auto with steady|].
    intros l t [[ok d] q'] t' _ E. now destruct (create_owned_mine _ _ _ _ _ _ _ _ E) as (? & ? & _). }
  intros [[ok d] q']. cbv beta. cbn [fst snd].
  apply (spec_pre _ _ (fun l t => (unstaged p l t /\ mine d t) /\ (ok = true -> o_created d = true))); [now intros l t (H & Hd & Hk)|].
  eapply spec_bind; [apply (spec_update _ _ (fun _ l t => claiming p d l t /\ (ok = true -> o_created d = true)))|].
  { intros l t [[H Hd] Hk]. split; [now apply create_claim_spec|assumption]. }
  intros []. cbv beta.
  destruct (if ok then o_fd d else None) as [fd|] eqn:Ea; [|apply spec_leave_with; intros l t [H _]; apply H].
  assert (Ed : o_fd d = Some fd) by now destruct ok. assert (Eok : ok = true) by (now destruct ok). subst ok. clear Ea.
  intros l0 t0 [H0 Hk]. specialize (Hk eq_refl). revert l0 t0 H0.
  match goal with |- forall l t, claiming p d l t -> match ?m l t with _ => _ end => change (spec m (claiming p d)
    (fun '(fd, _) l t => exists d, o_fd d = Some fd /\ holding p d (claim_synced fd p) l t)) end.
  eapply spec_bind; [apply (spec_must_some _ _ _ (fun path _ => path = kept_path d)); [emit|auto with steady|]|].
  { intros l t path t' _ E. eapply recovery_path_is, E. }
  intros path. cbv beta.
  set (P := fun l t => claiming p d l t /\ l_claim_path l = Some (kept_path d)).
  assert (HP : steady P) by (apply (steady_pure _ (fun l => l_claim_path l = Some (kept_path d))); auto with steady).
  eapply spec_bind; [apply (spec_update _ _ (fun _ => P)); intros l t [H ->]; split; [now apply claim_path_spec|reflexivity]|]. intros []. cbv beta.
  ask. intros [].
  eapply spec_bind; [apply (destination_verified_spec tmp p P (published p)); [assumption|unfold StorageFacts.published; auto with steady|intros l t [H _]; apply H]|].
  intros []. cbv beta. eapply spec_bind; [now apply (rename_spec p d fd)|]. intros []. cbv beta.
  eapply spec_bind; [apply (spec_update _ _ (fun _ => holding p d (claimed fd p))); auto|]. intros []. cbv beta.
  assert (HC : steady (holding p d (claimed fd p))) by (unfold StorageFacts.claimed; auto with steady).
  eapply spec_bind; [apply (spec_must_some _ _ _ (fun _ _ => True)); [emit|auto with steady|easy]|]. intros a. cbv beta.
  eapply spec_bind; [apply (spec_must_some _ _ _ (fun _ _ => True)); [emit|auto with steady|easy]|]. intros cl. cbv beta.
  eapply spec_pre; [intros l t [[H _] _]; exact H|]. destruct (negb _); [apply spec_leave_with; intros l t H; apply H|].
  eapply spec_bind; [apply (spec_must _ _ _ (after (Fsync fd true) (claimed fd p))); [emit|auto with steady|]|].
  { intros l t t' [_ H] ->%syncfd_true. now apply after_here. }
  intros []. cbv beta. eapply spec_bind; [apply (spec_must _ _ _ (claim_synced fd p)); [emit|auto with steady|]|].
  { intros l t t' [_ H] ->%syncfd_true. now apply after_here. }
  intros []. cbv beta. apply spec_ret. intros l t [[[H _] _] H']. exists d. now split.
Qed.

(** *** The removal *)

(** Only the published message is left. *)
Definition vacated (p : publication) (d : owned_directory) (fd : Z) (l : locals) (t : trace) : Prop :=
  (Inv l t /\ (l_claimed l = false /\ prepared p d l)) /\ removed fd p t.
Lemma steady_vacated p d fd : steady (vacated p d fd).
Proof.
  unfold vacated, StorageFacts.removed. apply steady_and; [|auto with steady].
  apply (steady_pure _ (fun l => l_claimed l = false /\ prepared p d l)). auto with steady.
Qed.
#[local] Hint Resolve steady_vacated : steady.

Lemma unlink_claim_spec p d fd e :
  spec (must e (unlinkat fd name)) (fun l t => holding p d (claim_synced fd p) l t /\ StorageFacts.removable s parent name source (st_size expected) header_size header_digest fd p t)
    (fun _ l t => vacated p d fd (set_claimed false l) t).
Proof.
  intros l t [[[Hi [Hc Hp]] _] Hr]. unfold must, mbind, step_bind, lift, unlinkat.
  set (r := on_unlinkat _ _ _). assert (Hs : safe (Unlinkat fd name r :: t)).
  { split; [|apply Hi]. right. left. split; [reflexivity|]. now exists p. }
  assert (E7 : l_rc l = 7) by apply Hp.
  destruct r; cbn [mret step_ret io_ret leave_with].
  - destruct Hi as (I1 & I2 & I3 & I4 & I5 & I6), Hp as (P1 & P2 & P3 & P4 & P5 & P6).
    split; [split; [|now split_and!]|now apply after_here].
    split_and!; auto; [|now left|now apply (mine_app _ [_])|now apply (mine_app _ [_])|cbn; congruence].
    right. right. split; [reflexivity|]. exists fd, p. cbn. split; [assumption|]. now apply after_here.
  - change (Inv l ([Unlinkat fd name false] ++ t)). apply inv_app; auto. lia.
Qed.

Lemma remove_claim_spec p d fd q l t : vacated p d fd l t ->
  match remove_owned d t with
  | (Some (ok, d'), t') => Inv (set_claim d' q l) t' /\
      (ok = true -> Inv (set_rc 0 (set_claim (MkOwned None (o_parent d') (o_created d') (o_name d') (o_identity d')) q l)) t')
  | (None, _) => False
  end.
Proof.
  intros [[Hi [Hc Hp]] Hg]. assert (E7 : l_rc l = 7) by apply Hp.
  destruct Hp as (P1 & P2 & P3 & P4 & P5 & P6). assert (Hd : mine d t) by (rewrite <- P5; apply Hi).
  pose proof (remove_owned_safe d t Hd (proj1 Hi)) as Hr.
  destruct (remove_owned _ t) as [[[ok d']|] t']; [|exact Hr]. destruct Hr as (u & -> & Hu & Hsafe & Hd' & Hok & Hor).
  assert (Hi' : Inv l (u ++ t)) by (apply inv_app; auto; lia).
  destruct Hi' as (I1 & I2 & I3 & I4 & I5 & I6).
  assert (Hgone : forall x, gone_from (set_claim x q l) (u ++ t)) by (intros x; split; [assumption|]; exists fd, p; auto with shown).
  split; [split_and!; auto; try solve [right; right; apply Hgone | now left]|]. intros E. split_and!; auto; try solve [right; right; apply Hgone].
  right. right. split; [reflexivity|]. split; [apply Hgone|]. split_and!; auto.
Qed.

Lemma move_remove_spec tmp p d fd cl : o_fd d = Some fd ->
  spec (move_remove fuel s name source expected relative (p_cur p) tmp (p_copyfd p) fd (p_final p) (p_identity p) cl (p_copied p))
    (holding p d (claim_synced fd p)) (fun _ l t => Inv l t).
Proof.
  intros Hfd. assert (HF : closed (claim_synced fd p)) by (unfold StorageFacts.claim_synced; auto with steady).
  assert (HC : closed (confirmed p (claim_synced fd p))) by (unfold StorageFacts.confirmed; auto with steady).
  unfold move_remove. ask. intros [].
  eapply spec_bind; [apply (destination_verified_spec tmp p _ (claim_synced fd p)); [auto with steady|assumption|now intros l t [_ H]]|].
  intros []. cbv beta. ask. intros [].
  eapply spec_bind; [apply (still_has_spec _ source (p_copied p) _ (confirmed p (claim_synced fd p))); [auto with steady|now intros l t [_ H]]|].
  intros []. cbv beta. eapply spec_pre; [intros l t [[H _] H']; exact (conj H H')|].
  ask. intros [].
  eapply spec_bind; [apply unlink_claim_spec|]. intros []. cbv beta.
  eapply spec_bind; [apply (spec_update _ _ (fun _ => vacated p d fd)); auto|]. intros []. cbv beta.
  ask. intros [].
  eapply spec_bind; [apply spec_get|]. intros d0. eapply spec_bind; [apply spec_get|]. intros q. cbv beta.
  intros l t [[H Hd] _]. assert (d0 = d) as -> by (rewrite Hd; apply H). unfold mbind at 1, step_bind at 1, lift.
  pose proof (remove_claim_spec p d fd q l t H) as Hr. destruct (remove_owned d t) as [[[ok d']|] t1]; [|contradiction].
  destruct Hr as [Hi Hu]. cbn [fst snd]. unfold mbind at 1, step_bind at 1, update, mret at 1, io_ret at 1.
  destruct ok; cbn [negb]; [|exact Hi]. specialize (Hu eq_refl).
  unfold mbind, step_bind, lift, close, mret, io_ret.
  match goal with |- context [?e :: t1] => exact (inv_quiet _ [e] t1 eq_refl Hu) end.
Qed.

Lemma start_inv q : Inv (MkLocals no_owned no_owned None None None None None false false None None None q "E_DESTINATION_IO" 7) [].
Proof. split_and!; try easy; [left; now split|now left]. Qed.

Lemma move_body_spec q :
  let l := MkLocals no_owned no_owned None None None None None false false None None None q "E_DESTINATION_IO" 7 in
  match move_body fuel s parent name source expected header_size header_digest relative source_path l [] with
  | (Some (l', _), t) => Inv l' t
  | (None, t) => safe t
  end.
Proof.
  intros l. assert (H : spec (move_body fuel s parent name source expected header_size header_digest relative source_path) idle (fun _ => Inv)).
  { unfold move_body. eapply spec_bind; [apply move_checks_spec|]. intros [cur tmp]. cbv beta.
    eapply spec_bind; [apply move_copy_spec|]. intros [[[a c] copied] id]. cbv beta.
    eapply spec_bind; [apply move_publish_spec|]. intros final. cbv beta.
    intros l0 t0 [f H]. set (p := MkPublication a f c cur final copied id) in *. revert l0 t0 H.
    match goal with |- forall l t, _ -> match ?m l t with _ => _ end => change (spec m (named p (published p)) (fun _ => Inv)) end.
    eapply spec_bind; [apply (move_unstage_spec p)|]. intros []. cbv beta.
    eapply spec_bind; [apply (move_claim_spec tmp p)|]. intros [fd cl]. cbv beta.
    intros l0 t0 (d & Hd & H). exact (move_remove_spec tmp p d fd cl Hd l0 t0 H). }
  specialize (H l [] (conj (conj (start_inv q) (conj eq_refl (conj eq_refl (conj eq_refl (conj eq_refl (conj eq_refl eq_refl)))))) eq_refl)).
  destruct (move_body _ _ _ _ _ _ _ _ _ _ l []) as [[[l' [[]|]]|] t]; exact H.
Qed.

(** *** The end *)

Definition restored (fd : Z) (p : publication) (t : trace) : Prop :=
  after (Renameat2 fd name parent name None) (claimed fd p) t \/ after (Linkat fd name parent name None) (claimed fd p) t.

(** The claim is settled: [kept] is the path reported for a message that stays in
    the claim directory. *)
Definition settled (kept : option bytes) (l : locals) (t : trace) : Prop :=
  (l_rc l = 0 /\ kept = None /\ gone_from l t /\ clean l) \/
  (l_rc l = 1 /\ kept = None /\ l_claimed l = false /\ forallb quiet t = true /\ clean l) \/
  (l_rc l = 7 /\ l_claimed l = false /\ (unmoved t \/ (exists fd p, restored fd p t) \/ gone_from l t)) \/
  (l_rc l = 7 /\ l_claimed l = true /\ l_claim_path l = None /\ exists d fd p, o_fd d = Some fd /\ kept = Some (kept_path d) /\
     l_final_path l = Some (final_path p) /\ claimed fd p t).

Definition ending (kept : option bytes) (l : locals) (t : trace) : Prop :=
  safe t /\ settled kept l t /\ mine (l_stage l) t /\ mine (l_claim l) t /\
  (l_staged l = true -> exists fd f, o_fd (l_stage l) = Some fd /\ after (Openat fd (str "message") NewFile (Some f)) anything t).

Lemma restored_app fd p u t : restored fd p t -> restored fd p (u ++ t).
Proof. intros [H|H]; [left|right]; auto with shown. Qed.

Lemma ending_app k l u t : existsb renames u = false -> safe (u ++ t) -> (l_rc l = 1 -> forallb quiet u = true) ->
  ending k l t -> ending k l (u ++ t).
Proof.
  intros Hu Hs Hq (H1 & H2 & H3 & H4 & H5). split_and!; auto using mine_app.
  - destruct H2 as [(A & B & C & D)|[(A & B & C & D & E)|[(A & B & C)|(A & B & C & d & fd & p & D & E & F & G)]]].
    + left. split_and!; auto using gone_from_app.
    + right. left. split_and!; auto. rewrite forallb_app, D. now rewrite Hq.
    + right. right. left. split_and!; auto. destruct C as [C|[(fd & p & C)|C]]; [left; now apply unmoved_app|right; left|right; right; now apply gone_from_app].
      exists fd, p. now apply restored_app.
    + do 3 right. split_and!; auto. exists d, fd, p. split_and!; auto with shown.
  - intros E. destruct (H5 E) as (fd & f & A & B). exists fd, f. auto with shown.
Qed.

Lemma ending_quiet k l u t : forallb quiet u = true -> ending k l t -> ending k l (u ++ t).
Proof. intros Hu H. apply ending_app; auto using quiet_renames. apply safe_quiet; [assumption|apply H]. Qed.

Lemma ending_cons k l e t : quiet e = true -> ending k l t -> ending k l (e :: t).
Proof. intros He. apply (ending_quiet k l [e]). cbn. now rewrite He. Qed.
Ltac calls HE := repeat (apply ending_cons; [reflexivity|]); exact HE.

Lemma close_late_inv o l t : Inv l t -> match close_late o l t with (Some l', t') => Inv l' t' | (None, _) => False end.
Proof.
  intros H. unfold close_late. destruct o as [fd|]; [|exact H]. run. unfold close.
  assert (H' : Inv l (Close fd (on_close t fd) :: t)) by now apply (inv_quiet l [_]).
  destruct (_ && _) eqn:E; [|exact H']. destruct H' as (H1 & H2 & H3 & H4 & H5 & H6). split_and!; auto. now left.
Qed.

Lemma restore_ending fd t p : safe t -> claimed fd p t ->
  match restore fd name parent t with
  | (Some b, t') => exists u, t' = u ++ t /\ existsb renames u = false /\ safe t' /\ (b = true -> restored fd p t')
  | (None, _) => False
  end.
Proof.
  intros Hs Hc. unfold restore. run. unfold renameat2, linkat, syncfd, unlinkat.
  set (r := on_renameat2 _ _ _ _ _). assert (S1 : safe (Renameat2 fd name parent name r :: t)) by (split; [split_and!; eauto|assumption]).
  destruct r as [e|]; [|eexists [_]; split_and!; auto; intros _; left; now apply after_here].
  destruct (negb _); [now eexists [_]|]. set (t1 := Renameat2 _ _ _ _ _ :: t) in *.
  assert (C1 : claimed fd p t1) by now apply after_cons. set (r := on_linkat _ _ _ _ _).
  assert (S2 : safe (Linkat fd name parent name r :: t1)) by (split; [right; exists p; now split_and!|assumption]).
  destruct r as [e'|]; [now eexists [_; _]|]. set (t2 := Linkat _ _ _ _ _ :: t1) in *.
  assert (R2 : after (Linkat fd name parent name None) (claimed fd p) t2) by now apply after_here.
  destruct (on_fsync t2 parent); cbn [negb]; [|eexists [_; _; _]; split_and!; [reflexivity|reflexivity|now split|now intros]].
  eexists [_; _; _; _]. split_and!; [reflexivity|reflexivity| |intros _; right; now apply after_cons, after_cons].
  split; [right; right; split; [reflexivity|]; exists p; now apply after_cons|now split].
Qed.

Lemma done_claim_ending l t : Inv l t ->
  match done_claim parent name l t with (Some (l', k), t') => ending k l' t' | (None, _) => False end.
Proof.
  intros (H1 & H2 & H3 & H4 & H5 & H6). unfold done_claim. destruct (l_claimed l) eqn:Ec; cbn [negb].
  2:{ run. split_and!; auto. destruct H3 as [E|[(E & A & B & C)|(E & A & B)]].
      - right. right. left. split_and!; auto. destruct H2 as [[_ H2]|[[H2 _]|H2]]; [now left|congruence|now do 2 right].
      - right. left. now split_and!.
      - left. now split_and!. }
  assert (E7 : l_rc l = 7).
  { destruct H3 as [E|[(_ & [A _] & _)|(_ & [A _] & _)]]; congruence. }
  destruct H2 as [[H2 _]|[(_ & fd & p & A1 & A2 & A3 & A4 & A5)|[H2 _]]]; [congruence| |congruence].
  run. rewrite A1. cbn [fdz]. pose proof (restore_ending fd t p H1 A5) as Hr.
  destruct (restore fd name parent t) as [[b|] t1]; [|contradiction]. destruct Hr as (u & -> & Hu & Hs & Hb).
  destruct b.
  - specialize (Hb eq_refl).
    assert (HE : ending None (set_claimed false l) (u ++ t)).
    { split_and!; auto using mine_app; [|intros E; destruct (H6 E) as (a & f & B1 & B2); exists a, f; auto with shown].
      right. right. left. split_and!; auto. right. left. now exists fd, p. }
    unfold syncfd. destruct (on_fsync (u ++ t) fd).
    + destruct (on_fsync _ parent); calls HE.
    + calls HE.
  - assert (HE : ending (l_claim_path l) (set_detail "E_SOURCE_RECOVERY" (set_claim_path None l)) (u ++ t)).
    { split_and!; auto using mine_app; [|intros E; destruct (H6 E) as (a & f & B1 & B2); exists a, f; auto with shown].
      do 3 right. split_and!; auto. exists (l_claim l), fd, p. split_and!; auto with shown. }
    unfold syncfd. calls HE.
Qed.

Lemma done_stage_ending k l t : ending k l t ->
  match done_stage l t with (Some l', t') => ending k l' t' | (None, _) => False end.
Proof.
  intros H. unfold done_stage. destruct (l_staged l) eqn:Es; cbn [negb]; [|exact H]. run. unfold unlinkat, syncfd.
  destruct H as (H1 & H2 & H3 & H4 & H5) eqn:EH. clear EH. destruct (H5 Es) as (fd & f & Hf & Ho). rewrite Hf. cbn [fdz].
  assert (N1 : l_rc l <> 1 /\ l_rc l <> 0).
  { destruct H2 as [(_ & _ & _ & A & _)|[(_ & _ & _ & _ & A & _)|[(A & _)|(A & _)]]]; [congruence..|lia|lia]. }
  set (r := on_unlinkat _ _ _). assert (HE : ending k l (Unlinkat fd (str "message") r :: t)).
  { apply (ending_app k l [_]); [reflexivity| |lia|now split_and!]. split; [|assumption]. left. split; [reflexivity|]. now exists f. }
  destruct r; cbn [negb].
  - destruct HE as (E1 & E2 & E3 & E4 & E5). split_and!; auto; try (cbn; congruence).
    destruct E2 as [(A & _)|[(A & _)|E2]]; [lia|lia|]. right. right. exact E2.
  - destruct (String.eqb _ _); calls HE.
Qed.

Lemma done_remove_stage k l t why : ending k l t ->
  match done_remove (l_stage l) (l_staged l) (fun d l => set_stage d (l_seq l) l) why l t with
  | (Some l', t') => ending k l' t'
  | (None, _) => False
  end.
Proof.
  intros H. unfold done_remove. destruct (o_created (l_stage l) && negb (l_staged l)) eqn:Ec; [|exact H].
  apply andb_true_iff in Ec as [Ec Es]. apply negb_true_iff in Es. run. destruct H as (H1 & H2 & H3 & H4 & H5).
  assert (N1 : l_rc l <> 1 /\ l_rc l <> 0).
  { destruct H2 as [(_ & _ & _ & _ & A & _)|[(_ & _ & _ & _ & _ & A & _)|[(A & _)|(A & _)]]]; [congruence..|lia|lia]. }
  pose proof (remove_owned_safe (l_stage l) t H3 H1) as Hr. destruct (remove_owned _ t) as [[[ok d]|] t']; [|exact Hr].
  destruct Hr as (u & -> & Hu & Hs & Hd & Hok & Hor). assert (HE : ending k l (u ++ t)) by (apply ending_app; [assumption..|lia|now split_and!]).
  destruct HE as (E1 & E2 & E3 & E4 & E5). cbn [fst snd].
  replace (l_rc (set_stage d (l_seq l) l) =? 0) with false by (symmetry; apply Z.eqb_neq; exact (proj2 N1)). rewrite andb_false_r.
  split_and!; auto; [|cbn; congruence]. destruct E2 as [(A & _)|[(A & _)|E2]]; [lia|lia|]. right. right. exact E2.
Qed.

Lemma done_remove_claim k l t why : ending k l t ->
  match done_remove (l_claim l) (l_claimed l) (fun d l => set_claim d (l_seq l) l) why l t with
  | (Some l', t') => ending k l' t'
  | (None, _) => False
  end.
Proof.
  intros H. unfold done_remove. destruct (o_created (l_claim l) && negb (l_claimed l)) eqn:Ec; [|exact H].
  apply andb_true_iff in Ec as [Ec Es]. apply negb_true_iff in Es. run. destruct H as (H1 & H2 & H3 & H4 & H5).
  assert (N1 : l_rc l <> 1 /\ l_rc l <> 0).
  { destruct H2 as [(_ & _ & _ & _ & _ & A & _)|[(_ & _ & _ & _ & _ & _ & A & _)|[(A & _)|(A & _)]]]; [congruence..|lia|lia]. }
  pose proof (remove_owned_safe (l_claim l) t H4 H1) as Hr. destruct (remove_owned _ t) as [[[ok d]|] t']; [|exact Hr].
  destruct Hr as (u & -> & Hu & Hs & Hd & Hok & Hor). assert (HE : ending k l (u ++ t)) by (apply ending_app; [assumption..|lia|now split_and!]).
  destruct HE as (E1 & E2 & E3 & E4 & E5). cbn [fst snd].
  replace (l_rc (set_claim d (l_seq l) l) =? 0) with false by (symmetry; apply Z.eqb_neq; exact (proj2 N1)). rewrite andb_false_r.
  split_and!; auto. destruct E2 as [(A & _)|[(A & _)|[E2|(_ & A & _)]]]; [lia|lia| |congruence]. right. right. left. exact E2.
Qed.

(** Where the message is at the end, by the status and the recovery paths. *)
Definition accounted (rc : Z) (r : jf_storage_recovery) (t : trace) : Prop :=
  (rc = 0 /\ exists fd p, removed fd p t /\ r = MkRecovery None None None (Some (final_path p))) \/
  (rc = 1 /\ forallb quiet t = true /\ r = MkRecovery None None None None) \/
  ((rc = 7 \/ rc = 3) /\ r_published r = None /\
    (unmoved t \/ (exists fd p, restored fd p t) \/
     (exists fd p, removed fd p t /\ r_destination r = Some (final_path p)) \/
     (exists d fd p, o_fd d = Some fd /\ claimed fd p t /\ r_source r = Some (kept_path d) /\ r_destination r = Some (final_path p)))).

Lemma close_opt_quiet o t : exists u, close_opt o t = (Some tt, u ++ t) /\ forallb quiet u = true.
Proof. unfold close_opt. run. destruct o as [fd|]; [now eexists [_]|now exists []]. Qed.

Lemma settled_accounted k l t : settled k l t ->
  let left_claim := left_path (l_claim l) (l_claimed l) (l_claim_path l) in
  accounted (if (l_rc l =? 7) && String.eqb (l_detail l) "E_MEMORY" then 3 else l_rc l)
    (MkRecovery (match left_claim with Some p => Some p | None => k end) (if l_rc l =? 7 then l_final_path l else None)
       (left_path (l_stage l) (l_staged l) (l_stage_path l)) (if l_rc l =? 0 then l_final_path l else None)) t.
Proof.
  unfold accounted, left_path, settled, gone_from, clean. cbn [r_published r_destination r_source].
  intros [(E & -> & (B1 & fd & p & B2 & B3) & (C1 & C2 & C3 & C4))|[(E & -> & B & C & (C1 & C2 & C3 & C4))|[(E & B & C)|(E & A & B & d & fd & p & C & D & F & G)]]];
    rewrite E; cbn [Z.eqb Pos.eqb andb].
  - left. rewrite C2, C3, B2. split; [reflexivity|]. now exists fd, p.
  - right. left. rewrite C2, C3. now split_and!.
  - right. right. split; [destruct (String.eqb _ _); auto|]. split; [reflexivity|].
    destruct C as [C|[C|(_ & fd & p & C1 & C2)]]; [now left|right; now left|]. right. right. left. now exists fd, p.
  - right. right. split; [destruct (String.eqb _ _); auto|]. split; [reflexivity|]. do 3 right. exists d, fd, p.
    rewrite B, D. split_and!; auto. now destruct (o_created _).
Qed.

Lemma done_spec l t : Inv l t ->
  match done parent name l t with
  | (Some (rc, _, r, _), t') => safe t' /\ accounted rc r t'
  | (None, _) => False
  end.
Proof.
  intros H. unfold done. unfold mbind at 1, io_bind at 1. pose proof (close_late_inv (l_file l) l t H) as H1.
  destruct (close_late _ l t) as [[l1|] t1]; [|contradiction]. unfold mbind at 1, io_bind at 1.
  pose proof (close_late_inv (l_copyfd l1) l1 t1 H1) as H2. destruct (close_late _ l1 t1) as [[l2|] t2]; [|contradiction].
  unfold mbind at 1, io_bind at 1. pose proof (done_claim_ending l2 t2 H2) as H3.
  destruct (done_claim _ _ l2 t2) as [[[l3 k]|] t3]; [|contradiction]. unfold mbind at 1, io_bind at 1.
  pose proof (done_stage_ending k l3 t3 H3) as H4. destruct (done_stage l3 t3) as [[l4|] t4]; [|contradiction].
  unfold mbind at 1, io_bind at 1. pose proof (done_remove_stage k l4 t4 "E_STAGE_CLEANUP" H4) as H5.
  destruct (done_remove _ _ _ _ l4 t4) as [[l5|] t5]; [|contradiction]. unfold mbind at 1, io_bind at 1.
  pose proof (done_remove_claim k l5 t5 "E_SOURCE_FSYNC" H5) as H6.
  destruct (done_remove _ _ _ _ l5 t5) as [[l6|] t6]; [|contradiction]. clear - H6. run.
  destruct (close_opt_quiet (o_fd (l_stage l6)) t6) as (u1 & -> & Q1). destruct (close_opt_quiet (o_fd (l_claim l6)) (u1 ++ t6)) as (u2 & -> & Q2).
  destruct (close_opt_quiet (l_cur l6) (u2 ++ u1 ++ t6)) as (u3 & -> & Q3). destruct (close_opt_quiet (l_new l6) (u3 ++ u2 ++ u1 ++ t6)) as (u4 & -> & Q4).
  destruct (close_opt_quiet (l_tmp l6) (u4 ++ u3 ++ u2 ++ u1 ++ t6)) as (u5 & -> & Q5).
  assert (HE : ending k l6 (u5 ++ u4 ++ u3 ++ u2 ++ u1 ++ t6)) by (repeat apply ending_quiet; assumption).
  split; [apply HE|]. apply settled_accounted, HE.
Qed.

Lemma move_spec :
  let '(r, t) := jf_storage_move fuel s parent name source expected header_size header_digest relative source_path [] in
  safe t /\ match r with Some (rc, _, rec, _) => accounted rc rec t | None => True end.
Proof.
  unfold jf_storage_move. unfold mbind, io_bind. pose proof (move_body_spec (sequence s)) as H. cbv zeta in H.
  destruct (move_body _ _ _ _ _ _ _ _ _ _ _ []) as [[[l o]|] t]; [|now split]. pose proof (done_spec l t H) as Hd.
  destruct (done parent name l t) as [[[[[rc d] r] q]|] t']; [exact Hd|contradiction].
Qed.
End Invariant.

(** ** Properties *)

(** C3. Whatever the kernel answers, whatever other programs do in between and
    wherever the run is cut, every call a move has made was allowed by the calls
    before it: it writes only to the file it created; it links only the verified
    copy, or the claimed message back; it takes the message from its name only
    after the copy was verified, linked, and synchronised with its directory, and
    confirmed with the lock held; it removes the message only when, besides, the
    claim is synchronised and both the published copy and the message were read
    again with the digest of the copy; it removes only directories it made. *)
Theorem move_safe `{SY : System} fuel s parent name source expected header_size header_digest relative source_path :
  Safe s parent name source (st_size expected) header_size header_digest
    (jf_storage_move fuel s parent name source expected header_size header_digest relative source_path []).2.
Proof.
  pose proof (move_spec fuel s parent name source expected header_size header_digest relative source_path) as H.
  destruct (jf_storage_move _ _ _ _ _ _ _ _ _ _ _) as [r t]. apply H.
Qed.

(** C4. A message is never lost, and never unaccounted for.  A move that returns 0
    has removed the message from its Maildir after every check, and reports the
    path it is published under and nothing left behind; one that returns 1 has
    changed nothing; one that fails leaves the message under its own name, has
    put it back there, or reports the path of the published copy and, when it is
    still there, that of the message in the private claim directory. *)
Theorem move_accounted `{SY : System} fuel s parent name source expected header_size header_digest relative source_path rc d r q t :
  jf_storage_move fuel s parent name source expected header_size header_digest relative source_path [] = (Some (rc, d, r, q), t) ->
  accounted s parent name source expected header_size header_digest relative source_path rc r t.
Proof.
  intros E. pose proof (move_spec fuel s parent name source expected header_size header_digest relative source_path) as H.
  rewrite E in H. apply H.
Qed.

(** ** A kernel in which a move succeeds *)

Definition sample_data : bytes := str "A: b" ++ [LF; LF; 120].

(** The inode and descriptor of a name. *)
Definition sample_inode (name : bytes) : Z :=
  if streq name (str "cur") then 20 else if streq name (str "new") then 21 else if streq name (str "tmp") then 22
  else if streq name (str "message") then 30 else if streq name (str "batch.lock") then 7 else if streq name (str "1.m") then 3 else 40.
Definition sample_stat (ino : Z) : stat := MkStat 1 ino 7 0 0 0 0 true 384 1 0.
Definition sample_kernel : System := {|
  on_alloc _ := true; on_stop _ := false; on_allowed _ _ _ := true;
  on_open _ _ := Some 50; on_openat _ _ n _ := Some (sample_inode n); on_dup _ fd := Some (if fd =? 30 then 31 else 51);
  on_close _ _ := true; on_mkdirat _ _ _ := None; on_fstat _ fd := Some (sample_stat fd);
  on_fstatat _ fd n := Some (sample_stat (if fd =? 20 then 30 else sample_inode n));
  on_fsync _ _ := true; on_setlk _ _ := None; on_read _ _ n := inr (replicate n 0);
  on_pread _ _ n off := inr (take n (drop (Z.to_nat off) sample_data)); on_write _ _ d := inr (length d);
  on_linkat _ _ _ _ _ := None; on_renameat _ _ _ _ _ := true; on_renameat2 _ _ _ _ _ := None;
  on_unlinkat _ _ _ := true; on_rmdirat _ _ _ := true; on_name_max _ _ := inr (Some 255); on_geteuid _ := 0 |}.
Definition sample_storage : jf_storage :=
  MkStorage (Some 5) (Some 6) (Some 7) (Some 8) (sample_stat 5) (sample_stat 7) (replicate 16 0) 0 Interrupted (str "/m") true false.
Abbreviation sample_move := (jf_storage_move (SY := sample_kernel) 25 sample_storage 4 (str "1.m") 3 (sample_stat 3) 6
  (fips_hex (take 6 sample_data)) (str "in/box") (str "/m/in/cur/1.m") []).

Lemma sample_moves : sample_move.1 = Some (0, "E_DESTINATION_IO"%string, MkRecovery None None None (Some (str "/m/in/box/cur/1.m")), 2).
Proof. vm_compute. reflexivity. Qed.

Lemma move_accounted_witness : exists t,
  sample_move = (Some (0, "E_DESTINATION_IO"%string, MkRecovery None None None (Some (str "/m/in/box/cur/1.m")), 2), t) /\
  exists fd p, removed sample_storage 4 (str "1.m") 3 7 6 (fips_hex (take 6 sample_data)) fd p t.
Proof.
  destruct sample_move as [o t] eqn:E. pose proof sample_moves as S. rewrite E in S. cbn [fst] in S. subst o.
  exists t. split; [reflexivity|]. destruct (move_accounted (SY := sample_kernel) _ _ _ _ _ _ _ _ _ _ _ _ _ _ _ E) as [(_ & fd & p & H & _)|[(H & _)|([H|H] & _)]];
    [now exists fd, p|discriminate..].
Defined.
