(* ===== verification/StorageEnds.v ===== *)
(** * Termination and descriptors of the moves (src/filter/storage.c)

    Calls that are interrupted are made again: when the kernel interrupts only so
    often, a move and the start of a batch return.  A batch that cannot start
    leaves no descriptor open. *)
From S2P Require Import Prelude Sha256 Storage StorageFacts.

#[local] Opaque jf_sha256_update jf_sha256_init.

(** ** Interrupted calls *)

Definition interrupted (e : event) : bool :=
  match e with
  | Read _ _ (inl EINTR) | Pread _ _ _ (inl EINTR) | Write _ _ (inl EINTR) => true
  | _ => false
  end.
Definition interruptions (t : trace) : nat := length (List.filter interrupted t).

(** After [k] interruptions there are no more. *)
Definition patient `{SY : System} (k : nat) : Prop :=
  forall t, (k <= interruptions t)%nat ->
    (forall fd n, on_read t fd n <> inl EINTR) /\ (forall fd n off, on_pread t fd n off <> inl EINTR) /\
    (forall fd d, on_write t fd d <> inl EINTR).

(** The program gives a result. *)
Definition returns {A} (m : io A) : Prop := forall t, exists a, (m t).1 = Some a.

Section Returns.
Context `{SY : System}.

Lemma returns_ret {A} (a : A) : returns (mret a : io A).
Proof. intros t. now exists a. Qed.

Lemma returns_bind {A B} (m : io A) (f : A -> io B) : returns m -> (forall a, returns (f a)) -> returns (m ≫= f).
Proof. intros Hm Hf t. run. destruct (Hm t) as [a E]. destruct (m t) as [o t']. cbn in E. subst o. apply Hf. Qed.

Lemma returns_call {A} (m : io A) : (forall t, exists a u, m t = (Some a, u)) -> returns m.
Proof. intros H t. destruct (H t) as (a & u & ->). now exists a. Qed.
End Returns.

Create HintDb returns.
Ltac returns_step :=
  first
    [ assumption
    | apply returns_ret
    | solve [eauto with returns]
    | apply returns_call; intros ?; eexists _, _; reflexivity
    | apply returns_bind; [|intros ?]
    | match goal with |- returns (match ?x with _ => _ end) => destruct x end
    | match goal with |- returns (let '_ := ?x in _) => destruct x end ].
Ltac ends := repeat returns_step.

Section Total.
Context `{SY : System} (k fuel : nat) (Hk : patient k).

Lemma interruptions_cons e t : interruptions (e :: t) = ((if interrupted e then 1 else 0) + interruptions t)%nat.
Proof. unfold interruptions. cbn. now destruct (interrupted e). Qed.

(** What a call can still cost: its interruptions, at most. *)
Definition left_ (t : trace) : nat := (k - interruptions t)%nat.

Lemma left_cons e t : (left_ (e :: t) <= left_ t)%nat.
Proof. unfold left_. rewrite interruptions_cons. lia. Qed.

Lemma pread_interrupted t fd n off e : on_pread t fd n off = inl EINTR -> interrupted e = true -> (left_ (e :: t) < left_ t)%nat.
Proof.
  intros E He. unfold left_. rewrite interruptions_cons, He. destruct (Nat.le_gt_cases k (interruptions t)) as [H|H]; [|lia].
  now destruct (proj1 (proj2 (Hk t H)) fd n off).
Qed.
Lemma read_interrupted t fd n e : on_read t fd n = inl EINTR -> interrupted e = true -> (left_ (e :: t) < left_ t)%nat.
Proof.
  intros E He. unfold left_. rewrite interruptions_cons, He. destruct (Nat.le_gt_cases k (interruptions t)) as [H|H]; [|lia].
  now destruct (proj1 (Hk t H) fd n).
Qed.
Lemma write_interrupted t fd d e : on_write t fd d = inl EINTR -> interrupted e = true -> (left_ (e :: t) < left_ t)%nat.
Proof.
  intros E He. unfold left_. rewrite interruptions_cons, He. destruct (Nat.le_gt_cases k (interruptions t)) as [H|H]; [|lia].
  now destruct (proj2 (proj2 (Hk t H)) fd d).
Qed.

Lemma stopped_left s t : exists b t', stopped s t = (Some b, t') /\ (left_ t' <= left_ t)%nat.
Proof. unfold stopped, stop_requested. destruct (stop s); eexists _, _; (split; [reflexivity|]); auto using left_cons. Qed.

Lemma write_all_returns n s fd d t : (left_ t + length d < n)%nat ->
  exists r t', write_all n s fd d t = (Some r, t') /\ (left_ t' <= left_ t)%nat.
Proof.
  revert d t. induction n as [|n IH]; intros [|c d] t Hn; try lia; [eexists _, _; split; [reflexivity|lia]|]. cbn [write_all]. run.
  destruct (stopped_left s t) as (b & t1 & -> & H1). destruct b; [eexists _, _; split; [reflexivity|lia]|].
  unfold write. destruct (on_write t1 fd (c :: d)) as [e|j] eqn:Ew.
  - set (ev := Write _ _ _). pose proof (left_cons ev t1) as H2. destruct e; try (eexists _, _; split; [reflexivity|lia]).
    pose proof (write_interrupted t1 fd (c :: d) ev Ew eq_refl) as H3. destruct (IH (c :: d) (ev :: t1)) as (r & t' & E & H4); [cbn in *; lia|].
    rewrite E. eexists _, _. split; [reflexivity|lia].
  - set (ev := Write _ _ _). pose proof (left_cons ev t1) as H2.
    destruct (Nat.min j _) as [|w] eqn:Ej; [eexists _, _; split; [reflexivity|lia]|].
    destruct (IH (drop (S w) (c :: d)) (ev :: t1)) as (r & t' & E & H4); [rewrite length_drop; cbn [length] in *; lia|].
    rewrite E. eexists _, _. split; [reflexivity|lia].
Qed.

Lemma digest_loop_returns n s fd size q h t : (left_ t + S (Z.to_nat (size - q)) < n)%nat -> exists r t', digest_loop n s fd size q h t = (Some r, t') /\ (left_ t' <= left_ t)%nat.
Proof.
  revert q h t. induction n as [|n IH]; intros q h t Hn; [lia|]. cbn [digest_loop]. run.
  destruct (stopped_left s t) as (b & t1 & -> & H1). destruct b; [eexists _, _; split; [reflexivity|lia]|].
  unfold pread. destruct (on_pread _ _ _ _) as [e|x] eqn:Ep.
  - set (ev := Pread _ _ _ _). pose proof (left_cons ev t1) as H2. destruct e; try (eexists _, _; split; [reflexivity|lia]).
    pose proof (pread_interrupted _ _ _ _ ev Ep eq_refl) as H3. destruct (IH q h (ev :: t1)) as (r & t' & E & H4); [lia|].
    rewrite E. eexists _, _. split; [reflexivity|lia].
  - set (y := take _ x). set (ev := Pread _ _ _ _). pose proof (left_cons ev t1) as H2. destruct y as [|c y]; [eexists _, _; split; [reflexivity|lia]|].
    destruct (Z.ltb_spec (size - q) (zlen (c :: y))) as [|Hz]; [eexists _, _; split; [reflexivity|lia]|].
    edestruct (IH (q + zlen (c :: y)) (jf_sha256_update h (c :: y)) (ev :: t1)) as (r & t' & E & H4); [unfold zlen in *; cbn [length] in *; lia|].
    rewrite E. eexists _, _. split; [reflexivity|lia].
Qed.

Lemma copy_loop_returns n s a f size hs q h hd t : (k + Z.to_nat size < fuel)%nat -> 0 <= q -> (left_ t + Z.to_nat (size - q) < n)%nat ->
  exists r t', copy_loop fuel n s a f size hs q h hd t = (Some r, t') /\ (left_ t' <= left_ t)%nat.
Proof.
  intros Hf. revert q h hd t. induction n as [|n IH]; intros q h hd t Hq Hn; [lia|]. cbn [copy_loop].
  destruct (Z.leb_spec size q); [eexists _, _; split; [reflexivity|lia]|]. run.
  destruct (stopped_left s t) as (b & t1 & -> & H1). destruct b; [eexists _, _; split; [reflexivity|lia]|].
  set (want := Z.to_nat _). unfold pread. destruct (on_pread _ _ _ _) as [e|x] eqn:Ep.
  - set (ev := Pread _ _ _ _). pose proof (left_cons ev t1) as H2. destruct e; try (eexists _, _; split; [reflexivity|lia]).
    pose proof (pread_interrupted _ _ _ _ ev Ep eq_refl) as H3. destruct (IH q h hd (ev :: t1)) as (r & t' & E & H4); [lia|lia|].
    rewrite E. eexists _, _. split; [reflexivity|lia].
  - assert (Hx : (length (take want x) <= want)%nat) by (rewrite length_take; lia).
    set (y := take want x) in *. set (ev := Pread _ _ _ _). pose proof (left_cons ev t1) as H2.
    destruct y as [|c y]; [eexists _, _; split; [reflexivity|lia]|].
    destruct (write_all_returns fuel s f (c :: y) (ev :: t1)) as (w & t2 & Ew & H4); [unfold left_ in *; lia|]. rewrite Ew.
    destruct w as [d|]; [eexists _, _; split; [reflexivity|lia]|].
    edestruct (IH (q + zlen (c :: y)) (jf_sha256_update h (c :: y))
      (if q <? hs then jf_sha256_update hd (take (Z.to_nat (hs - q)) (c :: y)) else hd) t2) as (r & t' & E & H5);
      [unfold zlen; lia|unfold zlen in *; cbn [length] in *; lia|]. rewrite E. eexists _, _. split; [reflexivity|lia].
Qed.

Lemma copy_message_returns s a f x hs hd : (k + S (Z.to_nat (st_size x)) < fuel)%nat -> returns (copy_message fuel s a f x hs hd).
Proof.
  intros Hf t. unfold copy_message. run.
  destruct (copy_loop_returns fuel s a f (st_size x) hs 0 stack_hash stack_hash t) as (r & t1 & -> & _); [lia|lia|unfold left_; lia|].
  destruct r as [d|[h1 h2]]; [now eexists|]. destruct (negb _); [now eexists|]. unfold syncfd. destruct (negb _); [now eexists|].
  edestruct (digest_loop_returns fuel s f (st_size x) 0 stack_hash) as (r & t2 & -> & _); [unfold left_; lia|].
  destruct r as [[]|[q h3]]; try now eexists. destruct (_ || _); now eexists.
Qed.

Lemma source_digest_returns s fd size d : (k + S (Z.to_nat size) < fuel)%nat -> returns (source_digest fuel s fd size d).
Proof.
  intros Hf t. unfold source_digest. run. edestruct (digest_loop_returns fuel s fd size 0 stack_hash) as (r & t2 & -> & _); [unfold left_; lia|].
  destruct r as [u|[q h3]]; now eexists.
Qed.

Lemma read_nonce_returns n s fd got : (k + 16 < n + length got)%nat -> returns (read_nonce n s fd got).
Proof.
  intros Hn t. assert (H : (left_ t + 16 < n + length got)%nat) by (unfold left_; lia). clear Hn. revert got t H.
  induction n as [|n IH]; intros got t H; cbn [read_nonce]; (destruct (Nat.leb_spec 16 (length got)); [now eexists|]); [lia|]. run.
  unfold read. destruct (on_read _ _ _) as [e|x] eqn:Er.
  - set (ev := Read _ _ _). destruct e; try now eexists. pose proof (read_interrupted _ _ _ ev Er eq_refl) as H3.
    destruct (stopped_left s (ev :: t)) as (b & t1 & -> & H1). destruct b; [now eexists|]. apply IH. lia.
  - set (y := take _ x). set (ev := Read _ _ _). pose proof (left_cons ev t). destruct y as [|c y]; [now eexists|]. apply IH.
    rewrite length_app. cbn [length]. lia.
Qed.
End Total.

Section Programs.
Context `{SY : System} (fuel : nat).

Lemma close_opt_returns o : returns (close_opt o).
Proof. unfold close_opt. ends. Qed.
Lemma walk_returns fd l : returns (walk fd l).
Proof. revert fd. induction l as [|c l IH]; intros fd; cbn [walk]; ends; apply IH. Qed.
Lemma stopped_returns s : returns (stopped s).
Proof. unfold stopped. ends. Qed.
#[local] Hint Resolve close_opt_returns walk_returns stopped_returns : returns.
Lemma storage_directory_returns p : returns (jf_storage_directory p).
Proof. unfold jf_storage_directory. ends. Qed.
Lemma storage_close_returns s : returns (jf_storage_close s).
Proof. unfold jf_storage_close. ends. Qed.
Lemma take_lock_returns e s : returns (take_lock e s).
Proof. unfold take_lock, need. ends. Qed.
Lemma same_generation_returns a b : returns (same_generation a b).
Proof. unfold same_generation. ends. Qed.
Lemma directory_at_returns fd n : returns (directory_at fd n).
Proof. unfold directory_at. ends. Qed.
#[local] Hint Resolve storage_directory_returns storage_close_returns take_lock_returns same_generation_returns directory_at_returns : returns.
Lemma make_path_returns fd l : returns (make_path fd l).
Proof. revert fd. induction l as [|c l IH]; intros fd; cbn [make_path]; ends; apply IH. Qed.
Lemma open_path_returns fd l : returns (open_path fd l).
Proof. revert fd. induction l as [|c l IH]; intros fd; cbn [open_path]; ends; apply IH. Qed.
Lemma same_fd_returns a b : returns (same_fd a b).
Proof. unfold same_fd. ends. Qed.
#[local] Hint Resolve make_path_returns open_path_returns same_fd_returns : returns.
Lemma destination_returns s r : returns (destination s r).
Proof. unfold destination. ends. Qed.
Lemma destination_current_returns s r c tm : returns (destination_current s r c tm).
Proof. unfold destination_current. ends. Qed.
Lemma create_owned_returns s fd q : returns (create_owned s fd q).
Proof.
  unfold create_owned. generalize (MkOwned None fd false [] zero_stat). revert q.
  induction RETRIES as [|n IH]; intros q d; cbn [create_loop]; ends; apply IH.
Qed.
Lemma remove_owned_returns d : returns (remove_owned d).
Proof. unfold remove_owned. ends. Qed.
Lemma source_current_returns a n fd x : returns (source_current a n fd x).
Proof. unfold source_current. ends. Qed.
Lemma lock_current_returns s : returns (lock_current s).
Proof. unfold lock_current. ends. Qed.
Lemma published_name_returns s n q a c : returns (published_name s n q a c).
Proof. unfold published_name. ends. Qed.
Lemma restore_returns a n b : returns (restore a n b).
Proof. unfold restore. ends. Qed.
Lemma recovery_path_returns a b c : returns (recovery_path a b c).
Proof. unfold recovery_path. ends. Qed.
Lemma destination_path_returns s a b c : returns (destination_path s a b c).
Proof. unfold destination_path. ends. Qed.
Lemma done_returns parent name l : returns (done parent name l).
Proof. pose proof restore_returns. pose proof remove_owned_returns. unfold done, close_late, done_claim, done_stage, done_remove. ends. Qed.

(** ** Steps *)

Definition step_returns {A} (m : step A) : Prop := forall l, returns (m l).

Lemma step_returns_ret {A} (a : A) : step_returns (mret a).
Proof. intros l t. now eexists. Qed.
Lemma step_returns_bind {A B} (m : step A) (f : A -> step B) : step_returns m -> (forall a, step_returns (f a)) -> step_returns (m ≫= f).
Proof.
  intros Hm Hf l t. unfold mbind, step_bind. destruct (Hm l t) as [[l' o] E]. destruct (m l t) as [o' t']. cbn in E. subst o'.
  destruct o as [a|]; [apply Hf|now eexists].
Qed.
Lemma step_returns_lift {A} (m : io A) : returns m -> step_returns (lift m).
Proof. intros H l t. unfold lift. destruct (H t) as [a E]. destruct (m t) as [o t']. cbn in E. subst o. now eexists. Qed.
Lemma step_returns_pure {A} (f : locals -> locals * option A) : step_returns (fun l => mret (f l)).
Proof. intros l t. now eexists. Qed.
Lemma step_returns_must d m : returns m -> step_returns (must d m).
Proof.
  intros H. unfold must. apply step_returns_bind; [now apply step_returns_lift|]. intros []; [apply step_returns_ret|].
  exact (step_returns_pure (fun l => (set_detail d l, None))).
Qed.
Lemma step_returns_must_some {A} d (m : io (option A)) : returns m -> step_returns (must_some d m).
Proof.
  intros H. unfold must_some. apply step_returns_bind; [now apply step_returns_lift|]. intros [a|]; [apply step_returns_ret|].
  exact (step_returns_pure (fun l => (set_detail d l, None))).
Qed.
End Programs.

Ltac step_ends_step :=
  first
    [ assumption
    | solve [eauto with returns]
    | apply step_returns_ret
    | apply step_returns_must; [ends]
    | apply step_returns_must_some; [ends]
    | apply step_returns_lift; [ends]
    | match goal with
      | |- step_returns (update ?f) => exact (step_returns_pure (fun l => (f l, Some tt)))
      | |- step_returns (get ?f) => exact (step_returns_pure (fun l => (l, Some (f l))))
      | |- step_returns leave => exact (step_returns_pure (fun l => (l, None)))
      | |- step_returns (leave_with ?d) => exact (step_returns_pure (fun l => (set_detail d l, None)))
      end
    | apply step_returns_bind; [|intros ?]
    | match goal with |- step_returns (match ?x with _ => _ end) => destruct x end
    | match goal with |- step_returns (let '_ := ?x in _) => destruct x end ].
Ltac step_ends := repeat step_ends_step.

#[export] Hint Resolve close_opt_returns walk_returns stopped_returns storage_directory_returns storage_close_returns take_lock_returns
  same_generation_returns directory_at_returns make_path_returns open_path_returns same_fd_returns destination_returns
  destination_current_returns create_owned_returns remove_owned_returns source_current_returns lock_current_returns
  published_name_returns restore_returns recovery_path_returns destination_path_returns done_returns : returns.

Section Whole.
Context `{SY : System} (k fuel : nat) (Hk : patient k).

Lemma begin_returns root_ gid gdir i : (k + 16 < fuel)%nat -> returns (jf_storage_begin fuel root_ gid gdir i).
Proof.
  intros Hf. assert (Hn : forall s fd, returns (read_nonce fuel s fd [])) by (intros s fd; apply (read_nonce_returns k Hk); cbn; lia).
  unfold jf_storage_begin, begin_root, begin_engine, begin_random, need. ends.
Qed.

Lemma publish_loop_returns s name rel n a c att : step_returns (publish_loop s name rel n a c att).
Proof. revert att. induction n as [|n IH]; intros att; cbn [publish_loop]; step_ends; apply IH. Qed.

Lemma move_returns_all s parent name source x hs hd rel sp : (k + S (Z.to_nat (st_size x)) < fuel)%nat ->
  returns (jf_storage_move fuel s parent name source x hs hd rel sp).
Proof.
  intros Hf. pose proof (copy_message_returns k fuel Hk) as Hc. pose proof (source_digest_returns k fuel Hk) as Hd.
  assert (Hs : forall d fd c, step_returns (still_has fuel s x d fd c)) by (intros d fd c; unfold still_has; pose proof (Hd s fd (st_size x) c Hf); step_ends).
  assert (Hv : forall c tm cf f id cp, step_returns (destination_verified fuel s x rel c tm cf f id cp)).
  { intros. unfold destination_verified, destination_kept. step_ends. }
  assert (Hn : step_returns (not_stopped s)) by (unfold not_stopped; step_ends).
  assert (Hb : step_returns (move_body fuel s parent name source x hs hd rel sp)).
  { pose proof (Hc s source) as Hcm. unfold move_body, move_checks, move_copy, move_publish, move_unstage, move_claim, move_remove, copy_unchanged,
      claim_unchanged, source_unchanged. pose proof (publish_loop_returns s name rel). step_ends; auto. }
  unfold jf_storage_move. apply returns_bind; [apply Hb|]. intros [l o]. ends.
Qed.
End Whole.

(** ** Descriptors *)

Definition is_fd (fd x : Z) : Z := if x =? fd then 1 else 0.
Definition is_fd_opt (fd : Z) (o : option Z) : Z := match o with Some x => is_fd fd x | None => 0 end.

(** How often [fd] was opened without being closed. *)
Definition balance_of (fd : Z) (e : event) : Z :=
  match e with
  | Open _ r | Openat _ _ _ r | Dup _ r => is_fd_opt fd r
  | Close x _ => - is_fd fd x
  | _ => 0
  end.
Fixpoint balance (fd : Z) (t : trace) : Z := match t with [] => 0 | e :: t' => balance_of fd e + balance fd t' end.

(** The descriptors a storage holds. *)
Definition held (fd : Z) (s : jf_storage) : Z :=
  is_fd_opt fd (root s) + is_fd_opt fd (engine s) + is_fd_opt fd (lock s) + is_fd_opt fd (random s).

Section Descriptors.
Context `{SY : System}.

Lemma walk_balance fd l x t r t' : walk x l t = (Some r, t') -> balance fd t' = balance fd t - is_fd fd x + is_fd_opt fd r.
Proof.
  revert x t. induction l as [|c l IH]; intros x t; cbn [walk]; run; [intros [= <- <-]; cbn; lia|]. unfold openat, close.
  destruct (on_openat _ _ _ _) as [y|]; [intros H; apply IH in H; rewrite H; cbn; lia|]. intros [= <- <-]. cbn. lia.
Qed.

Lemma directory_balance fd p t r t' : jf_storage_directory p t = (Some r, t') -> balance fd t' = balance fd t + is_fd_opt fd r.
Proof.
  unfold jf_storage_directory. run. unfold alloc, open. destruct (on_alloc t); cbn [negb]; [|intros [= <- <-]; cbn; lia].
  destruct (on_open _ _) as [y|]; [|intros [= <- <-]; cbn; lia]. intros H. apply (walk_balance fd) in H. rewrite H. cbn. lia.
Qed.

Lemma stopped_balance fd s t r t' : stopped s t = (r, t') -> balance fd t' = balance fd t.
Proof. unfold stopped, stop_requested. destruct (stop s); intros [= <- <-]; reflexivity. Qed.

Lemma read_nonce_spec n s fd got t r t' : read_nonce n s fd got t = (Some r, t') -> (length got <= 16)%nat ->
  (forall x, balance x t' = balance x t) /\ (forall b, r = Some b -> length b = 16%nat).
Proof.
  revert got t. induction n as [|n IH]; intros got t; cbn [read_nonce];
    (destruct (Nat.leb_spec 16 (length got)); [intros [= <- <-] Hg; split; [auto|intros b [= <-]; lia]|]); [discriminate|]. run.
  unfold read. destruct (on_read _ _ _) as [e|x] eqn:Er.
  - destruct e; try (intros [= <- <-] _; now split). destruct (stopped s _) as [[b|] t1] eqn:Es; [|discriminate].
    pose proof (fun x => stopped_balance x _ _ _ _ Es) as Hb. destruct b; [intros [= <- <-] _; now split|].
    intros H' Hg. destruct (IH _ _ H' Hg) as [A B]. split; [|exact B]. intros y. rewrite A, Hb. reflexivity.
  - assert (Hx : (length (take (16 - length got) x) <= 16 - length got)%nat) by (rewrite length_take; lia).
    destruct (take _ x) as [|c y]; [intros [= <- <-] _; now split|]. intros H' _.
    destruct (IH (got ++ c :: y) _ H') as [A B]; [rewrite length_app; lia|]. split; [|exact B]. intros z. rewrite A. reflexivity.
Qed.

Lemma same_generation_balance fd a b t r t' : same_generation a b t = (r, t') -> balance fd t' = balance fd t.
Proof. unfold same_generation. run. unfold fstat. destruct (on_fstat t a); intros [= <- <-]; reflexivity. Qed.

Lemma close_opt_balance fd o t r t' : close_opt o t = (r, t') -> balance fd t' = balance fd t - is_fd_opt fd o.
Proof. unfold close_opt. run. unfold close. destruct o; intros [= <- <-]; cbn; lia. Qed.

Lemma storage_close_balance fd s t s' t' : borrowed s = false -> jf_storage_close s t = (Some s', t') ->
  balance fd t' = balance fd t - held fd s /\ s' = without_fds s.
Proof.
  unfold jf_storage_close, held. intros ->. run.
  destruct (close_opt (random s) t) as [[[]|] t1] eqn:E1; [|discriminate]. destruct (close_opt (lock s) t1) as [[[]|] t2] eqn:E2; [|discriminate].
  destruct (close_opt (engine s) t2) as [[[]|] t3] eqn:E3; [|discriminate]. destruct (close_opt (root s) t3) as [[[]|] t4] eqn:E4; [|discriminate].
  intros [= <- <-]. apply (close_opt_balance fd) in E1, E2, E3, E4. split; [lia|reflexivity].
Qed.

(** What holds of a storage that has the lock. *)
Definition lock_held (s : jf_storage) (t : trace) : Prop :=
  exists l e uid, lock s = Some l /\ engine s = Some e /\ st_reg (lock_identity s) = true /\ st_nlink (lock_identity s) = 1 /\
    st_perm (lock_identity s) = 384 /\ st_uid (lock_identity s) = uid /\
    after (Fsync e true) (after (Fsync l true) (fun t => exists a, inode a (lock_identity s) = true /\
      after (Fstatat e (str "batch.lock") (Some a)) (after (Setlk l None) (after (Geteuid uid)
        (after (Fstat l (Some (lock_identity s))) (after (Openat e (str "batch.lock") LockFile (Some l)) anything)))) t)) t.

Lemma lock_held_app s u t : lock_held s t -> lock_held s (u ++ t).
Proof. intros (l & e & uid & A & B & C & D & E & F & G). exists l, e, uid. split_and!; auto with shown. Qed.

(** The storage [s'] is [s] with more descriptors, all accounted for. *)
Definition grown (s : jf_storage) (t : trace) (rc : Z) (s' : jf_storage) (t' : trace) : Prop :=
  borrowed s' = borrowed s /\ (forall fd, balance fd t' - held fd s' = balance fd t - held fd s) /\
  (rc = 0 -> is_Some (root s') /\ is_Some (random s') /\ length (nonce s') = 16%nat /\ lock_held s' t').

(** The descriptors opened on the way, one by one. *)
Ltac count_fds Hl := intros f; unfold held; cbn; rewrite ?Hl; cbn; lia.
Ltac grown_fails H Hl := injection H as <- _ <- <-; split_and!; [reflexivity|count_fds Hl|discriminate].

Lemma take_lock_grown e s t rc d s' t' : take_lock e s t = (Some (rc, d, s'), t') -> lock s = None -> engine s = Some e ->
  is_Some (root s) -> is_Some (random s) -> length (nonce s) = 16%nat -> grown s t rc s' t'.
Proof.
  unfold take_lock, need. run. unfold openat, fstat, geteuid, setlk, fstatat, syncfd. intros H Hl He Hr Hn Hc.
  destruct (on_openat _ _ _ _) as [l|]; [|grown_fails H Hl].
  destruct (on_fstat _ l) as [id|]; [|grown_fails H Hl].
  destruct (st_reg id) eqn:I1, (Z.eqb_spec (st_nlink id) 1), (Z.eqb_spec (st_perm id) 384); cbn [negb orb] in H; try (grown_fails H Hl).
  set (uid := on_geteuid _) in H. destruct (Z.eqb_spec (st_uid id) uid) as [Hu|]; cbn [negb] in H; [|grown_fails H Hl].
  destruct (on_setlk _ l) as [err|];
    [injection H as <- _ <- <-; split_and!; [reflexivity|count_fds Hl|now destruct (bool_decide _)]|].
  destruct (on_fstatat _ _ _) as [a|]; cbn [negb] in H; [|grown_fails H Hl].
  destruct (inode a id) eqn:Ei; cbn [negb] in H; [|grown_fails H Hl].
  destruct (on_fsync _ l); [|grown_fails H Hl].
  destruct (on_fsync _ e); [|grown_fails H Hl]. injection H as <- _ <- <-. split_and!; [reflexivity|count_fds Hl|].
  intros _. split_and!; auto. exists l, e, uid. split_and!; auto.
  apply after_here, after_here. exists a. split; [assumption|]. repeat apply after_here. exact I.
Qed.

Lemma grown_quiet s t rc s' t' u : (forall fd, balance fd (u ++ t') = balance fd t') -> grown s t rc s' t' -> grown s t rc s' (u ++ t').
Proof.
  intros Hu (A & B & C). split_and!; [assumption|intros fd; rewrite Hu; apply B|]. intros E. destruct (C E) as (C1 & C2 & C3 & C4).
  split_and!; auto using lock_held_app.
Qed.

Lemma begin_random_grown fuel e s t rc d s' t' : begin_random fuel e s t = (Some (rc, d, s'), t') -> lock s = None -> engine s = Some e ->
  random s = None -> is_Some (root s) -> grown s t rc s' t'.
Proof.
  unfold begin_random, need. run. unfold open. intros H Hl He Hd Hr. destruct (on_open _ _) as [rnd|]; [|grown_fails H Hl].
  set (s1 := set_fds _ _ _ _ s) in H. set (t1 := Open _ _ :: t) in H.
  destruct (read_nonce _ _ _ _ t1) as [[o|] t2] eqn:En; [|discriminate].
  destruct (read_nonce_spec _ _ _ _ _ _ _ En ltac:(cbn; lia)) as [Hb Hn].
  assert (B1 : forall f, balance f t2 - held f s1 = balance f t - held f s).
  { intros f. rewrite Hb. unfold held, t1, s1. cbn. rewrite Hd. cbn. lia. }
  destruct o as [nonce_|]; [|injection H as <- _ <- <-; split_and!; [reflexivity|exact B1|discriminate]].
  apply take_lock_grown in H; [|assumption|assumption|assumption|now eexists|now apply Hn].
  destruct H as (A & B & C). split_and!; [exact A| |exact C]. intros f. rewrite B. exact (B1 f).
Qed.

Lemma begin_engine_grown fuel gid gdir e s t rc d s' t' : begin_engine fuel gid gdir e s t = (Some (rc, d, s'), t') -> lock s = None -> engine s = Some e ->
  random s = None -> is_Some (root s) -> grown s t rc s' t'.
Proof.
  unfold begin_engine, need. run. unfold openat at 1. intros H Hl He Hd Hr. destruct (on_openat t _ _ _) as [g|]; [|grown_fails H Hl].
  set (t1 := Openat _ _ _ (Some g) :: t) in H. unfold openat in H. set (sel := on_openat t1 _ _ _) in H. set (t2 := Openat _ _ _ sel :: t1) in H.
  assert (B2 : forall f, balance f t2 = balance f t + is_fd f g + is_fd_opt f sel) by (intros f; unfold t2, t1; cbn; lia).
  destruct ((match sel with Some fd => same_generation fd gdir | None => fun t => (Some false, t) end) t2) as [[same|] t3] eqn:Es; [|discriminate].
  assert (B3 : forall f, balance f t3 = balance f t2).
  { intros f. destruct sel; [now apply (same_generation_balance f) in Es|now injection Es as <- <-]. }
  destruct ((if same then begin_random fuel e s else fun t => (Some (5, "E_GENERATION_CHANGED"%string, s), t)) t3) as [[[[rc' d'] s1]|] t4] eqn:E4; [|discriminate].
  destruct (close_opt sel t4) as [[[]|] t5] eqn:E5; [|discriminate]. unfold close in H. injection H as -> -> -> <-.
  pose proof (fun f => close_opt_balance f _ _ _ _ E5) as B5. destruct (close_opt_quiet sel t4) as (u & Eu & _). rewrite Eu in E5. injection E5 as <-.
  assert (G : grown s t3 rc s' t4).
  { destruct same; [now apply begin_random_grown in E4|]. injection E4 as <- _ <- <-. split_and!; [reflexivity|lia|discriminate]. }
  destruct G as (A & B & C). split_and!; [exact A| |].
  - intros f. cbn [balance balance_of]. rewrite B5. specialize (B f). rewrite B3, B2 in B. lia.
  - intros E. destruct (C E) as (C1 & C2 & C3 & C4). split_and!; auto. now apply (lock_held_app s' [_]), lock_held_app.
Qed.

Lemma begin_root_grown fuel gid gdir s t rc d s' t' : begin_root fuel gid gdir s t = (Some (rc, d, s'), t') -> lock s = None -> engine s = None ->
  random s = None -> root s = None -> grown s t rc s' t'.
Proof.
  unfold begin_root, need. run. intros H Hl He Hd Hr. destruct (jf_storage_directory _ t) as [o t1] eqn:E1.
  destruct o as [o|]; [|discriminate]. pose proof (fun f => directory_balance f _ _ _ _ E1) as B1. clear E1.
  destruct o as [r|]; [|injection H as <- _ <- <-; split_and!; [reflexivity|intros f; rewrite B1; cbn; lia|discriminate]].
  assert (H1 : forall f, held f (set_fds (Some r) None None None s) = is_fd f r) by (intros f; unfold held; cbn; lia).
  assert (H0 : forall f, held f s = 0) by (intros f; unfold held; rewrite Hl, He, Hd, Hr; reflexivity).
  cbn [is_fd_opt] in B1. unfold fstat in H.
  destruct (on_fstat _ r) as [id|]; [|injection H as <- _ <- <-; split_and!; [reflexivity|intros f; cbn [balance balance_of]; rewrite B1, H1, H0; lia|discriminate]].
  unfold openat in H. set (t2 := Fstat _ _ :: t1) in H.
  assert (B2 : forall f, balance f t2 = balance f t + is_fd f r) by (intros f; unfold t2; cbn [balance balance_of]; rewrite B1; lia).
  destruct (on_openat t2 _ _ _) as [c|]; [|injection H as <- _ <- <-; split_and!; [reflexivity| |discriminate]].
  2:{ intros f. cbn [balance balance_of is_fd_opt]. rewrite B2, H0. unfold held. cbn. lia. }
  set (t3 := Openat _ _ _ (Some c) :: t2) in H. set (eng := on_openat t3 _ _ _) in H. set (t4 := Openat _ _ _ eng :: t3) in H.
  assert (B4 : forall f, balance f t4 = balance f t + is_fd f r + is_fd f c + is_fd_opt f eng).
  { intros f. unfold t4, t3. cbn [balance balance_of is_fd_opt]. rewrite B2. lia. }
  destruct eng as [e|].
  - destruct (begin_engine _ _ _ _ _ t4) as [[[[rc' d'] s1]|] t5] eqn:E5; [|discriminate]. unfold close in H. injection H as -> -> -> <-.
    apply begin_engine_grown in E5; [|reflexivity..|now eexists]. destruct E5 as (A & B & C). split_and!; [exact A| |].
    + intros f. specialize (B f). rewrite B4 in B. rewrite H0. unfold held in B at 2. cbn in B |- *. lia.
    + intros E. destruct (C E) as (C1 & C2 & C3 & C4). split_and!; auto. now apply (lock_held_app s' [_]).
  - unfold close in H. injection H as <- _ <- <-. split_and!; [reflexivity| |discriminate].
    intros f. cbn [balance balance_of]. rewrite B4, H0. unfold held. cbn. lia.
Qed.

(** C38. A batch starts only with its lock: the lock file was opened, was a regular
    file with one name, mode 600 and the user's own, was locked, was still the
    file of that name, and it and its directory were synchronised, in this order;
    and the 16 bytes of the nonce were read.  In any case no descriptor is lost:
    those open besides those before are the four of the storage, and after a
    failure there are none. *)
Theorem begin_locked fuel root_ gid gdir i t rc d s t' :
  jf_storage_begin fuel root_ gid gdir i t = (Some (rc, d, s), t') ->
  (forall fd, balance fd t' = balance fd t + held fd s) /\
  (rc = 0 -> is_Some (root s) /\ is_Some (engine s) /\ is_Some (lock s) /\ is_Some (random s) /\ length (nonce s) = 16%nat /\ lock_held s t') /\
  (rc <> 0 -> root s = None /\ engine s = None /\ lock s = None /\ random s = None).
Proof.
  unfold jf_storage_begin. run. set (s0 := MkStorage None None None None _ _ _ _ _ _ _ _).
  destruct (begin_root _ _ _ s0 t) as [[[[rc1 d1] s1]|] t1] eqn:E1; [|discriminate].
  apply begin_root_grown in E1; [|reflexivity..]. destruct E1 as (A & B & C). destruct (Z.eqb_spec rc1 0) as [->|Hrc].
  - intros [= <- _ <- <-]. destruct (C eq_refl) as (C1 & C2 & C3 & C4). split_and!; [|intros _|congruence].
    + intros fd. specialize (B fd). unfold held in B at 2. cbn in B. lia.
    + split_and!; auto; destruct C4 as (l & e & uid & E2 & E3 & _); rewrite ?E2, ?E3; now eexists.
  - destruct (jf_storage_close s1 t1) as [[s2|] t2] eqn:E2; [|discriminate]. intros [= <- _ <- <-].
    split_and!; [|congruence|]; [intros fd; destruct (storage_close_balance fd _ _ _ _ A E2) as [B' ->]|
      intros _; destruct (storage_close_balance 0 _ _ _ _ A E2) as [_ ->]; now split_and!].
    specialize (B fd). unfold held at 1. cbn. unfold held in B at 2. cbn in B. lia.
Qed.
End Descriptors.

(** C39. A move returns, and so does the start of a batch: with at most [k]
    interrupted calls, fuel for [k] more turns than bytes of the message (and than
    the nonce has) is enough for every loop, whatever else the kernel answers. *)
Theorem move_returns `{SY : System} (k fuel : nat) s parent name source x hs hd rel sp root_ gid gdir i t :
  patient k -> (k + Z.to_nat (st_size x) + 17 < fuel)%nat ->
  (exists r, (jf_storage_move fuel s parent name source x hs hd rel sp t).1 = Some r) /\
  (exists r, (jf_storage_begin fuel root_ gid gdir i t).1 = Some r).
Proof.
  intros Hk Hf. split; [apply (move_returns_all k fuel Hk); lia|apply (begin_returns k fuel Hk); lia].
Qed.

Lemma sample_patient : patient (SY := sample_kernel) 0.
Proof. intros t _. repeat split; intros; discriminate. Qed.

Lemma move_returns_witness : exists r, sample_move.1 = Some r.
Proof.
  destruct (move_returns (SY := sample_kernel) 0 25 sample_storage 4 (str "1.m") 3 (sample_stat 3) 6
    (fips_hex (take 6 sample_data)) (str "in/box") (str "/m/in/cur/1.m") [] [] 0 true [] sample_patient ltac:(vm_compute; lia)) as [H _]. exact H.
Defined.

Abbreviation sample_begin := (jf_storage_begin (SY := sample_kernel) 25 (str "/m") (str "g1") 40 true []).
Lemma sample_begins : exists d s, sample_begin.1 = Some (0, d, s).
Proof. eexists _, _. vm_compute. reflexivity. Qed.

Lemma begin_locked_witness : exists d s t, sample_begin = (Some (0, d, s), t) /\ lock_held s t.
Proof.
  destruct sample_begin as [o t] eqn:E. destruct sample_begins as (d & s & S). rewrite E in S. cbn [fst] in S. subst o.
  exists d, s, t. split; [reflexivity|]. now destruct (begin_locked (SY := sample_kernel) _ _ _ _ _ _ _ _ _ _ E) as (_ & H & _); destruct (H eq_refl) as (_ & _ & _ & _ & _ & L).
Defined.

