(* ===== verification/MergeFacts.v ===== *)
(** * Theorems about the merge of an imported policy (src/filter/import.c)

    What a merge writes to each configuration file, which of the imported rules it
    finds there, and that the two keep one order. *)
From S2P Require Import Prelude Rfc822 Headers Sha256 Utf8 Mailbox Lexer Rules Resolve Classify Policy Bytes Profile Import.

#[local] Opaque grow_capacity.

(** ** The search *)

#[local] Instance key_comparator : Comparator key_compare.
Proof. unfold key_compare. solve_comparator. Qed.
#[local] Instance indexed_comparator : Comparator indexed_compare.
Proof. apply (on_comparator key_compare (fun x : indexed_rule => x.1)). Qed.

Lemma sorted_at (idx : list (jf_rule * nat)) i j x y : StronglySorted (cmp_le indexed_compare) idx ->
  idx !! i = Some x -> idx !! j = Some y -> (i <= j)%nat -> cmp_le indexed_compare x y.
Proof.
  intros Hs. revert i j. induction Hs as [|a l Hl IH Ha]; intros i j Hx Hy Hij; [discriminate|].
  destruct j as [|j].
  - assert (i = 0%nat) as -> by lia. cbn in *. simplify_eq. unfold cmp_le. now rewrite (cmp_refl indexed_compare).
  - destruct i as [|i]; cbn in *; [|apply (IH i j); auto; lia]. simplify_eq.
    rewrite Forall_forall in Ha. eapply Ha, list_elem_of_lookup_2, Hy.
Qed.

Lemma find_rule_found fuel idx r low high x : find_rule fuel idx r low high = Some x -> x ∈ idx /\ key_compare r x.1 = Eq.
Proof.
  revert low high. induction fuel as [|fuel IH]; intros low high; cbn [find_rule]; [discriminate|].
  destruct (low <? high)%nat; [|discriminate]. destruct (idx !! _) as [y|] eqn:Ey; [|discriminate].
  destruct (key_compare r y.1) eqn:Ec; [|apply IH..]. intros [= <-]. split; [eapply list_elem_of_lookup_2, Ey|assumption].
Qed.

(** Nothing with the key is missed, and the fuel is enough. *)
Lemma find_rule_missed fuel idx r low high : StronglySorted (cmp_le indexed_compare) idx -> (high <= length idx)%nat -> (high - low < fuel)%nat ->
  find_rule fuel idx r low high = None -> forall i y, (low <= i < high)%nat -> idx !! i = Some y -> key_compare r y.1 <> Eq.
Proof.
  intros Hs. revert low high. induction fuel as [|fuel IH]; intros low high Hl Hf; cbn [find_rule]; [lia|].
  destruct (Nat.ltb_spec low high) as [Hlt|]; [|intros _ i y Hi; lia]. cbv zeta.
  set (mid := (low + (high - low) / 2)%nat). assert (Hm : (low <= mid < high)%nat).
  { unfold mid. pose proof (Nat.div_lt (high - low) 2). lia. }
  destruct (idx !! mid) as [m|] eqn:Em; [|apply lookup_ge_None in Em; unfold indexed_rule in *; lia].
  destruct (key_compare r m.1) eqn:Ec; [discriminate| |]; intros H i y Hi Ey.
  - destruct (Nat.lt_ge_cases i mid) as [Hi'|Hi']; [apply (IH low mid ltac:(lia) ltac:(lia) H i y); [lia|assumption]|].
    intros E. pose proof (sorted_at idx mid i m y Hs Em Ey Hi') as Hle. apply Hle. unfold indexed_compare.
    rewrite (cmp_sym y.1 m.1), <- (cmp_eq r y.1 m.1 E), Ec. reflexivity.
  - destruct (Nat.lt_ge_cases mid i) as [Hi'|Hi']; [apply (IH (S mid) high ltac:(lia) ltac:(lia) H i y); [lia|assumption]|].
    intros E. pose proof (sorted_at idx i mid y m Hs Ey Em Hi') as Hle. apply Hle. unfold indexed_compare.
    now rewrite <- (cmp_eq r y.1 m.1 E), Ec.
Qed.

(** The position the merge finds for a rule in the current policy. *)
Definition place (current : jf_policy) (r : jf_rule) : option indexed_rule :=
  find_rule (S (length (rule_index current))) (rule_index current) r 0 (length (rule_index current)).

Lemma rule_index_perm current : rule_index current ≡ₚ zip (rules_of current) (seq 0 (length (entries current))).
Proof. apply qsort_perm. Qed.

Lemma rule_index_length current : length (rule_index current) = length (entries current).
Proof. rewrite (Permutation_length (rule_index_perm current)), length_zip_with, length_seq. unfold rules_of. rewrite length_map. lia. Qed.

Lemma place_found current r f i : place current r = Some (f, i) -> rules_of current !! i = Some f /\ key_compare r f = Eq.
Proof.
  intros H. apply find_rule_found in H as [H E]. split; [|exact E]. rewrite rule_index_perm in H.
  apply list_elem_of_lookup_1 in H as [j Hj]. rewrite lookup_zip_with in Hj.
  destruct (rules_of current !! j) as [g|] eqn:Eg; [|discriminate]. cbn in Hj.
  destruct (seq _ _ !! j) as [m|] eqn:Em; [|discriminate]. cbn in Hj. apply lookup_seq in Em as [-> _]. now simplify_eq.
Qed.

Lemma place_missing current r : place current r = None -> forall f, f ∈ rules_of current -> key_compare r f <> Eq.
Proof.
  intros H f Hf. apply list_elem_of_lookup_1 in Hf as [i Hi].
  assert (Hlt : (i < length (entries current))%nat).
  { apply lookup_lt_Some in Hi. unfold rules_of in Hi. now rewrite length_map in Hi. }
  assert (Hz : (f, i) ∈ rule_index current).
  { rewrite rule_index_perm. apply (list_elem_of_lookup_2 _ i). rewrite lookup_zip_with, Hi. cbn.
    rewrite (lookup_seq_lt 0 _ i Hlt). reflexivity. }
  apply list_elem_of_lookup_1 in Hz as [j Hj].
  pose proof (lookup_lt_Some _ _ _ Hj) as Hlt'. unfold place in H.
  assert (K : forall k y, (0 <= k < length (rule_index current))%nat -> rule_index current !! k = Some y -> key_compare r y.1 <> Eq).
  { eapply find_rule_missed; [apply qsort_sorted, _|reflexivity| |exact H]. unfold indexed_rule in *; lia. }
  apply (K j (f, i)); [unfold indexed_rule in *; lia|exact Hj].
Qed.

(** ** What a merge writes *)

Definition quoted (s : bytes) : bytes := concat (quote_parts s).

(** A file that does not end its last line has it ended first. *)
Definition line_end (out : bytes) : bytes :=
  match last out with Some c => if c =? LF then [] else [LF] | None => [] end.

(** A route with its destination, or an alias, as a line of its own. *)
Definition written_line (file : nat) (out : bytes) (r : jf_rule) : bytes :=
  out ++ line_end out ++ (if (file =? 0)%nat then selector r ++ [SP] else []) ++ quoted (predicate r) ++
  (if (file =? 0)%nat && negb (stage r =? 5) then str " move " ++ quoted (logical r) else []) ++ [LF].

(** Contacts as address book records, numbered from [n]. *)
Fixpoint written_book (n : Z) (l : list jf_rule) : bytes :=
  match l with
  | [] => []
  | r :: t => concat (book_record n (predicate r)) ++ written_book (n + 1) t
  end.

(** The rules that stages of their own, bounces, spam and the rest, do not add. *)
Definition considered (r : jf_rule) : bool := negb ((stage r =? 2) || (stage r =? 6) || (stage r =? 8)).

Section MergeSpec.
Context (current : jf_policy).

Definition missing (file : nat) (r : jf_rule) : bool :=
  considered r && bool_decide (place current r = None) && (merge_file r =? file)%nat.
Definition new_rules (l : list jf_rule) (file : nat) : list jf_rule := List.filter (missing file) l.

(** The new contents of a file. *)
Definition merged (file : nat) (original : bytes) (l : list jf_rule) : bytes :=
  if (file <? 2)%nat then fold_left (written_line file) l original
  else match l with [] => original | _ => original ++ written_book (default 0 (book_next original)) l end.

(** Where the routes of a stage are among the current rules, new ones at the end. *)
Definition position (r : jf_rule) : nat := match place current r with Some (_, i) => i | None => length (entries current) end.
Definition positions (st : Z) (l : list jf_rule) : list nat := map position (List.filter (fun r => stage r =? st) l).

(** Every rule found already goes where the imported one does. *)
Definition agrees (r : jf_rule) : Prop :=
  considered r = true -> forall f i, place current r = Some (f, i) -> kind r = kind f /\ logical r = logical f.
End MergeSpec.

(** ** The parts of a step *)

Section MergeSteps.
Context `{HP : Heap} (current : jf_policy) (originals : list bytes).

Abbreviation wf := (buffer_wf JF_CACHE_MAX).

Lemma bind_some {A B} (m : option A) (f : A -> option B) b : (m ≫= f) = Some b -> exists a, m = Some a /\ f a = Some b.
Proof. destruct m as [a|]; [|discriminate]. intros H. now exists a. Qed.

Lemma quote_into_some s b h b' h' : wf b -> quote_into s (b, h) = Some (b', h') -> contents b' = contents b ++ quoted s /\ wf b'.
Proof. intros Hw. unfold quote_into. destruct (existsb _ s); [discriminate|]. now apply adds_Some. Qed.

Lemma optional_some (c : bool) l b h b' h' : wf b -> (if c then adds l (b, h) else Some (b, h)) = Some (b', h') ->
  contents b' = contents b ++ (if c then concat l else []) /\ wf b'.
Proof. intros Hw. destruct c; [now apply adds_Some|]. intros [= <- <-]. now rewrite app_nil_r. Qed.

Lemma merge_line_some file r b h b' h' : wf b -> merge_line file r (b, h) = Some (b', h') ->
  contents b' = written_line file (contents b) r /\ wf b'.
Proof.
  intros Hw. unfold merge_line. cbn [fst]. intros H. apply bind_some in H as ([b1 h1] & E1 & H).
  assert (H1 : contents b1 = contents b ++ line_end (contents b) /\ wf b1).
  { unfold line_end. destruct (last (contents b)) as [c|]; [|injection E1 as <- <-; now rewrite app_nil_r].
    destruct (c =? LF); cbn [negb] in E1; [injection E1 as <- <-; now rewrite app_nil_r|]. now apply adds_Some in E1. }
  destruct H1 as [C1 W1]. apply bind_some in H as ([b2 h2] & E2 & H). apply optional_some in E2 as [C2 W2]; [|assumption].
  apply bind_some in H as ([b3 h3] & E3 & H). apply quote_into_some in E3 as [C3 W3]; [|assumption].
  apply bind_some in H as ([b4 h4] & E4 & H).
  assert (H4 : contents b4 = contents b3 ++ (if (file =? 0)%nat && negb (stage r =? 5) then str " move " ++ quoted (logical r) else []) /\ wf b4).
  { destruct (_ && _); [|injection E4 as <- <-; now rewrite app_nil_r]. apply bind_some in E4 as ([b5 h5] & E5 & E4).
    apply adds_Some in E5 as [C5 W5]; [|assumption]. apply quote_into_some in E4 as [C4 W4]; [|assumption].
    rewrite C4, C5. cbn [concat]. rewrite app_nil_r, <- app_assoc. now split. }
  destruct H4 as [C4 W4]. apply adds_Some in H as [C5 W5]; [|assumption]. split; [|assumption].
  rewrite C5, C4, C3, C2, C1. unfold written_line. destruct (file =? 0)%nat; cbn [concat andb]; list_assoc; reflexivity.
Qed.

Lemma append_book_some a n b h n' b' h' : wf b -> append_book a n (b, h) = Some (n', (b', h')) ->
  n' = n + 1 /\ contents b' = contents b ++ concat (book_record n a) /\ wf b'.
Proof.
  intros Hw. unfold append_book. destruct (n =? ULONG_MAX); [discriminate|]. intros H. apply bind_some in H as ([b1 h1] & E & [= <- <- <-]).
  apply adds_Some in E as [C W]; auto.
Qed.

(** The state after the rules [l]. *)
Record merging (l : list jf_rule) (s : merge_state) : Prop := {
  mg_outputs : length (outputs s) = 4%nat /\ Forall wf (outputs s);
  mg_contents : forall i o, originals !! i = Some o -> contents (nth_bytes (outputs s) i) = merged i o (new_rules current l i);
  mg_ids : length (next_id s) = 4%nat /\ forall i o, (2 <= i)%nat -> originals !! i = Some o ->
    match new_rules current l i with
    | [] => nth i (next_id s) None = None
    | _ => exists n, book_next o = Some n /\ nth i (next_id s) None = Some (n + zlen (new_rules current l i))
    end;
  mg_agrees : Forall (agrees current) l;
  mg_last : length (last_ s) = 9%nat /\ forall st, st = 3 \/ st = 4 ->
    Sorted le (positions current st l) /\ nth (Z.to_nat st) (last_ s) 0%nat = match last (positions current st l) with Some i => S i | None => 0%nat end }.

Lemma sorted_snoc l (x : nat) : Sorted le l -> (forall y, last l = Some y -> (y <= x)%nat) -> Sorted le (l ++ [x]).
Proof.
  induction 1 as [|a l Hl IH Ha]; intros Hx; cbn [app]; [repeat constructor|]. constructor.
  - apply IH. intros y Hy. apply Hx. destruct l; [discriminate|exact Hy].
  - destruct l as [|b l]; [constructor; now apply Hx|]. inversion Ha. now constructor.
Qed.

Lemma written_book_app n l r : written_book n (l ++ [r]) = written_book n l ++ concat (book_record (n + zlen l) (predicate r)).
Proof.
  revert n. induction l as [|x l IH]; intros n; cbn [app written_book].
  - now rewrite app_nil_r, Z.add_0_r.
  - rewrite IH, <- app_assoc. do 4 f_equal. unfold zlen. cbn [length]. lia.
Qed.

Lemma new_rules_app l r i : new_rules current (l ++ [r]) i = new_rules current l i ++ (if missing current i r then [r] else []).
Proof. unfold new_rules. now rewrite List.filter_app. Qed.

Lemma positions_app st l r : positions current st (l ++ [r]) = positions current st l ++ (if stage r =? st then [position current r] else []).
Proof. unfold positions. rewrite List.filter_app, map_app. cbn. now destruct (stage r =? st). Qed.

Lemma position_le r : (position current r <= length (entries current))%nat.
Proof.
  unfold position. destruct (place current r) as [[f i]|] eqn:E; [|lia]. apply place_found in E as [E _].
  apply lookup_lt_Some in E. unfold rules_of in E. rewrite length_map in E. lia.
Qed.

Lemma merged_snoc file o l r : merged file o (l ++ [r]) =
  if (file <? 2)%nat then written_line file (merged file o l) r
  else merged file o l ++ concat (book_record (default 0 (book_next o) + zlen l) (predicate r)).
Proof.
  unfold merged. destruct (file <? 2)%nat; [now rewrite fold_left_app|].
  destruct l as [|x l]; [cbn [app written_book]; now rewrite app_nil_r, Z.add_0_r|].
  change ((x :: l) ++ [r]) with (x :: (l ++ [r])) at 1. cbv iota.
  change (x :: l ++ [r]) with ((x :: l) ++ [r]). now rewrite written_book_app, app_assoc.
Qed.

Definition last_ok (l : list jf_rule) (s : merge_state) : Prop :=
  length (last_ s) = 9%nat /\ forall st, st = 3 \/ st = 4 ->
    Sorted le (positions current st l) /\ nth (Z.to_nat st) (last_ s) 0%nat = match last (positions current st l) with Some i => S i | None => 0%nat end.

Lemma nth_insert_ne {A} (l : list A) i j x d : i <> j -> nth j (<[i := x]> l) d = nth j l d.
Proof. intros H. rewrite !nth_lookup, list_lookup_insert_ne; auto. Qed.
Lemma nth_insert_eq {A} (l : list A) i x d : (i < length l)%nat -> nth i (<[i := x]> l) d = x.
Proof. intros H. now rewrite nth_lookup, list_lookup_insert_eq. Qed.

(** A rule recorded at its position, which no route before it passes. *)
Lemma last_set l r s : last_ok l s ->
  (stage r = 3 \/ stage r = 4 -> (nth (Z.to_nat (stage r)) (last_ s) 0 <= S (position current r))%nat) ->
  last_ok (l ++ [r]) (set_last (stage r) (S (position current r)) s).
Proof.
  intros [Hn Hl] Hr. split; [cbn; now rewrite length_insert|]. intros st Hst. rewrite positions_app. destruct (Hl st Hst) as [Hs He].
  destruct (Z.eqb_spec (stage r) st) as [E|E].
  - rewrite E in Hr |- *. split.
    + apply sorted_snoc; [assumption|]. intros y Hy. rewrite Hy in He. specialize (Hr Hst). lia.
    + rewrite last_snoc. cbn. rewrite nth_insert_eq; [reflexivity|]. destruct Hst as [->| ->]; cbn; lia.
  - rewrite app_nil_r. split; [assumption|]. cbn. destruct (decide (Z.to_nat (stage r) = Z.to_nat st)) as [E'|E'].
    + exfalso. destruct Hst as [->| ->]; lia.
    + now rewrite nth_insert_ne.
Qed.

(** A rule that is not a route of these stages. *)
Lemma last_skip l r s : last_ok l s -> stage r <> 3 -> stage r <> 4 -> last_ok (l ++ [r]) s.
Proof.
  intros [Hn Hl] H3 H4. split; [assumption|]. intros st Hst. rewrite positions_app. destruct (Z.eqb_spec (stage r) st); [lia|].
  rewrite app_nil_r. now apply Hl.
Qed.

Lemma route_stage r : stage r = 3 \/ stage r = 4 -> is_route r = true.
Proof. unfold is_route. now intros [->| ->]. Qed.

(** The rule adds nothing. *)
Lemma merging_same l r s s' : merging l s -> outputs s' = outputs s -> next_id s' = next_id s ->
  (forall i, missing current i r = false) -> agrees current r -> last_ok (l ++ [r]) s' -> merging (l ++ [r]) s'.
Proof.
  intros [H1 H2 [H3 H3'] H4 H5] Eo Ei Hm Ha Hl. assert (Hn : forall i, new_rules current (l ++ [r]) i = new_rules current l i).
  { intros i. now rewrite new_rules_app, Hm, app_nil_r. }
  split; [now rewrite Eo| | | |exact Hl].
  - intros i o Ho. rewrite Hn, Eo. auto.
  - rewrite Ei. split; [assumption|]. intros i o Hi Ho. rewrite Hn. now apply H3'.
  - apply Forall_app_2; [assumption|now apply Forall_singleton].
Qed.

(** The rule is added to its file. *)
Lemma merging_add l r s st n b h ids : merging l s -> length originals = 4%nat -> considered r = true -> place current r = None ->
  let file := merge_file r in let o := nth file originals [] in
  wf b -> contents b = merged file o (new_rules current l file ++ [r]) ->
  length ids = 4%nat -> (forall i, i <> file -> nth i ids None = nth i (next_id s) None) ->
  ((2 <= file)%nat -> exists m, book_next o = Some m /\ nth file ids None = Some (m + zlen (new_rules current l file ++ [r]))) ->
  last_ok (l ++ [r]) (MkMerge (<[file := b]> (outputs s)) (last_ (if is_route r then set_last st n s else s)) ids h) ->
  merging (l ++ [r]) (MkMerge (<[file := b]> (outputs s)) (last_ (if is_route r then set_last st n s else s)) ids h).
Proof.
  intros [[H1 H1'] H2 [H3 H3'] H4 H5] Ho Hc Hp file o Hw Hb Hi Hne Hid Hl.
  assert (Hfile : (file < 4)%nat) by (unfold file, merge_file; repeat case_match; lia).
  assert (Hmiss : forall i, missing current i r = (file =? i)%nat) by (intros i; unfold missing; rewrite Hc, Hp; reflexivity).
  assert (Hoo : originals !! file = Some o).
  { unfold o. rewrite nth_lookup. destruct (lookup_lt_is_Some_2 originals file) as [x ->]; [lia|reflexivity]. }
  split.
  - cbn. rewrite length_insert. split; [assumption|]. now apply Forall_insert.
  - intros i x Hx. cbn [outputs]. unfold nth_bytes. rewrite new_rules_app, Hmiss. destruct (Nat.eqb_spec file i) as [<-|E].
    + rewrite nth_insert_eq by lia. rewrite Hoo in Hx. injection Hx as <-. exact Hb.
    + rewrite nth_insert_ne by assumption. rewrite app_nil_r. now apply H2.
  - cbn [next_id]. split; [assumption|]. intros i x Hge Hx. rewrite new_rules_app, Hmiss. destruct (Nat.eqb_spec file i) as [<-|E].
    + rewrite Hoo in Hx. injection Hx as <-. destruct (Hid Hge) as (m & M1 & M2).
      destruct (new_rules current l file ++ [r]) eqn:En; [now destruct (new_rules current l file)|]. now exists m.
    + rewrite app_nil_r, Hne by auto. now apply H3'.
  - apply Forall_app_2; [assumption|]. constructor; [|constructor]. intros _ f i. rewrite Hp. discriminate.
  - exact Hl.
Qed.

Lemma merge_append_added l r s s' : length originals = 4%nat -> merging l s -> considered r = true -> place current r = None ->
  let s1 := if is_route r then set_last (stage r) (S (length (entries current))) s else s in
  last_ok (l ++ [r]) s1 -> merge_append r s1 = Ok s' -> merging (l ++ [r]) s'.
Proof.
  intros Ho Hm Hc Hp s1 Hl. unfold merge_append.
  assert (E1 : outputs s1 = outputs s /\ next_id s1 = next_id s) by (unfold s1; now destruct (is_route r)). destruct E1 as [Eo Ei].
  rewrite Eo, Ei. set (file := merge_file r). set (o := nth file originals []).
  assert (Hfile : (file < 4)%nat) by (unfold file, merge_file; repeat case_match; lia).
  assert (Hoo : originals !! file = Some o).
  { unfold o. rewrite nth_lookup. destruct (lookup_lt_is_Some_2 originals file) as [x ->]; [lia|reflexivity]. }
  assert (Hb : wf (nth_bytes (outputs s) file)).
  { unfold nth_bytes. rewrite nth_lookup. destruct (lookup_lt_is_Some_2 (outputs s) file) as [x Hx]; [destruct Hm as [[-> _] _]; lia|].
    rewrite Hx. cbn. destruct Hm as [[_ Hf] _]. rewrite Forall_forall in Hf. apply Hf, (list_elem_of_lookup_2 _ _ _ Hx). }
  pose proof (mg_contents _ _ Hm file o Hoo) as Hcont. destruct (mg_ids _ _ Hm) as [Hil Hids].
  destruct (Nat.leb_spec 2 file) as [Hge|Hlt]; cbn [fst].
  - specialize (Hids file o Hge Hoo). rewrite Hcont.
    destruct (match nth file (next_id s) None with Some n => Some n | None => _ end) as [n|] eqn:En; [|discriminate].
    assert (Hn : exists m, book_next o = Some m /\ n = m + zlen (new_rules current l file)).
    { destruct (new_rules current l file) as [|x t] eqn:Enr.
      - rewrite Hids in En. unfold merged in En. destruct (Nat.ltb_spec file 2); [lia|]. exists n. split; [assumption|unfold zlen; cbn; lia].
      - destruct Hids as (m & M1 & M2). rewrite M2 in En. exists m. split; [assumption|congruence]. }
    destruct Hn as (m & M1 & ->). destruct (append_book _ _ _) as [[n' [b h]]|] eqn:Ea; [|discriminate]. intros [= <-].
    apply append_book_some in Ea as (-> & Cb & Wb); [|exact Hb].
    apply (merging_add l r s (stage r) (S (length (entries current))) b h); auto; fold file o.
    + rewrite merged_snoc, Cb, Hcont, M1. destruct (Nat.ltb_spec file 2); [lia|reflexivity].
    + now rewrite length_insert.
    + intros i Hi. rewrite nth_insert_ne; auto.
    + intros _. exists m. split; [assumption|]. rewrite nth_insert_eq by lia. f_equal. unfold zlen. rewrite length_app. cbn. lia.
  - destruct (merge_line _ _ _) as [[b h]|] eqn:Ea; [|discriminate]. intros [= <-]. apply merge_line_some in Ea as [Cb Wb]; [|exact Hb].
    apply (merging_add l r s (stage r) (S (length (entries current))) b h); auto; fold file o; [|intros; lia].
    rewrite merged_snoc, Cb, Hcont. destruct (Nat.ltb_spec file 2); [reflexivity|lia].
Qed.

Lemma merge_step l r s s' : length originals = 4%nat -> merging l s -> merge_rule (rule_index current) r s = Ok s' -> merging (l ++ [r]) s'.
Proof.
  intros Ho Hm. unfold merge_rule. fold (place current r). destruct (_ || _) eqn:Ec.
  { intros [= <-]. assert (Hc : considered r = false) by (unfold considered; now rewrite Ec).
    apply (merging_same l r s); auto; [intros i; unfold missing; now rewrite Hc|intros E; congruence|].
    apply last_skip; [apply Hm|intros E; rewrite E in Ec; discriminate..]. }
  assert (Hc : considered r = true) by (unfold considered; now rewrite Ec). rewrite rule_index_length.
  assert (Hle : stage r = 3 \/ stage r = 4 -> (nth (Z.to_nat (stage r)) (last_ s) 0 <= S (length (entries current)))%nat).
  { intros Hs. destruct (proj2 (mg_last _ _ Hm) (stage r) Hs) as [_ ->]. destruct (last _) as [p|] eqn:El; [|lia].
    apply last_Some in El as (l' & El). assert (Hp : p ∈ positions current (stage r) l) by (rewrite El, elem_of_app; right; constructor).
    unfold positions in Hp. apply list_elem_of_fmap in Hp as (x & -> & _). pose proof (position_le x). lia. }
  destruct (place current r) as [[f i]|] eqn:Ep.
  - destruct (bool_decide (kind r = kind f)) eqn:Ek; [|discriminate]. destruct (streq (logical r) (logical f)) eqn:El; [|discriminate].
    cbn [negb orb]. destruct (is_route r && _) eqn:Er; [discriminate|]. intros [= <-].
    assert (Hpos : position current r = i) by (unfold position; now rewrite Ep).
    apply (merging_same l r s); auto; [intros j; unfold missing; rewrite Ep; now destruct (considered r)| |].
    + intros _ f' i'. rewrite Ep. intros [= <- <-]. split; [now apply bool_decide_eq_true in Ek|now apply streq_spec].
    + rewrite <- Hpos. apply last_set; [apply Hm|]. intros Hs. rewrite (route_stage r Hs) in Er. cbn [andb] in Er.
      apply Nat.ltb_ge in Er. now rewrite Hpos.
  - intros H. eapply merge_append_added; eauto. destruct (is_route r) eqn:Er.
    + assert (Hpos : position current r = length (entries current)) by (unfold position; now rewrite Ep). rewrite <- Hpos.
      apply last_set; [apply Hm|]. now rewrite Hpos.
    + apply last_skip; [apply Hm|intros E; rewrite route_stage in Er by auto; discriminate..].
Qed.

Lemma merge_rules_spec l0 l s s' : length originals = 4%nat -> merging l0 s -> merge_rules (rule_index current) l s = Ok s' -> merging (l0 ++ l) s'.
Proof.
  intros Ho. revert l0 s. induction l as [|r l IH]; intros l0 s Hm; cbn [merge_rules]; [intros [= <-]; now rewrite app_nil_r|].
  destruct (merge_rule _ r s) as [s1|] eqn:E; [|discriminate]. cbn [mbind res_bind]. intros H.
  change (l0 ++ r :: l) with (l0 ++ ([r] ++ l)). rewrite app_assoc. eapply IH; [|exact H]. eapply merge_step; eauto.
Qed.

Lemma copy_originals_spec l h bs h' : copy_originals l h = Some (bs, h') -> length bs = length l /\ Forall wf bs /\ map contents bs = l.
Proof.
  revert h bs h'. induction l as [|o l IH]; intros h bs h'; cbn [copy_originals]; [intros [= <- <-]; now split_and!|].
  intros H. apply bind_some in H as ([b h1] & E1 & H). apply bind_some in H as ([bs1 h2] & E2 & [= <- <-]).
  assert (Hw : wf no_bytes) by (split; unfold zlen, JF_CACHE_MAX; cbn; lia).
  apply add_limit_Some in E1 as (C & W & _); [|exact cache_max_range|exact Hw]. destruct (IH _ _ _ E2) as (L & F & M).
  cbn. rewrite L, M, C. split_and!; auto.
Qed.
End MergeSteps.

(** C23. A merge adds exactly what is missing.  For four original files, each output
    is the original followed by its new rules in their imported order: routes and
    aliases as quoted lines after an ended last line, contacts as address book
    records numbered on from the first free number.  A rule is new when no current
    rule has its stage, selector and predicate; one that is there goes where the
    imported one does; and the routes of the two route stages follow the order of
    the current rules, with the new ones last. *)
Theorem merge_adds `{HP : Heap} current imported original h out h' :
  jf_import_merge current imported original h = Ok (out, h') -> length original = 4%nat ->
  out = imap (fun i o => merged i o (new_rules current (rules_of imported) i)) original /\
  (forall r, match place current r with
             | Some (f, i) => rules_of current !! i = Some f /\ key_compare r f = Eq
             | None => forall f, f ∈ rules_of current -> key_compare r f <> Eq
             end) /\
  Forall (agrees current) (rules_of imported) /\
  Sorted le (positions current 3 (rules_of imported)) /\ Sorted le (positions current 4 (rules_of imported)).
Proof.
  unfold jf_import_merge. destruct (mallocs 1 h) as [h1|]; [|discriminate]. destruct (copy_originals original h1) as [[bs h2]|] eqn:Ec; [|discriminate].
  destruct (merge_rules _ _ _) as [s|] eqn:Em; [|discriminate]. cbn [mbind res_bind]. intros [= <- _] Ho.
  destruct (copy_originals_spec _ _ _ _ Ec) as (L & F & M).
  assert (H0 : merging current original [] (MkMerge bs (replicate 9 0%nat) (replicate JF_IMPORT_FILES None) h2)).
  { split; [split; [cbn; lia|assumption]| |split; [reflexivity|]|apply List.Forall_nil|split; [reflexivity|intros st [->| ->]; (split; [apply Sorted_nil|reflexivity])]].
    - intros i o Hi. unfold merged, nth_bytes. cbn [outputs new_rules List.filter fold_left]. rewrite nth_lookup.
      rewrite <- M in Hi. apply list_lookup_fmap_Some in Hi as (b & -> & Hb). rewrite Hb. now destruct (_ <? _)%nat.
    - intros i o _ Hi. apply lookup_lt_Some in Hi. cbn. do 4 (destruct i as [|i]; [reflexivity|]). lia. }
  pose proof (merge_rules_spec current original [] _ _ _ Ho H0 Em) as Hm. cbn [app] in Hm. split_and!.
  - apply list_eq. intros i. rewrite list_lookup_imap. destruct (original !! i) as [o|] eqn:Eo; cbn.
    + pose proof (mg_contents _ _ _ _ Hm i o Eo) as Hc. rewrite list_lookup_fmap. unfold nth_bytes in Hc. rewrite nth_lookup in Hc.
      destruct (lookup_lt_is_Some_2 (outputs s) i) as [b Eb]; [apply lookup_lt_Some in Eo; destruct (mg_outputs _ _ _ _ Hm) as [-> _]; lia|].
      rewrite Eb in Hc |- *. cbn in *. now rewrite Hc.
    + apply lookup_ge_None_2. rewrite length_map. destruct (mg_outputs _ _ _ _ Hm) as [-> _]. apply lookup_ge_None in Eo. lia.
  - intros r. destruct (place current r) as [[f i]|] eqn:E; [now apply place_found|now apply place_missing].
  - apply (mg_agrees _ _ _ _ Hm).
  - apply (proj2 (mg_last _ _ _ _ Hm) 3). now left.
  - apply (proj2 (mg_last _ _ _ _ Hm) 4). now right.
Qed.

(** ** Fresh numbers *)

Definition is_digit (c : Z) : bool := (ch "0" <=? c) && (c <=? ch "9").
Definition number_of (n : Z) (ds : bytes) : Z := fold_left (fun n c => n * 10 + (c - ch "0")) ds n.

Lemma book_digits_number ds r n k : forallb is_digit ds = true ->
  book_digits (ds ++ ch "]" :: r) n k = None \/ book_digits (ds ++ ch "]" :: r) n k = Some (number_of n ds, ch "]" :: r, (k + length ds)%nat).
Proof.
  revert n k. induction ds as [|c ds IH]; intros n k; cbn [forallb app book_digits length]; [intros _; right; now rewrite Nat.add_0_r|].
  intros [Hc Hd]%andb_true_iff. unfold is_digit in Hc. rewrite Hc. destruct (_ <? n); [now left|].
  rewrite <- Nat.add_succ_comm. now apply IH.
Qed.

Lemma book_scan_max st s m n : book_scan st s m = Some n -> m <= n.
Proof.
  revert st m. induction s as [|c s IH]; intros st m; cbn [book_scan]; [intros [= <-]; lia|].
  destruct (st && _); [|apply IH]. destruct (book_digits s 0 0) as [[[v r] k]|]; [|discriminate].
  destruct (_ && _) eqn:E; [|apply IH]. destruct (v =? ULONG_MAX); [discriminate|]. intros H. apply IH in H.
  apply andb_true_iff in E as [_ E]. lia.
Qed.

Lemma book_scan_section st a ds r m n : book_scan st (a ++ ch "[" :: ds ++ ch "]" :: r) m = Some n ->
  match last a with Some c => c = LF | None => st = true end -> ds <> [] -> forallb is_digit ds = true -> number_of 0 ds < n.
Proof.
  revert st m. induction a as [|c a IH]; intros st m; cbn [app book_scan].
  - intros H Hst Hne Hd. cbn in Hst. subst st. rewrite Z.eqb_refl in H. cbn [andb] in H.
    destruct (book_digits_number ds r 0 0 Hd) as [E|E]; rewrite E in H; [discriminate|].
    destruct ds as [|d ds]; [easy|]. cbn [length Nat.add Nat.eqb negb andb] in H. rewrite Z.eqb_refl in H. cbn [andb] in H.
    destruct (Z.leb_spec m (number_of 0 (d :: ds))).
    + destruct (_ =? ULONG_MAX); [discriminate|]. apply book_scan_max in H. lia.
    + apply book_scan_max in H. lia.
  - intros H Hst. assert (Hst' : match last a with Some c' => c' = LF | None => (c =? LF) = true end).
    { destruct a as [|c' a]; [cbn in Hst; subst c; reflexivity|].
      change (last (c :: c' :: a)) with (last (c' :: a)) in Hst. destruct (last (c' :: a)) eqn:El; [exact Hst|]. now apply last_None in El. }
    destruct (st && _); [|exact (IH _ _ H Hst')]. destruct (book_digits _ 0 0) as [[[v q] k]|]; [|discriminate].
    destruct (_ && _); [|exact (IH _ _ H Hst')]. destruct (v =? ULONG_MAX); [discriminate|]. exact (IH _ _ H Hst').
Qed.

(** The numbers of added contacts are fresh: every section of an address book
    that begins a line with a bracketed number has a number below the first one
    the merge gives, which is in the range of the C type. *)
Theorem book_numbers_fresh a ds r n :
  book_next (a ++ ch "[" :: ds ++ ch "]" :: r) = Some n -> match last a with Some c => c = LF | None => True end ->
  ds <> [] -> forallb is_digit ds = true -> 0 <= number_of 0 ds < n.
Proof.
  unfold book_next. intros H Hl Hne Hd. split.
  - assert (G : forall m, 0 <= m -> 0 <= number_of m ds); [|now apply G].
    clear -Hd. induction ds as [|c ds IH]; intros m Hm; [exact Hm|]. cbn [forallb] in Hd. apply andb_true_iff in Hd as [Hc Hd].
    apply IH; [assumption|]. unfold is_digit in Hc. apply andb_true_iff in Hc as [Hc _]. apply Z.leb_le in Hc. lia.
  - eapply book_scan_section; eauto. destruct (last a); auto.
Qed.

Lemma book_numbers_fresh_witness : 0 <= number_of 0 (str "41") < 42.
Proof.
  apply (book_numbers_fresh (str "# book" ++ [LF]) (str "41") ([LF] ++ str "name=x" ++ [LF]) 42);
    [vm_compute; reflexivity|reflexivity|discriminate|reflexivity].
Defined.

(** ** A merge *)

Definition parsed (filters contacts : bytes) : jf_policy :=
  match jf_policy_parse (AL := ample) (RX := fixed_strings)
          (View [MkSourceArg 0 (Some (str "Filters.txt")) (Some (str "F")) (View filters);
                 MkSourceArg 3 (Some (str "whitelist.abook")) (Some (str "W")) (View contacts)]) with
  | Ok p => p
  | Fail _ _ => MkPolicy [] 0 0 [] [] None None None
  end.
Definition sample_current : jf_policy := parsed (str "to-address a@b.c move x" ++ [LF]) [].
Definition sample_imported : jf_policy := parsed (str "to-address a@b.c move x" ++ [LF] ++ str "to-address d@e.f move y" ++ [LF]) (str "g@h.i" ++ [LF]).
Definition sample_files : list bytes := [str "to-address a@b.c move x"; []; str "[7]" ++ [LF] ++ str "email=k@l.m" ++ [LF]; []].

Lemma merge_adds_witness : exists out h, jf_import_merge (HP := granting) sample_current sample_imported sample_files 0 = Ok (out, h) /\
  out = imap (fun i o => merged i o (new_rules sample_current (rules_of sample_imported) i)) sample_files.
Proof.
  destruct (jf_import_merge (HP := granting) sample_current sample_imported sample_files 0) as [[out h]|rc e] eqn:E; [|vm_compute in E; discriminate].
  exists out, h. split; [reflexivity|]. exact (proj1 (merge_adds (HP := granting) _ _ _ _ _ _ E eq_refl)).
Defined.

(** The output of that merge, in full. *)
Example sample_merge : match jf_import_merge (HP := granting) sample_current sample_imported sample_files 0 with Ok (out, _) => out | Fail _ _ => [] end =
     [str "to-address a@b.c move x" ++ [LF] ++ str "to-address " ++ [DQ] ++ str "d@e.f" ++ [DQ] ++ str " move " ++ [DQ] ++ str "y" ++ [DQ; LF]; [];
      str "[7]" ++ [LF] ++ str "email=k@l.m" ++ [LF; LF] ++ str "[8]" ++ [LF] ++ str "name=Imported Sieve" ++ [LF] ++ str "email=g@h.i" ++ [LF]; []].
Proof. vm_compute. reflexivity. Qed.
