(* ===== verification/Pool.v ===== *)
(** * The pool of workers (src/filter/pool.c)

    Sixteen workers, the thread that collects signals and the coordinator share
    one [struct jf_pool] under one mutex.  Each section between taking the mutex
    and giving it up (at its end or in [pthread_cond_wait]) is one function on the
    state; a [choice] says which thread runs its next section and what
    [sigtimedwait] answers, and [reaches] is every interleaving of them.  The
    build for Linux without the test hooks. *)
From S2P Require Import Prelude Sha256 Storage.

Definition JF_POOL_WORKERS : nat := 16.
Definition JF_POOL_WINDOW : nat := 2 * JF_POOL_WORKERS.

(** ** State *)

(** The fields the mutex protects; the addresses of jobs are numbers. *)
Record jf_pool := MkPool { next : Z; count : Z; remaining : Z; stop_ : bool; quit : bool; signal : Z }.

(** Where a worker is: at the top of its loop, in [pthread_cond_wait (ready)],
    woken but without the mutex, in [run], returned.  [Wild] has read a job
    beyond the array. *)
Inductive worker_pc := Entering | Waiting | Woken | Running (job : Z) | Gone | Wild.

(** The thread that collects signals. *)
Inductive manager_pc := Polling | Quitted.

(** The coordinator: between calls, in [pthread_cond_wait (settled)], woken,
    joining the threads in [jf_pool_finish], returned from it. *)
Inductive coordinator_pc := Idle | Parked | Resumed | Joining | Finished (signal : Z).

Record state := MkState {
  pool : jf_pool; array : list Z; workers : list worker_pc; manager : manager_pc; coordinator : coordinator_pc;
  views : list jf_storage; allowed : option (Z -> Z -> bool) }.

Definition set_pool (p : jf_pool) (s : state) : state :=
  MkState p (array s) (workers s) (manager s) (coordinator s) (views s) (allowed s).
Definition set_array (l : list Z) (s : state) : state :=
  MkState (pool s) l (workers s) (manager s) (coordinator s) (views s) (allowed s).
Definition set_workers (l : list worker_pc) (s : state) : state :=
  MkState (pool s) (array s) l (manager s) (coordinator s) (views s) (allowed s).
Definition set_manager (m : manager_pc) (s : state) : state :=
  MkState (pool s) (array s) (workers s) m (coordinator s) (views s) (allowed s).
Definition set_coordinator (c : coordinator_pc) (s : state) : state :=
  MkState (pool s) (array s) (workers s) (manager s) c (views s) (allowed s).
Definition set_views (l : list jf_storage) (a : option (Z -> Z -> bool)) (s : state) : state :=
  MkState (pool s) (array s) (workers s) (manager s) (coordinator s) l a.

(** What a section does that others can see, the latest first in a history. *)
Inductive event :=
  | Opened (jobs : list Z) (** a window of these jobs is offered *)
  | Began (w : nat) (job : Z) (** worker [w] takes the job *)
  | Settled (w : nat) (job : Z) (** its [run] has returned *)
  | Returned (** [jf_pool_window] returns *)
  | Consumed (signal : Z)
  | StopCall (** [jf_pool_stop] *)
  | Checked (b : bool) (** [jf_pool_stopped] returns *)
  | Ended (signal : Z). (** [jf_pool_finish] returns *)

(** ** Condition variables *)

Definition wake (w : worker_pc) : worker_pc := match w with Waiting => Woken | w => w end.
(** [pthread_cond_broadcast (&p->ready)]. *)
Definition broadcast (s : state) : state := set_workers (map wake (workers s)) s.
(** [pthread_cond_signal (&p->settled)]: only the coordinator waits there. *)
Definition signal_settled (s : state) : state :=
  match coordinator s with Parked => set_coordinator Resumed s | _ => s end.

(** ** Signals and cancellation *)

Definition publish (sig : Z) (p : jf_pool) : jf_pool :=
  MkPool (next p) (count p) (remaining p) true (quit p) sig.

(** The loop over [sigtimedwait], whose answers are given; no answer is [EAGAIN]. *)
Fixpoint drain (n : nat) (answers : list (option Z)) (p : jf_pool) (received : list Z) : jf_pool * list Z :=
  match n, answers with
  | S n', Some sig :: rest => drain n' rest (publish sig p) (sig :: received)
  | _, _ => (p, received)
  end.

Definition observe_signals (answers : list (option Z)) (s : state) : state * list event :=
  let '(p, received) := drain 8 answers (pool s) [] in
  let s := set_pool p s in
  (match received with [] => s | _ => broadcast s end, map Consumed received).

Definition jf_pool_stopped (answers : list (option Z)) (s : state) : state * list event :=
  let '(s, ev) := observe_signals answers s in (s, Checked (stop_ (pool s)) :: ev).

Definition jf_pool_stop (s : state) : state * list event :=
  let p := pool s in
  (broadcast (set_pool (MkPool (next p) (count p) (remaining p) true (quit p) (signal p)) s), [StopCall]).

Definition set_quit (p : jf_pool) : jf_pool :=
  MkPool (next p) (count p) (remaining p) (stop_ p) true (signal p).

(** ** The threads *)

Definition set_worker (w : nat) (pc : worker_pc) (s : state) : state := set_workers (<[w := pc]> (workers s)) s.

(** From [pthread_mutex_lock], or the return of [pthread_cond_wait], to the
    unlock: the test of the loop, the exit, or the next job. *)
Definition worker_enter (w : nat) (s : state) : state * list event :=
  let p := pool s in
  if negb (quit p) && (next p =? count p) then (set_worker w Waiting s, [])
  else if quit p then (set_worker w Gone s, [])
  else
    let s' := set_pool (MkPool (size_t (next p + 1)) (count p) (remaining p) (stop_ p) (quit p) (signal p)) s in
    match array s !! Z.to_nat (next p) with
    | Some job => (set_worker w (Running job) s', [Began w job])
    | None => (set_worker w Wild s', [])
    end.

(** The section after [run]. *)
Definition worker_settle (w : nat) (job : Z) (s : state) : state * list event :=
  let p := pool s in
  let left_ := size_t (remaining p - 1) in
  let s := set_worker w Entering (set_pool (MkPool (next p) (count p) left_ (stop_ p) (quit p) (signal p)) s) in
  (if left_ =? 0 then signal_settled s else s, [Settled w job]).

(** One turn of the thread that collects signals. *)
Definition signals (answers : list (option Z)) (s : state) : state * list event :=
  let '(s, ev) := observe_signals answers s in
  (if quit (pool s) then set_manager Quitted s else s, ev).

(** ** The coordinator *)

(** The view of worker [i]. *)
Definition worker_view (storage : jf_storage) (i : nat) : jf_storage :=
  let flip (k : nat) (l : bytes) := <[k := Z.lxor (at_ l k) (Z.of_nat i)]> l in
  MkStorage (root storage) (engine storage) (lock storage) (random storage) (root_identity storage)
    (lock_identity storage) (flip 15%nat (flip 0%nat (nonce storage))) (sequence storage)
    ShouldStop (root_path storage) true true.

Definition jf_pool_bind (storage : jf_storage) (interrupted : bool) (callback : option (Z -> Z -> bool)) (s : state) :
    state * list event :=
  let '(s, ev) := if interrupted then jf_pool_stop s else (s, []) in
  (set_views (map (worker_view storage) (seq 0 JF_POOL_WORKERS)) callback s, ev).

(** The callback of the views. *)
Definition destination_allowed (s : state) (cur new : Z) : bool :=
  match allowed s with None => true | Some f => f cur new end.

(** [while (p->remaining)], with the mutex. *)
Definition window_test (s : state) : state * list event :=
  if remaining (pool s) =? 0 then (set_coordinator Idle s, [Returned]) else (set_coordinator Parked s, []).

Definition jf_pool_window (n : nat) (s : state) : state * list event :=
  if (n =? 0)%nat then (s, [])
  else
    let p := pool s in
    let c := Z.of_nat n in
    let '(s', ev) := window_test (broadcast (set_pool (MkPool 0 c c (stop_ p) (quit p) (signal p)) s)) in
    (s', ev ++ [Opened (take n (array s))]).

(** [jf_pool_finish]: up to the joins, and after them. *)
Definition jf_pool_finish (s : state) : state * list event :=
  (set_coordinator Joining (broadcast (set_pool (set_quit (pool s)) s)), []).

Definition finish_joined (answers : list (option Z)) (s : state) : state * list event :=
  let '(s, ev) := observe_signals answers s in
  (set_coordinator (Finished (signal (pool s))) s, Ended (signal (pool s)) :: ev).

(** ** Interleavings *)

Inductive choice :=
  | Enter (w : nat) | Wakes (w : nat) (** a spurious wakeup *)
  | Checks (w : nat) (answers : list (option Z)) | Stops (w : nat) (** calls made by the job *)
  | Settles (w : nat)
  | Polls (answers : list (option Z))
  | Arranges (jobs : list Z) (** the coordinator fills its array *)
  | Binds (storage : jf_storage) (interrupted : bool) (callback : option (Z -> Z -> bool))
  | Asks (answers : list (option Z)) | Cancels
  | Opens (n : nat) | Resumes | WakesCoordinator | Finishes | Joins (answers : list (option Z)).

Definition gone (w : worker_pc) : bool := match w with Gone => true | _ => false end.

(** The next section, when the thread is where the choice says.  The coordinator
    offers no more jobs than its array has. *)
Definition move (c : choice) (s : state) : option (state * list event) :=
  match c with
  | Enter w => match workers s !! w with Some (Entering | Woken) => Some (worker_enter w s) | _ => None end
  | Wakes w => match workers s !! w with Some Waiting => Some (set_worker w Woken s, []) | _ => None end
  | Checks w a => match workers s !! w with Some (Running _) => Some (jf_pool_stopped a s) | _ => None end
  | Stops w => match workers s !! w with Some (Running _) => Some (jf_pool_stop s) | _ => None end
  | Settles w => match workers s !! w with Some (Running job) => Some (worker_settle w job s) | _ => None end
  | Polls a => match manager s with Polling => Some (signals a s) | Quitted => None end
  | Arranges l => match coordinator s with Idle => Some (set_array l s, []) | _ => None end
  | Binds st i f => match coordinator s with Idle => Some (jf_pool_bind st i f s) | _ => None end
  | Asks a => match coordinator s with Idle => Some (jf_pool_stopped a s) | _ => None end
  | Cancels => match coordinator s with Idle => Some (jf_pool_stop s) | _ => None end
  | Opens n =>
      match coordinator s with
      | Idle => if (n <=? length (array s))%nat && (Z.of_nat n <=? SIZE_MAX) then Some (jf_pool_window n s) else None
      | _ => None
      end
  | Resumes => match coordinator s with Resumed => Some (window_test s) | _ => None end
  | WakesCoordinator => match coordinator s with Parked => Some (set_coordinator Resumed s, []) | _ => None end
  | Finishes => match coordinator s with Idle => Some (jf_pool_finish s) | _ => None end
  | Joins a =>
      match coordinator s, manager s with
      | Joining, Quitted => if forallb gone (workers s) then Some (finish_joined a s) else None
      | _, _ => None
      end
  end.

(** What [calloc] and the started threads give. *)
Definition started : state :=
  MkState (MkPool 0 0 0 false false 0) [] (replicate JF_POOL_WORKERS Entering) Polling Idle [] None.

(** The states interleavings lead to; choices and events the latest first. *)
Inductive reaches : list choice -> list event -> state -> Prop :=
  | reaches_start : reaches [] [] started
  | reaches_move cs ev s c s' e : reaches cs ev s -> move c s = Some (s', e) -> reaches (c :: cs) (e ++ ev) s'.

(** A schedule, the first choice first. *)
Fixpoint run (cs : list choice) (ev : list event) (s : state) : option (list event * state) :=
  match cs with
  | [] => Some (ev, s)
  | c :: t => match move c s with Some (s', e) => run t (e ++ ev) s' | None => None end
  end.

Lemma run_reaches cs : forall done_ ev s ev' s',
  reaches done_ ev s -> run cs ev s = Some (ev', s') -> reaches (List.rev cs ++ done_) ev' s'.
Proof.
  induction cs as [|c t IH]; intros done_ ev s ev' s' Hr H; cbn in H.
  - now simplify_eq.
  - destruct (move c s) as [[u e]|] eqn:E; [|discriminate].
    cbn. rewrite <- app_assoc. eapply IH; [eapply reaches_move; eassumption | exact H].
Qed.

(** ** Starting

    The resources a start holds, and how it gives them up again. *)

Inductive resource := Heap | Mutex | Ready | SettledCond | Mask | Attributes | Worker (i : nat) | Manager.
#[export] Instance resource_eq : EqDecision resource. Proof. solve_decision. Defined.

Definition release (r : resource) (held : list resource) : list resource := List.filter (fun x => negb (bool_decide (x = r))) held.
Definition release_all (rs held : list resource) : list resource := foldr release held rs.

(** The workers created until one is refused. *)
Fixpoint create_workers (ok : resource -> bool) (i n : nat) : list resource :=
  match n with
  | O => []
  | S n' => if ok (Worker i) then Worker i :: create_workers ok (S i) n' else []
  end.

(** [getrlimit] and the descriptors of /proc/self/fd, when read, and whether each
    resource is granted; [Attributes] is [pthread_attr_init] with the stack size,
    which is destroyed before the end either way. *)
Definition jf_pool_start (limit fds : option Z) (ok : resource -> bool) : bool * list resource :=
  match limit, fds with
  | Some rlim_cur, Some open_count =>
      if rlim_cur <? size_t (open_count + Z.of_nat JF_POOL_WINDOW * 2 + Z.of_nat JF_POOL_WORKERS * 8 + 32) then (false, [])
      else if negb (ok Heap) then (false, [])
      else if negb (ok Mutex) then (false, release Heap [Heap])
      else
        let mutex_fail held := (false, release_all [Heap; Mutex] held) in
        let ready_fail held := mutex_fail (release Ready held) in
        let settled_fail held := ready_fail (release SettledCond held) in
        let mask_fail held := settled_fail (release Mask held) in
        let held := [Mutex; Heap] in
        if negb (ok Ready) then mutex_fail held
        else
          let held := Ready :: held in
          if negb (ok SettledCond) then ready_fail held
          else
            let held := SettledCond :: held in
            if negb (ok Mask) then settled_fail held
            else
              let held := Mask :: held in
              if negb (ok Attributes) then mask_fail held
              else
                let ws := create_workers ok 0 JF_POOL_WORKERS in
                let held := ws ++ held in
                if (length ws =? JF_POOL_WORKERS)%nat && ok Manager then (true, Manager :: held)
                else mask_fail (release_all ws held)
  | _, _ => (false, [])
  end.

(** The joins and releases of [jf_pool_finish]. *)
Definition finish_release (held : list resource) : list resource :=
  release_all [Heap; Mutex; Ready; SettledCond; Mask; Manager] (release_all (map Worker (seq 0 JF_POOL_WORKERS)) held).
