(* ===== verification/PoolFacts.v ===== *)
(** * The pool of workers: every job settles once (src/filter/pool.c)

    An invariant of all interleavings, and from it: a window returns exactly when
    each of its jobs has been run once; no wakeup is lost, so windows and the end
    of the pool return; and no job passes a check after a stop. *)
From S2P Require Import Prelude Sha256 Storage Pool.

(** ** Histories *)

(** The events since the last window was opened. *)
Fixpoint window (ev : list event) : list event :=
  match ev with [] | Opened _ :: _ => [] | e :: t => e :: window t end.
(** The jobs of that window. *)
Fixpoint opened (ev : list event) : list Z :=
  match ev with [] => [] | Opened l :: _ => l | _ :: t => opened t end.

Definition began_of (e : event) : option (nat * Z) := match e with Began w j => Some (w, j) | _ => None end.
Definition settled_of (e : event) : option (nat * Z) := match e with Settled w j => Some (w, j) | _ => None end.
Definition began (ev : list event) : list (nat * Z) := omap began_of (window ev).
Definition settled (ev : list event) : list (nat * Z) := omap settled_of (window ev).

(** A stop was requested, and the last signal taken. *)
Fixpoint stop_seen (ev : list event) : bool :=
  match ev with [] => false | (Consumed _ | StopCall) :: _ => true | _ :: t => stop_seen t end.
Fixpoint last_signal (ev : list event) : Z :=
  match ev with [] => 0 | Consumed z :: _ => z | _ :: t => last_signal t end.

(** Every check told whether a stop had been requested before it. *)
Fixpoint honest (ev : list event) : Prop :=
  match ev with
  | [] => True
  | Checked b :: t => b = stop_seen t /\ honest t
  | Ended z :: t => z = last_signal t /\ honest t
  | _ :: t => honest t
  end.

(** Events that are only of signals and stops. *)
Definition quiet (e : event) : bool :=
  match e with Consumed _ | StopCall | Checked _ | Returned | Ended _ => true | _ => false end.

Lemma quiet_app e ev : forallb quiet e = true ->
  window (e ++ ev) = e ++ window ev /\ opened (e ++ ev) = opened ev /\
  began (e ++ ev) = began ev /\ settled (e ++ ev) = settled ev.
Proof.
  induction e as [|x e IH]; cbn; [done|].
  intros [Hx He]%andb_true_iff. destruct (IH He) as (H1 & H2 & H3 & H4).
  unfold began, settled in *. destruct x; cbn; try discriminate; rewrite ?H1 in *; auto.
Qed.

(** ** Workers *)

(** The jobs the workers from number [i] on run. *)
Fixpoint running_from (i : nat) (l : list worker_pc) : list (nat * Z) :=
  match l with
  | [] => []
  | Running j :: t => (i, j) :: running_from (S i) t
  | _ :: t => running_from (S i) t
  end.
Definition running (s : state) : list (nat * Z) := running_from 0 (workers s).

Definition job_at (w : nat) (pc : worker_pc) : list (nat * Z) :=
  match pc with Running j => [(w, j)] | _ => [] end.

Lemma running_cons i pc t : running_from i (pc :: t) = job_at i pc ++ running_from (S i) t.
Proof. now destruct pc. Qed.

Lemma running_update l : forall i w pc x, l !! w = Some pc -> exists rest,
  running_from i l ≡ₚ job_at (i + w) pc ++ rest /\ running_from i (<[w := x]> l) ≡ₚ job_at (i + w) x ++ rest.
Proof.
  induction l as [|y t IH]; intros i [|w] pc x H; cbn in H; try discriminate.
  - simplify_eq. exists (running_from (S i) t). rewrite Nat.add_0_r. cbn [insert list_insert]. rewrite !running_cons. done.
  - destruct (IH (S i) w pc x H) as (rest & H1 & H2). exists (job_at i y ++ rest).
    replace (i + S w)%nat with (S i + w)%nat by lia.
    cbn [insert list_insert]. rewrite !running_cons, H1.
    split; [solve_Permutation|]. rewrite <- (Permutation_app_comm rest), app_assoc, (Permutation_app_comm _ rest).
    change (list_insert w x t) with (<[w := x]> t). rewrite H2. solve_Permutation.
Qed.

Lemma running_wake i l : running_from i (map wake l) = running_from i l.
Proof. revert i. induction l as [|pc t IH]; intros i; [done|]. cbn [map]. rewrite !running_cons, IH. now destruct pc. Qed.

Lemma running_length i l : (length (running_from i l) <= length l)%nat.
Proof. revert i. induction l as [|pc t IH]; intros i; cbn; [lia|]. specialize (IH (S i)). destruct pc; cbn; lia. Qed.

Lemma running_none i l : (forall pc, pc ∈ l -> job_at 0 pc = []) -> running_from i l = [].
Proof.
  revert i. induction l as [|pc t IH]; intros i H; [done|]. rewrite running_cons, IH.
  - specialize (H pc). destruct pc; try done. now discriminate H; left.
  - intros q Hq. apply H. now right.
Qed.

Lemma running_in i l w j : (w, j) ∈ running_from i l -> exists k, w = (i + k)%nat /\ l !! k = Some (Running j).
Proof.
  revert i. induction l as [|pc t IH]; intros i H; [now apply elem_of_nil in H|].
  rewrite running_cons in H. apply elem_of_app in H as [H|H].
  - destruct pc; cbn in H; try (now apply elem_of_nil in H). apply list_elem_of_singleton in H as [= -> ->].
    exists 0%nat. split; [lia|done].
  - apply IH in H as (k & -> & Hk). exists (S k). split; [lia|done].
Qed.

(** ** The queue *)

Definition pc_ok (p : jf_pool) (pc : worker_pc) : Prop :=
  match pc with
  | Waiting => quit p = false /\ next p = count p
  | Gone => quit p = true
  | Wild => False
  | _ => True
  end.

Definition in_window (c : coordinator_pc) : bool := match c with Parked | Resumed => true | _ => false end.
Definition ending (c : coordinator_pc) : bool := match c with Joining | Finished _ => true | _ => false end.

(** The jobs taken are those below [next], in order; those not settled are being
    run, and [remaining] counts them with those not taken; a worker waits only
    when there is nothing to take, and the coordinator only when jobs remain. *)
Record Queue (ev : list event) (s : state) : Prop := {
  q_workers : length (workers s) = JF_POOL_WORKERS;
  q_next : 0 <= next (pool s) <= count (pool s);
  q_count : count (pool s) <= SIZE_MAX;
  q_remaining : remaining (pool s) = count (pool s) - next (pool s) + zlen (running s);
  q_opened : zlen (opened ev) = count (pool s);
  q_array : next (pool s) < count (pool s) -> opened ev = take (length (opened ev)) (array s);
  q_began : rev (map snd (began ev)) = take (Z.to_nat (next (pool s))) (opened ev);
  q_perm : began ev ≡ₚ settled ev ++ running s;
  q_idle : in_window (coordinator s) = false -> remaining (pool s) = 0;
  q_parked : coordinator s = Parked -> remaining (pool s) <> 0;
  q_pcs : Forall (pc_ok (pool s)) (workers s);
  q_quit : quit (pool s) = ending (coordinator s);
  q_manager : manager s = Quitted -> quit (pool s) = true;
  q_finished : forall z, coordinator s = Finished z -> manager s = Quitted /\ forallb gone (workers s) = true }.

Lemma queue_started : Queue [] started.
Proof. split; try done. repeat constructor. Qed.

(** Steps that leave the queue alone. *)
Record Calm (s s' : state) : Prop := {
  c_next : next (pool s') = next (pool s); c_count : count (pool s') = count (pool s);
  c_remaining : remaining (pool s') = remaining (pool s); c_quit : quit (pool s') = quit (pool s);
  c_array : array s' = array s;
  c_workers : workers s' = workers s \/ workers s' = map wake (workers s);
  c_manager : manager s' = manager s; c_coordinator : coordinator s' = coordinator s }.

Lemma gone_wake l : forallb gone (map wake l) = forallb gone l.
Proof. induction l as [|pc t IH]; [done|]. cbn. rewrite IH. now destruct pc. Qed.

Lemma pcs_ext (p q : jf_pool) l : next p = next q -> count p = count q -> quit p = quit q ->
  Forall (pc_ok p) l -> Forall (pc_ok q) l.
Proof. intros H1 H2 H3 H. eapply Forall_impl; [exact H|]. intros pc. unfold pc_ok. now rewrite H1, H2, H3. Qed.

Lemma pcs_wake p l : Forall (pc_ok p) l -> Forall (pc_ok p) (map wake l).
Proof. intros H. apply Forall_map. eapply Forall_impl; [exact H|]. now intros []. Qed.

Lemma calm_queue ev e s s' : Queue ev s -> Calm s s' -> forallb quiet e = true -> Queue (e ++ ev) s'.
Proof.
  intros Q C He. destruct Q, C. destruct (quiet_app e ev He) as (_ & E2 & E3 & E4).
  assert (running s' = running s) as ER by (unfold running; destruct c_workers0 as [->| ->]; [done|apply running_wake]).
  split; rewrite ?E2, ?E3, ?E4, ?ER, ?c_next0, ?c_count0, ?c_remaining0, ?c_quit0, ?c_array0, ?c_manager0, ?c_coordinator0; auto.
  - destruct c_workers0 as [->| ->]; [|rewrite length_map]; auto.
  - apply (pcs_ext (pool s)); auto. destruct c_workers0 as [->| ->]; [|apply pcs_wake]; auto.
  - intros z Hz. destruct (q_finished0 z Hz) as [H1 H2]. split; [exact H1|].
    destruct c_workers0 as [->| ->]; [|rewrite gone_wake]; auto.
Qed.

Lemma calm_refl s : Calm s s.
Proof. split; auto. Qed.

Lemma drain_queue n : forall a p r, exists p', drain n a p r = (p', (drain n a p r).2) /\
  next p' = next p /\ count p' = count p /\ remaining p' = remaining p /\ quit p' = quit p.
Proof.
  induction n as [|n IH]; intros a p r; [now exists p|].
  destruct a as [|[z|] a]; cbn; [now exists p| |now exists p].
  destruct (IH a (publish z p) (z :: r)) as (p' & E & H). now exists p'.
Qed.

Lemma observe_calm a s : Calm s (observe_signals a s).1.
Proof.
  unfold observe_signals. destruct (drain_queue 8 a (pool s) []) as (p' & E & H1 & H2 & H3 & H4).
  destruct (drain 8 a (pool s) []) as [p r]. cbn in E. simplify_eq.
  destruct r; split; cbn; auto.
Qed.

Lemma observe_quiet a s : forallb quiet (observe_signals a s).2 = true.
Proof.
  unfold observe_signals. destruct (drain 8 a (pool s) []) as [p r]. cbn. now induction r.
Qed.

Lemma stop_calm s : Calm s (jf_pool_stop s).1.
Proof. split; cbn; auto. Qed.

(** *** Sections that change it *)

Lemma worker_pc_ok ev s w pc : Queue ev s -> workers s !! w = Some pc -> pc_ok (pool s) pc.
Proof. intros Q H. exact (Forall_lookup_1 _ _ _ _ (q_pcs _ _ Q) H). Qed.

Lemma running_set w pc x s : workers s !! w = Some pc -> exists rest,
  running s ≡ₚ job_at w pc ++ rest /\ running (set_worker w x s) ≡ₚ job_at w x ++ rest.
Proof. intros H. exact (running_update (workers s) 0 w pc x H). Qed.

(** A worker moves to a place where it runs no job. *)
Lemma queue_idle_worker ev s w pc x :
  Queue ev s -> workers s !! w = Some pc -> job_at w pc = [] -> job_at w x = [] -> pc_ok (pool s) x -> gone pc = false ->
  Queue ev (set_worker w x s).
Proof.
  intros Q H J1 J2 OK G. destruct (running_set w pc x s H) as (rest & R1 & R2).
  rewrite J1 in R1. rewrite J2 in R2. cbn in R1, R2.
  assert (running (set_worker w x s) ≡ₚ running s) as ER by (now rewrite R1, R2).
  destruct Q. split; cbn [pool array workers manager coordinator set_worker set_workers]; auto.
  - now rewrite length_insert.
  - unfold zlen. now rewrite ER.
  - now rewrite ER.
  - now apply Forall_insert.
  - intros z Hz. destruct (q_finished0 z Hz) as [_ HG]. rewrite forallb_forall in HG.
    specialize (HG pc (proj1 (list_elem_of_In _ _) (list_elem_of_lookup_2 _ _ _ H))). congruence.
Qed.

Lemma take_next ev s : Queue ev s -> next (pool s) < count (pool s) -> exists job,
  array s !! Z.to_nat (next (pool s)) = Some job /\ opened ev !! Z.to_nat (next (pool s)) = Some job.
Proof.
  intros Q H. pose proof (q_next _ _ Q). pose proof (q_opened _ _ Q) as HO. unfold zlen in HO.
  destruct (lookup_lt_is_Some_2 (opened ev) (Z.to_nat (next (pool s)))) as [job Hj]; [lia|].
  exists job. split; [|exact Hj]. rewrite (q_array _ _ Q H) in Hj. now apply lookup_take_Some in Hj as [Hj _].
Qed.

Lemma queue_take ev s w pc job :
  Queue ev s -> workers s !! w = Some pc -> job_at w pc = [] -> gone pc = false ->
  quit (pool s) = false -> next (pool s) < count (pool s) -> opened ev !! Z.to_nat (next (pool s)) = Some job ->
  Queue (Began w job :: ev) (set_worker w (Running job) (set_pool (MkPool (next (pool s) + 1) (count (pool s))
    (remaining (pool s)) (stop_ (pool s)) (quit (pool s)) (signal (pool s))) s)).
Proof.
  intros Q H J G HQ HN HJ. destruct (running_set w pc (Running job) s H) as (rest & R1 & R2). rewrite J in R1. cbn in R1, R2.
  assert (in_window (coordinator s) = true) as HW.
  { destruct (in_window (coordinator s)) eqn:E; [done|]. pose proof (q_idle _ _ Q E). pose proof (q_remaining _ _ Q).
    unfold zlen in *. lia. }
  set (p := MkPool _ _ _ _ _ _). set (s' := set_worker _ _ _).
  assert (running s' ≡ₚ (w, job) :: running s) as ER by (rewrite R1; exact R2).
  destruct Q. split; cbn [pool array workers manager coordinator s' p set_worker set_workers set_pool next count remaining quit]; auto.
  - now rewrite length_insert.
  - lia.
  - unfold zlen in *. rewrite ER. cbn [length]. lia.
  - unfold began in *. cbn. rewrite q_began0. replace (Z.to_nat (next (pool s) + 1)) with (S (Z.to_nat (next (pool s)))) by lia.
    symmetry. now apply take_S_r.
  - rewrite ER. unfold began, settled in *. cbn. rewrite q_perm0. solve_Permutation.
  - apply Forall_insert; [|exact I]. eapply Forall_impl; [exact q_pcs0|]. intros []; cbn; lia || congruence || auto.
  - intros z Hz. now rewrite Hz in HW.
Qed.

Lemma queue_enter ev s w pc : Queue ev s -> workers s !! w = Some pc -> job_at w pc = [] -> gone pc = false ->
  Queue ((worker_enter w s).2 ++ ev) (worker_enter w s).1.
Proof.
  intros Q H J G. unfold worker_enter. pose proof (q_next _ _ Q). pose proof (q_count _ _ Q). unfold SIZE_MAX in *.
  destruct (quit (pool s)) eqn:HQ; cbn [negb andb].
  - apply (queue_idle_worker ev s w pc); auto.
  - destruct (next (pool s) =? count (pool s)) eqn:HN; cbn [negb andb].
    + apply (queue_idle_worker ev s w pc); auto. split; [exact HQ|lia].
    + destruct (take_next ev s Q) as (job & HA & HO); [lia|]. rewrite HA. unfold size_t. rewrite Z.mod_small by lia.
      rewrite <- HQ. apply (queue_take ev s w pc); auto. lia.
Qed.

(** [signal_settled] where the last job settles. *)
Lemma settled_wakes s : exists c, signal_settled s = set_coordinator c s /\
  in_window c = in_window (coordinator s) /\ c <> Parked /\ ending c = ending (coordinator s) /\
  (forall z, c = Finished z -> coordinator s = Finished z).
Proof.
  unfold signal_settled. destruct (coordinator s) eqn:E.
  2: now exists Resumed.
  all: exists (coordinator s); rewrite E; repeat split; auto; try discriminate; rewrite <- E; now destruct s.
Qed.

(** A worker gives up its job, and the coordinator is told by [c]. *)
Lemma queue_give ev s w job c :
  Queue ev s -> workers s !! w = Some (Running job) ->
  in_window c = in_window (coordinator s) -> ending c = ending (coordinator s) ->
  (forall z, c = Finished z -> coordinator s = Finished z) -> (c = Parked -> remaining (pool s) <> 1) ->
  Queue (Settled w job :: ev) (set_coordinator c (set_worker w Entering (set_pool (MkPool (next (pool s)) (count (pool s))
    (remaining (pool s) - 1) (stop_ (pool s)) (quit (pool s)) (signal (pool s))) s))).
Proof.
  intros Q H Cw Ce Cf Cp. destruct (running_set w (Running job) Entering s H) as (rest & R1 & R2). cbn in R1, R2.
  set (s' := set_coordinator c _).
  assert (running s' ≡ₚ rest) as ER by exact R2.
  assert (in_window (coordinator s) = true) as HW.
  { destruct (in_window (coordinator s)) eqn:E; [done|]. pose proof (q_idle _ _ Q E). pose proof (q_remaining _ _ Q).
    pose proof (q_next _ _ Q). unfold zlen in *. rewrite R1 in *. cbn [length] in *. lia. }
  destruct Q. split; cbn [pool array workers manager coordinator s' set_worker set_workers set_pool set_coordinator next count remaining quit]; auto.
  - now rewrite length_insert.
  - unfold zlen in *. rewrite ER, R1 in *. cbn [length] in *. lia.
  - rewrite ER. unfold began, settled in *. cbn. rewrite q_perm0, R1. solve_Permutation.
  - congruence.
  - intros Hc. specialize (Cp Hc). lia.
  - apply Forall_insert; [|exact I]. eapply Forall_impl; [exact q_pcs0|]. intros []; cbn; auto.
  - congruence.
  - intros z Hz. apply Cf in Hz. now rewrite Hz in HW.
Qed.

Lemma remaining_bounds ev s : Queue ev s -> zlen (running s) <= remaining (pool s) <= SIZE_MAX.
Proof.
  intros Q. rewrite (q_remaining _ _ Q). pose proof (q_next _ _ Q). pose proof (q_count _ _ Q).
  assert (length (running s) <= Z.to_nat (next (pool s)))%nat as HR; [|unfold zlen; lia].
  pose proof (f_equal length (q_began _ _ Q)) as HB. rewrite length_rev, length_map, length_take in HB.
  rewrite (q_perm _ _ Q), length_app in HB. lia.
Qed.

Lemma queue_settle ev s w job : Queue ev s -> workers s !! w = Some (Running job) ->
  Queue ((worker_settle w job s).2 ++ ev) (worker_settle w job s).1.
Proof.
  intros Q H. destruct (running_set w _ Entering s H) as (rest & R1 & _).
  pose proof (remaining_bounds ev s Q) as HB. unfold zlen in HB. rewrite R1 in HB. cbn [length job_at app] in HB.
  unfold worker_settle. unfold size_t. unfold SIZE_MAX in HB. rewrite Z.mod_small by lia.
  destruct (remaining (pool s) - 1 =? 0) eqn:E; cbn [fst snd app].
  - destruct (settled_wakes (set_worker w Entering (set_pool (MkPool (next (pool s)) (count (pool s))
      (remaining (pool s) - 1) (stop_ (pool s)) (quit (pool s)) (signal (pool s))) s))) as (c & -> & H1 & H2 & H3 & H4).
    now apply queue_give.
  - apply Z.eqb_neq in E.
    assert (forall t, t = set_coordinator (coordinator t) t) as Ht by now intros [].
    rewrite (Ht (set_worker _ _ _)). apply queue_give; auto. lia.
Qed.

(** A coordinator that has the mutex in [jf_pool_window]. *)
Lemma queue_test ev s : Queue ev s -> in_window (coordinator s) = true -> Queue ((window_test s).2 ++ ev) (window_test s).1.
Proof.
  intros Q H. unfold window_test. destruct (remaining (pool s) =? 0) eqn:E; cbn [fst snd].
  - destruct (quiet_app [Returned] ev eq_refl) as (_ & E2 & E3 & E4).
    destruct Q. split; cbn [pool array workers manager coordinator set_coordinator in_window ending] in *; rewrite ?E2, ?E3, ?E4; auto; try discriminate.
    + intros _. lia.
    + rewrite q_quit0. now destruct (coordinator s).
  - destruct Q. split; cbn [pool array workers manager coordinator set_coordinator in_window ending app]; auto; try discriminate.
    + lia.
    + rewrite q_quit0. now destruct (coordinator s).
Qed.

Lemma idle_next ev s : Queue ev s -> in_window (coordinator s) = false -> next (pool s) = count (pool s) /\ running s = [].
Proof.
  intros Q H. pose proof (q_idle _ _ Q H). pose proof (q_remaining _ _ Q). pose proof (q_next _ _ Q). unfold zlen in *.
  split; [lia|]. destruct (running s); [done|cbn [length] in *; lia].
Qed.

Lemma queue_array ev s l : Queue ev s -> coordinator s = Idle -> Queue ev (set_array l s).
Proof.
  intros Q H. destruct (idle_next ev s Q) as [H1 _]; [now rewrite H|].
  destruct Q. split; cbn [pool array workers manager coordinator set_array]; auto. lia.
Qed.

Lemma queue_views ev s l a : Queue ev s -> Queue ev (set_views l a s).
Proof. intros Q. destruct Q. now split. Qed.

Lemma queue_open ev s n : Queue ev s -> coordinator s = Idle -> (n <= length (array s))%nat -> Z.of_nat n <= SIZE_MAX ->
  Queue ((jf_pool_window n s).2 ++ ev) (jf_pool_window n s).1.
Proof.
  intros Q HC Hn HM. unfold jf_pool_window. destruct (n =? 0)%nat eqn:E; [exact Q|]. apply Nat.eqb_neq in E.
  destruct (idle_next ev s Q) as [HN HR]; [now rewrite HC|].
  set (p := MkPool _ _ _ _ _ _). set (s1 := broadcast _).
  assert (Queue (Opened (take n (array s)) :: ev) (set_coordinator Resumed s1)) as HQ.
  { destruct Q.
    assert (running (set_coordinator Resumed s1) = []) as ER by (rewrite <- HR; apply running_wake).
    split; rewrite ?ER; cbn [pool array workers manager coordinator s1 p set_pool set_coordinator broadcast set_workers next count remaining quit in_window ending opened]; auto; try discriminate; try done.
    - now rewrite length_map.
    - lia.
    - unfold zlen. cbn. lia.
    - unfold zlen. rewrite length_take. lia.
    - intros _. f_equal. rewrite length_take. lia.
    - apply Forall_map. eapply Forall_impl; [exact q_pcs0|]. intros []; cbn; auto.
    - now rewrite q_quit0, HC. }
  pose proof (queue_test _ _ HQ eq_refl) as HT.
  change (window_test (set_coordinator Resumed s1)) with (window_test s1) in HT.
  destruct (window_test s1) as [s' e]. cbn [fst snd] in *. now rewrite <- app_assoc.
Qed.

Lemma queue_finish ev s : Queue ev s -> coordinator s = Idle -> Queue ev (jf_pool_finish s).1.
Proof.
  intros Q H. destruct (idle_next ev s Q) as [HN HR]; [now rewrite H|]. destruct Q.
  assert (running (jf_pool_finish s).1 = running s) as ER by apply running_wake.
  split; rewrite ?ER; cbn [pool array workers manager coordinator jf_pool_finish fst set_quit set_pool set_coordinator broadcast set_workers next count remaining quit in_window ending]; auto; try discriminate.
  - now rewrite length_map.
  - intros _. apply q_idle0. now rewrite H.
  - apply Forall_map. eapply Forall_impl; [exact q_pcs0|]. now intros [].
Qed.

Lemma queue_manager ev s : Queue ev s -> quit (pool s) = true -> Queue ev (set_manager Quitted s).
Proof. intros Q H. destruct Q. split; auto. intros z Hz. split; [done|]. now apply (q_finished0 z). Qed.

Lemma queue_joined ev s z : Queue ev s -> coordinator s = Joining -> manager s = Quitted -> forallb gone (workers s) = true ->
  Queue ev (set_coordinator (Finished z) s).
Proof.
  intros Q HC HM HG. destruct Q.
  split; cbn [pool array workers manager coordinator set_coordinator in_window ending]; auto; try discriminate.
  - intros _. apply q_idle0. now rewrite HC.
Qed.

Lemma queue_stop ev s : Queue ev s -> Queue ((jf_pool_stop s).2 ++ ev) (jf_pool_stop s).1.
Proof. intros Q. apply (calm_queue ev _ s); auto. exact (stop_calm s). Qed.

Lemma observe_cases a s : exists t f, observe_signals a s = (t, f) /\ Calm s t /\ forallb quiet f = true.
Proof.
  pose proof (observe_calm a s). pose proof (observe_quiet a s).
  destruct (observe_signals a s) as [t f]. now exists t, f.
Qed.

Lemma queue_stopped ev s a : Queue ev s -> Queue ((jf_pool_stopped a s).2 ++ ev) (jf_pool_stopped a s).1.
Proof.
  intros Q. unfold jf_pool_stopped. destruct (observe_cases a s) as (t & f & -> & HC & HF).
  now apply (calm_queue ev _ s).
Qed.

Lemma queue_signals ev s a : Queue ev s -> Queue ((signals a s).2 ++ ev) (signals a s).1.
Proof.
  intros Q. unfold signals. destruct (observe_cases a s) as (t & f & -> & HC & HF). cbn [fst snd].
  pose proof (calm_queue ev _ s _ Q HC HF) as HQ. destruct (quit (pool t)) eqn:EQ; [|exact HQ]. now apply queue_manager.
Qed.

Lemma queue_bind ev s st i f : Queue ev s -> Queue ((jf_pool_bind st i f s).2 ++ ev) (jf_pool_bind st i f s).1.
Proof.
  intros Q. unfold jf_pool_bind. destruct i; [|now apply queue_views].
  pose proof (queue_stop ev s Q) as H. destruct (jf_pool_stop s) as [t e]. now apply queue_views.
Qed.

Lemma queue_joins ev s a : Queue ev s -> coordinator s = Joining -> manager s = Quitted -> forallb gone (workers s) = true ->
  Queue ((finish_joined a s).2 ++ ev) (finish_joined a s).1.
Proof.
  intros Q HC HM HG. unfold finish_joined. destruct (observe_cases a s) as (t & f & -> & C & HF). cbn [fst snd].
  assert (Queue (Ended (signal (pool t)) :: f ++ ev) t) as HQ by now apply (calm_queue ev (Ended (signal (pool t)) :: f) s).
  apply queue_joined; auto; destruct C; try congruence.
  destruct c_workers0 as [->| ->]; rewrite ?gone_wake; auto.
Qed.

Lemma queue_woken ev s : Queue ev s -> coordinator s = Parked -> Queue ev (set_coordinator Resumed s).
Proof.
  intros Q E. destruct Q. split; cbn [pool array workers manager coordinator set_coordinator]; auto; try discriminate.
  now rewrite q_quit0, E.
Qed.

(** The coordinator is where the choice says. *)
Ltac at_coordinator :=
  match goal with
  | H : context [match coordinator ?u with _ => _ end] |- _ => destruct (coordinator u) eqn:?E; try discriminate H
  end.

(** Every move keeps the queue. *)
Lemma queue_move ev s c s' e : Queue ev s -> move c s = Some (s', e) -> Queue (e ++ ev) s'.
Proof.
  intros Q H.
  assert (forall r, Some r = Some (s', e) -> Queue (r.2 ++ ev) r.1 -> Queue (e ++ ev) s') as K by (intros r [= ->]; auto).
  destruct c; cbn [move] in H.
  all: try (destruct (workers s !! w) as [[]|] eqn:E; try discriminate).
  all: try at_coordinator.
  all: apply (K _ H) || idtac; cbn [fst snd app].
  - eapply queue_enter; [exact Q | exact E | done..].
  - eapply queue_enter; [exact Q | exact E | done..].
  - eapply queue_idle_worker; [exact Q | exact E | done..].
  - now apply queue_stopped.
  - now apply queue_stop.
  - now apply queue_settle.
  - destruct (manager s); [|discriminate]. apply (K _ H). now apply queue_signals.
  - now apply queue_array.
  - now apply queue_bind.
  - now apply queue_stopped.
  - now apply queue_stop.
  - destruct ((n <=? length (array s))%nat && (Z.of_nat n <=? SIZE_MAX)) eqn:EN; [|discriminate]. apply (K _ H).
    apply andb_true_iff in EN as [EN EM]. apply Nat.leb_le in EN. apply queue_open; auto. lia.
  - apply queue_test; [exact Q | now rewrite E].
  - now apply queue_woken.
  - now apply queue_finish.
  - destruct (manager s) eqn:EM; [discriminate|]. destruct (forallb gone (workers s)) eqn:EG; [|discriminate].
    apply (K _ H). now apply queue_joins.
Qed.

Lemma queue_reaches cs ev s : reaches cs ev s -> Queue ev s.
Proof. induction 1; [apply queue_started | eapply queue_move; eassumption]. Qed.

(** ** Signals and stops *)

(** The pool knows of the stops and signals of the history, and told so. *)
Record Told (ev : list event) (s : state) : Prop := {
  t_stop : stop_ (pool s) = stop_seen ev; t_signal : signal (pool s) = last_signal ev; t_honest : honest ev }.

Lemma drain_told n : forall a p r ev, stop_ p = stop_seen (map Consumed r ++ ev) -> signal p = last_signal (map Consumed r ++ ev) ->
  let '(p', r') := drain n a p r in
  stop_ p' = stop_seen (map Consumed r' ++ ev) /\ signal p' = last_signal (map Consumed r' ++ ev).
Proof.
  induction n as [|n IH]; intros a p r ev H1 H2; [done|].
  destruct a as [|[z|] a]; cbn; [done| |done]. now apply IH.
Qed.

Lemma honest_consumed r ev : honest (map Consumed r ++ ev) <-> honest ev.
Proof. now induction r. Qed.

Lemma told_ext ev s s' : Told ev s -> stop_ (pool s') = stop_ (pool s) -> signal (pool s') = signal (pool s) -> Told ev s'.
Proof. intros [] H1 H2. split; congruence. Qed.

Lemma told_observe ev s a : Told ev s -> Told ((observe_signals a s).2 ++ ev) (observe_signals a s).1.
Proof.
  intros []. unfold observe_signals. pose proof (drain_told 8 a (pool s) [] ev t_stop0 t_signal0) as H.
  destruct (drain 8 a (pool s) []) as [p r]. destruct H as [H1 H2].
  assert (Told (map Consumed r ++ ev) (set_pool p s)) as HT by (split; [done..|now apply honest_consumed]).
  destruct r; (eapply told_ext; [exact HT|done..]).
Qed.

Lemma told_stop ev s : Told ev s -> Told ((jf_pool_stop s).2 ++ ev) (jf_pool_stop s).1.
Proof. intros []. split; auto. Qed.

Lemma told_stopped ev s a : Told ev s -> Told ((jf_pool_stopped a s).2 ++ ev) (jf_pool_stopped a s).1.
Proof.
  intros T. pose proof (told_observe ev s a T) as H. unfold jf_pool_stopped.
  destruct (observe_signals a s) as [t f]. destruct H. split; auto. now split.
Qed.

Lemma told_window ev s : Told ev s -> Told ((window_test s).2 ++ ev) (window_test s).1.
Proof. intros []. unfold window_test. destruct (remaining (pool s) =? 0); split; auto. Qed.

Lemma told_move ev s c s' e : Told ev s -> move c s = Some (s', e) -> Told (e ++ ev) s'.
Proof.
  intros T H.
  assert (forall r, Some r = Some (s', e) -> Told (r.2 ++ ev) r.1 -> Told (e ++ ev) s') as K by (intros r [= ->]; auto).
  destruct c; cbn [move] in H.
  all: try (destruct (workers s !! w) as [[]|] eqn:E; try discriminate).
  all: try at_coordinator.
  all: apply (K _ H) || idtac; cbn [fst snd app].
  all: try (apply told_stopped || apply told_stop || apply told_window || eapply told_ext; [exact T|done..]).
  - unfold worker_enter. destruct (negb _ && _); [|destruct (quit _); [|destruct (array s !! _)]]; destruct T; now split.
  - unfold worker_enter. destruct (negb _ && _); [|destruct (quit _); [|destruct (array s !! _)]]; destruct T; now split.
  - unfold worker_settle. destruct (_ =? 0); [|destruct T; now split]. unfold signal_settled.
    destruct (coordinator _); destruct T; now split.
  - destruct (manager s); [|discriminate]. apply (K _ H). pose proof (told_observe ev s answers T) as HT. unfold signals.
    destruct (observe_signals answers s) as [t f]. destruct (quit _); [|exact HT]. destruct HT; now split.
  - unfold jf_pool_bind. destruct interrupted; destruct T; now split.
  - destruct (_ && _); [|discriminate]. apply (K _ H). unfold jf_pool_window. destruct (n =? 0)%nat; [exact T|].
    set (s1 := broadcast _). assert (Told (Opened (take n (array s)) :: ev) s1) as HT by (destruct T; now split).
    apply told_window in HT. destruct (window_test s1). cbn [fst snd] in *. now rewrite <- app_assoc.
  - destruct (manager s); [discriminate|]. destruct (forallb gone (workers s)); [|discriminate]. apply (K _ H).
    pose proof (told_observe ev s answers T) as HT. unfold finish_joined. destruct (observe_signals answers s) as [t f].
    destruct HT; now split.
Qed.

Lemma told_reaches cs ev s : reaches cs ev s -> Told ev s.
Proof. induction 1; [now split | eapply told_move; eassumption]. Qed.

Lemma stop_seen_spec ev : stop_seen ev = true <-> StopCall ∈ ev \/ exists z, Consumed z ∈ ev.
Proof.
  induction ev as [|e t IH]; [split; [done|intros [H|[z H]]; now apply elem_of_nil in H]|].
  destruct e; cbn [stop_seen]; rewrite ?IH; setoid_rewrite elem_of_cons; naive_solver.
Qed.

Lemma honest_app later ev : honest (later ++ ev) -> honest ev.
Proof. induction later as [|e t IH]; [done|]. destruct e; cbn; tauto. Qed.

Lemma drain_received n : forall a p r, exists t, (drain n a p r).2 = t ++ r.
Proof.
  induction n as [|n IH]; intros a p r; [now exists []|]. destruct a as [|[y|] a]; [now exists []| |now exists []].
  cbn. destruct (IH a (publish y p) (y :: r)) as [t Ht]. exists (t ++ [y]). now rewrite Ht, <- app_assoc.
Qed.

(** A pending signal is taken. *)
Lemma observe_first z a s : exists t, (observe_signals (Some z :: a) s).2 = t ++ [Consumed z].
Proof.
  unfold observe_signals. change (drain 8 (Some z :: a) (pool s) []) with (drain 7 a (publish z (pool s)) [z]).
  destruct (drain_received 7 a (publish z (pool s)) [z]) as [t Ht].
  destruct (drain 7 _ _ _) as [p r]. cbn [snd] in *. subst r. exists (map Consumed t). apply map_app.
Qed.

(** ** Windows *)

(** All jobs of the last window were taken in order, and each was given back by
    the worker that took it. *)
Definition complete (ev : list event) : Prop :=
  rev (map snd (began ev)) = opened ev /\ began ev ≡ₚ settled ev.

Lemma queue_complete ev s : Queue ev s -> remaining (pool s) = 0 -> complete ev.
Proof.
  intros Q H. pose proof (q_remaining _ _ Q). pose proof (q_next _ _ Q). pose proof (q_opened _ _ Q). unfold zlen in *.
  split.
  - rewrite (q_began _ _ Q). apply take_ge. lia.
  - rewrite (q_perm _ _ Q). destruct (running s); [now rewrite app_nil_r|cbn [length] in *; lia].
Qed.

Fixpoint completes (ev : list event) : Prop :=
  match ev with [] => True | Returned :: t => complete t /\ completes t | _ :: t => completes t end.
Definition not_return (e : event) : bool := match e with Returned => false | _ => true end.

Lemma completes_app e ev : forallb not_return e = true -> completes ev -> completes (e ++ ev).
Proof. induction e as [|x e IH]; [done|]. cbn. intros [H1 H2]%andb_true_iff H. destruct x; cbn; try done; now apply IH. Qed.

Lemma completes_later later ev : completes (later ++ ev) -> completes ev.
Proof. induction later as [|e t IH]; [done|]. destruct e; cbn; tauto. Qed.

Lemma consumed_not_return a s : forallb not_return (observe_signals a s).2 = true.
Proof. unfold observe_signals. destruct (drain 8 a (pool s) []) as [p r]. cbn. now induction r. Qed.

Lemma move_not_return s c s' e : move c s = Some (s', e) -> c <> Resumes -> forallb not_return e = true.
Proof.
  intros H HN.
  assert (forall r, Some r = Some (s', e) -> forallb not_return r.2 = true -> forallb not_return e = true) as K by (intros r [= ->]; auto).
  destruct c; cbn [move] in H; try done.
  all: try (destruct (workers s !! w) as [[]|] eqn:E; try discriminate).
  all: try at_coordinator.
  all: apply (K _ H) || idtac; try done.
  - unfold worker_enter. destruct (negb _ && _); [|destruct (quit _); [|destruct (array s !! _)]]; done.
  - unfold worker_enter. destruct (negb _ && _); [|destruct (quit _); [|destruct (array s !! _)]]; done.
  - unfold jf_pool_stopped. pose proof (consumed_not_return answers s). now destruct (observe_signals answers s).
  - destruct (manager s); [|discriminate]. apply (K _ H). unfold signals.
    pose proof (consumed_not_return answers s). now destruct (observe_signals answers s).
  - unfold jf_pool_bind. now destruct interrupted.
  - unfold jf_pool_stopped. pose proof (consumed_not_return answers s). now destruct (observe_signals answers s).
  - destruct (_ && _); [|discriminate]. apply (K _ H). unfold jf_pool_window. destruct (n =? 0)%nat eqn:EN; [done|].
    apply Nat.eqb_neq in EN. unfold window_test. cbn [broadcast set_workers set_pool pool remaining].
    now replace (Z.of_nat n =? 0) with false by lia.
  - destruct (manager s); [discriminate|]. destruct (forallb gone (workers s)); [|discriminate]. apply (K _ H).
    unfold finish_joined. pose proof (consumed_not_return answers s). now destruct (observe_signals answers s).
Qed.

#[export] Instance choice_is_resumes c : Decision (c = Resumes).
Proof. destruct c; (now left) || (right; discriminate). Defined.

Lemma completes_reaches cs ev s : reaches cs ev s -> completes ev.
Proof.
  induction 1 as [|cs ev s c s' e Hr IH Hm]; [done|].
  destruct (decide (c = Resumes)) as [->|HN]; [|apply completes_app; [eapply move_not_return; eassumption | exact IH]].
  cbn in Hm. at_coordinator. unfold window_test in Hm.
  destruct (remaining (pool s) =? 0) eqn:E0; simplify_eq; [|exact IH].
  split; [|exact IH]. apply (queue_complete ev s); [exact (queue_reaches _ _ _ Hr) | lia].
Qed.

(** ** Progress *)

Definition pc_weight (pc : worker_pc) : nat := match pc with Entering | Woken => 1 | Running _ => 3 | _ => 0 end.
(** What the threads can still do by themselves. *)
Definition weight (s : state) : nat :=
  sum_list_with pc_weight (workers s) + 3 * Z.to_nat (count (pool s) - next (pool s)) +
  match coordinator s with Resumed | Joining => 1 | _ => 0 end.

(** Moves by which work advances. *)
Definition progress (c : choice) : bool :=
  match c with Enter _ | Settles _ | Resumes | Joins _ => true | _ => false end.

Definition answers_cost (a : list (option Z)) : nat := match a with Some _ :: _ => JF_POOL_WORKERS | _ => 0 end.
(** The work other moves make: wakeups, and the jobs of a window. *)
Definition cost (c : choice) : nat :=
  match c with
  | Wakes _ | WakesCoordinator => 1
  | Checks _ a | Polls a | Asks a => answers_cost a
  | Stops _ | Cancels => JF_POOL_WORKERS
  | Binds _ i _ => if i then JF_POOL_WORKERS else 0
  | Opens n => if (n =? 0)%nat then 0 else JF_POOL_WORKERS + 3 * n
  | Finishes => JF_POOL_WORKERS + 1
  | _ => 0
  end.

Definition advances (cs : list choice) : nat := length (List.filter progress cs).
Definition total_cost (cs : list choice) : nat := sum_list_with cost cs.

Lemma weight_set w pc x l : l !! w = Some pc ->
  (sum_list_with pc_weight (<[w := x]> l) + pc_weight pc = sum_list_with pc_weight l + pc_weight x)%nat.
Proof.
  revert w. induction l as [|y t IH]; intros [|w] H; cbn in H; try discriminate.
  - simplify_eq. cbn. lia.
  - specialize (IH w H). change (<[S w := x]> (y :: t)) with (y :: <[w := x]> t). cbn [sum_list_with foldr] in *.
    change (sum_list_with pc_weight (y :: ?l)) with (pc_weight y + sum_list_with pc_weight l)%nat. lia.
Qed.

Lemma weight_wake l : (sum_list_with pc_weight l <= sum_list_with pc_weight (map wake l) <= sum_list_with pc_weight l + length l)%nat.
Proof. induction l as [|[] t IH]; cbn; lia. Qed.

Lemma weight_quit p l : quit p = true -> Forall (pc_ok p) l -> map wake l = l.
Proof. intros H. induction 1 as [|pc t Hpc _ IH]; [done|]. cbn. rewrite IH. destruct pc; try done. cbn in Hpc. destruct Hpc. congruence. Qed.

Lemma observe_weight ev a s : Queue ev s ->
  (weight (observe_signals a s).1 <= weight s + if quit (pool s) then 0 else answers_cost a)%nat.
Proof.
  intros Q. unfold observe_signals.
  destruct (drain_queue 8 a (pool s) []) as (p & E & H1 & H2 & H3 & H4).
  assert ((match a with Some _ :: _ => False | _ => True end) -> (drain 8 a (pool s) []).2 = []) as HA by now destruct a as [|[z|] a].
  destruct (drain 8 a (pool s) []) as [p' r]. cbn [snd] in *. simplify_eq.
  assert (weight (set_pool p s) = weight s) as EW by (unfold weight; cbn [set_pool pool workers coordinator]; now rewrite H1, H2).
  assert (weight (broadcast (set_pool p s)) <= weight s + if quit (pool s) then 0 else JF_POOL_WORKERS)%nat as HB.
  { rewrite <- EW. unfold weight. cbn [broadcast set_workers workers set_pool pool coordinator].
    destruct (quit (pool s)) eqn:EQ.
    - rewrite (weight_quit _ _ EQ (q_pcs _ _ Q)). lia.
    - pose proof (weight_wake (workers s)). rewrite (q_workers _ _ Q) in *. lia. }
  destruct r; cbn [fst]; [lia|]. destruct (quit (pool s)); [exact HB|].
  destruct a as [|[?|] ?]; try (now discriminate HA). exact HB.
Qed.

Lemma stopped_weight ev a s : Queue ev s -> (weight (jf_pool_stopped a s).1 <= weight s + answers_cost a)%nat.
Proof.
  intros Q. pose proof (observe_weight ev a s Q). unfold jf_pool_stopped. destruct (observe_signals a s). cbn [fst] in *.
  destruct (quit (pool s)); lia.
Qed.

Lemma stop_weight ev s : Queue ev s -> (weight (jf_pool_stop s).1 <= weight s + JF_POOL_WORKERS)%nat.
Proof.
  intros Q. pose proof (weight_wake (workers s)). rewrite (q_workers _ _ Q) in *. unfold weight, jf_pool_stop.
  cbn [fst broadcast set_workers set_pool pool workers coordinator next count]. lia.
Qed.

Lemma enter_weight ev s w pc : Queue ev s -> workers s !! w = Some pc -> pc_weight pc = 1%nat ->
  (weight (worker_enter w s).1 + 1 <= weight s)%nat.
Proof.
  intros Q H HW. pose proof (q_next _ _ Q). pose proof (q_count _ _ Q). unfold SIZE_MAX in *. unfold worker_enter.
  destruct (negb (quit (pool s)) && _) eqn:E1; [|destruct (quit (pool s)); [|destruct (array s !! _)]].
  all: unfold weight; cbn [fst set_worker set_workers set_pool pool workers coordinator next count].
  all: match goal with E : ?l !! ?k = Some ?q |- context [<[?k := ?x]> ?l] => pose proof (weight_set k q x l E) as HS; cbn [pc_weight] in HS end.
  all: try lia.
  all: unfold size_t; rewrite Z.mod_small by lia; cbn [negb andb] in E1; lia.
Qed.

Lemma settle_weight s w job : workers s !! w = Some (Running job) -> (weight (worker_settle w job s).1 + 1 <= weight s)%nat.
Proof.
  intros H. pose proof (weight_set w _ Entering (workers s) H) as HS. cbn [pc_weight] in HS. unfold worker_settle, weight.
  destruct (_ =? 0); [unfold signal_settled|]; cbn [fst coordinator set_worker set_workers set_pool].
  2: cbn [workers pool next count set_worker set_workers set_pool]; lia.
  destruct (coordinator s) eqn:E; cbn [workers pool next count coordinator set_coordinator set_worker set_workers set_pool]; rewrite ?E; lia.
Qed.

Lemma test_weight s : coordinator s = Resumed -> (weight (window_test s).1 + 1 <= weight s)%nat.
Proof. intros H. unfold window_test, weight. rewrite H. destruct (_ =? 0); cbn; lia. Qed.

Lemma open_weight ev n s : Queue ev s -> coordinator s = Idle ->
  (weight (jf_pool_window n s).1 <= weight s + if (n =? 0)%nat then 0 else JF_POOL_WORKERS + 3 * n)%nat.
Proof.
  intros Q H. unfold jf_pool_window. destruct (n =? 0)%nat; [cbn; lia|].
  pose proof (weight_wake (workers s)). rewrite (q_workers _ _ Q) in *.
  unfold window_test, weight. rewrite H.
  destruct (_ =? 0); cbn [fst broadcast set_workers set_pool set_coordinator pool workers coordinator next count]; lia.
Qed.

(** Work advances by what the other moves made of it. *)
Lemma weight_move ev s c s' e : Queue ev s -> move c s = Some (s', e) ->
  ((if progress c then 1 else 0) + weight s' <= weight s + cost c)%nat.
Proof.
  intros Q H.
  assert (forall r, Some r = Some (s', e) -> ((if progress c then 1 else 0) + weight r.1 <= weight s + cost c)%nat ->
    ((if progress c then 1 else 0) + weight s' <= weight s + cost c)%nat) as K by (intros r [= ->]; auto).
  destruct c; cbn [move] in H.
  all: try (destruct (workers s !! w) as [[]|] eqn:E; try discriminate).
  all: try at_coordinator.
  all: apply (K _ H) || idtac; cbn [progress cost fst].
  - pose proof (enter_weight ev s w _ Q E eq_refl). lia.
  - pose proof (enter_weight ev s w _ Q E eq_refl). lia.
  - pose proof (weight_set w _ Woken (workers s) E) as HS. unfold weight. cbn in *. lia.
  - exact (stopped_weight ev answers s Q).
  - exact (stop_weight ev s Q).
  - pose proof (settle_weight s w job E). lia.
  - destruct (manager s); [|discriminate]. apply (K _ H). unfold signals. pose proof (observe_weight ev answers s Q).
    destruct (observe_signals answers s) as [t f]. cbn [fst] in *. destruct (quit (pool t)); destruct (quit (pool s)); unfold weight in *; cbn in *; lia.
  - unfold weight. cbn. lia.
  - unfold jf_pool_bind. pose proof (stop_weight ev s Q). destruct interrupted; unfold weight in *; cbn in *; lia.
  - exact (stopped_weight ev answers s Q).
  - exact (stop_weight ev s Q).
  - destruct (_ && _); [|discriminate]. apply (K _ H). exact (open_weight ev n s Q E).
  - pose proof (test_weight s E). lia.
  - unfold weight. rewrite E. cbn. lia.
  - pose proof (weight_wake (workers s)). rewrite (q_workers _ _ Q) in *. unfold weight, jf_pool_finish. rewrite E.
    cbn [fst broadcast set_workers set_pool set_coordinator set_quit pool workers coordinator next count]. lia.
  - destruct (manager s); [discriminate|]. destruct (forallb gone (workers s)); [|discriminate]. apply (K _ H).
    pose proof (observe_weight ev answers s Q) as HO. pose proof (observe_calm answers s) as HC.
    rewrite (q_quit _ _ Q), E in HO. cbn [ending] in HO.
    unfold finish_joined. destruct (observe_signals answers s) as [t f]. cbn [fst] in *.
    pose proof (c_coordinator _ _ HC) as EC. unfold weight in *. rewrite EC, E in HO. rewrite E. cbn. lia.
Qed.

Lemma weight_reaches cs ev s : reaches cs ev s -> (advances cs + weight s <= JF_POOL_WORKERS + total_cost cs)%nat.
Proof.
  induction 1 as [|cs ev s c s' e Hr IH Hm]; [vm_compute; lia|].
  pose proof (weight_move ev s c s' e (queue_reaches _ _ _ Hr) Hm).
  change (total_cost (c :: cs)) with (cost c + total_cost cs)%nat. unfold advances in *. cbn [List.filter].
  destruct (progress c); cbn [length]; lia.
Qed.

(** No thread can do anything without a wakeup or a call of the coordinator. *)
Definition stuck (s : state) : Prop :=
  (forall c, progress c = true -> move c s = None) /\ (quit (pool s) = true -> manager s = Quitted).

Lemma stuck_worker ev s w pc : Queue ev s -> stuck s -> workers s !! w = Some pc -> pc = Waiting \/ pc = Gone.
Proof.
  intros Q [H _] E. pose proof (worker_pc_ok ev s w pc Q E) as HP.
  pose proof (H (Enter w) eq_refl) as HE. pose proof (H (Settles w) eq_refl) as HS. cbn in HE, HS. rewrite E in HE, HS.
  destruct pc; auto; try discriminate. now cbn in HP.
Qed.

Lemma stuck_done ev s : Queue ev s -> stuck s -> coordinator s = Idle \/ exists z, coordinator s = Finished z.
Proof.
  intros Q HS. pose proof (fun w pc => stuck_worker ev s w pc Q HS) as HW. destruct HS as [HM HQ].
  pose proof (q_quit _ _ Q) as EQ. destruct (coordinator s) eqn:E; [now left| | | |right; now eexists].
  - exfalso. pose proof (q_parked _ _ Q E) as HR. rewrite (q_remaining _ _ Q) in HR.
    assert (running s = []) as ER.
    { apply running_none. intros pc Hpc. apply list_elem_of_lookup_1 in Hpc as [w Hw]. now destruct (HW w pc Hw) as [->| ->]. }
    rewrite ER in HR. unfold zlen in HR. cbn in HR.
    destruct (lookup_lt_is_Some_2 (workers s) 0) as [pc H0]; [rewrite (q_workers _ _ Q); unfold JF_POOL_WORKERS; lia|].
    pose proof (worker_pc_ok ev s 0 pc Q H0) as HP. destruct (HW 0%nat pc H0) as [->| ->]; cbn in HP, EQ; [lia|congruence].
  - pose proof (HM Resumes eq_refl) as H. cbn in H. now rewrite E in H.
  - exfalso. cbn in EQ. pose proof (HM (Joins []) eq_refl) as H. cbn in H. rewrite E, (HQ EQ) in H.
    assert (forallb gone (workers s) = true) as HG; [|now rewrite HG in H].
    apply forallb_forall. intros pc Hpc. apply list_elem_of_In, list_elem_of_lookup_1 in Hpc as [w Hw].
    pose proof (worker_pc_ok ev s w pc Q Hw) as HP. destruct (HW w pc Hw) as [->| ->]; [|done]. cbn in HP. destruct HP. congruence.
Qed.

(** ** What the pool promises *)

(** C9. However the threads interleave, [jf_pool_window] returns only when every
    job of the window has been taken exactly once, in the order of the array, and
    settled by the worker that took it; no worker reads beyond the array, and
    outside of a window no job is running, so the coordinator alone owns them. *)
Theorem pool_window_once cs ev s :
  reaches cs ev s ->
  (forall later earlier, ev = later ++ Returned :: earlier ->
     rev (map snd (began earlier)) = opened earlier /\ began earlier ≡ₚ settled earlier) /\
  Wild ∉ workers s /\
  (in_window (coordinator s) = false -> forall w job, workers s !! w <> Some (Running job)).
Proof.
  intros H. pose proof (queue_reaches _ _ _ H) as Q. split; [|split].
  - intros later earlier ->. apply completes_reaches, completes_later in H. apply H.
  - intros HW. now apply (proj1 (Forall_forall _ _) (q_pcs _ _ Q)) in HW.
  - intros HC w job Hw. destruct (idle_next _ _ Q HC) as [_ HR].
    destruct (running_set w _ Entering s Hw) as (rest & H1 & _). rewrite HR in H1. now apply Permutation_nil_l in H1.
Qed.

(** C18. No wakeup is lost and no thread works for ever: with jobs that return,
    every interleaving advances at most as often as the jobs offered and the
    wakeups made allow, and when nothing can advance any more, the call of the
    coordinator, [jf_pool_window] or [jf_pool_finish], has returned. *)
Theorem pool_returns cs ev s :
  reaches cs ev s ->
  (advances cs <= JF_POOL_WORKERS + total_cost cs)%nat /\
  (stuck s -> coordinator s = Idle \/ exists z, coordinator s = Finished z).
Proof.
  intros H. split; [pose proof (weight_reaches _ _ _ H); lia|]. exact (stuck_done ev s (queue_reaches _ _ _ H)).
Qed.

(** C35. A check tells exactly whether a stop was requested or a signal taken
    before it, and takes those pending first: no job passes its check after a
    stop.  [jf_pool_finish] returns the last signal taken, or 0. *)
Theorem pool_stops cs ev s :
  reaches cs ev s ->
  (forall later earlier b, ev = later ++ Checked b :: earlier ->
     b = true <-> StopCall ∈ earlier \/ exists z, Consumed z ∈ earlier) /\
  (forall w z answers s' e, move (Checks w (Some z :: answers)) s = Some (s', e) -> head e = Some (Checked true)) /\
  (forall later earlier z, ev = later ++ Ended z :: earlier -> z = last_signal earlier).
Proof.
  intros H. pose proof (told_reaches _ _ _ H) as T. split; [|split].
  - intros later earlier b ->. apply t_honest, honest_app in T as [-> _]. apply stop_seen_spec.
  - intros w z answers s' e E. pose proof (told_move _ _ _ _ _ T E) as T'. cbn in E.
    destruct (workers s !! w) as [[]|]; try discriminate. unfold jf_pool_stopped in E.
    pose proof (told_observe ev s (Some z :: answers) T) as HO.
    destruct (observe_first z answers s) as [t Ht].
    destruct (observe_signals _ _) as [u f]. cbn [fst snd] in *. subst f. simplify_eq. cbn. do 2 f_equal.
    rewrite (t_stop _ _ HO). apply stop_seen_spec. right. exists z. rewrite !elem_of_app, elem_of_cons; auto.
  - intros later earlier z ->. now apply t_honest, honest_app in T as [-> _].
Qed.

(** ** Views of the storage *)

Definition flip_byte (b : Z) (i : nat) : Z := Z.lxor b (Z.of_nat i).

Lemma flip_is_byte b i : is_byte b -> (i < JF_POOL_WORKERS)%nat -> is_byte (flip_byte b i).
Proof.
  intros Hb Hi.
  assert (forallb (fun k => (0 <=? flip_byte b k) && (flip_byte b k <? 256)) (seq 0 16) = true) as H.
  { apply (byte_cases (fun b => forallb (fun k => (0 <=? flip_byte b k) && (flip_byte b k <? 256)) (seq 0 16))); [|exact Hb].
    vm_compute. reflexivity. }
  rewrite forallb_forall in H. specialize (H i). rewrite in_seq in H. specialize (H ltac:(unfold JF_POOL_WORKERS in *; lia)).
  unfold is_byte. lia.
Qed.

Lemma flip_inj b i j : flip_byte b i = flip_byte b j -> i = j.
Proof.
  unfold flip_byte. intros H. apply (f_equal (Z.lxor b)) in H. rewrite <- !Z.lxor_assoc, Z.lxor_nilpotent, !Z.lxor_0_l in H. lia.
Qed.

Lemma view_nonce s i b n : nonce s = b :: n -> exists n', nonce (worker_view s i) = flip_byte b i :: n'.
Proof. intros E. unfold worker_view. cbn [nonce]. rewrite E. cbn. eexists. reflexivity. Qed.

Lemma hex_byte_inj a b t u : is_byte a -> is_byte b -> hex_byte a ++ t = hex_byte b ++ u -> a = b.
Proof. intros Ha Hb H. apply (f_equal unhex) in H. rewrite !hex_byte_unhex in H by done. congruence. Qed.

Lemma hex_loop_length n : forall z acc, (length (hex_loop n z acc) <= n + length acc)%nat.
Proof.
  induction n as [|n IH]; intros z acc; [cbn; lia|]. cbn [hex_loop]. destruct (z <? 16); [cbn; lia|].
  specialize (IH (z / 16) (nth (Z.to_nat (z mod 16)) hex_digits 0 :: acc)). cbn [length] in IH. lia.
Qed.

Lemma decimal_loop_length n : forall z acc, (length (decimal_loop n z acc) <= n + length acc)%nat.
Proof.
  induction n as [|n IH]; intros z acc; [cbn; lia|]. cbn [decimal_loop]. destruct (z / 10 =? 0); [cbn; lia|].
  specialize (IH (z / 10) (48 + z mod 10 :: acc)). cbn [length] in IH. lia.
Qed.

Lemma hex_bytes_length l : length (concat (map hex_byte l)) = (2 * length l)%nat.
Proof. induction l as [|b l IH]; [done|]. cbn [map concat]. rewrite length_app, IH. cbn. lia. Qed.

(** With room for the prefix a published name starts with it. *)
Lemma name_prefix_long s b n seq_ attempt available : nonce s = b :: n -> 80 <= available ->
  exists t, name_prefix s seq_ attempt available = str "jaro." ++ hex_byte b ++ t.
Proof.
  intros E H. unfold name_prefix. rewrite E. cbn [take map concat].
  set (l := str "jaro." ++ _).
  assert (zlen l <= 80) as HL.
  { unfold l, zlen, hex_of, decimal_of. rewrite !length_app, hex_bytes_length.
    pose proof (hex_loop_length 16 seq_ []). pose proof (decimal_loop_length 20 attempt []).
    pose proof (length_take n 3) as HT. change (length (str "jaro.")) with 5%nat. change (length (str ".")) with 1%nat.
    change (length (hex_byte b)) with 2%nat. cbn [length] in *. lia. }
  replace (available <? zlen l) with false by lia. unfold l. rewrite <- !app_assoc. eexists. reflexivity.
Qed.

(** C36. The workers share one batch without a name in common: two views never
    make the same private name, nor the same alternative name for a message, with
    whatever flags, when the directory has room for it; and a view that is
    closed closes none of the shared descriptors. *)
Theorem worker_names_disjoint s i j seq_ seq' :
  (i < JF_POOL_WORKERS)%nat -> (j < JF_POOL_WORKERS)%nat -> i <> j ->
  nonce s <> [] -> Forall is_byte (nonce s) ->
  owned_name (worker_view s i) seq_ <> owned_name (worker_view s j) seq' /\
  (forall attempt attempt' available available' flags flags', 80 <= available -> 80 <= available' ->
     name_prefix (worker_view s i) seq_ attempt available ++ flags <> name_prefix (worker_view s j) seq' attempt' available' ++ flags') /\
  (forall `{SY : System} t, (jf_storage_close (worker_view s i) t).2 = t).
Proof.
  intros Hi Hj HN HE HB. destruct (nonce s) as [|b n] eqn:E; [done|]. apply Forall_cons in HB as [Hb _].
  destruct (view_nonce s i b n E) as [n1 E1]. destruct (view_nonce s j b n E) as [n2 E2].
  assert (forall t u, hex_byte (flip_byte b i) ++ t <> hex_byte (flip_byte b j) ++ u) as HD.
  { intros t u H. apply HN, (flip_inj b). eapply hex_byte_inj; [..|exact H]; now apply flip_is_byte. }
  split; [|split; [|done]].
  - unfold owned_name. rewrite E1, E2. cbn [map concat]. intros H. apply app_inv_head in H. rewrite <- !app_assoc in H. now apply HD in H.
  - intros at1 at2 av1 av2 f1 f2 H1 H2 H.
    destruct (name_prefix_long _ _ _ seq_ at1 av1 E1 H1) as [t1 P1]. destruct (name_prefix_long _ _ _ seq' at2 av2 E2 H2) as [t2 P2].
    rewrite P1, P2, <- !app_assoc in H. apply app_inv_head in H. now apply HD in H.
Qed.

(** ** Starting *)

Lemma release_none r held : r ∉ held -> release r held = held.
Proof.
  intros H. unfold release. induction held as [|x t IH]; [done|]. cbn. apply not_elem_of_cons in H as [H1 H2].
  rewrite bool_decide_eq_false_2 by congruence. cbn. now rewrite IH.
Qed.

Lemma release_app r a b : release r (a ++ b) = release r a ++ release r b.
Proof. apply List.filter_app. Qed.

Lemma release_all_cons r rs l : release_all (r :: rs) l = release r (release_all rs l).
Proof. done. Qed.

Lemma release_all_app rs a b : release_all rs (a ++ b) = release_all rs a ++ release_all rs b.
Proof. induction rs as [|r t IH]; [done|]. now rewrite !release_all_cons, IH, release_app. Qed.

(** What is released after is never held again. *)
Lemma release_all_none rs held : (forall r, r ∈ rs -> r ∉ held) -> release_all rs held = held.
Proof.
  induction rs as [|r t IH]; intros H; [done|]. rewrite release_all_cons, IH; [|intros x Hx; apply H; now right].
  apply release_none, H. now left.
Qed.

Lemma release_in r x held : x ∈ release r held -> x ∈ held /\ x <> r.
Proof.
  intros H. apply list_elem_of_In, filter_In in H as [H1 H2]. split; [now apply list_elem_of_In|].
  destruct (bool_decide (x = r)) eqn:E; [discriminate|]. now apply bool_decide_eq_false_1 in E.
Qed.

Lemma release_all_in rs x held : x ∈ release_all rs held -> x ∈ held /\ x ∉ rs.
Proof.
  induction rs as [|r t IH]; intros H; [split; [exact H|apply not_elem_of_nil]|].
  rewrite release_all_cons in H. apply release_in in H as [H HR]. apply IH in H as [H1 H2]. split; [exact H1|]. apply not_elem_of_cons. auto.
Qed.

Lemma release_all_self rs : release_all rs rs = [].
Proof.
  destruct (release_all rs rs) as [|x t] eqn:E; [done|]. exfalso.
  assert (x ∈ release_all rs rs) as H by (rewrite E; now left). now apply release_all_in in H as [H1 H2].
Qed.

Lemma create_workers_in ok n : forall i r, r ∈ create_workers ok i n -> exists k, r = Worker k.
Proof.
  induction n as [|n IH]; intros i r H; cbn in H; [now apply elem_of_nil in H|].
  destruct (ok (Worker i)); [|now apply elem_of_nil in H]. apply elem_of_cons in H as [->|H]; [eauto|exact (IH _ _ H)].
Qed.

Lemma create_workers_all ok n : forall i, length (create_workers ok i n) = n -> create_workers ok i n = map Worker (seq i n).
Proof.
  induction n as [|n IH]; intros i H; [done|]. cbn in *. destruct (ok (Worker i)); [|discriminate]. cbn. f_equal. apply IH. now injection H.
Qed.

(** A start that fails holds nothing: its threads are joined and the signal mask
    is restored.  One that succeeds holds every thread, until the pool ends. *)
Theorem pool_start_clean limit fds ok :
  let '(b, held) := jf_pool_start limit fds ok in
  if b then held = Manager :: map Worker (seq 0 JF_POOL_WORKERS) ++ [Mask; SettledCond; Ready; Mutex; Heap] /\ finish_release held = []
  else held = [].
Proof.
  unfold jf_pool_start. destruct limit as [rlim|]; [|done]. destruct fds as [n|]; [|done].
  destruct (rlim <? _); [done|]. destruct (ok Heap); [|done]. destruct (ok Mutex); [|vm_compute; done].
  destruct (ok Ready); [|vm_compute; done]. destruct (ok SettledCond); [|vm_compute; done].
  destruct (ok Mask); [|vm_compute; done]. destruct (ok Attributes); [|vm_compute; done]. cbn [negb].
  set (ws := create_workers ok 0 JF_POOL_WORKERS).
  destruct ((length ws =? JF_POOL_WORKERS)%nat && ok Manager) eqn:E.
  - apply andb_true_iff in E as [E%Nat.eqb_eq _]. unfold ws. rewrite (create_workers_all ok _ 0 E). split; [reflexivity|vm_compute; reflexivity].
  - rewrite (release_all_app ws), (release_all_self ws), (release_all_none ws); [reflexivity|].
    intros r Hr. apply create_workers_in in Hr as [k ->]. intros H. repeat (apply elem_of_cons in H as [H|H]; [discriminate|]). now apply elem_of_nil in H.
Qed.

(** ** Two jobs, a signal, and the end *)

Definition sample_window : list choice :=
  [Enter 0; Arranges [100; 200]; Opens 2; Enter 3; Enter 5; Settles 5; Enter 0; Settles 3; Resumes].
Definition sample_stop : list choice :=
  sample_window ++ [Opens 1; Enter 7; Checks 7 [None]; Checks 7 [Some 15; Some 2]; Settles 7; Resumes].
Definition sample_end : list choice :=
  sample_stop ++ Finishes :: map Enter (seq 0 16) ++ [Polls []; Joins [Some 13]].

Lemma reaches_run cs ev s : run cs [] started = Some (ev, s) -> reaches (List.rev cs ++ []) ev s.
Proof. intros H. eapply run_reaches; [constructor | exact H]. Qed.

Lemma pool_window_once_witness : exists ev s,
  run sample_window [] started = Some (Returned :: ev, s) /\ rev (map snd (began ev)) = [100; 200] /\
  settled ev = [(3%nat, 100); (5%nat, 200)].
Proof.
  destruct (run sample_window [] started) as [[ev s]|] eqn:E; [|vm_compute in E; discriminate].
  pose proof (pool_window_once _ _ _ (reaches_run _ _ _ E)) as (H & _). vm_compute in E. injection E as <- <-.
  eexists _, _. split; [reflexivity|]. destruct (H [] _ eq_refl) as [H1 _]. split; [exact H1|reflexivity].
Defined.

Lemma pool_returns_witness : exists ev s,
  run sample_end [] started = Some (ev, s) /\ stuck s /\ (advances (List.rev sample_end) <= 16 + total_cost (List.rev sample_end))%nat /\
  coordinator s = Finished 13.
Proof.
  destruct (run sample_end [] started) as [[ev s]|] eqn:E; [|vm_compute in E; discriminate].
  pose proof (pool_returns _ _ _ (reaches_run _ _ _ E)) as (H1 & H2). rewrite app_nil_r in H1. exists ev, s.
  assert (stuck s) as HS.
  { vm_compute in E. injection E as <- <-. split; [|done]. intros [] Hc; try discriminate Hc; try reflexivity.
    all: cbn; do 16 (destruct w as [|w]; [reflexivity|]); reflexivity. }
  split; [reflexivity|]. split; [exact HS|]. split; [exact H1|].
  destruct (H2 HS) as [H|[z H]]; vm_compute in E; injection E as <- <-; [discriminate|reflexivity].
Defined.

Lemma pool_stops_witness : exists later earlier s,
  run sample_stop [] started = Some (later ++ Checked true :: earlier, s) /\
  (StopCall ∈ earlier \/ exists z, Consumed z ∈ earlier) /\ Checked false ∈ earlier.
Proof.
  destruct (run sample_stop [] started) as [[ev s]|] eqn:E; [|vm_compute in E; discriminate].
  pose proof (pool_stops _ _ _ (reaches_run _ _ _ E)) as (H & _). vm_compute in E. injection E as <- <-.
  eexists [_; _], _, _. split; [reflexivity|]. split; [now apply (H [_; _] _ true eq_refl)|].
  do 2 right. left.
Defined.

Lemma worker_names_disjoint_witness : exists s, nonce s = replicate 16 7 /\
  owned_name (worker_view s 2) 1 <> owned_name (worker_view s 9) 1 /\
  name_prefix (worker_view s 2) 1 1 255 ++ [] <> name_prefix (worker_view s 9) 1 1 255 ++ [].
Proof.
  exists (MkStorage None None None None zero_stat zero_stat (replicate 16 7) 0 NoStop [] false false).
  split; [reflexivity|].
  destruct (worker_names_disjoint (MkStorage None None None None zero_stat zero_stat (replicate 16 7) 0 NoStop [] false false) 2 9 1 1)
    as (H1 & H2 & _); [unfold JF_POOL_WORKERS; lia..|discriminate|repeat constructor; lia|].
  split; [exact H1|]. apply H2; lia.
Defined.
