(* ===== verification/Contact.v ===== *)
(** * Adding a contact to an address book (src/filter/contact.c)

    The book is read whole under its lock, scanned, and one record is appended
    with a single write.  The system calls are answered by an oracle from the
    calls before them, as in [Storage], and memory by [Bytes.Heap]. *)
From S2P Require Import Prelude Utf8 Mailbox Rules Bytes Storage.

(** ** The fields and the scan of the book *)

Definition valid_text (s : bytes) : bool :=
  if (JF_LINE_MAX <? zlen s) || negb (jf_valid_utf8 s) then false else forallb (fun c => negb (control c)) s.

(** The canonical spelling, or [None] where the code returns 0. *)
Definition canonical (s : bytes) : option bytes :=
  if negb (jf_valid_utf8 s) then None else t ← jf_normalize_mailbox s; Some (fold_bytes t).

Definition trim_blanks (s : bytes) : bytes := trim_end is_blank (drop_while is_blank s).

(** The lines the scan visits: an empty rest after the last newline is none. *)
Definition book_lines (raw : bytes) : list bytes :=
  let l := split_on LF raw in
  match List.rev l with [] :: t => List.rev t | _ => l end.

Definition line_end (c : Z) : bool := is_blank c || (c =? CR).
Definition trim_line (l : bytes) : bytes := trim_end line_end (drop_while is_blank l).

(** The digits of a section; [None] is [goto invalid]. *)
Fixpoint section_id (ds : bytes) (id : Z) : option Z :=
  match ds with
  | [] => Some id
  | c :: t =>
      if (c <? ch "0") || (ch "9" <? c) || ((SIZE_MAX - (c - ch "0")) / 10 <? id) then None
      else section_id t (id * 10 + (c - ch "0"))
  end.

Record book_state := MkBook { b_next : Z; b_records : Z; b_format : bool; b_section : bool }.
Definition new_book : book_state := MkBook 0 0 false false.

(** [goto invalid], [goto done] with the status so far, the mailbox is there, or
    the locals after the loop. *)
Inductive scan := Invalid | NoMemory | Found | Scanned (s : book_state).

(** A bracketed line; [inner] is what the brackets hold. *)
Definition scan_header (l : bytes) (s : book_state) : option book_state :=
  if streq l (str "[format]") then
    if b_format s || negb (b_records s =? 0) then None
    else Some (MkBook (b_next s) (b_records s) true false)
  else if negb (b_format s) || (zlen l <? 3) || negb (bool_decide (last l = Some (ch "]"))) then None
  else
    match section_id (removelast (drop 1 l)) 0 with
    | None => None
    | Some id =>
        if (id =? SIZE_MAX) || (JF_RULE_MAX <? b_records s + 1) then None
        else Some (MkBook (if b_next s <=? id then id + 1 else b_next s) (b_records s + 1) (b_format s) true)
    end.

Section Scan.
Context `{HP : Heap}.

(** A piece of the value, from its first to its last byte. *)
Definition same_piece (piece wanted : bytes) (h : nat) : option bool * nat :=
  if malloc_ok h then
    (Some (match canonical (trim_blanks piece) with Some t => streq t wanted | None => false end), S h)
  else (None, S h).

(** The loop of [same_email]; [cur] are the bytes from [start] to [i]. *)
Fixpoint same_loop (s cur : bytes) (quote escape : bool) (wanted : bytes) (h : nat) : option bool * nat :=
  match s with
  | [] => same_piece cur wanted h
  | c :: t =>
      if escape then same_loop t (cur ++ [c]) quote false wanted h
      else if (c =? BSL) && quote then same_loop t (cur ++ [c]) quote true wanted h
      else if c =? DQ then same_loop t (cur ++ [c]) (negb quote) false wanted h
      else if (c =? ch ",") && negb quote then
        match same_piece cur wanted h with
        | (Some false, h) => same_loop t [] quote false wanted h
        | r => r
        end
      else same_loop t (cur ++ [c]) quote false wanted h
  end.
Definition same_email (s wanted : bytes) (h : nat) : option bool * nat := same_loop s [] false false wanted h.

(** [key=value], outside of brackets. *)
Definition scan_field (l wanted : bytes) (s : book_state) (h : nat) : scan * nat :=
  let key := take_while (fun c => negb (c =? ch "=")) l in
  if negb (b_format s) || (length key =? length l)%nat then (Invalid, h)
  else
    if b_section s && streq (trim_end is_blank key) (str "email") then
      match same_email (drop (S (length key)) l) wanted h with
      | (None, h) => (NoMemory, h)
      | (Some true, h) => (Found, h)
      | (Some false, h) => (Scanned s, h)
      end
    else (Scanned s, h).

Definition scan_line (raw_line wanted : bytes) (s : book_state) (h : nat) : scan * nat :=
  let l := trim_line raw_line in
  if (JF_LINE_MAX <? zlen l) || mem 0 l then (Invalid, h)
  else match l with
       | [] => (Scanned s, h)
       | c :: _ =>
           if c =? ch "#" then (Scanned s, h)
           else if c =? ch "[" then (match scan_header l s with None => Invalid | Some s' => Scanned s' end, h)
           else scan_field l wanted s h
       end.

Fixpoint scan_lines (ls : list bytes) (wanted : bytes) (s : book_state) (h : nat) : scan * nat :=
  match ls with
  | [] => (Scanned s, h)
  | l :: t => match scan_line l wanted s h with (Scanned s', h') => scan_lines t wanted s' h' | r => r end
  end.

(** The loop over [raw]. *)
Definition scan_book (raw wanted : bytes) (h : nat) : scan * nat := scan_lines (book_lines raw) wanted new_book h.
End Scan.

(** What is appended to a book in state [s]. *)
Definition record_parts (s : book_state) (email name : bytes) : list bytes :=
  (if b_format s then [] else [[LF] ++ str "[format]" ++ [LF] ++ str "program=abook" ++ [LF] ++ str "version=0.6.1" ++ [LF]]) ++
  [[LF] ++ str "[" ++ decimal_of (b_next s) ++ str "]" ++ [LF] ++ str "name=";
   match name with [] => email | _ => name end; [LF] ++ str "email="; email; [LF]].
Definition record_of (s : book_state) (email name : bytes) : bytes := concat (record_parts s email name).

(** ** System calls *)

Inductive call :=
  | OpenNew (path : bytes) (r : errno + Z)
  | OpenBook (path : bytes) (check : bool) (r : errno + Z)
  | Lstat (path : bytes) (r : option errno)
  | FstatBook (fd : Z) (r : option stat)
  | StatPath (path : bytes) (r : option stat)
  | LockBook (fd : Z) (exclusive : bool) (r : option errno)
  | ReadBook (fd : Z) (r : errno + bytes)
  | WriteBook (fd : Z) (data : bytes) (r : errno + nat)
  | FsyncBook (fd : Z) (ok : bool)
  | OpenDirectory (path : bytes) (r : option Z)
  | CloseBook (fd : Z) (ok : bool).
Abbreviation calls := (list call).

Class BookSystem := {
  book_open_new : calls -> bytes -> errno + Z;
  book_open : calls -> bytes -> bool -> errno + Z;
  book_lstat : calls -> bytes -> option errno;
  book_fstat : calls -> Z -> option stat;
  book_stat : calls -> bytes -> option stat;
  book_lock : calls -> Z -> bool -> option errno;
  book_read : calls -> Z -> errno + bytes;
  book_write : calls -> Z -> bytes -> errno + nat;
  book_fsync : calls -> Z -> bool;
  book_opendir : calls -> bytes -> option Z;
  book_close : calls -> Z -> bool }.

(** Programs over the calls, the latest first, and the requests of memory; no
    result only when a loop over interruptions used up its fuel. *)
Definition prog (A : Type) : Type := nat * calls -> option A * (nat * calls).
#[export] Instance prog_ret : MRet prog := fun A a w => (Some a, w).
#[export] Instance prog_bind : MBind prog := fun A B f m w =>
  match m w with (Some a, w') => f a w' | (None, w') => (None, w') end.
Definition exhausted {A} : prog A := fun w => (None, w).

(** Status and error; a status 3 without an error is reported as [E_IO]. *)
Definition answer : Type := Z * option jf_error.
Definition reject (code : string) (detail : bytes) : answer :=
  match jf_product_error (A:=unit) code 0 detail with Fail rc e => (rc, Some e) | Ok _ => (0, None) end.
Definition busy (code : string) (detail : bytes) : answer := (6, (reject code detail).2).
Definition settle (a : answer) : answer :=
  match a with
  | (3, None) => (3, (reject "E_IO" (str "contact append failed; original records retained; inspect the book before retrying")).2)
  | a => a
  end.
Definition invalid_book : answer :=
  reject "E_ADDRESSBOOK" (str "unsupported addressbook structure or contact limit; existing records unchanged").

Section Program.
Context `{HP : Heap} `{BS : BookSystem} (fuel : nat).

Definition call_ {A} (f : calls -> A) (e : A -> call) : prog A := fun w => let r := f w.2 in (Some r, (w.1, e r :: w.2)).
Definition strdup : prog bool := fun w => (Some (malloc_ok w.1), (S w.1, w.2)).
(** A computation that may ask for memory. *)
Definition heap_ {A} (f : nat -> A * nat) : prog A := fun w => let '(a, h) := f w.1 in (Some a, (h, w.2)).

Definition open_new (path : bytes) : prog (errno + Z) := call_ (fun t => book_open_new t path) (OpenNew path).
Definition open_book (path : bytes) (check : bool) : prog (errno + Z) := call_ (fun t => book_open t path check) (OpenBook path check).
Definition fstat_book (fd : Z) : prog (option stat) := call_ (fun t => book_fstat t fd) (FstatBook fd).
(** A read gives at most the buffer, a write takes at most what is given. *)
Definition read_book (fd : Z) : prog (errno + bytes) :=
  call_ (fun t => match book_read t fd with inr d => inr (take 4096 d) | inl e => inl e end) (ReadBook fd).
Definition write_book (fd : Z) (data : bytes) : prog (errno + nat) :=
  call_ (fun t => match book_write t fd data with inr n => inr (Nat.min n (length data)) | inl e => inl e end) (WriteBook fd data).
Definition fsync_book (fd : Z) : prog bool := call_ (fun t => book_fsync t fd) (FsyncBook fd).
Definition close_book (fd : Z) : prog bool := call_ (fun t => book_close t fd) (CloseBook fd).

(** [strrchr (copy, '/')]: the bytes before the last slash. *)
Definition before_slash (path : bytes) : option bytes :=
  match drop_while (fun c => negb (c =? ch "/")) (rev path) with [] => None | _ :: t => Some (rev t) end.

Definition sync_parent (path : bytes) : prog bool :=
  ok ← strdup;
  if negb ok then mret false
  else
    ok ← (match before_slash path with None => strdup | Some _ => mret true end);
    if negb (ok : bool) then mret false
    else
      let parent := match before_slash path with None => str "." | Some [] => str "/" | Some p => p end in
      fd ← call_ (fun t => book_opendir t parent) (OpenDirectory parent);
      match fd with
      | None => mret false
      | Some fd => a ← fsync_book fd; b ← close_book fd; mret (a && b)
      end.

(** The descriptor with whether it was created, or the status to leave with. *)
Definition open_stage (path : bytes) (check : bool) : prog (Z + Z * bool) :=
  r ← (if check then mret (inl EEXIST) else open_new path);
  match r with
  | inr fd => mret (inr (fd, true))
  | inl EEXIST =>
      r ← open_book path check;
      match r with
      | inr fd => mret (inr (fd, false))
      | inl ENOENT =>
          if check then
            l ← call_ (fun t => book_lstat t path) (Lstat path);
            mret (inl (if bool_decide (l = Some ENOENT) then 0 else 3))
          else mret (inl 3)
      | inl _ => mret (inl 3)
      end
  | inl _ => mret (inl 3)
  end.

(** The loop over [read]: the whole file, or [None] where the code gives up. *)
Fixpoint read_loop (n : nat) (fd : Z) (raw : jf_bytes) : prog (option jf_bytes) :=
  match n with
  | O => exhausted
  | S n' =>
      r ← read_book fd;
      match r with
      | inl EINTR => read_loop n' fd raw
      | inl _ => mret None
      | inr [] => mret (Some raw)
      | inr d =>
          b ← heap_ (fun h => match jf_bytes_add_limit d JF_INPUT_MAX (raw, h) with
                              | Some (b, h') => (Some b, h') | None => (None, S h) end);
          match b with Some b => read_loop n' fd b | None => mret None end
      end
  end.

(** [do n=write (...) while (n<0 && errno==EINTR)]: whether all was written. *)
Fixpoint write_loop (n : nat) (fd : Z) (data : bytes) : prog bool :=
  match n with
  | O => exhausted
  | S n' =>
      r ← write_book fd data;
      match r with
      | inl EINTR => write_loop n' fd data
      | inl _ => mret false
      | inr k => mret (k =? length data)%nat
      end
  end.

(** The book is the file that was read, and still has its name. *)
Definition unchanged (before after named : stat) : bool :=
  (st_dev before =? st_dev after) && (st_ino before =? st_ino after) && (st_size before =? st_size after) &&
  (mtim_sec before =? mtim_sec after) && (ctim_sec before =? ctim_sec after) &&
  (st_dev named =? st_dev after) && (st_ino named =? st_ino after).

Definition check_unchanged (path : bytes) (fd : Z) (before : stat) : prog bool :=
  after ← fstat_book fd;
  match after with
  | None => mret false
  | Some after =>
      named ← call_ (fun t => book_stat t path) (StatPath path);
      mret (match named with None => false | Some named => unchanged before after named end)
  end.

(** From the end of the scan, when the contact is not there. *)
Definition append_record (path email name : bytes) (check created : bool) (fd : Z) (before : stat) (raw : bytes) (s : book_state) :
    prog answer :=
  if check then mret (0, None)
  else if b_records s =? JF_RULE_MAX then mret invalid_book
  else
    r ← heap_ (fun h => match adds (record_parts s email name) (no_bytes, h) with
                        | Some (b, h') => (Some (contents b), h') | None => (None, S h) end);
    match r with
    | None => mret (3, None)
    | Some record =>
        if negb (jf_bytes_fits (zlen raw) (zlen record) JF_INPUT_MAX) then mret invalid_book
        else
          same ← check_unchanged path fd before;
          if negb same then mret (busy "E_BOOK_CHANGED" (str "addressbook changed while preparing the contact; retry"))
          else
            ok ← write_loop fuel fd record;
            if negb ok then mret (3, None)
            else
              ok ← fsync_book fd;
              if negb ok then mret (3, None)
              else
                ok ← (if created then sync_parent path else mret true);
                mret ((if (ok : bool) then 0 else 3), None)
    end.

(** With the book open. *)
Definition use_book (path email name address : bytes) (check created : bool) (fd : Z) : prog answer :=
  before ← fstat_book fd;
  match before with
  | None => mret (3, None)
  | Some before =>
      if negb (st_reg before) then mret (3, None)
      else
        e ← call_ (fun t => book_lock t fd (negb check)) (LockBook fd (negb check));
        match e with
        | Some e => mret (if bool_decide (e = EAGAIN \/ e = EACCES)
                          then busy "E_BOOK_BUSY" (str "addressbook is locked; retry after its writer finishes") else (3, None))
        | None =>
            raw ← read_loop fuel fd no_bytes;
            match raw with
            | None => mret (3, None)
            | Some raw =>
                r ← heap_ (scan_book (contents raw) address);
                match r with
                | Invalid => mret invalid_book
                | NoMemory => mret (3, None)
                | Found => mret (1, None)
                | Scanned s => append_record path email name check created fd before (contents raw) s
                end
            end
        end
  end.

Definition jf_contact_add (path email name : bytes) (check : bool) : prog answer :=
  if negb (valid_text email) || negb (valid_text name) || mem (ch ",") email
  then mret (reject "E_CONTACT" (str "contact fields contain unsupported bytes or exceed their limit"))
  else
    ok ← strdup;
    if negb ok then mret (settle (3, None))
    else
      match canonical email with
      | None => mret (reject "E_ADDRESS" (str "invalid contact mailbox"))
      | Some address =>
          o ← open_stage path check;
          match o with
          | inl rc => mret (settle (rc, None))
          | inr (fd, created) =>
              a ← use_book path email name address check created fd;
              _ ← close_book fd;
              mret (settle a)
          end
      end.
End Program.
