(* ===== verification/ContactFacts.v ===== *)
(** * Contacts are added once (src/filter/contact.c)

    What a scan makes of a book after a contact was appended to it, and what a run
    does to the file. *)
From S2P Require Import Prelude Utf8 Mailbox Rules Bytes Storage Contact.

(** ** Lines *)

Lemma split_acc_app sep a b cur : split_acc sep cur (a ++ sep :: b) = split_acc sep cur a ++ split_on sep b.
Proof.
  revert cur. induction a as [|c a IH]; intros cur; cbn [app split_acc].
  - now rewrite Z.eqb_refl.
  - destruct (c =? sep); [cbn [app]; f_equal|]; apply IH.
Qed.

Lemma split_acc_whole sep a cur : sep ∉ a -> split_acc sep cur a = [cur ++ a].
Proof.
  revert cur. induction a as [|c a IH]; intros cur H; cbn [split_acc]; [now rewrite app_nil_r|].
  apply not_elem_of_cons in H as [H1 H2]. destruct (Z.eqb_spec c sep); [congruence|].
  rewrite IH by exact H2. now rewrite <- app_assoc.
Qed.

Lemma split_on_nonempty sep a : split_on sep a <> [].
Proof.
  unfold split_on. generalize ([] : bytes). induction a as [|c a IH]; intros cur; cbn; [discriminate|].
  destruct (c =? sep); [discriminate|apply IH].
Qed.

Lemma book_lines_split raw : split_on LF raw = book_lines raw \/ split_on LF raw = book_lines raw ++ [[]].
Proof.
  unfold book_lines. destruct (List.rev (split_on LF raw)) as [|[|c l] t] eqn:E; [now left| |now left].
  right. apply (f_equal (@List.rev bytes)) in E. now rewrite rev_involutive in E.
Qed.

Lemma book_lines_app a b : book_lines (a ++ LF :: b) = split_on LF a ++ book_lines b.
Proof.
  unfold book_lines, split_on. rewrite split_acc_app. fold (split_on LF b). rewrite rev_app_distr.
  destruct (List.rev (split_on LF b)) as [|[|c l] t] eqn:E; cbn [app].
  - apply (f_equal (@List.rev bytes)) in E. rewrite rev_involutive in E. now apply split_on_nonempty in E.
  - now rewrite rev_app_distr, rev_involutive.
  - reflexivity.
Qed.

Lemma book_lines_line l b : LF ∉ l -> book_lines (l ++ LF :: b) = l :: book_lines b.
Proof. intros H. rewrite book_lines_app. unfold split_on. now rewrite split_acc_whole. Qed.

Lemma book_lines_newline b : book_lines (LF :: b) = [] :: book_lines b.
Proof. exact (book_lines_app [] b). Qed.

(** ** Trimming *)

Lemma drop_while_none {A} (p : A -> bool) l : match head l with Some x => p x = false | None => True end -> drop_while p l = l.
Proof. destruct l as [|x t]; [done|]. cbn. now intros ->. Qed.

Lemma trim_end_none {A} (p : A -> bool) l : match last l with Some x => p x = false | None => True end -> trim_end p l = l.
Proof.
  intros H. unfold trim_end. rewrite drop_while_none; [apply rev_involutive|].
  destruct l as [|x l _] using rev_ind; [done|]. rewrite last_snoc in H. now rewrite rev_app_distr.
Qed.

Lemma drop_while_app {A} (p : A -> bool) u x t : p x = false -> drop_while p (u ++ x :: t) = drop_while p u ++ x :: t.
Proof. intros H. induction u as [|y u IH]; cbn; [now rewrite H|]. now destruct (p y). Qed.

Lemma trim_end_app {A} (p : A -> bool) a x v : p x = false -> trim_end p (a ++ x :: v) = a ++ x :: trim_end p v.
Proof.
  intros H. unfold trim_end. rewrite rev_app_distr. cbn [rev]. rewrite <- app_assoc. cbn [app].
  rewrite drop_while_app, rev_app_distr by exact H. cbn [rev]. rewrite rev_involutive. now rewrite <- app_assoc.
Qed.

Lemma trim_end_in {A} (p : A -> bool) x v : x ∈ trim_end p v -> x ∈ v.
Proof.
  unfold trim_end. rewrite !list_elem_of_In, <- in_rev. intros H. apply in_rev. revert H. generalize (rev v). clear v.
  intros v. induction v as [|y v IH]; [done|]. cbn. destruct (p y); [|done]. auto.
Qed.

(** ** The scan *)

Lemma section_id_snoc ds c : forall id, section_id (ds ++ [c]) id = v ← section_id ds id; section_id [c] v.
Proof.
  induction ds as [|d ds IH]; intros id; [reflexivity|]. cbn [app section_id].
  destruct (_ || _); [reflexivity|]. apply IH.
Qed.

Lemma section_id_digit n : 0 <= n <= SIZE_MAX -> section_id [48 + n mod 10] (n / 10) = Some n.
Proof.
  intros H. pose proof (Z.div_mod n 10 ltac:(lia)). pose proof (Z.mod_pos_bound n 10 ltac:(lia)). unfold section_id.
  assert (n / 10 <= (SIZE_MAX - n mod 10) / 10) by (apply Z.div_le_lower_bound; lia).
  replace (48 + n mod 10 - 48) with (n mod 10) by lia.
  replace (48 + n mod 10 <? 48) with false by lia. replace (57 <? 48 + n mod 10) with false by lia.
  replace ((SIZE_MAX - n mod 10) / 10 <? n / 10) with false by lia. cbn [orb]. f_equal. lia.
Qed.

Lemma decimal_section fuel : forall n acc, 0 <= n < 10 ^ Z.of_nat (S fuel) -> n <= SIZE_MAX ->
  exists ds, decimal_loop (S fuel) n acc = ds ++ acc /\ section_id ds 0 = Some n /\ ds <> [].
Proof.
  induction fuel as [|fuel IH]; intros n acc Hn HM; cbn [decimal_loop]; pose proof (section_id_digit n ltac:(lia)) as HD.
  - assert (n / 10 = 0) as E by (apply Z.div_small; cbn in Hn; lia). rewrite E in *. now exists [48 + n mod 10].
  - destruct (Z.eqb_spec (n / 10) 0) as [E|E]; [rewrite E in HD; now exists [48 + n mod 10]|].
    assert (0 <= n / 10 < 10 ^ Z.of_nat (S fuel)) as H10.
    { split; [apply Z.div_pos; lia|]. apply Z.div_lt_upper_bound; [lia|].
      rewrite (Nat2Z.inj_succ (S fuel)), Z.pow_succ_r in Hn by lia. lia. }
    pose proof (Z.div_mod n 10 ltac:(lia)). pose proof (Z.mod_pos_bound n 10 ltac:(lia)).
    destruct (IH (n / 10) (48 + n mod 10 :: acc) H10 ltac:(lia)) as (ds & Hds & Hv & Hne).
    exists (ds ++ [48 + n mod 10]). split; [|split].
    + change (decimal_loop (S fuel) (n / 10) (48 + n mod 10 :: acc) = (ds ++ [48 + n mod 10]) ++ acc). rewrite Hds. now rewrite <- app_assoc.
    + now rewrite section_id_snoc, Hv.
    + now destruct ds.
Qed.

Lemma decimal_of_section n : 0 <= n <= SIZE_MAX -> section_id (decimal_of n) 0 = Some n /\ decimal_of n <> [] /\ (length (decimal_of n) <= 20)%nat.
Proof.
  intros H. unfold SIZE_MAX in H. destruct (decimal_section 19 n []) as (ds & E & H1 & H2).
  - change (Z.of_nat 20) with 20. lia.
  - unfold SIZE_MAX. lia.
  - rewrite app_nil_r in E. unfold decimal_of. rewrite E. split_and!; auto. rewrite <- E. clear.
    assert (forall n z acc, (length (decimal_loop n z acc) <= n + length acc)%nat) as G; [|apply (G 20%nat n [])].
    intros f. induction f as [|f IH]; intros z acc; [cbn; lia|]. cbn [decimal_loop]. destruct (z / 10 =? 0); [cbn; lia|].
    specialize (IH (z / 10) (48 + z mod 10 :: acc)). cbn [length] in IH. lia.
Qed.

Lemma section_digits ds : forall id n, section_id ds id = Some n -> Forall (fun c => 48 <= c <= 57) ds.
Proof.
  induction ds as [|c ds IH]; intros id n H; [constructor|]. cbn [section_id] in H.
  destruct ((c <? 48) || (57 <? c) || _) eqn:E; [discriminate|]. constructor; [|eapply IH; exact H].
  apply orb_false_iff in E as [E _]. lia.
Qed.

(** The state of a scan: numbers fit, and without a format there is no record. *)
Record book_ok (s : book_state) : Prop := {
  bk_next : 0 <= b_next s <= SIZE_MAX; bk_records : 0 <= b_records s <= JF_RULE_MAX;
  bk_format : b_format s = false -> b_records s = 0 /\ b_section s = false /\ b_next s = 0 }.

Lemma section_bound ds : forall id n, 0 <= id <= SIZE_MAX -> section_id ds id = Some n -> 0 <= n <= SIZE_MAX.
Proof.
  induction ds as [|c ds IH]; intros id n Hi H; [cbn in H; now simplify_eq|]. cbn [section_id] in H.
  destruct ((c <? 48) || (57 <? c) || _) eqn:E; [discriminate|]. apply orb_false_iff in E as [[E1 E2]%orb_false_iff E3].
  apply (IH (id * 10 + (c - 48))); [|exact H].
  assert (id <= (SIZE_MAX - (c - 48)) / 10) as G by lia. pose proof (Z.mul_div_le (SIZE_MAX - (c - 48)) 10 ltac:(lia)). lia.
Qed.

Lemma scan_header_ok l s s' : book_ok s -> scan_header l s = Some s' -> book_ok s'.
Proof.
  intros []. unfold scan_header. destruct (streq _ _).
  - destruct (_ || _); [discriminate|]. intros [= <-]. now split.
  - destruct (negb (b_format s) || _ || _) eqn:EF; [discriminate|]. apply orb_false_iff in EF as [[EF _]%orb_false_iff _].
    destruct (section_id _ 0) as [id|] eqn:E; [|discriminate]. apply section_bound in E; [|unfold SIZE_MAX; lia].
    destruct (Z.eqb_spec id SIZE_MAX); [discriminate|]. destruct (Z.ltb_spec JF_RULE_MAX (b_records s + 1)); [discriminate|].
    intros [= <-]. split; cbn; [destruct (b_next s <=? id); lia|lia|]. now destruct (b_format s).
Qed.

Section Scan.
Context `{HP : Heap}.

Lemma scan_line_ok l w s h s' h' : book_ok s -> scan_line l w s h = (Scanned s', h') -> book_ok s'.
Proof.
  intros Hs. unfold scan_line, scan_field. destruct (_ || _); [discriminate|]. destruct (trim_line l) as [|c t]; [now intros [= <- <-]|].
  destruct (c =? _); [now intros [= <- <-]|]. destruct (c =? _).
  - destruct (scan_header _ s) as [u|] eqn:E; [|discriminate]. intros [= <- <-]. exact (scan_header_ok _ _ _ Hs E).
  - destruct (_ || _); [discriminate|]. destruct (_ && _); [|now intros [= <- <-]].
    destruct (same_email _ _ _) as [[[]|] ?]; try discriminate. now intros [= <- <-].
Qed.

Lemma scan_lines_ok ls w : forall s h s' h', book_ok s -> scan_lines ls w s h = (Scanned s', h') -> book_ok s'.
Proof.
  induction ls as [|l t IH]; intros s h s' h' Hs; cbn [scan_lines]; [now intros [= <- <-]|].
  destruct (scan_line l w s h) as [[]] eqn:E; try discriminate. apply scan_line_ok in E; [|exact Hs]. now apply IH.
Qed.

Lemma scan_lines_app a b w : forall s h, scan_lines (a ++ b) w s h =
  match scan_lines a w s h with (Scanned s', h') => scan_lines b w s' h' | r => r end.
Proof.
  induction a as [|l a IH]; intros s h; [reflexivity|]. cbn [app scan_lines].
  destruct (scan_line l w s h) as [[]]; auto.
Qed.

Lemma scan_split raw w s h : scan_lines (split_on LF raw) w s h = scan_lines (book_lines raw) w s h.
Proof.
  destruct (book_lines_split raw) as [-> | ->]; [done|]. rewrite scan_lines_app.
  now destruct (scan_lines (book_lines raw) w s h) as [[]].
Qed.

(** *** With memory, the number of requests does not matter *)
Context (granted : forall n, malloc_ok n = true).

Lemma same_loop_granted s w : forall cur q e h h', (same_loop s cur q e w h).1 = (same_loop s cur q e w h').1.
Proof.
  induction s as [|c t IH]; intros cur q e h h'; cbn [same_loop].
  - unfold same_piece. now rewrite !granted.
  - destruct e; [apply IH|]. destruct (_ && _); [apply IH|]. destruct (c =? _); [apply IH|]. destruct (_ && _); [|apply IH].
    unfold same_piece. rewrite !granted. destruct (canonical _) as [u|]; [destruct (streq u w)|]; auto.
Qed.

Lemma scan_line_granted l w s h h' : (scan_line l w s h).1 = (scan_line l w s h').1.
Proof.
  unfold scan_line, scan_field, same_email. destruct (_ || _); [done|]. destruct (trim_line l) as [|c t]; [done|].
  destruct (c =? _); [done|]. destruct (c =? _); [done|]. destruct (_ || _); [done|]. destruct (_ && _); [|done].
  pose proof (same_loop_granted (drop (S (length (take_while (fun c => negb (c =? ch "=")) (c :: t)))) (c :: t)) w [] false false h h') as H.
  destruct (same_loop _ _ _ _ _ h) as [o1 ?], (same_loop _ _ _ _ _ h') as [o2 ?]. cbn [fst] in H. subst o2. now destruct o1 as [[]|].
Qed.

Lemma scan_lines_granted ls w : forall s h h', (scan_lines ls w s h).1 = (scan_lines ls w s h').1.
Proof.
  induction ls as [|l t IH]; intros s h h'; [done|]. cbn [scan_lines]. pose proof (scan_line_granted l w s h h') as H.
  destruct (scan_line l w s h) as [r1 ?], (scan_line l w s h') as [r2 ?]. cbn [fst] in H. subst r2. destruct r1; auto.
Qed.
End Scan.

(** ** The lines of a record *)

Lemma trim_line_plain l x y : head l = Some x -> last l = Some y -> is_blank x = false -> line_end y = false -> trim_line l = l.
Proof. intros H1 H2 H3 H4. unfold trim_line. rewrite drop_while_none, trim_end_none; [done|now rewrite H2|now rewrite H1]. Qed.

Lemma mem_false c l : c ∉ l -> mem c l = false.
Proof. intros H. destruct (mem c l) eqn:E; [|done]. now apply mem_spec in E. Qed.

Lemma valid_text_bytes s : cstr_ok s -> valid_text s = true -> Forall (fun c => 32 <= c < 256) s /\ zlen s <= JF_LINE_MAX.
Proof.
  intros Hc. unfold valid_text. destruct (_ || _) eqn:E; [discriminate|]. apply orb_false_iff in E as [E1 E2%negb_false_iff].
  intros H. rewrite forallb_forall in H. split; [|lia].
  apply Forall_forall. intros c Hin. rewrite Forall_forall in Hc. specialize (Hc c Hin).
  specialize (H c (proj1 (list_elem_of_In _ _) Hin)). unfold control in H. lia.
Qed.

(** The bracketed line of a number. *)
Lemma header_line n : 0 <= n <= SIZE_MAX ->
  let l := ch "[" :: decimal_of n ++ [ch "]"] in
  LF ∉ l /\ 0 ∉ l /\ zlen l <= 22 /\ trim_line l = l /\ streq l (str "[format]") = false /\
  3 <= zlen l /\ last l = Some (ch "]") /\ section_id (removelast (drop 1 l)) 0 = Some n.
Proof.
  intros H l. destruct (decimal_of_section n H) as (H1 & H2 & H3). pose proof (section_digits _ _ _ H1) as HD.
  assert (forall c, c ∈ l -> 48 <= c <= 57 \/ c = 91 \/ c = 93) as HL.
  { intros c Hc. apply elem_of_cons in Hc as [->|Hc]; [lia|]. apply elem_of_app in Hc as [Hc|Hc].
    - rewrite Forall_forall in HD. specialize (HD c Hc). lia.
    - apply list_elem_of_singleton in Hc. lia. }
  assert (last l = Some 93) as HX by (unfold l; rewrite app_comm_cons; apply last_snoc).
  split_and!; auto.
  - intros HF. specialize (HL _ HF). lia.
  - intros HF. specialize (HL _ HF). lia.
  - unfold l, zlen. cbn [length]. rewrite length_app. cbn [length]. lia.
  - apply (trim_line_plain l 91 93); auto.
  - apply streq_false. intros E. unfold l in E. destruct (decimal_of n) as [|d t]; [done|].
    apply Forall_cons in HD as [HD _]. injection E as E _. lia.
  - unfold l, zlen. cbn [length]. rewrite length_app. destruct (decimal_of n); [done|cbn [length]; lia].
  - unfold l. cbn [drop]. rewrite ?drop_0. now rewrite removelast_last.
Qed.

(** ** The mailbox of a contact *)

Lemma quoted_local_suffix n : forall p r, (length p <= n)%nat -> quoted_local p = Some r -> r `suffix_of` p.
Proof.
  induction n as [|n IH]; intros p r Hl H; destruct p as [|c t]; cbn in *; try discriminate; try lia.
  destruct (c =? DQ); [simplify_eq; now exists [c]|]. destruct (c =? BSL).
  - destruct t as [|d t]; [discriminate|]. destruct (_ || _); [discriminate|]. cbn in Hl.
    apply suffix_cons_r, suffix_cons_r, IH; [lia|exact H].
  - destruct (_ || _); [discriminate|]. apply suffix_cons_r, IH; [lia|exact H].
Qed.

Lemma atom_local_suffix p : forall b b' r, atom_local b p = Some (b', r) -> r `suffix_of` p.
Proof.
  induction p as [|c t IH]; intros b b' r H; cbn in H; [simplify_eq; apply suffix_nil|].
  destruct (c =? ch "@"); [now simplify_eq|]. destruct (c =? ch ".").
  - destruct b; [|discriminate]. apply suffix_cons_r. eapply IH; exact H.
  - destruct (atom_byte c); [|discriminate]. apply suffix_cons_r. eapply IH; exact H.
Qed.

Lemma at_domain_last s r : at_domain r = true -> r `suffix_of` s -> exists y, last s = Some y /\ line_end y = false.
Proof.
  intros H [a ->]. apply at_domain_cons in H as (d & -> & Hd). pose proof (valid_domain_bytes d Hd) as HB.
  destruct d as [|y d _] using rev_ind; [discriminate Hd|]. exists y. rewrite app_comm_cons, app_assoc, last_snoc. split; [done|].
  apply Forall_app in HB as [_ HB]. apply Forall_cons in HB as [HB _].
  unfold line_end, is_blank. destruct (Z.eqb_spec y 32) as [->|]; [discriminate HB|]. destruct (Z.eqb_spec y 9) as [->|]; [discriminate HB|].
  destruct (Z.eqb_spec y 13) as [->|]; [discriminate HB|]. reflexivity.
Qed.

Lemma mailbox_ends s : jf_valid_mailbox s = true ->
  (exists x, head s = Some x /\ is_blank x = false) /\ exists y, last s = Some y /\ line_end y = false.
Proof.
  destruct s as [|c p]; [discriminate|]. cbn [jf_valid_mailbox]. destruct (Z.eqb_spec c DQ) as [->|Hc].
  - destruct (quoted_local p) as [r|] eqn:E; [|discriminate]. intros H. split; [now exists 34|].
    apply (at_domain_last _ r H), suffix_cons_r. now apply (quoted_local_suffix (length p)).
  - destruct (atom_local false (c :: p)) as [[[] r]|] eqn:E; try discriminate. intros H. split.
    + exists c. split; [done|]. cbn [atom_local] in E. destruct (c =? ch "@"); [discriminate|]. destruct (c =? ch "."); [discriminate|].
      destruct (atom_byte c) eqn:EA; [|discriminate]. unfold is_blank.
      destruct (Z.eqb_spec c 32) as [->|]; [discriminate EA|]. destruct (Z.eqb_spec c 9) as [->|]; [discriminate EA|]. reflexivity.
    + apply (at_domain_last _ r H). eapply atom_local_suffix; exact E.
Qed.

Lemma canonical_valid s t : cstr_ok s -> canonical s = Some t -> jf_valid_mailbox s = true.
Proof.
  intros Hs. unfold canonical. destruct (negb _); [discriminate|]. rewrite normalize_refines by exact Hs.
  destruct (normalize_spec s) as [u|] eqn:E; [|discriminate]. intros _. now apply normalize_decode in E as (_ & H & _).
Qed.

Section Once.
Context `{HP : Heap} (granted : forall n, malloc_ok n = true).

(** A value without commas is one mailbox. *)
Lemma same_loop_whole s w h : ch "," ∉ s -> forall cur q e, (same_loop s cur q e w h).1 = (same_piece (cur ++ s) w h).1.
Proof.
  induction s as [|c t IH]; intros HC cur q e; cbn [same_loop]; [now rewrite app_nil_r|].
  apply not_elem_of_cons in HC as [H1 H2]. replace (c =? ch ",") with false by (symmetry; apply Z.eqb_neq; congruence).
  rewrite (cons_middle c cur t), app_assoc. destruct e; [now apply IH|]. destruct (_ && _); [now apply IH|].
  destruct (c =? _); now apply IH.
Qed.

Lemma same_email_self email address h : cstr_ok email -> ch "," ∉ email -> canonical email = Some address ->
  (same_email email address h).1 = Some true.
Proof.
  intros Hs HC HA. unfold same_email. rewrite same_loop_whole by exact HC. cbn [app]. unfold same_piece. rewrite granted. cbn [fst].
  destruct (mailbox_ends email (canonical_valid _ _ Hs HA)) as [(x & Hx & Hbx) (y & Hy & Hby)].
  assert (trim_blanks email = email) as ->.
  { unfold trim_blanks. rewrite drop_while_none, trim_end_none; [done|rewrite Hy|now rewrite Hx].
    unfold line_end in Hby. now apply orb_false_iff in Hby as [Hby _]. }
  now rewrite HA, streq_refl.
Qed.

(** The lines a new record adds. *)
Definition entry_lines (n : Z) (email name : bytes) : list bytes :=
  [ch "[" :: decimal_of n ++ [ch "]"]; str "name=" ++ match name with [] => email | _ => name end; str "email=" ++ email].

Lemma header_scan n s w h : 0 <= n <= SIZE_MAX -> b_format s = true ->
  scan_line (ch "[" :: decimal_of n ++ [ch "]"]) w s h =
    (if (n =? SIZE_MAX) || (JF_RULE_MAX <? b_records s + 1) then Invalid
     else Scanned (MkBook (if b_next s <=? n then n + 1 else b_next s) (b_records s + 1) true true), h).
Proof.
  intros Hn HF. destruct (header_line n Hn) as (_ & H0 & HL & HT & HE & H3 & HX & HI).
  unfold scan_line. rewrite HT. rewrite (mem_false 0) by exact H0. replace (JF_LINE_MAX <? zlen _) with false by (unfold JF_LINE_MAX; lia).
  cbn [orb Z.eqb]. change (ch "[" =? ch "#") with false. change (ch "[" =? ch "[") with true. cbn match.
  unfold scan_header. rewrite HE, HF, HI. replace (zlen _ <? 3) with false by lia. rewrite bool_decide_eq_true_2 by exact HX. cbn [negb orb].
  now destruct (_ || _).
Qed.

Lemma lower_key key : forallb (fun c => (97 <=? c) && (c <=? 122)) key = true -> Forall (fun c => 97 <= c <= 122) key.
Proof. intros H. apply Forall_forall. intros c Hc. rewrite forallb_forall in H. specialize (H c (proj1 (list_elem_of_In _ _) Hc)). lia. Qed.

(** A line [key=value] whose value is text. *)
Lemma field_scan k key v s w h :
  b_format s = true -> Forall (fun c => 97 <= c <= 122) (k :: key) -> Forall (fun c => 32 <= c < 256) v ->
  scan_line ((k :: key) ++ ch "=" :: v) w s h =
    let v := trim_end line_end v in
    if JF_LINE_MAX <? zlen (k :: key) + 1 + zlen v then (Invalid, h)
    else if b_section s && streq (k :: key) (str "email") then
           match same_email v w h with
           | (None, h) => (NoMemory, h) | (Some true, h) => (Found, h) | (Some false, h) => (Scanned s, h)
           end
         else (Scanned s, h).
Proof.
  intros HF HK HV. cbn zeta.
  assert (forall c, c ∈ k :: key -> 97 <= c <= 122) as HK' by (intros c Hc; rewrite Forall_forall in HK; auto).
  assert (trim_line ((k :: key) ++ ch "=" :: v) = (k :: key) ++ ch "=" :: trim_end line_end v) as ET.
  { unfold trim_line. rewrite drop_while_none; [now apply trim_end_app|].
    specialize (HK' k ltac:(left)). cbn. unfold is_blank. lia. }
  unfold scan_line. rewrite ET.
  assert (mem 0 ((k :: key) ++ ch "=" :: trim_end line_end v) = false) as ->.
  { apply mem_false. intros [H|[H|H]%elem_of_cons]%elem_of_app; [specialize (HK' _ H); lia|lia|].
    apply trim_end_in in H. rewrite Forall_forall in HV. specialize (HV _ H). lia. }
  assert (zlen ((k :: key) ++ ch "=" :: trim_end line_end v) = zlen (k :: key) + 1 + zlen (trim_end line_end v)) as ->
    by (unfold zlen; rewrite length_app; cbn [length]; lia).
  rewrite orb_false_r. destruct (JF_LINE_MAX <? _); [done|]. cbn [app].
  pose proof (HK' k ltac:(left)). replace (k =? ch "#") with false by lia. replace (k =? ch "[") with false by lia.
  unfold scan_field.
  assert (forall t u, Forall (fun c => 97 <= c <= 122) t -> take_while (fun c => negb (c =? ch "=")) (t ++ ch "=" :: u) = t) as HW.
  { intros t u. induction 1 as [|c t Hc _ IH]; [done|]. cbn. replace (c =? 61) with false by lia. cbn. now rewrite IH. }
  rewrite (app_comm_cons key), (HW (k :: key)) by exact HK. rewrite HF. cbn [negb orb].
  replace (length (k :: key) =? length ((k :: key) ++ ch "=" :: trim_end line_end v))%nat with false
    by (symmetry; apply Nat.eqb_neq; rewrite length_app; cbn [length]; lia).
  rewrite (trim_end_none is_blank).
  - destruct (_ && _); [|done].
    assert (drop (S (length (k :: key))) ((k :: key) ++ ch "=" :: trim_end line_end v) = trim_end line_end v) as ->; [|done].
    rewrite (cons_middle (ch "=")), app_assoc. apply drop_app_length'. rewrite length_app. cbn [length]. lia.
  - destruct (last (k :: key)) eqn:EL; [|done]. apply last_Some_elem_of in EL. specialize (HK' _ EL). unfold is_blank. lia.
Qed.

Definition format_lines : list bytes := [str "[format]"; str "program=abook"; str "version=0.6.1"; []].

Lemma record_lines raw s email name :
  0 <= b_next s <= SIZE_MAX -> Forall (fun c => 32 <= c < 256) email -> Forall (fun c => 32 <= c < 256) name ->
  book_lines (raw ++ record_of s email name) =
    split_on LF raw ++ (if b_format s then [] else format_lines) ++ entry_lines (b_next s) email name.
Proof.
  intros Hn He Hm. destruct (header_line _ Hn) as (HL & _).
  assert (forall l, Forall (fun c => 32 <= c < 256) l -> LF ∉ l) as HT.
  { intros l H Hin. rewrite Forall_forall in H. specialize (H _ Hin). lia. }
  assert (LF ∉ str "name=" ++ match name with [] => email | _ => name end) as HN.
  { apply not_elem_of_app. split; [vm_compute; intros H; repeat (apply elem_of_cons in H as [H|H]; [discriminate|]); now apply elem_of_nil in H|].
    destruct name; now apply HT. }
  assert (LF ∉ str "email=" ++ email) as HE.
  { apply not_elem_of_app. split; [vm_compute; intros H; repeat (apply elem_of_cons in H as [H|H]; [discriminate|]); now apply elem_of_nil in H|].
    now apply HT. }
  assert (book_lines ((ch "[" :: decimal_of (b_next s) ++ [ch "]"]) ++ LF :: (str "name=" ++ match name with [] => email | _ => name end) ++ LF ::
    (str "email=" ++ email) ++ [LF]) = entry_lines (b_next s) email name) as EE.
  { rewrite !book_lines_line by assumption. reflexivity. }
  unfold record_of, record_parts. rewrite concat_app. destruct (b_format s).
  - cbn [concat app]. rewrite <- EE, <- book_lines_app. f_equal. f_equal.
    change (str "[") with [ch "["]. change (str "]") with [ch "]"]. repeat (rewrite <- !app_assoc; cbn [app]). reflexivity.
  - rewrite <- EE. change format_lines with (book_lines (str "[format]" ++ LF :: str "program=abook" ++ LF :: str "version=0.6.1" ++ [LF; LF])).
    cbn [concat app]. change (str "[") with [ch "["]. change (str "]") with [ch "]"].
    repeat (rewrite <- !app_assoc; cbn [app]). rewrite !book_lines_app, !book_lines_newline. reflexivity.
Qed.

Lemma format_scan s w h : book_ok s -> b_format s = false ->
  scan_lines format_lines w s h = (Scanned (MkBook (b_next s) (b_records s) true false), h).
Proof.
  intros Hs HF. destruct s as [n k f c]. cbn in HF. subst f. destruct (bk_format _ Hs eq_refl) as (H1 & H2 & H3).
  cbn in H1, H2, H3. subst. reflexivity.
Qed.

(** A line too long for the next scan, once written. *)
Definition overlong (email name : bytes) : bool :=
  (JF_LINE_MAX <? 5 + zlen (trim_end line_end (match name with [] => email | _ => name end))) || (JF_LINE_MAX <? 6 + zlen email).

Lemma entry_scan s email name address h :
  book_ok s -> b_format s = true -> b_records s <> JF_RULE_MAX ->
  Forall (fun c => 32 <= c < 256) email -> Forall (fun c => 32 <= c < 256) name ->
  cstr_ok email -> ch "," ∉ email -> canonical email = Some address ->
  (scan_lines (entry_lines (b_next s) email name) address s h).1 =
    if (b_next s =? SIZE_MAX) || overlong email name then Invalid else Found.
Proof.
  intros Hs HF HR He Hm Hc HC HA. pose proof (bk_next _ Hs) as Hn. pose proof (bk_records _ Hs).
  unfold entry_lines. cbn [scan_lines]. rewrite header_scan by assumption.
  replace (JF_RULE_MAX <? b_records s + 1) with false by lia. rewrite orb_false_r.
  destruct (b_next s =? SIZE_MAX); [done|]. cbn [orb]. rewrite Z.leb_refl.
  set (s1 := MkBook _ _ _ _). unfold overlong.
  change (str "name=" ++ ?v) with ((ch "n" :: str "ame") ++ ch "=" :: v). change (str "email=" ++ email) with ((ch "e" :: str "mail") ++ ch "=" :: email).
  rewrite (field_scan (ch "n") (str "ame") (match name with [] => email | _ => name end) s1 address h) by
    (reflexivity || (now apply lower_key) || (now destruct name)).
  change (ch "n" :: str "ame") with (str "name"). change (zlen (str "name") + 1) with 5. cbn zeta.
  destruct (JF_LINE_MAX <? 5 + _); [done|]. change (b_section s1 && streq (str "name") (str "email")) with false. cbn [orb] in *. cbn match.
  rewrite (field_scan (ch "e") (str "mail") email s1 address h) by (reflexivity || (now apply lower_key) || assumption).
  change (ch "e" :: str "mail") with (str "email"). change (zlen (str "email") + 1) with 6. cbn zeta.
  destruct (mailbox_ends email (canonical_valid _ _ Hc HA)) as [_ (y & Hy & Hby)].
  rewrite (trim_end_none line_end email) by now rewrite Hy.
  destruct (JF_LINE_MAX <? 6 + _); [done|]. change (b_section s1 && streq (str "email") (str "email")) with true. cbn match.
  pose proof (same_email_self email address h Hc HC HA) as HS. destruct (same_email email address h) as [o h']. cbn [fst] in HS. now subst o.
Qed.

(** ** Fresh numbers *)

Lemma scan_header_next l s s' : scan_header l s = Some s' -> b_next s <= b_next s' /\
  (forall ds n, l = ch "[" :: ds ++ [ch "]"] -> section_id ds 0 = Some n -> n < b_next s').
Proof.
  unfold scan_header. destruct (streq l (str "[format]")) eqn:E.
  - apply streq_spec in E as ->. destruct (_ || _); [discriminate|]. intros [= <-]. split; [cbn; lia|].
    intros ds n E Hn. injection E as E. change (str "format]") with (str "format" ++ [ch "]"]) in E.
    apply (app_inj_tail (str "format")) in E as [<- _]. discriminate Hn.
  - destruct (_ || _ || _); [discriminate|]. destruct (section_id _ 0) as [id|] eqn:EI; [|discriminate].
    destruct (_ || _); [discriminate|]. intros [= <-]. cbn. split; [destruct (Z.leb_spec (b_next s) id); lia|].
    intros ds n -> Hn. cbn [drop] in EI. rewrite drop_0, removelast_last in EI. assert (id = n) as -> by congruence. destruct (Z.leb_spec (b_next s) n); lia.
Qed.

Lemma scan_line_next l w s h s' h' : scan_line l w s h = (Scanned s', h') -> b_next s <= b_next s' /\
  (forall ds n, trim_line l = ch "[" :: ds ++ [ch "]"] -> section_id ds 0 = Some n -> n < b_next s').
Proof.
  unfold scan_line, scan_field. destruct (_ || _); [discriminate|]. destruct (trim_line l) as [|c t]; [intros [= <- <-]; split; [lia|discriminate]|].
  destruct (Z.eqb_spec c (ch "#")) as [->|]; [intros [= <- <-]; split; [lia|discriminate]|]. destruct (Z.eqb_spec c (ch "[")) as [->|Hc].
  - destruct (scan_header _ s) as [u|] eqn:E; [|discriminate]. intros [= <- <-]. exact (scan_header_next _ _ _ E).
  - assert (Scanned s = Scanned s' -> b_next s <= b_next s' /\
      (forall ds n, c :: t = ch "[" :: ds ++ [ch "]"] -> section_id ds 0 = Some n -> n < b_next s')) as K by (intros [= <-]; split; [lia|congruence]).
    destruct (_ || _); [discriminate|]. destruct (_ && _); [|intros [= H _]; apply K; now rewrite H].
    destruct (same_email _ _ _) as [[[]|] ?]; try discriminate. intros [= H _]. apply K. now rewrite H.
Qed.

Lemma scan_lines_next ls w : forall s h s' h', scan_lines ls w s h = (Scanned s', h') -> b_next s <= b_next s' /\
  (forall l ds n, l ∈ ls -> trim_line l = ch "[" :: ds ++ [ch "]"] -> section_id ds 0 = Some n -> n < b_next s').
Proof.
  induction ls as [|l t IH]; intros s h s' h' H; cbn [scan_lines] in H; [injection H as <- _; split; [lia|intros l ds n Hl; now apply elem_of_nil in Hl]|].
  destruct (scan_line l w s h) as [[] h1] eqn:E; try discriminate. apply scan_line_next in E as [E1 E2]. apply IH in H as [H1 H2].
  split; [lia|]. intros l' ds n [->|Hl]%elem_of_cons HT Hn; [specialize (E2 ds n HT Hn); lia|exact (H2 _ _ _ Hl HT Hn)].
Qed.

(** C37. A contact is added once.  When a scan does not find the mailbox, the
    record that is appended has a number above every section of the book, and the
    scan of the extended book finds the mailbox, whatever the book ended with; the
    only exceptions are a name or mailbox whose line, with its key, is longer than
    the limit of a line, and a book whose numbers are exhausted: the extended book
    is then refused as a whole. *)
Theorem contact_added_once email name address raw s h h1 h2 :
  cstr_ok email -> cstr_ok name -> valid_text email = true -> valid_text name = true -> ch "," ∉ email ->
  canonical email = Some address ->
  scan_book raw address h = (Scanned s, h1) -> b_records s <> JF_RULE_MAX ->
  (scan_book (raw ++ record_of s email name) address h2).1 = (if (b_next s =? SIZE_MAX) || overlong email name then Invalid else Found) /\
  (forall l ds n, l ∈ book_lines raw -> trim_line l = ch "[" :: ds ++ [ch "]"] -> section_id ds 0 = Some n -> n < b_next s).
Proof.
  intros Hc Hcn He Hm HC HA HS HR. pose proof (scan_lines_next _ _ _ _ _ _ HS) as [_ HN]. split; [|exact HN].
  pose proof (valid_text_bytes _ Hc He) as [He' _]. pose proof (valid_text_bytes _ Hcn Hm) as [Hm' _].
  assert (book_ok new_book) as H0 by (split; cbn; unfold SIZE_MAX, JF_RULE_MAX; auto; lia).
  pose proof (scan_lines_ok _ _ _ _ _ _ H0 HS) as Hs.
  unfold scan_book. rewrite (scan_lines_granted granted _ _ _ h2 h), record_lines by (auto; apply Hs).
  rewrite scan_lines_app, scan_split. unfold scan_book in HS. rewrite HS.
  destruct (b_format s) eqn:HF; [now apply entry_scan|].
  rewrite scan_lines_app, format_scan by assumption.
  destruct Hs as [Hn Hr _]. apply (entry_scan (MkBook (b_next s) (b_records s) true false)); auto. now split.
Qed.
End Once.

(** ** An addition, and one that spoils the book *)

Definition sample_contacts : bytes := str "[format]" ++ [LF] ++ str "program=abook" ++ [LF; LF] ++ str "[4]" ++ [LF] ++ str "email=Other@B.org, c@d.net".

Lemma contact_added_once_witness :
  (scan_book (HP := granting) (sample_contacts ++ record_of (MkBook 5 1 true true) (str "A@b.Org") (str "A B")) (str "a@b.org") 0).1 = Found /\
  4 < 5.
Proof.
  destruct (contact_added_once (HP := granting) (fun _ => eq_refl) (str "A@b.Org") (str "A B") (str "a@b.org") sample_contacts
    (MkBook 5 1 true true) 0 2 0) as [H1 H2].
  1,2: vm_compute; repeat constructor.
  1,2: vm_compute; reflexivity.
  - intros H. vm_compute in H. repeat (apply elem_of_cons in H as [H|H]; [discriminate|]). now apply elem_of_nil in H.
  - vm_compute. reflexivity.
  - vm_compute. reflexivity.
  - discriminate.
  - split; [exact H1|]. apply (H2 (str "[4]") (str "4") 4); [vm_compute; do 3 right; left|vm_compute; reflexivity..].
Defined.

Lemma overlong_long email name y : last name = Some y -> line_end y = false -> JF_LINE_MAX < 5 + zlen name -> overlong email name = true.
Proof.
  intros HL Hy Hn. unfold overlong. destruct name as [|c t]; [discriminate|].
  rewrite trim_end_none by now rewrite HL. now replace (JF_LINE_MAX <? 5 + zlen (c :: t)) with true by lia.
Qed.

(** A name of a length that is accepted makes a line that is not. *)
Example overlong_name : let name := replicate (Z.to_nat JF_LINE_MAX) 97 in
  valid_text name = true /\ overlong (str "a@b.org") name = true.
Proof.
  cbn zeta. split; [vm_compute; reflexivity|].
  apply (overlong_long _ _ 97); [|reflexivity|unfold zlen; rewrite length_replicate; unfold JF_LINE_MAX; lia].
  replace (Z.to_nat JF_LINE_MAX) with (S (Z.to_nat (JF_LINE_MAX - 1))) by (unfold JF_LINE_MAX; lia). rewrite replicate_S_end. apply last_snoc.
Qed.
