(* ===== verification/ContactRuns.v ===== *)
(** * What adding a contact does to the file (src/filter/contact.c)

    Every run of [jf_contact_add], with any answers of the system: when it may
    write, what it writes, and what each status says of the book. *)
From S2P Require Import Prelude Utf8 Mailbox Rules Bytes Storage Contact ContactFacts.

(** What the calls have read, the latest last. *)
Fixpoint reads (t : calls) : bytes :=
  match t with [] => [] | ReadBook _ (inr d) :: t => reads t ++ d | _ :: t => reads t end.

Definition is_write (c : call) : bool := match c with WriteBook _ _ _ => true | _ => false end.
(** A write that may have changed the file. *)
Definition effective (c : call) : bool := match c with WriteBook _ _ (inr _) => true | _ => false end.
Definition creates (c : call) : bool := match c with OpenNew _ (inr _) => true | _ => false end.
Definition silent (t : calls) : Prop := forallb (fun c => negb (is_write c)) t = true.
Definition quiet (c : call) : bool := match c with WriteBook _ _ _ | ReadBook _ _ | OpenNew _ _ => false | _ => true end.

Section Runs.
Context `{HP : Heap} `{BS : BookSystem} (fuel : nat) (path email name : bytes) (check : bool).

(** A write is allowed once, after the book was locked, read to its end, scanned
    without the mailbox, and found unchanged under its name. *)
Definition may_write (t : calls) (fd : Z) (data : bytes) : Prop :=
  check = false /\ forallb (fun c => negb (effective c)) t = true /\
  LockBook fd true None ∈ t /\ ReadBook fd (inr []) ∈ t /\
  (exists before after named, FstatBook fd (Some before) ∈ t /\ FstatBook fd (Some after) ∈ t /\
     StatPath path (Some named) ∈ t /\ unchanged before after named = true) /\
  exists address s h h', canonical email = Some address /\ scan_book (reads t) address h = (Scanned s, h') /\
    b_records s <> JF_RULE_MAX /\ data = record_of s email name /\ zlen (reads t) + zlen data <= JF_INPUT_MAX.

Fixpoint safe (t : calls) : Prop :=
  match t with
  | [] => True
  | c :: t => match c with WriteBook fd data _ => may_write t fd data | _ => True end /\ safe t
  end.

(** The record is in the file and on the disk, with its name when it is new. *)
Definition appended (t : calls) : Prop :=
  exists fd data later earlier, t = later ++ WriteBook fd data (inr (length data)) :: earlier /\
    forallb (fun c => negb (is_write c)) later = true /\ FsyncBook fd true ∈ later /\
    (existsb creates t = true -> exists p d, OpenDirectory p (Some d) ∈ later /\ FsyncBook d true ∈ later).

(** ** Programs and assertions *)

Definition hoare {A} (P : calls -> Prop) (m : prog A) (Q : A -> calls -> Prop) : Prop :=
  forall h t, safe t -> P t -> safe (m (h, t)).2.2 /\ forall a, (m (h, t)).1 = Some a -> Q a (m (h, t)).2.2.

Lemma run_ret {A} (a : A) (P : calls -> Prop) (Q : A -> calls -> Prop) : (forall t, P t -> Q a t) -> hoare P (mret a) Q.
Proof. intros H h t Hs Hp. split; [exact Hs|]. intros b [= <-]. auto. Qed.

Lemma run_bind {A B} (m : prog A) (f : A -> prog B) P Q R : hoare P m Q -> (forall a, hoare (Q a) (f a) R) -> hoare P (m ≫= f) R.
Proof.
  intros Hm Hf h t Hs Hp. destruct (Hm h t Hs Hp) as [H1 H2]. unfold mbind, prog_bind.
  destruct (m (h, t)) as [[a|] [h' t']]; cbn in *; [|split; [exact H1|discriminate]].
  apply Hf; auto.
Qed.

Lemma hoare_weaken {A} (m : prog A) (P P' : calls -> Prop) (Q Q' : A -> calls -> Prop) :
  hoare P m Q -> (forall t, P' t -> P t) -> (forall a t, Q a t -> Q' a t) -> hoare P' m Q'.
Proof. intros H Hp HQ h t Hs Ht. destruct (H h t Hs (Hp t Ht)) as [H1 H2]. split; auto. Qed.

(** What is known before the write: whether the file was created here, what was
    read, and some of the calls made. *)
Definition At (created : bool) (raw : bytes) (facts t : calls) : Prop :=
  (created = false -> existsb creates t = false) /\ silent t /\ reads t = raw /\ Forall (fun c => c ∈ t) facts.

(** What is known after it. *)
Definition After (created : bool) (fd : Z) (data : bytes) (facts t : calls) : Prop :=
  exists later earlier, t = later ++ WriteBook fd data (inr (length data)) :: earlier /\
    forallb (fun c => negb (is_write c)) later = true /\ Forall (fun c => c ∈ later) facts /\
    (created = false -> existsb creates t = false).

Lemma in_cons_all (c : call) t facts : Forall (fun x => x ∈ t) facts -> Forall (fun x => x ∈ c :: t) (c :: facts).
Proof. intros H. constructor; [left|]. eapply Forall_impl; [exact H|]. intros x Hx. now right. Qed.

Lemma run_call {A} (f : calls -> A) (e : A -> call) created raw facts : (forall r, quiet (e r) = true) ->
  hoare (At created raw facts) (call_ f e) (fun r => At created raw (e r :: facts)).
Proof.
  intros Hq h t Hs (H1 & H2 & H3 & H4). cbn. specialize (Hq (f t)). split; [split; [now destruct (e (f t))|exact Hs]|].
  intros r [= <-]. split_and!; [|unfold silent|..|now apply in_cons_all]; cbn; destruct (e (f t)); try discriminate; auto.
Qed.

Lemma hoare_call_after {A} (f : calls -> A) (e : A -> call) created fd data facts : (forall r, quiet (e r) = true) ->
  hoare (After created fd data facts) (call_ f e) (fun r => After created fd data (e r :: facts)).
Proof.
  intros Hq h t Hs (l & r & -> & H1 & H2 & H3). cbn. specialize (Hq (f (l ++ WriteBook fd data (inr (length data)) :: r))).
  destruct (e (f _)) eqn:E; try discriminate; (split; [split; [done|exact Hs]|]); intros x [= <-]; rewrite E;
    (eexists (_ :: l), r; split_and!; [reflexivity|exact H1|now apply in_cons_all|exact H3]).
Qed.

(** What is known apart from the calls. *)
Lemma hoare_pure {A} (m : prog A) (P : calls -> Prop) (K : Prop) (Q : A -> calls -> Prop) :
  (K -> hoare P m Q) -> hoare (fun t => P t /\ K) m Q.
Proof. intros H h t Hs [Ht HK]. now apply H. Qed.

Lemma silent_effective t : silent t -> forallb (fun c => negb (effective c)) t = true.
Proof. unfold silent. induction t as [|[] t IH]; cbn; auto; discriminate. Qed.

Lemma hoare_strdup P : hoare P strdup (fun _ => P).
Proof. intros h t Hs Hp. split; [exact Hs|]. intros a _. exact Hp. Qed.

Lemma hoare_heap {A} (f : nat -> A * nat) P : hoare P (heap_ f) (fun a t => P t /\ exists h, (f h).1 = a).
Proof.
  intros h t Hs Hp. unfold heap_. cbn. destruct (f h) as [a h'] eqn:E. cbn. split; [exact Hs|].
  intros b [= <-]. split; [exact Hp|]. exists h. now rewrite E.
Qed.

(** ** The stages *)

(** What a status says of the calls. *)
Definition outcome (a : answer) (t : calls) : Prop :=
  (check = true -> silent t) /\ (a.1 = 0 -> check = false -> appended t) /\
  (a.1 = 1 \/ a.1 = 4 \/ a.1 = 6 -> silent t) /\ a.1 ∈ [0; 1; 3; 4; 6].

Lemma outcome_silent a t : silent t -> a.1 ∈ [1; 3; 4; 6] -> outcome a t.
Proof.
  intros Hs Ha. unfold outcome. split; [auto|]. split; [|split; [auto|now right]].
  intros H. rewrite H in Ha. repeat (apply elem_of_cons in Ha as [Ha|Ha]; [discriminate|]). now apply elem_of_nil in Ha.
Qed.

Lemma outcome_failed e t : check = false -> outcome (3, e) t.
Proof.
  intros E. unfold outcome. cbn. rewrite E. split; [done|]. split; [done|]. split; [intros [H|[H|H]]; discriminate|].
  do 2 right. left.
Qed.

Lemma open_stage_spec : hoare (fun t => t = []) (open_stage path check)
  (fun o t => match o with
              | inl rc => silent t /\ (rc = 3 \/ rc = 0 /\ check = true)
              | inr (fd, created) => At created [] [] t
              end).
Proof.
  assert (forall created t, existsb creates t = false \/ created = true -> silent t -> reads t = [] -> At created [] [] t) as HA.
  { intros created t H1 H2 H3. split_and!; auto. intros ->. destruct H1; [done|discriminate]. }
  intros h t _ ->. unfold open_stage, open_new, open_book. unfold mbind, prog_bind, mret, prog_ret, call_.
  destruct check; cbn.
  - destruct (book_open _ _ _) as [[]|fd]; cbn; try (split; [done|]; intros o [= <-]; split; [done|now left]).
    + split; [done|]. intros o [= <-]. split; [done|]. destruct (bool_decide _); [now right|now left].
    + split; [done|]. intros o [= <-]. apply HA; [now (left + right)|done|done].
  - destruct (book_open_new _ _) as [[]|fd]; cbn; try (split; [done|]; intros o [= <-]; split; [done|now left]).
    + destruct (book_open _ _ _) as [[]|fd]; cbn; try (split; [done|]; intros o [= <-]; split; [done|now left]).
      split; [done|]. intros o [= <-]. apply HA; [now (left + right)|done|done].
    + split; [done|]. intros o [= <-]. apply HA; [now (left + right)|done|done].
Qed.

Lemma read_book_spec created raw facts fd :
  hoare (At created raw facts) (read_book fd)
    (fun r t => match r with inl _ => At created raw facts t | inr d => At created (raw ++ d) (ReadBook fd (inr d) :: facts) t end).
Proof.
  intros h t Hs (H1 & H2 & <- & H4). unfold read_book, call_. cbn. split; [now split|]. intros r [= <-].
  destruct (book_read t fd) as [e|d]; split_and!; auto; [|now apply in_cons_all].
  eapply Forall_impl; [exact H4|]. intros x Hx. now right.
Qed.

#[local] Opaque grow_capacity.

Lemma add_contents d limit b h b' h' : jf_bytes_add_limit d limit (b, h) = Some (b', h') -> contents b' = contents b ++ d.
Proof.
  unfold jf_bytes_add_limit. destruct (negb _); [discriminate|]. destruct (_ <? _); [destruct (malloc_ok h); [|discriminate]|];
    now intros [= <- _].
Qed.

Lemma at_less created raw f facts t : At created raw (f :: facts) t -> At created raw facts t.
Proof. intros (H1 & H2 & H3 & H4). apply Forall_cons in H4 as [_ H4]. now split_and!. Qed.

Lemma read_loop_spec n fd created facts : forall b raw, contents b = raw ->
  hoare (At created raw facts) (read_loop n fd b)
    (fun o t => match o with None => silent t | Some b' => At created (contents b') (ReadBook fd (inr []) :: facts) t end).
Proof.
  induction n as [|n IH]; intros b raw Hb; cbn [read_loop].
  { intros h t Hs _. split; [exact Hs|discriminate]. }
  eapply run_bind; [apply read_book_spec|]. intros [e|d].
  - destruct e; try (apply run_ret; intros t Ht; apply Ht). now apply IH.
  - destruct d as [|c d]; [apply run_ret; intros t Ht; now rewrite app_nil_r, <- Hb in Ht|].
    eapply run_bind; [apply hoare_heap|]. intros [b'|]; [|apply run_ret; now intros t [(_ & H & _) _]].
    assert (hoare (fun t => contents b' = raw ++ c :: d /\ At created (raw ++ c :: d) facts t) (read_loop n fd b')
      (fun o t => match o with None => silent t | Some b' => At created (contents b') (ReadBook fd (inr []) :: facts) t end)) as HI.
    { intros h t Hs [Hc Ht]. now apply (IH b' (raw ++ c :: d)). }
    eapply hoare_weaken; [exact HI| |auto]. intros t [Ht (h & Hh)]. split; [|now apply at_less in Ht].
    destruct (jf_bytes_add_limit _ _ _) as [[b1 h1]|] eqn:E; [|discriminate Hh]. cbn [fst] in Hh. injection Hh as <-.
    rewrite <- Hb. exact (add_contents _ _ _ _ _ _ E).
Qed.

Lemma write_loop_spec n fd data created :
  hoare (fun t => may_write t fd data /\ (created = false -> existsb creates t = false)) (write_loop n fd data)
    (fun ok t => if ok then After created fd data [] t else True).
Proof.
  induction n as [|n IH]; cbn [write_loop].
  { intros h t Hs _. split; [exact Hs|discriminate]. }
  apply (run_bind _ _ _ (fun r t => match r with
    | inl _ => may_write t fd data /\ (created = false -> existsb creates t = false)
    | inr k => k = length data -> After created fd data [] t end)).
  - intros h t Hs [Hm Hc]. unfold write_book, call_. cbn. split; [now split|]. intros r [= <-].
    destruct (book_write t fd data) as [e|k].
    + split; [|exact Hc]. destruct Hm as (H1 & H2 & H3 & H4 & (b & a & nm & F1 & F2 & F3 & F4) & H6).
      split_and!; auto; [now right|now right|]. exists b, a, nm. split_and!; auto; now right.
    + intros ->. exists [], t. split_and!; auto.
  - intros [e|k]; [destruct e; try (apply run_ret; auto; fail); apply IH|].
    apply run_ret. intros t Ht. destruct (Nat.eqb_spec k (length data)); auto.
Qed.

Definition parent_of (path : bytes) : bytes := match before_slash path with None => str "." | Some [] => str "/" | Some p => p end.

Lemma sync_parent_spec created fd data facts :
  hoare (After created fd data facts) (sync_parent path)
    (fun ok t => if ok then exists p d, After created fd data (FsyncBook d true :: OpenDirectory p (Some d) :: facts) t else True).
Proof.
  unfold sync_parent. eapply run_bind; [apply hoare_strdup|]. intros [|]; cbn [negb]; [|now apply run_ret].
  apply (run_bind _ _ _ (fun _ => After created fd data facts)).
  { destruct (before_slash path); [now apply run_ret|apply hoare_strdup]. }
  intros [|]; cbn [negb]; [|now apply run_ret].
  eapply run_bind; [apply hoare_call_after; intros ?; reflexivity|]. intros [d|]; [|now apply run_ret].
  eapply run_bind; [apply hoare_call_after; intros ?; reflexivity|]. intros a.
  eapply run_bind; [apply hoare_call_after; intros ?; reflexivity|]. intros b.
  apply run_ret. intros t Ht. destruct a; cbn; [|done]. destruct b; [|done]. exists (parent_of path), d.
  destruct Ht as (l & r & H1 & H2 & H3 & H4). apply Forall_cons in H3 as [_ H3]. exists l, r. split_and!; assumption.
Qed.

Lemma check_unchanged_spec created raw facts fd before :
  hoare (At created raw facts) (check_unchanged path fd before)
    (fun ok t => At created raw facts t /\ (ok = true -> exists after named, FstatBook fd (Some after) ∈ t /\
       StatPath path (Some named) ∈ t /\ unchanged before after named = true)).
Proof.
  unfold check_unchanged. eapply run_bind; [apply run_call; intros ?; reflexivity|].
  intros [after|]; [|apply run_ret; intros t Ht; split; [now apply at_less in Ht|discriminate]].
  eapply run_bind; [apply run_call; intros ?; reflexivity|]. intros named. apply run_ret. intros t Ht.
  split; [now do 2 apply at_less in Ht|]. intros H. destruct named as [named|]; [|discriminate]. exists after, named.
  destruct Ht as (_ & _ & _ & HF). apply Forall_cons in HF as [H1 HF]. apply Forall_cons in HF as [H2 _]. auto.
Qed.

Lemma append_record_spec address created fd before raw s h0 h1 facts :
  canonical email = Some address -> scan_book raw address h0 = (Scanned s, h1) ->
  (check = false -> LockBook fd true None ∈ facts) -> ReadBook fd (inr []) ∈ facts -> FstatBook fd (Some before) ∈ facts ->
  hoare (At created raw facts) (append_record fuel path email name check created fd before raw s) outcome.
Proof.
  intros HA HS HL HR HF. unfold append_record.
  destruct check eqn:EC.
  { apply run_ret. intros t (_ & Ht & _). unfold outcome. rewrite EC. split_and!; auto; [discriminate|now left]. }
  assert (forall t, At created raw facts t -> outcome invalid_book t) as HI.
  { intros t (_ & Ht & _). apply outcome_silent; [exact Ht|]. vm_compute. do 2 right. left. }
  destruct (b_records s =? JF_RULE_MAX) eqn:ER; [now apply run_ret|].
  eapply run_bind; [apply hoare_heap|]. intros [record|]; [|apply run_ret; intros t _; now apply outcome_failed].
  apply (hoare_weaken _ (fun t => At created raw facts t /\ record = record_of s email name) _ outcome); [| |auto].
  2: { intros t [Ht (h & Hh)]. split; [exact Ht|]. destruct (adds _ _) as [[b h']|] eqn:E; [|discriminate Hh].
       cbn [fst] in Hh. injection Hh as <-. apply adds_Some in E as [E _]; [exact E|].
       split; unfold zlen, JF_CACHE_MAX; cbn [contents b_capacity no_bytes length]; lia. }
  destruct (negb (jf_bytes_fits _ _ _)) eqn:EF; [apply run_ret; intros t [Ht _]; auto|].
  apply hoare_pure. intros ->.
  eapply run_bind; [apply (check_unchanged_spec created raw facts fd before)|]. intros [|]; cbn [negb].
  2: { apply run_ret. intros t [(_ & Ht & _) _]. apply outcome_silent; [exact Ht|]. vm_compute. do 3 right. left. }
  eapply run_bind.
  { eapply hoare_weaken; [apply (write_loop_spec fuel fd (record_of s email name) created)| |intros ok t H; exact H].
    intros t [(H1 & H2 & H3 & H4) HU]. destruct (HU eq_refl) as (after & named & U1 & U2 & U3). rewrite Forall_forall in H4.
    split; [|exact H1]. split_and!; auto; [now apply silent_effective|exists before, after, named; auto|].
    exists address, s, h0, h1. rewrite H3. split_and!; auto; [lia|].
    apply negb_false_iff in EF. unfold jf_bytes_fits in EF. apply andb_true_iff in EF as [E1 E2]. unfold size_t in E2.
    assert (0 <= zlen raw) by (unfold zlen; lia). unfold JF_INPUT_MAX in *. rewrite Z.mod_small in E2 by lia. lia. }
  intros [|]; cbn [negb]; [|apply run_ret; intros t _; now apply outcome_failed].
  eapply run_bind; [apply hoare_call_after; intros ?; reflexivity|].
  intros [|]; cbn [negb]; [|apply run_ret; intros t _; now apply outcome_failed].
  apply (run_bind _ _ _ (fun ok t => ok = true -> appended t)).
  - destruct created.
    + eapply hoare_weaken; [apply sync_parent_spec|intros t H; exact H|]. intros [|] t Ht; [|discriminate]. intros _.
      destruct Ht as (p & d & later & earlier & -> & A1 & A2 & _). apply Forall_cons in A2 as [A2 A3]. apply Forall_cons in A3 as [A3 A4].
      apply Forall_cons in A4 as [A4 _]. eexists _, _, later, earlier. split_and!; eauto.
    + apply run_ret. intros t (later & earlier & -> & A1 & A2 & A3) _. apply Forall_cons in A2 as [A2 _].
      eexists _, _, later, earlier. split_and!; eauto. rewrite A3; [discriminate|done].
  - intros [|]; apply run_ret; intros t Ht; [|now apply outcome_failed].
    unfold outcome. rewrite EC. split_and!; auto; [discriminate|intros [H|[H|H]]; discriminate|left].
Qed.

Lemma use_book_spec address created fd : canonical email = Some address ->
  hoare (At created [] []) (use_book fuel path email name address check created fd) outcome.
Proof.
  intros HA. unfold use_book.
  assert (forall raw facts rc e t, At created raw facts t -> rc ∈ [1; 3; 4; 6] -> outcome (rc, e) t) as HO.
  { intros raw facts rc e t (_ & Ht & _) H. now apply outcome_silent. }
  assert (3 ∈ [1; 3; 4; 6]) as H3 by (right; left).
  eapply run_bind; [apply run_call; intros ?; reflexivity|]. intros [before|]; [|apply run_ret; eauto].
  destruct (negb _); [apply run_ret; eauto|].
  eapply run_bind; [apply run_call; intros ?; reflexivity|]. intros [e|].
  { apply run_ret. intros t Ht. destruct (bool_decide _); [|eauto]. eapply (HO _ _ 6); [exact Ht|do 3 right; left]. }
  eapply run_bind; [now apply read_loop_spec|]. intros [raw|].
  2: { apply run_ret. intros t Ht. now apply outcome_silent. }
  eapply run_bind; [apply hoare_heap|]. intros r.
  apply hoare_pure. intros (h & Hh). destruct r as [| | |s].
  - apply run_ret. intros t Ht. apply (HO _ _ 4 _ _ Ht). do 2 right. left.
  - apply run_ret. eauto.
  - apply run_ret. intros t Ht. apply (HO _ _ 1 _ _ Ht). left.
  - destruct (scan_book (contents raw) address h) as [r h'] eqn:ES. cbn [fst] in Hh. subst r.
    eapply append_record_spec; [exact HA|exact ES|..].
    + intros EC. rewrite EC. right. left.
    + left.
    + right. right. left.
Qed.

Lemma close_outcome fd a : hoare (outcome a) (close_book fd) (fun _ => outcome a).
Proof.
  intros h t Hs (H1 & H2 & H3 & H4). cbn. split; [now split|]. intros r _. split_and!; auto.
  intros Ha Hc. destruct (H2 Ha Hc) as (f & d & later & earlier & -> & A1 & A2 & A3).
  exists f, d, (CloseBook fd (book_close (later ++ WriteBook f d (inr (length d)) :: earlier) fd) :: later), earlier. split_and!; auto; [now right|].
  intros HX. destruct (A3 HX) as (p & x & B1 & B2). exists p, x. split; now right.
Qed.

Lemma settle_outcome a t : outcome a t -> outcome (settle a) t.
Proof.
  intros H. unfold settle. destruct a as [rc e]. assert (forall e', outcome (rc, e') t) as K by (intros e'; exact H).
  destruct rc as [|[[]|[]|]|]; try exact H. destruct e; [exact H|]. apply K.
Qed.

Lemma contact_add_spec : hoare (fun t => t = []) (jf_contact_add fuel path email name check) outcome.
Proof.
  assert (forall rc e t, rc ∈ [1; 3; 4; 6] -> t = [] -> outcome (rc, e) t) as HO by (intros rc e t H ->; now apply outcome_silent).
  unfold jf_contact_add. destruct (_ || _); [apply run_ret; intros t Ht; apply HO; [do 2 right; left|exact Ht]|].
  eapply run_bind; [apply hoare_strdup|]. intros [|]; cbn [negb]; [|apply run_ret; intros t Ht; apply HO; [right; left|exact Ht]].
  destruct (canonical email) as [address|] eqn:HA; [|apply run_ret; intros t Ht; apply HO; [do 2 right; left|exact Ht]].
  eapply run_bind; [apply open_stage_spec|]. intros [rc|[fd created]].
  - apply run_ret. intros t [Ht [->|[-> Hc]]]; apply settle_outcome.
    + apply outcome_silent; [exact Ht|]. right. left.
    + unfold outcome. cbn. rewrite Hc. split_and!; auto; [discriminate|left].
  - eapply run_bind; [now apply use_book_spec|]. intros a. eapply run_bind; [apply close_outcome|]. intros ok.
    apply run_ret. apply settle_outcome.
Qed.

(** C25. Adding a contact never harms a book, whatever the system and other
    programs do.  Every write of every run, complete or cut anywhere, is of the
    record of this contact, at the end of a book that was locked, read to its end
    and scanned without the mailbox, and whose file was unchanged and still had
    its name; it is the only one that can take effect.  A check never writes; the
    statuses 1, 4 and 6 mean that nothing was written; 0 means that the record is
    whole and synchronised, with its directory when the book is new. *)
Theorem contact_add_safe h :
  let '(o, (_, t)) := jf_contact_add fuel path email name check (h, []) in
  safe t /\ forall rc e, o = Some (rc, e) ->
    rc ∈ [0; 1; 3; 4; 6] /\ (check = true -> silent t) /\ (rc = 0 -> check = false -> appended t) /\
    (rc = 1 \/ rc = 4 \/ rc = 6 -> silent t).
Proof.
  pose proof (contact_add_spec h [] I eq_refl) as [H1 H2].
  destruct (jf_contact_add fuel path email name check (h, [])) as [o [h' t]]. cbn [fst snd] in *.
  split; [exact H1|]. intros rc e ->. destruct (H2 _ eq_refl) as (A1 & A2 & A3 & A4). auto.
Qed.
End Runs.

(** ** Every run ends *)

Definition interrupted (c : call) : bool :=
  match c with ReadBook _ (inl EINTR) | WriteBook _ _ (inl EINTR) => true | _ => false end.
Definition interruptions (t : calls) : nat := length (List.filter interrupted t).

(** After [k] interruptions there are no more. *)
Definition patient `{BS : BookSystem} (k : nat) : Prop :=
  forall t, (k <= interruptions t)%nat -> (forall fd, book_read t fd <> inl EINTR) /\ (forall fd d, book_write t fd d <> inl EINTR).

Definition returns {A} (m : prog A) : Prop := forall w, exists a, (m w).1 = Some a.

Section Ends.
Context `{HP : Heap} `{BS : BookSystem} (k : nat) (Hk : patient k).

Lemma finish_ret {A} (a : A) : returns (mret a).
Proof. intros w. now exists a. Qed.
Lemma ends_call {A} (f : calls -> A) e : returns (call_ f e).
Proof. intros w. now exists (f w.2). Qed.
Lemma ends_strdup : returns strdup.
Proof. intros w. now eexists. Qed.
Lemma ends_heap {A} (f : nat -> A * nat) : returns (heap_ f).
Proof. intros w. unfold heap_. destruct (f w.1). now eexists. Qed.
Lemma finish_bind {A B} (m : prog A) (f : A -> prog B) : returns m -> (forall a, returns (f a)) -> returns (m ≫= f).
Proof.
  intros Hm Hf w. unfold mbind, prog_bind. destruct (Hm w) as [a E]. destruct (m w) as [o w']. cbn in E. subst o. apply Hf.
Qed.

Lemma fits_sum (a b limit : Z) : 0 <= a -> limit < 2 ^ 63 -> jf_bytes_fits a b limit = true -> a + b <= limit.
Proof.
  intros Ha Hl. unfold jf_bytes_fits. intros [H1 H2]%andb_true_iff. unfold size_t in H2. rewrite Z.mod_small in H2 by lia. lia.
Qed.

Lemma read_returns fd n : forall b h t, zlen (contents b) <= JF_INPUT_MAX ->
  (Z.to_nat (JF_INPUT_MAX - zlen (contents b)) + (k - interruptions t) < n)%nat -> exists a, (read_loop n fd b (h, t)).1 = Some a.
Proof.
  induction n as [|n IH]; intros b h t Hb Hn; [lia|]. cbn [read_loop]. unfold mbind, prog_bind, read_book, call_. cbn [fst snd].
  destruct (book_read t fd) as [e|d] eqn:E.
  - destruct e; try (now eexists). apply IH; [exact Hb|].
    assert (~ (k <= interruptions t)%nat) by (intros HK; now apply (proj1 (Hk t HK) fd)).
    unfold interruptions in *. cbn [List.filter interrupted length]. lia.
  - destruct (take 4096 d) as [|c d'] eqn:ED; [now eexists|]. unfold heap_. cbn [fst snd].
    destruct (jf_bytes_add_limit (c :: d') JF_INPUT_MAX (b, h)) as [[b' h']|] eqn:EA; [|now eexists]. cbn [mret prog_ret].
    pose proof (add_contents _ _ _ _ _ _ EA) as EC.
    assert (zlen (contents b) + zlen (c :: d') <= JF_INPUT_MAX) as HS.
    { apply fits_sum; [unfold zlen; lia|unfold JF_INPUT_MAX; lia|]. unfold jf_bytes_add_limit in EA.
      destruct (jf_bytes_fits _ _ _); [done|discriminate EA]. }
    assert (zlen (contents b') = zlen (contents b) + zlen (c :: d')) as EZ by (rewrite EC; unfold zlen; rewrite length_app; lia).
    apply IH; [lia|]. unfold interruptions in *. cbn [List.filter interrupted]. unfold zlen in *. cbn [length] in *. lia.
Qed.

Lemma write_returns fd data n : forall h t, (k - interruptions t < n)%nat -> exists a, (write_loop n fd data (h, t)).1 = Some a.
Proof.
  induction n as [|n IH]; intros h t Hn; [lia|]. cbn [write_loop]. unfold mbind, prog_bind, write_book, call_. cbn [fst snd].
  destruct (book_write t fd data) as [e|j] eqn:E; [|now eexists]. destruct e; try (now eexists). apply IH.
  assert (~ (k <= interruptions t)%nat) by (intros HK; now apply (proj2 (Hk t HK) fd data)).
  unfold interruptions in *. cbn [List.filter interrupted length]. lia.
Qed.

Ltac ends :=
  repeat first
    [ apply finish_ret | apply ends_call | apply ends_strdup | apply ends_heap
    | apply finish_bind; [|intros ?]
    | match goal with |- returns (if ?b then _ else _) => destruct b end
    | match goal with |- returns (match ?x with _ => _ end) => destruct x end ].

(** With finitely many interruptions every run ends, on a book of any size: a
    file that keeps growing is given up at the limit of the input. *)
Theorem contact_add_returns fuel path email name check :
  (Z.to_nat JF_INPUT_MAX + k < fuel)%nat -> returns (jf_contact_add fuel path email name check).
Proof.
  intros Hf. unfold jf_contact_add, open_stage, open_new, open_book, use_book, fstat_book, append_record, check_unchanged, fsync_book, sync_parent, close_book. ends.
  - intros [h t]. apply read_returns; unfold zlen, JF_INPUT_MAX in *; cbn [contents no_bytes length] in *; lia.
  - intros [h t]. apply write_returns. lia.
Qed.
End Ends.

(** ** A book in which a contact is added *)

Definition sample_book : bytes := str "[format]" ++ [LF] ++ str "program=abook" ++ [LF; LF] ++ str "[4]" ++ [LF] ++ str "email=Other@B.org, c@d.net" ++ [LF].
Definition sample_file : stat := MkStat 1 9 0 5 0 5 0 true 384 1 0.
Definition reads_done (t : calls) : bool := existsb (fun c => match c with ReadBook _ (inr _) => true | _ => false end) t.
Definition sample_system : BookSystem := {|
  book_open_new _ _ := inl EEXIST; book_open _ _ _ := inr 3; book_lstat _ _ := None; book_fstat _ _ := Some sample_file;
  book_stat _ _ := Some sample_file; book_lock _ _ _ := None;
  book_read t _ := if reads_done t then inr [] else if (interruptions t =? 0)%nat then inl EINTR else inr sample_book;
  book_write _ _ d := inr (length d); book_fsync _ _ := true; book_opendir _ _ := None; book_close _ _ := true |}.
Abbreviation sample_add := (jf_contact_add (HP := granting) (BS := sample_system) 9 (str "b")).

Lemma contact_add_safe_witness :
  (sample_add (str "a@b.org") (str "A B") false (0%nat, [])).1 = Some (0, None) /\
  appended (sample_add (str "a@b.org") (str "A B") false (0%nat, [])).2.2 /\
  (sample_add (str "other@b.org") [] false (0%nat, [])).1 = Some (1, None) /\
  silent (sample_add (str "other@b.org") [] false (0%nat, [])).2.2.
Proof.
  assert ((sample_add (str "a@b.org") (str "A B") false (0%nat, [])).1 = Some (0, None)) as E1 by (vm_compute; reflexivity).
  assert ((sample_add (str "other@b.org") [] false (0%nat, [])).1 = Some (1, None)) as E2 by (vm_compute; reflexivity).
  pose proof (contact_add_safe (HP := granting) (BS := sample_system) 9 (str "b") (str "a@b.org") (str "A B") false 0) as H1.
  pose proof (contact_add_safe (HP := granting) (BS := sample_system) 9 (str "b") (str "other@b.org") [] false 0) as H2.
  destruct (sample_add (str "a@b.org") (str "A B") false (0%nat, [])) as [o1 [h1 t1]], (sample_add (str "other@b.org") [] false (0%nat, [])) as [o2 [h2 t2]].
  cbn [fst snd] in *. destruct H1 as [_ H1], H2 as [_ H2]. split; [exact E1|]. split; [now apply (H1 0 None E1)|]. split; [exact E2|].
  apply (H2 1 None E2). now left.
Defined.

(** What that run appends. *)
Example sample_record : record_of (MkBook 5 1 true true) (str "a@b.org") (str "A B") =
  [LF] ++ str "[5]" ++ [LF] ++ str "name=A B" ++ [LF] ++ str "email=a@b.org" ++ [LF].
Proof. reflexivity. Qed.
