(* ===== verification/Files.v ===== *)
(** * A directory tree that survives power loss

    The files of the native engine: directories known by number, entries under a
    directory and a name, and for each entry what a loss of power may leave of it.
    An entry that was changed and whose directory was not synchronised since may
    come back as any of the values it had; a file that was written and not
    synchronised may come back with any bytes and mode.  System calls are programs
    over this tree; an oracle decides which of them fail, are short, or are the
    last that the process makes. *)
From stdpp Require Import gmap.
From S2P Require Import Prelude Bytes.

(** ** The tree *)

(** A directory and a name in it. *)
Abbreviation key := (Z * bytes)%type.

Record leaf := Leaf { l_data : bytes; l_mode : Z; l_links : Z; l_synced : bool }.

Inductive node :=
  | File (l : leaf)
  | Link (target : bytes)
  | Folder (number mode : Z)
  | Special.

#[export] Instance key_eq : EqDecision key := prod_eq_dec.
#[export] Instance key_countable : Countable key := prod_countable.
Abbreviation disk := (@gmap key key_eq key_countable node).

(** What programs see, and the other values that the power may leave an entry
    with. *)
Record store := Store { now : disk; older : key -> list (option node); next_number : Z }.

(** What a loss of power makes of a node. *)
Definition decays (n n' : node) : Prop :=
  match n, n' with
  | File l, File l' => l_synced l = true -> l' = l
  | File _, _ => False
  | _, _ => n' = n
  end.

Definition survives (o o' : option node) : Prop :=
  match o, o' with
  | None, None => True
  | Some n, Some n' => decays n n'
  | _, _ => False
  end.

(** The trees that the power may leave: each entry has one of its values. *)
Definition crash (s : store) (d : disk) : Prop :=
  forall k, exists o, (o = now s !! k \/ o ∈ older s k) /\ survives o (d !! k).

(** The system that starts on such a tree: all of it is on the medium. *)
Definition on_medium (n : node) : node :=
  match n with File l => File (Leaf (l_data l) (l_mode l) (l_links l) true) | _ => n end.
Definition boot (d : disk) (next : Z) : store := Store (fmap (M := @gmap key key_eq key_countable) on_medium d) (fun _ => []) next.

Definition upd (k : key) (o : option node) (d : disk) : disk :=
  match o with Some n => <[k := n]> d | None => delete k d end.

(** A change of an entry, and a change of the node that it names. *)
Definition put (k : key) (o : option node) (s : store) : store :=
  Store (upd k o (now s)) (fun k' => if decide (k' = k) then now s !! k :: older s k else older s k') (next_number s).
Definition poke (k : key) (o : option node) (s : store) : store :=
  Store (upd k o (now s)) (older s) (next_number s).
(** [fsync] of a directory. *)
Definition settle (d : Z) (s : store) : store :=
  Store (now s) (fun k => if k.1 =? d then [] else older s k) (next_number s).

(** The names in a directory. *)
Definition listing (d : Z) (m : disk) : list bytes :=
  map snd (List.filter (fun k => k.1 =? d) (map fst (map_to_list m))).

(** ** Programs *)

(** The failures that do not come from the tree: an error that tells about an
    entry, like [ENOENT], is never among them. *)
Inductive trouble := Interrupted | Denied | Busy | Exhausted | Broken.
Definition errno_of (t : trouble) : errno :=
  match t with Interrupted => EINTR | Denied => EACCES | Busy => EAGAIN | Exhausted => ENOMEM | Broken => EOTHER 5 end.

(** What becomes of a call: it is made, fails, is short, or the process ends
    before it. *)
Inductive answer := Fine | Fails (t : trouble) | Short (n : nat) | Cut.

(** The kernel and the other processes: the answer to the n-th call, the random
    part of a temporary name, the directory a path leads to, and what others left
    of the tree when a lock is taken. *)
Class Kernel := {
  answers : nat -> answer;
  random_name : nat -> bytes;
  leads_to : nat -> bytes -> option Z;
  others : nat -> store -> store }.

Record world := World {
  st : store; tick : nat; last_errno : errno; heap : nat; held : bool; reported : option jf_error }.

(** A program, from a state to a result and a state; [None] when the process was
    cut, or when a loop used up its fuel. *)
Definition fio (A : Type) : Type := world -> option A * world.
#[export] Instance fio_ret : MRet fio := fun A a w => (Some a, w).
#[export] Instance fio_bind : MBind fio := fun A B f m w =>
  match m w with (Some a, w') => f a w' | (None, w') => (None, w') end.
Definition cut {A} : fio A := fun w => (None, w).

Definition with_st (s : store) (w : world) : world :=
  World s (tick w) (last_errno w) (heap w) (held w) (reported w).
Definition with_errno (e : errno) (w : world) : world :=
  World (st w) (tick w) e (heap w) (held w) (reported w).
Definition next_tick (w : world) : world :=
  World (st w) (S (tick w)) (last_errno w) (heap w) (held w) (reported w).

(** [errno], read and assigned. *)
Definition get_errno : fio errno := fun w => (Some (last_errno w), w).
Definition set_errno (e : errno) : fio unit := fun w => (Some tt, with_errno e w).
(** The error record that the caller passes by reference. *)
Definition report (e : jf_error) : fio unit := fun w =>
  (Some tt, World (st w) (tick w) (last_errno w) (heap w) (held w) (Some e)).

Definition clear_error : fio unit := fun w =>
  (Some tt, World (st w) (tick w) (last_errno w) (heap w) (held w) None).

(** A step over a buffer and the heap. *)
Definition with_heap {A} (f : nat -> option A * nat) : fio (option A) := fun w =>
  let '(a, h) := f (heap w) in
  (Some a, World (st w) (tick w) (last_errno w) h (held w) (reported w)).

Section Calls.
Context `{KN : Kernel} `{HP : Heap}.

(** One call: [f] is given how much of it is made, if it is short. *)
Definition call {A} (f : option nat -> store -> (errno + A) * store) : fio (errno + A) := fun w =>
  let made (short : option nat) :=
    match f short (st w) with
    | (inl e, s) => (Some (inl e), with_errno e (with_st s (next_tick w)))
    | (inr a, s) => (Some (inr a), with_st s (next_tick w))
    end in
  match answers (tick w) with
  | Cut => (None, w)
  | Fails t => (Some (inl (errno_of t)), with_errno (errno_of t) (next_tick w))
  | Fine => made None
  | Short n => made (Some n)
  end.

(** A call that changes nothing, and one whose value does not matter. *)
Definition query {A} (f : store -> errno + A) : fio (errno + A) := call (fun _ s => (f s, s)).
Definition done (e : errno + unit) : bool := match e with inr _ => true | inl _ => false end.
Definition ok (m : fio (errno + unit)) : fio bool := r ← m; mret (done r).

Definition malloc : fio bool := with_heap (fun h => (if malloc_ok h then Some tt else None, S h)) ≫=
  fun r => mret match r with Some _ => true | None => false end.
(** An append to a buffer, which may run out of memory. *)
Definition add_limit (d : bytes) (limit : Z) (b : jf_bytes) : fio (option jf_bytes) :=
  with_heap (fun h => match jf_bytes_add_limit d limit (b, h) with
                      | Some (b', h') => (Some b', h')
                      | None => (None, S h)
                      end).

Definition fsync_dir (d : Z) : fio bool := ok (call (fun _ s => (inr tt, settle d s))).
Definition close : fio bool := ok (query (fun _ => inr tt)).
Definition dup (d : Z) : fio (errno + Z) := query (fun _ => inr d).

(** [open] of a path to a directory, [openat] of a directory, and its [fstat]. *)
Definition open_path (path : bytes) : fio (errno + Z) := fun w =>
  query (fun _ => match leads_to (tick w) path with Some d => inr d | None => inl ENOENT end) w.
Definition open_directory (k : key) : fio (errno + Z) := query (fun s =>
  match now s !! k with
  | Some (Folder d _) => inr d
  | Some _ => inl ENOTDIR
  | None => inl ENOENT
  end).
(** [fstat] of what a descriptor was opened on; no entry is renamed or removed
    while the code has it open. *)
Definition fstat (k : key) : fio (errno + node) := query (fun s =>
  match now s !! k with Some n => inr n | None => inl ENOENT end).
Definition fstatat (k : key) : fio (errno + node) := fstat k.

Definition mkdirat (k : key) (mode : Z) : fio (errno + unit) := call (fun _ s =>
  match now s !! k with
  | Some _ => (inl EEXIST, s)
  | None =>
      let s' := put k (Some (Folder (next_number s) mode)) s in
      (inr tt, Store (now s') (older s') (next_number s + 1))
  end).

(** [openat] to read, that follows no link. *)
Definition open_read (k : key) : fio (errno + unit) := query (fun s =>
  match now s !! k with
  | Some (Link _) => inl ELOOP
  | Some _ => inr tt
  | None => inl ENOENT
  end).
Definition new_leaf : leaf := Leaf [] 384 1 false.
(** [openat] with [O_CREAT|O_EXCL], mode 0600. *)
Definition open_new (k : key) : fio (errno + unit) := call (fun _ s =>
  match now s !! k with
  | Some _ => (inl EEXIST, s)
  | None => (inr tt, put k (Some (File new_leaf)) s)
  end).
(** [openat] of the lock file, to read and write. *)
Definition open_lock (k : key) (create : bool) : fio (errno + unit) := call (fun _ s =>
  match now s !! k with
  | Some (Link _) => (inl ELOOP, s)
  | Some (Folder _ _) => (inl EISDIR, s)
  | Some _ => (inr tt, s)
  | None => if create then (inr tt, put k (Some (File new_leaf)) s) else (inl ENOENT, s)
  end).

(** A read of at most [n] bytes at [pos]; only the end of the file gives none. *)
Definition read (k : key) (pos n : nat) : fio (errno + bytes) := call (fun short s =>
  (match now s !! k with
   | Some (File l) => inr (take (match short with Some m => Nat.min (S m) n | None => n end) (drop pos (l_data l)))
   | Some (Folder _ _) => inl EISDIR
   | _ => inl EINVAL
   end, s)).

Definition change_leaf (k : key) (f : leaf -> leaf) (s : store) : (errno + unit) * store :=
  match now s !! k with
  | Some (File l) => (inr tt, poke k (Some (File (f l))) s)
  | _ => (inl EINVAL, s)
  end.
(** A write at the end of the file. *)
Definition write (k : key) (data : bytes) : fio (errno + nat) := call (fun short s =>
  let m := match short with Some m => Nat.min m (length data) | None => length data end in
  match change_leaf k (fun l => Leaf (l_data l ++ take m data) (l_mode l) (l_links l) false) s with
  | (inr _, s') => (inr m, s')
  | (inl e, s') => (inl e, s')
  end).
Definition fsync_file (k : key) : fio bool :=
  ok (call (fun _ => change_leaf k (fun l => Leaf (l_data l) (l_mode l) (l_links l) true))).
Definition fchmod (k : key) (mode : Z) : fio bool :=
  ok (call (fun _ => change_leaf k (fun l => Leaf (l_data l) mode (l_links l) false))).

Definition unlinkat (k : key) : fio (errno + unit) := call (fun _ s =>
  match now s !! k with
  | None => (inl ENOENT, s)
  | Some (Folder _ _) => (inl EISDIR, s)
  | Some _ => (inr tt, put k None s)
  end).
Definition rmdirat (k : key) : fio (errno + unit) := call (fun _ s =>
  match now s !! k with
  | None => (inl ENOENT, s)
  | Some (Folder d _) =>
      match listing d (now s) with [] => (inr tt, put k None s) | _ => (inl ENOTEMPTY, s) end
  | Some _ => (inl ENOTDIR, s)
  end).

(** Whether [renameat] may replace an entry by another. *)
Definition replaces (n : node) (old : option node) (m : disk) : option errno :=
  match n, old with
  | _, None => None
  | Folder _ _, Some (Folder d _) => match listing d m with [] => None | _ => Some ENOTEMPTY end
  | Folder _ _, Some _ => Some ENOTDIR
  | _, Some (Folder _ _) => Some EISDIR
  | _, Some _ => None
  end.
Definition renameat (k k' : key) : fio bool := ok (call (fun _ s =>
  match now s !! k with
  | None => (inl ENOENT, s)
  | Some n =>
      match replaces n (now s !! k') (now s) with
      | Some e => (inl e, s)
      | None => (inr tt, if decide (k = k') then s else put k None (put k' (Some n) s))
      end
  end)).
Definition symlinkat (target : bytes) (k : key) : fio bool := ok (call (fun _ s =>
  match now s !! k with
  | Some _ => (inl EEXIST, s)
  | None => (inr tt, put k (Some (Link target)) s)
  end)).
Definition readlinkat (k : key) (n : nat) : fio (errno + bytes) := query (fun s =>
  match now s !! k with
  | Some (Link t) => inr (take n t)
  | Some _ => inl EINVAL
  | None => inl ENOENT
  end).

(** The entries that [readdir] gives, and whether it came to the end. *)
Definition readdir (d : Z) : fio (list bytes * bool) :=
  r ← call (fun short s =>
    let all := str "." :: str ".." :: listing d (now s) in
    (inr match short with Some n => (take n all, false) | None => (all, true) end, s));
  mret match r with inr p => p | inl _ => ([], false) end.

(** [mkdtemp] on a path whose directory is found again: the name it made. *)
Definition mkdtemp (path prefix : bytes) : fio (errno + bytes) := fun w =>
  match leads_to (tick w) path with
  | None => query (fun _ => inl ENOENT) w
  | Some d =>
      let name := prefix ++ random_name (tick w) in
      (r ← mkdirat (d, name) 448; mret match r with inr _ => inr name | inl e => inl e end) w
  end.

(** [fcntl] on the lock file.  A process that did not hold the lock finds the tree
    as the others left it. *)
Definition setlk : fio (errno + unit) := fun w =>
  match call (fun _ s => (inr tt, if held w then s else others (tick w) s)) w with
  | (Some (inr tt), w') => (Some (inr tt), World (st w') (tick w') (last_errno w') (heap w') true (reported w'))
  | r => r
  end.
Definition unlk : fio unit := fun w =>
  match query (fun _ => inr tt) w with
  | (Some (inr tt), w') => (Some tt, World (st w') (tick w') (last_errno w') (heap w') false (reported w'))
  | (Some (inl _), w') => (Some tt, w')
  | (None, w') => (None, w')
  end.
End Calls.

(** ** Locals and labels

    Programs with the locals of a function, and those that may also jump to a
    label at its end. *)
Definition stateful (S A : Type) : Type := S -> fio (A * S).
#[export] Instance stateful_ret S : MRet (stateful S) := fun A a s => mret (a, s).
#[export] Instance stateful_bind S : MBind (stateful S) := fun A B f m s => m s ≫= fun p => f p.1 p.2.
Definition lift {S A} (m : fio A) : stateful S A := fun s => m ≫= fun a => mret (a, s).
Definition change {S} (f : S -> S) : stateful S unit := fun s => mret (tt, f s).
Definition ask {S A} (f : S -> A) : stateful S A := fun s => mret (f s, s).

Definition jumping (S L A : Type) : Type := S -> fio ((L + A) * S).
#[export] Instance jumping_ret S L : MRet (jumping S L) := fun A a s => mret (inr a, s).
#[export] Instance jumping_bind S L : MBind (jumping S L) := fun A B f m s =>
  m s ≫= fun p => match p.1 with inr a => f a p.2 | inl l => mret (inl l, p.2) end.
Definition goto {S L A} (l : L) : jumping S L A := fun s => mret (inl l, s).
Definition run_ {S L A} (m : stateful S A) : jumping S L A := fun s => m s ≫= fun p => mret (inr p.1, p.2).
Definition calls {S L A} (m : fio A) : jumping S L A := run_ (lift m).
(** [if (m) goto l]: the status 0 goes on. *)
Definition must {S L} (l : L) (m : stateful S Z) : jumping S L unit :=
  run_ m ≫= fun rc => if rc =? 0 then mret tt else goto l.
(** [if ((rc = m)) goto l]. *)
Definition pass {S L} (l : Z -> L) (m : fio Z) : jumping S L unit :=
  calls m ≫= fun rc => if rc =? 0 then mret tt else goto (l rc).
Definition need {S L A} (l : L) (m : stateful S (option A)) : jumping S L A :=
  run_ m ≫= fun o => match o with Some a => mret a | None => goto l end.

(** ** Two kernels for the examples *)

(** No call fails. *)
Definition calm : Kernel := Build_Kernel (fun _ => Fine) (fun _ => str "aaaaaa") (fun _ _ => None) (fun _ s => s).
(** The process is cut at a call. *)
Definition cut_at (n : nat) : Kernel :=
  Build_Kernel (fun i => if (i =? n)%nat then Cut else Fine) (fun _ => str "aaaaaa") (fun _ _ => None) (fun _ s => s).
