(* ===== verification/FilesFacts.v ===== *)
(** * Reasoning about programs over the tree (Files)

    A specification of a program from a given store: what holds wherever it is cut,
    and what holds when it returns.  The rules of its constructs, a specification
    for each call, and the relation between the trees that a loss of power may
    leave before and after a change. *)
From stdpp Require Import gmap.
From S2P Require Import Prelude Bytes Files.

#[local] Opaque grow_capacity.

(** [m] run from [s] keeps [G], cut or not, and returns only with [Q]. *)
Definition hoare {A} (s : store) (m : fio A) (G : store -> Prop) (Q : A -> store -> Prop) : Prop :=
  forall w, st w = s -> G (st (m w).2) /\ forall a, (m w).1 = Some a -> Q a (st (m w).2).

(** A program that changes nothing. *)
Abbreviation quiet s m Q := (hoare s m (eq s) (fun a _ => Q a)).

Section Rules.
Context {A B : Type}.
Implicit Types (m : fio A) (G : store -> Prop).

Lemma hoare_ret s (a : A) G (Q : A -> store -> Prop) : G s -> Q a s -> hoare s (mret a) G Q.
Proof. intros HG HQ w <-. split; [exact HG|]. intros b [= <-]. exact HQ. Qed.

Lemma hoare_cut s G (Q : A -> store -> Prop) : G s -> hoare s cut G Q.
Proof. intros HG w <-. split; [exact HG|]. discriminate. Qed.

Lemma hoare_bind s m (f : A -> fio B) G Q Q' : hoare s m G Q ->
  (forall a s', G s' -> Q a s' -> hoare s' (f a) G Q') -> hoare s (m ≫= f) G Q'.
Proof.
  intros Hm Hf w Hw. destruct (Hm w Hw) as [HG HQ]. unfold mbind, fio_bind.
  destruct (m w) as [[a|] w']; [|now split]. exact (Hf a _ HG (HQ a eq_refl) w' eq_refl).
Qed.

(** The same, with the rest of the program in the postcondition. *)
Lemma hoare_seq s m (f : A -> fio B) G (Q : B -> store -> Prop) :
  hoare s m G (fun a s' => G s' -> hoare s' (f a) G Q) -> hoare s (m ≫= f) G Q.
Proof. intros H. eapply hoare_bind; [exact H|]. auto. Qed.

Lemma hoare_mono s m G G' Q Q' : hoare s m G Q ->
  (forall s', G s' -> G' s') -> (forall a s', G s' -> Q a s' -> Q' a s') -> hoare s m G' Q'.
Proof. intros H HG HQ w Hw. destruct (H w Hw) as [H1 H2]. split; [auto|]. intros a Ha. auto. Qed.

Lemma hoare_and s m G G' Q Q' : hoare s m G Q -> hoare s m G' Q' ->
  hoare s m (fun s' => G s' /\ G' s') (fun a s' => Q a s' /\ Q' a s').
Proof. intros H H' w Hw. destruct (H w Hw), (H' w Hw). split; auto. Qed.

(** A quiet program, alone and before another. *)
Lemma hoare_quiet s m G (Q : A -> store -> Prop) (Q0 : A -> Prop) : quiet s m Q0 -> G s -> (forall a, Q0 a -> Q a s) -> hoare s m G Q.
Proof. intros H HG HQ. eapply hoare_mono; [exact H|now intros ? <-|]. intros a ? <-. auto. Qed.

Lemma hoare_step s m (f : A -> fio B) G Q (Q0 : A -> Prop) : quiet s m Q0 -> G s ->
  (forall a, Q0 a -> hoare s (f a) G Q) -> hoare s (m ≫= f) G Q.
Proof.
  intros H HG Hf. eapply hoare_bind with (Q := fun a s' => s' = s /\ Q0 a).
  - eapply hoare_quiet; [exact H|exact HG|]. auto.
  - intros a s' _ [-> Ha]. auto.
Qed.

Lemma quiet_true s m (Q0 : A -> Prop) : quiet s m Q0 -> quiet s m (fun _ => True).
Proof. intros H. eapply hoare_mono; [exact H|auto|auto]. Qed.
End Rules.

Section Calls.
Context `{KN : Kernel} `{HP : Heap}.

Lemma hoare_call {A} s (f : option nat -> store -> (errno + A) * store) G (Q : errno + A -> store -> Prop) :
  G s -> (forall t, Q (inl (errno_of t)) s) -> (forall short, G (f short s).2 /\ Q (f short s).1 (f short s).2) ->
  hoare s (call f) G Q.
Proof.
  intros HG He Hf w <-. unfold call.
  assert (M : forall short,
    let r := match f short (st w) with
             | (inl e, s) => (Some (inl e), with_errno e (with_st s (next_tick w)))
             | (inr a, s) => (Some (inr a), with_st s (next_tick w)) end in
    G (st r.2) /\ forall a, r.1 = Some a -> Q a (st r.2)).
  { intros short. destruct (Hf short) as [H1 H2]. destruct (f short (st w)) as [[e|a] s']; cbn in *;
      (split; [exact H1|]); intros ? [= <-]; exact H2. }
  destruct (answers (tick w)); cbn; [apply M| |apply M|].
  - split; [exact HG|]. intros a [= <-]. apply He.
  - now split.
Qed.

Lemma quiet_query {A} s (f : store -> errno + A) (Q : errno + A -> Prop) :
  (forall t, Q (inl (errno_of t))) -> Q (f s) -> quiet s (query f) Q.
Proof. intros He Hf. apply hoare_call; [reflexivity|exact He|]. intros short. split; [reflexivity|exact Hf]. Qed.

Lemma hoare_ok s (m : fio (errno + unit)) G (Q : bool -> store -> Prop) :
  hoare s m G (fun r => Q (Files.done r)) -> hoare s (ok m) G Q.
Proof. intros H. unfold ok. eapply hoare_bind; [exact H|]. intros r s' HG HQ. now apply hoare_ret. Qed.

Lemma quiet_malloc s : quiet s malloc (fun _ => True).
Proof. intros w <-. unfold malloc, with_heap, mbind, fio_bind. cbn. now destruct (malloc_ok _). Qed.

Lemma quiet_add_limit s d limit b :
  quiet s (add_limit d limit b) (fun r => match r with Some b' => contents b' = contents b ++ d | None => True end).
Proof.
  intros w <-. unfold add_limit, with_heap. cbn. unfold jf_bytes_add_limit.
  destruct (negb _); cbn; [split; [reflexivity|intros ? [= <-]; exact I]|].
  destruct (_ <? _); [destruct (malloc_ok _)|]; cbn; (split; [reflexivity|intros ? [= <-]; now try exact I]).
Qed.

Lemma quiet_get_errno s : quiet s get_errno (fun _ => True).
Proof. intros w <-. now cbn. Qed.
Lemma quiet_set_errno s e : quiet s (set_errno e) (fun _ => True).
Proof. intros w <-. now cbn. Qed.
Lemma quiet_report s e : quiet s (report e) (fun _ => True).
Proof. intros w <-. now cbn. Qed.

Lemma quiet_close s : quiet s close (fun _ => True).
Proof. apply hoare_ok. now apply quiet_query. Qed.

Lemma quiet_dup s d : quiet s (dup d) (fun r => match r with inr d' => d' = d | inl _ => True end).
Proof. now apply quiet_query. Qed.

Lemma quiet_open_path s path : quiet s (open_path path) (fun _ => True).
Proof. intros w Hw. unfold open_path. apply (quiet_query s); auto. Qed.

Lemma quiet_open_directory s k :
  quiet s (open_directory k) (fun r => match r with inr d => exists m, now s !! k = Some (Folder d m) | inl _ => True end).
Proof. apply quiet_query; [auto|]. destruct (now s !! k) as [[]|]; eauto. Qed.

Lemma quiet_fstat s k : quiet s (fstat k) (fun r =>
  match r with inr n => now s !! k = Some n | inl e => e = ENOENT -> now s !! k = None end).
Proof. apply quiet_query; [now intros []|]. now destruct (now s !! k). Qed.

Lemma quiet_open_read s k : quiet s (open_read k) (fun _ => True).
Proof. now apply quiet_query. Qed.

Lemma quiet_read s k pos n : quiet s (read k pos n) (fun r =>
  match r with
  | inr d => exists l m, now s !! k = Some (File l) /\ d = take (Nat.min (S m) n) (drop pos (l_data l))
  | inl _ => True
  end).
Proof.
  apply hoare_call; [reflexivity|auto|]. intros short. split; [reflexivity|]. cbn.
  destruct (now s !! k) as [[l| | |]|]; auto. destruct short as [m|].
  - now exists l, m.
  - exists l, n. split; [reflexivity|]. f_equal. symmetry. apply (Nat.min_r (S n) n). lia.
Qed.

Lemma quiet_readlinkat s k n : quiet s (readlinkat k n) (fun r =>
  match r with inr t => exists u, now s !! k = Some (Link u) /\ t = take n u | inl e => e = ENOENT -> now s !! k = None end).
Proof. apply quiet_query; [now intros []|]. destruct (now s !! k) as [[]|]; eauto; discriminate. Qed.

Lemma quiet_readdir s d : quiet s (readdir d) (fun _ => True).
Proof.
  unfold readdir. eapply hoare_step with (Q0 := fun _ => True); [|reflexivity|intros; now apply hoare_ret].
  apply hoare_call; auto.
Qed.

(** The calls that change the tree: when they fail the store is the same. *)
Section Changes.
Variable G : store -> Prop.

Lemma hoare_fsync_dir s d (Q : bool -> store -> Prop) :
  G s -> Q false s -> G (settle d s) -> Q true (settle d s) -> hoare s (fsync_dir d) G Q.
Proof. intros. apply hoare_ok, hoare_call; cbn; auto. Qed.

Lemma hoare_open_new s k (Q : errno + unit -> store -> Prop) :
  G s -> (forall e, Q (inl e) s) -> (now s !! k = None -> G (put k (Some (File new_leaf)) s) /\ Q (inr tt) (put k (Some (File new_leaf)) s)) ->
  hoare s (open_new k) G Q.
Proof. intros HG He H. apply hoare_call; [auto..|]. intros _. destruct (now s !! k); cbn; auto. Qed.

Lemma hoare_change s k f (Q : errno + unit -> store -> Prop) :
  G s -> (forall e, Q (inl e) s) ->
  (forall l, now s !! k = Some (File l) -> G (poke k (Some (File (f l))) s) /\ Q (inr tt) (poke k (Some (File (f l))) s)) ->
  hoare s (call (fun _ => change_leaf k f)) G Q.
Proof. intros HG He H. apply hoare_call; [auto..|]. intros _. unfold change_leaf. destruct (now s !! k) as [[]|]; cbn; auto. Qed.

Lemma hoare_fsync_file s k (Q : bool -> store -> Prop) :
  G s -> Q false s ->
  (forall l, now s !! k = Some (File l) ->
     let s' := poke k (Some (File (Leaf (l_data l) (l_mode l) (l_links l) true))) s in G s' /\ Q true s') ->
  hoare s (fsync_file k) G Q.
Proof. intros. apply hoare_ok, hoare_change; auto. Qed.

Lemma hoare_fchmod s k mode (Q : bool -> store -> Prop) :
  G s -> Q false s ->
  (forall l, now s !! k = Some (File l) ->
     let s' := poke k (Some (File (Leaf (l_data l) mode (l_links l) false))) s in G s' /\ Q true s') ->
  hoare s (fchmod k mode) G Q.
Proof. intros. apply hoare_ok, hoare_change; auto. Qed.

Lemma hoare_write s k data (Q : errno + nat -> store -> Prop) :
  G s -> (forall e, Q (inl e) s) ->
  (forall l m, (m <= length data)%nat -> now s !! k = Some (File l) ->
     let s' := poke k (Some (File (Leaf (l_data l ++ take m data) (l_mode l) (l_links l) false))) s in G s' /\ Q (inr m) s') ->
  hoare s (write k data) G Q.
Proof.
  intros HG He H. apply hoare_call; [auto..|]. intros short. unfold change_leaf.
  destruct (now s !! k) as [[l| | |]|]; cbn; auto. apply (H l); [destruct short; lia|reflexivity].
Qed.

Lemma hoare_unlinkat s k (Q : errno + unit -> store -> Prop) :
  G s -> (forall e, e <> ENOENT -> Q (inl e) s) -> (now s !! k = None -> Q (inl ENOENT) s) ->
  (G (put k None s) /\ Q (inr tt) (put k None s)) -> hoare s (unlinkat k) G Q.
Proof.
  intros HG He Hn H. apply hoare_call; [auto| |].
  - intros []; apply He; discriminate.
  - intros _. destruct (now s !! k) as [[]|]; cbn; auto; split; auto; apply He; discriminate.
Qed.

Lemma hoare_renameat s k k' (Q : bool -> store -> Prop) : k <> k' ->
  G s -> Q false s ->
  (forall n, now s !! k = Some n -> let s' := put k None (put k' (Some n) s) in G s' /\ Q true s') ->
  hoare s (renameat k k') G Q.
Proof.
  intros Hk HG He H. apply hoare_ok, hoare_call; [auto..|]. intros _.
  destruct (now s !! k) as [n|]; cbn; [|auto]. destruct (replaces _ _ _); cbn; [auto|].
  destruct (decide (k = k')); [contradiction|]. now apply H.
Qed.

Lemma hoare_symlinkat s t k (Q : bool -> store -> Prop) :
  G s -> Q false s -> (now s !! k = None -> let s' := put k (Some (Link t)) s in G s' /\ Q true s') ->
  hoare s (symlinkat t k) G Q.
Proof. intros HG He H. apply hoare_ok, hoare_call; [auto..|]. intros _. destruct (now s !! k); cbn; auto. Qed.
End Changes.
End Calls.

(** ** What a loss of power may leave *)

Implicit Types (k : key) (ks : list key) (o : option node) (d m : disk) (s : store).

Lemma lookup_upd k (o : option node) (d : disk) : upd k o d !! k = o.
Proof. destruct o; cbn; [apply lookup_insert_eq|apply lookup_delete_eq]. Qed.
Lemma lookup_upd_ne k k' (o : option node) (d : disk) : k' <> k -> upd k o d !! k' = d !! k'.
Proof. intros H. destruct o; cbn; [apply lookup_insert_ne|apply lookup_delete_ne]; congruence. Qed.

Lemma survives_refl o : survives o o.
Proof. destruct o as [[]|]; cbn; auto. Qed.

(** A property of every tree that may be left, the present one among them. *)
Definition always (I : disk -> Prop) (s : store) : Prop := forall d, crash s d -> I d.

Lemma crash_now s : crash s (now s).
Proof. intros k. exists (now s !! k). split; [now left|apply survives_refl]. Qed.

Lemma always_now I s : always I s -> I (now s).
Proof. intros H. apply H, crash_now. Qed.

Lemma always_mono (I I' : disk -> Prop) s : always I s -> (forall d, I d -> I' d) -> always I' s.
Proof. intros H H' d Hd. apply H', H, Hd. Qed.

Lemma always_and (I I' : disk -> Prop) s : always I s -> always I' s -> always (fun d => I d /\ I' d) s.
Proof. intros H H' d Hd. split; [now apply H|now apply H']. Qed.

(** A program leaves all but some entries as they were, or synchronised. *)
Definition frame (ks : list key) (s s' : store) : Prop :=
  forall k, k ∉ ks -> now s' !! k = now s !! k /\ (older s' k = older s k \/ older s' k = []).

Lemma frame_refl ks s : frame ks s s.
Proof. intros k _. auto. Qed.

Lemma frame_trans ks s1 s2 s3 : frame ks s1 s2 -> frame ks s2 s3 -> frame ks s1 s3.
Proof.
  intros H1 H2 k Hk. destruct (H1 k Hk) as [E1 O1], (H2 k Hk) as [E2 O2]. split; [congruence|].
  destruct O2 as [->|]; auto.
Qed.

Lemma frame_weaken ks ks' s s' : ks ⊆ ks' -> frame ks s s' -> frame ks' s s'.
Proof. intros H F k Hk. apply F. set_solver. Qed.

Lemma frame_put k o s : frame [k] s (put k o s).
Proof.
  intros k' Hk. rewrite list_elem_of_singleton in Hk. cbn. rewrite lookup_upd_ne by congruence.
  rewrite decide_False by congruence. auto.
Qed.
Lemma frame_poke k o s : frame [k] s (poke k o s).
Proof. intros k' Hk. rewrite list_elem_of_singleton in Hk. cbn. rewrite lookup_upd_ne by congruence. auto. Qed.
Lemma frame_settle (d : Z) s : frame [] s (settle d s).
Proof. intros k _. cbn. destruct (k.1 =? d); auto. Qed.

(** A property that does not depend on some entries. *)
Definition stable (I : disk -> Prop) (ks : list key) : Prop :=
  forall d d', (forall k, k ∉ ks -> d' !! k = d !! k) -> I d -> I d'.

Definition overlay (ks : list key) (m d : disk) : disk := foldr (fun k d => upd k (m !! k) d) d ks.

Lemma lookup_overlay ks (m d : disk) k : overlay ks m d !! k = if decide (k ∈ ks) then m !! k else d !! k.
Proof.
  induction ks as [|k' ks IH]; [reflexivity|]. cbn [overlay foldr]. fold (overlay ks m d).
  destruct (decide (k = k')) as [->|Hne].
  - rewrite lookup_upd, decide_True by apply list_elem_of_here. reflexivity.
  - rewrite lookup_upd_ne, IH by exact Hne. destruct (decide (k ∈ ks)) as [H|H].
    + now rewrite decide_True by (apply elem_of_cons; auto).
    + rewrite decide_False; [reflexivity|]. rewrite elem_of_cons. intuition.
Qed.

Lemma crash_frame ks s s' d : frame ks s s' -> crash s' d ->
  exists d0, crash s d0 /\ forall k, k ∉ ks -> d !! k = d0 !! k.
Proof.
  intros F C. exists (overlay ks (now s) d). split.
  - intros k. rewrite lookup_overlay. destruct (decide (k ∈ ks)) as [H|H].
    + exists (now s !! k). split; [now left|apply survives_refl].
    + destruct (C k) as (o & Ho & Hs). destruct (F k H) as [E O]. exists o. split; [|exact Hs].
      destruct Ho as [->|Ho]; [now left|]. destruct O as [<-|O]; [now right|]. rewrite O in Ho. now apply elem_of_nil in Ho.
  - intros k Hk. now rewrite lookup_overlay, decide_False.
Qed.

Lemma always_frame I ks s s' : frame ks s s' -> stable I ks -> always I s -> always I s'.
Proof.
  intros F S H d Hd. destruct (crash_frame ks s s' d F Hd) as (d0 & H0 & He). apply (S d0); [exact He|]. now apply H.
Qed.

(** The trees after an entry is changed. *)
Lemma always_put (I I' : disk -> Prop) k o s : always I s -> (forall d, I d -> I' d) ->
  (forall d d0, I d0 -> survives o (d !! k) -> (forall k', k' <> k -> d !! k' = d0 !! k') -> I' d) -> always I' (put k o s).
Proof.
  intros H H1 H2 d Hd. destruct (Hd k) as (x & Hx & Hs). cbn in Hx.
  rewrite lookup_upd, decide_True in Hx by reflexivity. destruct Hx as [->|Hx].
  - apply (H2 d (upd k (now s !! k) d)); [|exact Hs|intros k' Hk; now rewrite lookup_upd_ne].
    apply H. intros k'. destruct (decide (k' = k)) as [->|Hne].
    + rewrite lookup_upd. exists (now s !! k). split; [now left|apply survives_refl].
    + rewrite lookup_upd_ne by exact Hne. destruct (Hd k') as (y & Hy & Hs'). exists y. split; [|exact Hs'].
      cbn in Hy. rewrite lookup_upd_ne in Hy by exact Hne. now rewrite decide_False in Hy by exact Hne.
  - apply H1, H. intros k'. destruct (decide (k' = k)) as [->|Hne].
    + apply elem_of_cons in Hx. eauto.
    + destruct (Hd k') as (y & Hy & Hs'). exists y. split; [|exact Hs'].
      cbn in Hy. rewrite lookup_upd_ne in Hy by exact Hne. now rewrite decide_False in Hy by exact Hne.
Qed.

(** The trees after a directory was synchronised. *)
Lemma always_settle I s (d : Z) : always I s ->
  always (fun x => I x /\ forall n, survives (now s !! (d, n)) (x !! (d, n))) (settle d s).
Proof.
  intros H x Hx. split.
  - apply H. intros k. destruct (Hx k) as (o & Ho & Hs). exists o. split; [|exact Hs].
    cbn in Ho. destruct (k.1 =? d); [|exact Ho]. destruct Ho as [Ho|Ho]; [now left|]. now apply elem_of_nil in Ho.
  - intros n. destruct (Hx (d, n)) as (o & Ho & Hs). cbn in Ho. rewrite Z.eqb_refl in Ho.
    destruct Ho as [->|Ho]; [exact Hs|]. now apply elem_of_nil in Ho.
Qed.

(** An entry that has one value only. *)
Definition settled (s : store) (k : key) : Prop := older s k = [].

Lemma settled_crash s k d : settled s k -> crash s d -> survives (now s !! k) (d !! k).
Proof.
  intros H C. destruct (C k) as (o & Ho & Hs). rewrite H in Ho. destruct Ho as [->|Ho]; [exact Hs|]. now apply elem_of_nil in Ho.
Qed.

Lemma settled_frame ks s s' k : frame ks s s' -> k ∉ ks -> settled s k -> settled s' k.
Proof. intros F Hk H. destruct (F k Hk) as [_ [O|O]]; unfold settled in *; congruence. Qed.

Lemma settled_settle s (d : Z) n : settled (settle d s) (d, n).
Proof. unfold settled. cbn. now rewrite Z.eqb_refl. Qed.

Lemma settled_boot d n k : settled (boot d n) k.
Proof. reflexivity. Qed.

Lemma stable_and (I I' : disk -> Prop) keys : stable I keys -> stable I' keys -> stable (fun d => I d /\ I' d) keys.
Proof. intros S S' d d' He []. split; [eapply S|eapply S']; eassumption. Qed.
Lemma stable_sub (I : disk -> Prop) keys keys' : stable I keys -> keys' ⊆ keys -> stable I keys'.
Proof. intros S H d d' He. apply S. intros k Hk. apply He. set_solver. Qed.

(** A frame is kept by every step inside it. *)
Lemma hoare_frame {A} s (m : fio A) ks (Q : A -> store -> Prop) : hoare s m (frame ks s) Q ->
  forall s0, frame ks s0 s -> hoare s m (frame ks s0) Q.
Proof. intros H s0 H0. eapply hoare_mono; [exact H| |auto]. intros s' Hs. eapply frame_trans; eassumption. Qed.

Lemma quiet_frame {A} s (m : fio A) ks Q : quiet s m Q -> hoare s m (frame ks s) (fun a _ => Q a).
Proof. intros H. eapply hoare_mono; [exact H| |auto]. intros s' <-. apply frame_refl. Qed.

(** A system that was just started has one tree. *)
Lemma boot_lookup d n k : now (boot d n) !! k = on_medium <$> (d !! k).
Proof. apply lookup_fmap. Qed.

Lemma always_boot (I : disk -> Prop) d n : I (now (boot d n)) -> always I (boot d n).
Proof.
  intros H d' Hd. replace d' with (now (boot d n)); [exact H|]. apply map_eq. intros k. destruct (Hd k) as (o & Ho & Hs).
  destruct Ho as [->|Ho]; [|now apply elem_of_nil in Ho]. rewrite boot_lookup in *. destruct (d !! k) as [[]|]; cbn in *.
  1: { destruct (d' !! k) as [[]|]; try easy. now rewrite Hs. }
  all: destruct (d' !! k) as [[]|]; cbn in *; congruence || easy.
Qed.

(** ** Programs with locals that change nothing in the tree *)

Section Stateful.
Context {S : Type}.

(** From the locals [x]: the result and the locals; a jump promises nothing. *)
Definition ends {A} (s : store) (m : stateful S A) (x : S) (Q : A -> S -> Prop) : Prop := quiet s (m x) (fun r => Q r.1 r.2).
Definition runs {L A} (s : store) (m : jumping S L A) (x : S) (Q : A -> S -> Prop) : Prop :=
  quiet s (m x) (fun r => match r.1 with inr a => Q a r.2 | inl _ => True end).

Lemma ends_ret {A} s (a : A) x (Q : A -> S -> Prop) : Q a x -> ends s (mret a) x Q.
Proof. intros H. now apply hoare_ret. Qed.

Lemma ends_bind {A B} s (m : stateful S A) (f : A -> stateful S B) x Q :
  ends s m x (fun a y => ends s (f a) y Q) -> ends s (m ≫= f) x Q.
Proof. intros H. eapply hoare_step; [exact H|reflexivity|]. intros [a y] Ha. exact Ha. Qed.

Lemma ends_mono {A} s (m : stateful S A) x (Q Q' : A -> S -> Prop) : ends s m x Q -> (forall a y, Q a y -> Q' a y) -> ends s m x Q'.
Proof. intros H HQ. eapply hoare_quiet; [exact H|reflexivity|]. intros [a y]. apply HQ. Qed.

Lemma ends_lift {A} s (m : fio A) x (Q : A -> S -> Prop) : quiet s m (fun a => Q a x) -> ends s (lift m) x Q.
Proof. intros H. eapply hoare_step; [exact H|reflexivity|]. intros a Ha. now apply hoare_ret. Qed.

Lemma ends_change s (f : S -> S) x (Q : unit -> S -> Prop) : Q tt (f x) -> ends s (change f) x Q.
Proof. intros H. now apply hoare_ret. Qed.

Lemma ends_ask {A} s (f : S -> A) x (Q : A -> S -> Prop) : Q (f x) x -> ends s (ask f) x Q.
Proof. intros H. now apply hoare_ret. Qed.

Lemma runs_ret {L A} s (a : A) x (Q : A -> S -> Prop) : Q a x -> runs (L := L) s (mret a) x Q.
Proof. intros H. now apply hoare_ret. Qed.

Lemma runs_goto {L A} s (l : L) x (Q : A -> S -> Prop) : runs s (goto l) x Q.
Proof. now apply hoare_ret. Qed.

Lemma runs_bind {L A B} s (m : jumping S L A) (f : A -> jumping S L B) x Q :
  runs s m x (fun a y => runs s (f a) y Q) -> runs s (m ≫= f) x Q.
Proof. intros H. eapply hoare_step; [exact H|reflexivity|]. intros [[l|a] y] Ha; [now apply hoare_ret|exact Ha]. Qed.

Lemma runs_mono {L A} s (m : jumping S L A) x (Q Q' : A -> S -> Prop) : runs s m x Q -> (forall a y, Q a y -> Q' a y) -> runs s m x Q'.
Proof. intros H HQ. eapply hoare_quiet; [exact H|reflexivity|]. intros [[l|a] y]; [trivial|apply HQ]. Qed.

Lemma runs_run {L A} s (m : stateful S A) x (Q : A -> S -> Prop) : ends s m x Q -> runs (L := L) s (run_ m) x Q.
Proof. intros H. eapply hoare_step; [exact H|reflexivity|]. intros [a y] Ha. now apply hoare_ret. Qed.

Lemma runs_calls {L A} s (m : fio A) x (Q : A -> S -> Prop) : quiet s m (fun a => Q a x) -> runs (L := L) s (calls m) x Q.
Proof. intros H. now apply runs_run, ends_lift. Qed.

Lemma runs_must {L} s (l : L) (m : stateful S Z) x (Q : unit -> S -> Prop) : ends s m x (fun rc y => rc = 0 -> Q tt y) -> runs s (must l m) x Q.
Proof.
  intros H. apply runs_bind, runs_run. eapply ends_mono; [exact H|]. intros rc y Hq.
  destruct (Z.eqb_spec rc 0) as [E|]; [apply runs_ret; auto|apply runs_goto].
Qed.

Lemma runs_pass {L} s (l : Z -> L) (m : fio Z) x (Q : unit -> S -> Prop) : quiet s m (fun rc => rc = 0 -> Q tt x) -> runs s (pass l m) x Q.
Proof.
  intros H. apply runs_bind, runs_calls. eapply hoare_quiet; [exact H|reflexivity|]. intros rc Hq.
  destruct (Z.eqb_spec rc 0) as [E|]; [apply runs_ret; auto|apply runs_goto].
Qed.

Lemma runs_need {L A} s (l : L) (m : stateful S (option A)) x (Q : A -> S -> Prop) :
  ends s m x (fun v y => match v with Some a => Q a y | None => True end) -> runs s (need l m) x Q.
Proof.
  intros H. apply runs_bind, runs_run. eapply ends_mono; [exact H|].
  intros [a|] y Hq; [now apply runs_ret|apply runs_goto].
Qed.
End Stateful.

(** The labels that a program may jump to. *)
Definition leaves {S L A} (J : L -> Prop) (m : jumping S L A) : Prop :=
  forall x w l y, (m x w).1 = Some (inl l, y) -> J l.

Section Leaves.
Context {S L : Type} (J : L -> Prop).

Lemma leaves_ret {A} (a : A) : leaves J (mret a : jumping S L A).
Proof. intros x w l y H. discriminate. Qed.
Lemma leaves_goto {A} l : J l -> leaves J (goto l : jumping S L A).
Proof. intros HJ x w l' y [= <- <-]. exact HJ. Qed.
Lemma leaves_run {A} (m : stateful S A) : leaves J (run_ m).
Proof. intros x w l y. unfold run_, mbind, fio_bind. destruct (m x w) as [[[a z]|] w']; discriminate. Qed.
Lemma leaves_bind {A B} (m : jumping S L A) (f : A -> jumping S L B) :
  leaves J m -> (forall a, leaves J (f a)) -> leaves J (m ≫= f).
Proof.
  intros Hm Hf x w l y. unfold mbind, jumping_bind, mbind, fio_bind. specialize (Hm x w).
  destruct (m x w) as [[[[l'|a] z]|] w']; cbn [fst snd]; [|apply Hf|discriminate]. intros [= -> ->]. exact (Hm _ _ eq_refl).
Qed.
Lemma leaves_must l (m : stateful S Z) : J l -> leaves J (must l m).
Proof. intros HJ. apply leaves_bind; [apply leaves_run|]. intros rc. destruct (rc =? 0); [apply leaves_ret|now apply leaves_goto]. Qed.
Lemma leaves_need {A} l (m : stateful S (option A)) : J l -> leaves J (need l m).
Proof. intros HJ. apply leaves_bind; [apply leaves_run|]. intros [a|]; [apply leaves_ret|now apply leaves_goto]. Qed.
End Leaves.
