(* ===== verification/Generation.v ===== *)
(** * Installing generations (src/filter/generation.c)

    The public file, the selector of the current generation and the imported
    inputs are replaced in one transaction with a journal.  The operations on the
    files, the recovery of an unfinished transaction, the readers that pin a
    verified generation, and the publication, as programs over the tree of
    [Files]; the build without the test hooks. *)
From stdpp Require Import gmap.
From S2P Require Import Prelude Sha256 Rules Bytes Cache Import Files.

Definition valid_id (s : bytes) : bool :=
  (length s =? 64)%nat &&
  forallb (fun c => ((ch "0" <=? c) && (c <=? ch "9")) || ((ch "a" <=? c) && (c <=? ch "f"))) s.

Definition join (a b : bytes) : bytes := a ++ str "/" ++ b.

(** Descriptors of directories are their numbers, -1 when not open. *)
Record location := Location { l_root : Z; l_engine : Z; l_generations : Z; l_lock : bool }.
Definition no_location : location := Location (-1) (-1) (-1) false.

Record jf_generation := Generation {
  g_directory : Z; g_id : bytes; g_cache : jf_bytes; g_zsh : jf_bytes; g_sieve : jf_bytes }.
Definition no_generation : jf_generation := Generation (-1) [] no_bytes no_bytes no_bytes.

(** ** The texts of the journals *)

Definition isspace (c : Z) : bool := (c =? SP) || ((HT <=? c) && (c <=? CR)).

(** The conversions of [sscanf]: what was read and the rest. *)
Definition scan_word (n : nat) (s : bytes) : option (bytes * bytes) :=
  let s := drop_while isspace s in
  let w := take_while (fun c => negb (isspace c)) (take n s) in
  match w with [] => None | _ => Some (w, drop (length w) s) end.

(** [%1d]: a sign would use up the width. *)
Definition scan_digit (s : bytes) : option (Z * bytes) :=
  match drop_while isspace s with
  | c :: t => if (ch "0" <=? c) && (c <=? ch "9") then Some (c - ch "0", t) else None
  | [] => None
  end.

Definition is_octal (c : Z) : bool := (ch "0" <=? c) && (c <=? ch "7").
Definition octal_value (ds : bytes) : Z := fold_left (fun n c => n * 8 + (c - ch "0")) ds 0.
Definition scan_octal_digits (n : nat) (s : bytes) : option (Z * bytes) :=
  let ds := take_while is_octal (take n s) in
  match ds with [] => None | _ => Some (octal_value ds, drop (length ds) s) end.

(** [%3o] to an [unsigned]: a sign counts in the width, a negative number wraps. *)
Definition scan_octal (s : bytes) : option (Z * bytes) :=
  match drop_while isspace s with
  | c :: t =>
      if c =? ch "-" then
        match scan_octal_digits 2 t with Some (v, r) => Some ((- v) mod 2 ^ 32, r) | None => None end
      else if c =? ch "+" then scan_octal_digits 2 t
      else scan_octal_digits 3 (c :: t)
  | [] => None
  end.

(** The C string at the start of a buffer. *)
Definition c_string (s : bytes) : bytes := take_while (fun c => negb (c =? 0)) s.

(** [printf "%o"]. *)
Fixpoint octal_loop (fuel : nat) (n : Z) (acc : bytes) : bytes :=
  match fuel with
  | O => acc
  | S fuel' =>
      let acc := (ch "0" + n mod 8) :: acc in
      if n / 8 =? 0 then acc else octal_loop fuel' (n / 8) acc
  end.
Definition octal_of (n : Z) : bytes := octal_loop 11 n [].

Definition journal_text (old : bytes) (present mode : Z) (next : bytes) : bytes :=
  str "JFT1 " ++ old ++ str " " ++ decimal_of present ++ str " " ++ octal_of mode ++ str " " ++ next ++ [LF].

(** [sscanf] with the format of the journal: the fields, and how much was read. *)
Definition scan_journal (s : bytes) : option (bytes * Z * Z * bytes * nat) :=
  if negb (has_prefix (str "JFT1") s) then None
  else
    '(old, r) ← scan_word 64 (drop 4 s);
    '(present, r) ← scan_digit r;
    '(mode, r) ← scan_octal r;
    '(next, r) ← scan_word 64 r;
    Some (old, present, mode, next, (length s - length r)%nat).

Record journal := Journal { j_old : bytes; j_present : Z; j_mode : Z; j_next : bytes }.

(** The checks of [read_journal] on the bytes of the file. *)
Definition parse_journal (data : bytes) : option journal :=
  match scan_journal (c_string data) with
  | None => None
  | Some (old, present, mode, next, n) =>
      if negb (n + 1 =? length data)%nat || negb (at_ data n =? LF) ||
         (negb (streq old (str "-")) && negb (valid_id old)) || negb (valid_id next) ||
         (511 <? mode) || (negb (present =? 0) && negb (present =? 1)) then None
      else if negb (streq data (journal_text old present mode next)) then None
      else Some (Journal old present mode next)
  end.

Record input_line := InputLine { changed : Z; i_present : Z; i_mode : Z }.
Definition input_text (l : input_line) : bytes :=
  decimal_of (changed l) ++ str " " ++ decimal_of (i_present l) ++ str " " ++ octal_of (i_mode l) ++ [LF].

(** The loop of [recover_inputs] over the lines, from the offset on. *)
Fixpoint parse_inputs (n : nat) (data : bytes) : option (list input_line) :=
  match n with
  | O => if (length data =? 0)%nat then Some [] else None
  | S n' =>
      '(c, r) ← scan_digit (c_string data);
      '(p, r) ← scan_digit r;
      '(m, r) ← scan_octal r;
      let pos := (length (c_string data) - length r)%nat in
      let l := InputLine c p m in
      if (1 <? c) || (1 <? p) || (511 <? m) || negb (at_ data pos =? LF) then None
      else
        let text := input_text l in
        if negb (length text =? pos + 1)%nat || (length data <? length text)%nat ||
           negb (streq text (take (length text) data)) then None
        else rest ← parse_inputs n' (drop (length text) data); Some (l :: rest)
  end.

Definition input_name (i : nat) (suffix : bytes) : bytes :=
  str "import-" ++ decimal_of (Z.of_nat i) ++ str "." ++ suffix.
Definition import_target (i : nat) : bytes := nth i jf_import_names [].

Definition manifest_text (id c z s : bytes) : bytes :=
  let q := [DQ] in
  str "{" ++ q ++ str "schema" ++ q ++ str ":1," ++ q ++ str "generation" ++ q ++ str ":" ++ q ++ id ++ q ++ str "," ++
  q ++ str "policy_sha256" ++ q ++ str ":" ++ q ++ c ++ q ++ str "," ++
  q ++ str "zsh_sha256" ++ q ++ str ":" ++ q ++ z ++ q ++ str "," ++
  q ++ str "sieve_sha256" ++ q ++ str ":" ++ q ++ s ++ q ++ str "}" ++ [LF].

(** The bits of the names seen in a generation; [None] where the loop gives up. *)
Definition product_bit (name : bytes) : Z :=
  if streq name (str "policy.bin") then 1 else if streq name (str "filters.zsh") then 2
  else if streq name (str "Filters.sieve") then 4 else if streq name (str "manifest.json") then 8 else 0.
Fixpoint inventory (names : list bytes) (found : Z) : option Z :=
  match names with
  | [] => Some found
  | name :: t =>
      if streq name (str ".") || streq name (str "..") then inventory t found
      else
        let bit := product_bit name in
        if (bit =? 0) || negb (Z.land found bit =? 0) then None else inventory t (Z.lor found bit)
  end.

Definition selector_target (id : bytes) : bytes := str "generations/" ++ id.

Definition opened (r : errno + Z) : Z := match r with inr d => d | inl _ => -1 end.

(** [a || b || ...] over calls that may fail: whether all succeeded, up to the
    first that did not. *)
Fixpoint all_ok (l : list (fio bool)) : fio bool :=
  match l with
  | [] => mret true
  | m :: t => b ← m; if (b : bool) then all_ok t else mret false
  end.
(** A status of 0. *)
Definition zero (m : fio Z) : fio bool := rc ← m; mret (rc =? 0).
Definition status (b : bool) : Z := if b then 0 else 3.

Section Generation.
Context `{KN : Kernel} `{HP : Heap} (fuel : nat).

Definition close_directory (d : Z) : fio unit := if 0 <=? d then (_ ← close; mret tt) else mret tt.

Definition regular (k : key) : fio bool :=
  r ← fstat k;
  mret match r with inr (File l) => (l_mode l =? 384) && (l_links l =? 1) | _ => false end.

(** The loop over [read]; [pos] bytes were read so far. *)
Fixpoint load_loop (n : nat) (k : key) (pos : nat) (b : jf_bytes) (limit : Z) : fio (Z * jf_bytes) :=
  match n with
  | O => cut
  | S n' =>
      r ← read k pos (Z.to_nat 16384);
      match r with
      | inl EINTR => load_loop n' k pos b limit
      | inl _ => mret (3, b)
      | inr [] => mret (0, b)
      | inr d =>
          if negb (jf_bytes_fits (zlen (contents b)) (zlen d) limit) then mret (5, b)
          else
            a ← add_limit d limit b;
            match a with
            | Some b => load_loop n' k (pos + length d) b limit
            | None => mret (3, b)
            end
      end
  end.

(** The status, the buffer and the mode, if it was assigned. *)
Definition load_mode (k : key) (limit : Z) (private : bool) : fio (Z * jf_bytes * option Z) :=
  r ← open_read k;
  match r with
  | inl e => mret (match e with ENOENT | ELOOP => 5 | _ => 3 end, no_bytes, None)
  | inr _ =>
      s ← fstat k;
      '(rc, b, mode) ←
        match s with
        | inl _ => mret (3, no_bytes, None)
        | inr (File l) =>
            if private && (negb (l_mode l =? 384) || negb (l_links l =? 1)) then mret (5, no_bytes, None)
            else '(rc, b) ← load_loop fuel k 0 no_bytes limit; mret (rc, b, Some (l_mode l))
        | inr _ => mret (5, no_bytes, None)
        end;
      c ← close;
      mret (if negb c && (rc =? 0) then 3 else rc, b, mode)
  end.

Definition load (k : key) (limit : Z) : fio (Z * jf_bytes) :=
  '(rc, b, _) ← load_mode k limit true; mret (rc, b).

(** The loop over [write]. *)
Fixpoint save_loop (n : nat) (k : key) (data : bytes) : fio bool :=
  match n with
  | O => cut
  | S n' =>
      match data with
      | [] => mret true
      | _ =>
          r ← write k data;
          match r with
          | inl EINTR => save_loop n' k data
          | inl _ | inr O => mret false
          | inr m => save_loop n' k (drop m data)
          end
      end
  end.

Definition save (k : key) (data : bytes) : fio Z :=
  r ← open_new k;
  match r with
  | inl _ => mret 3
  | inr _ =>
      b ← all_ok [save_loop fuel k data; fsync_file k];
      c ← close;
      mret (if (c : bool) then status b else 3)
  end.

Definition directory (k : key) (create : bool) : fio Z :=
  made ← (if create then
            r ← mkdirat k 448;
            mret match r with inr _ | inl EEXIST => true | inl _ => false end
          else mret true);
  if negb made then mret (-1)
  else
    r ← open_directory k;
    match r with
    | inl _ => mret (-1)
    | inr d =>
        s ← fstat k;
        match s with
        | inr (Folder _ 448) => mret d
        | _ => _ ← close; _ ← set_errno EINVAL; mret (-1)
        end
    end.

Definition location_close (l : location) : fio unit :=
  _ ← (if l_lock l then _ ← close; mret tt else mret tt);
  _ ← close_directory (l_generations l);
  _ ← close_directory (l_engine l);
  close_directory (l_root l).

(** The label [bad] of [locate]. *)
Definition locate_bad (create : bool) (cache : Z) (l : location) : fio (Z * location) :=
  e ← get_errno;
  _ ← close_directory cache;
  _ ← location_close l;
  mret (if negb create && bool_decide (e = ENOENT) then 5 else 3, no_location).

Definition locate (root : bytes) (create : bool) : fio (Z * location) :=
  r ← open_path root;
  match r with
  | inl _ => mret (3, no_location)
  | inr root =>
      let l := Location root (-1) (-1) false in
      made ← (if create then
                m ← mkdirat (root, str "cache") 448;
                mret match m with inr _ | inl EEXIST => true | inl _ => false end
              else mret true);
      if negb made then locate_bad create (-1) l
      else
        c ← open_directory (root, str "cache");
        match c with
        | inl _ => locate_bad create (-1) l
        | inr cache =>
            engine ← directory (cache, str "filter-engine") create;
            if engine <? 0 then locate_bad create cache l
            else
              let l := Location root engine (-1) false in
              generations ← directory (engine, str "generations") create;
              if generations <? 0 then locate_bad create cache l
              else
                let l := Location root engine generations false in
                k ← open_lock (engine, str "lock") create;
                match k with
                | inl _ => locate_bad create cache l
                | inr _ =>
                    let l := Location root engine generations true in
                    good ← all_ok (regular (engine, str "lock") ::
                      if create then [fsync_dir generations; fsync_dir engine; fsync_dir cache; fsync_dir root] else []);
                    if (good : bool) then _ ← close; mret (0, l) else locate_bad create cache l
                end
        end
  end.

Definition lock : fio Z :=
  r ← setlk;
  mret match r with inr _ => 0 | inl EACCES | inl EAGAIN => 6 | inl _ => 3 end.
Definition unlock : fio unit := unlk.

Definition same_root (l : location) (path : bytes) : fio bool :=
  opened ← query (fun _ => inr (l_root l));
  match opened with
  | inl _ => mret false
  | inr d => current ← open_path path; mret match current with inr d' => d =? d' | inl _ => false end
  end.

(** 1, 0 or -1. *)
Definition exists_ (k : key) : fio Z :=
  r ← fstatat k;
  mret match r with inr _ => 1 | inl ENOENT => 0 | inl _ => -1 end.

(** The status and the identifier, empty when there is no selector. *)
Definition selector (l : location) : fio (Z * bytes) :=
  r ← readlinkat (l_engine l, str "current") 79;
  mret match r with
  | inl ENOENT => (0, [])
  | inl _ => (5, [])
  | inr t =>
      if negb (length t =? 76)%nat || negb (has_prefix (str "generations/") t) || negb (valid_id (drop 12 t))
      then (5, []) else (0, drop 12 t)
  end.

(** ** Generations *)

Definition manifest (g : jf_generation) : fio (Z * jf_bytes) :=
  let hex b := jf_digest_hex (digest_of (contents b)) in
  a ← add_limit (manifest_text (g_id g) (hex (g_cache g)) (hex (g_zsh g)) (hex (g_sieve g))) JF_CACHE_MAX no_bytes;
  mret match a with Some b => (0, b) | None => (3, no_bytes) end.

Definition jf_generation_close (g : jf_generation) : fio jf_generation :=
  _ ← close_directory (g_directory g); mret no_generation.

(** The checks after the inventory of the directory; [error] tells whether the
    caller gave a record for the error. *)
Definition validate_products (d : Z) (id : bytes) (error : bool) : fio (Z * jf_generation) :=
  '(rc, cache) ← load (d, str "policy.bin") JF_CACHE_FILE_MAX;
  if negb (rc =? 0) then mret (rc, no_generation) else
  '(rc, zsh) ← load (d, str "filters.zsh") JF_CACHE_MAX;
  if negb (rc =? 0) then mret (rc, no_generation) else
  '(rc, sieve) ← load (d, str "Filters.sieve") JF_CACHE_MAX;
  if negb (rc =? 0) then mret (rc, no_generation) else
  '(rc, actual) ← load (d, str "manifest.json") 4096;
  if negb (rc =? 0) then mret (rc, no_generation) else
  match jf_cache_validate (contents cache) (Some (contents zsh)) (Some (contents sieve)) None with
  | Fail rc e => _ ← (if error then report e else mret tt); mret (rc, no_generation)
  | Ok _ =>
      if negb (streq (jf_digest_hex (take 32 (drop 24 (contents cache)))) id) then mret (5, no_generation) else
      '(rc, expected) ← manifest (Generation (-1) id cache zsh sieve);
      if negb (rc =? 0) then mret (rc, no_generation) else
      if negb (streq (contents actual) (contents expected)) then mret (5, no_generation) else
      r ← dup d;
      mret match r with
      | inl _ => (3, no_generation)
      | inr d => (0, Generation d id cache zsh sieve)
      end
  end.

(** [fdopendir] of a duplicate, the names, and [closedir]. *)
Definition validate_directory (d : Z) (id : bytes) (error : bool) : fio (Z * jf_generation) :=
  copy ← dup d;
  match copy with
  | inl _ => mret (3, no_generation)
  | inr _ =>
      opened ← ok (query (fun _ => inr tt));
      if negb opened then _ ← close; mret (3, no_generation)
      else
        '(names, complete) ← readdir d;
        _ ← close;
        match inventory names 0 with
        | None => mret (5, no_generation)
        | Some found =>
            if negb complete then mret (3, no_generation)
            else if negb (found =? 15) then mret (5, no_generation)
            else validate_products d id error
        end
  end.

Definition jf_generation_open (g : jf_generation) (name : bytes) : fio (option key) :=
  if product_bit name =? 0 then _ ← set_errno EINVAL; mret None
  else
    r ← open_read (g_directory g, name);
    match r with
    | inl _ => mret None
    | inr _ =>
        good ← regular (g_directory g, name);
        if (good : bool) then mret (Some (g_directory g, name))
        else _ ← close; _ ← set_errno EINVAL; mret None
    end.

(** The status and the fields of the journal. *)
Definition read_journal (l : location) : fio (option journal) :=
  '(rc, b) ← load (l_engine l, str "journal") 256;
  if negb (rc =? 0) then mret None
  else
    z ← add_limit [0] JF_CACHE_MAX b;
    mret match z with Some _ => parse_journal (contents b) | None => None end.

(** The generation that a committed journal names. *)
Definition committed_journal (l : location) : fio (option bytes) :=
  j ← read_journal l;
  match j with
  | None => mret None
  | Some j =>
      '(rc, marker) ← load (l_engine l, str "committed") 64;
      if negb (rc =? 0) || negb (streq (contents marker) (j_next j)) then mret None
      else
        '(rc, selected) ← selector l;
        mret (if negb (rc =? 0) || negb (streq selected (j_next j)) then None else Some (j_next j))
  end.

Definition unfinished (l : location) : fio bool :=
  a ← exists_ (l_engine l, str "journal");
  b ← (if negb (a =? 0) then mret true
       else b ← exists_ (l_engine l, str "import.journal"); mret (negb (b =? 0)));
  if negb b then mret false
  else c ← committed_journal l; mret match c with Some _ => false | None => true end.

Definition public_status (l : location) (g : jf_generation) : fio Z :=
  '(rc, public) ← load (l_root l, str "Filters.sieve") JF_CACHE_MAX;
  mret (if negb (rc =? 0) then rc
        else if streq (contents public) (contents (g_sieve g)) then 0 else 5).

(** The public file is that of the committed generation, which is [g] or opened
    here. *)
Definition committed_public (l : location) (g : jf_generation) (id committed : bytes) (error : bool) : fio Z :=
  if streq id committed then public_status l g
  else
    d ← directory (l_generations l, committed) false;
    '(rc, current) ← (if d <? 0 then mret (5, no_generation) else validate_directory d committed error);
    rc ← (if rc =? 0 then public_status l current else mret rc);
    _ ← close_directory d;
    _ ← jf_generation_close current;
    mret rc.

Definition pin_locked (l : location) (requested : option bytes) (error : bool) : fio (Z * jf_generation) :=
  transaction ← exists_ (l_engine l, str "journal");
  pending ← (if negb (transaction =? 0) then mret true
             else i ← exists_ (l_engine l, str "import.journal"); mret (negb (i =? 0)));
  committed ← (if (pending : bool) then c ← committed_journal l; mret (match c with Some c => Some (Some c) | None => None end)
               else mret (Some None));
  match committed with
  | None => mret (5, no_generation)
  | Some committed =>
      '(rc, id) ← match requested with
                  | Some r => mret (if valid_id r then (0, r) else (5, []))
                  | None => '(rc, id) ← selector l;
                            mret (if negb (rc =? 0) || streq id [] then (5, []) else (0, id))
                  end;
      if negb (rc =? 0) then mret (5, no_generation)
      else
        d ← directory (l_generations l, id) false;
        if d <? 0 then mret (5, no_generation)
        else
          '(rc, g) ← validate_directory d id error;
          _ ← close;
          rc ← (if (rc =? 0) && negb (transaction =? 0) then
                  match committed with
                  | Some committed => committed_public l g id committed error
                  | None => mret rc
                  end
                else mret rc);
          if rc =? 0 then mret (0, g)
          else _ ← jf_generation_close g; mret (rc, no_generation)
  end.

Definition jf_generation_pin (root : bytes) (id : option bytes) : fio (Z * jf_generation) :=
  '(rc, l) ← locate root false;
  if negb (rc =? 0) then mret (rc, no_generation)
  else
    rc ← lock;
    '(rc, g) ← (if rc =? 0 then r ← pin_locked l id true; _ ← unlock; mret r else mret (rc, no_generation));
    _ ← location_close l;
    mret (rc, g).

(** ** The transaction *)

Definition copy_file (from to_ : key) : fio Z :=
  '(rc, b) ← load from JF_CACHE_MAX;
  if rc =? 0 then save to_ (contents b) else mret rc.

Definition remove_file (k : key) : fio Z :=
  r ← unlinkat k;
  mret match r with inr _ | inl ENOENT => 0 | inl _ => 3 end.

Definition set_selector (l : location) (id temporary : bytes) : fio Z :=
  let current := (l_engine l, str "current") in let temporary := (l_engine l, temporary) in
  if streq id [] then remove_file current
  else
    b ← all_ok [zero (remove_file temporary); symlinkat (selector_target id) temporary; renameat temporary current];
    mret (status b).

Definition cleanup_names : list bytes :=
  [str "export.backup"; str "export.next"; str "export.restore"; str "journal.next"; str "current.next";
   str "current.rollback"; str "committed.next"; str "committed"].

(** The journal is removed and synchronised first. *)
Definition cleanup_transaction (l : location) : fio Z :=
  let e := l_engine l in
  fenced ← all_ok [zero (remove_file (e, str "journal")); fsync_dir e];
  if negb fenced then mret 3
  else
    b ← all_ok (map (fun name => zero (remove_file (e, name))) cleanup_names ++ [fsync_dir e]);
    mret (status b).

(** A file of the engine gets its mode, is synchronised, and closed. *)
Definition fix_mode (k : key) (mode : Z) : fio bool :=
  r ← open_read k;
  match r with
  | inl _ => mret false
  | inr _ => b ← all_ok [fchmod k mode; fsync_file k]; _ ← close; mret b
  end.

(** [backup] is copied back over [target], or [target] is removed. *)
Definition restore_file (e : Z) (present : Z) (mode : Z) (backup restore : bytes) (target : key) : fio bool :=
  if negb (present =? 0) then
    all_ok [zero (remove_file (e, restore)); zero (copy_file (e, backup) (e, restore));
            fix_mode (e, restore) mode; renameat (e, restore) target]
  else zero (remove_file target).

Definition restore_input (l : location) (i : nat) (line : input_line) : fio bool :=
  if changed line =? 0 then mret true
  else restore_file (l_engine l) (i_present line) (i_mode line) (input_name i (str "backup")) (input_name i (str "restore"))
         (l_root l, import_target i).

Definition import_journal : bytes := str "import.journal".
Definition cleanup_inputs : list bytes :=
  flat_map (fun i => map (input_name i) [str "backup"; str "next"; str "restore"]) [0%nat; 1%nat; 2%nat; 3%nat] ++
  [str "import.journal.next"].

Definition read_inputs (l : location) : fio (option (list input_line)) :=
  '(rc, b) ← load (l_engine l, import_journal) 160;
  if negb (rc =? 0) then mret None
  else
    z ← add_limit [0] JF_CACHE_MAX b;
    mret match z with Some _ => parse_inputs 4 (contents b) | None => None end.

Definition recover_inputs (l : location) (committed : bool) : fio Z :=
  let e := l_engine l in
  x ← exists_ (e, import_journal);
  b ← (if x =? 0 then mret true
       else
         lines ← read_inputs l;
         match lines with
         | None => mret false
         | Some lines =>
             all_ok ((if committed then [] else imap (restore_input l) lines) ++
                     [fsync_dir (l_root l); fsync_dir e; zero (remove_file (e, import_journal)); fsync_dir e])
         end);
  if negb b then mret 3
  else
    b ← all_ok (map (fun name => zero (remove_file (e, name))) cleanup_inputs ++ [fsync_dir e]);
    mret (status b).

(** An input with its bytes, the bytes it shall have, and whether they differ. *)
Record input_change := InputChange {
  original : bytes; output : bytes; c_present : Z; c_mode : Z; c_changed : bool }.
Definition change_line (c : input_change) : input_line :=
  InputLine (if c_changed c then 1 else 0) (c_present c) (c_mode c).

(** The first loop of [prepare_inputs]: the journal, or [None] where it gives up. *)
Fixpoint stage_inputs (l : location) (i : nat) (cs : list input_change) (b : jf_bytes) : fio (option jf_bytes) :=
  match cs with
  | [] => mret (Some b)
  | c :: t =>
      good ← (if c_changed c then
                all_ok ((if negb (c_present c =? 0)
                         then [zero (save (l_engine l, input_name i (str "backup")) (original c))] else []) ++
                        [zero (save (l_engine l, input_name i (str "next")) (output c))])
              else mret true);
      if negb good then mret None
      else
        a ← add_limit (input_text (change_line c)) JF_CACHE_MAX b;
        match a with Some b => stage_inputs l (S i) t b | None => mret None end
  end.

Definition publish_input (l : location) (i : nat) (c : input_change) : fio bool :=
  if c_changed c then
    let k := (l_engine l, input_name i (str "next")) in
    all_ok [fix_mode k (c_mode c); renameat k (l_root l, import_target i)]
  else mret true.

Definition prepare_inputs (l : location) (cs : list input_change) : fio Z :=
  let e := l_engine l in
  j ← stage_inputs l 0 cs no_bytes;
  match j with
  | None => mret 3
  | Some j =>
      b ← all_ok ([zero (save (e, str "import.journal.next") (contents j));
                   renameat (e, str "import.journal.next") (e, import_journal); fsync_dir e] ++
                  imap (publish_input l) cs ++ [fsync_dir (l_root l)]);
      mret (status b)
  end.

(** The branch of [recover] where the journal is not committed. *)
Definition roll_back (l : location) (j : journal) : fio bool :=
  all_ok [restore_file (l_engine l) (j_present j) (j_mode j) (str "export.backup") (str "export.restore")
            (l_root l, str "Filters.sieve");
          zero (set_selector l (if streq (j_old j) (str "-") then [] else j_old j) (str "current.rollback"));
          fsync_dir (l_root l); fsync_dir (l_engine l)].

Definition recover (l : location) : fio Z :=
  let e := l_engine l in
  x ← exists_ (e, str "journal");
  if x =? 0 then
    rc ← recover_inputs l false;
    if rc =? 0 then cleanup_transaction l else mret 3
  else
    j ← read_journal l;
    match j with
    | None => mret 3
    | Some j =>
        c ← exists_ (e, str "committed");
        '(rc, committed) ←
          (if negb (c =? 0) then
             '(rc, marker) ← load (e, str "committed") 64;
             if negb (rc =? 0) || negb (streq (contents marker) (j_next j)) then mret (3, true)
             else '(rc, g) ← pin_locked l None false; _ ← jf_generation_close g; mret (rc, true)
           else b ← roll_back l j; mret (status b, false));
        if negb (rc =? 0) then mret rc
        else
          rc ← recover_inputs l committed;
          if rc =? 0 then cleanup_transaction l else mret rc
    end.

(** The label [done] of [publish]. *)
Definition publish_failed (l : location) (prepared : bool) : fio Z :=
  rc ← remove_file (l_engine l, str "committed");
  if negb (rc =? 0) then mret 3
  else
    again ← (if prepared then mret true
             else x ← exists_ (l_engine l, str "journal"); mret (x =? 1));
    _ ← (if (again : bool) then recover l else cleanup_transaction l);
    mret 3.

(** The backup of the public file: whether it was made, and the mode. *)
Definition back_up (l : location) (present : Z) : fio (bool * Z) :=
  if present =? 0 then mret (true, 384)
  else
    '(rc, b, mode) ← load_mode (l_root l, str "Filters.sieve") JF_CACHE_MAX false;
    let mode := match mode with Some m => m | None => 384 end in
    if negb (rc =? 0) then mret (false, mode)
    else rc ← save (l_engine l, str "export.backup") (contents b); mret (rc =? 0, mode).

(** The steps after the journal is in place. *)
Definition publish_prepared (l : location) (id : bytes) : fio bool :=
  let e := l_engine l in
  all_ok [renameat (e, str "export.next") (l_root l, str "Filters.sieve");
          zero (set_selector l id (str "current.next"));
          fsync_dir (l_root l); fsync_dir e;
          zero (save (e, str "committed.next") (take 64 id));
          renameat (e, str "committed.next") (e, str "committed"); fsync_dir e].

Definition publish (l : location) (old : bytes) (p : jf_products) : fio Z :=
  let e := l_engine l in
  present ← exists_ (l_root l, str "Filters.sieve");
  if present <? 0 then mret 3
  else
    '(saved, mode) ← back_up l present;
    if negb saved then publish_failed l false
    else
      let text := journal_text (if streq old [] then str "-" else old) present mode (pr_id p) in
      b ← all_ok [zero (save (e, str "export.next") (contents (pr_sieve p)));
                  zero (save (e, str "journal.next") text);
                  renameat (e, str "journal.next") (e, str "journal"); fsync_dir e];
      if negb b then publish_failed l false
      else
        b ← publish_prepared l (pr_id p);
        if (b : bool) then mret 0 else publish_failed l true.

(** The publication, unless the selected generation and the public file are those
    of the products and no input changes: the status, and whether it was done. *)
Definition publish_needed (l : location) (old : bytes) (p : jf_products) (inputs : bool) : fio (Z * bool) :=
  let publish_it := rc ← publish l old p; mret (rc, rc =? 0) in
  if streq old (pr_id p) && negb inputs then
    rc ← public_status l (Generation 0 [] no_bytes no_bytes (pr_sieve p));
    if rc =? 5 then publish_it else mret (rc, false)
  else publish_it.

(** The end of [jf_compile_import]: the inputs, the publication, and the recovery
    when it failed after the inputs were prepared. *)
Definition install (l : location) (old : bytes) (p : jf_products) (cs : list input_change) : fio (Z * bool) :=
  let count := existsb c_changed cs in
  rc ← (if count then prepare_inputs l cs else mret 0);
  '(rc, done) ← (if rc =? 0 then publish_needed l old p count else mret (rc, false));
  _ ← (if negb (rc =? 0) && count then
         _ ← remove_file (l_engine l, str "committed");
         _ ← recover l;
         mret tt
       else mret tt);
  mret (rc, done).

(** ** Staging *)

Definition products : list bytes := [str "policy.bin"; str "filters.zsh"; str "Filters.sieve"; str "manifest.json"].

Definition discard_stage (engine : Z) (name : bytes) : fio unit :=
  d ← directory (engine, name) false;
  if d <? 0 then mret tt
  else
    _ ← all_ok (map (fun file => _ ← unlinkat (d, file); mret true) products);
    _ ← close;
    _ ← rmdirat (engine, name);
    mret tt.

(** The products written to a directory of the engine and validated there. *)
Definition stage_products (l : location) (p : jf_products) (name : bytes) : fio Z :=
  d ← directory (l_engine l, name) false;
  if d <? 0 then mret 3
  else
    '(rc, info) ← manifest (Generation 0 (pr_id p) (pr_cache p) (pr_zsh p) (pr_sieve p));
    rc ← (if negb (rc =? 0) then mret 3
          else
            b ← all_ok [zero (save (d, str "policy.bin") (contents (pr_cache p)));
                        zero (save (d, str "filters.zsh") (contents (pr_zsh p)));
                        zero (save (d, str "Filters.sieve") (contents (pr_sieve p)));
                        zero (save (d, str "manifest.json") (contents info));
                        fsync_dir d];
            if negb b then mret 3
            else
              '(rc, g) ← validate_directory d (pr_id p) true;
              _ ← jf_generation_close g;
              mret (if rc =? 0 then 0 else 3));
    _ ← close;
    mret rc.

(** The status and the name of the staging directory. *)
Definition stage (l : location) (engine_path : bytes) (p : jf_products) : fio (Z * option bytes) :=
  m ← malloc;
  if negb m then mret (3, None)
  else
    r ← mkdtemp engine_path (str ".building-");
    match r with
    | inl _ => mret (3, None)
    | inr name =>
        m ← malloc;
        if negb m then _ ← rmdirat (l_engine l, name); mret (3, None)
        else rc ← stage_products l p name; mret (rc, Some name)
    end.

(** The program that runs instead, or a status. *)
Definition jf_generation_legacy_run (root : bytes) (execvp : fio errno) : fio Z :=
  '(rc, l) ← locate root true;
  '(rc, l) ←
    (if negb (rc =? 0) then mret (rc, l)
     else
       rc ← lock;
       if negb (rc =? 0) then mret (rc, l)
       else
         rc ← recover l;
         if negb (rc =? 0) then mret (rc, l)
         else
           _ ← location_close (Location (l_root l) (l_engine l) (l_generations l) false);
           e ← execvp;
           _ ← close;
           mret (match e with ENOENT => 127 | _ => 126 end, no_location));
  _ ← location_close l;
  mret rc.
End Generation.
