(* ===== verification/GenerationFacts.v ===== *)
(** * What the operations on generations do (Generation)

    A specification of each operation on files: the readers return what the tree
    holds and change nothing, the writers change one entry.  The journals have one
    text each.  A pinned generation is complete and verified. *)
From stdpp Require Import gmap.
From S2P Require Import Prelude Sha256 Rules Bytes Cache Import Files FilesFacts Generation.

#[local] Opaque grow_capacity.

(** ** Chains *)

Lemma hoare_all_cons s m t G (Q : bool -> store -> Prop) :
  hoare s m G (fun b s' => G s' -> if b : bool then hoare s' (all_ok t) G Q else Q false s') -> hoare s (all_ok (m :: t)) G Q.
Proof.
  intros H. cbn [all_ok]. eapply hoare_bind; [exact H|]. intros [] s' HG HQ; [auto|]. apply hoare_ret; auto.
Qed.

Lemma hoare_all_nil s G (Q : bool -> store -> Prop) : G s -> Q true s -> hoare s (all_ok []) G Q.
Proof. apply hoare_ret. Qed.

Lemma all_ok_app l t w :
  all_ok (l ++ t) w = (all_ok l ≫= fun b => if b : bool then all_ok t else mret false) w.
Proof.
  revert w. induction l as [|m l IH]; intros w; [reflexivity|]. cbn [app all_ok]. unfold mbind, fio_bind.
  destruct (m w) as [[[]|] w']; [apply IH|reflexivity..].
Qed.

Lemma hoare_all_app s l t G (Q : bool -> store -> Prop) :
  hoare s (all_ok l) G (fun b s' => G s' -> if b : bool then hoare s' (all_ok t) G Q else Q false s') ->
  hoare s (all_ok (l ++ t)) G Q.
Proof.
  intros H w Hw. rewrite all_ok_app. revert w Hw. change (hoare s (all_ok l ≫= fun b => if b : bool then all_ok t else mret false) G Q).
  eapply hoare_bind; [exact H|]. intros [] s' HG HQ; [auto|]. apply hoare_ret; auto.
Qed.

Lemma hoare_zero s m G (Q : bool -> store -> Prop) : hoare s m G (fun rc => Q (rc =? 0)) -> hoare s (zero m) G Q.
Proof. intros H. unfold zero. eapply hoare_bind; [exact H|]. intros rc s' HG HQ. now apply hoare_ret. Qed.

(** ** The texts of the journals *)

Definition plain (c : Z) : bool := negb (isspace c) && negb (c =? 0).

Lemma c_string_all s : forallb (fun c => negb (c =? 0)) s = true -> c_string s = s.
Proof. unfold c_string. induction s as [|c s IH]; [reflexivity|]. cbn. intros H. apply andb_true_iff in H as [-> H]. now rewrite IH. Qed.

Lemma take_while_all {A} (p : A -> bool) l r : forallb p l = true ->
  take_while p (l ++ r) = l ++ take_while p r.
Proof. induction l as [|x l IH]; [reflexivity|]. cbn. intros H. boolify. now rewrite H, IH. Qed.

Lemma scan_word_app n w rest : w <> [] -> (length w <= n)%nat -> forallb plain w = true ->
  (length w = n \/ exists c t, rest = c :: t /\ isspace c = true) -> scan_word n (SP :: w ++ rest) = Some (w, rest).
Proof.
  intros Hw Hn Hp Hr. unfold scan_word. cbn [drop_while]. change (isspace SP) with true. cbn [drop_while].
  assert (Hp' : forallb (fun c => negb (isspace c)) w = true).
  { rewrite forallb_forall in Hp |- *. intros c Hc. specialize (Hp c Hc). now apply andb_true_iff in Hp as [Hp _]. }
  assert (D : drop_while isspace (w ++ rest) = w ++ rest).
  { destruct w as [|c w]; [easy|]. cbn in Hp' |- *. boolify. now rewrite H. }
  rewrite D, take_app, firstn_all2, take_while_all by assumption.
  assert (E : take_while (fun c => negb (isspace c)) (take (n - length w) rest) = []).
  { destruct Hr as [<-|(c & t & -> & Hc)]; [now rewrite Nat.sub_diag|].
    destruct (n - length w)%nat; cbn; [reflexivity|]. now rewrite Hc. }
  rewrite E, app_nil_r. destruct w; [easy|]. now rewrite drop_app_length.
Qed.

Lemma octal_of_spec m : 0 <= m <= 511 ->
  forallb is_octal (octal_of m) = true /\ (1 <= length (octal_of m) <= 3)%nat /\ octal_value (octal_of m) = m.
Proof.
  intros H. assert (C : forallb (fun n => let m := Z.of_nat n in forallb is_octal (octal_of m) &&
    (1 <=? length (octal_of m))%nat && (length (octal_of m) <=? 3)%nat && (octal_value (octal_of m) =? m)) (seq 0 (Z.to_nat 512)) = true)
    by now vm_compute.
  rewrite forallb_forall in C. specialize (C (Z.to_nat m)). rewrite Z2Nat.id in C by lia.
  cbv zeta in C. rewrite !andb_true_iff in C. destruct C as [[[C1 C2] C3] C4]; [apply in_seq; lia|].
  apply Nat.leb_le in C2, C3. apply Z.eqb_eq in C4. auto.
Qed.

Lemma scan_octal_text m c r : 0 <= m <= 511 -> is_octal c = false -> scan_octal (SP :: octal_of m ++ c :: r) = Some (m, c :: r).
Proof.
  intros Hm Hc. destruct (octal_of_spec m Hm) as (H1 & H2 & H3). unfold scan_octal.
  destruct (octal_of m) as [|o ds] eqn:E; [cbn in H2; lia|]. cbn [drop_while app]. change (isspace SP) with true. cbn [drop_while].
  assert (Ho : 48 <= o <= 55). { cbn in H1. unfold is_octal in H1. boolify. lia. }
  replace (isspace o) with false by (unfold isspace; symmetry; apply orb_false_iff; split; [|apply andb_false_iff; right]; lia).
  replace (o =? ch "-") with false by lia. replace (o =? ch "+") with false by lia.
  unfold scan_octal_digits. change (o :: ds ++ c :: r) with ((o :: ds) ++ c :: r). rewrite <- E in *. clear E o ds Ho.
  rewrite take_app, firstn_all2, take_while_all by (assumption || lia).
  assert (E : take_while is_octal (take (3 - length (octal_of m)) (c :: r)) = []).
  { destruct (3 - length (octal_of m))%nat; cbn; [reflexivity|]. now rewrite Hc. }
  rewrite E, app_nil_r, H3, drop_app_length. destruct (octal_of m); [cbn in H2; lia|reflexivity].
Qed.

Lemma scan_digit_text p r : p = 0 \/ p = 1 -> scan_digit (SP :: decimal_of p ++ r) = Some (p, r) /\ scan_digit (decimal_of p ++ r) = Some (p, r).
Proof. now intros [-> | ->]. Qed.

Lemma valid_id_plain s : valid_id s = true -> length s = 64%nat /\ forallb plain s = true.
Proof.
  unfold valid_id. intros H. apply andb_true_iff in H as [H1 H2]. apply Nat.eqb_eq in H1. split; [exact H1|].
  rewrite forallb_forall in H2 |- *. intros c Hc. specialize (H2 c Hc). unfold plain, isspace.
  assert (48 <= c) by (apply orb_true_iff in H2; destruct H2; boolify; lia).
  apply andb_true_iff. split; [|rewrite negb_true_iff; lia]. rewrite negb_true_iff. apply orb_false_iff. split; [lia|].
  apply andb_false_iff. right. lia.
Qed.

(** The fields that a journal may have. *)
Record journal_ok (j : journal) : Prop := JournalOk {
  jo_old : j_old j = str "-" \/ valid_id (j_old j) = true;
  jo_next : valid_id (j_next j) = true;
  jo_present : j_present j = 0 \/ j_present j = 1;
  jo_mode : 0 <= j_mode j <= 511 }.
Definition journal_bytes (j : journal) : bytes := journal_text (j_old j) (j_present j) (j_mode j) (j_next j).

Lemma plain_nonzero w : forallb plain w = true -> forallb (fun c => negb (c =? 0)) w = true.
Proof. rewrite !forallb_forall. intros H c Hc. specialize (H c Hc). now apply andb_true_iff in H as [_ H]. Qed.

Lemma octal_nonzero w : forallb is_octal w = true -> forallb (fun c => negb (c =? 0)) w = true.
Proof. rewrite !forallb_forall. intros H c Hc. specialize (H c Hc). unfold is_octal in H. boolify. rewrite negb_true_iff. lia. Qed.

Lemma old_plain j : journal_ok j -> j_old j <> [] /\ (length (j_old j) <= 64)%nat /\ forallb plain (j_old j) = true.
Proof.
  intros [[->|H] _ _ _]; [repeat split; [discriminate|cbn; lia]|]. destruct (valid_id_plain _ H) as [H1 H2]. repeat split; [|lia|exact H2].
  intros E. now rewrite E in H1.
Qed.

Lemma parse_journal_bytes j : journal_ok j -> parse_journal (journal_bytes j) = Some j.
Proof.
  intros H. pose proof (old_plain j H) as (O1 & O2 & O3). destruct H as [Ho Hn Hp Hm].
  destruct (valid_id_plain _ Hn) as [N1 N2]. destruct (octal_of_spec _ Hm) as (M1 & M2 & M3).
  assert (Z0 : c_string (journal_bytes j) = journal_bytes j).
  { apply c_string_all. unfold journal_bytes, journal_text. rewrite !forallb_app, (plain_nonzero _ O3), (plain_nonzero _ N2), (octal_nonzero _ M1).
    now destruct Hp as [-> | ->]. }
  unfold parse_journal. rewrite Z0.
  assert (S : scan_journal (journal_bytes j) = Some (j_old j, j_present j, j_mode j, j_next j, (length (journal_bytes j) - 1)%nat)).
  { unfold scan_journal. replace (has_prefix (str "JFT1") (journal_bytes j)) with true by reflexivity. cbn [negb].
    replace (drop 4 (journal_bytes j)) with (SP :: j_old j ++ SP :: decimal_of (j_present j) ++ SP :: octal_of (j_mode j) ++ SP :: j_next j ++ [LF])
      by reflexivity.
    rewrite scan_word_app by (eauto; right; now eexists _, _). cbn [mbind option_bind].
    rewrite (proj1 (scan_digit_text _ _ Hp)). cbn [mbind option_bind]. rewrite scan_octal_text by auto. cbn [mbind option_bind].
    rewrite scan_word_app; [cbn; reflexivity| |lia|exact N2|now left]. intros E. now rewrite E in N1. }
  rewrite S. assert (L : (0 < length (journal_bytes j))%nat) by (unfold journal_bytes, journal_text; rewrite length_app; cbn; lia).
  replace (length (journal_bytes j) - 1 + 1 =? length (journal_bytes j))%nat with true by (symmetry; apply Nat.eqb_eq; lia).
  assert (A : at_ (journal_bytes j) (length (journal_bytes j) - 1) = LF).
  { unfold at_, journal_bytes, journal_text. rewrite !app_assoc, app_nth2; rewrite (length_app _ [LF]); cbn [length]; [|lia].
    now match goal with |- nth ?n _ _ = _ => replace n with 0%nat by lia end. }
  rewrite A, Z.eqb_refl, Hn. cbn [negb orb].
  replace (negb (streq (j_old j) (str "-")) && negb (valid_id (j_old j))) with false by (destruct Ho as [-> | ->]; [reflexivity|now rewrite andb_false_r]).
  replace (511 <? j_mode j) with false by lia. cbn [orb].
  replace (negb (j_present j =? 0) && negb (j_present j =? 1)) with false by (now destruct Hp as [-> | ->]).
  replace (streq (journal_bytes j) (journal_text (j_old j) (j_present j) (j_mode j) (j_next j))) with true by (symmetry; apply streq_refl).
  cbn. now destruct j.
Qed.

Lemma octal_value_range ds : forallb is_octal ds = true -> (length ds <= 3)%nat -> 0 <= octal_value ds <= 511.
Proof.
  intros H L. unfold octal_value, is_octal in *. destruct ds as [|a [|b [|c [|]]]]; cbn [forallb length fold_left] in *; boolify; lia.
Qed.

Lemma take_while_sub {A} (p : A -> bool) l : forallb p (take_while p l) = true /\ (length (take_while p l) <= length l)%nat.
Proof. induction l as [|x l [IH1 IH2]]; cbn; [auto|]. destruct (p x) eqn:E; cbn; [rewrite E|]; auto with lia. Qed.

Lemma scan_octal_nonneg s v r : scan_octal s = Some (v, r) -> 0 <= v.
Proof.
  assert (D : forall n s v r, scan_octal_digits n s = Some (v, r) -> (n <= 3)%nat -> 0 <= v).
  { clear. intros n s v r H Hn. unfold scan_octal_digits in H. destruct (take_while_sub is_octal (take n s)) as [H1 H2].
    rewrite length_take in H2. destruct (take_while is_octal (take n s)) as [|o ds] eqn:E; [discriminate|]. injection H as <- _.
    now apply octal_value_range; [|lia]. }
  unfold scan_octal. destruct (drop_while _ _) as [|c t]; [discriminate|]. destruct (c =? _).
  - destruct (scan_octal_digits 2 t) as [[x y]|]; [|discriminate]. intros [= <- _]. apply Z.mod_pos_bound. lia.
  - destruct (c =? _); intros H; [apply (D 2%nat _ _ _ H)|apply (D 3%nat _ _ _ H)]; lia.
Qed.

Lemma parse_journal_Some data j : parse_journal data = Some j -> data = journal_bytes j /\ journal_ok j.
Proof.
  unfold parse_journal. destruct (scan_journal _) as [[[[[old p] m] next] n]|] eqn:E; [|discriminate].
  match goal with |- (if ?b then _ else if ?t then _ else _) = _ -> _ => destruct b eqn:B; [discriminate|]; destruct t eqn:T; [discriminate|] end.
  intros [= <-]. boolify. apply streq_spec in T. split; [exact T|]. split; cbn.
  - match goal with H : negb _ && negb (valid_id old) = false |- _ => apply andb_false_iff in H as [H|H] end; boolify.
    + left. now apply streq_spec. + now right.
  - assumption.
  - match goal with H : negb _ && negb (p =? 1) = false |- _ => apply andb_false_iff in H as [H|H] end; boolify; auto.
  - split; [|lia]. unfold scan_journal in E. destruct (negb _); [discriminate|].
    destruct (scan_word _ _) as [[a1 b1]|]; [|discriminate]. cbn [mbind option_bind] in E.
    destruct (scan_digit _) as [[a2 b2]|]; [|discriminate]. cbn [mbind option_bind] in E.
    destruct (scan_octal _) as [[a3 b3]|] eqn:E3; [|discriminate]. cbn [mbind option_bind] in E.
    destruct (scan_word _ b3) as [[a4 b4]|]; [|discriminate]. injection E as _ _ <- _ _. exact (scan_octal_nonneg _ _ _ E3).
Qed.

(** The lines of the inputs. *)
Record line_ok (l : input_line) : Prop := LineOk {
  lo_changed : changed l = 0 \/ changed l = 1; lo_present : i_present l = 0 \/ i_present l = 1;
  lo_mode : 0 <= i_mode l <= 511 }.
Definition inputs_bytes (ls : list input_line) : bytes := concat (map input_text ls).

Lemma parse_inputs_Some n : forall data ls, parse_inputs n data = Some ls -> data = inputs_bytes ls /\ length ls = n.
Proof.
  induction n as [|n IH]; intros data ls; cbn [parse_inputs].
  { destruct (length data =? 0)%nat eqn:E; [|discriminate]. apply Nat.eqb_eq in E. destruct data; [|discriminate]. now intros [= <-]. }
  destruct (scan_digit _) as [[c r1]|]; [|discriminate]. cbn [mbind option_bind].
  destruct (scan_digit r1) as [[p r2]|]; [|discriminate]. cbn [mbind option_bind].
  destruct (scan_octal r2) as [[m r3]|]; [|discriminate]. cbn [mbind option_bind].
  destruct (_ || negb (at_ _ _ =? LF)); [discriminate|]. destruct (_ || _) eqn:B; [discriminate|].
  destruct (parse_inputs n _) as [rest|] eqn:E; [|discriminate]. intros [= <-]. destruct (IH _ _ E) as [H1 <-].
  boolify. split; [|reflexivity]. unfold inputs_bytes. cbn [map concat]. fold (inputs_bytes rest). rewrite <- H1.
  match goal with H : streq _ _ = true |- _ => apply streq_spec in H; rewrite H at 1 end. now rewrite take_drop.
Qed.

Lemma parse_inputs_bytes ls : Forall line_ok ls -> parse_inputs (length ls) (inputs_bytes ls) = Some ls.
Proof.
  assert (NZ : forall ls, Forall line_ok ls -> forallb (fun c => negb (c =? 0)) (inputs_bytes ls) = true).
  { clear. induction 1 as [|l ls [Hc Hp Hm] _ IH]; [reflexivity|].
    change (inputs_bytes (l :: ls)) with (input_text l ++ inputs_bytes ls). unfold input_text.
    destruct (octal_of_spec _ Hm) as (M1 & _ & _). rewrite !forallb_app, (octal_nonzero _ M1), IH.
    now destruct Hc as [-> | ->], Hp as [-> | ->]. }
  induction 1 as [|l ls Hl H IH]; [reflexivity|]. cbn [length parse_inputs].
  rewrite (c_string_all (inputs_bytes (l :: ls))) by (apply NZ; now constructor).
  assert (E : inputs_bytes (l :: ls) = decimal_of (changed l) ++ SP :: decimal_of (i_present l) ++ SP :: octal_of (i_mode l) ++ LF :: inputs_bytes ls).
  { change (inputs_bytes (l :: ls)) with (input_text l ++ inputs_bytes ls). unfold input_text. now rewrite <- !app_assoc. }
  destruct Hl as [Hc Hp Hm]. rewrite E at 1. rewrite (proj2 (scan_digit_text _ _ Hc)). cbn [mbind option_bind].
  rewrite (proj1 (scan_digit_text _ _ Hp)). cbn [mbind option_bind]. rewrite scan_octal_text by auto. cbn [mbind option_bind].
  replace (InputLine (changed l) (i_present l) (i_mode l)) with l by now destruct l.
  assert (T : inputs_bytes (l :: ls) = input_text l ++ inputs_bytes ls) by reflexivity.
  set (pos := (length (inputs_bytes (l :: ls)) - length (LF :: inputs_bytes ls))%nat).
  assert (P : length (input_text l) = (pos + 1)%nat).
  { unfold pos. rewrite T, length_app. cbn [length]. unfold input_text. rewrite !length_app. cbn [length]. lia. }
  replace (1 <? changed l) with false by (destruct Hc as [-> | ->]; reflexivity).
  replace (1 <? i_present l) with false by (destruct Hp as [-> | ->]; reflexivity). replace (511 <? i_mode l) with false by lia.
  assert (A : at_ (inputs_bytes (l :: ls)) pos = LF).
  { unfold at_. rewrite T, app_nth1 by lia. unfold input_text in P |- *. rewrite !app_assoc in P |- *. rewrite length_app in P. cbn [length] in P.
    rewrite app_nth2 by lia. now match goal with |- nth ?n _ _ = _ => replace n with 0%nat by lia end. }
  rewrite A, Z.eqb_refl. cbn [negb orb]. rewrite P, Nat.eqb_refl. cbn [negb orb].
  replace (length (inputs_bytes (l :: ls)) <? pos + 1)%nat with false by (symmetry; apply Nat.ltb_ge; rewrite T, length_app; lia).
  rewrite T, <- P, take_app_length, drop_app_length, streq_refl. cbn [negb orb]. now rewrite IH.
Qed.

(** ** Readers *)

Section Facts.
Context `{KN : Kernel} `{HP : Heap} (fuel : nat).

Lemma quiet_load_loop s n k l limit : now s !! k = Some (File l) -> forall pos b,
  pos = length (contents b) -> contents b = take pos (l_data l) ->
  quiet s (load_loop n k pos b limit) (fun r => r.1 = 0 -> contents r.2 = l_data l).
Proof.
  intros Hk. induction n as [|n IH]; intros pos b Hp Hb; cbn [load_loop]; [now apply hoare_cut|].
  eapply hoare_step; [apply quiet_read|reflexivity|]. intros [e|d] Hd.
  { destruct e; try (now apply hoare_ret). now apply IH. }
  destruct Hd as (l' & m & E & ->). rewrite Hk in E. injection E as <-.
  set (d := take _ _). assert (Hd : d = take (length d) (drop pos (l_data l))).
  { unfold d. rewrite length_take. set (n' := Nat.min _ (Z.to_nat 16384)). clearbody n'.
    destruct (Nat.le_gt_cases n' (length (drop pos (l_data l)))); [now rewrite Nat.min_l|].
    now rewrite Nat.min_r, !take_ge by lia. }
  destruct d as [|c d'] eqn:E.
  { apply hoare_ret; [reflexivity|]. intros _. cbn [snd]. rewrite Hb. apply take_ge.
    assert (L : length d = 0%nat) by now rewrite E. unfold d in L. rewrite length_take, length_drop in L. lia. }
  rewrite <- E in *. clear E c d'.
  destruct (negb _); [now apply hoare_ret|].
  eapply hoare_step; [apply quiet_add_limit|reflexivity|]. intros [b'|] Hb'; [|now apply hoare_ret].
  apply IH; rewrite Hb', ?length_app; [lia|]. rewrite Hb. rewrite Hd at 1. apply take_take_drop.
Qed.

Lemma quiet_load_mode s k limit private : quiet s (load_mode fuel k limit private) (fun '(rc, b, mode) =>
  rc = 0 -> exists l, now s !! k = Some (File l) /\ contents b = l_data l /\ mode = Some (l_mode l) /\
    (private = true -> l_mode l = 384 /\ l_links l = 1)).
Proof.
  unfold load_mode. eapply hoare_step; [apply quiet_open_read|reflexivity|]. intros [e|[]] _.
  { apply hoare_ret; [reflexivity|]. now destruct e. }
  eapply hoare_step; [apply quiet_fstat|reflexivity|]. intros x Hx.
  eapply hoare_step with (Q0 := fun '(rc, b, mode) =>
    rc = 0 -> exists l, now s !! k = Some (File l) /\ contents b = l_data l /\ mode = Some (l_mode l) /\
      (private = true -> l_mode l = 384 /\ l_links l = 1)); [|reflexivity|].
  - destruct x as [e|[l| | |]]; try (now apply hoare_ret). destruct (private && _) eqn:E; [now apply hoare_ret|].
    eapply hoare_step; [now apply (quiet_load_loop s fuel k l)|reflexivity|]. intros [rc b] Hb. cbn in Hb.
    apply hoare_ret; [reflexivity|]. intros ->. exists l.
    split; [exact Hx|]. split; [auto|]. split; [reflexivity|]. intros ->. cbn [andb] in E. boolify. lia.
  - intros [[rc b] mode] H. eapply hoare_step; [apply quiet_close|reflexivity|]. intros c _.
    apply hoare_ret; [reflexivity|]. destruct c; cbn; [exact H|]. destruct (Z.eqb_spec rc 0); [discriminate|]. lia.
Qed.

(** A private file with its bytes. *)
Definition private_file (d : disk) (k : key) (data : bytes) : Prop :=
  exists y, d !! k = Some (File (Leaf data 384 1 y)).

Lemma quiet_load s k limit : quiet s (load fuel k limit) (fun r => r.1 = 0 -> private_file (now s) k (contents r.2)).
Proof.
  unfold load. eapply hoare_step; [apply quiet_load_mode|reflexivity|]. intros [[rc b] mode] H.
  apply hoare_ret; [reflexivity|]. cbn. intros E. destruct (H E) as (l & Hl & -> & _ & Hp).
  destruct (Hp eq_refl) as [E1 E2]. destruct l as [data md links y]. cbn in *. subst. now exists y.
Qed.

Lemma quiet_exists s k : quiet s (exists_ k) (fun z =>
  z = 0 /\ now s !! k = None \/ z = 1 /\ (exists n, now s !! k = Some n) \/ z = -1).
Proof.
  unfold exists_, fstatat. eapply hoare_step; [apply quiet_fstat|reflexivity|]. intros [e|n] H.
  - apply hoare_ret; [reflexivity|]. destruct e; auto.
  - apply hoare_ret; [reflexivity|]. eauto.
Qed.

Lemma has_prefix_app p t : has_prefix p t = true -> t = p ++ drop (length p) t.
Proof.
  revert t. induction p as [|c p IH]; intros t; [reflexivity|]. destruct t as [|x t]; [discriminate|]. cbn. intros H. boolify.
  subst. now rewrite <- IH.
Qed.

Lemma quiet_selector s l : quiet s (selector l) (fun r => r.1 = 0 ->
  r.2 = [] /\ now s !! (l_engine l, str "current") = None \/
  valid_id r.2 = true /\ now s !! (l_engine l, str "current") = Some (Link (selector_target r.2))).
Proof.
  unfold selector. eapply hoare_step; [apply quiet_readlinkat|reflexivity|]. intros [e|t] H.
  - apply hoare_ret; [reflexivity|]. destruct e; cbn; try lia. auto.
  - apply hoare_ret; [reflexivity|]. destruct H as (u & Hu & Ht).
    destruct (negb (length t =? 76)%nat) eqn:E1; [discriminate|]. destruct (negb (has_prefix _ _)) eqn:E2; [discriminate|].
    destruct (negb (valid_id _)) eqn:E3; [discriminate|]. cbn [orb fst snd]. intros _. right. boolify.
    split; [exact E3|]. rewrite Hu. do 2 f_equal. apply Nat.eqb_eq in E1.
    assert (length u < 79)%nat by (rewrite Ht, length_take in E1; lia). rewrite take_ge in Ht by lia. subst u.
    now apply has_prefix_app in E2.
Qed.

Lemma quiet_read_journal s l : quiet s (read_journal fuel l) (fun r => match r with
  | Some j => journal_ok j /\ private_file (now s) (l_engine l, str "journal") (journal_bytes j) | None => True end).
Proof.
  unfold read_journal. eapply hoare_step; [apply quiet_load|reflexivity|]. intros [rc b] H. cbn [fst snd] in H.
  destruct (Z.eqb_spec rc 0) as [E|]; cbn [negb]; [|now apply hoare_ret]. specialize (H E).
  eapply hoare_step; [apply quiet_add_limit|reflexivity|]. intros z _. apply hoare_ret; [reflexivity|].
  destruct z as [z|]; [|exact I]. destruct (parse_journal _) as [j|] eqn:P; [|exact I].
  apply parse_journal_Some in P as [P1 P2]. now rewrite <- P1.
Qed.

Lemma quiet_read_inputs s l : quiet s (read_inputs fuel l) (fun r => match r with
  | Some ls => exists data, parse_inputs 4 data = Some ls /\ private_file (now s) (l_engine l, import_journal) data | None => True end).
Proof.
  unfold read_inputs. eapply hoare_step; [apply quiet_load|reflexivity|]. intros [rc b] H. cbn [fst snd] in H.
  destruct (Z.eqb_spec rc 0) as [E|]; cbn [negb]; [|now apply hoare_ret]. specialize (H E).
  eapply hoare_step; [apply quiet_add_limit|reflexivity|]. intros z _. apply hoare_ret; [reflexivity|].
  destruct z as [z|]; [|exact I]. destruct (parse_inputs _ _) eqn:P; [|exact I]. eauto.
Qed.

(** The journal is committed: the marker and the selector name its generation. *)
Definition committed_state (d : disk) (l : location) (id : bytes) : Prop :=
  (exists j, journal_ok j /\ j_next j = id /\ private_file d (l_engine l, str "journal") (journal_bytes j)) /\
  private_file d (l_engine l, str "committed") id /\
  d !! (l_engine l, str "current") = Some (Link (selector_target id)).

Lemma quiet_committed s l : quiet s (committed_journal fuel l) (fun r => match r with
  | Some id => committed_state (now s) l id | None => True end).
Proof.
  unfold committed_journal. eapply hoare_step; [apply quiet_read_journal|reflexivity|]. intros [j|] Hj; [|now apply hoare_ret].
  eapply hoare_step; [apply quiet_load|reflexivity|]. intros [rc m] Hm. cbn [fst snd] in Hm.
  destruct (Z.eqb_spec rc 0) as [E|]; cbn [negb orb]; [|now apply hoare_ret]. specialize (Hm E).
  destruct (streq (contents m) (j_next j)) eqn:Em; cbn [negb]; [|now apply hoare_ret]. apply streq_spec in Em.
  eapply hoare_step; [apply quiet_selector|reflexivity|]. intros [rc' id] Hs. cbn [fst snd] in Hs.
  apply hoare_ret; [reflexivity|]. destruct (Z.eqb_spec rc' 0) as [E'|]; cbn [negb orb]; [|exact I]. specialize (Hs E').
  destruct (streq id (j_next j)) eqn:Ei; cbn [negb]; [|exact I]. apply streq_spec in Ei. subst id.
  destruct Hj as [J1 J2]. split; [now exists j|]. split; [now rewrite <- Em|].
  destruct Hs as [[H _]|[_ H]]; [|exact H]. destruct J1 as [_ J _ _]. now rewrite H in J.
Qed.

Lemma quiet_close_directory s d : quiet s (close_directory d) (fun _ => True).
Proof.
  unfold close_directory. destruct (0 <=? d); [|now apply hoare_ret].
  eapply hoare_step; [apply quiet_close|reflexivity|]. intros _ _. now apply hoare_ret.
Qed.

Lemma quiet_location_close s l : quiet s (location_close l) (fun _ => True).
Proof.
  unfold location_close. eapply hoare_step with (Q0 := fun _ => True); [|reflexivity|].
  { destruct (l_lock l); [|now apply hoare_ret]. eapply hoare_step; [apply quiet_close|reflexivity|]. intros _ _. now apply hoare_ret. }
  intros _ _. do 2 (eapply hoare_step; [apply quiet_close_directory|reflexivity|]; intros _ _). apply quiet_close_directory.
Qed.

Lemma quiet_generation_close s g : quiet s (jf_generation_close g) (fun _ => True).
Proof. unfold jf_generation_close. eapply hoare_step; [apply quiet_close_directory|reflexivity|]. intros _ _. now apply hoare_ret. Qed.

Lemma quiet_directory s k : quiet s (directory k false) (fun d => d < 0 \/ now s !! k = Some (Folder d 448)).
Proof.
  unfold directory. eapply hoare_step with (Q0 := fun b => b = true); [now apply hoare_ret|reflexivity|]. intros ? ->. cbn [negb].
  eapply hoare_step; [apply quiet_open_directory|reflexivity|]. intros [e|d] H; [apply hoare_ret; [reflexivity|lia]|].
  destruct H as (m & H). eapply hoare_step; [apply quiet_fstat|reflexivity|]. intros x Hx.
  assert (F : quiet s (_ ← close; _ ← set_errno EINVAL; mret (-1)) (fun d => d < 0 \/ now s !! k = Some (Folder d 448))).
  { eapply hoare_step; [apply quiet_close|reflexivity|]. intros _ _. eapply hoare_step; [apply quiet_set_errno|reflexivity|]. intros _ _.
    apply hoare_ret; [reflexivity|lia]. }
  destruct x as [e|[l|t|d' m'|]]; try exact F. destruct (decide (m' = 448)) as [->|Hne].
  - apply hoare_ret; [reflexivity|]. right. rewrite H in Hx. injection Hx as <- ->. exact H.
  - clear - F Hne. destruct m' as [|p|p]; try exact F.
    repeat (destruct p as [p|p|]; try exact F). now destruct Hne.
Qed.

(** ** Generations *)

(** A generation as its directory holds it: its manifest, its identifier and the
    digests in the cache agree with the products. *)
Record verified (d : disk) (n : Z) (id : bytes) (g : jf_generation) : Prop := Verified {
  ve_directory : g_directory g = n;
  ve_id : g_id g = id;
  ve_cache : private_file d (n, str "policy.bin") (contents (g_cache g));
  ve_zsh : private_file d (n, str "filters.zsh") (contents (g_zsh g));
  ve_sieve : private_file d (n, str "Filters.sieve") (contents (g_sieve g));
  ve_valid : jf_cache_validate (contents (g_cache g)) (Some (contents (g_zsh g))) (Some (contents (g_sieve g))) None = Ok tt;
  ve_fingerprint : jf_digest_hex (take 32 (drop 24 (contents (g_cache g)))) = id;
  ve_manifest : private_file d (n, str "manifest.json")
    (manifest_text id (jf_digest_hex (digest_of (contents (g_cache g)))) (jf_digest_hex (digest_of (contents (g_zsh g))))
       (jf_digest_hex (digest_of (contents (g_sieve g))))) }.

Lemma quiet_manifest s g : quiet s (manifest g) (fun r => r.1 = 0 -> contents r.2 =
  manifest_text (g_id g) (jf_digest_hex (digest_of (contents (g_cache g)))) (jf_digest_hex (digest_of (contents (g_zsh g))))
    (jf_digest_hex (digest_of (contents (g_sieve g))))).
Proof.
  unfold manifest. eapply hoare_step; [apply quiet_add_limit|reflexivity|]. intros [b|] H; apply hoare_ret; try reflexivity; [|discriminate].
  cbn [fst snd]. intros _. now rewrite H.
Qed.

Ltac quiet_load_next H := eapply hoare_step; [apply quiet_load|reflexivity|]; intros [? ?] H; cbn [fst snd] in H;
  match type of H with ?rc = 0 -> _ => destruct (Z.eqb_spec rc 0) as [E|?]; cbn [negb]; [specialize (H E); clear E|now apply hoare_ret] end.

Lemma quiet_validate_products s n id error : quiet s (validate_products fuel n id error) (fun r => r.1 = 0 -> verified (now s) n id r.2).
Proof.
  unfold validate_products. quiet_load_next H1. quiet_load_next H2. quiet_load_next H3. quiet_load_next H4.
  destruct (jf_cache_validate _ _ _ _) as [[]|rc e] eqn:V.
  - destruct (streq (jf_digest_hex _) id) eqn:F; cbn [negb]; [|now apply hoare_ret]. apply streq_spec in F.
    eapply hoare_step; [apply quiet_manifest|reflexivity|]. intros [rc b] M. cbn [fst snd g_id g_cache g_zsh g_sieve] in M.
    destruct (Z.eqb_spec rc 0) as [E|]; cbn [negb]; [|now apply hoare_ret]. specialize (M E).
    destruct (streq _ (contents b)) eqn:A; cbn [negb]; [|now apply hoare_ret]. apply streq_spec in A.
    eapply hoare_step; [apply quiet_dup|reflexivity|]. intros [e|d] Hd; apply hoare_ret; try reflexivity; [discriminate|].
    cbn [fst snd]. subst d. intros _. split; cbn [g_directory g_id g_cache g_zsh g_sieve]; auto. now rewrite <- M, <- A.
  - assert (rc <> 0) as Hrc.
    { revert V. unfold jf_cache_validate, cache_bad. destruct (negb _); [now intros [= <- _]|].
      destruct (validate_records _ _ _ _ _ _ _) as [[v rest]|]; [destruct (validate_end _ _ _)|]; try discriminate; now intros [= <- _]. }
    eapply hoare_step with (Q0 := fun _ => True); [|reflexivity|intros _ _; now apply hoare_ret].
    destruct error; [apply quiet_report|now apply hoare_ret].
Qed.

Lemma quiet_validate s n id error : quiet s (validate_directory fuel n id error) (fun r => r.1 = 0 -> verified (now s) n id r.2).
Proof.
  unfold validate_directory. eapply hoare_step; [apply quiet_dup|reflexivity|]. intros [e|d] _; [now apply hoare_ret|].
  eapply hoare_step with (Q0 := fun _ => True); [apply hoare_ok; now apply quiet_query|reflexivity|]. intros [] _; cbn [negb].
  - eapply hoare_step; [apply quiet_readdir|reflexivity|]. intros [names complete] _.
    eapply hoare_step; [apply quiet_close|reflexivity|]. intros _ _.
    destruct (inventory names 0); [|now apply hoare_ret]. destruct (negb complete); [now apply hoare_ret|].
    destruct (negb _); [now apply hoare_ret|]. apply quiet_validate_products.
  - eapply hoare_step; [apply quiet_close|reflexivity|]. intros _ _. now apply hoare_ret.
Qed.

(** What the public file shows, and what a reader may take. *)
Definition public_is (d : disk) (l : location) (g : jf_generation) : Prop :=
  private_file d (l_root l, str "Filters.sieve") (contents (g_sieve g)).

Lemma quiet_public_status s l g : quiet s (public_status fuel l g) (fun rc => rc = 0 -> public_is (now s) l g).
Proof.
  unfold public_status. eapply hoare_step; [apply quiet_load|reflexivity|]. intros [rc b] H. cbn [fst snd] in H.
  apply hoare_ret; [reflexivity|]. destruct (Z.eqb_spec rc 0) as [E|]; cbn [negb]; [|easy].
  destruct (streq _ _) eqn:S; [|discriminate]. apply streq_spec in S. intros _. unfold public_is. rewrite <- S. auto.
Qed.

Definition installed (d : disk) (l : location) (id : bytes) (g : jf_generation) : Prop :=
  exists n, d !! (l_generations l, id) = Some (Folder n 448) /\ verified d n id g.

Lemma quiet_committed_public s l g id committed error : installed (now s) l id g ->
  quiet s (committed_public fuel l g id committed error)
    (fun rc => rc = 0 -> exists g', installed (now s) l committed g' /\ public_is (now s) l g').
Proof.
  intros Hg. unfold committed_public. destruct (streq id committed) eqn:E.
  { apply streq_spec in E. subst. eapply hoare_quiet; [apply quiet_public_status|reflexivity|]. eauto. }
  eapply hoare_step; [apply quiet_directory|reflexivity|]. intros d Hd.
  eapply hoare_step with (Q0 := fun r => r.1 = 0 -> installed (now s) l committed r.2); [|reflexivity|].
  { destruct (Z.ltb_spec d 0); [now apply hoare_ret|]. destruct Hd as [Hd|Hd]; [lia|].
    eapply hoare_quiet; [apply quiet_validate|reflexivity|]. intros r H1 H2. exists d. auto. }
  intros [rc current] H. cbn [fst snd] in H.
  eapply hoare_step with (Q0 := fun rc => rc = 0 -> exists g', installed (now s) l committed g' /\ public_is (now s) l g'); [|reflexivity|].
  { destruct (Z.eqb_spec rc 0) as [E'|]; [|now apply hoare_ret].
    eapply hoare_quiet; [apply quiet_public_status|reflexivity|]. eauto. }
  intros rc' H'. eapply hoare_step; [apply quiet_close_directory|reflexivity|]. intros _ _.
  eapply hoare_step; [apply quiet_generation_close|reflexivity|]. intros _ _. now apply hoare_ret.
Qed.

(** What [pin_locked] gives: a verified generation, the requested or the selected
    one; a transaction, if there is a trace of one, is committed, and the public
    file is that of its generation. *)
Record pinned (d : disk) (l : location) (requested : option bytes) (g : jf_generation) : Prop := Pinned {
  pi_installed : installed d l (g_id g) g;
  pi_requested : match requested with Some r => g_id g = r | None => d !! (l_engine l, str "current") = Some (Link (selector_target (g_id g))) end;
  pi_inputs : d !! (l_engine l, import_journal) <> None -> exists id, committed_state d l id;
  pi_journal : d !! (l_engine l, str "journal") <> None ->
    exists id g', committed_state d l id /\ installed d l id g' /\ public_is d l g' }.

Lemma quiet_pin_locked s l requested error : quiet s (pin_locked fuel l requested error) (fun r =>
  r.1 = 0 -> pinned (now s) l requested r.2).
Proof.
  unfold pin_locked. eapply hoare_step; [apply quiet_exists|reflexivity|]. intros t Ht.
  eapply hoare_step with (Q0 := fun b : bool => b = false -> t = 0 /\ now s !! (l_engine l, import_journal) = None); [|reflexivity|].
  { destruct (Z.eqb_spec t 0) as [->|]; cbn [negb]; [|now apply hoare_ret].
    eapply hoare_step; [apply quiet_exists|reflexivity|]. intros i Hi. apply hoare_ret; [reflexivity|].
    intros E. split; [reflexivity|]. boolify. destruct Hi as [[_ Hi]|[[Hi _]|Hi]]; [exact Hi|lia..]. }
  intros pending Hp.
  eapply hoare_step with (Q0 := fun c => match c with
    | None => True
    | Some None => t = 0 /\ now s !! (l_engine l, import_journal) = None
    | Some (Some id) => committed_state (now s) l id end); [|reflexivity|].
  { destruct pending; [|apply hoare_ret; auto]. eapply hoare_step; [apply quiet_committed|reflexivity|]. intros [c|] Hc; now apply hoare_ret. }
  intros [committed|] Hc; [|now apply hoare_ret].
  eapply hoare_step with (Q0 := fun r => r.1 = 0 -> match requested with Some x => r.2 = x
      | None => now s !! (l_engine l, str "current") = Some (Link (selector_target r.2)) end); [|reflexivity|].
  { destruct requested as [x|]; [apply hoare_ret; [reflexivity|]; now destruct (valid_id x)|].
    eapply hoare_step; [apply quiet_selector|reflexivity|]. intros [rc id] H. cbn [fst snd] in H. apply hoare_ret; [reflexivity|].
    destruct (Z.eqb_spec rc 0) as [E|]; cbn [negb orb]; [|discriminate]. destruct (streq id []) eqn:S; [discriminate|].
    intros _. cbn [snd]. destruct (H E) as [[-> _]|[_ H']]; [now rewrite streq_refl in S|exact H']. }
  intros [rc id] Hid. cbn [fst snd] in Hid. destruct (Z.eqb_spec rc 0) as [E|]; cbn [negb]; [|now apply hoare_ret]. specialize (Hid E). clear E.
  eapply hoare_step; [apply quiet_directory|reflexivity|]. intros d Hd. destruct (Z.ltb_spec d 0); [now apply hoare_ret|].
  destruct Hd as [Hd|Hd]; [lia|]. eapply hoare_step; [apply quiet_validate|reflexivity|]. intros [rc1 g] Hg. cbn [fst snd] in Hg.
  eapply hoare_step; [apply quiet_close|reflexivity|]. intros _ _.
  eapply hoare_step with (Q0 := fun rc => rc = 0 -> installed (now s) l id g /\
    (t = 0 \/ match committed with None => True | Some c => exists g', installed (now s) l c g' /\ public_is (now s) l g' end)); [|reflexivity|].
  { destruct (Z.eqb_spec rc1 0) as [E|]; cbn [andb]; [|now apply hoare_ret]. specialize (Hg E).
    assert (I1 : installed (now s) l id g) by (exists d; auto).
    destruct (Z.eqb_spec t 0) as [->|]; cbn [negb]; [apply hoare_ret; auto|].
    destruct committed as [c|]; [|apply hoare_ret; auto].
    eapply hoare_quiet; [now apply quiet_committed_public|reflexivity|]. eauto. }
  intros rc2 H2. destruct (Z.eqb_spec rc2 0) as [E|].
  - apply hoare_ret; [reflexivity|]. cbn [fst snd]. intros _. destruct (H2 E) as [I1 I2].
    assert (Ei : g_id g = id) by (now destruct I1 as (n & _ & [])). split.
    + now rewrite Ei.
    + destruct requested; now rewrite Ei.
    + intros N. destruct committed as [c|]; [now exists c|]. now destruct Hc.
    + intros N. destruct committed as [c|].
      * destruct I2 as [->|(g' & I2 & I3)]; [|now exists c, g']. destruct Ht as [[_ Ht]|[[Ht _]|Ht]]; [now destruct N|discriminate..].
      * destruct Hc as [-> _]. destruct Ht as [[_ Ht]|[[Ht _]|Ht]]; [now destruct N|discriminate..].
  - eapply hoare_step; [apply quiet_generation_close|reflexivity|]. intros _ _. now apply hoare_ret.
Qed.

(** ** Writers *)

(** One entry changes, in place. *)
Definition edits (k : key) (s s' : store) : Prop := frame [k] s s' /\ older s' k = older s k.

Lemma edits_refl k s : edits k s s.
Proof. split; [apply frame_refl|reflexivity]. Qed.
Lemma edits_poke k o s s' : edits k s s' -> edits k s (poke k o s').
Proof. intros [H1 H2]. split; [eapply frame_trans; [exact H1|apply frame_poke]|exact H2]. Qed.

Lemma now_poke k o s : now (poke k o s) !! k = o.
Proof. apply lookup_upd. Qed.
Lemma now_put k o s : now (put k o s) !! k = o.
Proof. apply lookup_upd. Qed.

Lemma save_loop_spec s0 k n : forall data s l, edits k s0 s -> now s !! k = Some (File l) ->
  hoare s (save_loop n k data) (edits k s0) (fun b s' => b = true ->
    exists y, now s' !! k = Some (File (Leaf (l_data l ++ data) (l_mode l) (l_links l) y))).
Proof.
  induction n as [|n IH]; intros data s l He Hk; cbn [save_loop]; [now apply hoare_cut|].
  destruct data as [|c data].
  { apply hoare_ret; [exact He|]. intros _. rewrite app_nil_r, Hk. destruct l as [x m i y]. now exists y. }
  eapply hoare_bind with (Q := fun r s' => match r with
    | inr m => now s' !! k = Some (File (Leaf (l_data l ++ take m (c :: data)) (l_mode l) (l_links l) false))
    | inl _ => s' = s end).
  - apply hoare_write; [exact He|reflexivity|]. intros l' m Hm E. rewrite Hk in E. injection E as <-.
    split; [now apply edits_poke|apply now_poke].
  - intros [e|m] s' He' Hw.
    + subst s'. destruct e; try (now apply hoare_ret). now apply IH.
    + destruct m as [|m]; [now apply hoare_ret|]. eapply hoare_mono; [apply IH; [exact He'|exact Hw]|auto|].
      intros b s'' _ H Hb. destruct (H Hb) as (y & Hy). exists y. rewrite Hy. cbn [l_data l_mode l_links].
      now rewrite <- app_assoc, take_drop.
Qed.

(** A saved file is new, whole, and synchronised. *)
Definition saved (k : key) (data : bytes) (s s' : store) : Prop :=
  now s !! k = None /\ now s' !! k = Some (File (Leaf data 384 1 true)) /\ older s' k = None :: older s k.

Lemma save_spec s k data : hoare s (save fuel k data) (frame [k] s) (fun rc s' => rc = 0 -> saved k data s s').
Proof.
  unfold save. eapply hoare_bind with (Q := fun r s' => match r with inr _ => now s !! k = None /\ s' = put k (Some (File new_leaf)) s | inl _ => True end).
  { apply hoare_open_new; [apply frame_refl|auto|]. intros H. split; [apply frame_put|auto]. }
  intros [e|[]] s1 F1 H; [now apply hoare_ret|]. destruct H as [Hn ->]. set (s1 := put k _ s) in *.
  eapply hoare_bind with (Q := fun b s' => b = true -> saved k data s s').
  - apply hoare_mono with (G := edits k s1) (Q := fun b s' => b = true -> saved k data s s'); [| |auto].
    2: { intros s' [H _]. eapply frame_trans; [apply frame_put|exact H]. }
    apply hoare_all_cons. eapply hoare_mono; [apply (save_loop_spec s1 k fuel data s1 new_leaf); [apply edits_refl|apply now_put]|auto|].
    intros [] s2 E2 H E2'; [|discriminate]. destruct (H eq_refl) as (y & Hy). clear H.
    apply hoare_all_cons. apply hoare_fsync_file; [exact E2|easy|]. intros l Hl. rewrite Hy in Hl. injection Hl as <-.
    split; [now apply edits_poke|]. intros E3. apply hoare_all_nil; [exact E3|]. intros _. split; [exact Hn|]. split; [apply now_poke|].
    cbn. rewrite (proj2 E2). cbn. now rewrite decide_True, Hn by reflexivity.
  - intros b s2 F2 H. eapply hoare_step; [apply quiet_close|exact F2|]. intros c _. apply hoare_ret; [exact F2|].
    destruct c; [|discriminate]. destruct b; [auto|discriminate].
Qed.

(** A removal does nothing, or removes. *)
Definition removes (k : key) (s s' : store) : Prop := s' = s \/ s' = put k None s.

Lemma removes_frame k s s' : removes k s s' -> frame [k] s s'.
Proof. intros [->| ->]; [apply frame_refl|apply frame_put]. Qed.

Lemma remove_file_spec s k : hoare s (remove_file k) (removes k s) (fun rc s' =>
  rc = 0 /\ now s' !! k = None \/ rc = 3 /\ s' = s).
Proof.
  unfold remove_file. eapply hoare_bind with (Q := fun r s' => match r with
    | inr _ => now s' !! k = None | inl ENOENT => now s' !! k = None | inl _ => s' = s end).
  - apply hoare_unlinkat; [now left|now intros []|auto|]. split; [now right|apply now_put].
  - intros r s' G H. apply hoare_ret; [exact G|]. destruct r as [[]|]; auto.
Qed.

Lemma remove_temporary s k : hoare s (zero (remove_file k)) (frame [k] s) (fun b s' => b = true -> now s' !! k = None).
Proof.
  apply hoare_zero. eapply hoare_mono; [apply remove_file_spec|intros s' H; now apply removes_frame|].
  intros rc s' _ [[-> H]|[-> _]]; [auto|discriminate].
Qed.

Lemma fix_mode_spec s k mode l : now s !! k = Some (File l) -> hoare s (fix_mode k mode) (edits k s) (fun b s' =>
  b = true -> now s' !! k = Some (File (Leaf (l_data l) mode (l_links l) true))).
Proof.
  intros Hl. unfold fix_mode. eapply hoare_step; [apply quiet_open_read|apply edits_refl|]. intros [e|[]] _; [apply hoare_ret; [apply edits_refl|easy]|].
  eapply hoare_bind with (Q := fun b s' => b = true -> now s' !! k = Some (File (Leaf (l_data l) mode (l_links l) true))).
  - apply hoare_all_cons, hoare_fchmod; [apply edits_refl|easy|]. intros l' E. rewrite Hl in E. injection E as <-.
    split; [apply edits_poke, edits_refl|]. intros E1. apply hoare_all_cons, hoare_fsync_file; [exact E1|easy|].
    intros l' E. rewrite now_poke in E. injection E as <-. split; [now apply edits_poke|]. intros E2.
    apply hoare_all_nil; [exact E2|]. intros _. apply now_poke.
  - intros b s' E H. eapply hoare_step; [apply quiet_close|exact E|]. intros _ _. now apply hoare_ret.
Qed.

Lemma copy_file_spec s from to_ : hoare s (copy_file fuel from to_) (frame [to_] s) (fun rc s' => rc = 0 ->
  exists data, private_file (now s) from data /\ saved to_ data s s').
Proof.
  unfold copy_file. eapply hoare_step; [apply quiet_load|apply frame_refl|]. intros [rc b] H. cbn [fst snd] in H.
  destruct (Z.eqb_spec rc 0) as [E|]; [|now apply hoare_ret; [apply frame_refl|]].
  eapply hoare_mono; [apply save_spec|auto|]. eauto.
Qed.

(** The removal of a list of entries: a property of the trees that may be left
    holds on if it does not mind that some of them are gone. *)
Definition pruned (ks : list key) (d d' : disk) : Prop :=
  forall k : key, d' !! k = d !! k \/ k ∈ ks /\ d' !! k = None.
Definition prunable (I : disk -> Prop) (ks : list key) : Prop := forall d d' : disk, pruned ks d d' -> I d -> I d'.
Definition prunes (ks : list key) (s s' : store) : Prop :=
  frame ks s s' /\ pruned ks (now s) (now s') /\ forall I, prunable I ks -> always I s -> always I s'.

Lemma pruned_trans ks d1 d2 d3 : pruned ks d1 d2 -> pruned ks d2 d3 -> pruned ks d1 d3.
Proof. intros H1 H2 k. destruct (H2 k) as [->|]; auto. Qed.

Lemma prunes_refl ks s : prunes ks s s.
Proof. split; [apply frame_refl|]. split; [intros k; auto|auto]. Qed.

Lemma prunes_trans ks s1 s2 s3 : prunes ks s1 s2 -> prunes ks s2 s3 -> prunes ks s1 s3.
Proof.
  intros (F1 & N1 & P1) (F2 & N2 & P2). split; [eapply frame_trans; eassumption|]. split; [eapply pruned_trans; eassumption|auto].
Qed.

Lemma prunes_settle ks (d : Z) s : prunes ks s (settle d s).
Proof.
  split; [eapply frame_weaken; [|apply frame_settle]; set_solver|]. split; [intros k; now left|].
  intros I _ H. eapply always_mono; [apply (always_settle _ _ d H)|]. now intros x [].
Qed.

Lemma stable_prunable I ks : stable I ks -> prunable I ks.
Proof. intros S d d' H. apply S. intros k Hk. destruct (H k) as [E|[E _]]; [exact E|contradiction]. Qed.

Lemma prunable_and I I' ks : prunable I ks -> prunable I' ks -> prunable (fun d => I d /\ I' d) ks.
Proof. intros P P' d d' H []. split; [eapply P|eapply P']; eassumption. Qed.

Lemma prunes_removed ks k s s' : k ∈ ks -> removes k s s' -> prunes ks s s'.
Proof.
  intros Hk Hr. split; [eapply frame_weaken; [|apply removes_frame; exact Hr]; set_solver|]. split.
  { intros k'. destruct Hr as [->| ->]; [now left|]. cbn. destruct (decide (k' = k)) as [->|Hne].
    - right. split; [exact Hk|apply lookup_delete_eq].
    - left. now apply lookup_delete_ne. }
  intros I P H. destruct Hr as [->| ->]; [exact H|]. eapply always_put; [exact H|auto|].
  intros d d0 Hd Hs He. apply (P d0); [|exact Hd]. intros k'. destruct (decide (k' = k)) as [->|Hne]; [right|left; auto].
  split; [exact Hk|]. now destruct (d !! k).
Qed.

Lemma pruned_weaken ks ks' d d' : ks ⊆ ks' -> pruned ks d d' -> pruned ks' d d'.
Proof. intros Hs H k. destruct (H k) as [|[]]; [auto|]. right. split; [now apply Hs|assumption]. Qed.

Lemma prunes_weaken ks ks' s s' : ks ⊆ ks' -> prunes ks s s' -> prunes ks' s s'.
Proof.
  intros Hs (F & N & P). split; [now apply (frame_weaken ks)|]. split; [now apply (pruned_weaken ks)|].
  intros I PI. apply P. intros d d' H. apply PI. now apply (pruned_weaken ks).
Qed.

Lemma remove_list_spec (e : Z) names : forall s, hoare s (all_ok (map (fun name => zero (remove_file (e, name))) names))
  (prunes (map (pair e) names) s) (fun b s' => b = true -> forall name, name ∈ names -> now s' !! (e, name) = None).
Proof.
  induction names as [|name names IH]; intros s; cbn [map].
  { apply hoare_all_nil; [apply prunes_refl|]. intros _ n Hn. now apply elem_of_nil in Hn. }
  apply hoare_all_cons, hoare_zero. eapply hoare_mono; [apply remove_file_spec| |].
  - intros s' H. apply (prunes_removed _ (e, name)); [apply list_elem_of_here|exact H].
  - intros rc s' _ H F'. destruct H as [[-> H]|[-> _]]; [|easy]. cbn [Z.eqb]. eapply hoare_mono; [apply IH| |].
    + intros s'' F1. eapply prunes_trans; [exact F'|]. eapply prunes_weaken; [|exact F1]. set_solver.
    + intros b s'' [F1 _] H1 Hb n Hn. specialize (H1 Hb). destruct (decide (n ∈ names)) as [Hi|Hi]; [auto|].
      apply elem_of_cons in Hn as [->|Hn]; [|contradiction]. rewrite (proj1 (F1 (e, name) ltac:(rewrite list_elem_of_fmap; naive_solver))). exact H.
Qed.
End Facts.
