(* ===== verification/Passive.v ===== *)
(** * Programs that leave the tree alone (generation.c)

    What a program on the tree of [Files] that only reads may have changed: nothing
    but what the other processes did before it was given the lock.  The parts of
    [Generation] that read, up to the pin of a generation. *)
From stdpp Require Import gmap.
From S2P Require Import Prelude Sha256 Bytes Files FilesFacts Generation GenerationFacts.

(** ** Programs that leave the tree alone *)

(** What the other processes may have made of a tree, whenever a lock was taken. *)
Inductive others_only `{KN : Kernel} : store -> store -> Prop :=
  | others_none s : others_only s s
  | others_more s s' i : others_only s s' -> others_only s (others i s').

Section Passive.
Context `{KN : Kernel} `{HP : Heap}.

Lemma others_only_trans a b c : others_only a b -> others_only b c -> others_only a c.
Proof. intros H1 H2. induction H2 as [|s s' i _ IH]; [exact H1|]. apply others_more. auto. Qed.

Definition passive {A} (m : fio A) : Prop := forall w, others_only (st w) (st (m w).2).

Lemma passive_ret {A} (a : A) : passive (mret a).
Proof. intros w. apply others_none. Qed.
Lemma passive_bind {A B} (m : fio A) (f : A -> fio B) : passive m -> (forall a, passive (f a)) -> passive (m ≫= f).
Proof.
  intros Hm Hf w. unfold mbind, fio_bind. specialize (Hm w). destruct (m w) as [[a|] w']; [|exact Hm].
  exact (others_only_trans _ _ _ Hm (Hf a w')).
Qed.
Lemma passive_quiet {A} (m : fio A) (Q : store -> A -> Prop) : (forall s, quiet s m (Q s)) -> passive m.
Proof. intros H w. destruct (H (st w) w eq_refl) as [<- _]. apply others_none. Qed.
Lemma passive_same {A} (m : fio A) : (forall w, st (m w).2 = st w) -> passive m.
Proof. intros H w. rewrite H. apply others_none. Qed.

Lemma passive_lock : passive lock.
Proof.
  apply passive_bind; [|intros r; destruct r as [[]|]; apply passive_ret]. intros w. unfold setlk, call. destruct (answers (tick w)); cbn; try apply others_none.
  all: destruct (held w); [apply others_none|apply others_more, others_none].
Qed.
Lemma passive_unlock : passive unlock.
Proof.
  apply passive_same. intros w. unfold unlock, unlk, query, call. destruct (answers (tick w)); reflexivity.
Qed.

End Passive.

Create HintDb passive.
#[export] Hint Resolve passive_lock passive_unlock : passive.

Ltac quietly H := eapply passive_quiet; intros; first [apply H | eapply quiet_true; apply H].
(** One construct of a program; [keeping_step] is for programs with locals. *)
Ltac keeping_step := fail.
Ltac passing_step :=
  match goal with
  | |- passive (mret _) => apply passive_ret
  | |- passive (_ ≫= _) => apply passive_bind; [|intros ?]
  | |- passive (if ?b then _ else _) => destruct b
  | |- passive (match ?x with _ => _ end) => destruct x
  | _ => keeping_step
  end.
Ltac passing := repeat (first [solve [auto with passive nocore] | passing_step]).

Section Parts.
Context `{KN : Kernel} `{HP : Heap} (fuel : nat).

Lemma passive_close_directory d : passive (close_directory d).
Proof. quietly quiet_close_directory. Qed.
Lemma passive_location_close l : passive (location_close l).
Proof. quietly quiet_location_close. Qed.
Lemma passive_generation_close g : passive (jf_generation_close g).
Proof. quietly quiet_generation_close. Qed.
Lemma passive_close : passive close.
Proof. quietly quiet_close. Qed.
Lemma passive_exists k : passive (exists_ k).
Proof. quietly quiet_exists. Qed.
Lemma passive_selector l : passive (selector l).
Proof. quietly quiet_selector. Qed.
Lemma passive_committed l : passive (committed_journal fuel l).
Proof. quietly quiet_committed. Qed.
Lemma passive_pin l r e : passive (pin_locked fuel l r e).
Proof. quietly quiet_pin_locked. Qed.
Lemma passive_open_path p : passive (open_path p).
Proof. quietly quiet_open_path. Qed.
Lemma passive_load_mode k n b : passive (load_mode fuel k n b).
Proof. quietly quiet_load_mode. Qed.
Lemma passive_clear : passive clear_error.
Proof. now apply passive_same. Qed.
Lemma passive_get_errno : passive get_errno.
Proof. quietly quiet_get_errno. Qed.
Lemma passive_query {A} (f : store -> errno + A) : passive (query f).
Proof. apply passive_same. intros w. unfold query, call. destruct (answers (tick w)); try reflexivity; now destruct (f (st w)). Qed.
Lemma passive_all_ok l : Forall passive l -> passive (all_ok l).
Proof. induction 1 as [|m l Hm _ IH]; cbn [all_ok]; passing; auto. Qed.
Lemma passive_directory k : passive (directory k false).
Proof. quietly quiet_directory. Qed.
Lemma passive_open_directory k : passive (open_directory k).
Proof. quietly quiet_open_directory. Qed.
Lemma passive_open_lock k : passive (open_lock k false).
Proof.
  apply passive_same. intros w. unfold open_lock, call. destruct (answers (tick w)); try reflexivity; now destruct (now (st w) !! k) as [[]|].
Qed.
Lemma passive_fstat k : passive (fstat k).
Proof. quietly quiet_fstat. Qed.
End Parts.
#[export] Hint Resolve passive_close_directory passive_location_close passive_generation_close passive_close passive_exists passive_selector
  passive_committed passive_pin passive_open_path passive_load_mode passive_clear passive_get_errno
  passive_query passive_directory passive_open_directory passive_open_lock passive_fstat : passive.

Section Pin.
Context `{KN : Kernel} `{HP : Heap} (fuel : nat).

Lemma passive_locate root : passive (locate root false).
Proof.
  unfold locate, locate_bad. passing. apply passive_all_ok. repeat constructor. unfold regular. passing.
Qed.
#[local] Hint Resolve passive_locate : passive.

Lemma passive_generation_pin root id : passive (jf_generation_pin fuel root id).
Proof. unfold jf_generation_pin. passing. Qed.
End Pin.
#[export] Hint Resolve passive_locate passive_generation_pin : passive.
