(* ===== verification/Recovery.v ===== *)
(** * Recovering an unfinished transaction (generation.c)

    The states that a transaction may leave, wherever it stopped and whatever the
    power kept, and what [recover] makes of them: it goes back to the view before
    the transaction, or on to the view after it, never to a mixture. *)
From stdpp Require Import gmap.
From S2P Require Import Prelude Sha256 Rules Bytes Cache Import Files FilesFacts Generation GenerationFacts.

#[local] Opaque grow_capacity.

(** Closed goals about names. *)
Ltac names := refine (bool_decide_unpack _ _); vm_compute; exact I.

Definition public_name : bytes := str "Filters.sieve".

(** A private file that was written and synchronised. *)
Definition written (data : bytes) : option node := Some (File (Leaf data 384 1 true)).

(** The same file to a reader, or the same entry, and durable. *)
Definition alike (o o' : option node) : Prop :=
  match o, o' with
  | None, None => True
  | Some (File a), Some (File b) => l_data b = l_data a /\ l_mode b = l_mode a /\ l_synced b = true
  | Some (File _), _ => False
  | Some n, Some n' => n' = n
  | _, _ => False
  end.

Lemma alike_survives v o o' : alike v o -> survives o o' -> alike v o'.
Proof.
  destruct v as [[a|t|n m|]|], o as [[b|t'|n' m'|]|]; cbn; try easy; destruct o' as [[c|t''|n'' m''|]|]; cbn; try easy; try congruence.
  intros (H1 & H2 & H3) H. now rewrite (H H3).
Qed.

Lemma written_survives data o : survives (written data) o -> o = written data.
Proof. destruct o as [[]|]; cbn; try easy. intros H. now rewrite H. Qed.

Lemma none_survives o : survives None o -> o = None.
Proof. now destruct o. Qed.

Lemma link_survives t o : survives (Some (Link t)) o -> o = Some (Link t).
Proof. destruct o as [[]|]; cbn; easy || congruence. Qed.

Lemma private_written d k data data' : private_file d k data -> d !! k = written data' -> data = data'.
Proof. intros (y & H) E. rewrite H in E. now injection E. Qed.

(** What a user of the engine sees: the public file, the selected generation, the
    four inputs. *)
Record view := View { v_public : option node; v_selector : bytes; v_input : nat -> option node }.

Definition selector_node (id : bytes) : option node :=
  if streq id [] then None else Some (Link (selector_target id)).

Lemma selector_survives id o : survives (selector_node id) o -> o = selector_node id.
Proof. unfold selector_node. destruct (streq id []); [apply none_survives|apply link_survives]. Qed.

(** The names of the entries that no step may leave behind. *)
Definition inputs_list : list nat := [0%nat; 1%nat; 2%nat; 3%nat].

Section Recovery.
Context `{KN : Kernel} `{HP : Heap} (fuel : nat) (l : location).
Abbreviation E := (l_engine l).
Abbreviation R := (l_root l).
Abbreviation N := (l_generations l).

Definition backup_name (i : nat) : bytes := input_name i (str "backup").
Definition kj : key := (E, str "journal").
Definition kc : key := (E, str "committed").
Definition ks : key := (E, str "current").
Definition kb : key := (E, str "export.backup").
Definition kk : key := (E, import_journal).
Definition kp : key := (R, public_name).
Definition ki (i : nat) : key := (R, import_target i).

(** A transaction: the views before and after it, the fields of its journal, the
    lines of the inputs, the public file it installs and the directory of its
    generation. *)
Record transaction := Transaction {
  t_old : view; t_new : view; t_journal : journal; t_lines : list input_line; t_sieve : bytes; t_number : Z }.
Context (t : transaction).
Abbreviation old := (t_old t).
Abbreviation new := (t_new t).
Abbreviation j := (t_journal t).

Record transaction_ok : Prop := TransactionOk {
  ok_engine : E <> R; ok_generations : N <> E /\ N <> R; ok_number : t_number t <> E /\ t_number t <> R;
  ok_journal : journal_ok j;
  ok_old_selector : v_selector old = if streq (j_old j) (str "-") then [] else j_old j;
  ok_new_selector : v_selector new = j_next j;
  ok_old_public : match v_public old with
                  | None => j_present j = 0 | Some (File a) => j_present j = 1 /\ l_mode a = j_mode j | _ => True end;
  ok_new_public : v_public new = written (t_sieve t);
  ok_lines : length (t_lines t) = 4%nat /\ Forall line_ok (t_lines t);
  ok_inputs : forall i line, t_lines t !! i = Some line ->
    if changed line =? 0 then v_input old i = v_input new i
    else match v_input old i with
         | None => i_present line = 0 | Some (File a) => i_present line = 1 /\ l_mode a = i_mode line | _ => False end }.
Context (OK : transaction_ok).

(** ** The states of the entries *)

Definition backup_ok (d : disk) (k : key) (v : option node) : Prop :=
  match v with Some (File a) => d !! k = None \/ d !! k = written (l_data a) | _ => True end.

Definition inputs_are (v : view) (d : disk) : Prop := forall i, (i < 4)%nat -> alike (v_input v i) (d !! ki i).
Definition exports_are (v : view) (d : disk) : Prop :=
  alike (v_public v) (d !! kp) /\ d !! ks = selector_node (v_selector v).
Definition shows (v : view) (d : disk) : Prop := exports_are v d /\ inputs_are v d.

Definition inputs_written (d : disk) : Prop := d !! kk = written (inputs_bytes (t_lines t)).
Definition backups_ok (d : disk) : Prop := forall i line, t_lines t !! i = Some line ->
  changed line <> 0 -> backup_ok d (E, backup_name i) (v_input old i).

(** The inputs before the commitment: as they were, or to be taken back. *)
Definition inputs_old (d : disk) : Prop :=
  d !! kk = None /\ inputs_are old d \/
  inputs_written d /\ backups_ok d /\
    forall i line, t_lines t !! i = Some line -> changed line = 0 -> alike (v_input old i) (d !! ki i).
(** At the commitment: as they shall be, and could be taken back. *)
Definition inputs_both (d : disk) : Prop :=
  inputs_are new d /\
  (d !! kk = None /\ (forall i, (i < 4)%nat -> v_input old i = v_input new i) \/ inputs_written d /\ backups_ok d).
Definition inputs_new (d : disk) : Prop := inputs_are new d /\ (d !! kk = None \/ inputs_written d).

Definition journal_in (d : disk) : Prop := d !! kj = written (journal_bytes j).
Definition marker_in (d : disk) : Prop := d !! kc = written (j_next j).
Definition installed_ok (d : disk) : Prop :=
  d !! (N, j_next j) = Some (Folder (t_number t) 448) /\ d !! (t_number t, public_name) = written (t_sieve t).

(** No journal and the old exports; a journal without the marker; both. *)
Definition idle_old (d : disk) : Prop := d !! kj = None /\ exports_are old d.
Definition regular_public : Prop := match v_public old with None | Some (File _) => True | _ => False end.
Definition backed (d : disk) : Prop := backup_ok d kb (v_public old) /\ regular_public.
Definition pending (d : disk) : Prop := journal_in d /\ d !! kc = None /\ backed d.
Definition marked (d : disk) : Prop := journal_in d /\ marker_in d /\ backed d /\ installed_ok d.
Definition finished (d : disk) : Prop := journal_in d /\ marker_in d /\ exports_are new d.

Definition before (d : disk) : Prop := (idle_old d \/ pending d) /\ inputs_old d.
Definition at_commit (d : disk) : Prop := marked d /\ inputs_both d.
Definition after (d : disk) : Prop := finished d /\ inputs_new d.
Definition cleaning (d : disk) : Prop :=
  (d !! kj = None \/ journal_in d /\ marker_in d) /\ shows new d /\ d !! kk = None.

(** ** The states of the store *)

Definition uncommitted (s : store) : Prop :=
  always (fun d => before d /\ exports_are old d) s \/
  (pending (now s) /\ inputs_old (now s)) /\ always (fun d => before d \/ at_commit d) s.
Definition committing (s : store) : Prop :=
  at_commit (now s) /\ always (fun d => (pending d \/ marked d) /\ inputs_both d) s /\
  settled s kp /\ settled s ks /\ settled s kk /\ (forall a, now s !! kp = Some (File a) -> l_synced a = true).
Definition committed (s : store) : Prop := committing s \/ always after s \/ always cleaning s.

(** Nothing of a transaction is left. *)
Definition temporary : list bytes := cleanup_names ++ cleanup_inputs.
Definition idle (v : view) (d : disk) : Prop :=
  shows v d /\ d !! kj = None /\ d !! kk = None /\ forall name, name ∈ temporary -> d !! (E, name) = None.

(** ** Entries that a step does not touch *)

Lemma not_in_engine (e : Z) (name : bytes) (names : list bytes) : name ∉ names -> (e, name) ∉ map (pair e) names.
Proof. intros H. rewrite list_elem_of_fmap. naive_solver. Qed.
Lemma not_in_other (e : Z) (k : key) (names : list bytes) : k.1 <> e -> k ∉ map (pair e) names.
Proof. intros H. rewrite list_elem_of_fmap. intros (y & -> & _). now apply H. Qed.

Lemma inputs_four i line : t_lines t !! i = Some line -> (i < 4)%nat.
Proof. destruct OK as [_ _ _ _ _ _ _ _ [<- _] _]. apply lookup_lt_Some. Qed.

Lemma both_old d : inputs_both d -> inputs_old d.
Proof.
  intros [Hn [[Hk He]|[Hk Hb]]]; [left|right].
  - split; [exact Hk|]. intros i Hi. rewrite He by exact Hi. auto.
  - split; [exact Hk|]. split; [exact Hb|]. intros i line Hl Hc. pose proof (ok_inputs OK i line Hl) as H.
    apply Z.eqb_eq in Hc. rewrite Hc in H. rewrite H. apply Hn. now apply inputs_four in Hl.
Qed.

Lemma both_new d : inputs_both d -> inputs_new d.
Proof. intros [Hn [[Hk _]|[Hk _]]]; split; auto. Qed.

(** The entries that the recovery of the inputs changes. *)
Definition import_keys : list key := kk :: map ki inputs_list ++ map (pair E) cleanup_inputs.

Lemma import_key_target i : (i < 4)%nat -> ki i ∈ import_keys.
Proof.
  intros H. apply list_elem_of_further, elem_of_app. left. apply list_elem_of_fmap. exists i. split; [reflexivity|].
  destruct i as [|[|[|[|]]]]; [names..|lia].
Qed.

Lemma import_key_temporary name : name ∈ cleanup_inputs -> (E, name) ∈ import_keys.
Proof. intros H. apply list_elem_of_further, elem_of_app. right. apply list_elem_of_fmap. eauto. Qed.

(** The entry [T] gets one of the values [V], with the help of some others. *)
Definition retargets (temps : list key) (T : key) (V : option node -> Prop) (s s' : store) : Prop :=
  frame (T :: temps) s s' /\
  forall I : disk -> Prop, stable I temps ->
    (forall d d0, I d0 -> V (d !! T) -> (forall k, k <> T -> d !! k = d0 !! k) -> I d) -> always I s -> always I s'.

Lemma retargets_frame temps T V s s' : frame temps s s' -> retargets temps T V s s'.
Proof.
  intros F. split; [eapply frame_weaken; [|exact F]; set_solver|]. intros I S _ H. eapply always_frame; eassumption.
Qed.

Lemma retargets_put temps T (V : option node -> Prop) s s1 s' o : frame temps s s1 ->
  (forall o', survives o o' -> V o') -> frame temps (put T o s1) s' -> retargets temps T V s s'.
Proof.
  intros F HV F'. split.
  - eapply frame_trans; [eapply frame_weaken; [|exact F]; set_solver|].
    eapply frame_trans; [|eapply frame_weaken; [|exact F']; set_solver].
    eapply frame_weaken; [|apply frame_put]. set_solver.
  - intros I S C H. eapply always_frame; [exact F'|exact S|]. eapply always_put; [eapply always_frame; eassumption|auto|].
    intros d d0 H0 H1 H2. exact (C d d0 H0 (HV _ H1) H2).
Qed.

Lemma alike_file v data mode n : match v with Some (File a) => l_data a = data /\ l_mode a = mode | _ => False end ->
  alike v (Some (File (Leaf data mode n true))).
Proof. now destruct v as [[a| | |]|]. Qed.

Lemma restore_file_spec s e present mode backup restore T v :
  match v with None => present = 0 | Some (File a) => present = 1 /\ l_mode a = mode | _ => False end ->
  backup_ok (now s) (e, backup) v -> backup <> restore -> (e, restore) <> T ->
  hoare s (restore_file fuel e present mode backup restore T) (retargets [(e, restore)] T (alike v) s)
    (fun b s' => b = true -> alike v (now s' !! T)).
Proof.
  intros Hv Hb Hn HT. unfold restore_file. destruct v as [[a| | |]|]; try easy.
  - destruct Hv as [-> Hm]. cbn [negb Z.eqb].
    assert (G0 : forall s', frame [(e, restore)] s s' -> retargets [(e, restore)] T (alike (Some (File a))) s s') by (intros; now apply retargets_frame).
    apply hoare_all_cons. eapply hoare_mono; [apply remove_temporary|exact G0|]. intros [] s1 F1 _ _; [|easy].
    apply hoare_all_cons, hoare_zero. eapply hoare_mono; [apply copy_file_spec|intros s' F; apply G0; eapply frame_trans; eassumption|].
    intros rc s2 F2 H2 _. destruct (Z.eqb_spec rc 0) as [E|]; [|easy]. destruct (H2 E) as (data & Hd & _ & Hs & _). clear H2 E.
    assert (Hk : now s1 !! (e, backup) = now s !! (e, backup)).
    { apply F1. rewrite list_elem_of_singleton. congruence. }
    assert (data = l_data a) as ->.
    { destruct Hd as (y & Hd). rewrite Hk in Hd. destruct Hb as [Hb|Hb]; rewrite Hb in Hd; [discriminate|]. now injection Hd. }
    assert (F02 : frame [(e, restore)] s s2) by (eapply frame_trans; eassumption).
    apply hoare_all_cons. eapply hoare_mono; [apply (fix_mode_spec _ _ mode _ Hs)|intros s' [F _]; apply G0; eapply frame_trans; eassumption|].
    intros [] s3 [F3 _] H3 _; [|easy]. specialize (H3 eq_refl). cbn in H3.
    assert (F03 : frame [(e, restore)] s s3) by (eapply frame_trans; eassumption).
    apply hoare_all_cons, hoare_renameat; [exact HT|now apply G0|easy|]. intros n E. rewrite H3 in E. injection E as <-. split.
    + eapply retargets_put; [exact F03| |apply frame_put]. intros o Ho. eapply alike_survives; [|exact Ho]. now apply alike_file.
    + intros G4. apply hoare_all_nil; [exact G4|]. intros _. cbn. rewrite lookup_delete_ne, lookup_insert_eq by exact HT. now apply (alike_file (Some (File a))).
  - subst present. cbn [negb Z.eqb]. apply hoare_zero. eapply hoare_mono; [apply remove_file_spec| |].
    + intros s' [->| ->]; [apply retargets_frame, frame_refl|]. eapply retargets_put; [apply frame_refl| |apply frame_refl].
      intros o Ho. now rewrite (none_survives _ Ho).
    + intros rc s' _ [[-> H]|[-> _]]; [|discriminate]. intros _. now rewrite H.
Qed.

Lemma set_selector_spec s id temp : let T := ks in temp <> str "current" ->
  hoare s (set_selector l id temp) (retargets [(E, temp)] T (fun o => o = selector_node id) s)
    (fun rc s' => rc = 0 -> now s' !! T = selector_node id).
Proof.
  intros T Ht. assert (HT : (E, temp) <> T) by (unfold T, ks; congruence). unfold set_selector, selector_node. fold ks. fold T.
  destruct (streq id []).
  { eapply hoare_mono; [apply remove_file_spec| |].
    + intros s' [->| ->]; [apply retargets_frame, frame_refl|]. eapply retargets_put; [apply frame_refl| |apply frame_refl].
      intros o Ho. now apply none_survives.
    + intros rc s' _ [[-> H]|[-> _]]; [auto|discriminate]. }
  set (V := fun o : option node => o = Some (Link (selector_target id))).
  assert (G0 : forall s', frame [(E, temp)] s s' -> retargets [(E, temp)] T V s s') by (intros; now apply retargets_frame).
  eapply hoare_bind with (Q := fun b s' => b = true -> now s' !! T = Some (Link (selector_target id))).
  - apply hoare_all_cons. eapply hoare_mono; [apply remove_temporary|exact G0|]. intros [] s1 F1 _ _; [|easy].
    apply hoare_all_cons, hoare_symlinkat; [now apply G0|easy|]. intros _.
    assert (F2 : frame [(E, temp)] s (put (E, temp) (Some (Link (selector_target id))) s1)) by (eapply frame_trans; [exact F1|apply frame_put]).
    split; [now apply G0|]. intros _. apply hoare_all_cons, hoare_renameat; [exact HT|now apply G0|easy|].
    intros n Hn. rewrite now_put in Hn. injection Hn as <-. split.
    + eapply retargets_put; [exact F2| |apply frame_put]. intros o Ho. now apply link_survives.
    + intros G4. apply hoare_all_nil; [exact G4|]. intros _. cbn. now rewrite lookup_delete_ne, lookup_insert_eq by exact HT.
  - intros b s' G H. apply hoare_ret; [exact G|]. destruct b; [auto|discriminate].
Qed.

(** ** The removal of temporary entries, synchronised at its end *)

Lemma tail_spec s names (D D' : disk -> Prop) : let ns := map (pair E) names in prunable D ns -> always D s ->
  (forall d, D d -> (forall n, n ∉ names -> survives (now s !! (E, n)) (d !! (E, n))) -> D' d) ->
  hoare s (all_ok (map (fun name => zero (remove_file (E, name))) names ++ [fsync_dir E])) (prunes ns s)
    (fun b s' => b = true -> always (fun d => D' d /\ forall name, name ∈ names -> d !! (E, name) = None) s').
Proof.
  intros ns S H HD. apply hoare_all_app. eapply hoare_mono; [apply remove_list_spec|auto|].
  intros [] s' (F & _ & P) Hn G; [|easy]. specialize (Hn eq_refl). assert (H' := P D S H).
  assert (G' : prunes ns s (settle E s')) by (eapply prunes_trans; [exact G|apply prunes_settle]).
  apply hoare_all_cons, hoare_fsync_dir; [exact G|easy|exact G'|]. intros _.
  apply hoare_all_nil; [exact G'|]. intros _. eapply always_mono; [apply (always_settle _ _ E H')|].
  intros d [Hd Hs]. split.
  - apply HD; [exact Hd|]. intros n Hi. specialize (Hs n). now rewrite (proj1 (F (E, n) (not_in_engine _ _ _ Hi))) in Hs.
  - intros name Hi. apply none_survives. rewrite <- (Hn name Hi). apply Hs.
Qed.

Definition import_temps : list key := map (pair E) cleanup_inputs.

(** The end of [recover_inputs]. *)
Lemma inputs_tail_spec s (D D' : disk -> Prop) : prunable D import_temps -> always D s ->
  (forall d, D d -> survives (now s !! kc) (d !! kc) -> survives (now s !! kk) (d !! kk) -> D' d) ->
  hoare s (b ← all_ok (map (fun name => zero (remove_file (E, name))) cleanup_inputs ++ [fsync_dir E]); mret (status b))
    (prunes import_temps s)
    (fun rc s' => rc = 0 -> always (fun d => D' d /\ forall name, name ∈ cleanup_inputs -> d !! (E, name) = None) s').
Proof.
  intros S H HD. eapply hoare_bind; [apply (tail_spec _ _ _ D' S H)| ].
  - intros d Hd Hs. apply HD; [exact Hd|apply Hs..]; names.
  - intros b s' G HQ. apply hoare_ret; [exact G|]. destruct b; [auto|discriminate].
Qed.

Lemma kk_not_target i : kk <> ki i.
Proof. destruct OK as [H _ _ _ _ _ _ _ _ _]. unfold kk, ki. congruence. Qed.

Lemma target_inj i i' : (i < 4)%nat -> (i' < 4)%nat -> ki i = ki i' -> i = i'.
Proof.
  intros H H' [= Hn]. destruct i as [|[|[|[|]]]], i' as [|[|[|[|]]]]; try reflexivity; try lia; discriminate Hn.
Qed.

Lemma backup_not_target i i' : (E, backup_name i) <> ki i'.
Proof. destruct OK as [H _ _ _ _ _ _ _ _ _]. unfold ki. congruence. Qed.

(** Giving an input its old value back keeps what can be recovered. *)
Lemma inputs_old_restored i d d0 : (i < 4)%nat -> inputs_old d0 -> alike (v_input old i) (d !! ki i) ->
  (forall k, k <> ki i -> d !! k = d0 !! k) -> inputs_old d.
Proof.
  intros Hi H Ha He. unfold inputs_old, inputs_are, inputs_written, backups_ok, backup_ok in *.
  rewrite (He kk) by apply kk_not_target. destruct H as [[Hk Ho]|[Hk [Hb Ho]]]; [left|right].
  - split; [exact Hk|]. intros i' Hi'. destruct (decide (i' = i)) as [->|Hne]; [exact Ha|].
    rewrite He; [auto|]. intros E. now apply Hne, target_inj.
  - split; [exact Hk|]. split.
    + intros i' line Hl Hc. specialize (Hb i' line Hl Hc). now rewrite (He (E, backup_name i')) by apply backup_not_target.
    + intros i' line Hl Hc. destruct (decide (i' = i)) as [->|Hne]; [exact Ha|].
      rewrite He; [eauto|]. intros E. apply Hne, target_inj; [now apply inputs_four in Hl|exact Hi|exact E].
Qed.

Lemma inputs_old_stable name : name <> import_journal -> (forall i, (i < 4)%nat -> name <> backup_name i) -> stable inputs_old [(E, name)].
Proof.
  intros Hn Hb d d' He. assert (He' : forall k, k <> (E, name) -> d' !! k = d !! k) by (intros k Hk; apply He; now rewrite list_elem_of_singleton).
  assert (HI : forall i, d' !! ki i = d !! ki i) by (intros i; apply He'; destruct OK as [H _ _ _ _ _ _ _ _ _]; unfold ki; congruence).
  unfold inputs_old, inputs_are, inputs_written, backups_ok, backup_ok. rewrite (He' kk) by (unfold kk; congruence).
  intros [[Hk Ho]|[Hk [HB Ho]]]; [left|right].
  - split; [exact Hk|]. intros i Hi. rewrite HI. auto.
  - split; [exact Hk|]. split.
    + intros i line Hl Hc. rewrite He'; [exact (HB i line Hl Hc)|]. intros [= E]. apply (Hb i); [now apply inputs_four in Hl|exact (eq_sym E)].
    + intros i line Hl Hc. rewrite HI. eauto.
Qed.

Lemma restore_name_distinct i i' : (i < 4)%nat -> (i' < 4)%nat -> input_name i (str "restore") <> backup_name i'.
Proof. intros H H'. destruct i as [|[|[|[|]]]], i' as [|[|[|[|]]]]; try lia; names. Qed.
Lemma restore_name_journal i : (i < 4)%nat -> input_name i (str "restore") <> import_journal.
Proof. intros H. destruct i as [|[|[|[|]]]]; [names..|lia]. Qed.
Lemma restore_name_temporary i : (i < 4)%nat -> input_name i (str "restore") ∈ cleanup_inputs.
Proof. intros H. destruct i as [|[|[|[|]]]]; [names..|lia]. Qed.

(** The loop that takes the inputs back. *)
Lemma restore_inputs_spec (B : disk -> Prop) ls : stable B import_keys -> forall i0 s,
  ls = drop i0 (t_lines t) -> always (fun d => B d /\ inputs_old d) s -> inputs_written (now s) ->
  (forall i, (i < i0)%nat -> (i < 4)%nat -> alike (v_input old i) (now s !! ki i)) ->
  hoare s (all_ok (imap (fun i => restore_input fuel l (i0 + i)) ls)) (always (fun d => B d /\ inputs_old d))
    (fun b s' => b = true -> inputs_written (now s') /\ inputs_are old (now s')).
Proof.
  intros SB. induction ls as [|line ls IH]; intros i0 s Hls H Hw Hd; cbn [imap].
  { apply hoare_all_nil; [exact H|]. intros _. split; [exact Hw|]. intros i Hi. apply Hd; [|exact Hi].
    assert (length (drop i0 (t_lines t)) = 0%nat) as L by now rewrite <- Hls. rewrite length_drop, (proj1 (ok_lines OK)) in L. lia. }
  assert (Hl : t_lines t !! i0 = Some line).
  { rewrite <- (Nat.add_0_r i0). rewrite <- lookup_drop, <- Hls. reflexivity. }
  pose proof (inputs_four _ _ Hl) as Hi.
  assert (Hnow : inputs_old (now s)) by (apply (always_now _ _ H)).
  destruct Hnow as [[Hk _]|[_ [HB HO]]]; [unfold inputs_written in Hw; rewrite Hk in Hw; discriminate|].
  assert (Hls' : ls = drop (S i0) (t_lines t)) by (rewrite (drop_S _ _ _ Hl) in Hls; now injection Hls).
  rewrite Nat.add_0_r. apply hoare_all_cons. unfold restore_input at 1.
  assert (Step : forall s', always (fun d => B d /\ inputs_old d) s' -> inputs_written (now s') ->
    (forall i, (i < S i0)%nat -> (i < 4)%nat -> alike (v_input old i) (now s' !! ki i)) ->
    hoare s' (all_ok (imap ((fun i => restore_input fuel l (i0 + i)) ∘ S) ls)) (always (fun d => B d /\ inputs_old d))
      (fun b s' => b = true -> inputs_written (now s') /\ inputs_are old (now s'))).
  { intros s' H' Hw' Hd'. erewrite imap_ext; [apply (IH (S i0) s' Hls' H' Hw' Hd')|]. intros i x _. cbn. f_equal. lia. }
  pose proof (ok_inputs OK i0 line Hl) as Hv. destruct (Z.eqb_spec (changed line) 0) as [Hc|Hc].
  { apply hoare_ret; [exact H|]. intros _. apply Step; [exact H|exact Hw|]. intros i Hi' Hi4.
    destruct (decide (i = i0)) as [->|]; [now apply (HO _ line)|apply Hd; lia]. }
  fold (ki i0). eapply hoare_mono; [apply (restore_file_spec _ _ _ _ _ _ _ (v_input old i0))| |].
  - exact Hv.
  - now apply HB with (line := line).
  - intros E. symmetry in E. now apply restore_name_distinct in E.
  - destruct OK as [HER _ _ _ _ _ _ _ _ _]. unfold ki. congruence.
  - intros s' [_ C]. apply C; [| |exact H].
    + apply stable_and; [|apply inputs_old_stable].
      * eapply stable_sub; [exact SB|]. intros k Hk. apply list_elem_of_singleton in Hk as ->. apply import_key_temporary. now apply restore_name_temporary.
      * now apply restore_name_journal.
      * intros i Hi'. now apply restore_name_distinct.
    + intros d d0 [H1 H2] Ha He. split; [|now apply (inputs_old_restored i0 d d0)].
      apply (SB d0); [|exact H1]. intros k Hk. apply He. intros ->. apply Hk. now apply import_key_target.
  - intros b s' [F C] Ha H'. destruct b; [|easy]. specialize (Ha eq_refl).
    assert (Fr : forall k, k <> ki i0 -> k <> (E, input_name i0 (str "restore")) -> now s' !! k = now s !! k).
    { intros k H1 H2. apply F. set_solver. }
    apply Step; [| |].
    + exact H'.
    + unfold inputs_written. rewrite Fr; [exact Hw|apply kk_not_target|]. unfold kk. now intros [=].
    + intros i Hi' Hi4. destruct (decide (i = i0)) as [->|Hne]; [exact Ha|]. rewrite Fr; [apply Hd; lia| |].
      * intros E. now apply Hne, target_inj.
      * destruct OK as [HER _ _ _ _ _ _ _ _ _]. unfold ki. congruence.
Qed.

Lemma import_temps_sub : import_temps ⊆ import_keys.
Proof. intros k Hk. apply list_elem_of_fmap in Hk as (n & -> & Hn). now apply import_key_temporary. Qed.

Lemma pruned_other (d d' : disk) k : pruned import_temps d d' -> k ∉ import_temps -> d' !! k = d !! k.
Proof. intros H Hk. destruct (H k) as [|[]]; [assumption|contradiction]. Qed.

Lemma backups_ok_prunable : prunable backups_ok import_temps.
Proof.
  intros d d' H Hb i line Hl Hc. specialize (Hb i line Hl Hc). unfold backup_ok in *. destruct (v_input old i) as [[a| | |]|]; try easy.
  destruct (H (E, backup_name i)) as [-> |[_ ->]]; auto.
Qed.

Lemma inputs_are_pruned v (d d' : disk) : pruned import_temps d d' -> inputs_are v d -> inputs_are v d'.
Proof.
  intros H Hi i Hlt. rewrite (pruned_other _ _ _ H); [auto|]. apply not_in_other. destruct OK as [HER _ _ _ _ _ _ _ _ _]. cbn. congruence.
Qed.

Lemma kk_not_temporary : kk ∉ import_temps.
Proof. apply not_in_engine. names. Qed.

Lemma inputs_old_prunable : prunable inputs_old import_temps.
Proof.
  intros d d' H. unfold inputs_old, inputs_written. rewrite (pruned_other _ _ kk H kk_not_temporary).
  intros [[Hk Hi]|[Hk [Hb Ho]]]; [left|right]; (split; [exact Hk|]).
  - now apply (inputs_are_pruned _ d).
  - split; [now apply (backups_ok_prunable d d' H)|]. intros i line Hl Hc. rewrite (pruned_other _ _ _ H); [eauto|].
    apply not_in_other. destruct OK as [HER _ _ _ _ _ _ _ _ _]. cbn. congruence.
Qed.

Lemma inputs_both_prunable : prunable inputs_both import_temps.
Proof.
  intros d d' H. unfold inputs_both, inputs_written. rewrite (pruned_other _ _ kk H kk_not_temporary).
  intros [Hn Hk]. split; [now apply (inputs_are_pruned _ d)|]. destruct Hk as [Hk|[Hk Hb]]; [now left|right].
  split; [exact Hk|now apply (backups_ok_prunable d d' H)].
Qed.

Lemma inputs_new_prunable : prunable inputs_new import_temps.
Proof.
  intros d d' H. unfold inputs_new, inputs_written. rewrite (pruned_other _ _ kk H kk_not_temporary).
  intros [Hn Hk]. split; [now apply (inputs_are_pruned _ d)|exact Hk].
Qed.

(** ** The recovery of the inputs *)

(** The journal of the inputs that is read is that of the transaction. *)
Lemma read_inputs_lines s : now s !! kk = None \/ inputs_written (now s) ->
  quiet s (read_inputs fuel l) (fun r => match r with Some ls => ls = t_lines t /\ inputs_written (now s) | None => True end).
Proof.
  intros Hk. eapply hoare_quiet; [apply quiet_read_inputs|reflexivity|]. intros [ls|]; [|easy]. intros (data & P & Hd).
  destruct Hk as [Hk|Hk].
  - destruct Hd as (y & Hd). fold kk in Hd. rewrite Hk in Hd. discriminate.
  - split; [|exact Hk]. rewrite (private_written _ _ _ _ Hd Hk) in P. destruct (ok_lines OK) as [L4 Lok].
    rewrite <- L4, parse_inputs_bytes in P by exact Lok. now injection P.
Qed.

Lemma settle_survives (I : disk -> Prop) s (d0 : Z) : always I s ->
  always (fun d => I d /\ forall n, survives (now s !! (d0, n)) (d !! (d0, n))) (settle d0 s).
Proof. apply always_settle. Qed.

Lemma recover_inputs_old (B : disk -> Prop) s : stable B import_keys -> always (fun d => B d /\ inputs_old d) s ->
  hoare s (recover_inputs fuel l false) (always (fun d => B d /\ inputs_old d))
    (fun rc s' => rc = 0 -> always (fun d => ((B d /\ inputs_are old d) /\ d !! kk = None) /\
       forall name, name ∈ cleanup_inputs -> d !! (E, name) = None) s').
Proof.
  intros SB H. unfold recover_inputs. eapply hoare_step; [apply quiet_exists|exact H|]. intros z Hz.
  eapply hoare_bind with (Q := fun b s' => b = true -> now s' !! kk = None).
  - destruct (Z.eqb_spec z 0) as [->|Hz0].
    { apply hoare_ret; [exact H|]. intros _. destruct Hz as [[_ Hz]|[[Hz _]|Hz]]; [exact Hz|discriminate..]. }
    assert (Hnow := always_now _ _ H). cbn beta in Hnow. destruct Hnow as [_ Hnow].
    eapply hoare_step; [apply read_inputs_lines|exact H|].
    { destruct Hnow as [[Hk _]|[Hk _]]; auto. }
    intros [ls|] Hls; [|now apply hoare_ret]. destruct Hls as [-> Hk].
    apply hoare_all_app. eapply hoare_mono; [apply (restore_inputs_spec B (t_lines t) SB 0 s)|auto|]; [reflexivity|exact H|exact Hk|lia|].
    intros [] s1 H1 Hn _; [|easy]. destruct (Hn eq_refl) as [Hk1 Ho1]. clear Hn.
    set (I1 := fun d => (B d /\ inputs_old d) /\ inputs_are old d).
    assert (H2 : always I1 (settle R s1)).
    { eapply always_mono; [apply (always_settle _ _ R H1)|]. intros d [Hd Hs]. split; [exact Hd|]. intros i Hi.
      eapply alike_survives; [apply Ho1, Hi|apply Hs]. }
    apply hoare_all_cons, hoare_fsync_dir; [exact H1|easy|eapply always_mono; [exact H2|now intros d []]|]. intros _.
    assert (H3 : always I1 (settle E (settle R s1))).
    { eapply always_mono; [apply (always_settle _ _ E H2)|]. now intros d []. }
    apply hoare_all_cons, hoare_fsync_dir; [eapply always_mono; [exact H2|now intros d []]|easy|eapply always_mono; [exact H3|now intros d []]|].
    intros _. set (s3 := settle E (settle R s1)) in *.
    apply hoare_all_cons, hoare_zero. eapply hoare_mono; [apply remove_file_spec| |].
    + intros s' [->| ->]; [eapply always_mono; [exact H3|now intros d []]|]. fold kk.
      eapply always_put; [exact H3|now intros d []|]. intros d d0 [[HB HI] Ha] Hs He. apply none_survives in Hs. split.
      * apply (SB d0); [|exact HB]. intros k Hk'. apply He. intros ->. apply Hk'. apply list_elem_of_here.
      * left. split; [exact Hs|]. intros i Hi. rewrite He; [auto|]. apply not_eq_sym, kk_not_target.
    + intros rc s4 _ [[-> Hk4]|[-> _]] H4; [|easy]. cbn [Z.eqb]. fold kk in Hk4.
      apply hoare_all_cons, hoare_fsync_dir; [exact H4|easy| |].
      { eapply always_mono; [apply (always_settle _ _ E H4)|]. now intros d []. }
      intros H5. apply hoare_all_nil; [exact H5|]. auto.
  - intros b s1 H1 Hk. destruct b; cbn [negb]; [|now apply hoare_ret]. specialize (Hk eq_refl).
    eapply hoare_mono; [apply (inputs_tail_spec s1 (fun d => B d /\ inputs_old d) (fun d => (B d /\ inputs_are old d) /\ d !! kk = None)); [|exact H1|]| |auto].
    3: { intros s' (_ & _ & P). apply P; [|exact H1]. apply prunable_and; [|apply inputs_old_prunable].
         apply stable_prunable. eapply stable_sub; [exact SB|apply import_temps_sub]. }
    + apply prunable_and; [|apply inputs_old_prunable]. apply stable_prunable. eapply stable_sub; [exact SB|apply import_temps_sub].
    + intros d [HB HI] _ Hs. rewrite Hk in Hs. apply none_survives in Hs. split; [|exact Hs]. split; [exact HB|].
      destruct HI as [[_ HI]|[HI _]]; [exact HI|]. unfold inputs_written in HI. rewrite Hs in HI. discriminate.
Qed.

(** After the commitment, whatever is durable once the engine is synchronised. *)
Lemma recover_inputs_new (D B : disk -> Prop) flag s : prunable D import_temps -> always D s ->
  prunable B import_temps -> (forall d d0, B d0 -> d !! kk = None -> (forall k, k <> kk -> d !! k = d0 !! k) -> B d) ->
  (flag = false -> now s !! kk = None) -> (now s !! kk = None \/ inputs_written (now s)) ->
  (forall d, D d -> survives (now s !! kc) (d !! kc) -> survives (now s !! kk) (d !! kk) -> B d /\ inputs_new d) ->
  hoare s (recover_inputs fuel l flag) (fun s' => prunes import_temps s s' \/ always (fun d => B d /\ inputs_new d) s')
    (fun rc s' => rc = 0 -> always (fun d => ((B d /\ inputs_are new d) /\ d !! kk = None) /\
       forall name, name ∈ cleanup_inputs -> d !! (E, name) = None) s').
Proof.
  intros PD H PB SB Hflag Hkk HD. set (G := fun s' => _ \/ _). assert (HG : G s) by (left; apply prunes_refl).
  unfold recover_inputs. eapply hoare_step; [apply quiet_exists|exact HG|]. intros z Hz.
  set (T := b ← all_ok (map _ cleanup_inputs ++ _); mret (status b)).
  set (Done := fun s' => always (fun d => ((B d /\ inputs_are new d) /\ d !! kk = None) /\
       forall name, name ∈ cleanup_inputs -> d !! (E, name) = None) s').
  (* nothing to do but the temporary files *)
  assert (Tail : now s !! kk = None -> hoare s T G (fun rc s' => rc = 0 -> Done s')).
  { intros Hk. eapply hoare_mono; [apply (inputs_tail_spec s D (fun d => (B d /\ inputs_are new d) /\ d !! kk = None) PD H)|now left|auto].
    intros d Hd Hc Hs. destruct (HD d Hd Hc Hs) as [HB [HI _]]. rewrite Hk in Hs. apply none_survives in Hs. auto. }
  destruct (Z.eqb_spec z 0) as [->|Hz0].
  { destruct Hz as [[_ Hz]|[[Hz _]|Hz]]; [|discriminate..]. fold kk in Hz.
    eapply hoare_step with (Q0 := fun b => b = true); [now apply hoare_ret|exact HG|]. intros ? ->. exact (Tail Hz). }
  eapply hoare_bind with (Q := fun b s' => b = true -> always (fun d => B d /\ inputs_new d) s' /\ now s' !! kk = None).
  - eapply hoare_step; [apply read_inputs_lines; exact Hkk|exact HG|].
    intros [ls|] Hls; [|now apply hoare_ret]. destruct Hls as [-> Hk].
    destruct flag; [|unfold inputs_written in Hk; rewrite (Hflag eq_refl) in Hk; discriminate]. cbn [app].
    assert (H2 : always D (settle R s)).
    { eapply always_mono; [apply (always_settle _ _ R H)|]. now intros d []. }
    apply hoare_all_cons, hoare_fsync_dir; [exact HG|easy|left; apply prunes_settle|]. intros _.
    assert (H3 : always (fun d => B d /\ inputs_new d) (settle E (settle R s))).
    { eapply always_mono; [apply (always_settle _ _ E H2)|]. intros d [Hd Hs]. apply HD; [exact Hd|apply Hs..]. }
    apply hoare_all_cons, hoare_fsync_dir; [left; apply prunes_settle|easy|now right|]. intros _. set (s3 := settle E (settle R s)) in *.
    apply (hoare_mono _ _ (always (fun d => B d /\ inputs_new d)) G (fun b s' => b = true -> now s' !! kk = None)); [|now right|auto].
    apply hoare_all_cons, hoare_zero. eapply hoare_mono; [apply remove_file_spec| |].
    + intros s' [->| ->]; [exact H3|]. eapply always_put; [exact H3|auto|].
      intros d d0 [HB [HI _]] Hs He. apply none_survives in Hs. split.
      * now apply (SB d d0).
      * split; [|now left]. intros i Hi. rewrite He; [auto|]. apply not_eq_sym, kk_not_target.
    + intros rc s4 _ [[-> Hk4]|[-> _]] H4; [|easy]. cbn [Z.eqb]. fold kk in Hk4.
      assert (H5 : always (fun d => B d /\ inputs_new d) (settle E s4)).
      { eapply always_mono; [apply (always_settle _ _ E H4)|]. now intros d []. }
      apply hoare_all_cons, hoare_fsync_dir; [exact H4|easy|exact H5|]. intros _. apply hoare_all_nil; [exact H5|]. auto.
  - intros b s1 HG1 Hk. destruct b; cbn [negb]; [|now apply hoare_ret]. destruct (Hk eq_refl) as [H1 Hk1].
    eapply hoare_mono; [apply (inputs_tail_spec s1 (fun d => B d /\ inputs_new d) (fun d => (B d /\ inputs_are new d) /\ d !! kk = None))| |auto].
    4: { intros s' (_ & _ & P). right. apply P; [|exact H1]. apply prunable_and; [exact PB|apply inputs_new_prunable]. }
    + apply prunable_and; [exact PB|apply inputs_new_prunable].
    + exact H1.
    + intros d [HB [HI _]] _ Hs. rewrite Hk1 in Hs. apply none_survives in Hs. auto.
Qed.


(** ** The removal of the journal and of what it left *)

Lemma cleanup_spec s (D Y : disk -> Prop) : stable D [kj] -> prunable D (map (pair E) cleanup_names) ->
  always (fun d => D d /\ (d !! kj = None \/ Y d)) s ->
  hoare s (cleanup_transaction l) (always (fun d => D d /\ (d !! kj = None \/ Y d)))
    (fun rc s' => rc = 0 -> always (fun d => (D d /\ d !! kj = None) /\ forall name, name ∈ cleanup_names -> d !! (E, name) = None) s').
Proof.
  intros SD PD H. set (G := always _). unfold cleanup_transaction.
  eapply hoare_bind with (Q := fun b s' => b = true -> always (fun d => D d /\ d !! kj = None) s').
  - apply hoare_all_cons, hoare_zero. eapply hoare_mono; [apply remove_file_spec| |].
    + intros s' [->| ->]; [exact H|]. eapply always_put; [exact H|auto|]. intros d d0 [Hd _] Hs He. apply none_survives in Hs.
      split; [|now left]. apply (SD d0); [|exact Hd]. intros k Hk. apply He. intros ->. apply Hk, list_elem_of_here.
    + intros rc s' _ [[-> Hn]|[-> _]] HG; [|easy]. cbn [Z.eqb].
      assert (H1 := always_settle _ _ E HG).
      apply hoare_all_cons, hoare_fsync_dir; [exact HG|easy|eapply always_mono; [exact H1|now intros d []]|].
      intros HG'. apply hoare_all_nil; [exact HG'|]. intros _. eapply always_mono; [exact H1|]. intros d [[Hd _] Hs].
      split; [exact Hd|]. apply none_survives. unfold kj. rewrite <- Hn. apply Hs.
  - intros b s1 HG Hb. destruct b; cbn [negb]; [|now apply hoare_ret]. specialize (Hb eq_refl).
    assert (P1 : prunable (fun d => D d /\ d !! kj = None) (map (pair E) cleanup_names)).
    { apply prunable_and; [exact PD|]. apply stable_prunable. intros d d' He Hd. rewrite He; [exact Hd|]. apply not_in_engine. names. }
    eapply hoare_bind; [eapply hoare_mono with (G' := G); [apply (tail_spec s1 cleanup_names _ (fun d => D d /\ d !! kj = None) P1 Hb)| |]|].
    + auto.
    + intros s' (_ & _ & P). eapply always_mono; [exact (P _ P1 Hb)|]. intros d []. auto.
    + intros b s' _ Q. exact Q.
    + intros b s' HG' Q. apply hoare_ret; [exact HG'|]. destruct b; [exact (fun _ => Q eq_refl)|discriminate].
Qed.

(** A property of the exports and the journal does not depend on the inputs. *)
Lemma engine_not_import name : name ∉ import_journal :: cleanup_inputs -> (E, name) ∉ import_keys.
Proof.
  intros H. unfold import_keys. rewrite not_elem_of_cons, not_elem_of_app. split; [|split].
  - unfold kk. intros [= ->]. apply H, list_elem_of_here.
  - rewrite list_elem_of_fmap. intros (i & Hi & _). destruct OK as [HER _ _ _ _ _ _ _ _ _]. unfold ki in Hi. congruence.
  - apply not_in_engine. intros Hi. apply H. now apply list_elem_of_further.
Qed.

Lemma root_not_import name : name ∉ jf_import_names -> (R, name) ∉ import_keys.
Proof.
  intros H. destruct OK as [HER _ _ _ _ _ _ _ _ _]. unfold import_keys. rewrite not_elem_of_cons, not_elem_of_app. split; [|split].
  - unfold kk. congruence.
  - rewrite list_elem_of_fmap. intros (i & [= ->] & Hi). apply H. unfold inputs_list in Hi. unfold import_target.
    rewrite !elem_of_cons in Hi. destruct Hi as [-> |[-> |[-> |[-> |Hi]]]]; [cbn; names..|]. now apply elem_of_nil in Hi.
  - apply not_in_other. cbn. congruence.
Qed.

Definition not_import (k : key) : Prop := k ∉ import_keys.
Lemma kj_not_import : not_import kj. Proof. apply engine_not_import. names. Qed.
Lemma kc_not_import : not_import kc. Proof. apply engine_not_import. names. Qed.
Lemma ks_not_import : not_import ks. Proof. apply engine_not_import. names. Qed.
Lemma kb_not_import : not_import kb. Proof. apply engine_not_import. names. Qed.
Lemma kp_not_import : not_import kp. Proof. apply root_not_import. names. Qed.

Lemma exports_are_stable v keys : kp ∉ keys -> ks ∉ keys -> stable (exports_are v) keys.
Proof. intros Hp Hs d d' He. unfold exports_are. now rewrite (He kp Hp), (He ks Hs). Qed.

Lemma pending_stable keys : kj ∉ keys -> kc ∉ keys -> kb ∉ keys -> stable pending keys.
Proof. intros H1 H2 H3 d d' He. unfold pending, journal_in, backed, backup_ok. now rewrite (He kj H1), (He kc H2), (He kb H3). Qed.

Lemma idle_old_stable keys : kj ∉ keys -> kp ∉ keys -> ks ∉ keys -> stable idle_old keys.
Proof. intros H1 H2 H3 d d' He [Hj Hx]. split; [now rewrite (He kj H1)|]. now apply (exports_are_stable _ keys H2 H3 d). Qed.

(** ** Back to the view before the transaction *)

Lemma inputs_are_stable v keys : (forall i, (i < 4)%nat -> ki i ∉ keys) -> stable (inputs_are v) keys.
Proof. intros H d d' He Hi i Hlt. rewrite He by auto. auto. Qed.

Lemma target_not_engine i (names : list bytes) : ki i ∉ map (pair E) names.
Proof. apply not_in_other. destruct OK as [HER _ _ _ _ _ _ _ _ _]. cbn. congruence. Qed.
Lemma kp_not_engine (names : list bytes) : kp ∉ map (pair E) names.
Proof. apply not_in_other. destruct OK as [HER _ _ _ _ _ _ _ _ _]. cbn. congruence. Qed.

(** A view with no journal of the inputs and no temporary input. *)
Definition shown (v : view) (d : disk) : Prop :=
  (shows v d /\ d !! kk = None) /\ forall name, name ∈ cleanup_inputs -> d !! (E, name) = None.

Lemma shown_stable v keys : kp ∉ keys -> ks ∉ keys -> (forall i, (i < 4)%nat -> ki i ∉ keys) -> kk ∉ keys ->
  (forall name, name ∈ cleanup_inputs -> (E, name) ∉ keys) -> stable (shown v) keys.
Proof.
  intros H1 H2 H3 H4 H5 d d' He [[[Hx Hi] Hk] Ht]. split; [split; [split|]|].
  - now apply (exports_are_stable _ keys H1 H2 d).
  - now apply (inputs_are_stable _ keys H3 d).
  - now rewrite He.
  - intros name Hn. rewrite He; auto.
Qed.

Lemma shows_stable_journal v : stable (shown v) [kj].
Proof.
  assert (J : forall name, name ∈ cleanup_inputs -> name <> str "journal") by (apply Forall_forall; names).
  destruct OK as [HER _ _ _ _ _ _ _ _ _]. apply shown_stable; intros; rewrite list_elem_of_singleton; unfold kp, ks, ki, kk, kj; try congruence; try (intros [=]; fail).
  intros [= ->]. now apply (J (str "journal")).
Qed.

Lemma shows_prunable v : prunable (shown v) (map (pair E) cleanup_names).
Proof.
  assert (X : forall name, name ∈ cleanup_inputs -> name ∉ cleanup_names) by (apply Forall_forall; names).
  apply stable_prunable, shown_stable; intros; first [apply kp_not_engine | apply target_not_engine | apply not_in_engine]; [names..|auto].
Qed.

Lemma finish_old s c : always (fun d => before d /\ exports_are old d) s ->
  hoare s (rc ← recover_inputs fuel l false; if rc =? 0 then cleanup_transaction l else mret (if c : bool then rc else 3))
    uncommitted (fun rc s' => rc = 0 -> always (idle old) s').
Proof.
  intros H. set (B := fun d => (idle_old d \/ pending d) /\ exports_are old d).
  assert (SB : stable B import_keys).
  { intros d d' He [HB Hx]. split; [|now apply (exports_are_stable _ import_keys kp_not_import ks_not_import d)].
    destruct HB as [HB|HB]; [left|right].
    - now apply (idle_old_stable import_keys kj_not_import kp_not_import ks_not_import d).
    - now apply (pending_stable import_keys kj_not_import kc_not_import kb_not_import d). }
  assert (GB : forall s', always (fun d => B d /\ inputs_old d) s' -> uncommitted s').
  { intros s' H'. left. eapply always_mono; [exact H'|]. intros d [[HB Hx] HI]. exact (conj (conj HB HI) Hx). }
  eapply hoare_bind; [eapply hoare_mono; [apply (recover_inputs_old B s SB)|exact GB|intros rc s' _ Q; exact Q]|].
  { eapply always_mono; [exact H|]. intros d [[HB HI] Hx]. exact (conj (conj HB Hx) HI). }
  intros rc s1 G Q. destruct (Z.eqb_spec rc 0) as [E0|Hne].
  2: { apply hoare_ret; [exact G|]. destruct c; [now intros|discriminate]. }
  specialize (Q E0). set (D := shown old).
  assert (Q' : always (fun d => D d /\ (d !! kj = None \/ pending d)) s1).
  { eapply always_mono; [exact Q|]. intros d [[[[HB Hx] Hi] Hk] Ht].
    split; [exact (conj (conj (conj Hx Hi) Hk) Ht)|]. destruct HB as [[HB _]|HB]; auto. }
  eapply hoare_mono; [apply (cleanup_spec s1 D pending)| |].
  - apply shows_stable_journal.
  - apply shows_prunable.
  - exact Q'.
  - intros s' G'. left. eapply always_mono; [exact G'|]. intros d [[[[Hx Hi] Hk] _] HJ]. split; [|exact Hx]. split; [|left; auto].
    destruct HJ as [HJ|HJ]; [left; now split|now right].
  - intros rc' s' _ Q2 E2. eapply always_mono; [exact (Q2 E2)|]. intros d [[[[Hs Hk] Ht] HJ] Ht']. split; [exact Hs|]. split; [exact HJ|]. split; [exact Hk|].
    intros name Hn. apply elem_of_app in Hn as [Hn|Hn]; auto.
Qed.

Lemma at_commit_before d : at_commit d -> d !! kc = None -> False.
Proof. intros [(_ & H & _) _] Hc. unfold marker_in in H. rewrite Hc in H. discriminate. Qed.

(** One engine entry, and the public file or the selector, may change. *)
Lemma marked_stable keys : kj ∉ keys -> kc ∉ keys -> kb ∉ keys -> (N, j_next j) ∉ keys -> (t_number t, public_name) ∉ keys -> stable marked keys.
Proof.
  intros H1 H2 H3 H4 H5 d d' He. unfold marked, journal_in, marker_in, backed, backup_ok, installed_ok.
  now rewrite (He kj H1), (He kc H2), (He kb H3), (He _ H4), (He _ H5).
Qed.

Lemma inputs_both_stable keys : (forall i, (i < 4)%nat -> ki i ∉ keys) -> kk ∉ keys -> (forall i, (i < 4)%nat -> (E, backup_name i) ∉ keys) ->
  stable inputs_both keys /\ stable inputs_old keys.
Proof.
  intros Hi Hk Hb.
  assert (SB : forall d d', (forall k, k ∉ keys -> d' !! k = d !! k) -> backups_ok d -> backups_ok d').
  { intros d d' He HB i line Hl Hc. unfold backup_ok. rewrite He; [now apply (HB i line)|]. apply Hb. now apply inputs_four in Hl. }
  split; intros d d' He; unfold inputs_both, inputs_old, inputs_written; rewrite (He kk Hk).
  - intros [Hn HK]. split; [now apply (inputs_are_stable _ keys Hi d)|]. destruct HK as [HK|[HK HB]]; [now left|right]. split; [exact HK|now apply (SB d)].
  - intros [[HK HI]|[HK [HB HI]]]; [left|right]; (split; [exact HK|]); [now apply (inputs_are_stable _ keys Hi d)|].
    split; [now apply (SB d)|]. intros i line Hl Hc. rewrite He; [eauto|]. apply Hi. now apply inputs_four in Hl.
Qed.

(** The entries that the exports are changed with. *)
Definition export_keys : list key := kp :: ks :: map (pair E) [str "export.restore"; str "export.next"; str "current.next"; str "current.rollback"; str "committed.next"; str "journal.next"].

Lemma not_export_engine name : name ∉ [str "current"; str "export.restore"; str "export.next"; str "current.next"; str "current.rollback"; str "committed.next"; str "journal.next"] ->
  (E, name) ∉ export_keys.
Proof.
  intros H. unfold export_keys. destruct OK as [HER _ _ _ _ _ _ _ _ _].
  rewrite !not_elem_of_cons. split; [unfold kp; congruence|]. rewrite not_elem_of_cons in H. destruct H as [H1 H2].
  split; [unfold ks; congruence|]. now apply not_in_engine.
Qed.

Lemma not_export_target i : (i < 4)%nat -> ki i ∉ export_keys.
Proof.
  intros H. unfold export_keys. rewrite !not_elem_of_cons. destruct OK as [HER _ _ _ _ _ _ _ _ _]. split; [|split].
  - unfold ki, kp. intros [= Hn]. destruct i as [|[|[|[|]]]]; [discriminate Hn..|lia].
  - unfold ki, ks. congruence.
  - apply target_not_engine.
Qed.

Lemma not_export_other k : k.1 <> E -> k.1 <> R -> k ∉ export_keys.
Proof.
  intros H1 H2. unfold export_keys. rewrite !not_elem_of_cons. split; [|split].
  - intros ->. now apply H2.
  - intros ->. now apply H1.
  - now apply not_in_other.
Qed.

Lemma backup_not_export i : (i < 4)%nat -> (E, backup_name i) ∉ export_keys.
Proof. intros H. apply not_export_engine. destruct i as [|[|[|[|]]]]; [names..|lia]. Qed.

Lemma export_stable : stable pending export_keys /\ stable marked export_keys /\ stable inputs_both export_keys /\ stable inputs_old export_keys.
Proof.
  destruct OK as [HER HN Ht _ _ _ _ _ _ _].
  split; [apply pending_stable; apply not_export_engine; names|]. split.
  - apply marked_stable; try (apply not_export_engine; names); now apply not_export_other.
  - apply inputs_both_stable; [apply not_export_target|apply not_export_engine; names|apply backup_not_export].
Qed.

(** Giving the exports their old values back keeps what can be recovered. *)
Lemma export_restored k (V : option node -> Prop) temp : (k, V) = (kp, alike (v_public old)) \/ (k, V) = (ks, fun o => o = selector_node (v_selector old)) ->
  (E, temp) ∈ export_keys -> (E, temp) <> ks -> (E, temp) <> kj ->
  forall s s', retargets [(E, temp)] k V s s' ->
  (pending (now s) /\ inputs_old (now s)) /\ always (fun d => before d \/ at_commit d) s ->
  (pending (now s') /\ inputs_old (now s')) /\ always (fun d => before d \/ at_commit d) s'.
Proof.
  intros HkV Ht Hts Htj s s' [F C] [[Hp Hi] HA]. destruct export_stable as (S1 & S2 & S3 & S4).
  destruct OK as [HER _ _ _ _ _ _ _ _ _].
  assert (Hk : k ∈ export_keys).
  { destruct HkV as [[= -> _]|[= -> _]]; [apply list_elem_of_here|apply list_elem_of_further, list_elem_of_here]. }
  assert (Sub : [(E, temp)] ⊆ export_keys) by (intros x Hx; now apply list_elem_of_singleton in Hx as ->).
  assert (Htp : (E, temp) <> kp) by (unfold kp; congruence).
  split.
  - assert (Ag : forall x, x ∉ export_keys -> now s' !! x = now s !! x).
    { intros x Hx. apply F. rewrite elem_of_cons, list_elem_of_singleton. intros [-> | ->]; now apply Hx. }
    split; [now apply (S1 (now s))|now apply (S4 (now s))].
  - apply C; [| |exact HA].
    + intros d d' He [[HPe HI]|[HM HI]].
      * left. split; [|apply (stable_sub _ _ _ S4 Sub d); assumption].
        destruct HPe as [HPe|HPe]; [left|right; now apply (stable_sub _ _ _ S1 Sub d)].
        apply (idle_old_stable [(E, temp)]) with (d := d); try assumption; rewrite list_elem_of_singleton; congruence.
      * right. split; [apply (stable_sub _ _ _ S2 Sub d)|apply (stable_sub _ _ _ S3 Sub d)]; assumption.
    + intros d d0 HI HV He.
      assert (Ag : forall x, x ∉ export_keys -> d !! x = d0 !! x) by (intros x Hx; apply He; intros ->; now apply Hx).
      destruct HI as [[HPe HI]|[HM HI]].
      * left. split; [|now apply (S4 d0)]. destruct HPe as [[Hj [X1 X2]]|HPe]; [left|right; now apply (S1 d0)].
        destruct HkV as [[= -> ->]|[= -> ->]]; (split; [rewrite He; [exact Hj|unfold kp, ks, kj; first [now intros [=]|congruence]]|]); split.
        -- exact HV. -- rewrite He; [exact X2|unfold ks, kp; congruence].
        -- rewrite He; [exact X1|unfold ks, kp; congruence]. -- exact HV.
      * right. split; [now apply (S2 d0)|now apply (S3 d0)].
Qed.

Lemma roll_back_spec s : pending (now s) /\ inputs_old (now s) -> always (fun d => before d \/ at_commit d) s ->
  hoare s (roll_back fuel l j) uncommitted (fun b s' => b = true -> always (fun d => before d /\ exports_are old d) s').
Proof.
  intros Hn HA. set (U := fun s' => (pending (now s') /\ inputs_old (now s')) /\ always (fun d => before d \/ at_commit d) s').
  assert (HU : U s) by now split. clear Hn HA.
  assert (GU : forall s', U s' -> uncommitted s') by (intros s' H; now right).
  assert (HER : E <> R) by apply OK. unfold roll_back. apply hoare_all_cons.
  eapply hoare_mono; [apply (restore_file_spec s E (j_present j) (j_mode j) _ _ kp (v_public old))| |].
  - destruct HU as [[(_ & _ & _ & Hreg) _] _]. pose proof (ok_old_public OK) as Hpub. unfold regular_public in Hreg.
    destruct (v_public old) as [[]|]; easy.
  - apply HU. - names. - unfold kp. congruence.
  - intros s' H. apply GU. eapply (export_restored kp _ (str "export.restore")); [now left| | | |exact H|exact HU].
    + apply list_elem_of_further, list_elem_of_further, list_elem_of_fmap. eexists. split; [reflexivity|names].
    + unfold ks. now intros [=]. + unfold kj. now intros [=].
  - intros [] s1 H1 Hp _; [|easy]. specialize (Hp eq_refl).
    assert (U1 : U s1).
    { eapply (export_restored kp _ (str "export.restore")); [now left| | | |exact H1|exact HU].
      - apply list_elem_of_further, list_elem_of_further, list_elem_of_fmap. eexists. split; [reflexivity|names].
      - unfold ks. now intros [=]. - unfold kj. now intros [=]. }
    apply hoare_all_cons, hoare_zero. rewrite <- (ok_old_selector OK).
    assert (Step : forall s', retargets [(E, str "current.rollback")] ks (fun o => o = selector_node (v_selector old)) s1 s' -> U s').
    { intros s' H. eapply (export_restored ks _ (str "current.rollback")); [now right| | | |exact H|exact U1].
      - apply list_elem_of_further, list_elem_of_further, list_elem_of_fmap. eexists. split; [reflexivity|names].
      - unfold ks. now intros [=]. - unfold kj. now intros [=]. }
    eapply hoare_mono; [apply (set_selector_spec s1 (v_selector old) (str "current.rollback")); names|intros s' H; apply GU, Step, H|].
    intros rc s2 H2 Hs _. destruct (Z.eqb_spec rc 0) as [E0|]; [|easy]. specialize (Hs E0). assert (U2 := Step s2 H2).
    assert (Hp2 : alike (v_public old) (now s2 !! kp)).
    { destruct H2 as [F _]. rewrite (proj1 (F kp ltac:(rewrite elem_of_cons, list_elem_of_singleton; unfold kp, ks; intros [[=]|[=]]; congruence))). exact Hp. }
    destruct U2 as [[Hpend Hin] HA].
    assert (A3 := always_settle _ _ R HA). set (s3 := settle R s2) in *.
    assert (U3 : U s3) by (split; [now split|eapply always_mono; [exact A3|now intros d []]]).
    apply hoare_all_cons, hoare_fsync_dir; [apply GU; now split|easy|now apply GU|]. intros _.
    assert (A4 := always_settle _ _ E A3). set (s4 := settle E s3) in *.
    assert (U4 : uncommitted s4).
    { left. eapply always_mono; [exact A4|]. intros d [[HB Hr] He]. destruct HB as [HB|HB].
      - split; [exact HB|]. split; [eapply alike_survives; [exact Hp2|apply Hr]|]. apply selector_survives. rewrite <- Hs. apply He.
      - exfalso. apply (at_commit_before d HB). apply none_survives. rewrite <- (proj1 (proj2 Hpend)). apply He. }
    apply hoare_all_cons, hoare_fsync_dir; [now apply GU|easy|exact U4|]. intros _. apply hoare_all_nil; [exact U4|]. intros _.
    destruct U4 as [U4|U4]; [exact U4|]. destruct U4 as [_ _].
    eapply always_mono; [exact A4|]. intros d [[HB Hr] He]. destruct HB as [HB|HB].
    + split; [exact HB|]. split; [eapply alike_survives; [exact Hp2|apply Hr]|]. apply selector_survives. rewrite <- Hs. apply He.
    + exfalso. apply (at_commit_before d HB). apply none_survives. rewrite <- (proj1 (proj2 Hpend)). apply He.
Qed.

Lemma read_journal_fields s : now s !! kj = None \/ journal_in (now s) ->
  quiet s (read_journal fuel l) (fun r => match r with Some x => x = j /\ journal_in (now s) | None => True end).
Proof.
  intros H. eapply hoare_quiet; [apply quiet_read_journal|reflexivity|]. intros [x|]; [|easy]. intros [Hx Hf]. fold kj in Hf.
  destruct H as [H|H]; [destruct Hf as (y & Hf); rewrite H in Hf; discriminate|]. split; [|exact H].
  pose proof (private_written _ _ _ _ Hf H) as Hb. pose proof (parse_journal_bytes x Hx) as P. rewrite Hb, (parse_journal_bytes j (ok_journal OK)) in P. now injection P.
Qed.

Lemma recover_uncommitted s : uncommitted s ->
  hoare s (recover fuel l) uncommitted (fun rc s' => rc = 0 -> always (idle old) s').
Proof.
  intros H. unfold recover. eapply hoare_step; [apply quiet_exists|exact H|]. intros z Hz. fold kj in Hz.
  assert (HJ : now s !! kj = None \/ pending (now s) /\ inputs_old (now s)).
  { destruct H as [H|[H _]]; [|now right]. destruct (always_now _ _ H) as [[[[Hj _]|Hp] Hi] _]; auto. }
  destruct (Z.eqb_spec z 0) as [->|Hz0].
  { destruct Hz as [[_ Hz]|[[Hz _]|Hz]]; [|discriminate..].
    destruct H as [H|[[[Hj _] _] _]]; [|unfold journal_in in Hj; rewrite Hz in Hj; discriminate]. exact (finish_old s false H). }
  eapply hoare_step; [apply read_journal_fields; destruct HJ as [HJ|[[HJ _] _]]; auto|exact H|].
  intros [x|] Hx; [|now apply hoare_ret]. destruct Hx as [-> Hj].
  assert (HPe : pending (now s) /\ inputs_old (now s)) by (destruct HJ as [HJ|HJ]; [unfold journal_in in Hj; rewrite HJ in Hj; discriminate|exact HJ]).
  assert (HA : always (fun d => before d \/ at_commit d) s).
  { destruct H as [H|[_ H]]; [|exact H]. eapply always_mono; [exact H|]. intros d []. now left. }
  eapply hoare_step; [apply quiet_exists|exact H|]. intros c Hc. fold kc in Hc.
  destruct (Z.eqb_spec c 0) as [->|Hc0]; cbn [negb].
  - eapply hoare_bind with (Q := fun r s' => r.2 = false /\ (r.1 = 0 -> always (fun d => before d /\ exports_are old d) s')).
    + eapply hoare_bind; [apply (roll_back_spec s HPe HA)|]. intros b s' G Q. apply hoare_ret; [exact G|]. cbn [fst snd]. split; [reflexivity|].
      destruct b; [auto|discriminate].
    + intros [rc flag] s1 G [E1 E2]. cbn [fst snd] in E1, E2. subst flag. destruct (Z.eqb_spec rc 0) as [E0|]; cbn [negb]; [|apply hoare_ret; [exact G|easy]].
      exact (finish_old s1 true (E2 E0)).
  - eapply hoare_step with (Q0 := fun r => r.1 <> 0); [|exact H|].
    + eapply hoare_step; [apply quiet_load|reflexivity|]. intros [rc m] Hm. cbn [fst snd] in Hm. fold kc in Hm.
      destruct (Z.eqb_spec rc 0) as [E0|]; cbn [negb orb]; [|now apply hoare_ret].
      destruct (Hm E0) as (y & Hm'). destruct HPe as [[_ [Hc' _]] _]. rewrite Hc' in Hm'. discriminate.
    + intros [rc flag] Hr. cbn [fst] in Hr. destruct (Z.eqb_spec rc 0); [contradiction|]. cbn [negb]. apply hoare_ret; [exact H|easy].
Qed.

(** ** On to the view after the transaction *)

Lemma import_stable_prunable (I : disk -> Prop) : stable I import_keys -> prunable I import_temps.
Proof. intros S. apply stable_prunable. eapply stable_sub; [exact S|apply import_temps_sub]. Qed.

Lemma exports_import v : stable (exports_are v) import_keys.
Proof. apply exports_are_stable; [apply kp_not_import|apply ks_not_import]. Qed.

Lemma finished_stable keys : kj ∉ keys -> kc ∉ keys -> kp ∉ keys -> ks ∉ keys -> stable finished keys.
Proof.
  intros H1 H2 H3 H4 d d' He (Hj & Hc & Hx). unfold finished, journal_in, marker_in. rewrite (He kj H1), (He kc H2).
  split; [exact Hj|]. split; [exact Hc|]. now apply (exports_are_stable new keys H3 H4 d).
Qed.
Lemma finished_import : stable finished import_keys.
Proof. apply finished_stable; [apply kj_not_import|apply kc_not_import|apply kp_not_import|apply ks_not_import]. Qed.

(** The journal of a finished transaction may be gone. *)
Definition closing (d : disk) : Prop := (d !! kj = None \/ journal_in d /\ marker_in d) /\ exports_are new d.

Lemma closing_import : stable closing import_keys.
Proof.
  intros d d' He [Hj Hx]. split; [|now apply (exports_import new d)]. unfold journal_in, marker_in.
  now rewrite (He kj kj_not_import), (He kc kc_not_import).
Qed.

Lemma finish_new (C : store -> Prop) s flag c (D B : disk -> Prop) : (forall s', always cleaning s' -> C s') -> prunable D import_temps -> always D s ->
  prunable B import_temps -> (forall d d0, B d0 -> d !! kk = None -> (forall k, k <> kk -> d !! k = d0 !! k) -> B d) ->
  (flag = false -> now s !! kk = None) -> (now s !! kk = None \/ inputs_written (now s)) ->
  (forall d, D d -> survives (now s !! kc) (d !! kc) -> survives (now s !! kk) (d !! kk) -> B d /\ inputs_new d) ->
  (forall s', prunes import_temps s s' -> C s') -> (forall s', always (fun d => B d /\ inputs_new d) s' -> C s') ->
  (forall d, B d -> closing d) ->
  hoare s (rc ← recover_inputs fuel l flag; if rc =? 0 then cleanup_transaction l else mret (if c : bool then rc else 3))
    C (fun rc s' => rc = 0 -> always (idle new) s').
Proof.
  intros CC PD H PB SB Hf Hk HD GP GB BC.
  eapply hoare_bind; [eapply hoare_mono; [apply (recover_inputs_new D B flag s PD H PB SB Hf Hk HD)|intros s' [G|G]; auto|intros rc s' _ Q; exact Q]|].
  intros rc s1 G Q. destruct (Z.eqb_spec rc 0) as [E0|Hne].
  2: { apply hoare_ret; [exact G|]. destruct c; [now intros|discriminate]. }
  specialize (Q E0). set (D1 := shown new).
  assert (Q' : always (fun d => D1 d /\ (d !! kj = None \/ journal_in d /\ marker_in d)) s1).
  { eapply always_mono; [exact Q|]. intros d [[[HB Hi] Hkn] Ht]. destruct (BC d HB) as [Hj Hx].
    exact (conj (conj (conj (conj Hx Hi) Hkn) Ht) Hj). }
  eapply hoare_mono; [apply (cleanup_spec s1 D1 (fun d => journal_in d /\ marker_in d))| |].
  - apply shows_stable_journal.
  - apply shows_prunable.
  - exact Q'.
  - intros s' G'. apply CC. eapply always_mono; [exact G'|]. intros d [[[Hs Hkn] _] HJ]. exact (conj HJ (conj Hs Hkn)).
  - intros rc' s' _ Q2 E2. eapply always_mono; [exact (Q2 E2)|]. intros d [[[[Hs Hkn] Ht] HJ] Ht']. split; [exact Hs|]. split; [exact HJ|]. split; [exact Hkn|].
    intros name Hn. apply elem_of_app in Hn as [Hn|Hn]; auto.
Qed.

(** A generation that is pinned under the journal is the new one. *)
Lemma pinned_new s g : pinned (now s) l None g -> journal_in (now s) -> installed_ok (now s) ->
  (forall a, now s !! kp = Some (File a) -> l_synced a = true) -> exports_are new (now s).
Proof.
  intros [_ _ _ Hj] J [I1 I2] Hs. destruct (Hj ltac:(unfold journal_in in J; fold kj; rewrite J; discriminate)) as (id & g' & C & (n & N1 & V) & P).
  destruct C as ((x & Hx & <- & Hf) & _ & Hsel). fold kj in Hf.
  pose proof (private_written _ _ _ _ Hf J) as Hb. pose proof (parse_journal_bytes x Hx) as PX.
  rewrite Hb, (parse_journal_bytes j (ok_journal OK)) in PX. injection PX as <-.
  rewrite I1 in N1. injection N1 as <-. pose proof (private_written _ _ _ _ (ve_sieve _ _ _ _ V) I2) as Hsieve. split.
  - rewrite (ok_new_public OK). destruct P as (y & P). fold public_name kp in P. rewrite P, Hsieve. cbn. repeat split. exact (Hs _ P).
  - fold ks in Hsel. rewrite Hsel, (ok_new_selector OK). unfold selector_node. destruct (streq (j_next j) []) eqn:E0; [|reflexivity].
    apply streq_spec in E0. pose proof (jo_next _ (ok_journal OK)) as V'. now rewrite E0 in V'.
Qed.

Lemma committing_pruned s s' : committing s -> prunes import_temps s s' -> committing s'.
Proof.
  intros (Hc & Ha & Sp & Ss & Sk & Hy) (F & Pn & P).
  assert (PM : prunable marked import_temps).
  { apply import_stable_prunable, marked_stable; [apply kj_not_import|apply kc_not_import|apply kb_not_import| |];
      destruct OK as [HER HN Ht _ _ _ _ _ _ _]; unfold import_keys; rewrite not_elem_of_cons, not_elem_of_app, list_elem_of_fmap.
    - split; [unfold kk; intros [=]; tauto|]. split; [intros (x & [=] & _); tauto|apply not_in_other; cbn; tauto].
    - split; [unfold kk; intros [=]; tauto|]. split; [intros (x & [=] & _); tauto|apply not_in_other; cbn; tauto]. }
  assert (PP : prunable pending import_temps).
  { apply import_stable_prunable, pending_stable; [apply kj_not_import|apply kc_not_import|apply kb_not_import]. }
  assert (Np : kp ∉ import_temps) by apply kp_not_engine.
  assert (Ns : ks ∉ import_temps) by (apply not_in_engine; names).
  split; [|split; [|split; [|split; [|split]]]].
  - exact (prunable_and _ _ _ PM inputs_both_prunable _ _ Pn Hc).
  - apply P; [|exact Ha]. apply prunable_and; [|apply inputs_both_prunable]. intros d d' Hd [H|H]; [left; now apply (PP d)|right; now apply (PM d)].
  - now apply (settled_frame _ _ _ _ F Np).
  - now apply (settled_frame _ _ _ _ F Ns).
  - apply (settled_frame _ _ _ _ F kk_not_temporary Sk).
  - intros a. rewrite (pruned_other _ _ kp Pn Np). apply Hy.
Qed.

Lemma recover_marked (C : store -> Prop) s (D B : disk -> Prop) : (forall s', always cleaning s' -> C s') -> C s -> journal_in (now s) -> marker_in (now s) ->
  (forall g, pinned (now s) l None g -> always D s) -> prunable D import_temps ->
  prunable B import_temps -> (forall d d0, B d0 -> d !! kk = None -> (forall k, k <> kk -> d !! k = d0 !! k) -> B d) ->
  (now s !! kk = None \/ inputs_written (now s)) ->
  (forall d, D d -> survives (now s !! kc) (d !! kc) -> survives (now s !! kk) (d !! kk) -> B d /\ inputs_new d) ->
  (forall s', prunes import_temps s s' -> C s') -> (forall s', always (fun d => B d /\ inputs_new d) s' -> C s') ->
  (forall d, B d -> closing d) ->
  hoare s (recover fuel l) C (fun rc s' => rc = 0 -> always (idle new) s').
Proof.
  intros CC H HJ HM HD PD PB SB Hk HDB GP GB BC. unfold recover. eapply hoare_step; [apply quiet_exists|exact H|]. intros z Hz. fold kj in Hz.
  destruct (Z.eqb_spec z 0) as [->|Hz0].
  { destruct Hz as [[_ Hz]|[[Hz _]|Hz]]; [|discriminate..]. unfold journal_in in HJ. rewrite Hz in HJ. discriminate. }
  eapply hoare_step; [apply read_journal_fields; auto|exact H|]. intros [x|] Hx; [|now apply hoare_ret]. destruct Hx as [-> _].
  eapply hoare_step; [apply quiet_exists|exact H|]. intros c Hc. fold kc in Hc.
  destruct (Z.eqb_spec c 0) as [->|Hc0]; cbn [negb].
  { destruct Hc as [[_ Hc]|[[Hc _]|Hc]]; [|discriminate..]. unfold marker_in in HM. rewrite Hc in HM. discriminate. }
  eapply hoare_step with (Q0 := fun r => r.2 = true /\ (r.1 = 0 -> exists g, pinned (now s) l None g)); [|exact H|].
  - eapply hoare_step; [apply quiet_load|reflexivity|]. intros [rc m] _.
    destruct (negb (rc =? 0) || _); [now apply hoare_ret|]. eapply hoare_step; [apply quiet_pin_locked|reflexivity|].
    intros [rc' g] Hg. cbn [fst snd] in Hg. eapply hoare_step; [apply quiet_generation_close|reflexivity|]. intros _ _.
    apply hoare_ret; [reflexivity|]. cbn [fst snd]. split; [reflexivity|]. eauto.
  - intros [rc flag] [E1 E2]. cbn [fst snd] in E1, E2. subst flag. destruct (Z.eqb_spec rc 0) as [E0|]; cbn [negb]; [|apply hoare_ret; [exact H|easy]].
    destruct (E2 E0) as (g & Hg). apply (finish_new C s true true D B); auto. eapply HD. exact Hg. discriminate.
Qed.

Lemma finished_prunable : prunable finished import_temps.
Proof. apply import_stable_prunable, finished_import. Qed.

Lemma finished_kk d d0 : finished d0 -> d !! kk = None -> (forall k, k <> kk -> d !! k = d0 !! k) -> finished d.
Proof.
  intros H _ He. apply (finished_import d0); [|exact H]. intros k Hk. apply He. intros ->. apply Hk, list_elem_of_here.
Qed.

Lemma cleaning_prunable : prunable cleaning import_temps.
Proof.
  intros d d' Hp (Hj & [Hx Hi] & Hk). split; [|split; [split|]].
  - unfold journal_in, marker_in. rewrite !(pruned_other _ _ _ Hp) by (apply not_in_engine; names). exact Hj.
  - exact (import_stable_prunable _ (exports_import new) _ _ Hp Hx).
  - now apply (inputs_are_pruned _ d).
  - now rewrite (pruned_other _ _ kk Hp kk_not_temporary).
Qed.

Definition closed (d : disk) : Prop := closing d /\ d !! kk = None.

Lemma recover_after (C : store -> Prop) s : (forall s', always cleaning s' -> C s') -> (forall s', always after s' -> C s') -> always after s ->
  hoare s (recover fuel l) C (fun rc s' => rc = 0 -> always (idle new) s').
Proof.
  intros CC CA HC. pose proof (always_now _ _ HC) as [(Hj & Hm & Hx) Hin]. apply (recover_marked C s after finished); auto.
  - apply prunable_and; [apply finished_prunable|apply inputs_new_prunable].
  - apply finished_prunable.
  - apply finished_kk.
  - destruct Hin as [_ Hk]. exact Hk.
  - intros s' (_ & _ & P). apply CA, P; [|exact HC]. apply prunable_and; [apply finished_prunable|apply inputs_new_prunable].
  - now intros d (H1 & H2 & H3); split; auto.
Qed.

Lemma recover_cleaning (C : store -> Prop) s : (forall s', always cleaning s' -> C s') -> always cleaning s ->
  hoare s (recover fuel l) C (fun rc s' => rc = 0 -> always (idle new) s').
Proof.
  intros CC HC. pose proof (CC s HC) as H.
  assert (PB : prunable closed import_temps).
  { apply prunable_and; [apply import_stable_prunable, closing_import|]. intros d d' Hp Hk. now rewrite (pruned_other _ _ kk Hp kk_not_temporary). }
  assert (SB : forall d d0, closed d0 -> d !! kk = None -> (forall k, k <> kk -> d !! k = d0 !! k) -> closed d).
  { intros d d0 [Hc _] Hk He. split; [|exact Hk]. apply (closing_import d0); [|exact Hc]. intros k Hk'. apply He. intros ->. apply Hk', list_elem_of_here. }
  assert (HDB : forall d, cleaning d -> survives (now s !! kc) (d !! kc) -> survives (now s !! kk) (d !! kk) -> closed d /\ inputs_new d).
  { intros d (H1 & [Hx Hi] & Hk) _ _. split; [split; [split|]; assumption|]. split; [exact Hi|now left]. }
  assert (GP : forall s', prunes import_temps s s' -> C s').
  { intros s' (_ & _ & P). apply CC, P; [apply cleaning_prunable|exact HC]. }
  assert (GB : forall s', always (fun d => closed d /\ inputs_new d) s' -> C s').
  { intros s' Hs. apply CC. eapply always_mono; [exact Hs|]. intros d [[[Hj Hx] Hk] [Hi _]]. split; [exact Hj|]. split; [split|]; assumption. }
  assert (BC : forall d, closed d -> closing d) by now intros d [].
  pose proof (always_now _ _ HC) as (Hj & Hsh & Hk). destruct Hj as [Hj|[Hj Hm]].
  - unfold recover. eapply hoare_step; [apply quiet_exists|exact H|]. intros z Hz. fold kj in Hz. destruct (Z.eqb_spec z 0) as [->|Hz0].
    { apply (finish_new C s false false cleaning closed); auto. apply cleaning_prunable. }
    eapply hoare_step; [apply read_journal_fields; auto|exact H|]. intros [x|] Hx; [|now apply hoare_ret].
    destruct Hx as [_ Hx]. unfold journal_in in Hx. rewrite Hj in Hx. discriminate.
  - apply (recover_marked C s cleaning closed); auto. apply cleaning_prunable.
Qed.

Lemma recover_committing s : committing s ->
  hoare s (recover fuel l) committed (fun rc s' => rc = 0 -> always (idle new) s').
Proof.
  intros HC. assert (H : committed s) by now left. pose proof HC as (((Hj & Hm & Hb & HI) & Hin) & Ha & Sp & Ss & Sk & Hy).
  apply (recover_marked committed s (fun d => (((pending d \/ marked d) /\ inputs_both d) /\ exports_are new d)) finished); auto.
  - intros s' Hs. right. right. exact Hs.
  - intros g Hg. pose proof (pinned_new s g Hg Hj HI Hy) as [X1 X2]. intros d Hd. split; [now apply Ha|]. split.
    + eapply alike_survives; [exact X1|]. now apply settled_crash.
    + apply selector_survives. rewrite <- X2. now apply settled_crash.
  - apply prunable_and; [|apply import_stable_prunable, exports_import]. intros d d' Hp [Hpm Hib].
    split; [|now apply (inputs_both_prunable d)]. destruct Hpm as [Hpm|Hpm]; [left|right].
    + unfold pending, journal_in, backed, backup_ok. rewrite !(pruned_other _ _ _ Hp) by (apply not_in_engine; names). exact Hpm.
    + unfold marked, journal_in, marker_in, backed, backup_ok, installed_ok. destruct OK as [HER HN Ht _ _ _ _ _ _ _].
      rewrite !(pruned_other _ _ _ Hp) by first [apply not_in_engine; names|apply not_in_other; cbn; tauto]. exact Hpm.
  - apply finished_prunable.
  - apply finished_kk.
  - destruct Hin as [_ [[Hk _]|[Hk _]]]; auto.
  - intros d [[Hpm Hib] Hx] Hs _. unfold marker_in in Hm. rewrite Hm in Hs. apply written_survives in Hs.
    split; [|now apply both_new]. split; [destruct Hpm as [[Hp _]|[Hp _]]; exact Hp|]. split; assumption.
  - intros s' Hp. left. now apply (committing_pruned s).
  - intros s' Hs. right. left. exact Hs.
  - now intros d (H1 & H2 & H3); split; auto.
Qed.

Lemma recover_committed s : committed s ->
  hoare s (recover fuel l) committed (fun rc s' => rc = 0 -> always (idle new) s').
Proof.
  intros [HC|[HC|HC]]; [now apply recover_committing|apply recover_after|apply recover_cleaning]; try exact HC; intros s' Hs; unfold committed; auto.
Qed.

(** The commitment is durable. *)
Definition sealed (s : store) : Prop := always after s \/ always cleaning s.

Lemma recover_sealed s : sealed s -> hoare s (recover fuel l) sealed (fun rc s' => rc = 0 -> always (idle new) s').
Proof. intros [HC|HC]; [apply recover_after|apply recover_cleaning]; try exact HC; intros s' Hs; unfold sealed; auto. Qed.

(** ** The loss of power *)

Section Boot.
Variable (d : disk) (n : Z).
Abbreviation d0 := (now (boot d n)).

Lemma boot_same k : (forall a, d !! k = Some (File a) -> l_synced a = true) -> d0 !! k = d !! k.
Proof.
  intros H. rewrite boot_lookup. destruct (d !! k) as [[[data m i y]| | |]|] eqn:E; cbn; try reflexivity.
  specialize (H _ eq_refl). cbn in H. now rewrite H.
Qed.

Lemma boot_none k : d !! k = None -> d0 !! k = None.
Proof. intros H. now rewrite boot_same; rewrite H. Qed.
Lemma boot_written k data : d !! k = written data -> d0 !! k = written data.
Proof. intros H. rewrite boot_same; rewrite H; [reflexivity|]. intros a [= <-]. reflexivity. Qed.
Lemma boot_alike v k : alike v (d !! k) -> alike v (d0 !! k).
Proof.
  intros H. rewrite boot_same; [exact H|]. intros a Ha. rewrite Ha in H. destruct v as [[]|]; cbn in H; easy.
Qed.

Lemma boot_exports v : exports_are v d -> exports_are v d0.
Proof.
  intros [H1 H2]. split; [now apply boot_alike|]. rewrite boot_same; [exact H2|]. intros a. rewrite H2. unfold selector_node.
  destruct (streq _ _); discriminate.
Qed.
Lemma boot_inputs v : inputs_are v d -> inputs_are v d0.
Proof. intros H i Hi. apply boot_alike, H, Hi. Qed.
Lemma boot_backup k v : backup_ok d k v -> backup_ok d0 k v.
Proof.
  unfold backup_ok. destruct v as [[a| | |]|]; try easy. intros [H|H]; [left; now apply boot_none|right; now apply boot_written].
Qed.
Lemma boot_backups : backups_ok d -> backups_ok d0.
Proof. intros H i line Hl Hc. apply boot_backup. eauto. Qed.

Lemma boot_inputs_old : inputs_old d -> inputs_old d0.
Proof.
  intros [[Hk Hi]|[Hk [Hb Hi]]]; [left|right].
  - split; [now apply boot_none|now apply boot_inputs].
  - split; [now apply boot_written|]. split; [now apply boot_backups|]. intros i line Hl Hc. apply boot_alike. eauto.
Qed.
Lemma boot_inputs_both : inputs_both d -> inputs_both d0.
Proof.
  intros [Hn [[Hk He]|[Hk Hb]]]; (split; [now apply boot_inputs|]); [left|right].
  - split; [now apply boot_none|exact He].
  - split; [now apply boot_written|now apply boot_backups].
Qed.
Lemma boot_pending : pending d -> pending d0.
Proof.
  intros (H1 & H2 & H3 & H4). split; [now apply boot_written|]. split; [now apply boot_none|]. split; [now apply boot_backup|exact H4].
Qed.
Lemma boot_marked : marked d -> marked d0.
Proof.
  intros (H1 & H2 & [H3 H3'] & H4 & H5). split; [now apply boot_written|]. split; [now apply boot_written|]. split; [split; [now apply boot_backup|exact H3']|].
  split; [|now apply boot_written]. rewrite boot_same; [exact H4|]. intros a. now rewrite H4.
Qed.

Lemma boot_before : before d -> uncommitted (boot d n).
Proof.
  intros [[[Hj Hx]|Hp] Hi].
  - left. apply always_boot. split; [|now apply boot_exports]. split; [left; split; [now apply boot_none|now apply boot_exports]|now apply boot_inputs_old].
  - right. assert (P := boot_pending Hp). assert (I := boot_inputs_old Hi). split; [now split|]. apply always_boot. left. split; [now right|exact I].
Qed.

Lemma boot_commit : at_commit d -> committing (boot d n).
Proof.
  intros [Hm Hi]. assert (M := boot_marked Hm). assert (I := boot_inputs_both Hi). split; [now split|].
  split; [apply always_boot; split; [now right|exact I]|]. repeat (split; [apply settled_boot|]).
  intros a. rewrite boot_lookup. destruct (d !! kp) as [[]|]; cbn; try discriminate. now intros [= <-].
Qed.
End Boot.

(** What can be recovered can be recovered after a loss of power. *)
Definition recoverable (s : store) : Prop := uncommitted s \/ committed s.

Lemma recoverable_crash s d n : recoverable s -> crash s d -> recoverable (boot d n).
Proof.
  intros H C. destruct H as [[H|[_ H]]|[H|[H|H]]].
  - left. apply boot_before. now destruct (H d C).
  - destruct (H d C) as [H'|H']; [left; now apply boot_before|right; left; now apply boot_commit].
  - destruct H as (_ & H & _). destruct (H d C) as [[Hp|Hm] Hi].
    + left. apply boot_before. split; [now right|now apply both_old].
    + right. left. apply boot_commit. now split.
  - right. right. left. apply always_boot. destruct (H d C) as [(H1 & H2 & H3) [H4 H5]]. split; [split; [|split]|split].
    + now apply boot_written. + now apply boot_written. + now apply boot_exports. + now apply boot_inputs.
    + destruct H5 as [H5|H5]; [left; now apply boot_none|right; now apply boot_written].
  - right. right. right. apply always_boot. destruct (H d C) as (H1 & [H2 H3] & H4). split; [|split; [split|]].
    + destruct H1 as [H1|[H1 H5]]; [left; now apply boot_none|right; split; now apply boot_written].
    + now apply boot_exports. + now apply boot_inputs. + now apply boot_none.
Qed.

Lemma sealed_crash s d n : sealed s -> crash s d -> sealed (boot d n).
Proof.
  intros [H|H] C.
  - left. apply always_boot. destruct (H d C) as [(H1 & H2 & H3) [H4 H5]]. split; [split; [|split]|split].
    + now apply boot_written. + now apply boot_written. + now apply boot_exports. + now apply boot_inputs.
    + destruct H5 as [H5|H5]; [left; now apply boot_none|right; now apply boot_written].
  - right. apply always_boot. destruct (H d C) as (H1 & [H2 H3] & H4). split; [|split; [split|]].
    + destruct H1 as [H1|[H1 H5]]; [left; now apply boot_none|right; split; now apply boot_written].
    + now apply boot_exports. + now apply boot_inputs. + now apply boot_none.
Qed.
End Recovery.
