(* ===== verification/Publication.v ===== *)
(** * Publishing a generation (generation.c)

    The backups and the new inputs, the journal of the inputs and their
    publication ([prepare_inputs]); the backup of the public file, the journal, the
    new public file and selector, and the marker ([publish]).  Wherever a run is
    cut, what it leaves can be recovered; a run that succeeds is committed. *)
From stdpp Require Import gmap.
From S2P Require Import Prelude Sha256 Rules Bytes Cache Import Files FilesFacts Generation GenerationFacts Recovery.

#[local] Opaque grow_capacity.

(** Keys that differ in their names, or in their directories. *)
Ltac keys := unfold Recovery.kj, Recovery.kc, Recovery.ks, Recovery.kb, Recovery.kk, Recovery.kp, Recovery.ki;
  first [now intros [=] | match goal with H : transaction_ok _ _ |- _ => destruct H as [? [] []]; congruence end].

Section Publication.
Context `{KN : Kernel} `{HP : Heap} (fuel : nat) (l : location) (t : transaction) (OK : transaction_ok l t).
Abbreviation E := (l_engine l).
Abbreviation R := (l_root l).
Abbreviation old := (t_old t).
Abbreviation new := (t_new t).
Abbreviation j := (t_journal t).
Abbreviation kj := (Recovery.kj l).
Abbreviation kc := (Recovery.kc l).
Abbreviation ks := (Recovery.ks l).
Abbreviation kb := (Recovery.kb l).
Abbreviation kk := (Recovery.kk l).
Abbreviation kp := (Recovery.kp l).
Abbreviation ki := (Recovery.ki l).
Abbreviation exports_are := (Recovery.exports_are l).
Abbreviation inputs_are := (Recovery.inputs_are l).
Abbreviation inputs_old := (Recovery.inputs_old l t).
Abbreviation inputs_both := (Recovery.inputs_both l t).
Abbreviation inputs_written := (Recovery.inputs_written l t).
Abbreviation backups_ok := (Recovery.backups_ok l t).
Abbreviation backup_ok := Recovery.backup_ok.
Abbreviation backed := (Recovery.backed l t).
Abbreviation installed_ok := (Recovery.installed_ok l t).
Abbreviation idle_old := (Recovery.idle_old l t).
Abbreviation pending := (Recovery.pending l t).
Abbreviation marked := (Recovery.marked l t).
Abbreviation uncommitted := (Recovery.uncommitted l t).
Abbreviation committing := (Recovery.committing l t).
Abbreviation committed := (Recovery.committed l t).
Abbreviation recoverable := (Recovery.recoverable l t).
Abbreviation before := (Recovery.before l t).
Abbreviation at_commit := (Recovery.at_commit l t).
Abbreviation after := (Recovery.after l t).
Abbreviation import_keys := (Recovery.import_keys l).
Abbreviation export_keys := (Recovery.export_keys l).

Implicit Types (k : key) (o : option node) (d : disk) (s : store).

(** A saved file has no other value than the old one, which was none. *)
Lemma always_none_older s k o : always (fun d => d !! k = None) s -> o ∈ older s k -> o = None.
Proof.
  intros H Ho. specialize (H (upd k o (now s))). cbn beta in H. rewrite lookup_upd in H. apply H. intros k'. destruct (decide (k' = k)) as [->|Hne].
  - rewrite lookup_upd. exists o. split; [now right|apply survives_refl].
  - rewrite lookup_upd_ne by exact Hne. exists (now s !! k'). split; [now left|apply survives_refl].
Qed.

Lemma always_saved s s' k data : always (fun d => d !! k = None) s -> saved k data s s' ->
  always (fun d => d !! k = None \/ d !! k = written data) s'.
Proof.
  intros H (_ & Hn & Ho) d Hd. destruct (Hd k) as (o & Hx & Hs). destruct Hx as [->|Hx].
  - right. rewrite Hn in Hs. now apply written_survives in Hs.
  - left. rewrite Ho in Hx. apply none_survives. replace None with o; [exact Hs|]. apply elem_of_cons in Hx as [->|Hx]; [reflexivity|].
    exact (always_none_older s k o H Hx).
Qed.

(** ** After a failure *)

(** The journal may be there, and the exports are the old ones. *)
Definition quiescent (d : disk) : Prop := before d /\ exports_are old d.

Lemma quiescent_uncommitted s : always quiescent s -> uncommitted s.
Proof. intros H. now left. Qed.


Lemma engine_backup_names name : name ∉ import_journal :: cleanup_inputs -> forall i, (i < 4)%nat -> name <> backup_name i.
Proof.
  intros H i Hi ->. apply H, list_elem_of_further. destruct i as [|[|[|[|]]]]; [names..|lia].
Qed.

(** The entries of the exports and of the journal are not those of the inputs. *)
Lemma inputs_stable_engine names : (forall name, name ∈ names -> name ∉ import_journal :: cleanup_inputs) ->
  stable inputs_both (map (pair E) names) /\ stable inputs_old (map (pair E) names).
Proof.
  intros H. apply (inputs_both_stable l t OK).
  - intros i _. apply (target_not_engine l t OK).
  - apply not_in_engine. intros Hi. apply (H _ Hi), list_elem_of_here.
  - intros i Hi. apply not_in_engine. intros Hn. now apply (engine_backup_names _ (H _ Hn) i Hi).
Qed.

Lemma cleanup_quiescent s : always quiescent s -> hoare s (cleanup_transaction l) uncommitted (fun _ _ => True).
Proof.
  intros H. set (D := fun d => inputs_old d /\ exports_are old d).
  assert (HD : always (fun d => D d /\ (d !! kj = None \/ pending d)) s).
  { eapply always_mono; [exact H|]. intros d [[HB HI] Hx]. split; [now split|]. destruct HB as [[HB _]|HB]; auto. }
  assert (SI : forall names, (forall name, name ∈ names -> name ∉ import_journal :: cleanup_inputs) -> str "current" ∉ names -> stable D (map (pair E) names)).
  { intros ns Hn Hs. apply stable_and; [now apply inputs_stable_engine|]. apply exports_are_stable; [apply (kp_not_engine l t OK)|now apply not_in_engine]. }
  eapply hoare_mono; [apply (cleanup_spec l s D pending)| |auto].
  - apply (SI [str "journal"]); [apply Forall_forall; names|names].
  - apply stable_prunable, SI; [apply Forall_forall; names|names].
  - exact HD.
  - intros s' G. apply quiescent_uncommitted. eapply always_mono; [exact G|]. intros d [[HI Hx] HJ]. split; [|exact Hx]. split; [|exact HI].
    destruct HJ as [HJ|HJ]; [left; now split|now right].
Qed.

(** What the removal of the marker makes of each state. *)
Section Unmarked.
Variables d d0 : disk.
Hypotheses (Hc : d !! kc = None) (He : forall k, k <> kc -> d !! k = d0 !! k).

Lemma unmarked_inputs : (inputs_both d0 -> inputs_both d) /\ (inputs_old d0 -> inputs_old d).
Proof.
  destruct (inputs_stable_engine [str "committed"]) as [SB SO]; [apply Forall_forall; names|].
  assert (A : forall k, k ∉ [kc] -> d !! k = d0 !! k) by (intros k Hk; apply He; now rewrite list_elem_of_singleton in Hk).
  split; [apply SB|apply SO]; exact A.
Qed.

Lemma unmarked_pending : pending d0 \/ marked d0 -> pending d.
Proof.
  intros HPM. unfold Recovery.pending, Recovery.marked, journal_in, Recovery.backed, Recovery.backup_ok in *.
  rewrite (He kj), (He kb) by keys. destruct HPM as [(H1 & H2 & H3)|(H1 & H2 & H3 & H4)]; auto.
Qed.

Lemma unmarked_exports v : exports_are v d0 -> exports_are v d.
Proof. unfold Recovery.exports_are. rewrite (He kp), (He ks) by keys. auto. Qed.

Lemma unmarked_before : before d0 -> before d.
Proof.
  intros [HB HI]. split; [|now apply unmarked_inputs]. destruct HB as [[HJ HX]|HB]; [left|right; apply unmarked_pending; auto].
  split; [now rewrite He by keys|now apply unmarked_exports].
Qed.

Lemma unmarked_commit : pending d0 \/ marked d0 -> inputs_both d0 -> before d.
Proof. intros HPM HI. split; [right; now apply unmarked_pending|]. apply (both_old l t OK). now apply unmarked_inputs. Qed.

Lemma quiescent_unmarked : quiescent d0 -> quiescent d.
Proof. intros [HB HX]. split; [now apply unmarked_before|now apply unmarked_exports]. Qed.
End Unmarked.

(** Without its marker, a transaction is not committed. *)
Lemma unmark s s' : committing s \/ uncommitted s -> removes kc s s' -> now s' !! kc = None -> uncommitted s'.
Proof.
  intros H Hr Hn.
  assert (Off : forall k, k <> kc -> now s' !! k = now s !! k).
  { intros k Hk. destruct Hr as [->| ->]; [reflexivity|]. cbn. now apply lookup_delete_ne. }
  destruct H as [(Hc & Ha & _)|[H|[[Hp Hi] Ha]]].
  - destruct Hr as [->| ->].
    { destruct Hc as [(_ & Hm & _) _]. unfold marker_in in Hm. rewrite Hn in Hm. discriminate. }
    right. split.
    + destruct Hc as [Hm Hib]. split; [apply (unmarked_pending _ (now s)); auto|].
      apply (both_old l t OK), (unmarked_inputs _ (now s) Off), Hib.
    + eapply always_put; [exact Ha| |].
      * intros d [[Hp|Hm] Hib]; [left; split; [now right|now apply (both_old l t OK)]|right; now split].
      * intros d d0 [HPM Hib] Hs He. left. apply none_survives in Hs. now apply (unmarked_commit d d0).
  - destruct Hr as [->| ->]; [now left|]. left. eapply always_put; [exact H|auto|]. intros d d0 HQ Hs He. apply none_survives in Hs.
    now apply (quiescent_unmarked d d0).
  - destruct Hr as [->| ->]; [right; exact (conj (conj Hp Hi) Ha)|]. right. split.
    + split; [apply (unmarked_pending _ (now s)); auto|]. apply (unmarked_inputs _ (now s) Off), Hi.
    + eapply always_put; [exact Ha|auto|]. intros d d0 HBC Hs He. apply none_survives in Hs. left.
      destruct HBC as [HBC|[Hm Hib]]; [now apply (unmarked_before d d0)|apply (unmarked_commit d d0); auto].
Qed.

Lemma publish_failed_spec s prepared : (if prepared : bool then committing s \/ uncommitted s else always quiescent s) ->
  hoare s (publish_failed fuel l prepared) recoverable (fun rc s' => rc <> 0 /\ (committing s' \/ uncommitted s')).
Proof.
  intros H. assert (HU : committing s \/ uncommitted s) by (destruct prepared; [exact H|right; now apply quiescent_uncommitted]).
  assert (HR : recoverable s) by (destruct HU as [HU|HU]; [right; now left|now left]).
  unfold publish_failed. eapply hoare_bind with (Q := fun rc s' => (rc = 0 -> uncommitted s' /\ (prepared = false -> always quiescent s')) /\ (rc <> 0 -> s' = s)).
  - eapply hoare_mono; [eapply hoare_and; [apply remove_file_spec|apply remove_file_spec]| |].
    + intros s' [Hr _]. destruct Hr as [->|Hr]; [exact HR|]. left. apply (unmark s s' HU); [now right|]. rewrite Hr. apply now_put.
    + intros rc s' [Hr _] [Hx _]. split; [|destruct Hx as [[-> _]|[_ Hx]]; easy]. intros ->. destruct Hx as [[_ Hn]|[[=] _]].
      split; [now apply (unmark s s' HU Hr)|]. intros ->.
      destruct Hr as [->| ->]; [exact H|]. eapply always_put; [exact H|auto|]. intros d d0 HQ Hs He. apply none_survives in Hs.
      apply (quiescent_unmarked d d0); auto.
  - intros rc s1 G [HQ HS]. destruct (Z.eqb_spec rc 0) as [E0|Hne]; cbn [negb]; [|rewrite (HS Hne) in *; apply hoare_ret; [exact G|easy]].
    destruct (HQ E0) as [U1 Q1].
    eapply hoare_step with (Q0 := fun b => prepared = true -> b = true); [|exact G|].
    { destruct prepared; [now apply hoare_ret|]. eapply hoare_step; [apply quiet_exists|reflexivity|]. intros x _. now apply hoare_ret. }
    intros again Ha. eapply hoare_bind with (Q := fun _ => uncommitted); [|intros _ s' G' U'; apply hoare_ret; [exact G'|auto]].
    destruct again.
    + eapply hoare_mono; [apply (recover_uncommitted fuel l t OK s1 U1)|intros s' H'; now left|auto].
    + destruct prepared; [now specialize (Ha eq_refl)|]. eapply hoare_mono; [apply (cleanup_quiescent s1 (Q1 eq_refl))|intros s' H'; now left|auto].
Qed.

(** ** The steps after the journal *)

Lemma export_key name : name ∈ [str "export.restore"; str "export.next"; str "current.next"; str "current.rollback"; str "committed.next"; str "journal.next"] ->
  (E, name) ∈ export_keys.
Proof. intros H. apply list_elem_of_further, list_elem_of_further, list_elem_of_fmap. eauto. Qed.

(** The journal is durable, and its inputs are published. *)
Definition prepared_state (d : disk) : Prop := (pending d /\ inputs_both d) /\ installed_ok d.

Lemma prepared_stable : stable prepared_state export_keys.
Proof.
  destruct (export_stable l t OK) as (S1 & S2 & S3 & S4). apply stable_and; [apply stable_and; assumption|].
  intros d d' He. unfold Recovery.installed_ok. assert (HT := OK). destruct HT as [HER [HN1 HN2] [Ht1 Ht2] _ _ _ _ _ _ _].
  now rewrite !He by (apply not_export_other; cbn; assumption).
Qed.

Lemma prepared_uncommitted s : always prepared_state s -> uncommitted s.
Proof.
  intros H. right. destruct (always_now _ _ H) as [[Hp Hi] _]. split; [split; [exact Hp|now apply (both_old l t OK)]|].
  eapply always_mono; [exact H|]. intros d [[Hp' Hi'] _]. left. split; [now right|now apply (both_old l t OK)].
Qed.

Lemma prepared_frame ks' s s' : frame ks' s s' -> ks' ⊆ export_keys -> always prepared_state s -> always prepared_state s'.
Proof. intros F Hs H. eapply always_frame; [exact F| |exact H]. exact (stable_sub _ _ _ prepared_stable Hs). Qed.

Lemma one_export name : name ∈ [str "export.restore"; str "export.next"; str "current.next"; str "current.rollback"; str "committed.next"; str "journal.next"] ->
  [(E, name)] ⊆ export_keys.
Proof. intros H k Hk. apply list_elem_of_singleton in Hk as ->. now apply export_key. Qed.

Lemma publish_prepared_spec s : always prepared_state s -> now s !! (E, str "export.next") = written (t_sieve t) ->
  hoare s (publish_prepared fuel l (j_next j)) recoverable
    (fun b s' => if b : bool then always after s' else committing s' \/ uncommitted s').
Proof.
  intros H Hx. assert (HU : forall s', always prepared_state s' -> uncommitted s') by apply prepared_uncommitted.
  assert (HR : forall s', always prepared_state s' -> recoverable s') by (intros s' H'; left; auto).
  unfold publish_prepared. apply hoare_all_cons. fold public_name.
  apply hoare_renameat; [keys|now apply HR|right; now apply HU|]. fold (Recovery.kp l). intros n Hn. rewrite Hx in Hn. injection Hn as <-.
  set (s1 := put (E, str "export.next") None (put kp _ s)).
  assert (F1 : frame [kp; (E, str "export.next")] s s1).
  { eapply frame_trans; [eapply frame_weaken; [|apply frame_put]|eapply frame_weaken; [|apply frame_put]]; set_solver. }
  assert (P1 : now s1 !! kp = written (t_sieve t)).
  { cbn. rewrite lookup_delete_ne by keys. apply lookup_insert_eq. }
  assert (H1 : always prepared_state s1).
  { eapply prepared_frame; [exact F1| |exact H]. intros k Hk. apply elem_of_cons in Hk as [->|Hk]; [apply list_elem_of_here|].
    revert k Hk. apply one_export. names. }
  split; [now apply HR|]. intros _. apply hoare_all_cons, hoare_zero.
  assert (Fs : forall s', frame [ks; (E, str "current.next")] s1 s' -> always prepared_state s').
  { intros s' F. eapply prepared_frame; [exact F| |exact H1]. intros k Hk. apply elem_of_cons in Hk as [->|Hk]; [apply list_elem_of_further, list_elem_of_here|].
    revert k Hk. apply one_export. names. }
  eapply hoare_mono; [eapply set_selector_spec; [exact OK|names]|intros s' [F _]; now apply HR, Fs|].
  intros rc s2 [F2 _] Hs _. assert (H2 := Fs s2 F2). destruct (Z.eqb_spec rc 0) as [E0|]; [|right; now apply HU]. specialize (Hs E0).
  assert (P2 : now s2 !! kp = written (t_sieve t)).
  { rewrite (proj1 (F2 kp ltac:(rewrite elem_of_cons, list_elem_of_singleton; intros [X|X]; revert X; keys))). exact P1. }
  assert (H3 : always prepared_state (settle R s2)) by (eapply always_mono; [apply (always_settle _ _ R H2)|now intros d []]).
  apply hoare_all_cons, hoare_fsync_dir; [now apply HR|right; now apply HU|now apply HR|]. intros _. set (s3 := settle R s2) in *.
  assert (H4 : always prepared_state (settle E s3)) by (eapply always_mono; [apply (always_settle _ _ E H3)|now intros d []]).
  apply hoare_all_cons, hoare_fsync_dir; [now apply HR|right; now apply HU|now apply HR|]. intros _. set (s4 := settle E s3) in *.
  assert (Hset : settled s4 kp /\ settled s4 ks /\ settled s4 kk).
  { split; [|split; apply settled_settle]. eapply settled_frame; [apply frame_settle|apply not_elem_of_nil|]. apply settled_settle. }
  assert (X4 : exports_are new (now s4)).
  { split; [rewrite (ok_new_public l t OK); change (now s4) with (now s2); rewrite P2; cbn; auto|].
    change (now s4) with (now s2). rewrite Hs. now rewrite (ok_new_selector l t OK). }
  assert (Y4 : now s4 !! kp = written (t_sieve t)) by exact P2.
  clearbody s4. clear H H1 H2 H3 F1 F2 s1 P1 Fs s2 Hs P2 s3. clear s Hx. clear rc E0. rename s4 into s.
  apply hoare_all_cons, hoare_zero. eapply hoare_mono; [apply save_spec| |].
  { intros s' F. apply HR. eapply prepared_frame; [exact F|apply one_export; names|exact H4]. }
  intros rc s1 F Hs _. assert (H1 : always prepared_state s1) by (eapply prepared_frame; [exact F|apply one_export; names|exact H4]).
  destruct (Z.eqb_spec rc 0) as [E0|]; [|right; now apply HU]. destruct (Hs E0) as (_ & Hw & _). clear Hs E0.
  assert (Keep : forall k, k <> (E, str "committed.next") -> now s1 !! k = now s !! k /\ (settled s k -> settled s1 k)).
  { intros k Hk. assert (k ∉ [(E, str "committed.next")]) as Hk' by now rewrite list_elem_of_singleton.
    split; [apply F, Hk'|now apply (settled_frame _ _ _ _ F)]. }
  apply hoare_all_cons, hoare_renameat; [keys|now apply HR|right; now apply HU|]. intros n Hn. rewrite Hw in Hn. injection Hn as <-.
  set (s2 := put (E, str "committed.next") None (put (E, str "committed") _ s1)).
  assert (Off : forall k, k <> (E, str "committed.next") -> k <> kc -> now s2 !! k = now s !! k /\ (settled s k -> settled s2 k)).
  { intros k H1' H2'. unfold Recovery.kc in H2'. destruct (Keep k H1') as [K1 K2]. split.
    - cbn. rewrite lookup_delete_ne, lookup_insert_ne by (apply not_eq_sym; assumption). exact K1.
    - intros Hset'. unfold settled. cbn. rewrite !decide_False by assumption. exact (K2 Hset'). }
  assert (Mk : now s2 !! kc = written (j_next j)).
  { cbn. rewrite lookup_delete_ne by keys. rewrite lookup_insert_eq. unfold written.
    rewrite firstn_all2; [reflexivity|]. pose proof (jo_next _ (ok_journal l t OK)) as V. apply valid_id_plain in V as [V _]. lia. }
  assert (PM : forall d d0 : disk, (d !! kc = written (j_next j) \/ d !! kc = None) -> (forall k, k <> kc -> d !! k = d0 !! k) -> prepared_state d0 ->
    (pending d \/ marked d) /\ inputs_both d).
  { intros d d0 Hc He [[(J1 & J2 & J3) Hi] [I1 I2]]. split.
    - assert (HT := OK). destruct HT as [HER [HN1 HN2] [Ht1 Ht2] _ _ _ _ _ _ _].
      unfold Recovery.pending, Recovery.marked, journal_in, marker_in, Recovery.installed_ok, Recovery.backed, Recovery.backup_ok in *. rewrite (He kj), (He kb) by keys.
      rewrite (He (l_generations l, j_next j)), (He (t_number t, public_name)) by (unfold Recovery.kc; congruence).
      destruct Hc as [Hc|Hc]; [right|left]; auto.
    - destruct (inputs_stable_engine [str "committed"]) as [SB _]; [apply Forall_forall; names|].
      apply (SB d0); [|exact Hi]. intros k Hk. apply He. intros ->. apply Hk, list_elem_of_here. }
  assert (A2 : always (fun d => (pending d \/ marked d) /\ inputs_both d) s2).
  { eapply always_frame; [apply frame_put| |].
    - apply stable_and.
      + destruct (export_stable l t OK) as (S1 & S2 & _). intros d d' He [Hp|Hm]; [left|right].
        * apply (stable_sub _ _ [(E, str "committed.next")] S1 (one_export (str "committed.next") ltac:(names)) d); assumption.
        * apply (stable_sub _ _ [(E, str "committed.next")] S2 (one_export (str "committed.next") ltac:(names)) d); assumption.
      + apply (inputs_stable_engine [str "committed.next"]), Forall_forall. names.
    - eapply always_put; [exact H1| |].
      + intros d [[Hp Hi] _]. auto.
      + intros d d0 Hd Hs He. apply (PM d d0); [left|exact He|exact Hd]. apply written_survives.
        replace (written (j_next j)) with (Some (File (Leaf (take 64 (j_next j)) 384 1 true))); [exact Hs|].
        unfold written. rewrite firstn_all2; [reflexivity|]. pose proof (jo_next _ (ok_journal l t OK)) as V. apply valid_id_plain in V as [V _]. lia. }
  assert (HN := always_now _ _ A2). cbn beta in HN.
  assert (AC : at_commit (now s2)).
  { destruct HN as [[(_ & Hc & _)|Hm] Hi]; [unfold Recovery.kc in *; rewrite Mk in Hc; discriminate|now split]. }
  assert (X2 : exports_are new (now s2)).
  { destruct X4 as [X X']. split; [rewrite (proj1 (Off kp ltac:(keys) ltac:(keys))); exact X|rewrite (proj1 (Off ks ltac:(keys) ltac:(keys))); exact X']. }
  assert (C2 : committing s2).
  { destruct Hset as (Q1 & Q2 & Q3). split; [exact AC|]. split; [exact A2|].
    split; [apply Off; [keys|keys|exact Q1]|]. split; [apply Off; [keys|keys|exact Q2]|]. split; [apply Off; [keys|keys|exact Q3]|].
    intros a Ha. rewrite (proj1 (Off kp ltac:(keys) ltac:(keys))), Y4 in Ha. injection Ha as <-. reflexivity. }
  split; [right; now left|]. intros _.
  assert (A3 : always after (settle E s2)).
  { eapply always_mono; [apply (always_settle _ _ E (always_and _ _ _ A2 (fun d Hd => Hd)))|]. intros d [[[HPM Hi] Hcr] Hsv].
    assert (Hm : d !! kc = written (j_next j)) by (apply written_survives; rewrite <- Mk; apply Hsv).
    split; [|now apply (both_new l t)]. split; [destruct HPM as [[HJ _]|[HJ _]]; exact HJ|]. split; [exact Hm|].
    destruct C2 as (_ & _ & Sp & Ss & _). destruct X2 as [X X']. split.
    - eapply alike_survives; [exact X|]. now apply settled_crash.
    - apply selector_survives. rewrite <- X'. now apply settled_crash. }
  apply hoare_all_cons, hoare_fsync_dir; [right; now left|now left|right; right; now left|]. intros G. apply hoare_all_nil; [exact G|exact A3].
Qed.


(** ** The publication *)

(** Before it: no journal, the old exports, the inputs of the new view. *)
Definition ready (d : disk) : Prop := (idle_old d /\ d !! kc = None) /\ (inputs_both d /\ installed_ok d).

Lemma ready_quiescent d : ready d -> quiescent d.
Proof. intros [[Hi _] [Hb _]]. split; [split; [now left|now apply (both_old l t OK)]|apply Hi]. Qed.

Lemma ready_uncommitted s : always ready s -> uncommitted s.
Proof. intros H. apply quiescent_uncommitted. eapply always_mono; [exact H|apply ready_quiescent]. Qed.

Lemma installed_stable keys : (forall k, k ∈ keys -> k.1 = E \/ k.1 = R) -> stable installed_ok keys.
Proof.
  intros H d d' He. assert (HT := OK). destruct HT as [HER [HN1 HN2] [Ht1 Ht2] _ _ _ _ _ _ _]. unfold Recovery.installed_ok.
  rewrite !He; [auto|intros X; destruct (H _ X); cbn in *; congruence..].
Qed.

Lemma ready_stable names : (forall name, name ∈ names -> name ∉ [str "journal"; str "committed"; str "current"; import_journal] /\ name ∉ cleanup_inputs) ->
  stable ready (map (pair E) names).
Proof.
  intros H. assert (NI : forall n, n ∉ [str "journal"; str "committed"; str "current"; import_journal] -> n ∉ cleanup_inputs -> True) by auto.
  assert (X : forall n, n ∈ [str "journal"; str "committed"; str "current"] -> (E, n) ∉ map (pair E) names).
  { intros n Hn. apply not_in_engine. intros Hi. destruct (H n Hi) as [H1 _]. apply H1. set_solver. }
  apply stable_and; apply stable_and.
  - apply idle_old_stable; [apply X; names|apply (kp_not_engine l t OK)|apply X; names].
  - intros d d' He Hc. rewrite He; [exact Hc|apply X; names].
  - apply inputs_stable_engine. intros n Hn. destruct (H n Hn) as [H1 H2]. rewrite not_elem_of_cons. split; [|exact H2].
    intros ->. apply H1. names.
  - apply installed_stable. intros k Hk. left. apply list_elem_of_fmap in Hk as (n & -> & _). reflexivity.
Qed.

Lemma always_framed I ks' s s' : stable I ks' -> frame ks' s s' -> always I s -> always I s'.
Proof. intros S F. exact (always_frame I ks' s s' F S). Qed.

(** The text that [publish] writes is that of the journal of the transaction. *)
Lemma journal_old : (if streq (v_selector old) [] then str "-" else v_selector old) = j_old j.
Proof.
  rewrite (ok_old_selector l t OK). destruct (jo_old _ (ok_journal l t OK)) as [->|V]; [reflexivity|].
  destruct (streq (j_old j) (str "-")) eqn:E1; [apply streq_spec in E1; now rewrite E1|].
  destruct (streq (j_old j) []) eqn:E2; [|reflexivity]. apply streq_spec in E2. now rewrite E2 in V.
Qed.

Lemma back_up_spec s present : always (fun d => ready d /\ d !! kb = None) s ->
  (present = 0 /\ now s !! kp = None \/ present = 1 /\ exists n, now s !! kp = Some n) -> (v_public old = None -> j_mode j = 384) ->
  hoare s (back_up fuel l present) (always ready) (fun r s' => r.1 = true -> r.2 = j_mode j /\ present = j_present j /\
    always (fun d => ready d /\ backed d) s').
Proof.
  intros H Hp Hm. assert (HR : always ready s) by (eapply always_mono; [exact H|now intros d []]).
  assert (Hpub := ok_old_public l t OK). destruct (always_now _ _ HR) as [[[_ [Hx _]] _] _]. unfold back_up.
  destruct Hp as [[-> Hn]|[-> (n & Hn)]]; cbn [Z.eqb].
  - apply hoare_ret; [exact HR|]. cbn [fst snd]. intros _. rewrite Hn in Hx. destruct (v_public old) as [[]|] eqn:Ev; try easy.
    split; [now rewrite Hm|]. split; [now symmetry|]. eapply always_mono; [exact HR|]. intros d Hd.
    unfold Recovery.backed, regular_public, Recovery.backup_ok. now rewrite Ev.
  - eapply hoare_step; [apply quiet_load_mode|exact HR|]. intros [[rc b] mode] Hl. fold public_name in Hl. fold (Recovery.kp l) in Hl.
    destruct (Z.eqb_spec rc 0) as [E0|]; cbn [negb]; [|now apply hoare_ret]. destruct (Hl E0) as (f & Hf & Hb & -> & _).
    rewrite Hf in Hx. destruct (v_public old) as [[a| | |]|] eqn:Ev; try easy. destruct Hx as (X1 & X2 & _). destruct Hpub as [P1 P2].
    assert (FS : forall s', frame [kb] s s' -> always ready s').
    { intros s' F. eapply (always_framed _ (map (pair E) [str "export.backup"])); [|exact F|exact HR].
      apply ready_stable. intros n' Hn'. apply list_elem_of_singleton in Hn' as ->. split; names. }
    eapply hoare_bind; [eapply hoare_mono; [apply (hoare_and _ _ _ _ _ _ (save_spec fuel s kb (contents b)) (save_spec fuel s kb (contents b)))| |]|].
    + intros s' [F _]. now apply FS.
    + intros rc' s' [F _] [Hs _]. exact (conj (FS s' F) Hs).
    + intros rc' s' G [_ Hs]. apply hoare_ret; [exact G|]. cbn [fst snd]. intros E1. apply Z.eqb_eq in E1. specialize (Hs E1).
      split; [congruence|]. split; [now symmetry|]. apply always_and; [exact G|].
      eapply always_mono; [eapply always_saved; [|exact Hs]|].
      * eapply always_mono; [exact H|now intros d []].
      * intros d Hd. unfold Recovery.backed, regular_public, Recovery.backup_ok. rewrite Ev, <- X1, <- Hb. auto.
Qed.

(** After the journal, before it is known to be durable. *)
Definition journaled (d : disk) : Prop :=
  ((idle_old d \/ pending d) /\ exports_are old d) /\ (inputs_both d /\ installed_ok d).

Lemma journaled_quiescent d : journaled d -> quiescent d.
Proof. intros [[HB Hx] [Hi _]]. split; [|exact Hx]. split; [exact HB|now apply (both_old l t OK)]. Qed.

Lemma publish_spec s p : always (fun d => ready d /\ d !! kb = None) s ->
  pr_id p = j_next j -> contents (pr_sieve p) = t_sieve t -> (v_public old = None -> j_mode j = 384) ->
  hoare s (publish fuel l (v_selector old) p) recoverable (fun rc s' => if rc =? 0 then always after s' else committing s' \/ uncommitted s').
Proof.
  intros H Hid Hsv Hm. assert (HR : always ready s) by (eapply always_mono; [exact H|now intros d []]).
  assert (HU : forall s', always ready s' -> recoverable s') by (intros s' H'; left; now apply ready_uncommitted).
  assert (HQ : forall s', always ready s' -> always quiescent s') by (intros s' H'; eapply always_mono; [exact H'|apply ready_quiescent]).
  assert (Fail : forall s' prepared, (if prepared : bool then committing s' \/ uncommitted s' else always quiescent s') ->
    hoare s' (publish_failed fuel l prepared) recoverable (fun rc s'' => if rc =? 0 then always after s'' else committing s'' \/ uncommitted s'')).
  { intros s' prepared H'. eapply hoare_mono; [now apply publish_failed_spec|auto|]. intros rc s'' _ [H1 H2]. now destruct (Z.eqb_spec rc 0). }
  unfold publish. eapply hoare_step; [apply quiet_exists|now apply HU|]. intros present Hp. fold public_name in Hp. fold (Recovery.kp l) in Hp.
  destruct (Z.ltb_spec present 0); [apply hoare_ret; [now apply HU|cbn; right; now apply ready_uncommitted]|].
  assert (Hp' : present = 0 /\ now s !! kp = None \/ present = 1 /\ exists n, now s !! kp = Some n) by (destruct Hp as [Hp|[Hp|Hp]]; [auto..|lia]).
  eapply hoare_bind; [eapply hoare_mono; [apply (hoare_and _ _ _ _ _ _ (back_up_spec s present H Hp' Hm) (back_up_spec s present H Hp' Hm))| |]|].
  { intros s' [G _]. now apply HU. }
  { intros r s' [G _] [Q _]. exact (conj G Q). }
  intros [ok mode] s1 _ [H1 Q1]. cbn [fst snd] in Q1. destruct ok; cbn [negb]; [|now apply Fail, HQ].
  destruct (Q1 eq_refl) as (-> & Epr & B1). clear Q1. set (kept := fun d => ready d /\ backed d) in *.
  assert (SB : forall names, (forall name, name ∈ names -> name ∉ [str "journal"; str "committed"; str "current"; import_journal; str "export.backup"] /\ name ∉ cleanup_inputs) ->
    stable kept (map (pair E) names)).
  { intros names Hn. apply stable_and; [apply ready_stable; intros n Hi; destruct (Hn n Hi) as [H1' H2']; split; [set_solver|exact H2']|].
    intros d d' He. unfold Recovery.backed, Recovery.backup_ok. rewrite He; [auto|]. apply not_in_engine. intros Hi. destruct (Hn _ Hi) as [H1' _]. set_solver. }
  rewrite journal_old, Hid, Epr.
  change (journal_text (j_old j) (j_present j) (j_mode j) (j_next j)) with (journal_bytes j).
  assert (RB : forall s', always kept s' -> recoverable s') by (intros s' H'; apply HU; eapply always_mono; [exact H'|now intros d []]).
  assert (QB : forall s', always kept s' -> always quiescent s') by (intros s' H'; apply HQ; eapply always_mono; [exact H'|now intros d []]).
  assert (QJ : forall s', always journaled s' -> always quiescent s') by (intros s' H'; eapply always_mono; [exact H'|apply journaled_quiescent]).
  eapply hoare_bind with (Q := fun b s' => if b : bool then always prepared_state s' /\ now s' !! (E, str "export.next") = written (t_sieve t) else always quiescent s').
  - assert (Fr : forall name s0 s', name ∈ [str "export.next"; str "journal.next"] -> frame [(E, name)] s0 s' -> always kept s0 -> always kept s').
    { intros name s0 s' Hn F. apply (always_framed _ (map (pair E) [name])); [|exact F]. apply SB. intros n Hi. apply list_elem_of_singleton in Hi as ->.
      rewrite !elem_of_cons in Hn. destruct Hn as [-> |[-> |Hn]]; [split; names..|]. now apply elem_of_nil in Hn. }
    apply hoare_all_cons, hoare_zero. eapply hoare_mono; [apply save_spec|intros s' F; apply RB, (Fr (str "export.next") s1 s'); [names|exact F|exact B1]|].
    intros rc s2 F2 Hs2 _. assert (B2 : always kept s2) by (apply (Fr (str "export.next") s1 s2); [names|exact F2|exact B1]).
    destruct (Z.eqb_spec rc 0) as [E0|]; [|now apply QB]. destruct (Hs2 E0) as (_ & W2 & _). rewrite Hsv in W2. clear Hs2 E0.
    apply hoare_all_cons, hoare_zero. eapply hoare_mono; [apply save_spec|intros s' F; apply RB, (Fr (str "journal.next") s2 s'); [names|exact F|exact B2]|].
    intros rc' s3 F3 Hs3 _. assert (B3 : always kept s3) by (apply (Fr (str "journal.next") s2 s3); [names|exact F3|exact B2]).
    destruct (Z.eqb_spec rc' 0) as [E0|]; [|now apply QB]. destruct (Hs3 E0) as (_ & W3 & _). clear Hs3 E0.
    assert (W3' : now s3 !! (E, str "export.next") = written (t_sieve t)).
    { rewrite (proj1 (F3 (E, str "export.next") ltac:(rewrite list_elem_of_singleton; now intros [=]))). exact W2. }
    apply hoare_all_cons, hoare_renameat; [keys|now apply RB|intros _; now apply QB|]. intros n Hn. rewrite W3 in Hn. injection Hn as <-.
    set (s4 := put (E, str "journal.next") None (put (E, str "journal") _ s3)).
    assert (J4 : always journaled s4).
    { eapply (always_framed _ (map (pair E) [str "journal.next"])); [|apply frame_put|].
      - apply stable_and; [apply stable_and|apply stable_and].
        + intros d d' He [Hi|Hi]; [left|right].
          * apply (idle_old_stable l t (map (pair E) [str "journal.next"])) with (d := d); [apply not_in_engine; names|apply (kp_not_engine l t OK)|apply not_in_engine; names|exact He|exact Hi].
          * apply (pending_stable l t (map (pair E) [str "journal.next"])) with (d := d); [apply not_in_engine; names..|exact He|exact Hi].
        + apply exports_are_stable; [apply (kp_not_engine l t OK)|apply not_in_engine; names].
        + apply inputs_stable_engine, Forall_forall. names.
        + apply installed_stable. intros k Hk. left. apply list_elem_of_singleton in Hk as ->. reflexivity.
      - eapply always_put; [exact B3| |].
        + intros d [[[Hi Hc] [Hb HI]] _]. split; [split; [now left|apply Hi]|now split].
        + intros d d0 [[[[Hj Hx] Hc] [Hb HI]] HB] Hs He. apply written_survives in Hs.
          destruct (inputs_stable_engine [str "journal"]) as [SBo _]; [apply Forall_forall; names|].
          assert (A : forall k, k ∉ [Recovery.kj l] -> d !! k = d0 !! k).
          { intros k Hk. apply He. intros ->. apply Hk, list_elem_of_here. }
          assert (Hx' : exports_are old d).
          { apply (exports_are_stable l old [Recovery.kj l]) with (d := d0); [rewrite list_elem_of_singleton; keys..|exact A|exact Hx]. }
          split; [split; [right|exact Hx']|split].
          * split; [exact Hs|]. unfold Recovery.backed, Recovery.backup_ok. rewrite (He kc), (He kb) by keys. split; [exact Hc|exact HB].
          * now apply (SBo d0).
          * apply (installed_stable [Recovery.kj l]) with (d := d0); [|exact A|exact HI]. intros k Hk. left. apply list_elem_of_singleton in Hk as ->. reflexivity. }
    assert (N4 : now s4 !! kj = written (journal_bytes j)).
    { cbn. rewrite lookup_delete_ne by keys. apply lookup_insert_eq. }
    assert (W4 : now s4 !! (E, str "export.next") = written (t_sieve t)).
    { cbn. rewrite lookup_delete_ne, lookup_insert_ne by (now intros [=]). exact W3'. }
    split; [left; now apply quiescent_uncommitted, QJ|]. intros _.
    assert (J5 := always_settle _ _ E J4). set (s5 := settle E s4) in *.
    assert (P5 : always prepared_state s5).
    { eapply always_mono; [exact J5|]. intros d [[[HB Hx] [Hi HI]] Hs]. split; [split|exact HI]; [|exact Hi].
      destruct HB as [[HB _]|HB]; [|exact HB]. specialize (Hs (str "journal")). fold (Recovery.kj l) in Hs. rewrite N4 in Hs. apply written_survives in Hs.
      rewrite HB in Hs. discriminate. }
    apply hoare_all_cons, hoare_fsync_dir; [left; now apply quiescent_uncommitted, QJ|intros _; now apply QJ|left; now apply prepared_uncommitted|].
    intros G. apply hoare_all_nil; [exact G|]. now split.
  - intros [] s2 _ Q; cbn [negb]; [|now apply Fail]. destruct Q as [P2 W2].
    eapply hoare_bind; [apply (publish_prepared_spec s2 P2 W2)|]. intros [] s3 G Q; [|now apply Fail].
    apply hoare_ret; [exact G|]. exact Q.
Qed.

(** ** The inputs *)

Section Inputs.
Variables (B : disk -> Prop) (cs : list input_change).
Hypothesis SB : stable B import_keys.
Hypothesis Hcs : map change_line cs = t_lines t.
Hypothesis Hold : forall i c a, cs !! i = Some c -> v_input old i = Some (File a) -> original c = l_data a.
Hypothesis Hnew : forall i c, cs !! i = Some c -> c_changed c = true -> v_input new i = Some (File (Leaf (output c) (c_mode c) 1 true)).

Definition kbackup (i : nat) : key := (E, backup_name i).
Definition knext (i : nat) : key := (E, input_name i (str "next")).

Lemma change_lookup i c : cs !! i = Some c -> (i < 4)%nat /\ t_lines t !! i = Some (change_line c).
Proof.
  intros H. assert (L : t_lines t !! i = Some (change_line c)) by (rewrite <- Hcs, list_lookup_fmap, H; reflexivity).
  split; [|exact L]. exact (inputs_four l t OK _ _ L).
Qed.

Lemma change_total i : (i < 4)%nat -> exists c, cs !! i = Some c.
Proof.
  intros H. apply lookup_lt_is_Some. rewrite <- (length_map change_line), Hcs. now rewrite (proj1 (ok_lines l t OK)).
Qed.

Lemma backup_import i : (i < 4)%nat -> kbackup i ∈ import_keys.
Proof. intros H. apply import_key_temporary. destruct i as [|[|[|[|]]]]; [names..|lia]. Qed.
Lemma next_import i : (i < 4)%nat -> knext i ∈ import_keys.
Proof. intros H. apply import_key_temporary. destruct i as [|[|[|[|]]]]; [names..|lia]. Qed.
Lemma next_backup i i' : (i < 4)%nat -> (i' < 4)%nat -> knext i <> kbackup i'.
Proof. intros H H' [= X]. revert X. destruct i as [|[|[|[|]]]], i' as [|[|[|[|]]]]; try lia; names. Qed.
Lemma next_inj i i' : (i < 4)%nat -> (i' < 4)%nat -> knext i = knext i' -> i = i'.
Proof. intros H H' [= X]. revert X. destruct i as [|[|[|[|]]]], i' as [|[|[|[|]]]]; try reflexivity; try lia; intros X; exfalso; revert X; names. Qed.
Lemma backup_inj i i' : (i < 4)%nat -> (i' < 4)%nat -> kbackup i = kbackup i' -> i = i'.
Proof. intros H H' [= X]. revert X. destruct i as [|[|[|[|]]]], i' as [|[|[|[|]]]]; try reflexivity; try lia; intros X; exfalso; revert X; names. Qed.
Lemma temporary_keys i : (i < 4)%nat -> kbackup i <> kk /\ knext i <> kk.
Proof. intros H. destruct i as [|[|[|[|]]]]; [split; unfold kbackup, knext, Recovery.kk; now intros [=]..|lia]. Qed.

(** Nothing was published, and the backups of the first inputs are made. *)
Definition fresh (d : disk) : Prop := B d /\ (d !! kk = None /\ inputs_are old d).
Definition staged (i0 : nat) (d : disk) : Prop := fresh d /\ forall i c, cs !! i = Some c ->
  if (i <? i0)%nat then c_changed c = true -> backup_ok d (kbackup i) (v_input old i) else d !! kbackup i = None.

Lemma fresh_inputs d : fresh d -> B d /\ inputs_old d.
Proof. intros [HB [Hk Hi]]. split; [exact HB|]. left. now split. Qed.

Lemma fresh_stable names : (forall name, name ∈ names -> name ∈ str "import.journal.next" :: cleanup_inputs) -> stable fresh (map (pair E) names).
Proof.
  intros H. apply stable_and; [|apply stable_and].
  - eapply stable_sub; [exact SB|]. intros k Hk. apply list_elem_of_fmap in Hk as (n & -> & Hn). apply import_key_temporary.
    specialize (H n Hn). apply elem_of_cons in H as [->|H]; [names|exact H].
  - intros d d' He Hk. rewrite He; [exact Hk|]. apply not_in_engine. intros Hn. specialize (H _ Hn). revert H. names.
  - apply inputs_are_stable. intros i _. apply (target_not_engine l t OK).
Qed.

Lemma temp_in i suffix : (i < 4)%nat -> suffix ∈ [str "backup"; str "next"; str "restore"] -> input_name i suffix ∈ str "import.journal.next" :: cleanup_inputs.
Proof.
  intros H Hs. rewrite !elem_of_cons in Hs. destruct Hs as [-> |[-> |[-> |Hs]]]; [destruct i as [|[|[|[|]]]]; [names..|lia]..|now apply elem_of_nil in Hs].
Qed.

Definition staging (s : store) : Prop := always (fun d => B d /\ inputs_old d) s.
Definition written_next (i0 : nat) (s : store) : Prop := forall i c, (i < i0)%nat -> cs !! i = Some c -> c_changed c = true ->
  now s !! knext i = written (output c).

Lemma staged_staging i0 s : always (staged i0) s -> staging s.
Proof. intros H. eapply always_mono; [exact H|]. intros d [Hf _]. now apply fresh_inputs. Qed.

Lemma backup_trivial i c d : cs !! i = Some c -> c_changed c = true -> c_present c = 0 -> backup_ok d (kbackup i) (v_input old i).
Proof.
  intros Hc Hch Hp. destruct (change_lookup i c Hc) as [Hi Hl]. pose proof (ok_inputs l t OK i _ Hl) as H. cbn in H. rewrite Hch in H. cbn in H.
  unfold Recovery.backup_ok. destruct (v_input old i) as [[a| | |]|]; try easy. destruct H as [H _]. rewrite Hp in H. discriminate.
Qed.

Lemma next_keeps i0 i s s' : (i < 4)%nat -> always (staged i0) s -> frame [knext i] s s' -> always (staged i0) s'.
Proof.
  intros Hi. intros H F. eapply always_framed; [|exact F|exact H]. intros d d' He [Hf Hb]. split.
  - apply (fresh_stable [input_name i (str "next")]) with (d := d); [|exact He|exact Hf].
    intros n Hn. apply list_elem_of_singleton in Hn as ->. apply temp_in; [exact Hi|names].
  - intros i' c Hc. specialize (Hb i' c Hc). destruct (change_lookup i' c Hc) as [Hi' _].
    assert (X : d' !! kbackup i' = d !! kbackup i') by (apply He; rewrite list_elem_of_singleton; now apply not_eq_sym, next_backup).
    unfold Recovery.backup_ok in *. rewrite X. exact Hb.
Qed.

Lemma staged_unchanged i c s : cs !! i = Some c -> c_changed c = false \/ c_present c = 0 -> always (staged i) s -> always (staged (S i)) s.
Proof.
  intros Hc Hz H. eapply always_mono; [exact H|]. intros d [Hf Hb]. split; [exact Hf|]. intros i' c' Hc'. specialize (Hb i' c' Hc').
  destruct (decide (i' = i)) as [->|Hne].
  - rewrite Hc in Hc'. injection Hc' as <-. replace (i <? S i)%nat with true by (symmetry; apply Nat.ltb_lt; lia).
    intros Hch. destruct Hz as [Hz|Hz]; [congruence|]. now apply (backup_trivial i c).
  - replace (i' <? S i)%nat with (i' <? i)%nat; [exact Hb|]. destruct (Nat.ltb_spec i' i), (Nat.ltb_spec i' (S i)); lia || reflexivity.
Qed.

Lemma backup_staged i c s s' : cs !! i = Some c -> always (staged i) s -> frame [kbackup i] s s' ->
  staging s' /\ (saved (kbackup i) (original c) s s' -> always (staged (S i)) s').
Proof.
  intros Hc H F. destruct (change_lookup i c Hc) as [Hi _].
  assert (HF : always fresh s').
  { eapply (always_framed _ [kbackup i]); [|exact F|eapply always_mono; [exact H|now intros d []]].
    apply (fresh_stable [backup_name i]). intros n Hn. apply list_elem_of_singleton in Hn as ->. apply temp_in; [exact Hi|names]. }
  split; [eapply always_mono; [exact HF|apply fresh_inputs]|]. intros Hs.
  assert (H0 : always (fun d => d !! kbackup i = None) s).
  { eapply always_mono; [exact H|]. intros d [_ Hb]. specialize (Hb i c Hc). now rewrite Nat.ltb_irrefl in Hb. }
  assert (HO : always (fun d => forall i' c', cs !! i' = Some c' -> i' <> i ->
    if (i' <? i)%nat then c_changed c' = true -> backup_ok d (kbackup i') (v_input old i') else d !! kbackup i' = None) s').
  { eapply (always_framed _ [kbackup i]); [|exact F|eapply always_mono; [exact H|intros d [_ Hb] i' c' Hc' _; exact (Hb i' c' Hc')]].
    intros d d' He Hb i' c' Hc' Hne. specialize (Hb i' c' Hc' Hne). destruct (change_lookup i' c' Hc') as [Hi' _].
    assert (X : d' !! kbackup i' = d !! kbackup i') by (apply He; rewrite list_elem_of_singleton; intros E'; now apply Hne, backup_inj).
    unfold Recovery.backup_ok in *. rewrite X. exact Hb. }
  intros d Hd. split; [now apply HF|]. intros i' c' Hc'. destruct (decide (i' = i)) as [->|Hne].
  - replace (i <? S i)%nat with true by (symmetry; apply Nat.ltb_lt; lia). intros _.
    pose proof (always_saved _ _ _ _ H0 Hs d Hd) as Hv. unfold Recovery.backup_ok. destruct (v_input old i) as [[a| | |]|] eqn:Ev; try easy.
    rewrite Hc in Hc'. injection Hc' as <-. now rewrite <- (Hold i c a Hc Ev).
  - specialize (HO d Hd i' c' Hc' Hne). replace (i' <? S i)%nat with (i' <? i)%nat; [exact HO|].
    destruct (Nat.ltb_spec i' i), (Nat.ltb_spec i' (S i)); lia || reflexivity.
Qed.

(** One input is staged. *)
Lemma stage_input_spec s i c : always (staged i) s -> written_next i s -> cs !! i = Some c -> c_changed c = true ->
  hoare s (all_ok ((if negb (c_present c =? 0) then [zero (save fuel (kbackup i) (original c))] else []) ++
                   [zero (save fuel (knext i) (output c))])) staging
    (fun b s' => b = true -> always (staged (S i)) s' /\ written_next (S i) s').
Proof.
  intros H Hw Hc Hch. destruct (change_lookup i c Hc) as [Hi _]. assert (G := staged_staging i s H).
  apply hoare_all_app. eapply hoare_mono with (G := staging) (Q := fun b s' => b = true -> always (staged (S i)) s' /\ written_next i s'); [|auto|].
  - destruct (Z.eqb_spec (c_present c) 0) as [Hz|Hz]; cbn [negb].
    + apply hoare_all_nil; [exact G|]. intros _. split; [|exact Hw]. apply (staged_unchanged i c s Hc); auto.
    + apply hoare_all_cons, hoare_zero. eapply hoare_mono; [apply save_spec| |].
      * intros s' F. now apply (backup_staged i c s s' Hc H F).
      * intros rc s' F Hs G'. destruct (Z.eqb_spec rc 0) as [E0|]; [|easy]. apply hoare_all_nil; [exact G'|]. intros _.
        split; [now apply (backup_staged i c s s' Hc H F), Hs|]. intros i' c' Hlt Hc' Hch'. destruct (change_lookup i' c' Hc') as [Hi' _].
        rewrite (proj1 (F (knext i') ltac:(rewrite list_elem_of_singleton; now apply next_backup))). now apply Hw.
  - intros [] s1 _ H1 G1; [|easy]. destruct (H1 eq_refl) as [S1 W1].
    apply hoare_all_cons, hoare_zero. eapply hoare_mono; [apply save_spec|intros s' F; eapply staged_staging, next_keeps; eassumption|].
    intros rc s2 F Hs G2. destruct (Z.eqb_spec rc 0) as [E0|]; [|easy]. apply hoare_all_nil; [exact G2|]. intros _.
    split; [now apply (next_keeps (S i) i s1 s2)|]. intros i' c' Hlt Hc' Hch'. destruct (decide (i' = i)) as [->|Hne].
    + rewrite Hc in Hc'. injection Hc' as <-. now apply Hs.
    + destruct (change_lookup i' c' Hc') as [Hi' _].
      rewrite (proj1 (F (knext i') ltac:(rewrite list_elem_of_singleton; intros X; now apply Hne, next_inj))). apply (W1 i' c'); auto. lia.
Qed.

Lemma stage_inputs_spec rest : forall i s b, rest = drop i cs -> always (staged i) s -> written_next i s ->
  contents b = inputs_bytes (take i (t_lines t)) ->
  hoare s (stage_inputs fuel l i rest b) staging (fun r s' => match r with
    | Some b' => always (staged 4) s' /\ written_next 4 s' /\ contents b' = inputs_bytes (t_lines t) | None => True end).
Proof.
  induction rest as [|c rest IH]; intros i s b Hr H Hw Hb; cbn [stage_inputs].
  { assert (L : (4 <= i)%nat).
    { assert (length (drop i cs) = 0%nat) as L by now rewrite <- Hr. rewrite length_drop in L.
      assert (length cs = 4%nat) as L4 by (rewrite <- (length_map change_line), Hcs; apply (ok_lines l t OK)). lia. }
    apply hoare_ret; [now apply (staged_staging i)|]. split; [|split].
    - eapply always_mono; [exact H|]. intros d [Hf Hbk]. split; [exact Hf|]. intros i' c' Hc'. specialize (Hbk i' c' Hc').
      destruct (change_lookup i' c' Hc') as [Hi' _]. replace (i' <? 4)%nat with true by (symmetry; apply Nat.ltb_lt; lia).
      now replace (i' <? i)%nat with true in Hbk by (symmetry; apply Nat.ltb_lt; lia).
    - intros i' c' Hlt. apply Hw. lia.
    - rewrite Hb, firstn_all2; [reflexivity|]. rewrite (proj1 (ok_lines l t OK)). lia. }
  assert (Hc : cs !! i = Some c) by (rewrite <- (Nat.add_0_r i), <- lookup_drop, <- Hr; reflexivity).
  assert (Hr' : rest = drop (S i) cs) by (rewrite (drop_S _ _ _ Hc) in Hr; now injection Hr).
  destruct (change_lookup i c Hc) as [Hi Hl].
  eapply hoare_bind with (Q := fun b s' => b = true -> always (staged (S i)) s' /\ written_next (S i) s').
  - destruct (c_changed c) eqn:Hch; [now apply (stage_input_spec s i c)|]. apply hoare_ret; [now apply (staged_staging i)|]. intros _.
    split; [apply (staged_unchanged i c s Hc); auto|]. intros i' c' Hlt Hc' Hch'. destruct (decide (i' = i)) as [->|]; [congruence|].
    apply (Hw i' c'); auto. lia.
  - intros good s1 G1 H1. destruct good; cbn [negb]; [|now apply hoare_ret]. destruct (H1 eq_refl) as [S1 W1].
    eapply hoare_step; [apply quiet_add_limit|exact G1|]. intros [b'|] Hb'; [|now apply hoare_ret].
    apply (IH (S i)); auto. rewrite Hb', Hb, (take_S_r _ _ _ Hl). unfold inputs_bytes. rewrite map_app, concat_app. cbn. now rewrite app_nil_r.
Qed.

(** The journal of the inputs is durable; the inputs that change may be anything. *)
Definition noted (d : disk) : Prop := B d /\ (inputs_written d /\ backups_ok d /\
  forall i line, t_lines t !! i = Some line -> changed line = 0 -> alike (v_input old i) (d !! ki i)).

Lemma noted_inputs d : noted d -> B d /\ inputs_old d.
Proof. intros [HB H]. split; [exact HB|]. now right. Qed.

Lemma noted_stable i c : cs !! i = Some c -> c_changed c = true -> stable noted [knext i; ki i].
Proof.
  intros Hc Hch d d' He [HB (Hk & Hb & Ho)]. destruct (change_lookup i c Hc) as [Hi Hl].
  assert (Sub : forall k, k ∈ [knext i; ki i] -> k ∈ import_keys).
  { intros k Hk'. rewrite elem_of_cons, list_elem_of_singleton in Hk'. destruct Hk' as [-> | ->]; [now apply next_import|now apply import_key_target]. }
  split; [apply (SB d); [intros k Hk'; apply He; auto|exact HB]|]. split; [|split].
  - unfold Recovery.inputs_written. rewrite He; [exact Hk|]. rewrite elem_of_cons, list_elem_of_singleton. intros [X|X].
    + symmetry in X. now apply (proj2 (temporary_keys i Hi)) in X.
    + revert X. keys.
  - intros i' line Hl' Hch'. specialize (Hb i' line Hl' Hch'). assert (Hi' := inputs_four l t OK _ _ Hl').
    unfold Recovery.backup_ok in *. rewrite He; [exact Hb|]. rewrite elem_of_cons, list_elem_of_singleton. intros [X|X].
    + symmetry in X. now apply next_backup in X.
    + revert X. apply (backup_not_target l t OK).
  - intros i' line Hl' Hch'. assert (Hi' := inputs_four l t OK _ _ Hl'). rewrite He; [eauto|]. rewrite elem_of_cons, list_elem_of_singleton. intros [X|X].
    + revert X. unfold knext. keys.
    + apply target_inj in X; [|exact Hi'|exact Hi]. subst i'. rewrite Hl in Hl'. injection Hl' as <-. cbn in Hch'. rewrite Hch in Hch'. discriminate.
Qed.

Definition published (i0 : nat) (s : store) : Prop := forall i c, cs !! i = Some c -> c_changed c = true ->
  if (i <? i0)%nat then alike (v_input new i) (now s !! ki i) else now s !! knext i = written (output c).

Lemma publish_input_spec s i c : always noted s -> published i s -> cs !! i = Some c ->
  hoare s (publish_input l i c) (always noted) (fun b s' => b = true -> published (S i) s').
Proof.
  intros H Hp Hc. destruct (change_lookup i c Hc) as [Hi Hl]. unfold publish_input. destruct (c_changed c) eqn:Hch.
  - fold (knext i). fold (Recovery.ki l i). pose proof (noted_stable i c Hc Hch) as SN.
    assert (Hw : now s !! knext i = written (output c)) by (specialize (Hp i c Hc Hch); now rewrite Nat.ltb_irrefl in Hp).
    assert (Fr : forall s', frame [knext i] s s' -> always noted s').
    { intros s' F. eapply always_framed; [exact SN| |exact H]. eapply frame_weaken; [|exact F]. set_solver. }
    apply hoare_all_cons. eapply hoare_mono; [apply (fix_mode_spec s (knext i) (c_mode c) _ Hw)|intros s' [F _]; now apply Fr|].
    intros [] s1 [F _] H1 _; [|easy]. specialize (H1 eq_refl). cbn in H1.
    apply hoare_all_cons, hoare_renameat; [unfold knext; keys|now apply Fr|easy|]. intros n Hn. rewrite H1 in Hn. injection Hn as <-.
    set (s2 := put (knext i) None (put (ki i) _ s1)).
    assert (F2 : frame [knext i; ki i] s s2).
    { eapply frame_trans; [eapply frame_weaken; [|exact F]; set_solver|].
      eapply frame_trans; [eapply frame_weaken; [|apply frame_put]|eapply frame_weaken; [|apply frame_put]]; set_solver. }
    assert (H2 : always noted s2) by (eapply always_framed; [exact SN|exact F2|exact H]).
    split; [exact H2|]. intros _. apply hoare_all_nil; [exact H2|]. intros _ i' c' Hc' Hch'. destruct (change_lookup i' c' Hc') as [Hi' _].
    specialize (Hp i' c' Hc' Hch'). destruct (decide (i' = i)) as [->|Hne].
    + replace (i <? S i)%nat with true by (symmetry; apply Nat.ltb_lt; lia). rewrite (Hnew i c Hc Hch). cbn.
      rewrite lookup_delete_ne by (unfold knext; keys). rewrite lookup_insert_eq. cbn. auto.
    + replace (i' <? S i)%nat with (i' <? i)%nat by (destruct (Nat.ltb_spec i' i), (Nat.ltb_spec i' (S i)); lia || reflexivity).
      assert (X1 : ki i' ∉ [knext i; ki i]).
      { rewrite elem_of_cons, list_elem_of_singleton. intros [X|X]; [revert X; unfold knext; keys|]. now apply Hne, (target_inj l). }
      assert (X2 : knext i' ∉ [knext i; ki i]).
      { rewrite elem_of_cons, list_elem_of_singleton. intros [X|X]; [now apply Hne, next_inj|revert X; unfold knext; keys]. }
      rewrite (proj1 (F2 _ X1)), (proj1 (F2 _ X2)). exact Hp.
  - apply hoare_ret; [exact H|]. intros _ i' c' Hc' Hch'. specialize (Hp i' c' Hc' Hch'). destruct (decide (i' = i)) as [->|Hne]; [congruence|].
    replace (i' <? S i)%nat with (i' <? i)%nat; [exact Hp|]. destruct (Nat.ltb_spec i' i), (Nat.ltb_spec i' (S i)); lia || reflexivity.
Qed.

Lemma publish_inputs_spec rest : forall i s, rest = drop i cs -> always noted s -> published i s ->
  hoare s (all_ok (imap (fun n => publish_input l (i + n)) rest)) (always noted) (fun b s' => b = true -> inputs_are new (now s')).
Proof.
  induction rest as [|c rest IH]; intros i s Hr H Hp; cbn [imap].
  { apply hoare_all_nil; [exact H|]. intros _ i' Hi'. destruct (change_total i' Hi') as (c' & Hc'). destruct (c_changed c') eqn:Hch.
    - specialize (Hp i' c' Hc' Hch). replace (i' <? i)%nat with true in Hp; [exact Hp|]. symmetry. apply Nat.ltb_lt.
      assert (length (drop i cs) = 0%nat) as L by now rewrite <- Hr. rewrite length_drop in L. apply lookup_lt_Some in Hc'. lia.
    - destruct (change_lookup i' c' Hc') as [_ Hl]. destruct (always_now _ _ H) as [_ (_ & _ & Ho)].
      pose proof (ok_inputs l t OK i' _ Hl) as X. cbn in X. rewrite Hch in X. cbn in X. rewrite <- X. apply (Ho i' _ Hl). cbn. now rewrite Hch. }
  assert (Hc : cs !! i = Some c) by (rewrite <- (Nat.add_0_r i), <- lookup_drop, <- Hr; reflexivity).
  assert (Hr' : rest = drop (S i) cs) by (rewrite (drop_S _ _ _ Hc) in Hr; now injection Hr).
  rewrite Nat.add_0_r. apply hoare_all_cons. eapply hoare_mono; [now apply publish_input_spec|auto|].
  intros [] s1 H1 Hp1 _; [|easy]. specialize (Hp1 eq_refl). erewrite imap_ext; [apply (IH (S i) s1 Hr' H1 Hp1)|].
  intros n x _. cbn. f_equal. lia.
Qed.

Lemma prepare_inputs_spec s : always (fun d => fresh d /\ forall i, (i < 4)%nat -> d !! kbackup i = None) s ->
  hoare s (prepare_inputs fuel l cs) staging (fun rc s' => rc = 0 -> always (fun d => B d /\ inputs_both d) s').
Proof.
  intros H. assert (S0 : always (staged 0) s).
  { eapply always_mono; [exact H|]. intros d [Hf Hb]. split; [exact Hf|]. intros i c Hc. apply Hb. now destruct (change_lookup i c Hc). }
  unfold prepare_inputs. eapply hoare_bind; [apply (stage_inputs_spec cs 0 s no_bytes); [reflexivity|exact S0|intros i c Hi; lia|reflexivity]|].
  intros [b|] s1 G1 H1; [|now apply hoare_ret]. destruct H1 as (S1 & W1 & Hb).
  eapply hoare_bind with (Q := fun b s' => b = true -> always (fun d => B d /\ inputs_both d) s');
    [|intros ok s' G Q; apply hoare_ret; [exact G|destruct ok; [auto|discriminate]]].
  set (kn := (E, str "import.journal.next")).
  assert (SF : stable (staged 4) [kn]).
  { intros d d' He [Hf Hbk]. split.
    - apply (fresh_stable [str "import.journal.next"]) with (d := d); [|exact He|exact Hf]. intros n Hn. apply list_elem_of_singleton in Hn as ->. names.
    - intros i c Hc. specialize (Hbk i c Hc). destruct (change_lookup i c Hc) as [Hi _].
      assert (X : d' !! kbackup i = d !! kbackup i).
      { apply He. rewrite list_elem_of_singleton. unfold kbackup, kn. destruct i as [|[|[|[|]]]]; [now intros [=]..|lia]. }
      unfold Recovery.backup_ok in *. rewrite X. exact Hbk. }
  cbn [app]. apply hoare_all_cons, hoare_zero. fold kn.
  assert (Fn : forall s', frame [kn] s1 s' -> always (staged 4) s') by (intros s' F; eapply always_framed; [exact SF|exact F|exact S1]).
  eapply hoare_mono; [apply save_spec|intros s' F; apply (staged_staging 4); auto|].
  intros rc s2 F2 Hs _. destruct (Z.eqb_spec rc 0) as [E0|]; [|easy]. destruct (Hs E0) as (_ & Wn & _). rewrite Hb in Wn. clear Hs E0.
  assert (S2 := Fn s2 F2). assert (W2 : published 0 s2).
  { intros i c Hc Hch. cbn. destruct (change_lookup i c Hc) as [Hi _]. rewrite (proj1 (F2 (knext i) ltac:(rewrite list_elem_of_singleton; unfold knext, kn; destruct i as [|[|[|[|]]]]; [now intros [=]..|lia]))).
    now apply W1. }
  apply hoare_all_cons, hoare_renameat; [unfold kn; now intros [=]|now apply (staged_staging 4)|easy|]. intros n Hn. rewrite Wn in Hn. injection Hn as <-.
  fold (Recovery.kk l). set (s3 := put kn None (put kk _ s2)).
  assert (Kk : kk <> kn) by (unfold kn; keys).
  (* the journal may not be durable yet *)
  assert (A3 : always (fun d => (B d /\ inputs_are old d) /\ ((d !! kk = None \/ inputs_written d) /\ backups_ok d)) s3).
  { assert (Bk : forall d, staged 4 d -> backups_ok d).
    { intros d [_ Hbk] i line Hl Hch. assert (Hi := inputs_four l t OK _ _ Hl). destruct (change_total i Hi) as (c & Hc).
      destruct (change_lookup i c Hc) as [_ Hl']. rewrite Hl in Hl'. injection Hl' as ->. specialize (Hbk i c Hc).
      replace (i <? 4)%nat with true in Hbk by (symmetry; apply Nat.ltb_lt; lia). apply Hbk. cbn in Hch. now destruct (c_changed c). }
    eapply (always_framed _ [kn]); [|apply frame_put|].
    - intros d d' He [[HB Hi] [Hk Hbk]]. split; [split|split].
      + apply (SB d); [|exact HB]. intros k Hk'. apply He. rewrite list_elem_of_singleton. intros ->. apply Hk'. apply import_key_temporary. names.
      + intros i Hlt. rewrite He; [auto|]. rewrite list_elem_of_singleton. unfold kn. keys.
      + unfold Recovery.inputs_written. rewrite !(He kk) by now rewrite list_elem_of_singleton. exact Hk.
      + intros i line Hl Hch. specialize (Hbk i line Hl Hch). assert (Hi' := inputs_four l t OK _ _ Hl). unfold Recovery.backup_ok in *.
        rewrite He; [exact Hbk|]. rewrite list_elem_of_singleton. unfold kn. destruct i as [|[|[|[|]]]]; [now intros [=]..|lia].
    - eapply always_put; [exact S2| |].
      + intros d Hd. pose proof (Bk d Hd). destruct Hd as [[HB [Hk Hi]] _]. auto.
      + intros d d0 Hd Hsv He. pose proof (Bk d0 Hd) as Hbk. destruct Hd as [[HB [Hk Hi]] _]. apply written_survives in Hsv. split; [split|split].
        * apply (SB d0); [|exact HB]. intros k Hk'. apply He. intros ->. apply Hk', list_elem_of_here.
        * intros i Hlt. rewrite He; [auto|]. apply not_eq_sym, (kk_not_target l t OK).
        * right. exact Hsv.
        * intros i line Hl Hch. specialize (Hbk i line Hl Hch). assert (Hi' := inputs_four l t OK _ _ Hl). unfold Recovery.backup_ok in *.
          rewrite (He (E, backup_name i)); [exact Hbk|]. now apply (temporary_keys i). }
  assert (G3 : staging s3).
  { eapply always_mono; [exact A3|]. intros d [[HB Hi] [[Hk|Hk] Hbk]]; (split; [exact HB|]); [left; now split|right].
    split; [exact Hk|]. split; [exact Hbk|]. intros i line Hl _. apply Hi. now apply (inputs_four l t OK) in Hl. }
  assert (N3 : now s3 !! kk = written (inputs_bytes (t_lines t))).
  { cbn. rewrite lookup_delete_ne by (apply not_eq_sym; exact Kk). apply lookup_insert_eq. }
  split; [exact G3|]. intros _. set (s4 := settle E s3).
  assert (A4 : always noted s4).
  { eapply always_mono; [apply (always_settle _ _ E A3)|]. intros d [[[HB Hi] [_ Hbk]] Hsv]. split; [exact HB|].
    split; [apply written_survives; rewrite <- N3; apply Hsv|]. split; [exact Hbk|]. intros i line Hl _. apply Hi. now apply (inputs_four l t OK) in Hl. }
  assert (GN : forall s', always noted s' -> staging s') by (intros s' H'; eapply always_mono; [exact H'|apply noted_inputs]).
  apply hoare_all_cons, hoare_fsync_dir; [exact G3|easy|now apply GN|]. intros _.
  assert (W4 : published 0 s4).
  { intros i c Hc Hch. cbn. destruct (change_lookup i c Hc) as [Hi _]. rewrite lookup_delete_ne, lookup_insert_ne; [now apply (W2 i c)| |].
    - apply not_eq_sym, (temporary_keys i Hi).
    - unfold kn, knext. destruct i as [|[|[|[|]]]]; [now intros [=]..|lia]. }
  apply hoare_all_app. eapply hoare_mono; [apply (publish_inputs_spec cs 0 s4); [reflexivity|exact A4|exact W4]|exact GN|].
  intros [] s5 A5 Hn _; [|easy]. specialize (Hn eq_refl). assert (A6 := always_settle _ _ R A5).
  apply hoare_all_cons, hoare_fsync_dir; [now apply GN|easy|apply GN; eapply always_mono; [exact A6|now intros d []]|].
  intros G6. apply hoare_all_nil; [exact G6|]. intros _. eapply always_mono; [exact A6|]. intros d [[HB (Hk & Hbk & _)] Hsv].
  split; [exact HB|]. split; [|right; now split]. intros i Hi. eapply alike_survives; [now apply Hn|apply Hsv].
Qed.
End Inputs.

(** ** The whole transaction *)

(** At rest, with the generation of the products in its directory. *)
Definition at_rest (d : disk) : Prop := idle l old d /\ installed_ok d.

Lemma rest_temporary d name : at_rest d -> name ∈ temporary -> d !! (E, name) = None.
Proof. intros [(_ & _ & _ & H) _] Hn. now apply H. Qed.

(** What the exports and the marker are while the inputs are prepared. *)
Definition resting (d : disk) : Prop := ((idle_old d /\ d !! kc = None) /\ installed_ok d) /\ d !! kb = None.

Lemma resting_stable : stable resting import_keys.
Proof.
  apply stable_and; [apply stable_and; [apply stable_and|]|].
  - apply idle_old_stable; [apply (kj_not_import l t OK)|apply (kp_not_import l t OK)|apply (ks_not_import l t OK)].
  - intros d d' He Hc. rewrite He; [exact Hc|apply (kc_not_import l t OK)].
  - apply installed_stable. intros k Hk. unfold Recovery.import_keys in Hk. rewrite elem_of_cons, elem_of_app, !list_elem_of_fmap in Hk.
    destruct Hk as [-> |[(i & -> & _)|(n & -> & _)]]; cbn; auto.
  - intros d d' He Hc. rewrite He; [exact Hc|apply (kb_not_import l t OK)].
Qed.

Lemma rest_resting d : at_rest d -> resting d /\ d !! kk = None /\ inputs_are old d.
Proof.
  intros H. assert (Hc : d !! kc = None) by (apply rest_temporary; [exact H|names]).
  assert (Hb : d !! kb = None) by (apply rest_temporary; [exact H|names]). destruct H as [([Hx Hi] & Hj & Hk & _) HI].
  exact (conj (conj (conj (conj (conj Hj Hx) Hc) HI) Hb) (conj Hk Hi)).
Qed.

(** The inputs and the products are those of the transaction. *)
Record changes_ok (p : jf_products) (cs : list input_change) : Prop := ChangesOk {
  ch_id : pr_id p = j_next j;
  ch_sieve : contents (pr_sieve p) = t_sieve t;
  ch_mode : v_public old = None -> j_mode j = 384;
  ch_lines : map change_line cs = t_lines t;
  ch_old : forall i c a, cs !! i = Some c -> v_input old i = Some (File a) -> original c = l_data a;
  ch_new : forall i c, cs !! i = Some c -> c_changed c = true -> v_input new i = Some (File (Leaf (output c) (c_mode c) 1 true)) }.

(** What a run of [install] leaves: the new view, or the old one when there is
    nothing to do. *)
Definition installs (p : jf_products) (r : Z * bool) (s' : store) : Prop :=
  if r.1 =? 0 then if r.2 then always after s' else always ready s' /\ private_file (now s') kp (contents (pr_sieve p)) else recoverable s'.

Lemma publish_needed_spec s p count : always (fun d => ready d /\ d !! kb = None) s ->
  pr_id p = j_next j -> contents (pr_sieve p) = t_sieve t -> (v_public old = None -> j_mode j = 384) ->
  hoare s (publish_needed fuel l (v_selector old) p count) recoverable (fun r s' =>
    if r.1 =? 0 then installs p r s' else committing s' \/ uncommitted s').
Proof.
  intros H Hid Hsv Hm. assert (HR : always ready s) by (eapply always_mono; [exact H|now intros d []]).
  assert (HPub : hoare s (rc ← publish fuel l (v_selector old) p; mret (rc, rc =? 0)) recoverable (fun r s' =>
    if r.1 =? 0 then installs p r s' else committing s' \/ uncommitted s')).
  { eapply hoare_bind; [now apply publish_spec|]. intros rc s' G Q. apply hoare_ret; [exact G|]. unfold installs. cbn [fst snd].
    cbn beta in Q. destruct (rc =? 0) eqn:E0; [|exact Q]. cbn. exact Q. }
  unfold publish_needed. destruct (_ && _); [|exact HPub].
  eapply hoare_step; [apply quiet_public_status|left; now apply ready_uncommitted|]. intros rc Hpub. destruct (rc =? 5); [exact HPub|].
  apply hoare_ret; [left; now apply ready_uncommitted|]. unfold installs. cbn [fst snd]. destruct (Z.eqb_spec rc 0) as [E0|E0]; cbn.
  - split; [exact HR|exact (Hpub E0)].
  - right. now apply ready_uncommitted.
Qed.

Lemma install_spec s p cs : always at_rest s -> changes_ok p cs ->
  hoare s (install fuel l (v_selector old) p cs) recoverable (installs p).
Proof.
  intros H [Hid Hsv Hm Hl Ho Hn]. unfold install.
  assert (HRest : always (fun d => resting d /\ (d !! kk = None /\ inputs_are old d)) s).
  { eapply always_mono; [exact H|]. intros d Hd. now apply rest_resting. }
  assert (HS : forall s', staging resting s' -> uncommitted s').
  { intros s' H'. apply quiescent_uncommitted. eapply always_mono; [exact H'|]. intros d [[[[Hi Hc] HI] Hb] Hin].
    split; [split; [now left|exact Hin]|apply Hi]. }
  assert (G0 : recoverable s).
  { left. apply HS. eapply always_mono; [exact HRest|]. intros d [Hr [Hk Hi]]. split; [exact Hr|]. left. now split. }
  eapply hoare_bind with (Q := fun rc s' => if rc =? 0 then always (fun d => ready d /\ d !! kb = None) s' else uncommitted s').
  - destruct (existsb c_changed cs) eqn:Hex.
    + eapply hoare_mono; [apply (prepare_inputs_spec resting cs resting_stable Hl Ho Hn)| |].
      * eapply always_mono; [exact (always_and _ _ _ H HRest)|]. intros d [Hd [Hr [Hk Hi]]]. split; [exact (conj Hr (conj Hk Hi))|].
        intros i Hlt. apply rest_temporary; [exact Hd|]. destruct i as [|[|[|[|]]]]; [names..|lia].
      * intros s' H'. left. now apply HS.
      * intros rc s' G Q. destruct (Z.eqb_spec rc 0) as [E0|]; [|now apply HS]. eapply always_mono; [exact (Q E0)|].
        intros d [[[[Hi Hc] HI] Hb] Hib]. exact (conj (conj (conj Hi Hc) (conj Hib HI)) Hb).
    + apply hoare_ret; [exact G0|]. cbn. eapply always_mono; [exact HRest|]. intros d [[[[Hi Hc] HI] Hb] [Hk Hin]].
      assert (Same : forall i, (i < 4)%nat -> v_input old i = v_input new i).
      { intros i Hlt. destruct (change_total cs Hl i Hlt) as (c & Hci). destruct (change_lookup cs Hl i c Hci) as [_ Hli].
        pose proof (ok_inputs l t OK i _ Hli) as X. cbn in X. replace (c_changed c) with false in X; [exact X|]. symmetry.
        apply not_true_is_false. intros Hch. rewrite <- not_true_iff_false in Hex. apply Hex, existsb_exists. exists c. split; [|exact Hch].
        apply list_elem_of_In. eapply list_elem_of_lookup_2. exact Hci. }
      split; [|exact Hb]. split; [exact (conj Hi Hc)|]. split; [|exact HI]. split; [|left; now split].
      intros i Hlt. rewrite <- Same by exact Hlt. auto.
  - intros rc s1 G1 Q1. eapply hoare_bind with (Q := fun r s' => if r.1 =? 0 then installs p r s' else committing s' \/ uncommitted s').
    + destruct (rc =? 0) eqn:E0; [now apply publish_needed_spec|]. apply hoare_ret; [exact G1|]. cbn [fst]. rewrite E0. now right.
    + intros [rc' done] s2 G2 Q2. cbn [fst snd] in Q2. destruct (rc' =? 0) eqn:E0; cbn [negb andb].
      { eapply hoare_step with (Q0 := fun _ => True); [now apply hoare_ret|exact G2|]. intros _ _. now apply hoare_ret. }
      eapply hoare_bind with (Q := fun _ _ => True); [|intros _ s' G' _; apply hoare_ret; [exact G'|]; unfold installs; cbn [fst]; now rewrite E0].
      destruct (existsb c_changed cs); [|now apply hoare_ret].
      assert (HU : committing s2 \/ uncommitted s2) by exact Q2.
      eapply hoare_bind with (Q := fun _ => recoverable).
      * eapply hoare_mono; [eapply hoare_and; [apply remove_file_spec|apply remove_file_spec]| |].
        -- intros s' [Hr _]. destruct Hr as [->|Hr]; [exact G2|]. left. apply (unmark s2 s' HU); [now right|]. rewrite Hr. apply now_put.
        -- intros rc0 s' [Hr _] [Hx _]. destruct Hr as [->|Hr]; [exact G2|]. left. apply (unmark s2 s' HU); [now right|]. rewrite Hr. apply now_put.
      * intros _ s3 G3 _. eapply hoare_bind with (Q := fun _ _ => True); [|intros _ s' G' _; now apply hoare_ret].
        destruct G3 as [G3|G3].
        -- eapply hoare_mono; [apply (recover_uncommitted fuel l t OK s3 G3)|intros s' H'; now left|auto].
        -- eapply hoare_mono; [apply (recover_committed fuel l t OK s3 G3)|intros s' H'; now right|auto].
Qed.
End Publication.
