(* ===== verification/Atomicity.v ===== *)
(** * All or nothing (generation.c)

    The publication of a generation with its inputs, followed by any sequence of
    losses of power and attempts to recover, each with any failures: a recovery
    that succeeds finds the view before the transaction or the view after it, and
    the view after it when the transaction was reported as done. *)
From stdpp Require Import gmap.
From S2P Require Import Prelude Sha256 Rules Policy Bytes Profile Emit Cache CacheFacts Import Files FilesFacts Generation GenerationFacts Recovery Publication.

#[local] Opaque grow_capacity.

(** What may become of the store after a run: the power is lost, or the engine is
    recovered again, by a kernel of any behaviour, cut or not. *)
Inductive aftermath (l : location) (s : store) : store -> Prop :=
  | AtOnce : aftermath l s s
  | PowerLoss s' d n : aftermath l s s' -> crash s' d -> aftermath l s (boot d n)
  | Recovery (KN : Kernel) (HP : Heap) fuel w : aftermath l s (st w) -> aftermath l s (st (recover fuel l w).2).

Lemma aftermath_recoverable l t s s' : transaction_ok l t -> recoverable l t s -> aftermath l s s' -> recoverable l t s'.
Proof.
  intros OK H. induction 1 as [|s' d n _ IH C|KN HP fuel w _ IH]; [exact H|exact (recoverable_crash l t OK s' d n IH C)|].
  destruct IH as [IH|IH]; [left; apply (recover_uncommitted fuel l t OK (st w) IH w eq_refl)|right; apply (recover_committed fuel l t OK (st w) IH w eq_refl)].
Qed.

Lemma aftermath_sealed l t s s' : transaction_ok l t -> sealed l t s -> aftermath l s s' -> sealed l t s'.
Proof.
  intros OK H. induction 1 as [|s' d n _ IH C|KN HP fuel w _ IH]; [exact H|exact (sealed_crash l t s' d n IH C)|].
  apply (recover_sealed fuel l t OK (st w) IH w eq_refl).
Qed.

(** A recovery that succeeds. *)
Definition recovers (l : location) (s s' : store) : Prop :=
  exists (KN : Kernel) (HP : Heap) fuel w w', st w = s /\ recover fuel l w = (Some 0, w') /\ st w' = s'.

(** C6. A publication with its inputs is all or nothing.  From an engine at rest,
    whatever fails and wherever the process is cut, and after any losses of power
    and attempts to recover, a recovery that succeeds leaves, durably, exactly the
    public file, the selector and the inputs of before, or exactly the new ones;
    the new ones if the publication had been reported as done.  It leaves nothing
    else of the transaction. *)
Theorem install_atomic `{KN : Kernel} `{HP : Heap} fuel l t p cs w :
  transaction_ok l t -> changes_ok t p cs -> always (at_rest l t) (st w) ->
  let r := install fuel l (v_selector (t_old t)) p cs w in
  forall s s', aftermath l (st r.2) s -> recovers l s s' ->
    (always (idle l (t_old t)) s' \/ always (idle l (t_new t)) s') /\
    (r.1 = Some (0, true) -> always (idle l (t_new t)) s').
Proof.
  intros OK Hch Hrest r s s' Ha (KN' & HP' & fuel' & w1 & w2 & <- & Hr & <-).
  destruct (install_spec (KN := KN) (HP := HP) fuel l t OK (st w) p cs Hrest Hch w eq_refl) as [HG HQ]. subst r. split.
  - destruct (aftermath_recoverable l t _ _ OK HG Ha) as [HU|HC]; [left|right].
    + pose proof (proj2 (recover_uncommitted fuel' l t OK (st w1) HU w1 eq_refl) 0) as Q. rewrite Hr in Q. exact (Q eq_refl eq_refl).
    + pose proof (proj2 (recover_committed fuel' l t OK (st w1) HC w1 eq_refl) 0) as Q. rewrite Hr in Q. exact (Q eq_refl eq_refl).
  - intros Hdone. specialize (HQ _ Hdone). assert (HS : sealed l t (st (install (KN := KN) (HP := HP) fuel l (v_selector (t_old t)) p cs w).2)) by (left; exact HQ).
    pose proof (proj2 (recover_sealed fuel' l t OK (st w1) (aftermath_sealed l t _ _ OK HS Ha) w1 eq_refl) 0) as Q. rewrite Hr in Q. exact (Q eq_refl eq_refl).
Qed.

(** ** A run on a small engine *)

Definition products_of (r : res (jf_policy * jf_products)) : jf_products :=
  match r with Ok (_, p) => p | Fail _ _ => MkProducts no_bytes no_bytes no_bytes [] [] end.
Definition sample_products : jf_products := Eval vm_compute in products_of (compile parsed_contacts build_contacts).

Definition sample_location : location := Location 1 2 3 true.
Definition sample_journal : journal := Journal (str "-") 0 384 (pr_id sample_products).
Definition sample_input : bytes := str "from a@b.c INBOX".
Definition sample_change : list input_change :=
  [InputChange sample_input (sample_input ++ [LF]) 1 420 true; InputChange [] [] 0 384 false; InputChange [] [] 0 384 false; InputChange [] [] 0 384 false].
Definition input_node (data : bytes) : option node := Some (File (Leaf data 420 1 true)).
Definition sample_old : view := View None [] (fun i => match i with O => input_node sample_input | _ => None end).
Definition sample_new : view := View (written (contents (pr_sieve sample_products))) (pr_id sample_products)
  (fun i => match i with O => input_node (sample_input ++ [LF]) | _ => None end).
Definition sample_transaction : transaction :=
  Transaction sample_old sample_new sample_journal (map change_line sample_change) (contents (pr_sieve sample_products)) 4.

Definition private_node (data : bytes) : node := File (Leaf data 384 1 true).
Definition sample_manifest : bytes :=
  let hex b := jf_digest_hex (digest_of (contents b)) in
  manifest_text (pr_id sample_products) (hex (pr_cache sample_products)) (hex (pr_zsh sample_products)) (hex (pr_sieve sample_products)).
Definition sample_disk : disk := list_to_map
  [((1, str "Filters.txt"), File (Leaf sample_input 420 1 true)); ((3, pr_id sample_products), Folder 4 448);
   ((4, str "policy.bin"), private_node (contents (pr_cache sample_products)));
   ((4, str "filters.zsh"), private_node (contents (pr_zsh sample_products)));
   ((4, str "Filters.sieve"), private_node (contents (pr_sieve sample_products)));
   ((4, str "manifest.json"), private_node sample_manifest)].
Definition sample_world : world := World (boot sample_disk 5) 0 ENOENT 0 true None.

Lemma sample_ok : transaction_ok sample_location sample_transaction.
Proof.
  split; try (split; discriminate); try reflexivity; try discriminate.
  - split; [now left|vm_compute; reflexivity|now left|cbn; lia].
  - split; [reflexivity|]. repeat constructor; cbn; auto; lia.
  - intros i line H. do 4 (destruct i as [|i]; [injection H as <-; vm_compute; auto|]). discriminate H.
Qed.

Lemma sample_changes : changes_ok sample_transaction sample_products sample_change.
Proof.
  split; try reflexivity.
  - intros i c a H. do 4 (destruct i as [|i]; [injection H as <-; first [now intros [= <-]|discriminate]|]). discriminate H.
  - intros i c H. do 4 (destruct i as [|i]; [injection H as <-; first [reflexivity|discriminate]|]). discriminate H.
Qed.

Lemma sample_rest : always (at_rest sample_location sample_transaction) (st sample_world).
Proof.
  apply always_boot. split; [|split; vm_compute; reflexivity]. split; [split; [split; [exact I|vm_compute; reflexivity]|]|].
  - intros i Hi. do 4 (destruct i as [|i]; [vm_compute; auto|]). lia.
  - split; [vm_compute; reflexivity|]. split; [vm_compute; reflexivity|].
    apply Forall_forall. vm_compute. repeat constructor.
Qed.

Definition again (w : world) : world := World (boot (now (st w)) 9) 0 ENOENT 0 true None.

(** Cut at the thirtieth call, restarted and recovered; and done, restarted and
    recovered. *)
Lemma install_atomic_witness :
  (let w1 := (install (KN := cut_at 30) (HP := granting) 100 sample_location [] sample_products sample_change sample_world).2 in
   exists w2, recover (KN := calm) (HP := granting) 100 sample_location (again w1) = (Some 0, w2) /\
   (always (idle sample_location sample_old) (st w2) \/ always (idle sample_location sample_new) (st w2))) /\
  (exists w1 w2, install (KN := calm) (HP := granting) 100 sample_location [] sample_products sample_change sample_world = (Some (0, true), w1) /\
   recover (KN := calm) (HP := granting) 100 sample_location (again w1) = (Some 0, w2) /\ always (idle sample_location sample_new) (st w2)).
Proof.
  assert (A : forall s, aftermath sample_location s (boot (now s) 9)) by (intros s; eapply PowerLoss; [constructor|apply crash_now]).
  split.
  - cbv zeta. set (w1 := _.2). assert (E : (recover (KN := calm) (HP := granting) 100 sample_location (again w1)).1 = Some 0) by (vm_compute; reflexivity).
    destruct (recover _ _ (again w1)) as [r w2] eqn:R. cbn [fst] in E. subst r. exists w2. split; [reflexivity|].
    apply (install_atomic (KN := cut_at 30) (HP := granting) 100 sample_location sample_transaction sample_products sample_change sample_world
      sample_ok sample_changes sample_rest (st (again w1)) (st w2) (A _)).
    exists calm, granting, 100%nat, (again w1), w2. split; [exact eq_refl|]. split; [exact R|exact eq_refl].
  - destruct (install (KN := calm) (HP := granting) 100 sample_location [] sample_products sample_change sample_world) as [r w1] eqn:I.
    assert (Er : r = Some (0, true)).
    { change r with (r, w1).1. rewrite <- I. vm_compute. reflexivity. }
    subst r. destruct (recover (KN := calm) (HP := granting) 100 sample_location (again w1)) as [r w2] eqn:R.
    assert (Er : r = Some 0).
    { change r with (r, w2).1. rewrite <- R. change w1 with (Some (0, true), w1).2. rewrite <- I. vm_compute. reflexivity. }
    subst r. exists w1, w2. split; [reflexivity|]. split; [exact R|].
    destruct (install_atomic (KN := calm) (HP := granting) 100 sample_location sample_transaction sample_products sample_change sample_world
      sample_ok sample_changes sample_rest (st (again w1)) (st w2)) as [_ H].
    + change (v_selector (t_old sample_transaction)) with (@nil Z). rewrite I. apply A.
    + exists calm, granting, 100%nat, (again w1), w2. split; [exact eq_refl|]. split; [exact R|exact eq_refl].
    + apply H. change (v_selector (t_old sample_transaction)) with (@nil Z). now rewrite I.
Defined.
