(* ===== verification/Readers.v ===== *)
(** * Readers (generation.c)

    What a reader that pins the selected generation may find, whatever became of
    the publications and recoveries before it: one of the two views, complete and
    verified.  The journal on the medium has one text. *)
From stdpp Require Import gmap.
From S2P Require Import Prelude Sha256 Rules Policy Bytes Profile Emit Cache CacheFacts Import Files FilesFacts Generation GenerationFacts Recovery Publication Atomicity.

#[local] Opaque grow_capacity.

Lemma selector_of v id d l : exports_are l v d -> d !! (l_engine l, str "current") = Some (Link (selector_target id)) -> v_selector v = id.
Proof.
  intros [_ H] E. fold (ks l) in E. rewrite H in E. unfold selector_node in E. destruct (streq (v_selector v) []); [discriminate|].
  injection E as E. exact E.
Qed.

Lemma committed_journal_in d l id : committed_state d l id -> d !! kj l <> None /\ private_file d (kc l) id.
Proof. intros ((j & _ & _ & y & H) & Hc & _). split; [|exact Hc]. unfold kj. rewrite H. discriminate. Qed.

(** A transaction that is not committed hides the engine from readers. *)
Lemma pinned_before l t d g : transaction_ok l t -> before l t d -> pinned d l None g -> shows l (t_old t) d.
Proof.
  intros OK [[[Hj He]|(Hj & Hc & _)] Hi] P.
  - split; [exact He|]. destruct Hi as [[_ Hi]|(Hk & _)]; [exact Hi|].
    destruct (pi_inputs _ _ _ _ P) as (id & C); [unfold inputs_written, kk in Hk; rewrite Hk; discriminate|].
    now destruct (committed_journal_in _ _ _ C).
  - destruct (pi_journal _ _ _ _ P) as (id & g' & C & _); [unfold journal_in, kj in Hj; rewrite Hj; discriminate|].
    destruct (committed_journal_in _ _ _ C) as [_ (y & Hc')]. congruence.
Qed.

(** At the commitment the public file that the reader checks is the new one. *)
Lemma pinned_marked l t s g : transaction_ok l t -> committing l t s -> pinned (now s) l None g -> shows l (t_new t) (now s).
Proof.
  intros OK (((Hj & Hm & _ & Hf & Hs) & Hi & _) & _ & _ & _ & _ & Hsync) P.
  destruct (pi_journal _ _ _ _ P) as (id & g' & (_ & Hc & Hcur) & (n & Hn & V) & Hpub); [unfold journal_in, kj in Hj; rewrite Hj; discriminate|].
  assert (id = j_next (t_journal t)) as -> by exact (private_written _ _ _ _ Hc Hm).
  assert (n = t_number t) as ->. { rewrite Hf in Hn. now injection Hn. }
  assert (Es : contents (g_sieve g') = t_sieve t) by exact (private_written _ _ _ _ (ve_sieve _ _ _ _ V) Hs).
  split; [split|exact Hi].
  - destruct Hpub as (y & Hpub). fold public_name in Hpub. fold (kp l) in Hpub. rewrite (ok_new_public l t OK), Hpub. cbn.
    repeat split; [exact Es|]. exact (Hsync _ Hpub).
  - rewrite (ok_new_selector l t OK). unfold ks. rewrite Hcur. unfold selector_node.
    destruct (streq (j_next (t_journal t)) []) eqn:E; [|reflexivity]. apply streq_spec in E.
    pose proof (jo_next _ (ok_journal l t OK)) as H. now rewrite E in H.
Qed.

Lemma pinned_view l t s g : transaction_ok l t -> recoverable l t s -> pinned (now s) l None g ->
  exists v, (v = t_old t \/ v = t_new t) /\ shows l v (now s) /\ v_selector v = g_id g.
Proof.
  intros OK H P. assert (S : exists v, (v = t_old t \/ v = t_new t) /\ shows l v (now s)).
  { destruct H as [[H|[[H Hi] _]]|[H|[H|H]]].
    - exists (t_old t). split; [now left|]. apply (pinned_before l t _ g OK); [exact (proj1 (always_now _ _ H))|exact P].
    - exists (t_old t). split; [now left|]. apply (pinned_before l t _ g OK); [split; [now right|exact Hi]|exact P].
    - exists (t_new t). split; [now right|]. now apply (pinned_marked l t s g).
    - destruct (always_now _ _ H) as [(_ & _ & He) [Hi _]]. exists (t_new t). split; [now right|]. now split.
    - destruct (always_now _ _ H) as (_ & Hs & _). exists (t_new t). split; [now right|exact Hs]. }
  destruct S as (v & Hv & Sv). exists v. split; [exact Hv|]. split; [exact Sv|].
  exact (selector_of v _ _ l (proj1 Sv) (pi_requested _ _ _ _ P)).
Qed.

(** C7. A reader never sees half a publication.  After a publication that was cut
    or failed anywhere, and any losses of power and recoveries, a reader that gets
    the selected generation changed nothing; its generation is complete, with the
    digests, identifier and manifest verified; and the public file, the selector
    and the inputs are all those of before the publication, or all the new ones,
    with the selector naming the generation it got. *)
Theorem pin_consistent `{KN : Kernel} `{HP : Heap} fuel l t p cs w :
  transaction_ok l t -> changes_ok t p cs -> always (at_rest l t) (st w) ->
  forall (KN' : Kernel) (HP' : Heap) fuel' error w' g w'',
    aftermath l (st (install (KN := KN) (HP := HP) fuel l (v_selector (t_old t)) p cs w).2) (st w') ->
    pin_locked (KN := KN') (HP := HP') fuel' l None error w' = (Some (0, g), w'') ->
    st w'' = st w' /\ installed (now (st w')) l (g_id g) g /\
    exists v, (v = t_old t \/ v = t_new t) /\ shows l v (now (st w')) /\ v_selector v = g_id g.
Proof.
  intros OK Hch Hrest KN' HP' fuel' error w' g w'' Ha Hp.
  destruct (install_spec (KN := KN) (HP := HP) fuel l t OK (st w) p cs Hrest Hch w eq_refl) as [HG _].
  pose proof (aftermath_recoverable l t _ _ OK HG Ha) as HR.
  destruct (quiet_pin_locked (KN := KN') (HP := HP') fuel' (st w') l None error w' eq_refl) as [Es HQ]. rewrite Hp in Es, HQ.
  specialize (HQ _ eq_refl eq_refl). cbn [snd] in Es, HQ. split; [now symmetry|]. split; [exact (pi_installed _ _ _ _ HQ)|].
  now apply (pinned_view l t).
Qed.

(** The generation published, and pinned without a recovery: the commitment is
    still in the engine. *)
Lemma pin_consistent_witness :
  exists w1 g w2, install (KN := calm) (HP := granting) 100 sample_location [] sample_products sample_change sample_world = (Some (0, true), w1) /\
  pin_locked (KN := calm) (HP := granting) 100 sample_location None true w1 = (Some (0, g), w2) /\
  st w2 = st w1 /\ exists v, (v = sample_old \/ v = sample_new) /\ shows sample_location v (now (st w1)) /\ v_selector v = g_id g.
Proof.
  destruct (install (KN := calm) (HP := granting) 100 sample_location [] sample_products sample_change sample_world) as [r w1] eqn:I.
  assert (Er : r = Some (0, true)).
  { change r with (r, w1).1. rewrite <- I. vm_compute. reflexivity. }
  subst r. destruct (pin_locked (KN := calm) (HP := granting) 100 sample_location None true w1) as [r w2] eqn:P.
  assert (Er : option_map fst r = Some 0).
  { change r with (r, w2).1. rewrite <- P. change w1 with (Some (0, true), w1).2. rewrite <- I. vm_compute. reflexivity. }
  destruct r as [[rc g]|]; [|discriminate]. injection Er as ->. exists w1, g, w2. split; [reflexivity|]. split; [exact P|].
  destruct (pin_consistent (KN := calm) (HP := granting) 100 sample_location sample_transaction sample_products sample_change sample_world
    sample_ok sample_changes sample_rest calm granting 100%nat true w1 g w2) as (H1 & _ & H2).
  - change (v_selector (t_old sample_transaction)) with (@nil Z). rewrite I. constructor.
  - exact P.
  - split; [exact H1|exact H2].
Defined.

(** The journal on the medium has one text for its fields: the reader accepts
    exactly what the writer prints from well-formed fields, and gives those fields
    back. *)
Theorem journal_exact data j : parse_journal data = Some j <-> data = journal_bytes j /\ journal_ok j.
Proof. split; [apply parse_journal_Some|]. intros [-> H]. now apply parse_journal_bytes. Qed.
