(* ===== verification/Snapshot.v ===== *)
(** * Snapshots of the configuration (src/filter/snapshot.c)

    One reading of the compiler, the policy files, the accounts, the profile and
    the exported address books, with a dependency for everything that was read.
    What the kernel says of a path, and what the exporter prints, are answers to
    the calls of the run; the programs are those of [Files]. *)
From stdpp Require Import gmap.
From S2P Require Import Prelude Sha256 Utf8 Mailbox Rules Classify Policy Bytes Profile Emit Cache Files.

Record jf_snapshot := Snapshot {
  sources : list jf_source; dependencies : list jf_dependency; sn_profile : jf_profile;
  sn_policy : option jf_policy; warnings : jf_bytes;
  profile_path : option bytes; error_path : option bytes;
  sn_changed : bool; overrides : list (bytes * bytes) }.

Definition no_profile : jf_profile := MkProfile [] [] [] false false false false [].
Definition no_snapshot : jf_snapshot := Snapshot [] [] no_profile None no_bytes None None false [].

Definition set_sources v s := Snapshot v (dependencies s) (sn_profile s) (sn_policy s) (warnings s) (profile_path s) (error_path s) (sn_changed s) (overrides s).
Definition set_dependencies v s := Snapshot (sources s) v (sn_profile s) (sn_policy s) (warnings s) (profile_path s) (error_path s) (sn_changed s) (overrides s).
Definition set_sn_profile v s := Snapshot (sources s) (dependencies s) v (sn_policy s) (warnings s) (profile_path s) (error_path s) (sn_changed s) (overrides s).
Definition set_policy v s := Snapshot (sources s) (dependencies s) (sn_profile s) v (warnings s) (profile_path s) (error_path s) (sn_changed s) (overrides s).
Definition set_warnings v s := Snapshot (sources s) (dependencies s) (sn_profile s) (sn_policy s) v (profile_path s) (error_path s) (sn_changed s) (overrides s).
Definition set_profile_path v s := Snapshot (sources s) (dependencies s) (sn_profile s) (sn_policy s) (warnings s) v (error_path s) (sn_changed s) (overrides s).
Definition set_error_path v s := Snapshot (sources s) (dependencies s) (sn_profile s) (sn_policy s) (warnings s) (profile_path s) v (sn_changed s) (overrides s).
Definition set_changed v s := Snapshot (sources s) (dependencies s) (sn_profile s) (sn_policy s) (warnings s) (profile_path s) (error_path s) v (overrides s).
Definition set_overrides v s := Snapshot (sources s) (dependencies s) (sn_profile s) (sn_policy s) (warnings s) (profile_path s) (error_path s) (sn_changed s) v.

(** ** Dependencies *)

Definition jf_snapshot_dependency (s : option jf_snapshot) (r path : bytes) : option jf_dependency :=
  match s with
  | Some s => List.find (fun d => streq (role d) r && streq (d_path d) path) (dependencies s)
  | None => None
  end.

Definition same_dependency (a b : option jf_dependency) : bool :=
  match a, b with
  | Some a, Some b =>
      eqb (present a) (present b) && (negb (present a) || streq (digest a) (digest b)) &&
      streq (auxiliary a) (auxiliary b)
  | _, _ => false
  end.

Definition same_optional (a b : option jf_snapshot) (r path : bytes) : bool :=
  match jf_snapshot_dependency a r path, jf_snapshot_dependency b r path with
  | None, None => true
  | x, y => same_dependency x y
  end.

Definition config_roles : list bytes :=
  [str "config.exporter-flags"; str "config.exporter-locale";
   str "config.compiler-build"; str "config.cache-version"; str "config.policy-version"; str "config.parser";
   str "config.address-case"; str "config.address-normalization"; str "config.contact-validation"; str "config.locale";
   str "config.regex-dialect"; str "config.sieve-comparator"].

(** The export recorded before, when everything it was made from is the same. *)
Definition reusable_export (now_ : jf_snapshot) (prior : option jf_snapshot) (r export_role path exporter compiler : bytes) : bool :=
  let was r p := jf_snapshot_dependency prior r p in
  let is_ r p := jf_snapshot_dependency (Some now_) r p in
  match was r path, was export_role path with
  | Some book, Some exported =>
      if negb (present book) || negb (present exported) ||
         negb (same_dependency (Some book) (is_ r path)) ||
         negb (same_dependency (was (str "input.exporter") exporter) (is_ (str "input.exporter") exporter)) ||
         negb (same_dependency (was (str "input.compiler") compiler) (is_ (str "input.compiler") compiler)) ||
         negb (same_optional prior (Some now_) (str "link.input.exporter") exporter) ||
         negb (same_optional prior (Some now_) (str "link.input.compiler") compiler) then false
      else if existsb (fun c => negb (same_dependency (was c []) (is_ c []))) config_roles then false
      else streq (digest_of (auxiliary exported)) (digest exported)
  | _, _ => false
  end.

(** A new record: the bytes of what is present are digested. *)
Definition new_dependency (r path : bytes) (data : option bytes) (aux : bytes) : jf_dependency :=
  MkDependency r path (match data with Some _ => true | None => false end)
    (match data with Some bytes => digest_of bytes | None => replicate 32 0 end) aux.

(** ** Exported rows *)

Definition is_lf (c : Z) : bool := c =? LF.
Definition row_start (c : Z) : bool := is_blank c.
Definition row_end (c : Z) : bool := is_blank c || (c =? CR).
Definition trim_row (l : bytes) : bytes := trim_end row_end (drop_while row_start l).

Definition acceptable (row : bytes) : bool :=
  (zlen row <=? JF_LINE_MAX) && jf_valid_utf8 row &&
  match jf_normalize_mailbox row with Some _ => true | None => false end.

Definition quoted_byte (c : Z) : bytes :=
  if (c <? 32) || (127 <=? c) || (c =? DQ) || (c =? BSL) then [BSL; ch "x"] ++ hex_byte c else [c].
Definition quote_pieces (d : bytes) : list bytes := [[DQ]] ++ map quoted_byte d ++ [[DQ]].

(** The pieces of the warning for the bad row of a line. *)
Definition row_warning (path : bytes) (line : Z) (row : bytes) : list bytes :=
  [str "W_ADDRESS "] ++ quote_pieces path ++
  [str " exported address row " ++ decimal_of line ++ str ": ignored invalid mailbox "] ++
  quote_pieces (take 96 row) ++
  [if 96 <? zlen row then str " (first 96 bytes shown)" ++ [LF] else [LF]].
Definition total_warning (path : bytes) (bad : Z) : list bytes :=
  [str "W_ADDRESS "] ++ quote_pieces path ++
  [str " ignored " ++ decimal_of bad ++ str " invalid contact" ++ (if bad =? 1 then [] else str "s") ++
   (if 8 <? bad then str " (first 8 listed)" else []) ++ str "; original addressbook unchanged" ++ [LF]].

(** The lines of [empty_book]: blank or a comment, or the next line of the header. *)
Definition book_control (c : Z) : bool := ((c <? 32) && negb (c =? HT) && negb (c =? CR)) || (c =? 127).
Fixpoint book_headers (fuel : nat) (d : bytes) (header : Z) : bool :=
  match fuel, d with
  | S fuel', _ :: _ =>
      let '(l, rest) := next_line d in
      if existsb book_control l then false
      else
        let l := trim_end row_end (drop_while row_end l) in
        if (length l =? 0)%nat || (at_ l 0 =? ch "#") then book_headers fuel' rest header
        else if (header =? 0) && streq l (str "[format]") then book_headers fuel' rest 1
        else if (header =? 1) && streq l (str "program=abook") then book_headers fuel' rest 2
        else if (header =? 2) && (streq l (str "version=0.6.0") || streq l (str "version=0.6.1"))
        then book_headers fuel' rest 3
        else false
  | _, _ => (header =? 0) || (header =? 3)
  end.
Definition empty_book (raw : bytes) : bool := book_headers (length raw) raw 0.

Definition is_tab (c : Z) : bool := c =? HT.

(** ** Calls *)

Inductive file_kind := Regular | Directory | SymbolicLink | OtherFile.
#[export] Instance file_kind_eq : EqDecision file_kind. Proof. solve_decision. Defined.
(** What the code compares of an open file; the times to the nanosecond. *)
Record file_stat := FileStat { f_kind : file_kind; f_size : Z; f_mtime : Z; f_ctime : Z }.

(** The environment, the files that a path leads to, and the exporter: the answer
    to the n-th call of the run.  A file is read at a position, a directory at the
    index of an entry; the exporter prints, at a position, for a program and a
    book. *)
Class Paths := {
  environment : bytes -> option bytes;
  on_lstat : nat -> bytes -> errno + file_kind;
  on_stat : nat -> bytes -> errno + file_kind;
  on_readlink : nat -> bytes -> errno + bytes;
  on_access : nat -> bytes -> errno + unit;
  on_open : nat -> bytes -> errno + unit;
  on_fstat : nat -> bytes -> errno + file_stat;
  on_read : nat -> bytes -> nat -> errno + bytes;
  on_opendir : nat -> bytes -> errno + unit;
  on_readdir : nat -> bytes -> nat -> errno + option bytes;
  on_write : nat -> errno + nat;
  on_pipe : nat -> bytes -> bytes -> nat -> errno + bytes;
  on_wait : nat -> bytes -> bytes -> errno + option Z }.

(** ** Programs over a snapshot *)

Abbreviation snap := (stateful jf_snapshot).

(** The labels at the end of [collect], and programs that may jump to one. *)
Inductive label := Memory | Io | Done (rc : Z).
Abbreviation steps := (jumping jf_snapshot label).

(** [jf_product_error] on the record of the caller. *)
Definition product_error (code : string) (detail : bytes) : fio Z :=
  match jf_product_error (A := unit) code 0 detail with
  | Fail rc e => _ ← report e; mret rc
  | Ok _ => mret 0
  end.

(** After a failure the caller only releases the snapshot, so what a failed step
    had begun to add is left out. *)
Section Operations.
Context `{KN : Kernel} `{HP : Heap} `{PT : Paths} `{RX : PosixRegex} (fuel : nat).

(** A call whose answer is [f] of its number. *)
Definition answered {A} (f : nat -> errno + A) : fio (errno + A) := fun w => query (fun _ => f (tick w)) w.

Definition lstat (path : bytes) : fio (errno + file_kind) := answered (fun n => on_lstat n path).
Definition stat (path : bytes) : fio (errno + file_kind) := answered (fun n => on_stat n path).
Definition readlink (path : bytes) (n : Z) : fio (errno + bytes) :=
  r ← answered (fun i => on_readlink i path);
  mret match r with inr t => inr (take (Z.to_nat n) t) | inl e => inl e end.
Definition open (path : bytes) : fio (errno + unit) := answered (fun n => on_open n path).
Definition fstat_fd (path : bytes) : fio (errno + file_stat) := answered (fun n => on_fstat n path).

Definition strdup (s : bytes) : fio (option bytes) := m ← malloc; mret (if (m : bool) then Some s else None).
Definition join (a b : bytes) : fio (option bytes) := strdup (a ++ str "/" ++ b).

(** [jf_bytes_add] over several pieces. *)
Fixpoint add_pieces (l : list bytes) (b : jf_bytes) : fio (option jf_bytes) :=
  match l with
  | [] => mret (Some b)
  | d :: t => a ← add_limit d JF_CACHE_MAX b; match a with Some b => add_pieces t b | None => mret None end
  end.

Definition diagnostic (path : bytes) : snap Z :=
  p ← lift (strdup path);
  match p with Some p => _ ← change (set_error_path (Some p)); mret 0 | None => mret 3 end.

(** [data] are the bytes of a present dependency. *)
Definition dep (r path : bytes) (data : option bytes) (aux : bytes) : snap Z :=
  n ← ask (fun s => zlen (dependencies s));
  if n =? JF_DEPENDENCY_MAX then mret 3
  else
    grown ← lift malloc;
    if negb grown then mret 3
    else
      a ← lift malloc; b ← lift malloc;
      if negb a || negb b then mret 3
      else
        x ← lift (add_limit aux JF_CACHE_MAX no_bytes);
        match x with
        | None => mret 3
        | Some x =>
            _ ← change (fun s => set_dependencies (dependencies s ++ [new_dependency r path data (contents x)]) s);
            mret 0
        end.

Definition config (r value : bytes) : snap Z := dep r [] (Some value) value.

(** [source] of the code, which takes the buffer over. *)
Definition add_source (k : jf_source_kind) (identity path : bytes) (b : jf_bytes) : snap Z :=
  n ← ask (fun s => zlen (sources s));
  if n =? JF_RULE_MAX then mret 3
  else
    grown ← lift malloc;
    if negb grown then mret 3
    else
      x ← lift malloc; y ← lift malloc;
      _ ← change (fun s => set_sources (sources s ++ [MkSource k identity path (contents b)]) s);
      mret (if negb x || negb y then 3 else 0).

(** A warning in pieces. *)
Definition warn (l : list bytes) : snap bool :=
  w ← ask warnings;
  a ← lift (add_pieces l w);
  match a with Some w => _ ← change (set_warnings w); mret true | None => mret false end.

(** The loop of [contact_source] over the lines: the rows kept, one line for each
    line, and the bad ones counted; [None] when memory runs out. *)
Fixpoint contact_rows (n : nat) (path d : bytes) (line bad : Z) (valid : jf_bytes) : snap (option (jf_bytes * Z)) :=
  match n, d with
  | S n', _ :: _ =>
      let '(l, rest) := next_line d in
      let row := trim_row l in
      if (length row =? 0)%nat then
        v ← lift (add_pieces [[LF]] valid);
        match v with Some valid => contact_rows n' path rest (line + 1) bad valid | None => mret None end
      else
        copy ← lift malloc;
        if negb copy then mret None
        else if acceptable row then
          v ← lift (add_pieces [row; [LF]] valid);
          match v with Some valid => contact_rows n' path rest (line + 1) bad valid | None => mret None end
        else
          told ← (if bad + 1 <=? 8 then warn (row_warning path (line + 1) row) else mret true);
          if negb told then mret None
          else
            v ← lift (add_pieces [[LF]] valid);
            match v with Some valid => contact_rows n' path rest (line + 1) (bad + 1) valid | None => mret None end
  | _, _ => mret (Some (valid, bad))
  end.

Definition contact_source (k : jf_source_kind) (book path : bytes) (exported : bytes) : snap Z :=
  r ← contact_rows (length exported) path exported 0 0 no_bytes;
  match r with
  | None => mret 3
  | Some (valid, bad) =>
      told ← (if bad =? 0 then mret true else warn (total_warning path bad));
      if negb told then mret 3 else add_source k book path valid
  end.

(** The loop over [read]; [from] answers a read at a position. *)
Fixpoint readfd (n : nat) (from : nat -> nat -> errno + bytes) (b : jf_bytes) : fio (Z * jf_bytes) :=
  match n with
  | O => cut
  | S n' =>
      r ← answered (fun i => from i (length (contents b)));
      match r with
      | inl EINTR => readfd n' from b
      | inl _ => mret (3, b)
      | inr [] => mret (0, b)
      | inr d =>
          let d := take (Z.to_nat 16384) d in
          if size_t (JF_INPUT_MAX - zlen (contents b)) <? zlen d then mret (3, b)
          else
            a ← add_limit d JF_CACHE_MAX b;
            match a with Some b => readfd n' from b | None => mret (3, b) end
      end
  end.

Definition link_dep (r path : bytes) : snap Z :=
  k ← lift (lstat path);
  match k with
  | inl ENOENT => mret 0
  | inl _ => mret 3
  | inr SymbolicLink =>
      t ← lift (readlink path (JF_LINE_MAX + 1));
      match t with
      | inl _ => mret 3
      | inr t =>
          if zlen t =? JF_LINE_MAX + 1 then mret 3
          else
            name ← lift (strdup (str "link." ++ r));
            match name with Some name => dep name path (Some t) t | None => mret 3 end
      end
  | inr _ => mret 0
  end.

Definition unmoved (a b : file_stat) : bool :=
  (f_size a =? f_size b) && (f_mtime a =? f_mtime b) && (f_ctime a =? f_ctime b).

(** The open file: its [fstat], its bytes, its [fstat] again. *)
Definition read_input (path : bytes) : snap (Z * jf_bytes) :=
  st ← lift (fstat_fd path);
  '(rc, b) ← match st with
             | inr x => if bool_decide (f_kind x = Regular) then lift (readfd fuel (fun n => on_read n path) no_bytes) else mret (3, no_bytes)
             | inl _ => mret (3, no_bytes)
             end;
  if negb (rc =? 0) then mret (rc, b)
  else
    after ← lift (fstat_fd path);
    if match st, after with inr x, inr y => unmoved x y | _, _ => false end then mret (0, b)
    else _ ← change (set_changed true); mret (6, b).

Definition input (r path : bytes) (required : bool) : snap (Z * jf_bytes) :=
  d ← diagnostic path;
  if negb (d =? 0) then mret (3, no_bytes)
  else
    over ← ask (fun s => List.find (fun o => streq path o.1) (overrides s));
    match over with
    | Some (_, data) =>
        a ← lift (add_limit data JF_CACHE_MAX no_bytes);
        match a with
        | Some b => rc ← dep r path (Some data) []; mret (rc, b)
        | None => mret (3, no_bytes)
        end
    | None =>
        l ← link_dep r path;
        if negb (l =? 0) then mret (3, no_bytes)
        else
          fd ← lift (open path);
          match fd with
          | inl ENOENT =>
              if streq r (str "input.account") then _ ← change (set_changed true); mret (6, no_bytes)
              else if required then mret (3, no_bytes)
              else
                k ← lift (lstat path);
                match k with
                | inl ENOENT => rc ← dep r path None []; mret (rc, no_bytes)
                | _ => mret (3, no_bytes)
                end
          | inl _ => mret (3, no_bytes)
          | inr _ =>
              '(rc, b) ← read_input path;
              c ← lift close;
              let rc := if negb c && (rc =? 0) then 3 else rc in
              if negb (rc =? 0) then mret (rc, b)
              else rc ← dep r path (Some (contents b)) []; mret (rc, b)
          end
    end.

(** ** Accounts *)

Definition inventory_item (path : bytes) (kind : Z) (b : jf_bytes) : fio (option jf_bytes) :=
  add_pieces [[kind]; path ++ [0]] b.

(** The names of an open directory, from entry [i] on; [None] is [goto done]. *)
Fixpoint read_names (n : nat) (dir : bytes) (i : nat) (names : list bytes) : fio (option (list bytes)) :=
  match n with
  | O => cut
  | S n' =>
      r ← answered (fun n => on_readdir n dir i);
      match r with
      | inl _ => mret None
      | inr None => mret (Some names)
      | inr (Some name) =>
          if streq name (str ".") || streq name (str "..") then read_names n' dir (S i) names
          else if zlen names =? JF_RULE_MAX then mret None
          else
            grown ← malloc;
            if negb grown then mret None
            else
              copy ← strdup name;
              match copy with Some name => read_names n' dir (S i) (names ++ [name]) | None => mret None end
      end
  end.

Definition under (dir name : bytes) : fio (option bytes) :=
  if streq dir [] then strdup name else join dir name.
Definition account_identity (rel : bytes) (external : bool) : bytes :=
  if external then str "accounts:" ++ rel else str "Accounts/" ++ rel.

(** One entry; [walk] visits a directory. *)
Definition walk_item (walk : bytes -> jf_bytes -> snap (Z * jf_bytes)) (base relative : bytes) (external : bool)
    (name : bytes) (inventory : jf_bytes) : snap (Z * jf_bytes) :=
  rel ← lift (under relative name);
  match rel with
  | None => mret (3, inventory)
  | Some rel =>
      path ← lift (join base rel);
      identity ← lift (strdup (account_identity rel external));
      match path, identity with
      | Some path, Some identity =>
          lst ← lift (lstat path);
          match lst with
          | inl e => _ ← (if bool_decide (e = ENOENT) then change (set_changed true) else mret tt); mret (3, inventory)
          | inr Directory =>
              i ← lift (inventory_item rel (ch "d") inventory);
              match i with Some inventory => walk rel inventory | None => mret (3, inventory) end
          | inr k =>
              st ← lift (stat path);
              match st with
              | inr Regular =>
                  i ← lift (inventory_item rel (if bool_decide (k = SymbolicLink) then ch "l" else ch "f") inventory);
                  match i with
                  | None => mret (3, inventory)
                  | Some inventory =>
                      '(er, b) ← input (str "input.account") path true;
                      if negb (er =? 0) then mret (er, inventory)
                      else er ← add_source JF_ACCOUNT identity path b; mret (er, inventory)
                  end
              | _ => mret (3, inventory)
              end
          end
      | _, _ => mret (3, inventory)
      end
  end.

Fixpoint walk_items (walk : bytes -> jf_bytes -> snap (Z * jf_bytes)) (base relative : bytes) (external : bool)
    (names : list bytes) (inventory : jf_bytes) : snap (Z * jf_bytes) :=
  match names with
  | [] => mret (0, inventory)
  | name :: t =>
      '(er, inventory) ← walk_item walk base relative external name inventory;
      if er =? 0 then walk_items walk base relative external t inventory else mret (3, inventory)
  end.

(** [depth] more levels are allowed. *)
Fixpoint accounts_walk (depth : nat) (base : bytes) (external : bool) (relative : bytes) (inventory : jf_bytes) :
    snap (Z * jf_bytes) :=
  dirpath ← lift (if streq relative [] then strdup base else join base relative);
  match depth, dirpath with
  | S depth', Some dirpath =>
      dir ← lift (answered (fun n => on_opendir n dirpath));
      match dir with
      | inl e => _ ← (if bool_decide (e = ENOENT) then change (set_changed true) else mret tt); mret (3, inventory)
      | inr _ =>
          names ← lift (read_names fuel dirpath 0 []);
          closed ← lift close;
          match names with
          | None => mret (3, inventory)
          | Some names =>
              if negb closed then mret (3, inventory)
              else walk_items (accounts_walk depth' base external) base relative external (qsort strcmp names) inventory
          end
      end
  | _, _ => mret (3, inventory)
  end.

(** ** The exporter *)

Fixpoint search_path (dirs : list bytes) (name : bytes) : fio (option bytes) :=
  match dirs with
  | [] => mret None
  | dir :: t =>
      copy ← strdup dir;
      match copy with
      | None => mret None
      | Some dir =>
          path ← join (if streq dir [] then str "." else dir) name;
          match path with
          | None => mret None
          | Some path =>
              r ← answered (fun n => on_access n path);
              match r with inr _ => mret (Some path) | inl _ => search_path t name end
          end
      end
  end.
Definition executable (name : bytes) : fio (option bytes) :=
  let env := match environment (str "PATH") with Some p => p | None => str "/usr/bin:/bin" end in
  if mem (ch "/") name then strdup name else search_path (split_on (ch ":") env) name.

(** A call that only succeeds or fails, and several of them. *)
Definition plainly : fio bool := ok (query (fun _ => inr tt)).

Fixpoint all_plainly (n : nat) : fio bool :=
  match n with
  | O => mret true
  | S n' => b ← plainly; if (b : bool) then all_plainly n' else mret false
  end.

Fixpoint write_book (n : nat) (d : bytes) : fio bool :=
  match n with
  | O => cut
  | S n' =>
      match d with
      | [] => mret true
      | _ =>
          r ← answered on_write;
          match r with
          | inl EINTR => write_book n' d
          | inl _ | inr O => mret false
          | inr m => write_book n' (drop m d)
          end
      end
  end.

Fixpoint wait_child (n : nat) (exporter raw : bytes) : fio (option Z) :=
  match n with
  | O => cut
  | S n' =>
      r ← answered (fun i => on_wait i exporter raw);
      match r with
      | inl EINTR => wait_child n' exporter raw
      | inl _ => mret None
      | inr s => mret s
      end
  end.

(** The mailbox columns of the lines that were printed. *)
Fixpoint columns (n : nat) (d : bytes) (out : jf_bytes) : fio (option jf_bytes) :=
  match n, d with
  | S n', _ :: _ =>
      let '(l, rest) := next_line d in
      let l := strip_cr l in
      if (length l =? 0)%nat then columns n' rest out
      else if negb (mem HT l) then mret None
      else
        a ← add_pieces [take_while (fun c => negb (is_tab c)) l; [LF]] out;
        match a with Some out => columns n' rest out | None => mret None end
  | _, _ => mret (Some out)
  end.

(** From [lseek] on, the child included: what it printed, when it ended well. *)
Definition run_exporter (exporter raw : bytes) : fio (option bytes) :=
  forked ← all_plainly 3;
  if negb forked then mret None
  else
    _ ← close;
    '(rc, b) ← readfd fuel (fun n => on_pipe n exporter raw) no_bytes;
    _ ← close;
    code ← wait_child fuel exporter raw;
    mret (if (rc =? 0) && bool_decide (code = Some 0) then Some (contents b) else None).

(** The buffer appended to, or [None] for the status 3. *)
Definition export_book (exporter raw : bytes) : fio (option jf_bytes) :=
  if empty_book raw then mret (Some no_bytes)
  else
    let tmp := match environment (str "TMPDIR") with Some t => t | None => str "/tmp" end in
    name ← join tmp (str "jaro-filter-book-XXXXXX");
    fd ← (match name with Some _ => plainly | None => mret false end);
    if negb fd then mret None
    else
      unlinked ← plainly;
      written ← (if (unlinked : bool) then write_book fuel raw else mret false);
      printed ← (if (written : bool) then run_exporter exporter raw else mret None);
      out ← match printed with Some d => columns (length d) d no_bytes | None => mret None end;
      _ ← close;
      mret out.

(** ** The collection *)

Definition nul_ended (l : list bytes) : bytes := concat (map (fun s => s ++ [0]) l).
Definition exporter_flags : bytes :=
  nul_ended [str "--config"; str "/dev/null"; str "--datafile"; str "SNAPSHOT-FD"; str "--mutt-query"] ++ [0].
Definition fixed_config : list (bytes * bytes) :=
  [(str "config.compiler-build", JF_COMPILER_ID); (str "config.cache-version", str "1");
   (str "config.policy-version", str "1"); (str "config.regex-dialect", str "posix-ere-c-icase-v1");
   (str "config.locale", str "C"); (str "config.parser", str "bounded-rfc822-v2");
   (str "config.address-normalization", JF_ADDRESS_NORMALIZATION);
   (str "config.contact-validation", str "warn-skip-invalid-export-v1");
   (str "config.address-case", str "ascii-mailbox-casemap-v1"); (str "config.sieve-comparator", str "i;ascii-casemap");
   (str "config.exporter-locale", str "C"); (str "config.regex-catalogue", jf_regex_catalogue);
   (str "config.regex-qualification", jf_regex_qualification)].
Definition capabilities (p : jf_profile) : bytes :=
  if p_regex p then (if p_mailbox p then str "fileinto,mailbox,regex" else str "fileinto,regex")
  else if p_mailbox p then str "fileinto,mailbox" else str "fileinto".
Definition profile_config (p : jf_profile) : list (bytes * bytes) :=
  [(str "config.profile-id", p_id p); (str "config.namespace-prefix", p_prefix p);
   (str "config.namespace-separator", p_separator p);
   (str "config.create-mailboxes", if p_create p then str "yes" else str "no");
   (str "config.capabilities", capabilities p)].

(** [config (...) || config (...) ...]. *)
Fixpoint configs (l : list (bytes * bytes)) : steps unit :=
  match l with
  | [] => mret tt
  | (r, v) :: t => _ ← must Memory (config r v); configs t
  end.

(** An input, and the rest when it was read. *)
Definition read_in (r path : bytes) (required : bool) : steps jf_bytes :=
  '(rc, b) ← run_ (input r path required);
  if rc =? 0 then mret b else goto Io.

(** A policy file of the root and its source. *)
Definition policy_file (root name r : bytes) (required : bool) (k : jf_source_kind) : steps unit :=
  path ← need Memory (lift (join root name));
  b ← read_in r path required;
  must Memory (add_source k name path b).

Definition collect_accounts (accounts : bytes) (external : bool) : steps unit :=
  _ ← must Memory (diagnostic accounts);
  _ ← must Io (link_dep (str "inventory.accounts") accounts);
  st ← run_ (lift (stat accounts));
  match st with
  | inl ENOENT => must Io (dep (str "inventory.accounts") accounts None [])
  | inl _ => goto Io
  | inr Directory =>
      '(rc, b) ← run_ (accounts_walk 65 accounts external [] no_bytes);
      if negb (rc =? 0) then goto Io
      else must Memory (dep (str "inventory.accounts") accounts (Some (contents b)) (contents b))
  | inr _ => goto Io
  end.

(** [jf_profile_parse] on the record of the caller. *)
Definition parse_profile (d : bytes) : steps unit := fun s => fun w =>
  match jf_profile_parse d (heap w) with
  | Ok (p, h) => (Some (inr tt, set_sn_profile p s), World (st w) (tick w) (last_errno w) h (held w) (reported w))
  | Fail rc e => (Some (inl (Done rc), s), World (st w) (tick w) (last_errno w) (S (heap w)) (held w) (Some e))
  end.

Definition collect_profile (root : bytes) (profile_arg : option bytes) : steps unit :=
  path ← need Memory (lift (match profile_arg with Some p => strdup p | None => join root (str "FilterProfile.txt") end));
  _ ← run_ (change (set_profile_path (Some path)));
  b ← read_in (str "input.profile") path (match profile_arg with Some _ => true | None => false end);
  _ ← parse_profile (contents b);
  _ ← must Memory (dep (str "config.profile") [] (Some (contents b)) (contents b));
  p ← run_ (ask sn_profile);
  _ ← configs (profile_config p);
  let mapped := flat_map (fun m => [m_logical m ++ [0]; m_mailbox m ++ [0]]) (mappings p) in
  m ← need Memory (lift (add_pieces (nul_ended [str "known"; str "INBOX"; str "spam"; str "Spam"] :: mapped) no_bytes));
  must Memory (dep (str "config.mailbox-mappings") [] (Some (contents m)) (contents m)).

(** The exporter, found and read when the first present book needs it. *)
Definition need_exporter (exporter : option bytes) : steps bytes :=
  match exporter with
  | Some e => mret e
  | None =>
      e ← need Io (lift (executable (str "abook")));
      _ ← read_in (str "input.exporter") e true;
      mret e
  end.

(** One address book: the exporter known after it. *)
Definition collect_book (root compiler : bytes) (prior : option jf_snapshot) (book r export_role : bytes)
    (k : jf_source_kind) (exporter : option bytes) : steps (option bytes) :=
  path ← need Memory (lift (join root book));
  b ← read_in r path false;
  current ← run_ (ask (fun s => jf_snapshot_dependency (Some s) r path));
  let is_present := match current with Some d => present d | None => false end in
  '(exporter, exported) ←
    (if is_present then
       e ← need_exporter exporter;
       _ ← must Memory (diagnostic path);
       s ← run_ (ask (fun s => s));
       x ← need Io (lift (
         match reusable_export s prior r export_role path e compiler, jf_snapshot_dependency prior export_role path with
         | true, Some d => add_limit (auxiliary d) JF_CACHE_MAX no_bytes
         | _, _ => export_book e (contents b)
         end));
       mret (Some e, contents x)
     else mret (exporter, []));
  _ ← must Memory (dep export_role path (if is_present then Some exported else None) exported);
  _ ← must Memory (contact_source k book path exported);
  mret exporter.

Definition collect_body (root : bytes) (accounts_arg profile_arg compiler : option bytes) (prior : option jf_snapshot) : steps unit :=
  accounts ← need Memory (lift (match accounts_arg with Some a => strdup a | None => join root (str "Accounts") end));
  _ ← must Io (diagnostic root);
  _ ← must Io (link_dep (str "root") root);
  _ ← configs fixed_config;
  _ ← must Memory (dep (str "config.exporter-flags") [] (Some exporter_flags) exporter_flags);
  compiler ← match compiler with Some c => mret c | None => goto Io end;
  _ ← read_in (str "input.compiler") compiler true;
  _ ← policy_file root (str "Filters.txt") (str "input.filters") true JF_FILTERS;
  _ ← policy_file root (str "Aliases.txt") (str "input.aliases") false JF_ALIASES;
  _ ← collect_accounts accounts (match accounts_arg with Some _ => true | None => false end);
  _ ← collect_profile root profile_arg;
  e ← collect_book root compiler prior (str "whitelist.abook") (str "input.whitelist") (str "export.whitelist") JF_KNOWN None;
  _ ← collect_book root compiler prior (str "blacklist.abook") (str "input.blacklist") (str "export.blacklist") JF_BLACKLIST e;
  mret tt.

(** The labels, and what the caller gets. *)
Definition collect (root : bytes) (accounts_arg profile_arg compiler : option bytes) (prior : option jf_snapshot)
    (over : list (bytes * bytes)) : fio (Z * jf_snapshot) :=
  _ ← clear_error;
  '(r, s) ← collect_body root accounts_arg profile_arg compiler prior (set_overrides over no_snapshot);
  rc ← match r with
       | inr _ => mret 0
       | inl (Done rc) => mret rc
       | inl Memory => product_error "E_MEMORY" (str "snapshot allocation/size limit")
       | inl Io =>
           if sn_changed s then _ ← product_error "E_SNAPSHOT_CHANGED" (str "input changed while reading"); mret 6
           else product_error "E_IO" (str "cannot snapshot input or export addressbook")
       end;
  mret (rc, set_overrides [] s).

Definition jf_snapshot_collect (root : bytes) (accounts profile compiler : option bytes) (prior : option jf_snapshot) :
    fio (Z * jf_snapshot) := collect root accounts profile compiler prior [].
Definition jf_snapshot_overlay (root : bytes) (accounts profile compiler : option bytes) (over : list (bytes * bytes)) :
    fio (Z * jf_snapshot) := collect root accounts profile compiler None over.

(** The sources as [jf_policy_parse] gets them; a parse that fails counts as one
    request of memory. *)
Definition source_args (s : jf_snapshot) : list source_arg :=
  map (fun x => MkSourceArg (source_kind_value (s_kind x)) (Some (identity x)) (Some (path x)) (View (data x))) (sources s).

Definition parse_policy (s : jf_snapshot) : fio (res jf_policy) := fun w =>
  match jf_policy_parse (AL := fun n => malloc_ok (heap w + n)%nat) (View (source_args s)) with
  | Ok p => (Some (Ok p), World (st w) (tick w) (last_errno w) (heap w + requests p)%nat (held w) (reported w))
  | Fail rc e => (Some (Fail rc e), World (st w) (tick w) (last_errno w) (S (heap w)) (held w) (Some e))
  end.

Definition jf_snapshot_parse (s : jf_snapshot) : fio (Z * jf_snapshot) :=
  r ← parse_policy s;
  match r with
  | Ok p => mret (0, set_policy (Some p) s)
  | Fail rc e =>
      if (0 <=? err_source e) && (err_source e <? zlen (sources s)) then
        '(d, s) ← diagnostic (path (nth (Z.to_nat (err_source e)) (sources s) (MkSource JF_FILTERS [] [] []))) s;
        if d =? 0 then mret (rc, s)
        else rc ← product_error "E_MEMORY" (str "diagnostic allocation failed"); mret (rc, s)
      else mret (rc, s)
  end.

Definition jf_snapshot_read (root : bytes) (accounts profile compiler : option bytes) (prior : option jf_snapshot) :
    fio (Z * jf_snapshot) :=
  '(rc, s) ← jf_snapshot_collect root accounts profile compiler prior;
  if negb (rc =? 0) then mret (rc, s) else jf_snapshot_parse s.
End Operations.
