(* ===== verification/Compile.v ===== *)
(** * Compilation and import (generation.c)

    [jf_compile]: a snapshot, its products, a second snapshot under the lock, and
    the publication, up to three times; [jf_compile_import]: the same around the
    merge of a script into the policy files.  Programs over the tree of [Files]. *)
From stdpp Require Import gmap.
From S2P Require Import Prelude Sha256 Rules Resolve Classify Policy Bytes Profile Emit Cache Import Files Generation Snapshot.

Record jf_compile_result := CompileResult {
  r_id : bytes; r_directory : option bytes; r_changed : bool; r_warnings : jf_bytes }.
Definition no_result : jf_compile_result := CompileResult [] None false no_bytes.
Definition set_r_id v r := CompileResult v (r_directory r) (r_changed r) (r_warnings r).
Definition set_r_directory v r := CompileResult (r_id r) v (r_changed r) (r_warnings r).
Definition set_r_changed v r := CompileResult (r_id r) (r_directory r) v (r_warnings r).
Definition set_r_warnings v r := CompileResult (r_id r) (r_directory r) (r_changed r) v.

(** The locals of an attempt, with the result that outlives it. *)
Record attempt := Attempt {
  snapshot : jf_snapshot; recheck : jf_snapshot; a_temporary : option bytes;
  stage_ready : bool; retry : bool; collected : bool; rechecked : bool; a_result : jf_compile_result }.
Definition set_snapshot v a := Attempt v (recheck a) (a_temporary a) (stage_ready a) (retry a) (collected a) (rechecked a) (a_result a).
Definition set_recheck v a := Attempt (snapshot a) v (a_temporary a) (stage_ready a) (retry a) (collected a) (rechecked a) (a_result a).
Definition set_temporary v a := Attempt (snapshot a) (recheck a) v (stage_ready a) (retry a) (collected a) (rechecked a) (a_result a).
Definition set_ready v a := Attempt (snapshot a) (recheck a) (a_temporary a) v (retry a) (collected a) (rechecked a) (a_result a).
Definition set_retry v a := Attempt (snapshot a) (recheck a) (a_temporary a) (stage_ready a) v (collected a) (rechecked a) (a_result a).
Definition set_collected v a := Attempt (snapshot a) (recheck a) (a_temporary a) (stage_ready a) (retry a) v (rechecked a) (a_result a).
Definition set_rechecked v a := Attempt (snapshot a) (recheck a) (a_temporary a) (stage_ready a) (retry a) (collected a) v (a_result a).
Definition set_result v a := Attempt (snapshot a) (recheck a) (a_temporary a) (stage_ready a) (retry a) (collected a) (rechecked a) v.

(** A jump to [iteration] with a status. *)
Abbreviation body := (jumping attempt Z).

(** ** Calls of the parts that keep no files *)

(** [f] on the heap; what fails counts as one request. *)
Definition on_heap {A} (f : nat -> Z + A * nat) : fio (Z + A) := fun w =>
  match f (heap w) with
  | inr (a, h) => (Some (inr a), World (st w) (tick w) (last_errno w) h (held w) (reported w))
  | inl rc => (Some (inl rc), World (st w) (tick w) (last_errno w) (S (heap w)) (held w) (reported w))
  end.
(** The same with an error record. *)
Definition on_heap_res {A} (f : nat -> res (A * nat)) : fio (Z + A) := fun w =>
  match f (heap w) with
  | Ok (a, h) => (Some (inr a), World (st w) (tick w) (last_errno w) h (held w) (reported w))
  | Fail rc e => (Some (inl rc), World (st w) (tick w) (last_errno w) (S (heap w)) (held w) (Some e))
  end.

Definition status_of {A} (r : Z + A) : Z := match r with inr _ => 0 | inl rc => rc end.
(** The value, or a jump with the status. *)
Definition value {S L A} (l : Z -> L) (m : fio (Z + A)) : jumping S L A :=
  calls m ≫= fun r => match r with inr a => mret a | inl rc => goto (l rc) end.

Section Compile.
Context `{KN : Kernel} `{HP : Heap} `{PT : Paths} `{RX : PosixRegex} (fuel : nat).

Definition fingerprint_of (s : jf_snapshot) : fio (Z + bytes) :=
  on_heap (jf_dependencies_fingerprint (dependencies s)).
Definition build_products (s : jf_snapshot) : fio (Z + jf_products) :=
  on_heap_res (jf_products_build (match sn_policy s with Some p => p | None => no_policy end) (sn_profile s) (dependencies s)).

Section Run.
Context (root : bytes) (accounts profile compiler : option bytes) (check : bool).

Abbreviation collect_with prior := (jf_snapshot_collect fuel root accounts profile compiler (Some prior)).

(** The second collection, and whether it has the same fingerprint: the status. *)
Definition collect_again (fingerprint : bytes) : stateful attempt Z := fun a =>
  '(rc, r) ← collect_with (snapshot a);
  let a := set_rechecked (rc =? 0) (set_recheck r a) in
  if negb (rc =? 0) then mret (rc, a)
  else
    again ← fingerprint_of r;
    match again with
    | inl rc => mret (rc, a)
    | inr again => mret (if streq again fingerprint then (0, a) else (6, set_retry true a))
    end.

(** The directory that is reported: [generations] of the engine, and the name. *)
Definition result_directory (cache_path id : bytes) : body unit :=
  d ← calls (generations ← Snapshot.join cache_path (str "generations");
             match generations with Some g => Snapshot.join g id | None => mret None end);
  _ ← run_ (change (fun a => set_result (set_r_directory d (a_result a)) a));
  match d with Some _ => mret tt | None => goto 3 end.

(** The path where the previous generation is that of the snapshot: it jumps when
    nothing is to be done, and goes on to repair the public file. *)
Definition warm_path (l : location) (cache_path fingerprint id : bytes) : body unit :=
  _ ← pass (fun rc => rc) lock;
  rc ← run_ (collect_again fingerprint);
  '(rc, warm) ← (if rc =? 0 then calls (pin_locked fuel l None true) else mret (rc, no_generation));
  rc ← (if (rc =? 0) && negb (streq (g_id warm) id) then _ ← run_ (change (set_retry true)); mret 6 else mret rc);
  public ← (if rc =? 0 then calls (public_status fuel l warm) else mret rc);
  let repair := (rc =? 0) && (public =? 5) in
  _ ← calls (jf_generation_close warm);
  _ ← calls unlock;
  if repair then run_ (change (fun a => set_rechecked false (set_recheck no_snapshot a)))
  else if negb (public =? 0) then goto public
  else
    _ ← run_ (change (fun a => set_result (set_r_id id (a_result a)) a));
    _ ← result_directory cache_path id;
    goto 0.

Definition same_contents (g : jf_generation) (p : jf_products) (all : bool) : bool :=
  streq (contents (g_cache g)) (contents (pr_cache p)) &&
  (negb all || (streq (contents (g_zsh g)) (contents (pr_zsh p)) && streq (contents (g_sieve g)) (contents (pr_sieve p)))).

(** The generation of that name that is there already must be the same. *)
Definition existing_generation (l : location) (p : jf_products) (all : bool) : fio Z :=
  d ← directory (l_generations l, pr_id p) false;
  '(rc, existing) ← (if d <? 0 then mret (5, no_generation) else validate_directory fuel d (pr_id p) true);
  let rc := if (rc =? 0) && negb (same_contents existing p all) then 5 else rc in
  _ ← close_directory d;
  _ ← jf_generation_close existing;
  mret rc.

(** The staged directory gets its name, if there is none of that name; whether it
    was renamed, and the status. *)
Definition install_generation (l : location) (p : jf_products) (temporary : bytes) (all : bool) : fio (bool * Z) :=
  x ← exists_ (l_generations l, pr_id p);
  if x =? 0 then
    b ← renameat (l_engine l, temporary) (l_generations l, pr_id p);
    mret (b, status b)
  else
    rc ← existing_generation l p all; mret (false, rc).

(** From the lock on: the second snapshot and the publication. *)
Definition publish_attempt (l : location) (cache_path fingerprint : bytes) (p : jf_products) (temporary : bytes) : body unit :=
  _ ← pass (fun rc => rc) lock;
  _ ← pass (fun rc => rc) (recover fuel l);
  same ← calls (same_root l root);
  _ ← (if (same : bool) then mret tt else _ ← run_ (change (set_retry true)); goto 6);
  rc ← run_ (collect_again fingerprint);
  _ ← (if rc =? 0 then mret tt
       else _ ← run_ (change (fun a => if sn_changed (recheck a) then set_retry true a else a)); goto rc);
  '(rc, old) ← calls (selector l);
  _ ← (if rc =? 0 then mret tt else goto rc);
  '(renamed, rc) ← calls (install_generation l p temporary true);
  _ ← (if rc =? 0 then mret tt else goto rc);
  synced ← calls (fsync_dir (l_generations l));
  _ ← (if (synced : bool) then mret tt else goto 3);
  _ ← (if (renamed : bool) then run_ (change (set_ready false)) else mret tt);
  _ ← result_directory cache_path (pr_id p);
  '(rc, done) ← calls (publish_needed fuel l old p false);
  _ ← run_ (change (fun a => set_result (set_r_changed (r_changed (a_result a) || done) (a_result a)) a));
  if rc =? 0 then run_ (change (fun a => set_result (set_r_id (pr_id p) (a_result a)) a)) else goto rc.

Definition in_engine (l : location) : bool := 0 <=? l_engine l.

(** The second snapshot of a check, and its result. *)
Definition check_attempt (l : location) (fingerprint : bytes) (p : jf_products) : body unit :=
  _ ← (if in_engine l then pass (fun rc => rc) lock else mret tt);
  rc ← run_ (collect_again fingerprint);
  if rc =? 0 then run_ (change (fun a => set_result (set_r_id (pr_id p) (a_result a)) a)) else goto rc.

Definition first_snapshot (l : location) (prior : jf_snapshot) : body unit :=
  _ ← (if in_engine l then pass (fun rc => rc) lock else mret tt);
  same ← (if in_engine l then calls (same_root l root) else mret true);
  _ ← (if (same : bool) then mret tt else _ ← run_ (change (set_retry true)); goto 6);
  un ← (if in_engine l then calls (unfinished fuel l) else mret false);
  _ ← (if (un : bool) then goto 5 else mret tt);
  '(rc, s) ← calls (collect_with prior);
  _ ← run_ (change (fun a => set_retry (retry a || (rc =? 6)) (set_collected (rc =? 0) (set_snapshot s a))));
  _ ← (if in_engine l then calls unlock else mret tt);
  if rc =? 0 then mret tt else goto rc.

Definition attempt_body (l : location) (cache_path : bytes) (previous : jf_generation) (prior : jf_snapshot) : body unit :=
  _ ← first_snapshot l prior;
  s ← run_ (ask snapshot);
  fingerprint ← value (fun rc => rc) (fingerprint_of s);
  let id := jf_digest_hex fingerprint in
  _ ← (if negb check && (0 <=? g_directory previous) && streq id (g_id previous)
       then warm_path l cache_path fingerprint id else mret tt);
  '(rc, s) ← calls (jf_snapshot_parse s);
  _ ← run_ (change (set_snapshot s));
  _ ← (if rc =? 0 then mret tt else goto rc);
  p ← value (fun rc => rc) (build_products s);
  if check then check_attempt l fingerprint p
  else
    '(rc, temporary) ← calls (stage fuel l cache_path p);
    _ ← run_ (change (set_temporary temporary));
    _ ← (if rc =? 0 then mret tt else goto rc);
    _ ← run_ (change (set_ready true));
    match temporary with
    | Some temporary => publish_attempt l cache_path fingerprint p temporary
    | None => goto 3
    end.

(** The path reported with an error. *)
Definition error_at (a : attempt) (error : option jf_error) : bytes :=
  let code := match error with Some e => err_code e | None => EmptyString end in
  let rule := if String.eqb code "E_REGEX_EXPORT"
              then jf_policy_rule (sn_policy (snapshot a)) (match error with Some e => err_source e | None => 0 end) else None in
  match rule with
  | Some r => Rules.source r
  | None =>
      let at_path := match error, error_path (snapshot a) with Some _, Some p => Some p | _, _ => Some root end in
      let at_path := if String.eqb code "E_MAILBOX_MAPPING" then profile_path (snapshot a) else at_path in
      let at_path := if sn_changed (recheck a) then error_path (recheck a) else at_path in
      match at_path with Some p => p | None => root end
  end.

Definition get_report : fio (option jf_error) := fun w => (Some (reported w), w).

(** The label [iteration]: the dependencies for the next attempt, if there is one,
    the result and the path of the error. *)
Definition end_attempt (l : location) (rc : Z) (a : attempt) (last : bool) (prior : jf_snapshot) :
    fio (jf_snapshot * jf_compile_result * option bytes * bool) :=
  error ← get_report;
  at_path ← (if rc =? 0 then mret None else strdup (error_at a error));
  _ ← (if in_engine l then unlock else mret tt);
  _ ← match a_temporary a with
      | None => mret tt
      | Some t =>
          left ← (if stage_ready a then mret true else x ← exists_ (l_engine l, t); mret (x =? 1));
          if (left : bool) then discard_stage (l_engine l) t else mret tt
      end;
  let again := (rc =? 6) && retry a in
  let prior := if again && negb last && (collected a || rechecked a)
               then set_dependencies (dependencies (if rechecked a then recheck a else snapshot a)) no_snapshot else prior in
  let result := if rc =? 0 then set_r_warnings (warnings (snapshot a)) (a_result a) else a_result a in
  mret (prior, result, at_path, again && negb last).

Fixpoint attempts (n : nat) (l : location) (cache_path : bytes) (previous : jf_generation) (prior : jf_snapshot)
    (result : jf_compile_result) : fio (Z * jf_compile_result * option bytes) :=
  match n with
  | O => mret (0, result, None)
  | S n' =>
      '(r, a) ← attempt_body l cache_path previous prior (Attempt no_snapshot no_snapshot None false false false false result);
      let rc := match r with inr _ => 0 | inl rc => rc end in
      '(prior, result, at_path, again) ← end_attempt l rc a (n' =? 0)%nat prior;
      if (again : bool) then attempts n' l cache_path previous prior result else mret (rc, result, at_path)
  end.

(** The generation that is selected, and its dependencies; the status. *)
Definition previous_generation (l : location) : fio (Z * jf_generation * jf_snapshot) :=
  '(rc, old) ← selector l;
  if negb (rc =? 0) then mret (rc, no_generation, no_snapshot)
  else if streq old [] then mret (0, no_generation, no_snapshot)
  else
    '(rc, previous) ← pin_locked fuel l None true;
    if negb (rc =? 0) then mret (rc, no_generation, no_snapshot)
    else
      deps ← on_heap (jf_cache_dependencies (contents (g_cache previous)));
      match deps with
      | inr deps => mret (0, previous, set_dependencies deps no_snapshot)
      | inl rc => mret (rc, previous, no_snapshot)
      end.

(** From the lock to the label [done]. *)
Definition compile_located (l : location) (cache_path : bytes) : fio (Z * jf_compile_result * option bytes * jf_generation) :=
  rc ← lock;
  rc ← (if negb (rc =? 0) then mret rc
        else if check then un ← unfinished fuel l; mret (if (un : bool) then 5 else 0)
        else recover fuel l);
  '(rc, previous, prior) ← (if rc =? 0 then previous_generation l else mret (rc, no_generation, no_snapshot));
  if negb (rc =? 0) then mret (rc, no_result, None, previous)
  else
    _ ← unlock;
    '(rc, result, at_path) ← attempts 3 l cache_path previous prior no_result;
    mret (rc, result, at_path, previous).

(** The error record, if nothing was recorded for a failure. *)
Definition default_error (rc : Z) (code detail : string) : fio unit :=
  e ← get_report;
  match e with
  | None => if rc =? 0 then mret tt else _ ← product_error code (str detail); mret tt
  | Some _ => mret tt
  end.

(** The status, the result and the path of the error. *)
Definition jf_compile : fio (Z * jf_compile_result * option bytes) :=
  cache_path ← Snapshot.join root (str "cache/filter-engine");
  _ ← clear_error;
  '(rc, result, at_path, previous) ←
    match cache_path with
    | None => mret (3, no_result, None, no_generation)
    | Some cache_path =>
        '(rc, l) ← locate root (negb check);
        if negb (rc =? 0) && negb (check && (rc =? 5)) then mret (rc, no_result, None, no_generation)
        else
          '(rc, result, at_path, previous) ←
            (if rc =? 0 then compile_located l cache_path
             else '(rc, result, at_path) ← attempts 3 l cache_path no_generation no_snapshot no_result;
                  mret (rc, result, at_path, no_generation));
          _ ← location_close l;
          mret (rc, result, at_path, previous)
    end;
  _ ← default_error rc (if rc =? 6 then "E_BUSY_OR_CHANGED"%string else if rc =? 5 then "E_GENERATION"%string else "E_IO"%string)
        "native generation unavailable or publication failed";
  _ ← jf_generation_close previous;
  mret (rc, result, at_path).
End Run.

(** ** Imports *)

(** The labels of [jf_compile_import] with the status. *)
Inductive import_label := ScriptError (rc : Z) | SourceError (rc : Z) | ToDone (rc : Z).
Definition label_status (l : import_label) : Z := match l with ScriptError rc | SourceError rc | ToDone rc => rc end.

Record import_run := ImportRun {
  m_location : location; before : jf_snapshot; after : jf_snapshot; m_temporary : option bytes; m_ready : bool;
  m_result : jf_compile_result }.
Definition set_location v m := ImportRun v (before m) (after m) (m_temporary m) (m_ready m) (m_result m).
Definition set_before v m := ImportRun (m_location m) v (after m) (m_temporary m) (m_ready m) (m_result m).
Definition set_after v m := ImportRun (m_location m) (before m) v (m_temporary m) (m_ready m) (m_result m).
Definition set_m_temporary v m := ImportRun (m_location m) (before m) (after m) v (m_ready m) (m_result m).
Definition set_m_ready v m := ImportRun (m_location m) (before m) (after m) (m_temporary m) v (m_result m).
Definition set_m_result v m := ImportRun (m_location m) (before m) (after m) (m_temporary m) (m_ready m) v.
Abbreviation import_body := (jumping import_run import_label).

(** The loop that reads the script. *)
Fixpoint read_script (n : nat) (script : bytes) (b : jf_bytes) : fio (Z + jf_bytes) :=
  match n with
  | O => cut
  | S n' =>
      r ← answered (fun i => on_read i script (length (contents b)));
      match r with
      | inl EINTR => read_script n' script b
      | inl _ => mret (inl 3)
      | inr [] => mret (inr b)
      | inr d =>
          let d := take (Z.to_nat 16384) d in
          if negb (jf_bytes_fits (zlen (contents b)) (zlen d) JF_INPUT_MAX) then
            _ ← product_error "E_SIEVE_IMPORT" (str "script exceeds 64 MiB"); mret (inl 4)
          else
            a ← add_limit d JF_CACHE_MAX b;
            match a with Some b => read_script n' script b | None => mret (inl 3) end
      end
  end.

Definition open_script (script : bytes) : fio (Z + jf_bytes) :=
  fd ← Snapshot.open script;
  match fd with
  | inl _ => mret (inl 3)
  | inr _ =>
      x ← fstat_fd script;
      r ← match x with
          | inr x => if bool_decide (f_kind x = Regular) then read_script fuel script no_bytes else mret (inl 3)
          | inl _ => mret (inl 3)
          end;
      c ← close;
      mret match r with inr b => if (c : bool) then inr b else inl 3 | inl rc => inl rc end
  end.

Definition sieve_import (input : bytes) (legacy : bool) (p : jf_profile) : fio (Z + jf_policy) :=
  on_heap_res (jf_sieve_import legacy p input).
Definition import_merge (current imported : jf_policy) (original : list bytes) : fio (Z + list bytes) :=
  on_heap_res (jf_import_merge current imported original).

Section Run.
Context (root : bytes) (accounts profile compiler : option bytes) (script : bytes) (legacy check : bool).

(** A file that the import may replace: its presence, bytes and mode, or a status. *)
Definition original_input (l : location) (i : nat) : fio (Z + (bytes * Z * Z)) :=
  path ← Snapshot.join root (import_target i);
  match path with
  | None => mret (inl 3)
  | Some _ =>
      r ← (if l_root l <? 0 then open_path root else mret (inr (l_root l)));
      match r with
      | inl _ => mret (inl 3)
      | inr d =>
          p ← exists_ (d, import_target i);
          '(rc, b, mode) ←
            (if p <? 0 then mret (3, no_bytes, None)
             else if p =? 0 then mret (0, no_bytes, None)
             else load_mode fuel (d, import_target i) JF_INPUT_MAX false);
          _ ← (if l_root l <? 0 then _ ← close; mret tt else mret tt);
          if rc =? 0 then mret (inr (contents b, p, match mode with Some m => m | None => 384 end))
          else
            _ ← product_error "E_IMPORT_INPUT" (str "import inputs must be regular files, never replacement symlinks");
            mret (inl rc)
      end
  end.
Fixpoint original_inputs (l : location) (is_ : list nat) : fio (Z + list (bytes * Z * Z)) :=
  match is_ with
  | [] => mret (inr [])
  | i :: t =>
      o ← original_input l i;
      match o with
      | inl rc => mret (inl rc)
      | inr o => os ← original_inputs l t; mret match os with inl rc => inl rc | inr os => inr (o :: os) end
      end
  end.

Definition changes_of (originals : list (bytes * Z * Z)) (outputs : list bytes) : list input_change :=
  zip_with (fun o out => InputChange o.1.1 out o.1.2 o.2 (negb (streq o.1.1 out))) originals outputs.
(** The changed inputs by path. *)
Definition overrides_of (cs : list input_change) : list (bytes * bytes) :=
  concat (imap (fun i c => if c_changed c then [(root ++ str "/" ++ import_target i, output c)] else []) cs).

(** The inputs collected again must have the fingerprint. *)
Definition inputs_unchanged (fingerprint : bytes) : import_body unit :=
  b ← run_ (ask before);
  '(rc, r) ← calls (jf_snapshot_collect fuel root accounts profile compiler (Some b));
  _ ← (if rc =? 0 then mret tt else goto (SourceError rc));
  again ← value SourceError (fingerprint_of r);
  if streq fingerprint again then mret tt else goto (ToDone 6).

(** The lock, the recovery and the directory. *)
Definition import_locate : import_body unit :=
  '(rc, l) ← calls (locate root (negb check));
  _ ← run_ (change (set_location l));
  _ ← (if negb (rc =? 0) && negb (check && (rc =? 5)) then goto (ToDone rc) else mret tt);
  _ ← (if rc =? 0 then
         _ ← pass ToDone lock;
         if check then un ← calls (unfinished fuel l); (if (un : bool) then goto (ToDone 5) else mret tt)
         else pass ToDone (recover fuel l)
       else mret tt);
  same ← (if 0 <=? l_root l then calls (same_root l root) else mret true);
  if (same : bool) then mret tt else goto (ToDone 6).

(** The merge: the changes of the inputs. *)
Definition import_changes (input : bytes) : import_body (list input_change) :=
  '(rc, b) ← calls (jf_snapshot_read fuel root accounts profile compiler None);
  _ ← run_ (change (set_before b));
  _ ← (if rc =? 0 then mret tt else goto (SourceError rc));
  imported ← value ScriptError (sieve_import input legacy (sn_profile b));
  l ← run_ (ask m_location);
  originals ← value ToDone (original_inputs l [0%nat; 1%nat; 2%nat; 3%nat]);
  outputs ← value ToDone (import_merge (match sn_policy b with Some p => p | None => no_policy end) imported (map (fun o => o.1.1) originals));
  mret (changes_of originals outputs).

(** The products of the inputs as they shall be. *)
Definition import_products (cs : list input_change) : import_body jf_products :=
  '(rc, a) ← calls (jf_snapshot_overlay fuel root accounts profile compiler (overrides_of cs));
  _ ← run_ (change (set_after a));
  _ ← (if rc =? 0 then mret tt else goto (SourceError rc));
  '(rc, a) ← calls (jf_snapshot_parse a);
  _ ← run_ (change (set_after a));
  _ ← (if rc =? 0 then mret tt else goto (SourceError rc));
  value SourceError (build_products a).

Definition import_install (engine : bytes) (p : jf_products) (cs : list input_change) (fingerprint : bytes) : import_body unit :=
  l ← run_ (ask m_location);
  '(rc, old) ← calls (selector l);
  _ ← (if rc =? 0 then mret tt else goto (ToDone rc));
  '(rc, temporary) ← calls (stage fuel l engine p);
  _ ← run_ (change (set_m_temporary temporary));
  _ ← (if rc =? 0 then mret tt else goto (ToDone rc));
  _ ← run_ (change (set_m_ready true));
  same ← calls (same_root l root);
  _ ← (if (same : bool) then mret tt else goto (ToDone 6));
  '(renamed, rc) ← calls (install_generation l p (match temporary with Some t => t | None => [] end) false);
  _ ← (if rc =? 0 then mret tt else goto (ToDone rc));
  _ ← (if (renamed : bool) then run_ (change (set_m_ready false)) else mret tt);
  synced ← calls (fsync_dir (l_generations l));
  _ ← (if (synced : bool) then mret tt else goto (ToDone 3));
  _ ← inputs_unchanged fingerprint;
  d ← calls (generations ← Snapshot.join engine (str "generations");
             match generations with Some g => Snapshot.join g (pr_id p) | None => mret None end);
  _ ← run_ (change (fun m => set_m_result (set_r_directory d (m_result m)) m));
  _ ← (match d with Some _ => mret tt | None => goto (ToDone 3) end);
  '(rc, done) ← calls (install fuel l old p cs);
  _ ← run_ (change (fun m => set_m_result (set_r_changed done (m_result m)) m));
  if rc =? 0 then run_ (change (fun m => set_m_result (set_r_id (pr_id p) (m_result m)) m)) else goto (ToDone rc).

Definition import_steps (engine : bytes) : import_body unit :=
  input ← value ScriptError (open_script script);
  _ ← import_locate;
  cs ← import_changes (contents input);
  p ← import_products cs;
  b ← run_ (ask before);
  fingerprint ← value SourceError (fingerprint_of b);
  _ ← inputs_unchanged fingerprint;
  if check then run_ (change (fun m => set_m_result (set_r_id (pr_id p) (m_result m)) m))
  else import_install engine p cs fingerprint.

(** The path reported with an error. *)
Definition import_error_at (l : import_label) (m : import_run) (error : option jf_error) : option bytes :=
  match l with
  | ScriptError _ => Some script
  | SourceError _ =>
      let rule := match error with
                  | Some e => if String.eqb (err_code e) "E_REGEX_EXPORT" then jf_policy_rule (sn_policy (after m)) (err_source e) else None
                  | None => None
                  end in
      Some match rule, error_path (after m), error_path (before m) with
           | Some r, _, _ => Rules.source r
           | None, Some p, _ => p
           | None, None, Some p => p
           | None, None, None => root
           end
  | ToDone _ => None
  end.

Definition jf_compile_import : fio (Z * jf_compile_result * option bytes) :=
  engine ← Snapshot.join root (str "cache/filter-engine");
  _ ← clear_error;
  let start := ImportRun no_location no_snapshot no_snapshot None false no_result in
  '(r, m) ← match engine with
            | None => mret (inl (ToDone 3), start)
            | Some engine => import_steps engine start
            end;
  error ← get_report;
  at_path ← match r with
            | inr _ => mret None
            | inl l => match import_error_at l m error with Some p => strdup p | None => mret None end
            end;
  let rc := match r with inr _ => 0 | inl l => label_status l end in
  let l := m_location m in
  _ ← match m_temporary m with
      | None => mret tt
      | Some t =>
          left ← (if m_ready m then mret true else x ← exists_ (l_engine l, t); mret (x =? 1));
          if (left : bool) then discard_stage (l_engine l) t else mret tt
      end;
  _ ← default_error rc (if rc =? 6 then "E_BUSY_OR_CHANGED"%string else "E_IMPORT_IO"%string)
        "import failed; no partial configuration is committed";
  _ ← location_close l;
  mret (rc, if rc =? 0 then set_r_warnings (warnings (after m)) (m_result m) else m_result m, at_path).
End Run.
End Compile.
