(* ===== verification/SnapshotFacts.v ===== *)
(** * What a snapshot records (Snapshot)

    Every source of a collected snapshot is covered by one dependency, in the same
    order: its path, its presence, the digest of its bytes or the export itself.
    The rows of an exported book keep their numbers. *)
From stdpp Require Import gmap.
From S2P Require Import Prelude Sha256 Utf8 Mailbox Rules Classify Policy Bytes Profile Emit Cache Files FilesFacts Snapshot.

#[local] Opaque grow_capacity digest_of.

(** ** Rows of an exported book *)

Fixpoint lines_of (fuel : nat) (d : bytes) : list bytes :=
  match fuel, d with
  | S fuel', _ :: _ => let '(l, rest) := next_line d in l :: lines_of fuel' rest
  | _, _ => []
  end.
(** The trimmed rows, one for each line. *)
Definition rows (d : bytes) : list bytes := map trim_row (lines_of (length d) d).

Definition bad_row (row : bytes) : bool := negb (length row =? 0)%nat && negb (acceptable row).
Definition keep_row (row : bytes) : bytes := if bad_row row then [] else row.
(** A line for each row: the row, or nothing in place of a bad one. *)
Definition kept (rs : list bytes) : bytes := concat (map (fun r => keep_row r ++ [LF]) rs).

(** The warnings for the first eight bad rows; [bad] were seen before. *)
Fixpoint row_warnings (path : bytes) (line bad : Z) (rs : list bytes) : bytes :=
  match rs with
  | [] => []
  | r :: t =>
      if bad_row r then
        (if bad + 1 <=? 8 then concat (row_warning path (line + 1) r) else []) ++ row_warnings path (line + 1) (bad + 1) t
      else row_warnings path (line + 1) bad t
  end.
Definition count_bad (rs : list bytes) : Z := zlen (List.filter bad_row rs).
Definition book_warnings (path : bytes) (rs : list bytes) : bytes :=
  row_warnings path 0 0 rs ++ (if count_bad rs =? 0 then [] else concat (total_warning path (count_bad rs))).

(** ** What is recorded *)

(** The kind of the source that a role is recorded for. *)
Definition source_role (r : bytes) : option jf_source_kind :=
  if streq r (str "input.filters") then Some JF_FILTERS
  else if streq r (str "input.aliases") then Some JF_ALIASES
  else if streq r (str "input.account") then Some JF_ACCOUNT
  else if streq r (str "export.whitelist") then Some JF_KNOWN
  else if streq r (str "export.blacklist") then Some JF_BLACKLIST else None.
Definition is_source (d : jf_dependency) : bool := match source_role (role d) with Some _ => true | None => false end.

Lemma link_role r : source_role (str "link." ++ r) = None.
Proof. unfold source_role, str. cbn. reflexivity. Qed.

(** The digest of what is absent is zero. *)
Definition blank (d : jf_dependency) : Prop := present d = false -> digest d = replicate 32 0.

Record grows (ds : list jf_dependency) (xs : list jf_source) (a b : jf_snapshot) : Prop := Grows {
  gr_dependencies : dependencies b = dependencies a ++ ds;
  gr_sources : sources b = sources a ++ xs;
  gr_profile : sn_profile b = sn_profile a;
  gr_overrides : overrides b = overrides a }.

Lemma grows_same a b : dependencies b = dependencies a -> sources b = sources a -> sn_profile b = sn_profile a ->
  overrides b = overrides a -> grows [] [] a b.
Proof. intros. split; now rewrite ?app_nil_r. Qed.

Lemma grows_trans ds1 xs1 ds2 xs2 a b c : grows ds1 xs1 a b -> grows ds2 xs2 b c -> grows (ds1 ++ ds2) (xs1 ++ xs2) a c.
Proof. intros [H1 H2 H3 H4] [H5 H6 H7 H8]. split; [now rewrite H5, H1, app_assoc|now rewrite H6, H2, app_assoc|congruence..]. Qed.

Section Facts.
Context `{KN : Kernel} `{HP : Heap} `{PT : Paths} `{RX : PosixRegex} (fuel : nat).
Context (root accounts : bytes) (external : bool).

(** The path and the identity of a source. *)
Definition named (x : jf_source) : Prop :=
  match s_kind x with
  | JF_FILTERS => path x = root ++ str "/" ++ str "Filters.txt" /\ identity x = str "Filters.txt"
  | JF_ALIASES => path x = root ++ str "/" ++ str "Aliases.txt" /\ identity x = str "Aliases.txt"
  | JF_KNOWN => path x = root ++ str "/" ++ str "whitelist.abook" /\ identity x = str "whitelist.abook"
  | JF_BLACKLIST => path x = root ++ str "/" ++ str "blacklist.abook" /\ identity x = str "blacklist.abook"
  | JF_ACCOUNT => exists rel, path x = accounts ++ str "/" ++ rel /\ identity x = account_identity rel external
  end.

(** A source and the dependency recorded for it: the digest of its bytes, or the
    rows of the export that the dependency holds. *)
Definition bound (x : jf_source) (d : jf_dependency) : Prop :=
  source_role (role d) = Some (s_kind x) /\ d_path d = path x /\ named x /\
  match s_kind x with
  | JF_KNOWN | JF_BLACKLIST => data x = kept (rows (auxiliary d))
  | _ => present d = true /\ digest d = digest_of (data x) \/ present d = false /\ data x = []
  end.

Definition covers (ds : list jf_dependency) (xs : list jf_source) : Prop :=
  Forall2 bound xs (List.filter is_source ds) /\ Forall blank ds.

Definition collects (a b : jf_snapshot) : Prop := exists ds xs, grows ds xs a b /\ covers ds xs.

Lemma covers_app ds1 xs1 ds2 xs2 : covers ds1 xs1 -> covers ds2 xs2 -> covers (ds1 ++ ds2) (xs1 ++ xs2).
Proof.
  intros [H1 H2] [H3 H4]. split; [|now apply Forall_app]. rewrite List.filter_app. now apply Forall2_app.
Qed.

Lemma collects_same a b : grows [] [] a b -> collects a b.
Proof. intros H. exists [], []. split; [exact H|]. split; constructor. Qed.

Lemma collects_trans a b c : collects a b -> collects b c -> collects a c.
Proof.
  intros (ds1 & xs1 & G1 & C1) (ds2 & xs2 & G2 & C2). exists (ds1 ++ ds2), (xs1 ++ xs2).
  split; [now apply (grows_trans _ _ _ _ _ b)|now apply covers_app].
Qed.

Lemma blank_new r p v aux : blank (new_dependency r p v aux).
Proof. intros H. now destruct v. Qed.

(** A record for no source. *)
Lemma collects_dep r p v aux a b : source_role r = None -> grows [new_dependency r p v aux] [] a b -> collects a b.
Proof.
  intros Hr G. eexists _, _. split; [exact G|]. split.
  - unfold is_source. cbn. rewrite Hr. constructor.
  - constructor; [apply blank_new|constructor].
Qed.

(** A record and its source. *)
Lemma collects_source a b c d x : bound x d -> blank d -> grows [d] [] a b -> grows [] [x] b c -> collects a c.
Proof.
  intros B W G1 G2. exists [d], [x]. split; [exact (grows_trans _ _ _ _ _ _ _ G1 G2)|].
  split; [|constructor; [exact W|constructor]]. cbn. unfold is_source. pose proof B as (-> & _).
  constructor; [exact B|constructor].
Qed.

(** ** Calls *)

Lemma quiet_answered {A} s (f : nat -> errno + A) (Q : errno + A -> Prop) :
  (forall t, Q (inl (errno_of t))) -> (forall n, Q (f n)) -> quiet s (answered f) Q.
Proof. intros H1 H2 w Hw. unfold answered. apply (quiet_query s); auto. Qed.

Lemma quiet_any {A} s (f : nat -> errno + A) : quiet s (answered f) (fun _ => True).
Proof. now apply quiet_answered. Qed.

Lemma quiet_strdup s x : quiet s (strdup x) (fun r => match r with Some y => y = x | None => True end).
Proof. eapply hoare_step; [apply quiet_malloc|reflexivity|]. intros [] _; now apply hoare_ret. Qed.

Lemma quiet_join s a b : quiet s (join a b) (fun r => match r with Some y => y = a ++ str "/" ++ b | None => True end).
Proof. apply quiet_strdup. Qed.

Lemma quiet_add_pieces s l : forall b, quiet s (add_pieces l b) (fun r =>
  match r with Some b' => contents b' = contents b ++ concat l | None => True end).
Proof.
  induction l as [|d l IH]; intros b; cbn [add_pieces]; [apply hoare_ret; [reflexivity|now rewrite app_nil_r]|].
  eapply hoare_step; [apply quiet_add_limit|reflexivity|]. intros [b1|] H1; [|now apply hoare_ret].
  eapply hoare_quiet; [apply IH|reflexivity|]. intros [b2|]; [|trivial]. intros ->. cbn [concat]. now rewrite H1, app_assoc.
Qed.

Lemma quiet_plainly s : quiet s plainly (fun _ => True).
Proof. apply hoare_ok. now apply quiet_query. Qed.

Lemma quiet_product_error s code detail : quiet s (product_error code detail) (fun _ => True).
Proof.
  unfold product_error. destruct (jf_product_error _ _ _); [now apply hoare_ret|].
  eapply hoare_step; [apply quiet_report|reflexivity|]. intros. now apply hoare_ret.
Qed.

Lemma quiet_clear_error s : quiet s clear_error (fun _ => True).
Proof. intros w <-. now cbn. Qed.

(** ** Records *)

Lemma ends_diagnostic s p x : ends s (diagnostic p) x (fun _ y => grows [] [] x y).
Proof.
  apply ends_bind, ends_lift. eapply hoare_quiet; [apply quiet_strdup|reflexivity|]. intros [q|] _.
  - apply ends_bind, ends_change, ends_ret. now apply grows_same.
  - apply ends_ret. now apply grows_same.
Qed.

Lemma ends_dep s r p v aux x : ends s (dep r p v aux) x (fun rc y => rc = 0 -> grows [new_dependency r p v aux] [] x y).
Proof.
  apply ends_bind, ends_ask. destruct (_ =? _); [now apply ends_ret|].
  apply ends_bind, ends_lift. eapply hoare_quiet; [apply quiet_malloc|reflexivity|]. intros g _. destruct (negb g); [now apply ends_ret|].
  apply ends_bind, ends_lift. eapply hoare_quiet; [apply quiet_malloc|reflexivity|]. intros a _.
  apply ends_bind, ends_lift. eapply hoare_quiet; [apply quiet_malloc|reflexivity|]. intros b _.
  destruct (_ || _); [now apply ends_ret|].
  apply ends_bind, ends_lift. eapply hoare_quiet; [apply quiet_add_limit|reflexivity|]. intros [z|] Hz; [|now apply ends_ret].
  cbn in Hz. apply ends_bind, ends_change, ends_ret. intros _. rewrite Hz. split; cbn; now rewrite ?app_nil_r.
Qed.

Lemma ends_record s r p v aux x : source_role r = None -> ends s (dep r p v aux) x (fun rc y => rc = 0 -> collects x y).
Proof. intros H. eapply ends_mono; [apply ends_dep|]. intros rc y G E. eapply collects_dep; [exact H|auto]. Qed.

Lemma ends_add_source s k i p b x : ends s (add_source k i p b) x (fun rc y => rc = 0 ->
  grows [] [MkSource k i p (contents b)] x y /\ warnings y = warnings x).
Proof.
  apply ends_bind, ends_ask. destruct (_ =? _); [now apply ends_ret|].
  apply ends_bind, ends_lift. eapply hoare_quiet; [apply quiet_malloc|reflexivity|]. intros g _. destruct (negb g); [now apply ends_ret|].
  apply ends_bind, ends_lift. eapply hoare_quiet; [apply quiet_malloc|reflexivity|]. intros a _.
  apply ends_bind, ends_lift. eapply hoare_quiet; [apply quiet_malloc|reflexivity|]. intros c _.
  apply ends_bind, ends_change, ends_ret. intros _. split; [split; cbn; now rewrite ?app_nil_r|reflexivity].
Qed.

(** Only the warnings change, by some text. *)
Definition warned (text : bytes) (x y : jf_snapshot) : Prop :=
  exists w, y = set_warnings w x /\ contents w = contents (warnings x) ++ text.

Lemma warned_none x : warned [] x x.
Proof. exists (warnings x). rewrite app_nil_r. split; [now destruct x|reflexivity]. Qed.

Lemma warned_trans t1 t2 x y z : warned t1 x y -> warned t2 y z -> warned (t1 ++ t2) x z.
Proof.
  intros (w1 & -> & H1) (w2 & -> & H2). exists w2. split; [reflexivity|]. rewrite H2. cbn. now rewrite H1, app_assoc.
Qed.

Lemma warned_grows t x y : warned t x y -> grows [] [] x y.
Proof. intros (w & -> & _). now apply grows_same. Qed.

Lemma ends_warn s l x : ends s (warn l) x (fun b y => b = true -> warned (concat l) x y).
Proof.
  apply ends_bind, ends_ask, ends_bind, ends_lift. eapply hoare_quiet; [apply quiet_add_pieces|reflexivity|].
  intros [w|] H; [|now apply ends_ret]. apply ends_bind, ends_change, ends_ret. intros _. now exists w.
Qed.

Lemma rows_end p line bad valid x : let rs := map trim_row [] in
  contents valid = contents valid ++ kept rs /\ bad = bad + count_bad rs /\ warned (row_warnings p line bad rs) x x.
Proof.
  cbn [map row_warnings]. change (kept []) with (@nil Z). change (count_bad []) with 0. rewrite app_nil_r.
  split_and!; [reflexivity|lia|apply warned_none].
Qed.

(** The loop over the rows. *)
Lemma ends_contact_rows s p n : forall d line bad valid x, ends s (contact_rows n p d line bad valid) x (fun r y =>
  match r with
  | Some (v, b) => let rs := map trim_row (lines_of n d) in
      contents v = contents valid ++ kept rs /\ b = bad + count_bad rs /\ warned (row_warnings p line bad rs) x y
  | None => True
  end).
Proof.
  induction n as [|n IH]; intros d line bad valid x.
  { now apply ends_ret, rows_end. }
  destruct d as [|c d]; [now apply ends_ret, rows_end|].
  cbn [contact_rows lines_of]. destruct (next_line (c :: d)) as [l rest]. cbn [map row_warnings]. set (row := trim_row l).
  assert (Step : forall pieces bad' x' text, bad_row row = (bad' =? bad + 1) -> bad' = bad \/ bad' = bad + 1 ->
    concat pieces = keep_row row ++ [LF] -> warned text x x' ->
    ends s (v ← lift (add_pieces pieces valid);
            match v with Some valid => contact_rows n p rest (line + 1) bad' valid | None => mret None end) x'
      (fun r y => match r with
       | Some (v, b) => contents v = contents valid ++ kept (row :: map trim_row (lines_of n rest)) /\
           b = bad + count_bad (row :: map trim_row (lines_of n rest)) /\
           warned (text ++ row_warnings p (line + 1) bad' (map trim_row (lines_of n rest))) x y
       | None => True end)).
  { intros pieces bad' x' text Hb Hor Hp Hw. apply ends_bind, ends_lift. eapply hoare_quiet; [apply quiet_add_pieces|reflexivity|].
    intros [v|] Hv; [|now apply ends_ret]. eapply ends_mono; [apply IH|]. intros [[v' b']|] y; [|trivial].
    intros (H1 & H2 & H3). split_and!.
    - rewrite H1, Hv, Hp. unfold kept. cbn [map concat]. now rewrite <- !app_assoc.
    - rewrite H2. unfold count_bad. cbn [List.filter]. rewrite Hb. destruct Hor as [-> | ->].
      + replace (bad =? bad + 1) with false by lia. lia.
      + rewrite Z.eqb_refl. unfold zlen. cbn [length]. lia.
    - eapply warned_trans; eassumption. }
  destruct (length row =? 0)%nat eqn:El.
  - assert (Hbad : bad_row row = false) by (unfold bad_row; now rewrite El). rewrite Hbad. cbv zeta.
    apply (Step [[LF]] bad x []); [rewrite Hbad; lia|now left| |apply warned_none].
    unfold keep_row. rewrite Hbad. apply Nat.eqb_eq in El. now rewrite (nil_length_inv _ El).
  - apply ends_bind, ends_lift. eapply hoare_quiet; [apply quiet_malloc|reflexivity|]. intros cp _. destruct (negb cp); [now apply ends_ret|].
    destruct (acceptable row) eqn:Ea.
    + assert (Hbad : bad_row row = false) by (unfold bad_row; now rewrite Ea, andb_false_r). rewrite Hbad. cbv zeta.
      apply (Step [row; [LF]] bad x []); [rewrite Hbad; lia|now left| |apply warned_none]. unfold keep_row. now rewrite Hbad.
    + assert (Hbad : bad_row row = true) by (unfold bad_row; now rewrite Ea, El). rewrite Hbad. cbv zeta.
      set (text := if bad + 1 <=? 8 then _ else []).
      apply ends_bind. eapply ends_mono with (Q := fun b y => b = true -> warned text x y).
      { unfold text. destruct (bad + 1 <=? 8); [apply ends_warn|apply ends_ret; intros _; apply warned_none]. }
      intros told y Ht. destruct told; cbn [negb]; [|now apply ends_ret].
      apply Step; [rewrite Hbad; lia|now right| |now apply Ht]. unfold keep_row. now rewrite Hbad.
Qed.

(** The source of a book: a line for each row, the bad ones empty and warned of. *)
Lemma ends_contact_source s k book p d x : ends s (contact_source k book p d) x (fun rc y => rc = 0 ->
  exists z, warned (book_warnings p (rows d)) x z /\ grows [] [MkSource k book p (kept (rows d))] z y /\ warnings y = warnings z).
Proof.
  apply ends_bind. eapply ends_mono; [apply ends_contact_rows|]. intros [[v bad]|] y; [|now intros; apply ends_ret].
  cbv zeta. fold (rows d). cbn [contents no_bytes app]. intros (Hv & Hb & Hw). rewrite Z.add_0_l in Hb. subst bad.
  apply ends_bind. eapply ends_mono with (Q := fun b z => b = true -> warned (book_warnings p (rows d)) x z).
  { unfold book_warnings. destruct (count_bad (rows d) =? 0) eqn:E; [apply ends_ret; intros _; now rewrite app_nil_r|].
    eapply ends_mono; [apply ends_warn|]. intros b z H E'. eapply warned_trans; eauto. }
  intros told z Hz. destruct told; cbn [negb]; [|now apply ends_ret].
  eapply ends_mono; [apply ends_add_source|]. intros rc z' G E. exists z. rewrite <- Hv. split; [now apply Hz|now apply G].
Qed.

(** ** Inputs *)

Lemma quiet_readfd s n (from : nat -> nat -> errno + bytes) : forall b, quiet s (readfd n from b) (fun _ => True).
Proof.
  induction n as [|n IH]; intros b; cbn [readfd]; [now apply hoare_cut|].
  eapply hoare_step; [apply quiet_any|reflexivity|]. intros [[]|[|c d]] _; try (now apply hoare_ret); [apply IH|].
  destruct (_ <? _); [now apply hoare_ret|]. eapply hoare_step; [apply quiet_add_limit|reflexivity|].
  intros [b'|] _; [apply IH|now apply hoare_ret].
Qed.

Lemma ends_link_dep s r p x : ends s (link_dep r p) x (fun rc y => rc = 0 -> collects x y).
Proof.
  assert (R : collects x x) by (now apply collects_same, grows_same).
  apply ends_bind, ends_lift. eapply hoare_quiet; [apply quiet_any|reflexivity|]. intros k _.
  destruct k as [e|[]]; [destruct e|..]; try (now apply ends_ret).
  apply ends_bind, ends_lift. eapply hoare_quiet with (Q0 := fun _ => True); [|reflexivity|].
  { eapply hoare_step; [apply quiet_any|reflexivity|]. intros. now apply hoare_ret. }
  intros [e|t] _; [now apply ends_ret|]. destruct (_ =? _); [now apply ends_ret|].
  apply ends_bind, ends_lift. eapply hoare_quiet; [apply quiet_strdup|reflexivity|]. intros [name|] Hn; [|now apply ends_ret].
  subst name. apply ends_record, link_role.
Qed.

Lemma ends_read_input s p x : ends s (read_input fuel p) x (fun r y => grows [] [] x y).
Proof.
  assert (R : grows [] [] x x) by now apply grows_same.
  apply ends_bind, ends_lift. eapply hoare_quiet; [apply quiet_any|reflexivity|]. intros f _.
  apply ends_bind. eapply ends_mono with (Q := fun _ y => y = x).
  { destruct f as [e|f]; [now apply ends_ret|]. destruct (bool_decide _); [|now apply ends_ret].
    apply ends_lift. eapply hoare_quiet; [apply quiet_readfd|reflexivity|auto]. }
  intros [rc b] y ->. destruct (negb _); [now apply ends_ret|].
  apply ends_bind, ends_lift. eapply hoare_quiet; [apply quiet_any|reflexivity|]. intros f' _.
  match goal with |- ends _ (if ?b then _ else _) _ _ => destruct b end; [now apply ends_ret|].
  apply ends_bind, ends_change, ends_ret. now apply grows_same.
Qed.

(** A failure ends with a status that is not 0. *)
Ltac fails := apply ends_ret; cbn; discriminate.

(** An input that was read: its record, after that of a link. *)
Definition was_read (r p : bytes) (d : bytes) (x y : jf_snapshot) : Prop :=
  exists z v, collects x z /\ grows [new_dependency r p v []] [] z y /\ (v = Some d \/ v = None /\ d = []).

Lemma ends_input s r p required x : ends s (input fuel r p required) x (fun o y => o.1 = 0 -> was_read r p (contents o.2) x y).
Proof.
  apply ends_bind. eapply ends_mono; [apply ends_diagnostic|]. intros e y G0. apply collects_same in G0.
  destruct (negb _); [fails|]. apply ends_bind, ends_ask.
  destruct (List.find _ _) as [[op d]|].
  { apply ends_bind, ends_lift. eapply hoare_quiet; [apply quiet_add_limit|reflexivity|]. intros [b|] Hb; [|fails].
    cbn in Hb. subst d. apply ends_bind. eapply ends_mono; [apply ends_dep|]. intros rc z G. apply ends_ret. cbn. intros E. eexists y, _. split; [exact G0|]. split; [exact (G E)|now left]. }
  apply ends_bind. eapply ends_mono; [apply ends_link_dep|]. intros rl z G1.
  destruct (Z.eqb_spec rl 0) as [El|]; [|fails]. specialize (G1 El). cbn [negb].
  assert (G2 : collects x z) by (eapply collects_trans; eassumption). clear G0 G1.
  apply ends_bind, ends_lift. eapply hoare_quiet; [apply quiet_any|reflexivity|]. intros fd _. destruct fd as [er|u].
  - destruct er; try fails. destruct (streq r _); [apply ends_bind, ends_change; fails|].
    destruct required; [fails|]. apply ends_bind, ends_lift. eapply hoare_quiet; [apply quiet_any|reflexivity|].
    intros [er|k] _; [destruct er|]; try fails.
    apply ends_bind. eapply ends_mono; [apply ends_dep|]. intros rc z' G. apply ends_ret. cbn. intros E. eexists z, _. split; [exact G2|]. split; [exact (G E)|now right].
  - apply ends_bind. eapply ends_mono; [apply ends_read_input|]. intros [rc b] z' G3. apply collects_same in G3.
    apply ends_bind, ends_lift. eapply hoare_quiet; [apply quiet_close|reflexivity|]. intros c _. cbv zeta.
    set (rc' := if negb c && _ then _ else _). destruct (Z.eqb_spec rc' 0) as [E|E]; cbn [negb]; [|now apply ends_ret; cbn; intros E'; destruct E].
    apply ends_bind. eapply ends_mono; [apply ends_dep|]. intros rd z'' G. apply ends_ret. cbn. intros E'.
    eexists z', _. split; [eapply collects_trans; eassumption|]. split; [exact (G E')|now left].
Qed.

Lemma read_source r p d k i x y z : was_read r p d x y -> source_role r = Some k ->
  match k with JF_KNOWN | JF_BLACKLIST => False | _ => True end ->
  named (MkSource k i p d) -> grows [] [MkSource k i p d] y z -> collects x z.
Proof.
  intros (w & v & C & G & V) Hr Hk N G'. eapply collects_trans; [exact C|].
  eapply collects_source; [|apply blank_new|exact G|exact G']. split; [exact Hr|]. split; [reflexivity|]. split; [exact N|].
  destruct k; try easy; cbn; destruct V as [-> | [-> ->]]; auto.
Qed.

Lemma read_other r p d x y : was_read r p d x y -> source_role r = None -> collects x y.
Proof. intros (w & v & C & G & _) H. eapply collects_trans; [exact C|]. eapply collects_dep; [exact H|exact G]. Qed.

(** ** Accounts *)

Lemma quiet_read_names s n dir : forall i names, quiet s (read_names n dir i names) (fun _ => True).
Proof.
  induction n as [|n IH]; intros i names; cbn [read_names]; [now apply hoare_cut|].
  eapply hoare_step; [apply quiet_any|reflexivity|]. intros [e|[name|]] _; try (now apply hoare_ret).
  destruct (_ || _); [apply IH|]. destruct (_ =? _); [now apply hoare_ret|].
  eapply hoare_step; [apply quiet_malloc|reflexivity|]. intros g _. destruct (negb g); [now apply hoare_ret|].
  eapply hoare_step; [apply quiet_strdup|reflexivity|]. intros [c|] _; [apply IH|now apply hoare_ret].
Qed.

Lemma ends_walk_item s (walk : bytes -> jf_bytes -> snap (Z * jf_bytes)) relative name inv x :
  (forall rel inv x, ends s (walk rel inv) x (fun o y => o.1 = 0 -> collects x y)) ->
  ends s (walk_item fuel walk accounts relative external name inv) x (fun o y => o.1 = 0 -> collects x y).
Proof.
  intros W. apply ends_bind, ends_lift. eapply hoare_quiet with (Q0 := fun _ => True); [|reflexivity|].
  { unfold under. destruct (streq _ _); (eapply hoare_mono; [apply quiet_strdup|auto|auto]). }
  intros [rel|] _; [|fails]. apply ends_bind, ends_lift. eapply hoare_quiet; [apply quiet_join|reflexivity|]. intros p Hp.
  apply ends_bind, ends_lift. eapply hoare_quiet; [apply quiet_strdup|reflexivity|]. intros i Hi.
  destruct p as [p|]; [|fails]. destruct i as [i|]; [|fails]. subst p i.
  assert (N : forall d, named (MkSource JF_ACCOUNT (account_identity rel external) (accounts ++ str "/" ++ rel) d)) by (intros d; now exists rel).
  apply ends_bind, ends_lift. eapply hoare_quiet; [apply quiet_any|reflexivity|]. intros k _.
  assert (F : forall k, ends s (st ← lift (stat (accounts ++ str "/" ++ rel));
      match st with
      | inr Regular =>
          i ← lift (inventory_item rel (if bool_decide (k = SymbolicLink) then ch "l" else ch "f") inv);
          match i with
          | None => mret (3, inv)
          | Some inventory =>
              '(er, b) ← input fuel (str "input.account") (accounts ++ str "/" ++ rel) true;
              if negb (er =? 0) then mret (er, inventory)
              else er ← add_source JF_ACCOUNT (account_identity rel external) (accounts ++ str "/" ++ rel) b; mret (er, inventory)
          end
      | _ => mret (3, inv)
      end) x (fun o y => o.1 = 0 -> collects x y)).
  { intros k0. apply ends_bind, ends_lift. eapply hoare_quiet; [apply quiet_any|reflexivity|]. intros [e|[]] _; try fails.
    apply ends_bind, ends_lift. eapply hoare_quiet; [apply quiet_add_pieces|reflexivity|]. intros [inv'|] _; [|fails].
    apply ends_bind. eapply ends_mono; [apply ends_input|]. intros [er b] y Hy. cbn [fst snd] in Hy.
    destruct (Z.eqb_spec er 0) as [E|E]; cbn [negb]; [|now apply ends_ret; cbn; intros E'; destruct E].
    apply ends_bind. eapply ends_mono; [apply ends_add_source|]. intros er' z G. apply ends_ret. cbn. intros E'.
    eapply read_source; [exact (Hy E)|reflexivity|exact I|apply N|exact (proj1 (G E'))]. }
  destruct k as [e|[]]; [|apply F| |apply F|apply F].
  - apply ends_bind. eapply ends_mono with (Q := fun _ _ => True); [|intros; fails]. destruct (bool_decide _); [now apply ends_change|now apply ends_ret].
  - apply ends_bind, ends_lift. eapply hoare_quiet; [apply quiet_add_pieces|reflexivity|]. intros [inv'|] _; [apply W|fails].
Qed.

Lemma ends_walk_items s (walk : bytes -> jf_bytes -> snap (Z * jf_bytes)) relative names :
  (forall rel inv x, ends s (walk rel inv) x (fun o y => o.1 = 0 -> collects x y)) ->
  forall inv x, ends s (walk_items fuel walk accounts relative external names inv) x (fun o y => o.1 = 0 -> collects x y).
Proof.
  intros W. induction names as [|name t IH]; intros inv x; cbn [walk_items]; [apply ends_ret; intros _; now apply collects_same, grows_same|].
  apply ends_bind. eapply ends_mono; [now apply ends_walk_item|]. intros [er inv'] y Hy. cbn [fst] in Hy.
  destruct (Z.eqb_spec er 0) as [E|]; [|fails]. eapply ends_mono; [apply IH|]. intros o z Hz Eo.
  eapply collects_trans; [exact (Hy E)|exact (Hz Eo)].
Qed.

Lemma ends_accounts_walk s depth : forall relative inv x,
  ends s (accounts_walk fuel depth accounts external relative inv) x (fun o y => o.1 = 0 -> collects x y).
Proof.
  induction depth as [|depth IH]; intros relative inv x; cbn [accounts_walk]; apply ends_bind, ends_lift;
    (eapply hoare_quiet with (Q0 := fun _ => True); [destruct (streq _ _); (eapply hoare_mono; [apply quiet_strdup|auto|auto])|reflexivity|]);
    intros p _; [fails|]. destruct p as [p|]; [|fails].
  apply ends_bind, ends_lift. eapply hoare_quiet; [apply quiet_any|reflexivity|]. intros [e|u] _.
  - apply ends_bind. eapply ends_mono with (Q := fun _ _ => True); [|intros; fails]. destruct (bool_decide _); [now apply ends_change|now apply ends_ret].
  - apply ends_bind, ends_lift. eapply hoare_quiet; [apply quiet_read_names|reflexivity|]. intros names _.
    apply ends_bind, ends_lift. eapply hoare_quiet; [apply quiet_close|reflexivity|]. intros c _.
    destruct names as [names|]; [|fails]. destruct (negb c); [fails|]. now apply ends_walk_items.
Qed.

(** ** The exporter *)

Lemma quiet_search_path s dirs name : quiet s (search_path dirs name) (fun _ => True).
Proof.
  induction dirs as [|dir t IH]; cbn [search_path]; [now apply hoare_ret|].
  eapply hoare_step; [apply quiet_strdup|reflexivity|]. intros [d|] _; [|now apply hoare_ret].
  eapply hoare_step; [apply quiet_join|reflexivity|]. intros [p|] _; [|now apply hoare_ret].
  eapply hoare_step; [apply quiet_any|reflexivity|]. intros [e|u] _; [apply IH|now apply hoare_ret].
Qed.

Lemma quiet_executable s name : quiet s (executable name) (fun _ => True).
Proof. unfold executable. destruct (mem _ _); [eapply quiet_true, quiet_strdup|apply quiet_search_path]. Qed.

Lemma quiet_all_plainly s n : quiet s (all_plainly n) (fun _ => True).
Proof.
  induction n as [|n IH]; cbn [all_plainly]; [now apply hoare_ret|].
  eapply hoare_step; [apply quiet_plainly|reflexivity|]. intros [] _; [exact IH|now apply hoare_ret].
Qed.

Lemma quiet_write_book s n : forall d, quiet s (write_book n d) (fun _ => True).
Proof.
  induction n as [|n IH]; intros d; cbn [write_book]; [now apply hoare_cut|]. destruct d as [|c d]; [now apply hoare_ret|].
  eapply hoare_step; [apply quiet_any|reflexivity|]. intros [[]|[|m]] _; try (now apply hoare_ret); apply IH.
Qed.

Lemma quiet_wait_child s n e r : quiet s (wait_child n e r) (fun _ => True).
Proof.
  induction n as [|n IH]; cbn [wait_child]; [now apply hoare_cut|].
  eapply hoare_step; [apply quiet_any|reflexivity|]. intros [[]|c] _; try (now apply hoare_ret). exact IH.
Qed.

Lemma quiet_columns s n : forall d out, quiet s (columns n d out) (fun _ => True).
Proof.
  induction n as [|n IH]; intros d out; cbn [columns]; [now apply hoare_ret|]. destruct d as [|c d]; [now apply hoare_ret|].
  destruct (next_line _) as [l rest]. cbv zeta. destruct (_ =? 0)%nat; [apply IH|]. destruct (negb _); [now apply hoare_ret|].
  eapply hoare_step; [apply quiet_add_pieces|reflexivity|]. intros [b|] _; [apply IH|now apply hoare_ret].
Qed.

Lemma quiet_run_exporter s e r : quiet s (run_exporter fuel e r) (fun _ => True).
Proof.
  eapply hoare_step; [apply quiet_all_plainly|reflexivity|]. intros f _. destruct (negb f); [now apply hoare_ret|].
  eapply hoare_step; [apply quiet_close|reflexivity|]. intros _ _.
  eapply hoare_step; [apply quiet_readfd|reflexivity|]. intros [rc b] _.
  eapply hoare_step; [apply quiet_close|reflexivity|]. intros _ _.
  eapply hoare_step; [apply quiet_wait_child|reflexivity|]. intros c _. now apply hoare_ret.
Qed.

Lemma quiet_export_book s e r : quiet s (export_book fuel e r) (fun _ => True).
Proof.
  unfold export_book. destruct (empty_book r); [now apply hoare_ret|].
  eapply hoare_step; [apply quiet_join|reflexivity|]. intros name _.
  eapply hoare_step with (Q0 := fun _ => True); [destruct name; [apply quiet_plainly|now apply hoare_ret]|reflexivity|]. intros fd _.
  destruct (negb fd); [now apply hoare_ret|]. eapply hoare_step; [apply quiet_plainly|reflexivity|]. intros u _.
  eapply hoare_step with (Q0 := fun _ => True); [destruct u; [apply quiet_write_book|now apply hoare_ret]|reflexivity|]. intros w _.
  eapply hoare_step with (Q0 := fun _ => True); [destruct w; [apply quiet_run_exporter|now apply hoare_ret]|reflexivity|]. intros p _.
  eapply hoare_step with (Q0 := fun _ => True); [destruct p; [apply quiet_columns|now apply hoare_ret]|reflexivity|]. intros o _.
  eapply hoare_step; [apply quiet_close|reflexivity|]. intros _ _. now apply hoare_ret.
Qed.

(** ** The collection *)

Lemma runs_collects {L A B} s (m : jumping jf_snapshot L A) (f : A -> jumping jf_snapshot L B) x :
  runs s m x (fun _ y => collects x y) -> (forall a y, runs s (f a) y (fun _ z => collects y z)) ->
  runs s (m ≫= f) x (fun _ z => collects x z).
Proof.
  intros H1 H2. apply runs_bind. eapply runs_mono; [exact H1|]. intros a y C. eapply runs_mono; [apply H2|].
  intros b z C'. exact (collects_trans _ _ _ C C').
Qed.

Lemma runs_configs s l x : Forall (fun c => source_role c.1 = None) l -> runs s (configs l) x (fun _ y => collects x y).
Proof.
  intros H. revert x. induction H as [|[r v] l Hr _ IH]; intros x; cbn [configs]; [now apply runs_ret, collects_same, grows_same|].
  apply runs_collects; [|intros _ y; apply IH]. apply runs_must. now apply ends_record.
Qed.

Lemma runs_read_in s r p required x : runs s (read_in fuel r p required) x (fun b y => was_read r p (contents b) x y).
Proof.
  apply runs_bind, runs_run. eapply ends_mono; [apply ends_input|]. intros [rc b] y H. cbn [fst snd] in H.
  destruct (Z.eqb_spec rc 0) as [E|]; [apply runs_ret; auto|apply runs_goto].
Qed.

Lemma runs_policy_file s name r required k x : source_role r = Some k ->
  match k with JF_KNOWN | JF_BLACKLIST => False | _ => True end ->
  (forall d, named (MkSource k name (root ++ str "/" ++ name) d)) ->
  runs s (policy_file fuel root name r required k) x (fun _ y => collects x y).
Proof.
  intros Hr Hk N. apply runs_bind, runs_need, ends_lift. eapply hoare_quiet; [apply quiet_join|reflexivity|].
  intros [p|] Hp; [|trivial]. subst p. apply runs_bind. eapply runs_mono; [apply runs_read_in|]. intros b y Hy.
  apply runs_must. eapply ends_mono; [apply ends_add_source|]. intros rc z G E.
  eapply read_source; [exact Hy|exact Hr|exact Hk|apply N|exact (proj1 (G E))].
Qed.

Lemma runs_accounts s x : runs s (collect_accounts fuel accounts external) x (fun _ y => collects x y).
Proof.
  apply runs_collects; [apply runs_must; eapply ends_mono; [apply ends_diagnostic|]; intros; now apply collects_same|]. intros _ y1.
  apply runs_collects; [apply runs_must, ends_link_dep|]. intros _ y2.
  apply runs_bind, runs_run, ends_lift. eapply hoare_quiet; [apply quiet_any|reflexivity|].
  intros [[]|[]] _; try apply runs_goto; [apply runs_must; now apply ends_record|].
  apply runs_bind, runs_run. eapply ends_mono; [apply ends_accounts_walk|]. intros [rc b] y3 H. cbn [fst] in H.
  destruct (Z.eqb_spec rc 0) as [E|]; [|apply runs_goto]. cbn [negb]. apply runs_must.
  eapply ends_mono; [now apply ends_record|]. intros rc' z H' E'. eapply collects_trans; [exact (H E)|exact (H' E')].
Qed.

(** A profile parsed from recorded bytes. *)
Definition parsed_profile (sn : jf_snapshot) : Prop :=
  exists d h h', jf_profile_parse d h = Ok (sn_profile sn, h') /\
    new_dependency (str "config.profile") [] (Some d) d ∈ dependencies sn.

Definition covered (sn : jf_snapshot) : Prop := covers (dependencies sn) (sources sn).

Lemma collects_covered a b : collects a b -> covered a -> covered b.
Proof. unfold covered. intros (ds & xs & [-> -> _ _] & C) H. now apply covers_app. Qed.

Lemma collects_parsed a b : collects a b -> parsed_profile a -> parsed_profile b.
Proof.
  intros (ds & xs & [Ed _ Ep _] & _) (d & h & h' & H & I). exists d, h, h'. rewrite Ep, Ed. split; [exact H|].
  apply elem_of_app. now left.
Qed.

Lemma runs_profile s profile_arg x : covered x ->
  runs s (collect_profile fuel root profile_arg) x (fun _ y => covered y /\ parsed_profile y).
Proof.
  intros C. apply runs_bind, runs_need, ends_lift. eapply hoare_quiet with (Q0 := fun _ => True); [|reflexivity|].
  { destruct profile_arg; (eapply hoare_mono; [apply quiet_strdup|auto|auto]). }
  intros [p|] _; [|trivial]. apply runs_bind, runs_run, ends_change. set (x1 := set_profile_path (Some p) x). assert (C1 : covered x1) by exact C. clearbody x1.
  apply runs_bind. eapply runs_mono; [apply runs_read_in|]. intros b x2 H2.
  assert (C2 : covered x2) by (refine (collects_covered _ _ (read_other _ _ _ _ _ H2 _) C1); reflexivity).
  apply runs_bind. eapply runs_mono with (Q := fun _ y => covered y /\ exists h h', jf_profile_parse (contents b) h = Ok (sn_profile y, h')).
  { intros w <-. unfold parse_profile. destruct (jf_profile_parse (contents b) (heap w)) as [[pr h']|rc e] eqn:E; cbn;
      (split; [reflexivity|]); intros r [= <-]; cbn; [|exact I]. split; [exact C2|]. eauto. }
  intros _ x3 (C3 & h & h' & Hp). apply runs_bind, runs_must. eapply ends_mono; [apply ends_dep|]. intros rc x4 G E. specialize (G E).
  assert (P4 : parsed_profile x4).
  { exists (contents b), h, h'. destruct G as [Ed _ Ep _]. rewrite Ep, Ed. split; [exact Hp|]. apply elem_of_app. right. now apply list_elem_of_singleton. }
  assert (C4 : covered x4) by (eapply collects_covered; [eapply collects_dep; [|exact G]; reflexivity|exact C3]).
  apply runs_bind, runs_run, ends_ask. apply runs_bind. eapply runs_mono; [apply runs_configs; repeat constructor|]. intros u x5 C5.
  apply runs_bind, runs_need, ends_lift. eapply hoare_quiet; [apply quiet_add_pieces|reflexivity|]. intros [m|] _; [|trivial].
  apply runs_must. eapply ends_mono; [now apply ends_record|]. intros rc' x6 C6 E'. pose proof (collects_trans _ _ _ C5 (C6 E')) as C7.
  split; [exact (collects_covered _ _ C7 C4)|exact (collects_parsed _ _ C7 P4)].
Qed.

Lemma runs_read_other s r p required x : source_role r = None -> runs s (read_in fuel r p required) x (fun _ y => collects x y).
Proof. intros Hr. eapply runs_mono; [apply runs_read_in|]. cbv beta. intros b y H. exact (read_other _ _ _ _ _ H Hr). Qed.

Lemma runs_exporter s e x : runs s (need_exporter fuel e) x (fun _ y => collects x y).
Proof.
  destruct e as [e|]; [now apply runs_ret, collects_same, grows_same|].
  apply runs_bind, runs_need, ends_lift. eapply hoare_quiet; [apply quiet_executable|reflexivity|]. intros [e|] _; [|trivial].
  apply runs_collects; [now apply runs_read_other|]. intros b y. now apply runs_ret, collects_same, grows_same.
Qed.

Lemma runs_book s compiler prior book r export_role k e x : source_role r = None -> source_role export_role = Some k ->
  match k with JF_KNOWN | JF_BLACKLIST => True | _ => False end ->
  (forall d, named (MkSource k book (root ++ str "/" ++ book) d)) ->
  runs s (collect_book fuel root compiler prior book r export_role k e) x (fun _ y => collects x y).
Proof.
  intros Hr He Hk N. apply runs_bind, runs_need, ends_lift. eapply hoare_quiet; [apply quiet_join|reflexivity|].
  intros [p|] Hp; [|trivial]. subst p. apply runs_collects; [now apply runs_read_other|].
  intros b y1. apply runs_bind, runs_run, ends_ask. cbv zeta. set (here := match _ with Some d => present d | None => false end).
  apply runs_collects.
  { destruct here; [|now apply runs_ret, collects_same, grows_same].
    apply runs_collects; [apply runs_exporter|]. intros e' y2.
    apply runs_collects; [apply runs_must; eapply ends_mono; [apply ends_diagnostic|]; intros; now apply collects_same|]. intros _ y3.
    apply runs_bind, runs_run, ends_ask. apply runs_bind, runs_need, ends_lift. eapply hoare_quiet with (Q0 := fun _ => True); [|reflexivity|].
    - destruct (reusable_export _ _ _ _ _ _ _); [|apply quiet_export_book]. destruct (jf_snapshot_dependency _ _ _); [|apply quiet_export_book].
      eapply quiet_true, quiet_add_limit.
    - intros [z|] _; [|trivial]. now apply runs_ret, collects_same, grows_same. }
  intros [e' exported] y2. apply runs_bind, runs_must. eapply ends_mono; [apply ends_dep|]. intros rc y3 G E. specialize (G E).
  apply runs_bind, runs_must. eapply ends_mono; [apply ends_contact_source|]. intros rc' y5 H E'. destruct (H E') as (y4 & W & G' & _).
  apply runs_ret. eapply collects_source; [|apply blank_new|exact G|exact (grows_trans _ _ _ _ _ _ _ (warned_grows _ _ _ W) G')].
  split; [exact He|]. split; [reflexivity|]. split; [apply N|]. now destruct k.
Qed.
End Facts.

(** ** The lines of a source of contacts *)

Definition line_free (r : bytes) : Prop := forallb not_lf r = true.

Lemma trim_row_sub l : forallb not_lf l = true -> line_free (trim_row l).
Proof.
  unfold line_free, trim_row. rewrite !forallb_forall. intros H c Hc.
  assert (D : forall (p : Z -> bool) s, In c (drop_while p s) -> In c s).
  { intros p s. induction s as [|x s IH]; [auto|]. cbn. destruct (p x); [right; auto|auto]. }
  unfold trim_end in Hc. apply in_rev, D, in_rev, D in Hc. now apply H.
Qed.

Lemma next_line_free l rest : line_free l -> next_line (l ++ LF :: rest) = (l, rest).
Proof.
  unfold line_free, next_line. intros H. induction l as [|c l IH]; [reflexivity|]. cbn [forallb] in H. apply andb_true_iff in H as [Hc H].
  cbn [app take_while drop_while]. rewrite Hc. specialize (IH H). injection IH as E1 E2. now rewrite E1, E2.
Qed.

Lemma take_while_free s : line_free (take_while not_lf s).
Proof.
  unfold line_free. induction s as [|x s IH]; [reflexivity|]. cbn [take_while]. destruct (not_lf x) eqn:E; [|reflexivity].
  cbn [forallb]. now rewrite E.
Qed.

Lemma lines_free n : forall d, Forall line_free (lines_of n d).
Proof.
  induction n as [|n IH]; intros d; [constructor|]. destruct d as [|c d]; [constructor|]. cbn [lines_of].
  destruct (next_line (c :: d)) as [l rest] eqn:E. constructor; [|apply IH]. 
  assert (l = take_while not_lf (c :: d)) as -> by (unfold next_line in E; congruence). apply take_while_free.
Qed.

(** A text with a line feed after each row has those rows as its lines. *)
Lemma lines_kept rs : Forall line_free rs -> forall n, (length (kept rs) <= n)%nat -> lines_of n (kept rs) = map keep_row rs.
Proof.
  induction 1 as [|r rs Hr _ IH]; intros n Hn; [now destruct n|]. unfold kept in *. cbn [map concat] in *.
  assert (Hk : line_free (keep_row r)) by (unfold keep_row; now destruct (bad_row r)).
  rewrite <- app_assoc in *. cbn [app] in *. rewrite length_app in Hn. cbn [length] in Hn.
  destruct n as [|n]; [lia|]. destruct (keep_row r ++ LF :: concat (map (fun r => keep_row r ++ [LF]) rs)) as [|c t] eqn:E; [now destruct (keep_row r)|].
  cbn [lines_of]. rewrite <- E, next_line_free by exact Hk. f_equal. apply IH. lia.
Qed.

(** C31. The rows of an exported book keep their numbers.  A source of contacts that
    is added has one line for each line of the export, in order: the trimmed row
    when it is empty or a mailbox the policy can hold, and an empty line in its
    place otherwise; so the line that a policy error names is the row of the
    export.  The warnings gain exactly the text for the first eight bad rows, with
    their numbers, and the total. *)
Theorem exported_rows_kept `{HP : Heap} k book p d x w y w' :
  contact_source k book p d x w = (Some (0, y), w') ->
  st w' = st w /\ exists text, sources y = sources x ++ [MkSource k book p text] /\
    lines_of (length text) text = map (fun row => if bad_row row then [] else row) (rows d) /\
    contents (warnings y) = contents (warnings x) ++ book_warnings p (rows d).
Proof.
  intros H. destruct (ends_contact_source (HP := HP) (st w) k book p d x w eq_refl) as [Es Q]. rewrite H in Es, Q.
  destruct (Q _ eq_refl eq_refl) as (z & (v & -> & Hv) & [_ G _ _] & Ew). cbn [snd] in *. split; [now symmetry|]. exists (kept (rows d)).
  split; [exact G|]. split; [|rewrite Ew; exact Hv]. apply lines_kept; [|reflexivity].
  unfold rows. apply Forall_map. eapply Forall_impl; [apply lines_free|]. intros l. apply trim_row_sub.
Qed.

Lemma exported_rows_kept_witness : exists y w', let d := str "g@h.i" ++ [LF] ++ str "bad" ++ [LF] ++ str " j@k.l" ++ [CR; LF] in
  contact_source (HP := fun _ => true) JF_KNOWN (str "book") (str "/book") d no_snapshot (World (boot ∅ 5) 0 ENOENT 0 false None) = (Some (0, y), w') /\
  map (fun row => if bad_row row then [] else row) (rows d) = [str "g@h.i"; []; str "j@k.l"] /\
  exists text, sources y = [MkSource JF_KNOWN (str "book") (str "/book") text] /\ lines_of (length text) text = [str "g@h.i"; []; str "j@k.l"].
Proof.
  cbv zeta. set (d := str "g@h.i" ++ _). set (w := World _ _ _ _ _ _).
  assert (E : option_map fst (contact_source (HP := fun _ => true) JF_KNOWN (str "book") (str "/book") d no_snapshot w).1 = Some 0) by (vm_compute; reflexivity).
  destruct (contact_source (HP := fun _ => true) JF_KNOWN (str "book") (str "/book") d no_snapshot w) as [[[rc y]|] w'] eqn:R; [|discriminate].
  injection E as ->. exists y, w'. split; [exact eq_refl|]. split; [vm_compute; reflexivity|].
  destruct (exported_rows_kept (HP := fun _ => true) JF_KNOWN (str "book") (str "/book") d no_snapshot w y w' R) as (_ & text & H1 & H2 & _).
  exists text. split; [exact H1|]. rewrite H2. vm_compute. reflexivity.
Defined.
