(* ===== verification/Recollection.v ===== *)
(** * What a second snapshot proves (Snapshot)

    A collected snapshot is covered by its dependencies, and two snapshots with one
    fingerprint have the same sources and the same profile, unless the digests of
    their bytes collide: the check that is made before every publication. *)
From stdpp Require Import gmap.
From S2P Require Import Prelude Sha256 Utf8 Mailbox Lexer Rules Classify Policy Bytes Profile Emit Cache CacheFacts Files FilesFacts Snapshot SnapshotFacts.

#[local] Opaque grow_capacity digest_of.

(** ** Inventories *)

Lemma enc_all_inj l1 l2 : Forall framed l1 -> Forall framed l2 -> enc_all l1 = enc_all l2 -> l1 = l2.
Proof.
  intros H1. revert l2. induction H1 as [|r1 l1 F1 _ IH]; intros l2 H2 E.
  - destruct H2 as [|r2 l2 F2 _]; [reflexivity|]. unfold enc_all in E. cbn [map concat] in E.
    destruct (enc_parts r2 (concat (map enc l2)) F2) as (_ & _ & _ & L). rewrite <- E in L. cbn in L. lia.
  - destruct H2 as [|r2 l2 F2 H2]; unfold enc_all in E; cbn [map concat] in E;
      destruct (enc_parts r1 (concat (map enc l1)) F1) as (T1 & N1 & D1 & L1); [rewrite E in L1; cbn in L1; lia|].
    destruct (enc_parts r2 (concat (map enc l2)) F2) as (T2 & N2 & D2 & _). rewrite E in T1, N1, D1.
    rewrite T1 in T2. rewrite N1 in N2. rewrite D1 in D2.
    assert (N : length r1.2 = length r2.2) by (unfold zlen in N2; lia).
    pose proof (raw_fields_encoded r1.2 (concat (map enc l1)) (proj2 (proj2 F1))) as R1.
    rewrite D2, N, (raw_fields_encoded r2.2 _ (proj2 (proj2 F2))) in R1. injection R1 as R1 R2.
    rewrite (IH l2 H2 (eq_sym R2)). f_equal. destruct r1, r2. cbn in *. congruence.
Qed.

Lemma w_dependencies_framed `{HP : Heap} prev l b b' : w_dependencies prev l b = inr b' -> Forall framed (map dep_record l).
Proof.
  revert prev b. induction l as [|d l IH]; intros prev b; cbn [w_dependencies map]; [constructor|].
  destruct (_ || _); [discriminate|]. destruct (w_dependency d b) as [b1|] eqn:E; [|discriminate]. intros H.
  constructor; [|eapply IH, H]. now apply (w_record_framed (ch "D") _ b b1).
Qed.

Definition inventory (ds : list jf_dependency) : bytes := fingerprint_magic ++ enc_all (map dep_record (qsort dep_compare ds)).

Lemma fingerprint_inventory `{HP : Heap} ds h fp h' : jf_dependencies_fingerprint ds h = inr (fp, h') ->
  fp = digest_of (inventory ds) /\ Forall framed (map dep_record (qsort dep_compare ds)) /\
  StronglySorted (fun x y => dep_compare x y = Lt) (qsort dep_compare ds).
Proof.
  intros H. destruct (fingerprint_order ds ds h fp h' H (reflexivity ds)) as (_ & Hd & _ & Hs). split; [exact Hd|]. split; [|exact Hs].
  revert H. unfold jf_dependencies_fingerprint. destruct (_ <? _); [discriminate|]. destruct (mallocs 1 h); [|discriminate].
  destruct (jf_bytes_add _ _) as [b|]; [|discriminate]. destruct (w_dependencies _ _ b) as [[|]|[b1 h2]] eqn:Ew; [discriminate..|].
  intros _. exact (w_dependencies_framed _ _ _ _ Ew).
Qed.

Lemma dep_record_inj d d' : blank d -> blank d' -> dep_record d = dep_record d' -> d = d'.
Proof.
  intros B B' E. assert (F : dependency_fields d = dependency_fields d') by (unfold dep_record in E; congruence). clear E.
  destruct d as [r p q g a], d' as [r' p' q' g' a']. unfold blank, dependency_fields in *. cbn [role d_path present digest auxiliary] in *.
  destruct q, q'; injection F; intros; subst; try discriminate; [reflexivity|]. now rewrite B, B'.
Qed.

Lemma map_dep_record_inj l l' : Forall blank l -> Forall blank l' -> map dep_record l = map dep_record l' -> l = l'.
Proof.
  intros H. revert l'. induction H as [|d l Hd _ IH]; intros [|d' l'] H' E; try discriminate; [reflexivity|].
  apply Forall_cons in H' as [Hd' H']. pose proof (f_equal (hd (dep_record d)) E) as E1. pose proof (f_equal (@tail _) E) as E2.
  now rewrite (dep_record_inj d d' Hd Hd' E1), (IH l' H' E2).
Qed.

(** One inventory is one set of dependencies. *)
Lemma inventory_inj ds ds' : Forall blank ds -> Forall blank ds' ->
  Forall framed (map dep_record (qsort dep_compare ds)) -> Forall framed (map dep_record (qsort dep_compare ds')) ->
  inventory ds = inventory ds' -> qsort dep_compare ds = qsort dep_compare ds'.
Proof.
  intros B B' F F' E. apply app_inv_head in E. apply enc_all_inj in E; [|assumption..].
  apply map_dep_record_inj; [|now rewrite (qsort_perm dep_compare)..|exact E]. now rewrite (qsort_perm dep_compare).
Qed.

(** ** The collection as a whole *)

Lemma profile_status `{HP : Heap} d h : policy_status (jf_profile_parse d h).
Proof.
  assert (L : forall n line s, policy_status (profile_line n line s)).
  { intros n line s. unfold profile_line, single_record, capability_record, mailbox_record, replace_text, invalid, memory.
    apply status_bind; [unfold jf_policy_tokens; repeat first [apply lex_status | progress status]|]. intros t. repeat first [reflexivity | exact I | progress cbv zeta
      | match goal with |- policy_status (if ?b then _ else _) => destruct b | |- policy_status (match ?x with _ => _ end) => destruct x end]. }
  assert (P : forall fuel line d s, policy_status (profile_lines fuel line d s)).
  { induction fuel as [|fuel IH]; intros line d0 s; cbn [profile_lines]; [exact I|]. destruct d0; [exact I|].
    destruct (next_line _). apply status_bind; [apply L|auto]. }
  unfold jf_profile_parse. destruct (_ <? _); [reflexivity|]. destruct (mallocs 4 h); [|reflexivity].
  apply status_bind; [apply P|]. intros s. apply status_bind; [|intros; exact I]. unfold profile_checks. repeat (case_test; [reflexivity|]). exact I.
Qed.

Definition accounts_path (root : bytes) (arg : option bytes) : bytes :=
  match arg with Some a => a | None => root ++ str "/" ++ str "Accounts" end.
Definition is_external (arg : option bytes) : bool := match arg with Some _ => true | None => false end.

Section Collection.
Context `{KN : Kernel} `{HP : Heap} `{PT : Paths} `{RX : PosixRegex} (fuel : nat).
Context (root : bytes) (accounts profile compiler : option bytes).
Abbreviation covered_here := (covered root (accounts_path root accounts) (is_external accounts)).

Lemma runs_collect_body s prior x : covered_here x ->
  runs s (collect_body fuel root accounts profile compiler prior) x (fun _ y => covered_here y /\ parsed_profile y).
Proof.
  intros C. apply runs_bind, runs_need, ends_lift. eapply hoare_quiet with (Q0 := fun a => match a with Some a => a = accounts_path root accounts | None => True end); [|reflexivity|].
  { destruct accounts; (eapply hoare_mono; [apply quiet_strdup|auto|auto]). }
  intros [a|] Ha; [|trivial]. subst a. fold (is_external accounts).
  set (here := collects root (accounts_path root accounts) (is_external accounts)).
  apply runs_bind. eapply runs_mono with (Q := fun _ y => here x y).
  { apply runs_must. eapply ends_mono; [apply ends_diagnostic|]. intros. now apply collects_same. }
  intros _ x1 C1. apply runs_bind. eapply runs_mono with (Q := fun _ y => here x1 y); [apply runs_must, ends_link_dep|].
  intros _ x2 C2. apply runs_bind. eapply runs_mono with (Q := fun _ y => here x2 y); [apply runs_configs; repeat constructor|].
  intros _ x3 C3. apply runs_bind. eapply runs_mono with (Q := fun _ y => here x3 y); [apply runs_must; now apply ends_record|].
  intros _ x4 C4. apply runs_bind. destruct compiler as [c|]; [|apply runs_goto]. apply runs_ret.
  apply runs_bind. eapply runs_mono with (Q := fun _ y => here x4 y); [now apply runs_read_other|].
  intros _ x5 C5. apply runs_bind. eapply runs_mono with (Q := fun _ y => here x5 y); [now apply runs_policy_file|].
  intros _ x6 C6. apply runs_bind. eapply runs_mono with (Q := fun _ y => here x6 y); [now apply runs_policy_file|].
  intros _ x7 C7. apply runs_bind. eapply runs_mono with (Q := fun _ y => here x7 y); [apply runs_accounts|].
  intros _ x8 C8. assert (C9 : covered_here x8) by (repeat (eapply collects_covered; [eassumption|]); exact C). clear C C1 C2 C3 C4 C5 C6 C7 C8.
  apply runs_bind. eapply runs_mono; [apply runs_profile, C9|]. intros _ x9 [D9 P9].
  apply runs_bind. eapply runs_mono with (Q := fun _ y => here x9 y); [now apply runs_book|].
  intros e x10 C10. apply runs_bind. eapply runs_mono with (Q := fun _ y => here x10 y); [now apply runs_book|].
  intros _ x11 C11. apply runs_ret. split.
  - eapply collects_covered; [exact C11|]. eapply collects_covered; [exact C10|exact D9].
  - eapply collects_parsed; [exact C11|]. eapply collects_parsed; [exact C10|exact P9].
Qed.

Lemma collect_leaves prior : leaves (fun l => l <> Done 0) (collect_body fuel root accounts profile compiler prior).
Proof.
  assert (M : Memory <> Done 0) by discriminate. assert (I : Io <> Done 0) by discriminate.
  assert (R : forall r p b, leaves (fun l => l <> Done 0) (read_in fuel r p b)).
  { intros r p b. apply leaves_bind; [apply leaves_run|]. intros [rc x]. destruct (_ =? _); [apply leaves_ret|now apply leaves_goto]. }
  assert (C : forall l, leaves (fun l => l <> Done 0) (configs l)).
  { induction l as [|[r v] l IH]; [apply leaves_ret|]. apply leaves_bind; [now apply leaves_must|auto]. }
  assert (B : forall c b r e k ex, leaves (fun l => l <> Done 0) (collect_book fuel root c prior b r e k ex)).
  { intros. apply leaves_bind; [now apply leaves_need|]. intros p. apply leaves_bind; [apply R|]. intros d.
    apply leaves_bind; [apply leaves_run|]. intros cur. apply leaves_bind.
    - destruct (match cur with Some _ => _ | None => _ end); [|apply leaves_ret]. apply leaves_bind.
      + destruct ex; [apply leaves_ret|]. apply leaves_bind; [now apply leaves_need|]. intros. apply leaves_bind; [apply R|]. intros. apply leaves_ret.
      + intros. apply leaves_bind; [now apply leaves_must|]. intros _. apply leaves_bind; [apply leaves_run|]. intros.
        apply leaves_bind; [now apply leaves_need|]. intros. apply leaves_ret.
    - intros [? ?]. do 2 (apply leaves_bind; [now apply leaves_must|intros _]). apply leaves_ret. }
  assert (P : forall n r b k, leaves (fun l => l <> Done 0) (policy_file fuel root n r b k)).
  { intros. apply leaves_bind; [now apply leaves_need|]. intros. apply leaves_bind; [apply R|]. intros. now apply leaves_must. }
  apply leaves_bind; [now apply leaves_need|]. intros a. do 2 (apply leaves_bind; [now apply leaves_must|intros _]).
  apply leaves_bind; [apply C|]. intros _. apply leaves_bind; [now apply leaves_must|]. intros _.
  apply leaves_bind; [destruct compiler; [apply leaves_ret|now apply leaves_goto]|]. intros c. apply leaves_bind; [apply R|]. intros _.
  do 2 (apply leaves_bind; [apply P|intros _]). apply leaves_bind.
  { do 2 (apply leaves_bind; [now apply leaves_must|intros _]). apply leaves_bind; [apply leaves_run|].
    intros [[]|[]]; try (now apply leaves_goto); [now apply leaves_must|]. apply leaves_bind; [apply leaves_run|]. intros [rc b].
    destruct (negb _); [now apply leaves_goto|now apply leaves_must]. }
  intros _. apply leaves_bind; [|intros _; apply leaves_bind; [apply B|]; intros; apply leaves_bind; [apply B|]; intros; apply leaves_ret].
  apply leaves_bind; [now apply leaves_need|]. intros p. apply leaves_bind; [apply leaves_run|]. intros _. apply leaves_bind; [apply R|]. intros d.
  apply leaves_bind.
  { intros x w l y. unfold parse_profile. pose proof (profile_status (contents d) (heap w)) as S.
    destruct (jf_profile_parse (contents d) (heap w)) as [[pr h]|rc e]; [discriminate|]. cbn in *. intros [= <- <-] [= ->].
    now destruct (String.eqb (err_code e) "E_MEMORY"). }
  intros _. apply leaves_bind; [now apply leaves_must|]. intros _. apply leaves_bind; [apply leaves_run|]. intros pr.
  apply leaves_bind; [apply C|]. intros _. apply leaves_bind; [now apply leaves_need|]. intros. now apply leaves_must.
Qed.

(** A snapshot changes nothing, and one that succeeds is covered. *)
Lemma quiet_collect s prior over : quiet s (collect fuel root accounts profile compiler prior over)
  (fun r => r.1 = 0 -> covered_here r.2 /\ parsed_profile r.2).
Proof.
  eapply hoare_step; [apply quiet_clear_error|reflexivity|]. intros _ _.
  eapply hoare_step with (Q0 := fun r => r.1 <> inl (Done 0) /\ match r.1 with inr _ => covered_here r.2 /\ parsed_profile r.2 | inl _ => True end); [|reflexivity|].
  { assert (C0 : covered_here (set_overrides over no_snapshot)) by (split; constructor).
    intros w Hw. destruct (runs_collect_body s prior _ C0 w Hw) as [E Q]. split; [exact E|]. intros [r y] Hr. split; [|exact (Q _ Hr)].
    cbn. intros ->. exact (collect_leaves prior _ _ _ _ Hr eq_refl). }
  intros [r y] [Hd Hc]. cbn [fst snd] in Hd, Hc. eapply hoare_step with (Q0 := fun rc => rc = 0 -> exists u, r = inr u); [|reflexivity|].
  { destruct r as [[]|u].
    - unfold product_error. cbn. eapply hoare_step; [apply quiet_report|reflexivity|]. intros. now apply hoare_ret.
    - destruct (sn_changed y).
      + eapply hoare_step; [apply quiet_product_error|reflexivity|]. intros. now apply hoare_ret.
      + unfold product_error. cbn. eapply hoare_step; [apply quiet_report|reflexivity|]. intros. now apply hoare_ret.
    - apply hoare_ret; [reflexivity|]. intros ->. now destruct Hd.
    - apply hoare_ret; eauto. }
  intros rc Hrc. apply hoare_ret; [reflexivity|]. cbn [fst snd]. intros E. destruct (Hrc E) as [u ->]. exact Hc.
Qed.
End Collection.

(** ** A profile does not depend on the memory it is parsed in *)

Definition same_state (s s' : profile_state) : Prop := st_profile s = st_profile s' /\ st_seen s = st_seen s'.

Lemma profile_line_same (HP HP' : Heap) n line s s' t t' : same_state s s' ->
  profile_line (HP := HP) n line s = Ok t -> profile_line (HP := HP') n line s' = Ok t' -> same_state t t'.
Proof.
  destruct s as [p q h], s' as [p' q' h']. intros [E1 E2]. cbn in E1, E2. subst p' q'.
  unfold profile_line. destruct (jf_policy_tokens line n) as [ts|]; [|discriminate]. cbn [mbind res_bind].
  destruct (length ts =? 0)%nat; [now intros [= <-] [= <-]|]. cbv zeta.
  unfold single_record, capability_record, mailbox_record, replace_text, set_profile, invalid. cbn [st_profile st_seen st_heap].
  repeat case_test; try (now intros [= <-] [= <-]); try discriminate;
    repeat match goal with |- context [mallocs (HP := ?H) ?n ?h] => destruct (mallocs (HP := H) n h) end;
    try discriminate; now intros [= <-] [= <-].
Qed.

Lemma profile_lines_same (HP HP' : Heap) n : forall line d s s' t t', same_state s s' ->
  profile_lines (HP := HP) n line d s = Ok t -> profile_lines (HP := HP') n line d s' = Ok t' -> same_state t t'.
Proof.
  induction n as [|n IH]; intros line d s s' t t' Hs; cbn [profile_lines]; [now intros [= <-] [= <-]|].
  destruct d as [|c d]; [now intros [= <-] [= <-]|]. destruct (next_line (c :: d)) as [l rest].
  rewrite !res_bind_Ok. intros (u & Hu & Ht) (u' & Hu' & Ht'). exact (IH _ _ _ _ _ _ (profile_line_same HP HP' _ _ _ _ _ _ Hs Hu Hu') Ht Ht').
Qed.

Lemma profile_same (HP HP' : Heap) d h h' p p' k k' :
  jf_profile_parse (HP := HP) d h = Ok (p, k) -> jf_profile_parse (HP := HP') d h' = Ok (p', k') -> p = p'.
Proof.
  unfold jf_profile_parse. destruct (JF_INPUT_MAX <? zlen d); [discriminate|].
  destruct (mallocs (HP := HP) 4 h) as [m|]; [|discriminate]. destruct (mallocs (HP := HP') 4 h') as [m'|]; [|discriminate].
  rewrite !res_bind_Ok. intros (t & Ht & E) (t' & Ht' & E'). rewrite !res_bind_Ok in E, E'.
  destruct E as (_ & _ & E), E' as (_ & _ & E'). injection E as <- _. injection E' as <- _.
  eapply (profile_lines_same HP HP'); [|exact Ht|exact Ht']. now split.
Qed.

(** ** Two snapshots with one fingerprint *)

(** What the digests of a snapshot stand for: its inventory and the sources. *)
Definition digested (sn : jf_snapshot) : list bytes := inventory (dependencies sn) :: map data (sources sn).
(** No two of these bytes have one digest. *)
Definition no_collision (l : list bytes) : Prop := forall u v, u ∈ l -> v ∈ l -> digest_of u = digest_of v -> u = v.

Lemma sorted_key_unique l x y : StronglySorted (fun x y => dep_compare x y = Lt) l -> x ∈ l -> y ∈ l -> dep_compare x y = Eq -> x = y.
Proof.
  intros Hs Hx Hy E. apply list_elem_of_lookup_1 in Hx as [i Hi], Hy as [j Hj].
  destruct (Nat.lt_total i j) as [Hij|[->|Hij]]; [|congruence|].
  - pose proof (sorted_lookup _ _ _ _ _ _ Hs Hi Hj Hij) as H. cbv beta in H. congruence.
  - pose proof (sorted_lookup _ _ _ _ _ _ Hs Hj Hi Hij) as H. cbv beta in H.
    rewrite (cmp_sym (cmp := dep_compare) x y), E in H. discriminate.
Qed.

Lemma bound_same root accounts external x y d : bound root accounts external x d -> bound root accounts external y d ->
  (digest_of (data x) = digest_of (data y) -> data x = data y) -> x = y.
Proof.
  intros (R1 & P1 & N1 & D1) (R2 & P2 & N2 & D2) H. rewrite R1 in R2. injection R2 as K. rewrite P1 in P2.
  destruct x as [k i p v], y as [k' i' p' v']. cbn in *. subst k' p'.
  assert (v = v') as <-.
  { destruct k; cbn in *; try congruence; destruct D1 as [[Q1 D1]|[Q1 ->]], D2 as [[Q2 D2]|[Q2 ->]]; first [congruence | apply H; congruence]. }
  f_equal. unfold named in N1, N2. cbn in *. destruct k; try (destruct N1, N2; congruence).
  destruct N1 as (r1 & E1 & ->), N2 as (r2 & E2 & ->). rewrite E2 in E1. apply app_inv_head in E1. injection E1 as ->. reflexivity.
Qed.

Lemma bound_all_same root accounts external ds xs ys : Forall2 (bound root accounts external) xs ds -> Forall2 (bound root accounts external) ys ds ->
  (forall x y, x ∈ xs -> y ∈ ys -> digest_of (data x) = digest_of (data y) -> data x = data y) -> xs = ys.
Proof.
  intros H1. revert ys. induction H1 as [|x d xs ds B1 _ IH]; intros ys H2 H; inversion H2 as [|y ? ys' ? B2 H2']; subst; [reflexivity|].
  f_equal; [eapply bound_same; [exact B1|exact B2|]; apply H; now left|]. apply IH; [exact H2'|]. intros. apply H; [now right..|assumption].
Qed.

Lemma covered_same root accounts external a b : covered root accounts external a -> covered root accounts external b ->
  dependencies a ≡ₚ dependencies b -> no_collision (map data (sources a) ++ map data (sources b)) -> sources a ≡ₚ sources b.
Proof.
  intros [Ca _] [Cb _] P N. apply (filter_perm is_source) in P.
  destruct (Permutation_Forall2 (symmetry P) (proj2 (Forall2_flip _ _ _) Cb)) as (ys & Py & Cy). apply Forall2_flip in Cy.
  rewrite Py. erewrite (bound_all_same _ _ _ _ (sources a) ys Ca Cy); [reflexivity|].
  intros x y Hx Hy. apply N; apply elem_of_app; [left|right]; apply list_elem_of_fmap; [eauto|]. exists y. split; [reflexivity|]. now rewrite Py.
Qed.

(** C8. A second snapshot with the fingerprint of the first is the same
    configuration.  Of two collections that succeed, with any kernels, files,
    exporters and earlier snapshots to reuse exports from, if the fingerprints of
    their dependencies are equal then the profiles are equal and the sources are
    the same, with the same paths, identities and bytes; unless SHA-256 gives one
    digest to two of the inventories and sources involved. *)
Theorem recollection_sound (KN KN' : Kernel) (HP HP' : Heap) (PT PT' : Paths) fuel fuel' root accounts profile profile'
    compiler compiler' prior prior' w w' a b u u' h h' k k' fp :
  jf_snapshot_collect (KN := KN) (HP := HP) (PT := PT) fuel root accounts profile compiler prior w = (Some (0, a), u) ->
  jf_snapshot_collect (KN := KN') (HP := HP') (PT := PT') fuel' root accounts profile' compiler' prior' w' = (Some (0, b), u') ->
  jf_dependencies_fingerprint (HP := HP) (dependencies a) h = inr (fp, k) ->
  jf_dependencies_fingerprint (HP := HP') (dependencies b) h' = inr (fp, k') ->
  no_collision (digested a ++ digested b) ->
  st u = st w /\ st u' = st w' /\ sources a ≡ₚ sources b /\ sn_profile a = sn_profile b.
Proof.
  intros Ha Hb Fa Fb N.
  destruct (quiet_collect (KN := KN) (HP := HP) (PT := PT) fuel root accounts profile compiler (st w) prior [] w eq_refl) as [Sa Qa].
  destruct (quiet_collect (KN := KN') (HP := HP') (PT := PT') fuel' root accounts profile' compiler' (st w') prior' [] w' eq_refl) as [Sb Qb].
  unfold jf_snapshot_collect in Ha, Hb. rewrite Ha in Sa, Qa. rewrite Hb in Sb, Qb. cbn [fst snd] in *.
  destruct (Qa _ eq_refl eq_refl) as [Ca (da & i & i' & Pa & Ia)], (Qb _ eq_refl eq_refl) as [Cb (db & j & j' & Pb & Ib)]. cbn [snd] in *. clear Qa Qb.
  apply (fingerprint_inventory (HP := HP)) in Fa as (Ea & Ra & Oa). apply (fingerprint_inventory (HP := HP')) in Fb as (Eb & Rb & _).
  assert (E : qsort dep_compare (dependencies a) = qsort dep_compare (dependencies b)).
  { apply inventory_inj; [exact (proj2 Ca)|exact (proj2 Cb)|exact Ra|exact Rb|]. apply N; [left|apply elem_of_app; right; left|congruence]. }
  assert (P : dependencies a ≡ₚ dependencies b) by now rewrite <- (qsort_perm dep_compare (dependencies a)), E, (qsort_perm dep_compare).
  split; [now symmetry|]. split; [now symmetry|]. split.
  - eapply covered_same; [exact Ca|exact Cb|exact P|]. intros v v' Hv Hv'. apply N; [destruct (proj1 (elem_of_app _ _ _) Hv) as [M|M]|destruct (proj1 (elem_of_app _ _ _) Hv') as [M|M]];
      apply elem_of_app; [left; now right|right; now right|left; now right|right; now right].
  - assert (da = db) as <-.
    { rewrite <- (qsort_perm dep_compare (dependencies a)) in Ia. rewrite <- (qsort_perm dep_compare (dependencies b)), <- E in Ib.
      pose proof (sorted_key_unique _ _ _ Oa Ia Ib) as H. exact (f_equal auxiliary (H eq_refl)). }
    eapply (profile_same HP HP'); [exact Pa|exact Pb].
Qed.

(** ** A small configuration, read twice *)

Definition file_at (files : list (bytes * bytes)) (p : bytes) : option bytes := snd <$> List.find (fun f => streq p f.1) files.

(** Regular files that do not change, and an exporter that prints. *)
Definition fixed_paths (files : list (bytes * bytes)) (printed : bytes) : Paths :=
  let kind p := match file_at files p with Some _ => inr Regular | None => inl ENOENT end in
  {| environment _ := None; on_lstat _ := kind; on_stat _ := kind; on_readlink _ _ := inl EINVAL;
     on_access _ p := match file_at files p with Some _ => inr tt | None => inl ENOENT end;
     on_open _ p := match file_at files p with Some _ => inr tt | None => inl ENOENT end;
     on_fstat _ p := match file_at files p with Some d => inr (FileStat Regular (zlen d) 1 1) | None => inl EINVAL end;
     on_read _ p pos := match file_at files p with Some d => inr (drop pos d) | None => inl EINVAL end;
     on_opendir _ _ := inl ENOENT; on_readdir _ _ _ := inr None; on_write _ := inr 4096%nat;
     on_pipe _ _ _ pos := inr (drop pos printed); on_wait _ _ _ := inr (Some 0) |}.

Definition small_files : list (bytes * bytes) :=
  [(str "/c", str "compiler"); (str "/j/Filters.txt", str "from a@b.c move x"); (str "/j/whitelist.abook", str "[0]" ++ [LF] ++ str "email=g@h.i");
   (str "/usr/bin/abook", str "abook")].
Definition small_paths : Paths := fixed_paths small_files (str "g@h.i" ++ [HT] ++ str "G" ++ [LF; LF] ++ str "bad" ++ [HT; LF]).
Definition small_world (tick : nat) : world := World (boot ∅ 5) tick ENOENT 0 false None.
Abbreviation small_collect prior tick :=
  (jf_snapshot_collect (KN := calm) (HP := granting) (PT := small_paths) 100 (str "/j") None None (Some (str "/c")) prior (small_world tick)).
Definition snapshot_of (r : option (Z * jf_snapshot) * world) : jf_snapshot := match r.1 with Some (_, s) => s | None => no_snapshot end.
Definition status_is (r : option (Z * jf_snapshot) * world) (rc : Z) : bool := match r.1 with Some (c, _) => c =? rc | None => false end.
Definition fingerprint_in (s : jf_snapshot) : bytes :=
  match jf_dependencies_fingerprint (HP := granting) (dependencies s) 0 with inr (d, _) => d | inl _ => [] end.

Definition collision_free (l : list (bytes * bytes)) : bool :=
  forallb (fun x => forallb (fun y => streq x.1 y.1 || negb (streq x.2 y.2)) l) l.
Lemma collision_free_spec l x y : collision_free l = true -> In x l -> In y l -> x.2 = y.2 -> x.1 = y.1.
Proof.
  unfold collision_free. rewrite forallb_forall. intros H Hx Hy E. specialize (H x Hx). rewrite forallb_forall in H. specialize (H y Hy).
  rewrite E, streq_refl, orb_false_r in H. now apply streq_spec.
Qed.
Lemma no_collision_of l : collision_free (map (fun u => (u, digest_of u)) l) = true -> no_collision l.
Proof.
  intros H u v Hu Hv E. assert (I : forall z, z ∈ l -> In (z, digest_of z) (map (fun u => (u, digest_of u)) l)).
  { intros z Hz. apply in_map_iff. exists z. split; [reflexivity|now apply list_elem_of_In]. }
  exact (collision_free_spec _ _ _ H (I u Hu) (I v Hv) E).
Qed.

Lemma no_collision_twice l : no_collision l -> no_collision (l ++ l).
Proof. intros H u v [Hu|Hu]%elem_of_app [Hv|Hv]%elem_of_app; now apply H. Qed.

Definition small_snapshot : jf_snapshot := Eval vm_compute in snapshot_of (small_collect None 0).

Lemma result_of {A} (r : option A * world) a : r.1 = Some a -> exists u, r = (Some a, u).
Proof. destruct r as [o u]. cbn [fst]. intros ->. now exists u. Qed.

(** Read twice: the second time the export recorded by the first is reused. *)
Lemma recollection_sound_witness : exists u u' fp k,
  small_collect None 0 = (Some (0, small_snapshot), u) /\
  small_collect (Some small_snapshot) 40 = (Some (0, small_snapshot), u') /\
  jf_dependencies_fingerprint (HP := granting) (dependencies small_snapshot) 0 = inr (fp, k) /\
  st u = st (small_world 0) /\ st u' = st (small_world 40) /\ sources small_snapshot ≡ₚ sources small_snapshot.
Proof.
  destruct (result_of (small_collect None 0) (0, small_snapshot)) as [u E1]; [vm_compute; reflexivity|].
  destruct (result_of (small_collect (Some small_snapshot) 40) (0, small_snapshot)) as [u' E2]; [vm_compute; reflexivity|].
  destruct (jf_dependencies_fingerprint (HP := granting) (dependencies small_snapshot) 0) as [rc|[fp k]] eqn:F.
  { exfalso. assert (is_digest (jf_dependencies_fingerprint (HP := granting) (dependencies small_snapshot) 0) = true) as D by (vm_compute; reflexivity).
    now rewrite F in D. }
  exists u, u', fp, k. split; [exact E1|]. split; [exact E2|]. split; [exact eq_refl|].
  destruct (recollection_sound calm calm granting granting small_paths small_paths 100 100 (str "/j") None None None (Some (str "/c")) (Some (str "/c"))
    None (Some small_snapshot) (small_world 0) (small_world 40) small_snapshot small_snapshot u u' 0 0 k k fp E1 E2 F F) as (H1 & H2 & H3 & _).
  - apply no_collision_twice, no_collision_of. vm_compute. reflexivity.
  - auto.
Defined.
