(* ===== verification/Session.v ===== *)
(** * A run of the batch program (src/jaro-filter.c)

    What a run of the batch has done and how it asks for more: groups of the system
    calls of [Storage], the pool of [Pool], one reading of the engine's tree of
    [Files], and the calls that only this program makes.  Every answer is given by
    the surroundings from everything done before. *)
From S2P Require Import Prelude Sha256 Rules Classify Bytes Headers Files Generation PoolFacts Pool Storage.

(** The calls of this program alone, with the type of their answers. *)
Inductive question :=
  | GetCwd
  | OpenFile (path : bytes) (** [open] for reading *)
  | OpenMessage (fd : Z) (name : bytes) (** [openat], neither through a link nor waiting *)
  | Fdopendir (fd : Z)
  | Readdir (fd : Z) (** an error, the end, or a name *)
  | Closedir (fd : Z)
  | MessageReads (fd : Z) (** the reads of [jf_headers_read] *)
  | Failure (** [errno] after a call of [Storage] failed *)
  | Sigaction (sig : Z)
  | Delivered (** a signal that was handled meanwhile *)
  | Fwrite (s : bytes) (** on the standard output *)
  | Fflush
  | Fputs (s : bytes) (** on the standard error *)
  | PoolResources
  | Background (** what the threads of the pool did meanwhile *)
  | Pending. (** the answers of [sigtimedwait] *)

Definition reply (q : question) : Type :=
  match q with
  | GetCwd => option bytes
  | OpenFile _ | OpenMessage _ _ => option Z
  | Fdopendir _ | Closedir _ | Sigaction _ | Fwrite _ | Fflush => bool
  | Readdir _ => errno + option bytes
  | MessageReads _ => list read_result
  | Failure => errno
  | Delivered => option Z
  | Fputs _ => unit
  | PoolResources => option Z * option Z * (resource -> bool)
  | Background => list choice
  | Pending => list (option Z)
  end.

(** A call with its answer, the calls of a part that uses [Storage], or the pin of a
    generation: the kernel it ran with, and the engine's tree before and after. *)
Inductive note :=
  | Asked (q : question) (r : reply q)
  | Calls (t : trace)
  | Pins (root : bytes) (generation : option bytes) (k : Kernel) (before after : Files.world).

Class Surroundings := {
  reply_to : list note -> forall q, reply q;
  system_at : list note -> System;
  heap_at : list note -> Bytes.Heap;
  allocator_at : list note -> Allocator;
  kernel_at : list note -> Kernel;
  engine_at : list note -> Files.world }.

(** The notes, the latest first; the pool, with the choices and events that led to
    it; the storage of each worker, whose sequence number advances; the variable
    [interrupted], and whether a handler may set it. *)
Record session := Session {
  notes : list note; pool_state : state; choices : list choice; events : list Pool.event;
  job_views : list jf_storage; interrupted : Z; handlers : bool }.
Definition no_session : session := Session [] started [] [] [] 0 false.

Definition add_note (n : note) (s : session) : session :=
  Session (n :: notes s) (pool_state s) (choices s) (events s) (job_views s) (interrupted s) (handlers s).
Definition set_pool_run (st : state) (cs : list choice) (ev : list Pool.event) (s : session) : session :=
  Session (notes s) st cs ev (job_views s) (interrupted s) (handlers s).
Definition set_job_views (l : list jf_storage) (s : session) : session :=
  Session (notes s) (pool_state s) (choices s) (events s) l (interrupted s) (handlers s).
Definition set_interrupted (z : Z) (s : session) : session :=
  Session (notes s) (pool_state s) (choices s) (events s) (job_views s) z (handlers s).
Definition set_handlers (s : session) : session :=
  Session (notes s) (pool_state s) (choices s) (events s) (job_views s) (interrupted s) true.

(** A program; [None] only when a loop used up its fuel or what the surroundings say
    of the threads is no run of theirs. *)
Definition bio (A : Type) : Type := session -> option A * session.
#[export] Instance bio_ret : MRet bio := fun A a s => (Some a, s).
#[export] Instance bio_bind : MBind bio := fun A B f m s =>
  match m s with (Some a, s') => f a s' | (None, s') => (None, s') end.
Definition halted {A} : bio A := fun s => (None, s).
(** A step on the session. *)
Definition stepping {A} (f : session -> option (A * session)) : bio A := fun s =>
  match f s with Some (a, s') => (Some a, s') | None => (None, s) end.

(** A program with locals [L] that may leave: [None] is the jump to its end. *)
Definition leaving (L A : Type) : Type := L -> bio (L * option A).
#[export] Instance leaving_ret L : MRet (leaving L) := fun A a l => mret (l, Some a).
#[export] Instance leaving_bind L : MBind (leaving L) := fun A B f m l =>
  m l ≫= fun p => match p.2 with Some a => f a p.1 | None => mret (p.1, None) end.
Definition doing {L A} (m : bio A) : leaving L A := fun l => m ≫= fun a => mret (l, Some a).
Definition modify {L} (f : L -> L) : leaving L unit := fun l => mret (f l, Some tt).
Definition gets {L A} (f : L -> A) : leaving L A := fun l => mret (l, Some (f l)).
(** [{ l; return; }]. *)
Definition return_with {L A} (f : L -> L) : leaving L A := fun l => mret (f l, None).
(** [if (!m) { l; return; }]. *)
Definition demand {L} (f : L -> L) (m : bio bool) : leaving L unit :=
  doing m ≫= fun b => if (b : bool) then mret tt else return_with f.
Definition obtain {L A} (f : L -> L) (m : bio (option A)) : leaving L A :=
  doing m ≫= fun o => match o with Some a => mret a | None => return_with f end.

Section Session.
Context `{SU : Surroundings}.

Definition ask_for (q : question) : bio (reply q) := fun s =>
  let r := reply_to (notes s) q in (Some r, add_note (Asked q r) s).

(** A part that makes the calls of [Storage], with these calls. *)
Definition system_calls {A} (m : System -> io A) : bio (A * trace) := fun s =>
  match m (system_at (notes s)) [] with
  | (Some a, t) => (Some (a, t), add_note (Calls t) s)
  | (None, t) => (None, add_note (Calls t) s)
  end.
Definition system {A} (m : System -> io A) : bio A := r ← system_calls m; mret r.1.

(** A request of memory. *)
Definition malloc : bio bool := system (fun _ => alloc).

(** ** The pool *)

(** The choices of the other threads, and the wakeups of the coordinator. *)
Definition theirs (c : choice) : bool :=
  match c with
  | Enter _ | Wakes _ | Checks _ _ | Stops _ | Settles _ | Polls _ | Resumes | WakesCoordinator => true
  | _ => false
  end.

Fixpoint schedule (cs : list choice) (done_ : list choice) (ev : list Pool.event) (st : state) :
    option (state * list choice * list Pool.event) :=
  match cs with
  | [] => Some (st, done_, ev)
  | c :: t => match move c st with Some (st', e) => schedule t (c :: done_) (e ++ ev) st' | None => None end
  end.

(** What the other threads did since, then a step of the coordinator. *)
Definition others_run : bio unit :=
  cs ← ask_for Background;
  stepping (fun s =>
    '(st, done_, ev) ← schedule (List.filter theirs cs) (choices s) (events s) (pool_state s);
    Some (tt, set_pool_run st done_ ev s)).
Definition coordinate (c : choice) : bio unit :=
  _ ← others_run;
  stepping (fun s => '(st, e) ← move c (pool_state s); Some (tt, set_pool_run st (c :: choices s) (e ++ events s) s)).
(** The coordinator is between calls. *)
Definition between_calls : bio unit :=
  stepping (fun s => match coordinator (pool_state s) with Idle => Some (tt, s) | _ => None end).
Definition pool_get {A} (f : state -> A) : bio A := stepping (fun s => Some (f (pool_state s), s)).

(** [jf_pool_bind]: each worker gets its storage. *)
Definition pool_bind (st : jf_storage) (interrupted : bool) : bio unit :=
  _ ← coordinate (Binds st interrupted None);
  stepping (fun s => Some (tt, set_job_views (views (pool_state s)) s)).

(** [jf_pool_stopped] called by the coordinator. *)
Definition pool_stopped : bio bool :=
  a ← ask_for Pending; _ ← coordinate (Asks a); pool_get (fun st => stop_ (pool st)).
Definition pool_stop : bio unit := coordinate Cancels.
Definition pool_finish : bio Z :=
  _ ← coordinate Finishes;
  a ← ask_for Pending;
  _ ← coordinate (Joins a);
  pool_get (fun st => signal (pool st)).

(** ** Signals, the outputs *)

(** [interrupted], after the signals handled meanwhile. *)
Definition get_interrupted : bio Z :=
  h ← stepping (fun s => Some (handlers s, s));
  sig ← (if (h : bool) then ask_for Delivered else mret (None : reply Delivered));
  stepping (fun s => let s := match sig with Some z => set_interrupted z s | None => s end in Some (interrupted s, s)).

Definition field (s : bytes) : bio bool := ask_for (Fwrite (s ++ [0])).
(** A chain [field (a) || field (b) || ...]: whether all were written. *)
Fixpoint fields (l : list bytes) : bio bool :=
  match l with
  | [] => mret true
  | s :: t => ok ← field s; if (ok : bool) then fields t else mret false
  end.
Definition fflush : bio bool := ask_for Fflush.
Definition fputs (s : bytes) : bio unit := _ ← ask_for (Fputs s); mret tt.
End Session.
