(* ===== verification/Selection.v ===== *)
(** * The selection of a batch (src/jaro-filter.c)

    The messages that a batch works on: those named, listed or found in a Maildir;
    the identities taken before anything is moved, with the first name of each
    message; and the test that lets their moves overlap. *)
From S2P Require Import Prelude Sha256 Rules Resolve Classify Bytes Headers Pool Storage Session.

Definition PATH_COUNT_MAX : nat := Z.to_nat 100000.

(** The address of [first] is a position. *)
Record selected := Selected {
  path : bytes; identity : stat; snapshotted : bool; attempted : bool; parent_identity : stat;
  sel_error : option string; first : option nat }.
Definition set_snapshot st i := Selected (path i) st true (attempted i) (parent_identity i) (sel_error i) (first i).
Definition set_sel_error e i := Selected (path i) (identity i) (snapshotted i) (attempted i) (parent_identity i) (Some e) (first i).
Definition set_attempted b i := Selected (path i) (identity i) (snapshotted i) b (parent_identity i) (sel_error i) (first i).
Definition set_parent st i := Selected (path i) (identity i) (snapshotted i) (attempted i) st (sel_error i) (first i).
Definition set_first n i := Selected (path i) (identity i) (snapshotted i) (attempted i) (parent_identity i) (sel_error i) (Some n).

Record selection := Selection { items : list selected; sel_capacity : nat; sel_bytes : Z }.
Definition no_selection : selection := Selection [] 0 0.
Definition set_items l s := Selection l (sel_capacity s) (sel_bytes s).

Section Selection.
Context `{SU : Surroundings} (fuel : nat).

Definition join (a b : bytes) : bio (option bytes) :=
  if SIZE_MAX - zlen b - 2 <? zlen a then mret None
  else ok ← malloc; mret (if (ok : bool) then Some (a ++ str "/" ++ b) else None).

Definition absolute (cwd p : bytes) : bio (option bytes) :=
  if has_prefix (str "/") p then ok ← malloc; mret (if (ok : bool) then Some p else None)
  else join cwd p.

(** [jf_storage_directory], with [errno] when it fails. *)
Definition storage_directory (p : bytes) : bio (errno + Z) :=
  r ← system_calls (fun _ => jf_storage_directory p);
  match r with
  | (Some fd, _) => mret (inr fd)
  | (None, Alloc false :: _) => mret (inl ENOMEM)
  | (None, _) => e ← ask_for Failure; mret (inl e)
  end.

Definition close_fd (fd : Z) : bio bool := system (fun _ => close fd).

(** The text after the last slash. *)
Definition after_slash (p : bytes) : bytes := List.rev (take_while (fun c => negb (c =? ch "/")) (List.rev p)).

(** The directory of [source] and the name in it. *)
Definition open_parent (source : bytes) : bio (errno + Z * bytes) :=
  ok ← malloc;
  if negb (ok : bool) then mret (inl ENOMEM)
  else match before_slash source with
  | None => e ← ask_for Failure; mret (inl e)
  | Some parent =>
      r ← storage_directory (if streq parent [] then str "/" else parent);
      mret match r with inl e => inl e | inr fd => inr (fd, after_slash source) end
  end.

(** ** The list of messages *)

Definition select_path (p : bytes) (id : option stat) (s : selection) : bio (Z * selection) :=
  let n := zlen p in
  if (n =? 0) || (length (items s) =? PATH_COUNT_MAX)%nat || (JF_INPUT_MAX - sel_bytes s <=? n) then mret (2, s)
  else
    grown ← (if (length (items s) =? sel_capacity s)%nat then
               ok ← malloc;
               mret (if (ok : bool) then Some (if (sel_capacity s =? 0)%nat then 64 else sel_capacity s * 2)%nat else None)
             else mret (Some (sel_capacity s)));
    match grown with
    | None => mret (3, s)
    | Some cap =>
        let s := Selection (items s) cap (sel_bytes s) in
        ok ← malloc;
        if negb (ok : bool) then mret (3, s)
        else
          let item := Selected p zero_stat false false zero_stat None None in
          let item := match id with Some st => set_snapshot st item | None => item end in
          mret (0, Selection (items s ++ [item]) cap (sel_bytes s + n + 1))
    end.

(** The bytes of one read; [item] is the path so far. *)
Fixpoint list_bytes (hp : Bytes.Heap) (data : bytes) (item : buffer) (s : selection) : bio (Z * buffer * selection) :=
  match data with
  | [] => mret (0, item, s)
  | c :: t =>
      match jf_bytes_add_limit [c] JF_INPUT_MAX item with
      | None => mret (3, item, s)
      | Some grown =>
          if c =? 0 then
            '(rc, s) ← select_path (contents item.1) None s;
            if rc =? 0 then list_bytes hp t (MkBytes [] (b_capacity grown.1), grown.2) s else mret (rc, grown, s)
          else list_bytes hp t grown s
      end
  end.

Fixpoint list_loop (hp : Bytes.Heap) (n : nat) (fd total : Z) (item : buffer) (s : selection) : bio (Z * selection) :=
  match n with
  | O => halted
  | S n' =>
      r ← system (fun _ => read fd 4096);
      match r with
      | inl EINTR => list_loop hp n' fd total item s
      | inl _ => mret (3, s)
      | inr [] => mret (match contents item.1 with [] => 0 | _ => 2 end, s)
      | inr d =>
          if JF_INPUT_MAX - total <? zlen d then mret (2, s)
          else
            '(rc, item, s) ← list_bytes hp d item s;
            if rc =? 0 then list_loop hp n' fd (total + zlen d) item s else mret (rc, s)
      end
  end.

Definition list_paths (p : bytes) (s : selection) : bio (Z * selection) :=
  fd ← (if streq p (str "-") then mret (Some 0) else ask_for (OpenFile p) : bio (option Z));
  match fd with
  | None => mret (3, s)
  | Some fd =>
      hp ← stepping (fun w => Some (heap_at (notes w), w));
      '(rc, s) ← list_loop hp fuel fd 0 (no_bytes, O) s;
      if fd =? 0 then mret (rc, s)
      else ok ← close_fd fd; mret (if negb (ok : bool) && (rc =? 0) then 3 else rc, s)
  end.

(** ** The messages of a Maildir *)

(** The entries of one directory, whose path is [sub]. *)
Fixpoint maildir_entries (n : nat) (fd : Z) (sub : bytes) (s : selection) : bio (Z * selection) :=
  match n with
  | O => halted
  | S n' =>
      ent ← (ask_for (Readdir fd) : bio (errno + option bytes));
      match ent with
      | inl _ => mret (3, s)
      | inr None => mret (0, s)
      | inr (Some name) =>
          if streq name (str ".") || streq name (str "..") then maildir_entries n' fd sub s
          else
            st ← system (fun _ => fstatat fd name);
            match st with
            | None =>
                e ← ask_for Failure;
                if bool_decide (e = ENOENT) then maildir_entries n' fd sub s else mret (3, s)
            | Some st =>
                if negb (st_reg st) then maildir_entries n' fd sub s
                else
                  full ← join sub name;
                  match full with
                  | None => mret (3, s)
                  | Some full =>
                      '(rc, s) ← select_path full (Some st) s;
                      if rc =? 0 then maildir_entries n' fd sub s else mret (rc, s)
                  end
            end
      end
  end.

Definition maildir_directory (dir : Z) (base name : bytes) (s : selection) : bio (Z * selection) :=
  sub ← join base name;
  match sub with
  | None => mret (3, s)
  | Some sub =>
      fd ← system (fun _ => openat dir name Directory);
      match fd with
      | None => mret (3, s)
      | Some fd =>
          ok ← ask_for (Fdopendir fd);
          if negb (ok : bool) then _ ← close_fd fd; mret (3, s)
          else
            '(rc, s) ← maildir_entries fuel fd sub s;
            ok ← ask_for (Closedir fd);
            mret (if (rc =? 0) && negb (ok : bool) then 3 else rc, s)
      end
  end.

Definition compare_paths (a b : selected) : comparison := strcmp (path a) (path b).

Definition maildir_paths (cwd p : bytes) (s : selection) : bio (Z * selection) :=
  base ← absolute cwd p;
  match base with
  | None => mret (3, s)
  | Some base =>
      dir ← storage_directory base;
      match dir with
      | inl _ => mret (3, s)
      | inr dir =>
          '(rc, s) ← maildir_directory dir base (str "cur") s;
          '(rc, s) ← (if rc =? 0 then maildir_directory dir base (str "new") s else mret (rc, s));
          let s := if rc =? 0 then set_items (qsort compare_paths (items s)) s else s in
          _ ← close_fd dir;
          mret (rc, s)
      end
  end.

(** ** Identities *)

Definition compare_identities (a b : nat * stat) : comparison :=
  cmp_then (st_dev a.2 ?= st_dev b.2) (cmp_then (st_ino a.2 ?= st_ino b.2) (a.1 ?= b.1)%nat).

(** The identity of one item; [None] when memory is refused. *)
Definition snapshot_item (cwd : bytes) (item : selected) : bio (option selected) :=
  if snapshotted item then mret (Some item)
  else
    p ← absolute cwd (path item);
    match p with
    | None => mret None
    | Some p =>
        r ← open_parent p;
        match r with
        | inl ENOMEM => mret None
        | inl _ => mret (Some (set_sel_error "E_MESSAGE_OPEN" item))
        | inr (fd, name) =>
            st ← system (fun _ => fstatat fd name);
            _ ← close_fd fd;
            mret (Some match st with
                       | None => set_sel_error "E_MESSAGE_OPEN" item
                       | Some st => if st_reg st then set_snapshot st item
                                    else set_sel_error "E_MESSAGE_TYPE" (Selected (path item) st false (attempted item)
                                           (parent_identity item) (sel_error item) (first item))
                       end)
        end
    end.

(** All items in order, up to a refusal. *)
Fixpoint snapshot_items (cwd : bytes) (l : list selected) : bio (bool * list selected) :=
  match l with
  | [] => mret (true, [])
  | item :: t =>
      r ← snapshot_item cwd item;
      match r with
      | None => mret (false, l)
      | Some item => '(ok, t) ← snapshot_items cwd t; mret (ok, item :: t)
      end
  end.

(** The positions of the items with an identity. *)
Definition references (l : list selected) : list (nat * stat) :=
  omap (fun '(i, item) => if snapshotted item then Some (i, identity item) else None) (imap pair l).

(** [first] of each reference in their sorted order. *)
Fixpoint firsts (previous : option (stat * nat)) (l : list (nat * stat)) : list (nat * nat) :=
  match l with
  | [] => []
  | (i, st) :: t =>
      let f := match previous with Some (st', f) => if inode st st' then f else i | None => i end in
      (i, f) :: firsts (Some (st, f)) t
  end.
Definition set_firsts (l : list selected) : list selected :=
  foldr (fun p l => alter (set_first p.2) p.1 l) l (firsts None (qsort compare_identities (references l))).

Definition snapshot_paths (cwd : bytes) (s : selection) : bio (Z * selection) :=
  '(ok, l) ← snapshot_items cwd (items s);
  if negb (ok : bool) then mret (3, set_items l s)
  else
    ok ← malloc;
    if negb (ok : bool) then mret (3, set_items l s) else mret (0, set_items (set_firsts l) s).

(** ** Moves that may overlap *)

Definition compare_inode (a b : stat) : comparison := cmp_then (st_dev a ?= st_dev b) (st_ino a ?= st_ino b).

Definition name_capacity (fd : Z) : bio bool :=
  m ← system (fun _ => name_max fd);
  mret match m with inr (Some n) => 255 <=? n | _ => false end.

Fixpoint ancestor_capacity (n : nat) (p : bytes) (root_length : Z) : bio bool :=
  match n with
  | O => halted
  | S n' =>
      fd ← storage_directory p;
      match fd with
      | inr fd => ok ← name_capacity fd; _ ← close_fd fd; mret ok
      | inl ENOENT =>
          match before_slash p with
          | None => mret false
          | Some q => if zlen q <? root_length then mret false else ancestor_capacity n' q root_length
          end
      | inl _ => mret false
      end
  end.

(** [bsearch] in the sorted parents: whether one of them is that inode. *)
Definition among (parents : list stat) (st : stat) : bool := existsb (inode st) parents.

(** One of the two directories is none of the parents. *)
Definition outside (parents : list stat) (fd : Z) : bio bool :=
  st ← system (fun _ => fstat fd);
  mret match st with Some st => negb (among parents st) | None => false end.

(** The callback of the moves of a pool. *)
Definition independent_destination (parents : list stat) (cur newfd : Z) : bio bool :=
  a ← name_capacity cur;
  b ← (if (a : bool) then name_capacity newfd else mret false);
  if negb (b : bool) then mret false
  else
    a ← outside parents cur;
    if (a : bool) then outside parents newfd else mret false.

(** The items: their last names, and their parents in the items; up to the first
    that must not overlap. *)
Fixpoint independent_items (cwd : bytes) (i : nat) (l : list selected) : bio (bool * list selected) :=
  match l with
  | [] => mret (true, [])
  | item :: t =>
      let base := after_slash (path item) in
      let flags := find_sub (str ":2,") base in
      if (32768 <? zlen (path item)) || has_prefix (str "jaro.") base ||
         match flags with Some f => 175 <? zlen f | None => false end ||
         match first item with Some f => negb (f =? i)%nat | None => false end
      then mret (false, l)
      else
        source ← absolute cwd (path item);
        match source with
        | None => mret (false, l)
        | Some source =>
            r ← open_parent source;
            match r with
            | inl _ => mret (false, l)
            | inr (fd, _) =>
                st ← system (fun _ => fstat fd);
                _ ← close_fd fd;
                match st with
                | None => mret (false, l)
                | Some st => '(ok, t) ← independent_items cwd (S i) t; mret (ok, set_parent st item :: t)
                end
            end
        end
  end.

Fixpoint adjacent_equal (l : list bytes) : bool :=
  match l with a :: (b :: _) as t => streq a b || adjacent_equal t | _ => false end.

(** [cur] or [new] of a destination: whether it may be used. *)
Definition independent_half (parents : list stat) (o : option Z) : bio bool :=
  match o with Some fd => independent_destination parents fd fd | None => mret true end.

Definition opened_half (fd : Z) (name : bytes) : bio (option Z * bool) :=
  r ← system (fun _ => openat fd name Directory);
  match r with
  | Some h => mret (Some h, false)
  | None => e ← ask_for Failure; mret (None, negb (bool_decide (e = ENOENT)))
  end.

Definition close_half (o : option Z) : bio unit := match o with Some fd => _ ← close_fd fd; mret tt | None => mret tt end.

(** The turn of the loop for a destination, after the test for repetitions. *)
Definition independent_local (root : bytes) (parents : list stat) (local_ : bytes) : bio bool :=
  if 32768 <? zlen local_ then mret false
  else
    p ← join root local_;
    match p with
    | None => mret false
    | Some p =>
        r ← storage_directory p;
        match r with
        | inl ENOENT => ancestor_capacity (S (length p)) p (zlen root)
        | inl _ => mret false
        | inr fd =>
            ok ← name_capacity fd;
            if negb (ok : bool) then _ ← close_fd fd; mret false
            else
              '(cur, unknown) ← opened_half fd (str "cur");
              '(newfd, unknown') ← opened_half fd (str "new");
              safe ← (if unknown || unknown' then mret false
                      else
                        a ← independent_half parents cur;
                        if (a : bool) then independent_half parents newfd else mret false);
              _ ← close_half cur; _ ← close_half newfd; _ ← close_fd fd;
              mret safe
        end
    end.

Fixpoint independent_locals (root : bytes) (parents : list stat) (previous : option bytes) (l : list bytes) : bio bool :=
  match l with
  | [] => mret true
  | x :: t =>
      ok ← (if match previous with Some y => streq x y | None => false end then mret true
            else independent_local root parents x);
      if (ok : bool) then independent_locals root parents (Some x) t else mret false
  end.

(** The parents, sorted, when the moves may overlap. *)
Definition independent (cwd root : bytes) (s : selection) (rules : list jf_rule) : bio (option (list stat) * selection) :=
  a ← malloc; b ← malloc; c ← malloc;
  if negb (a && b && c) then mret (None, s)
  else
    '(ok, l) ← independent_items cwd 0 (items s);
    let s := set_items l s in
    if negb (ok : bool) then mret (None, s)
    else if adjacent_equal (qsort strcmp (map (fun i => after_slash (path i)) l)) then mret (None, s)
    else
      let parents := qsort compare_inode (map parent_identity l) in
      safe ← independent_locals root parents None (qsort strcmp (map local rules));
      mret (if (safe : bool) then Some parents else None, s).
End Selection.
