(* ===== verification/Batch.v ===== *)
(** * The batch (src/jaro-filter.c)

    For each selected message: the verified opening, the decision, the move and
    the record on the standard output; one by one or in windows of the pool; and
    the program around them, from its arguments to its exit status. *)
From S2P Require Import Prelude Sha256 Rules Resolve Classify Policy Bytes Cache Headers Files Generation PoolFacts Pool Storage Session Selection.

(** ** Decisions *)

(** [item] is a position in the selection; [d_name] is in the directory [parentfd]. *)
Record decision := Decision {
  item : nat; winner : option jf_rule; opened : stat; d_source : bytes; d_local : bytes; d_name : bytes;
  d_detail : option string; digest : bytes; header_size : Z; d_index : Z; d_fd : option Z; parentfd : option Z;
  d_rc : Z; noop : bool; quarantine : bool; recovery : jf_storage_recovery }.
Definition set_source v d := Decision (item d) (winner d) (opened d) v (d_local d) (d_name d) (d_detail d) (digest d) (header_size d) (d_index d) (d_fd d) (parentfd d) (d_rc d) (noop d) (quarantine d) (recovery d).
Definition set_outcome rc v d := Decision (item d) (winner d) (opened d) (d_source d) (d_local d) (d_name d) v (digest d) (header_size d) (d_index d) (d_fd d) (parentfd d) rc (noop d) (quarantine d) (recovery d).
Definition set_parentfd fd n d := Decision (item d) (winner d) (opened d) (d_source d) (d_local d) n (d_detail d) (digest d) (header_size d) (d_index d) (d_fd d) fd (d_rc d) (noop d) (quarantine d) (recovery d).
Definition set_fd v d := Decision (item d) (winner d) (opened d) (d_source d) (d_local d) (d_name d) (d_detail d) (digest d) (header_size d) (d_index d) v (parentfd d) (d_rc d) (noop d) (quarantine d) (recovery d).
Definition set_opened v d := Decision (item d) (winner d) v (d_source d) (d_local d) (d_name d) (d_detail d) (digest d) (header_size d) (d_index d) (d_fd d) (parentfd d) (d_rc d) (noop d) (quarantine d) (recovery d).
Definition set_quarantine v d := Decision (item d) (winner d) (opened d) (d_source d) (d_local d) (d_name d) (d_detail d) (digest d) (header_size d) (d_index d) (d_fd d) (parentfd d) (d_rc d) (noop d) v (recovery d).
Definition set_winner v d := Decision (item d) (Some v) (opened d) (d_source d) (d_local d) (d_name d) (d_detail d) (digest d) (header_size d) (d_index d) (d_fd d) (parentfd d) (d_rc d) (noop d) (quarantine d) (recovery d).
Definition set_local v d := Decision (item d) (winner d) (opened d) (d_source d) v (d_name d) (d_detail d) (digest d) (header_size d) (d_index d) (d_fd d) (parentfd d) (d_rc d) (noop d) (quarantine d) (recovery d).
Definition set_headers h s d := Decision (item d) (winner d) (opened d) (d_source d) (d_local d) (d_name d) (d_detail d) h s (d_index d) (d_fd d) (parentfd d) (d_rc d) (noop d) (quarantine d) (recovery d).
Definition set_noop v d := Decision (item d) (winner d) (opened d) (d_source d) (d_local d) (d_name d) (d_detail d) (digest d) (header_size d) (d_index d) (d_fd d) (parentfd d) (d_rc d) v (quarantine d) (recovery d).
Definition set_recovery v d := Decision (item d) (winner d) (opened d) (d_source d) (d_local d) (d_name d) (d_detail d) (digest d) (header_size d) (d_index d) (d_fd d) (parentfd d) (d_rc d) (noop d) (quarantine d) v.

Definition no_recovery : jf_storage_recovery := MkRecovery None None None None.
(** What [memset] and the first lines of [prepare] leave. *)
Definition new_decision (i : nat) (index : Z) : decision :=
  Decision i None zero_stat [] [] [] None [] 0 index None None 7 false false no_recovery.

(** The locals of [prepare], with the items, whose [attempted] it sets. *)
Definition preparing : Type := decision * list selected.
Abbreviation of_decision f := (fun l : preparing => (f l.1, l.2)).
Definition fails_with (rc : Z) (detail : string) : preparing -> preparing := of_decision (set_outcome rc (Some detail)).

(** [item->first] of item [i], and its [attempted]. *)
Definition first_of (items : list selected) (i : nat) : option nat :=
  match items !! i with Some it => first it | None => None end.
Definition first_attempted (items : list selected) (i : nat) : bool :=
  match first_of items i with
  | Some f => match items !! f with Some it => attempted it | None => false end
  | None => false
  end.
Definition set_first_attempted (b : bool) (i : nat) (items : list selected) : list selected :=
  match first_of items i with Some f => alter (set_attempted b) f items | None => items end.

Definition set_sequence (n : Z) (s : jf_storage) : jf_storage :=
  MkStorage (root s) (engine s) (lock s) (random s) (root_identity s) (lock_identity s) (nonce s) n (stop s)
    (root_path s) (has_allowed s) (borrowed s).

Section Batch.
Context `{SU : Surroundings} `{RX : PosixRegex} (fuel : nat).
Context (cwd root : bytes) (policy : jf_policy).

Definition is_lock (storage : option jf_storage) (st : stat) : bool :=
  match storage with Some s => inode st (lock_identity s) | None => false end.

(** From the start to the checks before the message is opened: the descriptor of
    its directory, its name and what the name stood for. *)
Definition prepare_name (it : selected) (storage : option jf_storage) (i : nat) : leaving preparing (Z * bytes * stat) :=
  source ← obtain (fails_with 3 "E_MEMORY") (absolute cwd (path it));
  _ ← modify (of_decision (set_source source));
  _ ← match sel_error it with Some e => return_with (fails_with 7 e) | None => mret tt end;
  _ ← match storage, first it with
      | Some _, Some _ =>
          a ← gets (fun l => first_attempted l.2 i);
          if (a : bool) then return_with (fails_with 7 "E_MESSAGE_CHANGED")
          else modify (fun l => (l.1, set_first_attempted true i l.2))
      | _, _ => mret tt
      end;
  r ← doing (open_parent source);
  match r with
  | inl e => return_with (if bool_decide (e = ENOMEM) then fails_with 3 "E_MEMORY" else fails_with 7 "E_MESSAGE_OPEN")
  | inr (parent, name) =>
      _ ← modify (of_decision (set_parentfd (Some parent) name));
      before ← obtain (fails_with 7 "E_MESSAGE_OPEN") (system (fun _ => fstatat parent name));
      if negb (st_reg before) then return_with (fails_with 7 "E_MESSAGE_TYPE")
      else if is_lock storage before then return_with (fails_with 7 "E_MESSAGE_TYPE")
      else if snapshotted it && negb (jf_storage_same before (identity it)) then return_with (fails_with 7 "E_MESSAGE_CHANGED")
      else mret (parent, name, before)
  end.

(** The message opened, with its identity. *)
Definition prepare_open (storage : option jf_storage) (parent : Z) (name : bytes) (before : stat) : leaving preparing (Z * stat) :=
  fd ← obtain (fails_with 7 "E_MESSAGE_OPEN") (ask_for (OpenMessage parent name) : bio (option Z));
  _ ← modify (of_decision (set_fd (Some fd)));
  let quarantined b l := fails_with 7 "E_MESSAGE_CHANGED" (set_quarantine b l.1, l.2) in
  st ← obtain (quarantined (match storage with Some _ => true | None => false end)) (system (fun _ => fstat fd));
  _ ← modify (of_decision (set_opened st));
  if is_lock storage st then return_with (quarantined true)
  else if negb (st_reg st) || negb (jf_storage_same before st) then return_with (fails_with 7 "E_MESSAGE_CHANGED")
  else mret (fd, st).

(** The status and detail of a message whose headers were refused. *)
Definition headers_status (rc : Z) (e : jf_error) : Z :=
  if negb (rc =? 3) || String.eqb (err_code e) "E_MESSAGE_IO" then 7 else rc.

(** The descriptor and the name still show the message that was opened. *)
Definition unchanged (parent fd : Z) (name : bytes) (st : stat) : bio bool :=
  after ← system (fun _ => fstat fd);
  match after with
  | None => mret false
  | Some after =>
      current ← system (fun _ => fstatat parent name);
      mret match current with Some c => jf_storage_same st after && jf_storage_same st c | None => false end
  end.

(** The headers and the decision. *)
Definition prepare_decide (parent fd : Z) (name : bytes) (st : stat) : leaving preparing unit :=
  l ← doing (ask_for (MessageReads fd));
  al ← doing (stepping (fun w => Some (allocator_at (notes w), w)));
  match jf_headers_read (AL := al) l 0 with
  | Fail rc e => return_with (fails_with (headers_status rc e) (err_code e))
  | Ok h =>
      _ ← demand (fails_with 7 "E_MESSAGE_CHANGED") (unchanged parent fd name st);
      match jf_policy_classify (Some policy) (Some (jf_headers_message h)) with
      | Fail rc e => return_with (fails_with rc (err_code e))
      | Ok (w, _) =>
          match (w ← w; entries policy !! w) with
          | None => doing halted
          | Some e =>
              _ ← modify (of_decision (fun d => set_outcome 0 None (set_winner (rule e) d)));
              p ← obtain (of_decision (set_outcome 3 None)) (join root (local (rule e)));
              modify (of_decision (fun d => set_headers (wire_digest h) (wire_size h) (set_local p d)))
          end
      end
  end.

Definition prepare (items : list selected) (i : nat) (storage : option jf_storage) (index : Z) : bio preparing :=
  match items !! i with
  | None => halted
  | Some it =>
      '(l, _) ← (('(parent, name, before) ← prepare_name it storage i;
                  '(fd, st) ← prepare_open storage parent name before;
                  prepare_decide parent fd name st) : leaving preparing unit) (new_decision i index, items);
      mret l
  end.

(** ** Moves and records *)

(** The decision and the sequence number reached; [jf_storage_move] writes its
    detail. *)
Definition move_decision (d : decision) (s : jf_storage) : bio (decision * Z) :=
  if negb (d_rc d =? 0) then mret (d, sequence s)
  else
    stop_ ← match stop s with ShouldStop => system (fun _ => stop_requested) | _ => mret false end;
    if (stop_ : bool) then mret (set_outcome 7 (Some "E_INTERRUPTED"%string) d, sequence s)
    else
      match winner d with
      | None => halted
      | Some w =>
          '(rc, detail, r, seq_) ← system (fun _ =>
            jf_storage_move fuel s (fdz (parentfd d)) (d_name d) (fdz (d_fd d)) (opened d) (header_size d) (digest d)
              (local w) (d_source d));
          let d := set_recovery r (set_outcome rc (Some detail) d) in
          mret (if rc =? 1 then set_noop true (set_outcome 0 (Some detail) d) else d, seq_)
      end.

Definition close_decision (d : decision) (storage : option jf_storage) (items : list selected) : bio preparing :=
  d ← match d_fd d with
      | Some fd =>
          if quarantine d then mret d
          else
            ok ← close_fd fd;
            let d := if negb (ok : bool) && (d_rc d =? 0) then set_outcome 7 (Some "E_MESSAGE_IO"%string) d else d in
            mret (set_fd None d)
      | None => mret d
      end;
  d ← match parentfd d with
      | Some fd => _ ← close_fd fd; mret (set_parentfd None (d_name d) d)
      | None => mret d
      end;
  mret (d, match storage with
           | Some _ => if noop d && (d_rc d =? 0) then set_first_attempted false (item d) items else items
           | None => items
           end).

(** The fields of a record. *)
Definition record (index : Z) (p : bytes) (r : option jf_rule) (local_ : option bytes) (status detail : bytes) : list bytes :=
  let error := streq status (str "error") in
  let of_rule f := match r with Some r => f r | None => [] end in
  let unless_error s := if error then [] else s in
  [decimal_of index; p; of_rule id;
   match r with Some _ => if negb error && negb (streq status (str "noop")) then str "move" else str "none" | None => str "none" end;
   unless_error (of_rule logical); unless_error (match local_ with Some l => l | None => [] end);
   unless_error (of_rule sieve); status; of_rule source;
   decimal_of (match r with Some r => line r | None => 0 end); detail].

Definition shown_byte (c : Z) : bytes :=
  if (c <? 32) || (127 <=? c) || (c =? DQ) || (c =? BSL) then BSL :: ch "x" :: hex_byte c else [c].
Definition recovery_diagnostic (p : option bytes) : bio unit :=
  match p with
  | Some p => fputs (str "E_RETAINED_PATH " ++ [DQ] ++ concat (map shown_byte p) ++ [DQ; LF])
  | None => mret tt
  end.

Definition status_text (d : decision) (moving : bool) : bytes :=
  if negb (d_rc d =? 0) then str "error"
  else if noop d then str "noop" else if moving then str "moved" else str "classified".

(** The fields of the record of a decision. *)
Definition decision_record (d : decision) (p : bytes) (moving : bool) : list bytes :=
  record (d_index d) p (winner d) (if d_rc d =? 0 then Some (d_local d) else None) (status_text d moving)
    (if d_rc d =? 0 then [] else match d_detail d with Some s => str s | None => [] end).

(** The status, and the code of the error that ends the batch. *)
Definition emit_decision (d : decision) (moving : bool) (items : list selected) (global : option string) :
    bio (Z * option string) :=
  let p := match items !! item d with Some it => path it | None => [] end in
  ok ← (if d_rc d =? 3 then mret true else fields (decision_record d p moving));
  let '(rc, detail) := if (ok : bool) then (d_rc d, d_detail d) else (3, Some "E_OUTPUT"%string) in
  let global := if rc =? 3 then Some (match detail with Some s => s | None => "E_MEMORY"%string end) else global in
  _ ← recovery_diagnostic (r_source (recovery d));
  _ ← recovery_diagnostic (r_destination (recovery d));
  _ ← recovery_diagnostic (r_temporary (recovery d));
  mret (rc, global).

Definition free_decision (d : decision) : bio unit := close_half (d_fd d).

(** ** One message after the other *)

(** [None] is the failure for memory. *)
Definition already_there (parent : Z) (destination_ : bytes) : bio (option bool) :=
  dir ← storage_directory destination_;
  match dir with
  | inl e => mret (if bool_decide (e = ENOMEM) then None else Some false)
  | inr dir =>
      a ← system (fun _ => fstat parent);
      let child name same :=
        match a with
        | Some a =>
            if (same : bool) then mret true
            else
              c ← system (fun _ => openat dir name Directory);
              match c with
              | Some c => b ← system (fun _ => fstat c); _ ← close_fd c;
                          mret match b with Some b => inode a b | None => false end
              | None => mret false
              end
        | None => mret false
        end in
      same ← child (str "cur") false;
      same ← child (str "new") same;
      _ ← close_fd dir;
      mret (Some same)
  end.

(** The status, the items, the storage and the error of the batch. *)
Definition classify (i : nat) (items : list selected) (storage : option jf_storage) (global : option string) :
    bio (Z * list selected * option jf_storage * option string) :=
  '(d, items) ← prepare items i storage (Z.of_nat i + 1);
  '(d, storage) ← (if negb (d_rc d =? 0) then mret (d, storage)
                   else match storage with
                   | Some s =>
                       '(d, seq_) ← move_decision d s;
                       mret (d, Some (set_sequence seq_ s))
                   | None =>
                       r ← already_there (fdz (parentfd d)) (d_local d);
                       mret (match r with
                             | None => set_outcome 3 (d_detail d) (set_noop true d)
                             | Some b => set_noop b d
                             end, None)
                   end);
  '(d, items) ← close_decision d storage items;
  '(rc, global) ← emit_decision d (match storage with Some _ => true | None => false end) items global;
  let '(rc, global) := if quarantine d then (3, Some "E_BATCH_LOCK_CHANGED"%string) else (rc, global) in
  _ ← free_decision d;
  mret (rc, items, storage, global).

(** The loop over the selection from message [i] on, and the last flush. *)
Fixpoint singles (n i : nat) (items : list selected) (storage : option jf_storage) (global : option string) (aggregate : Z) :
    bio (Z * list selected * option jf_storage * option string) :=
  match n with
  | O => ok ← fflush; mret (if (ok : bool) then aggregate else 3, items, storage, global)
  | S n' =>
      stop_ ← get_interrupted;
      if negb (stop_ =? 0) then ok ← fflush; mret (if (ok : bool) then aggregate else 3, items, storage, global)
      else
        '(rc, items, storage, global) ← classify i items storage global;
        if rc =? 3 then mret (3, items, storage, global)
        else singles n' (S i) items storage global (if rc =? 0 then aggregate else 7)
  end.

(** ** Windows of the pool *)

Definition other_parent (items : list selected) (d : decision) : bio bool :=
  st ← system (fun _ => fstat (fdz (parentfd d)));
  mret match st, items !! item d with
       | Some st, Some it => negb (inode st (parent_identity it))
       | _, _ => true
       end.

(** The decisions of a window, and whether one is quarantined. *)
Fixpoint prepare_window (n start : nat) (items : list selected) (s : jf_storage) :
    bio (list decision * list selected * bool) :=
  match n with
  | O => mret ([], items, false)
  | S n' =>
      if (length items <=? start)%nat then mret ([], items, false)
      else
        stop_ ← pool_stopped;
        if (stop_ : bool) then mret ([], items, false)
        else
          '(d, items) ← prepare items start (Some s) (Z.of_nat start + 1);
          changed ← (if d_rc d =? 0 then other_parent items d else mret false);
          let d := if (changed : bool) then set_outcome 7 (Some "E_MESSAGE_CHANGED"%string) d else d in
          if (d_rc d =? 3) || quarantine d then _ ← pool_stop; mret ([d], items, quarantine d)
          else
            '(ds, items, q) ← prepare_window n' (S start) items s;
            mret (d :: ds, items, q)
  end.

(** The jobs in the order they were taken, each on the view of its worker. *)
Fixpoint run_jobs (l : list (nat * Z)) (ds : list decision) : bio (list decision) :=
  match l with
  | [] => mret ds
  | (w, job) :: t =>
      vs ← stepping (fun w_ => Some (job_views w_, w_));
      match vs !! w, ds !! Z.to_nat job with
      | Some v, Some d =>
          '(d, seq_) ← move_decision d v;
          _ ← stepping (fun w_ => Some (tt, set_job_views (<[w := set_sequence seq_ v]> vs) w_));
          run_jobs t (<[Z.to_nat job := d]> ds)
      | _, _ => halted
      end
  end.

Definition is_stop_call (e : Pool.event) : bool := match e with StopCall => true | _ => false end.

(** [jf_pool_window] over the decisions: the threads take the jobs; the jobs that
    failed for memory are those that stopped the pool. *)
Definition pool_window (ds : list decision) : bio (list decision) :=
  match ds with
  | [] => mret []
  | _ =>
      _ ← coordinate (Arranges (map Z.of_nat (seq 0 (length ds))));
      _ ← coordinate (Opens (length ds));
      _ ← others_run;
      _ ← between_calls;
      taken ← stepping (fun w => Some (rev (began (events w)), w));
      moved ← run_jobs taken ds;
      called ← stepping (fun w => Some (existsb is_stop_call (window (events w)), w));
      if Bool.eqb (existsb (fun d => d_rc d =? 3) moved) called then mret moved else halted
  end.

Fixpoint close_decisions (s : jf_storage) (ds : list decision) (items : list selected) : bio (list decision * list selected) :=
  match ds with
  | [] => mret ([], items)
  | d :: t =>
      '(d, items) ← close_decision d (Some s) items;
      '(t, items) ← close_decisions s t items;
      mret (d :: t, items)
  end.

(** The records, up to one that ends the batch: the last status, the aggregate. *)
Fixpoint emit_window (ds : list decision) (items : list selected) (global : option string) (rc aggregate : Z) :
    bio (Z * Z * option string) :=
  match ds with
  | [] => mret (rc, aggregate, global)
  | d :: t =>
      '(rc, global) ← emit_decision d true items global;
      if rc =? 3 then _ ← pool_stop; mret (3, aggregate, global)
      else emit_window t items global rc (if rc =? 0 then aggregate else 7)
  end.

Fixpoint each (f : decision -> bio unit) (ds : list decision) : bio unit :=
  match ds with [] => mret tt | d :: t => _ ← f d; each f t end.
Definition retained (d : decision) : bio unit :=
  let r := recovery d in
  _ ← recovery_diagnostic (r_published r);
  _ ← recovery_diagnostic (r_source r);
  _ ← recovery_diagnostic (r_destination r);
  recovery_diagnostic (r_temporary r).

(** What follows a window that has run: whether the batch goes on, and the status,
    the aggregate, the error and whether the pool is still there. *)
Definition settle_window (ds : list decision) (items : list selected) (quarantined : bool) (global : option string) (rc aggregate : Z) :
    bio (bool * (Z * Z * option string * bool)) :=
  '(rc, aggregate, global) ← emit_window ds items global rc aggregate;
  ok ← fflush;
  '(rc, global) ← (if (ok : bool) then mret (rc, global) else _ ← pool_stop; mret (3, Some "E_OUTPUT"%string));
  _ ← (if rc =? 3 then each retained ds else mret tt);
  stop_ ← (if (rc =? 3) || quarantined then mret true else pool_stopped);
  if (stop_ : bool) then
    sig ← pool_finish;
    global ← (if negb (sig =? 0) then stepping (fun w => Some (Some "E_INTERRUPTED"%string, set_interrupted sig w)) else mret global);
    let '(rc, global) := if quarantined then (3, Some "E_BATCH_LOCK_CHANGED"%string) else (rc, global) in
    _ ← each free_decision ds;
    mret (false, (rc, aggregate, global, false))
  else
    _ ← each free_decision ds;
    mret (true, (rc, aggregate, global, true)).

(** [n] is at least the number of windows left; the status, the error and whether
    the pool is still there. *)
Fixpoint parallel_loop (n start : nat) (items : list selected) (s : jf_storage) (global : option string) (rc aggregate : Z) :
    bio (Z * option string * bool) :=
  let leave rc aggregate global pool_ := mret (if rc =? 3 then 3 else aggregate, global, pool_) in
  match n with
  | O => halted
  | S n' =>
      if (length items <=? start)%nat then leave rc aggregate global true
      else
        stop_ ← pool_stopped;
        if (stop_ : bool) then leave rc aggregate global true
        else
          '(ds, items, quarantined) ← prepare_window JF_POOL_WINDOW start items s;
          ds ← pool_window ds;
          '(ds, items) ← close_decisions s ds items;
          '(on, (rc, aggregate, global, pool_)) ← settle_window ds items quarantined global rc aggregate;
          if (on : bool) then parallel_loop n' (start + length ds) items s global rc aggregate
          else leave rc aggregate global pool_
  end.
Definition parallel (items : list selected) (s : jf_storage) (global : option string) : bio (Z * option string * bool) :=
  parallel_loop (S (length items)) 0 items s global 0 0.
End Batch.
