(* ===== verification/Main.v ===== *)
(** * The batch program (main of src/jaro-filter.c)

    The arguments, the selection, the pinned generation and its policy, the start
    of the moves, the batch, and the exit status. *)
From S2P Require Import Prelude Sha256 Rules Resolve Classify Policy Bytes Cache Headers Files Generation PoolFacts Pool Storage Session Selection Batch.

Definition usage_line : bytes :=
  str "jaro-filter --root ROOT [--generation ID] [--mode classify|apply] (--maildir DIR | --files0-from FILE | -- PATH...)".

(** [selection_] is how the messages are selected: 0 for not yet. *)
Record options := Options {
  o_root : option bytes; o_generation : option bytes; o_mode : option bytes;
  o_maildir : option bytes; o_list : option bytes; selection_ : Z }.
Definition no_options : options := Options None None None None None 0.

Inductive slot := RootSlot | GenerationSlot | ModeSlot | MaildirSlot | ListSlot.
Definition get_slot (k : slot) (o : options) : option bytes :=
  match k with
  | RootSlot => o_root o | GenerationSlot => o_generation o | ModeSlot => o_mode o
  | MaildirSlot => o_maildir o | ListSlot => o_list o
  end.
Definition set_slot (k : slot) (v : bytes) (o : options) : options :=
  match k with
  | RootSlot => Options (Some v) (o_generation o) (o_mode o) (o_maildir o) (o_list o) (selection_ o)
  | GenerationSlot => Options (o_root o) (Some v) (o_mode o) (o_maildir o) (o_list o) (selection_ o)
  | ModeSlot => Options (o_root o) (o_generation o) (Some v) (o_maildir o) (o_list o) (selection_ o)
  | MaildirSlot => Options (o_root o) (o_generation o) (o_mode o) (Some v) (o_list o) (selection_ o)
  | ListSlot => Options (o_root o) (o_generation o) (o_mode o) (o_maildir o) (Some v) (selection_ o)
  end.
Definition set_selection (n : Z) (o : options) : options :=
  Options (o_root o) (o_generation o) (o_mode o) (o_maildir o) (o_list o) n.

(** What an argument other than [--] names: the slot of its value, if it may come
    here. *)
Definition slot_of (a : bytes) (o : options) : option (slot * options) :=
  if streq a (str "--root") then Some (RootSlot, o)
  else if streq a (str "--generation") then Some (GenerationSlot, o)
  else if streq a (str "--mode") then Some (ModeSlot, o)
  else if streq a (str "--maildir") then if selection_ o =? 0 then Some (MaildirSlot, set_selection 1 o) else None
  else if streq a (str "--files0-from") then if selection_ o =? 0 then Some (ListSlot, set_selection 2 o) else None
  else None.

(** The arguments are a text to print, wrong with a status, or options with the
    messages named. *)
Inductive arguments := Prints (text : bytes) | Usage (rc : Z) | Wants (o : options) (s : selection).

Section Main.
Context `{SU : Surroundings} `{RX : PosixRegex} (fuel : nat).

Fixpoint select_all (l : list bytes) (s : selection) : bio (Z * selection) :=
  match l with
  | [] => mret (0, s)
  | p :: t => '(rc, s) ← select_path p None s; if rc =? 0 then select_all t s else mret (rc, s)
  end.

(** [alone]: there is one argument. *)
Fixpoint parse_arguments (alone : bool) (l : list bytes) (o : options) (s : selection) : bio arguments :=
  match l with
  | [] => mret (Wants o s)
  | a :: t =>
      if alone && streq a (str "--help") then mret (Prints usage_line)
      else if alone && streq a (str "--version") then mret (Prints JF_COMPILER_ID)
      else if streq a (str "--") then
        if negb (selection_ o =? 0) || match t with [] => true | _ => false end then mret (Usage 2)
        else '(rc, s) ← select_all t s; mret (if rc =? 0 then Wants (set_selection 3 o) s else Usage rc)
      else match slot_of a o with
      | None => mret (Usage 2)
      | Some (k, o) =>
          match get_slot k o, t with
          | Some _, _ | None, [] | None, [] :: _ => mret (Usage 2)
          | None, v :: t => parse_arguments alone t (set_slot k v o) s
          end
      end
  end.

(** ** The body, up to the end it jumps to *)

Record main_state := MainState {
  m_rc : Z; m_code : option string; m_pool : bool; m_storage : option jf_storage }.
Definition fails (rc : Z) (code : option string) (m : main_state) : main_state := MainState rc code (m_pool m) (m_storage m).
(** [{ rc=...; goto done; }], the code left as it is. *)
Definition fails_rc (rc : Z) (m : main_state) : main_state := fails rc (m_code m) m.
Abbreviation body := (leaving main_state).

(** [jf_generation_pin] on the engine's tree, with the code of its error; the note
    holds what it made of the tree, also when it was cut. *)
Definition generation_pin (root : bytes) (id : option bytes) : bio (Z * jf_generation * option string) := fun w =>
  let before := engine_at (notes w) in
  let '(r, after) := (_ ← clear_error; jf_generation_pin (KN := kernel_at (notes w)) (HP := heap_at (notes w)) fuel root id) before in
  ('(rc, g) ← r; Some (rc, g, err_code <$> reported after), add_note (Pins root id (kernel_at (notes w)) before after) w).

(** [jf_cache_policy] with the memory of the C library. *)
Definition cache_policy (g : jf_generation) : bio (res jf_policy) :=
  stepping (fun w => Some (jf_cache_policy (HP := heap_at (notes w)) (AL := allocator_at (notes w)) (Some (View (contents (g_cache g)))) 0, w)).

(** [sigaction] for the four signals, in order. *)
Fixpoint install_handlers (l : list Z) : bio bool :=
  match l with
  | [] => mret true
  | sig :: t =>
      ok ← ask_for (Sigaction sig);
      if (ok : bool) then _ ← stepping (fun w => Some (tt, set_handlers w)); install_handlers t else mret false
  end.
Definition managed_signals : list Z := [2; 15; 1; 13].

Definition policy_rules (p : jf_policy) : list jf_rule := map rule (entries p).

(** The start of the moves: the storage, the items, and the callback of a pool. *)
Definition begin_apply (cwd root : bytes) (g : jf_generation) (p : jf_policy) (s : selection) : body (jf_storage * selection) :=
  _ ← demand (fails_rc 3) (install_handlers managed_signals);
  '(rc, s) ← doing (snapshot_paths cwd s);
  if negb (rc =? 0) then return_with (fails_rc rc)
  else
    '(safe, s) ← doing (independent cwd root s (policy_rules p));
    _ ← match safe with
        | Some _ =>
            r ← doing (ask_for PoolResources);
            modify (fun m => MainState (m_rc m) (m_code m) (jf_pool_start r.1.1 r.1.2 r.2).1 (m_storage m))
        | None => mret tt
        end;
    '(rc, detail, st) ← doing (system (fun _ => jf_storage_begin fuel root (g_id g) (g_directory g) true));
    _ ← modify (fun m => MainState (m_rc m) (Some detail) (m_pool m) (Some st));
    if negb (rc =? 0) then return_with (fails_rc rc)
    else
      pool_ ← gets m_pool;
      if (pool_ : bool) then
        (** [destination_allowed] is set, and called by the moves only. *)
        let st := MkStorage (Storage.root st) (engine st) (lock st) (random st) (root_identity st) (lock_identity st) (nonce st)
                    (sequence st) (stop st) (root_path st) true (borrowed st) in
        sig ← doing get_interrupted;
        _ ← doing (pool_bind st (negb (sig =? 0)));
        _ ← modify (fun m => MainState (m_rc m) (m_code m) (m_pool m) (Some st));
        mret (st, s)
      else mret (st, s).

(** The messages, when everything is ready. *)
Definition batch (cwd root : bytes) (p : jf_policy) (apply : option jf_storage) (s : selection) : body unit :=
  pool_ ← gets m_pool;
  match (pool_ : bool), apply with
  | true, Some st =>
      code ← gets m_code;
      '(rc, code, pool_) ← doing (parallel fuel cwd root p (items s) st code);
      modify (fun m => MainState rc code pool_ (m_storage m))
  | _, _ =>
      code ← gets m_code;
      '(rc, _, apply, code) ← doing (singles fuel cwd root p (length (items s)) 0 (items s) apply code 0);
      modify (fun m => MainState rc code (m_pool m) (match apply with Some st => Some st | None => m_storage m end))
  end.

Definition header_written (g : jf_generation) (apply : option jf_storage) : bio bool :=
  ok ← fields [str "JFD1"; g_id g];
  if (ok : bool) then match apply with Some _ => fflush | None => mret true end else mret false.

Definition main_body (o : options) (root_ : bytes) (s : selection) : body unit :=
  cwd ← obtain (fails_rc 3) (ask_for GetCwd : bio (option bytes));
  root ← obtain (fails_rc 3) (absolute cwd root_);
  '(rc, s) ← doing (if selection_ o =? 1 then maildir_paths fuel cwd (default [] (o_maildir o)) s
                    else if selection_ o =? 2 then list_paths fuel (default [] (o_list o)) s
                    else mret (0, s));
  if negb (rc =? 0) then return_with (fails rc (Some (if rc =? 2 then "E_PATH_LIST"%string else "E_SELECTION_IO"%string)))
  else
    '(rc, g, code) ← doing (generation_pin root (o_generation o));
    if negb (rc =? 0) then return_with (fails rc code)
    else
      r ← doing (cache_policy g);
      match r with
      | Fail rc e => return_with (fails rc (Some (err_code e)))
      | Ok p =>
          '(apply, s) ← (if match o_mode o with Some m => streq m (str "apply") | None => false end && negb (length (items s) =? 0)%nat
                         then '(st, s) ← begin_apply cwd root g p s; mret (Some st, s)
                         else mret (None, s));
          _ ← demand (fails 3 (Some "E_OUTPUT"%string)) (header_written g apply);
          batch cwd root p apply s
      end.

(** ** The end *)

Definition failure_text (rc : Z) (code : option string) : bytes :=
  str (match code with
       | Some c => c
       | None => if rc =? 5 then "E_GENERATION" else if rc =? 6 then "E_BUSY" else "E_IO"
       end) ++ str " native batch classification failed" ++ [LF].

Definition main_done (m : main_state) : bio Z :=
  _ ← (if m_pool m then
         sig ← pool_finish;
         if negb (sig =? 0) then stepping (fun w => Some (tt, set_interrupted sig w)) else mret tt
       else mret tt);
  sig ← get_interrupted;
  let '(rc, code) := if negb (sig =? 0) then (128 + sig, Some "E_INTERRUPTED"%string) else (m_rc m, m_code m) in
  _ ← (if negb (rc =? 0) && negb (rc =? 7) then fputs (failure_text rc code) else mret tt);
  _ ← match m_storage m with Some st => _ ← system (fun _ => jf_storage_close st); mret tt | None => mret tt end;
  mret rc.

Definition valid_mode (o : options) : bool :=
  match o_mode o with Some m => streq m (str "classify") || streq m (str "apply") | None => true end.

(** [main], from its arguments after the name of the program. *)
Definition main (argv : list bytes) : bio Z :=
  let usage rc := main_done (MainState (if rc =? 3 then 3 else 2)
                     (Some (if rc =? 3 then "E_MEMORY"%string else "E_USAGE"%string)) false None) in
  r ← parse_arguments (length argv =? 1)%nat argv no_options no_selection;
  match r with
  | Prints text => _ ← ask_for (Fwrite (text ++ [LF])); mret 0
  | Usage rc => usage rc
  | Wants o s =>
      match o_root o with
      | Some root_ =>
          if (selection_ o =? 0) || negb (valid_mode o) then usage 2
          else '(m, _) ← main_body o root_ s (MainState 2 None false None); main_done m
      | None => usage 2
      end
  end.
End Main.
