(* ===== verification/BatchFacts.v ===== *)
(** * What a batch does (Session, Selection, Batch, Main)

    A run of the program in its default mode only looks: every call it makes
    reads.  What each part of a batch may add to the notes of a run. *)
From S2P Require Import Prelude Sha256 Rules Resolve Classify Policy Bytes Cache Headers Files Generation PoolFacts Pool Storage Session Selection Batch Main.
From S2P Require Import Passive.

(** ** Calls that change nothing *)

(** Nothing on the medium is changed, locked or synchronised by the call. *)
Definition reading (e : event) : bool :=
  match e with
  | Mkdirat _ _ _ | Fsync _ _ | Setlk _ _ | Write _ _ _ | Linkat _ _ _ _ _ | Renameat _ _ _ _ _
  | Renameat2 _ _ _ _ _ | Unlinkat _ _ _ | Rmdirat _ _ _ => false
  | Openat _ _ h _ => match h with Directory => true | _ => false end
  | _ => true
  end.
Abbreviation all_read := (Forall (fun e => reading e = true)).

Section Looks.
Definition looks {A} (m : io A) : Prop := forall t, all_read t -> all_read (m t).2.

Lemma looks_ret {A} (a : A) : looks (mret a).
Proof. now intros t H. Qed.
Lemma looks_bind {A B} (m : io A) (f : A -> io B) : looks m -> (forall a, looks (f a)) -> looks (m ≫= f).
Proof.
  intros Hm Hf t Ht. unfold mbind, io_bind. specialize (Hm t Ht). destruct (m t) as [[a|] t']; [|exact Hm]. now apply Hf.
Qed.
Lemma looks_call {A} (f : trace -> A) (e : A -> event) :
  (forall a, reading (e a) = true) -> looks (fun t => (Some (f t), e (f t) :: t)).
Proof. intros H t Ht. cbn. now constructor. Qed.
End Looks.

Ltac looking :=
  repeat match goal with
  | |- looks (mret _) => apply looks_ret
  | |- looks (_ ≫= _) => apply looks_bind; [|intros ?]
  | |- looks (if ?b then _ else _) => destruct b
  | |- looks (match ?x with _ => _ end) => destruct x
  | |- looks alloc => exact (looks_call _ Alloc (fun _ => eq_refl))
  | |- looks (open ?p) => exact (looks_call _ (Open p) (fun _ => eq_refl))
  | |- looks (openat ?f ?n Directory) => exact (looks_call _ (Openat f n Directory) (fun _ => eq_refl))
  | |- looks (close ?f) => exact (looks_call _ (Close f) (fun _ => eq_refl))
  | |- looks (fstat ?f) => exact (looks_call _ (Fstat f) (fun _ => eq_refl))
  | |- looks (fstatat ?f ?n) => exact (looks_call _ (Fstatat f n) (fun _ => eq_refl))
  | |- looks (name_max ?f) => exact (looks_call _ (NameMax f) (fun _ => eq_refl))
  | |- looks (read ?f ?n) => exact (looks_call _ (Read f n) (fun _ => eq_refl))
  | |- looks stop_requested => exact (looks_call _ Stop (fun _ => eq_refl))
  end.

Lemma looks_walk `{SY : System} parts : forall fd, looks (walk fd parts).
Proof. induction parts as [|c t IH]; intros fd; cbn [walk]; looking. apply IH. Qed.
Lemma looks_directory `{SY : System} p : looks (jf_storage_directory p).
Proof. unfold jf_storage_directory. looking. apply looks_walk. Qed.

(** ** What a program adds to the notes *)

(** Neither output stream is concerned. *)
Definition ordinary (q : question) : bool := match q with Fwrite _ | Fflush | Fputs _ => false | _ => true end.

Section Adds.
Context `{SU : Surroundings} (R : session -> session -> Prop) `{RO : !PreOrder R}.

(** Wherever it ends, the program has done what [R] allows. *)
Definition adds {A} (m : bio A) : Prop := forall s, R s (m s).2.

Lemma adds_ret {A} (a : A) : adds (mret a).
Proof. intros s. cbn. reflexivity. Qed.
Lemma adds_halted {A} : adds (halted (A := A)).
Proof. intros s. cbn. reflexivity. Qed.
Lemma adds_bind {A B} (m : bio A) (f : A -> bio B) : adds m -> (forall a, adds (f a)) -> adds (m ≫= f).
Proof.
  intros Hm Hf s. unfold mbind, bio_bind. specialize (Hm s). destruct (m s) as [[a|] s']; [|exact Hm].
  etransitivity; [exact Hm|apply Hf].
Qed.
Lemma adds_stepping {A} (f : session -> option (A * session)) :
  (forall s a s', f s = Some (a, s') -> R s s') -> adds (stepping f).
Proof. intros H s. unfold stepping. destruct (f s) as [[a s']|] eqn:E; [exact (H _ _ _ E)|cbn; reflexivity]. Qed.
Lemma adds_looking_at {A} (f : session -> A) : adds (stepping (fun s => Some (f s, s))).
Proof. apply adds_stepping. intros s a s' [= _ <-]. reflexivity. Qed.

(** The programs with locals. *)
Definition adds_leaving {L A} (m : leaving L A) : Prop := forall l, adds (m l).
Lemma adds_leaving_ret {L A} (a : A) : adds_leaving (mret a : leaving L A).
Proof. intros l. apply adds_ret. Qed.
Lemma adds_leaving_bind {L A B} (m : leaving L A) (f : A -> leaving L B) :
  adds_leaving m -> (forall a, adds_leaving (f a)) -> adds_leaving (m ≫= f).
Proof. intros Hm Hf l. apply adds_bind; [apply Hm|]. intros [l' [a|]]; [apply Hf|apply adds_ret]. Qed.
Lemma adds_doing {L A} (m : bio A) : adds m -> adds_leaving (doing m : leaving L A).
Proof. intros H l. apply adds_bind; [exact H|]. intros a. apply adds_ret. Qed.
Lemma adds_modify {L} (f : L -> L) : adds_leaving (modify f).
Proof. intros l. apply adds_ret. Qed.
Lemma adds_gets {L A} (f : L -> A) : adds_leaving (gets f).
Proof. intros l. apply adds_ret. Qed.
Lemma adds_return_with {L A} (f : L -> L) : adds_leaving (return_with f : leaving L A).
Proof. intros l. apply adds_ret. Qed.
Lemma adds_demand {L} (f : L -> L) m : adds m -> adds_leaving (demand f m).
Proof.
  intros H. apply adds_leaving_bind; [now apply adds_doing|]. intros []; [apply adds_leaving_ret|apply adds_return_with].
Qed.
Lemma adds_obtain {L A} (f : L -> L) (m : bio (option A)) : adds m -> adds_leaving (obtain f m).
Proof.
  intros H. apply adds_leaving_bind; [now apply adds_doing|]. intros []; [apply adds_leaving_ret|apply adds_return_with].
Qed.

(** [R] allows ordinary questions, and calls that read. *)
Context (RA : forall q s r, ordinary q = true -> R s (add_note (Asked q r) s)).
Context (RC : forall t s, all_read t -> R s (add_note (Calls t) s)).

Lemma adds_ask q : ordinary q = true -> adds (ask_for q).
Proof. intros H s. now apply RA. Qed.
Lemma adds_system_calls {A} (m : System -> io A) : (forall SY, looks (m SY)) -> adds (system_calls m).
Proof.
  intros H s. specialize (H (system_at (notes s)) [] (List.Forall_nil _)). unfold system_calls.
  destruct (m (system_at (notes s)) []) as [[a|] t]; now apply RC.
Qed.
Lemma adds_system {A} (m : System -> io A) : (forall SY, looks (m SY)) -> adds (system m).
Proof. intros H. apply adds_bind; [now apply adds_system_calls|]. intros a. apply adds_ret. Qed.
End Adds.

(** ** The parts that look *)

Section Parts.
Context `{SU : Surroundings} `{RX : PosixRegex} (R : session -> session -> Prop) `{RO : !PreOrder R}.
Context (RA : forall q s r, ordinary q = true -> R s (add_note (Asked q r) s)).
Context (RC : forall t s, all_read t -> R s (add_note (Calls t) s)).

Ltac adding :=
  repeat match goal with
  | |- PreOrder _ => assumption
  | |- adds ?R (mret _) => apply (adds_ret R)
  | |- adds ?R halted => apply (adds_halted R)
  | |- adds ?R (_ ≫= _) => apply (adds_bind R); [|intros ?]
  | |- adds _ (if ?b then _ else _) => destruct b
  | |- adds _ (match ?x with _ => _ end) => destruct x
  | |- adds _ (let '(_, _) := ?x in _) => destruct x
  | |- adds _ (ask_for _) => apply (adds_ask R RA); reflexivity
  | |- adds _ (system_calls _) => apply (adds_system_calls R RC); intros ?; first [apply looks_directory|looking]
  | |- adds _ (system _) => apply (adds_system R RC); intros ?; first [apply looks_directory|looking]
  | |- adds _ (stepping (fun s => Some (_, s))) => apply (adds_looking_at R)
  | |- adds_leaving ?R (mret _) => apply (adds_leaving_ret R)
  | |- adds_leaving ?R (_ ≫= _) => apply (adds_leaving_bind R); [|intros ?]
  | |- adds_leaving ?R (doing _) => apply (adds_doing R)
  | |- adds_leaving ?R (modify _) => apply (adds_modify R)
  | |- adds_leaving ?R (gets _) => apply (adds_gets R)
  | |- adds_leaving ?R (return_with _) => apply (adds_return_with R)
  | |- adds_leaving ?R (demand _ _) => apply (adds_demand R)
  | |- adds_leaving ?R (obtain _ _) => apply (adds_obtain R)
  | |- adds_leaving _ (if ?b then _ else _) => destruct b
  | |- adds_leaving _ (match ?x with _ => _ end) => destruct x
  end.

Lemma adds_join a b : adds R (join a b).
Proof. unfold join, malloc. adding. Qed.
Lemma adds_absolute cwd p : adds R (absolute cwd p).
Proof. unfold absolute, malloc. adding. apply adds_join. Qed.
Lemma adds_close fd : adds R (close_fd fd).
Proof. unfold close_fd. adding. Qed.
Lemma adds_close_half o : adds R (close_half o).
Proof. unfold close_half. adding. apply adds_close. Qed.
Lemma adds_directory p : adds R (storage_directory p).
Proof. unfold storage_directory. adding. Qed.
Lemma adds_open_parent p : adds R (open_parent p).
Proof. unfold open_parent, malloc. adding; apply adds_directory. Qed.
Lemma adds_select_path p i s : adds R (select_path p i s).
Proof. unfold select_path, malloc. adding. Qed.
Lemma adds_list_bytes hp data : forall b s, adds R (list_bytes hp data b s).
Proof. induction data as [|c t IH]; intros b s; cbn [list_bytes]; adding; auto. apply adds_select_path. Qed.
Lemma adds_list_loop hp n : forall fd total b s, adds R (list_loop hp n fd total b s).
Proof. induction n as [|n IH]; intros fd total b s; cbn [list_loop]; adding; auto. apply adds_list_bytes. Qed.
Lemma adds_list_paths fuel p s : adds R (list_paths fuel p s).
Proof. unfold list_paths. adding; auto using adds_list_loop, adds_close. Qed.
Lemma adds_entries n : forall fd sub s, adds R (maildir_entries n fd sub s).
Proof.
  induction n as [|n IH]; intros fd sub s; cbn [maildir_entries]; adding; auto using adds_join, adds_select_path.
Qed.
Lemma adds_maildir_directory fuel d b n s : adds R (maildir_directory fuel d b n s).
Proof. unfold maildir_directory. adding; auto using adds_join, adds_entries, adds_close. Qed.
Lemma adds_maildir_paths fuel cwd p s : adds R (maildir_paths fuel cwd p s).
Proof. unfold maildir_paths. adding; auto using adds_absolute, adds_directory, adds_maildir_directory, adds_close. Qed.

Lemma adds_snapshot_items cwd l : adds R (snapshot_items cwd l).
Proof.
  assert (forall it, adds R (snapshot_item cwd it)) as H.
  { intros it. unfold snapshot_item. adding; auto using adds_absolute, adds_open_parent, adds_close. }
  induction l as [|it t IH]; cbn [snapshot_items]; adding; auto.
Qed.
Lemma adds_snapshot_paths cwd s : adds R (snapshot_paths cwd s).
Proof. unfold snapshot_paths, malloc. adding; auto using adds_snapshot_items. Qed.
Lemma adds_name_capacity fd : adds R (name_capacity fd).
Proof. unfold name_capacity. adding. Qed.
Lemma adds_ancestor n : forall p r, adds R (ancestor_capacity n p r).
Proof. induction n as [|n IH]; intros p r; cbn [ancestor_capacity]; adding; auto using adds_directory, adds_name_capacity, adds_close. Qed.
Lemma adds_half parents o : adds R (independent_half parents o).
Proof. unfold independent_half, independent_destination, outside. adding; auto using adds_name_capacity. Qed.
Lemma adds_opened_half fd n : adds R (opened_half fd n).
Proof. unfold opened_half. adding. Qed.
Lemma adds_local root parents l : adds R (independent_local root parents l).
Proof.
  unfold independent_local.
  adding; auto using adds_join, adds_directory, adds_ancestor, adds_name_capacity, adds_close, adds_opened_half, adds_half, adds_close_half.
Qed.
Lemma adds_locals root parents l : forall previous, adds R (independent_locals root parents previous l).
Proof. induction l as [|x t IH]; intros previous; cbn [independent_locals]; adding; auto using adds_local. Qed.
Lemma adds_independent_items cwd l : forall i, adds R (independent_items cwd i l).
Proof. induction l as [|it t IH]; intros i; cbn [independent_items]; adding; auto using adds_absolute, adds_open_parent, adds_close. Qed.
Lemma adds_independent cwd root s rules : adds R (independent cwd root s rules).
Proof. unfold independent, malloc. adding; auto using adds_independent_items, adds_locals. Qed.

(** *** One message *)

Lemma adds_prepare_name cwd it storage i : adds_leaving R (prepare_name cwd it storage i).
Proof. unfold prepare_name. adding; auto using adds_absolute, adds_open_parent. Qed.
Lemma adds_prepare_open storage parent name before : adds_leaving R (prepare_open storage parent name before).
Proof. unfold prepare_open. adding. Qed.
Lemma adds_unchanged parent fd name st : adds R (unchanged parent fd name st).
Proof. unfold unchanged. adding. Qed.
Lemma adds_prepare_decide root policy parent fd name st : adds_leaving R (prepare_decide root policy parent fd name st).
Proof. unfold prepare_decide. adding; auto using adds_unchanged, adds_join. Qed.
Lemma adds_prepare cwd root policy items i storage index : adds R (prepare cwd root policy items i storage index).
Proof.
  unfold prepare. destruct (items !! i) as [it|]; [|apply (adds_halted R)]. apply (adds_bind R); [|intros [? ?]; apply (adds_ret R)].
  apply (adds_leaving_bind R); [apply adds_prepare_name|]. intros [[parent name] before].
  apply (adds_leaving_bind R); [apply adds_prepare_open|]. intros [fd st]. apply adds_prepare_decide.
Qed.
Lemma adds_close_decision d storage items : adds R (close_decision d storage items).
Proof. unfold close_decision. adding; auto using adds_close. Qed.
Lemma adds_free d : adds R (free_decision d).
Proof. apply adds_close_half. Qed.
Lemma adds_already_there parent dest : adds R (already_there parent dest).
Proof. unfold already_there. adding; auto using adds_directory, adds_close. Qed.
(** The pin of a generation leaves the engine's tree alone. *)
Context (RP : forall root id k before after s, others_only (KN := k) (st before) (st after) -> R s (add_note (Pins root id k before after) s)).
Lemma adds_generation_pin fuel root id : adds R (generation_pin fuel root id).
Proof.
  intros s. unfold generation_pin.
  assert (passive (KN := kernel_at (notes s)) (_ ← clear_error; jf_generation_pin (KN := kernel_at (notes s)) (HP := heap_at (notes s)) fuel root id)) as H.
  { apply passive_bind; [apply passive_clear|]. intros _. apply passive_generation_pin. }
  specialize (H (engine_at (notes s))). cbv zeta. destruct ((_ ← clear_error; _) (engine_at (notes s))) as [r after].
  now apply RP.
Qed.
Lemma adds_select_all l : forall s, adds R (select_all l s).
Proof. induction l as [|p t IH]; intros s; cbn [select_all]; adding; auto using adds_select_path. Qed.
Lemma adds_parse alone l : forall o s, adds R (parse_arguments alone l o s).
Proof.
  intros o s. revert o s. induction l as [l IH] using (induction_ltof1 _ (@length bytes)). unfold ltof in IH.
  intros o s. destruct l as [|a t]; cbn [parse_arguments]; adding; auto using adds_select_all. apply IH. cbn. lia.
Qed.
End Parts.

(** ** What a program returns *)

Definition returns {A} (m : bio A) (Q : A -> Prop) : Prop := forall s a s', m s = (Some a, s') -> Q a.

Lemma yields_ret {A} (a : A) (Q : A -> Prop) : Q a -> returns (mret a) Q.
Proof. intros H s b s' [= <- _]. exact H. Qed.
Lemma yields_bind {A B} (m : bio A) (f : A -> bio B) (Q : A -> Prop) (R : B -> Prop) :
  returns m Q -> (forall a, Q a -> returns (f a) R) -> returns (m ≫= f) R.
Proof.
  intros Hm Hf s b s'. unfold mbind, bio_bind. destruct (m s) as [[a|] s1] eqn:E; [|discriminate].
  intros H. exact (Hf a (Hm _ _ _ E) _ _ _ H).
Qed.
Lemma returns_any {A} (m : bio A) : returns m (fun _ => True).
Proof. now intros s a s' _. Qed.

(** ** The default mode *)


(** A note of calls that read, or of a pin that left the engine's tree as it was, but
    for what the other processes did before it was given the lock; what is asked
    besides changes nothing either. *)
Definition note_reads (n : note) : Prop :=
  match n with
  | Asked _ _ => True
  | Calls t => all_read t
  | Pins _ _ k before after => others_only (KN := k) (st before) (st after)
  end.

Definition grows (s s' : session) : Prop := exists new, notes s' = new ++ notes s /\ Forall note_reads new.
#[export] Instance grows_preorder : PreOrder grows.
Proof.
  split; [intros s; exists []; now split; [|constructor]|]. intros s1 s2 s3 (n1 & E1 & H1) (n2 & E2 & H2).
  exists (n2 ++ n1). rewrite E2, E1, app_assoc. split; [done|]. now apply Forall_app.
Qed.
Lemma grows_asked q s r : grows s (add_note (Asked q r) s).
Proof. exists [Asked q r]. now repeat constructor. Qed.
Lemma grows_calls t s : all_read t -> grows s (add_note (Calls t) s).
Proof. intros H. exists [Calls t]. split; [done|]. now repeat constructor. Qed.
Lemma grows_pins root id k before after s : others_only (KN := k) (st before) (st after) -> grows s (add_note (Pins root id k before after) s).
Proof. intros H. exists [Pins root id k before after]. split; [done|]. now repeat constructor. Qed.
Lemma grows_answered q s r : ordinary q = true -> grows s (add_note (Asked q r) s).
Proof. intros _. apply grows_asked. Qed.
Abbreviation only_looks := (adds grows).

Lemma adds_bind_returns (R : session -> session -> Prop) `{RO : !PreOrder R} {A B} (m : bio A) (Q : A -> Prop) (f : A -> bio B) :
  adds R m -> returns m Q -> (forall a, Q a -> adds R (f a)) -> adds R (m ≫= f).
Proof.
  intros Hm HQ Hf s. unfold mbind, bio_bind. specialize (Hm s). destruct (m s) as [[a|] s'] eqn:E; [|exact Hm].
  etransitivity; [exact Hm|]. exact (Hf a (HQ _ _ _ E) s').
Qed.

Section Looking.
Context `{SU : Surroundings} `{RX : PosixRegex} (fuel : nat) (cwd root : bytes) (policy : jf_policy).

Lemma looks_ask q : only_looks (ask_for q).
Proof. intros s. apply grows_asked. Qed.
Lemma looks_interrupted : only_looks get_interrupted.
Proof.
  unfold get_interrupted. apply (adds_bind grows); [apply (adds_looking_at grows)|intros h].
  apply (adds_bind grows); [destruct h; [apply looks_ask|apply (adds_ret grows)]|intros sig].
  apply (adds_stepping grows). intros s a s' [= _ <-]. destruct sig; [now exists []|reflexivity].
Qed.
Lemma looks_fields l : only_looks (fields l).
Proof. induction l as [|x t IH]; cbn [fields]; [apply (adds_ret grows)|]. apply (adds_bind grows); [apply looks_ask|]. intros []; [exact IH|apply (adds_ret grows)]. Qed.
Lemma looks_diagnostic p : only_looks (recovery_diagnostic p).
Proof. destruct p; [|apply (adds_ret grows)]. apply (adds_bind grows); [apply looks_ask|]. intros a. apply (adds_ret grows). Qed.
Lemma looks_emit d moving items global : only_looks (emit_decision d moving items global).
Proof.
  unfold emit_decision. apply (adds_bind grows); [destruct (_ =? _); [apply (adds_ret grows)|apply looks_fields]|intros ok].
  destruct (if ok : bool then _ else _) as [rc detail]. repeat (apply (adds_bind grows); [apply looks_diagnostic|intros _]). apply (adds_ret grows).
Qed.

Lemma looks_classify i items global : only_looks (classify fuel cwd root policy i items None global).
Proof.
  unfold classify. apply (adds_bind grows); [apply (adds_prepare grows grows_answered grows_calls)|intros [d items1]].
  apply (adds_bind grows _ (fun '(d, storage) => _)).
  - destruct (negb _); [apply (adds_ret grows)|]. apply (adds_bind grows); [apply (adds_already_there grows grows_answered grows_calls)|intros r; apply (adds_ret grows)].
  - intros [d1 storage]. apply (adds_bind grows); [apply (adds_close_decision grows grows_calls)|intros [d2 items2]].
    apply (adds_bind grows); [apply looks_emit|intros [rc g]]. destruct (if quarantine d2 then _ else _) as [rc' g'].
    apply (adds_bind grows); [apply (adds_free grows grows_calls)|intros _; apply (adds_ret grows)].
Qed.

Lemma classify_no_storage i items global :
  returns (classify fuel cwd root policy i items None global) (fun r => r.1.2 = None).
Proof.
  unfold classify. eapply yields_bind; [apply returns_any|intros [d items1] _].
  eapply (yields_bind _ (fun '(d, storage) => _) (fun p => p.2 = None)).
  - destruct (negb _); [now apply yields_ret|]. eapply yields_bind; [apply returns_any|intros r _]. now apply yields_ret.
  - intros [d1 storage] Hs. cbn in Hs. subst storage. eapply yields_bind; [apply returns_any|intros [d2 items2] _].
    eapply yields_bind; [apply returns_any|intros [rc g] _]. destruct (if quarantine d2 then _ else _) as [rc' g'].
    eapply yields_bind; [apply returns_any|intros [] _]. now apply yields_ret.
Qed.

Lemma looks_singles n : forall i items global aggregate,
  only_looks (singles fuel cwd root policy n i items None global aggregate).
Proof.
  induction n as [|n IH]; intros i items global aggregate; cbn [singles].
  - apply (adds_bind grows); [apply looks_ask|intros ok; apply (adds_ret grows)].
  - apply (adds_bind grows); [apply looks_interrupted|intros stop_]. destruct (negb _).
    + apply (adds_bind grows); [apply looks_ask|intros ok; apply (adds_ret grows)].
    + eapply (adds_bind_returns grows); [apply looks_classify|apply classify_no_storage|].
      intros [[[rc items1] storage] g] Hs. cbn in Hs. subst storage. destruct (rc =? 3); [apply (adds_ret grows)|apply IH].
Qed.
End Looking.

(** Programs with locals that keep [J] of them. *)
Definition keeps {L A} (J : L -> Prop) (m : leaving L A) : Prop := forall l, J l -> returns (m l) (fun p => J p.1).

Lemma keeps_ret {L A} (J : L -> Prop) (a : A) : keeps J (mret a).
Proof. intros l H. now apply yields_ret. Qed.
Lemma keeps_bind {L A B} (J : L -> Prop) (m : leaving L A) (f : A -> leaving L B) :
  keeps J m -> (forall a, keeps J (f a)) -> keeps J (m ≫= f).
Proof.
  intros Hm Hf l Hl. eapply yields_bind; [exact (Hm l Hl)|]. intros [l' [a|]] H; [now apply Hf|now apply yields_ret].
Qed.
Lemma keeps_doing {L A} (J : L -> Prop) (m : bio A) : keeps J (doing m : leaving L A).
Proof. intros l Hl. eapply yields_bind; [apply returns_any|]. intros a _. now apply yields_ret. Qed.
Lemma keeps_modify {L} (J : L -> Prop) f : (forall l, J l -> J (f l)) -> keeps J (modify f).
Proof. intros H l Hl. apply yields_ret. now apply H. Qed.
Lemma keeps_gets {L A} (J : L -> Prop) (f : L -> A) : keeps J (gets f).
Proof. intros l Hl. now apply yields_ret. Qed.
Lemma keeps_return_with {L A} (J : L -> Prop) f : (forall l, J l -> J (f l)) -> keeps J (return_with f : leaving L A).
Proof. intros H l Hl. apply yields_ret. now apply H. Qed.
Lemma keeps_demand {L} (J : L -> Prop) f m : (forall l, J l -> J (f l)) -> keeps J (demand f m).
Proof. intros H. apply keeps_bind; [apply keeps_doing|]. intros []; [apply keeps_ret|now apply keeps_return_with]. Qed.
Lemma keeps_obtain {L A} (J : L -> Prop) f (m : bio (option A)) : (forall l, J l -> J (f l)) -> keeps J (obtain f m).
Proof. intros H. apply keeps_bind; [apply keeps_doing|]. intros []; [apply keeps_ret|now apply keeps_return_with]. Qed.

Section Default.
Context `{SU : Surroundings} `{RX : PosixRegex} (fuel : nat).

Definition idle_main (m : main_state) : Prop := m_pool m = false /\ m_storage m = None.

(** What a part of the body does from such a state. *)
Definition guards {A} (m : leaving main_state A) : Prop :=
  forall l, idle_main l -> only_looks (m l) /\ returns (m l) (fun p => idle_main p.1).

Lemma guards_intro {A} (m : leaving main_state A) : adds_leaving grows m -> keeps idle_main m -> guards m.
Proof. intros H1 H2 l Hl. split; [apply H1|now apply H2]. Qed.
Lemma guards_bind {A B} (m : leaving main_state A) (f : A -> leaving main_state B) :
  guards m -> (forall a, guards (f a)) -> guards (m ≫= f).
Proof.
  intros Hm Hf l Hl. destruct (Hm l Hl) as [H1 H2]. split.
  - eapply (adds_bind_returns grows); [exact H1|exact H2|]. intros [l' [a|]] H; [now apply Hf|apply (adds_ret grows)].
  - eapply yields_bind; [exact H2|]. intros [l' [a|]] H; [now apply Hf|now apply yields_ret].
Qed.
Lemma guards_ret {A} (a : A) : guards (mret a).
Proof. apply guards_intro; [apply (adds_leaving_ret grows)|apply keeps_ret]. Qed.
Lemma guards_left {A B} (a : A) (f : A -> leaving main_state B) : guards (f a) -> guards (mret a ≫= f).
Proof. intros H. exact H. Qed.
Lemma guards_doing {A} (m : bio A) : only_looks m -> guards (doing m).
Proof. intros H. apply guards_intro; [now apply (adds_doing grows)|apply keeps_doing]. Qed.
Lemma guards_fails {A} rc c : guards (return_with (fails rc c) : leaving main_state A).
Proof. apply guards_intro; [apply (adds_return_with grows)|now apply keeps_return_with]. Qed.
Lemma guards_fails_rc {A} rc : guards (return_with (fails_rc rc) : leaving main_state A).
Proof. apply guards_intro; [apply (adds_return_with grows)|now apply keeps_return_with]. Qed.
Lemma guards_obtain {A} rc (m : bio (option A)) : only_looks m -> guards (obtain (fails_rc rc) m).
Proof. intros H. apply guards_bind; [now apply guards_doing|]. intros []; [apply guards_ret|apply guards_fails_rc]. Qed.
Lemma guards_demand rc c (m : bio bool) : only_looks m -> guards (demand (fails rc c) m).
Proof. intros H. apply guards_bind; [now apply guards_doing|]. intros []; [apply guards_ret|apply guards_fails]. Qed.

Lemma singles_no_storage cwd root p n : forall i items global aggregate,
  returns (singles fuel cwd root p n i items None global aggregate) (fun r => r.1.2 = None).
Proof.
  induction n as [|n IH]; intros i its g a; cbn [singles].
  - eapply yields_bind; [apply returns_any|intros ok _; now apply yields_ret].
  - eapply yields_bind; [apply returns_any|intros stop_ _]. destruct (negb _).
    + eapply yields_bind; [apply returns_any|intros ok _; now apply yields_ret].
    + eapply yields_bind; [apply classify_no_storage|]. intros [[[rc items1] st] g'] E. cbn in E. subst st.
      destruct (rc =? 3); [now apply yields_ret|apply IH].
Qed.

Lemma guards_batch cwd root p s : guards (batch fuel cwd root p None s).
Proof.
  intros m [HP HS]. unfold batch. change (gets m_pool ≫= ?f) with (fun l => f (m_pool l) l). cbv beta. rewrite HP.
  change (gets m_code ≫= ?f) with (fun l => f (m_code l) l). cbv beta. split.
  - apply (adds_bind grows); [apply (adds_bind grows); [apply looks_singles|intros a; apply (adds_ret grows)]|]. intros [l [[[[rc its] st] g]|]]; apply (adds_ret grows).
  - eapply (yields_bind _ _ (fun q => q.1 = m /\ match q.2 with Some r => r.1.2 = None | None => True end)).
    + eapply yields_bind; [apply singles_no_storage|]. intros a Ha. now apply yields_ret.
    + intros [l [[[[rc its] st] g]|]] [E1 E2]; cbn in E1, E2; subst l; apply yields_ret; [subst st|]; split; assumption.
Qed.

Lemma guards_body o root_ s : o_mode o <> Some (str "apply") -> guards (main_body fuel o root_ s).
Proof.
  intros Hm.
  assert (match o_mode o with Some m => streq m (str "apply") | None => false end = false) as EM.
  { destruct (o_mode o) as [x|]; [|done]. unfold streq. destruct (strcmp x _) eqn:E; [|done..]. apply strcmp_eq in E. congruence. }
  unfold main_body. rewrite EM. cbn [andb].
  apply guards_bind; [apply guards_obtain, looks_ask|intros cwd].
  apply guards_bind; [apply guards_obtain; apply (adds_absolute grows grows_calls)|intros root].
  apply guards_bind; [apply guards_doing|intros [rc s1]].
  { destruct (_ =? 1); [apply (adds_maildir_paths grows grows_answered grows_calls)|]. destruct (_ =? 2); [apply (adds_list_paths grows grows_answered grows_calls)|apply (adds_ret grows)]. }
  destruct (negb (rc =? 0)); [apply guards_fails|].
  apply guards_bind; [apply guards_doing; apply (adds_generation_pin grows grows_pins)|intros [[rc1 g] code]].
  destruct (negb (rc1 =? 0)); [apply guards_fails|].
  apply guards_bind; [apply guards_doing, (adds_looking_at grows)|intros [p|rc2 e]]; [|apply guards_fails].
  apply (guards_left (None, s1)). apply guards_bind; [apply guards_demand|intros _; apply guards_batch].
  apply (adds_bind grows); [apply looks_fields|intros []; apply (adds_ret grows)].
Qed.

Lemma looks_done m : idle_main m -> only_looks (main_done m).
Proof.
  intros [HP HS]. unfold main_done. rewrite HP, HS. apply (adds_bind grows); [apply (adds_ret grows)|intros _].
  apply (adds_bind grows); [apply looks_interrupted|intros sig]. destruct (if negb (sig =? 0) then _ else _) as [rc code].
  apply (adds_bind grows); [|intros _; apply (adds_bind grows); [apply (adds_ret grows)|intros _; apply (adds_ret grows)]].
  destruct (_ && _); [|apply (adds_ret grows)]. apply (adds_bind grows); [apply looks_ask|intros a; apply (adds_ret grows)].
Qed.

(** The mode of the options follows [--mode] in the arguments. *)
Lemma slot_of_get a o k o' : slot_of a o = Some (k, o') ->
  o_mode o' = o_mode o /\ (k = ModeSlot -> a = str "--mode").
Proof.
  assert (forall (k1 k2 : slot) (o1 o2 : options), Some (k1, o1) = Some (k2, o2) -> k2 = k1 /\ o2 = o1) as HI by (intros ? ? ? ? [= <- <-]; auto).
  unfold slot_of. generalize (str "--root") (str "--generation") (str "--maildir") (str "--files0-from"). intros w1 w2 w3 w4.
  destruct (streq a w1); [intros [-> ->]%HI; now split|]. destruct (streq a w2); [intros [-> ->]%HI; now split|].
  destruct (streq a (str "--mode")) eqn:E.
  { intros [-> ->]%HI. split; [reflexivity|]. intros _. unfold streq in E. destruct (strcmp a _) eqn:E'; [|discriminate..]. now apply strcmp_eq. }
  destruct (streq a w3); [destruct (_ =? 0); [intros [-> ->]%HI; now split|discriminate]|].
  destruct (streq a w4); [destruct (_ =? 0); [intros [-> ->]%HI; now split|discriminate]|discriminate].
Qed.
Lemma parse_mode alone l : forall o s (before : list bytes),
  (forall m, o_mode o = Some m -> exists a b, before = a ++ str "--mode" :: m :: b) ->
  returns (parse_arguments alone l o s) (fun r =>
    match r with Wants o' _ => forall m, o_mode o' = Some m -> exists a b, before ++ l = a ++ str "--mode" :: m :: b | _ => True end).
Proof.
  induction l as [l IH] using (induction_ltof1 _ (@length bytes)). unfold ltof in IH.
  intros o s before Ho.
  assert (forall m t, o_mode o = Some m -> exists a b, before ++ t = a ++ str "--mode" :: m :: b) as Hb.
  { intros m t Em. destruct (Ho m Em) as (a & b & ->). exists a, (b ++ t). now rewrite <- app_assoc. }
  destruct l as [|x t]; cbn [parse_arguments]; [apply yields_ret; intros m Em; now apply Hb|].
  destruct (alone && _); [now apply yields_ret|]. destruct (alone && _); [now apply yields_ret|].
  destruct (streq x (str "--")).
  - destruct (_ || _); [now apply yields_ret|]. eapply yields_bind; [apply returns_any|intros [rc s1] _].
    apply yields_ret. destruct (rc =? 0); [|done]. cbn. intros m Em. now apply Hb.
  - destruct (slot_of x o) as [[k o']|] eqn:E; [|now apply yields_ret]. destruct (slot_of_get _ _ _ _ E) as [E1 E2].
    destruct (get_slot k o'); [now apply yields_ret|]. destruct t as [|[|c v] t]; [now apply yields_ret..|].
    assert (forall l : list bytes, before ++ x :: (c :: v) :: l = (before ++ [x; c :: v]) ++ l) as EA by (intros l; now rewrite <- app_assoc).
    rewrite EA. apply IH; [cbn; lia|]. intros m Em. destruct k; cbn in Em; rewrite ?E1 in Em; try now apply Hb.
    injection Em as <-. exists before, []. now rewrite E2.
Qed.
End Default.
