(* ===== verification/BatchEnds.v ===== *)
(** * What a batch reports (Batch, Main)

    When the program ends with status 0 or 7 its output is complete: one record for
    each selected message, in order.  The steps of a batch against their effect on
    the output, the notes and the pool. *)
From S2P Require Import Prelude Sha256 Rules Resolve Classify Policy Bytes Cache Headers Files Generation PoolFacts Pool StorageFacts Storage Session Selection Batch Main BatchFacts.

(** ** The output *)

(** What was written on the standard output, in order; a failed write is none. *)
Definition chunk (n : note) : list bytes := match n with Asked (Fwrite b) r => if (r : bool) then [b] else [] | _ => [] end.
Fixpoint written (ns : list note) : list bytes := match ns with [] => [] | n :: t => written t ++ chunk n end.
Definition ended (s : bytes) : bytes := s ++ [0].

(** The output grew by [l], nothing was forgotten, and a signal is not lost. *)
Record goes (l : list bytes) (s s' : session) : Prop := {
  goes_written : written (notes s') = written (notes s) ++ l;
  goes_notes : exists new, notes s' = new ++ notes s;
  goes_signal : 0 < interrupted s -> 0 < interrupted s';
  goes_sign : 0 <= interrupted s -> 0 <= interrupted s' }.
(** Besides, the pool is as it was. *)
Record still (s s' : session) : Prop := {
  still_goes : goes [] s s';
  still_pool : pool_state s' = pool_state s;
  still_choices : choices s' = choices s;
  still_events : events s' = events s }.

Lemma goes_refl s : goes [] s s.
Proof. split; [now rewrite app_nil_r|now exists []|done..]. Qed.
Lemma goes_trans l l' s1 s2 s3 : goes l s1 s2 -> goes l' s2 s3 -> goes (l ++ l') s1 s3.
Proof.
  intros [W1 [n1 N1] I1 J1] [W2 [n2 N2] I2 J2]. split; [now rewrite W2, W1, app_assoc| |auto..].
  exists (n2 ++ n1). now rewrite N2, N1, app_assoc.
Qed.
#[export] Instance still_preorder : PreOrder still.
Proof.
  split; [intros s; split; [apply goes_refl|done..]|]. intros s1 s2 s3 [G1 P1 C1 E1] [G2 P2 C2 E2].
  split; [exact (goes_trans [] [] _ _ _ G1 G2)|congruence..].
Qed.
Lemma goes_still l s1 s2 s3 : goes l s1 s2 -> still s2 s3 -> goes l s1 s3.
Proof. intros H [G _ _ _]. rewrite <- (app_nil_r l). exact (goes_trans _ _ _ _ _ H G). Qed.
Lemma still_goes_trans l s1 s2 s3 : still s1 s2 -> goes l s2 s3 -> goes l s1 s3.
Proof. intros [G _ _ _] H. exact (goes_trans [] _ _ _ _ G H). Qed.

Lemma seen_later n s s' l : goes l s s' -> n ∈ notes s -> n ∈ notes s'.
Proof. intros [_ [new ->] _ _] H. apply elem_of_app. now right. Qed.

Lemma still_note n s : chunk n = [] -> still s (add_note n s).
Proof. intros H. split; [split|..]; cbn; [now rewrite H|now exists [n]|done..]. Qed.
Lemma still_asked q s r : ordinary q = true -> still s (add_note (Asked q r) s).
Proof. intros H. apply still_note. now destruct q. Qed.
Lemma still_calls t s : still s (add_note (Calls t) s).
Proof. now apply still_note. Qed.
Abbreviation silent := (adds still).

(** ** Specifications from a session *)

Definition runs {A} (m : bio A) (s : session) (Q : A -> session -> Prop) : Prop :=
  match m s with (Some a, s') => Q a s' | (None, _) => True end.

Lemma session_ret {A} (a : A) s (Q : A -> session -> Prop) : Q a s -> runs (mret a) s Q.
Proof. intros H. exact H. Qed.
Lemma session_bind {A B} (m : bio A) (f : A -> bio B) s Q : runs m s (fun a s' => runs (f a) s' Q) -> runs (m ≫= f) s Q.
Proof. unfold runs, mbind, bio_bind. now destruct (m s) as [[a|] s']. Qed.
Lemma session_mono {A} (m : bio A) s (Q Q' : A -> session -> Prop) :
  runs m s Q -> (forall a s', Q a s' -> Q' a s') -> runs m s Q'.
Proof. unfold runs. destruct (m s) as [[a|] s']; auto. Qed.
Lemma runs_both {A} (m : bio A) s (Q Q' : A -> session -> Prop) : runs m s Q -> runs m s Q' -> runs m s (fun a s' => Q a s' /\ Q' a s').
Proof. unfold runs. now destruct (m s) as [[a|] s']. Qed.
Lemma runs_silent {A} (m : bio A) s : silent m -> runs m s (fun _ s' => still s s').
Proof. intros H. unfold runs. specialize (H s). now destruct (m s) as [[a|] s']. Qed.
Lemma runs_stepping {A} (f : session -> option (A * session)) s Q :
  (forall a s', f s = Some (a, s') -> Q a s') -> runs (stepping f) s Q.
Proof. intros H. unfold runs, stepping. destruct (f s) as [[a s']|] eqn:E; auto. Qed.
Lemma runs_ask `{SU : Surroundings} q s Q :
  (forall r, r = reply_to (notes s) q -> Q r (add_note (Asked q r) s)) -> runs (ask_for q) s Q.
Proof. intros H. exact (H _ eq_refl). Qed.
Lemma runs_halted {A} s (Q : A -> session -> Prop) : runs halted s Q.
Proof. exact I. Qed.

(** Programs with locals: [F] at their end, [K] where they go on. *)
Definition leads {L A} (F : L -> session -> Prop) (m : leaving L A) (l : L) (s : session) (K : A -> L -> session -> Prop) : Prop :=
  runs (m l) s (fun p s' => match p.2 with Some a => K a p.1 s' | None => F p.1 s' end).

Section Leads.
Context {L : Type} (F : L -> session -> Prop).
Lemma leads_ret {A} (a : A) l s K : K a l s -> leads F (mret a) l s K.
Proof. intros H. exact H. Qed.
Lemma leads_bind {A B} (m : leaving L A) (f : A -> leaving L B) l s K :
  leads F m l s (fun a l' s' => leads F (f a) l' s' K) -> leads F (m ≫= f) l s K.
Proof. intros H. apply session_bind. eapply session_mono; [exact H|]. now intros [l' [a|]] s' H'. Qed.
Lemma leads_doing {A} (m : bio A) l s K : runs m s (fun a s' => K a l s') -> leads F (doing m) l s K.
Proof. intros H. apply session_bind. eapply session_mono; [exact H|]. intros a s' H'. exact H'. Qed.
Lemma leads_modify f l s (K : unit -> L -> session -> Prop) : K tt (f l) s -> leads F (modify f) l s K.
Proof. intros H. exact H. Qed.
Lemma leads_gets {A} (f : L -> A) l s K : K (f l) l s -> leads F (gets f) l s K.
Proof. intros H. exact H. Qed.
Lemma leads_return_with {A} f l s (K : A -> L -> session -> Prop) : F (f l) s -> leads F (return_with f) l s K.
Proof. intros H. exact H. Qed.
Lemma leads_obtain {A} f (m : bio (option A)) l s K :
  runs m s (fun o s' => match o with Some a => K a l s' | None => F (f l) s' end) -> leads F (obtain f m) l s K.
Proof. intros H. apply leads_bind, leads_doing. eapply session_mono; [exact H|]. now intros [a|] s' H'. Qed.
Lemma leads_demand f m l s (K : unit -> L -> session -> Prop) :
  runs m s (fun b s' => if (b : bool) then K tt l s' else F (f l) s') -> leads F (demand f m) l s K.
Proof. intros H. apply leads_bind, leads_doing. eapply session_mono; [exact H|]. now intros [] s' H'. Qed.
End Leads.

(** ** One message *)

(** A classification fails with 7 or 3. *)
Lemma classify_fails `{RX : PosixRegex} p m rc e : jf_policy_classify (Some p) (Some m) = Fail rc e -> rc = 7 \/ rc = 3.
Proof.
  cbn [jf_policy_classify]. rewrite res_bind_Fail. intros [H|(u & _ & H)]; [left; exact (check_message_rc _ _ _ H)|]. right. revert H.
  generalize (classify_builtins p m) no_stats. induction (view_list (addresses m)) as [|a t IH]; intros b st H; cbn in H; [discriminate|].
  rewrite res_bind_Fail in H. destruct H as [H|([b' st'] & _ & H)]; [|exact (IH _ _ H)]. clear IH. revert H. unfold classify_address.
  destruct (lookup _ _ _ _ _ _) as [b1 st1]. destruct (lookup _ _ _ _ _ _) as [b2 st2]. destruct (lookup_suffixes _ _ _ _ _) as [b3 st3].
  destruct (_ =? 0)%nat; [discriminate|]. destruct (negb _); [now intros [= <- _]|].
  revert b3 st3. induction (legacy p) as [|i l IH]; intros b3 st3; cbn; [discriminate|]. destruct (negb _); [discriminate|].
  destruct (_ =? 0); [apply IH|]. destruct (regexec _ _); [discriminate|apply IH|now intros [= <- _]].
Qed.

Lemma still_read t s : all_read t -> still s (add_note (Calls t) s).
Proof. intros _. apply still_calls. Qed.

Definition paths (items : list selected) : list bytes := map path items.

Lemma paths_alter f n l : (forall i, path (f i) = path i) -> paths (alter f n l) = paths l.
Proof. intros H. unfold paths. revert n. induction l as [|x t IH]; intros [|n]; cbn; rewrite ?H; f_equal; auto. Qed.
Lemma paths_attempted b i l : paths (set_first_attempted b i l) = paths l.
Proof. unfold set_first_attempted. destruct (first_of l i); [now apply paths_alter|done]. Qed.

Section Message.
Context `{SU : Surroundings} `{RX : PosixRegex} (fuel : nat) (cwd root : bytes) (policy : jf_policy).

(** The decision follows from the headers that were read and the policy. *)
Definition decided (d : decision) (ns : list note) : Prop :=
  exists fd l al h w st e,
    Asked (MessageReads fd) l ∈ ns /\ jf_headers_read (AL := al) l 0 = Ok h /\
    jf_policy_classify (Some policy) (Some (jf_headers_message h)) = Ok (Some w, st) /\ entries policy !! w = Some e /\
    winner d = Some (rule e) /\ d_local d = root ++ str "/" ++ local (rule e) /\
    header_size d = wire_size h /\ digest d = wire_digest h.

(** The message of position [i] in items with the paths [ps]. *)
Record about (i : nat) (ps : list bytes) (l : preparing) : Prop := {
  about_item : item l.1 = i; about_index : d_index l.1 = Z.of_nat i + 1;
  about_paths : paths l.2 = ps; about_noop : noop l.1 = false }.

Lemma decided_later d ns ns' : (forall n, n ∈ ns -> n ∈ ns') -> decided d ns -> decided d ns'.
Proof. intros H (fd & l & al & h & w & st & e & H1 & H2). exists fd, l, al, h, w, st, e. split; [now apply H|exact H2]. Qed.

Section Prepare.
Context (i : nat) (ps : list bytes) (s0 : session).
(** Where [prepare] goes on, and where it ends. *)
Definition going (l : preparing) (s : session) : Prop := about i ps l /\ still s0 s.
Definition prepared (l : preparing) (s : session) : Prop := going l s /\ (d_rc l.1 = 0 -> decided l.1 (notes s)).

Lemma going_silent {A} (m : bio A) l s : going l s -> silent m -> runs m s (fun _ s' => going l s').
Proof.
  intros [H1 H2] Hm. eapply session_mono; [exact (runs_silent m s Hm)|]. intros a s' H. split; [exact H1|]. exact (transitivity H2 H).
Qed.
Lemma going_fails rc d l s : rc <> 0 -> going l s -> prepared (fails_with rc d l) s.
Proof. intros Hr [[] H2]. split; [now split; [split|]|]. cbn. congruence. Qed.
Lemma leads_gone {A} rc d l s (K : A -> preparing -> session -> Prop) : rc <> 0 -> going l s ->
  leads prepared (return_with (fails_with rc d)) l s K.
Proof. intros. apply leads_return_with. now apply going_fails. Qed.
Lemma leads_got {A} rc d (m : bio (option A)) l s (K : A -> preparing -> session -> Prop) : rc <> 0 -> going l s -> silent m ->
  (forall a s', going l s' -> K a l s') -> leads prepared (obtain (fails_with rc d) m) l s K.
Proof.
  intros Hr Hg Hm HK. apply leads_obtain. eapply session_mono; [exact (going_silent m l s Hg Hm)|].
  intros [a|] s' H; [now apply HK|now apply going_fails].
Qed.
Lemma leads_set f l s (K : unit -> preparing -> session -> Prop) : going l s ->
  (forall d, item (f d) = item d /\ d_index (f d) = d_index d /\ noop (f d) = noop d) ->
  (going (f l.1, l.2) s -> K tt (f l.1, l.2) s) -> leads prepared (modify (of_decision f)) l s K.
Proof.
  intros [[] H2] Hf HK. apply leads_modify, HK. split; [|done]. destruct (Hf l.1) as (E1 & E2 & E3). split; cbn [fst snd]; congruence.
Qed.

Lemma runs_join a b s : runs (join a b) s (fun o s' => match o with Some p => p = a ++ str "/" ++ b /\ still s s' | None => True end).
Proof.
  unfold join. destruct (_ <? _); [now apply session_ret|]. apply session_bind. eapply session_mono; [exact (runs_silent malloc s (adds_system still still_read _ (fun _ => looks_call _ Alloc (fun _ => eq_refl))))|].
  intros [] s' H; now apply session_ret.
Qed.

Lemma prepare_name_spec it storage l s : going l s ->
  leads prepared (prepare_name cwd it storage i) l s (fun _ => going).
Proof.
  intros H. unfold prepare_name. apply leads_bind.
  apply leads_got; [done|exact H|apply (adds_absolute still still_read)|]. clear s H. intros source s H.
  apply leads_bind, leads_set; [exact H|done|]. clear H. set (l1 := (_, _)). clearbody l1. clear l. intros H.
  apply leads_bind. destruct (sel_error it); [now apply leads_gone|]. apply leads_ret. apply leads_bind.
  eapply (session_mono _ _ (fun p s' => match p.2 with Some _ => going p.1 s' | None => prepared p.1 s' end)).
  { destruct storage; [|now apply leads_ret]. destruct (first it); [|now apply leads_ret].
    change (leads prepared (gets (fun l : preparing => first_attempted l.2 i) ≫= (fun a : bool =>
      if a then return_with (fails_with 7 "E_MESSAGE_CHANGED") else modify (fun l : preparing => (l.1, set_first_attempted true i l.2))))
      l1 s (fun _ => going)).
    apply leads_bind, leads_gets. destruct (first_attempted _ _); [now apply leads_gone|]. apply leads_modify.
    destruct H as [[] H2]. split; [|done]. split; cbn; [done..|now rewrite paths_attempted|done]. }
  clear s H l1. intros [l [[]|]] s H; [|exact H]. cbn [fst snd] in *.
  apply leads_bind, leads_doing. eapply session_mono; [apply (going_silent _ _ _ H), (adds_open_parent still still_asked still_read)|]. clear s H. intros [e|[parent name]] s H.
  - apply leads_return_with. destruct (bool_decide _); now apply going_fails.
  - apply leads_bind, leads_set; [exact H|done|]. clear H. set (l1 := (_, _)). clearbody l1. clear l. intros H.
    apply leads_bind. apply leads_got; [done|exact H|apply (adds_system still still_read); intros SY; looking|]. clear s H. intros before s H.
    destruct (negb _); [now apply leads_gone|]. destruct (is_lock _ _); [now apply leads_gone|].
    destruct (_ && _); [now apply leads_gone|]. now apply leads_ret.
Qed.

Lemma prepare_open_spec storage parent name before l s : going l s ->
  leads prepared (prepare_open storage parent name before) l s (fun _ => going).
Proof.
  intros H. unfold prepare_open.
  apply leads_bind, leads_got; [done|exact H|apply (adds_ask still still_asked); reflexivity|]. clear s H. intros fd s H.
  apply leads_bind, leads_set; [exact H|done|]. clear H. set (l1 := (_, _)). clearbody l1. clear l. intros H.
  assert (forall b l s, going l s -> prepared (fails_with 7 "E_MESSAGE_CHANGED" (set_quarantine b l.1, l.2)) s) as HQ.
  { intros b l s' [[] H2]. apply going_fails; [done|]. split; [|done]. now split. }
  apply leads_bind, leads_obtain. eapply session_mono; [apply (going_silent _ _ _ H), (adds_system still still_read); intros SY; looking|].
  clear s H. intros [st|] s H; [|now apply HQ].
  apply leads_bind, leads_set; [exact H|done|]. clear H. set (l2 := (_, _)). clearbody l2. clear l1. intros H.
  destruct (is_lock _ _); [apply leads_return_with; now apply HQ|]. destruct (_ || _); [now apply leads_gone|]. now apply leads_ret.
Qed.

Lemma prepare_decide_spec parent fd name st l s : going l s ->
  leads prepared (prepare_decide root policy parent fd name st) l s (fun _ => prepared).
Proof.
  intros H. unfold prepare_decide. apply leads_bind, leads_doing, runs_ask. intros reads _.
  assert (going l (add_note (Asked (MessageReads fd) reads) s)) as H'.
  { destruct H as [H1 H2]. split; [done|]. apply (transitivity H2). now apply still_asked. }
  assert (Asked (MessageReads fd) reads ∈ notes (add_note (Asked (MessageReads fd) reads) s)) as HN by now left.
  revert H' HN. generalize (add_note (Asked (MessageReads fd) reads) s). clear s H. intros s H HN.
  apply leads_bind, leads_doing, runs_stepping. intros al s' [= _ <-].
  destruct (jf_headers_read reads 0) as [h|rc e] eqn:EH.
  2: { apply leads_return_with, going_fails; [|exact H]. unfold headers_status. destruct (_ || _) eqn:E; [done|].
       apply orb_false_iff in E as [E%negb_false_iff%Z.eqb_eq _]. lia. }
  apply leads_bind, leads_demand. eapply session_mono; [exact (runs_silent _ s (adds_unchanged still still_read _ _ _ _))|].
  intros b s1 H1. assert (going l s1) as G1 by (destruct H as [HA HS]; split; [done|exact (transitivity HS H1)]).
  apply (seen_later _ _ _ _ (still_goes _ _ H1)) in HN. clear s H H1. destruct b; [|now apply going_fails].
  destruct (jf_policy_classify (Some policy) (Some (jf_headers_message h))) as [[w st']|rc e] eqn:EC.
  2: { apply leads_return_with. destruct (Z.eq_dec rc 0) as [->|Hr]; [|now apply going_fails].
       exfalso. now apply classify_fails in EC as [?|?]. }
  destruct w as [w|]; [|apply leads_doing, runs_halted]. cbn [mbind option_bind].
  destruct (entries policy !! w) as [e|] eqn:EW; [|apply leads_doing, runs_halted].
  apply leads_bind. apply (leads_set (fun d => set_outcome 0 None (set_winner (rule e) d))); [exact G1|done|]. intros G2.
  apply leads_bind, leads_obtain.
  set (l1 := (_, _)) in *. eapply session_mono; [exact (runs_both _ _ _ _ (going_silent _ _ _ G2 (adds_join still still_read _ _)) (runs_join root (local (rule e)) s1))|].
  intros [p|] s' [H' HP].
  2: { destruct H' as [[A1 A2 A3 A4] H2]. split; [split; [now split|done]|]. cbn. discriminate. }
  apply leads_modify. cbn in HP. destruct HP as [-> HS]. destruct H' as [[A1 A2 A3 A4] H2]. split; [split; [now split|done]|].
  intros _. exists fd, reads, al, h, w, st', e. cbn. split; [|now split_and!]. exact (seen_later _ _ _ _ (still_goes _ _ HS) HN).
Qed.

Lemma prepare_spec items storage : paths items = ps ->
  runs (prepare cwd root policy items i storage (Z.of_nat i + 1)) s0 prepared.
Proof.
  intros E. unfold prepare. destruct (items !! i) as [it|]; [|apply runs_halted]. apply session_bind.
  eapply (session_mono _ _ (fun p s => prepared p.1 s)); [|now intros [l o] s].
  assert (going (new_decision i (Z.of_nat i + 1), items) s0) as H by (split; [now split|reflexivity]).
  apply (session_mono _ _ (fun p s' => match p.2 with Some _ => prepared p.1 s' | None => prepared p.1 s' end)); [|now intros [l [u|]] s].
  apply (leads_bind prepared _ _ _ _ (fun _ : unit => prepared)).
  eapply session_mono; [exact (prepare_name_spec it storage _ _ H)|]. intros [l [[[parent name] before]|]] s HG; [|exact HG].
  apply (leads_bind prepared _ _ _ _ (fun _ : unit => prepared)).
  eapply session_mono; [exact (prepare_open_spec storage parent name before _ _ HG)|]. clear s HG. intros [l1 [[fd st]|]] s HG; [|exact HG].
  exact (prepare_decide_spec parent fd name st _ _ HG).
Qed.
End Prepare.

(** A move that was made for the decision, and what it came to. *)
Definition moved_as (d : decision) (rc : Z) (ns : list note) : Prop :=
  exists s parent fd w t, winner d = Some w /\ Calls t ∈ ns /\
    accounted s parent (d_name d) fd (opened d) (header_size d) (digest d) (local w) (d_source d) rc (recovery d) t.

(** What a record says, when it is not of an error. *)
Definition reported (moving : bool) (d : decision) (ns : list note) : Prop :=
  d_rc d = 0 -> decided d ns /\ (moving = true -> moved_as d (if noop d then 1 else 0) ns).

(** A decision changed only in its outcome and its descriptors. *)
Record same_message (d d' : decision) : Prop := {
  same_item : item d' = item d; same_index : d_index d' = d_index d; same_winner : winner d' = winner d;
  same_local : d_local d' = d_local d; same_name : d_name d' = d_name d; same_source : d_source d' = d_source d;
  same_opened : opened d' = opened d; same_size : header_size d' = header_size d; same_digest : digest d' = digest d }.

Lemma same_message_refl d : same_message d d.
Proof. now split. Qed.
Lemma same_message_trans d1 d2 d3 : same_message d1 d2 -> same_message d2 d3 -> same_message d1 d3.
Proof. intros [] []. split; congruence. Qed.
Lemma decided_same d d' ns : same_message d d' -> decided d ns -> decided d' ns.
Proof.
  intros [] (fd & l & al & h & w & st & e & H). exists fd, l, al, h, w, st, e. rewrite same_winner0, same_local0, same_size0, same_digest0. exact H.
Qed.
Lemma moved_same d d' rc ns : same_message d d' -> recovery d' = recovery d -> moved_as d rc ns -> moved_as d' rc ns.
Proof.
  intros [] ER (s & parent & fd & w & t & H1 & H2 & H3). exists s, parent, fd, w, t.
  rewrite same_winner0, same_name0, same_opened0, same_size0, same_digest0, same_source0, ER. now split_and!.
Qed.
Lemma moved_later d rc ns ns' : (forall n, n ∈ ns -> n ∈ ns') -> moved_as d rc ns -> moved_as d rc ns'.
Proof. intros H (s & parent & fd & w & t & H1 & H2 & H3). exists s, parent, fd, w, t. split_and!; [done|now apply H|done]. Qed.
Lemma reported_later moving d ns ns' : (forall n, n ∈ ns -> n ∈ ns') -> reported moving d ns -> reported moving d ns'.
Proof.
  intros H HR Hd. destruct (HR Hd) as [H1 H2]. split; [exact (decided_later _ _ _ H H1)|]. intros Hm. exact (moved_later _ _ _ _ H (H2 Hm)).
Qed.

Lemma move_decision_spec d s σ :
  runs (move_decision fuel d s) σ (fun r σ' => still σ σ' /\ same_message d r.1 /\
    (d_rc d <> 0 -> r.1 = d) /\ (d_rc d = 0 -> noop d = false -> d_rc r.1 = 0 -> moved_as r.1 (if noop r.1 then 1 else 0) (notes σ'))).
Proof.
  unfold move_decision. destruct (Z.eqb_spec (d_rc d) 0) as [E|E]; cbn [negb].
  2: { apply session_ret. split_and!; [reflexivity|apply same_message_refl|done|contradiction]. }
  apply session_bind. eapply session_mono.
  { apply (runs_silent (match stop s with ShouldStop => system (fun _ => stop_requested) | _ => mret false end)).
    destruct (stop s); try apply (adds_ret still). apply (adds_system still still_read). intros SY. looking. }
  intros stop_ σ1 H1. destruct stop_.
  { apply session_ret. split_and!; [done|now split|contradiction|discriminate]. }
  destruct (winner d) as [w|] eqn:EW; [|apply runs_halted]. apply session_bind. unfold system. apply session_bind.
  set (m := fun SY : System => jf_storage_move fuel s (fdz (parentfd d)) (d_name d) (fdz (d_fd d)) (opened d) (header_size d) (digest d) (local w) (d_source d)).
  unfold runs at 1, system_calls.
  pose proof (StorageFacts.move_spec (SY := system_at (notes σ1)) fuel s (fdz (parentfd d)) (d_name d) (fdz (d_fd d)) (opened d) (header_size d) (digest d) (local w) (d_source d)) as HM.
  fold (m (system_at (notes σ1))) in HM. destruct (m (system_at (notes σ1)) []) as [[[[[rc detail] r] seq_]|] t]; [|exact I].
  destruct HM as [_ HM]. apply session_ret. cbn [fst snd].
  assert (still σ (add_note (Calls t) σ1)) as HS by (apply (transitivity H1), still_calls).
  assert (Calls t ∈ notes (add_note (Calls t) σ1)) as HC by now left.
  apply session_ret. destruct (Z.eqb_spec rc 1) as [->|Hrc]; cbn [fst snd].
  - split_and!; [exact HS|now split|contradiction|]. intros _ _ _. cbn [noop set_noop].
    eexists _, _, _, w, t. cbn. split_and!; [exact EW|exact HC|exact HM].
  - split_and!; [exact HS|now split|contradiction|]. intros _ HN E'. cbn in E'. subst rc. cbn. rewrite HN.
    eexists _, _, _, w, t. cbn. split_and!; [exact EW|exact HC|exact HM].
Qed.
End Message.

(** ** Records *)

(** The output grew by [l], and the pool is as it was. *)
Definition prints (l : list bytes) (s s' : session) : Prop :=
  goes l s s' /\ pool_state s' = pool_state s /\ choices s' = choices s /\ events s' = events s.

Lemma prints_still s s' : still s s' -> prints [] s s'.
Proof. now intros [A B C D]. Qed.
Lemma prints_trans l l' s1 s2 s3 : prints l s1 s2 -> prints l' s2 s3 -> prints (l ++ l') s1 s3.
Proof. intros (A1 & B1 & C1 & D1) (A2 & B2 & C2 & D2). split; [exact (goes_trans _ _ _ _ _ A1 A2)|]. split_and!; congruence. Qed.
Lemma prints_after l s1 s2 s3 : prints l s1 s2 -> still s2 s3 -> prints l s1 s3.
Proof. intros H1 H2%prints_still. rewrite <- (app_nil_r l). exact (prints_trans _ _ _ _ _ H1 H2). Qed.
Lemma prints_before l s1 s2 s3 : still s1 s2 -> prints l s2 s3 -> prints l s1 s3.
Proof. intros H1%prints_still H2. exact (prints_trans [] _ _ _ _ H1 H2). Qed.

Lemma runs_returns {A} (m : bio A) s Q : returns m Q -> runs m s (fun a _ => Q a).
Proof. intros H. unfold runs. destruct (m s) as [[a|] s'] eqn:E; [exact (H _ _ _ E)|exact I]. Qed.

Section Output.
Context `{SU : Surroundings}.

Lemma silent_note q : (forall r, chunk (Asked q r) = []) -> silent (ask_for q).
Proof. intros H s. now apply still_note. Qed.
Lemma silent_diagnostic p : silent (recovery_diagnostic p).
Proof. destruct p; [|apply (adds_ret still)]. apply (adds_bind still); [now apply silent_note|]. intros a. apply (adds_ret still). Qed.

Lemma runs_field b s : runs (field b) s (fun ok s' => prints (if (ok : bool) then [ended b] else []) s s').
Proof.
  unfold runs, field, ask_for. generalize (reply_to (notes s) (Fwrite (b ++ [0]))). intros r.
  split; [|done]. split; cbn; [done|now eexists [_]|done..].
Qed.
Lemma runs_fields l : forall s, runs (fields l) s (fun ok s' => exists l', prints l' s s' /\ ((ok : bool) = true -> l' = map ended l)).
Proof.
  induction l as [|x t IH]; intros s; cbn [fields].
  - apply session_ret. exists []. split; [apply prints_still; reflexivity|done].
  - apply session_bind. eapply session_mono; [apply runs_field|]. intros [] s1 H1.
    + eapply session_mono; [apply IH|]. intros ok s2 (l' & H2 & E). exists ([ended x] ++ l'). split; [exact (prints_trans _ _ _ _ _ H1 H2)|].
      intros Hok. now rewrite (E Hok).
    + apply session_ret. exists []. split; [exact H1|discriminate].
Qed.

Lemma emit_spec d moving items global σ :
  let p := match items !! item d with Some it => path it | None => [] end in
  runs (emit_decision d moving items global) σ (fun r σ' =>
    exists l, prints l σ σ' /\ (r.1 = 3 \/ r.1 = d_rc d /\ d_rc d <> 3 /\ l = map ended (decision_record d p moving))).
Proof.
  intros p. unfold emit_decision. fold p. apply session_bind.
  apply (session_mono _ _ (fun ok s' => exists l, prints l σ s' /\ (d_rc d = 3 \/ ((ok : bool) = true -> d_rc d <> 3 /\ l = map ended (decision_record d p moving))))).
  { destruct (Z.eqb_spec (d_rc d) 3) as [E|E].
    - apply session_ret. exists []. split; [apply prints_still; reflexivity|now left].
    - eapply session_mono; [apply runs_fields|]. intros ok s' (l & H & HL). exists l. split; [done|]. right. auto. }
  intros ok s1 (l & H1 & HL). destruct (if ok : bool then _ else _) as [rc detail] eqn:E.
  assert (forall s2, still s1 s2 -> exists l, prints l σ s2 /\ (rc = 3 \/ rc = d_rc d /\ d_rc d <> 3 /\ l = map ended (decision_record d p moving))) as HE.
  { intros s2 H2. exists l. split; [exact (prints_after _ _ _ _ H1 H2)|]. destruct ok; injection E as <- _; [|now left].
    destruct HL as [HL|HL]; [now left|right]. now destruct (HL eq_refl). }
  apply session_bind. eapply session_mono; [apply runs_silent, silent_diagnostic|]. intros ? s2 H2. apply session_bind.
  eapply session_mono; [apply runs_silent, silent_diagnostic|]. intros ? s3 H3. apply session_bind.
  eapply session_mono; [apply runs_silent, silent_diagnostic|]. intros ? s4 H4. apply session_ret. cbn [fst].
  apply HE. exact (transitivity (transitivity H2 H3) H4).
Qed.

(** What [close_decision] keeps. *)
Record closes (d d' : decision) (items items' : list selected) : Prop := {
  closes_same : same_message d d'; closes_noop : noop d' = noop d; closes_recovery : recovery d' = recovery d;
  closes_quarantine : quarantine d' = quarantine d; closes_paths : paths items' = paths items;
  closes_rc : d_rc d' = d_rc d \/ d_rc d = 0 /\ d_rc d' = 7 }.

Lemma close_spec d storage items σ :
  runs (close_decision d storage items) σ (fun r σ' => still σ σ' /\ closes d r.1 items r.2).
Proof.
  apply runs_both; [apply runs_silent, (adds_close_decision still still_read)|]. apply runs_returns. unfold close_decision.
  apply (yields_bind _ _ (fun d' => closes d d' items items)).
  { destruct (d_fd d) as [fd|]; [|apply yields_ret; split; auto using same_message_refl].
    destruct (quarantine d); [apply yields_ret; split; auto using same_message_refl|].
    eapply yields_bind; [apply returns_any|]. intros ok _. apply yields_ret.
    destruct (negb ok && (d_rc d =? 0)) eqn:E; [|split; auto; now split].
    apply andb_true_iff in E as [_ E%Z.eqb_eq]. split; auto; now split. }
  intros d1 H1. apply (yields_bind _ _ (fun d' => closes d d' items items)).
  { destruct (parentfd d1) as [fd|]; [|now apply yields_ret]. eapply yields_bind; [apply returns_any|]. intros ok _. apply yields_ret.
    destruct H1 as [[] H2 H3 H4 H5 H6]. split; [now split|done..]. }
  intros d2 [H1' H2 H3 H4 H5 H6]. apply yields_ret. split; [done..| |done]. cbn [snd]. destruct storage; [|done].
  destruct (_ && _); [apply paths_attempted|done].
Qed.

Lemma closes_reported `{RX : PosixRegex} root policy moving d d' items items' ns : closes d d' items items' ->
  reported root policy moving d ns -> reported root policy moving d' ns.
Proof.
  intros [HS HN HR _ _ HC] H Hd. destruct HC as [HC|[_ HC]]; [|congruence]. rewrite HC in Hd. destruct (H Hd) as [H1 H2].
  split; [exact (decided_same _ _ _ _ _ HS H1)|]. intros Hm. rewrite HN. exact (moved_same _ _ _ _ HS HR (H2 Hm)).
Qed.
End Output.

(** ** One message after the other *)

(** What the kernel documents of signals: their numbers are positive. *)
Class Signals `{SU : Surroundings} : Prop := {
  delivered_positive ns z : reply_to ns Delivered = Some z -> 0 < z;
  pending_positive ns z : Some z ∈ reply_to ns Pending -> 0 < z;
  polled_positive ns c z :
    c ∈ reply_to ns Background ->
    match c with Checks _ a | Polls a => Some z ∈ a -> 0 < z | _ => True end }.

(** The output of decisions, the messages having these paths. *)
Definition rows (moving : bool) (ds : list decision) (ps : list bytes) : list bytes :=
  concat (zip_with (fun d p => map ended (decision_record d p moving)) ds ps).
Definition all_well (ds : list decision) : bool := forallb (fun d => d_rc d =? 0) ds.

Lemma rows_app moving ds ds' ps ps' : length ds = length ps -> rows moving (ds ++ ds') (ps ++ ps') = rows moving ds ps ++ rows moving ds' ps'.
Proof. intros H. unfold rows. rewrite zip_with_app by done. apply concat_app. Qed.

Section Sequence.
Context `{SU : Surroundings} `{SG : !Signals} `{RX : PosixRegex} (fuel : nat) (cwd root : bytes) (policy : jf_policy).

Lemma get_interrupted_spec s : 0 <= interrupted s ->
  runs get_interrupted s (fun z s' => still s s' /\ (z <> 0 -> 0 < interrupted s') /\ (z = 0 -> interrupted s' = 0)).
Proof.
  intros H0. unfold get_interrupted. apply session_bind, runs_stepping. intros h s1 [= _ <-]. apply session_bind.
  apply (session_mono _ _ (fun (sig : reply Delivered) s' => still s s' /\ interrupted s' = interrupted s /\ forall z, sig = Some z -> 0 < z)).
  { destruct h; [|apply session_ret; split; [reflexivity|done]]. apply runs_ask. intros r ->. split; [now apply still_asked|].
    split; [done|]. intros z. apply delivered_positive. }
  intros sig s1 (H1 & E & Hz). apply runs_stepping. intros z s2 [= <- <-]. destruct sig as [z|].
  - specialize (Hz z eq_refl). split; [|cbn; split; lia]. apply (transitivity H1). split; [split|..]; cbn; try done; [now rewrite app_nil_r|now exists []|lia].
  - split; [exact H1|]. rewrite E. split; lia.
Qed.

(** The decisions of consecutive messages from [start] on. *)
Definition settled_rows (moving : bool) (start : nat) (ds : list decision) (ns : list note) : Prop :=
  forall k d, ds !! k = Some d -> d_index d = Z.of_nat (start + k) + 1 /\ d_rc d <> 3 /\ reported root policy moving d ns.

Lemma settled_cons moving start d ds ns : d_index d = Z.of_nat start + 1 -> d_rc d <> 3 -> reported root policy moving d ns ->
  settled_rows moving (S start) ds ns -> settled_rows moving start (d :: ds) ns.
Proof.
  intros H1 H2 H3 H [|k] d' E; cbn in E; [injection E as <-; rewrite Nat.add_0_r; auto|].
  destruct (H k d' E) as (E1 & E2 & E3). split_and!; [|done..]. rewrite E1. lia.
Qed.
Lemma settled_later moving start ds ns ns' : (forall n, n ∈ ns -> n ∈ ns') -> settled_rows moving start ds ns -> settled_rows moving start ds ns'.
Proof. intros H HS k d E. destruct (HS k d E) as (E1 & E2 & E3). split_and!; [done..|]. exact (reported_later _ _ _ _ _ _ H E3). Qed.
Lemma settled_app moving start ds ds' ns : settled_rows moving start ds ns -> settled_rows moving (start + length ds) ds' ns ->
  settled_rows moving start (ds ++ ds') ns.
Proof.
  intros H1 H2 k d E. apply lookup_app_Some in E as [E|[Hk E]]; [exact (H1 k d E)|]. destruct (H2 _ _ E) as (E1 & E2). split; [|done].
  rewrite E1. lia.
Qed.

Definition is_moving (storage : option jf_storage) : bool := match storage with Some _ => true | None => false end.

Lemma classify_spec i ps p items storage g σ : paths items = ps -> ps !! i = Some p ->
  runs (classify fuel cwd root policy i items storage g) σ (fun r σ' =>
    paths r.1.1.2 = ps /\ is_moving r.1.2 = is_moving storage /\
    exists l, prints l σ σ' /\ (r.1.1.1 = 3 \/ exists d, r.1.1.1 = d_rc d /\ d_rc d <> 3 /\ d_index d = Z.of_nat i + 1 /\
      reported root policy (is_moving storage) d (notes σ') /\ l = map ended (decision_record d p (is_moving storage)))).
Proof.
  intros HP Hp. unfold classify. apply session_bind. eapply session_mono; [exact (prepare_spec cwd root policy i ps σ items storage HP)|].
  intros [d items1] σ1 [[[A1 A2 A3 A4] S1] HD]. cbn [fst snd] in *. apply session_bind.
  apply (session_mono _ _ (fun r σ' => still σ1 σ' /\ same_message d r.1 /\ is_moving r.2 = is_moving storage /\
    (d_rc r.1 = 0 -> is_moving storage = true -> moved_as r.1 (if noop r.1 then 1 else 0) (notes σ')) /\ (d_rc r.1 = 0 -> d_rc d = 0))).
  { destruct (Z.eqb_spec (d_rc d) 0) as [E|E]; cbn [negb].
    2: { apply session_ret. split_and!; [reflexivity|apply same_message_refl|done|contradiction|done]. }
    destruct storage as [s|].
    - apply session_bind. eapply session_mono; [apply move_decision_spec|]. intros [d1 q] σ2 (H1 & H2 & _ & H4). apply session_ret. cbn [fst snd] in *.
      split_and!; [done..|intros H _; now apply H4|done].
    - apply session_bind. eapply session_mono; [apply runs_silent, (adds_already_there still still_asked still_read)|]. intros r σ2 H. apply session_ret. cbn [fst snd].
      split_and!; [exact H|destruct r; now split|done|discriminate|done]. }
  intros [d1 storage1] σ2 (S2 & M2 & E2 & R2 & Z2). cbn [fst snd] in *. apply session_bind.
  eapply session_mono; [exact (close_spec d1 storage1 items1 σ2)|]. intros [d2 items2] σ3 [S3 C3]. cbn [fst snd] in C3.
  apply session_bind. eapply session_mono; [exact (emit_spec d2 (is_moving storage1) items2 g σ3)|]. cbv zeta. intros [rc g'] σ4 (l & P4 & H4). cbn [fst] in H4.
  destruct (if quarantine d2 then _ else _) as [rc' g''] eqn:EQ. apply session_bind.
  eapply session_mono; [apply runs_silent, (adds_free still still_read)|]. intros u σ5 S5. apply session_ret. cbn [fst snd].
  pose proof (closes_paths _ _ _ _ C3) as EP. split; [congruence|]. split; [done|]. exists l.
  split; [apply (prints_after _ _ σ4); [|done]; now apply (prints_before _ _ σ3); [exact (transitivity S1 (transitivity S2 S3))|]|].
  destruct (quarantine d2); [injection EQ as <- _; now left|]. injection EQ as <- _. destruct H4 as [H4|(E4 & N4 & L4)]; [now left|].
  right. exists d2. pose proof (closes_same _ _ _ _ C3) as M3. assert (item d2 = i /\ d_index d2 = Z.of_nat i + 1) as [I2 J2].
  { destruct M2, M3. split; congruence. }
  split_and!; [done..| |].
  - apply (reported_later root policy _ _ (notes σ2)).
    { intros n Hn. apply (seen_later _ _ _ _ (still_goes _ _ S5)), (seen_later _ _ _ _ (proj1 P4)), (seen_later _ _ _ _ (still_goes _ _ S3)), Hn. }
    refine (closes_reported root policy _ d1 d2 _ _ _ C3 _). intros H0. split; [|now apply R2].
    apply (decided_same _ _ _ _ _ M2). refine (decided_later _ _ _ _ _ _ (HD (Z2 H0))). intros n. exact (seen_later _ _ _ _ (still_goes _ _ S2)).
  - rewrite L4, E2, I2. do 2 f_equal. unfold paths in *. rewrite <- A3, <- EP, list_lookup_fmap in Hp.
    destruct (items2 !! i); [|discriminate]. now injection Hp as <-.
Qed.

(** The output [l] is one record for each message of [ps], which start at
    [start]; the status is [agg] unless one is an error. *)
Definition complete (moving : bool) (start : nat) (ps : list bytes) (agg rc : Z) (l : list bytes) (ns : list note) : Prop :=
  exists ds, length ds = length ps /\ l = rows moving ds ps /\ settled_rows moving start ds ns /\ rc = if all_well ds then agg else 7.

Lemma complete_cons moving start d p ps agg rc l ns : d_index d = Z.of_nat start + 1 -> d_rc d <> 3 ->
  reported root policy moving d ns ->
  complete moving (S start) ps (if d_rc d =? 0 then agg else 7) rc l ns ->
  complete moving start (p :: ps) agg rc (map ended (decision_record d p moving) ++ l) ns.
Proof.
  intros H1 H2 H3 (ds & E1 & -> & E3 & ->). exists (d :: ds). split_and!; [cbn; lia|done|now apply settled_cons|].
  unfold all_well. cbn. destruct (d_rc d =? 0); [done|]. now destruct (forallb _ ds).
Qed.

(** How a batch may end: with an error of its own, stopped by a signal, or having
    reported every message. *)
Definition outcome (moving : bool) (start : nat) (ps : list bytes) (agg rc : Z) (σ σ' : session) : Prop :=
  exists l, goes l σ σ' /\ (rc = 3 \/ 0 < interrupted σ' \/ complete moving start ps agg rc l (notes σ')).

Lemma fflush_spec σ : runs fflush σ (fun _ σ' => still σ σ').
Proof. apply runs_silent, silent_note. done. Qed.

Lemma singles_spec rest : forall i ps items storage g agg σ, paths items = ps -> drop i ps = rest -> 0 <= interrupted σ ->
  runs (singles fuel cwd root policy (length rest) i items storage g agg) σ (fun r σ' =>
    outcome (is_moving storage) i rest agg r.1.1.1 σ σ' /\ pool_state σ' = pool_state σ).
Proof.
  assert (forall moving i rest agg items storage g σ, rest = [] \/ 0 < interrupted σ ->
    runs (ok ← fflush; mret (if (ok : bool) then agg else 3, items, storage, g)) σ
      (fun (r : Z * list selected * option jf_storage * option string) σ' => outcome moving i rest agg r.1.1.1 σ σ' /\ pool_state σ' = pool_state σ)) as HF.
  { intros moving i r agg items storage g σ HE. apply session_bind. eapply session_mono; [apply fflush_spec|]. intros ok σ' H. apply session_ret. cbn [fst].
    split; [|exact (still_pool _ _ H)]. exists []. split; [exact (still_goes _ _ H)|]. destruct ok; [|now left]. right. destruct HE as [->|HE].
    - right. exists []. split_and!; [done..| |done]. intros k d E. discriminate.
    - left. exact (goes_signal _ _ _ (still_goes _ _ H) HE). }
  induction rest as [|p rest IH]; intros i ps items storage g agg σ HP HR H0; cbn [length singles]; [apply HF; now left|].
  apply session_bind. eapply session_mono; [exact (get_interrupted_spec σ H0)|]. intros z σ1 (S1 & Z1 & Z2).
  destruct (Z.eqb_spec z 0) as [->|Hz]; cbn [negb].
  2: { eapply session_mono; [apply HF; right; exact (Z1 Hz)|]. intros r σ2 [(l & HG & HO) EP]. split; [|now rewrite EP, (still_pool _ _ S1)].
       exists l. split; [exact (still_goes_trans _ _ _ _ S1 HG)|exact HO]. }
  assert (ps !! i = Some p) as Hp by (rewrite <- (Nat.add_0_r i), <- lookup_drop, HR; reflexivity).
  assert (drop (S i) ps = rest) as HR' by (rewrite <- Nat.add_1_r, <- drop_drop, HR; reflexivity).
  apply session_bind. eapply session_mono; [exact (classify_spec i ps p items storage g σ1 HP Hp)|].
  intros [[[rc items2] storage2] g2] σ2 (E2 & M2 & l & P2 & HO). cbn [fst snd] in *.
  pose proof (prints_before _ _ _ _ S1 P2) as P. destruct (Z.eqb_spec rc 3) as [->|Hrc].
  { apply session_ret. split; [|now destruct P as (_ & E & _)]. exists l. split; [apply P|now left]. }
  destruct HO as [HO|(d & -> & N3 & EI & HRep & ->)]; [done|].
  eapply session_mono; [apply (IH (S i) ps items2 storage2 g2 _ σ2 E2 HR')|].
  { apply (goes_sign _ _ _ (proj1 P)), H0. }
  intros r σ3 [(l3 & G3 & O3) EP]. destruct P as (GP & EP' & _). split; [|congruence]. rewrite M2 in O3. eexists. split; [exact (goes_trans _ _ _ _ _ GP G3)|].
  destruct O3 as [O3|[O3|O3]]; [now left|right; now left|]. right. right. apply complete_cons; [done|done| |exact O3].
  refine (reported_later _ _ _ _ _ _ _ HRep). intros n. exact (seen_later _ _ _ _ G3).
Qed.
End Sequence.
