(* ===== verification/BatchPool.v ===== *)
(** * A batch over the pool (Batch, Pool)

    The coordinator's calls from a session: what the threads may do in between, why
    a stop was made, and that each job of a window is run once. *)
From S2P Require Import Prelude Sha256 Rules Resolve Classify Policy Bytes Cache Headers Files Generation PoolFacts Pool StorageFacts Storage Session Selection Batch Main BatchFacts BatchEnds.

(** ** The events of a step *)

Definition positive (e : Pool.event) : Prop := match e with Consumed z => 0 < z | _ => True end.
Definition is_opened (e : Pool.event) : bool := match e with Opened _ => true | _ => false end.
Abbreviation calls_stop e := (existsb is_stop_call e).
Abbreviation opens e := (existsb is_opened e).

(** The signals that a choice brings are positive. *)
Definition sound_choice (c : choice) : Prop :=
  match c with Checks _ a | Polls a | Asks a | Joins a => forall z, Some z ∈ a -> 0 < z | _ => True end.
(** The choice may request a stop. *)
Definition may_stop (c : choice) : bool := match c with Stops _ | Cancels => true | Binds _ i _ => i | _ => false end.

(** A step of [c] that gives [e]: the array and, between calls, the coordinator. *)
Record step_ok (c : choice) (s s' : state) (e : list Pool.event) : Prop := {
  step_array : theirs c = true -> array s' = array s;
  step_opens : theirs c = true -> opens e = false;
  step_calls : may_stop c = false -> calls_stop e = false;
  step_positive : sound_choice c -> Forall positive e }.

Lemma drain_sound n : forall a p r, (forall z, Some z ∈ a -> 0 < z) -> Forall (fun z => 0 < z) r -> Forall (fun z => 0 < z) (drain n a p r).2.
Proof.
  induction n as [|n IH]; intros a p r Ha Hr; [done|]. destruct a as [|[z|] a]; cbn; [done| |done].
  apply IH; [intros z' Hz'; apply Ha; now right|]. constructor; [apply Ha; now left|done].
Qed.

Lemma consumed_events r : opens (map Consumed r) = false /\ calls_stop (map Consumed r) = false.
Proof. induction r as [|z r IH]; [done|exact IH]. Qed.

(** The collection of signals. *)
Lemma observe_step a s : exists u e, observe_signals a s = (u, e) /\ array u = array s /\ coordinator u = coordinator s /\
  opens e = false /\ calls_stop e = false /\ ((forall z, Some z ∈ a -> 0 < z) -> Forall positive e).
Proof.
  unfold observe_signals. pose proof (drain_sound 8 a (pool s) []) as HD. destruct (drain 8 a (pool s) []) as [p r].
  eexists _, _. split; [reflexivity|]. destruct (consumed_events r) as [E1 E2]. split_and!; [now destruct r|now destruct r|done..|].
  intros Ha. specialize (HD Ha (List.Forall_nil _)). cbn in HD. clear -HD. induction HD; now constructor.
Qed.

Ltac by_choice H :=
  match type of H with move ?c ?s = Some (?s', ?e) =>
    assert (forall r, Some r = Some (s', e) -> step_ok c s r.1 r.2 -> step_ok c s s' e) as K by (intros r [= ->]; auto)
  end.

Lemma move_step c s s' e : move c s = Some (s', e) -> step_ok c s s' e.
Proof.
  intros H. by_choice H.
  assert (forall c u, (theirs c = true -> array u = array s) -> step_ok c s u []) as HN by (intros c' u E; split; [done..|intros _; constructor]).
  assert (forall w, step_ok (Enter w) s (worker_enter w s).1 (worker_enter w s).2) as HE.
  { intros w. unfold worker_enter. destruct (negb _ && _); [now apply HN|]. destruct (quit _); [now apply HN|].
    destruct (array s !! _); [|now apply HN]. split; [done..|intros _; repeat constructor]. }
  destruct c; cbn [move] in H.
  all: try (destruct (workers s !! w) as [[]|] eqn:E; try discriminate).
  all: try at_coordinator.
  all: apply (K _ H) || idtac; cbn [fst snd]; try apply HE; try now apply HN.
  - unfold jf_pool_stopped. destruct (observe_step answers s) as (u & f & -> & E1 & E2 & E3 & E4 & E5).
    split; [done|done|done|]. intros Ha. constructor; [done|now apply E5].
  - split; cbn; try done. intros _. repeat constructor.
  - unfold worker_settle. set (u := set_worker _ _ _). assert (array (if size_t (remaining (pool s) - 1) =? 0 then signal_settled u else u) = array s) as EA.
    { destruct (_ =? 0); [|done]. unfold signal_settled. now destruct (coordinator u). }
    split; cbn [fst snd]; [now intros _|done..|]. intros _. repeat constructor.
  - destruct (manager s); [|discriminate]. apply (K _ H). unfold signals.
    destruct (observe_step answers s) as (u & f & -> & E1 & E2 & E3 & E4 & E5). split; cbn [fst snd]; [destruct (quit _); now intros _|done..].
  - unfold jf_pool_bind. destruct interrupted; split; cbn; try done; intros _; repeat constructor.
  - unfold jf_pool_stopped. destruct (observe_step answers s) as (u & f & -> & E1 & E2 & E3 & E4 & E5).
    split; [done|done|done|]. intros Ha. constructor; [done|now apply E5].
  - split; cbn; try done. intros _. repeat constructor.
  - destruct (_ && _); [|discriminate]. apply (K _ H). unfold jf_pool_window. destruct (n =? 0)%nat; [now apply HN|].
    unfold window_test. destruct (_ =? 0); split; cbn; try done; intros _; repeat constructor.
  - unfold window_test. destruct (_ =? 0); [|now apply HN]. split; [done..|intros _; repeat constructor].
  - destruct (manager s); [discriminate|]. destruct (forallb Pool.gone (workers s)); [|discriminate]. apply (K _ H). unfold finish_joined.
    destruct (observe_step answers s) as (u & f & -> & E1 & E2 & E3 & E4 & E5). split; [done|done|done|]. intros Ha. constructor; [done|now apply E5].
Qed.

(** Between calls the other threads leave the coordinator alone and request no stop. *)
Lemma idle_step ev c s s' e : Queue ev s -> coordinator s = Idle -> theirs c = true -> move c s = Some (s', e) ->
  coordinator s' = Idle /\ calls_stop e = false.
Proof.
  intros Q HC HT H.
  assert (forall w job, workers s !! w <> Some (Running job)) as HR.
  { intros w job Hw. destruct (idle_next _ _ Q) as [_ HR]; [now rewrite HC|].
    destruct (running_set w _ Entering s Hw) as (rest & H1 & _). rewrite HR in H1. now apply Permutation_nil_l in H1. }
  split; [|apply (step_calls _ _ _ _ (move_step _ _ _ _ H)); destruct c; try done; cbn in H; destruct (workers s !! w) as [[]|] eqn:E; try discriminate; now apply HR in E].
  assert (forall r, Some r = Some (s', e) -> coordinator r.1 = Idle -> coordinator s' = Idle) as K by (intros r [= ->]; auto).
  assert (forall w, coordinator (worker_enter w s).1 = Idle) as HE.
  { intros w. unfold worker_enter. destruct (negb _ && _); [done|]. destruct (quit _); [done|]. now destruct (array s !! _). }
  destruct c; try discriminate HT; cbn [move] in H; rewrite ?HC in H; try discriminate H.
  all: try (destruct (workers s !! w) as [[]|] eqn:E; try discriminate H; try (exfalso; exact (HR _ _ E))).
  all: try (apply (K _ H); try apply HE; exact HC).
  destruct (manager s); [|discriminate]. apply (K _ H). unfold signals.
  destruct (observe_step answers s) as (u & f & -> & E1 & E2 & _). destruct (quit _); cbn; congruence.
Qed.

(** ** The pool of a session *)

(** What the session says of the pool is a run of it. *)
Definition pooled (σ : session) : Prop := reaches (choices σ) (events σ) (pool_state σ) /\ Forall positive (events σ).
Definition idle (σ : session) : Prop := coordinator (pool_state σ) = Idle.
(** A run between two such states that printed [l], with no stop requested in it
    when [b]. *)
Record continues (b : bool) (l : list bytes) (σ σ' : session) : Prop := {
  con_goes : goes l σ σ'; con_pooled : pooled σ'; con_idle : idle σ';
  con_events : exists e, events σ' = e ++ events σ /\ (b = true -> calls_stop e = false) }.

Lemma calls_app e e' : calls_stop (e ++ e') = calls_stop e || calls_stop e'.
Proof. apply existsb_app. Qed.
Lemma continues_trans b b' l l' σ1 σ2 σ3 : continues b l σ1 σ2 -> continues b' l' σ2 σ3 -> continues (b && b') (l ++ l') σ1 σ3.
Proof.
  intros [G1 P1 I1 (e1 & E1 & C1)] [G2 P2 I2 (e2 & E2 & C2)]. split; [exact (goes_trans _ _ _ _ _ G1 G2)|done..|].
  exists (e2 ++ e1). split; [now rewrite E2, E1, app_assoc|]. intros [-> ->]%andb_true_iff. rewrite calls_app, C1, C2; auto.
Qed.
Lemma continues_weaken b b' l σ σ' : (b' = true -> b = true) -> continues b l σ σ' -> continues b' l σ σ'.
Proof. intros H [G P I0 (e & E & C)]. split; [done..|]. exists e. auto. Qed.
Lemma continues_refl σ : pooled σ -> idle σ -> continues true [] σ σ.
Proof. intros. split; [apply goes_refl|done..|now exists []]. Qed.
Lemma continues_prints l σ σ' : pooled σ -> idle σ -> prints l σ σ' -> continues true l σ σ'.
Proof.
  intros HP HI (G & E1 & E2 & E3). split; [done| | |now exists []]; unfold pooled, idle in *; congruence.
Qed.
Lemma continues_still σ σ' : pooled σ -> idle σ -> still σ σ' -> continues true [] σ σ'.
Proof. intros HP HI H. apply continues_prints; [done..|now apply prints_still]. Qed.

(** A signal that was taken is reported; a stop without a request comes from one. *)
Lemma last_positive e ev : Forall positive e -> 0 < last_signal ev -> 0 < last_signal (e ++ ev).
Proof. induction 1 as [|x e Hx _ IH]; intros H; cbn; [done|]. destruct x; auto. Qed.
Lemma last_nonneg ev : Forall positive ev -> 0 <= last_signal ev.
Proof. induction 1 as [|x e Hx _ IH]; cbn; [done|]. destruct x; auto. cbn in Hx. lia. Qed.
Lemma stop_by_signal ev : Forall positive ev -> calls_stop ev = false -> stop_seen ev = true -> 0 < last_signal ev.
Proof. induction 1 as [|x e Hx _ IH]; cbn; [done|]. destruct x; cbn; auto. discriminate. Qed.
Lemma stop_stays e ev : stop_seen ev = true -> stop_seen (e ++ ev) = true.
Proof. intros H. induction e as [|x e IH]; cbn; [done|]. destruct x; auto. Qed.

Section PoolCalls.
Context `{SU : Surroundings} `{SG : !Signals}.

Lemma schedule_spec cs : forall done_ ev st, reaches done_ ev st -> Forall positive ev -> Forall sound_choice cs -> Forall (fun c => theirs c = true) cs ->
  match schedule cs done_ ev st with
  | Some (st', done', ev') => reaches done' ev' st' /\ Forall positive ev' /\ array st' = array st /\
      exists e, ev' = e ++ ev /\ opens e = false /\ (coordinator st = Idle -> coordinator st' = Idle /\ calls_stop e = false)
  | None => True
  end.
Proof.
  induction cs as [|c cs IH]; intros done_ ev st HR HP HS HT; cbn [schedule].
  - split_and!; [done..|]. now exists [].
  - inversion HS as [|? ? Hc Hcs]; inversion HT as [|? ? Tc Tcs]; subst. destruct (move c st) as [[st1 e1]|] eqn:E; [|exact I].
    pose proof (move_step _ _ _ _ E) as [S1 S2 S3 S4]. pose proof (queue_reaches _ _ _ HR) as Q.
    specialize (IH (c :: done_) (e1 ++ ev) st1 (reaches_move _ _ _ _ _ _ HR E) ltac:(apply Forall_app; auto) Hcs Tcs).
    destruct (schedule cs (c :: done_) (e1 ++ ev) st1) as [[[st2 done2] ev2]|]; [|exact I].
    destruct IH as (A1 & A2 & A3 & e2 & -> & A4 & A5). split_and!; [done|done|rewrite A3; auto|]. exists (e2 ++ e1).
    split_and!; [now rewrite app_assoc|rewrite existsb_app, A4; auto|]. intros HI. destruct (idle_step _ _ _ _ _ Q HI Tc E) as [I1 C1].
    destruct (A5 I1) as [I2 C2]. split; [done|]. now rewrite calls_app, C2, C1.
Qed.

(** What the other threads did since the last call. *)
Lemma others_spec σ : pooled σ -> runs others_run σ (fun _ σ' =>
  goes [] σ σ' /\ pooled σ' /\ interrupted σ' = interrupted σ /\ array (pool_state σ') = array (pool_state σ) /\
  exists e, events σ' = e ++ events σ /\ opens e = false /\ (idle σ -> idle σ' /\ calls_stop e = false)).
Proof.
  intros [HR HP]. unfold others_run. apply session_bind, (runs_ask Background). intros cs ->. set (cs := reply_to (notes σ) Background : list choice).
  apply runs_stepping. intros u σ' E. cbn [pool_state choices events add_note] in E.
  assert (Forall sound_choice (List.filter theirs cs)) as HS.
  { apply Forall_forall. intros c Hc%list_elem_of_In%filter_In. destruct Hc as [Hc HT]. apply list_elem_of_In in Hc.
    destruct c; try discriminate HT; try exact I; intros z; exact (polled_positive (notes σ) _ z Hc). }
  assert (Forall (fun c => theirs c = true) (List.filter theirs cs)) as HT.
  { apply Forall_forall. intros c Hc%list_elem_of_In%filter_In. apply Hc. }
  pose proof (schedule_spec _ _ _ _ HR HP HS HT) as H. destruct (schedule _ _ _ _) as [[[st done_] ev]|]; [|discriminate].
  injection E as <- <-. destruct H as (A1 & A2 & A3 & e & A4 & A5 & A6).
  split_and!; [split; cbn; [done|now eexists [_]|done..]|done|done|done|]. exists e. auto.
Qed.

(** A call of the coordinator between others. *)
Lemma coordinate_spec c σ (Q : unit -> session -> Prop) : pooled σ -> idle σ -> sound_choice c ->
  (forall σ1 σ', continues true [] σ σ1 -> interrupted σ' = interrupted σ -> array (pool_state σ1) = array (pool_state σ) -> goes [] σ σ' ->
     pooled σ' -> (exists e, move c (pool_state σ1) = Some (pool_state σ', e) /\ events σ' = e ++ events σ1) -> Q tt σ') ->
  runs (coordinate c) σ Q.
Proof.
  intros HP HI HC HQ. unfold coordinate. apply session_bind. eapply session_mono; [exact (others_spec σ HP)|].
  intros u σ1 (G1 & P1 & I1 & A1 & e1 & E1 & O1 & C1). destruct (C1 HI) as [J1 K1]. apply runs_stepping. intros [] σ' E.
  destruct (move c (pool_state σ1)) as [[st e]|] eqn:EM; [|discriminate]. injection E as <-. apply (HQ σ1).
  - split; [done..|]. now exists e1.
  - exact I1.
  - exact A1.
  - destruct G1 as [W N S1 S2]. split; cbn; [exact W|exact N|exact S1|exact S2].
  - destruct P1 as [R1 F1]. split; cbn; [exact (reaches_move _ _ _ _ _ _ R1 EM)|]. apply Forall_app. split; [|done].
    apply (step_positive _ _ _ _ (move_step _ _ _ _ EM) HC).
  - exists e. now split.
Qed.

Lemma told_session σ : pooled σ -> stop_ (pool (pool_state σ)) = stop_seen (events σ) /\ signal (pool (pool_state σ)) = last_signal (events σ).
Proof. intros [H _]. destruct (told_reaches _ _ _ H) as [A B _]. now split. Qed.

Lemma runs_pool_get {A} (f : state -> A) σ : runs (pool_get f) σ (fun a σ' => a = f (pool_state σ) /\ σ' = σ).
Proof. apply runs_stepping. now intros a s' [= <- <-]. Qed.

(** A call after which the coordinator is still between calls. *)
Lemma idle_call c σ : pooled σ -> idle σ -> sound_choice c ->
  (forall st st' e, coordinator st = Idle -> move c st = Some (st', e) -> coordinator st' = Idle) ->
  runs (coordinate c) σ (fun _ σ' => continues (negb (may_stop c)) [] σ σ').
Proof.
  intros HP HI HC HM. apply coordinate_spec; [done..|]. intros σ1 σ' [G1 P1 I1 (e1 & E1 & C1)] _ _ G2 P2 (e & EM & E2).
  split; [done|done|exact (HM _ _ _ I1 EM)|]. exists (e ++ e1). split; [now rewrite E2, E1, app_assoc|]. intros HN%negb_true_iff.
  now rewrite calls_app, (step_calls _ _ _ _ (move_step _ _ _ _ EM) HN), (C1 eq_refl).
Qed.

Lemma pool_stop_spec σ : pooled σ -> idle σ -> runs pool_stop σ (fun _ σ' => continues false [] σ σ').
Proof.
  intros HP HI. apply (idle_call Cancels); [done..|]. intros st st' e HC H. cbn in H. rewrite HC in H. now injection H as <- _.
Qed.

Lemma pool_stopped_spec σ : pooled σ -> idle σ ->
  runs pool_stopped σ (fun b σ' => continues true [] σ σ' /\ b = stop_seen (events σ')).
Proof.
  intros HP HI. unfold pool_stopped. apply session_bind, (runs_ask Pending). intros a ->.
  set (σ1 := add_note _ σ). assert (still σ σ1) as S1 by now apply still_asked.
  destruct (continues_still _ _ HP HI S1) as [_ P1 I1 _]. apply session_bind. eapply session_mono.
  { apply (idle_call (Asks (reply_to (notes σ) Pending))); [exact P1|exact I1|intros z; apply pending_positive|].
    intros st st' e HC H. cbn in H. rewrite HC in H. injection H as H. unfold jf_pool_stopped in H.
    destruct (observe_step (reply_to (notes σ) Pending) st) as (v & f & EO & _ & E2 & _). rewrite EO in H. injection H as <- _. congruence. }
  intros u σ2 H2. eapply session_mono; [apply runs_pool_get|]. intros b σ3 [-> ->].
  split; [exact (continues_trans _ _ _ _ _ _ _ (continues_still _ _ HP HI S1) H2)|]. apply (told_session σ2), (con_pooled _ _ _ _ H2).
Qed.

(** The end of the pool returns the last signal taken. *)
Lemma pool_finish_spec σ : pooled σ -> idle σ ->
  runs pool_finish σ (fun z σ' => goes [] σ σ' /\ interrupted σ' = interrupted σ /\ 0 <= z /\ (0 < last_signal (events σ) -> 0 < z)).
Proof.
  intros HP HI. unfold pool_finish. apply session_bind. apply coordinate_spec; [done..|].
  intros σ1 σ2 C1 EI1 _ G2 P2 (e2 & EM2 & E2). apply session_bind, (runs_ask Pending). intros a ->.
  set (σ3 := add_note _ σ2). assert (still σ2 σ3) as S3 by now apply still_asked.
  apply session_bind. unfold coordinate. apply session_bind.
  assert (pooled σ3) as P3 by (destruct P2; now split).
  eapply session_mono; [exact (others_spec σ3 P3)|]. intros u σ4 (G4 & P4 & I4 & _ & e4 & E4 & _). apply runs_stepping. intros [] σ5 E5.
  destruct (move _ (pool_state σ4)) as [[st e]|] eqn:EM; [|discriminate]. injection E5 as <-.
  set (σ5 := set_pool_run _ _ _ _). assert (pooled σ5) as P5.
  { destruct P4 as [R4 F4]. split; cbn; [exact (reaches_move _ _ _ _ _ _ R4 EM)|]. apply Forall_app. split; [|done].
    apply (step_positive _ _ _ _ (move_step _ _ _ _ EM)). intros z. apply pending_positive. }
  eapply session_mono; [apply runs_pool_get|]. intros z σ6 [-> ->]. destruct (told_session σ5 P5) as [_ ->].
  pose proof (goes_trans [] [] _ _ _ G2 (goes_trans [] [] _ _ _ (still_goes _ _ S3) G4)) as [W N S S'].
  split_and!; [split; cbn; [exact W|exact N|exact S|exact S']|cbn; rewrite I4; exact EI1|apply last_nonneg, P5|].
  intros HL. change (events σ5) with (e ++ events σ4). rewrite E4. change (events σ3) with (events σ2). rewrite E2.
  destruct (con_events _ _ _ _ C1) as (e1 & E1 & _). rewrite E1, !app_assoc. apply last_positive; [|done].
  destruct P5 as [_ F5]. change (events σ5) with (e ++ events σ4) in F5. rewrite E4 in F5. change (events σ3) with (events σ2) in F5.
  rewrite E2, E1, !app_assoc in F5. now apply Forall_app in F5 as [F5 _].
Qed.
End PoolCalls.

(** ** A window *)

Section Window.
Context `{SU : Surroundings} `{SG : !Signals} `{RX : PosixRegex} (fuel : nat) (cwd root : bytes) (policy : jf_policy).

(** What becomes of a decision whose job was run. *)
Definition run_to (d d' : decision) (ns : list note) : Prop :=
  same_message d d' /\ (d_rc d <> 0 -> d' = d) /\
  (d_rc d = 0 -> noop d = false -> d_rc d' = 0 -> moved_as d' (if noop d' then 1 else 0) ns).

Lemma run_to_later d d' ns ns' : (forall n, n ∈ ns -> n ∈ ns') -> run_to d d' ns -> run_to d d' ns'.
Proof. intros H (A & B & C). split_and!; [done..|]. intros. eapply moved_later; eauto. Qed.

Lemma still_views l σ : still σ (set_job_views l σ).
Proof. split; [split|..]; cbn; [now rewrite app_nil_r|now exists []|done..]. Qed.

(** Each job of [l] is run once, the others are left. *)
Lemma run_jobs_spec l : forall ds σ, NoDup (map snd l) -> Forall (fun x => 0 <= x.2) l ->
  runs (run_jobs fuel l ds) σ (fun ds' σ' => still σ σ' /\ length ds' = length ds /\
    forall j d, ds !! j = Some d -> exists d', ds' !! j = Some d' /\
      (if decide (Z.of_nat j ∈ map snd l) then run_to d d' (notes σ') else d' = d)).
Proof.
  induction l as [|[w job] l IH]; intros ds σ HN HF; cbn [run_jobs].
  - apply session_ret. split_and!; [reflexivity|done|]. intros j d E. exists d. split; [done|]. rewrite decide_False; [done|apply not_elem_of_nil].
  - inversion HN as [|? ? N1 N2]; inversion HF as [|? ? F1 F2]; subst. cbn [snd] in *.
    apply session_bind, runs_stepping. intros vs σ0 [= _ <-]. destruct (vs !! w) as [v|]; [|apply runs_halted].
    destruct (ds !! Z.to_nat job) as [d|] eqn:ED; [|apply runs_halted].
    apply session_bind. eapply session_mono; [apply (move_decision_spec fuel d v σ)|]. intros [d1 q] σ1 (S1 & R1). cbn [fst] in *.
    apply session_bind, runs_stepping. intros u σ2 [= _ <-]. eapply session_mono; [exact (IH _ _ N2 F2)|].
    intros ds' σ3 (S3 & L3 & H3). pose proof (transitivity (still_views (<[w := set_sequence q v]> vs) σ1) S3) as S3'.
    split; [exact (transitivity S1 S3')|]. rewrite length_insert in L3. split; [exact L3|]. intros j x Ex.
    destruct (decide (j = Z.to_nat job)) as [->|Hj].
    + assert (x = d) as -> by congruence. destruct (H3 (Z.to_nat job) d1) as (d' & E' & HD).
      { rewrite list_lookup_insert_eq; [done|]. apply lookup_lt_Some in ED. exact ED. }
      exists d'. split; [exact E'|]. rewrite Z2Nat.id in HD by exact F1. rewrite decide_False in HD by exact N1. subst d'.
      rewrite decide_True by (cbn; rewrite Z2Nat.id by exact F1; left). exact (run_to_later _ _ _ _ (fun n => seen_later _ _ _ _ (still_goes _ _ S3')) R1).
    + destruct (H3 j x) as (d' & E' & HD); [now rewrite list_lookup_insert_ne|]. exists d'. split; [exact E'|]. cbn [map snd].
      destruct (decide (Z.of_nat j ∈ map snd l)) as [Hin|Hin].
      * rewrite decide_True by now right. exact HD.
      * rewrite decide_False; [exact HD|]. intros [E|?]%elem_of_cons; [|done]. subst job. now rewrite Nat2Z.id in Hj.
Qed.

(** The jobs of a window that has returned are all taken, in order. *)
Lemma window_taken ev st : Queue ev st -> coordinator st = Idle -> map snd (rev (began ev)) = PoolFacts.opened ev.
Proof.
  intros Q HC. destruct (idle_next _ _ Q) as [HN _]; [now rewrite HC|]. rewrite map_rev, (q_began _ _ Q), HN, <- (q_opened _ _ Q).
  apply take_ge. unfold zlen. lia.
Qed.
Lemma opened_later e l ev : opens e = false -> PoolFacts.opened (e ++ Opened l :: ev) = l /\ window (e ++ Opened l :: ev) = e.
Proof.
  induction e as [|x e IH]; cbn; [done|]. intros [Hx He]%orb_false_iff. destruct (IH He) as [E1 E2]. destruct x; cbn in *; try discriminate; now rewrite ?E2.
Qed.

Lemma array_call l σ : pooled σ -> idle σ -> runs (coordinate (Arranges l)) σ (fun _ σ' => continues true [] σ σ' /\ array (pool_state σ') = l).
Proof.
  intros HP HI. apply coordinate_spec; [done..|exact I|]. intros σ1 σ' [G1 P1 I1 (e1 & E1 & C1)] _ _ G2 P2 (e & EM & E2).
  cbn in EM. rewrite I1 in EM. injection EM as EM <-. split; [|rewrite <- EM; done]. split; [done|done|unfold idle; now rewrite <- EM|].
  exists e1. split; [now rewrite E2|exact C1].
Qed.

Lemma window_spec ds σ : pooled σ -> idle σ -> Z.of_nat (length ds) <= SIZE_MAX ->
  runs (pool_window fuel ds) σ (fun ds' σ' =>
    continues (negb (existsb (fun d => d_rc d =? 3) ds')) [] σ σ' /\ length ds' = length ds /\
    forall j d, ds !! j = Some d -> exists d', ds' !! j = Some d' /\ run_to d d' (notes σ')).
Proof.
  intros HP HI HM. unfold pool_window. destruct ds as [|d0 ds0]; [apply session_ret; split_and!; [now apply continues_refl|done|done]|].
  set (ds := d0 :: ds0) in *. set (jobs := map Z.of_nat (seq 0 (length ds))).
  assert (length jobs = length ds) as LJ by (unfold jobs; now rewrite length_map, length_seq).
  apply session_bind. eapply session_mono; [exact (array_call jobs σ HP HI)|]. intros u σ1 [C1 A1]. destruct (C1) as [G1 P1 I1 (e1 & E1 & K1)].
  apply session_bind. apply coordinate_spec; [done..|]. intros σ2 σ3 [G2 P2 I2 (e2 & E2 & K2)] _ A2 G3 P3 (e & EM & E3).
  assert (e = [Opened jobs]) as ->.
  { change (move (Opens (length ds)) (pool_state σ2)) with (match coordinator (pool_state σ2) with
      | Idle => if (length ds <=? length (array (pool_state σ2)))%nat && (Z.of_nat (length ds) <=? SIZE_MAX)
                then Some (jf_pool_window (length ds) (pool_state σ2)) else None
      | _ => None end) in EM.
    rewrite I2, A2, A1, LJ in EM. rewrite Nat.leb_refl in EM. cbn [andb] in EM. destruct (Z.leb_spec (Z.of_nat (length ds)) SIZE_MAX); [|lia].
    assert (length ds <> 0%nat) as HL by (unfold ds; discriminate). clearbody ds. unfold jf_pool_window, window_test in EM.
    destruct (Nat.eqb_spec (length ds) 0); [done|]. cbn [pool broadcast set_workers set_pool remaining] in EM.
    destruct (Z.eqb_spec (Z.of_nat (length ds)) 0); [lia|]. injection EM as _ <-. cbn. now rewrite A2, A1, <- LJ, firstn_all. }
  apply session_bind. eapply session_mono; [exact (others_spec σ3 P3)|]. intros _ σ4 (G4 & P4 & _ & _ & e4 & E4 & O4 & _).
  apply session_bind, runs_stepping. intros v σ5 EI. destruct (coordinator (pool_state σ4)) eqn:I4; try discriminate. injection EI as _ <-.
  apply session_bind, runs_stepping. intros taken σ5 [= <- <-].
  assert (events σ4 = e4 ++ Opened jobs :: events σ2) as E5 by now rewrite E4, E3.
  destruct (opened_later e4 jobs (events σ2) O4) as [EO EW]. rewrite <- E5 in EO, EW.
  pose proof (window_taken _ _ (queue_reaches _ _ _ (proj1 P4)) I4) as ET. rewrite EO in ET.
  assert (NoDup jobs) as NJ by (unfold jobs; apply NoDup_fmap_2; [intros ? ?; lia|apply NoDup_seq]).
  apply session_bind. eapply session_mono.
  { apply run_jobs_spec; [now rewrite ET|]. apply (Forall_map snd (fun z => 0 <= z)). rewrite ET. unfold jobs. apply Forall_map, Forall_true. intros x. lia. }
  intros moved σ5 (S5 & L5 & H5). apply session_bind, runs_stepping. intros called σ6 [= <- <-].
  rewrite (still_events _ _ S5), EW. destruct (Bool.eqb _ _) eqn:EB; [|apply runs_halted]. apply eqb_prop in EB. apply session_ret.
  split_and!; [|exact L5|].
  - split.
    + exact (goes_trans [] [] _ _ _ G1 (goes_trans [] [] _ _ _ G3 (goes_trans [] [] _ _ _ G4 (still_goes _ _ S5)))).
    + destruct P4 as [R4 F4], S5 as [_ X1 X2 X3]. split; [now rewrite X1, X2, X3|now rewrite X3].
    + unfold idle. now rewrite (still_pool _ _ S5).
    + exists (e4 ++ [Opened jobs] ++ e2 ++ e1). split; [rewrite (still_events _ _ S5), E5, E2, E1; now rewrite <- !app_assoc|].
      intros HB%negb_true_iff. rewrite EB in HB. rewrite !calls_app, HB, (K2 eq_refl), (K1 eq_refl). reflexivity.
  - intros j d Ej. destruct (H5 j d Ej) as (d' & E' & HD). exists d'. split; [exact E'|]. rewrite decide_True in HD; [exact HD|].
    rewrite ET. unfold jobs. apply list_elem_of_fmap. exists j. split; [done|]. apply elem_of_seq. apply lookup_lt_Some in Ej. lia.
Qed.

(** *** Before and after a window *)

(** The decisions are of the messages from [start] on. *)
Definition aligned (start : nat) (ds : list decision) : Prop :=
  forall k d, ds !! k = Some d -> item d = (start + k)%nat /\ d_index d = Z.of_nat (start + k) + 1.
Definition fresh (ns : list note) (d : decision) : Prop := noop d = false /\ (d_rc d = 0 -> decided root policy d ns).
Definition failed (d : decision) : bool := d_rc d =? 3.

Lemma aligned_cons start d ds : item d = start -> d_index d = Z.of_nat start + 1 -> aligned (S start) ds -> aligned start (d :: ds).
Proof.
  intros H1 H2 H [|k] x E; cbn in E; [injection E as <-; now rewrite Nat.add_0_r|]. destruct (H k x E) as [-> ->]. split; [lia|f_equal; lia].
Qed.
Lemma fresh_later ns ns' ds : (forall n, n ∈ ns -> n ∈ ns') -> Forall (fresh ns) ds -> Forall (fresh ns') ds.
Proof. intros H HF. eapply Forall_impl; [exact HF|]. intros d [H1 H2]. split; [done|]. intros E. exact (decided_later _ _ _ _ _ H (H2 E)). Qed.

(** What [prepare_window] leaves: all the messages of the window, or a reason to
    have stopped early. *)
Record window_ready (ps : list bytes) (n start : nat) (σ : session) (r : list decision * list selected * bool) (σ' : session) : Prop := {
  ready_paths : paths r.1.2 = ps;
  ready_aligned : aligned start r.1.1;
  ready_fresh : Forall (fresh (notes σ')) r.1.1;
  ready_length : (length r.1.1 <= n /\ start + length r.1.1 <= start `max` length ps)%nat;
  ready_why : exists b, continues b [] σ σ' /\ (b = false -> r.2 = true \/ existsb failed r.1.1 = true) /\
    (b = true -> stop_seen (events σ') = true \/ length r.1.1 = Nat.min n (length ps - start)) }.

Lemma prepare_window_spec ps s n : forall start items σ, paths items = ps -> pooled σ -> idle σ ->
  runs (prepare_window cwd root policy n start items s) σ (window_ready ps n start σ).
Proof.
  assert (forall n start σ σ' items, paths items = ps -> continues true [] σ σ' -> stop_seen (events σ') = true \/ n = 0%nat \/ (length ps <= start)%nat ->
    window_ready ps n start σ ([], items, false) σ') as HE.
  { intros n' start σ σ' items E HC HW. split; cbn [fst snd]; [done|intros k d Ek; discriminate|constructor|cbn; lia|].
    exists true. split_and!; [done|discriminate|]. intros _. destruct HW as [HW|HW]; [now left|right; cbn; lia]. }
  induction n as [|n IH]; intros start items σ E HP HI; cbn [prepare_window].
  - apply session_ret, HE; [done|now apply continues_refl|auto].
  - assert (length items = length ps) as EL by (rewrite <- E; unfold paths; now rewrite length_map).
    destruct (Nat.leb_spec (length items) start) as [HL|HL]; [apply session_ret, HE; [done|now apply continues_refl|lia]|].
    apply session_bind. eapply session_mono; [exact (pool_stopped_spec σ HP HI)|]. intros b σ1 [C1 Eb].
    destruct b; [apply session_ret, HE; auto|]. destruct (C1) as [G1 P1 I1 _].
    apply session_bind. eapply session_mono; [exact (prepare_spec cwd root policy start ps σ1 items (Some s) E)|].
    intros [d items1] σ2 [[[A1 A2 A3 A4] S2] D2]. cbn [fst snd] in *.
    pose proof (continues_trans _ _ _ _ _ _ _ C1 (continues_still _ _ P1 I1 S2)) as C2. destruct (C2) as [G2 P2 I2 _].
    apply session_bind. apply (session_mono _ _ (fun (_ : bool) σ' => still σ2 σ')).
    { destruct (d_rc d =? 0); [|apply session_ret; reflexivity]. apply runs_silent. unfold other_parent.
      apply (adds_bind still); [apply (adds_system still still_read); intros SY; looking|]. intros a. apply (adds_ret still). }
    intros changed σ3 S3. pose proof (continues_trans _ _ _ _ _ _ _ C2 (continues_still _ _ P2 I2 S3)) as C3. destruct (C3) as [G3 P3 I3 _].
    set (d' := if changed then _ else _). assert (item d' = start /\ d_index d' = Z.of_nat start + 1 /\ fresh (notes σ3) d') as (J1 & J2 & J3).
    { destruct changed; [split_and!; [done..|split; [done|discriminate]]|]. split_and!; [done..|split; [done|]]. intros E0.
      refine (decided_later _ _ _ _ _ _ (D2 E0)). intros x. exact (seen_later _ _ _ _ (still_goes _ _ S3)). }
    clearbody d'. clear d A1 A2 A4 D2. destruct ((d_rc d' =? 3) || quarantine d') eqn:EQ.
    + apply session_bind. eapply session_mono; [exact (pool_stop_spec σ3 P3 I3)|]. intros u σ4 C4. apply session_ret.
      pose proof (continues_trans _ _ _ _ _ _ _ C3 C4) as C. split; cbn [fst snd].
      * done.
      * apply aligned_cons; [done..|]. intros k x Ek. discriminate.
      * apply (fresh_later (notes σ3)); [intros x; exact (seen_later _ _ _ _ (con_goes _ _ _ _ C4))|now apply Forall_singleton].
      * cbn [length]. lia.
      * exists false. split_and!; [exact C| |discriminate]. intros _. apply orb_true_iff in EQ as [EQ|EQ]; [right|now left].
        cbn. unfold failed. now rewrite EQ.
    + apply session_bind. eapply session_mono; [exact (IH (S start) items1 σ3 A3 P3 I3)|]. intros [[ds items2] q] σ4 [B1 B2 B3 B4 (b & C4 & W1 & W2)].
      cbn [fst snd] in *. apply session_ret. pose proof (continues_trans _ _ _ _ _ _ _ C3 C4) as C. split; cbn [fst snd].
      * done.
      * now apply aligned_cons.
      * constructor; [|exact B3]. assert (Forall (fresh (notes σ3)) [d']) as HF by now apply Forall_singleton.
        apply (fresh_later _ (notes σ4)) in HF; [now inversion HF|]. intros x. exact (seen_later _ _ _ _ (con_goes _ _ _ _ C4)).
      * cbn [length]. lia.
      * exists b. split_and!; [exact C| |].
        -- intros Hb. destruct (W1 Hb) as [H|H]; [now left|right]. cbn. rewrite H. apply orb_true_r.
        -- intros Hb. destruct (W2 Hb) as [H|H]; [now left|right]. cbn [length]. lia.
Qed.

Lemma close_decisions_spec s ds : forall items σ,
  runs (close_decisions s ds items) σ (fun r σ' => still σ σ' /\ paths r.2 = paths items /\ length r.1 = length ds /\
    forall k d, ds !! k = Some d -> exists d' l l', r.1 !! k = Some d' /\ closes d d' l l').
Proof.
  induction ds as [|d ds IH]; intros items σ; cbn [close_decisions].
  - apply session_ret. split_and!; [reflexivity|done|done|]. intros k d E. discriminate.
  - apply session_bind. eapply session_mono; [apply close_spec|]. intros [d1 items1] σ1 [S1 C1]. cbn [fst snd] in *.
    apply session_bind. eapply session_mono; [apply IH|]. intros [ds1 items2] σ2 (S2 & E2 & L2 & H2). cbn [fst snd] in *. apply session_ret. cbn [fst snd].
    split_and!; [exact (transitivity S1 S2)|now rewrite E2, (closes_paths _ _ _ _ C1)|cbn; lia|].
    intros [|k] x E; cbn in E; [injection E as <-; now exists d1, items, items1|]. exact (H2 k x E).
Qed.

(** *** The records of a window *)

Lemma emit_window_spec ps items ds : forall start g rc agg σ, paths items = ps -> aligned start ds -> (start + length ds <= length ps)%nat ->
  pooled σ -> idle σ -> rc <> 3 ->
  runs (emit_window ds items g rc agg) σ (fun r σ' => exists b l, continues b l σ σ' /\
    (r.1.1 = 3 \/ b = true /\ r.1.1 <> 3 /\ l = rows true ds (take (length ds) (drop start ps)) /\ existsb failed ds = false /\
                  r.1.2 = if all_well ds then agg else 7)).
Proof.
  induction ds as [|d ds IH]; intros start g rc agg σ EP HA HL HP HI Hrc; cbn [emit_window].
  - apply session_ret. exists true, []. split; [now apply continues_refl|]. right. now split_and!.
  - destruct (HA 0%nat d eq_refl) as [I0 _]. rewrite Nat.add_0_r in I0. cbn [length] in HL.
    destruct (lookup_lt_is_Some_2 ps start) as [p Hp]; [lia|].
    apply session_bind. eapply session_mono; [exact (emit_spec d true items g σ)|]. cbv zeta. intros [rc1 g1] σ1 (l1 & P1 & O1). cbn [fst] in O1.
    assert (match items !! item d with Some it => path it | None => [] end = p) as Ep.
    { rewrite I0. rewrite <- EP in Hp. unfold paths in Hp. rewrite list_lookup_fmap in Hp. destruct (items !! start); [|discriminate]. now injection Hp. }
    rewrite Ep in O1. pose proof (continues_prints _ _ _ HP HI P1) as C1. destruct (C1) as [_ Q1 J1 _].
    destruct (Z.eqb_spec rc1 3) as [->|H3].
    + apply session_bind. eapply session_mono; [exact (pool_stop_spec σ1 Q1 J1)|]. intros u σ2 C2. apply session_ret. eexists _, _.
      split; [exact (continues_trans _ _ _ _ _ _ _ C1 C2)|now left].
    + destruct O1 as [O1|(-> & N1 & ->)]; [done|].
      eapply session_mono; [apply (IH (S start) g1 (d_rc d) (if d_rc d =? 0 then agg else 7) σ1 EP); [|lia|done..]|].
      { intros k x Ek. destruct (HA (S k) x Ek) as [-> ->]. split; [lia|f_equal; lia]. }
      intros [[rc2 agg2] g2] σ2 (b & l2 & C2 & O2). cbn [fst snd] in *. exists (true && b), (map ended (decision_record d p true) ++ l2).
      split; [exact (continues_trans _ _ _ _ _ _ _ C1 C2)|]. destruct O2 as [O2|(-> & O3 & -> & O4 & ->)]; [now left|]. right.
      split_and!; [done|done| | |].
      * cbn [length]. rewrite (drop_S _ p start Hp). cbn [take]. reflexivity.
      * cbn. rewrite O4. unfold failed. now destruct (Z.eqb_spec (d_rc d) 3).
      * unfold all_well. cbn. destruct (d_rc d =? 0); [done|]. now destruct (forallb _ ds).
Qed.

Lemma silent_each f ds : (forall d, silent (f d)) -> silent (each f ds).
Proof.
  intros H. induction ds as [|d ds IH]; cbn [each]; [apply (adds_ret still)|]. apply (adds_bind still); [apply H|]. intros u. exact IH.
Qed.
Lemma silent_retained d : silent (retained d).
Proof.
  unfold retained. apply (adds_bind still); [apply silent_diagnostic|intros u1]. apply (adds_bind still); [apply silent_diagnostic|intros u2].
  apply (adds_bind still); [apply silent_diagnostic|intros u3]. apply silent_diagnostic.
Qed.
Lemma silent_free ds : silent (each free_decision ds).
Proof. apply silent_each. intros d. apply (adds_free still still_read). Qed.

Lemma goes_set z σ : 0 < z -> goes [] σ (set_interrupted z σ).
Proof. intros H. split; cbn; [now rewrite app_nil_r|now exists []|done|lia]. Qed.

(** The end of a batch that stops here. *)
Lemma finish_spec (ds : list decision) quarantined rc agg (g : option string) σ : pooled σ -> idle σ ->
  rc = 3 \/ quarantined = true \/ 0 < interrupted σ \/ 0 < last_signal (events σ) ->
  runs (sig ← pool_finish;
        global ← (if negb (sig =? 0) then stepping (fun w => Some (Some "E_INTERRUPTED"%string, set_interrupted sig w)) else mret g);
        let '(rc, global) := if (quarantined : bool) then (3, Some "E_BATCH_LOCK_CHANGED"%string) else (rc, global) in
        _ ← each free_decision ds;
        mret (false, (rc, agg, global, false))) σ
    (fun (r : bool * (Z * Z * option string * bool)) σ' => r.1 = false /\ r.2.2 = false /\ goes [] σ σ' /\ (r.2.1.1.1 = 3 \/ 0 < interrupted σ')).
Proof.
  intros HP HI HW. apply session_bind. eapply session_mono; [exact (pool_finish_spec σ HP HI)|]. intros z σ1 (G1 & E1 & Z1 & Z2).
  apply session_bind. apply (session_mono _ _ (fun _ σ' => goes [] σ1 σ' /\ (rc = 3 \/ quarantined = true \/ 0 < interrupted σ'))).
  { destruct (Z.eqb_spec z 0) as [->|Hz]; cbn [negb].
    - apply session_ret. split; [apply goes_refl|]. destruct HW as [?|[?|[?|HW]]]; [now left|right; now left|right; right; lia|]. specialize (Z2 HW). lia.
    - apply runs_stepping. intros a σ' [= _ <-]. split; [apply goes_set; lia|]. right. right. cbn. lia. }
  intros g1 σ2 [G2 H2]. destruct (if quarantined then _ else _) as [rc' g'] eqn:EQ.
  apply session_bind. eapply session_mono; [apply runs_silent, silent_free|]. intros u σ3 S3. apply session_ret. cbn [fst snd].
  split_and!; [done|done|exact (goes_trans [] [] _ _ _ G1 (goes_trans [] [] _ _ _ G2 (still_goes _ _ S3)))|].
  destruct quarantined; injection EQ as <- _; [now left|]. destruct H2 as [H2|[H2|H2]]; [now left|done|right].
  exact (goes_signal _ _ _ (still_goes _ _ S3) H2).
Qed.
(** *** The windows in turn *)

(** No stop is pending that was not made by a signal. *)
Definition untouched (σ : session) : Prop := calls_stop (events σ) = false \/ 0 < interrupted σ.

Lemma untouched_continues l σ σ' : untouched σ -> continues true l σ σ' -> untouched σ'.
Proof.
  intros [H|H] [G _ _ (e & E & C)]; [left; now rewrite E, calls_app, H, C|right; exact (goes_signal _ _ _ G H)].
Qed.
Lemma untouched_stop σ : pooled σ -> untouched σ -> stop_seen (events σ) = true -> 0 < interrupted σ \/ 0 < last_signal (events σ).
Proof. intros [_ HP] [H|H] HS; [right; now apply stop_by_signal|now left]. Qed.

(** A window that is settled: the batch goes on when all its records were written. *)
Definition settled (ps : list bytes) (start : nat) (ds : list decision) (quarantined : bool) (agg : Z) (σ : session)
    (r : bool * (Z * Z * option string * bool)) (σ' : session) : Prop :=
  exists l, goes l σ σ' /\ r.2.2 = r.1 /\
    if r.1 then continues true l σ σ' /\ r.2.1.1.1 <> 3 /\ l = rows true ds (take (length ds) (drop start ps)) /\
                r.2.1.1.2 = (if all_well ds then agg else 7) /\ existsb failed ds = false /\ quarantined = false /\
                stop_seen (events σ') = false
    else r.2.1.1.1 = 3 \/ 0 < interrupted σ'.

Lemma settle_window_spec ps items ds quarantined start g rc agg σ : paths items = ps -> aligned start ds ->
  (start + length ds <= length ps)%nat -> pooled σ -> idle σ -> rc <> 3 ->
  (existsb failed ds = false -> quarantined = false -> untouched σ) ->
  runs (settle_window ds items quarantined g rc agg) σ (settled ps start ds quarantined agg σ).
Proof.
  intros EP HA HL HP HI Hrc HU. unfold settle_window. apply session_bind.
  eapply session_mono; [exact (emit_window_spec ps items ds start g rc agg σ EP HA HL HP HI Hrc)|].
  intros [[rc1 agg1] g1] σ1 (b & l & C1 & O1). cbn [fst snd] in O1. destruct (C1) as [_ P1 I1 _].
  apply session_bind. eapply session_mono; [apply fflush_spec|]. intros ok σ2 S2.
  pose proof (continues_trans _ _ _ _ _ _ _ C1 (continues_still _ _ P1 I1 S2)) as C2. rewrite app_nil_r, andb_true_r in C2. clear C1 P1 I1 S2.
  apply session_bind. apply (session_mono _ _ (fun (r : Z * option string) σ' => exists b', continues b' l σ σ' /\ (r.1 = 3 \/ b' = b /\ r.1 = rc1))).
  { destruct ok; [apply session_ret; exists b; split; [exact C2|now right]|]. apply session_bind. destruct (C2) as [_ P2 I2 _].
    eapply session_mono; [exact (pool_stop_spec σ2 P2 I2)|]. intros u σ3 C3. apply session_ret. exists (b && false).
    split; [|now left]. rewrite <- (app_nil_r l). exact (continues_trans _ _ _ _ _ _ _ C2 C3). }
  clear σ2 C2. intros [rc2 g2] σ2 (b2 & C2 & O2). cbn [fst] in O2. apply session_bind.
  apply (session_mono _ _ (fun _ σ' => continues b2 l σ σ')).
  { destruct (rc2 =? 3); [|now apply session_ret]. destruct (C2) as [_ P2 I2 _].
    eapply session_mono; [apply runs_silent, silent_each, silent_retained|]. intros u σ3 S3. rewrite <- (app_nil_r l), <- (andb_true_r b2).
    exact (continues_trans _ _ _ _ _ _ _ C2 (continues_still _ _ P2 I2 S3)). }
  clear σ2 C2. intros u σ2 C2. apply session_bind.
  apply (session_mono _ _ (fun (stop_ : bool) σ' => continues b2 l σ σ' /\
    if stop_ then rc2 = 3 \/ quarantined = true \/ 0 < interrupted σ' \/ 0 < last_signal (events σ')
    else rc2 <> 3 /\ quarantined = false /\ stop_seen (events σ') = false)).
  { destruct (C2) as [_ P2 I2 _]. destruct (Z.eqb_spec rc2 3) as [E3|E3]; cbn [orb]; [apply session_ret; auto|].
    destruct quarantined; [apply session_ret; auto|]. destruct O2 as [?|[-> ->]]; [done|].
    destruct O1 as [?|(-> & _ & _ & HF & _)]; [done|].
    eapply session_mono; [exact (pool_stopped_spec σ2 P2 I2)|]. intros stop_ σ3 [C3 ES].
    pose proof (continues_trans _ _ _ _ _ _ _ C2 C3) as C. rewrite app_nil_r in C. split; [exact C|]. destruct stop_; [|now split_and!].
    right. right. apply untouched_stop; [apply C|exact (untouched_continues _ _ _ (HU HF eq_refl) C)|done]. }
  clear σ2 C2. intros stop_ σ2 [C2 HS]. destruct (C2) as [G2 P2 I2 _]. destruct stop_.
  - eapply session_mono; [exact (finish_spec ds quarantined rc2 agg1 g2 σ2 P2 I2 HS)|]. intros [on r] σ3 (E1 & E2 & G3 & HW). cbn [fst snd] in *.
    exists (l ++ []). split_and!; [exact (goes_trans _ _ _ _ _ G2 G3)|cbn; congruence|]. cbn [fst]. subst on. exact HW.
  - destruct HS as (N3 & -> & ES). apply session_bind. eapply session_mono; [apply runs_silent, silent_free|]. intros v σ3 S3. apply session_ret.
    destruct O2 as [?|[-> ->]]; [done|]. destruct O1 as [?|(-> & _ & -> & HF & ->)]; [done|].
    pose proof (continues_trans _ _ _ _ _ _ _ C2 (continues_still _ _ P2 I2 S3)) as C. rewrite app_nil_r in C.
    eexists. split_and!; [apply C|done|]. cbn [fst snd]. split_and!; [exact C|done|done|done|done|done|].
    now rewrite (still_events _ _ S3).
Qed.

(** From the decisions that were prepared to those whose jobs were run and closed. *)
Record passed (ds ds' : list decision) (ns : list note) : Prop := {
  passed_length : length ds' = length ds;
  passed_each : forall k d, ds !! k = Some d -> exists d1 d' l l', ds' !! k = Some d' /\ run_to d d1 ns /\ closes d1 d' l l' }.

Lemma passed_back ds ds' ns k d' : passed ds ds' ns -> ds' !! k = Some d' ->
  exists d d1 l l', ds !! k = Some d /\ run_to d d1 ns /\ closes d1 d' l l'.
Proof.
  intros [HL HE] E. destruct (lookup_lt_is_Some_2 ds k) as [d Ed]; [rewrite <- HL; exact (lookup_lt_Some _ _ _ E)|].
  destruct (HE k d Ed) as (d1 & d2 & l & l' & E' & H). assert (d2 = d') as -> by congruence. now exists d, d1, l, l'.
Qed.
Lemma passed_later ds ds' ns ns' : (forall n, n ∈ ns -> n ∈ ns') -> passed ds ds' ns -> passed ds ds' ns'.
Proof.
  intros H [HL HE]. split; [exact HL|]. intros k d E. destruct (HE k d E) as (d1 & d2 & l & l' & E' & HR & HC).
  exists d1, d2, l, l'. split_and!; [exact E'|exact (run_to_later _ _ _ _ H HR)|exact HC].
Qed.
Lemma passed_aligned start ds ds' ns : passed ds ds' ns -> aligned start ds -> aligned start ds'.
Proof.
  intros HP HA k d' E. destruct (passed_back _ _ _ _ _ HP E) as (d & d1 & l & l' & Ed & [[] _] & [[] _ _ _ _ _]).
  destruct (HA k d Ed) as [I1 I2]. split; congruence.
Qed.
(** An error that ends the batch stays one. *)
Lemma failed_kept ds ds' : (forall k d, ds !! k = Some d -> d_rc d = 3 -> exists d', ds' !! k = Some d' /\ d_rc d' = 3) ->
  existsb failed ds' = false -> existsb failed ds = false.
Proof.
  intros H HF. destruct (existsb failed ds) eqn:E; [|done]. apply existsb_exists in E as (d & Hd & E3%Z.eqb_eq).
  apply list_elem_of_In, list_elem_of_lookup_1 in Hd as [k Hk]. destruct (H k d Hk E3) as (d' & E' & E3'). rewrite <- HF. symmetry.
  apply existsb_exists. exists d'. split; [|now apply Z.eqb_eq]. apply list_elem_of_In. exact (list_elem_of_lookup_2 _ _ _ E').
Qed.
Lemma closes_failed d d' l l' : closes d d' l l' -> d_rc d = 3 -> d_rc d' = 3.
Proof. intros [_ _ _ _ _ [?|[? _]]]; lia. Qed.
Lemma passed_failed ds ds' ns : passed ds ds' ns -> existsb failed ds' = false -> existsb failed ds = false.
Proof.
  intros HP. apply failed_kept. intros k d Hk E3. destruct (passed_each _ _ _ HP k d Hk) as (d1 & d2 & l & l' & E & (_ & HR & _) & HC).
  exists d2. split; [done|]. apply (closes_failed _ _ _ _ HC). rewrite HR; lia.
Qed.
Lemma passed_settled start ds ds' ns : passed ds ds' ns -> aligned start ds -> Forall (fresh ns) ds -> existsb failed ds' = false ->
  settled_rows root policy true start ds' ns.
Proof.
  intros HP HA HF HE k d' E. destruct (passed_aligned _ _ _ _ HP HA k d' E) as [_ EI]. split; [exact EI|]. split.
  - intros E3. apply Bool.not_true_iff_false in HE. apply HE, existsb_exists. exists d'. split; [|now apply Z.eqb_eq].
    apply list_elem_of_In. exact (list_elem_of_lookup_2 _ _ _ E).
  - destruct (passed_back _ _ _ _ _ HP E) as (d & d1 & l & l' & Ed & (HS & HN & HR) & HC).
    destruct (proj1 (Forall_lookup _ _) HF k d Ed) as [F1 F2]. refine (closes_reported root policy _ _ _ _ _ _ HC _). intros E1.
    assert (d_rc d = 0) as E0 by (destruct (Z.eq_dec (d_rc d) 0) as [?|E0]; [done|]; now rewrite (HN E0) in E1).
    split; [exact (decided_same _ _ _ _ _ HS (F2 E0))|]. intros _. exact (HR E0 F1 E1).
Qed.

(** A window, until its records are written. *)
Lemma window_passed {A} ps s start items σ (K : list decision -> list selected -> bool -> bio A) (Q : A -> session -> Prop) :
  paths items = ps -> pooled σ -> idle σ -> untouched σ ->
  (forall ds items quarantined σ', goes [] σ σ' -> pooled σ' -> idle σ' -> paths items = ps -> aligned start ds ->
     (start + length ds <= start `max` length ps)%nat ->
     (existsb failed ds = false -> quarantined = false -> untouched σ' /\ settled_rows root policy true start ds (notes σ')) ->
     runs (K ds items quarantined) σ' Q) ->
  runs ('(ds, items, quarantined) ← prepare_window cwd root policy JF_POOL_WINDOW start items s;
        ds ← pool_window fuel ds;
        '(ds, items) ← close_decisions s ds items;
        K ds items quarantined) σ Q.
Proof.
  intros EP HP HI HU HK. apply session_bind. eapply session_mono; [exact (prepare_window_spec ps s JF_POOL_WINDOW start items σ EP HP HI)|].
  intros [[ds0 items1] q] σ1 [R1 R2 R3 [R4 R4'] (b & C1 & W1 & _)]. cbn [fst snd] in *. destruct (C1) as [_ P1 I1 _].
  apply session_bind. eapply session_mono.
  { apply (window_spec ds0 σ1 P1 I1). assert (Z.of_nat JF_POOL_WINDOW <= SIZE_MAX) by now vm_compute. lia. }
  intros ds1 σ2 (C2 & L2 & H2). destruct (C2) as [_ P2 I2 _].
  apply session_bind. eapply session_mono; [exact (close_decisions_spec s ds1 items1 σ2)|]. intros [ds2 items2] σ3 (S3 & EP3 & L3 & H3).
  cbn [fst snd] in *.
  assert (passed ds0 ds2 (notes σ2)) as HPass.
  { split; [congruence|]. intros k d E. destruct (H2 k d E) as (d1 & E1 & HR). destruct (H3 k d1 E1) as (d2 & l & l' & E2 & HC).
    now exists d1, d2, l, l'. }
  apply (passed_later _ _ _ (notes σ3)) in HPass; [|intros n; exact (seen_later _ _ _ _ (still_goes _ _ S3))].
  pose proof (continues_trans _ _ _ _ _ _ _ (continues_trans _ _ _ _ _ _ _ C1 C2) (continues_still _ _ P2 I2 S3)) as C.
  destruct (C) as [G P I _]. apply HK; [exact G|exact P|exact I|congruence|exact (passed_aligned _ _ _ _ HPass R2)|now rewrite L3, L2|].
  intros HF ->. pose proof (passed_failed _ _ _ HPass HF) as HF0. assert (existsb failed ds1 = false) as HF1.
  { refine (failed_kept ds1 ds2 _ HF). intros k d Ek E3. destruct (H3 k d Ek) as (d2 & l & l' & E2 & HC). exists d2.
    split; [exact E2|exact (closes_failed _ _ _ _ HC E3)]. }
  assert (b = true) as -> by (destruct b; [done|]; destruct (W1 eq_refl); congruence).
  change (existsb (fun d => d_rc d =? 3) ds1) with (existsb failed ds1) in C. rewrite HF1 in C. split; [exact (untouched_continues _ _ _ HU C)|].
  apply (passed_settled start ds0); [exact HPass|exact R2| |exact HF]. apply (fresh_later (notes σ1)); [|exact R3]. intros n Hn.
  apply (seen_later _ _ _ _ (still_goes _ _ S3)), (seen_later _ _ _ _ (con_goes _ _ _ _ C2)), Hn.
Qed.

(** How the batch over the pool ends; the pool is still there when it stopped
    between windows. *)
Definition finished (start : nat) (ps : list bytes) (agg : Z) (σ : session) (r : Z * option string * bool) (σ' : session) : Prop :=
  (r.2 = true -> pooled σ' /\ idle σ') /\
  exists l, goes l σ σ' /\
    (r.1.1 = 3 \/ 0 < interrupted σ' \/ r.2 = true /\ 0 < last_signal (events σ') \/
     complete root policy true start ps agg r.1.1 l (notes σ')).

Lemma complete_window start ds ps agg rc l ns : (length ds <= length ps)%nat -> settled_rows root policy true start ds ns ->
  complete root policy true (start + length ds) (drop (length ds) ps) (if all_well ds then agg else 7) rc l ns ->
  complete root policy true start ps agg rc (rows true ds (take (length ds) ps) ++ l) ns.
Proof.
  intros HL HS (ds' & E1 & -> & E3 & ->). exists (ds ++ ds'). split_and!.
  - rewrite length_app, E1, length_drop. lia.
  - rewrite <- rows_app by (rewrite length_take; lia). now rewrite take_drop.
  - now apply settled_app.
  - unfold all_well. rewrite forallb_app. destruct (forallb _ ds), (forallb _ ds'); reflexivity.
Qed.

Lemma parallel_loop_spec s ps n : forall start items g rc agg σ, paths items = ps -> pooled σ -> idle σ -> untouched σ -> rc <> 3 ->
  runs (parallel_loop fuel cwd root policy n start items s g rc agg) σ (finished start (drop start ps) agg σ).
Proof.
  induction n as [|n IH]; intros start items g rc agg σ EP HP HI HU Hrc; cbn [parallel_loop]; [apply runs_halted|].
  assert (length items = length ps) as EL by (rewrite <- EP; unfold paths; now rewrite length_map).
  apply Z.eqb_neq in Hrc as Hrc'. destruct (Nat.leb_spec (length items) start) as [HL|HL].
  { apply session_ret. rewrite Hrc'. split; [now split|]. exists []. split; [apply goes_refl|]. right. right. right. rewrite drop_ge by lia.
    exists []. split_and!; [done..| |done]. intros k d E. discriminate. }
  apply session_bind. eapply session_mono; [exact (pool_stopped_spec σ HP HI)|]. intros stop_ σ1 [C1 ES].
  pose proof (untouched_continues _ _ _ HU C1) as U1. destruct (C1) as [G1 P1 I1 _]. destruct stop_.
  { apply session_ret. rewrite Hrc'. split; [now split|]. exists []. split; [exact G1|].
    destruct (untouched_stop σ1 P1 U1 (eq_sym ES)) as [?|?]; auto. }
  apply (window_passed ps s start items σ1); [done..|]. intros ds items1 q σ2 G2 P2 I2 EP1 HA HLen HW.
  apply session_bind. eapply session_mono.
  { apply (settle_window_spec ps items1 ds q start g rc agg σ2); [done|done|lia|done|done|done|]. intros HF Hq. now apply HW. }
  intros [on [[[rc1 agg1] g1] pool_]] σ3 (l & G3 & EO & HO). cbn [fst snd] in *. subst pool_.
  pose proof (goes_trans [] _ _ _ _ G1 (goes_trans [] _ _ _ _ G2 G3)) as G. destruct on.
  - destruct HO as (C3 & N3 & -> & -> & HF & -> & _). destruct (HW HF eq_refl) as [U2 HS]. destruct (C3) as [_ P3 I3 _].
    eapply session_mono; [apply (IH (start + length ds)%nat items1); [done|exact P3|exact I3|exact (untouched_continues _ _ _ U2 C3)|exact N3]|].
    intros [[rc2 g2] pool_] σ4 [HPl (l4 & G4 & O4)]. cbn [fst snd] in *. split; [exact HPl|]. eexists.
    split; [exact (goes_trans _ _ _ _ _ G G4)|]. cbn [fst snd]. destruct O4 as [O4|[O4|[O4|O4]]]; [auto..|].
    right. right. right. rewrite app_nil_l. apply complete_window; [rewrite length_drop; lia| |now rewrite drop_drop].
    refine (settled_later root policy _ _ _ _ _ _ HS). intros x Hx. apply (seen_later _ _ _ _ G4), (seen_later _ _ _ _ G3), Hx.
  - apply session_ret. split; [discriminate|]. eexists. split; [exact G|]. cbn [fst snd]. destruct HO as [->|HO]; [now left|right; now left].
Qed.

Lemma parallel_spec items s g σ : pooled σ -> idle σ -> untouched σ ->
  runs (parallel fuel cwd root policy items s g) σ (finished 0 (paths items) 0 σ).
Proof. intros HP HI HU. now apply (parallel_loop_spec s (paths items) (S (length items)) 0%nat items g 0 0). Qed.
End Window.
