(* ===== verification/BatchRuns.v ===== *)
(** * A run of the whole program

    An engine with one committed generation, a kernel that grants everything and
    one message: the program moves it over the pool, where one worker takes the
    job.  The witnesses of the theorems on the batch are runs of this program. *)
From stdpp Require Import gmap.
From S2P Require Import Prelude Sha256 Rules Resolve Classify Policy Bytes Cache CacheFacts Emit Headers Files Generation Atomicity PoolFacts Pool Storage StorageFacts Session Selection Batch Main BatchEnds.
Open Scope Z_scope.

(** ** The engine *)

Definition engine_disk : disk := <[(1:Z, str "cache") := Folder 5 448]> (<[(5:Z, str "filter-engine") := Folder 2 448]>
  (<[(2:Z, str "generations") := Folder 3 448]> (<[(2:Z, str "lock") := private_node []]>
  (<[(2:Z, str "current") := Link (str "generations/" ++ pr_id sample_products)]> sample_disk)))).
Definition sample_engine : Files.world := World (boot engine_disk 9) 0 ENOENT 0 false None.
Definition engine_kernel : Kernel := Build_Kernel (fun _ => Fine) (fun _ => str "aaaaaa") (fun _ _ => Some 1) (fun _ s => s).

(** ** The surroundings *)

Definition batch_inode (name : bytes) : Z := if streq name (pr_id sample_products) then 4 else sample_inode name.
Definition batch_kernel : System := {|
  on_alloc _ := true; on_stop _ := false; on_allowed _ _ _ := true;
  on_open _ _ := Some 50; on_openat _ _ n _ := Some (batch_inode n); on_dup _ fd := Some (if fd =? 30 then 31 else 51);
  on_close _ _ := true; on_mkdirat _ _ _ := None; on_fstat _ fd := Some (sample_stat fd);
  on_fstatat _ fd n := Some (sample_stat (if fd =? 20 then 30 else sample_inode n));
  on_fsync _ _ := true; on_setlk _ _ := None; on_read _ _ n := inr (replicate n 0);
  on_pread _ _ n off := inr (take n (drop (Z.to_nat off) sample_data)); on_write _ _ d := inr (length d);
  on_linkat _ _ _ _ _ := None; on_renameat _ _ _ _ _ := true; on_renameat2 _ _ _ _ _ := None;
  on_unlinkat _ _ _ := true; on_rmdirat _ _ _ := true; on_name_max _ _ := inr (Some 255); on_geteuid _ := 0 |}.

(** How often the coordinator gave way to the other threads. *)
Definition turns (ns : list note) : nat := length (List.filter (fun n => match n with Asked Background _ => true | _ => false end) ns).
(** The worker 0 takes the job of the window, which returns; at the end all leave. *)
Definition sample_threads (turn : nat) : list choice :=
  if (turn =? 5)%nat then [Enter 0; Settles 0; Resumes]
  else if (turn =? 8)%nat then Polls [] :: map Enter (seq 0 JF_POOL_WORKERS) else [].
Definition sample_reply (ns : list note) (q : question) : reply q :=
  match q with
  | GetCwd => Some (str "/home") | OpenFile _ => Some 70 | OpenMessage _ _ => Some 3
  | Fdopendir _ | Closedir _ | Sigaction _ | Fwrite _ | Fflush => true
  | Readdir _ => inr None
  | MessageReads _ => [ReadData sample_data]
  | Failure => ENOENT
  | Delivered => None
  | Fputs _ => tt
  | PoolResources => (Some 4096, Some 10, fun _ => true)
  | Background => sample_threads (turns ns)
  | Pending => []
  end.
#[local] Instance sample_surroundings : Surroundings := {|
  reply_to := sample_reply; system_at _ := batch_kernel; heap_at _ := granting; allocator_at _ := (fun _ => true);
  kernel_at _ := engine_kernel; engine_at _ := sample_engine |}.
#[local] Instance sample_signals : Signals.
Proof.
  split; cbn.
  - discriminate.
  - intros ns z H. now apply not_elem_of_nil in H.
  - intros ns c z H. unfold sample_threads in H. destruct (_ =? 5)%nat; [|destruct (_ =? 8)%nat; [|now apply not_elem_of_nil in H]].
    + repeat (apply elem_of_cons in H as [->|H]; [exact I|]). now apply not_elem_of_nil in H.
    + apply elem_of_cons in H as [->|H]; [intros H; now apply not_elem_of_nil in H|]. now apply list_elem_of_fmap in H as (w & -> & _).
Qed.

Definition classify_arguments : list bytes := [str "--root"; str "/m"; str "--"; str "/m/in/1.m"].
Definition apply_arguments : list bytes := [str "--root"; str "/m"; str "--mode"; str "apply"; str "--"; str "/m/in/1.m"].
Abbreviation sample_main argv := (main (RX := fixed_strings) 100 argv no_session).

(** The message is moved, and the status is 0. *)
Lemma sample_applies : (sample_main apply_arguments).1 = Some 0.
Proof. vm_compute. reflexivity. Qed.
