(* ===== verification/BatchReports.v ===== *)
(** * The whole batch (Main)

    From the arguments to the exit status: which statuses the steps before the
    batch can end with, and that a status of 0 or 7 comes with a complete output. *)
From S2P Require Import Prelude Sha256 Rules Resolve Classify Policy Bytes Cache Headers Files Generation PoolFacts Pool StorageFacts Storage Session Selection Batch Main BatchFacts BatchEnds BatchPool BatchRuns.
From S2P Require Import Passive.

(** ** Statuses before the batch *)

(** What a program of [Storage] or of [Files] returns. *)
Section Gives.
Context {S : Type}.
Definition gives {A} (m : S -> option A * S) (Q : A -> Prop) : Prop := forall s a s', m s = (Some a, s') -> Q a.
Lemma gives_any {A} (m : S -> option A * S) : gives m (fun _ => True).
Proof. now intros s a s' _. Qed.
End Gives.

(** The statuses of a start: done, or a failure that no message explains. *)
Definition starting (rc : Z) : Prop := rc = 0 \/ rc = 3 \/ rc = 4 \/ rc = 5 \/ rc = 6.
Ltac start := unfold starting; cbn; auto 7.

Lemma gives_io_ret {A} (a : A) (Q : A -> Prop) : Q a -> gives (mret a : io A) Q.
Proof. intros H s b s' [= <- _]. exact H. Qed.
Lemma gives_io_bind {A B} (m : io A) (f : A -> io B) (Q : A -> Prop) (R : B -> Prop) :
  gives m Q -> (forall a, Q a -> gives (f a) R) -> gives (m ≫= f) R.
Proof. intros Hm Hf s b s'. unfold mbind, io_bind. destruct (m s) as [[a|] s1] eqn:E; [|discriminate]. exact (Hf a (Hm _ _ _ E) _ _ _). Qed.
Lemma gives_fio_ret {A} (a : A) (Q : A -> Prop) : Q a -> gives (mret a : fio A) Q.
Proof. intros H s b s' [= <- _]. exact H. Qed.
Lemma gives_fio_bind {A B} (m : fio A) (f : A -> fio B) (Q : A -> Prop) (R : B -> Prop) :
  gives m Q -> (forall a, Q a -> gives (f a) R) -> gives (m ≫= f) R.
Proof. intros Hm Hf s b s'. unfold mbind, fio_bind. destruct (m s) as [[a|] s1] eqn:E; [|discriminate]. exact (Hf a (Hm _ _ _ E) _ _ _). Qed.

Ltac gives_step :=
  match goal with
  | |- gives (@mret io _ _ _) _ => apply gives_io_ret
  | |- gives (@mret fio _ _ _) _ => apply gives_fio_ret
  | |- gives (if ?b then _ else _) _ => destruct b
  | |- gives (match ?x with _ => _ end) _ => destruct x
  | |- @gives trace _ (_ ≫= _) _ => eapply gives_io_bind; [apply gives_any|intros ? _]
  | |- @gives Files.world _ (_ ≫= _) _ => eapply gives_fio_bind; [apply gives_any|intros ? _]
  end.

Section StorageStart.
Context `{SY : System} (fuel : nat).
Abbreviation starts := (fun r : Z * string * jf_storage => starting r.1.1).

Lemma gives_need {A} no (m : io (option A)) k (s : jf_storage) : starting no.1 -> (forall a, gives (k a) starts) -> gives (need no m k s) starts.
Proof. intros Hn Hk. unfold need. eapply gives_io_bind; [apply gives_any|]. intros [a|] _; [apply Hk|now apply gives_io_ret]. Qed.

Lemma begin_starts root_ gid gdir i : gives (jf_storage_begin fuel root_ gid gdir i) starts.
Proof.
  unfold jf_storage_begin. eapply gives_io_bind with (Q := starts).
  - unfold begin_root. repeat (apply gives_need; [start|intros ?]).
    eapply gives_io_bind; [apply gives_any|intros e _]. eapply gives_io_bind with (Q := starts).
    + destruct e; [|apply gives_io_ret; start]. unfold begin_engine. apply gives_need; [start|intros generations].
      do 2 (eapply gives_io_bind; [apply gives_any|intros ? _]). eapply gives_io_bind with (Q := starts).
      * destruct (_ : bool); [|apply gives_io_ret; start]. unfold begin_random. repeat (apply gives_need; [start|intros ?]).
        unfold take_lock. repeat (apply gives_need; [start|intros ?]). repeat gives_step.
        all: repeat case_match; start.
      * intros r Hr. repeat gives_step. exact Hr.
    + intros r Hr. repeat gives_step. exact Hr.
  - intros [[rc d] s] H. destruct (rc =? 0); [apply gives_io_ret; start|]. eapply gives_io_bind; [apply gives_any|intros s' _]. now apply gives_io_ret.
Qed.
End StorageStart.

Section PinStart.
Context `{KN : Kernel} `{HP : Bytes.Heap} (fuel : nat).
Abbreviation starts := (fun r : Z * _ => starting r.1).

Lemma load_starts k limit : gives (load fuel k limit) starts.
Proof.
  assert (forall n b pos, gives (load_loop n k pos b limit) starts) as HL.
  { induction n as [|n IH]; intros b pos; cbn [load_loop]; [discriminate|]. eapply gives_fio_bind; [apply gives_any|intros [[]|[|c d]] _].
    all: try (apply IH || (apply gives_fio_ret; start)). destruct (negb _); [apply gives_fio_ret; start|].
    eapply gives_fio_bind; [apply gives_any|intros [b'|] _]; [apply IH|apply gives_fio_ret; start]. }
  unfold load, load_mode. eapply gives_fio_bind with (Q := fun r => starting r.1.1).
  - eapply gives_fio_bind; [apply gives_any|intros [e|u] _]; [apply gives_fio_ret; destruct e; start|].
    eapply gives_fio_bind; [apply gives_any|intros x _]. eapply gives_fio_bind with (Q := fun r => starting r.1.1).
    + destruct x as [e|[]]; try (apply gives_fio_ret; start). destruct (_ && _); [apply gives_fio_ret; start|].
      eapply gives_fio_bind; [apply HL|]. intros [rc b] H. apply gives_fio_ret. exact H.
    + intros [[rc b] mode] H. eapply gives_fio_bind; [apply gives_any|intros c _]. apply gives_fio_ret. cbn [fst] in *.
      destruct (negb c && (rc =? 0)); [start|exact H].
  - intros [[rc b] mode] H. now apply gives_fio_ret.
Qed.

Lemma validate_fails d z s fp rc e : jf_cache_validate d z s fp = Fail rc e -> rc = 5.
Proof. unfold jf_cache_validate, cache_bad. repeat case_match; try discriminate; now intros [= <- _]. Qed.

Lemma products_starts d id error : gives (validate_products fuel d id error) starts.
Proof.
  unfold validate_products.
  do 4 (eapply gives_fio_bind; [apply load_starts|]; intros [? ?] ?; cbn [fst] in *; case_match; [now apply gives_fio_ret|]).
  destruct (jf_cache_validate _ _ _ _) eqn:E.
  - case_match; [apply gives_fio_ret; start|]. eapply gives_fio_bind with (Q := starts).
    + unfold manifest. eapply gives_fio_bind; [apply gives_any|intros [b|] _]; apply gives_fio_ret; start.
    + intros [rc b] HB. cbn [fst] in HB. repeat gives_step; try exact HB; repeat case_match; start.
  - apply validate_fails in E as ->. eapply gives_fio_bind; [apply gives_any|intros ? _]. apply gives_fio_ret. start.
Qed.
Lemma directory_starts d id error : gives (validate_directory fuel d id error) starts.
Proof.
  unfold validate_directory. repeat gives_step; try start. apply products_starts.
Qed.
Lemma public_starts l g : gives (public_status fuel l g) starting.
Proof.
  unfold public_status. eapply gives_fio_bind; [apply load_starts|]. intros [rc b] H. apply gives_fio_ret. cbn [fst] in H.
  repeat case_match; start.
Qed.

Lemma pin_starts root id : gives (jf_generation_pin fuel root id) starts.
Proof.
  assert (forall l, gives (pin_locked fuel l id true) starts) as HL.
  { intros l. unfold pin_locked. do 3 (eapply gives_fio_bind; [apply gives_any|intros ? _]). case_match; [|apply gives_fio_ret; start].
    eapply gives_fio_bind; [apply gives_any|intros [rc i] _]. destruct (negb _); [apply gives_fio_ret; start|].
    eapply gives_fio_bind; [apply gives_any|intros d _]. destruct (d <? 0); [apply gives_fio_ret; start|].
    eapply gives_fio_bind; [apply directory_starts|]. intros [rc1 g] H1. cbn [fst] in H1. eapply gives_fio_bind; [apply gives_any|intros ? _].
    eapply gives_fio_bind with (Q := starting).
    - destruct (_ && _); [|now apply gives_fio_ret]. case_match; [|now apply gives_fio_ret]. unfold committed_public.
      destruct (streq _ _); [apply public_starts|]. eapply gives_fio_bind; [apply gives_any|intros d' _].
      eapply gives_fio_bind with (Q := starts); [destruct (d' <? 0); [apply gives_fio_ret; start|apply directory_starts]|].
      intros [rc2 g2] H2. eapply gives_fio_bind with (Q := starting).
      + destruct (rc2 =? 0); [apply public_starts|now apply gives_fio_ret].
      + intros rc3 H3. do 2 (eapply gives_fio_bind; [apply gives_any|intros ? _]). now apply gives_fio_ret.
    - intros rc3 H3. destruct (rc3 =? 0); [apply gives_fio_ret; start|]. eapply gives_fio_bind; [apply gives_any|intros ? _].
      now apply gives_fio_ret. }
  unfold jf_generation_pin. eapply gives_fio_bind with (Q := starts).
  { unfold locate, locate_bad. repeat gives_step; cbn [fst]; repeat case_match; start. }
  intros [rc l] H. cbn [fst] in H. destruct (negb _); [now apply gives_fio_ret|].
  eapply gives_fio_bind with (Q := starting).
  { unfold lock. eapply gives_fio_bind; [apply gives_any|intros x _]. apply gives_fio_ret. repeat case_match; start. }
  intros rc1 H1. eapply gives_fio_bind with (Q := starts).
  { destruct (rc1 =? 0); [|now apply gives_fio_ret]. eapply gives_fio_bind; [apply HL|]. intros r Hr.
    eapply gives_fio_bind; [apply gives_any|intros ? _]. now apply gives_fio_ret. }
  intros [rc2 g] H2. eapply gives_fio_bind; [apply gives_any|intros ? _]. now apply gives_fio_ret.
Qed.
End PinStart.

(** The statuses that say no batch was run. *)
Definition refused (rc : Z) : Prop := rc <> 0 /\ rc <> 7.
Lemma starting_refused rc : starting rc -> rc <> 0 -> refused rc.
Proof. unfold starting, refused. lia. Qed.

(** The policy of a generation. *)
Definition fails_refused {A} (r : res A) : Prop := match r with Ok _ => True | Fail rc _ => refused rc end.
Lemma status_refused {A} (r : res A) : policy_status r -> fails_refused r.
Proof. destruct r as [a|rc e]; cbn; [done|]. intros ->. case_match; now split. Qed.
Lemma refused_bind {A B} (m : res A) (f : A -> res B) : fails_refused m -> (forall a, fails_refused (f a)) -> fails_refused (m ≫= f).
Proof. destruct m; cbn; auto. Qed.
Lemma refused_fail {A} p code d : fails_refused (A := A) (Lexer.fail p code d).
Proof. apply status_refused, status_fail. Qed.

Lemma policy_refused `{HP : Bytes.Heap} `{AL : Allocator} `{RX : PosixRegex} c h : fails_refused (jf_cache_policy c h).
Proof.
  assert (forall A, fails_refused (restore_memory (A := A))) as HM by (intros A; apply refused_fail).
  assert (forall l i pol, fails_refused (restore_loop i l pol)) as HL.
  { induction l as [|f l IH]; intros i pol; cbn [restore_loop]; [exact I|]. destruct (allocates 7 pol) as [pol'|]; [|apply HM].
    apply refused_bind; [|intros e; apply IH]. destruct (bool_decide _); [|exact I]. destruct (negb _); [apply HM|].
    destruct (regcomp _); [exact I|apply refused_fail|now split]. }
  unfold jf_cache_policy. destruct c as [c|]; [|now split]. destruct (missing c); [now split|]. apply refused_bind.
  { destruct (jf_cache_validate _ _ _ _) eqn:E; [exact I|]. apply validate_fails in E as ->. cbn. now split. }
  intros _. case_match; [|now split]. unfold jf_policy_restore. destruct (_ || _); [apply refused_fail|].
  destruct (allocate _) as [pol|]; [|apply refused_fail]. destruct (negb _); [apply HM|]. destruct (allocate pol); [|apply HM].
  apply refused_bind; [apply HL|]. intros q. apply status_refused, build_index_status.
Qed.

(** ** The selection *)

(** A selection ends with 0, or with 2 or 3. *)
Definition selecting (rc : Z) : Prop := rc = 0 \/ rc = 2 \/ rc = 3.
Ltac sel := unfold selecting; cbn; auto.
Abbreviation selects m := (returns m (fun r => selecting r.1)).

Section Selecting.
Context `{SU : Surroundings} (fuel : nat).

Lemma select_path_spec p id s : returns (select_path p id s) (fun r => selecting r.1 /\ (r.1 = 0 -> paths (items r.2) = paths (items s) ++ [p])).
Proof.
  unfold select_path. destruct (_ || _); [apply yields_ret; split; [sel|discriminate]|].
  eapply yields_bind; [apply returns_any|]. intros [cap|] _; [|apply yields_ret; split; [sel|discriminate]].
  eapply yields_bind; [apply returns_any|]. intros ok _. destruct (negb ok); apply yields_ret; (split; [sel|]); [discriminate|].
  intros _. cbn. unfold paths. rewrite map_app. destruct id; reflexivity.
Qed.
Lemma select_path_selects p id s : selects (select_path p id s).
Proof. intros σ r σ' H. now apply (select_path_spec p id s σ r σ'). Qed.

Lemma select_all_spec l : forall s, returns (select_all l s) (fun r => selecting r.1 /\ (r.1 = 0 -> paths (items r.2) = paths (items s) ++ l)).
Proof.
  induction l as [|p l IH]; intros s; cbn [select_all]; [apply yields_ret; split; [sel|now rewrite app_nil_r]|].
  eapply yields_bind; [apply select_path_spec|]. intros [rc s1] [H1 H2]. cbn [fst snd] in *. destruct (Z.eqb_spec rc 0) as [->|Hrc].
  - intros σ r σ' H. destruct (IH s1 σ r σ' H) as [A B]. split; [exact A|]. intros E. rewrite (B E), (H2 eq_refl), <- app_assoc. reflexivity.
  - apply yields_ret. cbn. split; [exact H1|contradiction].
Qed.

Lemma list_selects p s : selects (list_paths fuel p s).
Proof.
  assert (forall hp data item s, returns (list_bytes hp data item s) (fun r => selecting r.1.1)) as HB.
  { intros hp data. induction data as [|c t IH]; intros item s0; cbn [list_bytes]; [apply yields_ret; sel|].
    destruct (jf_bytes_add_limit _ _ _) as [grown|]; [|apply yields_ret; sel]. destruct (c =? 0); [|apply IH].
    eapply yields_bind; [apply select_path_selects|]. intros [rc s1] H. destruct (rc =? 0); [apply IH|now apply yields_ret]. }
  assert (forall hp n fd total item s, selects (list_loop hp n fd total item s)) as HL.
  { intros hp n. induction n as [|n IH]; intros fd total item s0; cbn [list_loop]; [discriminate|].
    eapply yields_bind; [apply returns_any|]. intros [[]|[|c d]] _; try apply IH; try (apply yields_ret; sel); [destruct (contents _); sel|].
    destruct (_ <? _); [apply yields_ret; sel|]. eapply yields_bind; [apply HB|]. intros [[rc item1] s1] H. destruct (rc =? 0); [apply IH|now apply yields_ret]. }
  unfold list_paths. eapply yields_bind; [apply returns_any|]. intros [fd|] _; [|apply yields_ret; sel].
  eapply yields_bind; [apply returns_any|]. intros hp _. eapply yields_bind; [apply HL|]. intros [rc s1] H.
  destruct (fd =? 0); [now apply yields_ret|]. eapply yields_bind; [apply returns_any|]. intros ok _. apply yields_ret. cbn [fst].
  destruct (_ && _); [sel|exact H].
Qed.

Lemma maildir_selects cwd p s : selects (maildir_paths fuel cwd p s).
Proof.
  assert (forall n fd sub s, selects (maildir_entries n fd sub s)) as HE.
  { induction n as [|n IH]; intros fd sub s0; cbn [maildir_entries]; [discriminate|].
    eapply yields_bind; [apply returns_any|]. intros [e|[name|]] _; [apply yields_ret; sel| |apply yields_ret; sel].
    destruct (_ || _); [apply IH|]. eapply yields_bind; [apply returns_any|]. intros [st|] _.
    - destruct (negb _); [apply IH|]. eapply yields_bind; [apply returns_any|]. intros [full|] _; [|apply yields_ret; sel].
      eapply yields_bind; [apply select_path_selects|]. intros [rc s1] H. destruct (rc =? 0); [apply IH|now apply yields_ret].
    - eapply yields_bind; [apply returns_any|]. intros e _. destruct (bool_decide _); [apply IH|apply yields_ret; sel]. }
  assert (forall dir base name s, selects (maildir_directory fuel dir base name s)) as HD.
  { intros dir base name s0. unfold maildir_directory. eapply yields_bind; [apply returns_any|]. intros [sub|] _; [|apply yields_ret; sel].
    eapply yields_bind; [apply returns_any|]. intros [fd|] _; [|apply yields_ret; sel]. eapply yields_bind; [apply returns_any|]. intros ok _.
    destruct (negb ok); [eapply yields_bind; [apply returns_any|]; intros u _; apply yields_ret; sel|].
    eapply yields_bind; [apply HE|]. intros [rc s1] H. eapply yields_bind; [apply returns_any|]. intros ok1 _. apply yields_ret. cbn [fst].
    destruct (_ && _); [sel|exact H]. }
  unfold maildir_paths. eapply yields_bind; [apply returns_any|]. intros [base|] _; [|apply yields_ret; sel].
  eapply yields_bind; [apply returns_any|]. intros [e|dir] _; [apply yields_ret; sel|].
  eapply yields_bind; [apply HD|]. intros [rc s1] H. eapply yields_bind with (Q := fun r => selecting r.1).
  { destruct (rc =? 0); [apply HD|now apply yields_ret]. }
  intros [rc2 s2] H2. eapply yields_bind; [apply returns_any|]. intros u _. now apply yields_ret.
Qed.
End Selecting.

(** ** The start of the moves *)

Section Begin.
Context `{SU : Surroundings} (fuel : nat).

Lemma paths_set_first l ps : paths (foldr (fun p l => alter (set_first p.2) p.1 l) l ps) = paths l.
Proof. induction ps as [|[i f] ps IH]; cbn [foldr]; [done|]. rewrite paths_alter; [exact IH|done]. Qed.

Lemma snapshot_paths_spec cwd s :
  returns (snapshot_paths cwd s) (fun r => (r.1 = 0 \/ r.1 = 3) /\ (r.1 = 0 -> paths (items r.2) = paths (items s))).
Proof.
  assert (forall it, returns (snapshot_item cwd it) (fun r => match r with Some it' => path it' = path it | None => True end)) as HI.
  { intros it. unfold snapshot_item. destruct (snapshotted it); [now apply yields_ret|]. eapply yields_bind; [apply returns_any|]. intros [p|] _; [|now apply yields_ret].
    eapply yields_bind; [apply returns_any|]. intros [[]|[fd name]] _; try now apply yields_ret.
    do 2 (eapply yields_bind; [apply returns_any|]; intros ? _). apply yields_ret. repeat case_match; reflexivity. }
  assert (forall l, returns (snapshot_items cwd l) (fun r => r.1 = true -> paths r.2 = paths l)) as HL.
  { induction l as [|it t IH]; cbn [snapshot_items]; [now apply yields_ret|]. eapply yields_bind; [apply HI|]. intros [it'|] E; [|now apply yields_ret].
    eapply yields_bind; [exact IH|]. intros [ok t'] H. apply yields_ret. cbn [fst snd] in *. intros Hok. unfold paths in *. cbn. rewrite E. f_equal. exact (H Hok). }
  unfold snapshot_paths. eapply yields_bind; [apply HL|]. intros [ok l] H. cbn [fst snd] in H. destruct ok; cbn [negb]; [|apply yields_ret; split; [auto|discriminate]].
  eapply yields_bind; [apply returns_any|]. intros ok _. destruct (negb ok); apply yields_ret; (split; [auto|]); [discriminate|]. intros _. cbn.
  unfold set_firsts. rewrite <- (H eq_refl). now apply paths_set_first.
Qed.

Lemma independent_paths cwd root s rules : returns (independent cwd root s rules) (fun r => paths (items r.2) = paths (items s)).
Proof.
  assert (forall l i, returns (independent_items cwd i l) (fun r => paths r.2 = paths l)) as HL.
  { induction l as [|it t IH]; intros i; cbn [independent_items]; [now apply yields_ret|]. cbv zeta. destruct (_ || _); [now apply yields_ret|].
    eapply yields_bind; [apply returns_any|]. intros [p|] _; [|now apply yields_ret].
    eapply yields_bind; [apply returns_any|]. intros [e|[fd name]] _; [now apply yields_ret|].
    do 2 (eapply yields_bind; [apply returns_any|]; intros ? _). case_match; [|now apply yields_ret].
    eapply yields_bind; [apply IH|]. intros [ok t'] E. apply yields_ret. unfold paths in *. cbn in *. now rewrite E. }
  unfold independent. do 3 (eapply yields_bind; [apply returns_any|]; intros ? _). destruct (negb _); [now apply yields_ret|].
  eapply yields_bind; [apply HL|]. intros [ok l] E. cbn [snd] in E. destruct (negb ok); [now apply yields_ret|].
  destruct (adjacent_equal _); [now apply yields_ret|]. eapply yields_bind; [apply returns_any|]. intros safe _. now apply yields_ret.
Qed.

Lemma silent_handlers l : silent (install_handlers l).
Proof.
  induction l as [|sig l IH]; cbn [install_handlers]; [apply (adds_ret still)|]. apply (adds_bind still); [apply (adds_ask still still_asked); reflexivity|]. intros [].
  - apply (adds_bind still); [|intros u; exact IH]. apply (adds_stepping still). intros s u s' [= _ <-].
    split; [split|..]; cbn; [now rewrite app_nil_r|now exists []|done..].
  - apply (adds_ret still).
Qed.
Lemma silent_system {A} (m : System -> io A) : silent (system m).
Proof.
  apply (adds_bind still); [|intros a; apply (adds_ret still)]. intros s. unfold system_calls. destruct (m (system_at (notes s)) []) as [[a|] t]; apply still_calls.
Qed.
End Begin.

Lemma get_interrupted_value `{SU : Surroundings} s : runs get_interrupted s (fun z s' => z = interrupted s').
Proof.
  unfold get_interrupted. apply session_bind, runs_stepping. intros h s1 [= _ <-]. apply session_bind.
  eapply session_mono; [apply runs_returns, returns_any|]. intros sig s1 _. apply runs_stepping. now intros z s2 [= <- <-].
Qed.

(** ** The program *)

Section Reports.
Context `{SU : Surroundings} `{SG : !Signals} `{RX : PosixRegex} (fuel : nat).

Definition applying (o : options) : bool := match o_mode o with Some m => streq m (str "apply") | None => false end.

(** The messages that the options and the names [s] select. *)
Definition chosen (o : options) (s : selection) (ps : list bytes) : Prop :=
  exists r, ps = paths (items r) /\
    if selection_ o =? 1 then exists cwd σ σ', maildir_paths fuel cwd (default [] (o_maildir o)) s σ = (Some (0, r), σ')
    else if selection_ o =? 2 then exists σ σ', list_paths fuel (default [] (o_list o)) s σ = (Some (0, r), σ')
    else r = s.

(** The generation and the policy that the options pin below [root]. *)
Definition pinned_policy (root : bytes) (o : options) (g : jf_generation) (p : jf_policy) : Prop :=
  exists σ σ' code, generation_pin fuel root (o_generation o) σ = (Some (0, g, code), σ') /\
  exists σ1 σ1', cache_policy g σ1 = (Some (Ok p), σ1').

(** The output is complete: its header, then one record for each message. *)
Definition reports_all (o : options) (s : selection) (rc : Z) (ns : list note) : Prop :=
  exists root g p ps ds, let moving := applying o && negb (length ps =? 0)%nat in
    pinned_policy root o g p /\ chosen o s ps /\ length ds = length ps /\
    written ns = map ended [str "JFD1"; g_id g] ++ rows moving ds ps /\
    settled_rows root p moving 0 ds ns /\ rc = if all_well ds then 0 else 7.

(** Nothing was written, and no pool is bound. *)
Definition early (σ : session) : Prop := still no_session σ.
Lemma early_pool σ : early σ -> pooled σ /\ idle σ /\ events σ = [].
Proof.
  intros [_ E1 E2 E3]. unfold pooled, idle. rewrite E1, E2, E3. split_and!; [constructor|constructor|done|done].
Qed.
Lemma early_sign σ : early σ -> 0 <= interrupted σ.
Proof. intros H. apply (goes_sign _ _ _ (still_goes _ _ H)). cbn. lia. Qed.
Lemma runs_early {A} (m : bio A) σ : early σ -> silent m -> runs m σ (fun _ => early).
Proof. intros H Hm. eapply session_mono; [exact (runs_silent m σ Hm)|]. intros a σ' H'. exact (transitivity H H'). Qed.

(** Where the body ends: refused, stopped by a signal, or with what [P] says. *)
Definition ends_as (P : Z -> list note -> Prop) (m : main_state) (σ : session) : Prop :=
  (m_pool m = true -> pooled σ /\ idle σ) /\ 0 <= interrupted σ /\
  (refused (m_rc m) \/ 0 < interrupted σ \/ m_pool m = true /\ 0 < last_signal (events σ) \/ P (m_rc m) (notes σ)).
Abbreviation ended_with o s := (ends_as (reports_all o s)).

Lemma early_refused P m σ : early σ -> refused (m_rc m) -> ends_as P m σ.
Proof. intros H HR. destruct (early_pool _ H) as (? & ? & _). split; [auto|]. split; [now apply early_sign|now left]. Qed.

(** Where the batch starts, for messages with these paths; [l] was written. *)
Record prepared_for (moving : bool) (apply : option jf_storage) (ps l : list bytes) (s : selection) (m : main_state) (σ : session) : Prop := {
  pf_paths : paths (items s) = ps; pf_moving : is_moving apply = moving; pf_goes : goes l no_session σ;
  pf_pool : m_pool m = true -> is_moving apply = true /\ pooled σ /\ idle σ /\ untouched σ }.

Lemma pool_bind_spec st b σ : pooled σ -> idle σ -> calls_stop (events σ) = false -> (b = true -> 0 < interrupted σ) ->
  runs (pool_bind st b) σ (fun _ σ' => goes [] σ σ' /\ pooled σ' /\ idle σ' /\ untouched σ').
Proof.
  intros HP HI HE Hb. unfold pool_bind. apply session_bind. eapply session_mono.
  { apply (idle_call (Binds st b None) σ HP HI I). intros x x' e HC H. cbn in H. rewrite HC in H. unfold jf_pool_bind in H. destruct b; injection H as <- _; exact HC. }
  intros u σ1 C1. destruct (C1) as [G1 P1 I1 (e & E1 & K1)]. apply runs_stepping. intros v σ2 [= _ <-].
  pose proof (still_views (views (pool_state σ1)) σ1) as S. destruct (continues_still _ _ P1 I1 S) as [G2 P2 I2 _].
  split_and!; [exact (goes_trans [] [] _ _ _ G1 G2)|exact P2|exact I2|]. unfold untouched. cbn [events interrupted set_job_views].
  destruct b; [right; exact (goes_signal _ _ _ G1 (Hb eq_refl))|left]. now rewrite E1, calls_app, K1, HE.
Qed.

Lemma begin_apply_spec o s0 cwd root g p s m σ : early σ -> m_pool m = false ->
  leads (ended_with o s0) (begin_apply fuel cwd root g p s) m σ (fun r m' σ' => prepared_for true (Some r.1) (paths (items s)) [] r.2 m' σ').
Proof.
  intros H HP. unfold begin_apply. apply leads_bind, leads_demand. eapply session_mono; [apply (runs_early _ _ H), silent_handlers|].
  clear σ H. intros [] σ H; [|now apply early_refused]. apply leads_bind, leads_doing.
  eapply session_mono; [apply runs_both; [apply (runs_early _ _ H), (adds_snapshot_paths still still_asked still_read)|apply runs_returns, snapshot_paths_spec]|].
  clear σ H. intros [rc s1] σ [H [HR HE]]. cbn [fst snd] in *. destruct (Z.eqb_spec rc 0) as [->|Hrc]; cbn [negb].
  2: { apply leads_return_with, early_refused; [exact H|]. destruct HR as [->| ->]; [done|split; discriminate]. }
  specialize (HE eq_refl). apply leads_bind, leads_doing.
  eapply session_mono; [apply runs_both; [apply (runs_early _ _ H), (adds_independent still still_asked still_read)|apply runs_returns, independent_paths]|].
  clear σ H. intros [safe s2] σ [H HE2]. cbn [snd] in HE2. rewrite HE in HE2. clear s1 HE HR.
  apply leads_bind. apply (session_mono _ _ (fun r σ' => r.2 = Some tt /\ early σ')).
  { destruct safe; [|now apply session_ret]. apply session_bind, session_bind, (runs_ask PoolResources). intros r _. apply session_ret, session_ret. cbn.
    split; [done|]. apply (transitivity H), still_asked. reflexivity. }
  clear σ m H HP. intros [m o1] σ [E H]. cbn [snd] in E. subst o1. cbn [fst snd].
  apply leads_bind, leads_doing. eapply session_mono.
  { apply runs_both; [apply (runs_early _ _ H), silent_system|]. unfold system. apply session_bind. unfold runs at 1, system_calls.
    pose proof (begin_starts (SY := system_at (notes σ)) fuel root (g_id g) (g_directory g) true []) as HB.
    destruct (jf_storage_begin _ _ _ _ _ _) as [[r|] t]; [|exact I]. apply (session_ret _ _ (fun r _ => starting r.1.1)). exact (HB _ _ eq_refl). }
  clear σ H. intros [[rc detail] st] σ [H HS]. cbn [fst] in HS. apply leads_bind, leads_modify.
  destruct (Z.eqb_spec rc 0) as [->|Hrc]; cbn [negb].
  2: { apply leads_return_with, early_refused; [exact H|]. now apply starting_refused. }
  apply leads_bind, leads_gets. cbn [m_pool]. destruct (m_pool m) eqn:EP.
  2: { apply leads_ret. split; cbn [fst snd]; [exact HE2|done|exact (still_goes _ _ H)|]. cbn. congruence. }
  apply leads_bind, leads_doing. eapply session_mono; [exact (get_interrupted_spec σ (early_sign _ H))|]. intros z σ1 (S1 & Z1 & Z2).
  pose proof (transitivity H S1) as H1. apply leads_bind, leads_doing. destruct (early_pool _ H1) as (P1 & I1 & E1).
  eapply session_mono; [apply (pool_bind_spec _ _ σ1 P1 I1); [now rewrite E1|intros Hz; apply Z1; intros ->; discriminate]|].
  intros u σ2 (G2 & P2 & I2 & U2). apply leads_bind, leads_modify, leads_ret. split; cbn [fst snd]; [exact HE2|done| |auto].
  exact (goes_trans [] [] _ _ _ (still_goes _ _ H1) G2).
Qed.
Lemma batch_spec cwd root p moving apply ps l0 s m σ : prepared_for moving apply ps l0 s m σ ->
  runs (batch fuel cwd root p apply s m) σ (fun q σ' => exists l, goes l σ σ' /\ (m_pool q.1 = true -> pooled σ' /\ idle σ') /\
    (m_rc q.1 = 3 \/ 0 < interrupted σ' \/ m_pool q.1 = true /\ 0 < last_signal (events σ') \/
     complete root p moving 0 ps 0 (m_rc q.1) l (notes σ'))).
Proof.
  intros [EP EM G HP]. assert (0 <= interrupted σ) as H0 by (apply (goes_sign _ _ _ G); cbn; lia).
  unfold batch. change (gets m_pool ≫= ?f) with (fun l => f (m_pool l) l). cbv beta. destruct (m_pool m) eqn:EPool.
  - destruct (HP eq_refl) as (EA & P & I & U). destruct apply as [st|]; [|now cbn in EA; congruence].
    change (gets m_code ≫= ?f) with (fun l => f (m_code l) l). cbv beta. apply session_bind, session_bind.
    eapply session_mono; [exact (parallel_spec fuel cwd root p (items s) st (m_code m) σ P I U)|].
    intros [[rc code] pool_] σ' [HI (l & G' & HO)]. apply session_ret, session_ret. cbn [fst snd m_rc m_pool] in *. exists l. cbn in EM. subst moving.
    rewrite EP in HO. split_and!; [exact G'|exact HI|exact HO].
  - assert (length (items s) = length ps) as EL by (rewrite <- EP; unfold paths; now rewrite length_map).
    change (gets m_code ≫= ?f) with (fun l => f (m_code l) l). cbv beta. apply session_bind, session_bind. rewrite EL.
    eapply session_mono; [exact (singles_spec fuel cwd root p ps 0 ps (items s) apply (m_code m) 0 σ EP eq_refl H0)|].
    intros [[[rc its] ap] code] σ' [(l & G' & HO) _]. apply session_ret, session_ret. cbn [fst snd m_rc m_pool] in *. exists l. rewrite EM in HO.
    split_and!; [exact G'|congruence|]. destruct HO as [?|[?|?]]; auto.
Qed.

Lemma header_spec g apply σ :
  runs (header_written g apply) σ (fun ok σ' => exists l, prints l σ σ' /\ ((ok : bool) = true -> l = map ended [str "JFD1"; g_id g])).
Proof.
  unfold header_written. apply session_bind. eapply session_mono; [apply runs_fields|]. intros [] σ1 (l & P & E).
  - destruct apply; [|apply session_ret; now exists l]. eapply session_mono; [apply fflush_spec|]. intros ok σ2 S.
    exists l. split; [exact (prints_after _ _ _ _ P S)|auto].
  - apply session_ret. exists l. split; [exact P|discriminate].
Qed.
Lemma runs_eq {A} (m : bio A) σ : runs m σ (fun a σ' => m σ = (Some a, σ')).
Proof. unfold runs. now destruct (m σ) as [[a|] σ'] eqn:E. Qed.

Lemma still_pins root id k before after s : others_only (KN := k) (st before) (st after) -> still s (add_note (Pins root id k before after) s).
Proof. intros _. now apply still_note. Qed.

Lemma generation_pin_starts root id : returns (generation_pin fuel root id) (fun r => starting r.1.1).
Proof.
  intros σ r σ'. unfold generation_pin.
  assert (gives (_ ← clear_error; jf_generation_pin (KN := kernel_at (notes σ)) (HP := heap_at (notes σ)) fuel root id) (fun r => starting r.1)) as HG.
  { eapply gives_fio_bind; [apply gives_any|]. intros u _. apply pin_starts. }
  specialize (HG (engine_at (notes σ))). cbv zeta. destruct ((_ ← clear_error; _) (engine_at (notes σ))) as [[[rc g]|] w]; [|discriminate].
  specialize (HG _ _ eq_refl). cbn in *. now intros [= <- _].
Qed.

Lemma cache_policy_refused g σ rc e σ' : cache_policy g σ = (Some (Fail rc e), σ') -> refused rc.
Proof.
  intros E%(f_equal fst). change (Some (jf_cache_policy (HP := heap_at (notes σ)) (AL := allocator_at (notes σ)) (Some (View (contents (g_cache g)))) 0) = Some (Fail rc e)) in E.
  assert (forall r r0 : res jf_policy, Some r = Some r0 -> fails_refused r -> fails_refused r0) as K by (intros r r0 [= ->]; auto).
  exact (K _ _ E (policy_refused _ _)).
Qed.

Lemma body_spec o root_ s σ : early σ ->
  runs (main_body fuel o root_ s (MainState 2 None false None)) σ (fun q σ' => ended_with o s q.1 σ').
Proof.
  intros H. eapply (session_mono _ _ (fun p σ' => match p.2 with Some _ => ended_with o s p.1 σ' | None => ended_with o s p.1 σ' end)); [|now intros [m [u|]] σ'].
  change (leads (ended_with o s) (main_body fuel o root_ s) (MainState 2 None false None) σ (fun _ => ended_with o s)).
  set (m0 := MainState 2 None false None). assert (m_pool m0 = false) as HP by done. clearbody m0. unfold main_body.
  apply leads_bind, leads_obtain. eapply session_mono; [apply (runs_early _ _ H), (adds_ask still still_asked); reflexivity|]. clear σ H. intros [cwd|] σ H; [|now apply early_refused].
  apply leads_bind, leads_obtain. eapply session_mono; [apply (runs_early _ _ H), (adds_absolute still still_read)|]. clear σ H. intros [root|] σ H; [|now apply early_refused].
  apply leads_bind, leads_doing.
  apply (session_mono _ _ (fun r σ' => early σ' /\ selecting r.1 /\ (r.1 = 0 -> chosen o s (paths (items r.2))))).
  { unfold chosen. destruct (selection_ o =? 1).
    - eapply session_mono; [apply runs_both; [apply runs_eq|apply runs_both; [apply (runs_early _ _ H), (adds_maildir_paths still still_asked still_read)|apply runs_returns, maildir_selects]]|].
      intros [rc r] σ' (E & H' & HS). split_and!; [done|done|]. cbn. intros ->. exists r. split; [done|]. now exists cwd, σ, σ'.
    - destruct (selection_ o =? 2).
      + eapply session_mono; [apply runs_both; [apply runs_eq|apply runs_both; [apply (runs_early _ _ H), (adds_list_paths still still_asked still_read)|apply runs_returns, list_selects]]|].
        intros [rc r] σ' (E & H' & HS). split_and!; [done|done|]. cbn. intros ->. exists r. split; [done|]. now exists σ, σ'.
      + apply session_ret. split_and!; [done|now left|]. intros _. now exists s. }
  clear σ H. intros [rc s1] σ (H & HS & HC). cbn [fst snd] in *. destruct (Z.eqb_spec rc 0) as [->|Hrc]; cbn [negb].
  2: { apply leads_return_with, early_refused; [exact H|]. destruct HS as [?|[->| ->]]; [done|split; discriminate..]. }
  specialize (HC eq_refl). clear HS. apply leads_bind, leads_doing.
  eapply session_mono; [apply runs_both; [apply runs_eq|apply runs_both; [apply (runs_early _ _ H), (adds_generation_pin still still_pins)|apply runs_returns, generation_pin_starts]]|].
  intros [[rc g] code] σ1 (EG & H1 & HS). cbn [fst] in HS. destruct (Z.eqb_spec rc 0) as [->|Hrc]; cbn [negb].
  2: { apply leads_return_with, early_refused; [exact H1|]. now apply starting_refused. }
  apply leads_bind, leads_doing. eapply session_mono; [apply runs_both; [apply runs_eq|apply (runs_early _ _ H1), (adds_looking_at still)]|].
  intros [p|rc e] σ2 [EC H2].
  2: { apply leads_return_with, early_refused; [exact H2|]. exact (cache_policy_refused _ _ _ _ _ EC). }
  apply leads_bind. apply (session_mono _ _ (fun q σ' => match q.2 with
    | Some r => prepared_for (applying o && negb (length (items s1) =? 0)%nat) r.1 (paths (items s1)) [] r.2 q.1 σ'
    | None => ended_with o s q.1 σ' end)).
  { fold (applying o). destruct (_ && _).
    - apply (leads_bind (ended_with o s) _ _ _ _ (fun r m σ' => prepared_for true r.1 (paths (items s1)) [] r.2 m σ')).
      eapply session_mono; [exact (begin_apply_spec o s cwd root g p s1 m0 σ2 H2 HP)|]. intros [m [[st s']|]] σ' HF; [|exact HF].
      apply leads_ret. exact HF.
    - apply session_ret. cbn [fst snd]. split; [done|done|exact (still_goes _ _ H2)|congruence]. }
  set (moving := applying o && _). intros [m [[ap s']|]] σ3 HF; [|exact HF]. cbn [fst snd] in *.
  apply leads_bind, leads_demand. eapply session_mono; [exact (header_spec g ap σ3)|]. intros ok σ4 (l & PR & EL). destruct HF as [F1 F2 F3 F4].
  pose proof (goes_trans [] _ _ _ _ F3 (proj1 PR)) as G4. assert (0 <= interrupted σ4) as N4 by (apply (goes_sign _ _ _ G4); cbn; lia).
  assert (m_pool m = true -> is_moving ap = true /\ pooled σ4 /\ idle σ4 /\ untouched σ4) as F4'.
  { intros HPm. destruct (F4 HPm) as (A1 & A2 & A3 & A4). pose proof (continues_prints _ _ _ A2 A3 PR) as C. split_and!; [done|apply C|apply C|].
    exact (untouched_continues _ _ _ A4 C). }
  destruct ok; [|split; [intros HPm; now destruct (F4' HPm) as (_ & ? & ? & _)|split; [exact N4|now left]]].
  eapply session_mono; [apply (batch_spec cwd root p moving ap (paths (items s1)) l s' m σ4)|].
  { split; [exact F1|exact F2|exact G4|exact F4']. }
  intros q σ5 (l5 & G5 & HI & HO).
  assert (ended_with o s q.1 σ5) as HEnd; [|destruct q as [q1 [u|]]; exact HEnd].
  split; [exact HI|]. split; [exact (goes_sign _ _ _ G5 N4)|]. destruct HO as [->|[HO|[HO|(ds & D1 & D2 & D3 & D4)]]].
  - left. now split.
  - right. now left.
  - right. right. now left.
  - right. right. right. exists root, g, p, (paths (items s1)), ds. cbv zeta. split_and!.
    + exists σ, σ1, code. split; [exact EG|]. now exists σ1, σ2.
    + exact HC.
    + exact D1.
    + pose proof (goes_written _ _ _ (goes_trans _ _ _ _ _ G4 G5)) as EW. cbn [notes no_session written app] in EW. rewrite EW, (EL eq_refl), D2.
      unfold moving, paths. now rewrite length_map.
    + unfold moving in D3. unfold paths in D3 |- *. now rewrite length_map.
    + exact D4.
Qed.

(** ** The end *)

(** [P] holds of what is still so after steps that print nothing. *)
Definition stays (P : Z -> list note -> Prop) : Prop := forall rc σ σ', goes [] σ σ' -> P rc (notes σ) -> P rc (notes σ').

Lemma reports_stay o s : stays (reports_all o s).
Proof.
  intros rc σ σ' G (root & g & p & ps & ds & H1 & H2 & H3 & H4 & H5 & H6). exists root, g, p, ps, ds. cbv zeta. split_and!; [done..| | |done].
  - rewrite (goes_written _ _ _ G), app_nil_r. exact H4.
  - refine (settled_later _ _ _ _ _ _ _ _ H5). intros n. exact (seen_later _ _ _ _ G).
Qed.

Lemma main_done_spec P m σ : stays P -> ends_as P m σ ->
  runs (main_done m) σ (fun rc σ' => rc = 0 \/ rc = 7 -> P rc (notes σ')).
Proof.
  intros HStay (HPool & H0 & HO). unfold main_done. apply session_bind.
  apply (session_mono _ _ (fun _ σ' => goes [] σ σ' /\ (refused (m_rc m) \/ 0 < interrupted σ' \/ P (m_rc m) (notes σ)))).
  { destruct (m_pool m).
    - destruct (HPool eq_refl) as [HP HI]. apply session_bind. eapply session_mono; [exact (pool_finish_spec σ HP HI)|]. intros z σ1 (G & EI & Z1 & Z2).
      assert (forall σ', goes [] σ1 σ' -> (0 < last_signal (events σ) -> 0 < interrupted σ') ->
        goes [] σ σ' /\ (refused (m_rc m) \/ 0 < interrupted σ' \/ P (m_rc m) (notes σ))) as HK.
      { intros σ' G' HL. pose proof (goes_trans [] [] _ _ _ G G') as GG. split; [exact GG|].
        destruct HO as [?|[HO|[[_ HO]|?]]]; [auto| |auto..]. right. left. exact (goes_signal _ _ _ GG HO). }
      destruct (Z.eqb_spec z 0) as [->|Hz]; cbn [negb].
      + apply session_ret, HK; [apply goes_refl|]. intros HL. specialize (Z2 HL). lia.
      + apply runs_stepping. intros u σ' [= _ <-]. apply HK; [apply goes_set; lia|]. intros _. cbn. lia.
    - apply session_ret. split; [apply goes_refl|]. destruct HO as [?|[?|[[? _]|?]]]; [auto..|discriminate|auto]. }
  intros u σ1 [G1 H1]. assert (0 <= interrupted σ1) as N1 by (apply (goes_sign _ _ _ G1), H0). apply session_bind.
  eapply session_mono; [apply runs_both; [exact (get_interrupted_spec σ1 N1)|apply get_interrupted_value]|]. intros z σ2 [(S2 & Z1 & Z2) ->].
  pose proof (goes_still _ _ _ _ G1 S2) as G2. assert (0 <= interrupted σ2) as N2 by (apply (goes_sign _ _ _ G2), H0).
  destruct (if negb (interrupted σ2 =? 0) then _ else _) as [rc code] eqn:EQ.
  apply session_bind. apply (session_mono _ _ (fun _ σ' => still σ2 σ')).
  { destruct (_ && _); [|apply session_ret; reflexivity]. apply runs_silent. apply (adds_bind still); [now apply silent_note|]. intros v. apply (adds_ret still). }
  intros v σ3 S3. apply session_bind. apply (session_mono _ _ (fun _ σ' => still σ3 σ')).
  { destruct (m_storage m); [|apply session_ret; reflexivity]. apply runs_silent, (adds_bind still); [apply silent_system|]. intros x. apply (adds_ret still). }
  intros x σ4 S4. apply session_ret. intros HR. pose proof (goes_still _ _ _ _ (goes_still _ _ _ _ G2 S3) S4) as G4.
  destruct (Z.eqb_spec (interrupted σ2) 0) as [E|E]; cbn [negb] in EQ; injection EQ as <- <-; [|lia].
  destruct H1 as [[? ?]|[H1|H1]]; [lia| |exact (HStay _ _ _ G4 H1)].
  pose proof (goes_signal _ _ _ (still_goes _ _ S2) H1). lia.
Qed.

(** ** The arguments *)

Lemma parse_spec alone l : forall o s, selection_ o <> 3 -> items s = [] ->
  returns (parse_arguments alone l o s) (fun r => match r with
    | Prints _ => alone = true /\ (exists a t, l = a :: t /\ (a = str "--help" \/ a = str "--version")) \/ (2 <= length l)%nat
    | Usage rc => True
    | Wants o' s' => selection_ o' = 3 -> exists a, l = a ++ str "--" :: paths (items s')
    end).
Proof.
  induction l as [l IH] using (induction_ltof1 _ (@length bytes)). unfold ltof in IH. intros o s Ho Hs.
  assert (forall (a b : bytes), streq a b = true -> a = b) as HE.
  { intros a b. unfold streq. destruct (strcmp a b) eqn:E; [|discriminate..]. intros _. now apply strcmp_eq. }
  destruct l as [|x t]; cbn [parse_arguments]; [apply yields_ret; contradiction|].
  destruct (alone && streq x (str "--help")) eqn:E1; [apply yields_ret; apply andb_true_iff in E1 as [-> E1%HE]; left; split; [done|]; exists x, t; auto|].
  destruct (alone && streq x (str "--version")) eqn:E2; [apply yields_ret; apply andb_true_iff in E2 as [-> E2%HE]; left; split; [done|]; exists x, t; auto|].
  destruct (streq x (str "--")) eqn:E3.
  - apply HE in E3. destruct (_ || _); [now apply yields_ret|]. eapply yields_bind; [apply select_all_spec|]. intros [rc s1] [_ H]. apply yields_ret.
    cbn [fst snd] in H. destruct (Z.eqb_spec rc 0) as [->|]; [|done]. intros _. exists []. rewrite (H eq_refl), Hs, E3. reflexivity.
  - destruct (slot_of x o) as [[k o']|] eqn:E; [|now apply yields_ret].
    assert (selection_ o' <> 3) as Ho'.
    { revert E Ho. unfold slot_of. repeat (match goal with |- context [if ?b then _ else _] => destruct b end; try discriminate); intros [= _ <-]; cbn; lia || auto. }
    destruct (get_slot k o'); [now apply yields_ret|]. destruct t as [|[|c v] t]; [now apply yields_ret..|].
    intros σ r σ' H. assert (length t < length (x :: (c :: v) :: t))%nat as HL by (cbn; lia).
    assert (selection_ (set_slot k (c :: v) o') <> 3) as Ho2 by now destruct k.
    specialize (IH t HL (set_slot k (c :: v) o') s Ho2 Hs σ r σ' H). destruct r as [text|rc|o2 s2]; [right; cbn; lia|done|]. intros E4.
    destruct (IH E4) as [a ->]. now exists (x :: (c :: v) :: a).
Qed.

Lemma parse_spec_plain l : forall o s σ r σ', parse_arguments false l o s σ = (Some r, σ') -> match r with Prints _ => False | _ => True end.
Proof.
  induction l as [l IH] using (induction_ltof1 _ (@length bytes)). unfold ltof in IH. intros o s.
  enough (returns (parse_arguments false l o s) (fun r => match r with Prints _ => False | _ => True end)) as H by exact H.
  destruct l as [|x t]; cbn [parse_arguments andb]; [now apply yields_ret|]. destruct (streq x (str "--")).
  - destruct (_ || _); [now apply yields_ret|]. eapply yields_bind; [apply returns_any|]. intros [rc s1] _. apply yields_ret. now destruct (rc =? 0).
  - destruct (slot_of x o) as [[k o']|]; [|now apply yields_ret]. destruct (get_slot k o'); [now apply yields_ret|].
    destruct t as [|[|c v] t]; [now apply yields_ret..|]. intros σ r σ'. apply IH. cbn. lia.
Qed.

(** ** Theorems *)

(** C2. A status of 0 or 7 comes with a complete output.  When the program ends so,
    and was not only asked for its usage or version, the standard output holds the
    header with the generation that was pinned and then exactly one record for
    each message selected by the arguments, in order, with the position and the
    path of the message; the status is 0 if none of the records is an error and 7
    otherwise.  A record that is no error has the rule that the classification by
    the policy of that generation gives for the headers that were read, and, when
    messages are moved, the calls that were made account for the move.  This is so
    for one message after the other and for the windows of the pool, whatever the
    threads do, whatever fails and wherever signals come. *)
Theorem batch_reports argv rc s' :
  main fuel argv no_session = (Some rc, s') -> rc = 0 \/ rc = 7 ->
  argv = [str "--help"] \/ argv = [str "--version"] \/
  exists o s σ, parse_arguments (length argv =? 1)%nat argv no_options no_selection no_session = (Some (Wants o s), σ) /\
    (selection_ o = 3 -> exists a, argv = a ++ str "--" :: paths (items s)) /\
    reports_all o s rc (notes s').
Proof.
  intros HM HR. set (Q := _ \/ _). enough (runs (main fuel argv) no_session (fun rc σ' => rc = 0 \/ rc = 7 -> argv = [str "--help"] \/ argv = [str "--version"] \/
    exists o s σ, parse_arguments (length argv =? 1)%nat argv no_options no_selection no_session = (Some (Wants o s), σ) /\
    (selection_ o = 3 -> exists a, argv = a ++ str "--" :: paths (items s)) /\ reports_all o s rc (notes σ'))) as H.
  { unfold runs in H. rewrite HM in H. exact (H HR). }
  clear rc s' HM HR Q. unfold main. apply session_bind.
  eapply session_mono; [apply runs_both; [apply runs_eq|apply runs_both; [apply (runs_early _ no_session); [unfold early; reflexivity|apply (adds_parse still still_read)]|apply runs_returns, parse_spec; done]]|].
  intros r σ (EP & H & HP).
  assert (forall rc, runs (main_done (MainState (if rc =? 3 then 3 else 2) (Some (if rc =? 3 then "E_MEMORY"%string else "E_USAGE"%string)) false None)) σ
    (fun rc _ => rc = 0 \/ rc = 7 -> False)) as HU.
  { intros rc. apply (main_done_spec (fun _ _ => False)); [now intros ? ? ?|]. apply early_refused; [exact H|]. cbn. now destruct (rc =? 3). }
  destruct r as [text|rc|o s].
  - apply session_bind, (runs_ask (Fwrite (text ++ [LF]))). intros x _. apply session_ret. intros _. destruct HP as [(EA & a & t & -> & Ha)|HL].
    + apply Nat.eqb_eq in EA. destruct t; [|discriminate]. destruct Ha as [Ha|Ha]; rewrite Ha; [now left|right; now left].
    + exfalso. revert EP HL. destruct argv as [|a [|b t]]; cbn [length]; [lia|lia|]. intros EP _.
      pose proof (parse_spec_plain (a :: b :: t) no_options no_selection _ _ _ EP). done.
  - eapply session_mono; [apply HU|]. intros rc1 σ' HF Hrc. now destruct (HF Hrc).
  - destruct (o_root o) as [root_|]; [|eapply session_mono; [apply (HU 2)|]; intros rc1 σ' HF Hrc; now destruct (HF Hrc)].
    destruct (_ || _); [eapply session_mono; [apply (HU 2)|]; intros rc1 σ' HF Hrc; now destruct (HF Hrc)|].
    apply session_bind. eapply session_mono; [exact (body_spec o root_ s σ H)|]. intros [m u] σ1 HEnd. cbn [fst] in HEnd.
    eapply session_mono; [exact (main_done_spec _ m σ1 (reports_stay o s) HEnd)|]. intros rc1 σ2 HF Hrc. right. right. exists o, s, σ.
    split_and!; [exact EP|exact HP|exact (HF Hrc)].
Qed.

(** C5. Without [--mode apply] the program changes nothing: whatever the arguments
    select, and whatever the kernel, the memory and the engine's files answer,
    each call that it makes before it returns, or up to any moment, is one that
    reads, and writes, makes, links, renames, removes, locks or synchronises no
    message, directory or file.  The pin of the generation, which alone takes a
    lock, the shared one of the engine, leaves every entry of the engine's tree as
    it found it, whether it succeeds, fails or is cut: the tree is what the other
    processes made of it before the lock was given. *)
Theorem default_mode_reads argv :
  (forall a b, argv <> a ++ str "--mode" :: str "apply" :: b) ->
  Forall note_reads (notes (main fuel argv no_session).2).
Proof.
  intros Ha. enough (only_looks (main fuel argv)) as H.
  { destruct (H no_session) as (new & E & HN). rewrite E. cbn [no_session notes]. now rewrite app_nil_r. }
  assert (forall rc, only_looks (main_done (MainState rc (Some (if rc =? 3 then "E_MEMORY"%string else "E_USAGE"%string)) false None))) as HU.
  { intros rc. now apply looks_done. }
  unfold main. eapply (adds_bind_returns grows); [apply (adds_parse grows grows_calls)|apply (parse_mode _ _ _ _ []); discriminate|].
  intros [text|rc|o s] HM; [apply (adds_bind grows); [apply looks_ask|intros a; apply (adds_ret grows)]|apply looks_done; now split|].
  destruct (o_root o) as [root_|]; [|apply looks_done; now split]. destruct (_ || _); [apply looks_done; now split|].
  assert (o_mode o <> Some (str "apply")) as Hm.
  { intros E. destruct (HM _ E) as (a & b & E'). exact (Ha a b E'). }
  destruct (guards_body fuel o root_ s Hm (MainState 2 None false None)) as [H1 H2]; [now split|].
  eapply (adds_bind_returns grows); [exact H1|exact H2|]. intros [m r] Hi. now apply looks_done.
Qed.
End Reports.

(** ** Witnesses *)

#[local] Existing Instance sample_surroundings.
#[local] Existing Instance sample_signals.

Lemma batch_reports_witness : exists s', main (RX := fixed_strings) 100 apply_arguments no_session = (Some 0, s') /\
  exists o s σ, parse_arguments (length apply_arguments =? 1)%nat apply_arguments no_options no_selection no_session = (Some (Wants o s), σ) /\
    (selection_ o = 3 -> exists a, apply_arguments = a ++ str "--" :: paths (items s)) /\
    reports_all (RX := fixed_strings) 100 o s 0 (notes s').
Proof.
  destruct (main (RX := fixed_strings) 100 apply_arguments no_session) as [r s'] eqn:E. pose proof sample_applies as S. rewrite E in S.
  cbn [fst] in S. subst r. exists s'. split; [reflexivity|].
  destruct (batch_reports (RX := fixed_strings) 100 apply_arguments 0 s' E (or_introl eq_refl)) as [H|[H|H]]; [| |exact H].
  all: apply (f_equal (@length bytes)) in H; discriminate H.
Defined.

Lemma default_mode_reads_witness : Forall note_reads (notes (main (RX := fixed_strings) 100 classify_arguments no_session).2).
Proof.
  apply default_mode_reads. intros a b H. assert (existsb (streq (str "--mode")) classify_arguments = false) as E by reflexivity.
  rewrite H, existsb_app in E. apply orb_false_iff in E as [_ E]. discriminate E.
Defined.
