(* ===== verification/CompileMain.v ===== *)
(** * The compiler program (src/jaro-filter-compile.c)

    Its arguments, the call of the compiler, the import or the address book, the
    report on the standard output and the error on the standard error, to the exit
    status.  The build for Linux. *)
From stdpp Require Import gmap.
From S2P Require Import Prelude Sha256 Utf8 Mailbox Rules Resolve Classify Policy Bytes Profile Emit Cache Import Files Generation Snapshot Compile Contact.

(** ** The terminal *)

(** A write on the standard output or the standard error, and the flushes. *)
Inductive output := Stdout (b : bytes) | Stderr (b : bytes) | FlushStdout | FlushStderr.

(** Whether an output succeeds, after those before it, the latest first; and the
    directory of the process. *)
Class Terminal := { accepts : list output -> output -> bool; working_directory : option bytes }.

(** The tree of the engine with its calls, those on an address book, and what was
    output, the latest first. *)
Record invocation := Invocation { engine_world : Files.world; book_world : nat * calls; outputs : list output }.
Definition pio (A : Type) : Type := invocation -> option A * invocation.
#[export] Instance pio_ret : MRet pio := fun A a s => (Some a, s).
#[export] Instance pio_bind : MBind pio := fun A B f m s =>
  match m s with (Some a, s') => f a s' | (None, s') => (None, s') end.

Definition on_files {A} (m : fio A) : pio A := fun s =>
  let '(a, w) := m (engine_world s) in (a, Invocation w (book_world s) (outputs s)).
Definition on_book {A} (m : prog A) : pio A := fun s =>
  let '(a, w) := m (book_world s) in (a, Invocation (engine_world s) w (outputs s)).
Definition print `{TM : Terminal} (o : output) : pio bool := fun s =>
  (Some (accepts (outputs s) o), Invocation (engine_world s) (book_world s) (o :: outputs s)).

(** ** Arguments *)

Record options := Options {
  o_root : option bytes; o_accounts : option bytes; o_profile : option bytes; o_import : option bytes;
  o_check : bool; o_report : bool; o_legacy : bool }.
Definition no_options : options := Options None None None None false false false.

Inductive slot := RootSlot | AccountsSlot | ProfileSlot | ImportSlot.
Definition get_slot (k : slot) (o : options) : option bytes :=
  match k with RootSlot => o_root o | AccountsSlot => o_accounts o | ProfileSlot => o_profile o | ImportSlot => o_import o end.
Definition set_slot (k : slot) (v : bytes) (o : options) : options :=
  match k with
  | RootSlot => Options (Some v) (o_accounts o) (o_profile o) (o_import o) (o_check o) (o_report o) (o_legacy o)
  | AccountsSlot => Options (o_root o) (Some v) (o_profile o) (o_import o) (o_check o) (o_report o) (o_legacy o)
  | ProfileSlot => Options (o_root o) (o_accounts o) (Some v) (o_import o) (o_check o) (o_report o) (o_legacy o)
  | ImportSlot => Options (o_root o) (o_accounts o) (o_profile o) (Some v) (o_check o) (o_report o) (o_legacy o)
  end.
Definition set_check (o : options) : options := Options (o_root o) (o_accounts o) (o_profile o) (o_import o) true (o_report o) (o_legacy o).
Definition set_report (o : options) : options := Options (o_root o) (o_accounts o) (o_profile o) (o_import o) (o_check o) true (o_legacy o).
Definition set_legacy (o : options) : options := Options (o_root o) (o_accounts o) (o_profile o) (o_import o) (o_check o) (o_report o) true.

Definition slot_of (a : bytes) : option slot :=
  if streq a (str "--root") then Some RootSlot
  else if streq a (str "--accounts-dir") then Some AccountsSlot
  else if streq a (str "--profile") then Some ProfileSlot
  else if streq a (str "--import-sieve") then Some ImportSlot
  else None.

(** Texts to print, an invocation that is wrong, or what to compile. *)
Inductive arguments := Prints (texts : list bytes) | Misused | Wants (o : options).

Definition help_texts : list bytes :=
  [str "jaro-filter-compile --root ROOT [--accounts-dir DIR] [--profile FILE] [--import-sieve FILE [--legacy-generated]] [--check] [--report0]";
   str "jaro-filter-compile --add-contact BOOK ADDRESS NAME [--check]" ++ [LF] ++ str "jaro-filter-compile --check-address ADDRESS"].

(** [alone]: there is one argument. *)
Fixpoint parse_arguments (alone : bool) (l : list bytes) (o : options) : arguments :=
  match l with
  | [] => Wants o
  | a :: t =>
      if streq a (str "--help") && alone then Prints help_texts
      else if streq a (str "--version") && alone then Prints [JF_COMPILER_ID]
      else match slot_of a with
      | Some k =>
          match get_slot k o, t with
          | None, (_ :: _) as v :: t => parse_arguments alone t (set_slot k v o)
          | _, _ => Misused
          end
      | None =>
          if streq a (str "--check") && negb (o_check o) then parse_arguments alone t (set_check o)
          else if streq a (str "--report0") && negb (o_report o) then parse_arguments alone t (set_report o)
          else if streq a (str "--legacy-generated") && negb (o_legacy o) then parse_arguments alone t (set_legacy o)
          else if streq a (str "--") && match t with [] => true | _ => false end then Wants o
          else Misused
      end
  end.

(** ** The program *)

Definition escaped_byte (c : Z) : bytes :=
  if (c <? 32) || (127 <=? c) || (c =? DQ) || (c =? BSL) then BSL :: ch "x" :: hex_byte c else [c].
Definition escaped (s : bytes) : bytes := DQ :: concat (map escaped_byte s) ++ [DQ].

Definition code_or (default_ : string) (e : option jf_error) : bytes :=
  str (match e with Some e => err_code e | None => default_ end).
Definition line_of (e : option jf_error) : Z := match e with Some e => err_line e | None => 0 end.
Definition detail_of (e : option jf_error) : bytes := match e with Some e => err_detail e | None => [] end.
(** [CODE "path":LINE DETAIL]. *)
Definition failure (default_ : string) (path : bytes) (e : option jf_error) : bytes :=
  code_or default_ e ++ str " " ++ escaped path ++ str ":" ++ decimal_of (line_of e) ++ str " " ++ detail_of e ++ [LF].

(** The bytes of [result->id], an array of 65. *)
Definition id_field (id : bytes) : bytes := take 65 (id ++ replicate 65 0).

Section Program.
Context `{KN : Kernel} `{HP : Heap} `{PT : Paths} `{RX : PosixRegex} `{BS : BookSystem} `{TM : Terminal} (fuel : nat).

Definition absolute (p : bytes) : fio (option bytes) :=
  if has_prefix (str "/") p then Snapshot.strdup p
  else match working_directory with
       | None => mret None
       | Some cwd => Snapshot.join cwd p
       end.

(** [--check-address]. *)
Definition check_address (s : bytes) : pio Z :=
  copy ← on_files (Snapshot.strdup s);
  mret match copy with
       | None => 3
       | Some c => if jf_valid_utf8 c && match jf_normalize_mailbox c with Some _ => true | None => false end then 0 else 4
       end.

(** [--add-contact]. *)
Definition add_contact (book email name : bytes) (check : bool) : pio Z :=
  '(rc, e) ← on_book (jf_contact_add fuel book email name check);
  _ ← (if negb (rc =? 0) && negb (rc =? 1)
       then print (Stderr (code_or "E_IO" e ++ str " " ++ escaped book ++ str " " ++ detail_of e ++ [LF]))
       else mret true);
  mret rc.

(** The compilation or the import: the status, the result and the path of the
    error. *)
Definition compile_it (o : options) (root compiler : bytes) : fio (Z * jf_compile_result * option bytes) :=
  match o_import o with
  | Some script => jf_compile_import fuel root (o_accounts o) (o_profile o) (Some compiler) script (o_legacy o) (o_check o)
  | None => jf_compile fuel root (o_accounts o) (o_profile o) (Some compiler) (o_check o)
  end.

(** The warnings on the standard error; the status after them. *)
Definition warn (rc : Z) (w : bytes) : pio Z :=
  match w with
  | [] => mret rc
  | _ =>
      written ← print (Stderr w);
      ok ← (if (written : bool) then print FlushStderr else mret false);
      if (ok : bool) then mret rc
      else on_files (product_error "E_IO" (str "cannot write addressbook warnings"))
  end.

Definition report_fields (r : jf_compile_result) : list bytes :=
  [str "JFC1" ++ [0]; id_field (r_id r); (if r_changed r then str "1" else str "0") ++ [0];
   match r_directory r with Some d => d ++ [0] | None => [0] end].
Fixpoint print_all (l : list bytes) : pio unit :=
  match l with [] => mret tt | b :: t => _ ← print (Stdout b); print_all t end.

Definition report_result (rc : Z) (r : jf_compile_result) : pio Z :=
  _ ← print_all (report_fields r);
  ok ← print FlushStdout;
  mret (if (ok : bool) then rc else 3).

(** From the arguments that were taken. *)
Definition run_compiler (o : options) (root : bytes) : pio Z :=
  _ ← on_files clear_error;
  resolved ← on_files (absolute root);
  compiler ← on_files (Snapshot.strdup (str "/proc/self/exe"));
  '(rc, at_path) ←
    match resolved, compiler with
    | Some resolved, Some compiler =>
        '(rc, r, at_path) ← on_files (compile_it o resolved compiler);
        rc ← warn rc (contents (r_warnings r));
        rc ← (if (rc =? 0) && o_report o then report_result rc r else mret rc);
        mret (rc, at_path)
    | _, _ => mret (3, None)
    end;
  _ ← (if negb (rc =? 0) then
         e ← on_files get_report;
         print (Stderr (failure "E_IO" (match at_path with Some p => p | None => root end) e))
       else mret true);
  mret rc.

Definition usage : pio Z := _ ← print (Stderr (str "E_USAGE invalid compiler invocation" ++ [LF])); mret 2.

(** [main], from its arguments after the name of the program. *)
Definition main (argv : list bytes) : pio Z :=
  let compile :=
    match parse_arguments (length argv =? 1)%nat argv no_options with
    | Prints texts => _ ← print_all (map (fun t => t ++ [LF]) texts); mret 0
    | Misused => usage
    | Wants o =>
        match o_root o with
        | Some root => if o_legacy o && match o_import o with None => true | _ => false end then usage else run_compiler o root
        | None => usage
        end
    end in
  match argv with
  | [a; s] => if streq a (str "--check-address") then check_address s else compile
  | [a; book; email; name] => if streq a (str "--add-contact") then add_contact book email name false else compile
  | [a; book; email; name; c] =>
      if streq a (str "--add-contact") && streq c (str "--check") then add_contact book email name true else compile
  | _ => compile
  end.
End Program.
