(* ===== verification/CompileFacts.v ===== *)
(** * What a check of the compiler does (CompileMain, Compile)

    With [--check] the compiler and the importer change nothing in the tree: each
    part of them is a program that leaves it alone, apart from what other
    processes do while it waits for the lock. *)
From stdpp Require Import gmap.
From S2P Require Import Contact Prelude Sha256 Utf8 Mailbox Rules Resolve Classify Policy Bytes Profile Emit Cache CacheFacts Import Files FilesFacts Generation GenerationFacts Passive Snapshot SnapshotFacts Compile Recollection CompileMain.

(** ** Programs with locals that leave the tree alone *)

Section Kept.
Context `{KN : Kernel} `{HP : Heap}.

(** With locals of which [J] holds the program leaves the tree alone and keeps
    [J]. *)
Context {S L : Type} (J : S -> Prop).
Definition kept {R} (m : S -> fio (R * S)) : Prop := forall x, J x -> forall w,
  others_only (st w) (st (m x w).2) /\ forall r, (m x w).1 = Some r -> J r.2.

Lemma kept_passive {R} (m : S -> fio (R * S)) x : kept m -> J x -> passive (m x).
Proof. intros H Hx w. apply (H x Hx w). Qed.
Lemma kept_step {R R'} (m : S -> fio (R * S)) (f : R * S -> fio (R' * S)) x : kept m -> J x ->
  (forall r, J r.2 -> forall w, others_only (st w) (st (f r w).2) /\ forall r', (f r w).1 = Some r' -> J r'.2) ->
  forall w, others_only (st w) (st ((m x ≫= f) w).2) /\ forall r, ((m x ≫= f) w).1 = Some r -> J r.2.
Proof.
  intros Hm Hx Hf w. destruct (Hm x Hx w) as [H1 H2]. unfold mbind, fio_bind. destruct (m x w) as [[r|] w']; [|split; [exact H1|discriminate]].
  destruct (Hf r (H2 r eq_refl) w') as [H3 H4]. split; [exact (others_only_trans _ _ _ H1 H3)|exact H4].
Qed.
Lemma kept_then {R A} (m : S -> fio (R * S)) (f : R * S -> fio A) x : kept m -> J x -> (forall r, J r.2 -> passive (f r)) -> passive (m x ≫= f).
Proof.
  intros Hm Hx Hf w. destruct (Hm x Hx w) as [H1 H2]. unfold mbind, fio_bind. destruct (m x w) as [[r|] w']; [|exact H1].
  exact (others_only_trans _ _ _ H1 (Hf r (H2 r eq_refl) w')).
Qed.
Lemma kept_value {R} (g : S -> R * S) : (forall x, J x -> J (g x).2) -> kept (fun x => mret (g x)).
Proof. intros H x Hx w. split; [apply others_none|]. intros r [= <-]. now apply H. Qed.
Lemma kept_ret_st {A} (a : A) : kept (mret a : stateful S A).
Proof. now apply (kept_value (fun x => (a, x))). Qed.
Lemma kept_ret_jump {A} (a : A) : kept (mret a : jumping S L A).
Proof. now apply (kept_value (fun x => (inr a, x))). Qed.
Lemma kept_goto {A} l : kept (goto l : jumping S L A).
Proof. now apply (kept_value (fun x => (inl l, x))). Qed.
Lemma kept_change f : (forall x, J x -> J (f x)) -> kept (change f).
Proof. intros H. now apply (kept_value (fun x => (tt, f x))). Qed.
Lemma kept_ask {A} (f : S -> A) : kept (ask f).
Proof. now apply (kept_value (fun x => (f x, x))). Qed.
Lemma kept_bind_st {A B} (m : stateful S A) (f : A -> stateful S B) : kept m -> (forall a, kept (f a)) -> kept (m ≫= f).
Proof. intros Hm Hf x Hx. apply kept_step; [exact Hm|exact Hx|]. intros [a y] Hy w. now apply Hf. Qed.
Lemma kept_bind_jump {A B} (m : jumping S L A) (f : A -> jumping S L B) : kept m -> (forall a, kept (f a)) -> kept (m ≫= f).
Proof.
  intros Hm Hf x Hx. apply kept_step; [exact Hm|exact Hx|]. intros [[l|a] y] Hy w; cbn [fst snd] in *; [|now apply Hf].
  split; [apply others_none|]. intros r [= <-]. exact Hy.
Qed.
Lemma kept_run {A} (m : stateful S A) : kept m -> kept (run_ (L := L) m).
Proof.
  intros H x Hx. apply kept_step; [exact H|exact Hx|]. intros p Hp w. split; [apply others_none|]. intros r [= <-]. exact Hp.
Qed.
Lemma kept_lift {A} (m : fio A) : passive m -> kept (lift m).
Proof.
  intros H x Hx w. unfold lift, mbind, fio_bind. specialize (H w). destruct (m w) as [[a|] w']; (split; [exact H|]); [|discriminate].
  intros r [= <-]. exact Hx.
Qed.
Lemma kept_calls {A} (m : fio A) : passive m -> kept (calls (L := L) m).
Proof. intros H. now apply kept_run, kept_lift. Qed.
Lemma kept_pass (l : Z -> L) (m : fio Z) : passive m -> kept (pass l m).
Proof. intros H. apply kept_bind_jump; [now apply kept_calls|]. intros rc. destruct (rc =? 0); [apply kept_ret_jump|apply kept_goto]. Qed.
Lemma kept_result {A} (l : Z -> L) (m : fio (Z + A)) : passive m -> kept (value l m).
Proof. intros H. apply kept_bind_jump; [now apply kept_calls|]. intros [rc|a]; [apply kept_goto|apply kept_ret_jump]. Qed.
End Kept.

Ltac keeping_step ::=
  match goal with
  | |- kept _ (mret _) => first [apply kept_ret_jump | apply kept_ret_st]
  | |- kept _ (goto _) => apply kept_goto
  | |- kept _ (_ ≫= _) => first [apply kept_bind_jump; [|intros ?] | apply kept_bind_st; [|intros ?]]
  | |- kept _ (run_ _) => apply kept_run
  | |- kept _ (lift _) => apply kept_lift
  | |- kept _ (calls _) => apply kept_calls
  | |- kept _ (pass _ _) => apply kept_pass
  | |- kept _ (value _ _) => apply kept_result
  | |- kept _ (change _) => apply kept_change; now intros ? ?
  | |- kept _ (ask _) => apply kept_ask
  | |- kept _ (if ?b then _ else _) => destruct b
  | |- kept _ (match ?x with _ => _ end) => destruct x
  end.

Section Parts.
Context `{KN : Kernel} `{HP : Heap} `{PT : Paths} `{RX : PosixRegex} (fuel : nat).

Lemma passive_strdup x : passive (Snapshot.strdup x).
Proof. quietly quiet_strdup. Qed.
Lemma passive_join a b : passive (Snapshot.join a b).
Proof. quietly quiet_join. Qed.
Lemma passive_product_error c d : passive (product_error c d).
Proof. quietly quiet_product_error. Qed.
Lemma passive_collect root accounts profile compiler prior over : passive (collect fuel root accounts profile compiler prior over).
Proof. quietly quiet_collect. Qed.
Lemma passive_answered {A} (f : nat -> errno + A) : passive (answered f).
Proof. intros w. unfold answered. apply passive_query. Qed.
Lemma passive_report : passive get_report.
Proof. now apply passive_same. Qed.
Lemma passive_on_heap {A} (f : nat -> Z + A * nat) : passive (on_heap f).
Proof. apply passive_same. intros w. unfold on_heap. now destruct (f (heap w)) as [|[]]. Qed.
Lemma passive_on_heap_res {A} (f : nat -> res (A * nat)) : passive (on_heap_res f).
Proof. apply passive_same. intros w. unfold on_heap_res. now destruct (f (heap w)) as [[]|]. Qed.
End Parts.
#[export] Hint Resolve passive_strdup passive_join passive_product_error passive_collect passive_answered passive_report passive_on_heap passive_on_heap_res : passive.

(** ** The compiler under a check *)

Section Check.
Context `{KN : Kernel} `{HP : Heap} `{PT : Paths} `{RX : PosixRegex} (fuel : nat).

Lemma passive_same_root l root : passive (same_root l root).
Proof. unfold same_root. passing. Qed.
Lemma passive_unfinished l : passive (unfinished fuel l).
Proof. unfold unfinished. passing. Qed.
Lemma passive_parse s : passive (jf_snapshot_parse s).
Proof.
  unfold jf_snapshot_parse. apply passive_bind.
  - apply passive_same. intros w. unfold parse_policy. now destruct (jf_policy_parse _).
  - intros [p|rc e]; [apply passive_ret|]. destruct (_ && _); [|apply passive_ret]. apply passive_bind.
    + intros w. pose proof (ends_diagnostic (st w) (Rules.path (nth (Z.to_nat (err_source e)) (sources s) (MkSource JF_FILTERS [] [] []))) s) as H.
      destruct (H w eq_refl) as [<- _]. apply others_none.
    + intros [d y]. passing.
Qed.
Lemma passive_fingerprint s : passive (fingerprint_of s).
Proof. apply passive_on_heap. Qed.
Lemma passive_build s : passive (build_products s).
Proof. apply passive_on_heap_res. Qed.
Lemma passive_default rc c d : passive (default_error rc c d).
Proof. unfold default_error. passing. Qed.
Hint Resolve passive_same_root passive_unfinished passive_parse passive_fingerprint passive_build passive_default : passive.

Section Run.
Context (root : bytes) (accounts profile compiler : option bytes).
Abbreviation unstaged := (fun a : attempt => a_temporary a = None).

Lemma passive_collect_with prior : passive (jf_snapshot_collect fuel root accounts profile compiler prior).
Proof. apply passive_collect. Qed.
Hint Resolve passive_collect_with : passive.

Lemma kept_again fp : kept unstaged (collect_again fuel root accounts profile compiler fp).
Proof.
  intros a Ha. unfold collect_again.
  intros w. unfold mbind, fio_bind. pose proof (passive_collect_with (Some (snapshot a)) w) as H1.
  destruct (jf_snapshot_collect _ _ _ _ _ _ w) as [[[rc r]|] w1]; cbn [snd] in H1; [|split; [exact H1|discriminate]].
  destruct (negb _); [split; [exact H1|]; intros r' [= <-]; exact Ha|].
  pose proof (passive_fingerprint r w1) as H2. destruct (fingerprint_of r w1) as [[[rc'|again]|] w2]; cbn [snd] in H2.
  - split; [exact (others_only_trans _ _ _ H1 H2)|]. intros r' [= <-]. exact Ha.
  - split; [exact (others_only_trans _ _ _ H1 H2)|]. intros r'. cbn. destruct (streq again fp); intros [= <-]; exact Ha.
  - split; [exact (others_only_trans _ _ _ H1 H2)|discriminate].
Qed.
Hint Resolve kept_again : passive.

Lemma kept_attempt l cache_path previous prior : kept unstaged (attempt_body fuel root accounts profile compiler true l cache_path previous prior).
Proof. unfold attempt_body, first_snapshot, check_attempt. cbn [negb andb]. passing. Qed.

Lemma passive_end l rc a last prior : unstaged a -> passive (end_attempt root l rc a last prior).
Proof. intros Ha. unfold end_attempt. rewrite Ha. passing. Qed.

Lemma passive_attempts n : forall l cache_path previous prior result,
  passive (attempts fuel root accounts profile compiler true n l cache_path previous prior result).
Proof.
  induction n as [|n IH]; intros l cache_path previous prior result; cbn [attempts]; [apply passive_ret|].
  apply (kept_then unstaged (attempt_body fuel root accounts profile compiler true l cache_path previous prior)); [apply kept_attempt|done|].
  intros [r a] Ha. cbn [snd] in Ha.
  apply passive_bind; [now apply passive_end|]. intros [[[prior' result'] at_path] again]. destruct again; [apply IH|apply passive_ret].
Qed.

Lemma passive_compile : passive (jf_compile fuel root accounts profile compiler true).
Proof.
  assert (forall l cache_path, passive (compile_located fuel root accounts profile compiler true l cache_path)) as HL.
  { intros l cache_path. unfold compile_located, previous_generation. passing; apply passive_attempts. }
  unfold jf_compile. cbn [negb andb]. passing; auto. apply passive_attempts.
Qed.

(** *** The importer *)

Abbreviation no_stage := (fun m : import_run => m_temporary m = None).

Lemma passive_add_limit d n b : passive (add_limit d n b).
Proof. quietly quiet_add_limit. Qed.
Hint Resolve passive_add_limit : passive.
Lemma passive_read_script n script : forall b, passive (read_script n script b).
Proof. induction n as [|n IH]; intros b; cbn [read_script]; [now apply passive_same|]. passing; auto. Qed.
Lemma passive_open_script script : passive (open_script fuel script).
Proof. unfold open_script, Snapshot.open, fstat_fd. passing. apply passive_read_script. Qed.
Lemma passive_snapshot_read prior : passive (jf_snapshot_read fuel root accounts profile compiler prior).
Proof. unfold jf_snapshot_read. passing. Qed.
Lemma passive_overlay over : passive (jf_snapshot_overlay fuel root accounts profile compiler over).
Proof. apply passive_collect. Qed.
Lemma passive_sieve input legacy p : passive (sieve_import input legacy p).
Proof. apply passive_on_heap_res. Qed.
Lemma passive_merge c i o : passive (import_merge c i o).
Proof. apply passive_on_heap_res. Qed.
Lemma passive_originals l is_ : passive (original_inputs fuel root l is_).
Proof.
  induction is_ as [|i t IH]; cbn [original_inputs]; [apply passive_ret|]. apply passive_bind; [unfold original_input; passing|]. intros o. passing.
Qed.
Hint Resolve passive_open_script passive_snapshot_read passive_overlay passive_sieve passive_merge passive_originals : passive.

Lemma kept_unchanged fp : kept no_stage (inputs_unchanged fuel root accounts profile compiler fp).
Proof. unfold inputs_unchanged. passing. Qed.
Hint Resolve kept_unchanged : passive.

Lemma kept_import script legacy engine : kept no_stage (import_steps fuel root accounts profile compiler script legacy true engine).
Proof. unfold import_steps, import_locate, import_changes, import_products. cbn [negb]. passing. Qed.

Lemma passive_import script legacy : passive (jf_compile_import fuel root accounts profile compiler script legacy true).
Proof.
  unfold jf_compile_import. apply passive_bind; [apply passive_join|]. intros engine. apply passive_bind; [apply passive_clear|]. intros u. cbv zeta.
  apply (kept_then no_stage (fun start => match engine with None => mret (inl (ToDone 3), start)
    | Some engine => import_steps fuel root accounts profile compiler script legacy true engine start end)).
  - destruct engine as [engine|]; [apply kept_import|]. apply (kept_value no_stage (fun x => (inl (ToDone 3), x))). auto.
  - done.
  - intros [r m] Hm. cbn [snd] in Hm. rewrite Hm. passing.
Qed.
End Run.
End Check.

(** ** The program under a check *)

Section Program.
Context `{KN : Kernel} `{HP : Heap} `{PT : Paths} `{RX : PosixRegex} `{BS : BookSystem} `{TM : Terminal} (fuel : nat).

(** What a part of the program does to the tree. *)
Definition harmless {A} (m : pio A) : Prop := forall s, others_only (st (engine_world s)) (st (engine_world (m s).2)).
Lemma harmless_ret {A} (a : A) : harmless (mret a).
Proof. intros s. apply others_none. Qed.
Lemma harmless_bind {A B} (m : pio A) (f : A -> pio B) : harmless m -> (forall a, harmless (f a)) -> harmless (m ≫= f).
Proof.
  intros Hm Hf s. unfold mbind, pio_bind. specialize (Hm s). destruct (m s) as [[a|] s']; [|exact Hm].
  exact (others_only_trans _ _ _ Hm (Hf a s')).
Qed.
Lemma harmless_files {A} (m : fio A) : passive m -> harmless (on_files m).
Proof. intros H s. unfold on_files. specialize (H (engine_world s)). now destruct (m (engine_world s)) as [a w]. Qed.
Lemma harmless_book {A} (m : prog A) : harmless (on_book m).
Proof. intros s. unfold on_book. destruct (m (book_world s)) as [a w]. apply others_none. Qed.
Lemma harmless_print o : harmless (print o).
Proof. intros s. apply others_none. Qed.

Ltac harmless :=
  repeat match goal with
  | |- harmless (mret _) => apply harmless_ret
  | |- harmless (_ ≫= _) => apply harmless_bind; [|intros ?]
  | |- harmless (print _) => apply harmless_print
  | |- harmless (on_book _) => apply harmless_book
  | |- harmless (on_files _) => apply harmless_files; auto with passive
  | |- harmless (if ?b then _ else _) => destruct b
  | |- harmless (match ?x with _ => _ end) => destruct x
  end.

Lemma harmless_print_all l : harmless (print_all l).
Proof. induction l as [|b l IH]; cbn [print_all]; harmless. exact IH. Qed.

Lemma harmless_run o root : o_check o = true -> harmless (run_compiler fuel o root).
Proof.
  intros HC. assert (forall r c, passive (compile_it fuel o r c)) as HI.
  { intros r c. unfold compile_it. rewrite HC. destruct (o_import o); [apply passive_import|apply passive_compile]. }
  assert (forall p, passive (absolute p)) as HA by (intros p; unfold absolute; passing).
  unfold run_compiler, warn, report_result. harmless; auto using harmless_print_all.
Qed.

(** C10. A check changes nothing.  When the compiler program is not told to
    compile without [--check], whatever the kernel, the files, the exporters, the
    memory and the terminal answer, and wherever it is cut, it leaves every entry
    of the engine's tree and of the imported files as it was: the tree is what the
    other processes made of it while this one waited for the lock. *)
Theorem compile_check_reads argv s :
  (forall o, parse_arguments (length argv =? 1)%nat argv no_options = Wants o -> o_check o = true) ->
  others_only (st (engine_world s)) (st (engine_world (main fuel argv s).2)).
Proof.
  intros HC. revert s. change (harmless (main fuel argv)).
  assert (harmless (match parse_arguments (length argv =? 1)%nat argv no_options with
    | Prints texts => _ ← print_all (map (fun t => t ++ [LF]) texts); mret 0
    | Misused => usage
    | Wants o =>
        match o_root o with
        | Some root => if o_legacy o && match o_import o with None => true | _ => false end then usage else run_compiler fuel o root
        | None => usage
        end
    end)) as HM.
  { destruct (parse_arguments _ _ _) as [texts| |o]; unfold usage; harmless; auto using harmless_print_all, harmless_run. }
  assert (forall x, harmless (check_address x)) as HAd by (intros x; unfold check_address; harmless).
  assert (forall b e n c, harmless (add_contact fuel b e n c)) as HCo by (intros b e n c; unfold add_contact; harmless).
  unfold main. repeat (case_match; auto).
Qed.
End Program.

(** A system without books, and a terminal that takes everything. *)
Definition no_books : BookSystem := {|
  book_open_new _ _ := inl EACCES; book_open _ _ _ := inl EACCES; book_lstat _ _ := None; book_fstat _ _ := None;
  book_stat _ _ := None; book_lock _ _ _ := None; book_read _ _ := inl EINVAL; book_write _ _ _ := inl EINVAL;
  book_fsync _ _ := false; book_opendir _ _ := None; book_close _ _ := true |}.
Definition sample_terminal : Terminal := {| accepts _ _ := true; working_directory := Some (str "/w") |}.
Definition check_arguments : list bytes := [str "--root"; str "/j"; str "--check"; str "--report0"].
Definition sample_invocation : invocation := Invocation (small_world 0) (0%nat, []) [].

Lemma compile_check_reads_witness :
  parse_arguments false check_arguments no_options = Wants (Options (Some (str "/j")) None None None true true false) /\
  others_only (KN := calm) (st (engine_world sample_invocation)) (st (engine_world
    (main (KN := calm) (HP := granting) (PT := small_paths) (RX := fixed_strings) (BS := no_books) (TM := sample_terminal) 100
       check_arguments sample_invocation).2)).
Proof.
  assert (parse_arguments false check_arguments no_options = Wants (Options (Some (str "/j")) None None None true true false)) as E by reflexivity.
  split; [exact E|]. apply (compile_check_reads (KN := calm) (HP := granting) (PT := small_paths) (RX := fixed_strings) (BS := no_books)
    (TM := sample_terminal) 100 check_arguments sample_invocation). intros o H. change (length check_arguments =? 1)%nat with false in H. rewrite E in H. now injection H as <-.
Defined.
