(* ===== verification/LegacyMain.v ===== *)
(** * The guard of the shell workflow (src/jaro-filter-legacy.c)

    The program reads Filters.txt, refuses rules that the shell engine would drop,
    and runs the given command in place of itself under the engine's lock. *)
From stdpp Require Import gmap.
From S2P Require Import Prelude Sha256 Rules Resolve Classify Policy Bytes Cache Files Generation Snapshot Compile CompileMain.

Section Program.
Context `{KN : Kernel} `{HP : Heap} `{PT : Paths} `{RX : PosixRegex} `{TM : Terminal} (fuel : nat).
(** [execvp] of a command; it returns only when it fails. *)
Context (execvp : list bytes -> fio errno).

(** The loop over [fread], which gives a block, the end, or an error; [None] is
    the label [done]. *)
Fixpoint read_blocks (n : nat) (path : bytes) (b : jf_bytes) : fio (option jf_bytes) :=
  match n with
  | O => cut
  | S n' =>
      r ← answered (fun i => on_read i path (length (contents b)));
      match r with
      | inl _ => mret None
      | inr [] => mret (Some b)
      | inr d =>
          a ← add_limit (take (Z.to_nat 16384) d) JF_INPUT_MAX b;
          match a with Some b => read_blocks n' path b | None => mret None end
      end
  end.

Definition read_filters (path : bytes) : fio (option jf_bytes) :=
  fd ← Snapshot.open path;
  match fd with
  | inl _ => mret None
  | inr _ =>
      b ← read_blocks fuel path no_bytes;
      c ← close;
      mret match b with Some b => if (c : bool) then Some b else None | None => None end
  end.

(** The shell engine keeps the rule. *)
Definition kept_by_legacy (r : jf_rule) : bool :=
  (Rules.stage r =? 2) || (Rules.stage r =? 6) || (Rules.stage r =? 8) || bool_decide (Rules.kind r = JF_ERE).

(** The first rule that would be dropped is the error. *)
Fixpoint check_rules (l : list jf_rule) : fio Z :=
  match l with
  | [] => mret 0
  | r :: t =>
      if kept_by_legacy r then check_rules t
      else
        match jf_product_error (A := unit) "E_LEGACY_POLICY" (line r)
                (str "typed/domain records require JARO_FILTER_ENGINE=native; legacy would discard them") with
        | Fail rc e => _ ← report e; mret rc
        | Ok _ => mret 0
        end
  end.

Definition guard (path : bytes) : fio Z :=
  b ← read_filters path;
  match b with
  | None => mret 3
  | Some b =>
      r ← parse_policy (set_sources [MkSource JF_FILTERS (str "Filters.txt") path (contents b)] no_snapshot);
      match r with
      | Fail rc _ => mret rc
      | Ok p => check_rules (map rule (entries p))
      end
  end.

(** [command] is [None] for a check. *)
Definition run_guarded (root : bytes) (command : option (list bytes)) : pio Z :=
  path ← on_files (_ ← clear_error; Snapshot.join root (str "Filters.txt"));
  match path with
  | None => mret 3
  | Some path =>
      rc ← on_files (guard path);
      rc ← (if rc =? 0 then match command with
            | None => mret 0
            | Some argv => on_files (jf_generation_legacy_run fuel root (execvp argv))
            end
            else mret rc);
      _ ← (if negb (rc =? 0) then e ← on_files get_report; print (Stderr (failure "E_LEGACY_IO" path e)) else mret true);
      mret rc
  end.

(** [main], from its arguments after the name of the program. *)
Definition main (argv : list bytes) : pio Z :=
  match argv with
  | a :: root :: b :: t =>
      if negb (streq a (str "--root")) || (length root =? 0)%nat then mret 2
      else
        match t with
        | [] => if streq b (str "--check") then run_guarded root None else mret 2
        | _ => if streq b (str "--") then run_guarded root (Some t) else mret 2
        end
  | _ => mret 2
  end.

(** ** What the guard lets pass *)

Lemma check_rules_kept l : forall w w', check_rules l w = (Some 0, w') -> Forall (fun r => kept_by_legacy r = true) l.
Proof.
  induction l as [|r t IH]; intros w w'; cbn [check_rules]; [constructor|]. destruct (kept_by_legacy r) eqn:E.
  - intros H. constructor; [exact E|]. exact (IH _ _ H).
  - cbn. discriminate.
Qed.

(** When a check succeeds, the policy that was read has only rules which the shell
    engine keeps. *)
Lemma guard_kept path w w' : guard path w = (Some 0, w') -> exists b p al,
  jf_policy_parse (AL := al) (View [MkSourceArg (source_kind_value JF_FILTERS) (Some (str "Filters.txt")) (Some path) (View (contents b))]) = Ok p /\
  Forall (fun r => kept_by_legacy r = true) (map rule (entries p)).
Proof.
  unfold guard, mbind at 1, fio_bind at 1. destruct (read_filters path w) as [[[b|]|] w1]; [|discriminate..].
  unfold mbind at 1, fio_bind at 1. unfold parse_policy at 1.
  destruct (jf_policy_parse _) as [p|rc e] eqn:E.
  - intros H. eexists b, p, _. split; [exact E|]. exact (check_rules_kept _ _ _ H).
  - assert (policy_status (Fail rc e : res jf_policy)) as HS by (rewrite <- E; apply policy_parse_status). cbn in HS.
    cbn. intros [= -> _]. destruct (String.eqb _ _); discriminate.
Qed.
End Program.
